(* ===== verification/_CoqProject ===== *)
-Q . S2P
Prelude.v
JsText.v
Utf8.v
JsValue.v
Errors.v
Json.v
Storage.v
Effects.v
Retry.v
Predicate.v
Satisfiable.v
Validate.v
Implies.v
IndexCodec.v
Lsn.v
CurrentJson.v
ManifestSafety.v
LogWalk.v
Retention.v
Snapshot.v
LogTail.v
DocId.v
Adoption.v
Writer.v
WriterSafety.v
Indexes.v
QuietCommit.v
QueryPlanner.v
IndexWalk.v
Capacity.v
Query.v
View.v
Compactor.v
GcPending.v
Gc.v
Sort.v
SnapshotCodec.v
SnapshotView.v
ChunkReference.v
ChunkBuilder.v
ChunkRefinement.v
FoldPlanner.v
Budget.v
Maintenance.v
MaintenanceBudget.v
MaintenanceSafety.v
MaintenanceView.v
Db.v
Since.v
Rebuild.v
KeyCodec.v
KeyLock.v
FileSystem.v
LocalFs.v
LocalFsSpec.v
LocalFsRun.v
LocalFsSafety.v
LocalFsList.v
Http.v
Router.v
Client.v
Remote.v
Pool.v
PoolSafety.v
UseQuery.v
Auth.v
Footprint.v
Service.v
Worker.v
R2Binding.v
