(* ===== verification/Prelude.v ===== *)
(** * Baerly storage: a verification of the storage engine

    Baerly storage is a document database whose only server is an object store.  Each
    collection is a set of objects under one prefix: a manifest ([current.json]) updated by
    compare-and-swap, a log with one object per committed mutation at consecutive sequence
    numbers, a snapshot of the rows the log's folded prefix left, index marker objects, and a
    ledger of garbage candidates.  Clients are stateless library calls: every guarantee comes
    from the order in which they read, create, swap and delete objects, so the development
    models those calls one by one.  Paths below are under src/packages/.

    ** The language and the store

    - [JsText], [JsValue]: strings as UTF-16 code units with the library functions the program
      calls; values with exact finite numbers, infinities and NaN, and own keys in order.
    - [Errors] (protocol/src/errors.ts): the code table and its classifications; messages are
      dropped.
    - [Json] (protocol/src/json.ts, bytes.ts): structural equality as the work-stack loop,
      merge patch, the body codec.  A body is the text of a JSON value, or opaque octets.
    - [Storage] (protocol/src/storage): the contract's records, key validity, [MemoryStorage].
    - [Effects]: an [async] function is a tree of storage calls.  [run] executes it alone on a
      [MemoryStorage]; [exec] executes it among other clients, with calls that fail, puts whose
      acknowledgement is lost and puts that land later; [wp] is the weakest precondition the
      concurrent proofs use ([wp_sound], [wp_complete]).
    - [Retry] (storage/retry.ts): the retry loop under a server of arbitrary behaviour, and what
      it may conclude about a conditional create.

    ** The commit path

    - [Lsn] (types.ts, time.ts, log.ts, cursor.ts, log-key.ts): key encodings, LSNs, cursors.
    - [CurrentJson], [ManifestSafety] (coordination/current-json.ts): the manifest's guard,
      reads, creation, compare-and-swap update and claim; the rely-guarantee interface
      ([Guarantee]) every client of the manifest is proved against.
    - [LogWalk], [LogTail] (server/src/log-walk.ts, log-tail.ts): reading and folding entries,
      the galloping and linear tail searches.
    - [DocId], [Adoption] (doc-id.ts, path-segment.ts, snapshot-doc-id.ts, key-limit.ts,
      log-conflict-adoption.ts): identifiers, and recognising one's own entry after a failed create.
    - [Writer], [WriterSafety] (writer.ts): [commit], alone and among other writers.

    ** Queries and indexes

    - [Predicate], [Satisfiable], [Validate], [Implies] (protocol/src/query,
      query-planner-implies.ts): the predicate algebra and its decision procedures.
    - [IndexCodec], [Indexes] (indexes.ts): order-preserving keys and marker maintenance; the
      instance at the end of [Indexes] discharges the interface [Writer] is proved against.
    - [QuietCommit]: [commit] on a storage nobody else touches, with indexes, guard and maintenance,
      against an interface that says where the markers are.
    - [QueryPlanner], [IndexWalk], [Query] (query-planner.ts, query.ts): plans, walks, full scans,
      sorting, the mutation verbs.  [Capacity] (capacity.ts): the growth refusal of the verbs.
    - [View]: the abstract specification, a finite map of rows; the commit step refines a map
      update, reads answer from the map.

    ** The database handle and the change feed

    - [Db] (db.ts, config.ts): validated names, the prefixes they give, and the floor-checked
      reads of a manifest and of the log.
    - [Since] (http/since.ts): cursors, one poll of the feed, and the long poll; what the feed
      delivers alone and among other clients, and that it ends.

    ** Maintenance

    - [Retention] (log-retention.ts): publish a delete floor, then delete the slots below it.
    - [Snapshot] (snapshot.ts), [Compactor] (compactor.ts): sealed snapshots; a fold refines doing
      nothing on the map of rows.
    - [GcPending], [Gc] (coordination/gc-pending.ts, gc.ts): the candidate ledger, and the sweep
      that deletes only below the log start.
    - [Rebuild] (rebuild-index.ts): an index rebuilt from the live rows, and its dry run.
    - [Maintenance] (maintenance.ts): profiles, gates, the scheduled pass and the write tick, a
      small state-and-error monad over programs for the flag its phases share.
      [MaintenanceView]: it keeps the represented rows; a commit and the tick it dispatches refine
      one update of them, and the next read sees it;
      [MaintenanceSafety]: it keeps the guarantee of its parts among other clients;
      [Budget], [MaintenanceBudget]: bounds on storage calls for every behaviour of the store.

    ** Chunked snapshots

    The layout docs/adr/007 specifies, whose code no live path calls yet.
    - [Sort]: insertion sort by a strict order, what [toSorted] computes, and its uniqueness.
    - [SnapshotCodec] (snapshot-codec.ts, snapshot-chunk.ts, snapshot-manifest.ts): canonical
      documents, chunks and manifests, their keys and strict decoders.
    - [SnapshotView] (snapshot-view.ts): point reads, scans and materialisation through a manifest.
    - [ChunkReference] (chunked-snapshot-reference.ts): the reference fold, the abstract
      specification of a fold.
    - [ChunkBuilder], [ChunkRefinement] (snapshot-chunk-builder.ts): routing, the greedy split,
      the neighbour merge, minting; whatever a build answers holds the reference's rows, and when
      it is bound to answer.
    - [FoldPlanner] (chunked-fold-planner.ts): the metadata walk and the admitted prefix, within
      every budget, building the reference fold of a prefix of the log.

    ** The local file-system adapter

    - [Utf8]: the strict decoder of UTF-8, inverse to the encoder of [JsText].
    - [KeyCodec] (dev/src/local-fs-key-codec.ts): keys as portable relative paths and back.
    - [KeyLock] (dev/src/key-lock.ts): the keyed mutex, a state machine over promises.
    - [FileSystem]: the calls of [node:fs/promises] the adapter makes, on a tree whose names
      may be compared after folding.
    - [LocalFs] (dev/src/local-fs.ts): format check, path resolution, staged writes, the
      conditional [put] and [delete], [get] and [list], as programs over those calls.
    - [LocalFsSpec]: concurrent calls interleaving at every file-system call, with calls that
      fail, against one atomic store.  [LocalFsSafety]: the first refines the second.
      [LocalFsRun], [LocalFsList]: a call by itself, and the listing it answers.

    ** The HTTP layer

    - [Http] (server/src/contract.ts, the error half of http/router.ts, code-resolution.ts,
      uuid.ts): requests and responses, minted ids, the error envelope and its message policy.
    - [Router] (http/router.ts): every route over the operations of [Query], [Db] and [Since].
    - [Client] (client/src/client.ts, request.ts, request-retry.ts, poll-since-once.ts): the
      client's operations as trees of fetches and sleeps, with the request loop's retries.
    - [Remote]: client and router connected, against the same operations in process.
    - [Pool], [PoolSafety] (client/src/react/subscription-pool.ts, subscription-retry.ts): the pool
      of live queries as a state machine at its [await]s, and its invariant.  [UseQuery]
      (use-query.ts, stable-key.ts): the recorder and the signature that names a pool entry.

    ** The hosts

    - [Auth] (protocol/src/verifier.ts, server/src/auth): verifiers over the headers of a request.
    - [Footprint]: the keys a program touches whatever the storage answers, followed through every
      operation from a log read to a maintenance tick.
    - [Service] (adapter-node/src/server.ts, spec/runtime-spec.ts): one request of the Node host, with
      the router over the writer, the maintenance it dispatches and the long poll put together.
    - [Worker] (adapter-cloudflare/src/worker.ts, cache.ts): the same for the Cloudflare Worker, and
      its read cache under overlapping calls: a step relation on the cache, the calls at their
      [await]s and the invalidations still to run.
    - [R2Binding] (r2-binding-storage.ts): [Storage] over a bucket binding, a parameter with named
      laws on a map of bodies and ETags; paging, conditions and the retried calls keep the storage
      contract on that map.

    ** What the theorems show

    Concurrent safety, in every execution of [exec]: a commit leaves at most one entry
    ([WriterSafety]), manifest floors never go down ([ManifestSafety]), retirement and garbage
    collection delete only what the stored manifest has given up ([Retention], [Gc]).  Each
    assumes of the other clients the relation it guarantees itself, named [*_rely].
    Functional and refinement theorems are about [run], the call without interference:
    [commit], [compact], the reads and the verbs against [LogWalk.fold_entry] and [View.rows_map],
    and the HTTP client against the collection in process ([Remote]).
    Confinement is about every answer of the store: the requests of a host stay under the prefix of the
    tenant its verifier named ([Service]), and its cache keeps tenants apart ([Worker]).
    The rest are decision procedures against their meaning ([Implies], [Satisfiable],
    [Validate], [Predicate]), orders and codecs against reference orders ([IndexCodec], [DocId],
    [Lsn]), round trips, and bounds ([Retry], [Capacity], [LogTail]).
    Lemmas that are not properties record where the code falls short of its comments
    ([Implies.predicateImplies_in_with_range], [IndexWalk.partial_prefix_walk_misses],
    [IndexCodec.string_orders_differ], [ChunkRefinement.oversized_neighbor_fails] and others
    named in the files).

    ** Choices

    - Fuel: the long poll takes a number of ticks, shown to suffice when it is the time-out over
      the interval; [findLogTail] gets 18 doublings, as many as the forward cap of the search admits,
      and running out is an error the theorems exclude; the linear probes recurse on their cap;
      [b32_emit] gets 3 because an accumulator of at most 15 bits emits at most 3 digits;
      [in_walk] recurses on the list of values; the greedy split gets one turn per document and
      the binary searches one per element, each turn consuming at least one.  Retry and compare-and-swap loops recurse on
      the attempts the code allows.
    - Integers are [Z] where the code keeps them safe integers; the guards that reject other
      numbers are modelled where the code has them.  Index numbers are IEEE doubles, bit by bit.
    - [Promise.all] over deletes and marker puts issues every call; over reads it is sequential,
      which no theorem can tell apart since each read is atomic.  A listing is answered at once.
    - Parameters: SHA-256 ([sha256], [sha256_hex]), the octets and length of a JSON text,
      Unicode NFC, [toLowerCase], the order [<] on mixed operands, [Date.parse], the clock, the
      random jitter, the schema validator, the folding of the file system's names and the
      resolved root directory.  Theorems quantify over them, with named hypotheses where one is needed.
    - [__proto__] as a property name reads as an empty object; objects are compared by
      structure, and clones are the value itself.

    ** Not modelled

    Metrics, logging and tracing; abort signals except where they change an outcome; the rendering
    side of the React hooks, the object-store clients of the Node adapter, the command line, scaffolder
    and development servers, which carry requests to the operations above.  Of the HTTP layer: the web framework (its path matching is the parameter
    [route]), the percent-encoding of query strings, headers other than those read, and the texts of
    errors ([describe]).  Of authentication: the verification of a token, a parameter.  Of the hosts:
    body streaming, static assets, and that a Worker's maintenance outlives the response.  Of the local
    adapter: abort signals inside a call, a process that dies between two calls, and several processes
    on one root.
    Not proved: the commit theorem among clients that retire log slots during the call. *)

From Stdlib Require Export Ascii NArith ZArith.
From stdpp Require Export base gmap strings numbers option relations list.
From stdpp Require Import options.

(** A goal solver for the arithmetic and option goals the components leave. *)
Ltac crush := repeat (simplify_eq/=; try case_decide; try case_match); try done; try lia.

(** Split every conjunction and existential of the context. *)
Ltac split_all :=
  repeat match goal with
  | H : _ /\ _ |- _ => destruct H
  | H : exists _, _ |- _ => destruct H
  end.

Create HintDb baerly.

(** ** Lists *)
Section lists.
  Context {A : Type}.
  Implicit Types l : list A.

Lemma lookup_snoc_eq l x : (l ++ [x]) !! length l = Some x.
Proof. rewrite lookup_app_r by lia. by rewrite Nat.sub_diag. Qed.
End lists.

Lemma mjoin_cons {A} (x : list A) (xs : list (list A)) : mjoin (x :: xs) = x ++ mjoin xs.
Proof. done. Qed.

Lemma seqZ_head (a n : Z) : (0 <= n)%Z -> seqZ a (1 + n) = a :: seqZ (a + 1) n.
Proof. intros H. rewrite seqZ_cons by lia. f_equal. f_equal; lia. Qed.
