(* ===== verification/JsText.v ===== *)
(** * JavaScript strings

    A JavaScript string is the list of its UTF-16 code units.  This file holds
    what the program uses of the language's string library: literals, relational
    comparison, [split]/[join]/[startsWith]/[includes]/[padStart], the integer
    printing of [Number.prototype.toString(radix)] and [parseInt], code points,
    and the UTF-8 encoding of [TextEncoder].  Everything is executable. *)
From S2P Require Import Prelude.
Local Open Scope N_scope.

Abbreviation jsstr := (list N).

(** An ASCII literal. *)
Definition js (s : string) : jsstr := N_of_ascii <$> String.list_ascii_of_string s.

Global Instance js_inj : Inj (=) (=) js.
Proof.
  intros s t H. unfold js in H.
  rewrite <- (String.string_of_list_ascii_of_string s),
    <- (String.string_of_list_ascii_of_string t). f_equal.
  revert H. apply (list_fmap_eq_inj _). intros a b E.
  by rewrite <- (ascii_N_embedding a), <- (ascii_N_embedding b), E.
Qed.

(** ** Relational comparison of strings: by code unit, a proper prefix first. *)
Fixpoint str_ltb (a b : jsstr) : bool :=
  match a, b with
  | _, [] => false
  | [], _ :: _ => true
  | x :: a', y :: b' => if x <? y then true else if y <? x then false else str_ltb a' b'
  end.

Definition str_leb (a b : jsstr) : bool := negb (str_ltb b a).

Lemma str_ltb_irrefl a : str_ltb a a = false.
Proof. induction a as [|x a IH]; simpl; [done|]. by rewrite !N.ltb_irrefl. Qed.

Lemma str_ltb_trans a b c : str_ltb a b = true -> str_ltb b c = true -> str_ltb a c = true.
Proof.
  revert b c. induction a as [|x a IH]; intros [|y b] [|z c]; simpl; try done.
  destruct (N.ltb_spec x y), (N.ltb_spec y x), (N.ltb_spec y z), (N.ltb_spec z y),
    (N.ltb_spec x z), (N.ltb_spec z x); try lia; try done. apply IH.
Qed.

Lemma str_ltb_total a b : str_ltb a b = true \/ a = b \/ str_ltb b a = true.
Proof.
  revert b. induction a as [|x a IH]; intros [|y b]; simpl; [tauto..|].
  destruct (N.ltb_spec x y), (N.ltb_spec y x); try lia; [tauto..|].
  replace y with x by lia. destruct (IH b) as [?|[->|?]]; tauto.
Qed.

Lemma str_ltb_asym a b : str_ltb a b = true -> str_ltb b a = false.
Proof.
  intros H. destruct (str_ltb b a) eqn:E; [|done].
  by rewrite <- (str_ltb_irrefl a), (str_ltb_trans a b a).
Qed.

Lemma str_ltb_app_l p a b : str_ltb (p ++ a) (p ++ b) = str_ltb a b.
Proof. induction p as [|x p IH]; simpl; [done|]. by rewrite N.ltb_irrefl. Qed.

(** ** [split] on a one-unit separator, [join], [startsWith], [includes] *)
Fixpoint split_on (c : N) (s : jsstr) : list jsstr :=
  match s with
  | [] => [[]]
  | x :: s' =>
    if x =? c then [] :: split_on c s'
    else match split_on c s' with
         | [] => [[x]]
         | seg :: segs => (x :: seg) :: segs
         end
  end.

Fixpoint join_with (sep : jsstr) (segs : list jsstr) : jsstr :=
  match segs with
  | [] => []
  | [seg] => seg
  | seg :: segs' => seg ++ sep ++ join_with sep segs'
  end.

Fixpoint starts_with (p s : jsstr) : bool :=
  match p, s with
  | [], _ => true
  | _ :: _, [] => false
  | x :: p', y :: s' => (x =? y) && starts_with p' s'
  end.

Definition includes_unit (c : N) (s : jsstr) : bool := existsb (N.eqb c) s.

Lemma starts_with_spec p s : starts_with p s = true <-> exists t, s = p ++ t.
Proof.
  revert s. induction p as [|x p IH]; intros s; simpl.
  { split; [by exists s | done]. }
  destruct s as [|y s]; simpl; [split; [done | by intros [t ?]]|].
  rewrite andb_true_iff, N.eqb_eq, IH. split.
  - intros [-> [t ->]]. by exists t.
  - intros [t H]. simplify_eq. eauto.
Qed.

Lemma split_on_not_nil c s : split_on c s <> [].
Proof. destruct s as [|x s]; simpl; [done|]. repeat case_match; done. Qed.

(** A string without the separator is its own only segment. *)
Lemma split_on_no_sep c s : c ∉ s -> split_on c s = [s].
Proof.
  induction s as [|x s IH]; simpl; [done|]. intros H.
  rewrite not_elem_of_cons in H. destruct H as [Hx Hs].
  destruct (N.eqb_spec x c) as [->|]; [done|]. by rewrite IH.
Qed.

Lemma split_on_app_sep c s t : c ∉ s -> split_on c (s ++ c :: t) = s :: split_on c t.
Proof.
  induction s as [|x s IH]; simpl; intros H; [by rewrite N.eqb_refl|].
  rewrite not_elem_of_cons in H. destruct H as [Hx Hs].
  destruct (N.eqb_spec x c) as [->|]; [done|]. by rewrite IH.
Qed.

Lemma join_split c s : join_with [c] (split_on c s) = s.
Proof.
  induction s as [|x s IH]; simpl; [done|].
  pose proof (split_on_not_nil c s).
  destruct (N.eqb_spec x c) as [->|]; destruct (split_on c s) as [|seg segs]; try done.
  - by rewrite <- IH.
  - rewrite <- IH. by destruct segs.
Qed.

(** The last segment is what follows the last separator. *)
Lemma split_join c segs : segs <> [] -> Forall (fun s => c ∉ s) segs ->
  split_on c (join_with [c] segs) = segs.
Proof.
  induction segs as [|s segs IH]; [done|]. intros _ [Hs Hsegs]%Forall_cons.
  destruct segs as [|s' segs]; cbn [join_with]; [by apply split_on_no_sep|].
  cbn [app]. rewrite split_on_app_sep by done. f_equal. by apply IH.
Qed.

Lemma split_on_last c p s : c ∉ s -> split_on c (p ++ c :: s) = split_on c p ++ [s].
Proof.
  intros Hs. induction p as [|x p IH]; cbn [app split_on].
  - by rewrite N.eqb_refl, split_on_no_sep.
  - rewrite IH. destruct (x =? c)%N; [done|].
    pose proof (split_on_not_nil c p). by destruct (split_on c p).
Qed.

(** [s.slice(s.lastIndexOf(c) + 1)] *)
Definition after_last (c : N) (s : jsstr) : jsstr := default s (last (split_on c s)).

Lemma after_last_app c p s : c ∉ s -> after_last c (p ++ c :: s) = s.
Proof. intros Hs. unfold after_last. by rewrite split_on_last, last_snoc. Qed.

(** [s.endsWith(suffix)] *)
Definition ends_with (suffix s : jsstr) : bool := starts_with (reverse suffix) (reverse s).

(** [s.slice(0, -suffix.length)] when [s] ends with the suffix, [s] otherwise. *)
Definition strip_suffix (suffix s : jsstr) : jsstr :=
  if ends_with suffix s then take (length s - length suffix) s else s.

Lemma ends_with_app suffix p : ends_with suffix (p ++ suffix) = true.
Proof. unfold ends_with. rewrite reverse_app. apply starts_with_spec. by eexists. Qed.

Lemma strip_suffix_app suffix p : strip_suffix suffix (p ++ suffix) = p.
Proof.
  unfold strip_suffix. rewrite ends_with_app, length_app.
  replace (length p + length suffix - length suffix)%nat with (length p) by lia. apply take_app_length.
Qed.

(** No segment contains the separator. *)
Lemma split_on_segments c s seg : seg ∈ split_on c s -> c ∉ seg.
Proof.
  revert seg. induction s as [|x s IH]; simpl; intros seg.
  { rewrite list_elem_of_singleton. intros ->. apply not_elem_of_nil. }
  destruct (N.eqb_spec x c) as [->|].
  - rewrite elem_of_cons. intros [->|?]; [apply not_elem_of_nil | by apply IH].
  - destruct (split_on c s) as [|seg0 segs] eqn:E; rewrite elem_of_cons.
    + intros [->|Hin]; [by rewrite list_elem_of_singleton; intros -> | inversion Hin].
    + intros [->|Hin].
      * rewrite not_elem_of_cons. split; [congruence|]. apply IH, elem_of_cons. by left.
      * apply IH, elem_of_cons. by right.
Qed.

(** ** Printing and parsing non-negative integers *)

(** [Number.prototype.toString]'s digit characters, [0-9a-v]. *)
Definition digit_unit (d : N) : N := if d <? 10 then 48 + d else 87 + d.

(** The digits of [n], most significant first. *)
Fixpoint radix_go (fuel : nat) (b n : N) (acc : list N) : list N :=
  match fuel with
  | O => acc
  | S f =>
    let acc' := n mod b :: acc in
    if n / b =? 0 then acc' else radix_go f b (n / b) acc'
  end.

(** [N.size_nat n] digits are enough in every radix from 2 up. *)
Definition radix_digits (b n : N) : list N := radix_go (S (N.size_nat n)) b n [].

(** [n.toString(b)] of a non-negative integer. *)
Definition to_radix (b n : N) : jsstr := digit_unit <$> radix_digits b n.

Definition pad_start (w : nat) (c : N) (s : jsstr) : jsstr := replicate (w - length s) c ++ s.

(** The value of a digit character in [0-9a-zA-Z], as [parseInt] reads it. *)
Definition unit_digit (u : N) : option N :=
  if (48 <=? u) && (u <=? 57) then Some (u - 48)
  else if (97 <=? u) && (u <=? 122) then Some (u - 87)
  else if (65 <=? u) && (u <=? 90) then Some (u - 55)
  else None.

Definition radix_digit (b u : N) : option N :=
  match unit_digit u with
  | Some d => if d <? b then Some d else None
  | None => None
  end.

(** The value of the longest digit prefix and whether it has a digit at all. *)
Fixpoint parse_digits (b acc : N) (s : jsstr) : N :=
  match s with
  | [] => acc
  | u :: s' => match radix_digit b u with
               | Some d => parse_digits b (acc * b + d) s'
               | None => acc
               end
  end.

(** StrWhiteSpace, the code units [parseInt] skips. *)
Definition is_space (u : N) : bool :=
  bool_decide (u ∈ [9; 10; 11; 12; 13; 32; 160; 5760; 8232; 8233; 8239; 8287; 12288; 65279])
  || ((8192 <=? u) && (u <=? 8202)).

Fixpoint skip_space (s : jsstr) : jsstr :=
  match s with
  | u :: s' => if is_space u then skip_space s' else s
  | [] => []
  end.

(** An optional sign: whether it is a minus, and the rest. *)
Definition parse_sign (s : jsstr) : bool * jsstr :=
  match s with
  | u :: s' => if u =? 45 then (true, s') else if u =? 43 then (false, s') else (false, s)
  | [] => (false, [])
  end.

(** [parseInt(s, b)]: [None] is [NaN].  The result is the exact integer; a
    double rounds it beyond 2^53, which 11 base-32 digits of a minted key with
    leading zeros never reach. *)
Definition parse_int (b : N) (s : jsstr) : option Z :=
  let (neg, s) := parse_sign (skip_space s) in
  match s with
  | u :: _ => match radix_digit b u with
              | Some _ => let v := Z.of_N (parse_digits b 0 s) in
                          Some (if neg : bool then (- v)%Z else v)
              | None => None
              end
  | [] => None
  end.

Lemma digit_unit_radix b d : d < b -> b <= 32 -> radix_digit b (digit_unit d) = Some d.
Proof.
  intros Hd Hb. unfold radix_digit, unit_digit, digit_unit.
  destruct (N.ltb_spec d 10).
  - replace ((48 <=? 48 + d) && (48 + d <=? 57)) with true by
      (symmetry; rewrite andb_true_iff, !N.leb_le; lia).
    replace (48 + d - 48) with d by lia. by destruct (N.ltb_spec d b); [|lia].
  - replace ((48 <=? 87 + d) && (87 + d <=? 57)) with false by
      (symmetry; rewrite andb_false_iff, !N.leb_gt; lia).
    replace ((97 <=? 87 + d) && (87 + d <=? 122)) with true by
      (symmetry; rewrite andb_true_iff, !N.leb_le; lia).
    replace (87 + d - 87) with d by lia. by destruct (N.ltb_spec d b); [|lia].
Qed.

Lemma digit_unit_mono d e : d < e -> digit_unit d < digit_unit e.
Proof. unfold digit_unit. destruct (N.ltb_spec d 10), (N.ltb_spec e 10); lia. Qed.

(** *** Printing is correct *)

(** Horner value of a digit list. *)
Definition digits_value (b acc : N) (ds : list N) : N := foldl (fun a d => a * b + d) acc ds.

Lemma digits_value_cons b acc d ds :
  digits_value b acc (d :: ds) = digits_value b (acc * b + d) ds.
Proof. done. Qed.

Lemma digits_value_app b acc ds es :
  digits_value b acc (ds ++ es) = digits_value b (digits_value b acc ds) es.
Proof. apply foldl_app. Qed.

Lemma digits_value_acc b acc ds :
  digits_value b acc ds = acc * b ^ N.of_nat (length ds) + digits_value b 0 ds.
Proof.
  revert acc. induction ds as [|d ds IH]; intros acc; cbn [length].
  { unfold digits_value. simpl. lia. }
  rewrite !digits_value_cons, IH, (IH (0 * b + d)), Nat2N.inj_succ, N.pow_succ_r'. lia.
Qed.

Lemma digits_value_bound b ds : Forall (fun d => d < b) ds ->
  digits_value b 0 ds < b ^ N.of_nat (length ds).
Proof.
  induction 1 as [|d ds Hd _ IH]; [simpl; lia|]. cbn [length].
  rewrite digits_value_cons, digits_value_acc, Nat2N.inj_succ, N.pow_succ_r'. nia.
Qed.

Lemma radix_go_spec f b n acc : 2 <= b -> n < 2 ^ N.of_nat f ->
  exists ds, radix_go (S f) b n acc = ds ++ acc /\ digits_value b 0 ds = n /\
    Forall (fun d => d < b) ds /\ ds <> [] /\ (0 < n -> hd 0 ds <> 0).
Proof.
  intros Hb. revert n acc. induction f as [|f IH]; intros n acc Hn.
  - assert (n = 0) as -> by (simpl in Hn; lia). exists [0]. cbn [radix_go].
    rewrite N.Div0.div_0_l, N.Div0.mod_0_l. simpl.
    repeat split; try done; [constructor; [lia|done]].
  - remember (S f) as f'. cbn [radix_go]. subst f'.
    pose proof (N.mod_lt n b ltac:(lia)) as Hm.
    pose proof (N.div_mod n b ltac:(lia)) as Hdm.
    destruct (N.eqb_spec (n / b) 0) as [E|E].
    + exists [n mod b]. unfold digits_value. simpl. repeat split; try done; [nia| |].
      * by constructor.
      * intros ?. nia.
    + rewrite Nat2N.inj_succ, N.pow_succ_r' in Hn.
      destruct (IH (n / b) (n mod b :: acc)) as (ds & Hgo & Hv & Hds & Hne & Hhd).
      { apply N.Div0.div_lt_upper_bound. nia. }
      exists (ds ++ [n mod b]). rewrite Hgo, <- app_assoc. split; [done|].
      rewrite digits_value_app, Hv. unfold digits_value. simpl. split; [nia|].
      split; [apply Forall_app; split; [done|by constructor]|].
      split; [by destruct ds|]. intros _. destruct ds; [done|]. simpl in *. apply Hhd. lia.
Qed.

Lemma size_nat_bound n : n < 2 ^ N.of_nat (N.size_nat n).
Proof.
  replace (N.of_nat (N.size_nat n)) with (N.size n); [apply N.size_gt|].
  destruct n as [|p]; simpl; [done|]. induction p; simpl in *; lia.
Qed.

Lemma radix_digits_spec b n : 2 <= b ->
  digits_value b 0 (radix_digits b n) = n /\ Forall (fun d => d < b) (radix_digits b n) /\
  radix_digits b n <> [] /\ (0 < n -> hd 0 (radix_digits b n) <> 0).
Proof.
  intros Hb. destruct (radix_go_spec (N.size_nat n) b n [] Hb (size_nat_bound n))
    as (ds & Hgo & ?). unfold radix_digits. rewrite Hgo, app_nil_r. done.
Qed.

(** A number below [b ^ w] prints in at most [w] digits ([w] positive). *)
Lemma radix_digits_length b n w : 2 <= b -> n < b ^ N.of_nat (S w) ->
  (length (radix_digits b n) <= S w)%nat.
Proof.
  intros Hb Hn. destruct (radix_digits_spec b n Hb) as (Hv & Hds & Hne & Hhd).
  destruct (decide (n = 0)) as [->|Hpos].
  { unfold radix_digits. cbn [radix_go N.size_nat].
    rewrite N.Div0.div_0_l. simpl. lia. }
  destruct (radix_digits b n) as [|d ds]; [done|]. cbn [length hd] in *.
  - specialize (Hhd ltac:(lia)). destruct (Nat.le_gt_cases (length ds) w); [lia|]. exfalso.
    rewrite digits_value_cons, digits_value_acc in Hv.
    assert (b ^ N.of_nat (S w) <= b ^ N.of_nat (length ds)) by (apply N.pow_le_mono_r; lia).
    nia.
Qed.

(** *** Parsing inverts printing, and padded digits compare like numbers *)

Lemma parse_digits_units b acc ds : b <= 32 -> Forall (fun d => d < b) ds ->
  parse_digits b acc (digit_unit <$> ds) = digits_value b acc ds.
Proof.
  intros Hb Hds. revert acc. induction Hds as [|d ds Hd _ IH]; intros acc; [done|].
  rewrite fmap_cons, digits_value_cons. cbn [parse_digits].
  by rewrite digit_unit_radix, IH.
Qed.

(** The first character of a digit string is neither a space nor a sign. *)
Lemma parse_int_units b ds : b <= 32 -> Forall (fun d => d < b) ds -> ds <> [] ->
  parse_int b (digit_unit <$> ds) = Some (Z.of_N (digits_value b 0 ds)).
Proof.
  intros Hb Hds Hne. destruct Hds as [|d ds Hd Hds]; [done|]. unfold parse_int. rewrite fmap_cons.
  assert (Hr : (48 <= digit_unit d <= 57) \/ (97 <= digit_unit d <= 118)).
  { unfold digit_unit. destruct (N.ltb_spec d 10); lia. }
  assert (Hsp : is_space (digit_unit d) = false).
  { unfold is_space. rewrite orb_false_iff, andb_false_iff, bool_decide_eq_false, !N.leb_gt.
    split; [|lia]. rewrite !not_elem_of_cons. repeat split; try lia. apply not_elem_of_nil. }
  cbn [skip_space]. rewrite Hsp. cbn [parse_sign].
  rewrite (proj2 (N.eqb_neq _ 45)), (proj2 (N.eqb_neq _ 43)) by lia.
  rewrite digit_unit_radix by done.
  rewrite <- fmap_cons, parse_digits_units; [done..|]. by constructor.
Qed.

Lemma parse_int_to_radix b n : 2 <= b <= 32 -> parse_int b (to_radix b n) = Some (Z.of_N n).
Proof.
  intros Hb. destruct (radix_digits_spec b n) as (Hv & Hds & Hne & _); [lia|].
  unfold to_radix. rewrite parse_int_units by (done || lia). by rewrite Hv.
Qed.

(** Padding with ["0"] is padding the digit list with zeros. *)
Lemma pad_start_digits w ds :
  pad_start w 48 (digit_unit <$> ds) = digit_unit <$> (replicate (w - length ds) 0 ++ ds).
Proof. unfold pad_start. by rewrite fmap_app, fmap_replicate, length_fmap. Qed.

Lemma digits_value_zeros b k ds : digits_value b 0 (replicate k 0 ++ ds) = digits_value b 0 ds.
Proof.
  induction k as [|k IH]; [done|]. rewrite replicate_S, <- app_comm_cons.
  by rewrite digits_value_cons, N.mul_0_l, N.add_0_l.
Qed.

Lemma parse_int_padded b w n : 2 <= b <= 32 ->
  parse_int b (pad_start w 48 (to_radix b n)) = Some (Z.of_N n).
Proof.
  intros Hb. destruct (radix_digits_spec b n) as (Hv & Hds & Hne & _); [lia|].
  unfold to_radix. rewrite pad_start_digits, parse_int_units; [|lia| |].
  - by rewrite digits_value_zeros, Hv.
  - apply Forall_app. split; [|done]. apply Forall_replicate. lia.
  - by destruct (replicate _ _), (radix_digits b n).
Qed.

Lemma digits_compare b ds es : length ds = length es ->
  Forall (fun d => d < b) ds -> Forall (fun d => d < b) es ->
  str_ltb (digit_unit <$> ds) (digit_unit <$> es) = (digits_value b 0 ds <? digits_value b 0 es).
Proof.
  intros Hlen Hds. revert es Hlen. induction Hds as [|d ds Hd Hds IH]; intros [|e es] Hlen Hes;
    try done; simpl in Hlen. inversion Hes as [|?? He Hes']; subst.
  rewrite !digits_value_cons, (digits_value_acc b _ ds), (digits_value_acc b _ es).
  pose proof (digits_value_bound b ds Hds) as Bd. pose proof (digits_value_bound b es Hes') as Be.
  injection Hlen as Hlen. rewrite <- Hlen in *.
  rewrite !fmap_cons. cbn [str_ltb].
  destruct (N.lt_trichotomy d e) as [H|[->|H]].
  - apply digit_unit_mono in H as H'. rewrite (proj2 (N.ltb_lt _ _) H').
    symmetry. apply N.ltb_lt. nia.
  - rewrite N.ltb_irrefl, IH by done. apply Bool.eq_true_iff_eq. rewrite !N.ltb_lt. lia.
  - apply digit_unit_mono in H as H'.
    rewrite (proj2 (N.ltb_ge _ _)) by lia. rewrite (proj2 (N.ltb_lt _ _) H').
    symmetry. apply N.ltb_ge. nia.
Qed.

(** Fixed-width radix strings: width, and lexicographic order is numeric order. *)
Lemma padded_length b w n : 2 <= b -> n < b ^ N.of_nat (S w) ->
  length (pad_start (S w) 48 (to_radix b n)) = S w.
Proof.
  intros Hb Hn. pose proof (radix_digits_length b n w Hb Hn).
  unfold pad_start, to_radix. rewrite length_app, length_replicate, length_fmap. lia.
Qed.

Lemma padded_order b w m n : 2 <= b -> m < b ^ N.of_nat (S w) -> n < b ^ N.of_nat (S w) ->
  str_ltb (pad_start (S w) 48 (to_radix b m)) (pad_start (S w) 48 (to_radix b n)) = (m <? n).
Proof.
  intros Hb Hm Hn. pose proof (radix_digits_length b m w Hb Hm) as Lm.
  pose proof (radix_digits_length b n w Hb Hn) as Ln.
  destruct (radix_digits_spec b m Hb) as (Vm & Dm & _), (radix_digits_spec b n Hb) as (Vn & Dn & _).
  unfold to_radix. rewrite !pad_start_digits, (digits_compare b).
  - by rewrite !digits_value_zeros, Vm, Vn.
  - rewrite !length_app, !length_replicate. lia.
  - apply Forall_app. split; [apply Forall_replicate; lia | done].
  - apply Forall_app. split; [apply Forall_replicate; lia | done].
Qed.

Lemma to_radix_inj b m n : 2 <= b <= 32 -> to_radix b m = to_radix b n -> m = n.
Proof.
  intros Hb H. apply (f_equal (parse_int b)) in H.
  rewrite !parse_int_to_radix in H by done. by simplify_eq.
Qed.

(** Every character of a printed number is a digit of the radix. *)
Lemma to_radix_units b n u : 2 <= b -> u ∈ to_radix b n -> exists d, d < b /\ u = digit_unit d.
Proof.
  intros Hb Hu. destruct (radix_digits_spec b n Hb) as (_ & Hds & _).
  apply list_elem_of_fmap in Hu as (d & -> & Hd). rewrite Forall_forall in Hds. exists d.
  split; [by apply Hds | done].
Qed.

(** ** Code points and UTF-8 *)

Definition is_high (u : N) : bool := (55296 <=? u) && (u <=? 56319).
Definition is_low (u : N) : bool := (56320 <=? u) && (u <=? 57343).

(** The code points a [codePointAt] traversal visits; an unpaired surrogate is
    visited as itself. *)
Fixpoint code_points (s : jsstr) : list N :=
  match s with
  | [] => []
  | u :: s1 =>
    match s1 with
    | v :: s2 =>
      if is_high u && is_low v
      then (65536 + (u - 55296) * 1024 + (v - 56320)) :: code_points s2
      else u :: code_points s1
    | [] => [u]
    end
  end.

(** The UTF-8 bytes of one code point; a surrogate encodes as U+FFFD. *)
Definition utf8_point (p : N) : list N :=
  if p <? 128 then [p]
  else if p <? 2048 then [192 + p / 64; 128 + p mod 64]
  else if is_high p || is_low p then [239; 191; 189]
  else if p <? 65536 then [224 + p / 4096; 128 + (p / 64) mod 64; 128 + p mod 64]
  else [240 + p / 262144; 128 + (p / 4096) mod 64; 128 + (p / 64) mod 64; 128 + p mod 64].

(** [new TextEncoder().encode(s)]. *)
Definition utf8_encode (s : jsstr) : list N := mjoin (utf8_point <$> code_points s).

Definition is_scalar (p : N) : Prop := p < 1114112 /\ ~ (55296 <= p <= 57343).

Lemma str_ltb_cons a b x y :
  a < b \/ (a = b /\ str_ltb x y = true) -> str_ltb (a :: x) (b :: y) = true.
Proof.
  cbn [str_ltb]. intros [H|[-> H]]; [by rewrite (proj2 (N.ltb_lt _ _) H)|].
  by rewrite N.ltb_irrefl.
Qed.

(** Linear arithmetic with division by constants. *)
Ltac lia_div := zify; Z.to_euclidean_division_equations; lia.

(** The base-64 digits of a code point. *)
Lemma base64_digits p : exists c3 c2 c1 c0,
  p = c3 * 262144 + c2 * 4096 + c1 * 64 + c0 /\ c2 < 64 /\ c1 < 64 /\ c0 < 64 /\
  p mod 64 = c0 /\ p / 64 = c3 * 4096 + c2 * 64 + c1 /\ (p / 64) mod 64 = c1 /\
  p / 4096 = c3 * 64 + c2 /\ (p / 4096) mod 64 = c2 /\ p / 262144 = c3.
Proof.
  exists (p / 262144), ((p / 4096) mod 64), ((p / 64) mod 64), (p mod 64).
  repeat split; lia_div.
Qed.

(** On scalar values the encoding is order-preserving even when the encodings
    are continued by anything. *)
Lemma utf8_point_order p q x y : is_scalar p -> is_scalar q -> p < q ->
  str_ltb (utf8_point p ++ x) (utf8_point q ++ y) = true /\
  str_ltb (utf8_point q ++ y) (utf8_point p ++ x) = false.
Proof.
  unfold is_scalar. intros Hp Hq Hlt. unfold utf8_point.
  replace (is_high p || is_low p) with false by
    (symmetry; unfold is_high, is_low; rewrite orb_false_iff, !andb_false_iff, !N.leb_gt; lia).
  replace (is_high q || is_low q) with false by
    (symmetry; unfold is_high, is_low; rewrite orb_false_iff, !andb_false_iff, !N.leb_gt; lia).
  enough (H : str_ltb ((if p <? 128 then [p]
    else if p <? 2048 then [192 + p / 64; 128 + p mod 64]
    else if p <? 65536 then [224 + p / 4096; 128 + (p / 64) mod 64; 128 + p mod 64]
    else [240 + p / 262144; 128 + (p / 4096) mod 64; 128 + (p / 64) mod 64; 128 + p mod 64]) ++ x)
    ((if q <? 128 then [q]
    else if q <? 2048 then [192 + q / 64; 128 + q mod 64]
    else if q <? 65536 then [224 + q / 4096; 128 + (q / 64) mod 64; 128 + q mod 64]
    else [240 + q / 262144; 128 + (q / 4096) mod 64; 128 + (q / 64) mod 64; 128 + q mod 64]) ++ y)
    = true) by (split; [done | by apply str_ltb_asym]).
  destruct (base64_digits p) as (p3 & p2 & p1 & p0 & Ep & ? & ? & ? & -> & -> & -> & -> & -> & ->),
    (base64_digits q) as (q3 & q2 & q1 & q0 & Eq & ? & ? & ? & -> & -> & -> & -> & -> & ->).
  destruct (N.ltb_spec p 128), (N.ltb_spec q 128), (N.ltb_spec p 2048), (N.ltb_spec q 2048),
    (N.ltb_spec p 65536), (N.ltb_spec q 65536); try lia; cbn [app];
  repeat (apply str_ltb_cons;
    match goal with |- ?a < ?b \/ _ =>
      destruct (N.lt_ge_cases a b); [by left | right; split; [lia|]] end); exfalso; lia.
Qed.

(** Byte order of the encodings is code-point order. *)
Lemma utf8_points_order ps qs : Forall is_scalar ps -> Forall is_scalar qs ->
  str_ltb (mjoin (utf8_point <$> ps)) (mjoin (utf8_point <$> qs)) = str_ltb ps qs.
Proof.
  intros Hps. revert qs. induction Hps as [|p ps Hp _ IH]; intros [|q qs] Hqs.
  - done.
  - inversion Hqs as [|?? Hq _]; subst. rewrite fmap_cons. cbn [mjoin list_join str_ltb].
    unfold utf8_point. repeat case_match; reflexivity.
  - cbn [fmap list_fmap mjoin list_join]. by destruct (_ ++ _).
  - inversion Hqs as [|?? Hq Hqs']; subst. rewrite !fmap_cons. cbn [mjoin list_join str_ltb].
    destruct (N.ltb_spec p q) as [Hlt|]; [by apply utf8_point_order|].
    destruct (N.ltb_spec q p) as [Hgt|]; [by apply utf8_point_order|].
    replace q with p by lia. rewrite str_ltb_app_l. by apply IH.
Qed.

(** ** UTF-8 of concatenations at a unit that is no surrogate *)

Definition is_surrogate (u : N) : bool := is_high u || is_low u.

Lemma code_points_cons u s : is_surrogate u = false -> code_points (u :: s) = u :: code_points s.
Proof.
  unfold is_surrogate. intros [Hh _]%orb_false_iff. destruct s as [|v s]; [done|]. cbn [code_points]. by rewrite Hh.
Qed.

Lemma code_points_app a u b : is_surrogate u = false -> code_points (a ++ u :: b) = code_points a ++ u :: code_points b.
Proof.
  intros Hu. assert (Hn : forall n a, (length a <= n)%nat -> code_points (a ++ u :: b) = code_points a ++ u :: code_points b).
  { clear a. intros n. induction n as [|n IH]; intros [|x a] Hl; cbn [length] in Hl; try lia; [by apply code_points_cons..|].
    destruct a as [|y a].
    - cbn [app code_points]. pose proof (code_points_cons u b Hu) as Hc. cbn [code_points] in Hc.
      unfold is_surrogate in Hu. apply orb_false_iff in Hu as [_ Hlo]. rewrite Hlo, andb_false_r. by rewrite Hc.
    - cbn [app code_points]. cbn [length] in Hl. destruct (is_high x && is_low y).
      + rewrite IH by lia. done.
      + pose proof (IH (y :: a) ltac:(cbn [length]; lia)) as E. cbn [app code_points] in E. by rewrite E. }
  by apply (Hn (length a)).
Qed.

Lemma utf8_encode_app a u b : is_surrogate u = false -> utf8_encode (a ++ u :: b) = utf8_encode a ++ utf8_point u ++ utf8_encode b.
Proof.
  intros Hu. unfold utf8_encode. rewrite code_points_app by done. by rewrite fmap_app, fmap_cons, join_app, mjoin_cons.
Qed.

(** ASCII text is its own encoding. *)
Lemma utf8_encode_ascii a s : Forall (fun u => u < 128) a -> utf8_encode (a ++ s) = a ++ utf8_encode s.
Proof.
  induction 1 as [|u a Hu _ IH]; [done|]. cbn [app]. rewrite <- IH.
  change (u :: a ++ s) with ([] ++ u :: (a ++ s)). rewrite utf8_encode_app.
  - unfold utf8_point. by rewrite (proj2 (N.ltb_lt _ _) Hu).
  - unfold is_surrogate, is_high, is_low. apply orb_false_iff. split; apply andb_false_iff; left; apply N.leb_gt; lia.
Qed.

Lemma utf8_encode_nil s : utf8_encode s = [] -> s = [].
Proof.
  destruct s as [|u s]; [done|]. unfold utf8_encode.
  assert (H : exists p ps, code_points (u :: s) = p :: ps).
  { destruct s as [|v s]; [by eexists _, _|]. cbn [code_points]. destruct (is_high u && is_low v); by eexists _, _. }
  destruct H as (p & ps & ->). rewrite fmap_cons, mjoin_cons. unfold utf8_point. repeat case_match; done.
Qed.

(** Without surrogates the order by units and the order by bytes agree. *)
Definition plain_text (s : jsstr) : Prop := Forall (fun u => u < 65536 /\ is_surrogate u = false) s.

Lemma plain_code_points s : plain_text s -> code_points s = s /\ Forall is_scalar s.
Proof.
  induction 1 as [|u s [Hu Hs] _ [IH1 IH2]]; [done|]. rewrite code_points_cons, IH1 by done. split; [done|].
  constructor; [|done]. split; [lia|]. unfold is_surrogate, is_high, is_low in Hs.
  rewrite orb_false_iff, !andb_false_iff, !N.leb_gt in Hs. lia.
Qed.

Lemma utf8_order_plain s t : plain_text s -> plain_text t -> str_ltb (utf8_encode s) (utf8_encode t) = str_ltb s t.
Proof.
  intros [Es Hs]%plain_code_points [Et Ht]%plain_code_points. unfold utf8_encode. rewrite Es, Et. by apply utf8_points_order.
Qed.

(** ** Bounds on units, points and bytes *)

Abbreviation is_bytes := (Forall (fun d : N => (d < 256)%N)).

Lemma utf8_point_bytes p : (p < 1114112)%N -> is_bytes (utf8_point p).
Proof.
  intros Hp. unfold utf8_point. repeat case_match; repeat constructor;
    repeat match goal with H : (_ <? _)%N = true |- _ => apply N.ltb_lt in H
           | H : (_ <? _)%N = false |- _ => apply N.ltb_ge in H end; lia_div.
Qed.

Abbreviation code_units := (Forall (fun u : N => (u < 65536)%N)).

Lemma code_points_bound s : code_units s -> Forall (fun p => (p < 1114112)%N) (code_points s).
Proof.
  induction s as [s IH] using (well_founded_induction (Wf_nat.well_founded_ltof _ (@length N))).
  intros Hs. destruct s as [|u [|v s]]; [constructor| |].
  - apply Forall_cons in Hs as [Hu _]. cbn [code_points]. repeat constructor. lia.
  - apply Forall_cons in Hs as [Hu Hs]. pose proof Hs as [Hv Hs']%Forall_cons. cbn [code_points].
    destruct (is_high u && is_low v) eqn:E.
    + constructor; [|apply IH; [unfold Wf_nat.ltof; simpl; lia|done]].
      unfold is_high, is_low in E. rewrite !andb_true_iff, !N.leb_le in E. lia.
    + constructor; [lia|]. change (Forall (fun p => (p < 1114112)%N) (code_points (v :: s))).
      apply IH; [unfold Wf_nat.ltof; simpl; lia|done].
Qed.

Lemma utf8_bytes s : code_units s -> is_bytes (utf8_encode s).
Proof.
  intros Hs%code_points_bound. unfold utf8_encode. induction Hs as [|p ps Hp _ IH]; [constructor|].
  rewrite fmap_cons. cbn [mjoin list_join]. apply Forall_app. split; [by apply utf8_point_bytes|done].
Qed.
