(* ===== verification/Utf8.v ===== *)
(** * UTF-8 decoding

    [new TextDecoder("utf-8", { fatal: true, ignoreBOM: true })]: the strict decoder
    of the encoding standard, which throws on an ill-formed sequence (an overlong or
    surrogate encoding, a stray or missing continuation byte, a value past U+10FFFF),
    and [String.prototype.isWellFormed].  The decoder inverts [utf8_encode] of JsText
    on well-formed strings, and accepts nothing else. *)
From S2P Require Import Prelude JsText.
Local Open Scope N_scope.

(** [String.prototype.isWellFormed]: no unpaired surrogate. *)
Definition isWellFormed (s : jsstr) : bool := forallb (fun p => negb (is_surrogate p)) (code_points s).

(** The code units of one code point. *)
Definition point_units (p : N) : list N :=
  if p <? 65536 then [p] else [55296 + (p - 65536) / 1024; 56320 + (p - 65536) mod 1024].

Definition between (lo hi b : N) : bool := (lo <=? b) && (b <=? hi).

(** The code points of a byte sequence, [None] where the fatal decoder throws. *)
Fixpoint utf8_points_of (bs : list N) : option (list N) :=
  match bs with
  | [] => Some []
  | b :: r =>
    if b <? 128 then cons b <$> utf8_points_of r
    else if b <? 194 then None
    else match r with
    | [] => None
    | c1 :: r1 =>
      if b <? 224 then
        if between 128 191 c1 then cons ((b - 192) * 64 + (c1 - 128)) <$> utf8_points_of r1 else None
      else match r1 with
      | [] => None
      | c2 :: r2 =>
        if b <? 240 then
          if between (if b =? 224 then 160 else 128) (if b =? 237 then 159 else 191) c1 && between 128 191 c2
          then cons ((b - 224) * 4096 + (c1 - 128) * 64 + (c2 - 128)) <$> utf8_points_of r2
          else None
        else match r2 with
        | [] => None
        | c3 :: r3 =>
          if b <? 245 then
            if between (if b =? 240 then 144 else 128) (if b =? 244 then 143 else 191) c1
               && between 128 191 c2 && between 128 191 c3
            then cons ((b - 240) * 262144 + (c1 - 128) * 4096 + (c2 - 128) * 64 + (c3 - 128)) <$> utf8_points_of r3
            else None
          else None
        end
      end
    end
  end.

(** [decode(bytes)], [None] where it throws. *)
Definition utf8_decode (bs : list N) : option jsstr :=
  (fun ps => mjoin (point_units <$> ps)) <$> utf8_points_of bs.

(** ** Units and points *)

Lemma points_units s : code_units s -> mjoin (point_units <$> code_points s) = s.
Proof.
  enough (H : forall n s, (length s <= n)%nat -> code_units s -> mjoin (point_units <$> code_points s) = s)
    by (by apply (H (length s))).
  clear s. induction n as [|n IH]; intros [|u s] Hl Hs; cbn [length] in Hl; try lia; try done.
  inversion Hs as [|?? Hu Hs']; subst.
  assert (Hone : point_units u = [u]) by (unfold point_units; by rewrite (proj2 (N.ltb_lt _ _) Hu)).
  destruct s as [|v s]; [cbn; by rewrite Hone|]. cbn [code_points].
  destruct (is_high u && is_low v) eqn:E.
  - inversion Hs' as [|?? Hv Hs'']; subst. rewrite fmap_cons, mjoin_cons. cbn [length] in Hl. rewrite IH by (done || lia).
    apply andb_true_iff in E as [E1 E2]. unfold is_high, is_low in *. rewrite !andb_true_iff, !N.leb_le in *.
    unfold point_units. destruct (N.ltb_spec (65536 + (u - 55296) * 1024 + (v - 56320)) 65536); [lia|].
    cbn [app]. f_equal; [|f_equal]; lia_div.
  - change (match s with [] => [v] | w :: s2 => if is_high v && is_low w
      then 65536 + (v - 55296) * 1024 + (w - 56320) :: code_points s2 else v :: code_points s end)
      with (code_points (v :: s)). rewrite fmap_cons, mjoin_cons, Hone. cbn [app]. f_equal.
    apply IH; [cbn [length] in *; lia|done].
Qed.

Lemma units_points ps : Forall is_scalar ps -> code_points (mjoin (point_units <$> ps)) = ps /\
  code_units (mjoin (point_units <$> ps)).
Proof.
  induction 1 as [|p ps [Hp Hs] _ [IH1 IH2]]; [done|]. rewrite fmap_cons, mjoin_cons. unfold point_units at 1 3.
  destruct (N.ltb_spec p 65536).
  - cbn [app]. split; [|by constructor]. rewrite code_points_cons, IH1; [done|].
    unfold is_surrogate, is_high, is_low. apply orb_false_iff. rewrite !andb_false_iff, !N.leb_gt. lia.
  - cbn [app]. split; [|apply Forall_cons_2; [cbv beta; lia_div|apply Forall_cons_2; [cbv beta; lia_div|done]]]. cbn [code_points].
    replace (is_high (55296 + (p - 65536) / 1024) && is_low (56320 + (p - 65536) mod 1024)) with true.
    + rewrite IH1. f_equal. lia_div.
    + symmetry. unfold is_high, is_low. rewrite !andb_true_iff, !N.leb_le. lia_div.
Qed.

Lemma well_formed_scalar s : code_units s -> isWellFormed s = true <-> Forall is_scalar (code_points s).
Proof.
  intros Hs. unfold isWellFormed. rewrite forallb_forall, Forall_forall. split.
  - intros H p Hp. assert (Hb : p < 1114112).
    { pose proof (code_points_bound s Hs) as Hb. rewrite Forall_forall in Hb. by apply Hb. }
    split; [done|]. intros Hr. assert (Hi : In p (code_points s)) by by apply list_elem_of_In.
    apply H in Hi. unfold is_surrogate, is_high, is_low in Hi. apply negb_true_iff, orb_false_iff in Hi.
    rewrite !andb_false_iff, !N.leb_gt in Hi. lia.
  - intros H p Hp. apply list_elem_of_In in Hp. apply H in Hp as [_ Hp]. apply negb_true_iff.
    unfold is_surrogate, is_high, is_low. apply orb_false_iff. rewrite !andb_false_iff, !N.leb_gt. lia.
Qed.

(** ** Points and bytes *)

Ltac decide_bounds := unfold between; repeat case_match;
  repeat (rewrite ?andb_true_iff, ?andb_false_iff, ?N.leb_le, ?N.leb_gt, ?N.ltb_lt, ?N.ltb_ge, ?N.eqb_eq, ?N.eqb_neq in * );
  try lia.

Lemma points_of_point p bs : is_scalar p -> utf8_points_of (utf8_point p ++ bs) = cons p <$> utf8_points_of bs.
Proof.
  intros [Hp Hs]. unfold utf8_point.
  replace (is_high p || is_low p) with false by
    (symmetry; unfold is_high, is_low; rewrite orb_false_iff, !andb_false_iff, !N.leb_gt; lia).
  destruct (base64_digits p) as (p3 & p2 & p1 & p0 & Ep & ? & ? & ? & -> & -> & -> & -> & -> & ->).
  destruct (N.ltb_spec p 128); [|destruct (N.ltb_spec p 2048); [|destruct (N.ltb_spec p 65536)]].
  - cbn [app utf8_points_of]. by rewrite (proj2 (N.ltb_lt _ _)).
  - cbn [app utf8_points_of]. decide_bounds. f_equal. f_equal. lia.
  - cbn [app utf8_points_of]. decide_bounds; try (f_equal; f_equal; lia).
  - cbn [app utf8_points_of]. decide_bounds; try (f_equal; f_equal; lia).
Qed.

Lemma points_of_points ps : Forall is_scalar ps -> utf8_points_of (mjoin (utf8_point <$> ps)) = Some ps.
Proof.
  induction 1 as [|p ps Hp _ IH]; [done|]. by rewrite fmap_cons, mjoin_cons, points_of_point, IH by done.
Qed.

(** What the decoder accepts at the head of a sequence is one encoded scalar value. *)
Lemma points_of_inv bs ps : utf8_points_of bs = Some ps ->
  (bs = [] /\ ps = []) \/ exists p ps' bs', ps = p :: ps' /\ is_scalar p /\ bs = utf8_point p ++ bs' /\
    utf8_points_of bs' = Some ps' /\ (length bs' < length bs)%nat.
Proof.
  destruct bs as [|b r]; [naive_solver|]. cbn [utf8_points_of]. intros H. right.
  destruct (N.ltb_spec b 128).
  { apply fmap_Some in H as (qs & Hq & ->). exists b, qs, r. unfold is_scalar, utf8_point.
    rewrite (proj2 (N.ltb_lt b 128)) by done. cbn [length app]. repeat split; (done || lia). }
  destruct (N.ltb_spec b 194); [done|]. destruct r as [|c1 r1]; [done|].
  destruct (N.ltb_spec b 224).
  { destruct (between 128 191 c1) eqn:E; [|done]. apply fmap_Some in H as (qs & Hq & ->).
    exists ((b - 192) * 64 + (c1 - 128)), qs, r1. unfold between in E. rewrite andb_true_iff, !N.leb_le in E.
    split; [done|]. split; [unfold is_scalar; lia|]. split; [|split; [done|cbn [length]; lia]].
    unfold utf8_point. rewrite (proj2 (N.ltb_ge _ 128)), (proj2 (N.ltb_lt _ 2048)) by lia.
    cbn [app]. f_equal; [|f_equal]; lia_div. }
  destruct r1 as [|c2 r2]; [done|]. destruct (N.ltb_spec b 240).
  { match type of H with (if ?c then _ else _) = _ => destruct c eqn:E; [|done] end.
    apply fmap_Some in H as (qs & Hq & ->).
    exists ((b - 224) * 4096 + (c1 - 128) * 64 + (c2 - 128)), qs, r2. split; [done|].
    assert (Hb : 128 <= c1 <= 191 /\ 128 <= c2 <= 191 /\ (b = 224 -> 160 <= c1) /\ (b = 237 -> c1 <= 159)).
    { unfold between in E. rewrite !andb_true_iff, !N.leb_le in E.
      destruct (N.eqb_spec b 224), (N.eqb_spec b 237); lia. }
    assert (Hs : is_scalar ((b - 224) * 4096 + (c1 - 128) * 64 + (c2 - 128))) by (unfold is_scalar; lia).
    split; [done|]. split; [|split; [done|cbn [length]; lia]].
    unfold utf8_point. rewrite (proj2 (N.ltb_ge _ 128)), (proj2 (N.ltb_ge _ 2048)) by lia.
    replace (is_high _ || is_low _) with false by
      (symmetry; unfold is_scalar in Hs; unfold is_high, is_low; rewrite orb_false_iff, !andb_false_iff, !N.leb_gt; lia).
    rewrite (proj2 (N.ltb_lt _ 65536)) by lia. cbn [app]. f_equal; [|f_equal; [|f_equal]]; lia_div. }
  destruct r2 as [|c3 r3]; [done|]. destruct (N.ltb_spec b 245); [|done].
  match type of H with (if ?c then _ else _) = _ => destruct c eqn:E; [|done] end.
  apply fmap_Some in H as (qs & Hq & ->).
  exists ((b - 240) * 262144 + (c1 - 128) * 4096 + (c2 - 128) * 64 + (c3 - 128)), qs, r3. split; [done|].
  assert (Hb : 128 <= c1 <= 191 /\ 128 <= c2 <= 191 /\ 128 <= c3 <= 191 /\ (b = 240 -> 144 <= c1) /\ (b = 244 -> c1 <= 143)).
  { unfold between in E. rewrite !andb_true_iff, !N.leb_le in E.
    destruct (N.eqb_spec b 240), (N.eqb_spec b 244); lia. }
  assert (Hs : is_scalar ((b - 240) * 262144 + (c1 - 128) * 4096 + (c2 - 128) * 64 + (c3 - 128))) by (unfold is_scalar; lia).
  split; [done|]. split; [|split; [done|cbn [length]; lia]].
  unfold utf8_point. rewrite (proj2 (N.ltb_ge _ 128)), (proj2 (N.ltb_ge _ 2048)) by lia.
  replace (is_high _ || is_low _) with false by
    (symmetry; unfold is_scalar in Hs; unfold is_high, is_low; rewrite orb_false_iff, !andb_false_iff, !N.leb_gt; lia).
  rewrite (proj2 (N.ltb_ge _ 65536)) by lia. cbn [app]. f_equal; [|f_equal; [|f_equal; [|f_equal]]]; lia_div.
Qed.

Lemma points_of_sound bs ps : utf8_points_of bs = Some ps -> Forall is_scalar ps /\ mjoin (utf8_point <$> ps) = bs.
Proof.
  revert ps. induction bs as [bs IH] using (well_founded_induction (Wf_nat.well_founded_ltof _ (@length N))).
  intros ps [[-> ->]|(p & ps' & bs' & -> & Hp & -> & Hd & Hl)]%points_of_inv; [done|].
  destruct (IH bs' Hl ps' Hd) as [Hs Hj]. split; [by constructor|]. by rewrite fmap_cons, mjoin_cons, Hj.
Qed.

(** The decoder accepts exactly the encodings of well-formed strings, and inverts
    [utf8_encode] on them. *)
Lemma utf8_decode_spec bs s : code_units s ->
  utf8_decode bs = Some s <-> isWellFormed s = true /\ utf8_encode s = bs.
Proof.
  intros Hs. rewrite well_formed_scalar by done. unfold utf8_decode, utf8_encode. split.
  - intros (ps & Hp & ->)%fmap_Some. apply points_of_sound in Hp as [Hp Hj].
    by rewrite (proj1 (units_points ps Hp)).
  - intros [Hp <-]. rewrite points_of_points by done. cbn [fmap option_fmap option_map]. by rewrite points_units.
Qed.

Lemma utf8_decode_units bs s : utf8_decode bs = Some s -> code_units s.
Proof.
  intros (ps & Hp & ->)%fmap_Some. apply points_of_sound in Hp as [Hp _]. by apply units_points.
Qed.

Example decode_e_acute : utf8_decode [195; 169] = Some [233].
Proof. reflexivity. Qed.
Example decode_overlong : utf8_decode [192; 175] = None.
Proof. reflexivity. Qed.
Example decode_surrogate : utf8_decode [237; 160; 128] = None.
Proof. reflexivity. Qed.
