(* ===== verification/JsValue.v ===== *)
(** * JavaScript values

    The values the program computes with: JSON documents, decoded storage bodies
    and the [unknown] inputs its guards inspect.  Numbers are the exact rationals
    a finite double denotes, plus the three non-finite values, so [<], [<=] and
    [===] are the language's.  An object is the list of its own enumerable string
    keys with their values, in the order [Object.keys] lists them; reference
    identity is not modelled, so [===] on two objects is the comparison of two
    different references (the code uses identity only as a shortcut to an answer
    the structural walk returns too).  A property read falls back to
    [Object.prototype], as [doc[field]] does. *)
From Stdlib Require Import QArith Qcanon.
From S2P Require Import Prelude JsText.
Local Open Scope Z_scope.

Inductive jsnum := NFin (q : Qc) | NPosInf | NNegInf | NNaN.

(** The primitive types JSON does not have, and functions. *)
Inductive js_exotic := XBigint | XSymbol | XFunction.

Inductive jsval :=
| JUndef
| JNull
| JBool (b : bool)
| JNum (n : jsnum)
| JStr (s : jsstr)
| JArr (l : list jsval)
| JObj (o : list (jsstr * jsval))
| JExotic (x : js_exotic).

(** Induction through the nested lists. *)
Section jsval_rect.
  Context (P : jsval -> Prop)
    (Hundef : P JUndef) (Hnull : P JNull) (Hbool : forall b, P (JBool b))
    (Hnum : forall n, P (JNum n)) (Hstr : forall s, P (JStr s))
    (Harr : forall l, Forall P l -> P (JArr l))
    (Hobj : forall o, Forall (fun kv => P kv.2) o -> P (JObj o))
    (Hexo : forall x, P (JExotic x)).

Fixpoint jsval_nested_ind (v : jsval) : P v :=
  match v with
  | JUndef => Hundef
  | JNull => Hnull
  | JBool b => Hbool b
  | JNum n => Hnum n
  | JStr s => Hstr s
  | JArr l => Harr l ((fix go l : Forall P l := match l with
                                   | [] => Forall_nil_2 P
                                   | x :: l' => Forall_cons_2 P _ _ (jsval_nested_ind x) (go l')
                                   end) l)
  | JObj o => Hobj o ((fix go o : Forall (fun kv => P kv.2) o := match o with
                                   | [] => Forall_nil_2 _
                                   | kv :: o' => Forall_cons_2 _ _ _ (jsval_nested_ind kv.2) (go o')
                                   end) o)
  | JExotic x => Hexo x
  end.
End jsval_rect.

(** ** Numbers *)

Global Instance Qc_eq_decision : EqDecision Qc := Qc_eq_dec.
Global Instance jsnum_eq_decision : EqDecision jsnum.
Proof. solve_decision. Defined.
Global Instance js_exotic_eq_decision : EqDecision js_exotic.
Proof. solve_decision. Defined.

Definition num_of_Z (z : Z) : jsnum := NFin (Q2Qc (inject_Z z)).

(** [a < b]: false as soon as one side is [NaN]. *)
Definition num_ltb (a b : jsnum) : bool :=
  match a, b with
  | NNaN, _ | _, NNaN => false
  | NPosInf, _ => false
  | _, NNegInf => false
  | NNegInf, _ => true
  | _, NPosInf => true
  | NFin p, NFin q => match (p ?= q)%Qc with Lt => true | _ => false end
  end.

(** [a === b] on numbers. *)
Definition num_eqb (a b : jsnum) : bool :=
  match a with NNaN => false | _ => bool_decide (a = b) end.

(** [a <= b]: false on [NaN], otherwise [<] or [===]. *)
Definition num_leb (a b : jsnum) : bool := num_ltb a b || num_eqb a b.

(** [Number.isFinite(n)] *)
Definition is_finite (n : jsnum) : bool := match n with NFin _ => true | _ => false end.

(** [Number.isInteger(n)], with the integer. *)
Definition num_integer (n : jsnum) : option Z :=
  match n with
  | NFin q => if (Qden (this q) =? 1)%positive then Some (Qnum (this q)) else None
  | _ => None
  end.

(** [Number.MAX_SAFE_INTEGER] *)
Definition MAX_SAFE_INTEGER : Z := 9007199254740991.

Definition is_safe_integer (n : jsnum) : bool :=
  match num_integer n with
  | Some z => (- MAX_SAFE_INTEGER <=? z) && (z <=? MAX_SAFE_INTEGER)
  | None => false
  end.

Lemma num_integer_of_Z z : num_integer (num_of_Z z) = Some z.
Proof.
  unfold num_of_Z, num_integer, Q2Qc, inject_Z. simpl.
  rewrite Qred_identity; [done|]. simpl. apply Z.gcd_1_r.
Qed.

Lemma num_of_integer n z : num_integer n = Some z -> n = num_of_Z z.
Proof.
  destruct n as [[[m d] Hc]| | |]; try done. unfold num_integer. cbn [this Qden Qnum].
  destruct (Pos.eqb_spec d 1) as [->|]; [|done]. intros [= <-].
  unfold num_of_Z. f_equal. apply Qc_is_canon. simpl. by rewrite Qred_correct.
Qed.

Lemma num_ltb_irrefl a : num_ltb a a = false.
Proof.
  destruct a as [q| | |]; try done. simpl. unfold Qccompare.
  by rewrite (proj1 (Qeq_alt q q) (Qeq_refl q)).
Qed.

Lemma num_ltb_fin p q : num_ltb (NFin p) (NFin q) = true <-> (p < q)%Qc.
Proof. simpl. rewrite Qclt_alt. by destruct (p ?= q)%Qc. Qed.

Lemma num_ltb_trans a b c : num_ltb a b = true -> num_ltb b c = true -> num_ltb a c = true.
Proof.
  destruct a as [p| | |], b as [q| | |], c as [r| | |]; try (by intros).
  rewrite !num_ltb_fin. apply Qclt_trans.
Qed.

Lemma num_ltb_total a b : is_finite a = true -> is_finite b = true ->
  num_ltb a b = true \/ a = b \/ num_ltb b a = true.
Proof.
  destruct a as [p| | |], b as [q| | |]; try done. intros _ _. rewrite !num_ltb_fin.
  destruct (Qc_dec p q) as [[?|?]| -> ]; tauto.
Qed.

Lemma num_eqb_fin a b : is_finite a = true -> num_eqb a b = true <-> a = b.
Proof. destruct a; try done. intros _. apply bool_decide_eq_true. Qed.

(** ** Objects *)

(** The index an array-index key names ([ToString(ToUint32(k)) = k], below 2^32 - 1). *)
Definition array_index (k : jsstr) : option N :=
  match parse_int 10 k with
  | Some z => let n := Z.to_N z in
              if bool_decide (to_radix 10 n = k) && (n <? 4294967295)%N then Some n else None
  | None => None
  end.

(** Own enumerable property lookup. *)
Fixpoint own_get {A} (k : jsstr) (o : list (jsstr * A)) : option A :=
  match o with
  | [] => None
  | (k', v) :: o' => if decide (k' = k) then Some v else own_get k o'
  end.

(** Where [o[k] = v] puts a new key: index keys first in ascending order, then
    the others in insertion order. *)
Fixpoint insert_new {A} (k : jsstr) (v : A) (o : list (jsstr * A)) : list (jsstr * A) :=
  match o with
  | [] => [(k, v)]
  | (k', v') :: o' =>
    match array_index k, array_index k' with
    | Some i, Some j => if (i <? j)%N then (k, v) :: o else (k', v') :: insert_new k v o'
    | Some _, None => (k, v) :: o
    | None, _ => (k', v') :: insert_new k v o'
    end
  end.

Fixpoint replace_own {A} (k : jsstr) (v : A) (o : list (jsstr * A)) : list (jsstr * A) :=
  match o with
  | [] => []
  | (k', v') :: o' => if decide (k' = k) then (k', v) :: o' else (k', v') :: replace_own k v o'
  end.

(** [o[k] = v] on a plain object. *)
Definition own_set {A} (k : jsstr) (v : A) (o : list (jsstr * A)) : list (jsstr * A) :=
  match own_get k o with
  | Some _ => replace_own k v o
  | None => insert_new k v o
  end.

(** [delete o[k]] *)
Definition own_delete {A} (k : jsstr) (o : list (jsstr * A)) : list (jsstr * A) :=
  base.filter (fun kv => kv.1 <> k) o.

(** [Object.keys(o)] *)
Definition own_keys {A} (o : list (jsstr * A)) : list jsstr := o.*1.

(** The functions every plain object inherits. *)
Definition object_prototype_functions : list jsstr :=
  js <$> ["constructor"; "toString"; "toLocaleString"; "valueOf"; "hasOwnProperty";
          "isPrototypeOf"; "propertyIsEnumerable"; "__defineGetter__"; "__defineSetter__";
          "__lookupGetter__"; "__lookupSetter__"]%string.

(** [o[k]]: the own value, or what [Object.prototype] holds ([__proto__] reads
    as the prototype object, which has no enumerable own key). *)
Definition js_get (o : list (jsstr * jsval)) (k : jsstr) : jsval :=
  match own_get k o with
  | Some v => v
  | None => if decide (k = js "__proto__") then JObj []
            else if decide (k ∈ object_prototype_functions) then JExotic XFunction
            else JUndef
  end.

(** ** [typeof] and [===] *)

(** A value in a template literal; [to_string] is [String(v)] of the other values. *)
Definition interpolate (to_string : jsval -> jsstr) (v : jsval) : jsstr :=
  match v with JStr s => s | _ => to_string v end.

Inductive js_type := TUndefined | TObject | TBoolean | TNumber | TString | TBigint | TSymbol | TFunction.

Global Instance js_type_eq_decision : EqDecision js_type.
Proof. solve_decision. Defined.

Definition typeof (v : jsval) : js_type :=
  match v with
  | JUndef => TUndefined
  | JNull | JArr _ | JObj _ => TObject
  | JBool _ => TBoolean
  | JNum _ => TNumber
  | JStr _ => TString
  | JExotic XBigint => TBigint
  | JExotic XSymbol => TSymbol
  | JExotic XFunction => TFunction
  end.

(** [a === b], on different references for objects and exotic values. *)
Definition strict_eq (a b : jsval) : bool :=
  match a, b with
  | JUndef, JUndef | JNull, JNull => true
  | JBool x, JBool y => Bool.eqb x y
  | JNum x, JNum y => num_eqb x y
  | JStr x, JStr y => bool_decide (x = y)
  | _, _ => false
  end.

(** ** JSON-normal values: what [JSON.parse] returns *)
Fixpoint json_ok (v : jsval) : bool :=
  match v with
  | JNull | JBool _ | JStr _ => true
  | JNum n => is_finite n
  | JArr l => forallb json_ok l
  | JObj o => bool_decide (NoDup (own_keys o)) && forallb (fun kv => json_ok kv.2) o
  | JUndef | JExotic _ => false
  end.

(** A predicate on every value of an object. *)
Lemma json_ok_obj o : json_ok (JObj o) = true <->
  NoDup (own_keys o) /\ Forall (fun kv => json_ok kv.2 = true) o.
Proof.
  cbn [json_ok]. rewrite andb_true_iff, bool_decide_eq_true, forallb_forall, Forall_forall.
  by setoid_rewrite <- list_elem_of_In.
Qed.

Lemma json_ok_arr l : json_ok (JArr l) = true <-> Forall (fun v => json_ok v = true) l.
Proof.
  cbn [json_ok]. rewrite forallb_forall, Forall_forall. by setoid_rewrite <- list_elem_of_In.
Qed.

(** ** Property lemmas *)
Section own.
  Context {A : Type}.
  Implicit Types (o : list (jsstr * A)) (k : jsstr) (v : A).

Lemma own_get_In k v o : own_get k o = Some v -> (k, v) ∈ o.
Proof.
  induction o as [|[k' v'] o IH]; simpl; [done|].
  case_decide; [intros [= ->]; subst; left | right; by apply IH].
Qed.

Lemma own_get_elem k v o : NoDup (own_keys o) -> (k, v) ∈ o -> own_get k o = Some v.
Proof.
  induction o as [|[k' v'] o IH]; simpl; [by intros _ ?%not_elem_of_nil|].
  rewrite NoDup_cons, elem_of_cons. intros [Hk Hnd] [[= -> ->]|Hin]; [by rewrite decide_True|].
  case_decide as E; [|by apply IH]. subst. destruct Hk.
  apply list_elem_of_fmap. by exists (k, v).
Qed.

Lemma own_get_None k o : own_get k o = None <-> k ∉ own_keys o.
Proof.
  induction o as [|[k' v'] o IH]; simpl.
  { split; [intros _; apply not_elem_of_nil | done]. }
  rewrite not_elem_of_cons. case_decide; [naive_solver|]. rewrite IH. naive_solver.
Qed.

Lemma own_get_insert_new k k' v o : own_get k o = None ->
  own_get k' (insert_new k v o) = if decide (k = k') then Some v else own_get k' o.
Proof.
  induction o as [|[j w] o IH]; simpl; [done|]. intros H.
  case_decide as E; [done|]. specialize (IH H).
  repeat case_match; simpl; repeat case_decide; subst; try done; rewrite IH; by rewrite ?decide_True, ?decide_False.
Qed.

Lemma own_get_replace k k' v o : is_Some (own_get k o) ->
  own_get k' (replace_own k v o) = if decide (k = k') then Some v else own_get k' o.
Proof.
  induction o as [|[j w] o IH]; simpl; [by intros [??]|].
  intros H. case_decide; simpl; subst.
  - by repeat case_decide.
  - rewrite IH by done. repeat case_decide; by subst.
Qed.

  (** [o[k] = v] updates exactly the key [k]. *)
Lemma own_get_set k k' v o :
  own_get k' (own_set k v o) = if decide (k = k') then Some v else own_get k' o.
Proof.
  unfold own_set. destruct (own_get k o) eqn:E.
  - apply own_get_replace. eauto.
  - by apply own_get_insert_new.
Qed.

Lemma own_get_delete k k' o :
  own_get k' (own_delete k o) = if decide (k = k') then None else own_get k' o.
Proof.
  unfold own_delete. induction o as [|[j w] o IH]; simpl; [by case_decide|].
  rewrite filter_cons. repeat (case_decide; simpl in *); subst; try done; rewrite IH;
    by rewrite ?decide_True, ?decide_False.
Qed.

Lemma insert_new_perm k v o : insert_new k v o ≡ₚ (k, v) :: o.
Proof.
  induction o as [|[j w] o IH]; simpl; [done|].
  repeat case_match; rewrite ?IH; (done || constructor).
Qed.

Lemma replace_own_keys k v o : own_keys (replace_own k v o) = own_keys o.
Proof. induction o as [|[j w] o IH]; simpl; [done|]. case_decide; simpl; f_equal; auto. Qed.

Lemma own_set_NoDup k v o : NoDup (own_keys o) -> NoDup (own_keys (own_set k v o)).
Proof.
  unfold own_set. destruct (own_get k o) eqn:E; [by rewrite replace_own_keys|].
  apply own_get_None in E. intros H. unfold own_keys. rewrite insert_new_perm. simpl.
  by apply NoDup_cons.
Qed.

Lemma own_delete_NoDup k o : NoDup (own_keys o) -> NoDup (own_keys (own_delete k o)).
Proof.
  unfold own_delete, own_keys. intros H. eapply sublist_NoDup; [done|].
  apply fmap_sublist, sublist_filter.
Qed.
End own.
