(* ===== verification/Errors.v ===== *)
(** * Errors (protocol/src/errors.ts)

    The error codes, the retriable and client-only subsets, and the values a
    [catch] clause of the program can see.  A [BaerlyError] keeps its code, what
    the code reads of [cause] (the detail flags of a storage adapter, or a chained
    error) and the [_id]; messages and resolutions are text only and are dropped. *)
From S2P Require Import Prelude JsText JsValue.
Local Open Scope Z_scope.

Inductive BaerlyErrorCode :=
| InvalidConfig | NetworkError | AccessDenied | InvalidResponse | Internal
| SchemaError | WriteConflict | AlreadyExists | AmbiguousCommit
| CapacityExceeded | Unauthorized | NotFound | PayloadTooLarge
| UnsatisfiablePredicate | UseQueryAwaitedRecorder | UnexpectedWriteInQuery
| MutationFailed.

Global Instance BaerlyErrorCode_eq_decision : EqDecision BaerlyErrorCode.
Proof. solve_decision. Defined.

Definition ERROR_CODES : list BaerlyErrorCode :=
  [InvalidConfig; NetworkError; AccessDenied; InvalidResponse; Internal;
   SchemaError; WriteConflict; AlreadyExists; AmbiguousCommit;
   CapacityExceeded; Unauthorized; NotFound; PayloadTooLarge;
   UnsatisfiablePredicate; UseQueryAwaitedRecorder; UnexpectedWriteInQuery;
   MutationFailed].

Definition RETRIABLE_CODES : list BaerlyErrorCode := [NetworkError; WriteConflict].

Definition CLIENT_RUNTIME_CODES : list BaerlyErrorCode :=
  [UseQueryAwaitedRecorder; UnexpectedWriteInQuery; MutationFailed].

Definition isRetriableCode (code : BaerlyErrorCode) : bool :=
  bool_decide (code ∈ RETRIABLE_CODES).

(** The detail object an adapter puts under [cause]. *)
Record cause_detail := CauseDetail {
  throttled : bool;
  notApplied : bool;
  retryAfterSeconds : option Z;
  status : option Z
}.

(** What a [catch] clause receives. *)
Inductive js_error :=
| BaerlyError (code : BaerlyErrorCode) (detail : option cause_detail)
    (chained : option js_error) (id : option jsstr)
| AbortError
| OtherError.

(** [new BaerlyError(code, message)] *)
Definition new_error (code : BaerlyErrorCode) : js_error := BaerlyError code None None None.

(** [new BaerlyError(code, message, { cause: e })] *)
Definition new_error_cause (code : BaerlyErrorCode) (e : js_error) : js_error :=
  BaerlyError code None (Some e) None.

(** [err instanceof BaerlyError && err.code === code] *)
Definition has_code (code : BaerlyErrorCode) (e : js_error) : bool :=
  match e with BaerlyError c _ _ _ => bool_decide (c = code) | _ => false end.

Definition isWriteConflict (e : js_error) : bool := has_code WriteConflict e.

(** The [retriable] getter. *)
Definition retriable (e : js_error) : bool :=
  match e with BaerlyError c _ _ _ => isRetriableCode c | _ => false end.

Lemma ERROR_CODES_exhaustive c : c ∈ ERROR_CODES.
Proof. destruct c; set_solver. Qed.

Lemma isRetriableCode_spec c : isRetriableCode c = true <-> c = NetworkError \/ c = WriteConflict.
Proof. unfold isRetriableCode, RETRIABLE_CODES. rewrite bool_decide_eq_true. set_solver. Qed.
