(* ===== verification/Json.v ===== *)
(** * JSON values (protocol/src/json.ts, protocol/src/bytes.ts)

    [jsonValueEqual] as the explicit work-stack loop it is, [merge] (RFC 7386),
    and the JSON codec.  A stored body is either the text [JSON.stringify] prints
    for a JSON-normal value or any other octets, of which the program only sees
    what [JSON.parse] makes of them. *)
From S2P Require Import Prelude JsText JsValue Errors.

(** ** [jsonValueEqual] *)

(** The pairs one object pushes, or [None] when a key is missing on the right. *)
Fixpoint push_object (keys : list jsstr) (lft rgt : list (jsstr * jsval))
    (pending : list (jsval * jsval)) : option (list (jsval * jsval)) :=
  match keys with
  | [] => Some pending
  | key :: keys' =>
    match own_get key rgt with
    | None => None
    | Some w => push_object keys' lft rgt ((js_get lft key, w) :: pending)
    end
  end.

Fixpoint push_array (lft rgt : list jsval) (pending : list (jsval * jsval)) :
    list (jsval * jsval) :=
  match lft, rgt with
  | x :: lft', y :: rgt' => push_array lft' rgt' ((x, y) :: pending)
  | _, _ => pending
  end.

(** The [while] loop; the head of [pending] is the top of the stack.  [None]
    means the fuel ran out. *)
Fixpoint jsonValueEqual_loop (fuel : nat) (pending : list (jsval * jsval)) : option bool :=
  match fuel with
  | O => None
  | S fuel =>
    match pending with
    | [] => Some true
    | (lft, rgt) :: pending =>
      if strict_eq lft rgt then jsonValueEqual_loop fuel pending
      else
        match lft, rgt with
        | JArr l, JArr r =>
          if Nat.eqb (length l) (length r)
          then jsonValueEqual_loop fuel (push_array l r pending) else Some false
        | JObj l, JObj r =>
          if Nat.eqb (length (own_keys l)) (length (own_keys r))
          then match push_object (own_keys l) l r pending with
               | Some pending' => jsonValueEqual_loop fuel pending'
               | None => Some false
               end
          else Some false
        | _, _ => Some false
        end
    end
  end.

(** The number of nodes of a value: each turn of the loop consumes one of the left side. *)
Fixpoint json_size (v : jsval) : nat :=
  match v with
  | JArr l => S (list_sum (json_size <$> l))
  | JObj o => S (list_sum ((fun kv => json_size kv.2) <$> o))
  | _ => 1
  end.

Definition jsonValueEqual (a b : jsval) : bool :=
  default false (jsonValueEqual_loop (S (json_size a)) [(a, b)]).

(** ** [merge] *)

Definition FORBIDDEN_MERGE_KEYS : list jsstr := js <$> ["__proto__"; "constructor"; "prototype"]%string.

Definition isPlainObject (v : jsval) : option (list (jsstr * jsval)) :=
  match v with JObj o => Some o | _ => None end.

(** [JUndef] stands for [undefined]; the patch object is walked in key order. *)
Fixpoint merge (target patch : jsval) : jsval :=
  match patch with
  | JUndef => target
  | JNull => JUndef
  | JObj p =>
    match isPlainObject target with
    | None => patch
    | Some t =>
      JObj ((fix go p combined :=
               match p with
               | [] => combined
               | (key, v) :: p' =>
                 go p' (if bool_decide (key ∈ FORBIDDEN_MERGE_KEYS) then combined
                        else match v with
                             | JNull => own_delete key combined
                             | _ => own_set key (merge (js_get t key) v) combined
                             end)
               end) p t)
    end
  | _ => patch
  end.

(** ** The JSON codec *)

(** [JSON.stringify] throws on a bigint anywhere in the value. *)
Fixpoint has_bigint (v : jsval) : bool :=
  match v with
  | JExotic XBigint => true
  | JArr l => existsb has_bigint l
  | JObj o => existsb (fun kv => has_bigint kv.2) o
  | _ => false
  end.

(** [JSON.parse (JSON.stringify v)]: properties without a JSON value are dropped,
    array holes and non-finite numbers become [null]; [None] is [undefined]. *)
Fixpoint json_norm (v : jsval) : option jsval :=
  match v with
  | JUndef | JExotic _ => None
  | JNull | JBool _ | JStr _ => Some v
  | JNum n => Some (if is_finite n then JNum n else JNull)
  | JArr l => Some (JArr ((fun x => default JNull (json_norm x)) <$> l))
  | JObj o => Some (JObj (omap (fun kv => pair kv.1 <$> json_norm kv.2) o))
  end.

Inductive bytes :=
| JsonText (v : jsval)
| OtherBytes (raw : list N) (parsed : option jsval).

(** [None]: [JSON.stringify] threw.  A value without JSON text encodes as nothing. *)
Definition encodeJsonBytes (v : jsval) : option bytes :=
  if has_bigint v then None
  else Some (match json_norm v with Some w => JsonText w | None => OtherBytes [] None end).

(** [None]: [JSON.parse] threw.  What it returns is JSON-normal; an inhabitant of
    [bytes] that claims otherwise is no JSON text. *)
Definition decodeJsonBytes (b : bytes) : option jsval :=
  v ← match b with JsonText v => Some v | OtherBytes _ parsed => parsed end;
  if json_ok v then Some v else None.

Definition EMPTY_BODY : bytes := OtherBytes [] None.

(** ** The specification of [jsonValueEqual]: equality up to object key order *)
Inductive json_equiv : jsval -> jsval -> Prop :=
| equiv_scalar a b : strict_eq a b = true -> json_equiv a b
| equiv_arr l r : Forall2 json_equiv l r -> json_equiv (JArr l) (JArr r)
| equiv_obj l r : length l = length r ->
    (forall k v, own_get k l = Some v -> exists w, own_get k r = Some w /\ json_equiv v w) ->
    json_equiv (JObj l) (JObj r).

(** ** Lemmas *)

Lemma list_sum_app' (l1 l2 : list nat) : list_sum (l1 ++ l2) = list_sum l1 + list_sum l2.
Proof. apply list_sum_app. Qed.

Definition pending_size (pending : list (jsval * jsval)) : nat :=
  list_sum ((fun p => json_size p.1) <$> pending).

Lemma push_array_app l r pending : length l = length r ->
  push_array l r pending = reverse (zip l r) ++ pending.
Proof.
  revert r pending. induction l as [|x l IH]; intros [|y r] pending; simpl; try done.
  intros [= H]. rewrite IH by done. by rewrite reverse_cons, <- app_assoc.
Qed.

Lemma push_object_spec keys l r pending :
  push_object keys l r pending =
  (fun ps => reverse ps ++ pending) <$>
    mapM (fun k => pair (js_get l k) <$> own_get k r) keys.
Proof.
  revert pending. induction keys as [|k keys IH]; intros pending; simpl; [done|].
  destruct (own_get k r) as [w|]; simpl; [|done]. rewrite IH.
  destruct (mapM _ keys) as [ps|]; simpl; [|done]. by rewrite reverse_cons, <- app_assoc.
Qed.

Lemma pending_size_app ps qs : pending_size (ps ++ qs) = pending_size ps + pending_size qs.
Proof. unfold pending_size. by rewrite fmap_app, list_sum_app'. Qed.

Lemma list_sum_perm (l1 l2 : list nat) : l1 ≡ₚ l2 -> list_sum l1 = list_sum l2.
Proof. induction 1; simpl; lia. Qed.

Lemma pending_size_reverse ps : pending_size (reverse ps) = pending_size ps.
Proof. apply list_sum_perm. by rewrite reverse_Permutation. Qed.

Lemma pending_size_zip l r : length l = length r ->
  pending_size (zip l r) = list_sum (json_size <$> l).
Proof.
  unfold pending_size. revert r. induction l as [|x l IH]; intros [|y r]; try done.
  intros [= ?]. cbn [zip zip_with]. rewrite !fmap_cons. cbn [list_sum foldr fst].
  change (json_size x + list_sum ((fun p : jsval * jsval => json_size p.1) <$> zip l r) =
    json_size x + list_sum (json_size <$> l)). by rewrite IH.
Qed.

(** The pairs an object pushes: its own values, each with the value of the same key. *)
Lemma object_pairs (l0 l r : list (jsstr * jsval)) ps :
  (forall k v, (k, v) ∈ l -> js_get l0 k = v) ->
  mapM (fun k => pair (js_get l0 k) <$> own_get k r) (own_keys l) = Some ps ->
  ps.*1 = l.*2 /\ Forall2 (fun kv p => own_get kv.1 r = Some p.2) l ps.
Proof.
  revert ps. induction l as [|[k v] l IH]; intros ps Hget; simpl.
  { intros [= <-]. by split. }
  destruct (own_get k r) as [w|] eqn:E; simpl; [|done].
  destruct (mapM _ (own_keys l)) as [qs|] eqn:Eq; simpl; [|done]. intros [= <-].
  destruct (IH qs) as [Hfst Hf]; [intros; apply Hget; by right | done|].
  rewrite fmap_cons. cbn [fst]. rewrite (Hget k v), Hfst by left. split; [done|].
  by constructor.
Qed.

Lemma object_pairs_None (l0 l r : list (jsstr * jsval)) :
  mapM (fun k => pair (js_get l0 k) <$> own_get k r) (own_keys l) = None ->
  exists k v, (k, v) ∈ l /\ own_get k r = None.
Proof.
  induction l as [|[k v] l IH]; simpl; [done|].
  destruct (own_get k r) as [w|] eqn:E; simpl.
  - destruct (mapM _ (own_keys l)) as [qs|]; simpl; [done|]. intros _.
    destruct (IH eq_refl) as (k' & v' & ? & ?). exists k', v'. split; [by right|done].
  - intros _. exists k, v. split; [left|done].
Qed.

Lemma js_get_own o k v : NoDup (own_keys o) -> (k, v) ∈ o -> js_get o k = v.
Proof. intros Hnd Hin. unfold js_get. by rewrite (own_get_elem k v o Hnd Hin). Qed.

Definition pairs_equiv (ps : list (jsval * jsval)) : Prop := Forall (fun p => json_equiv p.1 p.2) ps.

Lemma object_pairs_equiv (l r : list (jsstr * jsval)) ps : NoDup (own_keys l) ->
  Forall2 (fun kv p => own_get kv.1 r = Some p.2) l ps -> ps.*1 = l.*2 ->
  pairs_equiv ps <->
  forall k v, own_get k l = Some v -> exists w, own_get k r = Some w /\ json_equiv v w.
Proof.
  intros Hnd Hf Hfst. split.
  - intros Hps k v Hk. apply own_get_In in Hk.
    apply list_elem_of_lookup in Hk as [i Hi].
    destruct (Forall2_lookup_l _ _ _ _ _ Hf Hi) as ([v' w] & Hp & Hw). exists w. split; [done|].
    assert (v' = v) as <-.
    { assert (ps.*1 !! i = Some v') as E1 by (by rewrite list_lookup_fmap, Hp).
      rewrite Hfst, list_lookup_fmap, Hi in E1. by simplify_eq/=. }
    by apply (Forall_lookup_1 _ _ _ _ Hps) in Hp.
  - intros Hall. apply Forall_lookup. intros i [v w] Hp.
    destruct (Forall2_lookup_r _ _ _ _ _ Hf Hp) as ([k v'] & Hi & Hw). simpl in *.
    assert (v' = v) as ->.
    { assert (ps.*1 !! i = Some v) as E1 by (by rewrite list_lookup_fmap, Hp).
      rewrite Hfst, list_lookup_fmap, Hi in E1. by simplify_eq/=. }
    destruct (Hall k v) as (w' & ? & ?); [|by simplify_eq].
    apply own_get_elem; [done|]. by apply list_elem_of_lookup_2 in Hi.
Qed.

Lemma json_equiv_arr_inv l r : json_equiv (JArr l) (JArr r) <-> Forall2 json_equiv l r.
Proof. split; [by inversion 1 | apply equiv_arr]. Qed.

Lemma json_equiv_obj_inv l r : json_equiv (JObj l) (JObj r) <-> length l = length r /\
  forall k v, own_get k l = Some v -> exists w, own_get k r = Some w /\ json_equiv v w.
Proof. split; [by inversion 1 | intros [? ?]; by apply equiv_obj]. Qed.

Lemma pairs_equiv_zip l r : length l = length r ->
  pairs_equiv (reverse (zip l r)) <-> Forall2 json_equiv l r.
Proof.
  intros Hlen. unfold pairs_equiv. rewrite reverse_Permutation.
  revert r Hlen. induction l as [|x l IH]; intros [|y r]; simpl; try done.
  intros [= Hlen]. rewrite Forall_cons, (IH r Hlen). split; [intros [? ?]; by constructor|].
  by inversion 1.
Qed.

Definition lefts_ok (ps : list (jsval * jsval)) : Prop := Forall (fun p => json_ok p.1 = true) ps.

(** The loop with enough fuel ends, and decides equivalence of every pending pair. *)
Lemma jsonValueEqual_loop_spec fuel pending : lefts_ok pending ->
  pending_size pending < fuel ->
  exists b, jsonValueEqual_loop fuel pending = Some b /\ (b = true <-> pairs_equiv pending).
Proof.
  revert pending. induction fuel as [|fuel IH]; intros pending Hok Hfuel; [lia|].
  destruct pending as [|[a b] pending]; cbn [jsonValueEqual_loop].
  { exists true. repeat constructor. }
  apply Forall_cons in Hok as [Ha Hok]. simpl in Ha.
  assert (Hsz : pending_size ((a, b) :: pending) = json_size a + pending_size pending) by done.
  assert (H1 : 1 <= json_size a) by (destruct a; simpl; lia).
  unfold pairs_equiv. setoid_rewrite Forall_cons. cbn [fst snd].
  destruct (strict_eq a b) eqn:Es.
  { destruct (IH pending) as (b' & -> & Hb); [done|lia|]. exists b'. split; [done|].
    rewrite Hb. split; [|by intros [??]]. intros ?. split; [by apply equiv_scalar|done]. }
  assert (Hno : Some false = Some false) by done.
  destruct a as [| |x|x|x|l|l|x], b as [| |y|y|y|r|r|y];
    try (exists false; split; [done|]; split; [done|]; intros [Hj _]; inversion Hj; congruence).
  - destruct (Nat.eqb_spec (length l) (length r)) as [Hl|Hl].
    + rewrite push_array_app by done. apply json_ok_arr in Ha.
      destruct (IH (reverse (zip l r) ++ pending)) as (b' & -> & Hb).
      * apply Forall_app. split; [|done]. rewrite reverse_Permutation.
        apply Forall_forall. intros [u w] Hu%elem_of_zip_l. by eapply Forall_forall in Ha.
      * rewrite pending_size_app, pending_size_reverse, pending_size_zip by done.
        simpl in Hsz. lia.
      * exists b'. split; [done|]. rewrite Hb. unfold pairs_equiv at 1. rewrite Forall_app.
        rewrite json_equiv_arr_inv, <- pairs_equiv_zip; done.
    + exists false. split; [done|]. split; [done|]. intros [Hj _].
      apply json_equiv_arr_inv, Forall2_length in Hj. congruence.
  - unfold own_keys at 1 2. rewrite !length_fmap.
    apply json_ok_obj in Ha as [Hnd Hvals].
    destruct (Nat.eqb_spec (length l) (length r)) as [Hl|Hl].
    + rewrite push_object_spec. destruct (mapM _ _) as [ps|] eqn:Em; cbn [fmap option_fmap option_map].
      * apply object_pairs in Em as [Hfst Hf]; [|intros; by apply js_get_own].
        destruct (IH (reverse ps ++ pending)) as (b' & -> & Hb).
        { apply Forall_app. split; [|done]. rewrite reverse_Permutation.
          assert (Hvs : Forall (fun v => json_ok v = true) l.*2) by by apply Forall_fmap.
          rewrite <- Hfst in Hvs. by apply Forall_fmap in Hvs. }
        { rewrite pending_size_app, pending_size_reverse.
          assert (Hps : pending_size ps = list_sum ((fun kv => json_size kv.2) <$> l)).
          { unfold pending_size. transitivity (list_sum (json_size <$> ps.*1)).
            - by rewrite <- list_fmap_compose.
            - by rewrite Hfst, <- list_fmap_compose. }
          simpl in Hsz. lia. }
        exists b'. split; [done|]. rewrite Hb. unfold pairs_equiv at 1.
        rewrite Forall_app, reverse_Permutation, json_equiv_obj_inv.
        rewrite <- (object_pairs_equiv l r ps) by done. unfold pairs_equiv. tauto.
      * apply object_pairs_None in Em as (k & v & Hin & Hk).
        exists false. split; [done|]. split; [done|]. intros [Hj _].
        apply json_equiv_obj_inv in Hj as [_ Hj].
        destruct (Hj k v) as (w & ? & _); [by apply own_get_elem|congruence].
    + exists false. split; [done|]. split; [done|]. intros [Hj _].
      apply json_equiv_obj_inv in Hj as [? _]. congruence.
Qed.

(** The work-stack loop never runs out of fuel and decides structural equality. *)
Lemma jsonValueEqual_decides a b : json_ok a = true ->
  (exists r, jsonValueEqual_loop (S (json_size a)) [(a, b)] = Some r) /\
  (jsonValueEqual a b = true <-> json_equiv a b).
Proof.
  intros Ha.
  destruct (jsonValueEqual_loop_spec (S (json_size a)) [(a, b)]) as (r & Hr & Hspec).
  - by constructor.
  - unfold pending_size. simpl. lia.
  - split; [by exists r|]. unfold jsonValueEqual. rewrite Hr. simpl. rewrite Hspec.
    unfold pairs_equiv. rewrite Forall_singleton. done.
Qed.

(** ** [merge] key by key *)

(** One key of a patch applied to the combined object. *)
Definition merge_step (t : list (jsstr * jsval)) (combined : list (jsstr * jsval))
    (kv : jsstr * jsval) : list (jsstr * jsval) :=
  if bool_decide (kv.1 ∈ FORBIDDEN_MERGE_KEYS) then combined
  else match kv.2 with
       | JNull => own_delete kv.1 combined
       | v => own_set kv.1 (merge (js_get t kv.1) v) combined
       end.

Lemma merge_objects t p : merge (JObj t) (JObj p) = JObj (foldl (merge_step t) t p).
Proof.
  cbn [merge isPlainObject]. f_equal.
  enough (forall c, (fix go p combined := match p with
    | [] => combined
    | (key, v) :: p' =>
      go p' (if bool_decide (key ∈ FORBIDDEN_MERGE_KEYS) then combined
             else match v with
                  | JNull => own_delete key combined
                  | _ => own_set key (merge (js_get t key) v) combined
                  end)
    end) p c = foldl (merge_step t) c p) as H by apply H.
  induction p as [|[k v] p IH]; intros c; [done|]. cbn [foldl]. rewrite IH. f_equal.
  unfold merge_step. cbn [fst snd]. by destruct v.
Qed.

(** What a patch makes of the key [k] of a target. *)
Definition merged_at (t p : list (jsstr * jsval)) (k : jsstr) : option jsval :=
  match own_get k p with
  | None => own_get k t
  | Some v =>
    if bool_decide (k ∈ FORBIDDEN_MERGE_KEYS) then own_get k t
    else match v with
         | JNull => None
         | _ => Some (merge (js_get t k) v)
         end
  end.

Lemma merge_step_get t c j v k :
  own_get k (merge_step t c (j, v)) =
  if decide (j = k)
  then if bool_decide (k ∈ FORBIDDEN_MERGE_KEYS) then own_get k c
       else match v with JNull => None | _ => Some (merge (js_get t k) v) end
  else own_get k c.
Proof.
  unfold merge_step. cbn [fst snd]. destruct (decide (j = k)) as [->|Hne].
  - case_bool_decide; [done|]. destruct v; rewrite ?own_get_delete, ?own_get_set; by rewrite decide_True.
  - case_bool_decide; [done|]. destruct v; rewrite ?own_get_delete, ?own_get_set; by rewrite decide_False.
Qed.

Lemma merge_fold_get t p c k : NoDup (own_keys p) ->
  own_get k (foldl (merge_step t) c p) =
  match own_get k p with
  | None => own_get k c
  | Some v =>
    if bool_decide (k ∈ FORBIDDEN_MERGE_KEYS) then own_get k c
    else match v with JNull => None | _ => Some (merge (js_get t k) v) end
  end.
Proof.
  revert c. induction p as [|[j v] p IH]; intros c Hnd; [done|].
  cbn [foldl own_keys fmap list_fmap fst] in *. apply NoDup_cons in Hnd as [Hj Hnd].
  rewrite (IH _ Hnd), !merge_step_get. cbn [own_get].
  destruct (decide (j = k)) as [->|Hne].
  - replace (own_get k p) with (@None jsval) by (symmetry; by apply own_get_None). done.
  - done.
Qed.

Lemma merge_get t p k : NoDup (own_keys p) ->
  own_get k (foldl (merge_step t) t p) = merged_at t p k.
Proof. apply merge_fold_get. Qed.

Lemma merge_fold_NoDup t p c : NoDup (own_keys c) -> NoDup (own_keys (foldl (merge_step t) c p)).
Proof.
  revert c. induction p as [|[j v] p IH]; intros c Hc; [done|]. cbn [foldl]. apply IH.
  unfold merge_step. cbn [fst snd]. case_bool_decide; [done|].
  destruct v; by (apply own_delete_NoDup || apply own_set_NoDup).
Qed.

(** ** Properties of [json_norm] and the codec *)

Lemma json_ok_no_bigint v : json_ok v = true -> has_bigint v = false.
Proof.
  induction v as [| |b|n|s|l IH|o IH|x] using jsval_nested_ind; intros H; try done.
  - apply json_ok_arr in H. simpl. apply not_true_iff_false. rewrite existsb_exists.
    intros (v & Hv%list_elem_of_In & Hb). eapply Forall_forall in IH; [|done].
    eapply Forall_forall in H; [|done]. simpl in *. by rewrite IH in Hb.
  - apply json_ok_obj in H as [_ H]. simpl. apply not_true_iff_false. rewrite existsb_exists.
    intros (v & Hv%list_elem_of_In & Hb). eapply Forall_forall in IH; [|done].
    eapply Forall_forall in H; [|done]. simpl in *. by rewrite IH in Hb.
Qed.

Lemma json_norm_ok v : json_ok v = true -> json_norm v = Some v.
Proof.
  induction v as [| |b|n|s|l IH|o IH|x] using jsval_nested_ind; intros H; try done.
  - simpl in *. by rewrite H.
  - apply json_ok_arr in H. cbn [json_norm]. do 2 f_equal.
    induction IH as [|v l Hv _ IHl]; [done|]. apply Forall_cons in H as [Hok H].
    rewrite fmap_cons, (Hv Hok), IHl by done. done.
  - apply json_ok_obj in H as [_ H]. cbn [json_norm]. do 2 f_equal.
    induction IH as [|[k v] o Hv _ IHo]; [done|]. apply Forall_cons in H as [Hok H].
    cbn [omap list_omap fst snd] in *. rewrite (Hv Hok). cbn [fmap option_fmap option_map].
    f_equal. by apply IHo.
Qed.

(** Every object of a value has distinct keys, as every JavaScript object does. *)
Fixpoint keys_ok (v : jsval) : bool :=
  match v with
  | JArr l => forallb keys_ok l
  | JObj o => bool_decide (NoDup (own_keys o)) && forallb (fun kv => keys_ok kv.2) o
  | _ => true
  end.

Lemma omap_norm_keys (o : list (jsstr * jsval)) :
  sublist (own_keys (omap (fun kv => pair kv.1 <$> json_norm kv.2) o)) (own_keys o).
Proof.
  induction o as [|[k v] o IH]; [done|]. cbn [omap list_omap fst snd].
  destruct (json_norm v); cbn [fmap option_fmap option_map own_keys list_fmap fst];
    by constructor.
Qed.

Lemma json_norm_normal v w : keys_ok v = true -> json_norm v = Some w -> json_ok w = true.
Proof.
  revert w. induction v as [| |b|n|s|l IH|o IH|x] using jsval_nested_ind; intros w Hk; try done.
  - by intros [= <-].
  - by intros [= <-].
  - intros [= <-]. by destruct n.
  - by intros [= <-].
  - cbn [json_norm]. intros [= <-]. apply json_ok_arr. apply Forall_fmap.
    cbn [keys_ok] in Hk. rewrite forallb_forall in Hk.
    apply Forall_forall. intros v Hv. eapply Forall_forall in IH; [|done]. simpl in *.
    destruct (json_norm v) as [u|] eqn:E; [|done]. apply (IH u); [|done].
    by apply Hk, list_elem_of_In.
  - cbn [json_norm]. intros [= <-]. cbn [keys_ok] in Hk. apply andb_true_iff in Hk as [Hnd Hk].
    apply bool_decide_eq_true in Hnd. rewrite forallb_forall in Hk. apply json_ok_obj. split.
    { eapply sublist_NoDup; [done|apply omap_norm_keys]. }
    apply Forall_forall. intros [k u] Hin. apply list_elem_of_omap in Hin as ([k' v] & Hin & Hu).
    simpl in *. destruct (json_norm v) as [u'|] eqn:E; [|done]. simplify_eq/=.
    eapply Forall_forall in IH; [|done]. apply (IH u); [|done]. by apply (Hk (k, v)), list_elem_of_In.
Qed.

Lemma encode_ok v : json_ok v = true -> encodeJsonBytes v = Some (JsonText v).
Proof.
  intros H. unfold encodeJsonBytes. by rewrite (json_ok_no_bigint _ H), (json_norm_ok _ H).
Qed.

Lemma decode_json_ok b v : decodeJsonBytes b = Some v -> json_ok v = true.
Proof.
  unfold decodeJsonBytes. destruct b as [w|raw [w|]]; simpl; [..|done];
    destruct (json_ok w) eqn:E; by intros [= <-].
Qed.

Lemma decode_encode v b : keys_ok v = true -> encodeJsonBytes v = Some b ->
  decodeJsonBytes b = json_norm v.
Proof.
  intros Hk. unfold encodeJsonBytes. destruct (has_bigint v); [done|].
  destruct (json_norm v) as [w|] eqn:E; intros [= <-]; [|done].
  unfold decodeJsonBytes. simpl. by rewrite (json_norm_normal v w Hk E).
Qed.

(** ** Theorems *)

(** [jsonValueEqual] on a JSON value and any other value: the work-stack loop ends
    within one turn per node of the left value, and it answers [true] exactly when the
    values are equal up to the order of object keys. *)
Theorem jsonValueEqual_spec a b : json_ok a = true ->
  (exists r, jsonValueEqual_loop (S (json_size a)) [(a, b)] = Some r /\ jsonValueEqual a b = r) /\
  (jsonValueEqual a b = true <-> json_equiv a b).
Proof.
  intros Ha. destruct (jsonValueEqual_decides a b Ha) as [[r Hr] Hspec]. split; [|done].
  exists r. split; [done|]. unfold jsonValueEqual. by rewrite Hr.
Qed.

Lemma jsonValueEqual_spec_witness :
  jsonValueEqual (JObj [(js "a", JArr [JNull]); (js "b", JBool true)])
                 (JObj [(js "b", JBool true); (js "a", JArr [JNull])]) = true /\
  json_equiv (JObj [(js "a", JArr [JNull]); (js "b", JBool true)])
             (JObj [(js "b", JBool true); (js "a", JArr [JNull])]).
Proof.
  split; [vm_compute; reflexivity|].
  apply (jsonValueEqual_spec (JObj [(js "a", JArr [JNull]); (js "b", JBool true)])); vm_compute; reflexivity.
Defined.

(** RFC 7386 key by key: merging an object patch into an object gives, under every
    key, the target's value when the patch has no such key or a forbidden one
    ([__proto__], [constructor], [prototype]), nothing when the patch says [null], and
    the recursive merge otherwise; the keys stay distinct. *)
Theorem merge_keywise t p : NoDup (own_keys t) -> NoDup (own_keys p) ->
  exists o, merge (JObj t) (JObj p) = JObj o /\ NoDup (own_keys o) /\
    forall k, own_get k o = merged_at t p k.
Proof.
  intros Ht Hp. exists (foldl (merge_step t) t p). split; [apply merge_objects|].
  split; [by apply merge_fold_NoDup|]. intros k. by apply merge_get.
Qed.

Lemma merge_keywise_witness :
  exists o, merge (JObj [(js "a", JNull); (js "b", JBool true)])
      (JObj [(js "b", JNull); (js "__proto__", JBool true); (js "c", JBool false)]) = JObj o /\
    own_get (js "b") o = None /\ own_get (js "__proto__") o = None.
Proof.
  destruct (merge_keywise [(js "a", JNull); (js "b", JBool true)]
    [(js "b", JNull); (js "__proto__", JBool true); (js "c", JBool false)]) as (o & Ho & _ & Hget).
  - apply (bool_decide_unpack _). vm_compute. exact I.
  - apply (bool_decide_unpack _). vm_compute. exact I.
  - exists o. rewrite !Hget. split; [exact Ho|]. split; vm_compute; reflexivity.
Defined.

(** What the encoder writes decodes to the JSON-normal form of the value, which is
    itself JSON and encodes to the same bytes; a JSON value round-trips unchanged. *)
Theorem encode_decode_roundtrip v b : keys_ok v = true -> encodeJsonBytes v = Some b ->
  decodeJsonBytes b = json_norm v /\
  forall w, json_norm v = Some w -> json_ok w = true /\ encodeJsonBytes w = Some b.
Proof.
  intros Hk He. split; [by apply decode_encode|]. intros w Hw.
  pose proof (json_norm_normal v w Hk Hw) as Hok. split; [done|].
  rewrite (encode_ok w Hok). unfold encodeJsonBytes in He. destruct (has_bigint v); [done|].
  by rewrite Hw in He.
Qed.

Lemma encode_decode_roundtrip_witness :
  decodeJsonBytes (JsonText (JObj [(js "a", JArr [JNull])])) = Some (JObj [(js "a", JArr [JNull])]).
Proof.
  apply (encode_decode_roundtrip (JObj [(js "a", JArr [JUndef]); (js "b", JUndef)])
    (JsonText (JObj [(js "a", JArr [JNull])]))); vm_compute; reflexivity.
Defined.
