(* ===== verification/Storage.v ===== *)
(** * Object storage (protocol/src/storage/types.ts, key.ts, memory.ts)

    The [Storage] contract's data, the key grammar, and [MemoryStorage], the
    reference implementation: a map from keys to bodies with a counter that mints
    ETags.  Every operation returns its result or the error it throws, and the
    storage after it.  Abort signals, [serverDate] apart, and [contentType]
    (never read back) are not modelled. *)
From stdpp Require Import sorting.
From S2P Require Import Prelude JsText JsValue Errors Json.
Local Open Scope Z_scope.

Abbreviation result A := (js_error + A)%type.

(** Sequencing of steps that may throw. *)
Definition rbind {A B} (r : result A) (f : A -> result B) : result B :=
  match r with inl e => inl e | inr a => f a end.

Declare Scope result_scope.
Delimit Scope result_scope with result.
Notation "'let?' x ':=' r 'in' k" := (rbind r (fun x => k))
  (at level 10, x pattern, r at level 200, k at level 200) : result_scope.

(** ** The contract's records *)

Record StorageGetResult := GetResult { body : bytes; etag : jsstr }.

(** [serverDate] in epoch milliseconds. *)
Record StoragePutResult := PutResult { put_etag : jsstr; serverDate : option Z }.

Record StoragePutOptions := PutOptions { ifMatch : option jsstr; ifNoneMatch : bool }.

Record StorageListEntry := ListEntry { entry_key : jsstr; entry_etag : jsstr }.

(** [{ ifNoneMatch: "*" }], [{ ifMatch: e }] and no precondition. *)
Definition create_only : StoragePutOptions := PutOptions None true.
Definition if_match (e : jsstr) : StoragePutOptions := PutOptions (Some e) false.
Definition unconditional : StoragePutOptions := PutOptions None false.

(** ** The key grammar: non-empty, no ["."] or [".."] segment *)
Definition slash : N := 47.

Definition is_dot_segment (segment : jsstr) : bool :=
  bool_decide (segment = js ".") || bool_decide (segment = js "..").

(** [None] when the key is valid, the thrown error otherwise. *)
Definition assertValidStorageKey (key : jsstr) : option js_error :=
  if bool_decide (key = []) then Some (new_error InvalidConfig)
  else if existsb is_dot_segment (split_on slash key) then Some (new_error InvalidConfig)
  else None.

(** ** [MemoryStorage] *)

Record StoredObject := Stored { stored_body : bytes; stored_etag : jsstr }.

Record MemoryStorage := Memory { objects : gmap jsstr StoredObject; etagCounter : N }.

Definition empty_memory : MemoryStorage := Memory empty 0.

Definition quote : N := 34.

(** The ETag of counter value [n]: its quoted hexadecimal. *)
Definition etag_of (n : N) : jsstr := [quote] ++ to_radix 16 n ++ [quote].

Definition nextEtag (m : MemoryStorage) : jsstr * MemoryStorage :=
  let n := (etagCounter m + 1)%N in (etag_of n, Memory (objects m) n).

Definition memory_get (key : jsstr) (ifNoneMatch : option jsstr) (m : MemoryStorage) :
    result (option StorageGetResult) :=
  match assertValidStorageKey key with
  | Some e => inl e
  | None =>
    inr match objects m !! key with
        | None => None
        | Some stored =>
          if bool_decide (ifNoneMatch = Some (stored_etag stored)) then None
          else Some (GetResult (stored_body stored) (stored_etag stored))
        end
  end.

(** The precondition of a put on the object it finds. *)
Definition put_precondition (opts : StoragePutOptions) (existing : option StoredObject) : bool :=
  if ifNoneMatch opts && bool_decide (is_Some existing) then false
  else match ifMatch opts with
       | None => true
       | Some e => match existing with
                   | None => false
                   | Some o => bool_decide (stored_etag o = e)
                   end
       end.

(** The unconditional part of a put: mint an ETag and store the body. *)
Definition memory_store (key : jsstr) (b : bytes) (m : MemoryStorage) : jsstr * MemoryStorage :=
  let (e, m1) := nextEtag m in (e, Memory (<[key := Stored b e]> (objects m1)) (etagCounter m1)).

(** [now] is the clock [serverDate] reads. *)
Definition memory_put (now : Z) (key : jsstr) (b : bytes) (opts : StoragePutOptions)
    (m : MemoryStorage) : result StoragePutResult * MemoryStorage :=
  match assertValidStorageKey key with
  | Some e => (inl e, m)
  | None =>
    if put_precondition opts (objects m !! key)
    then let (e, m') := memory_store key b m in (inr (PutResult e (Some now)), m')
    else (inl (new_error WriteConflict), m)
  end.

Definition memory_delete (key : jsstr) (m : MemoryStorage) : result unit * MemoryStorage :=
  match assertValidStorageKey key with
  | Some e => (inl e, m)
  | None => (inr tt, Memory (delete key (objects m)) (etagCounter m))
  end.

(** Keys compared by UTF-8 bytes: the first difference, else the lengths. *)
Fixpoint compare_bytes (a b : list N) : Z :=
  match a, b with
  | [], [] => 0
  | [], _ :: _ => - Z.of_nat (length b)
  | _ :: _, [] => Z.of_nat (length a)
  | x :: a', y :: b' => if (x =? y)%N then compare_bytes a' b' else Z.of_N x - Z.of_N y
  end.

Definition compareKeysUtf8 (a b : jsstr) : Z := compare_bytes (utf8_encode a) (utf8_encode b).

Definition key_le (a b : jsstr) : Prop := compareKeysUtf8 a b <= 0.

Global Instance key_le_dec : RelDecision key_le.
Proof. intros a b. unfold key_le. apply _. Defined.

(** [list(prefix, { startAfter, maxKeys })], read to the end of the iteration. *)
Definition memory_list (prefix : jsstr) (startAfter : option jsstr) (maxKeys : option nat)
    (m : MemoryStorage) : list StorageListEntry :=
  let after := default [] startAfter in
  let keys := base.filter (fun k => starts_with prefix k && (0 <? compareKeysUtf8 k after) = true)
                ((map_to_list (objects m)).*1) in
  let sorted := merge_sort key_le keys in
  let taken := match maxKeys with Some n => take n sorted | None => sorted end in
  omap (fun k => (fun o => ListEntry k (stored_etag o)) <$> objects m !! k) taken.

(** ** Lemmas *)

(** Every ETag of the map was minted by the counter. *)
Definition memory_ok (m : MemoryStorage) : Prop :=
  forall k o, objects m !! k = Some o -> exists n, (n <= etagCounter m)%N /\ stored_etag o = etag_of n.

Lemma etag_of_inj m n : etag_of m = etag_of n -> m = n.
Proof.
  unfold etag_of. intros H. apply (app_inj_1 [quote] [quote]) in H as [_ H]; [|done].
  apply app_inj_tail in H as [H _]. by apply to_radix_inj in H.
Qed.

Lemma memory_store_ok key b m : memory_ok m -> memory_ok (memory_store key b m).2.
Proof.
  intros Hm k o. unfold memory_store, nextEtag. cbn [fst snd objects etagCounter].
  rewrite lookup_insert_Some. intros [[-> <-]|[_ Hk]].
  - exists (etagCounter m + 1)%N. cbn [stored_etag]. split; [lia|done].
  - destruct (Hm k o Hk) as (n & ? & ?). exists n. split; [lia|done].
Qed.

(** The minted ETag is new. *)
Lemma memory_store_fresh key b m k o : memory_ok m -> objects m !! k = Some o ->
  stored_etag o <> (memory_store key b m).1.
Proof.
  intros Hm Hk. destruct (Hm k o Hk) as (n & Hn & ->). unfold memory_store, nextEtag. simpl.
  intros H%etag_of_inj. lia.
Qed.

Lemma memory_store_lookup key b m k :
  objects (memory_store key b m).2 !! k =
  if decide (key = k) then Some (Stored b (memory_store key b m).1) else objects m !! k.
Proof.
  unfold memory_store, nextEtag. cbn [fst snd objects].
  case_decide as E; [subst; apply lookup_insert_eq | by apply lookup_insert_ne].
Qed.

Lemma memory_put_ok now key b opts m : memory_ok m -> memory_ok (memory_put now key b opts m).2.
Proof.
  intros Hm. unfold memory_put. destruct (assertValidStorageKey key); [done|].
  destruct (put_precondition _ _); [|done].
  pose proof (memory_store_ok key b m Hm) as H. by destruct (memory_store key b m).
Qed.

Lemma memory_delete_ok key m : memory_ok m -> memory_ok (memory_delete key m).2.
Proof.
  intros Hm. unfold memory_delete. destruct (assertValidStorageKey key); [done|].
  intros k o. cbn [snd objects etagCounter]. rewrite lookup_delete_Some. intros [_ Hk]. by apply (Hm k).
Qed.

(** *** Byte order *)

Lemma compare_bytes_spec a b :
  (compare_bytes a b < 0 <-> str_ltb a b = true) /\ (compare_bytes a b = 0 <-> a = b).
Proof.
  revert b. induction a as [|x a IH]; intros [|y b]; cbn [compare_bytes str_ltb length].
  - split; split; (done || lia).
  - split; split; (done || lia).
  - split; split; (done || lia).
  - destruct (N.eqb_spec x y) as [->|Hne].
    + rewrite N.ltb_irrefl. destruct (IH b) as [H1 H2]. split; [done|]. rewrite H2. naive_solver.
    + assert (x :: a <> y :: b) by congruence.
      destruct (N.ltb_spec x y), (N.ltb_spec y x); try lia; split; split; intros; try done; lia.
Qed.

Lemma key_le_str_leb a b : key_le a b <-> str_leb (utf8_encode a) (utf8_encode b) = true.
Proof.
  unfold key_le, compareKeysUtf8, str_leb.
  destruct (compare_bytes_spec (utf8_encode a) (utf8_encode b)) as [H1 H2].
  destruct (str_ltb_total (utf8_encode a) (utf8_encode b)) as [H|[H|H]].
  - rewrite (str_ltb_asym _ _ H). split; [done|]. intros _. apply H1 in H. lia.
  - assert (str_ltb (utf8_encode b) (utf8_encode a) = false) as -> by (rewrite H; apply str_ltb_irrefl).
    split; [done|]. intros _. apply H2 in H. lia.
  - rewrite H. split; [|done]. intros Hle. exfalso. rewrite (str_ltb_asym _ _ H) in H1.
    assert (compare_bytes (utf8_encode a) (utf8_encode b) <> 0).
    { rewrite H2. intros E. by rewrite E, str_ltb_irrefl in H. }
    assert (false = true) by (apply H1; lia). done.
Qed.

Global Instance key_le_total : Total key_le.
Proof.
  intros a b. rewrite !key_le_str_leb. unfold str_leb.
  destruct (str_ltb (utf8_encode b) (utf8_encode a)) eqn:E; [right|by left].
  by rewrite (str_ltb_asym _ _ E).
Qed.

Global Instance key_le_trans : Transitive key_le.
Proof.
  intros a b c. rewrite !key_le_str_leb. unfold str_leb. rewrite !negb_true_iff. intros H1 H2.
  destruct (str_ltb (utf8_encode c) (utf8_encode a)) eqn:E; [|done].
  destruct (str_ltb_total (utf8_encode a) (utf8_encode b)) as [H|[H|H]]; [..|congruence].
  - by rewrite (str_ltb_trans _ _ _ E H) in H2.
  - by rewrite <- H, E in H2.
Qed.

Lemma in_memory_list prefix after m e :
  e ∈ memory_list prefix after None m <->
  exists o, objects m !! entry_key e = Some o /\ entry_etag e = stored_etag o /\
    starts_with prefix (entry_key e) = true /\ 0 < compareKeysUtf8 (entry_key e) (default [] after).
Proof.
  unfold memory_list. rewrite list_elem_of_omap. split.
  - intros (k & Hk & He). rewrite merge_sort_Permutation, list_elem_of_filter in Hk.
    destruct Hk as [Hk _]. apply andb_true_iff in Hk as [Hp Ha]. apply Z.ltb_lt in Ha.
    destruct (objects m !! k) as [o|] eqn:Eo; [|done]. simplify_eq/=. by exists o.
  - intros (o & Ho & He & Hp & Ha). exists (entry_key e). split.
    + rewrite merge_sort_Permutation, list_elem_of_filter. split.
      * rewrite Hp. by apply Z.ltb_lt.
      * apply list_elem_of_fmap. exists (entry_key e, o). split; [done|]. by apply elem_of_map_to_list.
    + rewrite Ho. simpl. by rewrite <- He; destruct e.
Qed.

(** The keys a listing sorts, and the entries it makes of them. *)
Definition listed_keys (prefix : jsstr) (after : option jsstr) (m : MemoryStorage) : list jsstr :=
  merge_sort key_le (base.filter
    (fun k => starts_with prefix k && (0 <? compareKeysUtf8 k (default [] after)) = true) ((map_to_list (objects m)).*1)).

Definition list_entries (m : MemoryStorage) (keys : list jsstr) : list StorageListEntry :=
  omap (fun k => (fun o => ListEntry k (stored_etag o)) <$> objects m !! k) keys.

Lemma listed_stored prefix after m k : k ∈ listed_keys prefix after m -> exists o, objects m !! k = Some o.
Proof.
  unfold listed_keys. rewrite merge_sort_Permutation, list_elem_of_filter. intros [_ Hk].
  apply list_elem_of_fmap in Hk as ([k' o] & -> & Hin). apply elem_of_map_to_list in Hin. by exists o.
Qed.

Lemma list_entries_keys m keys : (forall k, k ∈ keys -> exists o, objects m !! k = Some o) ->
  entry_key <$> list_entries m keys = keys.
Proof.
  unfold list_entries. induction keys as [|k l IH]; intros Hl; [done|]. destruct (Hl k ltac:(left)) as (o & Ho).
  cbn [omap list_omap]. rewrite Ho. cbn [fmap option_fmap option_map]. rewrite fmap_cons.
  cbn [compose entry_key]. f_equal. apply IH. intros; apply Hl; by right.
Qed.

Lemma memory_list_keys prefix after m : entry_key <$> memory_list prefix after None m = listed_keys prefix after m.
Proof. apply list_entries_keys. apply listed_stored. Qed.

Lemma memory_list_sorted prefix after m : StronglySorted key_le (entry_key <$> memory_list prefix after None m).
Proof. rewrite memory_list_keys. apply (StronglySorted_merge_sort key_le). Qed.

(** ** Theorems *)

(** A put is an atomic compare-and-swap: with a valid key it stores the body under
    a fresh ETag exactly when its precondition holds (no object for a create, the
    expected ETag for an update), changes no other object, and otherwise throws
    [WriteConflict] and changes nothing. *)
Theorem memory_put_is_cas now key b opts m : memory_ok m -> assertValidStorageKey key = None ->
  let applies := (ifNoneMatch opts = true -> objects m !! key = None) /\
    (forall e, ifMatch opts = Some e -> exists o, objects m !! key = Some o /\ stored_etag o = e) in
  (applies -> exists e m', memory_put now key b opts m = (inr (PutResult e (Some now)), m') /\
      (forall k o, objects m !! k = Some o -> stored_etag o <> e) /\
      objects m' = <[key := Stored b e]> (objects m) /\ memory_ok m') /\
  (~ applies -> memory_put now key b opts m = (inl (new_error WriteConflict), m)).
Proof.
  intros Hm Hv applies.
  assert (Hpre : put_precondition opts (objects m !! key) = true <-> applies).
  { unfold applies, put_precondition. destruct (ifNoneMatch opts), (ifMatch opts) as [e|], (objects m !! key) as [o|];
      cbn [andb]; rewrite ?bool_decide_eq_true_2 by done; rewrite ?bool_decide_eq_false_2 by (by intros [??]);
      try (rewrite bool_decide_eq_true); naive_solver. }
  unfold memory_put. rewrite Hv. split.
  - intros Ha. rewrite (proj2 Hpre Ha). pose proof (memory_store_ok key b m Hm) as Hok.
    pose proof (fun k o => memory_store_fresh key b m k o Hm) as Hfresh.
    destruct (memory_store key b m) as [e m'] eqn:Es. exists e, m'. split; [done|].
    split; [done|]. split; [|done]. unfold memory_store, nextEtag in Es. by simplify_eq/=.
  - intros Hn. destruct (put_precondition opts (objects m !! key)); [|done]. destruct Hn. by apply Hpre.
Qed.

Lemma memory_put_is_cas_witness :
  memory_put 0 (js "k") EMPTY_BODY (if_match (js "e")) empty_memory = (inl (new_error WriteConflict), empty_memory).
Proof.
  apply (memory_put_is_cas 0 (js "k") EMPTY_BODY (if_match (js "e")) empty_memory).
  - intros k o H. unfold empty_memory in H. cbn [objects] in H. rewrite lookup_empty in H. discriminate.
  - vm_compute. reflexivity.
  - intros [_ H]. destruct (H (js "e") eq_refl) as (o & Ho & _). unfold empty_memory in Ho. cbn [objects] in Ho.
    rewrite lookup_empty in Ho. discriminate.
Defined.

(** Listing returns exactly the objects under the prefix whose key is strictly
    after the cursor, each once with its current ETag, in ascending UTF-8 byte order of
    the keys, and a page is a prefix of that list. *)
Theorem memory_list_spec prefix after m :
  (forall e, e ∈ memory_list prefix after None m <->
     exists o, objects m !! entry_key e = Some o /\ entry_etag e = stored_etag o /\
       starts_with prefix (entry_key e) = true /\ 0 < compareKeysUtf8 (entry_key e) (default [] after)) /\
  NoDup (entry_key <$> memory_list prefix after None m) /\
  StronglySorted key_le (entry_key <$> memory_list prefix after None m) /\
  forall n, memory_list prefix after (Some n) m = take n (memory_list prefix after None m).
Proof.
  split; [apply in_memory_list|]. split; [|split; [apply memory_list_sorted|]].
  { rewrite memory_list_keys. unfold listed_keys. rewrite merge_sort_Permutation.
    apply NoDup_filter, NoDup_fst_map_to_list. }
  intros n. change (memory_list prefix after (Some n) m) with (list_entries m (take n (listed_keys prefix after m))).
  change (memory_list prefix after None m) with (list_entries m (listed_keys prefix after m)).
  pose proof (listed_stored prefix after m) as Hl. revert n Hl. unfold list_entries.
  generalize (listed_keys prefix after m) as keys. induction keys as [|k l IH]; intros [|n] Hl; try done.
  destruct (Hl k ltac:(left)) as (o & Ho). cbn [take omap list_omap]. rewrite Ho.
  cbn [fmap option_fmap option_map take]. f_equal. apply IH. intros; apply Hl; by right.
Qed.
