(* ===== verification/Effects.v ===== *)
(** * Effectful programs over a [Storage]

    An [async] function of the program is a tree of storage calls: every call
    hands its outcome, a value or the error it rejected with, to the rest of the
    function.  [run] executes a tree on one [MemoryStorage] with no fault and no
    other client.  [exec] executes it in an environment: between two calls other
    clients change the storage ([R] says how), any call may fail, and a put may
    land and report an error, or be reported failed and land later.  [wp] is the
    weakest precondition of [exec], the tool the client theorems use. *)
From S2P Require Import Prelude JsText JsValue Errors Json Storage.

Inductive prog (A : Type) :=
| Ret (a : A)
| Throw (e : js_error)
| Get (key : jsstr) (k : result (option StorageGetResult) -> prog A)
| Put (key : jsstr) (b : bytes) (opts : StoragePutOptions) (k : result StoragePutResult -> prog A)
| Delete (key : jsstr) (k : result unit -> prog A)
| List (prefix : jsstr) (startAfter : option jsstr) (maxKeys : option nat)
    (k : result (list StorageListEntry) -> prog A).
Arguments Ret {A} a.
Arguments Throw {A} e.
Arguments Get {A} key k.
Arguments Put {A} key b opts k.
Arguments Delete {A} key k.
Arguments List {A} prefix startAfter maxKeys k.

(** Run [p] and hand its outcome to [f]: both arms of a [try] statement. *)
Fixpoint attempt {A B} (p : prog A) (f : result A -> prog B) : prog B :=
  match p with
  | Ret a => f (inr a)
  | Throw e => f (inl e)
  | Get key k => Get key (fun r => attempt (k r) f)
  | Put key b opts k => Put key b opts (fun r => attempt (k r) f)
  | Delete key k => Delete key (fun r => attempt (k r) f)
  | List prefix after n k => List prefix after n (fun r => attempt (k r) f)
  end.

Definition of_result {A} (r : result A) : prog A :=
  match r with inl e => Throw e | inr a => Ret a end.

(** [await p], then the rest. *)
Definition bind {A B} (p : prog A) (f : A -> prog B) : prog B :=
  attempt p (fun r => match r with inl e => Throw e | inr a => f a end).

(** [try { return await p } catch (e) { h(e) }] *)
Definition catch {A} (p : prog A) (h : js_error -> prog A) : prog A :=
  attempt p (fun r => match r with inl e => h e | inr a => Ret a end).

Declare Scope prog_scope.
Delimit Scope prog_scope with prog.
Notation "'let*' x := p 'in' q" := (bind p (fun x => q))
  (at level 10, x pattern, p at level 200, q at level 200) : prog_scope.
Notation "p ;; q" := (bind p (fun _ => q)) (at level 100, right associativity) : prog_scope.

(** The four calls, as awaited. *)
Definition storage_get (key : jsstr) : prog (option StorageGetResult) := Get key of_result.
Definition storage_put (key : jsstr) (b : bytes) (opts : StoragePutOptions) : prog StoragePutResult :=
  Put key b opts of_result.
Definition storage_delete (key : jsstr) : prog unit := Delete key of_result.
Definition storage_list (prefix : jsstr) (after : option jsstr) (n : option nat) :
    prog (list StorageListEntry) := List prefix after n of_result.

(** A pure step that may throw. *)
Definition check (o : option js_error) : prog unit :=
  match o with Some e => Throw e | None => Ret tt end.

(** Await one program per element, in order ([Promise.all] of independent calls
    resolves to the results in order). *)
Fixpoint for_each {A B} (l : list A) (f : A -> prog B) : prog (list B) :=
  match l with
  | [] => Ret []
  | x :: l' => bind (f x) (fun y => bind (for_each l' f) (fun ys => Ret (y :: ys)))
  end.

(** [Promise.all] of calls that are all issued: every one runs, and the aggregate is
    the first rejection or all the values. *)
Fixpoint settle_all {A B} (l : list A) (f : A -> prog B) : prog (list (result B)) :=
  match l with
  | [] => Ret []
  | x :: l' => attempt (f x) (fun r => bind (settle_all l' f) (fun rs => Ret (r :: rs)))
  end.

(** ** One client, no faults *)
Fixpoint run {A} (now : Z) (p : prog A) (m : MemoryStorage) : result A * MemoryStorage :=
  match p with
  | Ret a => (inr a, m)
  | Throw e => (inl e, m)
  | Get key k => run now (k (memory_get key None m)) m
  | Put key b opts k => let (r, m') := memory_put now key b opts m in run now (k r) m'
  | Delete key k => let (r, m') := memory_delete key m in run now (k r) m'
  | List prefix after n k => run now (k (inr (memory_list prefix after n m))) m
  end.

(** ** Other clients and faults *)

(** The storage, the puts of this client that may still land, and the bodies this
    client's puts have landed. *)
Record world := World {
  store : MemoryStorage;
  pending : list (jsstr * bytes * StoragePutOptions);
  landed : list (jsstr * bytes)
}.

(** The store accepts a put of this client. *)
Definition land (key : jsstr) (b : bytes) (w : world) : world :=
  World (memory_store key b (store w)).2 (pending w) (landed w ++ [(key, b)]).

(** What the [Storage.put] contract makes definitive for a create-only put: the
    rejection guarantees that no attempt of the call lands. *)
Definition proves_unapplied (e : js_error) : bool :=
  has_code AccessDenied e || has_code InvalidConfig e ||
  match e with
  | BaerlyError NetworkError (Some d) _ _ => notApplied d
  | _ => false
  end.

Section exec.
Context (R : MemoryStorage -> MemoryStorage -> Prop).

(** Another client moves, or a pending put of this client lands. *)
Inductive env_step : world -> world -> Prop :=
| env_other w m' : R (store w) m' -> env_step w (World m' (pending w) (landed w))
| env_land w key b opts : (key, b, opts) ∈ pending w ->
    put_precondition opts (objects (store w) !! key) = true -> env_step w (land key b w).

Inductive get_step (key : jsstr) (w : world) : result (option StorageGetResult) -> Prop :=
| get_answers : get_step key w (memory_get key None (store w))
| get_fails e : get_step key w (inl e).

Inductive put_step (key : jsstr) (b : bytes) (opts : StoragePutOptions) (w : world) :
    result StoragePutResult -> world -> Prop :=
| put_accepted date : assertValidStorageKey key = None ->
    put_precondition opts (objects (store w) !! key) = true ->
    put_step key b opts w (inr (PutResult (memory_store key b (store w)).1 date)) (land key b w)
| put_lost_ack e : assertValidStorageKey key = None ->
    put_precondition opts (objects (store w) !! key) = true ->
    ifNoneMatch opts && proves_unapplied e = false ->
    put_step key b opts w (inl e) (land key b w)
| put_in_flight e : assertValidStorageKey key = None ->
    ifNoneMatch opts && proves_unapplied e = false ->
    put_step key b opts w (inl e) (World (store w) ((key, b, opts) :: pending w) (landed w))
| put_refused e : put_step key b opts w (inl e) w.

Inductive delete_step (key : jsstr) (w : world) : result unit -> world -> Prop :=
| delete_done : delete_step key w (memory_delete key (store w)).1
    (World (memory_delete key (store w)).2 (pending w) (landed w))
| delete_lost e : delete_step key w (inl e)
    (World (memory_delete key (store w)).2 (pending w) (landed w))
| delete_fails e : delete_step key w (inl e) w.

Inductive list_step (prefix : jsstr) (after : option jsstr) (n : option nat) (w : world) :
    result (list StorageListEntry) -> Prop :=
| list_answers : list_step prefix after n w (inr (memory_list prefix after n (store w)))
| list_fails e : list_step prefix after n w (inl e).

Inductive exec {A} : prog A -> world -> result A -> world -> Prop :=
| exec_env p w w1 r w2 : env_step w w1 -> exec p w1 r w2 -> exec p w r w2
| exec_ret a w : exec (Ret a) w (inr a) w
| exec_throw e w : exec (Throw e) w (inl e) w
| exec_get key k w x r w2 : get_step key w x -> exec (k x) w r w2 -> exec (Get key k) w r w2
| exec_put key b opts k w x w1 r w2 :
    put_step key b opts w x w1 -> exec (k x) w1 r w2 -> exec (Put key b opts k) w r w2
| exec_delete key k w x w1 r w2 :
    delete_step key w x w1 -> exec (k x) w1 r w2 -> exec (Delete key k) w r w2
| exec_list prefix after n k w x r w2 :
    list_step prefix after n w x -> exec (k x) w r w2 -> exec (List prefix after n k) w r w2.

(** ** Weakest preconditions *)
Abbreviation env_steps := (rtc env_step).

Fixpoint wp {A} (p : prog A) (Q : result A -> world -> Prop) (w : world) : Prop :=
  match p with
  | Ret a => forall w', env_steps w w' -> Q (inr a) w'
  | Throw e => forall w', env_steps w w' -> Q (inl e) w'
  | Get key k => forall w', env_steps w w' -> forall x, get_step key w' x -> wp (k x) Q w'
  | Put key b opts k => forall w', env_steps w w' ->
      forall x w'', put_step key b opts w' x w'' -> wp (k x) Q w''
  | Delete key k => forall w', env_steps w w' ->
      forall x w'', delete_step key w' x w'' -> wp (k x) Q w''
  | List prefix after n k => forall w', env_steps w w' ->
      forall x, list_step prefix after n w' x -> wp (k x) Q w'
  end.

Lemma wp_env {A} (p : prog A) Q w w' : env_steps w w' -> wp p Q w -> wp p Q w'.
Proof. intros Hs. pose proof (fun w2 => rtc_trans w w' w2 Hs) as Ht.
  destruct p; simpl; intros H; intros; try (apply H; by auto); (eapply H; [|eassumption]; by auto). Qed.

Lemma wp_sound {A} (p : prog A) Q w r w' : wp p Q w -> exec p w r w' -> Q r w'.
Proof.
  intros Hwp Hex. revert Q Hwp. induction Hex; intros Q Hwp; cbn [wp] in *.
  - apply IHHex. eapply wp_env; [|done]. by apply rtc_once.
  - apply Hwp, rtc_refl.
  - apply Hwp, rtc_refl.
  - apply IHHex. by eapply Hwp; [apply rtc_refl|].
  - apply IHHex. by eapply Hwp; [apply rtc_refl|].
  - apply IHHex. by eapply Hwp; [apply rtc_refl|].
  - apply IHHex. by eapply Hwp; [apply rtc_refl|].
Qed.

Lemma wp_complete {A} (p : prog A) Q w : (forall r w', exec p w r w' -> Q r w') -> wp p Q w.
Proof.
  assert (Hpre : forall w w', env_steps w w' -> forall (p : prog A) r w2, exec p w' r w2 -> exec p w r w2).
  { induction 1; eauto using @exec_env. }
  revert w. induction p as [a|e|key k IH|key b opts k IH|key k IH|pr af n k IH];
    intros w H; cbn [wp]; intros.
  1,2: by eapply H, Hpre; [done|constructor].
  all: eapply IH; intros; eapply H, Hpre; [done|]; by econstructor.
Qed.

Lemma wp_mono {A} (p : prog A) (Q Q' : result A -> world -> Prop) w :
  (forall r w, Q r w -> Q' r w) -> wp p Q w -> wp p Q' w.
Proof. intros HQ. revert w. induction p; simpl; eauto. Qed.

Lemma wp_attempt {A B} (p : prog A) (f : result A -> prog B) Q w :
  wp p (fun r w' => wp (f r) Q w') w -> wp (attempt p f) Q w.
Proof.
  revert w. induction p; intros w Hp; simpl in *; eauto.
  - apply Hp, rtc_refl.
  - apply Hp, rtc_refl.
Qed.

Lemma wp_bind {A B} (p : prog A) (f : A -> prog B) Q w :
  wp p (fun r w' => match r with inl e => wp (Throw e) Q w' | inr a => wp (f a) Q w' end) w ->
  wp (bind p f) Q w.
Proof. intros H. apply wp_attempt. eapply wp_mono; [|done]. by intros [e|a] w' ?. Qed.

(** A relation all moves of the environment preserve. *)
Lemma env_steps_preserve (I : world -> Prop) w w' :
  (forall w1 w2, env_step w1 w2 -> I w1 -> I w2) -> env_steps w w' -> I w -> I w'.
Proof. intros HI. induction 1; eauto. Qed.
End exec.
Arguments exec R {A}.
Arguments wp R {A}.
Arguments wp_sound {R A}.
Arguments wp_mono {R A}.
Arguments wp_bind {R A B}.
Arguments wp_attempt {R A B}.
Arguments wp_env {R A}.

(** ** [run] *)

Lemma run_attempt {A B} now (p : prog A) (f : result A -> prog B) m :
  run now (attempt p f) m = let (r, m') := run now p m in run now (f r) m'.
Proof.
  revert m. induction p as [| |key k IH|key b opts k IH|key k IH|pr af n k IH]; intros m; simpl; auto.
  - by destruct (memory_put now key b opts m).
  - by destruct (memory_delete key m).
Qed.

Lemma run_bind {A B} now (p : prog A) (f : A -> prog B) m :
  run now (bind p f) m =
  match run now p m with (inl e, m') => (inl e, m') | (inr a, m') => run now (f a) m' end.
Proof. unfold bind. rewrite run_attempt. by destruct (run now p m) as [[e|a] m']. Qed.

Lemma run_catch {A} now (p : prog A) h m :
  run now (catch p h) m =
  match run now p m with (inl e, m') => run now (h e) m' | (inr a, m') => (inr a, m') end.
Proof. unfold catch. rewrite run_attempt. by destruct (run now p m) as [[e|a] m']. Qed.

(** A fault-free run is an execution of any environment. *)
Lemma run_exec {A} R now (p : prog A) m r m' pend l :
  run now p m = (r, m') -> exists l', exec R p (World m pend l) r (World m' pend l').
Proof.
  revert m l. induction p as [a|e|key k IH|key b opts k IH|key k IH|pr af n k IH];
    intros m l; simpl.
  - intros [= <- <-]. exists l. constructor.
  - intros [= <- <-]. exists l. constructor.
  - intros (l' & Hl)%(IH _ _ l). exists l'. econstructor; [|done]. constructor.
  - unfold memory_put. destruct (assertValidStorageKey key) eqn:Ev.
    { intros (l' & Hl)%(IH _ _ l). exists l'. econstructor; [apply put_refused|done]. }
    destruct (put_precondition opts (objects m !! key)) eqn:Ep.
    + destruct (memory_store key b m) as [e m1] eqn:Es.
      intros (l' & Hl)%(IH _ _ (l ++ [(key, b)])). exists l'. econstructor; [|done].
      pose proof (put_accepted key b opts (World m pend l) (Some now) Ev Ep) as Hp.
      unfold land in Hp. cbn [store pending landed] in Hp. by rewrite Es in Hp.
    + intros (l' & Hl)%(IH _ _ l). exists l'. econstructor; [apply put_refused|done].
  - destruct (memory_delete key m) as [x m1] eqn:Ed.
    intros (l' & Hl)%(IH _ _ l). exists l'. econstructor; [|done].
    pose proof (delete_done key (World m pend l)) as Hd. cbn [store pending landed] in Hd. by rewrite Ed in Hd.
  - intros (l' & Hl)%(IH _ _ l). exists l'. econstructor; [|done]. constructor.
Qed.

(** ** Programs that only read *)

(** The results of a list of calls: the first rejection, or all the values. *)
Fixpoint collect {A} (rs : list (result A)) : result (list A) :=
  match rs with
  | [] => inr []
  | inl e :: _ => inl e
  | inr a :: rs' => match collect rs' with inl e => inl e | inr l => inr (a :: l) end
  end.

Definition promise_all {A B} (l : list A) (f : A -> prog B) : prog (list B) :=
  bind (settle_all l f) (fun rs => of_result (collect rs)).

(** Issuing every call of a list under an invariant of each call. *)
Lemma wp_promise_all {A B} R (I : world -> Prop) (l : list A) (f : A -> prog B)
    (Q : result (list B) -> world -> Prop) w :
  (forall w1 w2, rtc (env_step R) w1 w2 -> I w1 -> I w2) ->
  (forall x w, x ∈ l -> I w -> wp R (f x) (fun _ w' => I w') w) ->
  I w -> (forall r w', I w' -> Q r w') -> wp R (promise_all l f) Q w.
Proof.
  intros He Hf Hw HQ. unfold promise_all. apply wp_bind.
  assert (Hs : forall w, I w -> wp R (settle_all l f) (fun _ w' => I w') w).
  { clear Hw. induction l as [|x l IH]; intros w0 Hw0; cbn [settle_all].
    { intros w1 Hs1. by eapply He. }
    apply wp_attempt. eapply wp_mono; [|apply Hf; [by left|done]]. intros r w1 Hw1.
    apply wp_bind. eapply wp_mono; [|apply IH; [intros; apply Hf; [by right|done]|done]].
    intros [err|rs] w2 Hw2 w3 Hs3; by eapply He. }
  eapply wp_mono; [|by apply Hs]. intros [err|rs] w1 Hw1.
  - intros w2 Hs2. apply HQ. by eapply He.
  - destruct (collect rs); intros w2 Hs2; apply HQ; by eapply He.
Qed.

Lemma collect_app {A} (rs1 rs2 : list (result A)) :
  collect (rs1 ++ rs2) =
  match collect rs1 with
  | inl e => inl e
  | inr l1 => match collect rs2 with inl e => inl e | inr l2 => inr (l1 ++ l2) end
  end.
Proof.
  induction rs1 as [|[e|a] rs1 IH]; cbn [collect app].
  - by destruct (collect rs2).
  - done.
  - rewrite IH. destruct (collect rs1); [done|]. by destruct (collect rs2).
Qed.

Lemma collect_Forall2 {A B} (f : A -> result B) l ys : collect (f <$> l) = inr ys <-> Forall2 (fun x y => f x = inr y) l ys.
Proof.
  revert ys. induction l as [|x l IH]; intros ys; [by split; [intros [= <-]|inversion 1]|]. rewrite fmap_cons. cbn [collect]. split.
  - destruct (f x) as [e|y] eqn:E; [done|]. destruct (collect (f <$> l)) as [e|l'] eqn:El; [done|]. intros [= <-].
    constructor; [done|]. by apply IH.
  - inversion 1 as [|? y ? ys' Hx Hl]; subst. rewrite Hx. by rewrite (proj2 (IH ys') Hl).
Qed.

Lemma collect_inr {A} (l : list A) : collect (inr <$> l) = inr l.
Proof. induction l as [|a l IH]; [done|]. rewrite fmap_cons. cbn [collect]. by rewrite IH. Qed.

Lemma run_for_each {A B} now (f : A -> prog B) (g : A -> result B) l m :
  (forall x, x ∈ l -> run now (f x) m = (g x, m)) ->
  run now (for_each l f) m = (collect (g <$> l), m).
Proof.
  induction l as [|x l IH]; intros Hf; [done|]. cbn [for_each]. rewrite fmap_cons, run_bind, Hf by left.
  cbn [collect]. destruct (g x) as [e|b]; [done|]. rewrite run_bind, IH by (intros; apply Hf; by right).
  by destruct (collect (g <$> l)).
Qed.

Lemma run_check now o m : run now (check o) m = (match o with Some e => inl e | None => inr tt end, m).
Proof. by destruct o. Qed.

Lemma run_of_result {A} now (r : result A) m : run now (of_result r) m = (r, m).
Proof. by destruct r. Qed.

Lemma run_put now key b opts m : run now (storage_put key b opts) m = memory_put now key b opts m.
Proof.
  unfold storage_put. cbn [run]. destruct (memory_put now key b opts m) as [r m']. apply run_of_result.
Qed.

Lemma run_get now key m : assertValidStorageKey key = None ->
  run now (storage_get key) m =
  (inr ((fun o => GetResult (stored_body o) (stored_etag o)) <$> objects m !! key), m).
Proof.
  intros Hv. unfold storage_get. cbn [run]. unfold memory_get. rewrite Hv.
  by destruct (objects m !! key) as [[b e]|].
Qed.
