(* ===== verification/Retry.v ===== *)
(** * The storage retry policy (protocol/src/storage/retry.ts)

    One loop wraps every request of an adapter.  An attempt is a function on a state
    [St] (the network and the bucket, with whatever decides its faults) that returns
    an outcome and the next state; [random] supplies the jitter of each wait and the
    waits slept are recorded.  The theorem is the contract of [Storage.put] the rest
    of the program builds on ([Effects.proves_unapplied]): when the loop rejects a
    conditional create with one of the definitive errors, no attempt was applied. *)
From Stdlib Require Import QArith Qminmax Lqa.
From S2P Require Import Prelude JsText JsValue Errors Json Storage Effects.
Local Open Scope Q_scope.

Definition STORAGE_RETRY_MAX_ATTEMPTS : Z := 3.
Definition STORAGE_RETRY_TRANSIENT_BASE_MILLIS : Q := 50.
Definition STORAGE_RETRY_THROTTLE_BASE_MILLIS : Q := 1000.
Definition STORAGE_RETRY_MAX_DELAY_MILLIS : Q := 20000.

Definition PERMANENT_STORAGE_ERROR_CODES : list BaerlyErrorCode :=
  [AccessDenied; InvalidConfig; InvalidResponse; WriteConflict].

Definition isThrottled (e : js_error) : bool :=
  match e with BaerlyError _ (Some d) _ _ => throttled d | _ => false end.

Definition retryAfterMillis (e : js_error) : option Q :=
  match e with
  | BaerlyError _ (Some d) _ _ => (fun seconds => inject_Z (seconds * 1000)) <$> retryAfterSeconds d
  | _ => None
  end.

(** [random] is the value drawn from [opts.random]. *)
Definition storageRetryDelayMillis (error : js_error) (retryIndex : nat) (backoffMs : option Q)
    (random : Q) : Q :=
  match retryAfterMillis error with
  | Some hintMs => Qmin hintMs STORAGE_RETRY_MAX_DELAY_MILLIS
  | None =>
    let base := default (if isThrottled error then STORAGE_RETRY_THROTTLE_BASE_MILLIS
                         else STORAGE_RETRY_TRANSIENT_BASE_MILLIS) backoffMs in
    let ceiling := Qmin STORAGE_RETRY_MAX_DELAY_MILLIS (base * inject_Z (2 ^ Z.of_nat retryIndex)) in
    random * ceiling
  end.

Record StorageRetryOptions := RetryOptions {
  retries : option jsnum;
  backoffMs : option Q;
  conditionalCreate : bool
}.

(** [error instanceof BaerlyError && PERMANENT_STORAGE_ERROR_CODES.has(error.code)] *)
Definition is_permanent (e : js_error) : bool :=
  match e with BaerlyError c _ _ _ => bool_decide (c ∈ PERMANENT_STORAGE_ERROR_CODES) | _ => false end.

(** [{ ...error.cause, notApplied: true }], the code and message kept. *)
Definition mark_not_applied (e : js_error) : js_error :=
  match e with
  | BaerlyError c (Some d) _ _ =>
    BaerlyError c (Some (CauseDetail (throttled d) true (retryAfterSeconds d) (status d))) None None
  | BaerlyError c None _ _ => BaerlyError c (Some (CauseDetail false true None None)) None None
  | _ => e
  end.

Section retry.
Context {St A : Type} (fn : St -> result A * St) (random : nat -> Q) (opts : StorageRetryOptions).

(** The [for] loop from [attempt] on, [turns] turns before [attempt > retries]. *)
Fixpoint retry_loop (turns : nat) (attempt cap : nat) (uncertain : bool) (s : St) :
    result A * St * list Q :=
  match turns with
  | O => (inl (new_error Internal), s, [])
  | S turns =>
    match fn s with
    | (inr a, s) => (inr a, s, [])
    | (inl error, s) =>
      if is_permanent error then
        (inl (if conditionalCreate opts && uncertain && negb (isWriteConflict error)
              then new_error_cause NetworkError error else error), s, [])
      else
        let uncertain := uncertain || negb (isThrottled error) in
        if (cap <=? attempt)%nat then
          (inl (if conditionalCreate opts && negb uncertain then mark_not_applied error else error), s, [])
        else
          let wait := storageRetryDelayMillis error attempt (backoffMs opts) (random attempt) in
          let '(r, s, waits) := retry_loop turns (S attempt) cap uncertain s in
          (r, s, wait :: waits)
    end
  end.

(** The validated retry cap, or [None] for a rejected option. *)
Definition retry_cap : option nat :=
  let r := default (num_of_Z (STORAGE_RETRY_MAX_ATTEMPTS - 1)) (retries opts) in
  match num_integer r with
  | Some z => if is_safe_integer r && (0 <=? z)%Z then Some (Z.to_nat z) else None
  | None => None
  end.

Definition retryStorageCall (s : St) : result A * St * list Q :=
  match retry_cap with
  | None => (inl (new_error InvalidConfig), s, [])
  | Some cap => retry_loop (S cap) 0 cap false s
  end.

(** ** Lemmas *)

(** A measure of the state every attempt leaves alone when it provably did nothing:
    say, the attempts that have landed or may still land. *)
Context {M : Type} (applied : St -> M).

(** Refused by credentials, policy or configuration.  The other permanent codes prove
    nothing: [InvalidResponse] also stands for an answer lost or garbled after the write. *)
Definition refused (e : js_error) : bool := has_code AccessDenied e || has_code InvalidConfig e.

Definition attempt_contract : Prop := forall s e s', fn s = (inl e, s') ->
  (isThrottled e = true \/ refused e = true -> applied s' = applied s) /\
  match e with BaerlyError _ (Some d) _ _ => notApplied d = false | _ => True end.

Lemma proves_unapplied_permanent e : is_permanent e = false -> proves_unapplied e = true ->
  exists d ch i, e = BaerlyError NetworkError (Some d) ch i /\ notApplied d = true.
Proof.
  destruct e as [c [d|] ch i| |]; try done; unfold proves_unapplied, is_permanent, has_code;
    destruct c; try done; simpl.
  intros _ H. by exists d, ch, i.
Qed.

Lemma proves_unapplied_refused e : is_permanent e = true -> proves_unapplied e = true -> refused e = true.
Proof. destruct e as [c d ch i| |]; try done. by destruct c. Qed.

Lemma refused_no_conflict e : refused e = true -> isWriteConflict e = false.
Proof. destruct e as [c d ch i| |]; try done. by destruct c. Qed.

Lemma retry_loop_fate turns attempt cap u s r s' waits (s0 : St) :
  attempt_contract -> conditionalCreate opts = true -> (turns + attempt = S cap)%nat ->
  (u = false -> applied s = applied s0) ->
  retry_loop turns attempt cap u s = (inl r, s', waits) -> turns <> O ->
  proves_unapplied r = true -> applied s' = applied s0.
Proof.
  intros Hc Hcc. revert attempt u s waits.
  induction turns as [|turns IH]; intros attempt u s waits Hleft Hu Hrun Hne Hp; [done|].
  cbn [retry_loop] in Hrun. destruct (fn s) as [[e|a] s1] eqn:Ef; [|done].
  destruct (Hc _ _ _ Ef) as [Hun Hna]. rewrite Hcc in Hrun. simpl andb in Hrun.
  destruct (is_permanent e) eqn:Eperm.
  { injection Hrun as Hr -> _. destruct u.
    - destruct (isWriteConflict e) eqn:Ew; simpl in Hr; subst r; [|done].
      by rewrite (refused_no_conflict e) in Ew by by apply proves_unapplied_refused.
    - simpl in Hr. subst r. rewrite Hun; [by apply Hu|]. right. by apply proves_unapplied_refused. }
  destruct (cap <=? attempt)%nat eqn:Ecap.
  - injection Hrun as Hr -> _. destruct u, (isThrottled e) eqn:Et; simpl in Hr; subst r.
    3: { rewrite Hun by (by left). by apply Hu. }
    all: destruct (proves_unapplied_permanent e Eperm Hp) as (d & ch & i & -> & Hd); simpl in Hna; congruence.
  - destruct (retry_loop turns (S attempt) cap _ s1) as [[r1 s2] w] eqn:Er. injection Hrun as -> -> _.
    apply Nat.leb_gt in Ecap. eapply (IH (S attempt) _ s1 w); [lia| |exact Er|lia|done].
    intros [-> Ht]%orb_false_iff. apply negb_false_iff in Ht. rewrite Hun by (by left). by apply Hu.
Qed.

(** The attempts of one call: transient failures [errs], then the outcome [r] of the
    last attempt, which succeeds, is permanently rejected or is the last one allowed. *)
Inductive attempts : St -> list js_error -> result A -> St -> Prop :=
| attempts_last s r s' : fn s = (r, s') -> attempts s [] r s'
| attempts_more s e s1 errs r s' : fn s = (inl e, s1) -> is_permanent e = false ->
    attempts s1 errs r s' -> attempts s (e :: errs) r s'.

Fixpoint waits_of (attempt : nat) (errs : list js_error) : list Q :=
  match errs with
  | [] => []
  | e :: errs => storageRetryDelayMillis e attempt (backoffMs opts) (random attempt) :: waits_of (S attempt) errs
  end.

(** What the loop makes of the last outcome after the transient failures [errs]. *)
Definition final_outcome (uncertain : bool) (errs : list js_error) (r : result A) : result A :=
  match r with
  | inr a => inr a
  | inl e =>
    let unsure := uncertain || existsb (fun e => negb (isThrottled e)) errs in
    if is_permanent e then
      inl (if conditionalCreate opts && unsure && negb (isWriteConflict e)
           then new_error_cause NetworkError e else e)
    else inl (if conditionalCreate opts && negb (unsure || negb (isThrottled e)) then mark_not_applied e else e)
  end.

Lemma retry_loop_attempts turns attempt cap u s : (turns + attempt = S cap)%nat -> turns <> O ->
  exists errs r s', attempts s errs r s' /\ (length errs < turns)%nat /\
    (forall e, r = inl e -> is_permanent e = true \/ S (length errs) = turns) /\
    retry_loop turns attempt cap u s = (final_outcome u errs r, s', waits_of attempt errs).
Proof.
  revert attempt u s. induction turns as [|turns IH]; intros attempt u s Hl Hne; [done|].
  cbn [retry_loop]. destruct (fn s) as [[e|a] s1] eqn:Ef.
  - destruct (is_permanent e) eqn:Ep.
    { exists [], (inl e), s1. split; [by constructor|]. split; [simpl; lia|].
      split; [intros ? [= <-]; by left|]. simpl. by rewrite Ep, orb_false_r. }
    destruct (Nat.leb_spec cap attempt).
    { exists [], (inl e), s1. split; [by constructor|]. split; [simpl; lia|].
      split; [intros ? [= <-]; right; simpl; lia|]. simpl. by rewrite Ep, orb_false_r. }
    destruct (IH (S attempt) (u || negb (isThrottled e)) s1) as (errs & r & s' & Ha & Hlen & Hlast & ->); [lia..|].
    exists (e :: errs), r, s'. split; [by econstructor|]. split; [simpl; lia|].
    split; [intros e' He'; destruct (Hlast e' He'); [by left|right; simpl; lia]|].
    f_equal. f_equal. destruct r as [e'|a]; [|done]. unfold final_outcome. cbn [existsb]. by rewrite orb_assoc.
  - exists [], (inr a), s1. split; [by constructor|]. split; [simpl; lia|]. by split.
Qed.
End retry.

Lemma delay_bounds e i b x : (forall h, retryAfterMillis e = Some h -> 0 <= h) ->
  (forall q, b = Some q -> 0 <= q) -> 0 <= x < 1 ->
  0 <= storageRetryDelayMillis e i b x <= STORAGE_RETRY_MAX_DELAY_MILLIS.
Proof.
  intros Hh Hb Hx. unfold storageRetryDelayMillis, STORAGE_RETRY_MAX_DELAY_MILLIS.
  destruct (retryAfterMillis e) as [h|].
  { specialize (Hh h eq_refl). split; [apply Q.min_glb; [done|lra]|apply Q.le_min_r]. }
  set (base := default _ b).
  assert (0 <= base) as Hbase.
  { subst base. destruct b as [q|]; [by apply Hb|]. cbn. destruct (isThrottled e); unfold
      STORAGE_RETRY_THROTTLE_BASE_MILLIS, STORAGE_RETRY_TRANSIENT_BASE_MILLIS; lra. }
  assert (0 <= inject_Z (2 ^ Z.of_nat i)) as Hp by (change 0 with (inject_Z 0); rewrite <- Zle_Qle; lia).
  set (c := Qmin _ _). assert (0 <= c <= 20000) as Hc.
  { split; [apply Q.min_glb; [lra|by apply Qmult_le_0_compat]|apply Q.le_min_l]. }
  split; [apply Qmult_le_0_compat; lra|]. nra.
Qed.

(** ** The theorems *)

(** C28: A conditional create that the retry loop rejects with an error [Storage.put]
    documents as definitive ([AccessDenied], [InvalidConfig], or a [NetworkError] marked
    [notApplied]) left no attempt applied: provided an attempt that is throttled or
    refused ([AccessDenied], [InvalidConfig]) was not applied, whatever every other
    attempt, lost, garbled or conflicting, did. *)
Theorem retry_create_fate {St A M} (fn : St -> result A * St) random opts (applied : St -> M) s e s' waits :
  attempt_contract fn applied -> conditionalCreate opts = true ->
  retryStorageCall fn random opts s = (inl e, s', waits) -> proves_unapplied e = true ->
  applied s' = applied s.
Proof.
  intros Hc Hcc Hrun Hp. unfold retryStorageCall in Hrun. destruct (retry_cap opts) as [cap|]; [|by injection Hrun as _ -> _].
  by eapply (retry_loop_fate fn random opts applied (S cap) 0 cap false s e s' waits s).
Qed.

(** The loop makes at most [retries + 1] attempts: transient failures, then one that
    succeeds, is permanently rejected, or is the last allowed; the outcome is that last
    one's (rewrapped for an uncertain or never-applied create), every wait between two
    attempts is within the 20-second cap, and a cap that is no non-negative safe integer
    is refused before any attempt. *)
Theorem retry_attempts_bounded {St A} (fn : St -> result A * St) random opts s :
  (forall i, 0 <= random i < 1) -> (forall q, backoffMs opts = Some q -> 0 <= q) ->
  match retry_cap opts with
  | None => retryStorageCall fn random opts s = (inl (new_error InvalidConfig), s, [])
  | Some cap => exists errs r s', attempts fn s errs r s' /\ (length errs <= cap)%nat /\
      (forall e, r = inl e -> is_permanent e = true \/ length errs = cap) /\
      retryStorageCall fn random opts s = (final_outcome opts false errs r, s', waits_of random opts 0 errs) /\
      ((forall e h, e ∈ errs -> retryAfterMillis e = Some h -> 0 <= h) ->
       Forall (fun w => 0 <= w <= STORAGE_RETRY_MAX_DELAY_MILLIS) (waits_of random opts 0 errs))
  end.
Proof.
  intros Hr Hb. unfold retryStorageCall. destruct (retry_cap opts) as [cap|]; [|done].
  destruct (retry_loop_attempts fn random opts (S cap) 0 cap false s) as (errs & r & s' & Ha & Hl & Hlast & Hrun); [lia..|].
  exists errs, r, s'. split; [done|]. split; [lia|].
  split; [intros e He; destruct (Hlast e He); [by left|right; lia]|]. split; [done|]. clear -Hr Hb.
  generalize 0%nat. induction errs as [|e errs IH]; intros n Hh; cbn [waits_of]; constructor.
  - apply delay_bounds; [|done|done]. intros h. apply Hh. left.
  - apply IH. intros e' h He'. apply Hh. by right.
Qed.

(** A scripted network: the outcomes to come, whether each lands, and how many landed. *)
Definition scripted (s : list (result nat * bool) * nat) : result nat * (list (result nat * bool) * nat) :=
  match s.1 with
  | [] => (inl (new_error AccessDenied), s)
  | (r, b) :: rest => (r, (rest, if b then S s.2 else s.2))
  end.

Definition throttle_error : js_error :=
  BaerlyError NetworkError (Some (CauseDetail true false (Some 60%Z) (Some 503%Z))) None None.

Definition create_options : StorageRetryOptions := RetryOptions None None true.

(** A bucket whose attempts meet the given fates, and what it has applied: a write whose
    answer is lost on the way or comes back malformed is applied all the same. *)
Inductive fate := Throttles | Refuses | Lost | Garbled | Lands.

Definition fated (s : list fate * nat) : result nat * (list fate * nat) :=
  match s.1 with
  | [] => (inl (new_error AccessDenied), s)
  | Throttles :: rest => (inl throttle_error, (rest, s.2))
  | Refuses :: rest => (inl (new_error AccessDenied), (rest, s.2))
  | Lost :: rest => (inl (new_error NetworkError), (rest, S s.2))
  | Garbled :: rest => (inl (new_error InvalidResponse), (rest, S s.2))
  | Lands :: rest => (inr (S s.2), (rest, S s.2))
  end.

Definition created (fates : list fate) : result nat * nat :=
  let '(r, s, _) := retryStorageCall fated (fun _ => 1 # 2) create_options (fates, 0%nat) in (r, s.2).

(** An attempt may apply, and a refusal after one proves nothing; after throttling only it does. *)
Lemma retry_create_fate_witness :
  created [Throttles; Lands] = (inr 1%nat, 1%nat) /\
  (exists e n, created [Lost; Refuses] = (inl e, n) /\ proves_unapplied e = false /\ n = 1%nat) /\
  (exists e n, created [Garbled] = (inl e, n) /\ proves_unapplied e = false /\ n = 1%nat) /\
  exists e s' waits, retryStorageCall fated (fun _ => 1 # 2) create_options ([Throttles; Refuses; Lands], 0%nat) = (inl e, s', waits) /\
    proves_unapplied e = true /\ s'.2 = 0%nat.
Proof.
  split; [reflexivity|]. split; [by eexists _, _|]. split; [by eexists _, _|].
  eexists _, _, _. split; [reflexivity|]. split; [reflexivity|].
  eapply (retry_create_fate fated (fun _ => 1 # 2) create_options snd ([Throttles; Refuses; Lands], 0%nat)); [|reflexivity|reflexivity|reflexivity].
  intros [[|[] rest] n] e s'; cbn; intros E; inversion E; subst; split; try reflexivity; vm_compute; intros [H|H]; discriminate H.
Defined.

Lemma retry_attempts_bounded_witness :
  let s := ([(inl throttle_error, false); (inl (new_error NetworkError), true); (inr 5%nat, true)], 0%nat) in
  retryStorageCall scripted (fun _ => 1 # 2) create_options s = (inr 5%nat, ([], 2%nat), [20000; 100 # 2]) /\
  exists errs r s', attempts scripted s errs r s' /\ (length errs <= 2)%nat.
Proof.
  split; [reflexivity|].
  destruct (retry_attempts_bounded scripted (fun _ => 1 # 2) create_options
    ([(inl throttle_error, false); (inl (new_error NetworkError), true); (inr 5%nat, true)], 0%nat)) as (errs & r & s' & Ha & Hl & _).
  - intros i. split; [discriminate|reflexivity].
  - discriminate.
  - exists errs, r, s'. split; [exact Ha|exact Hl].
Defined.
