(* ===== verification/Predicate.v ===== *)
(** * Predicates (protocol/src/query: wire, matches, _internals, normalize, builder)

    The wire form of a query predicate, its evaluation on a document, the comparison
    helpers of the predicate algebra, and the two ways to build a wire.  [None] is the
    [TypeError] of [Object.keys(null)], which a [null] nested in an object operand can
    reach. *)
From S2P Require Import Prelude JsText JsValue Errors Json Storage.
Local Open Scope Z_scope.

(** ** The wire form *)

Inductive PredicateOpName := op_eq | op_gt | op_gte | op_lt | op_lte | op_in.

Global Instance PredicateOpName_eq_decision : EqDecision PredicateOpName.
Proof. solve_decision. Defined.

(** The value of an [in] clause is an array. *)
Record PredicateClause := Clause {
  clause_op : PredicateOpName;
  clause_field : jsstr;
  clause_value : jsval
}.

Abbreviation PredicateWire := (list PredicateClause).

Definition dot : N := 46.

(** ** Evaluation *)

Fixpoint lookup_segments (segments : list jsstr) (cursor : jsval) : jsval :=
  match segments with
  | [] => cursor
  | segment :: segments =>
    match cursor with
    | JObj o => lookup_segments segments (js_get o segment)
    | _ => JUndef
    end
  end.

Definition lookupPath (doc : list (jsstr * jsval)) (field : jsstr) : jsval :=
  if negb (includes_unit dot field) then js_get doc field
  else lookup_segments (split_on dot field) (JObj doc).

Definition index_key (i : nat) : jsstr := to_radix 10 (N.of_nat i).

Definition is_undefined (v : jsval) : bool := match v with JUndef => true | _ => false end.

Fixpoint matchesEq (expected actual : jsval) : option bool :=
  match expected with
  | JNull => match actual with JObj _ => None | _ => Some false end
  | JObj o =>
    match actual with
    | JObj a =>
      (fix go o := match o with
                   | [] => Some true
                   | (subKey, subExpected) :: o' =>
                     if is_undefined subExpected then go o'
                     else b ← matchesEq subExpected (js_get a subKey);
                          if b : bool then go o' else Some false
                   end) o
    | _ => Some false
    end
  | JArr l =>
    match actual with
    | JObj a =>
      (fix go i l := match l with
                     | [] => Some true
                     | subExpected :: l' =>
                       if is_undefined subExpected then go (S i) l'
                       else b ← matchesEq subExpected (js_get a (index_key i));
                            if b : bool then go (S i) l' else Some false
                     end) O l
    | _ => Some false
    end
  | _ => Some (strict_eq expected actual)
  end.

Fixpoint matchesIn (members : list jsval) (actual : jsval) : option bool :=
  match members with
  | [] => Some false
  | m :: members =>
    b ← (if decide (typeof m = TObject) then matchesEq m actual else Some (strict_eq m actual));
    if b : bool then Some true else matchesIn members actual
  end.

Definition compareGT (actual bound : jsval) (inclusive : bool) : bool :=
  match bound, actual with
  | JStr b, JStr a => if inclusive then str_leb b a else str_ltb b a
  | JNum b, JNum a => if inclusive then num_leb b a else num_ltb b a
  | _, _ => false
  end.

Definition compareLT (actual bound : jsval) (inclusive : bool) : bool :=
  match bound, actual with
  | JStr b, JStr a => if inclusive then str_leb a b else str_ltb a b
  | JNum b, JNum a => if inclusive then num_leb a b else num_ltb a b
  | _, _ => false
  end.

(** An [in] clause without an array value is not a validated one. *)
Definition matchesClause (clause : PredicateClause) (actual : jsval) : option bool :=
  match clause_op clause with
  | op_eq => matchesEq (clause_value clause) actual
  | op_in => match clause_value clause with JArr members => matchesIn members actual | _ => None end
  | op_gt => Some (compareGT actual (clause_value clause) false)
  | op_gte => Some (compareGT actual (clause_value clause) true)
  | op_lt => Some (compareLT actual (clause_value clause) false)
  | op_lte => Some (compareLT actual (clause_value clause) true)
  end.

Fixpoint matchesWire (wire : PredicateWire) (doc : list (jsstr * jsval)) : option bool :=
  match wire with
  | [] => Some true
  | clause :: wire =>
    b ← matchesClause clause (lookupPath doc (clause_field clause));
    if b : bool then matchesWire wire doc else Some false
  end.

(** ** Comparison helpers *)

Definition sameComparableType (a b : jsval) : bool :=
  match a, b with
  | JStr _, JStr _ | JNum _, JNum _ => true
  | _, _ => false
  end.

(** The sign of [a - b]; [None] when it is [NaN]. *)
Definition num_compare (a b : jsnum) : option comparison :=
  if num_ltb a b then Some Lt
  else if num_ltb b a then Some Gt
  else if is_finite a && is_finite b then Some Eq else None.

(** The sign of the number the code returns. *)
Definition compareScalar (a b : jsval) : option comparison :=
  match a, b with
  | JNum a, JNum b => num_compare a b
  | JStr a, JStr b => Some (if str_ltb a b then Lt else if str_ltb b a then Gt else Eq)
  | _, _ => Some Eq
  end.

(** The functions an array inherits from [Array.prototype]. *)
Definition array_prototype_functions : list jsstr :=
  js <$> ["at"; "concat"; "copyWithin"; "entries"; "every"; "fill"; "filter"; "find"; "findIndex";
          "findLast"; "findLastIndex"; "flat"; "flatMap"; "forEach"; "includes"; "indexOf"; "join";
          "keys"; "lastIndexOf"; "map"; "pop"; "push"; "reduce"; "reduceRight"; "reverse"; "shift";
          "slice"; "some"; "sort"; "splice"; "toReversed"; "toSorted"; "toSpliced"; "unshift";
          "values"; "with"]%string.

(** [v[key]] on an object or an array. *)
Definition prop_get (v : jsval) (key : jsstr) : jsval :=
  match v with
  | JObj o => js_get o key
  | JArr l =>
    match array_index key with
    | Some i => default JUndef (l !! N.to_nat i)
    | None => if decide (key = js "length") then JNum (num_of_Z (Z.of_nat (length l)))
              else if decide (key ∈ array_prototype_functions) then JExotic XFunction
              else js_get [] key
    end
  | _ => JUndef
  end.

(** [key in v] *)
Definition has_prop (v : jsval) (key : jsstr) : bool :=
  match v with
  | JObj o => bool_decide (is_Some (own_get key o)) || negb (is_undefined (js_get [] key))
  | JArr _ => negb (is_undefined (prop_get v key))
  | _ => false
  end.

(** [Object.keys(v).length]; [None] throws. *)
Definition keys_length (v : jsval) : option nat :=
  match v with
  | JObj o => Some (length o)
  | JArr l => Some (length l)
  | JNull => None
  | _ => Some O
  end.

(** One turn of the key loop. *)
Definition deep_sub (rec : jsval -> jsval -> option bool) (b : jsval) (key : jsstr) (aSub : jsval) : option bool :=
  if negb (has_prop b key) then Some false
  else if is_undefined aSub || is_undefined (prop_get b key) then Some false
  else rec aSub (prop_get b key).

Fixpoint deepEqualDocumentValue (a b : jsval) : option bool :=
  if strict_eq a b then Some true
  else if negb (bool_decide (typeof a = TObject) && bool_decide (typeof b = TObject)) then Some false
  else
    na ← keys_length a;
    nb ← keys_length b;
    if negb (Nat.eqb na nb) then Some false
    else
      match a with
      | JObj o =>
        (fix go o := match o with
                     | [] => Some true
                     | (key, aSub) :: o' =>
                       r ← deep_sub deepEqualDocumentValue b key aSub;
                       if r : bool then go o' else Some false
                     end) o
      | JArr l =>
        (fix go i l := match l with
                       | [] => Some true
                       | aSub :: l' =>
                         r ← deep_sub deepEqualDocumentValue b (index_key i) aSub;
                         if r : bool then go (S i) l' else Some false
                       end) O l
      | _ => Some true
      end.

(** ** Object form *)

Definition dollar : N := 36.

(** Keys no predicate may name. *)
Definition reserved_keys : list jsstr := js <$> ["__proto__"; "constructor"; "prototype"]%string.

(** One key of the object literal; every rejection is [InvalidConfig]. *)
Fixpoint normalize_value (path : list jsstr) (value : jsval) : result (list PredicateClause) :=
  match value with
  | JObj obj =>
    (fix go obj := match obj with
                   | [] => inr []
                   | (key, v) :: obj' =>
                     if starts_with [dollar] key then inl (new_error InvalidConfig)
                     else if bool_decide (key ∈ reserved_keys) then inl (new_error InvalidConfig)
                     else match normalize_value (path ++ [key]) v with
                          | inl e => inl e
                          | inr inner => match go obj' with
                                         | inl e => inl e
                                         | inr out => inr (inner ++ out)
                                         end
                          end
                   end) obj
  | JStr _ | JBool _ => inr [Clause op_eq (join_with [dot] path) value]
  | JNum n => if is_finite n then inr [Clause op_eq (join_with [dot] path) value]
              else inl (new_error InvalidConfig)
  | _ => inl (new_error InvalidConfig)
  end.

Definition normalizeObject (obj : list (jsstr * jsval)) (basePath : list jsstr) : result (list PredicateClause) :=
  normalize_value basePath (JObj obj).

(** ** Callback form: the calls a callback makes on its builder, in order *)
Inductive builder_call :=
| b_scalar (op : PredicateOpName) (field : jsstr) (value : jsval)
| b_in (field : jsstr) (values : list jsval).

Definition push (clauses : list PredicateClause) (call : builder_call) : list PredicateClause :=
  clauses ++ [match call with
              | b_scalar op field value => Clause op field value
              | b_in field values => Clause op_in field (JArr values)
              end].

Definition wireFromBuilder (calls : list builder_call) : PredicateWire := foldl push [] calls.

(** [.where(arg)] *)
Definition normalizePredicateArg (arg : list (jsstr * jsval) + list builder_call) : result PredicateWire :=
  match arg with
  | inl obj => normalizeObject obj []
  | inr calls => inr (wireFromBuilder calls)
  end.

(** ** Lemmas *)

Lemma matchesWire_app w1 w2 doc :
  matchesWire (w1 ++ w2) doc = (b ← matchesWire w1 doc; if b : bool then matchesWire w2 doc else Some false).
Proof.
  induction w1 as [|c w1 IH]; [done|]. cbn [app matchesWire].
  destruct (matchesClause c _) as [[|]|]; [|done..]. exact IH.
Qed.

Lemma matchesWire_true w doc : matchesWire w doc = Some true <->
  Forall (fun c => matchesClause c (lookupPath doc (clause_field c)) = Some true) w.
Proof.
  induction w as [|c w IH]; cbn [matchesWire]; [by split|]. rewrite Forall_cons.
  destruct (matchesClause c _) as [[|]|]; cbn [mbind option_bind]; [rewrite IH|..]; naive_solver.
Qed.

(** The fast path of [lookupPath] is the walk of a one-segment path. *)
Lemma lookupPath_segments doc field : lookupPath doc field = lookup_segments (split_on dot field) (JObj doc).
Proof.
  unfold lookupPath. destruct (includes_unit dot field) eqn:E; [done|]. cbn [negb].
  rewrite split_on_no_sep; [done|]. intros Hin. unfold includes_unit in E.
  apply list_elem_of_In in Hin. apply not_true_iff_false in E. apply E, existsb_exists. by exists dot; rewrite N.eqb_refl.
Qed.

Lemma lookup_segments_app s1 s2 v : lookup_segments (s1 ++ s2) v = lookup_segments s2 (lookup_segments s1 v).
Proof.
  revert v. induction s1 as [|s s1 IH]; intros v; [done|]. cbn [app lookup_segments].
  assert (Hu : lookup_segments s2 JUndef = JUndef) by by destruct s2.
  destruct v; auto.
Qed.

(** ** Object predicates and the matcher *)

Definition empty_object (v : jsval) : bool := match v with JObj [] => true | _ => false end.

(** An object predicate whose keys hold no dot and whose nested objects are not empty. *)
Fixpoint literal_ok (v : jsval) : bool :=
  match v with
  | JObj o => forallb (fun kv => negb (includes_unit dot kv.1) && negb (empty_object kv.2) && literal_ok kv.2) o
  | _ => true
  end.

Lemma includes_unit_false c s : includes_unit c s = false <-> c ∉ s.
Proof.
  unfold includes_unit. rewrite <- not_true_iff_false, existsb_exists. split; intros H Hin; apply H.
  - exists c. by rewrite <- list_elem_of_In, N.eqb_refl.
  - destruct Hin as (x & Hx & ->%N.eqb_eq). by apply list_elem_of_In.
Qed.

Lemma normalize_nested_eq path obj : normalize_value path (JObj obj) =
  foldr (fun kv acc =>
    if starts_with [dollar] kv.1 then inl (new_error InvalidConfig)
    else if bool_decide (kv.1 ∈ reserved_keys) then inl (new_error InvalidConfig)
    else match normalize_value (path ++ [kv.1]) kv.2 with
         | inl e => inl e
         | inr inner => match acc with inl e => inl e | inr out => inr (inner ++ out) end
         end) (inr []) obj.
Proof. induction obj as [|[k v] obj IH]; [done|]. cbn [foldr fst snd]. rewrite <- IH. reflexivity. Qed.

Lemma normalize_cons path k v obj cs : normalize_value path (JObj ((k, v) :: obj)) = inr cs ->
  exists inner out, normalize_value (path ++ [k]) v = inr inner /\ normalize_value path (JObj obj) = inr out /\
    cs = inner ++ out.
Proof.
  rewrite !normalize_nested_eq. cbn [foldr fst snd]. rewrite <- normalize_nested_eq.
  destruct (starts_with _ _); [done|]. case_bool_decide; [done|].
  destruct (normalize_value (path ++ [k]) v) as [e|inner]; [done|].
  destruct (normalize_value path (JObj obj)) as [e|out]; [done|]. intros [= <-]. by exists inner, out.
Qed.

Lemma matchesEq_cons k v o a : v <> JUndef -> matchesEq (JObj ((k, v) :: o)) (JObj a) =
  (b ← matchesEq v (js_get a k); if b : bool then matchesEq (JObj o) (JObj a) else Some false).
Proof. intros Hv. cbn [matchesEq]. by destruct v. Qed.

Lemma normalize_defined path v cs : normalize_value path v = inr cs -> v <> JUndef.
Proof. by intros H ->. Qed.

(** A literal that is not the empty object misses an absent field. *)
Lemma literal_misses path v cs : normalize_value path v = inr cs -> empty_object v = false ->
  matchesEq v JUndef = Some false.
Proof. destruct v as [| |b|n|s|l|o|x]; try done. Qed.

Lemma normalize_value_matches v : forall path cs doc, normalize_value path v = inr cs -> literal_ok v = true ->
  (path = [] -> exists o, v = JObj o) ->
  empty_object v = false \/ path = [] -> Forall (fun s => dot ∉ s) path ->
  matchesWire cs doc = matchesEq v (lookup_segments path (JObj doc)).
Proof.
  assert (Hleaf : forall v path doc, path <> [] -> Forall (fun s => dot ∉ s) path ->
    (forall a, matchesEq v a = Some (strict_eq v a)) ->
    matchesWire [Clause op_eq (join_with [dot] path) v] doc = matchesEq v (lookup_segments path (JObj doc))).
  { intros w path doc Hp Hd Hw. cbn [matchesWire matchesClause clause_op clause_field clause_value].
    unfold matchesClause; cbn [clause_op clause_value]. rewrite Hw, lookupPath_segments, split_join by done.
    cbn [mbind option_bind]. rewrite Hw. by destruct (strict_eq _ _). }
  induction v as [| |b|n|s|l IHl|o IHo|x] using jsval_nested_ind; intros path cs doc Hn Hlit Hroot Hne Hdots.
  1,2,6,8: done.
  - injection Hn as <-. apply Hleaf; [|done..]. intros E. by destruct (Hroot E).
  - cbn [normalize_value] in Hn. destruct (is_finite n); [|done]. injection Hn as <-.
    apply Hleaf; [|done..]. intros E. by destruct (Hroot E).
  - injection Hn as <-. apply Hleaf; [|done..]. intros E. by destruct (Hroot E).
  - assert (Hgen : forall cs, normalize_value path (JObj o) = inr cs ->
      match lookup_segments path (JObj doc) with
      | JObj a => matchesWire cs doc = matchesEq (JObj o) (JObj a)
      | _ => o <> [] -> matchesWire cs doc = Some false
      end).
    { clear cs Hn Hne Hroot. induction o as [|[k v] o IH]; intros cs Hn.
      { injection Hn as <-. by destruct (lookup_segments path (JObj doc)). }
      apply Forall_cons in IHo as [IHv IHo]. cbn [snd] in IHv. cbn [literal_ok forallb fst snd] in Hlit.
      apply andb_true_iff in Hlit as [[[Hk He]%andb_true_iff Hv]%andb_true_iff Hlit].
      apply negb_true_iff in Hk, He. apply includes_unit_false in Hk.
      apply normalize_cons in Hn as (inner & out & Hin & Hout & ->).
      specialize (IH IHo Hlit out Hout). rewrite matchesWire_app.
      rewrite (IHv (path ++ [k]) inner doc); [|done|done|by destruct path|by left|by rewrite Forall_app, Forall_singleton].
      rewrite lookup_segments_app. cbn [lookup_segments].
      destruct (lookup_segments path (JObj doc)) as [| |b|n|s|l|a|x]; try by (intros _; rewrite (literal_misses _ _ _ Hin He)).
      rewrite matchesEq_cons by by eapply normalize_defined.
      destruct (matchesEq v (js_get a k)) as [[|]|]; [|done..]. cbn [mbind option_bind]. exact IH. }
    specialize (Hgen cs Hn). destruct (lookup_segments path (JObj doc)) as [| |b|n|s|l|a|x] eqn:El;
      [..|exact Hgen|].
    all: destruct Hne as [Hne| ->]; [|done]; apply Hgen; by destruct o.
Qed.

(** ** Scalar wires *)

(** What the object form emits, and what every operator compares by value. *)
Definition scalar (v : jsval) : bool :=
  match v with JBool _ | JStr _ => true | JNum n => is_finite n | _ => false end.

Definition scalar_clause (c : PredicateClause) : bool :=
  match clause_op c with
  | op_in => match clause_value c with JArr l => forallb scalar l | _ => false end
  | _ => scalar (clause_value c)
  end.

Lemma matchesEq_scalar v a : scalar v = true -> matchesEq v a = Some (strict_eq v a).
Proof. by destruct v. Qed.

Lemma matchesIn_scalar l a : forallb scalar l = true ->
  matchesIn l a = Some (existsb (fun m => strict_eq m a) l).
Proof.
  induction l as [|m l IH]; [done|]. cbn [forallb existsb matchesIn]. intros [Hm Hl]%andb_true_iff.
  rewrite decide_False by (by destruct m). cbn [mbind option_bind]. destruct (strict_eq m a); [done|]. by apply IH.
Qed.

Lemma scalar_clause_total c a : scalar_clause c = true -> exists b, matchesClause c a = Some b.
Proof.
  unfold scalar_clause, matchesClause. destruct (clause_op c); intros H; try by eexists.
  - rewrite matchesEq_scalar by done. by eexists.
  - destruct (clause_value c); try done. rewrite matchesIn_scalar by done. by eexists.
Qed.

Lemma scalar_wire_total w doc : Forall (fun c => scalar_clause c = true) w ->
  exists b, matchesWire w doc = Some b.
Proof.
  induction 1 as [|c w Hc _ [b IH]]; cbn [matchesWire]; [by eexists|].
  destruct (scalar_clause_total c (lookupPath doc (clause_field c)) Hc) as [[|] ->]; by eexists.
Qed.

Lemma normalize_scalar v : forall path cs, normalize_value path v = inr cs ->
  Forall (fun c => scalar_clause c = true) cs.
Proof.
  induction v as [| |b|n|s|l IHl|o IHo|x] using jsval_nested_ind; intros path cs Hn; try done.
  - injection Hn as <-. by repeat constructor.
  - cbn [normalize_value] in Hn. destruct (is_finite n) eqn:E; [|done]. injection Hn as <-. by repeat constructor.
  - injection Hn as <-. by repeat constructor.
  - revert cs Hn. induction o as [|[k v] o IH]; intros cs Hn; [injection Hn as <-; constructor|].
    apply Forall_cons in IHo as [IHv IHo]. apply normalize_cons in Hn as (inner & out & Hin & Hout & ->).
    apply Forall_app. split; [by eapply IHv|by apply IH].
Qed.

(** ** Theorems *)

(** C29: The object form means what the matcher makes of the literal: for a predicate
    object without dotted keys and without empty nested objects (one emits no clause), the wire it normalises
    to evaluates on every document, never throws, and accepts exactly the documents the
    open-world match of the literal accepts. *)
Theorem normalize_agrees_with_matcher obj w doc : literal_ok (JObj obj) = true ->
  normalizePredicateArg (inl obj) = inr w ->
  matchesWire w doc = matchesEq (JObj obj) (JObj doc) /\ exists b, matchesWire w doc = Some b.
Proof.
  intros Hlit Hn. split.
  - apply (normalize_value_matches (JObj obj) [] w doc); [done|done|by exists obj|by right|done].
  - eapply scalar_wire_total, normalize_scalar, Hn.
Qed.

Definition sample_literal : list (jsstr * jsval) :=
  [(js "status", JStr (js "open")); (js "assignee", JObj [(js "team", JStr (js "x")); (js "n", JNum (num_of_Z 3))])].

Definition sample_doc : list (jsstr * jsval) :=
  [(js "assignee", JObj [(js "n", JNum (num_of_Z 3)); (js "team", JStr (js "x")); (js "z", JNull)]);
   (js "status", JStr (js "open"))].

Lemma normalize_agrees_with_matcher_witness :
  exists w, normalizePredicateArg (inl sample_literal) = inr w /\ matchesWire w sample_doc = Some true /\
    matchesEq (JObj sample_literal) (JObj sample_doc) = Some true.
Proof.
  eexists. split; [vm_compute; reflexivity|]. split; [vm_compute; reflexivity|].
  erewrite <- (proj1 (normalize_agrees_with_matcher sample_literal _ sample_doc _ eq_refl)).
  - vm_compute. reflexivity.
  Unshelve. vm_compute. reflexivity.
Defined.

(** An empty nested object emits no clause: it accepts documents without the field, which
    the match of the same literal rejects. *)
Lemma empty_sub_predicate_matches_all :
  normalizePredicateArg (inl [(js "assignee", JObj [])]) = inr [] /\ matchesWire [] [] = Some true /\
  matchesEq (JObj [(js "assignee", JObj [])]) (JObj []) = Some false.
Proof. repeat split. Qed.
