(* ===== verification/Satisfiable.v ===== *)
(** * Predicate satisfiability and merge (protocol/src/query: satisfiable, merge)

    The clauses of a wire grouped by field, bounds tightened on the way, and the checks
    that refuse a contradictory group.  Soundness: a wire of scalar operands is refused
    only when no document matches it. *)
From S2P Require Import Prelude JsText JsValue Errors Json Storage Predicate.
Local Open Scope Z_scope.
Local Open Scope result_scope.

Record range_bound := Bound { bound_value : jsval; inclusive : bool }.

Record FieldGroup := Group {
  eqs : list jsval;
  ins : list (list jsval);
  lo : option range_bound;
  hi : option range_bound
}.

Definition throw {A} (code : BaerlyErrorCode) : result A := inl (new_error code).

Definition set_lo (g : FieldGroup) (b : range_bound) : FieldGroup := Group (eqs g) (ins g) (Some b) (hi g).
Definition set_hi (g : FieldGroup) (b : range_bound) : FieldGroup := Group (eqs g) (ins g) (lo g) (Some b).

Definition tightenLower (group : FieldGroup) (value : jsval) (incl : bool) : result FieldGroup :=
  match lo group with
  | None => inr (set_lo group (Bound value incl))
  | Some l =>
    if negb (sameComparableType (bound_value l) value) then throw UnsatisfiablePredicate
    else
      let c := compareScalar (bound_value l) value in
      if bool_decide (c = Some Lt) || bool_decide (c = Some Eq) && negb incl && inclusive l
      then inr (set_lo group (Bound value incl)) else inr group
  end.

Definition tightenUpper (group : FieldGroup) (value : jsval) (incl : bool) : result FieldGroup :=
  match hi group with
  | None => inr (set_hi group (Bound value incl))
  | Some h =>
    if negb (sameComparableType (bound_value h) value) then throw UnsatisfiablePredicate
    else
      let c := compareScalar (bound_value h) value in
      if bool_decide (c = Some Gt) || bool_decide (c = Some Eq) && negb incl && inclusive h
      then inr (set_hi group (Bound value incl)) else inr group
  end.

(** The members of an [in] clause. *)
Definition members (c : PredicateClause) : list jsval :=
  match clause_value c with JArr l => l | _ => [] end.

Definition applyClause (group : FieldGroup) (clause : PredicateClause) : result FieldGroup :=
  let value := clause_value clause in
  match clause_op clause with
  | op_eq => inr (Group (eqs group ++ [value]) (ins group) (lo group) (hi group))
  | op_in => inr (Group (eqs group) (ins group ++ [members clause]) (lo group) (hi group))
  | op_gt => tightenLower group value false
  | op_gte => tightenLower group value true
  | op_lt => tightenUpper group value false
  | op_lte => tightenUpper group value true
  end.

Definition empty_group : FieldGroup := Group [] [] None None.

(** The group of the clause's field, in insertion order; a new field goes last. *)
Fixpoint apply_to (groups : list (jsstr * FieldGroup)) (clause : PredicateClause) :
    result (list (jsstr * FieldGroup)) :=
  match groups with
  | [] => let? g := applyClause empty_group clause in inr [(clause_field clause, g)]
  | (field, group) :: rest =>
    if decide (field = clause_field clause)
    then let? g := applyClause group clause in inr ((field, g) :: rest)
    else let? rest' := apply_to rest clause in inr ((field, group) :: rest')
  end.

Fixpoint group_from (groups : list (jsstr * FieldGroup)) (wire : PredicateWire) :
    result (list (jsstr * FieldGroup)) :=
  match wire with
  | [] => inr groups
  | clause :: wire => let? groups := apply_to groups clause in group_from groups wire
  end.

Definition groupByField (wire : PredicateWire) : result (list (jsstr * FieldGroup)) := group_from [] wire.

(** [deepEqualDocumentValue] as called: it may throw. *)
Definition deep_equal (a b : jsval) : result bool :=
  match deepEqualDocumentValue a b with Some r => inr r | None => inl OtherError end.

(** Is a member of [set] deep-equal to [v], comparing [v] first. *)
Fixpoint in_set (v : jsval) (set : list jsval) : result bool :=
  match set with
  | [] => inr false
  | m :: set => let? r := deep_equal v m in if r : bool then inr true else in_set v set
  end.

(** One turn of [intersectInSets]: the members of [acc] found in [set]. *)
Fixpoint intersect_step (acc set : list jsval) : result (list jsval) :=
  match acc with
  | [] => inr []
  | a :: acc => let? r := in_set a set in
                let? next := intersect_step acc set in
                inr (if r : bool then a :: next else next)
  end.

Fixpoint intersect_from (acc : list jsval) (sets : list (list jsval)) : result (list jsval) :=
  match sets with
  | [] => inr acc
  | set :: sets => let? acc := intersect_step acc set in intersect_from acc sets
  end.

Definition intersectInSets (sets : list (list jsval)) : result (list jsval) :=
  match sets with [] => inr [] | s :: sets => intersect_from s sets end.

(** The other [eq] values agree with the first. *)
Fixpoint eqs_agree (eq : jsval) (others : list jsval) : result unit :=
  match others with
  | [] => inr tt
  | e :: others => let? r := deep_equal eq e in if r : bool then eqs_agree eq others else throw InvalidConfig
  end.

Definition refuse (b : bool) : result unit := if b then throw UnsatisfiablePredicate else inr tt.

Definition is_cmp (c : option comparison) (d : comparison) : bool := bool_decide (c = Some d).

(** The range interval is not empty. *)
Definition check_interval (group : FieldGroup) : result unit :=
  match lo group, hi group with
  | Some l, Some h =>
    let c := compareScalar (bound_value l) (bound_value h) in
    refuse (sameComparableType (bound_value l) (bound_value h) &&
            (is_cmp c Gt || is_cmp c Eq && (negb (inclusive l) || negb (inclusive h))))
  | _, _ => inr tt
  end.

Definition check_eq_lo (eq : jsval) (group : FieldGroup) : result unit :=
  match lo group with
  | Some l => let c := compareScalar eq (bound_value l) in
              refuse (negb (sameComparableType eq (bound_value l)) ||
                      is_cmp c Lt || is_cmp c Eq && negb (inclusive l))
  | None => inr tt
  end.

Definition check_eq_hi (eq : jsval) (group : FieldGroup) : result unit :=
  match hi group with
  | Some h => let c := compareScalar eq (bound_value h) in
              refuse (negb (sameComparableType eq (bound_value h)) ||
                      is_cmp c Gt || is_cmp c Eq && negb (inclusive h))
  | None => inr tt
  end.

Fixpoint check_eq_ins (eq : jsval) (sets : list (list jsval)) : result unit :=
  match sets with
  | [] => inr tt
  | set :: sets => let? found := in_set eq set in
                   if found : bool then check_eq_ins eq sets else throw UnsatisfiablePredicate
  end.

(** The checks of one field, in order. *)
Definition check_group (group : FieldGroup) : result unit :=
  let? _ := match eqs group with e :: others => eqs_agree e others | [] => inr tt end in
  let? _ := check_interval group in
  let? _ := match eqs group with
            | eq :: _ =>
              if is_undefined eq then inr tt
              else
                let? _ := check_eq_lo eq group in
                let? _ := check_eq_hi eq group in
                check_eq_ins eq (ins group)
            | [] => inr tt
            end in
  if (1 <? length (ins group))%nat then
    let? isect := intersectInSets (ins group) in
    match isect with [] => throw UnsatisfiablePredicate | _ => inr tt end
  else inr tt.

Fixpoint check_groups (groups : list (jsstr * FieldGroup)) : result unit :=
  match groups with
  | [] => inr tt
  | (_, group) :: groups => let? _ := check_group group in check_groups groups
  end.

Definition assertWireSatisfiable (wire : PredicateWire) : result unit :=
  let? groups := groupByField wire in check_groups groups.

(** AND-merge of two wires. *)
Definition mergePredicateWires (a b : PredicateWire) : result PredicateWire :=
  let merged := a ++ b in
  let? _ := assertWireSatisfiable merged in inr merged.

(** ** What a group means *)

Definition above (x : jsval) (b : range_bound) : Prop := compareGT x (bound_value b) (inclusive b) = true.
Definition below (x : jsval) (b : range_bound) : Prop := compareLT x (bound_value b) (inclusive b) = true.

Definition within {A} (P : A -> Prop) (o : option A) : Prop := match o with Some a => P a | None => True end.

(** The value at the field satisfies every clause of the group (scalar operands). *)
Definition group_holds (g : FieldGroup) (x : jsval) : Prop :=
  Forall (fun e => e = x) (eqs g) /\ Forall (fun set => x ∈ set) (ins g) /\
  within (above x) (lo g) /\ within (below x) (hi g).

Definition group_scalar (g : FieldGroup) : Prop :=
  Forall (fun e => scalar e = true) (eqs g) /\
  Forall (fun set => Forall (fun m => scalar m = true) set) (ins g) /\
  within (fun b => scalar (bound_value b) = true) (lo g) /\
  within (fun b => scalar (bound_value b) = true) (hi g).

(** ** Scalar comparison *)

Lemma strict_eq_scalar v x : scalar v = true -> strict_eq v x = true <-> v = x.
Proof.
  destruct v as [| |b|n|s|l|o|e]; try done; intros Hs; destruct x; try (split; [done|congruence]); cbn [strict_eq].
  - rewrite eqb_true_iff. naive_solver.
  - rewrite num_eqb_fin by done. naive_solver.
  - rewrite bool_decide_eq_true. naive_solver.
Qed.

Lemma deep_equal_scalar a b : scalar a = true -> scalar b = true -> deep_equal a b = inr (strict_eq a b).
Proof.
  intros Ha Hb. unfold deep_equal.
  assert (H : deepEqualDocumentValue a b = Some (strict_eq a b)); [|by rewrite H].
  destruct a, b; try done; cbn [deepEqualDocumentValue]; by destruct (strict_eq _ _).
Qed.

(** The strict order of two comparable operands. *)
Definition value_lt (a b : jsval) : Prop := compareGT b a false = true.

Lemma compareScalar_Lt a b : sameComparableType a b = true ->
  compareScalar a b = Some Lt -> value_lt a b.
Proof.
  unfold value_lt. destruct a, b; try done; cbn [compareScalar compareGT]; intros _.
  - unfold num_compare. destruct (num_ltb n n0); [done|]. by repeat case_match.
  - destruct (str_ltb s s0); [done|]. by repeat case_match.
Qed.

Lemma compareScalar_Gt a b : sameComparableType a b = true ->
  compareScalar a b = Some Gt -> value_lt b a.
Proof.
  unfold value_lt. destruct a, b; try done; cbn [compareScalar compareGT]; intros _.
  - unfold num_compare. destruct (num_ltb n n0); [done|]. destruct (num_ltb n0 n); [done|]. by case_match.
  - destruct (str_ltb s s0); [done|]. by destruct (str_ltb s0 s).
Qed.

Lemma compareScalar_Eq a b : scalar a = true -> scalar b = true -> sameComparableType a b = true ->
  compareScalar a b = Some Eq -> a = b.
Proof.
  destruct a, b; try done; cbn [compareScalar scalar]; intros Ha Hb _.
  - unfold num_compare. destruct (num_ltb n n0) eqn:E1; [done|]. destruct (num_ltb n0 n) eqn:E2; [done|].
    intros _. destruct (num_ltb_total n n0 Ha Hb) as [H|[ -> |H]]; congruence.
  - destruct (str_ltb s s0) eqn:E1; [done|]. destruct (str_ltb s0 s) eqn:E2; [done|].
    intros _. destruct (str_ltb_total s s0) as [H|[ -> |H]]; congruence.
Qed.

Lemma compareScalar_total a b : scalar a = true -> scalar b = true -> exists c, compareScalar a b = Some c.
Proof.
  destruct a, b; try done; cbn [compareScalar scalar]; intros Ha Hb; try (by eexists).
  unfold num_compare. rewrite Ha, Hb. destruct (num_ltb _ _); [by eexists|]. destruct (num_ltb _ _); by eexists.
Qed.

Lemma above_type x v i : compareGT x v i = true -> sameComparableType x v = true /\ sameComparableType v x = true.
Proof. destruct v, x; by try done. Qed.

Lemma below_type x v i : compareLT x v i = true -> sameComparableType x v = true /\ sameComparableType v x = true.
Proof. destruct v, x; by try done. Qed.

Lemma type_trans a b c : sameComparableType a b = true -> sameComparableType b c = true -> sameComparableType a c = true.
Proof. destruct a, b, c; by try done. Qed.

Lemma type_sym a b : sameComparableType a b = sameComparableType b a.
Proof. by destruct a, b. Qed.

Lemma num_lt_le_trans a b c : num_ltb a b = true -> num_leb b c = true -> num_ltb a c = true.
Proof.
  unfold num_leb. intros Hab [Hbc|Hbc]%orb_true_iff; [by eapply num_ltb_trans|].
  unfold num_eqb in Hbc. destruct b; try done; apply bool_decide_eq_true in Hbc; by subst.
Qed.

Lemma num_le_lt_trans a b c : num_leb a b = true -> num_ltb b c = true -> num_ltb a c = true.
Proof.
  unfold num_leb. intros [Hab|Hab]%orb_true_iff Hbc; [by eapply num_ltb_trans|].
  unfold num_eqb in Hab. destruct a; try done; apply bool_decide_eq_true in Hab; by subst.
Qed.

Lemma str_lt_le_trans a b c : str_ltb a b = true -> str_leb b c = true -> str_ltb a c = true.
Proof.
  unfold str_leb. rewrite negb_true_iff. intros Hab Hbc.
  destruct (str_ltb_total b c) as [H|[ -> |H]]; [by eapply str_ltb_trans|done|congruence].
Qed.

Lemma str_le_lt_trans a b c : str_leb a b = true -> str_ltb b c = true -> str_ltb a c = true.
Proof.
  unfold str_leb. rewrite negb_true_iff. intros Hab Hbc.
  destruct (str_ltb_total a b) as [H|[ -> |H]]; [by eapply str_ltb_trans|done|congruence].
Qed.

(** Above a larger bound is strictly above a smaller one. *)
Lemma above_lt x v w i j : value_lt v w -> compareGT x w i = true -> compareGT x v j = true.
Proof.
  unfold value_lt. destruct v as [| | |v|v| | |], w as [| | |w|w| | |], x as [| | |x|x| | |]; try done; cbn [compareGT]; intros Hv Hw.
  - assert (H : num_ltb v x = true) by (destruct i; [by eapply num_lt_le_trans|by eapply num_ltb_trans]).
    destruct j; [|done]. unfold num_leb. by rewrite H.
  - assert (H : str_ltb v x = true) by (destruct i; [by eapply str_lt_le_trans|by eapply str_ltb_trans]).
    destruct j; [|done]. unfold str_leb. by rewrite (str_ltb_asym _ _ H).
Qed.

Lemma below_lt x v w i j : value_lt w v -> compareLT x w i = true -> compareLT x v j = true.
Proof.
  unfold value_lt. destruct v as [| | |v|v| | |], w as [| | |w|w| | |], x as [| | |x|x| | |]; try done; cbn [compareGT compareLT]; intros Hv Hw.
  - assert (H : num_ltb x v = true) by (destruct i; [by eapply num_le_lt_trans|by eapply num_ltb_trans]).
    destruct j; [|done]. unfold num_leb. by rewrite H.
  - assert (H : str_ltb x v = true) by (destruct i; [by eapply str_le_lt_trans|by eapply str_ltb_trans]).
    destruct j; [|done]. unfold str_leb. by rewrite (str_ltb_asym _ _ H).
Qed.

Lemma above_loose x v : compareGT x v false = true -> compareGT x v true = true.
Proof.
  destruct v as [| | |v|v| | |], x as [| | |x|x| | |]; try done; cbn [compareGT]; intros H.
  - unfold num_leb. by rewrite H.
  - unfold str_leb. by rewrite (str_ltb_asym _ _ H).
Qed.

Lemma below_loose x v : compareLT x v false = true -> compareLT x v true = true.
Proof.
  destruct v as [| | |v|v| | |], x as [| | |x|x| | |]; try done; cbn [compareLT]; intros H.
  - unfold num_leb. by rewrite H.
  - unfold str_leb. by rewrite (str_ltb_asym _ _ H).
Qed.

(** Nothing is below [v] and above [w] when [v] is the smaller, or strictly around one value. *)
Lemma above_below_lt x v w i j : value_lt v w -> compareLT x v i = true -> compareGT x w j = true -> False.
Proof.
  intros Hv Hx Hw. pose proof (above_lt x v w j false Hv Hw) as H.
  destruct v as [| | |v|v| | |], x as [| | |x|x| | |]; try done; cbn [compareGT compareLT] in *.
  - assert (E : num_ltb v v = true) by (destruct i; [by eapply num_lt_le_trans|by eapply num_ltb_trans]).
    by rewrite num_ltb_irrefl in E.
  - assert (E : str_ltb v v = true) by (destruct i; [by eapply str_lt_le_trans|by eapply str_ltb_trans]).
    by rewrite str_ltb_irrefl in E.
Qed.

Lemma above_below_eq x v i j : i && j = false -> compareLT x v i = true -> compareGT x v j = true -> False.
Proof.
  intros Hij Hx Hw. destruct v as [| | |v|v| | |], x as [| | |x|x| | |]; try done; cbn [compareGT compareLT] in *.
  - assert (E : num_ltb v v = true).
    { destruct i, j; try done; (by eapply num_lt_le_trans) || (by eapply num_le_lt_trans) || (by eapply num_ltb_trans). }
    by rewrite num_ltb_irrefl in E.
  - assert (E : str_ltb v v = true).
    { destruct i, j; try done; (by eapply str_lt_le_trans) || (by eapply str_le_lt_trans) || (by eapply str_ltb_trans). }
    by rewrite str_ltb_irrefl in E.
Qed.

(** A value strictly past a bound is not within it. *)
Lemma above_irrefl x v i : value_lt x v -> compareGT x v i = true -> False.
Proof.
  intros Hx Hw. pose proof (above_lt x x v i false Hx Hw) as H. destruct x; try done; cbn [compareGT] in H.
  - by rewrite num_ltb_irrefl in H.
  - by rewrite str_ltb_irrefl in H.
Qed.

Lemma below_irrefl x v i : value_lt v x -> compareLT x v i = true -> False.
Proof.
  intros Hx Hw. pose proof (below_lt x x v i false Hx Hw) as H. destruct x; try done; cbn [compareLT] in H.
  - by rewrite num_ltb_irrefl in H.
  - by rewrite str_ltb_irrefl in H.
Qed.

Lemma above_self v : compareGT v v false = false /\ compareLT v v false = false.
Proof. destruct v; try done; cbn [compareGT compareLT]; by rewrite ?num_ltb_irrefl, ?str_ltb_irrefl. Qed.

Lemma num_leb_refl_fin n : is_finite n = true -> num_leb n n = true.
Proof. intros H. unfold num_leb. rewrite (proj2 (num_eqb_fin n n H) eq_refl). apply orb_true_r. Qed.

Lemma str_leb_refl s : str_leb s s = true.
Proof. unfold str_leb. by rewrite str_ltb_irrefl. Qed.

Lemma value_lt_below v w : value_lt v w -> compareLT v w false = true.
Proof. unfold value_lt. by destruct v, w. Qed.

Lemma below_loose_any x v i : compareLT x v false = true -> compareLT x v i = true.
Proof. intros H. destruct i; [by apply below_loose|done]. Qed.

(** ** Grouping keeps the meaning of the clauses *)

Ltac split_cmp c := let E := fresh "Ecmp" in
  destruct c as [[]|] eqn:E; cbn [bool_decide decide_rel].

Lemma tightenLower_spec g v i : group_scalar g -> scalar v = true ->
  match tightenLower g v i with
  | inr g' => group_scalar g' /\
      forall x, group_holds g' x <-> group_holds g x /\ compareGT x v i = true
  | inl _ => forall x, group_holds g x -> compareGT x v i = true -> False
  end.
Proof.
  intros (He & Hi & Hlo & Hhi) Hv. unfold tightenLower. destruct (lo g) as [[l li]|] eqn:El; cbn [bound_value inclusive].
  2: { unfold group_scalar, group_holds, set_lo. cbn [eqs ins lo hi]. rewrite El. cbn [within]. unfold above. naive_solver. }
  cbn [within] in Hlo. cbn [bound_value] in Hlo.
  destruct (sameComparableType l v) eqn:Et; cbn [negb].
  2: { intros x (_ & _ & Hx & _) Hg. rewrite El in Hx. cbn [within] in Hx. apply above_type in Hx as [_ Hx], Hg as [Hg _].
       cbn [bound_value] in Hx. by rewrite (type_trans l x v) in Et. }
  destruct (compareScalar_total l v Hlo Hv) as [c Hc]. rewrite Hc.
  unfold group_scalar, group_holds, set_lo. destruct c; cbn [bool_decide decide_rel].
  - pose proof (compareScalar_Eq l v Hlo Hv Et Hc) as <-. rewrite bool_decide_eq_false_2, bool_decide_eq_true_2 by done.
    cbn [orb andb]. destruct i, li; cbn [negb andb eqs ins lo hi]; rewrite ?El; cbn [within bound_value inclusive];
      unfold above; cbn [bound_value inclusive]; (split; [by rewrite ?El|]); intros x; rewrite ?El; cbn [within bound_value inclusive];
      pose proof (above_loose x l); naive_solver.
  - rewrite bool_decide_eq_true_2 by done. cbn [orb eqs ins lo hi]. rewrite ?El. cbn [within bound_value].
    split; [done|]. intros x. unfold above. cbn [bound_value inclusive].
    pose proof (above_lt x l v i li (compareScalar_Lt _ _ Et Hc)). naive_solver.
  - rewrite !bool_decide_eq_false_2 by done. cbn [orb andb]. rewrite El. split; [done|].
    intros x. cbn [within]. unfold above. cbn [bound_value inclusive].
    pose proof (above_lt x v l li i (compareScalar_Gt _ _ Et Hc)). naive_solver.
Qed.

Lemma tightenUpper_spec g v i : group_scalar g -> scalar v = true ->
  match tightenUpper g v i with
  | inr g' => group_scalar g' /\
      forall x, group_holds g' x <-> group_holds g x /\ compareLT x v i = true
  | inl _ => forall x, group_holds g x -> compareLT x v i = true -> False
  end.
Proof.
  intros (He & Hi & Hlo & Hhi) Hv. unfold tightenUpper. destruct (hi g) as [[l li]|] eqn:El; cbn [bound_value inclusive].
  2: { unfold group_scalar, group_holds, set_hi. cbn [eqs ins lo hi]. rewrite El. cbn [within]. unfold below. naive_solver. }
  cbn [within] in Hhi. cbn [bound_value] in Hhi.
  destruct (sameComparableType l v) eqn:Et; cbn [negb].
  2: { intros x (_ & _ & _ & Hx) Hg. rewrite El in Hx. cbn [within] in Hx. apply below_type in Hx as [_ Hx], Hg as [Hg _].
       cbn [bound_value] in Hx. by rewrite (type_trans l x v) in Et. }
  destruct (compareScalar_total l v Hhi Hv) as [c Hc]. rewrite Hc.
  unfold group_scalar, group_holds, set_hi. destruct c; cbn [bool_decide decide_rel].
  - pose proof (compareScalar_Eq l v Hhi Hv Et Hc) as <-. rewrite bool_decide_eq_false_2, bool_decide_eq_true_2 by done.
    cbn [orb andb]. destruct i, li; cbn [negb andb eqs ins lo hi]; rewrite ?El; cbn [within bound_value inclusive];
      unfold below; cbn [bound_value inclusive]; (split; [by rewrite ?El|]); intros x; rewrite ?El; cbn [within bound_value inclusive];
      pose proof (below_loose x l); naive_solver.
  - rewrite !bool_decide_eq_false_2 by done. cbn [orb andb]. rewrite El. split; [done|].
    intros x. cbn [within]. unfold below. cbn [bound_value inclusive].
    pose proof (below_lt x v l li i (compareScalar_Lt _ _ Et Hc)). naive_solver.
  - rewrite bool_decide_eq_true_2 by done. cbn [orb eqs ins lo hi]. rewrite ?El. cbn [within bound_value].
    split; [done|]. intros x. unfold below. cbn [bound_value inclusive].
    pose proof (below_lt x l v i li (compareScalar_Gt _ _ Et Hc)). naive_solver.
Qed.

(** A step that extends the meaning of [S] by the condition [C], or refuses it. *)
Definition refines {G D} (scal : G -> Prop) (holds : G -> D -> Prop) (S : D -> Prop) (C : D -> Prop) (r : result G) : Prop :=
  match r with
  | inr g => scal g /\ forall d, holds g d <-> S d /\ C d
  | inl _ => forall d, S d -> C d -> False
  end.

Lemma existsb_strict l x : Forall (fun m => scalar m = true) l -> existsb (fun m => strict_eq m x) l = true <-> x ∈ l.
Proof.
  induction 1 as [|m l Hm _ IH]; cbn [existsb]; [by rewrite elem_of_nil|].
  rewrite orb_true_iff, IH, strict_eq_scalar by done. rewrite elem_of_cons. naive_solver.
Qed.

Lemma forallb_Forall {A} (f : A -> bool) l : forallb f l = true <-> Forall (fun x => f x = true) l.
Proof.
  induction l as [|x l IH]; cbn [forallb]; [by split|]. by rewrite andb_true_iff, Forall_cons, IH.
Qed.

Lemma Some_true (b : bool) : Some b = Some true <-> b = true.
Proof. split; [by intros [=]|by intros ->]. Qed.

Lemma applyClause_spec g c : group_scalar g -> scalar_clause c = true ->
  refines group_scalar group_holds (group_holds g) (fun x => matchesClause c x = Some true) (applyClause g c).
Proof.
  intros Hg. unfold scalar_clause, refines, applyClause, matchesClause. destruct (clause_op c) eqn:Eop; intros Hc.
  - destruct Hg as (He & Hi & Hlo & Hhi). split; [unfold group_scalar; cbn; by rewrite Forall_app, Forall_singleton|].
    intros x. rewrite matchesEq_scalar by done. unfold group_holds. cbn [eqs ins lo hi].
    rewrite Forall_app, Forall_singleton.
    assert (Hx : Some (strict_eq (clause_value c) x) = Some true <-> clause_value c = x)
      by (rewrite <- (strict_eq_scalar (clause_value c) x Hc); split; [by intros [=]|by intros ->]). rewrite Hx. tauto.
  - pose proof (tightenLower_spec g (clause_value c) false Hg Hc) as H. destruct (tightenLower _ _ _) as [e|g'].
    + intros x Hx [= Hc']. by eapply H.
    + destruct H as [Hs H]. split; [done|]. intros x. by rewrite H, Some_true.
  - pose proof (tightenLower_spec g (clause_value c) true Hg Hc) as H. destruct (tightenLower _ _ _) as [e|g'].
    + intros x Hx [= Hc']. by eapply H.
    + destruct H as [Hs H]. split; [done|]. intros x. by rewrite H, Some_true.
  - pose proof (tightenUpper_spec g (clause_value c) false Hg Hc) as H. destruct (tightenUpper _ _ _) as [e|g'].
    + intros x Hx [= Hc']. by eapply H.
    + destruct H as [Hs H]. split; [done|]. intros x. by rewrite H, Some_true.
  - pose proof (tightenUpper_spec g (clause_value c) true Hg Hc) as H. destruct (tightenUpper _ _ _) as [e|g'].
    + intros x Hx [= Hc']. by eapply H.
    + destruct H as [Hs H]. split; [done|]. intros x. by rewrite H, Some_true.
  - unfold members. destruct (clause_value c) as [| | | | |l| |] eqn:Ev; try done.
    pose proof (proj1 (forallb_Forall _ _) Hc) as Hl.
    destruct Hg as (He & Hi & Hlo & Hhi). split; [unfold group_scalar; cbn; by rewrite Forall_app, Forall_singleton|].
    intros x. rewrite matchesIn_scalar by done. unfold group_holds. cbn [eqs ins lo hi].
    rewrite Forall_app, Forall_singleton. rewrite <- (existsb_strict l x) by done.
    rewrite Some_true. tauto.
Qed.

Lemma empty_group_spec : group_scalar empty_group /\ forall x, group_holds empty_group x <-> True.
Proof. by repeat split. Qed.

Abbreviation groups := (list (jsstr * FieldGroup)).

Definition groups_scalar (gs : groups) : Prop := Forall (fun fg => group_scalar fg.2) gs.

Definition groups_hold (gs : groups) (doc : list (jsstr * jsval)) : Prop :=
  Forall (fun fg => group_holds fg.2 (lookupPath doc fg.1)) gs.

Definition clause_holds (c : PredicateClause) (doc : list (jsstr * jsval)) : Prop :=
  matchesClause c (lookupPath doc (clause_field c)) = Some true.

Lemma apply_to_spec gs c : groups_scalar gs -> scalar_clause c = true ->
  refines groups_scalar groups_hold (groups_hold gs) (clause_holds c) (apply_to gs c).
Proof.
  intros Hgs Hc. unfold groups_scalar in Hgs. induction Hgs as [|[f g] gs Hg Hgs IH]; cbn [apply_to].
  - pose proof (applyClause_spec empty_group c (proj1 empty_group_spec) Hc) as H.
    destruct (applyClause empty_group c) as [e|g]; cbn [rbind refines] in *.
    + intros d _ Hd. eapply H; [by apply empty_group_spec|exact Hd].
    + destruct H as [Hs H]. split; [by constructor|]. intros d. unfold groups_hold.
      rewrite Forall_singleton. cbn [fst snd]. rewrite H. pose proof (proj2 empty_group_spec (lookupPath d (clause_field c))).
      unfold clause_holds. split; [|tauto]. intros [_ ?]. by split.
  - cbn [snd] in Hg. case_decide as E.
    + pose proof (applyClause_spec g c Hg Hc) as H.
      destruct (applyClause g c) as [e|g']; cbn [rbind refines] in *.
      * intros d [Hd _]%Forall_cons Hm. cbn [fst snd] in Hd. subst f. by eapply H.
      * destruct H as [Hs H]. split; [by constructor|]. intros d. unfold groups_hold. rewrite !Forall_cons.
        cbn [fst snd]. rewrite H. subst f. unfold clause_holds. tauto.
    + destruct (apply_to gs c) as [e|gs']; cbn [rbind refines] in *.
      * intros d [_ Hd]%Forall_cons Hm. by eapply IH.
      * destruct IH as [Hs IH]. split; [by constructor|]. intros d. unfold groups_hold in *. rewrite !Forall_cons, IH. tauto.
Qed.

Lemma group_from_spec wire : forall gs, groups_scalar gs -> Forall (fun c => scalar_clause c = true) wire ->
  refines groups_scalar groups_hold (groups_hold gs) (fun doc => matchesWire wire doc = Some true) (group_from gs wire).
Proof.
  induction wire as [|c wire IH]; intros gs Hgs Hw; cbn [group_from refines].
  - split; [done|]. intros d. cbn. tauto.
  - apply Forall_cons in Hw as [Hc Hw]. pose proof (apply_to_spec gs c Hgs Hc) as H.
    assert (Hm : forall d, matchesWire (c :: wire) d = Some true <-> clause_holds c d /\ matchesWire wire d = Some true).
    { intros d. by rewrite !matchesWire_true, Forall_cons. }
    destruct (apply_to gs c) as [e|gs']; cbn [rbind refines] in *.
    + intros d Hd [Hcd _]%Hm. by eapply H.
    + destruct H as [Hs H]. specialize (IH gs' Hs Hw). destruct (group_from gs' wire) as [e|gs'']; cbn [refines] in *.
      * intros d Hd [Hcd Hwd]%Hm. eapply IH; [apply H; split; [exact Hd|exact Hcd]|done].
      * destruct IH as [Hs' IH]. split; [done|]. intros d. rewrite IH, H, Hm. tauto.
Qed.

(** ** A refused group holds nowhere *)

Abbreviation all_scalar := (Forall (fun m => scalar m = true)).

Lemma in_set_scalar v set : scalar v = true -> all_scalar set ->
  exists b : bool, in_set v set = inr b /\ (b = true <-> v ∈ set).
Proof.
  intros Hv. induction 1 as [|m set Hm _ (b & IH & Hb)]; cbn [in_set].
  { exists false. by rewrite elem_of_nil. }
  rewrite deep_equal_scalar by done. cbn [rbind]. pose proof (strict_eq_scalar v m Hv) as E.
  setoid_rewrite elem_of_cons. destruct (strict_eq v m).
  - exists true. split; [done|]. split; [intros _; left; by apply E|done].
  - exists b. split; [done|]. rewrite Hb. split; [by right|]. intros [->|?]; [by discriminate (proj2 E eq_refl)|done].
Qed.

Lemma eqs_agree_sound x e others : scalar e = true -> all_scalar others -> e = x -> Forall (fun e => e = x) others ->
  eqs_agree e others = inr tt.
Proof.
  intros He Hs -> Ho. induction Hs as [|v others Hv _ IH]; [done|]. apply Forall_cons in Ho as [-> Ho].
  cbn [eqs_agree]. rewrite deep_equal_scalar by done. cbn [rbind].
  rewrite (proj2 (strict_eq_scalar x x Hv) eq_refl). by apply IH.
Qed.

Lemma check_interval_sound x g : group_scalar g -> group_holds g x -> check_interval g = inr tt.
Proof.
  intros (_ & _ & Hsl & Hsh) (_ & _ & Hl & Hh). unfold check_interval.
  destruct (lo g) as [[l li]|]; [|done]. destruct (hi g) as [[h hii]|]; [|done].
  cbn [within bound_value inclusive] in *. unfold above, below in *. cbn [bound_value inclusive] in *.
  unfold refuse. destruct (sameComparableType l h) eqn:Et; [|done]. cbn [andb].
  destruct (compareScalar l h) as [[| |]|] eqn:Ec; unfold is_cmp.
  - apply compareScalar_Eq in Ec as <-; try done. rewrite bool_decide_eq_false_2, bool_decide_eq_true_2 by done.
    cbn [orb andb]. destruct (negb li || negb hii) eqn:E; [|done]. exfalso.
    apply (above_below_eq x l hii li); [|done|done]. by destruct li, hii.
  - by rewrite !bool_decide_eq_false_2.
  - exfalso. by eapply (above_below_lt x h l), Hl; [apply compareScalar_Gt|].
  - by rewrite !bool_decide_eq_false_2.
Qed.

Lemma check_eq_lo_sound x g : group_scalar g -> scalar x = true -> group_holds g x -> check_eq_lo x g = inr tt.
Proof.
  intros (_ & _ & Hsl & _) Hx (_ & _ & Hl & _). unfold check_eq_lo. destruct (lo g) as [[l li]|]; [|done].
  cbn [within bound_value inclusive] in *. unfold above in Hl. cbn [bound_value inclusive] in *.
  destruct (above_type _ _ _ Hl) as [Ht _]. rewrite Ht. cbn [negb orb]. unfold refuse, is_cmp.
  destruct (compareScalar x l) as [[| |]|] eqn:Ec.
  - apply compareScalar_Eq in Ec as ->; try done. rewrite bool_decide_eq_false_2, bool_decide_eq_true_2 by done.
    cbn [orb andb]. destruct li; [done|]. by destruct (above_self l) as [E _]; rewrite E in Hl.
  - exfalso. eapply above_irrefl, Hl. by apply compareScalar_Lt.
  - by rewrite !bool_decide_eq_false_2.
  - by rewrite !bool_decide_eq_false_2.
Qed.

Lemma check_eq_hi_sound x g : group_scalar g -> scalar x = true -> group_holds g x -> check_eq_hi x g = inr tt.
Proof.
  intros (_ & _ & _ & Hsl) Hx (_ & _ & _ & Hl). unfold check_eq_hi. destruct (hi g) as [[l li]|]; [|done].
  cbn [within bound_value inclusive] in *. unfold below in Hl. cbn [bound_value inclusive] in *.
  destruct (below_type _ _ _ Hl) as [Ht _]. rewrite Ht. cbn [negb orb]. unfold refuse, is_cmp.
  destruct (compareScalar x l) as [[| |]|] eqn:Ec.
  - apply compareScalar_Eq in Ec as ->; try done. rewrite bool_decide_eq_false_2, bool_decide_eq_true_2 by done.
    cbn [orb andb]. destruct li; [done|]. by destruct (above_self l) as [_ E]; rewrite E in Hl.
  - by rewrite !bool_decide_eq_false_2.
  - exfalso. eapply below_irrefl, Hl. by apply compareScalar_Gt.
  - by rewrite !bool_decide_eq_false_2.
Qed.

Lemma check_eq_ins_sound x sets : scalar x = true -> Forall all_scalar sets -> Forall (fun set => x ∈ set) sets ->
  check_eq_ins x sets = inr tt.
Proof.
  intros Hx. induction 1 as [|set sets Hset _ IH]; [done|]. intros [Hin Hrest]%Forall_cons. cbn [check_eq_ins].
  destruct (in_set_scalar x set Hx Hset) as (b & -> & Hb). rewrite (proj2 Hb Hin). by apply IH.
Qed.

Lemma intersect_step_spec acc set : all_scalar acc -> all_scalar set ->
  exists next, intersect_step acc set = inr next /\ all_scalar next /\ forall x, x ∈ next <-> x ∈ acc /\ x ∈ set.
Proof.
  intros Ha Hset. induction Ha as [|a acc Hsa _ (next & IH & Hn & Hx)]; cbn [intersect_step].
  { exists []. split; [done|]. split; [constructor|]. intros x. rewrite elem_of_nil. tauto. }
  destruct (in_set_scalar a set Hsa Hset) as (b & -> & Hb). rewrite IH. cbn [rbind]. destruct b.
  - exists (a :: next). split; [done|]. split; [by constructor|]. intros x. rewrite !elem_of_cons, Hx.
    assert (a ∈ set) by by apply Hb. split; [|tauto]. intros [->|[? ?]]; tauto.
  - exists next. split; [done|]. split; [done|]. intros x. rewrite elem_of_cons, Hx.
    split; [tauto|]. intros [[->|?] Hin]; [|tauto]. by discriminate (proj2 Hb Hin).
Qed.

Lemma intersect_from_sound x sets : forall acc, Forall all_scalar sets -> all_scalar acc ->
  x ∈ acc -> Forall (fun set => x ∈ set) sets -> exists out, intersect_from acc sets = inr out /\ x ∈ out.
Proof.
  induction sets as [|set sets IH]; intros acc Hs Ha Hx Hall; [by exists acc|].
  apply Forall_cons in Hs as [Hset Hs], Hall as [Hin Hall]. cbn [intersect_from].
  destruct (intersect_step_spec acc set Ha Hset) as (next & -> & Hn & Hmem). cbn [rbind].
  apply IH; [done|done|by apply Hmem|done].
Qed.

Lemma check_group_sound x g : group_scalar g -> group_holds g x -> check_group g = inr tt.
Proof.
  intros Hs Hh. pose proof Hs as (Hse & Hsi & _). pose proof Hh as (He & Hi & _). unfold check_group.
  assert (H1 : match eqs g with e :: others => eqs_agree e others | [] => inr tt end = inr tt).
  { destruct (eqs g) as [|e others]; [done|]. apply Forall_cons in Hse as [? ?], He as [? ?].
    by eapply eqs_agree_sound. }
  rewrite H1, (check_interval_sound x) by done. cbn [rbind].
  assert (H2 : match eqs g with
    | eq :: _ => if is_undefined eq then inr tt
                 else rbind (check_eq_lo eq g) (fun _ => rbind (check_eq_hi eq g) (fun _ => check_eq_ins eq (ins g)))
    | [] => inr tt end = inr tt).
  { destruct (eqs g) as [|e others]; [done|]. apply Forall_cons in Hse as [Hx _], He as [-> _].
    destruct (is_undefined x); [done|]. rewrite check_eq_lo_sound, check_eq_hi_sound by done. cbn [rbind].
    by apply check_eq_ins_sound. }
  rewrite H2. cbn [rbind]. destruct (Nat.ltb_spec 1 (length (ins g))) as [Hlen|]; [|done].
  destruct (ins g) as [|s sets]; [simpl in Hlen; lia|]. apply Forall_cons in Hsi as [? ?], Hi as [? ?].
  destruct (intersect_from_sound x sets s) as (out & Hout & Hin); try done. cbn [intersectInSets].
  rewrite Hout. cbn [rbind]. destruct out; [by apply elem_of_nil in Hin|done].
Qed.

Lemma check_groups_sound gs doc : groups_scalar gs -> groups_hold gs doc -> check_groups gs = inr tt.
Proof.
  unfold groups_scalar, groups_hold. induction 1 as [|[f g] gs Hg _ IH]; [done|]. intros [Hh Hhs]%Forall_cons.
  cbn [check_groups]. rewrite (check_group_sound (lookupPath doc f) g Hg Hh). by apply IH.
Qed.

Lemma satisfiable_complete wire doc : Forall (fun c => scalar_clause c = true) wire ->
  matchesWire wire doc = Some true -> assertWireSatisfiable wire = inr tt.
Proof.
  intros Hw Hm. unfold assertWireSatisfiable, groupByField.
  pose proof (group_from_spec wire [] ltac:(constructor) Hw) as H.
  destruct (group_from [] wire) as [e|gs]; cbn [refines rbind] in *.
  - destruct (H doc); [constructor|done].
  - destruct H as [Hs H]. apply (check_groups_sound gs doc); [done|]. apply H. split; [constructor|done].
Qed.

(** ** Theorems *)

(** C27: The satisfiability check never refuses a satisfiable predicate: when it rejects a
    wire of scalar operands (with [InvalidConfig] for conflicting equalities or with
    [UnsatisfiablePredicate]), no document matches the wire. *)
Theorem unsatisfiable_matches_nothing wire e : Forall (fun c => scalar_clause c = true) wire ->
  assertWireSatisfiable wire = inl e -> forall doc, matchesWire wire doc = Some false.
Proof.
  intros Hw He doc. destruct (scalar_wire_total wire doc Hw) as [[|] Hm]; [|done].
  by rewrite (satisfiable_complete wire doc Hw Hm) in He.
Qed.

(** The AND-merge of two predicates accepts a document exactly when both do; for
    scalar operands a refused merge means that no document satisfies both. *)
Theorem merge_is_conjunction a b :
  match mergePredicateWires a b with
  | inr m => forall doc, matchesWire m doc = Some true <-> matchesWire a doc = Some true /\ matchesWire b doc = Some true
  | inl _ => Forall (fun c => scalar_clause c = true) (a ++ b) ->
      forall doc, ~ (matchesWire a doc = Some true /\ matchesWire b doc = Some true)
  end.
Proof.
  assert (Happ : forall doc, matchesWire (a ++ b) doc = Some true <->
    matchesWire a doc = Some true /\ matchesWire b doc = Some true) by (intros; by rewrite !matchesWire_true, Forall_app).
  unfold mergePredicateWires. destruct (assertWireSatisfiable (a ++ b)) as [e|[]] eqn:E; [|exact Happ].
  intros Hs doc Hm%Happ. by rewrite (satisfiable_complete _ _ Hs Hm) in E.
Qed.

Lemma unsatisfiable_matches_nothing_witness :
  matchesWire [Clause op_gt (js "x") (JNum (num_of_Z 10)); Clause op_lt (js "x") (JNum (num_of_Z 5))]
    [(js "x", JNum (num_of_Z 7))] = Some false.
Proof.
  eapply (unsatisfiable_matches_nothing
    [Clause op_gt (js "x") (JNum (num_of_Z 10)); Clause op_lt (js "x") (JNum (num_of_Z 5))]).
  - repeat constructor.
  - vm_compute. reflexivity.
Defined.

(** The check also refuses satisfiable wires, when operands are nested objects: [eq] on an
    object is an open-world match, but the check compares the operands for equality. *)
Lemma satisfiable_objects_refused :
  let wire := [Clause op_eq (js "n") (JObj [(js "a", JNum (num_of_Z 1)); (js "b", JNum (num_of_Z 2))]);
               Clause op_in (js "n") (JArr [JObj [(js "a", JNum (num_of_Z 1))]])] in
  assertWireSatisfiable wire = inl (new_error UnsatisfiablePredicate) /\
  matchesWire wire [(js "n", JObj [(js "a", JNum (num_of_Z 1)); (js "b", JNum (num_of_Z 2))])] = Some true.
Proof. split; vm_compute; reflexivity. Qed.

Lemma merge_is_conjunction_witness :
  ~ (matchesWire [Clause op_eq (js "x") (JStr (js "a"))] [(js "x", JStr (js "a"))] = Some true /\
     matchesWire [Clause op_eq (js "x") (JStr (js "b"))] [(js "x", JStr (js "a"))] = Some true).
Proof.
  apply (merge_is_conjunction [Clause op_eq (js "x") (JStr (js "a"))] [Clause op_eq (js "x") (JStr (js "b"))]).
  repeat constructor.
Defined.
