(* ===== verification/Validate.v ===== *)
(** * Wire validation (protocol/src/query/validate.ts)

    The check of a predicate that arrives as arbitrary JSON: the shape of every clause,
    then the satisfiability of the groups.  A validated wire is returned as the typed
    clauses the rest of the algebra works on. *)
From S2P Require Import Prelude JsText JsValue Errors Json Storage Predicate Satisfiable.
Local Open Scope result_scope.

Definition op_name (op : PredicateOpName) : jsstr :=
  js match op with
     | op_eq => "eq" | op_gt => "gt" | op_gte => "gte" | op_lt => "lt" | op_lte => "lte" | op_in => "in"
     end%string.

Definition OP_NAMES : list PredicateOpName := [op_eq; op_gt; op_gte; op_lt; op_lte; op_in].

Definition parse_op (v : jsval) : option PredicateOpName :=
  match v with
  | JStr s => head (base.filter (fun op => op_name op = s) OP_NAMES)
  | _ => None
  end.

(** A field a predicate may key on. *)
Definition field_allowed (field : jsstr) : bool :=
  negb (bool_decide (field = [])) && negb (bool_decide (field = js "_id")) && negb (starts_with (js "_id.") field).

(** [validateMemberValue] and [validateScalar]: a finite scalar or an object. *)
Definition validateScalar (value : jsval) : bool :=
  match value with JStr _ | JBool _ | JObj _ => true | JNum n => is_finite n | _ => false end.

Definition validateRangeBound (value : jsval) : bool :=
  match value with JStr _ => true | JNum n => is_finite n | _ => false end.

Definition validateClause (clause : jsval) : result PredicateClause :=
  match clause with
  | JObj c =>
    match parse_op (js_get c (js "op")) with
    | None => throw InvalidConfig
    | Some op =>
      match js_get c (js "field") with
      | JStr field =>
        if negb (field_allowed field) then throw InvalidConfig
        else
          let value := js_get c (js "value") in
          let accept (b : bool) := if b then inr (Clause op field value) else throw InvalidConfig in
          match op, value with
          | op_in, JArr [] => throw UnsatisfiablePredicate
          | op_in, JArr members => accept (forallb validateScalar members)
          | op_in, _ => throw InvalidConfig
          | op_eq, _ => accept (validateScalar value)
          | _, _ => accept (validateRangeBound value)
          end
      | _ => throw InvalidConfig
      end
    end
  | _ => throw InvalidConfig
  end.

Fixpoint validateClauses (clauses : list jsval) : result PredicateWire :=
  match clauses with
  | [] => inr []
  | c :: clauses => let? c := validateClause c in
                    let? wire := validateClauses clauses in
                    inr (c :: wire)
  end.

Definition validateWire (wire : jsval) : result PredicateWire :=
  match wire with
  | JObj w =>
    match js_get w (js "clauses") with
    | JArr clauses =>
      let? wire := validateClauses clauses in
      let? _ := assertWireSatisfiable wire in
      inr wire
    | _ => throw InvalidConfig
    end
  | _ => throw InvalidConfig
  end.

(** ** The wire as JSON *)

Definition clause_json (c : PredicateClause) : jsval :=
  JObj [(js "op", JStr (op_name (clause_op c))); (js "field", JStr (clause_field c)); (js "value", clause_value c)].

Definition wire_json (w : PredicateWire) : jsval := JObj [(js "clauses", JArr (clause_json <$> w))].

(** ** Well-formed clauses *)

Definition valid_clause (c : PredicateClause) : bool :=
  field_allowed (clause_field c) &&
  match clause_op c with
  | op_in => match clause_value c with JArr (m :: ms) => forallb validateScalar (m :: ms) | _ => false end
  | op_eq => validateScalar (clause_value c)
  | _ => validateRangeBound (clause_value c)
  end.

Lemma parse_op_name op : parse_op (JStr (op_name op)) = Some op.
Proof. by destruct op; vm_compute. Qed.

Lemma validateClause_valid v c : validateClause v = inr c -> valid_clause c = true.
Proof.
  unfold validateClause, valid_clause. destruct v as [| | | | | |o|]; try done.
  destruct (parse_op _) as [op|]; [|done]. destruct (js_get o (js "field")) as [| | | |f| | |]; try done.
  destruct (field_allowed f) eqn:Ef; [|done]. cbn [negb].
  destruct op, (js_get o (js "value")) as [| |b|n|s|[|m ms]|p|x] eqn:Ev; cbn beta iota zeta; try done;
    try (case_match eqn:E; [|done]); intros [= <-]; cbn [clause_field clause_op clause_value]; by rewrite Ef.
Qed.

Lemma validateClause_json c : valid_clause c = true -> validateClause (clause_json c) = inr c.
Proof.
  unfold valid_clause. intros [Hf Hv]%andb_true_iff. destruct c as [op f v]. cbn [clause_field clause_op clause_value] in *.
  unfold validateClause, clause_json. cbn [clause_field clause_op clause_value].
  assert (H1 : js_get [(js "op", JStr (op_name op)); (js "field", JStr f); (js "value", v)] (js "op") = JStr (op_name op)) by done.
  assert (H2 : js_get [(js "op", JStr (op_name op)); (js "field", JStr f); (js "value", v)] (js "field") = JStr f) by done.
  assert (H3 : js_get [(js "op", JStr (op_name op)); (js "field", JStr f); (js "value", v)] (js "value") = v) by done.
  rewrite H1, H2, H3, parse_op_name, Hf. cbn [negb]. cbn zeta.
  destruct op; try (by rewrite Hv). destruct v as [| | | | |[|m ms]| |]; try done. by rewrite Hv.
Qed.

Lemma validateClauses_valid cs w : validateClauses cs = inr w -> Forall (fun c => valid_clause c = true) w.
Proof.
  revert w. induction cs as [|c cs IH]; intros w; cbn [validateClauses]; [intros [= <-]; constructor|].
  destruct (validateClause c) as [e|c'] eqn:Ec; [done|]. cbn [rbind].
  destruct (validateClauses cs) as [e|w']; [done|]. intros [= <-]. constructor; [by eapply validateClause_valid|by apply IH].
Qed.

Lemma validateClauses_json w : Forall (fun c => valid_clause c = true) w -> validateClauses (clause_json <$> w) = inr w.
Proof.
  induction 1 as [|c w Hc _ IH]; [done|]. rewrite fmap_cons. cbn [validateClauses].
  by rewrite validateClause_json, IH.
Qed.

(** ** Evaluation of a validated wire *)

(** No [null] inside the operand. *)
Fixpoint null_free (v : jsval) : bool :=
  match v with
  | JNull => false
  | JArr l => forallb null_free l
  | JObj o => forallb (fun kv => null_free kv.2) o
  | _ => true
  end.

Lemma matchesEq_total v : null_free v = true -> forall a, exists b, matchesEq v a = Some b.
Proof.
  induction v as [| |b|n|s|l IH|o IH|x] using jsval_nested_ind; intros Hn a; try done; try (by eexists).
  - cbn [matchesEq]. destruct a; try by eexists. generalize O as i. revert Hn. cbn [null_free].
    induction IH as [|v l Hv _ IH]; intros Hn i; [by eexists|]. cbn [forallb] in Hn. apply andb_true_iff in Hn as [H1 H2].
    destruct (is_undefined v); [by apply IH|]. destruct (Hv H1 (js_get o (index_key i))) as [[|] ->]; [by apply IH|by eexists].
  - cbn [matchesEq]. destruct a as [| | | | | |a|]; try by eexists. revert Hn. cbn [null_free].
    induction IH as [|[k v] l Hv _ IH]; intros Hn; [by eexists|]. cbn [forallb snd] in *. apply andb_true_iff in Hn as [H1 H2].
    destruct (is_undefined v); [by apply IH|]. destruct (Hv H1 (js_get a k)) as [[|] ->]; [by apply IH|by eexists].
Qed.

Lemma matchesIn_total l : forallb null_free l = true -> forall a, exists b, matchesIn l a = Some b.
Proof.
  induction l as [|m l IH]; intros Hn a; [by eexists|]. cbn [forallb] in Hn. apply andb_true_iff in Hn as [H1 H2].
  cbn [matchesIn]. case_decide.
  - destruct (matchesEq_total m H1 a) as [[|] ->]; [by eexists|by apply IH].
  - cbn [mbind option_bind]. destruct (strict_eq m a); [by eexists|by apply IH].
Qed.

Lemma valid_wire_total w doc : Forall (fun c => valid_clause c = true) w ->
  Forall (fun c => null_free (clause_value c) = true) w -> exists b, matchesWire w doc = Some b.
Proof.
  induction 1 as [|c w Hc _ IH]; intros Hn; cbn [matchesWire]; [by eexists|]. apply Forall_cons in Hn as [Hn Hns].
  assert (Hm : exists b, matchesClause c (lookupPath doc (clause_field c)) = Some b).
  { unfold matchesClause. unfold valid_clause in Hc. apply andb_true_iff in Hc as [_ Hc].
    destruct (clause_op c); try (by eexists); [by apply matchesEq_total|].
    destruct (clause_value c); try done. by apply matchesIn_total. }
  destruct Hm as [[|] ->]; [by apply IH|by eexists].
Qed.

(** ** What a wire must be *)

(** An operand of an equality or a member of a set: a finite scalar or an object. *)
Definition eq_operand (v : jsval) : Prop := match v with JStr _ | JBool _ | JObj _ => True | JNum n => is_finite n = true | _ => False end.

(** A range bound: a text or a finite number. *)
Definition range_operand (v : jsval) : Prop := match v with JStr _ => True | JNum n => is_finite n = true | _ => False end.

(** A clause on a field other than [_id] and its members, with an operand fit for its operator. *)
Definition well_formed_clause (c : PredicateClause) : Prop :=
  clause_field c <> [] /\ clause_field c <> js "_id" /\ (forall rest, clause_field c <> js "_id." ++ rest) /\
  match clause_op c with
  | op_in => exists m ms, clause_value c = JArr (m :: ms) /\ Forall eq_operand (m :: ms)
  | op_eq => eq_operand (clause_value c)
  | _ => range_operand (clause_value c)
  end.

(** The JSON of a clause, whatever other members it has. *)
Definition reads_as (v : jsval) (c : PredicateClause) : Prop := exists o, v = JObj o /\
  js_get o (js "op") = JStr (op_name (clause_op c)) /\ js_get o (js "field") = JStr (clause_field c) /\ js_get o (js "value") = clause_value c.

(** [v] is a wire of well-formed clauses that do not contradict each other. *)
Definition good_wire (v : jsval) (w : PredicateWire) : Prop :=
  (exists o cs, v = JObj o /\ js_get o (js "clauses") = JArr cs /\ Forall2 reads_as cs w) /\
  Forall well_formed_clause w /\ assertWireSatisfiable w = inr tt.

Lemma field_allowed_spec f : field_allowed f = true <-> f <> [] /\ f <> js "_id" /\ forall rest, f <> js "_id." ++ rest.
Proof.
  unfold field_allowed. rewrite !andb_true_iff, !negb_true_iff, !bool_decide_eq_false, <- not_true_iff_false, starts_with_spec. naive_solver.
Qed.

Lemma scalar_operand v : validateScalar v = true <-> eq_operand v.
Proof. by destruct v. Qed.

Lemma bound_range_operand v : validateRangeBound v = true <-> range_operand v.
Proof. by destruct v. Qed.

Lemma members_operands l : forallb validateScalar l = true <-> Forall eq_operand l.
Proof. induction l as [|m l IH]; [by split|]. cbn [forallb]. by rewrite andb_true_iff, scalar_operand, IH, Forall_cons. Qed.

Lemma valid_clause_spec c : valid_clause c = true <-> well_formed_clause c.
Proof.
  unfold valid_clause, well_formed_clause. rewrite andb_true_iff, field_allowed_spec.
  assert (H : forall P Q R S T : Prop, (S <-> T) -> ((P /\ Q /\ R) /\ S <-> P /\ Q /\ R /\ T)) by tauto.
  apply H. clear H. destruct (clause_op c); rewrite ?scalar_operand, ?bound_range_operand; try done.
  split.
  - destruct (clause_value c) as [| | | | |[|m ms]| |]; try done. intros H%members_operands. by exists m, ms.
  - intros (m & ms & -> & H). by apply members_operands.
Qed.

Lemma parse_op_spec v op : parse_op v = Some op <-> v = JStr (op_name op).
Proof.
  split; [|intros ->; apply parse_op_name]. destruct v as [| | | |s| | |]; try done. unfold parse_op.
  destruct (base.filter _ OP_NAMES) as [|x l] eqn:E; [done|]. intros [= <-].
  assert (H : x ∈ base.filter (fun op => op_name op = s) OP_NAMES) by (rewrite E; left). apply list_elem_of_filter in H as [<- _]. done.
Qed.

Lemma validateClause_spec v c : validateClause v = inr c <-> reads_as v c /\ well_formed_clause c.
Proof.
  rewrite <- valid_clause_spec. split.
  - intros H. split; [|by eapply validateClause_valid]. unfold validateClause in H. destruct v as [| | | | | |o|]; try done. exists o. split; [done|].
    destruct (parse_op _) as [op|] eqn:Ep; [|done]. apply parse_op_spec in Ep.
    destruct (js_get o (js "field")) as [| | | |f| | |]; try done. destruct (negb (field_allowed f)); [done|].
    assert (c = Clause op f (js_get o (js "value"))) as ->; [|done].
    destruct op, (js_get o (js "value")) as [| |b|n|s|[|m ms]|p|x]; cbn beta iota zeta in H; try done; try (case_match; [|done]); by injection H as <-.
  - intros [(o & -> & Eo & Ef & Ev) Hv]. pose proof (validateClause_json c Hv) as H. unfold validateClause, clause_json in H |- *.
    rewrite Eo, Ef, Ev. exact H.
Qed.

Lemma validateClauses_spec cs w : validateClauses cs = inr w <-> Forall2 reads_as cs w /\ Forall well_formed_clause w.
Proof.
  revert w. induction cs as [|c cs IH]; intros w; cbn [validateClauses].
  - split; [intros [= <-]; by split|]. by intros [->%Forall2_nil_inv_l _].
  - split.
    + destruct (validateClause c) as [e|c'] eqn:Ec; [done|]. apply validateClause_spec in Ec as [Hr Hw]. cbn [rbind].
      destruct (validateClauses cs) as [e|w']; [done|]. intros [= <-]. destruct (proj1 (IH w') eq_refl). by split; constructor.
    + intros [(c' & w' & Hr & Hrs & ->)%Forall2_cons_inv_l [Hw Hws]%Forall_cons].
      rewrite (proj2 (validateClause_spec c c')) by done. cbn [rbind]. by rewrite (proj2 (IH w')).
Qed.

(** ** Theorems *)

(** C30: The wire validator returns [w] exactly when the JSON it is given is a wire whose
    clauses read as those of [w], are well formed (a field that is not [_id] or below it, an
    operand fit for the operator) and pass the satisfiability check; such a wire passes
    again as its own JSON, and evaluates on every document unless an operand holds [null]. *)
Theorem validateWire_exact v w : (validateWire v = inr w <-> good_wire v w) /\
  (good_wire v w -> validateWire (wire_json w) = inr w /\
     (Forall (fun c => null_free (clause_value c) = true) w -> forall doc, exists b, matchesWire w doc = Some b)).
Proof.
  assert (Hvalid : forall w, Forall well_formed_clause w -> Forall (fun c => valid_clause c = true) w).
  { intros w' H. eapply Forall_impl; [exact H|]. intros c. apply valid_clause_spec. }
  split; [split|].
  - unfold validateWire. destruct v as [| | | | | |o|]; try done. destruct (js_get o _) as [| | | | |cs| |] eqn:Eo; try done.
    destruct (validateClauses cs) as [e|w'] eqn:Ec; [done|]. cbn [rbind]. apply validateClauses_spec in Ec as [Hr Hw].
    destruct (assertWireSatisfiable w') as [e|[]] eqn:Es; [done|]. intros [= <-]. split; [by exists o, cs|done].
  - intros [(o & cs & -> & Eo & Hr) [Hw Hs]]. unfold validateWire. rewrite Eo, (proj2 (validateClauses_spec cs w)) by done. cbn [rbind].
    by rewrite Hs.
  - intros [_ [Hw Hs]]. split; [|intros Hn doc; by apply valid_wire_total; [apply Hvalid|]].
    unfold validateWire, wire_json. assert (H : js_get [(js "clauses", JArr (clause_json <$> w))] (js "clauses") =
      JArr (clause_json <$> w)) by done. rewrite H, validateClauses_json by (by apply Hvalid). cbn [rbind]. by rewrite Hs.
Qed.

Definition sample_wire : PredicateWire :=
  [Clause op_eq (js "status") (JStr (js "open")); Clause op_gte (js "n") (JNum (num_of_Z 1));
   Clause op_in (js "p") (JArr [JStr (js "p1"); JBool true])].

(** The same wire with a member the validator does not read. *)
Definition sent_wire : jsval :=
  JObj [(js "v", JNum (num_of_Z 2)); (js "clauses", JArr (clause_json <$> sample_wire))].

Lemma sample_wire_good : good_wire sent_wire sample_wire.
Proof.
  split; [|split; [|vm_compute; reflexivity]].
  - eexists _, _. split; [reflexivity|]. split; [reflexivity|]. repeat constructor; eexists; repeat split.
  - apply (Forall_impl (fun c => valid_clause c = true)); [|intros c; apply valid_clause_spec]. repeat constructor.
Qed.

Lemma validateWire_exact_witness :
  validateWire sent_wire = inr sample_wire /\ validateWire (wire_json sample_wire) = inr sample_wire /\
  exists b, matchesWire sample_wire [(js "status", JStr (js "open"))] = Some b.
Proof.
  destruct (validateWire_exact sent_wire sample_wire) as [Hiff Hpass]. split; [apply Hiff, sample_wire_good|].
  destruct (Hpass sample_wire_good) as [H Ht]. split; [exact H|]. apply Ht. repeat constructor.
Defined.

(** A [null] inside an object operand passes validation and makes the matcher throw. *)
Lemma validated_null_throws :
  let w := [Clause op_eq (js "a") (JObj [(js "b", JNull)])] in
  validateWire (wire_json w) = inr w /\ matchesWire w [(js "a", JObj [(js "b", JObj [])])] = None.
Proof. split; vm_compute; reflexivity. Qed.
