(* ===== verification/Implies.v ===== *)
(** * Filtered-index implication (server/src/query-planner-implies.ts)

    Whether every document a query accepts is accepted by an index filter.  The order
    [<] of the language is exact on two strings and on numbers and booleans; what it
    does with other operands ([mixed_lt]: a string against a number, or objects) depends
    on the language's conversions and is left open, as the algebra never relies on it. *)
From S2P Require Import Prelude JsText JsValue Errors Json Storage Predicate Satisfiable Validate.
Local Open Scope Z_scope.
Local Open Scope result_scope.

(** One field's clauses, collapsed; [JUndef] is an absent [eq]. *)
Record OperatorBundle := Bundle {
  b_eq : jsval;
  b_lo : option range_bound;
  b_hi : option range_bound;
  b_in : option (list jsval)
}.

(** ** Grouping *)

Fixpoint add_to_bucket (groups : list (jsstr * list PredicateClause)) (clause : PredicateClause) :
    list (jsstr * list PredicateClause) :=
  match groups with
  | [] => [(clause_field clause, [clause])]
  | (field, bucket) :: rest =>
    if decide (field = clause_field clause) then (field, bucket ++ [clause]) :: rest
    else (field, bucket) :: add_to_bucket rest clause
  end.

Definition bucketByField (wire : PredicateWire) : list (jsstr * list PredicateClause) :=
  foldl add_to_bucket [] wire.

Section implies.
Context (mixed_lt : jsval -> jsval -> bool).

Definition to_number (v : jsval) : option jsnum :=
  match v with
  | JNum n => Some n
  | JBool b => Some (num_of_Z (if b then 1 else 0))
  | _ => None
  end.

(** [a < b] *)
Definition js_lt (a b : jsval) : bool :=
  match a, b with
  | JStr x, JStr y => str_ltb x y
  | _, _ => match to_number a, to_number b with
            | Some m, Some n => num_ltb m n
            | _, _ => mixed_lt a b
            end
  end.

(** [a > b] is [b < a]: the mirrored functions differ by the order alone. *)
Definition js_gt (a b : jsval) : bool := js_lt b a.

Section side.
(** [past a b]: [a] is past [b], towards the stricter bounds of this side. *)
Context (past : jsval -> jsval -> bool).

Definition tightest (existing : option range_bound) (next : range_bound) : range_bound :=
  match existing with
  | None => next
  | Some existing =>
    if negb (bool_decide (typeof (bound_value existing) = typeof (bound_value next))) then existing
    else if past (bound_value next) (bound_value existing) then next
    else if past (bound_value existing) (bound_value next) then existing
    else if negb (inclusive next) && inclusive existing then next
    else existing
  end.

Definition boundImplies (f : range_bound) (q : option range_bound) : bool :=
  match q with
  | None => false
  | Some q =>
    if negb (bool_decide (typeof (bound_value f) = typeof (bound_value q))) then false
    else if past (bound_value q) (bound_value f) then true
    else if past (bound_value f) (bound_value q) then false
    else if inclusive f then true
    else negb (inclusive q)
  end.

(** The loosest member of an [in] set: the bound the set establishes. *)
Definition loosest (members : list jsval) (first : jsval) : jsval :=
  foldl (fun acc v => if past acc v then v else acc) first members.

Definition boundFromQuery (q : OperatorBundle) (own : option range_bound) : option range_bound :=
  if negb (is_undefined (b_eq q)) then Some (Bound (b_eq q) true)
  else match b_in q with
       | Some (v :: vs) => Some (Bound (loosest (v :: vs) v) true)
       | _ => own
       end.
End side.

Definition tightestLo := tightest js_gt.
Definition tightestHi := tightest js_lt.
Definition lowerBoundImplies := boundImplies js_gt.
Definition upperBoundImplies := boundImplies js_lt.
Definition loFromQuery (q : OperatorBundle) := boundFromQuery js_gt q (b_lo q).
Definition hiFromQuery (q : OperatorBundle) := boundFromQuery js_lt q (b_hi q).

(** One clause into the bundle; [None] is the unknown shape. *)
Definition decode_clause (bundle : OperatorBundle) (clause : PredicateClause) : option OperatorBundle :=
  let v := clause_value clause in
  let set_lo i := Some (Bundle (b_eq bundle) (Some (tightestLo (b_lo bundle) (Bound v i))) (b_hi bundle) (b_in bundle)) in
  let set_hi i := Some (Bundle (b_eq bundle) (b_lo bundle) (Some (tightestHi (b_hi bundle) (Bound v i))) (b_in bundle)) in
  match clause_op clause with
  | op_eq => Some (Bundle v (b_lo bundle) (b_hi bundle) (b_in bundle))
  | op_gte => set_lo true
  | op_gt => set_lo false
  | op_lte => set_hi true
  | op_lt => set_hi false
  | op_in => match b_in bundle, v with
             | None, JArr members => Some (Bundle (b_eq bundle) (b_lo bundle) (b_hi bundle) (Some members))
             | _, _ => None
             end
  end.

Fixpoint decode_from (bundle : OperatorBundle) (clauses : list PredicateClause) : option OperatorBundle :=
  match clauses with
  | [] => Some bundle
  | clause :: clauses => bundle ← decode_clause bundle clause; decode_from bundle clauses
  end.

Definition decodeGroup (clauses : list PredicateClause) : option OperatorBundle :=
  decode_from (Bundle JUndef None None None) clauses.

(** [set.some((m) => deepEqualDocumentValue(m, v))] *)
Fixpoint contains (set : list jsval) (v : jsval) : result bool :=
  match set with
  | [] => inr false
  | m :: set => let? r := deep_equal m v in if r : bool then inr true else contains set v
  end.

Fixpoint contains_all (set vs : list jsval) : result bool :=
  match vs with
  | [] => inr true
  | v :: vs => let? r := contains set v in if r : bool then contains_all set vs else inr false
  end.

(** The query bundle establishes the filter bundle's constraint. *)
Definition bundle_implies (f q : OperatorBundle) : result bool :=
  if negb (is_undefined (b_eq f)) then
    if is_undefined (b_eq q) then inr false else deep_equal (b_eq q) (b_eq f)
  else match b_in f with
       | Some set =>
         if negb (is_undefined (b_eq q)) then contains set (b_eq q)
         else match b_in q with Some vs => contains_all set vs | None => inr false end
       | None =>
         inr (match b_lo f with Some l => lowerBoundImplies l (loFromQuery q) | None => true end &&
              match b_hi f with Some h => upperBoundImplies h (hiFromQuery q) | None => true end)
       end.

Fixpoint implies_groups (filterGroups queryGroups : list (jsstr * list PredicateClause)) : result bool :=
  match filterGroups with
  | [] => inr true
  | (field, filterClauses) :: rest =>
    match decodeGroup filterClauses, own_get field queryGroups with
    | Some f, Some queryClauses =>
      match decodeGroup queryClauses with
      | Some q => let? r := bundle_implies f q in
                  if r : bool then implies_groups rest queryGroups else inr false
      | None => inr false
      end
    | _, _ => inr false
    end
  end.

Definition predicateImplies (indexFilterWire queryWire : PredicateWire) : result bool :=
  implies_groups (bucketByField indexFilterWire) (bucketByField queryWire).
End implies.

(** ** One field of a wire *)

Definition clauses_on (f : jsstr) (w : PredicateWire) : list PredicateClause :=
  base.filter (fun c => clause_field c = f) w.

(** The bounds a list of clauses sets, per side, and its other operands. *)
Definition lows (cs : list PredicateClause) : list range_bound :=
  omap (fun c => match clause_op c with
                 | op_gt => Some (Bound (clause_value c) false)
                 | op_gte => Some (Bound (clause_value c) true)
                 | _ => None end) cs.

Definition highs (cs : list PredicateClause) : list range_bound :=
  omap (fun c => match clause_op c with
                 | op_lt => Some (Bound (clause_value c) false)
                 | op_lte => Some (Bound (clause_value c) true)
                 | _ => None end) cs.

Definition eqs_of (cs : list PredicateClause) : list jsval :=
  omap (fun c => match clause_op c with op_eq => Some (clause_value c) | _ => None end) cs.

Definition ins_of (cs : list PredicateClause) : list (list jsval) :=
  omap (fun c => match clause_op c with op_in => Some (members c) | _ => None end) cs.

(** A clause holds by the part of it that bears on its side. *)
Lemma clauses_hold cs x : Forall (fun c => scalar_clause c = true) cs ->
  Forall (fun c => matchesClause c x = Some true) cs <->
  Forall (fun e => e = x) (eqs_of cs) /\ Forall (fun set => x ∈ set) (ins_of cs) /\
  Forall (above x) (lows cs) /\ Forall (below x) (highs cs).
Proof.
  induction 1 as [|c cs Hc _ IH]; [by repeat split|]. rewrite Forall_cons, IH.
  unfold matchesClause, scalar_clause, eqs_of, ins_of, lows, highs, above, below, members in *.
  cbn [omap list_omap]. destruct (clause_op c) eqn:E; cbn [bound_value inclusive];
    rewrite ?Forall_cons; cbn [bound_value inclusive]; rewrite ?Some_true; try tauto.
  - rewrite matchesEq_scalar, Some_true, strict_eq_scalar by done. tauto.
  - destruct (clause_value c) as [| | | | |l| |]; try done. pose proof (proj1 (forallb_Forall _ _) Hc) as Hl.
    rewrite matchesIn_scalar, Some_true, existsb_strict by done. tauto.
Qed.

(** ** Buckets *)

Lemma own_get_bucket gs c f : own_get f (add_to_bucket gs c) =
  if decide (clause_field c = f) then Some (default [] (own_get f gs) ++ [c]) else own_get f gs.
Proof.
  induction gs as [|[g b] gs IH]; cbn [add_to_bucket own_get].
  - by repeat case_decide.
  - repeat (case_decide; cbn [own_get]); subst; try done; try congruence. all: rewrite IH; by repeat case_decide.
Qed.

Lemma own_get_buckets w f : own_get f (bucketByField w) =
  match clauses_on f w with [] => None | cs => Some cs end.
Proof.
  unfold bucketByField, clauses_on.
  assert (H : forall gs, own_get f (foldl add_to_bucket gs w) =
    match base.filter (fun c => clause_field c = f) w with
    | [] => own_get f gs
    | cs => Some (default [] (own_get f gs) ++ cs)
    end); [|by rewrite H; destruct (base.filter _ w)].
  induction w as [|c w IH]; intros gs; [done|]. cbn [foldl]. rewrite IH, filter_cons, own_get_bucket.
  case_decide; [|done]. destruct (base.filter _ w); [done|]. cbn [default from_option]. unfold id. by rewrite <- app_assoc.
Qed.

(** ** The Satisfiable groups, one field at a time *)

Fixpoint fold_field (g : FieldGroup) (cs : list PredicateClause) : result FieldGroup :=
  match cs with [] => inr g | c :: cs => let? g := applyClause g c in fold_field g cs end.

Definition group_of (gs : list (jsstr * FieldGroup)) (f : jsstr) : FieldGroup := default empty_group (own_get f gs).

Lemma apply_to_group gs c gs' : apply_to gs c = inr gs' ->
  exists g, applyClause (group_of gs (clause_field c)) c = inr g /\
    forall f, group_of gs' f = if decide (clause_field c = f) then g else group_of gs f.
Proof.
  revert gs'. unfold group_of. induction gs as [|[k g] gs IH]; intros gs'; cbn [apply_to own_get].
  - destruct (applyClause empty_group c) as [e|g] eqn:E; [done|]. cbn [rbind]. intros [= <-].
    exists g. split; [done|]. intros f. cbn [own_get]. by case_decide.
  - case_decide as Ek.
    + destruct (applyClause g c) as [e|g'] eqn:E; [done|]. cbn [rbind]. intros [= <-]. subst k.
      exists g'. split; [done|]. intros f. cbn [own_get]. by case_decide.
    + destruct (apply_to gs c) as [e|rest] eqn:E; [done|]. cbn [rbind]. intros [= <-].
      destruct (IH rest eq_refl) as (g' & Hg' & Hf). exists g'. split; [done|].
      intros f. cbn [own_get]. destruct (decide (k = f)) as [->|]; [by rewrite decide_False by congruence|exact (Hf f)].
Qed.

Lemma group_from_field w f : forall gs gs', group_from gs w = inr gs' ->
  fold_field (group_of gs f) (clauses_on f w) = inr (group_of gs' f).
Proof.
  unfold clauses_on. induction w as [|c w IH]; intros gs gs'; cbn [group_from]; [by intros [= ->]|].
  destruct (apply_to gs c) as [e|gs1] eqn:E; [done|]. cbn [rbind]. intros Hg%IH.
  destruct (apply_to_group _ _ _ E) as (g & Ha & Hf). rewrite Hf in Hg. rewrite filter_cons.
  case_decide; [|done]. cbn [fold_field]. subst f. by rewrite Ha.
Qed.

Lemma check_groups_of gs f : check_groups gs = inr tt -> check_group (group_of gs f) = inr tt.
Proof.
  unfold group_of. induction gs as [|[k g] gs IH]; cbn [check_groups own_get]; [done|].
  destruct (check_group g) as [e|[]] eqn:E; [done|]. cbn [rbind]. intros H. case_decide; [done|by apply IH].
Qed.

(** What a satisfiable wire guarantees of each field. *)
Lemma satisfiable_field w f : assertWireSatisfiable w = inr tt ->
  exists g, fold_field empty_group (clauses_on f w) = inr g /\ check_group g = inr tt.
Proof.
  unfold assertWireSatisfiable, groupByField. destruct (group_from [] w) as [e|gs] eqn:E; [done|].
  cbn [rbind]. intros H. exists (group_of gs f). split; [by apply (group_from_field w f [] gs)|by apply check_groups_of].
Qed.

Lemma fold_field_spec cs : forall g g', group_scalar g -> Forall (fun c => scalar_clause c = true) cs ->
  fold_field g cs = inr g' -> group_scalar g' /\ eqs g' = eqs g ++ eqs_of cs /\
  forall x, group_holds g' x <-> group_holds g x /\ Forall (fun c => matchesClause c x = Some true) cs.
Proof.
  induction cs as [|c cs IH]; intros g g' Hg Hcs; cbn [fold_field].
  - intros [= <-]. split; [done|]. split; [by rewrite app_nil_r|]. intros x. rewrite Forall_nil. tauto.
  - apply Forall_cons in Hcs as [Hc Hcs]. pose proof (applyClause_spec g c Hg Hc) as H.
    destruct (applyClause g c) as [e|g1] eqn:E; [done|]. cbn [rbind refines] in *. destruct H as [Hs H].
    intros Hf. destruct (IH g1 g' Hs Hcs Hf) as (Hs' & He & Hx). split; [done|]. split.
    + rewrite He. unfold eqs_of. cbn [omap list_omap]. unfold applyClause in E.
      destruct (clause_op c); try (injection E as <-; cbn [eqs]; by rewrite <- ?app_assoc).
      all: assert (eqs g1 = eqs g) as -> by (revert E; unfold tightenLower, tightenUpper;
        repeat case_match; intros [= <-]; done); done.
    + intros x. rewrite Hx, H, Forall_cons. tauto.
Qed.

(** ** The bounds of a satisfiable field have one type *)

Definition comparable (v : jsval) : Prop := sameComparableType v v = true.

Definition like (o : option range_bound) (v : jsval) : Prop :=
  exists l, o = Some l /\ sameComparableType (bound_value l) v = true.

Lemma like_trans o v w : like o v -> sameComparableType v w = true -> like o w.
Proof. intros (l & -> & H) Hw. exists l. split; [done|]. by eapply type_trans. Qed.

Lemma tightenLower_like g v i g' : comparable v -> tightenLower g v i = inr g' ->
  like (lo g') v /\ hi g' = hi g /\ forall w, like (lo g) w -> like (lo g') w.
Proof.
  intros Hv. unfold tightenLower. destruct (lo g) as [l|] eqn:El.
  - destruct (sameComparableType (bound_value l) v) eqn:Et; [|done]. cbn [negb].
    destruct (_ || _); intros [= <-]; cbn [set_lo lo hi].
    + split; [by eexists|]. split; [done|]. intros w (l' & [= <-] & Hw). eexists. split; [done|]. cbn [bound_value].
      eapply type_trans; [rewrite type_sym; exact Et|exact Hw].
    + rewrite El. split; [by exists l|]. split; [done|]. tauto.
  - intros [= <-]. cbn [set_lo lo hi]. split; [by eexists|]. split; [done|]. by intros w (l & ? & _).
Qed.

Lemma tightenUpper_like g v i g' : comparable v -> tightenUpper g v i = inr g' ->
  like (hi g') v /\ lo g' = lo g /\ forall w, like (hi g) w -> like (hi g') w.
Proof.
  intros Hv. unfold tightenUpper. destruct (hi g) as [l|] eqn:El.
  - destruct (sameComparableType (bound_value l) v) eqn:Et; [|done]. cbn [negb].
    destruct (_ || _); intros [= <-]; cbn [set_hi lo hi].
    + split; [by eexists|]. split; [done|]. intros w (l' & [= <-] & Hw). eexists. split; [done|]. cbn [bound_value].
      eapply type_trans; [rewrite type_sym; exact Et|exact Hw].
    + rewrite El. split; [by exists l|]. split; [done|]. tauto.
  - intros [= <-]. cbn [set_hi lo hi]. split; [by eexists|]. split; [done|]. by intros w (l & ? & _).
Qed.

Lemma applyClause_like g c g' : valid_clause c = true -> applyClause g c = inr g' ->
  (forall w, like (lo g) w -> like (lo g') w) /\ (forall w, like (hi g) w -> like (hi g') w) /\
  Forall (fun b => like (lo g') (bound_value b)) (lows [c]) /\ Forall (fun b => like (hi g') (bound_value b)) (highs [c]).
Proof.
  unfold valid_clause, applyClause, lows, highs. cbn [omap list_omap]. intros [_ Hv]%andb_true_iff.
  assert (Hr : validateRangeBound (clause_value c) = true -> comparable (clause_value c)) by by destruct (clause_value c).
  destruct (clause_op c); intros Hg; try (injection Hg as <-; cbn [lo hi]; by repeat split).
  1,2: destruct (tightenLower_like _ _ _ _ (Hr Hv) Hg) as (H1 & H2 & H3); rewrite H2; repeat split; try done; by constructor.
  all: destruct (tightenUpper_like _ _ _ _ (Hr Hv) Hg) as (H1 & H2 & H3); rewrite H2; repeat split; try done; by constructor.
Qed.

Lemma fold_field_like cs : forall g g', Forall (fun c => valid_clause c = true) cs -> fold_field g cs = inr g' ->
  (forall w, like (lo g) w -> like (lo g') w) /\ (forall w, like (hi g) w -> like (hi g') w) /\
  Forall (fun b => like (lo g') (bound_value b)) (lows cs) /\ Forall (fun b => like (hi g') (bound_value b)) (highs cs).
Proof.
  induction cs as [|c cs IH]; intros g g' Hv; cbn [fold_field]; [intros [= <-]; by repeat split|].
  apply Forall_cons in Hv as [Hc Hv]. destruct (applyClause g c) as [e|g1] eqn:E; [done|]. cbn [rbind]. intros Hf.
  destruct (applyClause_like _ _ _ Hc E) as (A1 & A2 & A3 & A4), (IH g1 g' Hv Hf) as (B1 & B2 & B3 & B4).
  assert (Hl : lows (c :: cs) = lows [c] ++ lows cs) by (unfold lows; cbn [omap list_omap]; by destruct (clause_op c)).
  assert (Hh : highs (c :: cs) = highs [c] ++ highs cs) by (unfold highs; cbn [omap list_omap]; by destruct (clause_op c)).
  rewrite Hl, Hh, !Forall_app. split; [auto|]. split; [auto|]. split; (split; [|done]).
  - eapply Forall_impl; [exact A3|]. auto.
  - eapply Forall_impl; [exact A4|]. auto.
Qed.

(** Bounds that are all comparable with each other. *)
Definition one_type (bs : list range_bound) : Prop :=
  forall b b', b ∈ bs -> b' ∈ bs -> sameComparableType (bound_value b) (bound_value b') = true.

Lemma like_one_type o bs : Forall (fun b => like o (bound_value b)) bs -> one_type bs.
Proof.
  rewrite Forall_forall. intros H b b' Hb Hb'. destruct (H b Hb) as (l & Hl & H1), (H b' Hb') as (l' & Hl' & H2).
  simplify_eq. eapply type_trans; [rewrite type_sym; exact H1|exact H2].
Qed.

(** With an equality the satisfiability check is exact: an accepted group holds at it. *)
Lemma check_group_eq g e others : group_scalar g -> eqs g = e :: others -> check_group g = inr tt -> group_holds g e.
Proof.
  intros (Hse & Hsi & Hsl & Hsh) Heq. unfold check_group. rewrite Heq in *. apply Forall_cons in Hse as [He Ho].
  assert (Hu : is_undefined e = false) by by destruct e. rewrite Hu.
  destruct (eqs_agree e others) as [?|[]] eqn:E1; [done|]. destruct (check_interval g) as [?|[]]; [done|]. cbn [rbind].
  destruct (check_eq_lo e g) as [?|[]] eqn:E2; [done|]. destruct (check_eq_hi e g) as [?|[]] eqn:E3; [done|].
  cbn [rbind]. destruct (check_eq_ins e (ins g)) as [?|[]] eqn:E4; [done|]. intros _.
  unfold group_holds. rewrite Heq. split; [|split; [|split]].
  - constructor; [done|]. clear -E1 He Ho. induction Ho as [|v others Hv _ IH]; [constructor|].
    cbn [eqs_agree] in E1. rewrite deep_equal_scalar in E1 by done. cbn [rbind] in E1.
    destruct (strict_eq e v) eqn:Es; [|done]. apply strict_eq_scalar in Es; [|done]. constructor; [done|by apply IH].
  - clear -E4 He Hsi. induction Hsi as [|set sets Hs _ IH]; [constructor|]. cbn [check_eq_ins] in E4.
    destruct (in_set_scalar e set He Hs) as (b & Hb & Hin). rewrite Hb in E4. cbn [rbind] in E4.
    destruct b; [|done]. constructor; [by apply Hin|by apply IH].
  - unfold check_eq_lo in E2. destruct (lo g) as [[l li]|]; [|done]. cbn [within bound_value inclusive] in *.
    unfold above. cbn [bound_value inclusive]. unfold refuse in E2. destruct (sameComparableType e l) eqn:Et; [|done].
    destruct (compareScalar_total e l He Hsl) as [c Hc]. rewrite Hc in E2. unfold is_cmp in E2. destruct c; cbn in E2.
    + apply compareScalar_Eq in Hc as ->; [|done..]. destruct li; [|done]. by destruct l; cbn in *; rewrite ?num_leb_refl_fin, ?str_leb_refl.
    + done.
    + apply compareScalar_Gt in Hc; [|done]. destruct li; [by apply above_loose|done].
  - unfold check_eq_hi in E3. destruct (hi g) as [[l li]|]; [|done]. cbn [within bound_value inclusive] in *.
    unfold below. cbn [bound_value inclusive]. unfold refuse in E3. destruct (sameComparableType e l) eqn:Et; [|done].
    destruct (compareScalar_total e l He Hsh) as [c Hc]. rewrite Hc in E3. unfold is_cmp in E3. destruct c; cbn in E3.
    + apply compareScalar_Eq in Hc as ->; [|done..]. destruct li; [|done]. by destruct l; cbn in *; rewrite ?num_leb_refl_fin, ?str_leb_refl.
    + apply compareScalar_Lt in Hc; [|done]. eapply below_loose_any, value_lt_below, Hc.
    + done.
Qed.

(** ** One side of the bounds *)

(** What the checker relies on of the order that runs towards the stricter bounds. *)
Class Side (past : jsval -> jsval -> bool) (holds : jsval -> jsval -> bool -> bool) := {
  side_type x v i : holds x v i = true -> sameComparableType x v = true;
  side_past x v w i j : sameComparableType v w = true -> past w v = true -> holds x w i = true -> holds x v j = true;
  side_loose x v : holds x v false = true -> holds x v true = true;
  side_self v : scalar v = true -> comparable v -> holds v v true = true;
  side_total v w : scalar v = true -> scalar w = true -> sameComparableType v w = true ->
    past v w = true \/ v = w \/ past w v = true
}.

Lemma value_lt_js mixed_lt v w : sameComparableType v w = true -> js_lt mixed_lt v w = true <-> value_lt v w.
Proof. unfold value_lt. by destruct v, w. Qed.

Lemma js_lt_total mixed_lt v w : scalar v = true -> scalar w = true -> sameComparableType v w = true ->
  js_lt mixed_lt v w = true \/ v = w \/ js_lt mixed_lt w v = true.
Proof.
  destruct v, w; try done; cbn [js_lt to_number scalar]; intros Hv Hw _.
  - destruct (num_ltb_total n n0 Hv Hw) as [?|[ -> |?]]; tauto.
  - destruct (str_ltb_total s s0) as [?|[ -> |?]]; tauto.
Qed.

Global Instance lower_side mixed_lt : Side (js_gt mixed_lt) compareGT.
Proof.
  split.
  - intros x v i H. exact (proj1 (above_type _ _ _ H)).
  - intros x v w i j Ht Hp. apply above_lt. by apply (value_lt_js mixed_lt).
  - apply above_loose.
  - intros v Hs Hc. destruct v; try done; cbn; by rewrite ?num_leb_refl_fin, ?str_leb_refl.
  - intros v w Hv Hw Ht. unfold js_gt. destruct (js_lt_total mixed_lt v w Hv Hw Ht) as [?|[?|?]]; tauto.
Qed.

Global Instance upper_side mixed_lt : Side (js_lt mixed_lt) compareLT.
Proof.
  split.
  - intros x v i H. exact (proj1 (below_type _ _ _ H)).
  - intros x v w i j Ht Hp. apply below_lt. apply (value_lt_js mixed_lt); [by rewrite type_sym|done].
  - apply below_loose.
  - intros v Hs Hc. destruct v; try done; cbn; by rewrite ?num_leb_refl_fin, ?str_leb_refl.
  - apply js_lt_total.
Qed.

Section side_facts.
Context (past : jsval -> jsval -> bool) (holds : jsval -> jsval -> bool -> bool) `{HS : !Side past holds}.

Definition holds_bound (x : jsval) (b : range_bound) : Prop := holds x (bound_value b) (inclusive b) = true.

Lemma same_typeof v w : sameComparableType v w = true -> typeof v = typeof w.
Proof. by destruct v, w. Qed.

Lemma typeof_comparable v w : comparable v -> typeof v = typeof w -> sameComparableType v w = true.
Proof. destruct v, w; try done; by destruct x. Qed.

Lemma tightest_holds x e n : scalar (bound_value e) = true -> scalar (bound_value n) = true ->
  sameComparableType (bound_value e) (bound_value n) = true -> holds_bound x (tightest past (Some e) n) ->
  holds_bound x e /\ holds_bound x n.
Proof.
  intros He Hn Ht. unfold holds_bound, tightest. rewrite bool_decide_eq_true_2 by by apply same_typeof. cbn [negb].
  destruct (past (bound_value n) (bound_value e)) eqn:E1.
  { intros H. split; [|done]. by eapply (side_past x _ (bound_value n)). }
  destruct (past (bound_value e) (bound_value n)) eqn:E2.
  { intros H. split; [done|]. eapply (side_past x _ (bound_value e)); [by rewrite type_sym|done..]. }
  assert (E : bound_value e = bound_value n).
  { destruct (side_total _ _ He Hn Ht) as [?|[?|?]]; congruence. }
  destruct (inclusive n) eqn:En, (inclusive e) eqn:Ee; cbn [negb andb]; rewrite ?En, ?Ee, ?E; intros H;
    split; try done; by apply side_loose.
Qed.

Lemma tightest_one e n : tightest past (Some e) n = e \/ tightest past (Some e) n = n.
Proof. unfold tightest. repeat case_match; tauto. Qed.

Definition fold_tightest (o : option range_bound) (bs : list range_bound) : option range_bound :=
  foldl (fun o b => Some (tightest past o b)) o bs.

(** The folded bound is one of the bounds, and it alone implies them all. *)
Lemma fold_tightest_spec bs : forall o b, fold_tightest o bs = Some b ->
  (o = Some b \/ b ∈ bs) /\
  forall x, one_type (option_list o ++ bs) -> Forall (fun b => scalar (bound_value b) = true) (option_list o ++ bs) ->
    holds_bound x b -> Forall (holds_bound x) (option_list o ++ bs).
Proof.
  induction bs as [|n bs IH]; intros o b; cbn [fold_tightest foldl].
  { intros ->. split; [by left|]. intros x _ _ Hb. cbn [option_list app]. by constructor. }
  intros Hf. destruct (IH _ _ Hf) as [Hin Hall]. split.
  - destruct Hin as [[= <-]|?]; [|right; by right]. destruct o as [e|]; [|right; left].
    destruct (tightest_one e n) as [-> | ->]; [by left|right; left].
  - intros x Ht Hs Hb. destruct o as [e|]; cbn [option_list app] in *.
    + set (t := tightest past (Some e) n) in *.
      assert (Hte : t = e \/ t = n) by apply tightest_one.
      assert (Hsub : forall c, c ∈ t :: bs -> c ∈ e :: n :: bs).
      { intros c [->|?]%elem_of_cons; [destruct Hte as [-> | ->]; set_solver|set_solver]. }
      assert (Hrest : Forall (holds_bound x) (t :: bs)).
      { apply Hall; [|rewrite Forall_forall in *; auto|done]. intros c c' Hc Hc'. apply Ht; auto. }
      apply Forall_cons in Hrest as [Htt Hrest]. rewrite Forall_forall in Hs.
      destruct (tightest_holds x e n) as [? ?]; [apply Hs; set_solver..|apply Ht; set_solver|done|].
      by repeat constructor.
    + by apply Hall.
Qed.

Lemma boundImplies_sound x f q : scalar (bound_value f) = true -> comparable (bound_value f) ->
  scalar (bound_value q) = true -> boundImplies past f (Some q) = true -> holds_bound x q -> holds_bound x f.
Proof.
  intros Hf Hc Hq. unfold boundImplies, holds_bound. destruct (bool_decide_reflect (typeof (bound_value f) = typeof (bound_value q))) as [Ht|]; [|done].
  cbn [negb]. apply typeof_comparable in Ht; [|done].
  destruct (past (bound_value q) (bound_value f)) eqn:E1.
  { intros _ H. by eapply (side_past x _ (bound_value q)). }
  destruct (past (bound_value f) (bound_value q)) eqn:E2; [done|].
  assert (E : bound_value f = bound_value q).
  { destruct (side_total _ _ Hf Hq Ht) as [?|[?|?]]; congruence. }
  rewrite E. destruct (inclusive f), (inclusive q); try done; intros _ H; by apply side_loose.
Qed.

(** Every member of a one-typed set is at or past the loosest. *)
Lemma loosest_spec ms : forall first, scalar first = true -> comparable first ->
  Forall (fun m => scalar m = true /\ sameComparableType first m = true) ms ->
  let l := loosest past ms first in
  scalar l = true /\ (forall x, holds x first true = true -> holds x l true = true) /\
  Forall (fun m => holds m l true = true) ms.
Proof.
  unfold loosest. induction ms as [|m ms IH]; intros first Hs Hc Hms; cbn [foldl]; [done|].
  apply Forall_cons in Hms as [[Hm Hty] Hms]. pose proof (type_sym m first) as Hsym. rewrite Hty in Hsym.
  assert (Hcm : comparable m) by (exact (type_trans _ _ _ Hsym Hty)).
  destruct (past first m) eqn:Ep.
  - destruct (IH m Hm Hcm) as (H1 & H2 & H3).
    { eapply Forall_impl; [exact Hms|]. intros m' [? Hm']. split; [done|]. exact (type_trans _ _ _ Hsym Hm'). }
    split; [done|]. split; [|constructor; [by apply H2, side_self|done]].
    intros x Hx. apply H2. by eapply (side_past x m first).
  - destruct (IH first Hs Hc Hms) as (H1 & H2 & H3). split; [done|]. split; [done|]. constructor; [|done].
    apply H2. destruct (side_total first m Hs Hm Hty) as [?|[<-|Hp]]; [congruence|by apply side_self|].
    eapply (side_past m first m); [done..|by apply side_self].
Qed.

Lemma loosest_in ms first : loosest past ms first = first \/ loosest past ms first ∈ ms.
Proof.
  unfold loosest. revert first. induction ms as [|m ms IH]; intros first; cbn [foldl]; [by left|].
  destruct (past first m), (IH m) as [H|H], (IH first) as [H'|H']; rewrite ?H, ?H'; set_solver.
Qed.

(** The members of an [in] set have one primitive type. *)
Definition homogeneous (ms : list jsval) : Prop := forall m m', m ∈ ms -> m' ∈ ms -> typeof m = typeof m'.

(** The bound a query establishes holds at what the query accepts. *)
Lemma query_bound_holds x q own qb : boundFromQuery past q own = Some qb -> comparable (bound_value qb) ->
  (b_eq q <> JUndef -> scalar (b_eq q) = true /\ b_eq q = x) ->
  (forall ms, b_in q = Some ms -> Forall (fun m => scalar m = true) ms /\ homogeneous ms /\ x ∈ ms) ->
  (forall b, own = Some b -> scalar (bound_value b) = true /\ holds_bound x b) ->
  scalar (bound_value qb) = true /\ holds_bound x qb.
Proof.
  unfold boundFromQuery. intros Hb Hc Heq Hin Hown. destruct (is_undefined (b_eq q)) eqn:Eu; cbn [negb] in Hb.
  2: { injection Hb as <-. cbn [bound_value] in *. destruct Heq as [Hs Hx]; [by intros E; rewrite E in Eu|].
       split; [done|]. unfold holds_bound. cbn [bound_value inclusive]. rewrite <- Hx. by apply side_self. }
  destruct (b_in q) as [[|v vs]|] eqn:Ei; [by apply Hown| |by apply Hown]. injection Hb as <-.
  destruct (Hin _ eq_refl) as (Hs & Hh & Hx). cbn [bound_value] in *. rewrite Forall_forall in Hs.
  assert (Hl : loosest past (v :: vs) v ∈ v :: vs) by (destruct (loosest_in (v :: vs) v) as [-> |?]; [left|done]).
  assert (Hv : comparable v).
  { pose proof (Hh _ _ Hl (list_elem_of_here v vs)) as Ht. revert Hc Ht. unfold comparable. destruct (loosest _ _ _), v; try done; by destruct x0. }
  destruct (loosest_spec (v :: vs) v) as (H1 & H2 & H3); [apply Hs; left|done| |].
  { apply Forall_forall. intros m Hm. split; [by apply Hs|]. apply typeof_comparable; [done|]. apply Hh; [left|done]. }
  split; [done|]. unfold holds_bound. cbn [bound_value inclusive]. rewrite Forall_forall in H3. by apply H3.
Qed.

Lemma boundImplies_comparable f q : comparable (bound_value f) -> boundImplies past f (Some q) = true ->
  comparable (bound_value q).
Proof.
  unfold boundImplies. intros Hc. case_bool_decide as Ht; [|done]. intros _. revert Hc Ht. unfold comparable.
  destruct (bound_value f), (bound_value q); try done; by destruct x.
Qed.
End side_facts.

(** ** Decoding *)

Section decode.
Context (mixed_lt : jsval -> jsval -> bool).

Lemma decode_from_spec cs : forall bundle b, Forall (fun c => valid_clause c = true) cs ->
  decode_from mixed_lt bundle cs = Some b ->
  b_lo b = fold_tightest (js_gt mixed_lt) (b_lo bundle) (lows cs) /\
  b_hi b = fold_tightest (js_lt mixed_lt) (b_hi bundle) (highs cs) /\
  b_eq b = default (b_eq bundle) (last (eqs_of cs)) /\
  option_list (b_in b) = option_list (b_in bundle) ++ ins_of cs.
Proof.
  induction cs as [|c cs IH]; intros bundle b Hv; cbn [decode_from].
  { intros [= <-]. cbn. by rewrite app_nil_r. }
  apply Forall_cons in Hv as [Hc Hv]. destruct (decode_clause mixed_lt bundle c) as [b1|] eqn:E; [|done].
  cbn [mbind option_bind]. intros Hd. destruct (IH b1 b Hv Hd) as (-> & -> & -> & ->). clear IH Hd.
  unfold decode_clause in E. unfold valid_clause in Hc. apply andb_true_iff in Hc as [_ Hc].
  unfold lows, highs, eqs_of, ins_of, members. cbn [omap list_omap].
  destruct (clause_op c); try (injection E as <-; by repeat split).
  - injection E as <-. cbn [b_lo b_hi b_eq b_in]. repeat split. rewrite last_cons. by destruct (last _).
  - destruct (b_in bundle) as [|]; [done|]. destruct (clause_value c) as [| | | | |l| |]; try done.
    injection E as <-. by repeat split.
Qed.

Lemma decodeGroup_spec cs b : Forall (fun c => valid_clause c = true) cs -> decodeGroup mixed_lt cs = Some b ->
  b_lo b = fold_tightest (js_gt mixed_lt) None (lows cs) /\
  b_hi b = fold_tightest (js_lt mixed_lt) None (highs cs) /\
  b_eq b = default JUndef (last (eqs_of cs)) /\ option_list (b_in b) = ins_of cs.
Proof. intros Hv Hd. exact (decode_from_spec cs _ b Hv Hd). Qed.

Lemma eqs_of_scalar cs : Forall (fun c => scalar_clause c = true) cs -> Forall (fun v => scalar v = true) (eqs_of cs).
Proof.
  induction 1 as [|c cs Hc _ IH]; [constructor|]. unfold eqs_of. cbn [omap list_omap]. unfold scalar_clause in Hc.
  destruct (clause_op c); try exact IH. by constructor.
Qed.

Lemma ins_of_scalar cs : Forall (fun c => scalar_clause c = true) cs ->
  Forall (fun set => Forall (fun v => scalar v = true) set) (ins_of cs).
Proof.
  induction 1 as [|c cs Hc _ IH]; [constructor|]. unfold ins_of, members. cbn [omap list_omap]. unfold scalar_clause in Hc.
  destruct (clause_op c); try exact IH. constructor; [|exact IH].
  destruct (clause_value c); try done. by apply forallb_Forall.
Qed.

Lemma bounds_ok cs : Forall (fun c => scalar_clause c = true /\ valid_clause c = true) cs ->
  Forall (fun b => scalar (bound_value b) = true /\ comparable (bound_value b)) (lows cs ++ highs cs).
Proof.
  induction 1 as [|c cs [Hc Hv] _ IH]; [constructor|]. apply Forall_app in IH as [IH1 IH2]. unfold lows, highs.
  cbn [omap list_omap]. unfold scalar_clause in Hc. unfold valid_clause in Hv. apply andb_true_iff in Hv as [_ Hv].
  assert (Hr : validateRangeBound (clause_value c) = true -> comparable (clause_value c)) by by destruct (clause_value c).
  apply Forall_app. destruct (clause_op c); (split; [first [exact IH1|constructor; [split; [done|by apply Hr]|exact IH1]]|
    first [exact IH2|constructor; [split; [done|by apply Hr]|exact IH2]]]).
Qed.

Lemma contains_scalar set v : Forall (fun m => scalar m = true) set -> scalar v = true ->
  contains set v = inr true -> v ∈ set.
Proof.
  intros Hs Hv. induction Hs as [|m set Hm _ IH]; [done|]. cbn [contains]. rewrite deep_equal_scalar by done.
  cbn [rbind]. destruct (strict_eq m v) eqn:E; [|intros H; right; by apply IH].
  intros _. apply strict_eq_scalar in E as ->; [left|done].
Qed.

Lemma contains_all_scalar set vs : Forall (fun m => scalar m = true) set -> Forall (fun m => scalar m = true) vs ->
  contains_all set vs = inr true -> Forall (fun v => v ∈ set) vs.
Proof.
  intros Hs. induction 1 as [|v vs Hv _ IH]; [constructor|]. cbn [contains_all].
  destruct (contains set v) as [e|[|]] eqn:E; [done| |done]. cbn [rbind]. intros H.
  constructor; [by apply contains_scalar|by apply IH].
Qed.

Definition clause_ok (c : PredicateClause) : Prop := scalar_clause c = true /\ valid_clause c = true.

(** A filter field with an [in] clause and no equality has no range. *)
Definition in_alone (cs : list PredicateClause) : Prop :=
  ins_of cs <> [] -> eqs_of cs <> [] \/ lows cs = [] /\ highs cs = [].

Lemma clause_ok_split cs : Forall clause_ok cs ->
  Forall (fun c => scalar_clause c = true) cs /\ Forall (fun c => valid_clause c = true) cs.
Proof. apply Forall_and. Qed.

Lemma last_eq_value cs d : Forall (fun v => scalar v = true) (eqs_of cs) ->
  default JUndef (last (eqs_of cs)) = d -> is_undefined d = false -> d ∈ eqs_of cs.
Proof.
  intros _. destruct (last (eqs_of cs)) as [v|] eqn:E; cbn; [|by intros <-].
  intros <- _. by apply last_Some_elem_of.
Qed.

(** An [eq] filter: the query pins the same value, at which the whole group holds. *)
Lemma eq_field_sound fc g x : Forall clause_ok fc -> fold_field empty_group fc = inr g -> check_group g = inr tt ->
  x ∈ eqs_of fc -> Forall (fun c => matchesClause c x = Some true) fc.
Proof.
  intros Hok Hf Hg Hx. destruct (clause_ok_split fc Hok) as [Hs _].
  destruct (fold_field_spec fc empty_group g (proj1 empty_group_spec) Hs Hf) as (Hsg & He & Hh).
  cbn [eqs empty_group app] in He. destruct (eqs_of fc) as [|e others] eqn:Ee; [by apply elem_of_nil in Hx|].
  pose proof (check_group_eq g e others Hsg He Hg) as Hge. apply Hh.
  assert (Hxe : x = e); [|by rewrite Hxe].
  destruct Hge as (Hall & _). rewrite He, Forall_forall in Hall. by apply Hall.
Qed.

(** One side of a range filter: the filter's folded bound implies all its bounds. *)
Lemma side_sound past holds `{!Side past holds} bs o x : one_type bs ->
  Forall (fun b => scalar (bound_value b) = true) bs ->
  match fold_tightest past None bs with Some b => holds_bound holds x b | None => o end -> 
  (fold_tightest past None bs = None -> bs = []) -> Forall (holds_bound holds x) bs.
Proof.
  intros Ht Hs Hb Hn. destruct (fold_tightest past None bs) as [b|] eqn:E; [|by rewrite Hn].
  destruct (fold_tightest_spec past holds bs None b E) as [_ H]. by apply H.
Qed.

Lemma fold_tightest_None past bs : fold_tightest past None bs = None -> bs = [].
Proof.
  destruct bs as [|b bs]; [done|]. unfold fold_tightest. cbn [foldl tightest].
  assert (H : forall bs o, foldl (fun o b => Some (tightest past o b)) (Some o) bs <> None); [|by intros ?%H].
  clear. induction bs as [|b bs IH]; intros o; [done|]. apply IH.
Qed.

(** A side of the filter that the query's bound implies. *)
Lemma range_side_sound past holds `{!Side past holds} bs q own x : one_type bs ->
  Forall (fun b => scalar (bound_value b) = true /\ comparable (bound_value b)) bs ->
  match fold_tightest past None bs with
  | Some b => boundImplies past b (boundFromQuery past q own)
  | None => true
  end = true ->
  (b_eq q <> JUndef -> scalar (b_eq q) = true /\ b_eq q = x) ->
  (forall ms, b_in q = Some ms -> Forall (fun m => scalar m = true) ms /\ homogeneous ms /\ x ∈ ms) ->
  (forall b, own = Some b -> scalar (bound_value b) = true /\ holds_bound holds x b) ->
  Forall (holds_bound holds x) bs.
Proof.
  intros Ht Hok Hb Heq Hin Hown. apply Forall_and in Hok as [Hs Hc].
  apply (side_sound past holds bs True x Ht Hs); [|apply fold_tightest_None].
  destruct (fold_tightest past None bs) as [b|] eqn:E; [|done].
  destruct (fold_tightest_spec past holds bs None b E) as [[?|Hbin] _]; [done|].
  rewrite Forall_forall in Hs, Hc. destruct (boundFromQuery past q own) as [qb|] eqn:Eq; [|done].
  pose proof (boundImplies_comparable past b qb (Hc _ Hbin) Hb) as Hcq.
  destruct (query_bound_holds past holds x q own qb Eq Hcq Heq Hin Hown) as [Hsq Hxq].
  by apply (boundImplies_sound past holds x b qb); auto.
Qed.

Lemma field_sound fc qc f q g x : Forall clause_ok fc -> Forall clause_ok qc ->
  fold_field empty_group fc = inr g -> check_group g = inr tt -> in_alone fc -> Forall homogeneous (ins_of qc) ->
  decodeGroup mixed_lt fc = Some f -> decodeGroup mixed_lt qc = Some q -> bundle_implies mixed_lt f q = inr true ->
  Forall (fun c => matchesClause c x = Some true) qc -> Forall (fun c => matchesClause c x = Some true) fc.
Proof.
  intros Hfok Hqok Hfold Hg Hal Hhom Hf Hq Himp Hqx.
  destruct (clause_ok_split fc Hfok) as [Hfs Hfv], (clause_ok_split qc Hqok) as [Hqs Hqv].
  destruct (decodeGroup_spec fc f Hfv Hf) as (Hflo & Hfhi & Hfeq & Hfin).
  destruct (decodeGroup_spec qc q Hqv Hq) as (Hqlo & Hqhi & Hqeq & Hqin).
  apply (clauses_hold qc x Hqs) in Hqx as (Qe & Qi & Ql & Qh).
  assert (HE : b_eq q <> JUndef -> scalar (b_eq q) = true /\ b_eq q = x).
  { intros Hne. assert (Hu : is_undefined (b_eq q) = false) by by destruct (b_eq q).
    pose proof (last_eq_value qc (b_eq q) (eqs_of_scalar qc Hqs) (eq_sym Hqeq) Hu) as Hin.
    pose proof (eqs_of_scalar qc Hqs) as Hsc. rewrite Forall_forall in Qe, Hsc. auto. }
  assert (HI : forall ms, b_in q = Some ms -> Forall (fun m => scalar m = true) ms /\ homogeneous ms /\ x ∈ ms).
  { intros ms Hms. rewrite Hms in Hqin. cbn in Hqin. pose proof (ins_of_scalar qc Hqs) as Hsc.
    rewrite <- Hqin in Qi, Hhom, Hsc. rewrite Forall_singleton in Qi, Hhom, Hsc. by split. }
  unfold bundle_implies in Himp. destruct (is_undefined (b_eq f)) eqn:Ef; cbn [negb] in Himp.
  2: { destruct (is_undefined (b_eq q)) eqn:Eq; [done|]. destruct HE as [Hsq Hx]; [by intros E; rewrite E in Eq|].
       pose proof (last_eq_value fc (b_eq f) (eqs_of_scalar fc Hfs) (eq_sym Hfeq) Ef) as Hin.
       pose proof (eqs_of_scalar fc Hfs) as Hsf. rewrite Forall_forall in Hsf.
       rewrite deep_equal_scalar in Himp by auto. injection Himp as He. apply strict_eq_scalar in He; [|done].
       apply (eq_field_sound fc g x); try done. by rewrite <- Hx, He. }
  assert (Hnoeq : eqs_of fc = []).
  { pose proof (eqs_of_scalar fc Hfs) as Hsf. destruct (last (eqs_of fc)) as [v|] eqn:El; [|by apply last_None].
    rewrite Hfeq in Ef. cbn in Ef. apply last_Some_elem_of in El. rewrite Forall_forall in Hsf. specialize (Hsf v El).
    by destruct v. }
  apply (clauses_hold fc x Hfs). rewrite Hnoeq. split; [constructor|].
  destruct (b_in f) as [set|] eqn:Ein; cbn in Hfin; rewrite <- Hfin.
  - destruct Hal as [?|[-> ->]]; [by rewrite <- Hfin|done|]. split; [|by split]. rewrite Forall_singleton.
    pose proof (ins_of_scalar fc Hfs) as Hsf. rewrite <- Hfin, Forall_singleton in Hsf.
    destruct (is_undefined (b_eq q)) eqn:Eq; cbn [negb] in Himp.
    + destruct (b_in q) as [vs|] eqn:Eqin; [|done]. destruct (HI vs eq_refl) as (Hvs & _ & Hx).
      pose proof (contains_all_scalar set vs Hsf Hvs Himp) as Hall. rewrite Forall_forall in Hall. by apply Hall.
    + destruct HE as [Hsq Hx]; [by intros E; rewrite E in Eq|]. rewrite <- Hx. by apply contains_scalar.
  - split; [constructor|]. injection Himp as [Hl Hh]%andb_true_iff.
    destruct (fold_field_like fc empty_group g Hfv Hfold) as (_ & _ & Tl & Th).
    pose proof (bounds_ok fc Hfok) as [Bl Bh]%Forall_app. pose proof (bounds_ok qc Hqok) as [Cl Ch]%Forall_app.
    rewrite Forall_forall in Cl, Ch, Ql, Qh.
    rewrite Hflo in Hl. rewrite Hfhi in Hh. split.
    + apply (range_side_sound (js_gt mixed_lt) compareGT (lows fc) q (b_lo q)); try done; [by eapply like_one_type|].
      intros b Hb. rewrite Hqlo in Hb. destruct (fold_tightest_spec _ compareGT _ _ _ Hb) as [[?|Hin] _]; [done|].
      split; [by apply Cl|by apply Ql].
    + apply (range_side_sound (js_lt mixed_lt) compareLT (highs fc) q (b_hi q)); try done; [by eapply like_one_type|].
      intros b Hb. rewrite Hqhi in Hb. destruct (fold_tightest_spec _ compareLT _ _ _ Hb) as [[?|Hin] _]; [done|].
      split; [by apply Ch|by apply Qh].
Qed.
End decode.
(** A filter with [in] and a range on one field passes the validator, and the checker
    proves it of a query that only meets the [in] part. *)
Lemma predicateImplies_in_with_range mixed_lt :
  let filter := [Clause op_in (js "x") (JArr [JNum (num_of_Z 1); JNum (num_of_Z 10)]);
                 Clause op_gt (js "x") (JNum (num_of_Z 5))] in
  let query := [Clause op_eq (js "x") (JNum (num_of_Z 1))] in
  let doc := [(js "x", JNum (num_of_Z 1))] in
  validateWire (wire_json filter) = inr filter /\ validateWire (wire_json query) = inr query /\
  predicateImplies mixed_lt filter query = inr true /\
  matchesWire query doc = Some true /\ matchesWire filter doc = Some false.
Proof. repeat split; vm_compute; reflexivity. Qed.

(** So does a query [in] set that mixes a boolean with numbers. *)
Lemma predicateImplies_mixed_in mixed_lt :
  let filter := [Clause op_gt (js "x") (JNum (num_of_Z 0))] in
  let query := [Clause op_in (js "x") (JArr [JNum (num_of_Z 1); JBool true])] in
  let doc := [(js "x", JBool true)] in
  validateWire (wire_json filter) = inr filter /\ validateWire (wire_json query) = inr query /\
  predicateImplies mixed_lt filter query = inr true /\
  matchesWire query doc = Some true /\ matchesWire filter doc = Some false.
Proof. repeat split; vm_compute; reflexivity. Qed.

(** ** The theorem *)

Lemma implies_groups_all mixed_lt fgs qgs : implies_groups mixed_lt fgs qgs = inr true ->
  Forall (fun fg => exists f q qc, decodeGroup mixed_lt fg.2 = Some f /\ own_get fg.1 qgs = Some qc /\
    decodeGroup mixed_lt qc = Some q /\ bundle_implies mixed_lt f q = inr true) fgs.
Proof.
  induction fgs as [|[k fc] fgs IH]; [constructor|]. cbn [implies_groups].
  destruct (decodeGroup mixed_lt fc) as [f|] eqn:Ef; [|done].
  destruct (own_get k qgs) as [qc|] eqn:Ek; [|done].
  destruct (decodeGroup mixed_lt qc) as [q|] eqn:Eq; [|done].
  destruct (bundle_implies mixed_lt f q) as [e|[|]] eqn:Eb; [done| |done]. cbn [rbind]. intros H.
  constructor; [by exists f, q, qc|by apply IH].
Qed.

(** The wires the checker is sound on: validated clauses with scalar operands, no field
    of the filter with both [in] and a range, one primitive type per [in] set of the query. *)
Definition filter_shape (w : PredicateWire) : Prop :=
  Forall clause_ok w /\ forall f, in_alone (clauses_on f w).

Definition query_shape (w : PredicateWire) : Prop :=
  Forall clause_ok w /\ Forall homogeneous (ins_of w).

Lemma ins_of_elem ms w : ms ∈ ins_of w <-> exists c, c ∈ w /\ clause_op c = op_in /\ ms = members c.
Proof.
  unfold ins_of. rewrite list_elem_of_omap. split.
  - intros (c & Hc & E). exists c. destruct (clause_op c); try done. by injection E as <-.
  - intros (c & Hc & E & ->). exists c. by rewrite E.
Qed.

(** An implied filter matches every document its query matches. *)
Lemma implies_matches mixed_lt filter query doc :
  filter_shape filter -> query_shape query -> assertWireSatisfiable filter = inr tt ->
  predicateImplies mixed_lt filter query = inr true ->
  matchesWire query doc = Some true -> matchesWire filter doc = Some true.
Proof.
  intros [Hfok Hal] [Hqok Hhom] Hsat Himp Hq. rewrite matchesWire_true in *. apply Forall_forall. intros c Hc.
  assert (Hcf : c ∈ clauses_on (clause_field c) filter) by (by apply list_elem_of_filter).
  assert (Hsub : forall f w, Forall clause_ok w -> Forall clause_ok (clauses_on f w)).
  { intros f w Hw. rewrite Forall_forall in *. intros c' [_ Hc']%list_elem_of_filter. auto. }
  pose proof (implies_groups_all _ _ _ Himp) as Hall. rewrite Forall_forall in Hall.
  pose proof (own_get_buckets filter (clause_field c)) as Hb.
  destruct (clauses_on (clause_field c) filter) as [|c0 cs] eqn:Ecs; [by apply elem_of_nil in Hcf|]. rewrite <- Ecs in *.
  destruct (Hall _ (own_get_In _ _ _ Hb)) as (f & q & qc & Hf & Hqg & Hqd & Hbi). cbn [fst snd] in *.
  rewrite own_get_buckets in Hqg. assert (Hqc : qc = clauses_on (clause_field c) query).
  { destruct (clauses_on (clause_field c) query); [done|]. by injection Hqg. }
  destruct (satisfiable_field filter (clause_field c) Hsat) as (g & Hfold & Hcheck).
  assert (Hres : Forall (fun c' => matchesClause c' (lookupPath doc (clause_field c)) = Some true)
                   (clauses_on (clause_field c) filter)).
  { eapply (field_sound mixed_lt _ qc f q g); try done; [by apply Hsub|subst qc; by apply Hsub| |].
    - subst qc. rewrite Forall_forall in *. intros ms (c' & [_ Hc']%list_elem_of_filter & Ho & ->)%ins_of_elem.
      apply Hhom, ins_of_elem. by exists c'.
    - subst qc. rewrite Forall_forall in *. intros c' [Hcf' Hc']%list_elem_of_filter. rewrite <- Hcf'. by apply Hq. }
  rewrite Forall_forall in Hres. by apply Hres.
Qed.

(** C26: The implication checker is sound: when it accepts, every document that matches the
    query matches the index filter, for any meaning of [<] on operands of mixed types;
    the filter being satisfiable with no [in] beside a range on one field, and the query's
    [in] sets being of one type each. *)
Theorem predicateImplies_sound mixed_lt filter query doc :
  filter_shape filter -> query_shape query -> assertWireSatisfiable filter = inr tt ->
  predicateImplies mixed_lt filter query = inr true ->
  matchesWire query doc = Some true -> matchesWire filter doc = Some true.
Proof. apply implies_matches. Qed.

Lemma predicateImplies_sound_witness :
  let filter := [Clause op_gte (js "n") (JNum (num_of_Z 3)); Clause op_eq (js "s") (JStr (js "open"))] in
  matchesWire filter [(js "n", JNum (num_of_Z 9)); (js "s", JStr (js "open"))] = Some true.
Proof.
  apply (predicateImplies_sound (fun _ _ => false) _
    [Clause op_eq (js "s") (JStr (js "open")); Clause op_in (js "n") (JArr [JNum (num_of_Z 9); JNum (num_of_Z 4)])]).
  - split; [repeat constructor|]. intros f H. exfalso. apply H. unfold clauses_on. rewrite !filter_cons, filter_nil.
    repeat case_decide; reflexivity.
  - split; [repeat constructor|]. constructor; [|constructor]. intros m m' Hm Hm'.
    repeat (apply elem_of_cons in Hm as [->|Hm]; [|try by apply elem_of_nil in Hm]);
    repeat (apply elem_of_cons in Hm' as [->|Hm']; [|try by apply elem_of_nil in Hm']); try reflexivity;
    by apply elem_of_nil in Hm.
  - vm_compute. reflexivity.
  - vm_compute. reflexivity.
  - vm_compute. reflexivity.
Defined.
