(* ===== verification/IndexCodec.v ===== *)
(** * Index value encoding (server/src/indexes.ts: encodeIndexValue)

    A value becomes a type-tagged byte string, printed in base 32 for the key path.  The
    theorem is the contract index walks rely on: the order of the encodings is the order
    null < false < true < numbers < strings, numeric within numbers and by UTF-8 bytes
    within strings.  The octets of a JSON text are a parameter: the program only compares
    them for equality. *)
From Stdlib Require Import QArith Qcanon.
From S2P Require Import Prelude JsText JsValue Errors Json Storage Predicate Satisfiable.
Local Open Scope Z_scope.
Local Open Scope result_scope.

(** ** IEEE 754 doubles *)

(** The biased exponent and fraction of [a / 2^k], [a >= 0]: the double without sign. *)
Definition float64_magnitude (a k : Z) : Z :=
  let e := Z.log2 a - k in
  if a =? 0 then 0
  else if e <? -1022 then Z.shiftl a (1074 - k)
  else (e + 1023) * 2 ^ 52 + (Z.shiftl a (52 - Z.log2 a) - 2 ^ 52).

Definition denominator_log (q : Qc) : Z := Z.log2 (Zpos (Qden (this q))).

(** [setFloat64]: the 64 bits; zero has no sign in the model. *)
Definition float64_bits (n : jsnum) : Z :=
  match n with
  | NFin q => let a := Qnum (this q) in
              (if a <? 0 then 2 ^ 63 else 0) + float64_magnitude (Z.abs a) (denominator_log q)
  | NPosInf => 2047 * 2 ^ 52
  | NNegInf => 2 ^ 63 + 2047 * 2 ^ 52
  | NNaN => 2047 * 2 ^ 52 + 2 ^ 51
  end.

(** The finite numbers a double denotes. *)
Definition is_double (n : jsnum) : bool :=
  match n with
  | NFin q =>
    let a := Z.abs (Qnum (this q)) in
    let k := denominator_log q in
    let e := Z.log2 a - k in
    (Zpos (Qden (this q)) =? 2 ^ k) &&
    ((a =? 0) || (e <=? 1023) &&
     (if e <? -1022 then k <=? 1074 else (Z.log2 a <=? 52) || (a mod 2 ^ (Z.log2 a - 52) =? 0)))
  | NPosInf | NNegInf => true
  | NNaN => false
  end.

(** The [w] big-endian digits of [z] in base [b]. *)
Fixpoint digits_be (b : Z) (w : nat) (z : Z) : list N :=
  match w with
  | O => []
  | S w => Z.to_N ((z / b ^ Z.of_nat w) mod b) :: digits_be b w z
  end.

Definition encodeNumberPayload (n : jsnum) : result (list N) :=
  match n with
  | NNaN => inl (new_error SchemaError)
  | _ =>
    match digits_be 256 8 (float64_bits n) with
    | b0 :: rest => inr (if N.land b0 128 =? 0 then N.lxor b0 128 :: rest
                         else (fun b => N.lxor b 255) <$> b0 :: rest)%N
    | [] => inr []
    end
  end.

(** ** The tagged bytes *)

Definition TYPE_NULL : N := 16.
Definition TYPE_FALSE : N := 32.
Definition TYPE_TRUE : N := 33.
Definition TYPE_NUMBER : N := 48.
Definition TYPE_STRING : N := 64.
Definition TYPE_OBJECT : N := 80.

(** ** Base 32 *)

(** The low 32 bits as a signed integer. *)
Definition to_int32 (z : Z) : Z :=
  let u := z mod 2 ^ 32 in if u <? 2 ^ 31 then u else u - 2 ^ 32.

(** [B32_ALPHABET[z & 0x1f]] *)
Definition b32_char (z : Z) : N := digit_unit (Z.to_N (Z.land z 31)).

(** The inner [while]: at most two characters leave per byte. *)
Fixpoint b32_emit (fuel : nat) (value bits : Z) : list N * Z :=
  match fuel with
  | O => ([], bits)
  | S fuel =>
    if 5 <=? bits then
      let bits := bits - 5 in
      let (out, rest) := b32_emit fuel value bits in
      (b32_char (Z.shiftr value bits) :: out, rest)
    else ([], bits)
  end.

Fixpoint b32_loop (bytes : list N) (value bits : Z) : jsstr :=
  match bytes with
  | [] => if 0 <? bits then [b32_char (to_int32 (Z.shiftl value (5 - bits)))] else []
  | b :: bytes =>
    let value := Z.lor (to_int32 (Z.shiftl value 8)) (Z.of_N b) in
    let (out, bits) := b32_emit 3 value (bits + 8) in
    out ++ b32_loop bytes value bits
  end.

Section codec.
Context (json_octets : bytes -> list N).

Definition encodeBytes (v : jsval) : result (list N) :=
  match v with
  | JNull | JUndef => inr [TYPE_NULL]
  | JBool b => inr [if b then TYPE_TRUE else TYPE_FALSE]
  | JNum n => let? payload := encodeNumberPayload n in inr (TYPE_NUMBER :: payload)
  | JStr s => inr (TYPE_STRING :: utf8_encode s)
  | _ => match encodeJsonBytes v with
         | Some b => inr (TYPE_OBJECT :: json_octets b)
         | None => inl OtherError
         end
  end.

Definition encodeIndexValue (v : jsval) : result jsstr :=
  let? bytes := encodeBytes v in inr (b32_loop bytes 0 0).
End codec.

Example encode_five : encodeIndexValue (fun _ => []) (JNum (num_of_Z 5)) = inr (js "630180000000000").
Proof. vm_compute. reflexivity. Qed.

(** ** Order of digit strings *)

Lemma str_ltb_map_mono (f : N -> N) a b : (forall x y, (x < y)%N -> (f x < f y)%N) ->
  str_ltb (f <$> a) (f <$> b) = str_ltb a b.
Proof.
  intros Hf. revert b. induction a as [|x a IH]; intros [|y b]; [done..|].
  rewrite !fmap_cons. cbn [str_ltb]. rewrite IH.
  destruct (N.lt_trichotomy x y) as [H|[->|H]].
  - by rewrite (proj2 (N.ltb_lt _ _) (Hf _ _ H)), (proj2 (N.ltb_lt _ _) H).
  - by rewrite !N.ltb_irrefl.
  - pose proof (Hf _ _ H). rewrite (proj2 (N.ltb_ge x y)), (proj2 (N.ltb_ge (f x) (f y))) by lia.
    by rewrite (proj2 (N.ltb_lt _ _) H), (proj2 (N.ltb_lt (f y) (f x))).
Qed.

Lemma str_ltb_app_diff a b x y : length a = length b -> a <> b -> str_ltb (a ++ x) (b ++ y) = str_ltb a b.
Proof.
  revert b. induction a as [|u a IH]; intros [|v b] Hl Hne; try done. cbn [app str_ltb]. injection Hl as Hl.
  destruct (N.ltb_spec u v); [done|]. destruct (N.ltb_spec v u); [done|]. apply IH; [done|].
  intros ->. apply Hne. f_equal. lia.
Qed.

(** Digits of one width compare like their values. *)
Lemma digits_lex b ds es : length ds = length es -> Forall (fun d => (d < b)%N) ds -> Forall (fun d => (d < b)%N) es ->
  str_ltb ds es = (digits_value b 0 ds <? digits_value b 0 es)%N.
Proof. intros Hl Hd He. rewrite <- (digits_compare b ds es) by done. symmetry. apply str_ltb_map_mono, digit_unit_mono. Qed.

Lemma digits_value_inj b ds es : length ds = length es -> Forall (fun d => (d < b)%N) ds -> Forall (fun d => (d < b)%N) es ->
  digits_value b 0 ds = digits_value b 0 es -> ds = es.
Proof.
  intros Hl Hd He Hv. destruct (str_ltb_total ds es) as [H|[?|H]]; [|done|];
    rewrite (digits_lex b) in H by done; apply N.ltb_lt in H; lia.
Qed.

Lemma digits_be_length b w z : length (digits_be b w z) = w.
Proof. induction w as [|w IH]; [done|]. cbn [digits_be length]. by rewrite IH. Qed.

Lemma digits_be_bound b w z : 0 < b -> Forall (fun d => (d < Z.to_N b)%N) (digits_be b w z).
Proof.
  intros Hb. induction w as [|w IH]; [constructor|]. cbn [digits_be]. constructor; [|done].
  pose proof (Z.mod_pos_bound (z / b ^ Z.of_nat w) b Hb). lia.
Qed.

Lemma digits_be_value b w z : 0 < b -> Z.of_N (digits_value (Z.to_N b) 0 (digits_be b w z)) = z mod b ^ Z.of_nat w.
Proof.
  intros Hb. induction w as [|w IH]; [cbn; by rewrite Z.mod_1_r|].
  cbn [digits_be]. rewrite digits_value_cons, digits_value_acc, digits_be_length.
  rewrite N2Z.inj_add, N2Z.inj_mul, N2Z.inj_pow, IH, !Nat2Z.inj_succ, Z.pow_succ_r by lia.
  pose proof (Z.mod_pos_bound (z / b ^ Z.of_nat w) b Hb).
  rewrite N.mul_0_l, N.add_0_l, !Z2N.id, nat_N_Z by lia.
  rewrite (Z.mul_comm b), Z.rem_mul_r by lia. lia.
Qed.

(** ** Base 32 as groups of five bits *)

Fixpoint chunks (bits : list N) : list N :=
  match bits with
  | a :: b :: c :: d :: e :: rest => digits_value 2 0 [a; b; c; d; e] :: chunks rest
  | [] => []
  | short => [digits_value 2 0 (short ++ replicate (5 - length short) 0%N)]
  end.

Abbreviation is_bits := (Forall (fun d : N => (d < 2)%N)).

Lemma chunks_cons c rest : length c = 5%nat -> chunks (c ++ rest) = digits_value 2 0 c :: chunks rest.
Proof. destruct c as [|a [|b [|d [|e [|f [|g c]]]]]]; try done. Qed.

Lemma chunks_short a : a <> [] -> (length a < 5)%nat -> chunks a = [digits_value 2 0 (a ++ replicate (5 - length a) 0%N)].
Proof. destruct a as [|a1 [|a2 [|a3 [|a4 [|a5 a]]]]]; try done. simpl. lia. Qed.

Lemma split5 (a : list N) : (5 <= length a)%nat -> exists c rest, a = c ++ rest /\ length c = 5%nat.
Proof. intros H. exists (take 5 a), (drop 5 a). by rewrite take_drop, length_take_le. Qed.

Lemma chunks_nonempty a : a <> [] -> chunks a <> [].
Proof. destruct a as [|a1 [|a2 [|a3 [|a4 [|a5 a]]]]]; done. Qed.

Lemma head_lex x y (p q : list N) a b : length a = length b -> is_bits a -> is_bits b -> a <> b ->
  x = digits_value 2 0 a -> y = digits_value 2 0 b -> str_ltb (x :: p) (y :: q) = str_ltb a b.
Proof.
  intros Hl Ha Hb Hne -> ->. cbn [str_ltb]. rewrite (digits_lex 2 a b) by done.
  destruct (N.ltb_spec (digits_value 2 0 a) (digits_value 2 0 b)); [done|].
  destruct (N.ltb_spec (digits_value 2 0 b) (digits_value 2 0 a)); [done|].
  destruct Hne. apply (digits_value_inj 2); try done. lia.
Qed.

(** A short list against one that is longer by a whole group. *)
Lemma chunks_short_long a b : (length a < 5)%nat -> (length a + 5 <= length b)%nat -> is_bits a -> is_bits b ->
  str_ltb (chunks a) (chunks b) = str_ltb a b /\ str_ltb (chunks b) (chunks a) = str_ltb b a.
Proof.
  intros Ha Hl Hba Hbb. destruct (split5 b) as (c & rest & -> & Hc); [lia|].
  rewrite chunks_cons by done. destruct (decide (a = [])) as [->|Hne]; [by destruct c|].
  rewrite (chunks_short a) by done. set (pad := replicate (5 - length a) 0%N).
  assert (Hr : rest <> []) by (intros ->; rewrite app_nil_r in Hl; destruct a; [done|simpl in Hl; lia]).
  apply Forall_app in Hbb as [Hbc _]. assert (Hpad : is_bits (a ++ pad)).
  { apply Forall_app. split; [done|]. apply Forall_replicate. lia. }
  assert (Hlp : length (a ++ pad) = length c) by (unfold pad; rewrite length_app, length_replicate; lia).
  rewrite <- (take_drop (length a) c). set (c1 := take (length a) c). set (c2 := drop (length a) c).
  assert (Hc1 : length a = length c1) by (unfold c1; rewrite length_take_le; lia).
  assert (Hbc' : is_bits (c1 ++ c2)) by (unfold c1, c2; by rewrite take_drop).
  assert (Hlen : length (a ++ pad) = length (c1 ++ c2)) by (unfold c1, c2; by rewrite take_drop).
  destruct (decide (a = c1)) as [E|Hd].
  - assert (Hab : str_ltb a ((c1 ++ c2) ++ rest) = true).
    { rewrite <- E, <- app_assoc. rewrite <- (app_nil_r a) at 1. rewrite str_ltb_app_l. by destruct c2, rest. }
    rewrite Hab, (str_ltb_asym _ _ Hab).
    assert (Hle : (digits_value 2 0 (a ++ pad) <= digits_value 2 0 (c1 ++ c2))%N).
    { rewrite <- E. rewrite !digits_value_app, (digits_value_acc _ _ pad), (digits_value_acc _ _ c2).
      unfold pad at 2. rewrite <- (app_nil_r (replicate _ _)), digits_value_zeros. cbn.
      assert (length pad = length c2) as -> by (rewrite !length_app in Hlen; lia). lia. }
    pose proof (chunks_nonempty rest Hr) as Hcr.
    split; cbn [str_ltb].
    + destruct (N.ltb_spec (digits_value 2 0 (a ++ pad)) (digits_value 2 0 (c1 ++ c2))); [done|].
      rewrite (proj2 (N.ltb_ge _ _)) by lia. by destruct (chunks rest).
    + rewrite (proj2 (N.ltb_ge _ _)) by lia.
      destruct (N.ltb_spec (digits_value 2 0 (a ++ pad)) (digits_value 2 0 (c1 ++ c2))); [done|]. by destruct (chunks rest).
  - assert (Hne1 : a ++ pad <> c1 ++ c2) by (intros E%app_inj_1; [by destruct E|done]).
    assert (E1 : str_ltb a ((c1 ++ c2) ++ rest) = str_ltb a c1).
    { rewrite <- (app_nil_r a) at 1. rewrite <- app_assoc. by apply str_ltb_app_diff. }
    assert (E2 : str_ltb ((c1 ++ c2) ++ rest) a = str_ltb c1 a).
    { rewrite <- (app_nil_r a) at 1. rewrite <- app_assoc. by apply str_ltb_app_diff; [|congruence]. }
    rewrite E1, E2. split.
    + rewrite (head_lex _ _ _ _ (a ++ pad) (c1 ++ c2)) by done. by rewrite str_ltb_app_diff.
    + rewrite (head_lex _ _ _ _ (c1 ++ c2) (a ++ pad)) by (done || congruence). by rewrite str_ltb_app_diff by (done || congruence).
Qed.

Lemma chunks_order n : forall a b, (length a < n)%nat -> is_bits a -> is_bits b ->
  length a = length b \/ (length a + 5 <= length b)%nat \/ (length b + 5 <= length a)%nat ->
  str_ltb (chunks a) (chunks b) = str_ltb a b.
Proof.
  induction n as [|n IH]; intros a b Hn Ha Hb Hl; [lia|].
  destruct (decide (5 <= length a)%nat) as [Ha5|Ha5], (decide (5 <= length b)%nat) as [Hb5|Hb5].
  - destruct (split5 a Ha5) as (c & ra & -> & Hc), (split5 b Hb5) as (d & rb & -> & Hd).
    rewrite !chunks_cons by done. rewrite !length_app in Hn; rewrite (length_app c), (length_app d) in Hl. apply Forall_app in Ha as [Hac Har], Hb as [Hbd Hbr].
    destruct (decide (c = d)) as [->|Hne].
    + rewrite str_ltb_app_l. cbn [str_ltb]. rewrite N.ltb_irrefl. apply IH; try done; lia.
    + rewrite (head_lex _ _ _ _ c d) by (done || congruence). symmetry. apply str_ltb_app_diff; [congruence|done].
  - apply (chunks_short_long b a); try done; lia.
  - apply (chunks_short_long a b); try done; lia.
  - assert (Hl' : length a = length b) by lia. clear Hl.
    destruct a as [|x a']; [by destruct b|]. destruct b as [|y b']; [done|]. set (a := x :: a') in *. set (b := y :: b') in *.
    destruct (decide (a = b)) as [->|Hne]; [by rewrite !str_ltb_irrefl|].
    rewrite !chunks_short by (done || lia). rewrite Hl'.
    assert (Hp : is_bits (replicate (5 - length b) 0%N)) by (apply Forall_replicate; lia).
    rewrite (head_lex _ _ _ _ (a ++ replicate (5 - length b) 0%N) (b ++ replicate (5 - length b) 0%N)); try done.
    + by apply str_ltb_app_diff.
    + rewrite !length_app. lia.
    + by apply Forall_app.
    + by apply Forall_app.
    + intros E%app_inv_tail. done.
Qed.

(** ** The base-32 loop prints the groups *)

Definition bits_of (bytes : list N) : list N := mjoin ((fun b => digits_be 2 8 (Z.of_N b)) <$> bytes).


Lemma bits_value_mod (q : list N) z : is_bits q ->
  z mod 2 ^ Z.of_nat (length q) = Z.of_N (digits_value 2 0 q) ->
  forall c r, q = c ++ r ->
    z mod 2 ^ Z.of_nat (length r) = Z.of_N (digits_value 2 0 r) /\
    (z / 2 ^ Z.of_nat (length r)) mod 2 ^ Z.of_nat (length c) = Z.of_N (digits_value 2 0 c).
Proof.
  intros Hq Hz c r ->. apply Forall_app in Hq as [Hc Hr].
  rewrite digits_value_app, digits_value_acc, length_app, Nat2Z.inj_add, Z.pow_add_r in Hz by lia.
  rewrite (Z.mul_comm (2 ^ _)), Z.rem_mul_r in Hz by lia.
  rewrite N2Z.inj_add, N2Z.inj_mul, N2Z.inj_pow, nat_N_Z in Hz.
  pose proof (digits_value_bound 2 r Hr) as Br. pose proof (digits_value_bound 2 c Hc) as Bc.
  apply N2Z.inj_lt in Br, Bc. rewrite N2Z.inj_pow, nat_N_Z in Br, Bc. change (Z.of_N 2) with 2 in *.
  set (P := 2 ^ Z.of_nat (length r)) in *. assert (0 < P) by (unfold P; lia).
  pose proof (Z.mod_pos_bound z P ltac:(lia)). set (h := (z / P) mod 2 ^ Z.of_nat (length c)) in *.
  assert (0 <= h) by (apply Z.mod_pos_bound; lia).
  assert (h = Z.of_N (digits_value 2 0 c)) by nia. split; [nia|done].
Qed.

Lemma b32_char_bits (c : list N) z : is_bits c -> length c = 5%nat -> z mod 32 = Z.of_N (digits_value 2 0 c) ->
  b32_char z = digit_unit (digits_value 2 0 c).
Proof.
  intros Hc Hl Hz. unfold b32_char. f_equal. change 31 with (Z.ones 5). rewrite Z.land_ones by lia.
  change (2 ^ 5) with 32. rewrite Hz. apply N2Z.id.
Qed.

Lemma b32_emit_spec fuel q z : is_bits q -> (length q < 5 * fuel)%nat ->
  z mod 2 ^ Z.of_nat (length q) = Z.of_N (digits_value 2 0 q) ->
  exists cs r, b32_emit fuel z (Z.of_nat (length q)) = (digit_unit <$> cs, Z.of_nat (length r)) /\
    (forall rest, chunks (q ++ rest) = cs ++ chunks (r ++ rest)) /\ is_bits r /\ (length r < 5)%nat /\
    z mod 2 ^ Z.of_nat (length r) = Z.of_N (digits_value 2 0 r).
Proof.
  revert q. induction fuel as [|fuel IH]; intros q Hq Hl Hz; [lia|]. cbn [b32_emit].
  destruct (Z.leb_spec 5 (Z.of_nat (length q))) as [H5|H5].
  - destruct (split5 q ltac:(lia)) as (c & r & -> & Hc). destruct (bits_value_mod _ _ Hq Hz c r eq_refl) as [Hr Hv].
    apply Forall_app in Hq as [Hqc Hqr]. rewrite length_app, Hc in *.
    replace (Z.of_nat (5 + length r) - 5) with (Z.of_nat (length r)) by lia.
    destruct (IH r Hqr ltac:(lia) Hr) as (cs & r' & He & Hch & Hr' & Hl' & Hz'). rewrite He.
    exists (digits_value 2 0 c :: cs), r'. split; [|split; [|done]].
    + rewrite fmap_cons. f_equal. f_equal. apply b32_char_bits; [done..|]. rewrite Z.shiftr_div_pow2 by lia. exact Hv.
    + intros rest. by rewrite <- app_assoc, chunks_cons, Hch.
  - exists [], q. split; [done|]. split; [done|]. split; [done|]. split; [lia|done].
Qed.

Lemma to_int32_mod z k : 0 <= k <= 32 -> to_int32 z mod 2 ^ k = z mod 2 ^ k.
Proof.
  intros Hk. unfold to_int32. assert (H : (z mod 2 ^ 32) mod 2 ^ k = z mod 2 ^ k).
  { replace (2 ^ 32) with (2 ^ k * 2 ^ (32 - k)) by (rewrite <- Z.pow_add_r by lia; f_equal; lia).
    rewrite Z.rem_mul_r by lia. rewrite Z.mul_comm, Z_mod_plus_full. apply Z.mod_mod. lia. }
  destruct (_ <? _); [done|]. rewrite <- H.
  replace (2 ^ 32) with (2 ^ (32 - k) * 2 ^ k) at 2 by (rewrite <- Z.pow_add_r by lia; f_equal; lia).
  rewrite <- Z.add_opp_r, <- Z.mul_opp_l, Z_mod_plus_full. done.
Qed.

(** Appending one byte to the pending bits. *)
Lemma push_byte pend z b : is_bits pend -> (length pend < 5)%nat -> (b < 256)%N ->
  z mod 2 ^ Z.of_nat (length pend) = Z.of_N (digits_value 2 0 pend) ->
  Z.lor (to_int32 (Z.shiftl z 8)) (Z.of_N b) mod 2 ^ Z.of_nat (length (pend ++ digits_be 2 8 (Z.of_N b))) =
  Z.of_N (digits_value 2 0 (pend ++ digits_be 2 8 (Z.of_N b))).
Proof.
  intros Hp Hl Hb Hz. set (w := to_int32 (Z.shiftl z 8)).
  assert (Hlow : w mod 2 ^ 8 = 0).
  { unfold w. rewrite to_int32_mod, Z.shiftl_mul_pow2 by lia. apply Z_mod_mult. }
  assert (Hadd : Z.lor w (Z.of_N b) = w + Z.of_N b).
  { symmetry. apply Z.add_nocarry_lor.
    assert (Hbb : Z.of_N b = Z.land (Z.of_N b) (Z.ones 8)) by (rewrite Z.land_ones, Z.mod_small by lia; done).
    rewrite Hbb, (Z.land_comm (Z.of_N b)), Z.land_assoc, Z.land_ones, Hlow by lia. done. }
  rewrite Hadd, length_app, digits_be_length, digits_value_app, digits_value_acc, digits_be_length.
  rewrite N2Z.inj_add, N2Z.inj_mul, (digits_be_value 2 8) by lia.
  change (Z.of_N (2 ^ N.of_nat 8)) with (2 ^ 8). change (2 ^ Z.of_nat 8) with (2 ^ 8).
  rewrite (Z.mod_small (Z.of_N b)) by lia. rewrite Nat2Z.inj_add, Z.pow_add_r by lia. change (2 ^ Z.of_nat 8) with (2 ^ 8).
  rewrite (Z.mul_comm (2 ^ Z.of_nat (length pend))), Z.rem_mul_r by lia.
  assert (Hw : w = 2 ^ 8 * (w / 2 ^ 8)) by (pose proof (Z.div_mod w (2 ^ 8)); lia).
  assert (Hm : (w + Z.of_N b) mod 2 ^ 8 = Z.of_N b).
  { rewrite Hw, Z.add_comm, Z.mul_comm, Z_mod_plus_full. apply Z.mod_small. lia. }
  assert (Hd : (w + Z.of_N b) / 2 ^ 8 = w / 2 ^ 8).
  { rewrite Hw at 1. rewrite Z.add_comm, Z.mul_comm, Z.div_add, (Z.div_small (Z.of_N b)) by lia. lia. }
  rewrite Hm, Hd. assert (Hq : (w / 2 ^ 8) mod 2 ^ Z.of_nat (length pend) = Z.of_N (digits_value 2 0 pend)); [|rewrite Hq; lia].
  rewrite <- Hz. set (k := Z.of_nat (length pend)) in *. assert (0 <= k < 5) by (unfold k; lia).
  assert (E : w mod 2 ^ (8 + k) = (z * 2 ^ 8) mod 2 ^ (8 + k)).
  { unfold w. by rewrite to_int32_mod, Z.shiftl_mul_pow2 by lia. }
  rewrite Z.pow_add_r in E by lia. rewrite !Z.rem_mul_r in E by lia.
  rewrite Hlow, Z_mod_mult, Z.div_mul in E by lia. lia.
Qed.

Lemma b32_loop_spec bs : forall pend z, is_bytes bs -> is_bits pend -> (length pend < 5)%nat ->
  z mod 2 ^ Z.of_nat (length pend) = Z.of_N (digits_value 2 0 pend) ->
  b32_loop bs z (Z.of_nat (length pend)) = digit_unit <$> chunks (pend ++ bits_of bs).
Proof.
  induction bs as [|b bs IH]; intros pend z Hbs Hp Hl Hz; cbn [b32_loop].
  - unfold bits_of. cbn [fmap list_fmap mjoin list_join]. rewrite app_nil_r.
    destruct (Z.ltb_spec 0 (Z.of_nat (length pend))) as [H0|H0].
    + assert (Hne : pend <> []) by (intros ->; simpl in H0; lia). rewrite chunks_short by done.
      rewrite fmap_cons. f_equal. apply b32_char_bits.
      * apply Forall_app. split; [done|]. apply Forall_replicate. lia.
      * rewrite length_app, length_replicate. lia.
      * change 32 with (2 ^ 5). rewrite to_int32_mod, Z.shiftl_mul_pow2 by lia.
        rewrite digits_value_app, digits_value_acc, length_replicate.
        rewrite <- (app_nil_r (replicate _ _)), digits_value_zeros. cbn [digits_value foldl].
        rewrite N.add_0_r, N2Z.inj_mul, N2Z.inj_pow, nat_N_Z, Nat2Z.inj_sub, <- Hz by lia.
        change (Z.of_N 2) with 2. change (Z.of_nat 5) with 5.
        set (k := Z.of_nat (length pend)) in *.
        replace (2 ^ 5) with (2 ^ k * 2 ^ (5 - k)) by (rewrite <- Z.pow_add_r by lia; f_equal; lia).
        rewrite Z.mul_mod_distr_r by lia. done.
    + by destruct pend; [|simpl in H0; lia].
  - apply Forall_cons in Hbs as [Hb Hbs].
    pose proof (push_byte pend z b Hp Hl Hb Hz) as Hpush.
    set (q := pend ++ digits_be 2 8 (Z.of_N b)) in *.
    assert (Hq : is_bits q) by (apply Forall_app; split; [done|]; exact (digits_be_bound 2 8 (Z.of_N b) ltac:(lia))).
    assert (Hlq : length q = (length pend + 8)%nat) by (unfold q; by rewrite length_app, digits_be_length).
    replace (Z.of_nat (length pend) + 8) with (Z.of_nat (length q)) by lia.
    destruct (b32_emit_spec 3 q _ Hq ltac:(lia) Hpush) as (cs & r & He & Hch & Hr & Hlr & Hzr). rewrite He.
    rewrite IH by done. rewrite <- fmap_app, <- Hch. unfold q, bits_of. rewrite fmap_cons. cbn [mjoin list_join].
    by rewrite <- app_assoc.
Qed.

Lemma bits_of_cons b bs : bits_of (b :: bs) = digits_be 2 8 (Z.of_N b) ++ bits_of bs.
Proof. done. Qed.

Lemma bits_of_length bs : length (bits_of bs) = (8 * length bs)%nat.
Proof.
  induction bs as [|b bs IH]; [done|]. rewrite bits_of_cons.
  rewrite length_app, digits_be_length, IH. simpl. lia.
Qed.

Lemma bits_of_bits bs : is_bits (bits_of bs).
Proof.
  induction bs as [|b bs IH]; [constructor|]. rewrite bits_of_cons.
  apply Forall_app. split; [exact (digits_be_bound 2 8 (Z.of_N b) ltac:(lia))|done].
Qed.

Lemma bits_of_order xs ys : is_bytes xs -> is_bytes ys -> str_ltb (bits_of xs) (bits_of ys) = str_ltb xs ys.
Proof.
  intros Hx. revert ys. induction Hx as [|x xs Hx _ IH]; intros [|y ys] Hy; try done.
  apply Forall_cons in Hy as [Hy Hys]. rewrite !bits_of_cons.
  destruct (decide (x = y)) as [->|Hne].
  { rewrite str_ltb_app_l, IH by done. cbn [str_ltb]. by rewrite N.ltb_irrefl. }
  pose proof (digits_be_bound 2 8 (Z.of_N x) ltac:(lia)) as Bx. pose proof (digits_be_bound 2 8 (Z.of_N y) ltac:(lia)) as By.
  pose proof (digits_be_value 2 8 (Z.of_N x) ltac:(lia)) as Vx. pose proof (digits_be_value 2 8 (Z.of_N y) ltac:(lia)) as Vy.
  rewrite Z.mod_small in Vx, Vy by lia. apply N2Z.inj in Vx, Vy. change (Z.to_N 2) with 2%N in *.
  rewrite str_ltb_app_diff; [|by rewrite !digits_be_length|intros E; rewrite E in Vx; congruence].
  rewrite (digits_lex 2), Vx, Vy by (done || by rewrite !digits_be_length). cbn [str_ltb].
  destruct (N.ltb_spec x y); [done|]. destruct (N.ltb_spec y x); [done|]. lia.
Qed.

(** The base-32 text orders byte strings, a proper prefix first. *)
Lemma b32_order xs ys : is_bytes xs -> is_bytes ys -> str_ltb (b32_loop xs 0 0) (b32_loop ys 0 0) = str_ltb xs ys.
Proof.
  intros Hx Hy.
  assert (H : forall bs, is_bytes bs -> b32_loop bs 0 0 = digit_unit <$> chunks (bits_of bs))
    by (intros bs Hbs; apply (b32_loop_spec bs [] 0 Hbs); [constructor|simpl; lia|done]).
  rewrite !H by done.
  rewrite str_ltb_map_mono by apply digit_unit_mono.
  rewrite (chunks_order (S (length (bits_of xs)))); [by apply bits_of_order|lia|apply bits_of_bits..|].
  rewrite !bits_of_length. destruct (Nat.lt_trichotomy (length xs) (length ys)) as [?|[->|?]]; [right; left|by left|right; right]; lia.
Qed.

(** ** The number payload orders like the numbers *)

Lemma byte_facts d : (d < 256)%N ->
  N.lxor d 255 = (255 - d)%N /\ (N.land d 128 =? 0)%N = (d <? 128)%N /\ ((d < 128)%N -> N.lxor d 128 = (d + 128)%N).
Proof.
  intros Hd. assert (H : forallb (fun n => let d := N.of_nat n in
    (N.lxor d 255 =? 255 - d)%N && Bool.eqb (N.land d 128 =? 0)%N (d <? 128)%N &&
    ((128 <=? d)%N || (N.lxor d 128 =? d + 128)%N)) (seq 0 256) = true) by (vm_compute; reflexivity).
  rewrite forallb_forall in H. specialize (H (N.to_nat d)). cbv zeta in H. rewrite N2Nat.id in H.
  rewrite !andb_true_iff, orb_true_iff in H. destruct H as [[H1 H2] H3]; [apply in_seq; lia|].
  apply N.eqb_eq in H1. apply Bool.eqb_prop in H2. split; [done|]. split; [done|]. intros Hlt.
  destruct H3 as [H3|H3]; [apply N.leb_le in H3; lia|by apply N.eqb_eq in H3].
Qed.

Lemma digits_flip (ds : list N) : is_bytes ds ->
  is_bytes ((fun b => N.lxor b 255) <$> ds) /\
  (digits_value 256 0 ((fun b => N.lxor b 255) <$> ds) + digits_value 256 0 ds + 1 = 256 ^ N.of_nat (length ds))%N.
Proof.
  induction 1 as [|d ds Hd _ [IH1 IH2]]; [done|]. rewrite fmap_cons. destruct (byte_facts d Hd) as (E & _). rewrite E.
  split; [constructor; [lia|done]|]. rewrite !digits_value_cons, (digits_value_acc _ (0 * 256 + d)), digits_value_acc, length_fmap.
  cbn [length]. rewrite Nat2N.inj_succ, N.pow_succ_r'. nia.
Qed.

(** What the payload is as a number: the sign-flipped double. *)
Definition sortable (z : Z) : Z := if z <? 2 ^ 63 then z + 2 ^ 63 else 2 ^ 64 - 1 - z.

Lemma payload_digits n : n <> NNaN -> 0 <= float64_bits n < 2 ^ 64 ->
  encodeNumberPayload n = inr (digits_be 256 8 (sortable (float64_bits n))).
Proof.
  intros Hn Hz. set (z := float64_bits n) in *. assert (Henc : encodeNumberPayload n =
    match digits_be 256 8 z with
    | b0 :: rest => inr (if N.land b0 128 =? 0 then N.lxor b0 128 :: rest
                         else (fun b => N.lxor b 255) <$> b0 :: rest)%N
    | [] => inr []
    end) by by destruct n.
  rewrite Henc. clear Henc. pose proof (digits_be_bound 256 8 z ltac:(lia)) as Hb.
  pose proof (digits_be_value 256 8 z ltac:(lia)) as Hv. pose proof (digits_be_length 256 8 z) as Hl.
  change (Z.to_N 256) with 256%N in *. rewrite Z.mod_small in Hv by lia.
  assert (Hs : 0 <= sortable z < 2 ^ 64) by (unfold sortable; destruct (Z.ltb_spec z (2 ^ 63)); lia).
  pose proof (digits_be_bound 256 8 (sortable z) ltac:(lia)) as Sb.
  pose proof (digits_be_value 256 8 (sortable z) ltac:(lia)) as Sv. change (Z.to_N 256) with 256%N in *.
  rewrite Z.mod_small in Sv by lia. pose proof (digits_be_length 256 8 (sortable z)) as Sl.
  destruct (digits_be 256 8 z) as [|b0 rest] eqn:Ed; [done|]. f_equal.
  destruct (digits_flip (b0 :: rest) Hb) as [Fb Fv]. apply Forall_cons in Hb as [Hb0 Hrest].
  destruct (byte_facts b0 Hb0) as (_ & E & Elow). rewrite E. rewrite Hl in Fv. injection Hl as Hl.
  assert (Hv0 : forall d, digits_value 256 0 (d :: rest) = (d * 2 ^ 56 + digits_value 256 0 rest)%N).
  { intros d. by rewrite digits_value_cons, digits_value_acc, Hl. }
  rewrite Hv0 in Hv, Fv. pose proof (digits_value_bound 256 rest Hrest) as Br. rewrite Hl in Br.
  change (256 ^ N.of_nat 7)%N with (2 ^ 56)%N in *. change (256 ^ N.of_nat 8)%N with (2 ^ 64)%N in *. unfold sortable in *.
  apply (digits_value_inj 256).
  - rewrite Sl. destruct (_ <? _)%N; [simpl; lia|]. rewrite length_fmap. simpl. lia.
  - destruct (N.ltb_spec b0 128); [|done]. rewrite Elow by done. constructor; [lia|done].
  - done.
  - apply N2Z.inj. rewrite Sv. destruct (N.ltb_spec b0 128).
    + rewrite Elow, Hv0 by done.
      destruct (Z.ltb_spec z (2 ^ 63)); lia.
    + destruct (Z.ltb_spec z (2 ^ 63)); lia.
Qed.

(** The double of [a / 2^k] as [is_double] checks it. *)
Definition double_ok (a k : Z) : Prop :=
  0 <= a /\ (a = 0 \/ Z.log2 a - k <= 1023 /\
    (if Z.log2 a - k <? -1022 then k <= 1074 else Z.log2 a <= 52 \/ a mod 2 ^ (Z.log2 a - 52) = 0)).

(** The 53-bit significand of a normal number is exact. *)
Lemma significand_exact a : 0 < a -> Z.log2 a <= 52 \/ a mod 2 ^ (Z.log2 a - 52) = 0 ->
  Z.shiftl a (52 - Z.log2 a) * 2 ^ Z.log2 a = a * 2 ^ 52 /\ 2 ^ 52 <= Z.shiftl a (52 - Z.log2 a) < 2 ^ 53.
Proof.
  intros Ha Hex. pose proof (Z.log2_spec a Ha) as Hl. pose proof (Z.log2_nonneg a) as Hn. set (l := Z.log2 a) in *.
  assert (Hm : Z.shiftl a (52 - l) * 2 ^ l = a * 2 ^ 52).
  { destruct (Z.le_gt_cases l 52) as [Hle|Hgt].
    - rewrite Z.shiftl_mul_pow2 by lia. rewrite <- Z.mul_assoc, <- Z.pow_add_r by lia. do 2 f_equal. lia.
    - destruct Hex as [?|Hmod]; [lia|]. replace (52 - l) with (- (l - 52)) by lia.
      rewrite Z.shiftl_opp_r, Z.shiftr_div_pow2 by lia.
      assert (E : a = 2 ^ (l - 52) * (a / 2 ^ (l - 52))) by (pose proof (Z.div_mod a (2 ^ (l - 52))); lia).
      replace (2 ^ l) with (2 ^ (l - 52) * 2 ^ 52) by (rewrite <- Z.pow_add_r by lia; f_equal; lia). nia. }
  split; [done|]. rewrite Z.pow_succ_r in Hl by lia. assert (0 < 2 ^ l) by lia. change (2 ^ 53) with (2 * 2 ^ 52). nia.
Qed.

Lemma magnitude_bounds a k : 0 <= k -> double_ok a k -> 0 <= float64_magnitude a k < 2047 * 2 ^ 52.
Proof.
  intros Hk [Ha Hd]. unfold float64_magnitude. destruct (Z.eqb_spec a 0) as [|Hne]; [lia|].
  destruct Hd as [?|[He Hd]]; [done|]. destruct (Z.ltb_spec (Z.log2 a - k) (-1022)) as [Hs|Hs].
  - rewrite Z.shiftl_mul_pow2 by lia. pose proof (Z.log2_spec a ltac:(lia)) as [_ Hl].
    assert (a * 2 ^ (1074 - k) < 2 ^ Z.succ (Z.log2 a) * 2 ^ (1074 - k)) by (apply Z.mul_lt_mono_pos_r; lia).
    rewrite <- Z.pow_add_r in * by (pose proof (Z.log2_nonneg a); lia).
    assert (2 ^ (Z.succ (Z.log2 a) + (1074 - k)) <= 2 ^ 52) by (apply Z.pow_le_mono_r; lia). nia.
  - destruct (significand_exact a ltac:(lia) Hd) as [_ Hm]. lia.
Qed.

Lemma magnitude_lt a k b j : 0 <= k -> 0 <= j -> double_ok a k -> double_ok b j ->
  a * 2 ^ j < b * 2 ^ k -> float64_magnitude a k < float64_magnitude b j.
Proof.
  intros Hk Hj Ha Hb Hlt. pose proof (magnitude_bounds a k Hk Ha) as Ba. pose proof (magnitude_bounds b j Hj Hb) as Bb.
  destruct Ha as [Ha0 Ha], Hb as [Hb0 Hb].
  assert (Hbp : 0 < b) by nia. unfold float64_magnitude in *. destruct (Z.eqb_spec b 0) as [|_]; [lia|].
  destruct Hb as [?|[Heb Hb]]; [lia|]. pose proof (Z.log2_nonneg b) as Hlb. pose proof (Z.log2_spec b Hbp) as Sb.
  destruct (Z.eqb_spec a 0) as [->|Hane].
  { destruct (Z.ltb_spec (Z.log2 b - j) (-1022)) as [Hs|Hs].
    - rewrite Z.shiftl_mul_pow2 by lia. assert (0 < 2 ^ (1074 - j)) by lia. nia.
    - destruct (significand_exact b Hbp Hb) as [_ Hm]. lia. }
  destruct Ha as [?|[Hea Ha]]; [lia|]. assert (Hap : 0 < a) by lia.
  pose proof (Z.log2_nonneg a) as Hla. pose proof (Z.log2_spec a Hap) as Sa.
  assert (Hlog : Z.log2 a + j <= Z.log2 b + k).
  { rewrite (Z.add_comm (Z.log2 a)), (Z.add_comm (Z.log2 b)), <- !Z.log2_mul_pow2 by lia. apply Z.log2_le_mono. lia. }
  destruct (Z.ltb_spec (Z.log2 a - k) (-1022)) as [Hsa|Hsa], (Z.ltb_spec (Z.log2 b - j) (-1022)) as [Hsb|Hsb].
  - rewrite !Z.shiftl_mul_pow2 by lia. apply (Z.mul_lt_mono_pos_r (2 ^ (k + j))); [lia|].
    rewrite <- !Z.mul_assoc, <- !Z.pow_add_r by lia.
    replace (1074 - k + (k + j)) with (j + 1074) by lia. replace (1074 - j + (k + j)) with (k + 1074) by lia.
    rewrite !Z.pow_add_r, !Z.mul_assoc by lia. apply Z.mul_lt_mono_pos_r; lia.
  - rewrite Z.shiftl_mul_pow2 by lia. destruct (significand_exact b Hbp Hb) as [_ Hm].
    assert (a * 2 ^ (1074 - k) < 2 ^ Z.succ (Z.log2 a) * 2 ^ (1074 - k)) by (apply Z.mul_lt_mono_pos_r; lia).
    rewrite <- Z.pow_add_r in * by lia.
    assert (2 ^ (Z.succ (Z.log2 a) + (1074 - k)) <= 2 ^ 52) by (apply Z.pow_le_mono_r; lia). nia.
  - lia.
  - destruct (significand_exact a Hap Ha) as [Ea Hma], (significand_exact b Hbp Hb) as [Eb Hmb].
    destruct (Z.eq_dec (Z.log2 a - k) (Z.log2 b - j)) as [He|He]; [|nia].
    rewrite He. apply Z.add_lt_mono_l, Z.sub_lt_mono_r.
    apply (Z.mul_lt_mono_pos_r (2 ^ (Z.log2 a + j))); [lia|].
    replace (Z.log2 a + j) with (Z.log2 b + k) at 2 by lia.
    rewrite !Z.pow_add_r, !Z.mul_assoc, Ea, Eb by lia.
    replace (a * 2 ^ 52 * 2 ^ j) with (2 ^ 52 * (a * 2 ^ j)) by ring.
    replace (b * 2 ^ 52 * 2 ^ k) with (2 ^ 52 * (b * 2 ^ k)) by ring. apply Z.mul_lt_mono_pos_l; lia.
Qed.

Lemma is_double_ok q : is_double (NFin q) = true ->
  Zpos (Qden (this q)) = 2 ^ denominator_log q /\ 0 <= denominator_log q /\
  double_ok (Z.abs (Qnum (this q))) (denominator_log q).
Proof.
  unfold is_double. intros [Hd H]%andb_true_iff. apply Z.eqb_eq in Hd. split; [done|]. split; [apply Z.log2_nonneg|].
  split; [lia|]. apply orb_true_iff in H as [H|[He H]%andb_true_iff]; [left; by apply Z.eqb_eq|].
  right. split; [by apply Z.leb_le|]. destruct (_ <? _); [by apply Z.leb_le|].
  apply orb_true_iff in H as [H|H]; [left; by apply Z.leb_le|right; by apply Z.eqb_eq].
Qed.

Definition payload_rank (n : jsnum) : Z := sortable (float64_bits n).

Lemma fin_rank q : is_double (NFin q) = true -> 0 <= float64_bits (NFin q) < 2 ^ 64 /\
  payload_rank (NFin q) = if Qnum (this q) <? 0 then 2 ^ 63 - 1 - float64_magnitude (Z.abs (Qnum (this q))) (denominator_log q)
                          else 2 ^ 63 + float64_magnitude (Z.abs (Qnum (this q))) (denominator_log q).
Proof.
  intros (_ & Hk & Hok)%is_double_ok. pose proof (magnitude_bounds _ _ Hk Hok) as Hm.
  unfold payload_rank, float64_bits, sortable. destruct (Z.ltb_spec (Qnum (this q)) 0).
  - split; [lia|]. destruct (Z.ltb_spec (2 ^ 63 + float64_magnitude (Z.abs (Qnum (this q))) (denominator_log q)) (2 ^ 63)); lia.
  - split; [lia|]. destruct (Z.ltb_spec (0 + float64_magnitude (Z.abs (Qnum (this q))) (denominator_log q)) (2 ^ 63)); lia.
Qed.

Lemma fin_rank_lt p q : is_double (NFin p) = true -> is_double (NFin q) = true -> (p < q)%Qc ->
  payload_rank (NFin p) < payload_rank (NFin q).
Proof.
  intros Hp Hq Hlt. rewrite (proj2 (fin_rank p Hp)), (proj2 (fin_rank q Hq)).
  destruct (is_double_ok p Hp) as (Dp & Kp & Op), (is_double_ok q Hq) as (Dq & Kq & Oq).
  pose proof (magnitude_bounds _ _ Kp Op). pose proof (magnitude_bounds _ _ Kq Oq).
  unfold Qclt, Qlt in Hlt. rewrite Dp, Dq in Hlt.
  destruct (Z.ltb_spec (Qnum (this p)) 0), (Z.ltb_spec (Qnum (this q)) 0).
  - pose proof (magnitude_lt _ _ _ _ Kq Kp Oq Op) as Hm. rewrite !Z.abs_neq in * by lia. lia.
  - lia.
  - assert (0 < 2 ^ denominator_log p) by lia. assert (0 < 2 ^ denominator_log q) by lia. nia.
  - pose proof (magnitude_lt _ _ _ _ Kp Kq Op Oq) as Hm. rewrite !Z.abs_eq in * by lia. lia.
Qed.

Lemma rank_lt n m : is_double n = true -> is_double m = true -> num_ltb n m = true -> payload_rank n < payload_rank m.
Proof.
  destruct n as [p| | |], m as [q| | |]; try done; intros Hn Hm.
  - rewrite num_ltb_fin. by apply fin_rank_lt.
  - intros _. destruct (is_double_ok p Hn) as (_ & K & O). pose proof (magnitude_bounds _ _ K O).
    rewrite (proj2 (fin_rank p Hn)). change (payload_rank NPosInf) with (2047 * 2 ^ 52 + 2 ^ 63). destruct (_ <? _); lia.
  - intros _. destruct (is_double_ok q Hm) as (_ & K & O). pose proof (magnitude_bounds _ _ K O).
    rewrite (proj2 (fin_rank q Hm)). change (payload_rank NNegInf) with (2 ^ 63 - 1 - 2047 * 2 ^ 52). destruct (_ <? _); lia.
Qed.

Lemma double_total n m : is_double n = true -> is_double m = true ->
  num_ltb n m = true \/ n = m \/ num_ltb m n = true.
Proof. destruct n as [p| | |], m as [q| | |]; try done; intros _ _; try tauto. by apply num_ltb_total. Qed.

Lemma double_bits n : is_double n = true -> n <> NNaN /\ 0 <= float64_bits n < 2 ^ 64 /\ 0 <= payload_rank n < 2 ^ 64.
Proof.
  intros Hn. assert (Hb : 0 <= float64_bits n < 2 ^ 64) by (destruct n; [by apply fin_rank|cbn; lia|cbn; lia|done]).
  split; [by destruct n|]. split; [done|]. unfold payload_rank, sortable. destruct (Z.ltb_spec (float64_bits n) (2 ^ 63)); lia.
Qed.

Lemma payload_order n m : is_double n = true -> is_double m = true ->
  exists x y, encodeNumberPayload n = inr x /\ encodeNumberPayload m = inr y /\ is_bytes x /\ is_bytes y /\
    str_ltb x y = num_ltb n m.
Proof.
  intros Hn Hm. destruct (double_bits n Hn) as (Nn & Bn & Rn), (double_bits m Hm) as (Nm & Bm & Rm).
  exists (digits_be 256 8 (payload_rank n)), (digits_be 256 8 (payload_rank m)).
  split; [by apply payload_digits|]. split; [by apply payload_digits|].
  pose proof (digits_be_bound 256 8 (payload_rank n) ltac:(lia)) as Cn.
  pose proof (digits_be_bound 256 8 (payload_rank m) ltac:(lia)) as Cm. split; [done|]. split; [done|].
  pose proof (digits_be_value 256 8 (payload_rank n) ltac:(lia)) as Vn.
  pose proof (digits_be_value 256 8 (payload_rank m) ltac:(lia)) as Vm.
  rewrite Z.mod_small in Vn, Vm by (change (256 ^ Z.of_nat 8) with (2 ^ 64); lia).
  rewrite (digits_lex 256) by (done || by rewrite !digits_be_length). change (Z.to_N 256) with 256%N in *.
  apply Bool.eq_true_iff_eq. rewrite N.ltb_lt. split; intros H.
  - destruct (double_total n m Hn Hm) as [?|[ -> |H']]; [done|lia|]. pose proof (rank_lt m n Hm Hn H'). lia.
  - pose proof (rank_lt n m Hn Hm H). lia.
Qed.

(** ** Strings *)

(** ** The order of encoded values *)

(** The scalar values an index holds: doubles and strings of 16-bit units. *)
Definition indexable (v : jsval) : Prop :=
  match v with
  | JNull | JUndef | JBool _ => True
  | JNum n => is_double n = true
  | JStr s => code_units s
  | _ => False
  end.

Definition type_rank (v : jsval) : Z :=
  match v with JBool false => 1 | JBool true => 2 | JNum _ => 3 | JStr _ => 4 | _ => 0 end.

(** The value order of the keys. *)
Definition index_ltb (v w : jsval) : bool :=
  match v, w with
  | JNum m, JNum n => num_ltb m n
  | JStr s, JStr t => str_ltb (utf8_encode s) (utf8_encode t)
  | _, _ => type_rank v <? type_rank w
  end.

Section order.
Context (json_octets : bytes -> list N).

Lemma encodeBytes_order v w : indexable v -> indexable w -> exists x y,
  encodeBytes json_octets v = inr x /\ encodeBytes json_octets w = inr y /\ is_bytes x /\ is_bytes y /\
  str_ltb x y = index_ltb v w.
Proof.
  assert (Hnum : forall n, is_double n = true -> exists x, encodeNumberPayload n = inr x /\ is_bytes x).
  { intros n Hn. destruct (payload_order n n Hn Hn) as (x & _ & Hx & _ & Hb & _). by exists x. }
  assert (Hb : forall t b x, (t < 256)%N -> is_bytes x -> b = t -> is_bytes (b :: x)) by (intros ? ? ? ? ? ->; by constructor).
  intros Hv Hw. destruct v as [| |[|]|n|s| | |], w as [| |[|]|m|t| | |]; try done; cbn [indexable] in *;
    cbn [encodeBytes rbind];
    try (destruct (payload_order n m Hv Hw) as (x & y & -> & -> & Hx & Hy & Ho); exists (TYPE_NUMBER :: x), (TYPE_NUMBER :: y);
         split; [done|]; split; [done|]; split; [by constructor|]; split; [by constructor|];
         cbn [str_ltb]; rewrite N.ltb_irrefl; exact Ho);
    try (destruct (Hnum n Hv) as (x & -> & Hx)); try (destruct (Hnum m Hw) as (y & -> & Hy));
    try pose proof (utf8_bytes s Hv) as Hs; try pose proof (utf8_bytes t Hw) as Ht;
    (eexists _, _; split; [reflexivity|]; split; [reflexivity|];
     split; [by repeat constructor|]; split; [by repeat constructor|]; try reflexivity).
Qed.
End order.

(** Encoded segments compare as the values. *)
Lemma encoded_order json_octets v w : indexable v -> indexable w ->
  exists s t, encodeIndexValue json_octets v = inr s /\ encodeIndexValue json_octets w = inr t /\
    str_ltb s t = index_ltb v w /\ (s = t <-> index_ltb v w = false /\ index_ltb w v = false).
Proof.
  intros Hv Hw. destruct (encodeBytes_order json_octets v w Hv Hw) as (x & y & Ex & Ey & Hx & Hy & Ho).
  destruct (encodeBytes_order json_octets w v Hw Hv) as (y' & x' & Ey' & Ex' & _ & _ & Ho').
  rewrite Ex in Ex'. rewrite Ey in Ey'. injection Ex' as <-. injection Ey' as <-.
  unfold encodeIndexValue. rewrite Ex, Ey. cbn [rbind]. eexists _, _. split; [done|]. split; [done|].
  rewrite b32_order, Ho by done. split; [done|].
  rewrite <- (b32_order x y) in Ho by done. rewrite <- (b32_order y x) in Ho' by done. rewrite <- Ho, <- Ho'. split.
  - intros ->. by rewrite str_ltb_irrefl.
  - intros [H1 H2]. destruct (str_ltb_total (b32_loop x 0 0) (b32_loop y 0 0)) as [?|[?|?]]; congruence.
Qed.

(** Index walks read values in value order: on nulls, booleans, doubles (infinities
    included) and strings, encoding succeeds, the encoded segments compare as null < false
    < true < numbers < strings, numerically within numbers and by UTF-8 bytes within
    strings, and two segments are equal only for values the order does not separate. *)
Theorem encodeIndexValue_order json_octets v w : indexable v -> indexable w ->
  exists s t, encodeIndexValue json_octets v = inr s /\ encodeIndexValue json_octets w = inr t /\
    str_ltb s t = index_ltb v w /\ (s = t <-> index_ltb v w = false /\ index_ltb w v = false).
Proof. apply encoded_order. Qed.

Lemma encodeIndexValue_order_witness :
  exists s t, encodeIndexValue (fun _ => []) (JNum (num_of_Z 9)) = inr s /\
    encodeIndexValue (fun _ => []) (JNum (num_of_Z 10)) = inr t /\ str_ltb s t = true.
Proof.
  destruct (encodeIndexValue_order (fun _ => []) (JNum (num_of_Z 9)) (JNum (num_of_Z 10))) as (s & t & Hs & Ht & Ho & _).
  - vm_compute. reflexivity.
  - vm_compute. reflexivity.
  - exists s, t. split; [exact Hs|]. split; [exact Ht|]. rewrite Ho. reflexivity.
Defined.

(** The predicate algebra orders strings by UTF-16 code unit, the keys by UTF-8 byte:
    above the surrogates the two disagree. *)
Lemma string_orders_differ :
  let a := JStr [55296; 56320]%N in
  let b := JStr [65535]%N in
  compareGT b a false = true /\
  exists s t, encodeIndexValue (fun _ => []) a = inr s /\ encodeIndexValue (fun _ => []) b = inr t /\ str_ltb t s = true.
Proof. split; [reflexivity|]. eexists _, _. split; [vm_compute; reflexivity|]. split; vm_compute; reflexivity. Qed.
