(* ===== verification/Lsn.v ===== *)
(** * Sequence keys, LSNs and cursors

    protocol/src/types.ts ([uint2str] and its descending form), time.ts
    ([timestamp]), log.ts ([lsnParts]), log-key.ts and cursor.ts, with the
    language's [Date.prototype.toISOString].  Numbers are exact integers: the
    encoders compute below 2^53, where doubles are exact. *)
From S2P Require Import Prelude JsText JsValue Errors Storage.
Local Open Scope Z_scope.

Definition COUNT_BIT_WIDTH : Z := 53.
Definition TIMESTAMP_BIT_WIDTH : Z := 42.

(** [num.toString(32)] of an integer. *)
Definition to_base32 (num : Z) : jsstr :=
  if num <? 0 then js "-" ++ to_radix 32 (Z.to_N (- num)) else to_radix 32 (Z.to_N num).

(** [Math.ceil(bits / 5)] *)
Definition base32_width (bits : Z) : nat := Z.to_nat ((bits + 4) / 5).

Definition uint2str (num bits : Z) : jsstr :=
  pad_start (base32_width bits) 48 (to_base32 num).

(** [None] is [NaN]. *)
Definition str2uint (s : jsstr) : option Z := parse_int 32 s.

Definition uint2strDesc (num bits : Z) : jsstr :=
  let maxValue := 2 ^ bits - 1 in uint2str (maxValue - num) bits.

Definition str2uintDesc (s : jsstr) (bits : Z) : option Z :=
  let maxValue := 2 ^ bits - 1 in
  match parse_int 32 s with
  | Some num => Some (maxValue - num)
  | None => None
  end.

Definition countKey (number : Z) : jsstr := uint2strDesc number COUNT_BIT_WIDTH.

(** [Math.pow(2, bits) - 1 - num] is exact, so is the range check. *)
Definition timestamp (epoch : Z) : result jsstr :=
  if (epoch <? 0) || (2 ^ TIMESTAMP_BIT_WIDTH <=? epoch) then inl (new_error Internal)
  else inr (uint2strDesc epoch TIMESTAMP_BIT_WIDTH).

(** ** LSNs *)
Definition underscore : N := 95.

Record lsn_parts := LsnParts { lsn_session : jsstr; lsn_seq : option Z }.

Definition lsnParts (lsn : jsstr) : result lsn_parts :=
  match split_on underscore lsn with
  | [_; session; seq] => inr (LsnParts session (str2uintDesc seq COUNT_BIT_WIDTH))
  | _ => inl (new_error InvalidResponse)
  end.

(** The LSN the writer mints: [`${lsnTimestamp}_${session}_${countKey(seq)}`]. *)
Definition mint_lsn (lsnTimestamp session : jsstr) (seq : Z) : jsstr :=
  lsnTimestamp ++ [underscore] ++ session ++ [underscore] ++ countKey seq.

(** ** Cursors *)
Definition NO_GENERATION : jsstr := js "-".
Definition dot : N := 46.

Definition formatCursor (generation : option jsstr) (lsn : jsstr) : jsstr :=
  match generation with
  | None => lsn
  | Some g => g ++ [dot] ++ lsn
  end.

Definition parseCursor (cursor : jsstr) : result (jsstr * jsstr) :=
  match split_on dot cursor with
  | [_] => inr (NO_GENERATION, cursor)
  | [g; lsn] => inr (g, lsn)
  | _ => inl (new_error SchemaError)
  end.

(** ** Log keys *)
Definition LOG_KEY_PREFIX : jsstr := js "log".

(** [String(n)] of an integer. *)
Definition show_Z (z : Z) : jsstr :=
  if z <? 0 then js "-" ++ to_radix 10 (Z.to_N (- z)) else to_radix 10 (Z.to_N z).

Definition logObjectKey (manifestPrefix : jsstr) (seq : Z) : jsstr :=
  manifestPrefix ++ js "/" ++ LOG_KEY_PREFIX ++ js "/" ++ show_Z seq ++ js ".json".

(** [key.slice(0, key.lastIndexOf("/"))]; without a slash the last unit goes. *)
Fixpoint last_slash (s : jsstr) : option nat :=
  match s with
  | [] => None
  | u :: s' => match last_slash s' with
               | Some i => Some (S i)
               | None => if (u =? slash)%N then Some O else None
               end
  end.

Definition log_prefix_of (key : jsstr) : jsstr :=
  match last_slash key with
  | Some i => take i key
  | None => take (pred (length key)) key
  end.

(** Keys under [<logPrefix>/log/]. *)
Definition under_log (logPrefix k : jsstr) : bool := starts_with (logPrefix ++ js "/log/") k.

(** ** [toISOString] of epoch milliseconds, years 0 to 9999 *)

(** Year, month and day of a day number counted from 1970-01-01. *)
Definition civil_of_days (days : Z) : Z * Z * Z :=
  let z := days + 719468 in
  let era := z / 146097 in
  let doe := z - era * 146097 in
  let yoe := (doe - doe / 1460 + doe / 36524 - doe / 146096) / 365 in
  let doy := doe - (365 * yoe + yoe / 4 - yoe / 100) in
  let mp := (5 * doy + 2) / 153 in
  let d := doy - (153 * mp + 2) / 5 + 1 in
  let m := if mp <? 10 then mp + 3 else mp - 9 in
  (yoe + era * 400 + (if m <=? 2 then 1 else 0), m, d).

Definition show_padded (w : nat) (z : Z) : jsstr := pad_start w 48 (show_Z z).

Definition toISOString (ms : Z) : jsstr :=
  let '(y, mo, d) := civil_of_days (ms / 86400000) in
  let t := ms mod 86400000 in
  show_padded 4 y ++ js "-" ++ show_padded 2 mo ++ js "-" ++ show_padded 2 d ++ js "T" ++
  show_padded 2 (t / 3600000) ++ js ":" ++ show_padded 2 (t / 60000 mod 60) ++ js ":" ++
  show_padded 2 (t / 1000 mod 60) ++ js "." ++ show_padded 3 (t mod 1000) ++ js "Z".

(** ** Lemmas *)

Lemma iso_epoch : toISOString 1709210096789 = js "2024-02-29T12:34:56.789Z".
Proof. by vm_compute. Qed.

(** Widths for which the encoders are exact and [b ^ width] covers the domain. *)
Definition width_ok (bits : Z) : Prop := 1 <= bits <= 53.

Lemma base32_width_S bits : width_ok bits -> exists w, base32_width bits = S w.
Proof.
  intros H. unfold base32_width. generalize (Z.div_mod (bits + 4) 5 ltac:(lia)),
    (Z.mod_pos_bound (bits + 4) 5 ltac:(lia)).
  generalize ((bits + 4) / 5), ((bits + 4) mod 5). intros q r ??. exists (pred (Z.to_nat q)).
  unfold width_ok in H. lia.
Qed.

Lemma pow_width bits : width_ok bits -> 2 ^ bits <= Z.of_N (32 ^ N.of_nat (base32_width bits)).
Proof.
  intros H. unfold width_ok in H. rewrite N2Z.inj_pow. change (Z.of_N 32) with (2 ^ 5).
  rewrite nat_N_Z, <- Z.pow_mul_r by lia. apply Z.pow_le_mono_r; [lia|].
  unfold base32_width. pose proof (Z.div_mod (bits + 4) 5 ltac:(lia)).
  pose proof (Z.mod_pos_bound (bits + 4) 5 ltac:(lia)). rewrite Z2Nat.id by lia. lia.
Qed.

Lemma uint2str_nonneg num bits : 0 <= num ->
  uint2str num bits = pad_start (base32_width bits) 48 (to_radix 32 (Z.to_N num)).
Proof. intros H. unfold uint2str, to_base32. by rewrite (proj2 (Z.ltb_ge _ _) H). Qed.

Lemma uint2str_order m n bits : width_ok bits -> 0 <= m < 2 ^ bits -> 0 <= n < 2 ^ bits ->
  str_ltb (uint2str m bits) (uint2str n bits) = (m <? n).
Proof.
  intros Hb Hm Hn. rewrite !uint2str_nonneg by lia. pose proof (pow_width bits Hb) as Hw.
  destruct (base32_width_S bits Hb) as [w Ew]. rewrite Ew in *. rewrite padded_order by lia.
  apply Bool.eq_true_iff_eq. rewrite N.ltb_lt, Z.ltb_lt. lia.
Qed.

Lemma uint2strDesc_order m n bits : width_ok bits -> 0 <= m < 2 ^ bits -> 0 <= n < 2 ^ bits ->
  str_ltb (uint2strDesc n bits) (uint2strDesc m bits) = (m <? n).
Proof.
  intros Hb Hm Hn. unfold uint2strDesc. cbv zeta. rewrite uint2str_order by (done || lia).
  apply Bool.eq_true_iff_eq. rewrite !Z.ltb_lt. lia.
Qed.

Lemma uint2strDesc_length n bits : width_ok bits -> 0 <= n < 2 ^ bits ->
  length (uint2strDesc n bits) = base32_width bits.
Proof.
  intros Hb Hn. unfold uint2strDesc. rewrite uint2str_nonneg by lia.
  pose proof (pow_width bits Hb) as Hw. destruct (base32_width_S bits Hb) as [w Ew]. rewrite Ew in *.
  apply padded_length; lia.
Qed.

Lemma str2uintDesc_uint2strDesc n bits : 0 <= n < 2 ^ bits ->
  str2uintDesc (uint2strDesc n bits) bits = Some n.
Proof.
  intros Hn. unfold uint2strDesc, str2uintDesc. rewrite uint2str_nonneg by lia.
  rewrite parse_int_padded by lia. f_equal. lia.
Qed.

(** The units of an encoded number are [0-9a-v]. *)
Lemma uint2strDesc_units n bits u : 0 <= n < 2 ^ bits -> u ∈ uint2strDesc n bits ->
  (48 <= u <= 57)%N \/ (97 <= u <= 118)%N.
Proof.
  intros Hn. unfold uint2strDesc. rewrite uint2str_nonneg by lia. unfold pad_start.
  rewrite elem_of_app. intros [Hu|Hu].
  - apply list_elem_of_In, repeat_spec in Hu || apply elem_of_replicate in Hu. left. destruct_and?; subst; lia.
  - apply to_radix_units in Hu as (d & Hd & ->); [|lia]. unfold digit_unit.
    destruct (N.ltb_spec d 10); lia.
Qed.

Lemma timestamp_ok epoch : 0 <= epoch < 2 ^ TIMESTAMP_BIT_WIDTH ->
  timestamp epoch = inr (uint2strDesc epoch TIMESTAMP_BIT_WIDTH).
Proof.
  intros H. unfold timestamp.
  by rewrite (proj2 (Z.ltb_ge _ _)), (proj2 (Z.leb_gt _ _)) by lia.
Qed.

Lemma lsnParts_mint ts session seq : underscore ∉ ts -> underscore ∉ session ->
  0 <= seq < 2 ^ COUNT_BIT_WIDTH ->
  lsnParts (mint_lsn ts session seq) = inr (LsnParts session (Some seq)).
Proof.
  intros Ht Hs Hq. unfold lsnParts, mint_lsn. cbn [app].
  rewrite split_on_app_sep, split_on_app_sep by done.
  rewrite split_on_no_sep.
  - unfold countKey. by rewrite str2uintDesc_uint2strDesc.
  - unfold countKey. intros H%uint2strDesc_units; [|done]. unfold underscore in H. lia.
Qed.

Lemma parse_format_cursor g lsn : dot ∉ lsn -> (forall x, g = Some x -> dot ∉ x) ->
  parseCursor (formatCursor g lsn) = inr (default NO_GENERATION g, lsn).
Proof.
  intros Hl Hg. unfold parseCursor, formatCursor. destruct g as [g|].
  - cbn [app]. rewrite split_on_app_sep by auto. by rewrite split_on_no_sep.
  - by rewrite split_on_no_sep.
Qed.

(** *** Log keys are injective in the sequence number *)
Lemma show_Z_inj m n : show_Z m = show_Z n -> m = n.
Proof.
  unfold show_Z. assert (Hd : forall k, hd 0%N (to_radix 10 k) <> 45%N).
  { intros k. destruct (radix_digits_spec 10 k) as (_ & Hds & Hne & _); [lia|].
    unfold to_radix. destruct Hds as [|d ds Hd _]; [done|]. simpl. unfold digit_unit.
    destruct (N.ltb_spec d 10); lia. }
  destruct (Z.ltb_spec m 0), (Z.ltb_spec n 0); intros E.
  - apply app_inv_head, to_radix_inj in E; lia.
  - destruct (Hd (Z.to_N n)). by rewrite <- E.
  - destruct (Hd (Z.to_N m)). by rewrite E.
  - apply to_radix_inj in E; lia.
Qed.

Lemma logObjectKey_inj p m n : logObjectKey p m = logObjectKey p n -> m = n.
Proof.
  unfold logObjectKey. rewrite !app_assoc. intros E. apply app_inv_tail in E.
  rewrite <- !app_assoc in E. apply app_inv_head, app_inv_head, app_inv_head, app_inv_head in E.
  by apply show_Z_inj in E.
Qed.

(** ** The manifest is not a log key *)

Lemma last_slash_spec s :
  match last_slash s with
  | Some i => exists t, s = take i s ++ slash :: t /\ slash ∉ t
  | None => slash ∉ s
  end.
Proof.
  induction s as [|u s IH]; cbn [last_slash]; [apply not_elem_of_nil|].
  destruct (last_slash s) as [i|].
  - destruct IH as (t & Ht & Hn). exists t. cbn [take]. split; [|done]. cbn [app]. by rewrite <- Ht.
  - destruct (N.eqb_spec u slash) as [->|Hne].
    + exists s. by split.
    + rewrite not_elem_of_cons. by split.
Qed.

Lemma manifest_outside_log key : under_log (log_prefix_of key) key = false.
Proof.
  apply not_true_iff_false. unfold under_log. intros [t Ht]%starts_with_spec.
  unfold log_prefix_of in Ht. pose proof (last_slash_spec key) as Hs.
  destruct (last_slash key) as [i|].
  - destruct Hs as (rest & Hr & Hn). rewrite Hr in Ht at 1. rewrite <- app_assoc in Ht.
    apply app_inv_head in Ht. apply Hn. change (js "/log/") with (slash :: js "log/") in Ht.
    assert (rest = js "log/" ++ t) as -> by exact (f_equal tail Ht). apply elem_of_app. left. apply (bool_decide_unpack _). by vm_compute.
  - apply (f_equal length) in Ht. rewrite !length_app, length_take in Ht. simpl in Ht. lia.
Qed.

Lemma under_log_slot p seq : under_log p (logObjectKey p seq) = true.
Proof.
  unfold under_log, logObjectKey, LOG_KEY_PREFIX. apply starts_with_spec. exists (show_Z seq ++ js ".json").
  rewrite <- app_assoc. reflexivity.
Qed.

Lemma slot_not_manifest key seq : logObjectKey (log_prefix_of key) seq <> key.
Proof.
  intros E. assert (under_log (log_prefix_of key) (logObjectKey (log_prefix_of key) seq) = false) as H
    by (rewrite E; apply manifest_outside_log).
  by rewrite under_log_slot in H.
Qed.

(** ** Theorems *)

(** The order reversal property: over the whole domain of a bit width, encoded
    numbers have one length and compare in the reverse order of the numbers, and
    decoding inverts encoding. *)
Theorem uint2strDesc_reverses bits m n : 1 <= bits <= 53 -> 0 <= m < 2 ^ bits -> 0 <= n < 2 ^ bits ->
  length (uint2strDesc m bits) = length (uint2strDesc n bits) /\
  str_ltb (uint2strDesc n bits) (uint2strDesc m bits) = (m <? n) /\
  str2uintDesc (uint2strDesc n bits) bits = Some n.
Proof.
  intros Hb Hm Hn. rewrite !uint2strDesc_length by done.
  split; [done|]. split; [by apply uint2strDesc_order|by apply str2uintDesc_uint2strDesc].
Qed.

Lemma uint2strDesc_reverses_witness :
  str_ltb (uint2strDesc 1000 53) (uint2strDesc 31 53) = true.
Proof. apply (uint2strDesc_reverses 53 31 1000); lia. Defined.

(** An LSN minted from a valid clock reading, a session without underscore and a
    sequence number splits back into that session and number, and the cursor of a
    generation and an LSN parses back into both. *)
Theorem lsn_cursor_roundtrip epoch ts session seq g :
  timestamp epoch = inr ts -> underscore ∉ session -> dot ∉ session -> 0 <= seq < 2 ^ COUNT_BIT_WIDTH ->
  (forall x, g = Some x -> dot ∉ x) ->
  lsnParts (mint_lsn ts session seq) = inr (LsnParts session (Some seq)) /\
  parseCursor (formatCursor g (mint_lsn ts session seq)) = inr (default NO_GENERATION g, mint_lsn ts session seq).
Proof.
  intros Ht Hs Hd Hq Hg. unfold timestamp in Ht.
  destruct ((epoch <? 0) || (2 ^ TIMESTAMP_BIT_WIDTH <=? epoch)) eqn:E; [done|]. injection Ht as <-.
  apply orb_false_iff in E as [E1%Z.ltb_ge E2%Z.leb_gt].
  assert (Hu : forall u, u ∈ uint2strDesc epoch TIMESTAMP_BIT_WIDTH -> u <> underscore /\ u <> dot).
  { intros u Hin%uint2strDesc_units; [|done]. unfold underscore, dot. lia. }
  split.
  - apply lsnParts_mint; [|done..]. intros Hin. by destruct (Hu _ Hin).
  - apply parse_format_cursor; [|done]. unfold mint_lsn. rewrite !elem_of_app, !list_elem_of_singleton.
    intros [Hin|[Hin|[Hin|[Hin|Hin]]]]; [by destruct (Hu _ Hin)|done|done|done|].
    unfold countKey in Hin. apply uint2strDesc_units in Hin; [|done]. unfold dot in Hin. lia.
Qed.

Lemma lsn_cursor_roundtrip_witness :
  lsnParts (mint_lsn (uint2strDesc 1709210096789 42) (js "ab12cd") 77) = inr (LsnParts (js "ab12cd") (Some 77)).
Proof.
  apply (lsn_cursor_roundtrip 1709210096789 _ _ _ (Some (js "0f"))).
  - vm_compute. reflexivity.
  - apply (bool_decide_unpack _). vm_compute. exact I.
  - apply (bool_decide_unpack _). vm_compute. exact I.
  - vm_compute. split; [discriminate|reflexivity].
  - intros x [= <-]. apply (bool_decide_unpack _). vm_compute. exact I.
Defined.

(** Log slots do not collide: under one prefix two sequence numbers share an
    object key only when they are equal. *)
Theorem logObjectKey_injective prefix m n : logObjectKey prefix m = logObjectKey prefix n <-> m = n.
Proof. split; [apply logObjectKey_inj|by intros ->]. Qed.
