(* ===== verification/CurrentJson.v ===== *)
(** * [current.json] (protocol/src/coordination/current-json.ts)

    The per-collection control object: its decoding guard, create, the
    compare-and-swap update with its transition check, the writer claim, and the
    floors every reader derives from it.  A validated manifest is a record of the
    documented fields plus the unknown keys a tolerant reader carries through. *)
From S2P Require Import Prelude JsText JsValue Errors Json Storage Effects Lsn.
Local Open Scope Z_scope.

Definition CURRENT_JSON_SCHEMA_VERSION : Z := 3.

Record WriterFence := Fence {
  epoch : Z;
  owner : jsstr;
  claimed_at : jsstr;
  lease_until : option jsstr;
  fence_extra : list (jsstr * jsval)
}.

Record CurrentJson := Current {
  snapshot : option jsstr;
  tail_hint : Z;
  log_seq_start : Z;
  writer_fence : WriterFence;
  snapshot_bytes : Z;
  snapshot_rows : Z;
  mean_entry_bytes : option Z;
  last_warned_seq : option Z;
  log_delete_floor : option Z;
  generation : option jsstr;
  extra : list (jsstr * jsval)
}.

(** ** Encoding *)
Definition num (z : Z) : jsval := JNum (num_of_Z z).

Definition opt_field {A} (key : jsstr) (f : A -> jsval) (o : option A) : list (jsstr * jsval) :=
  match o with Some x => [(key, f x)] | None => [] end.

Definition fence_keys : list jsstr := js <$> ["epoch"; "owner"; "claimed_at"; "lease_until"]%string.

Definition current_keys : list jsstr :=
  js <$> ["schema_version"; "snapshot"; "tail_hint"; "log_seq_start"; "writer_fence";
          "snapshot_bytes"; "snapshot_rows"; "mean_entry_bytes"; "last_warned_seq";
          "log_delete_floor"; "generation"]%string.

Definition fence_json (f : WriterFence) : jsval :=
  JObj ([(js "epoch", num (epoch f)); (js "owner", JStr (owner f));
         (js "claimed_at", JStr (claimed_at f))] ++
        opt_field (js "lease_until") JStr (lease_until f) ++ fence_extra f).

Definition current_json (c : CurrentJson) : jsval :=
  JObj ([(js "schema_version", num CURRENT_JSON_SCHEMA_VERSION);
         (js "snapshot", match snapshot c with Some s => JStr s | None => JNull end);
         (js "tail_hint", num (tail_hint c)); (js "log_seq_start", num (log_seq_start c));
         (js "writer_fence", fence_json (writer_fence c));
         (js "snapshot_bytes", num (snapshot_bytes c));
         (js "snapshot_rows", num (snapshot_rows c))] ++
        opt_field (js "mean_entry_bytes") num (mean_entry_bytes c) ++
        opt_field (js "last_warned_seq") num (last_warned_seq c) ++
        opt_field (js "log_delete_floor") num (log_delete_floor c) ++
        opt_field (js "generation") JStr (generation c) ++ extra c).

(** ** The runtime guard *)

(** [typeof v === "number" && Number.isInteger(v) && v >= 0] *)
Definition nonneg_integer (v : jsval) : option Z :=
  match v with
  | JNum n => match num_integer n with
              | Some z => if z <? 0 then None else Some z
              | None => None
              end
  | _ => None
  end.

(** [v === undefined || f(v)]: the outer [None] is a rejection. *)
Definition if_present {A} (f : jsval -> option A) (v : jsval) : option (option A) :=
  match v with
  | JUndef => Some None
  | _ => Some <$> f v
  end.

Definition as_string (v : jsval) : option jsstr := match v with JStr s => Some s | _ => None end.

Definition snapshot_field (v : jsval) : option (option jsstr) :=
  match v with JStr s => Some (Some s) | JNull => Some None | _ => None end.

Definition is_lower_hex (u : N) : bool :=
  ((48 <=? u) && (u <=? 57) || (97 <=? u) && (u <=? 102))%N.

(** [GENERATION_RE] *)
Definition generation_field (v : jsval) : option jsstr :=
  match v with
  | JStr s => if negb (bool_decide (s = [])) && forallb is_lower_hex s then Some s else None
  | _ => None
  end.

(** The own keys of [o] that are not documented fields. *)
Definition unknown_keys (known : list jsstr) (o : list (jsstr * jsval)) : list (jsstr * jsval) :=
  base.filter (fun kv => kv.1 ∉ known) o.

Definition assertWriterFence (v : jsval) : option WriterFence :=
  match v with
  | JObj f =>
    e ← nonneg_integer (js_get f (js "epoch"));
    ow ← as_string (js_get f (js "owner"));
    ca ← as_string (js_get f (js "claimed_at"));
    lu ← if_present as_string (js_get f (js "lease_until"));
    Some (Fence e ow ca lu (unknown_keys fence_keys f))
  | _ => None
  end.

(** Every rejection is [InvalidResponse]: [None] here. *)
Definition current_guard (parsed : jsval) : option CurrentJson :=
  match parsed with
  | JObj r =>
    if negb (strict_eq (js_get r (js "schema_version")) (num CURRENT_JSON_SCHEMA_VERSION)) then None
    else
      sn ← snapshot_field (js_get r (js "snapshot"));
      th ← nonneg_integer (js_get r (js "tail_hint"));
      ls ← nonneg_integer (js_get r (js "log_seq_start"));
      if th <? ls then None else
      wf ← assertWriterFence (js_get r (js "writer_fence"));
      sb ← nonneg_integer (js_get r (js "snapshot_bytes"));
      sr ← nonneg_integer (js_get r (js "snapshot_rows"));
      lw ← if_present nonneg_integer (js_get r (js "last_warned_seq"));
      df ← if_present nonneg_integer (js_get r (js "log_delete_floor"));
      me ← if_present nonneg_integer (js_get r (js "mean_entry_bytes"));
      ge ← if_present generation_field (js_get r (js "generation"));
      Some (Current sn th ls wf sb sr me lw df ge (unknown_keys current_keys r))
  | _ => None
  end.

Definition assertCurrentJson (parsed : jsval) : result CurrentJson :=
  match current_guard parsed with
  | Some c => inr c
  | None => inl (new_error InvalidResponse)
  end.

(** ** Floors *)
Definition logSeqStartOf (c : CurrentJson) : Z := log_seq_start c.

Definition logDeleteFloorOf (c : CurrentJson) : Z := default 0 (log_delete_floor c).

Definition certifiedDeleteFloor (c : CurrentJson) : Z :=
  Z.min (logDeleteFloorOf c) (logSeqStartOf c).

(** ** Transition admission *)
Definition assertCurrentJsonTransition (before after : CurrentJson) : option js_error :=
  if log_seq_start after <? log_seq_start before then Some (new_error Internal)
  else
    let beforeDeleteFloor := logDeleteFloorOf before in
    let afterDeleteFloor := logDeleteFloorOf after in
    if afterDeleteFloor <? beforeDeleteFloor then Some (new_error Internal)
    else if log_seq_start after <? afterDeleteFloor then Some (new_error Internal)
    else None.

(** ** Storage operations *)
Record CurrentJsonRead := CurrentRead { json : CurrentJson; read_etag : jsstr }.

(** [encodeJson]; a bigint in an unknown key cannot come out of [JSON.parse]. *)
Definition encodeJson (c : CurrentJson) : prog bytes :=
  match encodeJsonBytes (current_json c) with
  | Some b => Ret b
  | None => Throw OtherError
  end.

Definition decode_current (b : bytes) : result CurrentJson :=
  match decodeJsonBytes b with
  | None => inl (new_error_cause InvalidResponse OtherError)
  | Some parsed => assertCurrentJson parsed
  end.

Definition readCurrentJson (key : jsstr) : prog (option CurrentJsonRead) :=
  bind (storage_get key) (fun got =>
  match got with
  | None => Ret None
  | Some got => bind (of_result (decode_current (body got))) (fun c =>
                Ret (Some (CurrentRead c (etag got))))
  end).

(** [WriteConflict] is re-thrown with context, other [BaerlyError]s pass, anything
    else is wrapped as [InvalidResponse]. *)
Definition translateCasError (e : js_error) : js_error :=
  if isWriteConflict e then new_error_cause WriteConflict e
  else match e with
       | BaerlyError _ _ _ _ => e
       | _ => new_error_cause InvalidResponse e
       end.

(** The guard of a typed value: its shape checks. *)
Definition check_current (c : CurrentJson) : prog unit :=
  bind (of_result (assertCurrentJson (current_json c))) (fun _ => Ret tt).

Definition createCurrentJson (key : jsstr) (initial : CurrentJson) : prog CurrentJsonRead :=
  bind (check_current initial) (fun _ =>
  bind (encodeJson initial) (fun b =>
  bind (catch (storage_put key b create_only) (fun e => Throw (translateCasError e))) (fun result =>
  Ret (CurrentRead initial (put_etag result))))).

(** The mutator is a closure: [X] is what it assigns to a captured variable. *)
Definition casUpdateCurrentJson {X} (key : jsstr) (mutator : CurrentJson -> result (CurrentJson * X)) :
    prog (CurrentJsonRead * X) :=
  bind (readCurrentJson key) (fun existing =>
  match existing with
  | None => Throw (new_error InvalidResponse)
  | Some existing =>
    bind (of_result (mutator (json existing))) (fun '(next, x) =>
    bind (check_current next) (fun _ =>
    bind (check (assertCurrentJsonTransition (json existing) next)) (fun _ =>
    bind (encodeJson next) (fun b =>
    bind (catch (storage_put key b (if_match (read_etag existing)))
            (fun e => Throw (translateCasError e))) (fun result =>
    Ret (CurrentRead next (put_etag result), x))))))
  end).

(** ** The writer claim *)
Definition with_fence (f : WriterFence) (c : CurrentJson) : CurrentJson :=
  Current (snapshot c) (tail_hint c) (log_seq_start c) f (snapshot_bytes c) (snapshot_rows c)
    (mean_entry_bytes c) (last_warned_seq c) (log_delete_floor c) (generation c) (extra c).

(** The fence literal of the first put: [claimed_at] is not known yet. *)
Definition provisional_claim (owner : jsstr) (c : CurrentJson) : CurrentJson :=
  with_fence (Fence (epoch (writer_fence c) + 1) owner [] (lease_until (writer_fence c)) []) c.

Definition stamp_claim (date : Z) (c : CurrentJson) : CurrentJson :=
  let f := writer_fence c in
  with_fence (Fence (epoch f) (owner f) (toISOString date) (lease_until f) (fence_extra f)) c.

Definition put_manifest (key : jsstr) (c : CurrentJson) (etag : jsstr) : prog StoragePutResult :=
  bind (encodeJson c) (fun b =>
  catch (storage_put key b (if_match etag)) (fun e => Throw (translateCasError e))).

Definition claimWriter (key : jsstr) (owner : jsstr) : prog CurrentJsonRead :=
  bind (readCurrentJson key) (fun existing =>
  match existing with
  | None => Throw (new_error InvalidResponse)
  | Some existing =>
    let provisional := provisional_claim owner (json existing) in
    bind (check (assertCurrentJsonTransition (json existing) provisional)) (fun _ =>
    bind (put_manifest key provisional (read_etag existing)) (fun result =>
    match serverDate result with
    | None => Ret (CurrentRead provisional (put_etag result))
    | Some date =>
      let stamped := stamp_claim date provisional in
      bind (check (assertCurrentJsonTransition provisional stamped)) (fun _ =>
      bind (put_manifest key stamped (put_etag result)) (fun stampResult =>
      Ret (CurrentRead stamped (put_etag stampResult))))
    end))
  end).

(** ** Representation and shape of a manifest *)

(** The unknown keys of a record are just that: distinct, unknown and JSON. *)
Definition extras_wf (known : list jsstr) (ex : list (jsstr * jsval)) : Prop :=
  NoDup (own_keys ex) /\
  Forall (fun kv => (kv.1 ∉ known) /\ json_ok kv.2 = true) ex.

Definition extras_ok (c : CurrentJson) : Prop :=
  extras_wf current_keys (extra c) /\ extras_wf fence_keys (fence_extra (writer_fence c)).

Definition opt_nonneg (o : option Z) : Prop := match o with Some z => 0 <= z | None => True end.

Definition generation_ok (g : option jsstr) : Prop :=
  match g with Some s => s <> [] /\ forallb is_lower_hex s = true | None => True end.

(** The documented single-state bounds. *)
Definition shape_ok (c : CurrentJson) : Prop :=
  0 <= log_seq_start c <= tail_hint c /\ 0 <= epoch (writer_fence c) /\
  0 <= snapshot_bytes c /\ 0 <= snapshot_rows c /\ opt_nonneg (last_warned_seq c) /\
  opt_nonneg (log_delete_floor c) /\ opt_nonneg (mean_entry_bytes c) /\
  generation_ok (generation c).

(** ** Reading fields back *)

Lemma js_get_hd k v o : js_get ((k, v) :: o) k = v.
Proof. unfold js_get. cbn [own_get]. by rewrite decide_True. Qed.

Lemma js_get_tl k k' v o : k' <> k -> js_get ((k', v) :: o) k = js_get o k.
Proof. intros H. unfold js_get. cbn [own_get]. by rewrite decide_False. Qed.

Lemma js_get_opt_eq {A} k (f : A -> jsval) o r :
  js_get (opt_field k f o ++ r) k = match o with Some x => f x | None => js_get r k end.
Proof. destruct o; [apply js_get_hd | done]. Qed.

Lemma js_get_opt_ne {A} k k' (f : A -> jsval) o r : k' <> k ->
  js_get (opt_field k' f o ++ r) k = js_get r k.
Proof. intros H. destruct o; [by apply js_get_tl | done]. Qed.

Lemma js_get_absent o k : k ∉ own_keys o -> k <> js "__proto__" ->
  k ∉ object_prototype_functions -> js_get o k = JUndef.
Proof.
  intros Hk Hp Hf. unfold js_get. rewrite (proj2 (own_get_None k o) Hk).
  by rewrite !decide_False.
Qed.

Lemma js_get_extra known ex k : extras_wf known ex -> k ∈ known -> k <> js "__proto__" ->
  k ∉ object_prototype_functions -> js_get ex k = JUndef.
Proof.
  intros [_ Hex] Hk. apply js_get_absent. unfold own_keys. intros Hin.
  apply list_elem_of_fmap in Hin as (kv & -> & Hin).
  rewrite Forall_forall in Hex. by destruct (Hex kv Hin).
Qed.

(** Decide a (dis)equality or membership of literal keys. *)
Ltac js_decide := apply (bool_decide_unpack _); vm_compute; exact I.

Ltac js_fields :=
  repeat first
    [ rewrite js_get_hd
    | rewrite js_get_tl by js_decide
    | rewrite js_get_opt_eq
    | rewrite js_get_opt_ne by js_decide ].

Lemma nonneg_integer_num z : 0 <= z -> nonneg_integer (num z) = Some z.
Proof.
  intros H. unfold nonneg_integer, num. rewrite num_integer_of_Z.
  by rewrite (proj2 (Z.ltb_ge _ _) H).
Qed.

Lemma nonneg_integer_num_inv z z' : nonneg_integer (num z) = Some z' -> z' = z /\ 0 <= z.
Proof.
  unfold nonneg_integer, num. rewrite num_integer_of_Z.
  destruct (Z.ltb_spec z 0); [done|]. by intros [= <-].
Qed.

Lemma nonneg_integer_Some v z : nonneg_integer v = Some z -> 0 <= z.
Proof.
  destruct v as [| |b|n|s|l|o|x]; try done. simpl. destruct (num_integer n) as [i|]; [|done].
  destruct (Z.ltb_spec i 0); [done|]. by intros [= <-].
Qed.

Lemma if_present_num o : opt_nonneg o ->
  if_present nonneg_integer (match o with Some z => num z | None => JUndef end) = Some o.
Proof.
  destruct o as [z|]; [|done]. intros H. unfold if_present. unfold num at 1. by rewrite nonneg_integer_num.
Qed.

Lemma if_present_num_inv o o' :
  if_present nonneg_integer (match o with Some z => num z | None => JUndef end) = Some o' ->
  o' = o /\ opt_nonneg o.
Proof.
  destruct o as [z|]; [|by intros [= <-]]. unfold if_present.
  change (match num z with JUndef => Some None | _ => fmap Some (nonneg_integer (num z)) end)
    with (fmap Some (nonneg_integer (num z))).
  destruct (nonneg_integer (num z)) as [z'|] eqn:E; [|done].
  apply nonneg_integer_num_inv in E as [-> ?]. by intros [= <-].
Qed.

Lemma if_present_string o :
  if_present as_string (match o with Some s => JStr s | None => JUndef end) = Some o.
Proof. by destruct o. Qed.

Lemma generation_field_spec s : generation_field (JStr s) =
  if decide (generation_ok (Some s)) then Some s else None.
Proof.
  unfold generation_field, generation_ok. case_decide as H.
  - destruct H as [Hne ->]. by rewrite bool_decide_eq_false_2.
  - case_bool_decide; [done|]. simpl. destruct (forallb _ s); [tauto|done].
Qed.

Lemma if_present_generation o o' :
  if_present generation_field (match o with Some s => JStr s | None => JUndef end) = Some o' <->
  o' = o /\ generation_ok o.
Proof.
  destruct o as [s|].
  - unfold if_present. rewrite generation_field_spec. case_decide; naive_solver.
  - simpl. naive_solver.
Qed.

Lemma unknown_keys_extra known ex : extras_wf known ex -> unknown_keys known ex = ex.
Proof.
  intros [_ Hex]. unfold unknown_keys. induction Hex as [|kv ex [Hkv _] _ IH]; [done|].
  by rewrite filter_cons_True, IH.
Qed.

Lemma unknown_keys_known known k v o : k ∈ known -> unknown_keys known ((k, v) :: o) = unknown_keys known o.
Proof. intros H. unfold unknown_keys. rewrite filter_cons_False; [done|]. intros Hn. by apply Hn. Qed.

Lemma unknown_keys_opt {A} known k (f : A -> jsval) o r : k ∈ known ->
  unknown_keys known (opt_field k f o ++ r) = unknown_keys known r.
Proof. intros H. destruct o; [by apply unknown_keys_known | done]. Qed.

Ltac js_unknown :=
  repeat first [ rewrite unknown_keys_known by js_decide | rewrite unknown_keys_opt by js_decide ].

(** What the guard reads back from the JSON of a record. *)
Lemma fence_guard_json f : extras_wf fence_keys (fence_extra f) ->
  assertWriterFence (fence_json f) = if decide (0 <= epoch f) then Some f else None.
Proof.
  intros Hex. unfold assertWriterFence, fence_json. cbn [app]. js_fields.
  rewrite (js_get_extra fence_keys) by (done || js_decide). js_unknown.
  rewrite unknown_keys_extra, if_present_string by done. case_decide as He.
  - rewrite nonneg_integer_num by done. by destruct f.
  - unfold nonneg_integer, num. rewrite num_integer_of_Z. by destruct (Z.ltb_spec (epoch f) 0); [|lia].
Qed.

Lemma snapshot_field_json (o : option jsstr) :
  snapshot_field (match o with Some s => JStr s | None => JNull end) = Some o.
Proof. by destruct o. Qed.

Lemma strict_eq_num z : strict_eq (num z) (num z) = true.
Proof. simpl. by apply bool_decide_eq_true. Qed.

(** The guard on the JSON of a record, field by field. *)
Lemma guard_current_json_eq c : extras_ok c ->
  current_guard (current_json c) =
    (th ← nonneg_integer (num (tail_hint c));
     ls ← nonneg_integer (num (log_seq_start c));
     if th <? ls then None else
     wf ← (if decide (0 <= epoch (writer_fence c)) then Some (writer_fence c) else None);
     sb ← nonneg_integer (num (snapshot_bytes c));
     sr ← nonneg_integer (num (snapshot_rows c));
     lw ← if_present nonneg_integer
            (match last_warned_seq c with Some z => num z | None => JUndef end);
     df ← if_present nonneg_integer
            (match log_delete_floor c with Some z => num z | None => JUndef end);
     me ← if_present nonneg_integer
            (match mean_entry_bytes c with Some z => num z | None => JUndef end);
     ge ← if_present generation_field
            (match generation c with Some s => JStr s | None => JUndef end);
     Some (Current (snapshot c) th ls wf sb sr me lw df ge (extra c))).
Proof.
  intros [Hex Hfe]. unfold current_guard, current_json. cbn [app]. js_fields.
  rewrite !(js_get_extra current_keys) by (done || js_decide).
  rewrite strict_eq_num, snapshot_field_json, fence_guard_json by done. js_unknown.
  by rewrite unknown_keys_extra.
Qed.

(** Decoding inverts encoding exactly on the records within their bounds. *)
Lemma guard_current_json c : extras_ok c -> shape_ok c -> current_guard (current_json c) = Some c.
Proof.
  intros Hex (Hls & He & Hsb & Hsr & Hlw & Hdf & Hme & Hge).
  rewrite guard_current_json_eq by done.
  rewrite !nonneg_integer_num by lia. cbn [mbind option_bind].
  destruct (Z.ltb_spec (tail_hint c) (log_seq_start c)); [lia|].
  rewrite decide_True by done. cbn [mbind option_bind].
  rewrite !if_present_num by done. cbn [mbind option_bind].
  rewrite (proj2 (if_present_generation _ (generation c))) by done. by destruct c.
Qed.

Lemma guard_current_json_inv c c' : extras_ok c -> current_guard (current_json c) = Some c' ->
  c' = c /\ shape_ok c.
Proof.
  intros Hex. rewrite guard_current_json_eq by done. intros H.
  repeat match type of H with
    | (_ ≫= _) = Some _ => apply bind_Some in H as (? & ?E & H)
    | (if ?b then None else _) = Some _ => destruct b eqn:?Eb; [done|]
    end.
  repeat match goal with
    | E : nonneg_integer (num _) = Some _ |- _ => apply nonneg_integer_num_inv in E as [-> ?]
    | E : if_present nonneg_integer _ = Some _ |- _ => apply if_present_num_inv in E as [-> ?]
    | E : if_present generation_field _ = Some _ |- _ => apply if_present_generation in E as [-> ?]
    | E : (if decide _ then _ else _) = Some _ |- _ => case_decide; [injection E as <-|done]
    | E : (_ <? _) = false |- _ => apply Z.ltb_ge in E
    end.
  injection H as <-. split; [by destruct c|]. unfold shape_ok. repeat split; done || lia.
Qed.

Lemma unknown_keys_wf known o : json_ok (JObj o) = true -> extras_wf known (unknown_keys known o).
Proof.
  intros [Hnd Ho]%json_ok_obj. split.
  - eapply sublist_NoDup; [exact Hnd|]. apply fmap_sublist, sublist_filter.
  - apply Forall_forall. intros kv [Hkv Hin]%list_elem_of_filter. split; [done|].
    rewrite Forall_forall in Ho. by apply Ho.
Qed.

Lemma js_get_json_ok o k l : json_ok (JObj o) = true -> js_get o k = JObj l -> json_ok (JObj l) = true.
Proof.
  intros [_ Ho]%json_ok_obj. unfold js_get. destruct (own_get k o) as [v|] eqn:E.
  - intros ->. apply own_get_In in E. rewrite Forall_forall in Ho. by apply (Ho (k, JObj l)).
  - repeat case_decide; intros; by simplify_eq.
Qed.

Lemma fence_guard_wf o k f : json_ok (JObj o) = true -> assertWriterFence (js_get o k) = Some f ->
  extras_wf fence_keys (fence_extra f) /\ 0 <= epoch f.
Proof.
  intros Ho. unfold assertWriterFence. destruct (js_get o k) as [| | | | | |r|] eqn:Er; try done. intros H.
  apply bind_Some in H as (e & He & H). apply bind_Some in H as (? & _ & H).
  apply bind_Some in H as (? & _ & H). apply bind_Some in H as (? & _ & H). injection H as <-.
  split; [|by eapply nonneg_integer_Some]. by eapply unknown_keys_wf, js_get_json_ok.
Qed.

Lemma if_present_nonneg v o : if_present nonneg_integer v = Some o -> opt_nonneg o.
Proof.
  destruct v; cbn [if_present]; intros H; try (by injection H as <-);
    apply fmap_Some in H as (z & Hz & ->); by eapply nonneg_integer_Some.
Qed.

Lemma if_present_generation_ok v o : if_present generation_field v = Some o -> generation_ok o.
Proof.
  destruct v; cbn [if_present]; intros H; try (by injection H as <-);
    apply fmap_Some in H as (g & Hg & ->); try done.
  rewrite generation_field_spec in Hg. by case_decide; simplify_eq.
Qed.

(** Whatever passes the guard is within the documented bounds. *)
Lemma current_guard_wf v c : json_ok v = true -> current_guard v = Some c -> extras_ok c /\ shape_ok c.
Proof.
  intros Hv. unfold current_guard. destruct v as [| | | | | |r|]; try done.
  destruct (negb _); [done|]. intros H.
  repeat match type of H with
    | (_ ≫= _) = Some _ => apply bind_Some in H as (? & ?E & H)
    | (if ?b then None else _) = Some _ => destruct b eqn:?Eb; [done|]
    end.
  injection H as <-. apply Z.ltb_ge in Eb.
  repeat match goal with
    | E : nonneg_integer _ = Some _ |- _ => apply nonneg_integer_Some in E
    | E : if_present nonneg_integer _ = Some _ |- _ => apply if_present_nonneg in E
    | E : if_present generation_field _ = Some _ |- _ => apply if_present_generation_ok in E
    | E : assertWriterFence _ = Some _ |- _ => apply fence_guard_wf in E as [? ?]; [|done]
    end.
  split; [split; [by apply unknown_keys_wf|done]|]. unfold shape_ok. repeat split; done || lia.
Qed.

Lemma decode_current_wf b c : decode_current b = inr c -> extras_ok c /\ shape_ok c.
Proof.
  unfold decode_current. destruct (decodeJsonBytes b) as [v|] eqn:E; [|done].
  apply decode_json_ok in E. unfold assertCurrentJson.
  destruct (current_guard v) as [c'|] eqn:Eg; [|done]. intros [= <-]. by eapply current_guard_wf.
Qed.

Lemma json_ok_num z : json_ok (num z) = true.
Proof. done. Qed.

Lemma extras_json known hd ex : extras_wf known ex -> NoDup (own_keys hd) ->
  (forall k, k ∈ own_keys hd -> k ∈ known) -> Forall (fun kv => json_ok kv.2 = true) hd ->
  json_ok (JObj (hd ++ ex)) = true.
Proof.
  intros [Hnd Hex] Hhd Hk Hok. apply json_ok_obj. unfold own_keys. rewrite fmap_app. split.
  - apply NoDup_app. split; [done|]. split; [|done]. intros k Hin1 Hin2.
    apply list_elem_of_fmap in Hin2 as (kv & -> & Hin). rewrite Forall_forall in Hex.
    destruct (Hex kv Hin) as [Hn _]. by apply Hn, Hk.
  - apply Forall_app. split; [done|]. eapply Forall_impl; [exact Hex|]. by intros ? [_ ?].
Qed.

Lemma keys_in_known (l known : list jsstr) :
  forallb (fun k => bool_decide (k ∈ known)) l = true -> forall k, k ∈ l -> k ∈ known.
Proof.
  rewrite forallb_forall. intros H k Hk. apply list_elem_of_In in Hk.
  by apply H, bool_decide_eq_true in Hk.
Qed.

Lemma fence_json_ok f : extras_wf fence_keys (fence_extra f) -> json_ok (fence_json f) = true.
Proof.
  intros Hex. unfold fence_json. rewrite app_assoc. apply (extras_json fence_keys); [done|..].
  - destruct (lease_until f); js_decide.
  - apply keys_in_known. destruct (lease_until f); by vm_compute.
  - by destruct (lease_until f); repeat constructor.
Qed.

Lemma current_json_ok c : extras_ok c -> json_ok (current_json c) = true.
Proof.
  intros [Hex Hfe]. unfold current_json. rewrite !app_assoc.
  destruct c as [sn th ls wf sb sr me lw df ge ex]; cbn [snapshot tail_hint log_seq_start
    writer_fence snapshot_bytes snapshot_rows mean_entry_bytes last_warned_seq log_delete_floor
    generation extra] in *.
  apply (extras_json current_keys); [done|..].
  - destruct me, lw, df, ge; js_decide.
  - apply keys_in_known. destruct me, lw, df, ge; by vm_compute.
  - pose proof (fence_json_ok wf Hfe) as Hf.
    assert (Hsn : json_ok (match sn with Some s => JStr s | None => JNull end) = true) by by destruct sn.
    destruct me, lw, df, ge; repeat first [constructor | done].
Qed.

Lemma encode_current c : extras_ok c -> encodeJsonBytes (current_json c) = Some (JsonText (current_json c)).
Proof. intros H. by apply encode_ok, current_json_ok. Qed.

Lemma decode_encode_current c : extras_ok c -> shape_ok c ->
  decode_current (JsonText (current_json c)) = inr c.
Proof.
  intros Hex Hs. unfold decode_current, decodeJsonBytes. cbn [mbind option_bind].
  rewrite (current_json_ok c Hex). unfold assertCurrentJson. by rewrite guard_current_json.
Qed.

(** ** Floors *)

(** The two floors of a transition that [assertCurrentJsonTransition] admits. *)
Definition floors_le (c c' : CurrentJson) : Prop :=
  log_seq_start c <= log_seq_start c' /\ logDeleteFloorOf c <= logDeleteFloorOf c'.

Global Instance floors_le_preorder : PreOrder floors_le.
Proof. split; [done|]. intros a b c [? ?] [? ?]. unfold floors_le. lia. Qed.

Lemma transition_spec c c' : assertCurrentJsonTransition c c' = None <->
  floors_le c c' /\ logDeleteFloorOf c' <= log_seq_start c'.
Proof.
  unfold assertCurrentJsonTransition, floors_le.
  destruct (Z.ltb_spec (log_seq_start c') (log_seq_start c)); [split; [done|lia]|].
  destruct (Z.ltb_spec (logDeleteFloorOf c') (logDeleteFloorOf c)); [split; [done|lia]|].
  destruct (Z.ltb_spec (log_seq_start c') (logDeleteFloorOf c')); [split; [done|lia]|].
  split; [lia|done].
Qed.

(** ** Quiet runs *)

(** What reading the manifest gives on a storage. *)
Definition read_manifest (key : jsstr) (m : MemoryStorage) : result (option CurrentJsonRead) :=
  match objects m !! key with
  | None => inr None
  | Some o => match decode_current (stored_body o) with
              | inl e => inl e
              | inr c => inr (Some (CurrentRead c (stored_etag o)))
              end
  end.

Lemma run_readCurrentJson now key m : assertValidStorageKey key = None ->
  run now (readCurrentJson key) m = (read_manifest key m, m).
Proof.
  intros Hv. unfold readCurrentJson, read_manifest. rewrite run_bind, run_get by done.
  destruct (objects m !! key) as [[b e]|]; [|done]. cbn [fmap option_fmap option_map body etag stored_body stored_etag].
  rewrite run_bind, run_of_result. by destruct (decode_current b).
Qed.

(** A compare-and-swap nobody interferes with. *)
Lemma run_casUpdate {X} now key (f : CurrentJson -> result (CurrentJson * X)) m o c next x :
  assertValidStorageKey key = None -> objects m !! key = Some o -> decode_current (stored_body o) = inr c ->
  f c = inr (next, x) -> extras_ok next -> shape_ok next -> assertCurrentJsonTransition c next = None ->
  run now (casUpdateCurrentJson key f) m =
  (inr (CurrentRead next (memory_store key (JsonText (current_json next)) m).1, x),
   (memory_store key (JsonText (current_json next)) m).2).
Proof.
  intros Hv Ho Hc Hf He Hs Ht. unfold casUpdateCurrentJson. rewrite run_bind, run_readCurrentJson by done.
  unfold read_manifest. rewrite Ho, Hc. cbn [json read_etag]. rewrite run_bind, Hf, run_of_result.
  unfold check_current. rewrite !run_bind, run_of_result. unfold assertCurrentJson.
  rewrite guard_current_json by done. cbn [run]. rewrite run_bind, run_check, Ht.
  unfold encodeJson. rewrite encode_current, run_bind by done. cbn [run].
  rewrite run_bind, run_catch, run_put. unfold memory_put. rewrite Hv.
  unfold put_precondition. rewrite Ho. cbn [ifNoneMatch ifMatch if_match andb].
  rewrite bool_decide_eq_true_2 by done. by destruct (memory_store key _ m).
Qed.

(** ** Theorems *)

(** The manifest codec: a record within its bounds encodes to a body that decodes
    to the same record, and whatever decodes is within those bounds. *)
Theorem current_json_roundtrip c b : extras_ok c -> shape_ok c ->
  encodeJsonBytes (current_json c) = Some b ->
  decode_current b = inr c /\
  forall b' c', decode_current b' = inr c' -> extras_ok c' /\ shape_ok c'.
Proof.
  intros He Hs Hb. rewrite encode_current in Hb by done. injection Hb as <-.
  split; [by apply decode_encode_current|]. intros b' c'. apply decode_current_wf.
Qed.

Lemma current_json_roundtrip_witness :
  exists b, decode_current b = inr (Current (Some (js "s")) 4 2 (Fence 0 [] [] None []) 9 1 (Some 7) None (Some 1)
    (Some (js "0f")) [(js "future", JNull)]).
Proof.
  eexists. eapply (current_json_roundtrip (Current (Some (js "s")) 4 2 (Fence 0 [] [] None []) 9 1 (Some 7) None (Some 1)
    (Some (js "0f")) [(js "future", JNull)])).
  - split; split; try (apply (bool_decide_unpack _); vm_compute; exact I); repeat constructor;
      apply (bool_decide_unpack _); vm_compute; exact I.
  - unfold shape_ok. cbn. repeat split; try lia. discriminate.
  - vm_compute. reflexivity.
Defined.

(** The transition check admits exactly the updates that lower neither floor and
    keep the delete floor at or below the log start; the certified delete floor then
    never decreases and never passes the log start. *)
Theorem transition_admits before after :
  (assertCurrentJsonTransition before after = None <->
   log_seq_start before <= log_seq_start after /\
   logDeleteFloorOf before <= logDeleteFloorOf after <= log_seq_start after) /\
  (assertCurrentJsonTransition before after = None ->
   certifiedDeleteFloor before <= certifiedDeleteFloor after <= logSeqStartOf after) /\
  (forall e, assertCurrentJsonTransition before after = Some e -> e = new_error Internal).
Proof.
  rewrite transition_spec. unfold floors_le, certifiedDeleteFloor, logSeqStartOf. split; [lia|]. split; [lia|].
  unfold assertCurrentJsonTransition. intros e. repeat case_match; by intros [= <-].
Qed.

Lemma transition_admits_witness :
  assertCurrentJsonTransition (Current None 4 2 (Fence 0 [] [] None []) 0 0 None None None None [])
    (Current None 4 4 (Fence 0 [] [] None []) 0 0 None None (Some 3) None []) = None.
Proof. apply transition_admits. vm_compute. repeat split; discriminate. Defined.
