(* ===== verification/ManifestSafety.v ===== *)
(** * Manifest updates among other clients

    The compare-and-swap discipline of [current.json]: whatever else other clients
    do, as long as they mint fresh ETags and never lower a floor, no execution of a
    manifest update lowers one either, with faults, lost acknowledgements and late
    landings included. *)
From S2P Require Import Prelude JsText JsValue Errors Json Storage Effects Lsn CurrentJson.
Local Open Scope Z_scope.

(** ** ETags name versions *)

(** From [m] to [m'] every object is kept, dropped, or replaced under a new ETag. *)
Definition etag_disc (m m' : MemoryStorage) : Prop :=
  (etagCounter m <= etagCounter m')%N /\
  forall k o', objects m' !! k = Some o' ->
    objects m !! k = Some o' \/
    exists n, (etagCounter m < n <= etagCounter m')%N /\ stored_etag o' = etag_of n.

(** The manifest of a storage, when it is there and passes the guard. *)
Definition manifest_at (key : jsstr) (m : MemoryStorage) (c : CurrentJson) : Prop :=
  exists o, objects m !! key = Some o /\ decode_current (stored_body o) = inr c.

(** What every client may rely on: ETag discipline and floors that never regress. *)
Definition man_rely (key : jsstr) (m m' : MemoryStorage) : Prop :=
  etag_disc m m' /\
  forall c, manifest_at key m c -> exists c', manifest_at key m' c' /\ floors_le c c'.

(** Whoever holds ETag [e] at [key], now or later, has a body in [P]. *)
Definition bound (key : jsstr) (m : MemoryStorage) (e : jsstr) (P : bytes -> Prop) : Prop :=
  (exists n, (n <= etagCounter m)%N /\ e = etag_of n) /\
  forall o, objects m !! key = Some o -> stored_etag o = e -> P (stored_body o).

(** A put of the manifest that cannot lower a floor, whenever it lands. *)
Definition put_admitted (key : jsstr) (m : MemoryStorage) (b : bytes) (opts : StoragePutOptions) : Prop :=
  ifNoneMatch opts = true \/
  exists e c1, ifMatch opts = Some e /\ decode_current b = inr c1 /\
    bound key m e (fun b0 => forall c0, decode_current b0 = inr c0 -> floors_le c0 c1).

Definition pending_admitted (key : jsstr) (w : world) : Prop :=
  forall b opts, (key, b, opts) ∈ pending w -> put_admitted key (store w) b opts.

(** A guarantee a manifest writer gives: a preorder within [man_rely] that contains
    every store [man_rely] allows. *)
Class Guarantee (key : jsstr) (G : MemoryStorage -> MemoryStorage -> Prop) := {
  guarantee_preorder :: PreOrder G;
  guarantee_man m m' : G m m' -> man_rely key m m';
  guarantee_store k b m : man_rely key m (memory_store k b m).2 -> G m (memory_store k b m).2
}.

(** The invariant of an execution that started at the storage [m0]. *)
Definition man_inv (key : jsstr) (G : MemoryStorage -> MemoryStorage -> Prop) (m0 : MemoryStorage) (w : world) : Prop :=
  memory_ok (store w) /\ G m0 (store w) /\ pending_admitted key w.

(** ** ETag discipline *)

Global Instance etag_disc_preorder : PreOrder etag_disc.
Proof.
  split.
  - intros m. split; [lia|]. intros k o' H. by left.
  - intros m1 m2 m3 [Hc1 H1] [Hc2 H2]. split; [lia|]. intros k o' H.
    destruct (H2 k o' H) as [Hk|(n & Hn & He)].
    + destruct (H1 k o' Hk) as [?|(n & Hn & He)]; [by left|]. right. exists n. split; [lia|done].
    + right. exists n. split; [lia|done].
Qed.

Lemma etag_disc_ok m m' : etag_disc m m' -> memory_ok m -> memory_ok m'.
Proof.
  intros [Hc H] Hm k o' Hk. destruct (H k o' Hk) as [Ho|(n & Hn & He)].
  - destruct (Hm k o' Ho) as (n & ? & ?). exists n. split; [lia|done].
  - exists n. split; [lia|done].
Qed.

Lemma etag_disc_store key b m : etag_disc m (memory_store key b m).2.
Proof.
  split; [unfold memory_store, nextEtag; cbn [fst snd etagCounter]; lia|].
  intros k o'. rewrite memory_store_lookup. case_decide; [|by left].
  intros [= <-]. right. exists (etagCounter m + 1)%N.
  unfold memory_store, nextEtag; cbn [fst snd etagCounter stored_etag]. split; [lia|done].
Qed.

Lemma etag_disc_delete key m : etag_disc m (memory_delete key m).2.
Proof.
  unfold memory_delete. destruct (assertValidStorageKey key); [done|]. cbn [snd].
  split; [cbn [etagCounter]; lia|]. intros k o'. cbn [objects]. rewrite lookup_delete_Some.
  intros [_ ?]. by left.
Qed.

Lemma bound_stable key m m' e P : etag_disc m m' -> bound key m e P -> bound key m' e P.
Proof.
  intros [Hc H] [(n & Hn & ->) HP]. split; [exists n; split; [lia|done]|].
  intros o' Ho He. destruct (H key o' Ho) as [?|(n' & Hn' & He')]; [by apply HP|].
  rewrite He' in He. apply etag_of_inj in He. lia.
Qed.

(** Reading an object binds its ETag to its body. *)
Lemma bound_read key m o : memory_ok m -> objects m !! key = Some o ->
  bound key m (stored_etag o) (fun b => b = stored_body o).
Proof. intros Hm Ho. split; [by eapply Hm|]. intros o' Ho' _. by simplify_eq. Qed.

Lemma bound_impl key m e (P P' : bytes -> Prop) : (forall b, P b -> P' b) ->
  bound key m e P -> bound key m e P'.
Proof. intros HP [He H]. split; [done|]. auto. Qed.

Lemma put_admitted_stable key m m' b opts : etag_disc m m' ->
  put_admitted key m b opts -> put_admitted key m' b opts.
Proof.
  intros Hd [H|(e & c1 & He & Hc & Hb)]; [by left|]. right. exists e, c1.
  split; [done|]. split; [done|]. by eapply bound_stable.
Qed.

(** ** The manifest under one step *)

Global Instance man_rely_preorder key : PreOrder (man_rely key).
Proof.
  split.
  - intros m. split; [done|]. intros c H. exists c. split; [done|reflexivity].
  - intros m1 m2 m3 [D1 H1] [D2 H2]. split; [by transitivity m2|]. intros c Hc.
    destruct (H1 c Hc) as (c1 & Hc1 & L1). destruct (H2 c1 Hc1) as (c2 & Hc2 & L2).
    exists c2. split; [done|]. by transitivity c1.
Qed.

(** An admitted put that meets its precondition. *)
Lemma man_rely_put key b opts m : put_admitted key m b opts ->
  put_precondition opts (objects m !! key) = true -> man_rely key m (memory_store key b m).2.
Proof.
  intros Hadm Hpre. split; [apply etag_disc_store|]. intros c (o & Ho & Hc).
  destruct Hadm as [Hn|(e & c1 & He & Hc1 & Hb)]; unfold put_precondition in Hpre; rewrite Ho in Hpre.
  - by rewrite Hn, bool_decide_eq_true_2 in Hpre.
  - destruct (_ && _); [done|]. rewrite He in Hpre. apply bool_decide_eq_true in Hpre.
    exists c1. split.
    + eexists. rewrite memory_store_lookup, decide_True by done. by split.
    + destruct Hb as [_ Hb]. by eapply (Hb o Ho Hpre).
Qed.

(** A store at another key, or a delete of another key. *)
Lemma man_rely_store_other key k b m : k <> key -> man_rely key m (memory_store k b m).2.
Proof.
  intros Hk. split; [apply etag_disc_store|]. intros c (o & Ho & Hc). exists c.
  split; [|reflexivity]. exists o. by rewrite memory_store_lookup, decide_False.
Qed.

Lemma man_rely_delete_other key k m : k <> key -> man_rely key m (memory_delete k m).2.
Proof.
  intros Hk. split; [apply etag_disc_delete|]. intros c (o & Ho & Hc). exists c.
  split; [|reflexivity]. exists o. split; [|done]. unfold memory_delete.
  destruct (assertValidStorageKey k); [done|]. cbn [snd objects]. by rewrite lookup_delete_ne.
Qed.

Global Instance man_rely_guarantee key : Guarantee key (man_rely key).
Proof. by split; [apply _| |]. Qed.

Section manifest.
Context (key : jsstr) (G : MemoryStorage -> MemoryStorage -> Prop) `{HG : !Guarantee key G}.
Context (R : MemoryStorage -> MemoryStorage -> Prop) (HR : forall m m', R m m' -> G m m').
Implicit Types (m : MemoryStorage) (w : world).

(** Moving the storage along [man_rely] keeps the invariant. *)
Lemma man_inv_move m0 w m' l : man_inv key G m0 w -> G (store w) m' ->
  man_inv key G m0 (World m' (pending w) l).
Proof.
  intros (Hok & Hrel & Hp) Hg. destruct (guarantee_man (key := key) _ _ Hg) as [Hd _]. split; [|split].
  - by eapply etag_disc_ok.
  - pose proof (guarantee_preorder (key := key) (G := G)). by transitivity (store w).
  - intros b opts Hin. eapply put_admitted_stable; [exact Hd|]. by apply Hp.
Qed.

(** Every put of this client, at whatever key, that may land. *)
Lemma man_rely_land w k b opts : put_precondition opts (objects (store w) !! k) = true ->
  (k = key -> put_admitted key (store w) b opts) -> man_rely key (store w) (store (land k b w)).
Proof.
  intros Hpre Hadm. destruct (decide (k = key)) as [->|Hk]; unfold land; cbn [store].
  - by eapply man_rely_put; [apply Hadm|].
  - by apply man_rely_store_other.
Qed.

Lemma guarantee_land w k b opts : put_precondition opts (objects (store w) !! k) = true ->
  (k = key -> put_admitted key (store w) b opts) -> G (store w) (store (land k b w)).
Proof. intros Hpre Hadm. apply guarantee_store. by eapply man_rely_land. Qed.

Lemma man_inv_env m0 w w' : env_step R w w' -> man_inv key G m0 w -> man_inv key G m0 w'.
Proof.
  intros Hs Hinv. destruct Hs as [w m' Hm|w k b opts Hin Hpre].
  - by apply man_inv_move; [|apply HR].
  - apply man_inv_move; [done|]. eapply guarantee_land; [done|]. intros ->. by apply Hinv.
Qed.

Lemma man_inv_envs m0 w w' : rtc (env_step R) w w' -> man_inv key G m0 w -> man_inv key G m0 w'.
Proof. apply env_steps_preserve. intros. by eapply man_inv_env. Qed.

Lemma guarantee_envs m0 w w' : man_inv key G m0 w -> rtc (env_step R) w w' -> G (store w) (store w').
Proof.
  intros (Hok & Hrel & Hp) Hs. pose proof (guarantee_preorder (key := key) (G := G)).
  assert (H0 : man_inv key G (store w) w) by (split; [done|]; by split).
  by destruct (man_inv_envs _ _ _ Hs H0) as (_ & ? & _).
Qed.

Lemma man_rely_envs m0 w w' : man_inv key G m0 w -> rtc (env_step R) w w' -> man_rely key (store w) (store w').
Proof. intros Hi Hs. eapply guarantee_man. by eapply guarantee_envs. Qed.

Lemma man_inv_put m0 w k b opts x w' : put_step k b opts w x w' ->
  (k = key -> put_admitted key (store w) b opts) -> man_inv key G m0 w -> man_inv key G m0 w'.
Proof.
  intros Hs Hadm Hinv. destruct Hs as [date Hv Hpre|e Hv Hpre Hd|e Hv Hd|e].
  - apply man_inv_move; [done|]. by eapply guarantee_land.
  - apply man_inv_move; [done|]. by eapply guarantee_land.
  - destruct Hinv as (Hok & Hrel & Hp). split; [done|]. split; [done|].
    intros b' opts' [[= -> -> ->]|Hin]%elem_of_cons; cbn [store]; [by apply Hadm|by apply Hp].
  - done.
Qed.

Lemma man_inv_delete m0 w k x w' : delete_step k w x w' -> G (store w) (memory_delete k (store w)).2 ->
  man_inv key G m0 w -> man_inv key G m0 w'.
Proof. intros Hs Hg Hinv. destruct Hs; (done || by apply man_inv_move). Qed.

(** ** Reading the manifest *)

(** What a reader knows of a manifest it read, for ever after. *)
Definition knows (cr : CurrentJsonRead) (m : MemoryStorage) : Prop :=
  extras_ok (json cr) /\ shape_ok (json cr) /\
  bound key m (read_etag cr) (fun b => decode_current b = inr (json cr)) /\
  exists c, manifest_at key m c /\ floors_le (json cr) c.

Lemma knows_stable cr m m' : man_rely key m m' -> knows cr m -> knows cr m'.
Proof.
  intros [Hd Hm] (He & Hs & Hb & c & Hc & Hle). split; [done|]. split; [done|].
  split; [by eapply bound_stable|]. destruct (Hm c Hc) as (c' & Hc' & Hle').
  exists c'. split; [done|]. by transitivity c.
Qed.

Definition read_post (r : result (option CurrentJsonRead)) (m : MemoryStorage) : Prop :=
  match r with inr (Some cr) => knows cr m | _ => True end.

Lemma read_post_stable r m m' : man_rely key m m' -> read_post r m -> read_post r m'.
Proof. destruct r as [e|[cr|]]; try done. apply knows_stable. Qed.

Lemma memory_get_inr k m g : memory_get k None m = inr (Some g) ->
  objects m !! k = Some (Stored (body g) (etag g)).
Proof.
  unfold memory_get. destruct (assertValidStorageKey k); [done|].
  destruct (objects m !! k) as [[b e]|]; [|done]. rewrite bool_decide_eq_false_2 by done.
  by intros [= <-].
Qed.

Lemma wp_readCurrentJson m0 w (Q : result (option CurrentJsonRead) -> world -> Prop) :
  man_inv key G m0 w ->
  (forall r w', rtc (env_step R) w w' -> man_inv key G m0 w' -> read_post r (store w') -> Q r w') ->
  wp R (readCurrentJson key) Q w.
Proof.
  intros Hinv HQ. unfold readCurrentJson. apply wp_bind. cbn [storage_get wp].
  intros w1 Hs1 x Hx. pose proof (man_inv_envs _ _ _ Hs1 Hinv) as Hinv1.
  assert (Hfin : forall r w2, rtc (env_step R) w1 w2 -> read_post r (store w1) -> Q r w2).
  { intros r w2 Hs2 Hr. apply HQ; [by etransitivity|by eapply man_inv_envs|].
    eapply read_post_stable; [|done]. by eapply man_rely_envs. }
  assert (Hcase : x = memory_get key None (store w1) \/ exists e, x = inl e) by (destruct Hx; eauto).
  destruct x as [e|[g|]]; cbn [of_result wp].
  - intros w2 Hs2. intros w3 Hs3. apply Hfin; [by etransitivity|done].
  - destruct Hcase as [Hg|[e He]]; [|done]. symmetry in Hg. apply memory_get_inr in Hg.
    intros w2 Hs2. apply wp_bind. destruct (decode_current (body g)) as [e|c] eqn:Ed; cbn [of_result wp].
    + intros w3 Hs3 w4 Hs4. apply Hfin; [by etransitivity; [|etransitivity]|done].
    + intros w3 Hs3 w4 Hs4. apply Hfin; [by etransitivity; [|etransitivity]|].
      destruct (decode_current_wf _ _ Ed) as [He Hsh]. destruct Hinv1 as (Hok & _).
      split; [done|]. split; [done|]. split.
      * pose proof (bound_read key (store w1) _ Hok Hg) as Hb. eapply bound_impl; [|exact Hb].
        cbn [stored_body]. by intros b ->.
      * exists c. split; [|reflexivity]. by exists (Stored (body g) (etag g)).
  - intros w2 Hs2 w3 Hs3. apply Hfin; [by etransitivity|done].
Qed.

(** ** Writing it back *)

(** An [If-Match] put of a successor of what was read. *)
Lemma knows_admitted cr c1 m b : knows cr m -> floors_le (json cr) c1 -> decode_current b = inr c1 ->
  put_admitted key m b (if_match (read_etag cr)).
Proof.
  intros (_ & _ & Hb & _) Hle Hd. right. exists (read_etag cr), c1. split; [done|]. split; [done|].
  eapply bound_impl; [|done]. intros b0 Hb0 c0 Hc0. cbn beta in Hb0. rewrite Hb0 in Hc0. by injection Hc0 as <-.
Qed.

(** After an accepted put of [c1], the manifest stays at or above [c1]. *)
Definition written (c1 : CurrentJson) (m : MemoryStorage) : Prop :=
  exists c, manifest_at key m c /\ floors_le c1 c.

Lemma written_stable c1 m m' : man_rely key m m' -> written c1 m -> written c1 m'.
Proof.
  intros [_ Hm] (c & Hc & Hle). destruct (Hm c Hc) as (c' & Hc' & Hle').
  exists c'. split; [done|]. by transitivity c.
Qed.

Lemma written_store c1 b m : decode_current b = inr c1 -> written c1 (memory_store key b m).2.
Proof.
  intros Hd. exists c1. split; [|reflexivity]. eexists. rewrite memory_store_lookup, decide_True by done.
  by split.
Qed.

Lemma wp_manifest_put m0 w cr c1 b (Q : result StoragePutResult -> world -> Prop) :
  man_inv key G m0 w -> knows cr (store w) -> floors_le (json cr) c1 -> decode_current b = inr c1 ->
  (forall r w', man_inv key G m0 w' ->
     match r with inr x => written c1 (store w') /\
       bound key (store w') (put_etag x) (fun b' => b' = b) | inl _ => True end ->
     Q r w') ->
  wp R (catch (storage_put key b (if_match (read_etag cr))) (fun e => Throw (translateCasError e))) Q w.
Proof.
  intros Hinv Hk Hle Hd HQ. unfold catch, storage_put. apply wp_attempt. cbn [wp].
  intros w1 Hs1 x w2 Hput. pose proof (man_inv_envs _ _ _ Hs1 Hinv) as Hinv1.
  assert (Hk1 : knows cr (store w1)) by exact (knows_stable _ _ _ (man_rely_envs _ _ _ Hinv Hs1) Hk).
  assert (Hinv2 : man_inv key G m0 w2).
  { eapply man_inv_put; [done| |done]. intros _. by eapply knows_admitted. }
  destruct x as [e|y]; cbn [of_result wp].
  - intros w3 Hs3 w4 Hs4. apply HQ; [|done].
    eapply man_inv_envs; [by etransitivity; [apply Hs3|]|done].
  - intros w3 Hs3 w4 Hs4.
    assert (Hs : rtc (env_step R) w2 w4) by by etransitivity.
    pose proof (man_rely_envs _ _ _ Hinv2 Hs) as Hr.
    apply HQ; [by eapply man_inv_envs|]. inversion Hput; subst. split.
    + eapply written_stable; [done|]. unfold land; cbn [store]. by apply written_store.
    + eapply bound_stable; [apply Hr|]. unfold land; cbn [store put_etag].
      destruct Hinv2 as (Hok2 & _). unfold land in Hok2; cbn [store] in Hok2.
      pose proof (bound_read key _ (Stored b (memory_store key b (store w1)).1) Hok2) as Hb.
      cbn [stored_body stored_etag] in Hb. apply Hb.
      rewrite memory_store_lookup. by case_decide.
Qed.

(** A pure check in front of the rest. *)
Lemma wp_of_result {A B} (r : result A) (f : A -> prog B) (Q : result B -> world -> Prop) w :
  (forall e, r = inl e -> wp R (Throw e) Q w) -> (forall a, r = inr a -> wp R (f a) Q w) ->
  wp R (bind (of_result r) f) Q w.
Proof.
  intros He Ha. apply wp_bind. destruct r as [e|a]; cbn [of_result wp]; intros w' Hs.
  - intros w2 Hs2. apply (He e eq_refl). by etransitivity.
  - eapply wp_env; [done|]. by apply Ha.
Qed.

Lemma wp_check {B} (o : option js_error) (f : unit -> prog B) (Q : result B -> world -> Prop) w :
  (forall e, o = Some e -> wp R (Throw e) Q w) -> (o = None -> wp R (f tt) Q w) ->
  wp R (bind (check o) f) Q w.
Proof.
  intros He Ha. destruct o as [e|]; [|apply (wp_of_result (inr tt)); [done|by intros [] _; apply Ha]].
  apply (wp_of_result (inl e)); [|done]. intros ? [= <-]. by apply He.
Qed.

Lemma check_current_eq c : check_current c =
  bind (of_result (assertCurrentJson (current_json c))) (fun _ => Ret tt).
Proof. done. Qed.

Lemma assertCurrentJson_inv c c' : extras_ok c -> assertCurrentJson (current_json c) = inr c' -> shape_ok c.
Proof.
  intros He. unfold assertCurrentJson. destruct (current_guard _) as [d|] eqn:E; [|done].
  by apply guard_current_json_inv in E as [_ ?].
Qed.

(** The final leaf of a program whose result holds of every later storage. *)
Lemma wp_throw_inv {A} m0 w e (Q : result A -> world -> Prop) : man_inv key G m0 w ->
  (forall w', man_inv key G m0 w' -> Q (inl e) w') -> wp R (Throw e) Q w.
Proof. intros Hinv HQ w' Hs. apply HQ. by eapply man_inv_envs. Qed.

(** What a manifest write returns: a record known to be in place, that passed the
    guard, and that follows [c0]. *)
Definition cas_post {X} (f : CurrentJson -> result (CurrentJson * X)) (r : result (CurrentJsonRead * X))
    (m : MemoryStorage) : Prop :=
  match r with
  | inl _ => True
  | inr (cr, x) => knows cr m /\ exists c0, f c0 = inr (json cr, x) /\
                assertCurrentJsonTransition c0 (json cr) = None /\ shape_ok c0
  end.

Lemma wp_casUpdate {X} m0 w (f : CurrentJson -> result (CurrentJson * X))
    (Q : result (CurrentJsonRead * X) -> world -> Prop) :
  man_inv key G m0 w ->
  (forall c next x, f c = inr (next, x) -> extras_ok c -> extras_ok next) ->
  (forall r w', man_inv key G m0 w' -> cas_post f r (store w') -> Q r w') ->
  wp R (casUpdateCurrentJson key f) Q w.
Proof.
  intros Hinv Hf HQ. unfold casUpdateCurrentJson. apply wp_bind.
  assert (Hthrow : forall e w', man_inv key G m0 w' -> wp R (Throw e) Q w').
  { intros e w' Hi. eapply wp_throw_inv; [done|]. intros. by apply HQ. }
  apply (wp_readCurrentJson m0); [done|]. intros [e|[cr|]] w1 _ Hinv1 Hr; [by apply Hthrow| |by apply Hthrow].
  simpl in Hr. apply wp_of_result; [by auto|]. intros [next y] Hnext.
  assert (Hex : extras_ok next) by (eapply Hf; [done|]; apply Hr).
  unfold check_current. apply wp_bind. apply wp_of_result.
  { intros e _ w2 Hs2. apply Hthrow. by eapply man_inv_envs. }
  intros c' Hc' w2 Hs2. pose proof (assertCurrentJson_inv _ _ Hex Hc') as Hsh.
  apply wp_check; [intros; apply Hthrow; by eapply man_inv_envs|]. intros Htr.
  pose proof (man_inv_envs _ _ _ Hs2 Hinv1) as Hinv2.
  pose proof (knows_stable _ _ _ (man_rely_envs _ _ _ Hinv1 Hs2) Hr) as Hk.
  unfold encodeJson. rewrite encode_current by done.
  apply wp_bind. intros w3 Hs3.
  pose proof (man_inv_envs _ _ _ Hs3 Hinv2) as Hinv3.
  pose proof (knows_stable _ _ _ (man_rely_envs _ _ _ Hinv2 Hs3) Hk) as Hk3.
  apply wp_bind. pose proof (decode_encode_current _ Hex Hsh) as Hde.
  pose proof (proj1 (transition_spec _ _) Htr) as [Hle _].
  eapply wp_manifest_put; [done..|]. intros [e|x] w4 Hinv4 Hw.
  - by apply Hthrow.
  - intros w5 Hs5. destruct Hw as [Hw Hb].
    apply HQ; [by eapply man_inv_envs|].
    pose proof (man_rely_envs _ _ _ Hinv4 Hs5) as Hrel. split.
    + split; [done|]. split; [done|]. split.
      * eapply bound_stable; [apply Hrel|]. eapply bound_impl; [|exact Hb]. by intros b ->.
      * by eapply written_stable.
    + exists (json cr). split; [done|]. split; [done|apply Hr].
Qed.
End manifest.

(** ** The theorems *)

(** C2: Whatever other clients do, as long as they mint fresh ETags and lower no floor,
    and whatever calls fail or land late, a compare-and-swap update of [current.json]
    lowers neither [log_seq_start] nor [log_delete_floor], leaves no pending put that
    could, and returns a manifest that passed the guard and the transition check and
    stays a lower bound of the stored one. *)
Theorem casUpdate_monotone {X} key R (f : CurrentJson -> result (CurrentJson * X)) w r w' :
  (forall m m', R m m' -> man_rely key m m') ->
  (forall c next x, f c = inr (next, x) -> extras_ok c -> extras_ok next) ->
  memory_ok (store w) -> pending_admitted key w ->
  exec R (casUpdateCurrentJson key f) w r w' ->
  man_rely key (store w) (store w') /\ pending_admitted key w' /\
  match r with
  | inl _ => True
  | inr (cr, x) => knows key cr (store w') /\
      exists c0, f c0 = inr (json cr, x) /\ assertCurrentJsonTransition c0 (json cr) = None /\ shape_ok c0
  end.
Proof.
  intros HR Hf Hok Hp.
  apply (wp_sound _ (fun r w' => man_rely key (store w) (store w') /\ pending_admitted key w' /\
    cas_post key f r (store w'))).
  apply (wp_casUpdate key (man_rely key) R HR (store w)); [|done|].
  - split; [done|]. by split.
  - intros r' w1 (_ & ? & ?) ?. by split.
Qed.

Definition sample_fence : WriterFence := Fence 0 [] [] None [].

Definition sample_manifest : CurrentJson :=
  Current None 4 2 sample_fence 0 0 None None None None [].

Definition sample_manifest_key : jsstr := js "a/t/current.json".

Definition sample_store : MemoryStorage :=
  (memory_store sample_manifest_key (JsonText (current_json sample_manifest)) empty_memory).2.

(** A fold that moves the log start up to the tail hint. *)
Definition sample_mutator (c : CurrentJson) : result (CurrentJson * unit) :=
  inr (Current (Some (js "s")) (tail_hint c) (tail_hint c) (writer_fence c) (snapshot_bytes c) (snapshot_rows c)
    (mean_entry_bytes c) (last_warned_seq c) (log_delete_floor c) (generation c) (extra c), tt).

Lemma empty_memory_ok : memory_ok empty_memory.
Proof. intros k o. unfold empty_memory. cbn [objects]. by rewrite lookup_empty. Qed.

Lemma casUpdate_monotone_witness :
  exists cr w', exec (man_rely sample_manifest_key) (casUpdateCurrentJson sample_manifest_key sample_mutator)
      (World sample_store [] []) (inr (cr, tt)) w' /\
    man_rely sample_manifest_key sample_store (store w') /\ log_seq_start (json cr) = 4.
Proof.
  assert (Hrun : exists cr m', run 0 (casUpdateCurrentJson sample_manifest_key sample_mutator) sample_store = (inr (cr, tt), m') /\
    log_seq_start (json cr) = 4).
  { eexists _, _. split; [vm_compute; reflexivity|reflexivity]. }
  destruct Hrun as (cr & m' & Hrun & Hcr).
  destruct (run_exec (man_rely sample_manifest_key) _ _ _ _ _ [] [] Hrun) as (l' & Hex).
  exists cr, (World m' [] l'). split; [exact Hex|].
  destruct (casUpdate_monotone sample_manifest_key (man_rely sample_manifest_key) sample_mutator
    (World sample_store [] []) (inr (cr, tt)) (World m' [] l')) as (Hman & _).
  - intros m1 m2 HR. exact HR.
  - intros c next [] [= <-] Hex0. exact Hex0.
  - exact (memory_store_ok _ _ _ empty_memory_ok).
  - intros b o Hin. inversion Hin.
  - exact Hex.
  - split; [exact Hman|exact Hcr].
Defined.
