(* ===== verification/LogWalk.v ===== *)
(** * Log entries (protocol/src/log.ts, server/src/log-walk.ts)

    A stored log entry is whatever JSON its body decodes to: the code casts it to
    [LogEntry] and reads the properties it needs, so an entry is a JSON value here
    and [prop] reads a property.  [readLogEntry] and [walkLogRange] read a dense
    range; [foldLogEntriesOnto] replays entries onto a map from document ids to
    post-images. *)
From S2P Require Import Prelude JsText JsValue Errors Json Storage Effects Lsn.
Local Open Scope Z_scope.

Definition MAX_PARALLEL_LOG_READS : Z := 16.

Abbreviation LogEntry := jsval.

(** [v.k]: reading a property of [undefined] or [null] throws. *)
Definition prop (k : jsstr) (v : jsval) : option jsval :=
  match v with
  | JUndef | JNull => None
  | JObj o => Some (js_get o k)
  | _ => Some JUndef
  end.

(** The same read in a program. *)
Definition read_prop (k : jsstr) (v : jsval) : prog jsval :=
  match prop k v with Some x => Ret x | None => Throw OtherError end.

(** ** Reading entries *)
Section sized.
(** [body.byteLength] *)
Context (byteLength : bytes -> Z).

Definition readLogEntryWithBytes (key : jsstr) : prog (LogEntry * Z) :=
  bind (storage_get key) (fun got =>
  match got with
  | None => Throw (new_error Internal)
  | Some got => match decodeJsonBytes (body got) with
                | Some entry => Ret (entry, byteLength (body got))
                | None => Throw (new_error_cause InvalidResponse OtherError)
                end
  end).

Definition readLogEntry (key : jsstr) : prog LogEntry :=
  bind (readLogEntryWithBytes key) (fun got => Ret got.1).

(** The loop over chunks of [MAX_PARALLEL_LOG_READS] reads; [fuel] counts chunks. *)
Fixpoint walk_chunks (fuel : nat) (logPrefix : jsstr) (fromSeq total chunkStart : Z) :
    prog (list (LogEntry * Z)) :=
  match fuel with
  | O => Ret []
  | S fuel =>
    if chunkStart <? total then
      let chunkEnd := Z.min (chunkStart + MAX_PARALLEL_LOG_READS) total in
      bind (for_each (seqZ chunkStart (chunkEnd - chunkStart))
              (fun i => readLogEntryWithBytes (logObjectKey logPrefix (fromSeq + i)))) (fun results =>
      bind (walk_chunks fuel logPrefix fromSeq total (chunkStart + MAX_PARALLEL_LOG_READS)) (fun rest =>
      Ret (results ++ rest)))
    else Ret []
  end.

Definition walkLogRangeWithBytes (logPrefix : jsstr) (fromSeq toSeqExclusive : Z) :
    prog (list (LogEntry * Z)) :=
  if toSeqExclusive <=? fromSeq then Ret []
  else let total := toSeqExclusive - fromSeq in
       walk_chunks (Z.to_nat total) logPrefix fromSeq total 0.

Definition walkLogRange (logPrefix : jsstr) (fromSeq toSeqExclusive : Z) : prog (list LogEntry) :=
  bind (walkLogRangeWithBytes logPrefix fromSeq toSeqExclusive) (fun withBytes => Ret withBytes.*1).
End sized.

(** ** Folding *)

(** A [Map]: its entries in insertion order.  Keys are compared as values. *)
Abbreviation jsmap := (list (jsval * jsval)).

Global Instance jsval_eq_decision : EqDecision jsval.
Proof.
  refine (fix go (a b : jsval) : Decision (a = b) :=
    match a, b with
    | JUndef, JUndef => left eq_refl
    | JNull, JNull => left eq_refl
    | JBool x, JBool y => cast_if (decide (x = y))
    | JNum x, JNum y => cast_if (decide (x = y))
    | JStr x, JStr y => cast_if (decide (x = y))
    | JArr l, JArr r => cast_if (@list_eq_dec _ go l r)
    | JObj l, JObj r => cast_if (@list_eq_dec _ (@prod_eq_dec _ _ _ go) l r)
    | JExotic x, JExotic y => cast_if (decide (x = y))
    | _, _ => right _
    end); clear go; abstract congruence.
Defined.

Fixpoint map_get (k : jsval) (m : jsmap) : option jsval :=
  match m with
  | [] => None
  | (k', v) :: m' => if decide (k' = k) then Some v else map_get k m'
  end.

(** [map.set(k, v)]: in place when the key is there, at the end otherwise. *)
Fixpoint map_set (k v : jsval) (m : jsmap) : jsmap :=
  match m with
  | [] => [(k, v)]
  | (k', v') :: m' => if decide (k' = k) then (k', v) :: m' else (k', v') :: map_set k v m'
  end.

Definition map_delete (k : jsval) (m : jsmap) : jsmap := base.filter (fun kv => kv.1 <> k) m.

(** One turn of the loop; [None] is a thrown [TypeError]. *)
Definition fold_entry (collection : jsstr) (docIdFilter : option (list jsval)) (m : jsmap)
    (entry : LogEntry) : option jsmap :=
  c ← prop (js "collection") entry;
  if negb (strict_eq c (JStr collection)) then Some m else
  d ← prop (js "doc_id") entry;
  if strict_eq d JUndef then Some m else
  if match docIdFilter with Some f => negb (bool_decide (d ∈ f)) | None => false end then Some m else
  op ← prop (js "op") entry;
  if strict_eq op (JStr (js "I")) || strict_eq op (JStr (js "U")) then
    after ← prop (js "after") entry;
    Some (if strict_eq after JUndef then m else map_set d after m)
  else if strict_eq op (JStr (js "D")) then Some (map_delete d m)
  else Some m.

Fixpoint foldLogEntriesOnto (collection : jsstr) (docIdFilter : option (list jsval))
    (entries : list LogEntry) (m : jsmap) : option jsmap :=
  match entries with
  | [] => Some m
  | e :: es => m' ← fold_entry collection docIdFilter m e;
               foldLogEntriesOnto collection docIdFilter es m'
  end.

(** ** The log as data *)

(** The prefix makes valid keys: every slot of it can be addressed. *)
Definition valid_prefix (p : jsstr) : Prop :=
  forall seq, assertValidStorageKey (logObjectKey p seq) = None.

Definition log_slot (m : MemoryStorage) (p : jsstr) (seq : Z) : option bytes :=
  stored_body <$> objects m !! logObjectKey p seq.

(** What reading slot [seq] gives: an entry, a hole, or a malformed body. *)
Definition slot_entry (m : MemoryStorage) (p : jsstr) (seq : Z) : result LogEntry :=
  match log_slot m p seq with
  | None => inl (new_error Internal)
  | Some b => match decodeJsonBytes b with
              | Some entry => inr entry
              | None => inl (new_error_cause InvalidResponse OtherError)
              end
  end.

(** The same with the byte length. *)
Definition slot_sized (byteLength : bytes -> Z) (m : MemoryStorage) (p : jsstr) (seq : Z) :
    result (LogEntry * Z) :=
  match slot_entry m p seq with
  | inl e => inl e
  | inr entry => inr (entry, default 0 (byteLength <$> log_slot m p seq))
  end.

(** What an entry does to the rows of a collection: the row it writes or deletes. *)
Definition entry_effect (collection : jsstr) (docIdFilter : option (list jsval)) (e : LogEntry) :
    option (jsval * option jsval) :=
  match e with
  | JObj o =>
    if strict_eq (js_get o (js "collection")) (JStr collection) then
      let d := js_get o (js "doc_id") in
      if strict_eq d JUndef ||
         match docIdFilter with Some f => negb (bool_decide (d ∈ f)) | None => false end then None
      else
        let op := js_get o (js "op") in
        if strict_eq op (JStr (js "I")) || strict_eq op (JStr (js "U")) then
          let after := js_get o (js "after") in
          if strict_eq after JUndef then None else Some (d, Some after)
        else if strict_eq op (JStr (js "D")) then Some (d, None)
        else None
    else None
  | _ => None
  end.

(** The row of document [d] after the entries: what the last entry about it left. *)
Fixpoint row_after (collection : jsstr) (docIdFilter : option (list jsval)) (d : jsval)
    (entries : list LogEntry) (row : option jsval) : option jsval :=
  match entries with
  | [] => row
  | e :: es =>
    row_after collection docIdFilter d es
      match entry_effect collection docIdFilter e with
      | Some (d', eff) => if decide (d' = d) then eff else row
      | None => row
      end
  end.

(** ** Lemmas *)

Lemma show_Z_units z u : u ∈ show_Z z -> u = 45%N \/ (48 <= u <= 57)%N.
Proof.
  assert (Hd : forall n, u ∈ to_radix 10 n -> (48 <= u <= 57)%N).
  { intros n Hu. apply to_radix_units in Hu as (d & Hd & ->); [|lia]. unfold digit_unit.
    destruct (N.ltb_spec d 10); lia. }
  unfold show_Z. destruct (z <? 0); [|by right; eapply Hd].
  change (js "-") with [45%N].
  rewrite elem_of_app, list_elem_of_singleton. intros [->|?]; [by left | right; by eapply Hd].
Qed.

(** A log key is addressable as soon as its prefix is. *)
Lemma valid_prefix_intro p : p <> [] -> existsb is_dot_segment (split_on slash p) = false ->
  valid_prefix p.
Proof.
  intros Hp Hseg seq. unfold assertValidStorageKey, logObjectKey.
  rewrite bool_decide_eq_false_2 by (by destruct p).
  assert (Hkey : p ++ js "/" ++ LOG_KEY_PREFIX ++ js "/" ++ show_Z seq ++ js ".json" =
    (p ++ slash :: LOG_KEY_PREFIX) ++ slash :: (show_Z seq ++ js ".json")).
  { rewrite <- app_assoc. done. }
  rewrite Hkey, split_on_last; [rewrite split_on_last|].
  - rewrite !existsb_app, Hseg. cbn [existsb orb]. rewrite !orb_false_r.
    assert (Hlog : is_dot_segment LOG_KEY_PREFIX = false) by by vm_compute.
    rewrite Hlog. assert (H5 : length (js ".json") = 5%nat) by done. cbn [orb].
    unfold is_dot_segment. rewrite !bool_decide_eq_false_2; [done| |];
      intros E; apply (f_equal length) in E; rewrite length_app, H5 in E; simpl in E; lia.
  - apply (bool_decide_unpack _). by vm_compute.
  - rewrite elem_of_app. intros [H%show_Z_units|H]; [unfold slash in H; lia|].
    revert H. apply (bool_decide_unpack _). by vm_compute.
Qed.

Lemma run_readLogEntry sz now p seq m : valid_prefix p ->
  run now (readLogEntryWithBytes sz (logObjectKey p seq)) m = (slot_sized sz m p seq, m).
Proof.
  intros Hp. unfold readLogEntryWithBytes. rewrite run_bind, run_get by done.
  unfold slot_sized, slot_entry, log_slot. destruct (objects m !! _) as [[b e]|]; [|done].
  cbn [fmap option_fmap option_map body stored_body etag stored_etag default].
  by destruct (decodeJsonBytes b).
Qed.

Lemma run_walk_chunks sz now p m fuel from total start : valid_prefix p -> 0 <= start ->
  total - start <= Z.of_nat fuel ->
  run now (walk_chunks sz fuel p from total start) m =
  (collect ((fun i => slot_sized sz m p (from + i)) <$> seqZ start (total - start)), m).
Proof.
  intros Hp. revert start. induction fuel as [|fuel IH]; intros start Hs Hf.
  { cbn [walk_chunks run]. by rewrite seqZ_nil by lia. }
  cbn [walk_chunks]. destruct (Z.ltb_spec start total); [|by rewrite seqZ_nil by lia].
  unfold MAX_PARALLEL_LOG_READS in *.
  set (n1 := Z.min (start + 16) total - start). rewrite run_bind.
  rewrite (run_for_each _ _ (fun i => slot_sized sz m p (from + i))) by (intros; by apply run_readLogEntry).
  replace (total - start) with (n1 + (total - start - n1)) by lia.
  rewrite seqZ_app, fmap_app, collect_app by lia.
  destruct (collect (_ <$> seqZ start n1)) as [e|l1]; [done|].
  rewrite run_bind. destruct (decide (start + 16 <= total)).
  - rewrite IH by lia. replace n1 with 16 by lia. replace (total - start - 16) with (total - (start + 16)) by lia.
    by destruct (collect _).
  - destruct fuel as [|fuel]; cbn [walk_chunks].
    + rewrite seqZ_nil by lia. done.
    + rewrite (proj2 (Z.ltb_ge (start + 16) total)) by lia. by rewrite seqZ_nil by lia.
Qed.

(** The walk of a range is the sequence of its slots: chunking changes nothing. *)
Lemma run_walkLogRangeWithBytes sz now p m from to : valid_prefix p ->
  run now (walkLogRangeWithBytes sz p from to) m =
  (collect (slot_sized sz m p <$> seqZ from (to - from)), m).
Proof.
  intros Hp. unfold walkLogRangeWithBytes. destruct (Z.leb_spec to from).
  { by rewrite seqZ_nil by lia. }
  rewrite run_walk_chunks by (done || lia). rewrite Z.sub_0_r.
  do 2 f_equal. rewrite <- (Z.add_0_r from) at 2. rewrite <- fmap_add_seqZ, <- list_fmap_compose. done.
Qed.

(** *** Maps *)

Lemma map_get_set k k' v m : map_get k' (map_set k v m) = if decide (k = k') then Some v else map_get k' m.
Proof.
  induction m as [|[j w] m IH]; cbn [map_set map_get].
  - done.
  - destruct (decide (j = k)) as [->|Hne]; cbn [map_get].
    + by destruct (decide (k = k')).
    + rewrite IH. destruct (decide (j = k')) as [->|]; [|done]. by rewrite decide_False.
Qed.

Lemma map_get_delete k k' m : map_get k' (map_delete k m) = if decide (k = k') then None else map_get k' m.
Proof.
  unfold map_delete. induction m as [|[j w] m IH]; cbn [map_get].
  - by case_decide.
  - rewrite filter_cons. cbn [fst]. destruct (decide (j = k)) as [->|Hne].
    + rewrite (decide_False (P := ~ _)) by tauto. rewrite IH. by destruct (decide (k = k')).
    + rewrite (decide_True (P := ~ _)) by done. cbn [map_get]. rewrite IH.
      destruct (decide (j = k')) as [->|]; [|done]. by rewrite decide_False.
Qed.

Definition map_keys (m : jsmap) : list jsval := m.*1.

Lemma map_set_keys k v m : map_keys (map_set k v m) = map_keys m \/
  map_keys (map_set k v m) = map_keys m ++ [k].
Proof.
  unfold map_keys. induction m as [|[j w] m IH]; cbn [map_set]; [by right|].
  case_decide; [by left|]. rewrite !fmap_cons. destruct IH as [->| ->]; [by left|by right].
Qed.

Lemma map_get_None k m : map_get k m = None <-> k ∉ map_keys m.
Proof.
  unfold map_keys. induction m as [|[j w] m IH]; cbn [map_get].
  - split; [intros _; apply not_elem_of_nil|done].
  - rewrite fmap_cons, not_elem_of_cons. cbn [fst]. case_decide; [naive_solver|].
    rewrite IH. naive_solver.
Qed.

Lemma map_set_NoDup k v m : NoDup (map_keys m) -> NoDup (map_keys (map_set k v m)).
Proof.
  unfold map_keys. induction m as [|[j w] m IH]; cbn [map_set].
  { intros _. apply NoDup_singleton. }
  rewrite fmap_cons, NoDup_cons. intros [Hj Hnd]. case_decide as E; rewrite fmap_cons, NoDup_cons; cbn [fst] in *.
  - done.
  - split; [|by apply IH]. destruct (map_set_keys k v m) as [H|H]; unfold map_keys in H; rewrite H; [done|].
    rewrite elem_of_app, list_elem_of_singleton. intros [?|?]; by subst.
Qed.

Lemma map_set_new k v m : k ∉ map_keys m -> map_set k v m = m ++ [(k, v)].
Proof.
  induction m as [|[k' v'] m IH]; intros Hk; [done|]. cbn [map_set app].
  unfold map_keys in Hk. rewrite fmap_cons, not_elem_of_cons in Hk. destruct Hk as [Hne Hk]. cbn [fst] in Hne.
  rewrite decide_False by congruence. by rewrite IH.
Qed.

Lemma map_delete_NoDup k m : NoDup (map_keys m) -> NoDup (map_keys (map_delete k m)).
Proof.
  unfold map_keys, map_delete. intros H. eapply sublist_NoDup; [done|]. apply fmap_sublist, sublist_filter.
Qed.

(** *** The fold *)

Definition is_object (v : jsval) : bool := match v with JObj _ => true | _ => false end.

(** An object entry never throws, and does what its effect says. *)
Lemma fold_entry_effect coll filt m e : is_object e = true ->
  fold_entry coll filt m e = Some
    match entry_effect coll filt e with
    | Some (d, Some after) => map_set d after m
    | Some (d, None) => map_delete d m
    | None => m
    end.
Proof.
  destruct e as [| | | | | |o|]; try done. intros _. unfold fold_entry, entry_effect.
  cbn [prop mbind option_bind].
  destruct (strict_eq (js_get o (js "collection")) _); cbn [negb]; [|done].
  destruct (strict_eq (js_get o (js "doc_id")) JUndef); cbn [orb]; [done|].
  destruct (match filt with Some _ => _ | None => false end); [done|].
  destruct (strict_eq _ (JStr (js "I")) || _).
  - by destruct (strict_eq _ JUndef).
  - by destruct (strict_eq _ (JStr (js "D"))).
Qed.

Lemma foldLogEntriesOnto_app coll filt es1 es2 m :
  foldLogEntriesOnto coll filt (es1 ++ es2) m =
  (m' ← foldLogEntriesOnto coll filt es1 m; foldLogEntriesOnto coll filt es2 m').
Proof.
  revert m. induction es1 as [|e es1 IH]; intros m; [done|]. cbn [app foldLogEntriesOnto].
  destruct (fold_entry coll filt m e); cbn [mbind option_bind]; [apply IH|done].
Qed.

(** Every row of the folded map is what the last entry about it left. *)
Lemma fold_row_after coll filt es m : Forall (fun e => is_object e = true) es ->
  exists m', foldLogEntriesOnto coll filt es m = Some m' /\
    (NoDup (map_keys m) -> NoDup (map_keys m')) /\
    forall d, map_get d m' = row_after coll filt d es (map_get d m).
Proof.
  intros Hes. revert m. induction Hes as [|e es He _ IH]; intros m; cbn [foldLogEntriesOnto row_after].
  { by exists m. }
  rewrite fold_entry_effect by done. cbn [mbind option_bind].
  edestruct IH as (m' & -> & Hnd & Hget). exists m'. split; [done|]. split.
  - intros H. apply Hnd. destruct (entry_effect coll filt e) as [[d' [a|]]|];
      [by apply map_set_NoDup|by apply map_delete_NoDup|done].
  - intros d. rewrite Hget. f_equal.
    destruct (entry_effect coll filt e) as [[d' [a|]]|]; [by rewrite map_get_set|by rewrite map_get_delete|done].
Qed.

Lemma row_after_app coll filt d es1 es2 row :
  row_after coll filt d (es1 ++ es2) row = row_after coll filt d es2 (row_after coll filt d es1 row).
Proof. revert row. induction es1 as [|e es1 IH]; intros row; [done|]. cbn [app row_after]. apply IH. Qed.

(** The walk reads its slots in order. *)
Lemma run_walkLogRange sz now p m from to : valid_prefix p ->
  run now (walkLogRange sz p from to) m = (collect (slot_entry m p <$> seqZ from (to - from)), m).
Proof.
  intros Hp. unfold walkLogRange. rewrite run_bind, run_walkLogRangeWithBytes by done.
  enough (H : forall seqs, match collect (slot_sized sz m p <$> seqs) with
      | inl e => inl e | inr l => inr l.*1 end = collect (slot_entry m p <$> seqs)).
  { rewrite <- H. by destruct (collect _). }
  intros seqs. induction seqs as [|s seqs IH]; [done|]. rewrite !fmap_cons. cbn [collect].
  unfold slot_sized at 1. destruct (slot_entry m p s); [done|]. rewrite <- IH.
  by destruct (collect (slot_sized sz m p <$> seqs)).
Qed.

(** ** Theorems *)

(** The chunked parallel walk of [[from, to)] is the sequence of its slots: it
    returns every entry in sequence order, and otherwise fails with the error of the
    first bad slot, [Internal] for a hole and [InvalidResponse] for a malformed body;
    it changes nothing. *)
Theorem walkLogRange_reads_in_order sz now p m from to : valid_prefix p ->
  run now (walkLogRange sz p from to) m = (collect (slot_entry m p <$> seqZ from (to - from)), m).
Proof. apply run_walkLogRange. Qed.

Definition sample_log_prefix : jsstr := js "a/t".

Definition sample_log_entry (op : string) (doc : string) : LogEntry :=
  JObj ([(js "op", JStr (js op)); (js "collection", JStr (js "t")); (js "doc_id", JStr (js doc))] ++
        if bool_decide (op = "D"%string) then [] else [(js "after", JObj [(js "_id", JStr (js doc))])]).

Definition sample_log (es : list LogEntry) : MemoryStorage :=
  (foldl (fun '(s, m) e => (s + 1, (memory_store (logObjectKey sample_log_prefix s) (JsonText e) m).2))
    (0, empty_memory) es).2.

Lemma sample_prefix_valid : valid_prefix sample_log_prefix.
Proof. apply valid_prefix_intro; [discriminate|vm_compute; reflexivity]. Qed.

Lemma walkLogRange_reads_in_order_witness :
  (run 0 (walkLogRange (fun _ => 0) sample_log_prefix 0 2)
     (sample_log [sample_log_entry "I" "d"; sample_log_entry "D" "d"])).1 =
  inr [sample_log_entry "I" "d"; sample_log_entry "D" "d"].
Proof.
  rewrite (walkLogRange_reads_in_order (fun _ => 0) 0 sample_log_prefix) by (apply sample_prefix_valid).
  vm_compute. reflexivity.
Defined.

(** The fold is per document: after any object entries, each row of the map is what
    the last entry about that document left (its post-image, or nothing after a [D]),
    other rows are untouched, keys stay distinct, and folding two runs of entries one
    after the other is folding their concatenation. *)
Theorem fold_last_entry_wins coll filt es1 es2 m :
  Forall (fun e => is_object e = true) (es1 ++ es2) -> NoDup (map_keys m) ->
  exists m1 m2, foldLogEntriesOnto coll filt es1 m = Some m1 /\
    foldLogEntriesOnto coll filt es2 m1 = Some m2 /\
    foldLogEntriesOnto coll filt (es1 ++ es2) m = Some m2 /\ NoDup (map_keys m2) /\
    forall d, map_get d m2 = row_after coll filt d (es1 ++ es2) (map_get d m).
Proof.
  intros [H1 H2]%Forall_app Hnd.
  destruct (fold_row_after coll filt es1 m H1) as (m1 & E1 & Hn1 & Hr1).
  destruct (fold_row_after coll filt es2 m1 H2) as (m2 & E2 & Hn2 & Hr2).
  exists m1, m2. split; [done|]. split; [done|]. split.
  - by rewrite foldLogEntriesOnto_app, E1.
  - split; [auto|]. intros d. by rewrite Hr2, Hr1, row_after_app.
Qed.

Lemma fold_last_entry_wins_witness :
  exists m, foldLogEntriesOnto (js "t") None [sample_log_entry "I" "d"; sample_log_entry "D" "d"] [] = Some m /\
    map_get (JStr (js "d")) m = None.
Proof.
  destruct (fold_last_entry_wins (js "t") None [sample_log_entry "I" "d"] [sample_log_entry "D" "d"] [])
    as (m1 & m2 & _ & _ & H & _ & Hget).
  - repeat constructor.
  - constructor.
  - exists m2. split; [exact H|]. rewrite Hget. vm_compute. reflexivity.
Defined.
