(* ===== verification/Retention.v ===== *)
(** * Log retention (server/src/log-retention.ts)

    Retirement of the folded log prefix: the range a manifest authorizes, and the pass
    that publishes the new delete floor with a compare-and-swap and only then deletes
    the slots.  The safety theorem is the rely-guarantee rule the writer's floor check
    builds on: a log slot disappears only below the stored delete floor. *)
From S2P Require Import Prelude JsText JsValue Errors Json Storage Effects Lsn CurrentJson ManifestSafety LogWalk.
Local Open Scope Z_scope.

Definition PREIMAGE_SCAN_MAX_GETS : Z := 8.
Definition LOG_RETENTION_SEQ_WINDOW : Z := PREIMAGE_SCAN_MAX_GETS * 128.
Definition LOG_RETENTION_MAX_DELETES_PER_TICK : Z := 20.

(** A half-open range of sequence numbers. *)
Record RetirableRange := Range { start : Z; range_end : Z }.

Record RetentionOptions := RetentionOpts { window : option Z; maxDeletes : option Z }.

Definition computeRetirableRange (current : CurrentJson) (opts : RetentionOptions) : RetirableRange :=
  let window := default LOG_RETENTION_SEQ_WINDOW (window opts) in
  let maxDeletes := default LOG_RETENTION_MAX_DELETES_PER_TICK (maxDeletes opts) in
  let liveFloor := logSeqStartOf current in
  let start := certifiedDeleteFloor current in
  let boundary := Z.min (liveFloor - window) liveFloor in
  Range start (Z.max start (Z.min boundary (start + maxDeletes))).

(** [{ ...current, log_delete_floor: floor }] *)
Definition with_delete_floor (floor : Z) (c : CurrentJson) : CurrentJson :=
  Current (snapshot c) (tail_hint c) (log_seq_start c) (writer_fence c) (snapshot_bytes c) (snapshot_rows c)
    (mean_entry_bytes c) (last_warned_seq c) (Some floor) (generation c) (extra c).

(** The compare-and-swap mutator, with the range it assigns to [authorized]. *)
Definition retire_mutator (opts : RetentionOptions) (current : CurrentJson) :
    result (CurrentJson * RetirableRange) :=
  let authorized := computeRetirableRange current opts in
  if range_end authorized <=? start authorized then inl (new_error WriteConflict)
  else inr (with_delete_floor (range_end authorized) current, authorized).

(** The count of deletes issued. *)
Definition retireLogRange (currentJsonKey : jsstr) (opts : RetentionOptions) : prog Z :=
  bind (readCurrentJson currentJsonKey) (fun read =>
  match read with
  | None => Ret 0
  | Some read =>
    let gate := computeRetirableRange (json read) opts in
    if range_end gate <=? start gate then Ret 0
    else
      bind (casUpdateCurrentJson currentJsonKey (retire_mutator opts)) (fun '(cas, authorized) =>
      if negb (logDeleteFloorOf (json cas) =? range_end authorized) then Throw (new_error Internal)
      else
        bind (promise_all (seqZ (start authorized) (range_end authorized - start authorized))
                (fun seq => storage_delete (logObjectKey (log_prefix_of currentJsonKey) seq))) (fun _ =>
        Ret (range_end authorized - start authorized)))
  end).

(** ** The range *)

Lemma retirable_range_spec c opts : let r := computeRetirableRange c opts in
  start r = certifiedDeleteFloor c /\ start r <= range_end r <= Z.max (start r) (log_seq_start c).
Proof. unfold computeRetirableRange, certifiedDeleteFloor, logSeqStartOf. cbn. lia. Qed.

Lemma retire_mutator_inv opts c next x : retire_mutator opts c = inr (next, x) ->
  x = computeRetirableRange c opts /\ next = with_delete_floor (range_end x) c /\ start x < range_end x.
Proof.
  unfold retire_mutator. destruct (Z.leb_spec (range_end (computeRetirableRange c opts))
    (start (computeRetirableRange c opts))); [done|]. by intros [= <- <-].
Qed.

(** The swap a range authorizes raises the floor and stays below the log start. *)
Lemma retire_transition opts c : 0 <= log_seq_start c -> logDeleteFloorOf c <= log_seq_start c ->
  start (computeRetirableRange c opts) < range_end (computeRetirableRange c opts) ->
  assertCurrentJsonTransition c (with_delete_floor (range_end (computeRetirableRange c opts)) c) = None.
Proof.
  intros H0 Hf Hlt. pose proof (retirable_range_spec c opts) as [Hs He]. cbn zeta in *.
  unfold assertCurrentJsonTransition, certifiedDeleteFloor, logSeqStartOf in *.
  unfold logDeleteFloorOf in *. cbn [log_delete_floor with_delete_floor log_seq_start default from_option id] in *.
  unfold from_option, id in *. repeat case_match; rewrite ?Z.ltb_lt, ?Z.ltb_ge in *; try done; lia.
Qed.

(** ** Retirement among other clients *)

(** What retirement guarantees, and relies on others for: manifest floors never regress
    and a log slot vanishes only below the delete floor of the manifest now stored. *)
Definition retire_rely (key : jsstr) (m m' : MemoryStorage) : Prop :=
  man_rely key m m' /\
  forall seq, is_Some (objects m !! logObjectKey (log_prefix_of key) seq) ->
    is_Some (objects m' !! logObjectKey (log_prefix_of key) seq) \/
    exists c, manifest_at key m' c /\ seq < logDeleteFloorOf c.

Global Instance retire_rely_preorder key : PreOrder (retire_rely key).
Proof.
  split.
  - intros m. split; [reflexivity|]. by left.
  - intros m1 m2 m3 [M1 H1] [M2 H2]. split; [by transitivity m2|]. intros seq Hs.
    destruct (H1 seq Hs) as [Hs2|(c & Hc & Hlt)]; [by apply H2|]. right.
    destruct M2 as [_ M2]. destruct (M2 c Hc) as (c' & Hc' & Hle). exists c'. split; [done|].
    destruct Hle as [_ Hle]. lia.
Qed.

Global Instance retire_rely_guarantee key : Guarantee key (retire_rely key).
Proof.
  split; [apply _|by intros ?? [? _]|]. intros k b m H. split; [done|].
  intros seq Hs. left. rewrite memory_store_lookup. by case_decide.
Qed.

(** Deleting a slot below the floor of the stored manifest. *)
Lemma retire_rely_delete key seq c m : manifest_at key m c -> seq < logDeleteFloorOf c ->
  retire_rely key m (memory_delete (logObjectKey (log_prefix_of key) seq) m).2.
Proof.
  intros Hc Hlt. split; [apply man_rely_delete_other, slot_not_manifest|].
  intros seq' [o Ho]. destruct (decide (seq' = seq)) as [->|Hne].
  - right. exists c. split; [|done]. destruct Hc as (oc & Hoc & Hd). exists oc. split; [|done].
    unfold memory_delete. destruct (assertValidStorageKey _); [done|]. cbn [snd objects].
    rewrite lookup_delete_ne; [done|apply slot_not_manifest].
  - left. exists o. unfold memory_delete. destruct (assertValidStorageKey _); [done|]. cbn [snd objects].
    rewrite lookup_delete_ne; [done|]. intros E. by apply logObjectKey_inj in E.
Qed.

(** What the caller of a retirement pass learns. *)
Definition retire_post (key : jsstr) (opts : RetentionOptions) (r : result Z) (m : MemoryStorage) : Prop :=
  match r with
  | inl _ => True
  | inr n => n = 0 \/
      exists c0 c, let range := computeRetirableRange c0 opts in
        n = range_end range - start range /\ 0 < n /\
        manifest_at key m c /\ range_end range <= logDeleteFloorOf c
  end.

Section retire.
Context (key : jsstr) (opts : RetentionOptions) (R : MemoryStorage -> MemoryStorage -> Prop).
Context (HR : forall m m', R m m' -> retire_rely key m m').
Abbreviation inv := (man_inv key (retire_rely key)).

(** The floor [f] is published, for ever after. *)
Definition floor_at_least (f : Z) (m : MemoryStorage) : Prop :=
  exists c, manifest_at key m c /\ f <= logDeleteFloorOf c.

Lemma floor_stable f m m' : man_rely key m m' -> floor_at_least f m -> floor_at_least f m'.
Proof.
  intros [_ H] (c & Hc & Hf). destruct (H c Hc) as (c' & Hc' & _ & Hle). exists c'. split; [done|]. lia.
Qed.

Lemma wp_retire_delete m0 f seq w : seq < f -> inv m0 w /\ floor_at_least f (store w) ->
  wp R (storage_delete (logObjectKey (log_prefix_of key) seq)) (fun _ w' => inv m0 w' /\ floor_at_least f (store w')) w.
Proof.
  intros Hlt [Hi Hf].
  assert (Hstep : forall w1 w2, rtc (env_step R) w1 w2 -> inv m0 w1 -> floor_at_least f (store w1) ->
    inv m0 w2 /\ floor_at_least f (store w2)).
  { intros w1 w2 Hs H1 H2. split; [by eapply (man_inv_envs key (retire_rely key) R)|].
    eapply floor_stable; [|done]. by eapply (man_rely_envs key (retire_rely key) R). }
  cbn [storage_delete wp]. intros w1 Hs1 x w2 Hd. destruct (Hstep _ _ Hs1 Hi Hf) as [Hi1 (c & Hc & Hfc)].
  assert (Hg : retire_rely key (store w1) (memory_delete (logObjectKey (log_prefix_of key) seq) (store w1)).2)
    by (eapply retire_rely_delete; [done|lia]).
  assert (Hi2 : inv m0 w2) by by eapply (man_inv_delete key (retire_rely key)).
  assert (Hf2 : floor_at_least f (store w2)).
  { destruct Hd; cbn [store]; [..|by exists c]; (eapply floor_stable; [apply Hg|by exists c]). }
  destruct x as [e|u]; cbn [of_result wp]; intros w3 Hs3; by eapply Hstep.
Qed.

Lemma wp_retireLogRange m0 w : inv m0 w ->
  wp R (retireLogRange key opts) (fun r w' => inv m0 w' /\ retire_post key opts r (store w')) w.
Proof.
  intros Hinv. assert (Henv : forall w1 w2, rtc (env_step R) w1 w2 -> inv m0 w1 -> inv m0 w2)
    by (intros; by eapply (man_inv_envs key (retire_rely key) R)).
  assert (Hthrow : forall e w1, inv m0 w1 -> wp R (Throw e) (fun r w' => inv m0 w' /\ retire_post key opts r (store w')) w1).
  { intros e w1 H1 w2 Hs. split; [by eapply Henv|done]. }
  assert (Hzero : forall w1, inv m0 w1 -> wp R (Ret 0) (fun r w' => inv m0 w' /\ retire_post key opts r (store w')) w1).
  { intros w1 H1 w2 Hs. split; [by eapply Henv|by left]. }
  unfold retireLogRange. apply wp_bind. apply (wp_readCurrentJson key (retire_rely key) R HR m0); [done|].
  intros [e|[cr|]] w1 _ Hi1 _; [by apply Hthrow| |by apply Hzero].
  cbn zeta. destruct (_ <=? _); [by apply Hzero|]. apply wp_bind.
  apply (wp_casUpdate key (retire_rely key) R HR m0); [done| |].
  { intros c next x (_ & -> & _)%retire_mutator_inv Hex. exact Hex. }
  intros [e|[cas authorized]] w2 Hi2 Hpost; [by apply Hthrow|].
  destruct (Z.eqb_spec (logDeleteFloorOf (json cas)) (range_end authorized)) as [Hf|]; [|by apply Hthrow].
  cbn [negb]. apply wp_bind. destruct Hpost as [(_ & _ & _ & c & Hc & Hle) (c0 & Hc0 & _)].
  apply retire_mutator_inv in Hc0 as (-> & _ & Hlt).
  set (range := computeRetirableRange c0 opts) in *.
  eapply (wp_promise_all R (fun w => inv m0 w /\ floor_at_least (range_end range) (store w))).
  - intros w3 w4 Hs [H1 H2]. split; [by eapply Henv|]. eapply floor_stable; [|done].
    by eapply (man_rely_envs key (retire_rely key) R).
  - intros seq w3 Hin%elem_of_seqZ Hi3. apply wp_retire_delete; [lia|done].
  - split; [done|]. exists c. split; [done|]. destruct Hle as [_ Hle]. lia.
  - intros [e|l] w3 [Hi3 Hf3]; [by apply Hthrow|]. intros w4 Hs4. split; [by eapply Henv|]. right.
    destruct (floor_stable _ _ _ (man_rely_envs key (retire_rely key) R HR _ _ _ Hi3 Hs4) Hf3) as (c4 & Hc4 & Hf4).
    exists c0, c4. split; [done|]. split; [lia|]. by split.
Qed.
End retire.

(** ** Retirement on a quiet storage *)

Lemma run_settle_deletes {X} now (l : list X) (key : X -> jsstr) m :
  (forall x, assertValidStorageKey (key x) = None) ->
  exists m', run now (promise_all l (fun x => storage_delete (key x))) m = (inr (replicate (length l) tt), m') /\
    etagCounter m' = etagCounter m /\
    (forall x, x ∈ l -> objects m' !! key x = None) /\
    (forall k, (forall x, x ∈ l -> key x <> k) -> objects m' !! k = objects m !! k).
Proof.
  intros Hv. unfold promise_all.
  assert (Hs : exists m', run now (settle_all l (fun x => storage_delete (key x))) m =
      (inr (replicate (length l) (inr tt)), m') /\ etagCounter m' = etagCounter m /\
    (forall x, x ∈ l -> objects m' !! key x = None) /\
    (forall k, (forall x, x ∈ l -> key x <> k) -> objects m' !! k = objects m !! k)).
  { revert m. induction l as [|x l IH]; intros m.
    { exists m. split; [done|]. split; [done|]. split; [by intros x ?%not_elem_of_nil|done]. }
    destruct (IH (Memory (delete (key x) (objects m)) (etagCounter m))) as (m' & Hr & Hc & Hin & Hout).
    exists m'. cbn [settle_all]. rewrite run_attempt. unfold storage_delete. cbn [run]. unfold memory_delete.
    rewrite Hv. cbn [of_result run]. rewrite run_bind. unfold storage_delete in Hr. rewrite Hr. cbn [run].
    split; [done|]. split; [done|]. split.
    - intros y Hy. destruct (decide (key y ∈ key <$> l)) as [(z & E & Hz)%list_elem_of_fmap|Hne].
      + rewrite E. by apply Hin.
      + apply elem_of_cons in Hy as [->|Hy]; [|by apply Hin].
        rewrite Hout; [apply lookup_delete_eq|]. intros z Hz E. apply Hne, list_elem_of_fmap. by exists z.
    - intros k Hk. rewrite Hout by (intros; apply Hk; by right). cbn [objects]. apply lookup_delete_ne.
      apply Hk. by left. }
  destruct Hs as (m' & Hr & Hm'). exists m'. split; [|done]. rewrite run_bind, Hr, run_of_result.
  assert (Hcol : forall n, collect (replicate n (@inr js_error unit tt)) = inr (replicate n tt)).
  { intros n. induction n as [|n IHn]; [done|]. cbn [replicate collect]. by rewrite IHn. }
  by rewrite Hcol.
Qed.

(** ** The theorems *)

(** C8: Among any clients that never lower a manifest floor and remove log slots only
    below the stored delete floor, and with any faults and late landings, a retirement
    pass keeps that same guarantee: every log slot that vanishes during it is below the
    [log_delete_floor] of the manifest then stored.  A pass that reports [n > 0] deletes
    has published a floor at or above the range it deleted. *)
Theorem retire_only_below_floor key opts R w r w' :
  (forall m m', R m m' -> retire_rely key m m') -> memory_ok (store w) -> pending_admitted key w ->
  exec R (retireLogRange key opts) w r w' ->
  retire_rely key (store w) (store w') /\ pending_admitted key w' /\ retire_post key opts r (store w').
Proof.
  intros HR Hok Hp Hex. assert (Hi : man_inv key (retire_rely key) (store w) w) by by split.
  destruct (wp_sound _ _ _ _ _ (wp_retireLogRange key opts R HR (store w) w Hi) Hex) as [(_ & ? & ?) ?].
  by split.
Qed.

(** On a quiet storage one pass retires exactly the range its manifest authorizes:
    from the certified delete floor up to the window below [log_seq_start], at most the
    budget. It publishes that end as the new floor, changing no other manifest field,
    deletes exactly the slots of the range, and with nothing to retire touches nothing. *)
Theorem retire_exact_range now key opts m o c :
  assertValidStorageKey key = None -> valid_prefix (log_prefix_of key) ->
  objects m !! key = Some o -> decode_current (stored_body o) = inr c ->
  let range := computeRetirableRange c opts in
  if range_end range <=? start range then run now (retireLogRange key opts) m = (inr 0, m)
  else exists m', run now (retireLogRange key opts) m = (inr (range_end range - start range), m') /\
    manifest_at key m' (with_delete_floor (range_end range) c) /\
    (forall seq, start range <= seq < range_end range -> objects m' !! logObjectKey (log_prefix_of key) seq = None) /\
    (forall k, k <> key -> (forall seq, start range <= seq < range_end range -> k <> logObjectKey (log_prefix_of key) seq) ->
       objects m' !! k = objects m !! k).
Proof.
  intros Hv Hp Ho Hc range. destruct (decode_current_wf _ _ Hc) as [He Hs].
  destruct (Z.leb_spec (range_end range) (start range)) as [Hle|Hlt];
    unfold retireLogRange; rewrite run_bind, run_readCurrentJson by done; unfold read_manifest; rewrite Ho, Hc;
    cbn [json]; cbn zeta; subst range.
  { by rewrite (proj2 (Z.leb_le _ _) Hle). }
  rewrite (proj2 (Z.leb_gt _ _) Hlt), run_bind.
  set (range := computeRetirableRange c opts) in *.
  pose proof (retirable_range_spec c opts) as [Hst Hend]. fold range in Hst, Hend.
  unfold certifiedDeleteFloor, logSeqStartOf in Hst.
  assert (Hnext : shape_ok (with_delete_floor (range_end range) c)).
  { assert (H0 : 0 <= default 0 (log_delete_floor c)).
    { destruct Hs as (_ & _ & _ & _ & _ & Hd & _). by destruct (log_delete_floor c). }
    assert (Hf : 0 <= range_end range) by (unfold logDeleteFloorOf in Hst; unfold shape_ok in Hs; lia).
    unfold shape_ok, with_delete_floor in *. cbn [log_seq_start tail_hint writer_fence snapshot_bytes
      snapshot_rows last_warned_seq log_delete_floor mean_entry_bytes generation opt_nonneg]. tauto. }
  rewrite (run_casUpdate now key (retire_mutator opts) m o c (with_delete_floor (range_end range) c) range); try done.
  2: { unfold retire_mutator. fold range. by rewrite (proj2 (Z.leb_gt _ _) Hlt). }
  2: { apply retire_transition; [apply Hs|unfold shape_ok in Hs; lia|done]. }
  cbn [json]. unfold logDeleteFloorOf at 1. cbn [log_delete_floor with_delete_floor default from_option].
  unfold id. rewrite Z.eqb_refl. cbn [negb]. rewrite run_bind.
  destruct (run_settle_deletes now (seqZ (start range) (range_end range - start range))
    (logObjectKey (log_prefix_of key)) (memory_store key (JsonText (current_json (with_delete_floor (range_end range) c))) m).2)
    as (m' & -> & _ & Hin & Hout); [done|].
  exists m'. split; [done|]. split; [|split].
  - exists (Stored (JsonText (current_json (with_delete_floor (range_end range) c)))
      (memory_store key (JsonText (current_json (with_delete_floor (range_end range) c))) m).1). split.
    + rewrite Hout; [by rewrite memory_store_lookup, decide_True|]. intros; apply slot_not_manifest.
    + cbn [stored_body]. by apply decode_encode_current.
  - intros seq Hseq. apply Hin, elem_of_seqZ. lia.
  - intros k Hk Hne. rewrite Hout; [by rewrite memory_store_lookup, decide_False|].
    intros seq Hseq%elem_of_seqZ E. eapply Hne; [|by symmetry]. lia.
Qed.

(** A folded log: start 4, slots 2 to 4 still there, the floor at 2. *)
Definition retire_sample_manifest : CurrentJson := with_delete_floor 2
  (Current (Some (js "s")) 5 4 sample_fence 0 0 None None None None []).

Definition retire_sample : MemoryStorage :=
  foldr (fun seq m => (memory_store (logObjectKey (js "a/t") seq) EMPTY_BODY m).2)
    (memory_store sample_manifest_key (JsonText (current_json retire_sample_manifest)) empty_memory).2 [2; 3; 4].

Definition retire_sample_opts : RetentionOptions := RetentionOpts (Some 1) None.

Lemma retire_sample_ok : memory_ok retire_sample.
Proof. repeat apply memory_store_ok. apply empty_memory_ok. Qed.

Lemma retire_only_below_floor_witness :
  exists w', exec (retire_rely sample_manifest_key) (retireLogRange sample_manifest_key retire_sample_opts)
      (World retire_sample [] []) (inr 1) w' /\
    objects (store w') !! logObjectKey (js "a/t") 2 = None /\
    retire_rely sample_manifest_key retire_sample (store w').
Proof.
  assert (Hrun : exists m', run 0 (retireLogRange sample_manifest_key retire_sample_opts) retire_sample = (inr 1, m') /\
    objects m' !! logObjectKey (js "a/t") 2 = None).
  { eexists. split; vm_compute; reflexivity. }
  destruct Hrun as (m' & Hrun & Hgone).
  destruct (run_exec (retire_rely sample_manifest_key) _ _ _ _ _ [] [] Hrun) as (l' & Hex).
  exists (World m' [] l'). split; [exact Hex|]. split; [exact Hgone|].
  apply (retire_only_below_floor sample_manifest_key retire_sample_opts (retire_rely sample_manifest_key)
    (World retire_sample [] []) (inr 1) (World m' [] l')).
  - intros m1 m2 H. exact H.
  - exact retire_sample_ok.
  - intros b opts Hin. inversion Hin.
  - exact Hex.
Defined.

Lemma retire_exact_range_witness :
  exists m', run 0 (retireLogRange sample_manifest_key retire_sample_opts) retire_sample = (inr 1, m') /\
    manifest_at sample_manifest_key m' (with_delete_floor 3 retire_sample_manifest).
Proof.
  destruct (retire_exact_range 0 sample_manifest_key retire_sample_opts retire_sample
    (Stored (JsonText (current_json retire_sample_manifest)) (etag_of 1)) retire_sample_manifest) as (m' & H1 & H2 & _).
  - vm_compute. reflexivity.
  - change (log_prefix_of sample_manifest_key) with (js "a/t"). apply sample_prefix_valid.
  - vm_compute. reflexivity.
  - vm_compute. reflexivity.
  - exists m'. split; [exact H1|exact H2].
Defined.
