(* ===== verification/Snapshot.v ===== *)
(** * Snapshots (server/src/snapshot.ts)

    The sealed snapshot file: its key, its body and its loader.  The digest function is a
    parameter (the platform's SHA-256); a key embeds the digest of the body and the loader
    refuses any body that does not match it. *)
From S2P Require Import Prelude JsText JsValue Errors Json Storage Effects Lsn CurrentJson LogWalk.
Local Open Scope Z_scope.

Definition SNAPSHOT_SCHEMA_VERSION : Z := 1.
Definition SNAPSHOT_LEVEL : Z := 9.
Definition SEQ_DIGITS : nat := 12.
Definition MAX_SEQ : Z := 10 ^ 12 - 1.

Definition pad (n : Z) : jsstr := show_padded SEQ_DIGITS n.

Definition dash : N := 45.

Record SnapshotBody := Snapshot {
  min_seq : Z;
  max_seq : Z;
  snap_collection : jsstr;
  docs : jsmap
}.

Definition row_json (row : jsval * jsval) : jsval := JObj [(js "_id", row.1); (js "body", row.2)].

Definition snapshot_json (s : SnapshotBody) : jsval :=
  JObj [(js "schema_version", num SNAPSHOT_SCHEMA_VERSION); (js "min_seq", num (min_seq s));
        (js "max_seq", num (max_seq s)); (js "collection", JStr (snap_collection s));
        (js "docs", JArr (row_json <$> docs s))].

Definition encodeSnapshotBody (s : SnapshotBody) : option bytes := encodeJsonBytes (snapshot_json s).

(** [/^[0-9a-f]{64}$/] *)
Definition is_digest (s : jsstr) : bool := (length s =? 64)%nat && forallb is_lower_hex s.

Definition snapshotKey (collectionPrefix : jsstr) (minSeq maxSeq : Z) (sha256 : jsstr) : result jsstr :=
  if (minSeq <? 0) || (maxSeq <? 0) || (maxSeq <? minSeq) || (MAX_SEQ <? maxSeq) then inl (new_error InvalidConfig)
  else if negb (is_digest sha256) then inl (new_error InvalidConfig)
  else inr (collectionPrefix ++ js "/snapshot/L" ++ show_Z SNAPSHOT_LEVEL ++ js "/" ++
            pad minSeq ++ js "-" ++ pad maxSeq ++ js "-" ++ sha256 ++ js ".json").

Section digest.
(** [crypto.subtle.digest("SHA-256", bytes)], as its octets. *)
Context (sha256 : bytes -> list N).

Definition sha256Hex (b : bytes) : jsstr := mjoin ((fun o => pad_start 2 48 (to_radix 16 o)) <$> sha256 b).

Definition snapshotHash (b : bytes) : jsstr := sha256Hex b.

(** The digest a snapshot key names. *)
Definition key_digest (key : jsstr) : jsstr :=
  after_last dash (strip_suffix (js ".json") (after_last slash key)).

(** [for (const row of body.docs) out.set(row._id, row.body)] *)
Fixpoint load_rows (rows : list jsval) (out : jsmap) : option jsmap :=
  match rows with
  | [] => Some out
  | row :: rows => i ← prop (js "_id") row;
                   b ← prop (js "body") row;
                   load_rows rows (map_set i b out)
  end.

Definition parse_snapshot (expectedCollection : jsstr) (parsed : jsval) : result jsmap :=
  match parsed with
  | JObj o =>
    if negb (strict_eq (js_get o (js "schema_version")) (num SNAPSHOT_SCHEMA_VERSION))
    then inl (new_error InvalidResponse)
    else if negb (strict_eq (js_get o (js "collection")) (JStr expectedCollection))
    then inl (new_error InvalidResponse)
    else match js_get o (js "docs") with
         | JArr rows => match load_rows rows [] with Some out => inr out | None => inl OtherError end
         | _ => inl (new_error InvalidResponse)
         end
  | _ => inl (new_error InvalidResponse)
  end.

(** What the body found under [key] loads as. *)
Definition open_snapshot (key expectedCollection : jsstr) (b : bytes) : result jsmap :=
  if negb (bool_decide (snapshotHash b = key_digest key)) then inl (new_error Internal)
  else match decodeJsonBytes b with
       | None => inl (new_error_cause InvalidResponse OtherError)
       | Some parsed => parse_snapshot expectedCollection parsed
       end.

Definition loadSnapshotAsMap (key expectedCollection : jsstr) : prog jsmap :=
  bind (storage_get key) (fun got =>
  match got with
  | None => Throw (new_error Internal)
  | Some got => of_result (open_snapshot key expectedCollection (body got))
  end).

(** ** Lemmas *)

(** What the platform's digest answers: 32 octets. *)
Definition digest_ok : Prop := forall b, length (sha256 b) = 32%nat /\ Forall (fun o => (o < 256)%N) (sha256 b).

Lemma hex_octet o : (o < 256)%N -> length (pad_start 2 48 (to_radix 16 o)) = 2%nat /\
  Forall (fun u => is_lower_hex u = true) (pad_start 2 48 (to_radix 16 o)).
Proof.
  intros Ho. split; [by apply padded_length|]. unfold pad_start. apply Forall_app. split.
  - apply Forall_replicate. done.
  - apply Forall_forall. intros u (d & Hd & ->)%to_radix_units; [|lia]. unfold digit_unit, is_lower_hex.
    destruct (N.ltb_spec d 10); apply orb_true_iff; [left|right]; apply andb_true_iff; rewrite !N.leb_le; lia.
Qed.

Lemma sha256Hex_digest b : digest_ok -> is_digest (sha256Hex b) = true.
Proof.
  intros Hd. destruct (Hd b) as [Hl Hb]. unfold is_digest, sha256Hex. apply andb_true_iff. split.
  - apply Nat.eqb_eq. transitivity (2 * length (sha256 b))%nat; [|lia]. clear Hl.
    induction Hb as [|o os Ho _ IH]; [done|]. rewrite fmap_cons, mjoin_cons. cbn [length].
    rewrite length_app, IH. destruct (hex_octet o Ho) as [-> _]. lia.
  - apply forallb_forall. intros u Hu%list_elem_of_In. clear Hl.
    induction Hb as [|o os Ho _ IH]; [by apply elem_of_nil in Hu|]. rewrite fmap_cons, mjoin_cons in Hu.
    apply elem_of_app in Hu as [Hu|Hu]; [|by apply IH]. destruct (hex_octet o Ho) as [_ Hx].
    rewrite Forall_forall in Hx. by apply Hx.
Qed.

Lemma digest_free (u : N) s : is_digest s = true -> is_lower_hex u = false -> u ∉ s.
Proof.
  unfold is_digest. intros [_ Hs]%andb_true_iff Hu Hin. rewrite forallb_forall in Hs.
  rewrite (Hs u) in Hu; [done|]. by apply list_elem_of_In.
Qed.

Lemma snapshotKey_spec p lo hi h : 0 <= lo <= hi -> hi <= MAX_SEQ -> is_digest h = true ->
  exists f, (slash ∉ f) /\ snapshotKey p lo hi h = inr (p ++ js "/snapshot/L9/" ++ f ++ [dash] ++ h ++ js ".json").
Proof.
  intros Hr Hm Hh. exists (pad lo ++ js "-" ++ pad hi). split.
  - assert (Hp : forall z, 0 <= z -> slash ∉ pad z).
    { intros z Hz. unfold pad, show_padded, pad_start. rewrite elem_of_app. intros [Hs|Hs].
      - by apply elem_of_replicate in Hs as [Hs _].
      - apply show_Z_units in Hs. unfold slash in Hs. lia. }
    rewrite !elem_of_app. intros [H|[H|H]]; [by eapply Hp in H; [|lia]| |by eapply Hp in H; [|lia]].
    change (js "-") with [45%N] in H. by apply list_elem_of_singleton in H.
  - unfold snapshotKey. rewrite (proj2 (Z.ltb_ge lo 0)), (proj2 (Z.ltb_ge hi 0)), (proj2 (Z.ltb_ge hi lo)),
      (proj2 (Z.ltb_ge MAX_SEQ hi)) by lia. cbn [orb]. rewrite Hh. cbn [negb]. f_equal.
    change (js "/snapshot/L9/") with (js "/snapshot/L" ++ show_Z SNAPSHOT_LEVEL ++ js "/").
    by rewrite <- !app_assoc.
Qed.

Lemma key_digest_snapshot p lo hi h key : 0 <= lo <= hi -> hi <= MAX_SEQ -> is_digest h = true ->
  snapshotKey p lo hi h = inr key -> key_digest key = h.
Proof.
  intros Hr Hm Hh Hk. destruct (snapshotKey_spec p lo hi h Hr Hm Hh) as (f & Hf & E). rewrite E in Hk.
  assert (key = p ++ js "/snapshot/L9/" ++ f ++ [dash] ++ h ++ js ".json") as -> by congruence. unfold key_digest.
  assert (Hns : slash ∉ f ++ [dash] ++ h ++ js ".json").
  { rewrite !elem_of_app. intros [H|[H|[H|H]]]; [done| | |].
    - by apply list_elem_of_singleton in H.
    - by apply (digest_free slash) in H.
    - revert H. change (slash ∈ js ".json") with (slash ∈ [46; 106; 115; 111; 110]%N). unfold slash. set_solver. }
  replace (p ++ js "/snapshot/L9/" ++ f ++ [dash] ++ h ++ js ".json") with
    ((p ++ js "/snapshot/L9") ++ slash :: (f ++ [dash] ++ h ++ js ".json")) by (rewrite <- app_assoc; done).
  rewrite (after_last_app slash (p ++ js "/snapshot/L9") _ Hns). rewrite !app_assoc, strip_suffix_app, <- app_assoc. cbn [app].
  apply after_last_app. by apply (digest_free dash).
Qed.

Lemma row_json_fields i b : prop (js "_id") (row_json (i, b)) = Some i /\ prop (js "body") (row_json (i, b)) = Some b.
Proof.
  unfold row_json. cbn [fst snd]. split; cbn [prop]; f_equal.
Qed.

Lemma load_rows_json rows out : NoDup (map_keys (out ++ rows)) ->
  load_rows (row_json <$> rows) out = Some (out ++ rows).
Proof.
  revert out. induction rows as [|[i b] rows IH]; intros out Hnd; [by rewrite app_nil_r|].
  rewrite fmap_cons. cbn [load_rows]. destruct (row_json_fields i b) as [-> ->]. cbn [mbind option_bind].
  unfold map_keys in Hnd. rewrite fmap_app, fmap_cons in Hnd. cbn [fst] in Hnd.
  rewrite map_set_new.
  - rewrite IH; rewrite <- app_assoc; [done|]. unfold map_keys. rewrite fmap_app. exact Hnd.
  - apply NoDup_app in Hnd as (_ & Hd & _). intros Hin. apply (Hd i); [done|]. by left.
Qed.

(** Rows a snapshot holds: JSON ids, each once, and JSON bodies. *)
Definition rows_ok (rows : jsmap) : Prop :=
  NoDup (map_keys rows) /\ Forall (fun row => json_ok row.1 = true /\ json_ok row.2 = true) rows.

Lemma snapshot_json_ok s : rows_ok (docs s) -> json_ok (snapshot_json s) = true.
Proof.
  intros [_ Hr]. apply json_ok_obj. split; [js_decide|]. repeat constructor; cbn [snd]; try apply json_ok_num.
  apply json_ok_arr, Forall_fmap. eapply Forall_impl; [exact Hr|]. intros [i b] [Hi Hb]. cbn [compose fst snd] in *.
  apply json_ok_obj. split; [js_decide|]. by repeat constructor.
Qed.

Lemma open_own_snapshot p s b lo hi key : digest_ok -> rows_ok (docs s) -> 0 <= lo <= hi -> hi <= MAX_SEQ ->
  encodeSnapshotBody s = Some b -> snapshotKey p lo hi (snapshotHash b) = inr key ->
  open_snapshot key (snap_collection s) b = inr (docs s).
Proof.
  intros Hd Hr Hlo Hhi Hb Hk. pose proof (sha256Hex_digest b Hd) as Hh.
  apply key_digest_snapshot in Hk; try done. unfold open_snapshot. rewrite Hk, bool_decide_eq_true_2 by done. cbn [negb].
  unfold encodeSnapshotBody in Hb. pose proof (snapshot_json_ok s Hr) as Hok. rewrite encode_ok in Hb by done.
  injection Hb as <-. unfold decodeJsonBytes. cbn [mbind option_bind]. rewrite Hok. unfold parse_snapshot, snapshot_json.
  rewrite js_get_hd, strict_eq_num. cbn [negb].
  do 3 (rewrite (js_get_tl (js "collection")) by js_decide). rewrite js_get_hd. cbn [strict_eq].
  rewrite bool_decide_eq_true_2 by done. cbn [negb].
  do 4 (rewrite (js_get_tl (js "docs")) by js_decide). rewrite js_get_hd.
  by rewrite load_rows_json by apply Hr.
Qed.

Lemma run_loadSnapshotAsMap now key coll m : assertValidStorageKey key = None ->
  run now (loadSnapshotAsMap key coll) m =
  (match objects m !! key with
   | None => inl (new_error Internal)
   | Some o => open_snapshot key coll (stored_body o)
   end, m).
Proof.
  intros Hv. unfold loadSnapshotAsMap. rewrite run_bind, run_get by done.
  destruct (objects m !! key) as [o|]; [|done]. cbn [fmap option_fmap option_map body]. apply run_of_result.
Qed.
End digest.

(** ** Theorems *)

(** A snapshot is sealed by its key: the body a compactor encodes, read back under the
    key that names its digest, loads as exactly the rows it was built from, whatever the
    sequence range in the name; and under that key any body with another digest is refused
    with [Internal], for every expected collection. *)
Theorem snapshot_sealed sha256 p s b lo hi key : digest_ok sha256 -> rows_ok (docs s) ->
  0 <= lo <= hi -> hi <= MAX_SEQ -> encodeSnapshotBody s = Some b ->
  snapshotKey p lo hi (snapshotHash sha256 b) = inr key ->
  open_snapshot sha256 key (snap_collection s) b = inr (docs s) /\
  forall b' c, snapshotHash sha256 b' <> snapshotHash sha256 b ->
    open_snapshot sha256 key c b' = inl (new_error Internal).
Proof.
  intros Hd Hr Hlo Hhi Hb Hk. split; [by eapply open_own_snapshot|]. intros b' c Hne.
  apply key_digest_snapshot in Hk; [|done..|by apply sha256Hex_digest]. unfold open_snapshot.
  by rewrite Hk, bool_decide_eq_false_2.
Qed.

(** A digest for the samples: it separates JSON texts from other bodies. *)
Definition sample_sha256 (b : bytes) : list N :=
  match b with JsonText _ => replicate 32 7%N | OtherBytes _ _ => replicate 32 9%N end.

Lemma sample_digest_ok : digest_ok sample_sha256.
Proof. intros [v|r p]; split; try reflexivity; repeat constructor. Qed.

Definition sample_rows : jsmap :=
  [(JStr (js "d1"), JObj [(js "_id", JStr (js "d1"))]); (JStr (js "d2"), JObj [(js "_id", JStr (js "d2"))])].

Definition sample_snapshot : SnapshotBody := Snapshot 0 7 (js "t") sample_rows.

Lemma sample_rows_ok : rows_ok sample_rows.
Proof. split; [js_decide|]. repeat constructor; vm_compute; reflexivity. Qed.

Lemma snapshot_sealed_witness :
  exists key, snapshotKey (js "a/t") 0 7 (snapshotHash sample_sha256 (JsonText (snapshot_json sample_snapshot))) = inr key /\
    open_snapshot sample_sha256 key (js "t") (JsonText (snapshot_json sample_snapshot)) = inr sample_rows /\
    open_snapshot sample_sha256 key (js "t") EMPTY_BODY = inl (new_error Internal).
Proof.
  eexists. split; [vm_compute; reflexivity|].
  destruct (snapshot_sealed sample_sha256 (js "a/t") sample_snapshot (JsonText (snapshot_json sample_snapshot)) 0 7
    (js "a/t/snapshot/L9/000000000000-000000000007-0707070707070707070707070707070707070707070707070707070707070707.json")) as [H1 H2].
  - apply sample_digest_ok.
  - apply sample_rows_ok.
  - lia.
  - vm_compute. discriminate.
  - vm_compute. reflexivity.
  - vm_compute. reflexivity.
  - split; [exact H1|]. apply H2. vm_compute. discriminate.
Defined.
