(* ===== verification/LogTail.v ===== *)
(** * The log tail (server/src/log-tail.ts)

    [probeTailChunk] and [probeTailFrom] scan forward slot by slot,
    [findLogTail] gallops and then bisects.  The fuel of the two searches is the
    number of doublings the cap admits; running out of it is a separate error that
    the theorems exclude. *)
From S2P Require Import Prelude JsText JsValue Errors Json Storage Effects Lsn LogWalk.
Local Open Scope Z_scope.

Definition LOG_FORWARD_PROBE_CAP : Z := 100000.

Inductive TailProbeChunk :=
| Exact (tail : Z) (entries : list LogEntry) (complete : bool)
| AtLeast (lowerBound : Z) (entries : list LogEntry) (complete : bool).

(** The [for] loop; [n] is the number of slots left to probe. *)
Fixpoint probe_loop (n : nat) (logPrefix : jsstr) (seq : Z) (tolerateMalformed : bool)
    (entries : list LogEntry) (complete : bool) : prog TailProbeChunk :=
  match n with
  | O => Ret (AtLeast seq entries complete)
  | S n =>
    bind (storage_get (logObjectKey logPrefix seq)) (fun got =>
    match got with
    | None => Ret (Exact seq entries complete)
    | Some got =>
      match decodeJsonBytes (body got) with
      | Some entry => probe_loop n logPrefix (seq + 1) tolerateMalformed (entries ++ [entry]) complete
      | None => if tolerateMalformed
                then probe_loop n logPrefix (seq + 1) tolerateMalformed entries false
                else Throw (new_error_cause InvalidResponse OtherError)
      end
    end)
  end.

Definition probeTailChunk (logPrefix : jsstr) (hint cap : Z) (tolerateMalformed : bool) :
    prog TailProbeChunk := probe_loop (Z.to_nat cap) logPrefix hint tolerateMalformed [] true.

Definition probeTailFrom_cap (logPrefix : jsstr) (hint cap : Z) : prog (Z * list LogEntry) :=
  bind (probeTailChunk logPrefix hint cap false) (fun result =>
  match result with
  | Exact tail entries _ => Ret (tail, entries)
  | AtLeast _ _ _ => Throw (new_error Internal)
  end).

Definition probeTailFrom (logPrefix : jsstr) (hint : Z) : prog (Z * list LogEntry) :=
  probeTailFrom_cap logPrefix hint LOG_FORWARD_PROBE_CAP.

(** ** Galloping *)

(** [exists(seq)] *)
Definition slot_exists (logPrefix : jsstr) (seq : Z) : prog bool :=
  bind (storage_get (logObjectKey logPrefix seq)) (fun got => Ret (bool_decide (is_Some got))).

(** The bracketing loop: [lo] is occupied; the result brackets the tail. *)
Fixpoint gallop (fuel : nat) (logPrefix : jsstr) (lo step hi : Z) : prog (Z * Z) :=
  match fuel with
  | O => Throw OtherError
  | S fuel =>
    bind (slot_exists logPrefix hi) (fun there =>
    if there : bool then
      let lo := hi in
      let step := step * 2 in
      let hi := lo + step in
      if LOG_FORWARD_PROBE_CAP <? step then Throw (new_error Internal)
      else gallop fuel logPrefix lo step hi
    else Ret (lo, hi))
  end.

Fixpoint bisect (fuel : nat) (logPrefix : jsstr) (lo hi : Z) : prog Z :=
  match fuel with
  | O => Throw OtherError
  | S fuel =>
    if 1 <? hi - lo then
      let mid := lo + (hi - lo) / 2 in
      bind (slot_exists logPrefix mid) (fun there =>
      if there : bool then bisect fuel logPrefix mid hi else bisect fuel logPrefix lo mid)
    else Ret hi
  end.

(** 17 doublings pass the cap; the bracket they leave is below 2^17 wide. *)
Definition GALLOP_FUEL : nat := 18.

Definition findLogTail (logPrefix : jsstr) (hint : Z) : prog Z :=
  bind (slot_exists logPrefix hint) (fun there =>
  if negb there then Ret hint
  else bind (gallop GALLOP_FUEL logPrefix hint 1 (hint + 1)) (fun '(lo, hi) =>
       bisect GALLOP_FUEL logPrefix lo hi)).

(** ** Lemmas *)

Definition occupied (m : MemoryStorage) (p : jsstr) (seq : Z) : bool :=
  bool_decide (is_Some (log_slot m p seq)).

(** The log from [hint] up ends at [tail]: occupied below, empty from there on. *)
Definition log_ends (m : MemoryStorage) (p : jsstr) (hint tail : Z) : Prop :=
  hint <= tail /\
  (forall s, hint <= s < tail -> occupied m p s = true) /\
  (forall s, tail <= s -> occupied m p s = false).

Lemma log_ends_occupied m p hint tail s : log_ends m p hint tail -> hint <= s ->
  occupied m p s = (s <? tail).
Proof.
  intros (_ & H1 & H2) Hs. destruct (Z.ltb_spec s tail); [by apply H1|by apply H2].
Qed.

Lemma log_ends_S m p hint tail : log_ends m p hint tail -> hint < tail -> log_ends m p (hint + 1) tail.
Proof. intros (H0 & H1 & H2) Hlt. split; [lia|]. split; [intros; apply H1; lia|done]. Qed.

Lemma run_slot_exists now p s m : valid_prefix p ->
  run now (slot_exists p s) m = (inr (occupied m p s), m).
Proof.
  intros Hp. unfold slot_exists. rewrite run_bind, run_get by done. cbn [run].
  unfold occupied, log_slot. by destruct (objects m !! _).
Qed.

(** The bracket [lo, hi) of a gallop that started [d] slots after the hint with step [2^k]. *)
Lemma run_gallop now p m hint tail : valid_prefix p -> log_ends m p hint tail ->
  forall fuel k, (0 <= k)%Z -> k + Z.of_nat fuel = 18 -> k <= 16 -> hint + 2 ^ k - 1 < tail ->
  exists r, run now (gallop fuel p (hint + 2 ^ k - 1) (2 ^ k) (hint + 2 ^ (k + 1) - 1)) m = (r, m) /\
    if hint + 131071 <? tail then r = inl (new_error Internal)
    else exists lo hi, r = inr (lo, hi) /\ hint <= lo < tail /\ tail <= hi /\ hi - lo <= 65536.
Proof.
  intros Hp Hends fuel. induction fuel as [|fuel IH]; intros k Hk Hf Hk16 Hlo; [lia|].
  assert (Hpow : 2 ^ (k + 1) = 2 * 2 ^ k) by (rewrite Z.pow_add_r by lia; lia).
  assert (Hpos : 1 <= 2 ^ k) by (pose proof (Z.pow_pos_nonneg 2 k); lia).
  assert (Hmax : 2 ^ k <= 2 ^ 16) by (apply Z.pow_le_mono_r; lia).
  change (2 ^ 16) with 65536 in Hmax.
  cbn [gallop]. rewrite run_bind, run_slot_exists by done.
  rewrite (log_ends_occupied _ _ _ _ _ Hends) by lia.
  destruct (Z.ltb_spec (hint + 2 ^ (k + 1) - 1) tail) as [Hlt|Hge].
  - unfold LOG_FORWARD_PROBE_CAP. destruct (decide (k = 16)) as [->|Hne].
    + change (2 ^ 16 * 2) with 131072. change (2 ^ (16 + 1)) with 131072 in Hlt.
      cbn [Z.ltb Z.compare Pos.compare Pos.compare_cont]. eexists. split; [done|].
      destruct (Z.ltb_spec (hint + 131071) tail); [done|lia].
    + destruct (Z.ltb_spec 100000 (2 ^ k * 2)) as [Hcap|_].
      { assert (2 ^ k <= 2 ^ 15) by (apply Z.pow_le_mono_r; lia).
        change (2 ^ 15) with 32768 in *. lia. }
      destruct (IH (k + 1)) as (r & Hr & Hspec); [lia..|].
      assert (Hpow2 : 2 ^ (k + 1 + 1) = 2 * 2 ^ (k + 1)) by (rewrite (Z.pow_add_r 2 (k + 1)) by lia; lia).
      exists r. split; [|done]. rewrite <- Hr. f_equal. f_equal; lia.
  - cbn [run]. eexists. split; [done|].
    destruct (Z.ltb_spec (hint + 131071) tail); [lia|]. eexists _, _. split; [done|]. lia.
Qed.

Lemma run_bisect now p m hint tail : valid_prefix p -> log_ends m p hint tail ->
  forall fuel lo hi, hint <= lo < tail -> tail <= hi -> hi - lo <= 2 ^ (Z.of_nat fuel - 1) ->
  (0 < fuel)%nat -> run now (bisect fuel p lo hi) m = (inr tail, m).
Proof.
  intros Hp Hends fuel. induction fuel as [|fuel IH]; intros lo hi Hlo Hhi Hw Hf; [lia|].
  cbn [bisect]. destruct (Z.ltb_spec 1 (hi - lo)) as [Hlt|Hge].
  - assert (Hf' : (0 < fuel)%nat).
    { destruct fuel; [|lia]. simpl in Hw. lia. }
    replace (Z.of_nat (S fuel) - 1) with (Z.of_nat fuel - 1 + 1) in Hw by lia.
    rewrite Z.pow_add_r in Hw by lia. change (2 ^ 1) with 2 in Hw.
    pose proof (Z.div_mod (hi - lo) 2 ltac:(lia)).
    pose proof (Z.mod_pos_bound (hi - lo) 2 ltac:(lia)).
    rewrite run_bind, run_slot_exists by done.
    rewrite (log_ends_occupied _ _ _ _ _ Hends) by lia.
    destruct (Z.ltb_spec (lo + (hi - lo) / 2) tail); apply IH; lia.
  - cbn [run]. do 2 f_equal. lia.
Qed.

(** The galloping search on a dense log: the tail, or the alarm past 2^17 - 1 slots. *)
Lemma run_findLogTail now p m hint tail : valid_prefix p -> log_ends m p hint tail ->
  run now (findLogTail p hint) m =
  (if hint + 131071 <? tail then inl (new_error Internal) else inr tail, m).
Proof.
  intros Hp Hends. unfold findLogTail. rewrite run_bind, run_slot_exists by done.
  rewrite (log_ends_occupied _ _ _ _ _ Hends) by lia.
  destruct (Z.ltb_spec hint tail) as [Hlt|Hge]; cbn [negb].
  - rewrite run_bind. destruct (run_gallop now p m hint tail Hp Hends GALLOP_FUEL 0) as (r & Hr & Hs);
      [done..|simpl; lia|].
    change (2 ^ 0) with 1 in Hr. change (2 ^ (0 + 1)) with 2 in Hr.
    replace (hint + 1 - 1) with hint in Hr by lia. replace (hint + 2 - 1) with (hint + 1) in Hr by lia.
    rewrite Hr. destruct (Z.ltb_spec (hint + 131071) tail).
    + by subst r.
    + destruct Hs as (lo & hi & -> & ? & ? & ?).
      eapply run_bisect; [done..|lia| |unfold GALLOP_FUEL; lia]. change (hi - lo <= 131072). lia.
  - cbn [run]. destruct Hends as [? _]. destruct (Z.ltb_spec (hint + 131071) tail); [lia|].
    do 2 f_equal. lia.
Qed.

(** The decodable entries of a list of slots, and whether all of them are. *)
Definition decoded (m : MemoryStorage) (p : jsstr) (seqs : list Z) : list LogEntry :=
  omap (fun s => match slot_entry m p s with inr e => Some e | inl _ => None end) seqs.

Definition all_decoded (m : MemoryStorage) (p : jsstr) (seqs : list Z) : bool :=
  forallb (fun s => match slot_entry m p s with inr _ => true | inl _ => false end) seqs.

Lemma occupied_slot m p s : occupied m p s = true <-> exists b, log_slot m p s = Some b.
Proof. unfold occupied. by rewrite bool_decide_eq_true. Qed.

Lemma occupied_false m p s : occupied m p s = false <-> log_slot m p s = None.
Proof. unfold occupied. rewrite bool_decide_eq_false. destruct (log_slot m p s); naive_solver. Qed.

(** One scan on a dense log, malformed slots tolerated: [n] slots at most. *)
Lemma run_probe_tolerant now p m : valid_prefix p -> forall n hint tail acc c,
  log_ends m p hint tail ->
  run now (probe_loop n p hint true acc c) m =
  (inr (let seqs := seqZ hint (Z.min (Z.of_nat n) (tail - hint)) in
        (if tail <? hint + Z.of_nat n then Exact tail else AtLeast (hint + Z.of_nat n))
          (acc ++ decoded m p seqs) (c && all_decoded m p seqs)), m).
Proof.
  intros Hp n. induction n as [|n IH]; intros hint tail acc c Hends.
  { pose proof Hends as [Hle _]. cbn [probe_loop run]. rewrite seqZ_nil by lia.
    destruct (Z.ltb_spec tail (hint + Z.of_nat 0)); [lia|]. cbn. rewrite app_nil_r, andb_true_r.
    do 3 f_equal. lia. }
  cbn [probe_loop]. rewrite run_bind, run_get by done.
  pose proof (log_ends_occupied _ _ _ _ hint Hends (Z.le_refl _)) as Hocc.
  destruct (Z.ltb_spec hint tail) as [Hlt|Hge].
  - apply occupied_slot in Hocc as [b Hb]. unfold log_slot in Hb.
    destruct (objects m !! logObjectKey p hint) as [o|] eqn:Eo; [|done]. injection Hb as <-.
    cbn [fmap option_fmap option_map body].
    replace (Z.min (Z.of_nat (S n)) (tail - hint)) with (1 + Z.min (Z.of_nat n) (tail - (hint + 1))) by lia.
    rewrite seqZ_head by lia. cbn zeta.
    assert (Hs : slot_entry m p hint = match decodeJsonBytes (stored_body o) with
      | Some e => inr e | None => inl (new_error_cause InvalidResponse OtherError) end).
    { unfold slot_entry, log_slot. by rewrite Eo. }
    pose proof (log_ends_S _ _ _ _ Hends Hlt) as Hends'.
    replace (hint + Z.of_nat (S n)) with (hint + 1 + Z.of_nat n) by lia.
    unfold decoded, all_decoded. cbn [app omap list_omap forallb]. rewrite Hs.
    destruct (decodeJsonBytes (stored_body o)) as [e|]; rewrite (IH _ tail _ _ Hends').
    + unfold decoded, all_decoded. by rewrite <- app_assoc.
    + unfold decoded, all_decoded. cbn [andb]. by rewrite andb_false_r.
  - apply occupied_false in Hocc. unfold log_slot in Hocc.
    destruct (objects m !! logObjectKey p hint) as [o|] eqn:Eo; [done|]. cbn [run].
    pose proof Hends as [Hle _]. rewrite seqZ_nil by lia. unfold decoded, all_decoded. cbn.
    rewrite app_nil_r, andb_true_r. destruct (Z.ltb_spec tail (hint + Z.of_nat (S n))); [|lia].
    do 3 f_equal. lia.
Qed.

(** The strict scan agrees with the tolerant one while every slot decodes. *)
Lemma run_probe_strict now p m : valid_prefix p -> forall n hint tail acc c,
  log_ends m p hint tail -> all_decoded m p (seqZ hint (tail - hint)) = true ->
  run now (probe_loop n p hint false acc c) m = run now (probe_loop n p hint true acc c) m.
Proof.
  intros Hp n. induction n as [|n IH]; intros hint tail acc c Hends Hall; [done|].
  cbn [probe_loop]. rewrite !run_bind, !run_get by done.
  pose proof (log_ends_occupied _ _ _ _ hint Hends (Z.le_refl _)) as Hocc.
  destruct (Z.ltb_spec hint tail) as [Hlt|Hge].
  - apply occupied_slot in Hocc as [b Hb].
    replace (tail - hint) with (1 + (tail - (hint + 1))) in Hall by lia.
    rewrite seqZ_head in Hall by lia. cbn [all_decoded forallb] in Hall. apply andb_true_iff in Hall as [Hs Hall].
    unfold slot_entry in Hs. rewrite Hb in Hs. unfold log_slot in Hb.
    destruct (objects m !! logObjectKey p hint) as [o|]; [|done]. injection Hb as <-.
    cbn [fmap option_fmap option_map body].
    destruct (decodeJsonBytes (stored_body o)); [|done].
    eapply IH; [by apply log_ends_S|done].
  - apply occupied_false in Hocc. unfold log_slot in Hocc.
    by destruct (objects m !! logObjectKey p hint).
Qed.

Lemma run_probeTailFrom now p m hint tail cap : valid_prefix p -> 0 <= cap ->
  log_ends m p hint tail -> all_decoded m p (seqZ hint (tail - hint)) = true ->
  run now (probeTailFrom_cap p hint cap) m =
  (if tail <? hint + cap then inr (tail, decoded m p (seqZ hint (tail - hint)))
   else inl (new_error Internal), m).
Proof.
  intros Hp Hcap Hends Hall. unfold probeTailFrom_cap, probeTailChunk.
  rewrite run_bind, (run_probe_strict _ _ _ Hp _ _ _ _ _ Hends Hall).
  rewrite (run_probe_tolerant _ _ _ Hp _ _ _ _ _ Hends). rewrite Z2Nat.id by lia.
  destruct (Z.ltb_spec tail (hint + cap)); [|done]. cbn [run app]. by rewrite Z.min_r by lia.
Qed.

(** An entry written at the tail moves the tail by one. *)
Lemma log_slot_store m p s b s' :
  log_slot (memory_store (logObjectKey p s) b m).2 p s' = if decide (s = s') then Some b else log_slot m p s'.
Proof.
  unfold log_slot. rewrite memory_store_lookup. destruct (decide (s = s')) as [->|Hne].
  - by rewrite decide_True.
  - rewrite decide_False; [done|]. intros E. by apply logObjectKey_inj in E.
Qed.

Lemma occupied_store m p s b s' :
  occupied (memory_store (logObjectKey p s) b m).2 p s' = (s =? s') || occupied m p s'.
Proof.
  apply Bool.eq_true_iff_eq. rewrite orb_true_iff, Z.eqb_eq, !occupied_slot.
  setoid_rewrite log_slot_store. destruct (decide (s = s')); naive_solver.
Qed.

Lemma log_ends_append m p hint tail b : log_ends m p hint tail ->
  log_ends (memory_store (logObjectKey p tail) b m).2 p hint (tail + 1).
Proof.
  intros (Hle & H1 & H2). split; [lia|]. split; intros s Hs; rewrite occupied_store.
  - destruct (Z.eqb_spec tail s); [done|]. apply H1. lia.
  - rewrite (proj2 (Z.eqb_neq _ _)) by lia. apply H2. lia.
Qed.

(** Other keys do not move it. *)
Lemma log_ends_other m p hint tail key b : (forall s, key <> logObjectKey p s) -> log_ends m p hint tail ->
  log_ends (memory_store key b m).2 p hint tail.
Proof.
  intros Hk (Hle & H1 & H2).
  assert (E : forall s, occupied (memory_store key b m).2 p s = occupied m p s).
  { intros s. unfold occupied, log_slot. by rewrite memory_store_lookup, decide_False. }
  split; [done|]. split; intros s Hs; rewrite E; auto.
Qed.

Lemma log_ends_empty p hint : log_ends empty_memory p hint hint.
Proof.
  split; [lia|]. split; [lia|]. intros s _. unfold occupied, log_slot, empty_memory. cbn [objects].
  by rewrite lookup_empty.
Qed.

(** ** Theorems *)

(** C31: On a dense log the galloping search and the linear probe find the same tail,
    the first empty slot; the search answers up to 131,071 slots above the hint and
    the probe below its cap, the probe returning every entry it passed in order, and
    past those bounds each throws [Internal].  Neither runs out of fuel or writes. *)
Theorem findLogTail_agrees_with_probe now p m hint tail : valid_prefix p ->
  log_ends m p hint tail -> all_decoded m p (seqZ hint (tail - hint)) = true ->
  run now (findLogTail p hint) m =
    (if hint + 131071 <? tail then inl (new_error Internal) else inr tail, m) /\
  run now (probeTailFrom p hint) m =
    (if tail <? hint + LOG_FORWARD_PROBE_CAP
     then inr (tail, decoded m p (seqZ hint (tail - hint)))
     else inl (new_error Internal), m).
Proof.
  intros Hp Hends Hall. split; [by apply run_findLogTail|]. by apply run_probeTailFrom.
Qed.

Definition sample_tail_log : MemoryStorage :=
  sample_log (replicate 5 (sample_log_entry "I" "d")).

Lemma sample_log_ends : log_ends sample_tail_log sample_log_prefix 1 5.
Proof.
  apply (log_ends_S _ _ 0 5); [|lia]. unfold sample_tail_log, sample_log. cbn [replicate foldl snd].
  do 5 (match goal with |- log_ends _ _ 0 ?n => let k := eval vm_compute in (n - 1) in
    apply (log_ends_append _ _ 0 k) end).
  apply log_ends_empty.
Qed.

Lemma findLogTail_agrees_with_probe_witness :
  (run 0 (findLogTail sample_log_prefix 1) sample_tail_log).1 = inr 5 /\
  (run 0 (probeTailFrom sample_log_prefix 1) sample_tail_log).1 =
    inr (5, replicate 4 (sample_log_entry "I" "d")).
Proof.
  destruct (findLogTail_agrees_with_probe 0 sample_log_prefix sample_tail_log 1 5) as [-> ->].
  - apply sample_prefix_valid.
  - apply sample_log_ends.
  - vm_compute. reflexivity.
  - split; vm_compute; reflexivity.
Defined.

(** The tolerant chunk probe on a dense log: it stops at the first empty slot or at
    the cap, whichever comes first, says which, returns exactly the decodable entries
    it passed, and reports [complete] exactly when there was no malformed one. *)
Theorem probeTailChunk_tolerant now p m hint tail cap : valid_prefix p -> 0 <= cap -> log_ends m p hint tail ->
  run now (probeTailChunk p hint cap true) m =
  (inr (let seqs := seqZ hint (Z.min cap (tail - hint)) in
        (if tail <? hint + cap then Exact tail else AtLeast (hint + cap))
          (decoded m p seqs) (all_decoded m p seqs)), m).
Proof.
  intros Hp Hcap Hends. unfold probeTailChunk. rewrite (run_probe_tolerant _ _ _ Hp _ _ tail) by done.
  by rewrite Z2Nat.id.
Qed.

Lemma probeTailChunk_tolerant_witness :
  (run 0 (probeTailChunk sample_log_prefix 1 2 true) sample_tail_log).1 =
  inr (AtLeast 3 (replicate 2 (sample_log_entry "I" "d")) true).
Proof.
  rewrite (probeTailChunk_tolerant 0 sample_log_prefix sample_tail_log 1 5 2);
    [vm_compute; reflexivity|apply sample_prefix_valid|lia|apply sample_log_ends].
Defined.
