(* ===== verification/DocId.v ===== *)
(** * Document ids and key segments

    server/src/path-segment.ts, names.ts, key-limit.ts, doc-id.ts,
    snapshot-doc-id.ts, post-image-identity.ts.  [nfc] is
    [String.prototype.normalize("NFC")], whose tables are not modelled.  Objects of
    the model are plain objects with enumerable data properties. *)
From S2P Require Import Prelude JsText JsValue Errors Json Storage.
Local Open Scope Z_scope.

Definition MAX_SEGMENT_BYTES : Z := 256.
Definition MAX_KEY_BYTES : Z := 1024.

Definition utf8_length (s : jsstr) : Z := Z.of_nat (length (utf8_encode s)).

(** [CONTROL_CHARS] *)
Definition is_control (u : N) : bool := ((u <=? 31) || (127 <=? u) && (u <=? 159))%N.

Definition assertNameNotReserved (name : jsstr) : option js_error :=
  if starts_with (js "_") name then Some (new_error InvalidConfig) else None.

(** [None] when the segment is accepted. *)
Definition assertPathSegment (value : jsstr) : option js_error :=
  if bool_decide (value = []) then Some (new_error InvalidConfig)
  else if includes_unit slash value then Some (new_error InvalidConfig)
  else if is_dot_segment value then Some (new_error InvalidConfig)
  else if existsb is_control value then Some (new_error InvalidConfig)
  else if MAX_SEGMENT_BYTES <? utf8_length value then Some (new_error InvalidConfig)
  else assertNameNotReserved value.

Definition assertKeyWithinLimit (key : jsstr) : option js_error :=
  if MAX_KEY_BYTES <? utf8_length key then Some (new_error InvalidConfig) else None.

Definition assertStoredDocId (id : jsstr) : option js_error := assertPathSegment id.

Definition assertDocId (nfc : jsstr -> jsstr) (id : jsstr) : option js_error :=
  match assertStoredDocId id with
  | Some e => Some e
  | None => if bool_decide (id = nfc id) then None else Some (new_error InvalidConfig)
  end.

(** The surrogate scan of [assertSnapshotDocId]: a high surrogate must be followed
    by a low one, which is skipped; a low one must not come first. *)
Fixpoint surrogates_paired (s : jsstr) : bool :=
  match s with
  | [] => true
  | u :: s' =>
    if is_high u then match s' with
                      | v :: s'' => if is_low v then surrogates_paired s'' else false
                      | [] => false
                      end
    else if is_low u then false else surrogates_paired s'
  end.

Definition assertSnapshotDocId (id : jsstr) : option js_error :=
  match assertPathSegment id with
  | Some e => Some e
  | None => if surrogates_paired id then None else Some (new_error InvalidConfig)
  end.

(** ** [compareDocIds] *)

(** [s.codePointAt(offset)] of the suffix at [offset], never empty where it is read. *)
Definition code_point_at (suffix : jsstr) : N :=
  match suffix with
  | u :: v :: _ => if is_high u && is_low v then (65536 + (u - 55296) * 1024 + (v - 56320))%N else u
  | [u] => u
  | [] => 0%N
  end.

(** The offset moves by two units past an astral code point. *)
Definition advance (suffix : jsstr) (point : N) : jsstr :=
  if (65535 <? point)%N then drop 2 suffix else drop 1 suffix.

(** The two suffixes stand for the two offsets; [fuel] bounds the loop turns. *)
Fixpoint compareDocIds_loop (fuel : nat) (l r : jsstr) : Z :=
  match l, r with
  | [], [] => 0
  | [], _ :: _ => -1
  | _ :: _, [] => 1
  | _ :: _, _ :: _ =>
    match fuel with
    | O => 0
    | S fuel =>
      let leftPoint := code_point_at l in
      let rightPoint := code_point_at r in
      if (leftPoint =? rightPoint)%N
      then compareDocIds_loop fuel (advance l leftPoint) (advance r rightPoint)
      else if (leftPoint <? rightPoint)%N then -1 else 1
    end
  end.

Definition compareDocIds (l r : jsstr) : Z := compareDocIds_loop (length l) l r.

(** ** Replays and post-images *)

(** [err._id] is the id. *)
Definition insertAlreadyExists (docId : jsstr) : js_error :=
  BaerlyError AlreadyExists None None (Some docId).

(** [stored] is [JUndef] when the entry has no post-image.  [None]: stringify threw. *)
Definition insertReplaysRow (body stored : jsval) : option bool :=
  match stored with
  | JUndef => Some false
  | _ => if has_bigint body then None
         else match json_norm body with
              | Some b => Some (jsonValueEqual b stored)
              | None => None
              end
  end.

(** [code] is thrown when [after] does not name [docId]. *)
Definition assertPostImageIdentity (docId : jsstr) (after : jsval) (code : BaerlyErrorCode) :
    option js_error :=
  match after with
  | JObj o => match own_get (js "_id") o with
              | Some (JStr id) => if bool_decide (id = docId) then None else Some (new_error code)
              | _ => Some (new_error code)
              end
  | _ => Some (new_error code)
  end.

(** ** Lemmas *)

(** An accepted segment survives every key it is a segment of. *)
Lemma assertPathSegment_safe v : assertPathSegment v = None ->
  v <> [] /\ (slash ∉ v) /\ is_dot_segment v = false /\ (forall u, u ∈ v -> is_control u = false) /\
  utf8_length v <= MAX_SEGMENT_BYTES /\ starts_with (js "_") v = false.
Proof.
  unfold assertPathSegment, assertNameNotReserved.
  destruct (bool_decide_reflect (v = [])) as [|Hne]; [done|].
  destruct (includes_unit slash v) eqn:Es; [done|]. destruct (is_dot_segment v); [done|].
  destruct (existsb is_control v) eqn:Ec; [done|].
  destruct (Z.ltb_spec MAX_SEGMENT_BYTES (utf8_length v)); [done|].
  destruct (starts_with (js "_") v); [done|]. intros _. repeat split; try done.
  - intros Hin. unfold includes_unit in Es. apply not_true_iff_false in Es. apply Es.
    apply existsb_exists. exists slash. split; [by apply list_elem_of_In|apply N.eqb_refl].
  - intros u Hu. destruct (is_control u) eqn:Eu; [|done]. apply not_true_iff_false in Ec.
    destruct Ec. apply existsb_exists. exists u. by split; [apply list_elem_of_In|].
Qed.

(** *** [compareDocIds] is the order of the UTF-8 encodings *)

Lemma code_points_step l : l <> [] ->
  Forall (fun u => u < 65536)%N l ->
  code_points l = code_point_at l :: code_points (advance l (code_point_at l)) /\
  (length (advance l (code_point_at l)) < length l)%nat.
Proof.
  intros Hne Hu. unfold advance.
  destruct l as [|u [|v l]]; [done| |]; cbn [code_points code_point_at].
  - apply Forall_cons in Hu as [Hu _]. rewrite (proj2 (N.ltb_ge _ _)) by lia. cbn. split; [done|lia].
  - apply Forall_cons in Hu as [Hu Hvl]. apply Forall_cons in Hvl as [Hv _].
    destruct (is_high u && is_low v) eqn:E.
    + rewrite (proj2 (N.ltb_lt _ _)) by lia. cbn [drop length]. rewrite drop_0. split; [done|lia].
    + rewrite (proj2 (N.ltb_ge _ _)) by lia. cbn [drop length]. rewrite ?drop_0. split; [done|lia].
Qed.

Lemma code_points_nil l : code_points l = [] <-> l = [].
Proof.
  split; [|by intros ->]. destruct l as [|u [|v l]]; try done. cbn [code_points]. by destruct (_ && _).
Qed.

(** [-1], [0] or [1] as the code point sequences compare. *)
Definition compare_points (ps qs : list N) : Z :=
  if str_ltb ps qs then -1 else if str_ltb qs ps then 1 else 0.

Definition units_ok (s : jsstr) : Prop := Forall (fun u => u < 65536)%N s.

Lemma advance_units l p : units_ok l -> units_ok (advance l p).
Proof. intros H. unfold advance, units_ok. destruct (_ <? _)%N; by apply Forall_drop. Qed.

Lemma compareDocIds_loop_spec fuel l r : units_ok l -> units_ok r -> (length l <= fuel)%nat ->
  compareDocIds_loop fuel l r = compare_points (code_points l) (code_points r).
Proof.
  unfold compare_points. revert l r. induction fuel as [|fuel IH]; intros l r Hl Hr Hf.
  - destruct l as [|u l]; [|simpl in Hf; lia]. destruct r as [|v r]; [done|].
    cbn [compareDocIds_loop]. destruct (code_points (v :: r)) eqn:E; [|done].
    by apply (proj1 (code_points_nil _)) in E.
  - destruct l as [|u l], r as [|v r].
    + done.
    + cbn [compareDocIds_loop]. destruct (code_points (v :: r)) eqn:E; [|done]. by apply (proj1 (code_points_nil _)) in E.
    + cbn [compareDocIds_loop]. destruct (code_points (u :: l)) eqn:E; [|done]. by apply (proj1 (code_points_nil _)) in E.
    + destruct (code_points_step (u :: l)) as [El Ll]; [done..|].
      destruct (code_points_step (v :: r)) as [Er Lr]; [done..|].
      rewrite El, Er. cbn [compareDocIds_loop].
      destruct (N.eqb_spec (code_point_at (u :: l)) (code_point_at (v :: r))) as [E|E].
      * rewrite IH by (try (by apply advance_units); lia). rewrite E. cbn [str_ltb].
        by rewrite !N.ltb_irrefl.
      * cbn [str_ltb].
        destruct (N.ltb_spec (code_point_at (u :: l)) (code_point_at (v :: r))); [done|].
        by rewrite (proj2 (N.ltb_lt _ _)) by lia.
Qed.

Lemma surrogates_paired_scalar s : units_ok s -> surrogates_paired s = true ->
  Forall is_scalar (code_points s).
Proof.
  remember (length s) as n eqn:En. assert (Hn : (length s <= n)%nat) by lia. clear En.
  revert s Hn. induction n as [|n IH]; intros s Hn Hs Hp.
  { destruct s; [constructor|simpl in Hn; lia]. }
  destruct s as [|u s]; [constructor|]. cbn [surrogates_paired] in Hp.
  apply Forall_cons in Hs as [Hu Hs]. simpl in Hn.
  assert (Hplain : is_high u = false -> is_low u = false -> is_scalar u).
  { unfold is_high, is_low, is_scalar. rewrite !andb_false_iff, !N.leb_gt. lia. }
  destruct (is_high u) eqn:Eh.
  - destruct s as [|v s]; [done|]. cbn [code_points]. rewrite Eh.
    destruct (is_low v) eqn:Elo; [|done]. cbn [andb].
    apply Forall_cons in Hs as [Hv Hs]. constructor; [|apply IH; [simpl in Hn; lia|done..]].
    unfold is_high, is_low in *. rewrite !andb_true_iff, !N.leb_le in *. unfold is_scalar. lia.
  - destruct (is_low u) eqn:Elo; [done|]. destruct s as [|v s].
    + cbn [code_points]. constructor; [by apply Hplain|constructor].
    + change (code_points (u :: v :: s)) with
        (if is_high u && is_low v then (65536 + (u - 55296) * 1024 + (v - 56320))%N :: code_points s
         else u :: code_points (v :: s)).
      rewrite Eh. cbn [andb]. constructor; [by apply Hplain|]. apply IH; [lia|done..].
Qed.

(** [code_points] determines a string of 16-bit units. *)
Lemma code_points_inj s t : units_ok s -> units_ok t ->
  code_points s = code_points t -> s = t.
Proof.
  remember (length s) as n eqn:En. assert (Hn : (length s <= n)%nat) by lia. clear En.
  revert s t Hn. induction n as [|n IH]; intros s t Hn Hs Ht E.
  { destruct s; [|simpl in Hn; lia]. symmetry in E. by apply (proj1 (code_points_nil _)) in E. }
  destruct s as [|u s]; [symmetry in E; by apply (proj1 (code_points_nil _)) in E as ->|].
  destruct t as [|v t]; [by apply (proj1 (code_points_nil _)) in E|].
  destruct (code_points_step (u :: s)) as [Es Ls]; [done..|].
  destruct (code_points_step (v :: t)) as [Et Lt]; [done..|].
  rewrite Es, Et in E. injection E as Ep Er.
  apply IH in Er; [|simpl in *; lia|by apply advance_units|by apply advance_units]. clear IH Es Et.
  unfold advance in Er. rewrite <- Ep in Er.
  apply Forall_cons in Hs as [Hu Hs]. apply Forall_cons in Ht as [Hv Ht].
  destruct s as [|u2 s], t as [|v2 t]; cbn [code_point_at] in *.
  - by rewrite Ep.
  - apply Forall_cons in Ht as [Hv2 _]. revert Ep Er. destruct (is_high v && is_low v2) eqn:E2; intros Ep Er; [lia|].
    by rewrite (proj2 (N.ltb_ge _ _)) in Er by lia.
  - apply Forall_cons in Hs as [Hu2 _]. revert Ep Er. destruct (is_high u && is_low u2) eqn:E2; intros Ep Er; [lia|].
    by rewrite (proj2 (N.ltb_ge _ _)) in Er by lia.
  - apply Forall_cons in Hs as [Hu2 _]. apply Forall_cons in Ht as [Hv2 _]. revert Ep Er.
    destruct (is_high u && is_low u2) eqn:E1, (is_high v && is_low v2) eqn:E2; intros Ep Er; try lia.
    + rewrite (proj2 (N.ltb_lt _ _)) in Er by lia. cbn [drop] in Er. rewrite ?drop_0 in Er. subst t.
      unfold is_high, is_low in *. rewrite !andb_true_iff, !N.leb_le in *.
      f_equal; [|f_equal]; lia.
    + rewrite (proj2 (N.ltb_ge _ _)) in Er by lia. cbn [drop] in Er. rewrite ?drop_0 in Er. by rewrite Ep, Er.
Qed.

Lemma compareDocIds_utf8 l r : units_ok l -> units_ok r ->
  assertSnapshotDocId l = None -> assertSnapshotDocId r = None ->
  (compareDocIds l r = -1 <-> str_ltb (utf8_encode l) (utf8_encode r) = true) /\
  (compareDocIds l r = 1 <-> str_ltb (utf8_encode r) (utf8_encode l) = true) /\
  (compareDocIds l r = 0 <-> l = r).
Proof.
  intros Ul Ur Hl Hr. unfold assertSnapshotDocId in *.
  destruct (assertPathSegment l); [done|]. destruct (assertPathSegment r); [done|].
  destruct (surrogates_paired l) eqn:El; [|done]. destruct (surrogates_paired r) eqn:Er; [|done].
  apply (surrogates_paired_scalar _ Ul) in El. apply (surrogates_paired_scalar _ Ur) in Er.
  unfold compareDocIds. rewrite compareDocIds_loop_spec by (done || lia).
  unfold utf8_encode. rewrite !utf8_points_order by done. unfold compare_points.
  assert (Heq : l = r <-> code_points l = code_points r).
  { split; [by intros ->|by apply code_points_inj]. }
  rewrite Heq.
  destruct (str_ltb_total (code_points l) (code_points r)) as [H|[H|H]].
  - rewrite H, (str_ltb_asym _ _ H). repeat split; try done.
    intros E. by rewrite E, str_ltb_irrefl in H.
  - by rewrite H, str_ltb_irrefl.
  - rewrite H, (str_ltb_asym _ _ H). repeat split; try done.
    intros E. by rewrite E, str_ltb_irrefl in H.
Qed.

(** ** Theorems *)

(** On ids the snapshot layout admits, [compareDocIds] is the lexicographic order
    of the UTF-8 encodings: it answers [-1], [1] or [0] exactly when the bytes of the
    left are below, above, or the ids are equal. *)
Theorem compareDocIds_is_utf8_order l r :
  Forall (fun u => u < 65536)%N l -> Forall (fun u => u < 65536)%N r ->
  assertSnapshotDocId l = None -> assertSnapshotDocId r = None ->
  (compareDocIds l r = -1 <-> str_ltb (utf8_encode l) (utf8_encode r) = true) /\
  (compareDocIds l r = 1 <-> str_ltb (utf8_encode r) (utf8_encode l) = true) /\
  (compareDocIds l r = 0 <-> l = r).
Proof. apply compareDocIds_utf8. Qed.

(** U+FFFD against U+10000: code point order, not code unit order. *)
Lemma compareDocIds_is_utf8_order_witness :
  compareDocIds [65533%N] [55296%N; 56320%N] = -1 /\ str_ltb [65533%N] [55296%N; 56320%N] = false.
Proof.
  split; [|vm_compute; reflexivity].
  apply (compareDocIds_is_utf8_order [65533%N] [55296%N; 56320%N]);
    try (vm_compute; reflexivity); repeat constructor.
Defined.

(** A segment the validator accepts can be appended to any addressable prefix: the
    key keeps its segments apart, has no dot segment, and stays addressable. *)
Theorem accepted_segment_is_addressable prefix v :
  prefix <> [] -> existsb is_dot_segment (split_on slash prefix) = false -> assertPathSegment v = None ->
  assertValidStorageKey (prefix ++ slash :: v) = None /\
  split_on slash (prefix ++ slash :: v) = split_on slash prefix ++ [v].
Proof.
  intros Hp Hseg Hv. apply assertPathSegment_safe in Hv as (Hne & Hs & Hd & _).
  assert (Hsplit : split_on slash (prefix ++ slash :: v) = split_on slash prefix ++ [v]) by by apply split_on_last.
  split; [|done]. unfold assertValidStorageKey. rewrite bool_decide_eq_false_2 by by destruct prefix.
  rewrite Hsplit, existsb_app, Hseg. cbn [existsb orb]. by rewrite Hd.
Qed.

Lemma accepted_segment_is_addressable_witness :
  assertValidStorageKey (js "app/t" ++ slash :: js "doc-1") = None.
Proof.
  apply (accepted_segment_is_addressable (js "app/t") (js "doc-1")); try (vm_compute; reflexivity). discriminate.
Defined.
