(* ===== verification/Adoption.v ===== *)
(** * Own-session adoption (server/src/log-conflict-adoption.ts)

    After a rejected create: is the occupant of the slot this writer's own entry?
    Two values have the same [JSON.stringify] text exactly when their JSON-normal
    forms are equal, key order included. *)
From S2P Require Import Prelude JsText JsValue Errors Json Storage Effects Lsn LogWalk.

Inductive refusal := ForeignSession | WrongSeq | IntentMismatch.

Inductive AdoptionDecision :=
| Adopt (entry : LogEntry)
| Refuse (reason : refusal).

(** [v.k] of a value the caller knows to be an object. *)
Definition field (k : jsstr) (v : jsval) : jsval := default JUndef (prop k v).

(** [JSON.stringify(a) === JSON.stringify(b)] *)
Definition same_json (a b : jsval) : bool := bool_decide (json_norm a = json_norm b).

Definition tryAdoptOwnSessionLogEntry (self existing : LogEntry) : AdoptionDecision :=
  if negb (strict_eq (field (js "session") existing) (field (js "session") self))
  then Refuse ForeignSession
  else if negb (strict_eq (field (js "seq") existing) (field (js "seq") self))
  then Refuse WrongSeq
  else if negb (same_json existing self) then Refuse IntentMismatch
  else Adopt existing.

(** ** Lemmas *)

(** What is adopted is the occupant, and it is byte for byte what was sent. *)
Lemma adopt_inv self existing e : tryAdoptOwnSessionLogEntry self existing = Adopt e ->
  e = existing /\ json_norm existing = json_norm self.
Proof.
  unfold tryAdoptOwnSessionLogEntry, same_json. repeat (case_match; try done).
  intros [= <-]. split; [done|].
  match goal with H : negb (bool_decide _) = false |- _ => apply negb_false_iff, bool_decide_eq_true in H; done end.
Qed.
