(* ===== verification/Writer.v ===== *)
(** * The writer (server/src/writer.ts)

    One [commit] call: validation, the read (or creation) of the manifest, the tail
    search, the insert guard, the index markers, the create of [log/<seq>] that is
    the commit, the readback of a rejected create, the delete-floor check and the
    stale marker cleanup.  The clock, the session id and the generation nonce are
    arguments.  Index keys come through an interface, and the maintenance dispatch
    that ends a commit is an argument whose outcome the writer ignores. *)
From S2P Require Import Prelude JsText JsValue Errors Json Storage Effects Lsn CurrentJson LogWalk LogTail.
From S2P Require Import Adoption DocId.
Local Open Scope Z_scope.

Definition PREIMAGE_SCAN_MAX_GETS : Z := 8.

(** What the writer needs of a collection's declared indexes. *)
Class IndexProjection := {
  has_indexes : bool;
  (** [allIndexKeysFor(logPrefix, indexes, body, docId)], [JUndef] for no body *)
  index_keys : jsstr -> jsval -> jsstr -> result (list jsstr)
}.

Inductive Op := OpI | OpU | OpD.

Global Instance Op_eq_decision : EqDecision Op.
Proof. solve_decision. Defined.

Definition op_json (op : Op) : jsval :=
  JStr match op with OpI => js "I" | OpU => js "U" | OpD => js "D" end.

(** The guard's fields as the caller passed them; [JUndef] when absent. *)
Record InsertGuard := Guard { absentBelowSeq : jsval; replayIdentical : jsval }.

Record CommitInput := Input {
  op : Op;
  collection : jsstr;
  docId : jsstr;
  input_body : jsval;
  origin : option jsstr;
  insertGuard : option InsertGuard
}.

(** ** Pure decisions *)

(** [throws new BaerlyError("AmbiguousCommit", ..., { cause, _id })] *)
Definition ambiguous_commit (docId : jsstr) : js_error :=
  BaerlyError AmbiguousCommit None (Some OtherError) (Some docId).

Definition isDefinitiveCreateRejection (e : js_error) : bool :=
  has_code AccessDenied e || has_code InvalidConfig e.

Definition isCreateNotApplied (e : js_error) : bool :=
  has_code NetworkError e &&
  match e with BaerlyError _ (Some d) _ _ => notApplied d | _ => false end.

Definition isAbortError (e : js_error) : bool := match e with AbortError => true | _ => false end.

(** [typeof seq === "number" && Number.isSafeInteger(seq) && seq >= 0] *)
Definition safe_seq (v : jsval) : option Z :=
  match v with
  | JNum n => if is_safe_integer n then match num_integer n with
                                        | Some z => if z <? 0 then None else Some z
                                        | None => None
                                        end else None
  | _ => None
  end.

Definition assertInsertGuardShape (input : CommitInput) (g : InsertGuard) : option js_error :=
  if negb (bool_decide (op input = OpI)) then Some (new_error InvalidConfig)
  else match safe_seq (absentBelowSeq g) with
       | None => Some (new_error InvalidConfig)
       | Some _ => match replayIdentical g with
                   | JUndef | JBool _ => None
                   | _ => Some (new_error InvalidConfig)
                   end
       end.

(** The decision of one window entry: [None] looks further down. *)
Definition decide_entry (input : CommitInput) (g : InsertGuard) (e : LogEntry) :
    option (result (option LogEntry)) :=
  match prop (js "collection") e with
  | None => Some (inl OtherError)
  | Some c =>
    if negb (strict_eq c (JStr (collection input))) ||
       negb (strict_eq (field (js "doc_id") e) (JStr (docId input))) then None
    else if strict_eq (field (js "op") e) (JStr (js "D")) then Some (inr None)
    else if strict_eq (replayIdentical g) (JBool true) && negb (strict_eq (input_body input) JUndef) then
      match insertReplaysRow (input_body input) (field (js "after") e) with
      | None => Some (inl OtherError)
      | Some true => Some (inr (Some e))
      | Some false => Some (inl (insertAlreadyExists (docId input)))
      end
    else Some (inl (insertAlreadyExists (docId input)))
  end.

(** The window read from its end; [inr None] lets the insert commit. *)
Fixpoint decide_from_end (input : CommitInput) (g : InsertGuard) (rev_window : list LogEntry) :
    result (option LogEntry) :=
  match rev_window with
  | [] => inr None
  | e :: es => match decide_entry input g e with
               | Some r => r
               | None => decide_from_end input g es
               end
  end.

Definition decideInsertTarget (window : list LogEntry) (input : CommitInput) (g : InsertGuard) :
    result (option LogEntry) := decide_from_end input g (reverse window).

Definition hasWriterIdentity (v : jsval) : bool :=
  match v with
  | JObj o =>
    match js_get o (js "session") with
    | JStr s => negb (bool_decide (s = [])) && bool_decide (is_Some (safe_seq (js_get o (js "seq"))))
    | _ => false
    end
  | _ => false
  end.

(** ** Log reads of the writer *)

Definition readLogOccupant (key : jsstr) : prog LogEntry :=
  bind (storage_get key) (fun got =>
  match got with
  | None => Throw (new_error NotFound)
  | Some got => match decodeJsonBytes (body got) with
                | None => Throw (new_error_cause InvalidResponse OtherError)
                | Some existing => if hasWriterIdentity existing then Ret existing
                                   else Throw (new_error InvalidResponse)
                end
  end).

(** One slot of the folded window. *)
Definition read_folded_slot (got : option StorageGetResult) : result LogEntry :=
  match got with
  | None => inl (new_error WriteConflict)
  | Some got => match decodeJsonBytes (body got) with
                | Some e => inr e
                | None => inl (new_error_cause InvalidResponse OtherError)
                end
  end.

(** The chunk loop; [fuel] counts chunks. *)
Fixpoint read_folded_chunks (fuel : nat) (logPrefix : jsstr) (chunk logSeqStart : Z) : prog (list LogEntry) :=
  match fuel with
  | O => Ret []
  | S fuel =>
    if chunk <? logSeqStart then
      let stop := Z.min (chunk + MAX_PARALLEL_LOG_READS) logSeqStart in
      bind (for_each (seqZ chunk (stop - chunk)) (fun s => storage_get (logObjectKey logPrefix s))) (fun bodies =>
      bind (of_result (collect (read_folded_slot <$> bodies))) (fun entries =>
      bind (read_folded_chunks fuel logPrefix (chunk + MAX_PARALLEL_LOG_READS) logSeqStart) (fun rest =>
      Ret (entries ++ rest))))
    else Ret []
  end.

Definition readFoldedInsertWindow (logPrefix : jsstr) (fromSeq logSeqStart : Z) : prog (list LogEntry) :=
  if logSeqStart <=? fromSeq then Ret []
  else if LOG_FORWARD_PROBE_CAP <? logSeqStart - fromSeq then Throw (new_error WriteConflict)
  else read_folded_chunks (Z.to_nat (logSeqStart - fromSeq)) logPrefix fromSeq logSeqStart.

(** The backward walk; [n] slots left, [s] the next one.  [JUndef] is no pre-image. *)
Fixpoint pre_image_loop (n : nat) (logPrefix coll docId : jsstr) (s : Z) : prog jsval :=
  match n with
  | O => Ret JUndef
  | S n =>
    let next := pre_image_loop n logPrefix coll docId (s - 1) in
    bind (storage_get (logObjectKey logPrefix s)) (fun got =>
    match got with
    | None => next
    | Some got =>
      match decodeJsonBytes (body got) with
      | None => next
      | Some e =>
        bind (read_prop (js "collection") e) (fun c =>
        if negb (strict_eq c (JStr coll)) || negb (strict_eq (field (js "doc_id") e) (JStr docId)) then next
        else
          let o := field (js "op") e in
          if strict_eq o (JStr (js "D")) then Ret JUndef
          else if (strict_eq o (JStr (js "I")) || strict_eq o (JStr (js "U"))) &&
                  negb (strict_eq (field (js "after") e) JUndef)
          then Ret (field (js "after") e)
          else next)
      end
    end)
  end.

Definition readPreImage (logPrefix coll docId : jsstr) (currentNextSeq : Z) : prog jsval :=
  let floor := Z.max 0 (currentNextSeq - PREIMAGE_SCAN_MAX_GETS) in
  pre_image_loop (Z.to_nat (currentNextSeq - floor)) logPrefix coll docId (currentNextSeq - 1).

(** ** One commit *)
Section commit.
Context `{!IndexProjection}.
Context (nfc : jsstr -> jsstr).
Context (currentJsonKey : jsstr) (verifyLogIntegrityOnCommit : bool).
(** [crypto.randomUUID] halves: the generation nonce and the session id. *)
Context (fresh_generation session : jsstr).
(** [Date.now()] when the entry is minted. *)
Context (commitNowMs : Z).
(** The write-tick maintenance dispatch: manifest as read, pre-commit and observed tail. *)
Context (maintenance : CurrentJson -> Z -> Z -> prog unit).

(** Run and ignore the outcome. *)
Definition settle {A} (p : prog A) : prog unit := attempt p (fun _ => Ret tt).

Definition zero_manifest : CurrentJson :=
  Current None 0 0 (Fence 0 [] [] None []) 0 0 None None None (Some fresh_generation) [].

Definition provisionCurrentJson : prog CurrentJsonRead :=
  attempt (createCurrentJson currentJsonKey zero_manifest) (fun r =>
  match r with
  | inr read => Ret read
  | inl error =>
    if negb (isWriteConflict error) then Throw error
    else bind (readCurrentJson currentJsonKey) (fun recovered =>
         match recovered with
         | None => Throw (new_error InvalidResponse)
         | Some read => Ret read
         end)
  end).

(** The entry this commit writes at [atSeq]; [lsnTimestamp] is computed once. *)
Definition mintEntry (lsnTimestamp : jsstr) (input : CommitInput) (atSeq : Z) : LogEntry :=
  JObj ([(js "lsn", JStr (mint_lsn lsnTimestamp session atSeq));
         (js "commit_ts", JStr (toISOString commitNowMs));
         (js "op", op_json (op input));
         (js "collection", JStr (collection input));
         (js "doc_id", JStr (docId input));
         (js "session", JStr session);
         (js "seq", num atSeq)] ++
        (if negb (bool_decide (op input = OpD)) && negb (strict_eq (input_body input) JUndef)
         then [(js "after", input_body input)] else []) ++
        opt_field (js "origin") JStr (origin input)).

(** *** Index markers *)

(** A marker another writer already put is there: [WriteConflict] is success. *)
Definition put_marker (k : jsstr) : prog unit :=
  attempt (storage_put k EMPTY_BODY create_only) (fun r =>
  match r with
  | inr _ => Ret tt
  | inl error => if isWriteConflict error then Ret tt else Throw error
  end).

(** The keys whose put is sent before one exceeds the limit, and that error. *)
Fixpoint within_limit (keys : list jsstr) : list jsstr * option js_error :=
  match keys with
  | [] => ([], None)
  | k :: ks => match assertKeyWithinLimit k with
               | Some e => ([], Some e)
               | None => let (sent, err) := within_limit ks in (k :: sent, err)
               end
  end.

(** Step 4: the additive markers; returns how many. *)
Definition put_new_keys (logPrefix : jsstr) (input : CommitInput) : prog Z :=
  if has_indexes && negb (bool_decide (op input = OpD)) then
    bind (of_result (index_keys logPrefix (input_body input) (docId input))) (fun newKeys =>
    let (sent, err) := within_limit newKeys in
    match err with
    | Some e => bind (for_each sent (fun k => settle (put_marker k))) (fun _ => Throw e)
    | None => bind (promise_all newKeys put_marker) (fun _ => Ret (Z.of_nat (length newKeys)))
    end)
  else Ret 0.

Definition stale_keys (logPrefix : jsstr) (input : CommitInput) (seq : Z) : prog (list jsstr) :=
  match op input with
  | OpI => Ret []
  | OpU =>
    bind (readPreImage logPrefix (collection input) (docId input) seq) (fun preImage =>
    bind (of_result (index_keys logPrefix preImage (docId input))) (fun oldKeys =>
    bind (of_result (index_keys logPrefix (input_body input) (docId input))) (fun newKeys =>
    Ret (base.filter (fun k => k ∉ newKeys) oldKeys))))
  | OpD =>
    bind (readPreImage logPrefix (collection input) (docId input) seq) (fun preImage =>
    of_result (index_keys logPrefix preImage (docId input)))
  end.

(** Step 5b: a failed read or delete never fails the commit. *)
Definition cleanupStaleIndexKeysBestEffort (logPrefix : jsstr) (input : CommitInput) (seq : Z) : prog Z :=
  if negb has_indexes then Ret 0
  else attempt (stale_keys logPrefix input seq) (fun r =>
       match r with
       | inl _ => Ret 0
       | inr staleKeys =>
         bind (for_each staleKeys (fun k => settle (storage_delete k))) (fun _ =>
         Ret (Z.of_nat (length staleKeys)))
       end).

(** *** Step 5: the committing create *)

Inductive create_outcome :=
| Committed (entry : LogEntry)
| Foreign (occupant : LogEntry).

(** One slot: one put, then at most one readback. *)
Definition create_at (logPrefix : jsstr) (input : CommitInput) (entry : LogEntry) (seq : Z) :
    prog create_outcome :=
  let logEntryKey := logObjectKey logPrefix seq in
  bind (check (assertKeyWithinLimit logEntryKey)) (fun _ =>
  match encodeJsonBytes entry with
  | None => Throw OtherError
  | Some entryBody =>
    attempt (storage_put logEntryKey entryBody create_only) (fun r =>
    match r with
    | inr _ => Ret (Committed entry)
    | inl error =>
      if negb (isWriteConflict error) && (isDefinitiveCreateRejection error || isCreateNotApplied error)
      then Throw error
      else
        attempt (readLogOccupant logEntryKey) (fun r =>
        match r with
        | inl _ => Throw (ambiguous_commit (docId input))
        | inr occupant =>
          match tryAdoptOwnSessionLogEntry entry occupant with
          | Adopt e => Ret (Committed e)
          | Refuse _ => Ret (Foreign occupant)
          end
        end)
    end)
  end).

Inductive slot_result :=
| Landed (entry : LogEntry) (seq : Z)
| Replayed (entry : LogEntry).

(** The [for (;;)] loop.  [probes_left] is [LOG_FORWARD_PROBE_CAP - probes]; the
    window is that of a guarded insert. *)
Fixpoint create_loop (probes_left : nat) (lsnTimestamp logPrefix : jsstr) (input : CommitInput)
    (window : option (InsertGuard * list LogEntry)) (seq : Z) : prog slot_result :=
  bind (create_at logPrefix input (mintEntry lsnTimestamp input seq) seq) (fun outcome =>
  match outcome with
  | Committed entry => Ret (Landed entry seq)
  | Foreign occupant =>
    match probes_left with
    | O => Throw (new_error Internal)
    | S probes_left =>
      match window with
      | None =>
        bind (findLogTail logPrefix (seq + 1)) (fun seq =>
        create_loop probes_left lsnTimestamp logPrefix input None seq)
      | Some (g, window) =>
        bind (probeTailFrom logPrefix (seq + 1)) (fun '(tail, entries) =>
        let window := window ++ [occupant] ++ entries in
        bind (of_result (decideInsertTarget window input g)) (fun replayed =>
        match replayed with
        | Some e => Ret (Replayed e)
        | None => create_loop probes_left lsnTimestamp logPrefix input (Some (g, window)) tail
        end))
      end
    end
  end).

(** Step 5a: a create below the certified floor is rejected as ambiguous. *)
Definition assertCommitAboveDeleteFloor (logPrefix : jsstr) (seq : Z) (docId : jsstr) : prog unit :=
  attempt (readCurrentJson currentJsonKey) (fun r =>
  match r with
  | inl error => if isAbortError error then Throw error else Ret tt
  | inr None => Ret tt
  | inr (Some read) =>
    let deleteFloor := certifiedDeleteFloor (json read) in
    if (deleteFloor <=? 0) || (deleteFloor <=? seq) then Ret tt
    else bind (settle (storage_delete (logObjectKey logPrefix seq))) (fun _ =>
         Throw (BaerlyError AmbiguousCommit None None (Some docId)))
  end).

(** *** The whole attempt *)

(** Step 3: where to create, with the guarded window, or the replayed entry. *)
Inductive target :=
| CreateAt (seq : Z) (window : option (InsertGuard * list LogEntry))
| ReplayOf (entry : LogEntry).

Definition find_target (logPrefix : jsstr) (input : CommitInput) (current : CurrentJson) : prog target :=
  let logSeqStart := logSeqStartOf current in
  match insertGuard input with
  | None =>
    bind (findLogTail logPrefix (Z.max logSeqStart (tail_hint current))) (fun tail =>
    Ret (CreateAt tail None))
  | Some g =>
    let absentBelow := default 0 (safe_seq (absentBelowSeq g)) in
    bind (readFoldedInsertWindow logPrefix absentBelow logSeqStart) (fun folded =>
    bind (probeTailFrom logPrefix (Z.max absentBelow logSeqStart)) (fun '(tail, entries) =>
    let insertWindow := folded ++ entries in
    bind (of_result (decideInsertTarget insertWindow input g)) (fun replayed =>
    match replayed with
    | Some e => Ret (ReplayOf e)
    | None => Ret (CreateAt tail (Some (g, insertWindow)))
    end)))
  end.

Record CommitResult := Result { result_entry : LogEntry; currentEtag : jsstr; replayed : bool; classAOps : Z }.

(** Steps 3 to 6, on the manifest read in step 1. *)
Definition commit_on (logPrefix : jsstr) (input : CommitInput) (read : CurrentJsonRead) : prog CommitResult :=
  let current := json read in
  let baseEtag := read_etag read in
  bind (if verifyLogIntegrityOnCommit
        then bind (walkLogRange (fun _ => 0) logPrefix (logSeqStartOf current) (tail_hint current)) (fun _ => Ret tt)
        else Ret tt) (fun _ =>
  bind (find_target logPrefix input current) (fun t =>
  match t with
  | ReplayOf e => Ret (Result e baseEtag true 0)
  | CreateAt preCommitTail window =>
    bind (of_result (timestamp commitNowMs)) (fun lsnTimestamp =>
    bind (put_new_keys logPrefix input) (fun newKeysClassA =>
    bind (create_loop (Z.to_nat LOG_FORWARD_PROBE_CAP) lsnTimestamp logPrefix input window preCommitTail) (fun r =>
    match r with
    | Replayed e => Ret (Result e baseEtag true 0)
    | Landed entry seq =>
      bind (assertCommitAboveDeleteFloor logPrefix seq (docId input)) (fun _ =>
      bind (cleanupStaleIndexKeysBestEffort logPrefix input seq) (fun staleKeysClassA =>
      bind (settle (maintenance current preCommitTail (seq + 1))) (fun _ =>
      Ret (Result entry baseEtag false (1 + (newKeysClassA + staleKeysClassA))))))
    end)))
  end)).

Definition singleAttemptCommit (logPrefix : jsstr) (input : CommitInput) : prog CommitResult :=
  bind (readCurrentJson currentJsonKey) (fun existing =>
  bind (match existing with Some read => Ret read | None => provisionCurrentJson end) (fun read =>
  commit_on logPrefix input read)).

(** The checks [commit] makes before any I/O. *)
Definition validate_input (input : CommitInput) : option js_error :=
  match (if bool_decide (op input = OpD) then assertStoredDocId (docId input) else assertDocId nfc (docId input)) with
  | Some e => Some e
  | None =>
    match (if bool_decide (op input = OpD) then None
           else assertPostImageIdentity (docId input) (input_body input) InvalidConfig) with
    | Some e => Some e
    | None => match insertGuard input with
              | Some g => assertInsertGuardShape input g
              | None => None
              end
    end
  end.

Definition commit (input : CommitInput) : prog CommitResult :=
  bind (check (validate_input input)) (fun _ =>
  singleAttemptCommit (log_prefix_of currentJsonKey) input).
End commit.

(** ** The insert guard and the fold *)

(** An entry as writers mint them: an object whose op is [I], [U] or [D], with a
    post-image unless it is a [D]. *)
Definition wf_entry (e : LogEntry) : Prop :=
  is_object e = true /\
  (field (js "op") e = JStr (js "D") \/
   (field (js "op") e = JStr (js "I") \/ field (js "op") e = JStr (js "U")) /\
   field (js "after") e <> JUndef).

(** The outcome of a live row. *)
Definition live_outcome (input : CommitInput) (g : InsertGuard) (e : LogEntry) : result (option LogEntry) :=
  if strict_eq (replayIdentical g) (JBool true) && negb (strict_eq (input_body input) JUndef) then
    match insertReplaysRow (input_body input) (field (js "after") e) with
    | None => inl OtherError
    | Some true => inr (Some e)
    | Some false => inl (insertAlreadyExists (docId input))
    end
  else inl (insertAlreadyExists (docId input)).

Lemma field_object o k : field k (JObj o) = js_get o k.
Proof. done. Qed.

Lemma strict_eq_str_refl s : strict_eq (JStr s) (JStr s) = true.
Proof. simpl. by apply bool_decide_eq_true. Qed.

Lemma strict_eq_JStr v s : strict_eq v (JStr s) = true <-> v = JStr s.
Proof.
  split; [|by intros ->; apply strict_eq_str_refl]. destruct v; try done. simpl.
  by intros ->%bool_decide_eq_true.
Qed.

Lemma strict_eq_JUndef v : strict_eq v JUndef = true <-> v = JUndef.
Proof. by destruct v. Qed.

(** One entry decides exactly when it has an effect on the document. *)
Lemma decide_entry_effect input g e : wf_entry e ->
  decide_entry input g e =
  match entry_effect (collection input) None e with
  | Some (d, eff) =>
    if decide (d = JStr (docId input))
    then Some match eff with None => inr None | Some _ => live_outcome input g e end
    else None
  | None => None
  end /\
  (forall d a, entry_effect (collection input) None e = Some (d, Some a) -> field (js "after") e = a).
Proof.
  intros [Hobj Hop]. destruct e as [| | | | | |o|]; try done. rewrite !field_object in Hop.
  unfold decide_entry, entry_effect, live_outcome. cbn [prop]. rewrite !field_object.
  destruct (strict_eq (js_get o (js "collection")) (JStr (collection input))); cbn [negb orb]; [|done].
  destruct (strict_eq (js_get o (js "doc_id")) (JStr (docId input))) eqn:Ed; cbn [negb].
  - apply strict_eq_JStr in Ed. rewrite Ed. cbn [strict_eq orb].
    destruct Hop as [->|[Hiu Hafter]].
    + change (strict_eq (JStr (js "D")) (JStr (js "I"))) with false.
      change (strict_eq (JStr (js "D")) (JStr (js "U"))) with false.
      change (strict_eq (JStr (js "D")) (JStr (js "D"))) with true. cbn [orb].
      rewrite decide_True by done. split; [done|]. by intros.
    + assert (HD : strict_eq (js_get o (js "op")) (JStr (js "D")) = false) by by destruct Hiu as [-> | ->].
      assert (HIU : strict_eq (js_get o (js "op")) (JStr (js "I")) || strict_eq (js_get o (js "op")) (JStr (js "U")) = true)
        by by destruct Hiu as [-> | ->].
      rewrite HD, HIU. replace (strict_eq (js_get o (js "after")) JUndef) with false.
      2: { symmetry. apply not_true_iff_false. by rewrite strict_eq_JUndef. }
      rewrite decide_True by done. split; [|by intros d a [= _ <-]].
      destruct (_ && _); [|done]. by destruct (insertReplaysRow _ _) as [[]|].
  - assert (Hne : js_get o (js "doc_id") <> JStr (docId input)).
    { intros E. by rewrite E, strict_eq_str_refl in Ed. }
    generalize dependent (js_get o (js "doc_id")). intros d0 _ Hne.
    destruct (strict_eq d0 JUndef || false); [done|].
    destruct (strict_eq _ (JStr (js "I")) || _).
    + destruct (strict_eq (js_get o (js "after")) JUndef); [done|]. rewrite decide_False by done.
      split; [done|]. by intros d a [= _ <-].
    + destruct (strict_eq _ (JStr (js "D"))); [|done]. by rewrite decide_False.
Qed.

(** The entry has no effect on the document. *)
Definition passes (input : CommitInput) (e : LogEntry) : Prop :=
  forall eff, entry_effect (collection input) None e <> Some (JStr (docId input), eff).

(** The window decision is the fold's: the insert commits exactly when the entries leave
    the document absent, and meets the last entry about it otherwise. *)
Lemma decide_row_after input g window : Forall wf_entry window ->
  match row_after (collection input) None (JStr (docId input)) window None with
  | None => decideInsertTarget window input g = inr None
  | Some row => exists w1 e w2, window = w1 ++ e :: w2 /\
      entry_effect (collection input) None e = Some (JStr (docId input), Some row) /\
      Forall (passes input) w2 /\ field (js "after") e = row /\
      decideInsertTarget window input g = live_outcome input g e
  end.
Proof.
  unfold decideInsertTarget. induction window as [|e window IH] using rev_ind; intros Hwf; [done|].
  apply Forall_app in Hwf as [Hwf He]. apply (proj1 (Forall_singleton _ _)) in He. specialize (IH Hwf).
  rewrite row_after_app, reverse_snoc. cbn [row_after decide_from_end].
  destruct (decide_entry_effect input g e He) as [-> Hafter].
  assert (Hup : passes input e -> match row_after (collection input) None (JStr (docId input)) window None with
    | Some row => exists w1 e0 w2, window ++ [e] = w1 ++ e0 :: w2 /\
        entry_effect (collection input) None e0 = Some (JStr (docId input), Some row) /\
        Forall (passes input) w2 /\ field (js "after") e0 = row /\
        decide_from_end input g (reverse window) = live_outcome input g e0
    | None => decide_from_end input g (reverse window) = inr None
    end).
  { intros Hpass. destruct (row_after _ _ _ window None); [|done]. destruct IH as (w1 & e0 & w2 & -> & Heff & Hw2 & Hrest).
    exists w1, e0, (w2 ++ [e]). rewrite <- app_assoc. split; [done|]. split; [done|]. split; [|done].
    apply Forall_app. split; [done|]. by apply Forall_singleton. }
  destruct (entry_effect (collection input) None e) as [[d [a|]]|] eqn:Ee;
    [destruct (decide (d = JStr (docId input))) as [->|Hne]..|].
  - exists window, e, []. split; [done|]. split; [done|]. split; [constructor|]. split; [by eapply Hafter|done].
  - apply Hup. intros eff. rewrite Ee. congruence.
  - done.
  - apply Hup. intros eff. rewrite Ee. congruence.
  - apply Hup. intros eff. by rewrite Ee.
Qed.

(** ** Theorems *)

Definition sample_projection : IndexProjection :=
  {| has_indexes := false; index_keys := fun _ _ _ => inr [] |}.

Definition sample_manifest_body : bytes :=
  JsonText (current_json (Current None 0 0 (Fence 0 [] [] None []) 0 0 None None None None [])).

Definition sample_collection : MemoryStorage :=
  (memory_store (js "a/t/current.json") sample_manifest_body empty_memory).2.

Lemma not_a_log_key p key s : starts_with (p ++ js "/l") key = false -> key <> logObjectKey p s.
Proof.
  intros H ->. apply not_true_iff_false in H. apply H, starts_with_spec. unfold logObjectKey.
  eexists. rewrite <- !app_assoc. f_equal.
Qed.

Lemma sample_collection_empty : log_ends sample_collection (js "a/t") 0 0.
Proof. apply log_ends_other; [|apply log_ends_empty]. intros s. apply not_a_log_key. reflexivity. Qed.

Definition sample_delete : CommitInput := Input OpD (js "t") (js "d1") JUndef None None.

(** C4: The insert guard and the read fold agree.  Over a window of minted entries, folded
    onto any map without the insert's document, the guarded insert may commit exactly when
    the folded map has no row for the document.  When it has one, the guard answers from
    the entry that wrote it, the one the fold stores the row from and after which no entry
    of the window touches the document: with that entry as a replay if replays are on and
    its row equals the body, else with [AlreadyExists]. *)
Theorem insert_guard_agrees_with_fold input g window base :
  Forall wf_entry window -> map_get (JStr (docId input)) base = None ->
  exists docs, foldLogEntriesOnto (collection input) None window base = Some docs /\
  match map_get (JStr (docId input)) docs with
  | None => decideInsertTarget window input g = inr None
  | Some row => exists w1 e w2, window = w1 ++ e :: w2 /\
      (forall docs0, fold_entry (collection input) None docs0 e = Some (map_set (JStr (docId input)) row docs0)) /\
      Forall (fun e' => forall docs0 docs1, fold_entry (collection input) None docs0 e' = Some docs1 ->
        map_get (JStr (docId input)) docs1 = map_get (JStr (docId input)) docs0) w2 /\
      field (js "after") e = row /\
      decideInsertTarget window input g =
        if strict_eq (replayIdentical g) (JBool true) && negb (strict_eq (input_body input) JUndef) then
          match insertReplaysRow (input_body input) row with
          | None => inl OtherError
          | Some true => inr (Some e)
          | Some false => inl (insertAlreadyExists (docId input))
          end
        else inl (insertAlreadyExists (docId input))
  end.
Proof.
  intros Hwf Hbase. assert (Hobj : Forall (fun e => is_object e = true) window) by (eapply Forall_impl; [exact Hwf|by intros e []]).
  destruct (fold_row_after (collection input) None window base Hobj) as (docs & Hf & _ & Hg). exists docs. split; [done|].
  rewrite Hg, Hbase. pose proof (decide_row_after input g window Hwf) as Hd.
  destruct (row_after _ _ _ window None) as [row|]; [|done]. destruct Hd as (w1 & e & w2 & -> & Heff & Hw2 & Hafter & Hd).
  apply Forall_app in Hobj as [_ [He Hobj2]%Forall_cons]. exists w1, e, w2. split; [done|]. split.
  { intros docs0. by rewrite fold_entry_effect, Heff. }
  split; [|split; [done|]]; [|by rewrite Hd; unfold live_outcome; rewrite Hafter].
  apply Forall_forall. intros e' Hin docs0 docs1. rewrite Forall_forall in Hw2, Hobj2. specialize (Hw2 e' Hin). unfold passes in Hw2.
  rewrite fold_entry_effect by (by apply Hobj2). intros [= <-]. destruct (entry_effect (collection input) None e') as [[d [a|]]|] eqn:E; [..|done].
  - rewrite map_get_set, decide_False; [done|]. intros ->. by apply (Hw2 (Some a)).
  - rewrite map_get_delete, decide_False; [done|]. intros ->. by apply (Hw2 None).
Qed.

(** A delete lets the insert commit; a live row is answered from the entry that wrote it. *)
Definition guard_sample (id : String.string) : CommitInput := Input OpI (js "t") (js id) (JObj [(js "_id", JStr (js id))]) None None.

Lemma insert_guard_agrees_with_fold_witness :
  let window := [sample_log_entry "I" "d"; sample_log_entry "D" "d"; sample_log_entry "I" "e"] in
  decideInsertTarget window (guard_sample "d") (Guard (num 0) JUndef) = inr None /\
  decideInsertTarget window (guard_sample "e") (Guard (num 0) JUndef) = inl (insertAlreadyExists (js "e")).
Proof.
  intros window.
  assert (Hwf : Forall wf_entry window).
  { constructor; [|constructor; [|constructor; [|constructor]]]; (split; [reflexivity|]).
    - right. split; [left; vm_compute; reflexivity|vm_compute; discriminate].
    - left. vm_compute. reflexivity.
    - right. split; [left; vm_compute; reflexivity|vm_compute; discriminate]. }
  split.
  - destruct (insert_guard_agrees_with_fold (guard_sample "d") (Guard (num 0) JUndef) window [] Hwf eq_refl) as (docs & Hf & Hd).
    vm_compute in Hf. injection Hf as <-. exact Hd.
  - destruct (insert_guard_agrees_with_fold (guard_sample "e") (Guard (num 0) JUndef) window [] Hwf eq_refl) as (docs & Hf & Hd).
    vm_compute in Hf. injection Hf as <-. destruct Hd as (w1 & e & w2 & _ & _ & _ & _ & Hd). rewrite Hd. reflexivity.
Defined.
