(* ===== verification/WriterSafety.v ===== *)
(** * The commit among other clients

    What one [commit] call may leave behind, whatever other writers do between its
    calls and whatever calls fail, are acknowledged late or land late: at most one
    log entry, exactly one when it acknowledges, none that can ever appear when it
    fails with an error other than [AmbiguousCommit] (or the caller's own abort).
    Other clients may do anything that keeps filled log slots as they are and does
    not forge this commit's session id. *)
From S2P Require Import Prelude JsText JsValue Errors Json Storage Effects Lsn CurrentJson LogWalk LogTail.
From S2P Require Import Adoption DocId Writer.
Local Open Scope Z_scope.

(** ** Programs that leave the log alone *)

Fixpoint log_quiet (logPrefix : jsstr) {A} (p : prog A) : Prop :=
  match p with
  | Ret _ | Throw _ => True
  | Get _ k => forall x, log_quiet logPrefix (k x)
  | Put key _ _ k => under_log logPrefix key = false /\ forall x, log_quiet logPrefix (k x)
  | Delete key k => under_log logPrefix key = false /\ forall x, log_quiet logPrefix (k x)
  | List _ _ _ k => forall x, log_quiet logPrefix (k x)
  end.

Fixpoint never_throws {A} (p : prog A) : Prop :=
  match p with
  | Ret _ => True
  | Throw _ => False
  | Get _ k => forall x, never_throws (k x)
  | Put _ _ _ k => forall x, never_throws (k x)
  | Delete _ k => forall x, never_throws (k x)
  | List _ _ _ k => forall x, never_throws (k x)
  end.

(** ** What a commit may have left behind *)
Section states.
Context (logPrefix session : jsstr).
(** The bodies this commit may send, by key. *)
Context (sent : jsstr -> bytes -> Prop).

(** This client's landed log entries. *)
Definition landed_log (w : world) : list (jsstr * bytes) :=
  base.filter (fun kb => under_log logPrefix kb.1 = true) (landed w).

(** A put that may still land under the log is a create of a sent body, at an
    occupied slot unless it is the [exception]. *)
Definition pending_blocked (exception : jsstr -> bytes -> Prop) (w : world) : Prop :=
  forall k b o, (k, b, o) ∈ pending w -> under_log logPrefix k = true ->
    (ifNoneMatch o = true /\ sent k b) /\ (is_Some (objects (store w) !! k) \/ exception k b).

(** Nothing landed, and nothing can. *)
Definition left_nothing (w : world) : Prop :=
  landed_log w = [] /\ pending_blocked (fun _ _ => False) w.

(** Exactly the body [b] landed, at [k], where it is stored. *)
Definition left_one (k : jsstr) (b : bytes) (w : world) : Prop :=
  landed_log w = [(k, b)] /\ stored_body <$> objects (store w) !! k = Some b /\
  pending_blocked (fun _ _ => False) w.

(** The body [b] landed at [k], may land there, or neither. *)
Definition left_maybe (k : jsstr) (b : bytes) (w : world) : Prop :=
  (landed_log w = [] \/ landed_log w = [(k, b)] /\ stored_body <$> objects (store w) !! k = Some b) /\
  pending_blocked (fun k' b' => k' = k /\ b' = b) w.

(** The body [b] landed at [k] or not, and nothing landed or lands anywhere else. *)
Definition left_only (k : jsstr) (b : bytes) (w : world) : Prop :=
  Forall (fun kb => kb = (k, b)) (landed_log w) /\ pending_blocked (fun k' _ => k' = k) w.

(** A log body that names this commit's session. *)
Definition names_session (b : bytes) : Prop :=
  exists v, decodeJsonBytes b = Some v /\ field (js "session") v = JStr session.

(** Only this client's puts name its session. *)
Definition session_ours (w : world) : Prop :=
  forall k o, under_log logPrefix k = true -> objects (store w) !! k = Some o ->
    names_session (stored_body o) -> (k, stored_body o) ∈ landed w.

(** What this client may rely on: filled slots stay, and new ones name other sessions. *)
Definition log_rely (m m' : MemoryStorage) : Prop :=
  forall k, under_log logPrefix k = true ->
    match objects m !! k with
    | Some o => exists o', objects m' !! k = Some o' /\ stored_body o' = stored_body o
    | None => forall o', objects m' !! k = Some o' -> ~ names_session (stored_body o')
    end.

(** Stable under the environment and under this client's calls outside the log. *)
Definition quiet_stable (R : MemoryStorage -> MemoryStorage -> Prop) (J : world -> Prop) : Prop :=
  (forall w w', env_step R w w' -> J w -> J w') /\
  (forall k b o x w w', put_step k b o w x w' -> under_log logPrefix k = false -> J w -> J w') /\
  (forall k x w w', delete_step k w x w' -> under_log logPrefix k = false -> J w -> J w').
End states.

(** ** Lemmas *)

Lemma log_quiet_attempt p {A B} (q : prog A) (f : result A -> prog B) :
  log_quiet p q -> (forall r, log_quiet p (f r)) -> log_quiet p (attempt q f).
Proof. induction q; simpl; intuition. Qed.

Lemma log_quiet_bind p {A B} (q : prog A) (f : A -> prog B) :
  log_quiet p q -> (forall a, log_quiet p (f a)) -> log_quiet p (bind q f).
Proof. intros Hq Hf. apply log_quiet_attempt; [done|]. by intros [e|a]. Qed.

Lemma log_quiet_for_each p {A B} (l : list A) (f : A -> prog B) :
  (forall x, x ∈ l -> log_quiet p (f x)) -> log_quiet p (for_each l f).
Proof.
  induction l as [|x l IH]; intros Hf; [done|]. cbn [for_each].
  apply log_quiet_bind; [apply Hf; by left|]. intros y.
  apply log_quiet_bind; [apply IH; intros; apply Hf; by right|done].
Qed.

Lemma log_quiet_settle_all p {A B} (l : list A) (f : A -> prog B) :
  (forall x, x ∈ l -> log_quiet p (f x)) -> log_quiet p (settle_all l f).
Proof.
  induction l as [|x l IH]; intros Hf; cbn [settle_all]; [done|].
  apply log_quiet_attempt; [apply Hf; by left|]. intros r. apply log_quiet_bind; [|done].
  apply IH. intros y Hy. apply Hf. by right.
Qed.

Lemma never_throws_attempt {A B} (q : prog A) (f : result A -> prog B) :
  (forall r, never_throws (f r)) -> never_throws (attempt q f).
Proof. intros Hf. induction q; simpl; auto. Qed.

Lemma never_throws_bind {A B} (q : prog A) (f : A -> prog B) :
  never_throws q -> (forall a, never_throws (f a)) -> never_throws (bind q f).
Proof. unfold bind. induction q; simpl; intuition. Qed.

Lemma never_throws_for_each {A B} (l : list A) (f : A -> prog B) :
  (forall x, never_throws (f x)) -> never_throws (for_each l f).
Proof.
  intros Hf. induction l as [|x l IH]; [done|]. cbn [for_each].
  apply never_throws_bind; [done|]. intros y. by apply never_throws_bind.
Qed.

Lemma never_throws_settle {A} (q : prog A) : never_throws (settle q).
Proof. by apply never_throws_attempt. Qed.

Lemma log_quiet_of_result p {A} (r : result A) : log_quiet p (of_result r).
Proof. by destruct r. Qed.

Lemma log_quiet_check p o : log_quiet p (check o).
Proof. by destruct o. Qed.

Lemma log_quiet_get p key : log_quiet p (storage_get key).
Proof. intros x. apply log_quiet_of_result. Qed.

Lemma log_quiet_put p key b o : under_log p key = false -> log_quiet p (storage_put key b o).
Proof. intros H. split; [done|]. intros x. apply log_quiet_of_result. Qed.

Lemma log_quiet_delete p key : under_log p key = false -> log_quiet p (storage_delete key).
Proof. intros H. split; [done|]. intros x. apply log_quiet_of_result. Qed.

Lemma log_quiet_settle p {A} (q : prog A) : log_quiet p q -> log_quiet p (settle q).
Proof. intros H. by apply log_quiet_attempt. Qed.

Lemma log_quiet_catch p {A} (q : prog A) h : log_quiet p q -> (forall e, log_quiet p (h e)) ->
  log_quiet p (catch q h).
Proof. intros H Hh. apply log_quiet_attempt; [done|]. intros [e|a]; [apply Hh|done]. Qed.

#[export] Hint Resolve log_quiet_of_result log_quiet_check log_quiet_get log_quiet_settle : baerly.

(** Break a program at its binds and matches; the leaves are single calls. *)
Ltac quiet :=
  repeat first
    [ done
    | progress intros
    | apply log_quiet_bind
    | apply log_quiet_attempt
    | apply log_quiet_of_result
    | apply log_quiet_check
    | apply log_quiet_get
    | apply log_quiet_settle
    | apply log_quiet_for_each
    | progress case_match ].

(** A quiet program keeps every stable state, whatever it returns. *)
Lemma wp_quiet p R J {A} (q : prog A) w : quiet_stable p R J -> log_quiet p q -> J w ->
  wp R q (fun _ w' => J w') w.
Proof.
  intros (Henv & Hput & Hdel) Hq.
  assert (Henvs : forall w w', rtc (env_step R) w w' -> J w -> J w').
  { intros w1 w2. by apply env_steps_preserve. }
  revert w. induction q; intros w HJ; cbn [wp log_quiet] in *; intros; eauto.
  - destruct Hq as [Hk Hq]. eapply H; [done|]. eapply Hput; [done..|]. by eapply Henvs.
  - destruct Hq as [Hk Hq]. eapply H; [done|]. eapply Hdel; [done..|]. by eapply Henvs.
Qed.

Lemma wp_never_throws {R A} (q : prog A) Q w : never_throws q -> wp R q Q w ->
  wp R q (fun r w' => (exists a, r = inr a) /\ Q r w') w.
Proof. revert w. induction q; cbn [never_throws wp]; intros w Ht Hw; intuition eauto. Qed.

(** [bind] with a stable first part. *)
Lemma wp_bind_quiet p R J {A B} (q : prog A) (f : A -> prog B) Q w :
  quiet_stable p R J -> log_quiet p q -> J w ->
  (forall e w', J w' -> Q (inl e) w') -> (forall a w', J w' -> wp R (f a) Q w') ->
  wp R (bind q f) Q w.
Proof.
  intros HJ Hq Hw He Ha. apply wp_bind. eapply wp_mono; [|by eapply (wp_quiet p R J)].
  intros [e|a] w' HJ'; [|by apply Ha]. intros w2 Hs. apply He.
  eapply (env_steps_preserve R J); [|done..]. apply HJ.
Qed.

Lemma wp_ret_stable {R} {J : world -> Prop} {A} (a : A) (Q : result A -> world -> Prop) w :
  (forall w w', env_step R w w' -> J w -> J w') -> J w -> (forall w', J w' -> Q (inr a) w') ->
  wp R (Ret a) Q w.
Proof. intros HJ Hw HQ w' Hs. apply HQ. by eapply (env_steps_preserve R J). Qed.

Lemma wp_throw_stable {R} {J : world -> Prop} {A} e (Q : result A -> world -> Prop) w :
  (forall w w', env_step R w w' -> J w -> J w') -> J w -> (forall w', J w' -> Q (inl e) w') ->
  wp R (Throw e) Q w.
Proof. intros HJ Hw HQ w' Hs. apply HQ. by eapply (env_steps_preserve R J). Qed.

(** ** The states are stable *)
Section stable.
Context (logPrefix session : jsstr) (sent : jsstr -> bytes -> Prop).
Context (R : MemoryStorage -> MemoryStorage -> Prop).
Context (HR : forall m m', R m m' -> log_rely logPrefix session m m').
Implicit Types (w : world) (k : jsstr) (b : bytes).

(** A step that leaves every key under the log alone. *)
Definition same_log (m m' : MemoryStorage) : Prop :=
  forall k, under_log logPrefix k = true -> objects m' !! k = objects m !! k.

Lemma same_log_store k b m : under_log logPrefix k = false -> same_log m (memory_store k b m).2.
Proof.
  intros Hk k' Hk'. rewrite memory_store_lookup. case_decide; [congruence|done].
Qed.

Lemma same_log_delete k m : under_log logPrefix k = false -> same_log m (memory_delete k m).2.
Proof.
  intros Hk k' Hk'. unfold memory_delete. destruct (assertValidStorageKey k); [done|].
  cbn [snd objects]. apply lookup_delete_ne. congruence.
Qed.

(** The occupied slots stay, with their bodies. *)
Definition slots_stay (m m' : MemoryStorage) : Prop :=
  forall k o, under_log logPrefix k = true -> objects m !! k = Some o ->
    exists o', objects m' !! k = Some o' /\ stored_body o' = stored_body o.

Lemma same_log_stay m m' : same_log m m' -> slots_stay m m'.
Proof. intros H k o Hk Ho. exists o. by rewrite H. Qed.

Lemma rely_stay m m' : log_rely logPrefix session m m' -> slots_stay m m'.
Proof. intros H k o Hk Ho. specialize (H k Hk). by rewrite Ho in H. Qed.

(** A create that lands fills an empty slot. *)
Lemma land_stay k b w : (under_log logPrefix k = true -> objects (store w) !! k = None) ->
  slots_stay (store w) (store (land k b w)).
Proof.
  intros He k' o Hk' Ho. unfold land. cbn [store]. rewrite memory_store_lookup.
  case_decide as E; [|by exists o]. subst. rewrite He in Ho by done. done.
Qed.

Lemma blocked_mono (E : jsstr -> bytes -> Prop) w m' l : pending_blocked logPrefix sent E w -> slots_stay (store w) m' ->
  pending_blocked logPrefix sent E (World m' (pending w) l).
Proof.
  intros Hb Hs k b o Hin Hk. destruct (Hb k b o Hin Hk) as [Hn [[x Hx]|He]]; split; try done.
  - left. destruct (Hs k x Hk Hx) as (x' & Hx' & _). by exists x'.
  - by right.
Qed.

Lemma stored_stay k b m m' : under_log logPrefix k = true -> slots_stay m m' ->
  stored_body <$> objects m !! k = Some b -> stored_body <$> objects m' !! k = Some b.
Proof.
  intros Hk Hs Hb. destruct (objects m !! k) as [o|] eqn:Eo; [|done]. injection Hb as <-.
  destruct (Hs k o Hk Eo) as (o' & -> & E). cbn. by rewrite E.
Qed.

Lemma landed_log_land k b w : landed_log logPrefix (land k b w) =
  if under_log logPrefix k then landed_log logPrefix w ++ [(k, b)] else landed_log logPrefix w.
Proof.
  unfold landed_log, land. cbn [landed]. rewrite filter_app, filter_cons, filter_nil. cbn [fst].
  destruct (under_log logPrefix k); [by rewrite decide_True|].
  rewrite decide_False by done. by rewrite app_nil_r.
Qed.

(** The session invariant along a step that respects the log or is this client's. *)
Lemma session_ours_rely w m' : log_rely logPrefix session (store w) m' ->
  session_ours logPrefix session w -> session_ours logPrefix session (World m' (pending w) (landed w)).
Proof.
  intros Hr Hw k o Hk Ho Hn. cbn [store landed] in *. specialize (Hr k Hk).
  destruct (objects (store w) !! k) as [o0|] eqn:E0.
  - destruct Hr as (o' & Ho' & Eb). simplify_eq. rewrite Eb in *. by eapply Hw.
  - by destruct (Hr o Ho Hn).
Qed.

Lemma session_ours_same w m' p : same_log (store w) m' ->
  session_ours logPrefix session w -> session_ours logPrefix session (World m' p (landed w)).
Proof. intros Hs Hw k o Hk Ho Hn. cbn [store landed] in *. rewrite Hs in Ho by done. by eapply Hw. Qed.

Lemma session_ours_land w k b : session_ours logPrefix session w ->
  session_ours logPrefix session (land k b w).
Proof.
  intros Hw k' o Hk' Ho Hn. unfold land in *. cbn [store landed] in *.
  rewrite memory_store_lookup in Ho. apply elem_of_app. case_decide as E.
  - right. injection Ho as <-. subst. by left.
  - left. by eapply Hw.
Qed.

Lemma put_pre_create k o m : ifNoneMatch o = true -> put_precondition o (objects m !! k) = true ->
  objects m !! k = None.
Proof.
  unfold put_precondition. intros ->. destruct (objects m !! k); [|done].
  by rewrite bool_decide_eq_true_2.
Qed.

(** [session_ours] with any of the three states. *)
Definition with_session (J : world -> Prop) (w : world) : Prop := session_ours logPrefix session w /\ J w.

(** What [env_step] and a quiet put do to a state: the store moves with the slots
    staying, [landed] may gain a body outside the log, or an excepted create lands. *)
Record state_ok (J : world -> Prop) : Prop := StateOk {
  ok_move w m' : slots_stay (store w) m' -> J w -> J (World m' (pending w) (landed w));
  ok_pend w k b o : under_log logPrefix k = false -> J w ->
    J (World (store w) ((k, b, o) :: pending w) (landed w));
  ok_land_other w k b : under_log logPrefix k = false -> J w -> J (land k b w);
  ok_land_pending w k b o : (k, b, o) ∈ pending w -> under_log logPrefix k = true ->
    put_precondition o (objects (store w) !! k) = true -> J w -> J (land k b w)
}.

Lemma state_ok_stable J : state_ok J -> quiet_stable logPrefix R (with_session J).
Proof.
  intros [Hmove Hpend Hother Hland]. split; [|split].
  - intros w w' Hs [Hse HJ]. destruct Hs as [w m' Hm|w k b o Hin Hpre].
    + split; [by apply session_ours_rely; [apply HR|]|]. apply Hmove; [|done]. by apply rely_stay, HR.
    + split; [by apply session_ours_land|]. destruct (under_log logPrefix k) eqn:Ek; [by eapply Hland|by apply Hother].
  - intros k b o x w w' Hs Hk [Hse HJ]. destruct Hs as [date Hv Hpre|e Hv Hpre Hd|e Hv Hd|e].
    + split; [by apply session_ours_land|by apply Hother].
    + split; [by apply session_ours_land|by apply Hother].
    + split; [by apply (session_ours_same w)|by apply Hpend].
    + by split.
  - intros k x w w' Hs Hk [Hse HJ].
    assert (Hsl : same_log (store w) (memory_delete k (store w)).2) by by apply same_log_delete.
    destruct Hs; (by split) || (split; [by apply session_ours_same|apply Hmove; [by apply same_log_stay|done]]).
Qed.

Lemma blocked_pend (E : jsstr -> bytes -> Prop) w k b o : under_log logPrefix k = false ->
  pending_blocked logPrefix sent E w ->
  pending_blocked logPrefix sent E (World (store w) ((k, b, o) :: pending w) (landed w)).
Proof.
  intros Hk Hp k' b' o' [[= -> -> ->]|Hin]%elem_of_cons Hk'; [congruence|]. by eapply Hp.
Qed.

Lemma blocked_land (E : jsstr -> bytes -> Prop) w k b : (under_log logPrefix k = true -> objects (store w) !! k = None) ->
  pending_blocked logPrefix sent E w -> pending_blocked logPrefix sent E (land k b w).
Proof. intros Hk Hp. by apply blocked_mono; [|apply (land_stay k b)]. Qed.

(** A pending create of an occupied slot does not meet its precondition. *)
Lemma blocked_no_land w k b o : pending_blocked logPrefix sent (fun _ _ => False) w ->
  (k, b, o) ∈ pending w -> under_log logPrefix k = true ->
  put_precondition o (objects (store w) !! k) = true -> False.
Proof.
  intros Hp Hin Hk Hpre. destruct (Hp k b o Hin Hk) as [Hn [[x Hx]|[]]].
  by rewrite (put_pre_create _ _ _ (proj1 Hn) Hpre) in Hx.
Qed.

Lemma left_nothing_ok : state_ok (left_nothing logPrefix sent).
Proof.
  split.
  - intros w m' Hs [Hl Hp]. split; [done|]. by apply blocked_mono.
  - intros w k b o Hk [Hl Hp]. split; [done|]. by apply blocked_pend.
  - intros w k b Hk [Hl Hp]. split; [by rewrite landed_log_land, Hk|]. apply blocked_land; [congruence|done].
  - intros w k b o Hin Hk Hpre [Hl Hp]. by destruct (blocked_no_land w k b o).
Qed.

Lemma left_one_ok k0 b0 : under_log logPrefix k0 = true -> state_ok (left_one logPrefix sent k0 b0).
Proof.
  intros Hk0. split.
  - intros w m' Hs (Hl & Hb & Hp). split; [done|]. split; [by eapply stored_stay|]. by apply blocked_mono.
  - intros w k b o Hk (Hl & Hb & Hp). split; [done|]. split; [done|]. by apply blocked_pend.
  - intros w k b Hk (Hl & Hb & Hp). split; [by rewrite landed_log_land, Hk|]. split.
    + eapply stored_stay; [done| |done]. apply (land_stay k b). congruence.
    + apply blocked_land; [congruence|done].
  - intros w k b o Hin Hk Hpre (Hl & Hb & Hp). by destruct (blocked_no_land w k b o).
Qed.

Lemma left_maybe_ok k0 b0 : under_log logPrefix k0 = true -> state_ok (left_maybe logPrefix sent k0 b0).
Proof.
  intros Hk0. split.
  - intros w m' Hs (Hl & Hp). split; [|by apply blocked_mono].
    destruct Hl as [Hl|[Hl Hb]]; [by left|right]. split; [done|by eapply stored_stay].
  - intros w k b o Hk (Hl & Hp). split; [done|by apply blocked_pend].
  - intros w k b Hk (Hl & Hp). split; [|apply blocked_land; [congruence|done]].
    rewrite landed_log_land, Hk.
    destruct Hl as [Hl|[Hl Hb]]; [by left|right]. split; [done|].
    eapply stored_stay; [done| |done]. apply (land_stay k b). congruence.
  - intros w k b o Hin Hk Hpre (Hl & Hp).
    destruct (Hp k b o Hin Hk) as [Hn Hx]. pose proof (put_pre_create _ _ _ (proj1 Hn) Hpre) as He.
    destruct Hx as [[x Hx]|[-> ->]]; [congruence|].
    assert (Hl0 : landed_log logPrefix w = []).
    { destruct Hl as [?|[_ Hb]]; [done|]. by rewrite He in Hb. }
    split; [|by apply blocked_land]. right. rewrite landed_log_land, Hk, Hl0. split; [done|].
    unfold land. cbn [store]. rewrite memory_store_lookup. by case_decide.
Qed.
End stable.

(** ** The minted entry survives its own readback *)

Lemma own_get_norm k (o : list (jsstr * jsval)) : NoDup (own_keys o) ->
  own_get k (omap (fun kv => pair kv.1 <$> json_norm kv.2) o) = (own_get k o ≫= json_norm).
Proof.
  induction o as [|[k' v] o IH]; [done|]. cbn [own_keys fmap list_fmap fst]. intros [Hk Hnd]%NoDup_cons.
  cbn [omap list_omap fst snd own_get]. destruct (decide (k' = k)) as [->|Hne].
  - destruct (json_norm v) as [w|] eqn:E; cbn [fmap option_fmap option_map own_get mbind option_bind].
    + by rewrite decide_True, E.
    + rewrite IH, E by done. replace (own_get k o) with (@None jsval); [done|].
      symmetry. by apply own_get_None.
  - destruct (json_norm v) as [w|]; cbn [fmap option_fmap option_map own_get]; [|by apply IH].
    rewrite decide_False by done. by apply IH.
Qed.

Lemma mint_keys_ok session now ts input seq : keys_ok (input_body input) = true ->
  keys_ok (mintEntry session now ts input seq) = true.
Proof.
  intros Hb. unfold mintEntry. cbn [keys_ok].
  apply andb_true_iff. split.
  - apply bool_decide_eq_true. destruct (_ && _), (origin input); js_decide.
  - rewrite !forallb_app. apply andb_true_iff. split; [by destruct (op input)|].
    apply andb_true_iff. split; [destruct (_ && _); cbn; by rewrite ?Hb|by destruct (origin input)].
Qed.

Lemma field_norm k o v w : NoDup (own_keys o) -> own_get k o = Some v -> json_norm v = Some w ->
  forall u, json_norm (JObj o) = Some u -> field k u = w.
Proof.
  intros Hnd Hk Hv u. cbn [json_norm]. intros [= <-]. unfold field, prop. cbn [default].
  unfold js_get. by rewrite own_get_norm, Hk, (Hv : (Some v ≫= json_norm) = Some w).
Qed.

(** What the slot decodes to when this client's create landed there: adopted. *)
Lemma mint_decode session now ts input seq b : keys_ok (input_body input) = true ->
  encodeJsonBytes (mintEntry session now ts input seq) = Some b ->
  exists v, decodeJsonBytes b = Some v /\
    tryAdoptOwnSessionLogEntry (mintEntry session now ts input seq) v = Adopt v.
Proof.
  intros Hb He. pose proof (mint_keys_ok session now ts input seq Hb) as Hk.
  pose proof (decode_encode _ _ Hk He) as Hd.
  destruct (json_norm (mintEntry session now ts input seq)) as [v|] eqn:En; [|done].
  exists v. split; [done|]. pose proof (json_norm_normal _ _ Hk En) as Hok.
  unfold tryAdoptOwnSessionLogEntry, same_json.
  rewrite (bool_decide_eq_true_2 (json_norm v = _)) by (by rewrite En, json_norm_ok).
  cbn [keys_ok mintEntry] in Hk. apply andb_true_iff in Hk as [Hnd%bool_decide_eq_true _].
  unfold mintEntry in En.
  rewrite (field_norm (js "session") _ (JStr session) (JStr session) Hnd eq_refl eq_refl _ En).
  rewrite (field_norm (js "seq") _ (num seq) (num seq) Hnd eq_refl eq_refl _ En).
  unfold mintEntry. unfold field, prop, default. cbn [app]. js_fields.
  unfold id. by rewrite strict_eq_num, (bool_decide_eq_true_2 (session = session) eq_refl : strict_eq (JStr session) (JStr session) = true).
Qed.

Lemma strict_eq_string v s : strict_eq v (JStr s) = true -> v = JStr s.
Proof. destruct v; try done. simpl. by intros ->%bool_decide_eq_true. Qed.

Lemma mint_session session now ts input seq :
  field (js "session") (mintEntry session now ts input seq) = JStr session.
Proof. unfold mintEntry, field, prop, default. cbn [app]. by js_fields. Qed.

Lemma adopt_session session now ts input seq v e :
  tryAdoptOwnSessionLogEntry (mintEntry session now ts input seq) v = Adopt e ->
  field (js "session") v = JStr session.
Proof.
  unfold tryAdoptOwnSessionLogEntry. rewrite mint_session.
  destruct (strict_eq (field (js "session") v) (JStr session)) eqn:E; [|done].
  intros _. by apply strict_eq_string.
Qed.

(** The bodies of one commit: the entry minted for the slot, under its key. *)
Definition sent_by (logPrefix session : jsstr) (now : Z) (input : CommitInput) (k : jsstr) (b : bytes) : Prop :=
  exists ts seq, timestamp now = inr ts /\ k = logObjectKey logPrefix seq /\
    encodeJsonBytes (mintEntry session now ts input seq) = Some b.

Lemma sent_by_functional p session now input k b b' :
  sent_by p session now input k b -> sent_by p session now input k b' -> b = b'.
Proof.
  intros (ts & s & Ht & -> & He) (ts' & s' & Ht' & Hk & He'). apply logObjectKey_inj in Hk as <-.
  assert (ts = ts') as <- by congruence. congruence.
Qed.

(** ** One slot *)
Section slot.
Context (logPrefix session : jsstr) (R : MemoryStorage -> MemoryStorage -> Prop).
Context (HR : forall m m', R m m' -> log_rely logPrefix session m m').
Context (now : Z) (ts : jsstr) (input : CommitInput).
Context (Hbody : keys_ok (input_body input) = true) (Hts : timestamp now = inr ts).
Abbreviation sent := (sent_by logPrefix session now input).

Abbreviation nothing := (with_session logPrefix session (left_nothing logPrefix sent)).
Abbreviation one k b := (with_session logPrefix session (left_one logPrefix sent k b)).
Abbreviation maybe k b := (with_session logPrefix session (left_maybe logPrefix sent k b)).

Lemma nothing_stable : quiet_stable logPrefix R nothing.
Proof. apply state_ok_stable; [done|]. apply left_nothing_ok. Qed.

Lemma one_stable k b : under_log logPrefix k = true -> quiet_stable logPrefix R (one k b).
Proof. intros Hk. apply state_ok_stable; [done|]. by apply left_one_ok. Qed.

Lemma maybe_stable k b : under_log logPrefix k = true -> quiet_stable logPrefix R (maybe k b).
Proof. intros Hk. apply state_ok_stable; [done|]. by apply left_maybe_ok. Qed.

Lemma under_log_key seq : under_log logPrefix (logObjectKey logPrefix seq) = true.
Proof.
  apply starts_with_spec. exists (show_Z seq ++ js ".json"). unfold logObjectKey, LOG_KEY_PREFIX.
  rewrite <- !app_assoc. done.
Qed.

Lemma nothing_maybe k b w : nothing w -> maybe k b w.
Proof.
  intros [Hs [Hl Hp]]. split; [done|]. split; [by left|].
  intros k' b' o' Hin Hk'. destruct (Hp k' b' o' Hin Hk') as [? [?|[]]]. split; [done|by left].
Qed.

Lemma one_maybe k b w : one k b w -> maybe k b w.
Proof.
  intros [Hs (Hl & Hb & Hp)]. split; [done|]. split; [by right|].
  intros k' b' o' Hin Hk'. destruct (Hp k' b' o' Hin Hk') as [? [?|[]]]. split; [done|by left].
Qed.

(** Once the slot is seen occupied, nothing more can land there. *)
Lemma maybe_occupied k b w : under_log logPrefix k = true -> maybe k b w ->
  is_Some (objects (store w) !! k) -> pending_blocked logPrefix sent (fun _ _ => False) w.
Proof.
  intros Hk [_ [_ Hp]] Hocc k' b' o' Hin Hk'. destruct (Hp k' b' o' Hin Hk') as [Hn [?|[-> ->]]].
  - split; [done|by left].
  - split; [done|by left].
Qed.

(** The committing put: landed and acknowledged, unknown, or definitely not. *)
Lemma put_outcome w seq b x w' : nothing w ->
  encodeJsonBytes (mintEntry session now ts input seq) = Some b ->
  put_step (logObjectKey logPrefix seq) b create_only w x w' ->
  match x with
  | inr _ => one (logObjectKey logPrefix seq) b w'
  | inl e => if proves_unapplied e then nothing w' else maybe (logObjectKey logPrefix seq) b w'
  end.
Proof.
  intros Hn He Hs. pose proof (under_log_key seq) as Hk. pose proof Hn as [Hse [Hl Hp]].
  assert (Hsent : sent (logObjectKey logPrefix seq) b) by by exists ts, seq.
  assert (Hland : put_precondition create_only (objects (store w) !! logObjectKey logPrefix seq) = true ->
    one (logObjectKey logPrefix seq) b (land (logObjectKey logPrefix seq) b w)).
  { intros Hpre. apply put_pre_create in Hpre; [|done]. split; [by apply session_ours_land|].
    split; [by rewrite landed_log_land, Hk, Hl|]. split.
    - unfold land. cbn [store]. rewrite memory_store_lookup. by case_decide.
    - by apply blocked_land. }
  destruct Hs as [date Hv Hpre|e Hv Hpre Hd|e Hv Hd|e].
  - by apply Hland.
  - cbn [ifNoneMatch create_only andb] in Hd. rewrite Hd. by apply one_maybe, Hland.
  - cbn [ifNoneMatch create_only andb] in Hd. rewrite Hd. split; [done|]. split; [by left|].
    intros k' b' o' [[= -> -> ->]|Hin]%elem_of_cons Hk'.
    + split; [done|by right].
    + destruct (Hp k' b' o' Hin Hk') as [? [?|[]]]. split; [done|by left].
  - destruct (proves_unapplied e); [done|by apply nothing_maybe].
Qed.

(** Reading the slot back settles what happened. *)
Lemma readback_settles w seq b g v : maybe (logObjectKey logPrefix seq) b w ->
  encodeJsonBytes (mintEntry session now ts input seq) = Some b ->
  objects (store w) !! logObjectKey logPrefix seq = Some g -> decodeJsonBytes (stored_body g) = Some v ->
  match tryAdoptOwnSessionLogEntry (mintEntry session now ts input seq) v with
  | Adopt _ => one (logObjectKey logPrefix seq) b w
  | Refuse _ => nothing w
  end.
Proof.
  intros Hm He Hg Hd. pose proof (under_log_key seq) as Hk.
  assert (Hp : pending_blocked logPrefix sent (fun _ _ => False) w) by (eapply maybe_occupied; [done..|by eexists]).
  destruct Hm as [Hse [Hl _]].
  destruct (tryAdoptOwnSessionLogEntry _ v) as [a|why] eqn:Ea.
  - assert (Hin : (logObjectKey logPrefix seq, stored_body g) ∈ landed_log logPrefix w).
    { apply list_elem_of_filter. split; [done|]. apply (Hse _ _ Hk Hg). exists v. split; [done|].
      by eapply adopt_session. }
    destruct Hl as [Hl|[Hl Hb]]; rewrite Hl in Hin; [by apply not_elem_of_nil in Hin|].
    by split.
  - destruct Hl as [Hl|[Hl Hb]]; [by split|]. rewrite Hg in Hb. injection Hb as Hb. exfalso.
    destruct (mint_decode session now ts input seq b Hbody He) as (v' & Hv' & Had).
    rewrite Hb in Hd. simplify_eq. congruence.
Qed.

(** What creating at one slot leaves, by outcome. *)
Definition create_post (seq : Z) (r : result create_outcome) (w : world) : Prop :=
  match r with
  | inr (Committed e) => exists b, encodeJsonBytes (mintEntry session now ts input seq) = Some b /\
      one (logObjectKey logPrefix seq) b w /\
      json_norm e = json_norm (mintEntry session now ts input seq)
  | inr (Foreign _) => nothing w
  | inl e => nothing w \/ has_code AmbiguousCommit e = true /\
      exists b, sent (logObjectKey logPrefix seq) b /\ maybe (logObjectKey logPrefix seq) b w
  end.

Lemma wp_create_at w seq (Q : result create_outcome -> world -> Prop) : nothing w ->
  (forall r w', create_post seq r w' -> Q r w') ->
  wp R (create_at logPrefix input (mintEntry session now ts input seq) seq) Q w.
Proof.
  intros Hn HQ. pose proof (under_log_key seq) as Hk. unfold create_at.
  eapply (wp_bind_quiet logPrefix R nothing); [apply nothing_stable|apply log_quiet_check|done| |].
  { intros e w' Hw'. apply HQ. by left. }
  intros _ w1 Hw1. destruct (encodeJsonBytes _) as [b|] eqn:He.
  2: { apply (wp_throw_stable (J := nothing)); [apply nothing_stable|done|]. intros. apply HQ. by left. }
  apply wp_attempt. cbn [storage_put wp]. intros w2 Hs2 x w3 Hput.
  assert (Hw2 : nothing w2) by (eapply (env_steps_preserve R nothing); [apply nothing_stable|done..]).
  pose proof (put_outcome _ _ _ _ _ Hw2 He Hput) as Hx. destruct x as [e|y]; cbn [of_result wp].
  2: { intros w4 Hs4 w5 Hs5. apply HQ. exists b. split; [done|]. split; [|done].
       eapply (env_steps_preserve R (one _ b)); [by apply one_stable| |done]. by etransitivity. }
  intros w4 Hs4.
  destruct (negb (isWriteConflict e) && (isDefinitiveCreateRejection e || isCreateNotApplied e)) eqn:Ed.
  - assert (Hpu : proves_unapplied e = true).
    { apply andb_true_iff in Ed as [_ Ed]. unfold isDefinitiveCreateRejection, isCreateNotApplied, proves_unapplied in *.
      apply orb_true_iff in Ed as [->|Ed]; [done|]. apply andb_true_iff in Ed as [Ec En].
      rewrite orb_true_iff. right. destruct e as [c d ch i| |]; try done. destruct d as [d|]; [|done].
      unfold has_code in Ec. apply bool_decide_eq_true in Ec as ->. done. }
    rewrite Hpu in Hx.
    apply (wp_throw_stable (J := nothing)); [apply nothing_stable| |].
    + eapply (env_steps_preserve R nothing); [apply nothing_stable|done..].
    + intros. apply HQ. by left.
  - assert (Hm : maybe (logObjectKey logPrefix seq) b w4).
    { eapply (env_steps_preserve R (maybe _ b)); [by apply maybe_stable|done|].
      destruct (proves_unapplied e); [by apply nothing_maybe|done]. }
    apply wp_attempt. unfold readLogOccupant. apply wp_bind. cbn [storage_get wp].
    intros w5 Hs5 z Hz.
    assert (Hm5 : maybe (logObjectKey logPrefix seq) b w5).
    { eapply (env_steps_preserve R (maybe _ b)); [by apply maybe_stable|done..]. }
    assert (Hamb : forall w', maybe (logObjectKey logPrefix seq) b w' ->
      wp R (Throw (ambiguous_commit (docId input))) Q w').
    { intros w' Hw'. apply (wp_throw_stable (J := maybe (logObjectKey logPrefix seq) b)); [by apply maybe_stable|done|].
      intros w'' Hw''. apply HQ. right. split; [done|]. exists b. split; [by exists ts, seq|done]. }
    assert (Hstay : forall w', rtc (env_step R) w5 w' -> maybe (logObjectKey logPrefix seq) b w').
    { intros w' Hs. eapply (env_steps_preserve R (maybe _ b)); [by apply maybe_stable|done..]. }
    destruct z as [e2|[g|]]; cbn [of_result wp].
    + intros w6 Hs6 w7 Hs7. apply Hamb, Hstay. by etransitivity.
    + assert (Hg : objects (store w5) !! logObjectKey logPrefix seq = Some (Stored (body g) (etag g))).
      { inversion Hz as [Hz'|]; subst. symmetry in Hz'. unfold memory_get in Hz'.
        destruct (assertValidStorageKey _); [done|]. destruct (objects (store w5) !! _) as [[b0 e0]|]; [|done].
        rewrite bool_decide_eq_false_2 in Hz' by done. injection Hz' as Hz'; by rewrite Hz'. }
      intros w6 Hs6. destruct (decodeJsonBytes (body g)) as [v|] eqn:Ev.
      2: { intros w7 Hs7. apply Hamb, Hstay. by etransitivity. }
      pose proof (readback_settles _ _ _ _ _ Hm5 He Hg Ev) as Hset.
      destruct (hasWriterIdentity v); cbn [wp]; intros w7 Hs7.
      2: { apply Hamb, Hstay. by etransitivity. }
      assert (Hs : rtc (env_step R) w5 w7) by by etransitivity.
      destruct (tryAdoptOwnSessionLogEntry _ v) as [a|why] eqn:Ea.
      * apply (wp_ret_stable (J := one (logObjectKey logPrefix seq) b)); [by apply one_stable| |].
        -- eapply (env_steps_preserve R (one _ b)); [by apply one_stable|done..].
        -- intros w8 Hw8. apply HQ. exists b. split; [done|]. split; [done|].
           apply adopt_inv in Ea as [-> ?]. done.
      * apply (wp_ret_stable (J := nothing)); [apply nothing_stable| |].
        -- eapply (env_steps_preserve R nothing); [apply nothing_stable|done..].
        -- intros w8 Hw8. by apply HQ.
    + intros w6 Hs6 w7 Hs7. apply Hamb, Hstay. by etransitivity.
Qed.

(** ** The loop over slots *)

Lemma slot_exists_quiet seq : log_quiet logPrefix (slot_exists logPrefix seq).
Proof. unfold slot_exists. quiet. Qed.

Lemma gallop_quiet fuel lo step hi : log_quiet logPrefix (gallop fuel logPrefix lo step hi).
Proof.
  revert lo step hi. induction fuel as [|fuel IH]; intros lo step hi; [done|]. cbn [gallop].
  apply log_quiet_bind; [apply slot_exists_quiet|]. intros []; [|done]. cbv zeta. by case_match.
Qed.

Lemma bisect_quiet fuel lo hi : log_quiet logPrefix (bisect fuel logPrefix lo hi).
Proof.
  revert lo hi. induction fuel as [|fuel IH]; intros lo hi; [done|]. cbn [bisect].
  case_match; [|done]. apply log_quiet_bind; [apply slot_exists_quiet|]. intros []; apply IH.
Qed.

Lemma findLogTail_quiet hint : log_quiet logPrefix (findLogTail logPrefix hint).
Proof.
  unfold findLogTail. apply log_quiet_bind; [apply slot_exists_quiet|]. intros []; [|done].
  apply log_quiet_bind; [apply gallop_quiet|]. intros [lo hi]. apply bisect_quiet.
Qed.

Lemma probe_loop_quiet n seq tol acc c : log_quiet logPrefix (probe_loop n logPrefix seq tol acc c).
Proof.
  revert seq acc c. induction n as [|n IH]; intros seq acc c; [done|]. cbn [probe_loop].
  apply log_quiet_bind; [apply log_quiet_get|]. intros [g|]; [|done].
  destruct (decodeJsonBytes (body g)); [apply IH|]. destruct tol; [apply IH|done].
Qed.

Lemma probeTailFrom_quiet hint : log_quiet logPrefix (probeTailFrom logPrefix hint).
Proof.
  unfold probeTailFrom, probeTailFrom_cap, probeTailChunk.
  apply log_quiet_bind; [apply probe_loop_quiet|]. by intros [].
Qed.

Definition settled (r_error : js_error -> bool) {A} (ok : A -> world -> Prop) (r : result A) (w : world) : Prop :=
  match r with
  | inr a => ok a w
  | inl e => nothing w \/ r_error e = true /\ exists k b, sent k b /\ under_log logPrefix k = true /\ maybe k b w
  end.

(** The committed slot: this commit's entry for it landed, once. *)
Definition committed_at (seq : Z) (e : LogEntry) (w : world) : Prop :=
  exists b, encodeJsonBytes (mintEntry session now ts input seq) = Some b /\
    one (logObjectKey logPrefix seq) b w /\ json_norm e = json_norm (mintEntry session now ts input seq).

Definition slot_post (r : slot_result) (w : world) : Prop :=
  match r with
  | Landed e seq => committed_at seq e w
  | Replayed _ => nothing w
  end.

Lemma committed_stable seq e w w' : rtc (env_step R) w w' -> committed_at seq e w -> committed_at seq e w'.
Proof.
  intros Hs (b & He & Ho & Hj). exists b. split; [done|]. split; [|done].
  eapply (env_steps_preserve R (one _ b)); [apply one_stable, under_log_key|done..].
Qed.

Lemma wp_create_loop n window w seq (Q : result slot_result -> world -> Prop) : nothing w ->
  (forall r w', settled (has_code AmbiguousCommit) slot_post r w' -> Q r w') ->
  wp R (create_loop session now n ts logPrefix input window seq) Q w.
Proof.
  revert window w seq. induction n as [|n IH]; intros window w seq Hn HQ; cbn [create_loop];
    apply wp_bind; (eapply wp_create_at; [done|]).
  all: assert (Hthrow : forall e w', nothing w' -> Q (inl e) w') by (intros; apply HQ; by left).
  all: intros [e|[e|occ]] w1 Hpost; cbn [create_post] in Hpost.
  - intros w2 Hs2. apply HQ. destruct Hpost as [Hw|[Hc (b & Hsb & Hm)]].
    + left. eapply (env_steps_preserve R nothing); [apply nothing_stable|done..].
    + right. split; [done|]. exists (logObjectKey logPrefix seq), b. split; [done|].
      split; [apply under_log_key|].
      eapply (env_steps_preserve R (maybe _ b)); [apply maybe_stable, under_log_key|done..].
  - intros w2 Hs2. apply HQ. by eapply committed_stable.
  - apply (wp_throw_stable (J := nothing)); [apply nothing_stable|done|]. intros. by apply Hthrow.
  - intros w2 Hs2. apply HQ. destruct Hpost as [Hw|[Hc (b & Hsb & Hm)]].
    + left. eapply (env_steps_preserve R nothing); [apply nothing_stable|done..].
    + right. split; [done|]. exists (logObjectKey logPrefix seq), b. split; [done|].
      split; [apply under_log_key|].
      eapply (env_steps_preserve R (maybe _ b)); [apply maybe_stable, under_log_key|done..].
  - intros w2 Hs2. apply HQ. by eapply committed_stable.
  - destruct window as [[g window]|].
    + eapply (wp_bind_quiet logPrefix R nothing); [apply nothing_stable|apply probeTailFrom_quiet|done|by auto|].
      intros [tail entries] w2 Hw2. cbv zeta.
      eapply (wp_bind_quiet logPrefix R nothing); [apply nothing_stable|apply log_quiet_of_result|done|by auto|].
      intros [rep|] w3 Hw3; [|by apply IH].
      apply (wp_ret_stable (J := nothing)); [apply nothing_stable|done|]. intros. by apply HQ.
    + eapply (wp_bind_quiet logPrefix R nothing); [apply nothing_stable|apply findLogTail_quiet|done|by auto|].
      intros tail w2 Hw2. by apply IH.
Qed.
End slot.

(** ** The whole commit *)

(** The promise of an index projection: its markers are outside the log. *)
Class IndexOutsideLog `{!IndexProjection} (logPrefix : jsstr) :=
  index_outside body docId keys :
    index_keys logPrefix body docId = inr keys -> Forall (fun k => under_log logPrefix k = false) keys.

Section commit.
Context `{!IndexProjection} (nfc : jsstr -> jsstr) (currentJsonKey : jsstr) (verify : bool).
Context (generation session : jsstr) (now : Z) (maintenance : CurrentJson -> Z -> Z -> prog unit).
Abbreviation P := (log_prefix_of currentJsonKey).
Context `{!IndexOutsideLog P}.
Context (Hmaint : forall c a b, log_quiet P (maintenance c a b)).
Context (R : MemoryStorage -> MemoryStorage -> Prop).
Context (HR : forall m m', R m m' -> log_rely P session m m').
Context (input : CommitInput) (Hbody : keys_ok (input_body input) = true).

Abbreviation nothing := (with_session P session (left_nothing P (sent_by P session now input))).
Abbreviation one k b := (with_session P session (left_one P (sent_by P session now input) k b)).
Abbreviation maybe k b := (with_session P session (left_maybe P (sent_by P session now input) k b)).

Lemma readCurrentJson_quiet : log_quiet P (readCurrentJson currentJsonKey).
Proof.
  unfold readCurrentJson. apply log_quiet_bind; [apply log_quiet_get|]. intros [g|]; [|done].
  by apply log_quiet_bind; [apply log_quiet_of_result|].
Qed.

Lemma encodeJson_quiet c : log_quiet P (encodeJson c).
Proof. unfold encodeJson. by destruct (encodeJsonBytes _). Qed.

Lemma check_current_quiet c : log_quiet P (check_current c).
Proof. unfold check_current. by apply log_quiet_bind; [apply log_quiet_of_result|]. Qed.

Lemma provision_quiet : log_quiet P (provisionCurrentJson currentJsonKey generation).
Proof.
  unfold provisionCurrentJson. apply log_quiet_attempt.
  - unfold createCurrentJson. apply log_quiet_bind; [apply check_current_quiet|]. intros _.
    apply log_quiet_bind; [apply encodeJson_quiet|]. intros b.
    apply log_quiet_bind; [|done]. apply log_quiet_catch; [|done].
    apply log_quiet_put, manifest_outside_log.
  - intros [e|r]; [|done]. case_match; [done|].
    apply log_quiet_bind; [apply readCurrentJson_quiet|]. by intros [].
Qed.

Lemma read_folded_chunks_quiet fuel chunk start :
  log_quiet P (read_folded_chunks fuel P chunk start).
Proof.
  revert chunk. induction fuel as [|fuel IH]; intros chunk; cbn [read_folded_chunks]; [done|].
  destruct (chunk <? start); [|done]. cbv zeta.
  apply log_quiet_bind; [apply log_quiet_for_each; intros; apply log_quiet_get|]. intros bodies.
  apply log_quiet_bind; [apply log_quiet_of_result|]. intros es.
  by apply log_quiet_bind; [apply IH|].
Qed.

Lemma readFolded_quiet from start : log_quiet P (readFoldedInsertWindow P from start).
Proof.
  unfold readFoldedInsertWindow. destruct (start <=? from); [done|]. destruct (_ <? _); [done|].
  apply read_folded_chunks_quiet.
Qed.

Lemma find_target_quiet current : log_quiet P (find_target P input current).
Proof.
  unfold find_target. destruct (insertGuard input) as [g|].
  - cbv zeta. apply log_quiet_bind; [apply readFolded_quiet|]. intros folded.
    apply log_quiet_bind; [apply probeTailFrom_quiet|]. intros [tail es]. cbv zeta.
    apply log_quiet_bind; [apply log_quiet_of_result|]. by intros [].
  - by apply log_quiet_bind; [apply findLogTail_quiet|].
Qed.

Lemma walk_quiet sz from to : log_quiet P (walkLogRange sz P from to).
Proof.
  unfold walkLogRange, walkLogRangeWithBytes. apply log_quiet_bind; [|done].
  destruct (to <=? from); [done|]. cbv zeta. generalize 0 as start. induction (Z.to_nat (to - from)) as [|fuel IH];
    intros start; cbn [walk_chunks]; [done|]. destruct (start <? to - from); [|done]. cbv zeta.
  apply log_quiet_bind; [|intros; by apply log_quiet_bind; [apply IH|]].
  apply log_quiet_for_each. intros s _. unfold readLogEntryWithBytes.
  apply log_quiet_bind; [apply log_quiet_get|]. intros [g|]; [|done]. by destruct (decodeJsonBytes (body g)).
Qed.

Lemma put_marker_quiet k : under_log P k = false -> log_quiet P (put_marker k).
Proof.
  intros Hk. unfold put_marker. apply log_quiet_attempt; [by apply log_quiet_put|].
  intros [e|r]; [|done]. by case_match.
Qed.

Lemma within_limit_sent keys sent err k : within_limit keys = (sent, err) -> k ∈ sent -> k ∈ keys.
Proof.
  revert sent err. induction keys as [|j keys IH]; intros sent err; cbn [within_limit].
  - by intros [= <- <-].
  - destruct (assertKeyWithinLimit j); [intros [= <- <-] Hx; by apply not_elem_of_nil in Hx|].
    destruct (within_limit keys) as [sent' err'] eqn:E. intros [= <- <-] [->|Hk]%elem_of_cons; [left|].
    right. by eapply IH.
Qed.

Lemma put_new_keys_quiet : log_quiet P (put_new_keys P input).
Proof.
  unfold put_new_keys. case_match; [|done].
  destruct (index_keys P (input_body input) (docId input)) as [e|keys] eqn:Ek; [done|].
  apply index_outside in Ek as Hk. rewrite Forall_forall in Hk. cbn [of_result bind attempt].
  destruct (within_limit keys) as [sent err] eqn:Ew. destruct err as [e|].
  - apply log_quiet_bind; [|done]. apply log_quiet_for_each. intros k Hin.
    apply log_quiet_settle, put_marker_quiet, Hk. by eapply within_limit_sent.
  - apply log_quiet_bind; [|done]. unfold promise_all. apply log_quiet_bind; [|intros; apply log_quiet_of_result].
    apply log_quiet_settle_all. intros k Hin. by apply put_marker_quiet, Hk.
Qed.

Lemma pre_image_loop_quiet n coll d s : log_quiet P (pre_image_loop n P coll d s).
Proof.
  revert s. induction n as [|n IH]; intros s; cbn [pre_image_loop]; [done|]. cbv zeta.
  apply log_quiet_bind; [apply log_quiet_get|]. intros [g|]; [|apply IH].
  destruct (decodeJsonBytes (body g)) as [v|]; [|apply IH].
  apply log_quiet_bind; [unfold read_prop; by destruct (prop _ v)|]. intros c.
  repeat (case_match; try done); apply IH.
Qed.

Lemma stale_keys_quiet seq : log_quiet P (stale_keys P input seq).
Proof.
  unfold stale_keys, readPreImage. cbv zeta. destruct (op input); [done| |];
    (apply log_quiet_bind; [apply pre_image_loop_quiet|intros]); [|apply log_quiet_of_result].
  apply log_quiet_bind; [apply log_quiet_of_result|intros].
  by apply log_quiet_bind; [apply log_quiet_of_result|].
Qed.

(** The keys [stale_keys] returns are old index keys: outside the log. *)
Lemma stale_keys_outside seq {w} : wp R (stale_keys P input seq)
  (fun r _ => forall keys, r = inr keys -> Forall (fun k => under_log P k = false) keys) w.
Proof.
  assert (Hpre : forall (f : jsval -> prog (list jsstr)) w,
    (forall v w', wp R (f v) (fun r _ => forall keys, r = inr keys -> Forall (fun k => under_log P k = false) keys) w') ->
    wp R (bind (readPreImage P (collection input) (docId input) seq) f)
      (fun r _ => forall keys, r = inr keys -> Forall (fun k => under_log P k = false) keys) w).
  { intros f w0 Hf. apply wp_bind. eapply wp_mono; [|apply wp_complete; intros; exact I].
    intros [e|v] w' _; [by intros w2 _|apply Hf]. }
  unfold stale_keys. destruct (op input).
  - intros w' _ keys [= <-]. constructor.
  - apply Hpre. intros v w'. destruct (index_keys P v (docId input)) as [e|old] eqn:Eo; [by intros ? _|].
    apply index_outside in Eo. apply wp_bind. intros w2 _.
    destruct (index_keys P (input_body input) (docId input)) as [e|new]; apply wp_bind; intros w3 _; [by intros ? _|].
    intros w4 _ keys [= <-]. rewrite Forall_forall in *. intros k [_ Hk]%list_elem_of_filter. by apply Eo.
  - apply Hpre. intros v w'. destruct (index_keys P v (docId input)) as [e|old] eqn:Eo; [by intros ? _|].
    apply index_outside in Eo. by intros w2 _ keys [= <-].
Qed.

(** *** After the create *)

Abbreviation sent := (sent_by P session now input).
Abbreviation only k b := (left_only P sent k b).

Lemma only_ok k b : sent k b -> state_ok P (left_only P sent k b).
Proof.
  intros Hsent. split.
  - intros w m' Hs (Hl & Hp). split; [done|by apply blocked_mono].
  - intros w k' b' o Hk (Hl & Hp). split; [done|by apply blocked_pend].
  - intros w k' b' Hk (Hl & Hp). split; [by rewrite landed_log_land, Hk|].
    apply blocked_land; [congruence|done].
  - intros w k' b' o Hin Hk Hpre (Hl & Hp).
    destruct (Hp k' b' o Hin Hk) as [[Hn Hs] Hx]. pose proof (put_pre_create _ _ _ Hn Hpre) as He.
    destruct Hx as [[x Hx]|Heq]; [congruence|]. rewrite Heq in *. split.
    + rewrite landed_log_land, Hk. apply Forall_app. split; [done|]. constructor; [|done].
      f_equal. by eapply sent_by_functional.
    + by apply blocked_land.
Qed.

Lemma only_env k b w w' : sent k b -> env_step R w w' -> only k b w -> only k b w'.
Proof.
  intros Hs Hstep Ho. destruct (only_ok k b Hs) as [Hmove Hpend Hother Hland].
  destruct Hstep as [w m' Hm|w k' b' o Hin Hpre].
  - apply Hmove; [|done]. by eapply rely_stay, HR.
  - destruct (under_log P k') eqn:Ek; [by eapply Hland|by apply Hother].
Qed.

Lemma maybe_only k b w : maybe k b w -> only k b w.
Proof.
  intros [_ [Hl Hp]]. split.
  - destruct Hl as [->|[-> _]]; by repeat constructor.
  - intros k' b' o Hin Hk. destruct (Hp k' b' o Hin Hk) as [? [?|[-> _]]]; split; auto.
Qed.

Lemma one_only k b w : one k b w -> only k b w.
Proof. intros Ho. by apply maybe_only, one_maybe. Qed.

(** Deleting the slot itself. *)
Lemma delete_only k b x w w' : delete_step k w x w' -> only k b w -> only k b w'.
Proof.
  intros Hs (Hl & Hp).
  assert (Hd : pending_blocked P sent (fun k' _ => k' = k)
    (World (memory_delete k (store w)).2 (pending w) (landed w))).
  { intros k' b' o Hin Hk. destruct (Hp k' b' o Hin Hk) as [Hn [Ho|He]]; [|by split; [|right]].
    split; [done|]. destruct (decide (k' = k)) as [->|Hne]; [by right|left].
    unfold memory_delete. destruct (assertValidStorageKey k); [done|]. cbn [snd objects store].
    by rewrite lookup_delete_ne. }
  by destruct Hs.
Qed.

Lemma wp_only_throw {A} k b e (Q : result A -> world -> Prop) w : sent k b -> only k b w ->
  (forall w', only k b w' -> Q (inl e) w') -> wp R (Throw e) Q w.
Proof. intros Hs Ho HQ. apply (wp_throw_stable (J := only k b)); [intros; by eapply only_env|done..]. Qed.

(** The delete-floor check on a landed create. *)
Lemma wp_floor_check seq b w (Q : result unit -> world -> Prop) :
  sent (logObjectKey P seq) b -> one (logObjectKey P seq) b w ->
  (forall w', one (logObjectKey P seq) b w' -> Q (inr tt) w') ->
  (forall e w', has_code AmbiguousCommit e || isAbortError e = true -> only (logObjectKey P seq) b w' -> Q (inl e) w') ->
  wp R (assertCommitAboveDeleteFloor currentJsonKey P seq (docId input)) Q w.
Proof.
  intros Hsent Ho Hok Herr. pose proof (under_log_key P seq) as Hk.
  pose proof (one_stable P session R HR now input (logObjectKey P seq) b Hk) as Hst.
  unfold assertCommitAboveDeleteFloor. apply wp_attempt.
  eapply wp_mono; [|eapply (wp_quiet P R); [exact Hst|apply readCurrentJson_quiet|exact Ho]].
  assert (Hret : forall w', one (logObjectKey P seq) b w' -> wp R (Ret tt) Q w').
  { intros w' Hw'. eapply (wp_ret_stable (J := one (logObjectKey P seq) b)); [apply Hst|done..]. }
  intros [e|[cr|]] w1 Ho1; [|cbv zeta|by apply Hret].
  - destruct (isAbortError e) eqn:Ea; [|by apply Hret].
    eapply wp_only_throw; [done|by apply one_only|]. intros w2 Hw2. apply Herr; [|done].
    by rewrite Ea, orb_true_r.
  - destruct (_ || _); [by apply Hret|].
    unfold settle. apply wp_bind, wp_attempt. cbn [storage_delete wp]. intros w2 Hs2 x w3 Hd.
    assert (Ho2 : one (logObjectKey P seq) b w2) by (eapply (env_steps_preserve R (one _ b)); [apply Hst|done..]).
    apply one_only in Ho2. eapply delete_only in Ho2; [|done].
    assert (Hend : forall w4, rtc (env_step R) w3 w4 -> only (logObjectKey P seq) b w4).
    { intros w4 Hs4. eapply (env_steps_preserve R (only _ b)); [intros; by eapply only_env|done..]. }
    destruct x as [e|[]]; cbn [of_result wp]; intros w4 Hs4 w5 Hs5;
      (eapply wp_only_throw; [done|apply Hend; by etransitivity|]); intros w6 Hw6; by apply Herr.
Qed.

Lemma cleanup_never_throws seq : never_throws (cleanupStaleIndexKeysBestEffort P input seq).
Proof.
  unfold cleanupStaleIndexKeysBestEffort. destruct (negb has_indexes); [done|].
  apply never_throws_attempt. intros [e|keys]; [done|]. apply never_throws_bind; [|done].
  apply never_throws_for_each. intros k. apply never_throws_settle.
Qed.

(** The cleanup deletes index keys only. *)
Lemma wp_cleanup seq J w (Q : result Z -> world -> Prop) : quiet_stable P R J -> J w ->
  (forall n w', J w' -> Q (inr n) w') -> wp R (cleanupStaleIndexKeysBestEffort P input seq) Q w.
Proof.
  intros HJ Hw HQ. unfold cleanupStaleIndexKeysBestEffort.
  assert (Hret : forall n w', J w' -> wp R (Ret n) Q w').
  { intros n w' Hw'. eapply (wp_ret_stable (J := J)); [apply HJ|done|]. by apply HQ. }
  destruct (negb has_indexes); [by apply Hret|]. apply wp_attempt.
  assert (Hboth : wp R (stale_keys P input seq) (fun r w' =>
    (forall keys, r = inr keys -> Forall (fun k => under_log P k = false) keys) /\ J w') w).
  { apply wp_complete. intros r w' Hex. split.
    - exact (wp_sound _ _ _ _ _ (stale_keys_outside seq) Hex).
    - exact (wp_sound _ _ _ _ _ (wp_quiet P R J _ w HJ (stale_keys_quiet seq) Hw) Hex). }
  eapply wp_mono; [|exact Hboth]. intros [e|keys] w1 [Hk Hw1]; [by apply Hret|].
  specialize (Hk keys eq_refl). rewrite Forall_forall in Hk.
  apply wp_bind. eapply wp_mono; [|apply (wp_never_throws (for_each _ _)), (wp_quiet P R J)].
  - intros r w2 [[a ->] Hw2]. by apply Hret.
  - apply never_throws_for_each. intros k. apply never_throws_settle.
  - done.
  - apply log_quiet_for_each. intros k Hin. by apply log_quiet_settle, log_quiet_delete, Hk.
  - done.
Qed.

(** *** The whole call *)

(** What one commit leaves, by outcome. *)
Definition commit_post (r : result CommitResult) (w : world) : Prop :=
  match r with
  | inr res =>
    if replayed res then nothing w
    else exists ts seq b, timestamp now = inr ts /\
           encodeJsonBytes (mintEntry session now ts input seq) = Some b /\
           one (logObjectKey P seq) b w /\
           json_norm (result_entry res) = json_norm (mintEntry session now ts input seq)
  | inl e => nothing w \/
      (has_code AmbiguousCommit e || isAbortError e) = true /\ exists k b, sent k b /\ only k b w
  end.

Lemma wp_commit_on read w (Q : result CommitResult -> world -> Prop) : nothing w ->
  (forall r w', commit_post r w' -> Q r w') ->
  wp R (commit_on currentJsonKey verify session now maintenance P input read) Q w.
Proof.
  intros Hn HQ. pose proof (nothing_stable P session R HR now input) as Hst.
  assert (Hthrow : forall e w', nothing w' -> Q (inl e) w') by (intros; apply HQ; by left).
  unfold commit_on. cbv zeta.
  eapply (wp_bind_quiet P R nothing); [done| |done|by auto|].
  { destruct verify; [|done]. by apply log_quiet_bind; [apply walk_quiet|]. }
  intros _ w1 Hw1. eapply (wp_bind_quiet P R nothing); [done|apply find_target_quiet|done|by auto|].
  intros [seq0 window|e] w2 Hw2.
  2: { apply (wp_ret_stable (J := nothing)); [apply Hst|done|]. intros. by apply HQ. }
  destruct (timestamp now) as [e|ts] eqn:Ets; cbn [of_result].
  { apply wp_bind. intros w3 Hs3 w4 Hs4. apply Hthrow.
    eapply (env_steps_preserve R nothing); [apply Hst| |done]. by etransitivity. }
  apply wp_bind. intros w3 Hs3.
  assert (Hw3 : nothing w3) by (eapply (env_steps_preserve R nothing); [apply Hst|done..]).
  eapply (wp_bind_quiet P R nothing); [done|apply put_new_keys_quiet|done|by auto|]. intros nk w4 Hw4.
  apply wp_bind. eapply (wp_create_loop P session R HR now ts input Hbody Ets); [done|].
  intros [e|[entry seq|e]] w5 Hpost; cbn [settled slot_post] in Hpost.
  - intros w6 Hs6. apply HQ. cbn [commit_post]. destruct Hpost as [Hw5|[Hc (k & b & Hs & Hk & Hm)]].
    + left. eapply (env_steps_preserve R nothing); [apply Hst|done..].
    + right. rewrite Hc. split; [done|]. exists k, b. split; [done|]. apply maybe_only.
      eapply (env_steps_preserve R (maybe k b)); [by apply (maybe_stable P session R HR now input)|done..].
  - destruct Hpost as (b & He & Ho & Hj).
    assert (Hsent : sent (logObjectKey P seq) b) by by exists ts, seq.
    pose proof (one_stable P session R HR now input _ b (under_log_key P seq)) as Hone.
    apply wp_bind. apply (wp_floor_check seq b); [done|done| |].
    2: { intros e w6 Herr Hon. apply (wp_only_throw (logObjectKey P seq) b); [done..|].
         intros w7 Hw7. apply HQ. right. split; [done|]. by exists (logObjectKey P seq), b. }
    intros w6 Hw6. apply wp_bind. eapply (wp_cleanup seq); [exact Hone|done|]. intros n w7 Hw7.
    apply wp_bind. eapply wp_mono; [|apply (wp_never_throws (settle _)), (wp_quiet P R _ _ _ Hone)].
    + intros r w8 [[a ->] Hw8].
      apply (wp_ret_stable (J := one (logObjectKey P seq) b)); [apply Hone|done|].
      intros w9 Hw9. apply HQ. cbn [commit_post replayed result_entry]. by exists ts, seq, b.
    + apply never_throws_settle.
    + by apply log_quiet_settle.
    + done.
  - apply (wp_ret_stable (J := nothing)); [apply Hst|done|]. intros. by apply HQ.
Qed.

Lemma wp_commit w (Q : result CommitResult -> world -> Prop) : nothing w ->
  (forall r w', commit_post r w' -> Q r w') ->
  wp R (commit nfc currentJsonKey verify generation session now maintenance input) Q w.
Proof.
  intros Hn HQ. pose proof (nothing_stable P session R HR now input) as Hst.
  assert (Hthrow : forall e w', nothing w' -> Q (inl e) w') by (intros; apply HQ; by left).
  unfold commit. eapply (wp_bind_quiet P R nothing); [done|apply log_quiet_check|done|by auto|].
  intros _ w1 Hw1. unfold singleAttemptCommit.
  eapply (wp_bind_quiet P R nothing); [done|apply readCurrentJson_quiet|done|by auto|].
  intros existing w2 Hw2. eapply (wp_bind_quiet P R nothing); [done| |done|by auto|].
  { destruct existing; [done|apply provision_quiet]. }
  intros read w3 Hw3. by apply wp_commit_on.
Qed.
End commit.

(** ** The theorem *)

(** C1: One commit leaves at most one log entry behind, however its calls interleave,
    fail or land late. *)
Theorem commit_at_most_once `{!IndexProjection} nfc currentJsonKey verify generation session now maintenance
    `{!IndexOutsideLog (log_prefix_of currentJsonKey)} (R : MemoryStorage -> MemoryStorage -> Prop) input m r w' :
  let P := log_prefix_of currentJsonKey in
  (forall c a b, log_quiet P (maintenance c a b)) ->
  (forall m m', R m m' -> log_rely P session m m') ->
  keys_ok (input_body input) = true ->
  (forall k o, under_log P k = true -> objects m !! k = Some o -> ~ names_session session (stored_body o)) ->
  exec R (commit nfc currentJsonKey verify generation session now maintenance input) (World m [] []) r w' ->
  match r with
  | inr res =>
    if replayed res then landed_log P w' = []
    else exists ts seq b, timestamp now = inr ts /\
           encodeJsonBytes (mintEntry session now ts input seq) = Some b /\
           landed_log P w' = [(logObjectKey P seq, b)] /\
           stored_body <$> objects (store w') !! logObjectKey P seq = Some b /\
           json_norm (result_entry res) = json_norm (mintEntry session now ts input seq)
  | inl e =>
    landed_log P w' = [] /\
      (forall k b o, (k, b, o) ∈ pending w' -> under_log P k = true ->
         put_precondition o (objects (store w') !! k) = false) \/
    (has_code AmbiguousCommit e || isAbortError e) = true /\
      exists k b, Forall (fun kb => kb = (k, b)) (landed_log P w')
  end.
Proof.
  intros P Hmaint HR Hbody Hfresh Hex.
  assert (Hn : with_session P session (left_nothing P (sent_by P session now input)) (World m [] [])).
  { split.
    - intros k o Hk Ho Hnm. by destruct (Hfresh k o Hk Ho).
    - split; [done|]. intros k b o Hin. by apply not_elem_of_nil in Hin. }
  pose proof (wp_sound _ _ _ _ _ (wp_commit nfc currentJsonKey verify generation session now maintenance
    Hmaint R HR input Hbody _ _ Hn (fun r w H => H)) Hex) as Hpost.
  destruct r as [e|res]; cbn [commit_post] in Hpost.
  - destruct Hpost as [[_ [Hl Hp]]|[He (k & b & _ & Hl & _)]].
    + left. split; [done|]. intros k b o Hin Hk. destruct (Hp k b o Hin Hk) as [[Hc _] [Ho|[]]].
      unfold put_precondition. by rewrite Hc, bool_decide_eq_true_2.
    + right. split; [done|]. by exists k, b.
  - destruct (replayed res); [by destruct Hpost as [_ [? _]]|].
    destruct Hpost as (ts & seq & b & Hts & He & [_ (Hl & Hb & _)] & Hj). by exists ts, seq, b.
Qed.

(** A collection without declared indexes. *)
Definition no_indexes : IndexProjection :=
  {| has_indexes := false; index_keys := fun _ _ _ => inr [] |}.

Lemma no_indexes_outside p : @IndexOutsideLog no_indexes p.
Proof. intros body docId keys [= <-]. constructor. Qed.

Definition sample_key : jsstr := js "a/t/current.json".

Definition sample_insert : CommitInput :=
  Input OpI (js "t") (js "d1") (JObj [(js "_id", JStr (js "d1")); (js "x", num 1)]) None None.

Definition sample_commit : prog CommitResult :=
  @commit no_indexes id sample_key false (js "ab12") (js "s1") 1000 (fun _ _ _ => Ret tt) sample_insert.

Lemma commit_at_most_once_witness :
  exists w' res, exec (log_rely (js "a/t") (js "s1")) sample_commit (World empty_memory [] []) (inr res) w' /\
    replayed res = false /\ exists seq b, landed_log (js "a/t") w' = [(logObjectKey (js "a/t") seq, b)].
Proof.
  assert (Hrun : exists res m', run 0 sample_commit empty_memory = (inr res, m') /\ replayed res = false).
  { eexists _, _. split; [vm_compute; reflexivity|reflexivity]. }
  destruct Hrun as (res & m' & Hrun & Hrep).
  destruct (run_exec (log_rely (js "a/t") (js "s1")) _ _ _ _ _ [] [] Hrun) as (l' & Hex).
  exists (World m' [] l'), res. split; [exact Hex|]. split; [exact Hrep|].
  pose proof (@commit_at_most_once no_indexes id sample_key false (js "ab12") (js "s1") 1000
    (fun _ _ _ => Ret tt) (no_indexes_outside _) (log_rely (js "a/t") (js "s1")) sample_insert empty_memory
    (inr res) (World m' [] l')) as H.
  assert (HP : log_prefix_of sample_key = js "a/t") by (vm_compute; reflexivity).
  cbv zeta in H. rewrite HP in H. rewrite Hrep in H.
  destruct H as (ts & seq & b & _ & _ & Hl & _).
  - intros; exact I.
  - intros m1 m2 HR; exact HR.
  - vm_compute; reflexivity.
  - intros k o _ Ho. unfold empty_memory in Ho. cbn [objects] in Ho. rewrite lookup_empty in Ho. discriminate.
  - exact Hex.
  - exists seq, b. exact Hl.
Defined.
