(* ===== verification/Indexes.v ===== *)
(** * Secondary indexes (server/src/indexes.ts)

    Index definitions and their validation, the projection of a document to its index
    values, and the marker keys the writer keeps.  The instance at the end discharges the
    interface the writer was modelled against: marker keys are never log keys. *)
From Stdlib Require Import QArith Qcanon.
From S2P Require Import Prelude JsText JsValue Errors Json Storage Effects Lsn Predicate Satisfiable Validate IndexCodec.
From S2P Require Import CurrentJson LogWalk LogTail DocId Adoption Writer WriterSafety.
Local Open Scope result_scope.

Inductive index_on := on_field (field : jsstr) | on_fields (fields : list jsstr).

Record IndexDefinition := IndexDef {
  index_name : jsstr;
  on : index_on;
  index_predicate : option PredicateWire
}.

(** [/^[a-z][a-z0-9_]*$/] *)
Definition is_lower (u : N) : bool := ((97 <=? u) && (u <=? 122))%N.
Definition is_digit (u : N) : bool := ((48 <=? u) && (u <=? 57))%N.

Definition INDEX_NAME_RE (name : jsstr) : bool :=
  match name with
  | [] => false
  | u :: rest => is_lower u && forallb (fun u => is_lower u || is_digit u || (u =? 95)%N) rest
  end.

Definition validateIndexDefinition (def : IndexDefinition) : result unit :=
  match assertNameNotReserved (index_name def) with
  | Some e => inl e
  | None =>
    if negb (INDEX_NAME_RE (index_name def)) then throw SchemaError
    else if match on def with on_field f => bool_decide (f = []) | on_fields fs => bool_decide (fs = []) end
    then throw SchemaError
    else match index_predicate def with
         | None => inr tt
         | Some w => match validateWire (wire_json w) with
                     | inr _ => inr tt
                     | inl (BaerlyError c d ch i) => inl (new_error_cause SchemaError (BaerlyError c d ch i))
                     | inl e => inl e
                     end
         end
  end.

Definition tuple_of (def : IndexDefinition) : list jsstr :=
  match on def with on_field f => [f] | on_fields fs => fs end.

Definition indexKeyPrefix (logPrefix indexName : jsstr) : jsstr :=
  logPrefix ++ js "/index/" ++ indexName ++ js "/".

(** The values of the indexed fields, in order; [None] when one is missing. *)
Fixpoint project_fields (fields : list jsstr) (body : list (jsstr * jsval)) : result (option (list jsval)) :=
  match fields with
  | [] => inr (Some [])
  | field :: fields =>
    if includes_unit dot field then throw SchemaError
    else match js_get body field with
         | JNull | JUndef => inr None
         | JArr _ => throw SchemaError
         | v => let? rest := project_fields fields body in inr (cons v <$> rest)
         end
  end.

(** [JUndef] is an absent body. *)
Definition projectIndexValues (def : IndexDefinition) (body : jsval) : result (option (list jsval)) :=
  match body with
  | JObj o => project_fields (tuple_of def) o
  | _ => inr None
  end.

Section keys.
Context (json_octets : bytes -> list N).

Fixpoint encode_segments (values : list jsval) : result (list jsstr) :=
  match values with
  | [] => inr []
  | v :: values => let? s := encodeIndexValue json_octets v in
                   let? rest := encode_segments values in
                   inr (s :: rest)
  end.

Definition indexKeyFor (logPrefix : jsstr) (def : IndexDefinition) (values : list jsval) (docId : jsstr) : result jsstr :=
  let? segments := encode_segments values in
  inr (indexKeyPrefix logPrefix (index_name def) ++ join_with (js "/") segments ++ js "/" ++ docId ++ js ".json").

(** The keys of one definition: none when its filter or its projection skips the body. *)
Definition index_keys_of (logPrefix : jsstr) (def : IndexDefinition) (body : jsval) (docId : jsstr) : result (list jsstr) :=
  let keys := let? values := projectIndexValues def body in
              match values with
              | Some values => let? key := indexKeyFor logPrefix def values docId in inr [key]
              | None => inr []
              end in
  match index_predicate def, body with
  | Some w, JObj o => match matchesWire w o with
                      | Some true => keys
                      | Some false => inr []
                      | None => inl OtherError
                      end
  | _, _ => keys
  end.

Fixpoint allIndexKeysFor (logPrefix : jsstr) (defs : list IndexDefinition) (body : jsval) (docId : jsstr) :
    result (list jsstr) :=
  match defs with
  | [] => inr []
  | def :: defs => let? keys := index_keys_of logPrefix def body docId in
                   let? rest := allIndexKeysFor logPrefix defs body docId in
                   inr (keys ++ rest)
  end.
End keys.

(** ** The keys *)

Lemma index_keys_of_spec json_octets logPrefix def body docId keys :
  index_keys_of json_octets logPrefix def body docId = inr keys ->
  keys = [] \/ exists values segments, projectIndexValues def body = inr (Some values) /\
    encode_segments json_octets values = inr segments /\
    keys = [indexKeyPrefix logPrefix (index_name def) ++ join_with (js "/") segments ++ js "/" ++ docId ++ js ".json"] /\
    match index_predicate def, body with Some w, JObj o => matchesWire w o = Some true | _, _ => True end.
Proof.
  unfold index_keys_of. set (ks := rbind (projectIndexValues def body) _).
  assert (Hks : forall keys, ks = inr keys -> keys = [] \/ exists values segments,
    projectIndexValues def body = inr (Some values) /\ encode_segments json_octets values = inr segments /\
    keys = [indexKeyPrefix logPrefix (index_name def) ++ join_with (js "/") segments ++ js "/" ++ docId ++ js ".json"]).
  { intros ks'. subst ks. destruct (projectIndexValues def body) as [e|[values|]]; cbn [rbind]; [done| |intros [= <-]; by left].
    unfold indexKeyFor. destruct (encode_segments json_octets values) as [e|segments] eqn:Es; cbn [rbind]; [done|].
    intros [= <-]. right. by exists values, segments. }
  destruct (index_predicate def) as [w|], body as [| |b|n|s|l|o|x];
    try (intros Hk; destruct (Hks _ Hk) as [?|(v & s' & H1 & H2 & H3)]; [by left|right; by exists v, s']).
  destruct (matchesWire w o) as [[|]|]; [|intros [= <-]; by left|done].
  intros Hk; destruct (Hks _ Hk) as [?|(v & s' & H1 & H2 & H3)]; [by left|right; by exists v, s'].
Qed.

Lemma index_key_outside_log logPrefix name t : under_log logPrefix (indexKeyPrefix logPrefix name ++ t) = false.
Proof.
  unfold under_log, indexKeyPrefix. apply not_true_iff_false. intros [u Hu]%starts_with_spec.
  rewrite <- !app_assoc in Hu. apply app_inv_head in Hu. discriminate.
Qed.

(** Every marker key of the declared indexes, in definition order. *)
Lemma all_index_keys_outside json_octets logPrefix defs body docId keys :
  allIndexKeysFor json_octets logPrefix defs body docId = inr keys ->
  Forall (fun k => under_log logPrefix k = false) keys.
Proof.
  revert keys. induction defs as [|def defs IH]; intros keys; cbn [allIndexKeysFor]; [intros [= <-]; constructor|].
  destruct (index_keys_of json_octets logPrefix def body docId) as [e|ks] eqn:E; cbn [rbind]; [done|].
  destruct (allIndexKeysFor json_octets logPrefix defs body docId) as [e|rest]; cbn [rbind]; [done|].
  intros [= <-]. apply Forall_app. split; [|by apply IH].
  apply index_keys_of_spec in E as [->|(v & s & _ & _ & -> & _)]; [constructor|].
  apply Forall_singleton, index_key_outside_log.
Qed.

(** ** The interface of the writer *)

Definition declared_indexes (json_octets : bytes -> list N) (defs : list IndexDefinition) : IndexProjection :=
  {| has_indexes := negb (bool_decide (length defs = 0%nat));
     index_keys := fun logPrefix body docId => allIndexKeysFor json_octets logPrefix defs body docId |}.

Lemma declared_indexes_outside_log json_octets defs logPrefix :
  @IndexOutsideLog (declared_indexes json_octets defs) logPrefix.
Proof. intros body docId keys. apply all_index_keys_outside. Qed.
