(* ===== verification/QuietCommit.v ===== *)
(** * A commit on a quiet storage

    What one whole [commit] does when no other client interferes and no call fails: with
    any declared indexes, with or without an insert guard and the integrity walk, and
    before whatever maintenance it dispatches.  The entry goes to the first empty slot,
    the markers of the new body are there, and no key outside the log and the index
    prefix changes. *)
From S2P Require Import Prelude JsText JsValue Errors Json Storage Effects Lsn CurrentJson LogWalk LogTail.
From S2P Require Import Adoption DocId Writer WriterSafety Predicate IndexCodec Indexes.
Local Open Scope Z_scope.

(** ** The keys a program writes *)

(** Every put and every delete of the program is at a key in [W]. *)
Fixpoint writes_in (W : jsstr -> Prop) {A} (p : prog A) : Prop :=
  match p with
  | Ret _ | Throw _ => True
  | Get _ k => forall x, writes_in W (k x)
  | Put key _ _ k => W key /\ forall x, writes_in W (k x)
  | Delete key k => W key /\ forall x, writes_in W (k x)
  | List _ _ _ k => forall x, writes_in W (k x)
  end.

Abbreviation reads_only := (writes_in (fun _ => False)).

Lemma writes_attempt W {A B} (p : prog A) (f : result A -> prog B) :
  writes_in W p -> (forall r, writes_in W (f r)) -> writes_in W (attempt p f).
Proof. intros Hp Hf. induction p; cbn [attempt writes_in] in *; auto; destruct Hp; split; auto. Qed.

Lemma writes_bind W {A B} (p : prog A) (f : A -> prog B) :
  writes_in W p -> (forall a, writes_in W (f a)) -> writes_in W (bind p f).
Proof. intros Hp Hf. apply writes_attempt; [done|]. by intros [e|a]. Qed.

Lemma writes_of_result W {A} (r : result A) : writes_in W (of_result r).
Proof. by destruct r. Qed.

Lemma writes_get W key : writes_in W (storage_get key).
Proof. intros x. apply writes_of_result. Qed.

Lemma writes_delete_in (W : jsstr -> Prop) key : W key -> writes_in W (storage_delete key).
Proof. intros H. split; [done|]. intros x. apply writes_of_result. Qed.

Lemma writes_for_each W {A B} (l : list A) (f : A -> prog B) :
  (forall x, x ∈ l -> writes_in W (f x)) -> writes_in W (for_each l f).
Proof.
  induction l as [|x l IH]; intros Hf; cbn [for_each]; [done|]. apply writes_bind; [apply Hf; left|]. intros y.
  apply writes_bind; [|done]. apply IH. intros x' Hx'. apply Hf. by right.
Qed.

(** A run leaves every other key as it is. *)
Lemma run_writes_in W {A} now (p : prog A) k : ~ W k -> writes_in W p -> forall m,
  objects (run now p m).2 !! k = objects m !! k.
Proof.
  intros Hk. induction p as [a|e|key f IH|key b o f IH|key f IH|pr af c f IH]; cbn [writes_in run]; intros Hp m; auto.
  - destruct Hp as [Hw Hp]. unfold memory_put. destruct (assertValidStorageKey key); [by apply IH|].
    destruct (put_precondition _ _); [|by apply IH]. pose proof (memory_store_lookup key b m k) as Hl.
    destruct (memory_store key b m) as [e' m']. cbn [snd] in Hl. rewrite decide_False in Hl by congruence. rewrite <- Hl. by apply IH.
  - destruct Hp as [Hw Hp]. unfold memory_delete. destruct (assertValidStorageKey key); [by apply IH|].
    rewrite IH by done. cbn [objects]. apply lookup_delete_ne. congruence.
Qed.

Lemma run_reads_only {A} now (p : prog A) : reads_only p -> forall m, (run now p m).2 = m.
Proof.
  induction p as [a|e|key f IH|key b o f IH|key f IH|pr af c f IH]; cbn [writes_in run]; intros Hp m; auto; by destruct Hp.
Qed.

Lemma run_memory_ok {A} now (p : prog A) : forall m, memory_ok m -> memory_ok (run now p m).2.
Proof.
  induction p as [a|e|key f IH|key b o f IH|key f IH|pr af c f IH]; cbn [run]; intros m Hm; auto.
  - pose proof (memory_put_ok now key b o m Hm) as H. destruct (memory_put now key b o m). by apply IH.
  - pose proof (memory_delete_ok key m Hm) as H. destruct (memory_delete key m). by apply IH.
Qed.

(** ** Index markers *)

(** The keys a collection keeps its markers under. *)
Definition index_key (p k : jsstr) : bool := starts_with (p ++ js "/index/") k.

(** What the commit needs of the declared indexes: their markers are under the prefix. *)
Class IndexUnderPrefix `{!IndexProjection} (p : jsstr) :=
  index_keys_under : forall body docId keys, index_keys p body docId = inr keys -> Forall (fun k => index_key p k = true) keys.

Global Instance declared_indexes_under json_octets defs p : @IndexUnderPrefix (declared_indexes json_octets defs) p.
Proof.
  intros body docId. unfold index_keys, declared_indexes. induction defs as [|def defs IH]; intros keys; cbn [allIndexKeysFor].
  { intros [= <-]. constructor. }
  destruct (index_keys_of json_octets p def body docId) as [e|ks] eqn:E; cbn [rbind]; [done|].
  destruct (allIndexKeysFor json_octets p defs body docId) as [e|rest]; cbn [rbind]; [done|].
  intros [= <-]. apply Forall_app. split; [|by apply IH].
  apply index_keys_of_spec in E as [->|(v & s & _ & _ & -> & _)]; [constructor|].
  apply Forall_singleton, starts_with_spec. unfold indexKeyPrefix. eexists. by rewrite <- !app_assoc.
Qed.

Lemma index_key_not_log p k seq : index_key p k = true -> k <> logObjectKey p seq.
Proof.
  unfold index_key, logObjectKey. intros [t ->]%starts_with_spec E. rewrite <- app_assoc in E. apply app_inv_head in E. discriminate.
Qed.

Section markers.
Context `{!IndexProjection} (p : jsstr) `{!IndexUnderPrefix p} (clock : Z).

(** The markers a commit of [input] puts. *)
Definition new_markers (input : CommitInput) : list jsstr :=
  if has_indexes && negb (bool_decide (op input = OpD))
  then match index_keys p (input_body input) (docId input) with inr keys => keys | inl _ => [] end
  else [].

(** The new body has markers, at keys the storage takes. *)
Definition markers_storable (input : CommitInput) : Prop := has_indexes = true -> op input <> OpD ->
  exists keys, index_keys p (input_body input) (docId input) = inr keys /\
    Forall (fun k => assertValidStorageKey k = None /\ assertKeyWithinLimit k = None) keys.

Lemma new_markers_under input : Forall (fun k => index_key p k = true) (new_markers input).
Proof.
  unfold new_markers. destruct (_ && _); [|constructor]. destruct (index_keys p _ _) as [e|keys] eqn:E; [constructor|].
  by eapply index_keys_under.
Qed.

(** A marker is there after its put, and what was there stays. *)
Lemma run_put_marker k m : assertValidStorageKey k = None ->
  exists m', run clock (put_marker k) m = (inr tt, m') /\ is_Some (objects m' !! k) /\
    (forall k' o, objects m !! k' = Some o -> objects m' !! k' = Some o) /\
    (forall k', k' <> k -> objects m' !! k' = objects m !! k').
Proof.
  intros Hv. unfold put_marker. rewrite run_attempt, run_put. unfold memory_put. rewrite Hv.
  destruct (objects m !! k) as [o|] eqn:Eo; cbn [put_precondition create_only ifNoneMatch ifMatch andb].
  - exists m. split; [reflexivity|]. rewrite Eo. split; [by eexists|done].
  - pose proof (memory_store_lookup k EMPTY_BODY m) as Hl. destruct (memory_store k EMPTY_BODY m) as [e m']. cbn [snd fst] in Hl.
    exists m'. split; [reflexivity|]. split; [rewrite Hl, decide_True by done; by eexists|]. split.
    + intros k' o Hk'. rewrite Hl, decide_False; [done|congruence].
    + intros k' Hne. rewrite Hl, decide_False; congruence.
Qed.

Lemma run_put_markers keys m : Forall (fun k => assertValidStorageKey k = None) keys ->
  exists m', run clock (settle_all keys put_marker) m = (inr (replicate (length keys) (inr tt)), m') /\
    Forall (fun k => is_Some (objects m' !! k)) keys /\
    (forall k o, objects m !! k = Some o -> objects m' !! k = Some o) /\
    (forall k, (k ∉ keys) -> objects m' !! k = objects m !! k).
Proof.
  intros Hv. revert m. induction Hv as [|k keys Hk _ IH]; intros m; [by exists m|]. cbn [settle_all].
  destruct (run_put_marker k m Hk) as (m1 & Hr1 & Hs1 & Hkeep1 & Ho1). destruct (IH m1) as (m2 & Hr2 & Hs2 & Hkeep2 & Ho2).
  exists m2. rewrite run_attempt, Hr1, run_bind, Hr2. split; [done|]. split; [|split].
  - constructor; [|done]. destruct Hs1 as [o Ho]. exists o. by apply Hkeep2.
  - intros k' o Hk'. by apply Hkeep2, Hkeep1.
  - intros k' [Hne Hn]%not_elem_of_cons. by rewrite Ho2, Ho1.
Qed.

Lemma within_limit_all keys : Forall (fun k => assertKeyWithinLimit k = None) keys -> within_limit keys = (keys, None).
Proof. induction 1 as [|k keys Hk _ IH]; [done|]. cbn [within_limit]. by rewrite Hk, IH. Qed.

Lemma run_put_new_keys input m : markers_storable input ->
  exists m', run clock (put_new_keys p input) m = (inr (Z.of_nat (length (new_markers input))), m') /\
    Forall (fun k => is_Some (objects m' !! k)) (new_markers input) /\
    (forall k o, objects m !! k = Some o -> objects m' !! k = Some o) /\
    (forall k, (k ∉ new_markers input) -> objects m' !! k = objects m !! k).
Proof.
  intros Hst. unfold put_new_keys, new_markers. destruct (has_indexes && _) eqn:E; [|by exists m].
  apply andb_true_iff in E as [Hidx Hop%negb_true_iff%bool_decide_eq_false]. destruct (Hst Hidx Hop) as (keys & Ek & Hkeys).
  rewrite Ek. rewrite run_bind, run_of_result, within_limit_all by (eapply Forall_impl; [exact Hkeys|by intros ? []]).
  destruct (run_put_markers keys m) as (m' & Hr & Hm'); [eapply Forall_impl; [exact Hkeys|by intros ? []]|].
  exists m'. split; [|done]. unfold promise_all. rewrite !run_bind, Hr, run_of_result.
  assert (Hcol : forall n, collect (replicate n (@inr js_error unit tt)) = inr (replicate n tt)).
  { intros n. induction n as [|n IHn]; [done|]. cbn [replicate collect]. by rewrite IHn. }
  by rewrite Hcol.
Qed.

(** *** Stale markers *)

Lemma pre_image_reads n coll docId s : reads_only (pre_image_loop n p coll docId s).
Proof.
  revert s. induction n as [|n IH]; intros s; cbn [pre_image_loop]; [done|]. cbv zeta. apply writes_bind; [apply writes_get|].
  intros [got|]; [|apply IH]. destruct (decodeJsonBytes (body got)); [|apply IH]. apply writes_bind; [unfold read_prop; by destruct (prop _ _)|].
  intros c. destruct (_ || _); [apply IH|]. destruct (strict_eq _ _); [done|]. destruct (_ && _); [done|apply IH].
Qed.

Lemma stale_keys_reads input seq : reads_only (stale_keys p input seq).
Proof.
  unfold stale_keys, readPreImage. destruct (op input); [done|..]; cbv zeta; (apply writes_bind; [apply pre_image_reads|]); intros pre;
    repeat (apply writes_bind; [apply writes_of_result|intros ?]); [done|apply writes_of_result].
Qed.

(** What [stale_keys] answers is under the prefix and not a marker of the new body. *)
Lemma stale_keys_stale input seq m keys m' : has_indexes = true -> run clock (stale_keys p input seq) m = (inr keys, m') ->
  Forall (fun k => index_key p k = true /\ (k ∉ new_markers input) /\ op input <> OpI) keys.
Proof.
  intros Hidx. unfold stale_keys, new_markers. rewrite Hidx. destruct (op input) eqn:Eop; cbn [andb negb bool_decide].
  - cbn [run]. intros [= <- _]. constructor.
  - rewrite run_bind. destruct (run clock (readPreImage _ _ _ _) m) as [[e|pre] m1]; [done|]. rewrite run_bind, run_of_result.
    destruct (index_keys p pre (docId input)) as [e|old] eqn:Eo; [done|]. rewrite run_bind, run_of_result.
    destruct (index_keys p (input_body input) (docId input)) as [e|new]; [done|]. cbn [run]. intros [= <- _].
    apply Forall_forall. intros k [Hn Hk]%list_elem_of_filter. split; [|split; [exact Hn|done]].
    by apply (proj1 (Forall_forall _ _) (index_keys_under _ _ _ Eo)).
  - rewrite run_bind. destruct (run clock (readPreImage _ _ _ _) m) as [[e|pre] m1]; [done|]. rewrite run_of_result.
    intros [= Eo _]. eapply Forall_impl; [exact (index_keys_under _ _ _ Eo)|]. intros k Hk. cbn beta. split; [done|].
    split; [apply not_elem_of_nil|done].
Qed.

Lemma run_settle_delete k m : exists m', run clock (settle (storage_delete k)) m = (inr tt, m') /\
  (forall k', objects m' !! k' = objects m !! k' \/ k' = k /\ objects m' !! k' = None).
Proof.
  unfold settle, storage_delete. rewrite run_attempt. cbn [run]. unfold memory_delete. destruct (assertValidStorageKey k).
  - exists m. split; [done|]. intros k'. by left.
  - eexists. split; [done|]. intros k'. cbn [objects]. destruct (decide (k = k')) as [->|Hne]; [right; by rewrite lookup_delete_eq|].
    left. by apply lookup_delete_ne.
Qed.

Lemma run_delete_stale keys m : exists us m', run clock (for_each keys (fun k => settle (storage_delete k))) m = (inr us, m') /\
  (forall k, objects m' !! k = objects m !! k \/ k ∈ keys /\ objects m' !! k = None).
Proof.
  revert m. induction keys as [|k keys IH]; intros m; cbn [for_each].
  { exists [], m. split; [done|]. intros k. by left. }
  destruct (run_settle_delete k m) as (m1 & Hr1 & H1). destruct (IH m1) as (us & m2 & Hr2 & H2).
  exists (tt :: us), m2. rewrite run_bind, Hr1, run_bind, Hr2. split; [done|]. intros k'.
  destruct (H2 k') as [E|[Hin E]]; [|right; split; [by right|done]]. rewrite E.
  destruct (H1 k') as [E1|[-> E1]]; [by left|right]. split; [left|by rewrite E1].
Qed.

Lemma run_cleanup input seq m : exists n m', run clock (cleanupStaleIndexKeysBestEffort p input seq) m = (inr n, m') /\ 0 <= n /\
  (has_indexes = false \/ op input = OpI -> n = 0) /\
  (forall k, objects m' !! k = objects m !! k \/
     (has_indexes = true /\ op input <> OpI /\ index_key p k = true /\ (k ∉ new_markers input)) /\ objects m' !! k = None).
Proof.
  unfold cleanupStaleIndexKeysBestEffort. destruct has_indexes eqn:Hidx; cbn [negb].
  2: { exists 0, m. split; [done|]. split; [done|]. split; [done|]. intros k. by left. }
  rewrite run_attempt. pose proof (run_reads_only clock _ (stale_keys_reads input seq) m) as Hm.
  destruct (run clock (stale_keys p input seq) m) as [[e|keys] m1] eqn:Er; cbn [snd] in Hm; subst m1.
  { exists 0, m. split; [done|]. split; [done|]. split; [done|]. intros k. by left. }
  pose proof (stale_keys_stale input seq m keys m Hidx Er) as Hst.
  destruct (run_delete_stale keys m) as (us & m' & Hr & Hd). exists (Z.of_nat (length keys)), m'. rewrite run_bind, Hr. split; [done|].
  split; [lia|]. split.
  - intros [?|Hop]; [done|]. destruct keys as [|k keys]; [done|]. apply Forall_cons in Hst as [(_ & _ & ?) _]. done.
  - intros k. destruct (Hd k) as [?|[Hin E]]; [by left|right]. split; [|done].
    destruct (proj1 (Forall_forall _ _) Hst _ Hin) as (? & ? & ?). done.
Qed.
End markers.

(** ** Where the commit lands *)

Section commit.
Context `{!IndexProjection} (p : jsstr) `{!IndexUnderPrefix p} (clock : Z).

(** The tail search of [input] on a dense log ending at [tail]: unguarded, from the
    manifest's floor; guarded, over the window of the guard, which must not refuse. *)
Definition target_at (m : MemoryStorage) (input : CommitInput) (c : CurrentJson) (tail : Z) : Prop :=
  match insertGuard input with
  | None => log_ends m p (Z.max (log_seq_start c) (tail_hint c)) tail /\
      tail <= Z.max (log_seq_start c) (tail_hint c) + 131071
  | Some g => exists n, safe_seq (absentBelowSeq g) = Some n /\ log_seq_start c <= n /\
      log_ends m p n tail /\ tail < n + LOG_FORWARD_PROBE_CAP /\ all_decoded m p (seqZ n (tail - n)) = true /\
      decideInsertTarget (decoded m p (seqZ n (tail - n))) input g = inr None
  end.

Lemma target_empty m input c tail : target_at m input c tail -> log_slot m p tail = None.
Proof.
  unfold target_at. intros Ht. apply occupied_false. destruct (insertGuard input) as [g|].
  - destruct Ht as (n & _ & _ & (_ & _ & Hend) & _). apply Hend. lia.
  - destruct Ht as [(_ & _ & Hend) _]. apply Hend. lia.
Qed.

Lemma run_find_target m input c tail : valid_prefix p -> target_at m input c tail ->
  exists window, run clock (find_target p input c) m = (inr (CreateAt tail window), m).
Proof.
  unfold target_at, find_target, logSeqStartOf. cbv zeta. intros Hp. destruct (insertGuard input) as [g|].
  - intros (n & Hg & Hn & Hends & Hcap & Hall & Hdec). rewrite Hg. change (default 0 (Some n)) with n. eexists.
    unfold readFoldedInsertWindow. rewrite (proj2 (Z.leb_le _ _) Hn), run_bind. cbn [run].
    rewrite run_bind, Z.max_l by done. unfold probeTailFrom.
    rewrite (run_probeTailFrom clock p m n tail) by (done || (unfold LOG_FORWARD_PROBE_CAP; lia)).
    rewrite (proj2 (Z.ltb_lt _ _) Hcap). cbn [app]. by rewrite run_bind, run_of_result, Hdec.
  - intros [Hends Hcap]. exists None. rewrite run_bind, (run_findLogTail _ _ _ _ tail) by done.
    by rewrite (proj2 (Z.ltb_ge _ _)) by lia.
Qed.

(** ** The effect on the storage *)

(** The store [m'] a commit leaves when it dispatches its maintenance. *)
Record committed_store (input : CommitInput) (tail : Z) (b : bytes) (m m' : MemoryStorage) : Prop := {
  committed_entry : log_slot m' p tail = Some b;
  committed_markers : Forall (fun k => is_Some (objects m' !! k)) (new_markers p input);
  committed_others : forall k, k <> logObjectKey p tail -> (k ∉ new_markers p input) -> objects m' !! k = objects m !! k \/
    (has_indexes = true /\ op input <> OpI /\ index_key p k = true /\ objects m' !! k = None)
}.

Lemma committed_frame input tail b m m' k : committed_store input tail b m m' -> k <> logObjectKey p tail ->
  index_key p k = false -> objects m' !! k = objects m !! k.
Proof.
  intros [_ _ Ho] Hk Hi. destruct (Ho k Hk) as [?|(_ & _ & ? & _)]; [|done|congruence].
  intros Hin. pose proof (proj1 (Forall_forall _ _) (new_markers_under p input) k Hin) as Hu. cbn in Hu. congruence.
Qed.

Lemma committed_slots input tail b m m' seq : committed_store input tail b m m' ->
  log_slot m' p seq = if decide (tail = seq) then Some b else log_slot m p seq.
Proof.
  intros Hc. destruct (decide (tail = seq)) as [<-|Hne]; [apply (committed_entry _ _ _ _ _ Hc)|].
  unfold log_slot. rewrite (committed_frame _ _ _ _ _ _ Hc); [done| |].
  - intros E. by apply logObjectKey_inj in E.
  - destruct (index_key p (logObjectKey p seq)) eqn:E; [|done]. by destruct (index_key_not_log p _ seq E).
Qed.

Lemma committed_ends input tail b m m' hint : committed_store input tail b m m' -> log_ends m p hint tail ->
  log_ends m' p hint (tail + 1).
Proof.
  intros Hc Hends. pose proof (log_ends_append m p hint tail b Hends) as (H1 & H2 & H3).
  assert (E : forall s, occupied m' p s = occupied (memory_store (logObjectKey p tail) b m).2 p s).
  { intros s. unfold occupied. by rewrite (committed_slots _ _ _ _ _ s Hc), log_slot_store. }
  split; [done|]. split; intros s Hs; rewrite E; auto.
Qed.

Context (nfc : jsstr -> jsstr) (key : jsstr) (verify : bool) (gen session : jsstr) (now : Z)
  (maintenance : CurrentJson -> Z -> Z -> prog unit).

(** The whole attempt: the tail search, the markers, the entry, the stale markers, then
    the maintenance, whose outcome the commit ignores. *)
Lemma run_commit input m o c ts tail b :
  log_prefix_of key = p -> index_key p key = false -> valid_prefix p -> assertValidStorageKey key = None ->
  validate_input nfc input = None ->
  objects m !! key = Some o -> decode_current (stored_body o) = inr c ->
  (verify = true -> exists es, run clock (walkLogRange (fun _ => 0) p (log_seq_start c) (tail_hint c)) m = (inr es, m)) ->
  target_at m input c tail -> markers_storable p input ->
  certifiedDeleteFloor c <= tail -> timestamp now = inr ts ->
  assertKeyWithinLimit (logObjectKey p tail) = None ->
  encodeJsonBytes (mintEntry session now ts input tail) = Some b ->
  exists stale m', committed_store input tail b m m' /\ (memory_ok m -> memory_ok m') /\
    0 <= stale /\ (has_indexes = false \/ op input = OpI -> stale = 0) /\
    run clock (commit nfc key verify gen session now maintenance input) m =
    (inr (Result (mintEntry session now ts input tail) (stored_etag o) false
            (1 + (Z.of_nat (length (new_markers p input)) + stale))),
     (run clock (maintenance c tail (tail + 1)) m').2).
Proof.
  intros Hpk Hik Hp Hkey Hval Ho Hd Hver Ht Hst Hfl Hts Hlim Henc.
  pose proof (target_empty _ _ _ _ Ht) as Hempty. unfold log_slot in Hempty.
  assert (Hkl : key <> logObjectKey p tail).
  { rewrite <- Hpk. intros E. by apply (slot_not_manifest key tail). }
  assert (Hread : forall m', objects m' !! key = Some o ->
    run clock (readCurrentJson key) m' = (inr (Some (CurrentRead c (stored_etag o))), m')).
  { intros m' Ho'. rewrite run_readCurrentJson by done. unfold read_manifest. by rewrite Ho', Hd. }
  destruct (run_find_target m input c tail Hp Ht) as [window Hfind].
  pose proof (new_markers_under p input) as Hund. rewrite Forall_forall in Hund.
  destruct (run_put_new_keys p clock input m Hst) as (m1 & Hr1 & Hmk1 & Hkeep1 & Ho1).
  assert (Hslot1 : objects m1 !! logObjectKey p tail = None).
  { rewrite Ho1; [by destruct (objects m !! logObjectKey p tail)|]. intros Hin. by apply (index_key_not_log p _ tail (Hund _ Hin)). }
  destruct (memory_store (logObjectKey p tail) b m1) as [etag m2] eqn:E2.
  pose proof (memory_store_lookup (logObjectKey p tail) b m1) as Hl2. rewrite E2 in Hl2. cbn [fst snd] in Hl2.
  destruct (run_cleanup p clock input tail m2) as (stale & m3 & Hr3 & Hs0 & Hs1 & Ho3).
  exists stale, m3.
  assert (Hc : committed_store input tail b m m3).
  { split.
    - unfold log_slot. destruct (Ho3 (logObjectKey p tail)) as [E|[(_ & _ & Hi & _) _]]; [|by destruct (index_key_not_log p _ tail Hi)].
      by rewrite E, Hl2, decide_True.
    - apply Forall_forall. intros k Hin. destruct (Ho3 k) as [E|[(_ & _ & _ & Hn) _]]; [|done]. rewrite E, Hl2, decide_False.
      + by apply (proj1 (Forall_forall _ _) Hmk1).
      + intros E'. by apply (index_key_not_log p k tail (Hund _ Hin)).
    - intros k Hk Hn. destruct (Ho3 k) as [E|[(Hi & Hop & Hk' & _) E]]; [left|by right].
      rewrite E, Hl2, decide_False by congruence. by apply Ho1. }
  split; [done|]. split.
  { intros Hok. apply (run_memory_ok clock (put_new_keys p input)) in Hok. rewrite Hr1 in Hok. cbn [snd] in Hok.
    apply (memory_store_ok (logObjectKey p tail) b) in Hok. rewrite E2 in Hok. cbn [snd] in Hok.
    apply (run_memory_ok clock (cleanupStaleIndexKeysBestEffort p input tail)) in Hok. by rewrite Hr3 in Hok. }
  split; [done|]. split; [done|].
  unfold commit. rewrite run_bind, run_check, Hval, Hpk. unfold singleAttemptCommit.
  rewrite run_bind, Hread by done. rewrite run_bind. cbn [run]. unfold commit_on. cbv zeta. cbn [json read_etag].
  rewrite run_bind.
  assert (Hv : run clock (if verify then bind (walkLogRange (fun _ => 0) p (logSeqStartOf c) (tail_hint c)) (fun _ => Ret tt) else Ret tt) m =
    (inr tt, m)).
  { destruct verify; [|done]. destruct (Hver eq_refl) as [es Hes]. unfold logSeqStartOf. by rewrite run_bind, Hes. }
  rewrite Hv, run_bind, Hfind, run_bind, run_of_result, Hts, run_bind, Hr1, run_bind.
  generalize (Z.to_nat LOG_FORWARD_PROBE_CAP) as n. intros n.
  assert (Hput : run clock (storage_put (logObjectKey p tail) b create_only) m1 = (inr (PutResult etag (Some clock)), m2)).
  { rewrite run_put. unfold memory_put. rewrite Hp, Hslot1. cbn [put_precondition create_only ifNoneMatch ifMatch andb bool_decide].
    by rewrite E2. }
  assert (Hloop : run clock (create_loop session now n ts p input window tail) m1 =
    (inr (Landed (mintEntry session now ts input tail) tail), m2)).
  { destruct n; cbn [create_loop]; rewrite run_bind; unfold create_at;
      rewrite run_bind, run_check, Hlim, Henc, run_attempt, Hput; done. }
  rewrite Hloop, run_bind. unfold assertCommitAboveDeleteFloor. rewrite run_attempt, Hread.
  2: { rewrite Hl2, decide_False by done. rewrite Ho1; [done|]. intros Hin. specialize (Hund _ Hin). cbn in Hund. congruence. }
  cbv zeta. cbn [json]. rewrite (proj2 (Z.leb_le _ _) Hfl), orb_true_r. cbn [run].
  rewrite run_bind, Hr3, run_bind. unfold settle. rewrite run_attempt. by destruct (run clock (maintenance c tail (tail + 1)) m3).
Qed.
End commit.

(** ** Theorems *)


(** A guarded insert into an empty collection with one index on [n]. *)
Definition marker_octets (b : bytes) : list N := [].

Definition by_n : IndexDefinition := IndexDef (js "by_n") (on_field (js "n")) None.

Definition indexed_insert : CommitInput :=
  Input OpI (js "t") (js "d1") (JObj [(js "_id", JStr (js "d1")); (js "n", num 7)]) None (Some (Guard (num 0) JUndef)).

