(* ===== verification/QueryPlanner.v ===== *)
(** * The query planner (server/src/query-planner.ts)

    [planQuery] chooses between one declared index and the full scan.  The lemmas say what a
    plan promises the walk: the parts of the wire it consumes hold of every document the
    wire accepts, and an index whose filter the query does not imply is chosen only when
    no other declared index fits. *)
From S2P Require Import Prelude JsText JsValue Errors Json Storage Effects Predicate Satisfiable Validate Implies IndexCodec.
From S2P Require Import Lsn CurrentJson LogWalk LogTail DocId Adoption Writer WriterSafety Indexes.
Local Open Scope Z_scope.
Local Open Scope result_scope.

Definition IN_FANOUT_THRESHOLD : nat := 50.

(** Bounds of one field; [JUndef] is an absent bound. *)
Record RangeOpInfo := RangeOp {
  r_lo : jsval;
  r_hi : jsval;
  loInclusive : bool;
  hiInclusive : bool
}.

Record IndexWalkPlan := WalkPlan {
  indexName : jsstr;
  equalityKeys : list jsval;
  rangeOn : option (jsstr * RangeOpInfo);
  inOn : option (jsstr * list jsval)
}.

Inductive full_scan_reason :=
| no_predicate
| no_indexes_declared
| no_matching_index
| predicate_uses_operators_only.

Inductive QueryPlan :=
| IndexWalk (plan : IndexWalkPlan)
| FullScan (reason : full_scan_reason).

(** The three maps and the set of the first pass. *)
Record partition := Partition {
  equality : gmap jsstr jsval;
  rangeAcc : gmap jsstr RangeOpInfo;
  inOps : gmap jsstr (list jsval);
  unroutable : gset jsstr
}.

Definition no_clauses : partition := Partition empty empty empty empty.

Definition mark_unroutable (field : jsstr) (p : partition) : partition :=
  Partition (delete field (equality p)) (delete field (rangeAcc p)) (delete field (inOps p))
    ({[field]} ∪ unroutable p).

Definition has {A} (field : jsstr) (m : gmap jsstr A) : bool := bool_decide (is_Some (m !! field)).

(** [get(k) !== undefined] *)
Definition defined (o : option jsval) : option jsval :=
  match o with Some v => if is_undefined v then None else Some v | None => None end.

Section planner.
Context (mixed_lt : jsval -> jsval -> bool).

Definition accumulate (op : PredicateOpName) (v : jsval) (acc : RangeOpInfo) : RangeOpInfo :=
  let set_lo v i := RangeOp v (r_hi acc) i (hiInclusive acc) in
  let set_hi v i := RangeOp (r_lo acc) v (loInclusive acc) i in
  match op with
  | op_gte => if is_undefined (r_lo acc) || js_gt mixed_lt v (r_lo acc) then set_lo v true else acc
  | op_gt => if is_undefined (r_lo acc) || js_gt mixed_lt v (r_lo acc) then set_lo v false
             else if strict_eq v (r_lo acc) then set_lo (r_lo acc) false else acc
  | op_lte => if is_undefined (r_hi acc) || js_lt mixed_lt v (r_hi acc) then set_hi v true else acc
  | op_lt => if is_undefined (r_hi acc) || js_lt mixed_lt v (r_hi acc) then set_hi v false
             else if strict_eq v (r_hi acc) then set_hi (r_hi acc) false else acc
  | op_eq | op_in => acc
  end.

Definition part_clause (p : partition) (clause : PredicateClause) : partition :=
  let field := clause_field clause in
  let v := clause_value clause in
  if bool_decide (field ∈ unroutable p) then p
  else match clause_op clause with
       | op_eq =>
         if has field (inOps p) || has field (rangeAcc p) then mark_unroutable field p
         else Partition (<[field := v]> (equality p)) (rangeAcc p) (inOps p) (unroutable p)
       | op_in =>
         if has field (equality p) || has field (rangeAcc p) || has field (inOps p) then mark_unroutable field p
         else match v with
              | JArr vs => Partition (equality p) (rangeAcc p) (<[field := vs]> (inOps p)) (unroutable p)
              | _ => Partition (equality p) (rangeAcc p) (inOps p) ({[field]} ∪ unroutable p)
              end
       | op =>
         if has field (equality p) || has field (inOps p) then mark_unroutable field p
         else let acc := default (RangeOp JUndef JUndef false false) (rangeAcc p !! field) in
              Partition (equality p) (<[field := accumulate op v acc]> (rangeAcc p)) (inOps p) (unroutable p)
       end.

Definition part_wire (wire : PredicateWire) : partition := foldl part_clause no_clauses wire.

Inductive tail_slot :=
| tail_range (field : jsstr) (info : RangeOpInfo)
| tail_in (field : jsstr) (values : list jsval).

Record Candidate := Cand {
  cand_def : IndexDefinition;
  defIndex : nat;
  prefixLen : nat;
  cand_keys : list jsval;
  cand_tail : option tail_slot
}.

(** The walk over [def.on]: equality values, then at most one tail slot. *)
Fixpoint consume (p : partition) (tuple : list jsstr) : list jsval * option tail_slot :=
  match tuple with
  | [] => ([], None)
  | field :: tuple =>
    match defined (equality p !! field) with
    | Some v => let (keys, tail) := consume p tuple in (v :: keys, tail)
    | None =>
      ([], match rangeAcc p !! field with
           | Some info => Some (tail_range field info)
           | None => tail_in field <$> inOps p !! field
           end)
    end
  end.

Definition candidate_of (p : partition) (defIndex : nat) (def : IndexDefinition) : option Candidate :=
  let (keys, tail) := consume p (tuple_of def) in
  let candidateLen := (length keys + match tail with Some _ => 1 | None => 0 end)%nat in
  if (candidateLen =? 0)%nat then None else Some (Cand def defIndex candidateLen keys tail).

Definition candidates_of (p : partition) (indexes : list IndexDefinition) : list Candidate :=
  omap id (imap (candidate_of p) indexes).

Definition rank (wire : PredicateWire) (c : Candidate) : result Z :=
  match index_predicate (cand_def c) with
  | None => inr 1
  | Some p => let? implied := predicateImplies mixed_lt p wire in
              inr (if implied : bool then 0 else 2)
  end.

(** The comparator of the sort, on ranked candidates. *)
Definition compare_candidates (a b : Z * Candidate) : Z :=
  if negb (a.1 =? b.1) then a.1 - b.1
  else if negb (prefixLen b.2 =? prefixLen a.2)%nat then Z.of_nat (prefixLen b.2) - Z.of_nat (prefixLen a.2)
  else Z.of_nat (defIndex a.2) - Z.of_nat (defIndex b.2).

(** [candidates.sort(...)[0]]: the comparator never answers 0 on two candidates, so the
    first element is the least one. *)
Definition least (first : Z * Candidate) (others : list (Z * Candidate)) : Z * Candidate :=
  foldl (fun best c => if compare_candidates c best <? 0 then c else best) first others.

Fixpoint rank_all (wire : PredicateWire) (cs : list Candidate) : result (list (Z * Candidate)) :=
  match cs with
  | [] => inr []
  | c :: cs => let? r := rank wire c in
               let? rest := rank_all wire cs in
               inr ((r, c) :: rest)
  end.

(** A one-element sort compares nothing. *)
Definition best_candidate (wire : PredicateWire) (cs : list Candidate) : result (option Candidate) :=
  match cs with
  | [] => inr None
  | [c] => inr (Some c)
  | cs => let? ranked := rank_all wire cs in
          inr match ranked with
              | [] => None
              | first :: others => Some (least first others).2
              end
  end.

Definition plan_of (best : Candidate) : QueryPlan :=
  match cand_tail best with
  | Some (tail_in field values) =>
    if (IN_FANOUT_THRESHOLD <? length values)%nat then FullScan no_matching_index
    else IndexWalk (WalkPlan (index_name (cand_def best)) (cand_keys best) None (Some (field, values)))
  | Some (tail_range field info) =>
    IndexWalk (WalkPlan (index_name (cand_def best)) (cand_keys best) (Some (field, info)) None)
  | None => IndexWalk (WalkPlan (index_name (cand_def best)) (cand_keys best) None None)
  end.

Definition planQuery (wire : option PredicateWire) (indexes : list IndexDefinition) : result QueryPlan :=
  match wire with
  | None | Some [] => inr (FullScan no_predicate)
  | Some wire =>
    match indexes with
    | [] => inr (FullScan no_indexes_declared)
    | _ =>
      let p := part_wire wire in
      if bool_decide (equality p = empty) && bool_decide (rangeAcc p = empty) && bool_decide (inOps p = empty)
      then inr (FullScan predicate_uses_operators_only)
      else let? best := best_candidate wire (candidates_of p indexes) in
           inr match best with
               | None => FullScan no_matching_index
               | Some best => plan_of best
               end
    end
  end.
End planner.

(** ** What a partition holds *)

Definition no_bounds : RangeOpInfo := RangeOp JUndef JUndef false false.

Lemma has_false {A} (f : jsstr) (m : gmap jsstr A) : has f m = false -> m !! f = None.
Proof. unfold has. rewrite bool_decide_eq_false. destruct (m !! f); [|done]. intros []. by eexists. Qed.

(** Where each entry of the next partition comes from. *)
Lemma part_clause_entries mixed_lt p c f :
  (forall v, equality (part_clause mixed_lt p c) !! f = Some v -> equality p !! f = Some v \/
     f = clause_field c /\ clause_op c = op_eq /\ v = clause_value c) /\
  (forall i, rangeAcc (part_clause mixed_lt p c) !! f = Some i -> rangeAcc p !! f = Some i \/
     f = clause_field c /\ clause_op c <> op_eq /\ clause_op c <> op_in /\
     i = accumulate mixed_lt (clause_op c) (clause_value c) (default no_bounds (rangeAcc p !! f))) /\
  (forall vs, inOps (part_clause mixed_lt p c) !! f = Some vs -> inOps p !! f = Some vs \/
     f = clause_field c /\ clause_op c = op_in /\ clause_value c = JArr vs).
Proof.
  assert (Hdel : forall A (m : gmap jsstr A) v, delete (clause_field c) m !! f = Some v -> m !! f = Some v).
  { intros A m v [_ H]%lookup_delete_Some. exact H. }
  assert (Hins : forall A (m : gmap jsstr A) w v, <[clause_field c := w]> m !! f = Some v ->
    m !! f = Some v \/ f = clause_field c /\ v = w).
  { intros A m w v [[-> <-]|[_ H]]%lookup_insert_Some; [by right|by left]. }
  unfold part_clause. destruct (bool_decide _); [naive_solver|].
  destruct (clause_op c) eqn:Eo; cbn beta iota zeta; (case_match; [unfold mark_unroutable; cbn; naive_solver|]).
  1-5: cbn [equality rangeAcc inOps]; split_and!; intros x Hx; try (by left);
       apply Hins in Hx as [Hx|[-> ->]]; [by left|right; split_and!; done].
  destruct (clause_value c) eqn:Ev; cbn [equality rangeAcc inOps]; split_and!; intros y Hy; try (by left).
  apply Hins in Hy as [Hy|[-> ->]]; [by left|right; split_and!; done].
Qed.

(** Any property of the entries that every clause establishes holds of the partition. *)
Lemma part_wire_entries mixed_lt (E : jsstr -> jsval -> Prop) (R : jsstr -> RangeOpInfo -> Prop)
    (I : jsstr -> list jsval -> Prop) wire :
  (forall f, R f no_bounds) ->
  Forall (fun c => let f := clause_field c in let v := clause_value c in
    match clause_op c with
    | op_eq => E f v
    | op_in => forall vs, v = JArr vs -> I f vs
    | op => forall i, R f i -> R f (accumulate mixed_lt op v i)
    end) wire ->
  let p := part_wire mixed_lt wire in
  (forall f v, equality p !! f = Some v -> E f v) /\ (forall f i, rangeAcc p !! f = Some i -> R f i) /\
  (forall f vs, inOps p !! f = Some vs -> I f vs).
Proof.
  intros H0 Hw. unfold part_wire.
  assert (Hp : (forall f v, equality no_clauses !! f = Some v -> E f v) /\
    (forall f i, rangeAcc no_clauses !! f = Some i -> R f i) /\
    (forall f vs, inOps no_clauses !! f = Some vs -> I f vs)) by done.
  revert Hp. generalize no_clauses as p. induction Hw as [|c w Hc _ IH]; intros p (HE & HR & HI); [done|].
  cbn [foldl]. apply IH. clear IH. split; [|split]; intros f x Hx;
    destruct (part_clause_entries mixed_lt p c f) as (CE & CR & CI).
  - destruct (CE _ Hx) as [?|(-> & Ho & ->)]; [by apply HE|]. by rewrite Ho in Hc.
  - destruct (CR _ Hx) as [?|(-> & Ho & Ho' & ->)]; [by apply HR|].
    assert (Hd : R (clause_field c) (default no_bounds (rangeAcc p !! clause_field c))).
    { destruct (rangeAcc p !! clause_field c) eqn:Er; [by apply HR|apply H0]. }
    destruct (clause_op c); try done; by apply Hc.
  - destruct (CI _ Hx) as [?|(-> & Ho & Hv)]; [by apply HI|]. rewrite Ho in Hc. by apply Hc.
Qed.

(** ** What a plan promises *)

(** Bounds a value meets. *)
Definition within_range (x : jsval) (i : RangeOpInfo) : Prop :=
  (is_undefined (r_lo i) = false -> compareGT x (r_lo i) (loInclusive i) = true) /\
  (is_undefined (r_hi i) = false -> compareLT x (r_hi i) (hiInclusive i) = true).

(** A value a clause may carry, of the wires the planner is handed: validated, scalar, and
    a number or string the language can hold. *)
Definition operand_ok (v : jsval) : Prop := scalar v = true /\ indexable v.

Definition bound_ok (v : jsval) : Prop := v = JUndef \/ operand_ok v /\ comparable v.

Definition range_ok (i : RangeOpInfo) : Prop := bound_ok (r_lo i) /\ bound_ok (r_hi i).

Definition operands (c : PredicateClause) : list jsval :=
  match clause_op c with op_in => members c | _ => [clause_value c] end.

Definition routable_clause (c : PredicateClause) : Prop := clause_ok c /\ Forall indexable (operands c).

Lemma accumulate_ok mixed_lt op v i : bound_ok v -> range_ok i -> range_ok (accumulate mixed_lt op v i).
Proof. intros Hv [Hl Hh]. destruct op; cbn [accumulate]; repeat case_match; done. Qed.

Lemma accumulate_within mixed_lt op v x i : scalar v = true ->
  matchesClause (Clause op [] v) x = Some true -> op <> op_eq -> op <> op_in ->
  within_range x i -> within_range x (accumulate mixed_lt op v i).
Proof.
  intros Hv Hm Heq Hin [Hl Hh]. destruct op; try done; cbn [matchesClause clause_op clause_value] in Hm; injection Hm as Hm;
    cbn [accumulate]; (case_match; [by split|]); try (by split);
    (destruct (strict_eq v _) eqn:Es; [|by split]); apply strict_eq_scalar in Es; try done; subst v;
    split; cbn [r_lo r_hi loInclusive hiInclusive]; done.
Qed.

(** The operands of a partition are those of the wire. *)
Lemma part_wire_operands mixed_lt wire : Forall routable_clause wire ->
  let p := part_wire mixed_lt wire in
  (forall f v, equality p !! f = Some v -> operand_ok v) /\ (forall f i, rangeAcc p !! f = Some i -> range_ok i) /\
  (forall f vs, inOps p !! f = Some vs -> Forall operand_ok vs).
Proof.
  intros Hr. apply (part_wire_entries mixed_lt (fun _ => operand_ok) (fun _ => range_ok) (fun _ => Forall operand_ok)).
  { intros f. split; by left. }
  apply Forall_forall. intros c Hc. rewrite Forall_forall in Hr. destruct (Hr c Hc) as [[Hs Hv] Ho].
  unfold scalar_clause, valid_clause, operands in *. apply andb_true_iff in Hv as [_ Hv]. cbn beta iota zeta.
  destruct (clause_op c); cbn beta iota.
  2-5: intros i Hi; apply accumulate_ok; [|done]; right; inversion Ho; subst; split; [by split|];
       destruct (clause_value c); done.
  - inversion Ho; subst. by split.
  - intros vs Evs. unfold members in Ho. rewrite Evs in *. apply Forall_forall. intros v Hv'. split.
    + eapply forallb_forall; [exact Hs|]. by apply list_elem_of_In.
    + rewrite Forall_forall in Ho. by apply Ho.
Qed.

(** Every entry of the partition of a routable wire holds of what the wire accepts. *)
Lemma part_wire_holds mixed_lt wire doc : Forall routable_clause wire -> matchesWire wire doc = Some true ->
  let p := part_wire mixed_lt wire in
  (forall f v, equality p !! f = Some v -> lookupPath doc f = v) /\
  (forall f i, rangeAcc p !! f = Some i -> within_range (lookupPath doc f) i) /\
  (forall f vs, inOps p !! f = Some vs -> lookupPath doc f ∈ vs).
Proof.
  intros Hr Hm. rewrite matchesWire_true in Hm. apply part_wire_entries; [intros f; by split|].
  apply Forall_forall. intros c Hc. rewrite Forall_forall in Hr, Hm. specialize (Hr c Hc). specialize (Hm c Hc).
  destruct Hr as [[Hs Hv] Ho]. unfold scalar_clause, operands in *. cbn beta iota zeta.
  unfold matchesClause in Hm. destruct (clause_op c) eqn:Eo; cbn beta iota.
  2-5: intros i Hw; apply accumulate_within; try done; unfold matchesClause; cbn [clause_op clause_value]; exact Hm.
  - rewrite matchesEq_scalar in Hm by done. injection Hm as Hm. symmetry. by apply strict_eq_scalar.
  - intros vs Evs. rewrite Evs in *. rewrite matchesIn_scalar in Hm by done. injection Hm as Hm.
    apply existsb_exists in Hm as (v & Hmv & He). apply strict_eq_scalar in He; [subst v; by apply list_elem_of_In|].
    eapply forallb_forall; [exact Hs|done].
Qed.

(** ** The chosen candidate *)

Lemma consume_spec p tuple keys tail : consume p tuple = (keys, tail) ->
  exists pre post, tuple = pre ++ post /\ Forall2 (fun f k => equality p !! f = Some k /\ is_undefined k = false) pre keys /\
    match tail with
    | Some (tail_range f i) => head post = Some f /\ rangeAcc p !! f = Some i
    | Some (tail_in f vs) => head post = Some f /\ inOps p !! f = Some vs
    | None => True
    end.
Proof.
  revert keys tail. induction tuple as [|f tuple IH]; intros keys tail; cbn [consume].
  { intros [= <- <-]. by exists [], []. }
  destruct (defined (equality p !! f)) as [v|] eqn:Ev.
  - destruct (consume p tuple) as [keys' tail'] eqn:Ec. intros [= <- <-].
    destruct (IH _ _ eq_refl) as (pre & post & -> & Hp & Ht). exists (f :: pre), post.
    split; [done|]. split; [|done]. constructor; [|done].
    unfold defined in Ev. destruct (equality p !! f) as [w|]; [|done]. destruct (is_undefined w) eqn:Eu; [done|].
    by injection Ev as <-.
  - intros [= <- <-]. exists [], (f :: tuple). split; [done|]. split; [constructor|].
    destruct (rangeAcc p !! f) eqn:Er; [done|]. by destruct (inOps p !! f) eqn:Ei.
Qed.

Lemma candidates_of_elem p indexes c : c ∈ candidates_of p indexes ->
  cand_def c ∈ indexes /\ consume p (tuple_of (cand_def c)) = (cand_keys c, cand_tail c) /\
  (cand_tail c = None -> cand_keys c <> []).
Proof.
  unfold candidates_of. intros (o & Ho & Ec)%list_elem_of_omap. destruct o as [c'|]; [|done]. injection Ec as ->.
  apply list_elem_of_lookup_1 in Ho as (i & Hi). rewrite list_lookup_imap in Hi.
  destruct (indexes !! i) as [def|] eqn:Ed; [|done]. injection Hi as Hi. unfold candidate_of in Hi.
  destruct (consume p (tuple_of def)) as [keys tail] eqn:Ek.
  destruct (Nat.eqb_spec (length keys + match tail with Some _ => 1 | None => 0 end) 0) as [|Hn]; [done|].
  injection Hi as <-. cbn [cand_def cand_keys cand_tail]. split; [by eapply list_elem_of_lookup_2|].
  split; [done|]. intros -> ->. by apply Hn.
Qed.

Lemma candidates_of_intro p indexes def i keys tail : indexes !! i = Some def ->
  consume p (tuple_of def) = (keys, tail) -> (tail = None -> keys <> []) ->
  exists c, c ∈ candidates_of p indexes /\ cand_def c = def.
Proof.
  intros Hi Hk Hne. exists (Cand def i (length keys + match tail with Some _ => 1 | None => 0 end) keys tail).
  split; [|done]. unfold candidates_of. apply list_elem_of_omap. eexists (Some _). split; [|done].
  apply list_elem_of_lookup_2 with i. rewrite list_lookup_imap, Hi. cbn [fmap option_fmap option_map]. f_equal.
  unfold candidate_of. rewrite Hk. destruct tail; cbn beta iota.
  - by rewrite (proj2 (Nat.eqb_neq _ _)) by lia.
  - destruct keys; [by destruct Hne|]. done.
Qed.

Lemma least_spec first others : let b := least first others in
  b ∈ first :: others /\ Forall (fun c => b.1 <= c.1) (first :: others).
Proof.
  unfold least. revert first. induction others as [|c others IH]; intros first; cbn [foldl].
  { split; [by left|]. constructor; [lia|constructor]. }
  set (b := if compare_candidates c first <? 0 then c else first). destruct (IH b) as [Hin Hle].
  assert (Hb : b.1 <= c.1 /\ b.1 <= first.1 /\ (b = c \/ b = first)).
  { subst b. destruct (Z.ltb_spec (compare_candidates c first) 0) as [H|H]; unfold compare_candidates in H;
      (destruct (Z.eqb_spec c.1 first.1) as [E|]; cbn [negb] in H; [rewrite E|]; split_and!; (lia || tauto)). }
  destruct Hb as (H1 & H2 & Hb). inversion Hle as [|?? Hb' Hrest]; subst. split.
  - apply elem_of_cons in Hin as [->|Hin]; [destruct Hb as [->| ->]; [by right; left|by left]|by right; right].
  - constructor; [lia|]. constructor; [lia|done].
Qed.

Lemma rank_all_elem mixed_lt wire cs ranked : rank_all mixed_lt wire cs = inr ranked ->
  ranked.*2 = cs /\ Forall (fun rc => rank mixed_lt wire rc.2 = inr rc.1) ranked.
Proof.
  revert ranked. induction cs as [|c cs IH]; intros ranked; cbn [rank_all]; [by intros [= <-]|].
  destruct (rank mixed_lt wire c) as [e|r] eqn:Er; cbn [rbind]; [done|].
  destruct (rank_all mixed_lt wire cs) as [e|rest]; cbn [rbind]; [done|]. intros [= <-].
  destruct (IH _ eq_refl) as [<- Hall]. split; [done|]. by constructor.
Qed.

(** An index whose entries include every document the query accepts. *)
Definition complete_for (mixed_lt : jsval -> jsval -> bool) (wire : PredicateWire) (def : IndexDefinition) : Prop :=
  match index_predicate def with None => True | Some p => predicateImplies mixed_lt p wire = inr true end.

Lemma rank_complete mixed_lt wire c r : rank mixed_lt wire c = inr r ->
  r <= 1 <-> complete_for mixed_lt wire (cand_def c).
Proof.
  unfold rank, complete_for. destruct (index_predicate (cand_def c)) as [p|]; [|intros [= <-]; split; (done || lia)].
  destruct (predicateImplies mixed_lt p wire) as [e|[|]]; cbn [rbind]; [done|intros [= <-]; split; (done || lia)..].
Qed.

Lemma best_candidate_spec mixed_lt wire cs b : best_candidate mixed_lt wire cs = inr (Some b) ->
  b ∈ cs /\ ((exists c, c ∈ cs /\ complete_for mixed_lt wire (cand_def c)) -> complete_for mixed_lt wire (cand_def b)).
Proof.
  unfold best_candidate. destruct cs as [|c [|c' cs]]; [done| |].
  { intros [= <-]. split; [by left|]. intros (x & ->%list_elem_of_singleton & Hx). exact Hx. }
  generalize (c :: c' :: cs) as l. clear c c' cs. intros cs.
  destruct (rank_all mixed_lt wire cs) as [e|ranked] eqn:Er; cbn [rbind]; [done|].
  apply rank_all_elem in Er as [<- Hall]. destruct ranked as [|first others]; [done|]. intros [= <-].
  destruct (least_spec first others) as [Hin Hle]. cbn zeta in *. set (b := least first others) in *.
  split; [apply list_elem_of_fmap; by exists b|]. intros (c & (rc & -> & Hrc)%list_elem_of_fmap & Hc).
  rewrite Forall_forall in Hall, Hle. eapply rank_complete in Hc; [|by apply Hall].
  eapply rank_complete; [by apply Hall|]. specialize (Hle _ Hrc). lia.
Qed.

Lemma plan_of_spec b plan : plan_of b = IndexWalk plan ->
  indexName plan = index_name (cand_def b) /\ equalityKeys plan = cand_keys b /\
  match cand_tail b with
  | Some (tail_range f i) => rangeOn plan = Some (f, i) /\ inOn plan = None
  | Some (tail_in f vs) => rangeOn plan = None /\ inOn plan = Some (f, vs) /\ (length vs <= IN_FANOUT_THRESHOLD)%nat
  | None => rangeOn plan = None /\ inOn plan = None
  end.
Proof.
  unfold plan_of. destruct (cand_tail b) as [[f i|f vs]|]; [by intros [= <-]| |by intros [= <-]].
  destruct (Nat.ltb_spec IN_FANOUT_THRESHOLD (length vs)); [done|]. by intros [= <-].
Qed.

(** What [x] is in the index entries a plan reads: the fields the plan consumes, in the
    order of the index, and the constraint each puts on the value there. *)
Record plan_reads (def : IndexDefinition) (plan : IndexWalkPlan) (value : jsstr -> jsval) : Prop := {
  reads_name : indexName plan = index_name def;
  reads_keys : exists pre post, tuple_of def = pre ++ post /\ value <$> pre = equalityKeys plan /\
    match rangeOn plan, inOn plan with
    | Some (f, i), None => head post = Some f /\ range_ok i /\ within_range (value f) i
    | None, Some (f, vs) => head post = Some f /\ Forall operand_ok vs /\ value f ∈ vs /\
                            (length vs <= IN_FANOUT_THRESHOLD)%nat
    | None, None => pre <> []
    | Some _, Some _ => False
    end;
  reads_operands : Forall operand_ok (equalityKeys plan)
}.

Lemma planQuery_candidate mixed_lt wire indexes plan : planQuery mixed_lt (Some wire) indexes = inr (IndexWalk plan) ->
  exists b, best_candidate mixed_lt wire (candidates_of (part_wire mixed_lt wire) indexes) = inr (Some b) /\
    plan_of b = IndexWalk plan.
Proof.
  unfold planQuery. destruct wire as [|c w]; [done|]. destruct indexes as [|d ds]; [done|]. case_match; [done|].
  destruct (best_candidate _ _ _) as [e|[b|]]; cbn [rbind]; [done| |done]. intros [= Hb]. by exists b.
Qed.

(** The walk can consume a field of the index. *)
Definition fits (mixed_lt : jsval -> jsval -> bool) (wire : PredicateWire) (def : IndexDefinition) : Prop :=
  consume (part_wire mixed_lt wire) (tuple_of def) <> ([], None).

(** The operands of a plan, whatever the documents. *)
Definition plan_operands (plan : IndexWalkPlan) : Prop :=
  Forall operand_ok (equalityKeys plan) /\ (forall f i, rangeOn plan = Some (f, i) -> range_ok i) /\
  (forall f vs, inOn plan = Some (f, vs) -> Forall operand_ok vs).

Lemma candidate_operands mixed_lt wire indexes b plan : Forall routable_clause wire ->
  b ∈ candidates_of (part_wire mixed_lt wire) indexes -> plan_of b = IndexWalk plan -> plan_operands plan.
Proof.
  intros Hr Hin Hp. apply candidates_of_elem in Hin as (_ & Hc & _). apply plan_of_spec in Hp as (_ & Hk & Ht).
  apply consume_spec in Hc as (pre & post & _ & Hpre & Htail). destruct (part_wire_operands mixed_lt wire Hr) as (HE & HR & HI).
  split; [|split].
  - rewrite Hk. clear -Hpre HE. induction Hpre as [|f k pre keys [Hf _] _ IH]; constructor; [by eapply HE|done].
  - intros f i Hi. destruct (cand_tail b) as [[f' i'|f' vs]|]; [|by rewrite (proj1 Ht) in Hi..].
    destruct Ht as [E _], Htail as [_ Hf]. rewrite E in Hi. injection Hi as <- <-. by eapply HR.
  - intros f vs Hi. destruct (cand_tail b) as [[f' i'|f' vs']|]; [by rewrite (proj2 Ht) in Hi| |by rewrite (proj2 Ht) in Hi].
    destruct Ht as (_ & E & _), Htail as [_ Hf]. rewrite E in Hi. injection Hi as <- <-. by eapply HI.
Qed.

Lemma candidate_reads mixed_lt wire indexes b plan doc : Forall routable_clause wire ->
  b ∈ candidates_of (part_wire mixed_lt wire) indexes -> plan_of b = IndexWalk plan ->
  matchesWire wire doc = Some true -> plan_reads (cand_def b) plan (lookupPath doc).
Proof.
  intros Hr Hin Hp Hm. destruct (candidate_operands mixed_lt wire indexes b plan Hr Hin Hp) as (Hops & Hrng & Hins).
  apply candidates_of_elem in Hin as (Hd & Hc & Hne).
  apply plan_of_spec in Hp as (Hn & Hk & Ht). apply consume_spec in Hc as (pre & post & Etup & Hpre & Htail).
  destruct (part_wire_holds mixed_lt wire doc Hr Hm) as (HE & HR & HI).
  assert (Hval : lookupPath doc <$> pre = cand_keys b).
  { clear -Hpre HE. induction Hpre as [|f k pre keys [Hf _] _ IH]; [done|]. by rewrite fmap_cons, IH, (HE _ _ Hf). }
  split; [done| |done]. exists pre, post. split; [done|]. rewrite Hk. split; [done|].
  destruct (cand_tail b) as [[f i|f vs]|].
  - destruct Ht as [Er ->], Htail as [Hh Hf]. rewrite Er. split; [done|]. split; [by eapply Hrng|by eapply HR].
  - destruct Ht as (-> & Ei & Hlen), Htail as [Hh Hf]. rewrite Ei. split_and!; [done|by eapply Hins|by eapply HI|done].
  - destruct Ht as [-> ->]. intros ->. apply Hne; [done|]. by rewrite <- Hval.
Qed.

Lemma planQuery_operands mixed_lt wire indexes plan : Forall routable_clause wire ->
  planQuery mixed_lt (Some wire) indexes = inr (IndexWalk plan) -> plan_operands plan.
Proof.
  intros Hr (b & Hb & Hp)%planQuery_candidate. apply best_candidate_spec in Hb as [Hin _]. by eapply candidate_operands.
Qed.

Lemma planQuery_index mixed_lt wire indexes plan : Forall routable_clause wire ->
  planQuery mixed_lt (Some wire) indexes = inr (IndexWalk plan) ->
  exists def, def ∈ indexes /\
    (forall doc, matchesWire wire doc = Some true -> plan_reads def plan (lookupPath doc)) /\
    ((exists d, d ∈ indexes /\ fits mixed_lt wire d /\ complete_for mixed_lt wire d) ->
     complete_for mixed_lt wire def).
Proof.
  intros Hr (b & Hb & Hp)%planQuery_candidate. apply best_candidate_spec in Hb as [Hin Hbest]. exists (cand_def b).
  split; [by apply candidates_of_elem in Hin as [? _]|]. split; [intros doc; by eapply candidate_reads|].
  intros (d & [i Hi]%list_elem_of_lookup_1 & Hf & Hc). apply Hbest. unfold fits in Hf.
  destruct (consume (part_wire mixed_lt wire) (tuple_of d)) as [keys tail] eqn:Ek.
  destruct (candidates_of_intro _ _ _ _ _ _ Hi Ek) as (c & Hcin & <-); [|by exists c].
  intros -> ->. by apply Hf.
Qed.

(** ** Theorems *)

(** C18: The planner routes a query of scalar operands soundly: the index it chooses is declared, every field the plan
    consumes constrains the documents the wire accepts exactly as the plan says (equality
    values left to right, then one range or [in] set of at most fifty values), and whenever
    some index that fits holds every document the query can match (it is unfiltered, or the
    query implies its filter), the chosen one does. *)
Theorem planQuery_routes_soundly mixed_lt wire indexes plan : Forall routable_clause wire ->
  planQuery mixed_lt (Some wire) indexes = inr (IndexWalk plan) ->
  exists def, def ∈ indexes /\
    (forall doc, matchesWire wire doc = Some true -> plan_reads def plan (lookupPath doc)) /\
    ((exists d, d ∈ indexes /\ fits mixed_lt wire d /\ complete_for mixed_lt wire d) ->
     complete_for mixed_lt wire def).
Proof. apply planQuery_index. Qed.

Definition sample_query : PredicateWire :=
  [Clause op_eq (js "status") (JStr (js "open")); Clause op_gt (js "n") (JNum (num_of_Z 3))].

Definition sample_indexes : list IndexDefinition :=
  [IndexDef (js "by_n") (on_field (js "n")) None;
   IndexDef (js "open_by_n") (on_fields [js "status"; js "n"]) (Some [Clause op_eq (js "status") (JStr (js "open"))])].

Definition sample_plan : IndexWalkPlan :=
  WalkPlan (js "open_by_n") [JStr (js "open")]
    (Some (js "n", RangeOp (JNum (num_of_Z 3)) JUndef false false)) None.

Lemma sample_query_routable : Forall routable_clause sample_query.
Proof. repeat constructor; vm_compute; repeat constructor. Qed.

Lemma planQuery_routes_soundly_witness :
  planQuery (fun _ _ => false) (Some sample_query) sample_indexes = inr (IndexWalk sample_plan) /\
  exists def, def ∈ sample_indexes /\
    forall doc, matchesWire sample_query doc = Some true -> plan_reads def sample_plan (lookupPath doc).
Proof.
  split; [vm_compute; reflexivity|].
  destruct (planQuery_routes_soundly (fun _ _ => false) sample_query sample_indexes sample_plan) as (def & Hd & Hr & _).
  - apply sample_query_routable.
  - vm_compute. reflexivity.
  - exists def. split; [exact Hd|exact Hr].
Defined.

(** With no complete index to choose, the planner still routes through a filtered one,
    whose entries leave out documents the query accepts. *)
Lemma planQuery_unimplied_filter json_octets mixed_lt :
  let def := IndexDef (js "open_by_a") (on_field (js "a")) (Some [Clause op_eq (js "status") (JStr (js "open"))]) in
  let wire := [Clause op_eq (js "a") (JStr (js "x"))] in
  let doc := [(js "a", JStr (js "x")); (js "status", JStr (js "closed"))] in
  planQuery mixed_lt (Some wire) [def] = inr (IndexWalk (WalkPlan (js "open_by_a") [JStr (js "x")] None None)) /\
  matchesWire wire doc = Some true /\ index_keys_of json_octets (js "p") def (JObj doc) (js "d") = inr [].
Proof. repeat split; vm_compute; reflexivity. Qed.
