(* ===== verification/IndexWalk.v ===== *)
(** * Index walks (server/src/query.ts: runIndexWalkPlan, the candidate ids)

    The three listings that collect candidate document ids from marker keys, and the
    theorem that a walk of a complete index misses no document the wire accepts. *)
From stdpp Require Import sorting.
From S2P Require Import Prelude JsText JsValue Errors Json Storage Effects Predicate Satisfiable Validate Implies IndexCodec.
From S2P Require Import Lsn CurrentJson LogWalk LogTail DocId Adoption Writer WriterSafety Indexes QueryPlanner.
Local Open Scope Z_scope.

Definition IN_FANOUT_PARALLELISM : nat := 8.

Definition RANGE_EXCLUSIVE_LOWER_SENTINEL : jsstr := js "~".

Definition dot_json : jsstr := js ".json".

(** [docIdSet.add(id)] *)
Definition set_add (id : jsstr) (ids : list jsstr) : list jsstr :=
  if bool_decide (id ∈ ids) then ids else ids ++ [id].

(** The id in the last segment of a marker's tail; [None] is skipped. *)
Definition doc_id_of_tail (tail : jsstr) : option jsstr :=
  if negb (ends_with dot_json tail) then None
  else let docId := strip_suffix dot_json (after_last slash tail) in
       if bool_decide (docId = []) then None else Some docId.

Definition tails_ids (prefix : jsstr) (entries : list StorageListEntry) : list jsstr :=
  omap (fun e => doc_id_of_tail (drop (length prefix) (entry_key e))) entries.

(** The text before the first slash; [None] without one. *)
Fixpoint first_segment (s : jsstr) : option jsstr :=
  match s with
  | [] => None
  | u :: s => if (u =? slash)%N then Some [] else cons u <$> first_segment s
  end.

Definition below_lower (lo : option jsstr) (valueSeg : jsstr) : bool :=
  match lo with Some lo => str_ltb valueSeg lo | None => false end.

Definition past_upper (hi : option jsstr) (hiInclusive : bool) (valueSeg : jsstr) : bool :=
  match hi with
  | Some hi => if hiInclusive then str_ltb hi valueSeg else str_leb hi valueSeg
  | None => false
  end.

(** The range loop over the listing. *)
Fixpoint range_ids (eqPrefix : jsstr) (lo hi : option jsstr) (hiInclusive : bool)
    (entries : list StorageListEntry) (ids : list jsstr) : list jsstr :=
  match entries with
  | [] => ids
  | e :: entries =>
    let tail := drop (length eqPrefix) (entry_key e) in
    let continue ids := range_ids eqPrefix lo hi hiInclusive entries ids in
    match first_segment tail with
    | None => continue ids
    | Some valueSeg =>
      if below_lower lo valueSeg then continue ids
      else if past_upper hi hiInclusive valueSeg then ids
      else match doc_id_of_tail tail with
           | Some docId => continue (set_add docId ids)
           | None => continue ids
           end
    end
  end.

Section walk.
Context (json_octets : bytes -> list N).

Definition encode_defined (v : jsval) : prog (option jsstr) :=
  if is_undefined v then Ret None
  else bind (of_result (encodeIndexValue json_octets v)) (fun s => Ret (Some s)).

Definition range_walk (eqPrefix : jsstr) (r : RangeOpInfo) : prog (list jsstr) :=
  bind (encode_defined (r_lo r)) (fun loEncoded =>
  bind (encode_defined (r_hi r)) (fun hiEncoded =>
  let startAfter := match loEncoded with
                    | Some lo => if loInclusive r then None
                                 else Some (eqPrefix ++ lo ++ js "/" ++ RANGE_EXCLUSIVE_LOWER_SENTINEL)
                    | None => None
                    end in
  bind (storage_list eqPrefix startAfter None) (fun entries =>
  Ret (range_ids eqPrefix loEncoded hiEncoded (hiInclusive r) entries [])))).

Definition walkOne (eqPrefix : jsstr) (value : jsval) : prog (list jsstr) :=
  bind (of_result (encodeIndexValue json_octets value)) (fun s =>
  let valPrefix := eqPrefix ++ s ++ js "/" in
  bind (storage_list valPrefix None None) (fun entries => Ret (tails_ids valPrefix entries))).

(** The loop over batches; [fuel] counts them. *)
Fixpoint in_walk (fuel : nat) (eqPrefix : jsstr) (values : list jsval) (ids : list jsstr) : prog (list jsstr) :=
  match fuel, values with
  | O, _ | _, [] => Ret ids
  | S fuel, _ =>
    bind (promise_all (take IN_FANOUT_PARALLELISM values) (walkOne eqPrefix)) (fun results =>
    in_walk fuel eqPrefix (drop IN_FANOUT_PARALLELISM values) (foldl (fun ids id => set_add id ids) ids (mjoin results)))
  end.

Definition equality_prefix (collectionPrefix : jsstr) (name : jsstr) (segments : list jsstr) : jsstr :=
  match segments with
  | [] => collectionPrefix ++ js "/index/" ++ name ++ js "/"
  | _ => collectionPrefix ++ js "/index/" ++ name ++ js "/" ++ join_with (js "/") segments ++ js "/"
  end.

(** The candidate ids of a plan. *)
Definition walk_ids (collectionPrefix : jsstr) (plan : IndexWalkPlan) : prog (list jsstr) :=
  bind (of_result (encode_segments json_octets (equalityKeys plan))) (fun encodedSegments =>
  let eqPrefix := equality_prefix collectionPrefix (indexName plan) encodedSegments in
  match rangeOn plan, inOn plan with
  | Some (_, r), _ => range_walk eqPrefix r
  | None, Some (_, values) => in_walk (length values) eqPrefix values []
  | None, None =>
    bind (storage_list eqPrefix None None) (fun entries =>
    Ret (foldl (fun ids id => set_add id ids) [] (tails_ids eqPrefix entries)))
  end).
End walk.

(** ** Marker keys as paths *)

(** A path: every segment followed by a slash. *)
Definition path (segs : list jsstr) : jsstr := mjoin ((fun s => s ++ js "/") <$> segs).

Lemma path_cons s segs : path (s :: segs) = s ++ js "/" ++ path segs.
Proof. unfold path. rewrite fmap_cons, mjoin_cons. by rewrite <- app_assoc. Qed.

Lemma path_app a b : path (a ++ b) = path a ++ path b.
Proof. unfold path. by rewrite fmap_app, join_app. Qed.

Lemma join_path segs : segs <> [] -> join_with (js "/") segs ++ js "/" = path segs.
Proof.
  induction segs as [|s [|s' segs] IH]; [done| |]; intros _.
  - rewrite path_cons. by rewrite app_nil_r.
  - rewrite path_cons, <- IH by done. cbn [join_with]. by rewrite <- !app_assoc.
Qed.

Lemma equality_prefix_path p name segs : equality_prefix p name segs = indexKeyPrefix p name ++ path segs.
Proof.
  unfold equality_prefix, indexKeyPrefix. destruct segs as [|s segs]; [by rewrite app_nil_r|].
  rewrite <- join_path by done. by rewrite <- !app_assoc.
Qed.

(** The marker of one document. *)
Definition marker (p name : jsstr) (segs : list jsstr) (docId : jsstr) : jsstr :=
  indexKeyPrefix p name ++ path segs ++ docId ++ dot_json.

Lemma index_key_marker p def segs docId : segs <> [] ->
  indexKeyPrefix p (index_name def) ++ join_with (js "/") segs ++ js "/" ++ docId ++ js ".json" =
  marker p (index_name def) segs docId.
Proof. intros Hne. unfold marker. rewrite <- join_path by done. by rewrite <- !app_assoc. Qed.

Definition slash_free (s : jsstr) : Prop := slash ∉ s.

Lemma first_segment_app s t : slash_free s -> first_segment (s ++ js "/" ++ t) = Some s.
Proof.
  induction s as [|u s IH]; intros Hs; [done|]. unfold slash_free in Hs. rewrite not_elem_of_cons in Hs. destruct Hs as [Hu Hs].
  cbn [app first_segment]. rewrite (proj2 (N.eqb_neq _ _)) by congruence. by rewrite (IH Hs).
Qed.

Lemma after_last_none s : slash_free s -> after_last slash s = s.
Proof. intros Hs. unfold after_last. by rewrite split_on_no_sep. Qed.

Lemma dot_json_slash_free : slash_free dot_json.
Proof. unfold slash_free. js_decide. Qed.

Lemma doc_id_of_path segs docId : slash_free docId -> docId <> [] ->
  doc_id_of_tail (path segs ++ docId ++ dot_json) = Some docId.
Proof.
  intros Hs Hne. unfold doc_id_of_tail. rewrite app_assoc, ends_with_app, <- app_assoc. cbn [negb].
  assert (Hlast : after_last slash (path segs ++ docId ++ dot_json) = docId ++ dot_json).
  { assert (Hf : slash_free (docId ++ dot_json)).
    { unfold slash_free. rewrite elem_of_app. intros [?|?]; [done|by apply dot_json_slash_free]. }
    destruct segs as [|s segs] using rev_ind; [by apply after_last_none|].
    rewrite path_app, path_cons. change (path []) with (@nil N). rewrite app_nil_r.
    rewrite <- !app_assoc. rewrite (app_assoc (path segs)). apply (after_last_app slash (path segs ++ s)). exact Hf. }
  rewrite Hlast, strip_suffix_app. by rewrite bool_decide_eq_false_2.
Qed.

(** A path is the beginning of another only if its segments are. *)
Lemma path_prefix a b t u : Forall slash_free a -> Forall slash_free b -> (length a <= length b)%nat ->
  path b ++ t = path a ++ u -> exists c, b = a ++ c.
Proof.
  intros Ha. revert b. induction Ha as [|s a Hs _ IH]; intros b Hb Hl E; [by exists b|].
  destruct Hb as [|s' b Hs' Hb]; [cbn in Hl; lia|]. rewrite !path_cons, <- !app_assoc in E.
  assert (s' = s) as ->.
  { assert (Some s' = Some s) as [= ?]; [|done].
    rewrite <- (first_segment_app s' (path b ++ t)), <- (first_segment_app s (path a ++ u)) by done. by rewrite E. }
  apply app_inv_head in E. apply app_inv_head in E. destruct (IH b Hb ltac:(cbn in Hl; lia) E) as [c ->]. by exists c.
Qed.

(** ** Segments *)

(** The units of a base-32 segment sort above the slash. *)
Definition segment_unit (u : N) : Prop := (48 <= u < 128)%N.

Lemma b32_char_unit z : segment_unit (b32_char z).
Proof.
  unfold b32_char, segment_unit, digit_unit. pose proof (Z.land_ones z 5 ltac:(lia)) as E. change (Z.ones 5) with 31 in E.
  rewrite E. pose proof (Z.mod_pos_bound z 32 ltac:(lia)) as H. change (2 ^ 5) with 32.
  destruct (N.ltb_spec (Z.to_N (z mod 32)) 10); lia.
Qed.

Lemma b32_emit_units fuel value bits : Forall segment_unit (b32_emit fuel value bits).1.
Proof.
  revert bits. induction fuel as [|fuel IH]; intros bits; cbn [b32_emit]; [constructor|].
  destruct (5 <=? bits); [|constructor]. specialize (IH (bits - 5)).
  destruct (b32_emit fuel value (bits - 5)) as [out rest]. constructor; [apply b32_char_unit|exact IH].
Qed.

Lemma b32_loop_units bs value bits : Forall segment_unit (b32_loop bs value bits).
Proof.
  revert value bits. induction bs as [|b bs IH]; intros value bits; cbn [b32_loop].
  - destruct (0 <? bits); repeat constructor; apply b32_char_unit.
  - set (v := Z.lor _ _). pose proof (b32_emit_units 3 v (bits + 8)) as He.
    destruct (b32_emit 3 v (bits + 8)) as [out rest]. by apply Forall_app.
Qed.

Lemma segment_units json_octets v s : encodeIndexValue json_octets v = inr s -> Forall segment_unit s.
Proof.
  unfold encodeIndexValue. destruct (encodeBytes json_octets v); cbn [rbind]; [done|]. intros [= <-]. apply b32_loop_units.
Qed.

Lemma segment_slash_free s : Forall segment_unit s -> slash_free s.
Proof. intros Hs Hin. rewrite Forall_forall in Hs. apply Hs in Hin. unfold segment_unit, slash in Hin. lia. Qed.

Lemma encode_segments_spec json_octets values segs : encode_segments json_octets values = inr segs ->
  Forall2 (fun v s => encodeIndexValue json_octets v = inr s) values segs.
Proof.
  revert segs. induction values as [|v values IH]; intros segs; cbn [encode_segments]; [intros [= <-]; constructor|].
  destruct (encodeIndexValue json_octets v) as [e|s] eqn:Es; cbn [rbind]; [done|].
  destruct (encode_segments json_octets values) as [e|rest]; cbn [rbind]; [done|]. intros [= <-].
  constructor; [done|by apply IH].
Qed.

Lemma encode_segments_app json_octets a b segs : encode_segments json_octets (a ++ b) = inr segs ->
  exists sa sb, segs = sa ++ sb /\ encode_segments json_octets a = inr sa /\ encode_segments json_octets b = inr sb.
Proof.
  revert segs. induction a as [|v a IH]; intros segs; [by exists [], segs|]. cbn [app encode_segments].
  destruct (encodeIndexValue json_octets v) as [e|s]; cbn [rbind]; [done|].
  destruct (encode_segments json_octets (a ++ b)) as [e|rest]; cbn [rbind]; [done|]. intros [= <-].
  destruct (IH rest eq_refl) as (sa & sb & -> & Ea & Eb). exists (s :: sa), sb. rewrite Ea. by cbn [rbind].
Qed.

Lemma encoded_slash_free json_octets values segs : encode_segments json_octets values = inr segs -> Forall slash_free segs.
Proof.
  intros H%encode_segments_spec. apply Forall_forall. intros s (i & Hi)%list_elem_of_lookup_1.
  destruct (Forall2_lookup_r _ _ _ _ _ H Hi) as (v & _ & Hv). by eapply segment_slash_free, segment_units.
Qed.

(** ** Order of the keys under an equality prefix *)

Lemma str_ltb_slash a b x y : Forall segment_unit a -> Forall segment_unit b -> str_ltb a b = true ->
  str_ltb (a ++ js "/" ++ x) (b ++ js "/" ++ y) = true.
Proof.
  intros Ha. revert b. induction Ha as [|u a Hu _ IH]; intros b Hb Hab.
  - destruct Hb as [|v b Hv _]; [done|]. apply str_ltb_cons. left. unfold segment_unit in Hv.
    change (N_of_ascii "/"%char) with 47%N. lia.
  - destruct Hb as [|v b Hv Hb]; [done|]. cbn [str_ltb app] in *. destruct (N.ltb_spec u v); [done|].
    destruct (N.ltb_spec v u); [done|]. by apply IH.
Qed.

Lemma utf8_segment s t : Forall segment_unit s -> utf8_encode (s ++ js "/" ++ t) = s ++ js "/" ++ utf8_encode t.
Proof.
  intros Hs. rewrite !app_assoc, utf8_encode_ascii; [done|]. apply Forall_app. split; [|by repeat constructor].
  eapply Forall_impl; [exact Hs|]. unfold segment_unit. lia.
Qed.

Lemma utf8_after_slash p t : utf8_encode (p ++ js "/" ++ t) = utf8_encode p ++ js "/" ++ utf8_encode t.
Proof. apply (utf8_encode_app p slash t). reflexivity. Qed.

Lemma compare_keys_lt a b : 0 < compareKeysUtf8 b a <-> str_ltb (utf8_encode a) (utf8_encode b) = true.
Proof.
  unfold compareKeysUtf8. destruct (compare_bytes_spec (utf8_encode b) (utf8_encode a)) as [H1 H2].
  destruct (str_ltb_total (utf8_encode a) (utf8_encode b)) as [H|[H|H]].
  - split; [done|]. intros _. apply Z.nle_gt. intros Hle. apply Z.le_lteq in Hle as [Hlt|Heq].
    + apply H1 in Hlt. by rewrite (str_ltb_asym _ _ H) in Hlt.
    + apply H2 in Heq. by rewrite Heq, str_ltb_irrefl in H.
  - rewrite H, str_ltb_irrefl. assert (E : compare_bytes (utf8_encode b) (utf8_encode b) = 0) by by apply compare_bytes_spec.
    rewrite E. split; (done || lia).
  - rewrite (str_ltb_asym _ _ H). apply H1 in H. split; (done || lia).
Qed.

(** ** Running the walks *)

Lemma elem_set_add x id ids : x ∈ set_add id ids <-> x = id \/ x ∈ ids.
Proof.
  unfold set_add. case_bool_decide as H; [set_solver|]. rewrite elem_of_app, list_elem_of_singleton. tauto.
Qed.

Lemma elem_fold_add x l ids : x ∈ foldl (fun ids id => set_add id ids) ids l <-> x ∈ ids \/ x ∈ l.
Proof.
  revert ids. induction l as [|y l IH]; intros ids; cbn [foldl]; [set_solver|].
  rewrite IH, elem_set_add, elem_of_cons. tauto.
Qed.

Lemma run_list now prefix after n m :
  run now (storage_list prefix after n) m = (inr (memory_list prefix after n m), m).
Proof. done. Qed.

(** A stored marker is listed under every prefix of it, past every cursor below it. *)
Lemma marker_listed m prefix after t o : objects m !! (prefix ++ t) = Some o -> prefix ++ t <> [] ->
  (forall c, after = Some c -> 0 < compareKeysUtf8 (prefix ++ t) c) ->
  exists e, e ∈ memory_list prefix after None m /\ entry_key e = prefix ++ t.
Proof.
  intros Ho Hne Ha. exists (ListEntry (prefix ++ t) (stored_etag o)). split; [|done].
  apply in_memory_list. exists o. cbn [entry_key entry_etag]. split; [done|]. split; [done|].
  split; [apply starts_with_spec; by exists t|]. destruct after as [c|]; [by apply Ha|].
  cbn [default from_option]. unfold id. apply compare_keys_lt.
  change (utf8_encode []) with (@nil N). destruct (utf8_encode (prefix ++ t)) eqn:E; [|done].
  by apply utf8_encode_nil in E.
Qed.

Lemma tails_ids_elem m prefix segs docId o : objects m !! (prefix ++ path segs ++ docId ++ dot_json) = Some o ->
  slash_free docId -> docId <> [] ->
  docId ∈ tails_ids prefix (memory_list prefix None None m).
Proof.
  intros Ho Hs Hne. destruct (marker_listed m prefix None _ o Ho) as (e & He & Hk); [|done|].
  { intros E. apply app_nil in E as [_ E]. apply app_nil in E as [_ E]. by apply app_nil in E as [? _]. }
  unfold tails_ids. apply list_elem_of_omap. exists e. split; [done|]. rewrite Hk, drop_app_length.
  by apply doc_id_of_path.
Qed.

Lemma run_settle_all {A B} now (f : A -> prog B) (g : A -> result B) l m :
  (forall x, x ∈ l -> run now (f x) m = (g x, m)) -> run now (settle_all l f) m = (inr (g <$> l), m).
Proof.
  induction l as [|x l IH]; intros Hf; [done|]. cbn [settle_all]. rewrite run_attempt, Hf by left.
  rewrite run_bind, IH by (intros; apply Hf; by right). done.
Qed.

Lemma run_promise_all {A B} now (f : A -> prog B) (g : A -> B) l m :
  (forall x, x ∈ l -> run now (f x) m = (inr (g x), m)) -> run now (promise_all l f) m = (inr (g <$> l), m).
Proof.
  intros Hf. unfold promise_all. rewrite run_bind.
  pose proof (run_settle_all now f (fun x => inr (g x)) l m Hf) as E. rewrite E, run_of_result.
  f_equal. clear. induction l as [|x l IH]; [done|]. rewrite !fmap_cons. cbn [collect]. by rewrite IH.
Qed.

Section run_walk.
Context (json_octets : bytes -> list N) (now : Z) (m : MemoryStorage).

Lemma run_in_walk eqPrefix values : Forall (fun v => exists s, encodeIndexValue json_octets v = inr s) values ->
  forall fuel ids, (length values <= fuel)%nat ->
  exists ids', run now (in_walk json_octets fuel eqPrefix values ids) m = (inr ids', m) /\
    (forall x, x ∈ ids -> x ∈ ids') /\
    forall v s x, v ∈ values -> encodeIndexValue json_octets v = inr s ->
      x ∈ tails_ids (eqPrefix ++ s ++ js "/") (memory_list (eqPrefix ++ s ++ js "/") None None m) -> x ∈ ids'.
Proof.
  intros Hv fuel. revert values Hv. induction fuel as [|fuel IH]; intros values Hv ids Hl.
  { exists ids. destruct values; [|cbn in Hl; lia]. split; [done|]. split; [done|]. by intros v s x Hx%elem_of_nil. }
  destruct values as [|v0 values]; [exists ids; split; [done|]; split; [done|]; by intros v s x Hx%elem_of_nil|].
  set (vs := v0 :: values) in *.
  set (g v := match encodeIndexValue json_octets v with
              | inr s => tails_ids (eqPrefix ++ s ++ js "/") (memory_list (eqPrefix ++ s ++ js "/") None None m)
              | inl _ => [] end).
  destruct (IH (drop IN_FANOUT_PARALLELISM vs) ltac:(by apply Forall_drop)
    (foldl (fun ids id => set_add id ids) ids (mjoin (g <$> take IN_FANOUT_PARALLELISM vs)))) as (ids' & Hrun & Hsub & Hin).
  { rewrite length_drop. subst vs. unfold IN_FANOUT_PARALLELISM. cbn [length] in *. lia. }
  exists ids'. split; [|split].
  - subst vs. cbn [in_walk]. rewrite run_bind, (run_promise_all now (walkOne json_octets eqPrefix) g).
    { exact Hrun. }
    intros v Hin'. rewrite Forall_forall in Hv. destruct (Hv v) as [s Es]; [by eapply elem_of_take in Hin' as (i & Hi & _); eapply list_elem_of_lookup_2|].
    unfold walkOne, g. rewrite run_bind, run_of_result, Es. done.
  - intros x Hx. apply Hsub, elem_fold_add. by left.
  - intros v s x Hvin Es Hx. rewrite <- (take_drop IN_FANOUT_PARALLELISM vs) in Hvin.
    apply elem_of_app in Hvin as [Ht|Hd]; [|by eapply Hin]. apply Hsub, elem_fold_add. right.
    apply list_elem_of_join. exists (g v). split; [unfold g; by rewrite Es|]. by apply list_elem_of_fmap_2.
Qed.
End run_walk.

(** ** The range walk *)

Lemma range_ids_mono x eqPrefix lo hi inc entries : forall ids, x ∈ ids -> x ∈ range_ids eqPrefix lo hi inc entries ids.
Proof.
  induction entries as [|e entries IH]; intros ids Hx; cbn [range_ids]; [done|]. cbv zeta.
  repeat case_match; try (by apply IH); [done|]. apply IH, elem_set_add. by right.
Qed.

(** An entry within the bounds is collected when none before it is past the upper one. *)
Lemma range_ids_elem eqPrefix lo hi inc l1 e l2 seg docId :
  (forall e', e' ∈ l1 -> exists seg', first_segment (drop (length eqPrefix) (entry_key e')) = Some seg' /\
     past_upper hi inc seg' = false) ->
  first_segment (drop (length eqPrefix) (entry_key e)) = Some seg -> below_lower lo seg = false ->
  past_upper hi inc seg = false -> doc_id_of_tail (drop (length eqPrefix) (entry_key e)) = Some docId ->
  forall ids, docId ∈ range_ids eqPrefix lo hi inc (l1 ++ e :: l2) ids.
Proof.
  intros Hl1 Hs Hlo Hhi Hd. induction l1 as [|e1 l1 IH]; intros ids; cbn [app range_ids]; cbv zeta.
  - rewrite Hs, Hlo, Hhi, Hd. apply range_ids_mono, elem_set_add. by left.
  - destruct (Hl1 e1 ltac:(left)) as (seg' & -> & ->).
    assert (IH' : forall ids, docId ∈ range_ids eqPrefix lo hi inc (l1 ++ e :: l2) ids).
    { apply IH. intros e' He'. apply Hl1. by right. }
    destruct (below_lower lo seg'); [apply IH'|]. case_match; apply IH'.
Qed.

Definition encoded_bound (json_octets : bytes -> list N) (v : jsval) (o : option jsstr) : Prop :=
  if is_undefined v then o = None else exists s, encodeIndexValue json_octets v = inr s /\ o = Some s.

Lemma run_encode_defined json_octets now m v o : encoded_bound json_octets v o ->
  run now (encode_defined json_octets v) m = (inr o, m).
Proof.
  unfold encoded_bound, encode_defined. destruct (is_undefined v); [by intros ->|]. intros (s & Hs & ->).
  by rewrite run_bind, run_of_result, Hs.
Qed.

Lemma past_upper_mono hi inc a b : str_ltb a b = true -> past_upper hi inc a = true -> past_upper hi inc b = true.
Proof.
  intros Hab. destruct hi as [hi|]; [|done]. cbn [past_upper]. destruct inc; intros H.
  - by eapply str_ltb_trans.
  - unfold str_leb in *. apply negb_true_iff in H. apply negb_true_iff.
    destruct (str_ltb b hi) eqn:E; [|done]. by rewrite (str_ltb_trans _ _ _ Hab E) in H.
Qed.

Lemma key_order q seg t seg' t' : Forall segment_unit seg -> Forall segment_unit seg' ->
  key_le (q ++ js "/" ++ seg ++ js "/" ++ t) (q ++ js "/" ++ seg' ++ js "/" ++ t') -> str_ltb seg' seg = false.
Proof.
  intros Hs Hs' Hle. destruct (str_ltb seg' seg) eqn:E; [|done]. exfalso.
  apply key_le_str_leb in Hle. unfold str_leb in Hle. apply negb_true_iff in Hle.
  rewrite !(utf8_after_slash q), !utf8_segment, !str_ltb_app_l in Hle by done.
  by rewrite (str_ltb_slash seg' seg) in Hle.
Qed.

Lemma run_range_walk json_octets now m q r lo hi seg t docId o :
  let eqPrefix := q ++ js "/" in
  encoded_bound json_octets (r_lo r) lo -> encoded_bound json_octets (r_hi r) hi ->
  objects m !! (eqPrefix ++ seg ++ js "/" ++ t) = Some o -> Forall segment_unit seg ->
  below_lower lo seg = false -> (forall l, lo = Some l -> loInclusive r = false -> str_ltb l seg = true /\ Forall segment_unit l) ->
  past_upper hi (hiInclusive r) seg = false ->
  (forall k, is_Some (objects m !! k) -> starts_with eqPrefix k = true ->
     exists seg' t', k = eqPrefix ++ seg' ++ js "/" ++ t' /\ Forall segment_unit seg') ->
  doc_id_of_tail (seg ++ js "/" ++ t) = Some docId ->
  exists ids, run now (range_walk json_octets eqPrefix r) m = (inr ids, m) /\ docId ∈ ids.
Proof.
  intros eqPrefix Hlo Hhi Ho Hseg Hnb Hex Hnp Hkeys Hdoc.
  set (after := match lo with Some lo => if loInclusive r then None
    else Some (eqPrefix ++ lo ++ js "/" ++ RANGE_EXCLUSIVE_LOWER_SENTINEL) | None => None end).
  exists (range_ids eqPrefix lo hi (hiInclusive r) (memory_list eqPrefix after None m) []). split.
  { unfold range_walk. rewrite run_bind, (run_encode_defined _ _ _ _ lo), run_bind, (run_encode_defined _ _ _ _ hi) by done.
    rewrite run_bind. fold after. by rewrite run_list. }
  destruct (marker_listed m eqPrefix after _ o Ho) as (e & He & Hk).
  { subst eqPrefix. destruct q; discriminate. }
  { intros c Hc. subst after. destruct lo as [l|]; [|done]. destruct (loInclusive r); [done|].
    assert (c = eqPrefix ++ l ++ js "/" ++ RANGE_EXCLUSIVE_LOWER_SENTINEL) as -> by congruence.
    destruct (Hex l eq_refl eq_refl) as [Hlt Hl]. apply compare_keys_lt. subst eqPrefix. rewrite <- !app_assoc.
    rewrite !(utf8_after_slash q), !utf8_segment, !str_ltb_app_l by done. by apply str_ltb_slash. }
  apply list_elem_of_split in He as (l1 & l2 & El). rewrite El.
  pose proof (memory_list_sorted eqPrefix after m) as Hsort. rewrite El, fmap_app, fmap_cons in Hsort.
  apply range_ids_elem with seg; try rewrite Hk; rewrite ?drop_app_length; try done.
  - intros e' He'.
    assert (Hin : e' ∈ memory_list eqPrefix after None m) by (rewrite El; set_solver).
    apply in_memory_list in Hin as (o' & Ho' & _ & Hp & _).
    destruct (Hkeys (entry_key e') ltac:(by eexists) Hp) as (seg' & t' & Ek & Hs'). exists seg'.
    rewrite Ek, drop_app_length, first_segment_app by by apply segment_slash_free. split; [done|].
    destruct (past_upper hi (hiInclusive r) seg') eqn:Ep; [|done].
    assert (Hle : key_le (entry_key e') (entry_key e)).
    { apply StronglySorted_app_1_elem_of with (l1 := entry_key <$> l1) (l2 := entry_key e :: (entry_key <$> l2)); [done| |by left].
      by apply list_elem_of_fmap_2. }
    rewrite Ek, Hk in Hle. subst eqPrefix. rewrite <- !app_assoc in Hle. apply key_order in Hle; [|done..].
    destruct (str_ltb_total seg seg') as [H|[<-|H]]; [congruence..|].
    by rewrite (past_upper_mono _ _ _ _ H Ep) in Hnp.
  - apply first_segment_app. by apply segment_slash_free.
Qed.

(** ** The bounds of a walk *)

(** A value whose key order is the order of the predicates: no surrogate in a string. *)
Definition walk_value (v : jsval) : Prop :=
  indexable v /\ match v with JStr s => plain_text s | _ => True end.

Lemma num_leb_ltb a b : num_leb a b = true -> num_ltb b a = false.
Proof.
  unfold num_leb. intros [H|H]%orb_true_iff.
  - destruct (num_ltb b a) eqn:E; [|done]. by rewrite <- (num_ltb_irrefl a), (num_ltb_trans _ _ _ H E).
  - assert (a = b) as -> by (destruct a; [..|done]; by apply bool_decide_eq_true in H). apply num_ltb_irrefl.
Qed.

Lemma index_ltb_compare x b : walk_value x -> walk_value b ->
  (compareGT x b false = true -> index_ltb b x = true) /\ (compareGT x b true = true -> index_ltb x b = false).
Proof.
  intros [_ Hx] [_ Hb]. destruct x as [| | |n|s| | |], b as [| | |m|t| | |]; try done; cbn [compareGT index_ltb].
  - split; [done|]. apply num_leb_ltb.
  - rewrite !utf8_order_plain by done. split; [done|]. apply negb_true_iff.
Qed.

Lemma compareLT_GT x b i : compareLT x b i = compareGT b x i.
Proof. by destruct x, b. Qed.

Lemma indexable_encoded json_octets v : indexable v -> exists s, encodeIndexValue json_octets v = inr s.
Proof. intros Hv. destruct (encoded_order json_octets v v Hv Hv) as (s & _ & Hs & _). by exists s. Qed.

Lemma encoded_lt json_octets v w s t : indexable v -> indexable w ->
  encodeIndexValue json_octets v = inr s -> encodeIndexValue json_octets w = inr t -> str_ltb s t = index_ltb v w.
Proof. intros Hv Hw Hs Ht. destruct (encoded_order json_octets v w Hv Hw) as (s' & t' & Hs' & Ht' & Ho & _). congruence. Qed.

Lemma encoded_bound_exists json_octets v : bound_ok v -> exists o, encoded_bound json_octets v o /\
  (forall s, o = Some s -> is_undefined v = false /\ encodeIndexValue json_octets v = inr s).
Proof.
  intros Hv. unfold encoded_bound. destruct (is_undefined v) eqn:Eu; [exists None; split; [done|by intros s [=]]|].
  destruct Hv as [->|[[_ Hi] _]]; [done|]. destruct (indexable_encoded json_octets v Hi) as [s Hs].
  exists (Some s). split; [by exists s|]. by intros s' [= <-].
Qed.

(** A value in the range has a segment between the encoded bounds. *)
Lemma range_segment json_octets r x seg lo hi : within_range x r -> walk_value x ->
  (is_undefined (r_lo r) = false -> walk_value (r_lo r)) -> (is_undefined (r_hi r) = false -> walk_value (r_hi r)) ->
  encodeIndexValue json_octets x = inr seg ->
  (forall s, lo = Some s -> is_undefined (r_lo r) = false /\ encodeIndexValue json_octets (r_lo r) = inr s) ->
  (forall s, hi = Some s -> is_undefined (r_hi r) = false /\ encodeIndexValue json_octets (r_hi r) = inr s) ->
  below_lower lo seg = false /\ (forall l, lo = Some l -> loInclusive r = false -> str_ltb l seg = true) /\
  past_upper hi (hiInclusive r) seg = false.
Proof.
  intros [Wl Wh] Hx Hl Hh Es Hlo Hhi. split_and!.
  - destruct lo as [l|]; [|done]. destruct (Hlo l eq_refl) as [Hu El]. cbn [below_lower].
    rewrite (encoded_lt json_octets x (r_lo r)) by (done || apply Hx || by apply Hl).
    destruct (index_ltb_compare x (r_lo r) Hx (Hl Hu)) as [H1 H2]. specialize (Wl Hu).
    destruct (loInclusive r); [by apply H2|]. apply H1 in Wl.
    rewrite <- (encoded_lt json_octets x (r_lo r) seg l) by (done || apply Hx || by apply Hl).
    rewrite <- (encoded_lt json_octets (r_lo r) x l seg) in Wl by (done || apply Hx || by apply Hl). by apply str_ltb_asym.
  - intros l -> Hi. destruct (Hlo l eq_refl) as [Hu El]. specialize (Wl Hu). rewrite Hi in Wl.
    rewrite (encoded_lt json_octets (r_lo r) x) by (done || apply Hx || by apply Hl). by apply index_ltb_compare; auto.
  - destruct hi as [h|]; [|done]. destruct (Hhi h eq_refl) as [Hu Eh]. cbn [past_upper]. specialize (Wh Hu).
    rewrite compareLT_GT in Wh. destruct (index_ltb_compare (r_hi r) x (Hh Hu) Hx) as [H1 H2]. unfold str_leb.
    rewrite (encoded_lt json_octets (r_hi r) x) by (done || apply Hx || by apply Hh).
    rewrite (encoded_lt json_octets x (r_hi r)) by (done || apply Hx || by apply Hh).
    destruct (hiInclusive r); [by apply H2|]. by rewrite H1.
Qed.

(** ** Completeness of a walk *)

Section complete.
Context (json_octets : bytes -> list N) (now : Z) (m : MemoryStorage) (p : jsstr).

(** Nothing but markers of the definition is stored under its prefix. *)
Definition markers_only (def : IndexDefinition) : Prop := forall k, is_Some (objects m !! k) ->
  starts_with (indexKeyPrefix p (index_name def)) k = true ->
  exists values segs docId, encode_segments json_octets values = inr segs /\ length values = length (tuple_of def) /\
    k = marker p (index_name def) segs docId.

(** The document has every marker the writer keeps for it, and lacks no indexed field. *)
Record indexed (def : IndexDefinition) (docId : jsstr) (doc : list (jsstr * jsval)) : Prop := {
  indexed_id : slash_free docId /\ docId <> [];
  indexed_fields : Forall (fun f => js_get doc f <> JNull /\ js_get doc f <> JUndef) (tuple_of def);
  indexed_keys : exists keys, index_keys_of json_octets p def (JObj doc) docId = inr keys /\
    Forall (fun k => is_Some (objects m !! k)) keys
}.

(** The range part of a plan compares like the keys. *)
Definition plain_range (plan : IndexWalkPlan) (doc : list (jsstr * jsval)) : Prop :=
  match rangeOn plan with
  | Some (f, r) => walk_value (lookupPath doc f) /\ (is_undefined (r_lo r) = false -> walk_value (r_lo r)) /\
                   (is_undefined (r_hi r) = false -> walk_value (r_hi r))
  | None => True
  end.

Lemma project_fields_values fields doc :
  Forall (fun f => js_get doc f <> JNull /\ js_get doc f <> JUndef) fields ->
  forall o, project_fields fields doc = inr o -> o = Some (lookupPath doc <$> fields).
Proof.
  induction 1 as [|f fields [Hn Hu] _ IH]; intros o; cbn [project_fields]; [by intros [= <-]|].
  destruct (includes_unit Predicate.dot f) eqn:Ed; [done|]. rewrite fmap_cons.
  assert (lookupPath doc f = js_get doc f) as -> by (unfold lookupPath; by rewrite Ed).
  destruct (js_get doc f); try done; destruct (project_fields fields doc) as [e|o']; cbn [rbind]; try done;
    intros [= <-]; by rewrite (IH o').
Qed.

(** An accepted document of a complete index has its marker. *)
Lemma indexed_marker def docId doc : indexed def docId doc ->
  (forall w, index_predicate def = Some w -> matchesWire w doc = Some true) ->
  exists segs, encode_segments json_octets (lookupPath doc <$> tuple_of def) = inr segs /\
    (tuple_of def <> [] -> is_Some (objects m !! marker p (index_name def) segs docId)).
Proof.
  intros [_ Hf (keys & Hk & Hst)] Hw. unfold index_keys_of in Hk.
  assert (E : (let? values := projectIndexValues def (JObj doc) in
    match values with Some values => let? key := indexKeyFor json_octets p def values docId in inr [key] | None => inr [] end)%result
    = inr keys) by (destruct (index_predicate def) as [w|]; [by rewrite (Hw w) in Hk|exact Hk]).
  clear Hk. unfold projectIndexValues in E.
  destruct (project_fields (tuple_of def) doc) as [e|o] eqn:Ep; cbn [rbind] in E; [done|].
  rewrite (project_fields_values _ _ Hf _ Ep) in E. unfold indexKeyFor in E.
  destruct (encode_segments json_octets _) as [e|segs] eqn:Es; cbn [rbind] in E; [done|]. exists segs. split; [done|].
  intros Hne. assert (keys = [indexKeyPrefix p (index_name def) ++ join_with (js "/") segs ++ js "/" ++ docId ++ js ".json"]) as ->
    by (cbn [rbind] in E; congruence).
  apply Forall_cons in Hst as [Hst _]. rewrite index_key_marker in Hst; [exact Hst|].
  apply encode_segments_spec, Forall2_length in Es. rewrite length_fmap in Es. by destruct segs, (tuple_of def).
Qed.

Lemma prefix_slash def segs : exists q, indexKeyPrefix p (index_name def) ++ path segs = q ++ js "/".
Proof.
  destruct segs as [|s segs _] using rev_ind.
  - exists (p ++ js "/index/" ++ index_name def). unfold indexKeyPrefix. change (path []) with (@nil N).
    by rewrite app_nil_r, <- !app_assoc.
  - exists (indexKeyPrefix p (index_name def) ++ path segs ++ s). rewrite path_app, path_cons. change (path []) with (@nil N).
    by rewrite app_nil_r, <- !app_assoc.
Qed.

(** Under a shorter equality prefix every key goes on with a segment. *)
Lemma markers_below def sa : markers_only def -> (length sa < length (tuple_of def))%nat -> Forall slash_free sa ->
  let eqPrefix := indexKeyPrefix p (index_name def) ++ path sa in
  forall k, is_Some (objects m !! k) -> starts_with eqPrefix k = true ->
  exists seg t, k = eqPrefix ++ seg ++ js "/" ++ t /\ Forall segment_unit seg.
Proof.
  intros Hmo Hlen Hsf eqPrefix k Hk [u ->]%starts_with_spec.
  destruct (Hmo _ Hk) as (values & segs & d & Hv & Hl & Ek).
  { apply starts_with_spec. exists (path sa ++ u). subst eqPrefix. by rewrite <- app_assoc. }
  subst eqPrefix. unfold marker in Ek. rewrite <- app_assoc in Ek. apply app_inv_head in Ek.
  pose proof (encode_segments_spec _ _ _ Hv) as HF. pose proof (Forall2_length _ _ _ HF) as Hlv.
  destruct (path_prefix sa segs (d ++ dot_json) u) as [c Ec]; [done|by eapply encoded_slash_free|lia|by symmetry|].
  rewrite Ec, length_app in Hlv. destruct c as [|s' c]; [cbn in Hlv; lia|]. exists s', (path c ++ d ++ dot_json).
  split.
  - f_equal. rewrite Ec, path_app, path_cons, <- !app_assoc in Ek. by apply app_inv_head in Ek.
  - assert (Hin : s' ∈ segs) by (rewrite Ec; set_solver). apply list_elem_of_lookup_1 in Hin as [i Hi].
    destruct (Forall2_lookup_r _ _ _ _ _ HF Hi) as (v & _ & Hv'). by eapply segment_units.
Qed.

(** The walk of a plan meets the marker of every document whose values the plan reads. *)
Lemma walk_finds def plan docId doc segs : plan_reads def plan (lookupPath doc) -> markers_only def ->
  plain_range plan doc -> encode_segments json_octets (lookupPath doc <$> tuple_of def) = inr segs ->
  is_Some (objects m !! marker p (index_name def) segs docId) -> slash_free docId -> docId <> [] ->
  exists ids, run now (walk_ids json_octets p plan) m = (inr ids, m) /\ docId ∈ ids.
Proof.
  intros [Hn (pre & post & Et & Hpre & Hop) _] Hmo Hpl Es [o Ho] Hsf Hne.
  pose proof Es as Eall. rewrite Et, fmap_app, Hpre in Es. apply encode_segments_app in Es as (sa & sb & -> & Ea & Eb).
  assert (Hm : marker p (index_name def) (sa ++ sb) docId =
    (indexKeyPrefix p (index_name def) ++ path sa) ++ path sb ++ docId ++ dot_json).
  { unfold marker. by rewrite path_app, <- !app_assoc. }
  unfold walk_ids. rewrite run_bind, run_of_result, Ea. cbv zeta. rewrite equality_prefix_path, Hn.
  rewrite Hm in Ho. clear Hm. set (eqPrefix := indexKeyPrefix p (index_name def) ++ path sa) in *.
  assert (Htail : forall f, head post = Some f -> exists post' s sb', post = f :: post' /\ sb = s :: sb' /\ encodeIndexValue json_octets (lookupPath doc f) = inr s).
  { intros f Hf. destruct post as [|f' post]; [done|]. injection Hf as ->. rewrite fmap_cons in Eb.
    apply encode_segments_spec in Eb. inversion Eb; subst. by eexists post, _, _. }
  destruct (rangeOn plan) as [[f r]|] eqn:Er, (inOn plan) as [[f' vs]|] eqn:Ei; [done| | |].
  - destruct Hop as (Hf & [Rl Rh] & Hw). destruct (Htail f Hf) as (post' & s & sb' & -> & -> & Hs).
    unfold plain_range in Hpl. rewrite Er in Hpl. destruct Hpl as (Px & Pl & Ph).
    destruct (encoded_bound_exists json_octets _ Rl) as (lo & Elo & Hlo).
    destruct (encoded_bound_exists json_octets _ Rh) as (hi & Ehi & Hhi).
    destruct (range_segment json_octets r (lookupPath doc f) s lo hi) as (B1 & B2 & B3); try done.
    destruct (prefix_slash def sa) as [q Eq]. fold eqPrefix in Eq. rewrite Eq in *.
    apply (run_range_walk json_octets now m q r lo hi s (path sb' ++ docId ++ dot_json) docId o); try done.
    + rewrite path_cons, <- !app_assoc in Ho. by rewrite <- !app_assoc.
    + by eapply segment_units.
    + intros l El Hi. split; [by apply B2|]. destruct (Hlo l El) as [_ E']. by eapply segment_units.
    + intros k Hk Hst. rewrite <- Eq in *. apply (markers_below def sa); try done; [|by eapply encoded_slash_free].
      pose proof (encode_segments_spec _ _ _ Eall) as HF. apply Forall2_length in HF.
      rewrite length_fmap, length_app in HF. cbn [length] in HF. lia.
    + rewrite <- (doc_id_of_path (s :: sb') docId Hsf Hne), path_cons. by rewrite <- !app_assoc.
  - destruct Hop as (Hf & Hvs & Hx & _). destruct (Htail f' Hf) as (post' & s & sb' & -> & -> & Hs).
    destruct (run_in_walk json_octets now m eqPrefix vs) with (fuel := length vs) (ids := @nil jsstr)
      as (ids & Hrun & _ & Hin); [|done|].
    { eapply Forall_impl; [exact Hvs|]. intros v [_ Hv]. by apply indexable_encoded. }
    exists ids. split; [exact Hrun|]. eapply Hin; [exact Hx|exact Hs|]. apply (tails_ids_elem _ _ sb' _ o); [|done..].
    rewrite path_cons, <- !app_assoc in Ho. by rewrite <- !app_assoc.
  - eexists. rewrite run_bind, run_list. split; [done|]. apply elem_fold_add. right. by apply (tails_ids_elem _ _ sb _ o).
Qed.
End complete.

(** The walk of a plan with sound operands always runs. *)
Lemma encode_segments_ok json_octets values : Forall indexable values -> exists segs, encode_segments json_octets values = inr segs.
Proof.
  induction 1 as [|v values Hv _ [segs IH]]; cbn [encode_segments]; [by eexists|].
  destruct (indexable_encoded json_octets v Hv) as [s ->]. rewrite IH. by eexists.
Qed.

Lemma walk_runs json_octets now m p plan : plan_operands plan ->
  exists ids, run now (walk_ids json_octets p plan) m = (inr ids, m).
Proof.
  intros (Hops & Hrng & Hins). unfold walk_ids. rewrite run_bind, run_of_result.
  destruct (encode_segments_ok json_octets (equalityKeys plan)) as [segs ->].
  { eapply Forall_impl; [exact Hops|]. by intros v [_ Hv]. }
  cbv zeta. destruct (rangeOn plan) as [[f r]|] eqn:Er; [|destruct (inOn plan) as [[f vs]|] eqn:Ei].
  - destruct (Hrng f r eq_refl) as [Rl Rh]. destruct (encoded_bound_exists json_octets _ Rl) as (lo & Elo & _).
    destruct (encoded_bound_exists json_octets _ Rh) as (hi & Ehi & _). eexists. unfold range_walk.
    rewrite run_bind, (run_encode_defined _ _ _ _ lo), run_bind, (run_encode_defined _ _ _ _ hi), run_bind, run_list by done. done.
  - destruct (run_in_walk json_octets now m (equality_prefix p (indexName plan) segs) vs) with (fuel := length vs) (ids := @nil jsstr)
      as (ids & Hrun & _); [|done|by exists ids].
    eapply Forall_impl; [exact (Hins f vs eq_refl)|]. intros v [_ Hv]. by apply indexable_encoded.
  - eexists. by rewrite run_bind, run_list.
Qed.

(** A filter the validator accepts: of shape, and satisfiable. *)
Definition filter_ok (def : IndexDefinition) : Prop :=
  forall w, index_predicate def = Some w -> filter_shape w /\ assertWireSatisfiable w = inr tt.

(** The walk of a complete index covers the documents the wire accepts. *)
Lemma walk_covers json_octets mixed_lt now m p wire indexes plan docId doc :
  Forall routable_clause wire -> query_shape wire -> (forall d, d ∈ indexes -> filter_ok d) ->
  planQuery mixed_lt (Some wire) indexes = inr (IndexWalk plan) ->
  (exists d, d ∈ indexes /\ fits mixed_lt wire d /\ complete_for mixed_lt wire d) ->
  matchesWire wire doc = Some true -> plain_range plan doc ->
  (forall d, d ∈ indexes -> index_name d = indexName plan ->
     markers_only json_octets m p d /\ indexed json_octets m p d docId doc) ->
  exists ids, run now (walk_ids json_octets p plan) m = (inr ids, m) /\ docId ∈ ids.
Proof.
  intros Hr Hq Hfil Hplan Hex Hm Hpl Hst.
  destruct (planQuery_index mixed_lt wire indexes plan Hr Hplan) as (def & Hd & Hreads & Hc).
  specialize (Hreads doc Hm). specialize (Hc Hex). destruct (Hst def Hd) as [Hmo Hi]; [by destruct Hreads|].
  destruct (indexed_marker json_octets m p def docId doc Hi) as (segs & Es & Hk).
  { intros w Hw. destruct (Hfil def Hd w Hw) as [Hs Hsat]. unfold complete_for in Hc. rewrite Hw in Hc.
    by eapply implies_matches. }
  destruct Hi as [[Hsf Hne] _ _]. eapply walk_finds; try done. apply Hk.
  destruct Hreads as [_ (pre & post & -> & _ & Hop) _]. destruct pre as [|f pre]; [|done]. intros Hpost.
  cbn in Hpost. subst post. by destruct (rangeOn plan) as [[? ?]|], (inOn plan) as [[? ?]|];
    try destruct Hop as [? ?].
Qed.

(** C17: Routing a query loses no document, for a query of scalar operands ([in] sets of one
    type) and well-formed index filters: when some fitting index holds every document the
    query can match, the walk of the chosen plan runs, and its candidate ids include
    every document the wire accepts whose indexed fields are present and whose markers are
    stored; the range operands ordering alike as text and as keys. *)
Theorem index_walk_complete json_octets mixed_lt now m p wire indexes plan docId doc :
  Forall routable_clause wire -> query_shape wire -> (forall d, d ∈ indexes -> filter_ok d) ->
  planQuery mixed_lt (Some wire) indexes = inr (IndexWalk plan) ->
  (exists d, d ∈ indexes /\ fits mixed_lt wire d /\ complete_for mixed_lt wire d) ->
  matchesWire wire doc = Some true -> plain_range plan doc ->
  (forall d, d ∈ indexes -> index_name d = indexName plan ->
     markers_only json_octets m p d /\ indexed json_octets m p d docId doc) ->
  exists ids, run now (walk_ids json_octets p plan) m = (inr ids, m) /\ docId ∈ ids.
Proof. apply walk_covers. Qed.

Definition sample_doc : list (jsstr * jsval) := [(js "n", JNum (num_of_Z 9)); (js "status", JStr (js "open"))].

Definition sample_open : IndexDefinition :=
  IndexDef (js "open_by_n") (on_fields [js "status"; js "n"]) (Some [Clause op_eq (js "status") (JStr (js "open"))]).

(** The marker of a document, as the writer stores it. *)
Definition marker_store (json_octets : bytes -> list N) (p : jsstr) (def : IndexDefinition)
    (doc : list (jsstr * jsval)) (docId : jsstr) : MemoryStorage :=
  match index_keys_of json_octets p def (JObj doc) docId with
  | inr [key] => Memory {[key := Stored EMPTY_BODY (js "e1")]} 1
  | _ => empty_memory
  end.

Lemma marker_store_spec json_octets p def doc docId values segs : segs <> [] ->
  index_keys_of json_octets p def (JObj doc) docId =
    inr [indexKeyPrefix p (index_name def) ++ join_with (js "/") segs ++ js "/" ++ docId ++ js ".json"] ->
  encode_segments json_octets values = inr segs -> length values = length (tuple_of def) ->
  markers_only json_octets (marker_store json_octets p def doc docId) p def /\
  exists keys, index_keys_of json_octets p def (JObj doc) docId = inr keys /\
    Forall (fun k => is_Some (objects (marker_store json_octets p def doc docId) !! k)) keys.
Proof.
  intros Hne Hk Hs Hl. unfold marker_store. rewrite Hk. split.
  - intros k [o Ho]. cbn [objects] in Ho. apply lookup_singleton_Some in Ho as [<- _]. intros _. exists values, segs, docId. split; [done|]. split; [done|]. by apply index_key_marker.
  - eexists. split; [done|]. apply Forall_singleton. cbn [objects]. rewrite lookup_singleton_eq. by eexists.
Qed.

Lemma index_walk_complete_witness :
  exists ids, run 0 (walk_ids (fun _ => []) (js "p") sample_plan) (marker_store (fun _ => []) (js "p") sample_open sample_doc (js "d")) =
    (inr ids, marker_store (fun _ => []) (js "p") sample_open sample_doc (js "d")) /\ js "d" ∈ ids.
Proof.
  apply (index_walk_complete (fun _ => []) (fun _ _ => false) 0 _ (js "p") sample_query sample_indexes sample_plan (js "d") sample_doc).
  - apply sample_query_routable.
  - split; [repeat constructor|]. constructor.
  - intros d Hd w Hw. repeat (apply elem_of_cons in Hd as [->|Hd]); [done| |by apply elem_of_nil in Hd].
    injection Hw as <-. split; [|vm_compute; reflexivity]. split; [repeat constructor|]. intros f H. exfalso. apply H.
    unfold clauses_on. rewrite filter_cons, filter_nil. case_decide; reflexivity.
  - vm_compute. reflexivity.
  - exists sample_open. split; [right; left|]. split; [vm_compute; discriminate|]. vm_compute. reflexivity.
  - vm_compute. reflexivity.
  - split; [split; [vm_compute|]; done|]. split; intros _; [split; [vm_compute|]; done|]. done.
  - intros d Hd Hn. repeat (apply elem_of_cons in Hd as [->|Hd]); [discriminate Hn| |by apply elem_of_nil in Hd].
    destruct (marker_store_spec (fun _ => []) (js "p") sample_open sample_doc (js "d") [JStr (js "open"); JNum (num_of_Z 9)]
      (match encode_segments (fun _ => []) [JStr (js "open"); JNum (num_of_Z 9)] with inr s => s | inl _ => [] end)) as [H1 H2];
      [vm_compute; discriminate|vm_compute; reflexivity..|].
    split; [exact H1|]. split; [|repeat constructor; vm_compute; discriminate|exact H2].
    split; [|discriminate]. unfold slash_free. js_decide.
Defined.

(** ** Where a walk misses documents *)

(** A composite index queried on its first field alone: a document without the second
    field has no marker, yet the planner routes the query through the index. *)
Lemma partial_prefix_walk_misses json_octets mixed_lt :
  let def := IndexDef (js "by_a_b") (on_fields [js "a"; js "b"]) None in
  let wire := [Clause op_eq (js "a") (JStr (js "x"))] in
  let doc := [(js "a", JStr (js "x"))] in
  let plan := WalkPlan (js "by_a_b") [JStr (js "x")] None None in
  matchesWire wire doc = Some true /\ planQuery mixed_lt (Some wire) [def] = inr (IndexWalk plan) /\
  index_keys_of json_octets (js "p") def (JObj doc) (js "d") = inr [] /\
  run 0 (walk_ids json_octets (js "p") plan) empty_memory = (inr [], empty_memory).
Proof. split_and!; vm_compute; reflexivity. Qed.

(** An equality clause on an object accepts documents with further members, which the
    marker of the exact object does not list. *)
Lemma object_equality_walk_misses mixed_lt :
  let octets b := match b with JsonText (JObj o) => [N.of_nat (length o)] | _ => [] end in
  let def := IndexDef (js "by_a") (on_field (js "a")) None in
  let wire := [Clause op_eq (js "a") (JObj [(js "k", JNum (num_of_Z 1))])] in
  let doc := [(js "a", JObj [(js "k", JNum (num_of_Z 1)); (js "l", JNum (num_of_Z 2))])] in
  let store := marker_store octets (js "p") def doc (js "d") in
  validateWire (wire_json wire) = inr wire /\ matchesWire wire doc = Some true /\
  exists plan, planQuery mixed_lt (Some wire) [def] = inr (IndexWalk plan) /\
    (run 0 (walk_ids octets (js "p") plan) store).1 = inr [] /\
    (exists key, index_keys_of octets (js "p") def (JObj doc) (js "d") = inr [key] /\ is_Some (objects store !! key)).
Proof.
  cbv zeta. split_and!; [vm_compute; reflexivity..|]. eexists. split_and!; [vm_compute; reflexivity..|].
  eexists. split; [vm_compute; reflexivity|]. vm_compute. by eexists.
Qed.
