(* ===== verification/Capacity.v ===== *)
(** * Growth refusal at the fold ceiling (server/src/capacity.ts)

    A write that would grow a collection past what the host can fold is refused before it
    commits.  The decision projects the snapshot a fold would build, one entry at a time;
    the lemmas relate the projection to the fold itself. *)
From S2P Require Import Prelude JsText JsValue Errors Json Storage Effects Predicate Satisfiable Lsn CurrentJson LogWalk.
From S2P Require Import LogTail Snapshot DocId Adoption Writer.
Local Open Scope Z_scope.

Definition CAPACITY_BYTES_MARGIN : Z := 64.

(** [C] and [E] (server/src/maintenance.ts). *)
Record FoldCeilings := Ceilings { maxFoldBytes : Z; maxFoldRows : Z }.

Definition isFoldViable (snapshotBytes snapshotRows : Z) (c : FoldCeilings) : bool :=
  (snapshotBytes <=? maxFoldBytes c) && (snapshotRows <=? maxFoldRows c).

Definition resolveFoldCeilings (profile : option FoldCeilings) (cf_free : FoldCeilings) (maxBytes : option Z) :
    FoldCeilings :=
  let resolved := default cf_free profile in
  Ceilings (default (maxFoldBytes resolved) maxBytes) (maxFoldRows resolved).

(** [JUndef] is an absent image. *)
Record PlannedWrite := Planned {
  planned_op : Op;
  planned_docId : jsstr;
  planned_after : jsval;
  planned_before : jsval
}.

(** Sizes of the rows touched so far; [None] is an absent row.  The newest entry of a key
    comes first. *)
Abbreviation overlay_map := (list (jsval * option Z)).

Fixpoint overlay_get (k : jsval) (o : overlay_map) : option (option Z) :=
  match o with
  | [] => None
  | (k', v) :: o => if decide (k' = k) then Some v else overlay_get k o
  end.

Record SnapshotProjection := Projection {
  proj_rows : Z;
  proj_bytes : Z;
  peakRows : Z;
  peakBytes : Z;
  overlay : overlay_map
}.

Section capacity.
Context (byteLength : bytes -> Z).

(** [None]: encoding threw. *)
Definition rowBytes (docId body : jsval) : option Z :=
  (fun b => byteLength b + 1) <$> encodeJsonBytes (row_json (docId, body)).

Definition emptySnapshotBytes (collection : jsstr) : option Z :=
  byteLength <$> encodeSnapshotBody (Snapshot 0 0 collection []).

Definition isGrowth (w : PlannedWrite) : option bool :=
  match planned_op w with
  | OpI => Some true
  | OpD => Some false
  | OpU =>
    if is_undefined (planned_after w) then Some false
    else if is_undefined (planned_before w) then Some true
    else a ← rowBytes (JStr (planned_docId w)) (planned_after w);
         b ← rowBytes (JStr (planned_docId w)) (planned_before w);
         Some (b <? a)
  end.

Section projection.
Context (base : jsmap).

(** The inner [None] is [undefined]. *)
Definition sizeOf (p : SnapshotProjection) (docId : jsval) : option (option Z) :=
  match overlay_get docId (overlay p) with
  | Some known => Some known
  | None => match map_get docId base with
            | None => Some None
            | Some body => Some <$> rowBytes docId body
            end
  end.

(** [op !== "D"], and the post-image. *)
Definition addsRow (p : SnapshotProjection) (isD : bool) (docId after : jsval) : option bool :=
  if isD || is_undefined after then Some false
  else size ← sizeOf p docId; Some match size with None => true | Some _ => false end.

Definition apply (p : SnapshotProjection) (isD : bool) (docId after : jsval) : option SnapshotProjection :=
  if negb isD && is_undefined after then Some p
  else
    before ← sizeOf p docId;
    if isD then
      Some match before with
           | Some before => Projection (proj_rows p - 1) (proj_bytes p - before) (peakRows p) (peakBytes p)
                              ((docId, None) :: overlay p)
           | None => Projection (proj_rows p) (proj_bytes p) (peakRows p) (peakBytes p) ((docId, None) :: overlay p)
           end
    else
      next ← rowBytes docId after;
      let rows := match before with None => proj_rows p + 1 | Some _ => proj_rows p end in
      let bytes := proj_bytes p + (next - default 0 before) in
      Some (Projection rows bytes (Z.max (peakRows p) rows) (Z.max (peakBytes p) bytes) ((docId, Some next) :: overlay p)).

Definition projectSnapshot (head : CurrentJson) (collection : jsstr) : option SnapshotProjection :=
  startBytes ← if snapshot_bytes head =? 0 then emptySnapshotBytes collection else Some (snapshot_bytes head);
  Some (Projection (snapshot_rows head) startBytes (snapshot_rows head) startBytes []).

Definition is_op (op : string) (v : jsval) : bool := strict_eq v (JStr (js op)).

(** The pending tail; the inner [None] is the entry the fold stops at. *)
Fixpoint project_tail (maxRows : Z) (collection : jsstr) (p : SnapshotProjection) (tail : list LogEntry) :
    option (option SnapshotProjection) :=
  match tail with
  | [] => Some (Some p)
  | entry :: tail =>
    c ← prop (js "collection") entry;
    if negb (strict_eq c (JStr collection)) then project_tail maxRows collection p tail
    else
      op ← prop (js "op") entry;
      d ← prop (js "doc_id") entry;
      after ← prop (js "after") entry;
      adds ← addsRow p (is_op "D" op) d after;
      if adds && negb (proj_rows p <? maxRows) then Some None
      else p' ← apply p (is_op "D" op) d after;
           project_tail maxRows collection p' tail
  end.

(** The planned writes: whether one is refused. *)
Fixpoint refuse_writes (maxRows byteLimit : Z) (p : SnapshotProjection) (writes : list PlannedWrite) : option bool :=
  match writes with
  | [] => Some false
  | w :: writes =>
    growth ← isGrowth w;
    p' ← apply p match planned_op w with OpD => true | _ => false end (JStr (planned_docId w)) (planned_after w);
    if growth && (negb (peakRows p' <? maxRows) || negb (peakBytes p' <=? byteLimit)) then Some true
    else refuse_writes maxRows byteLimit p' writes
  end.
End projection.

(** [inl] is a throw out of the encoder; the result is the refusal, if any. *)
Definition capacityRefusal (collection : jsstr) (head : CurrentJson) (base : jsmap) (tail : list LogEntry)
    (writes : list PlannedWrite) (ceilings : FoldCeilings) : result (option js_error) :=
  let refuse := Some (new_error CapacityExceeded) in
  match writes with
  | [] => inr None
  | _ =>
    if negb (isFoldViable (snapshot_bytes head) (snapshot_rows head) ceilings) then inr refuse
    else
      match projection ← projectSnapshot head collection;
            projected ← project_tail base (maxFoldRows ceilings) collection projection tail;
            match projected with
            | None => Some true
            | Some p => refuse_writes base (maxFoldRows ceilings) (maxFoldBytes ceilings - CAPACITY_BYTES_MARGIN) p writes
            end with
      | None => inl OtherError
      | Some refused => inr (if refused : bool then refuse else None)
      end
  end.
End capacity.

(** ** Rows and bytes of a map *)

Lemma map_set_length k v m : length (map_set k v m) = (length m + match map_get k m with Some _ => 0 | None => 1 end)%nat.
Proof.
  induction m as [|[k' v'] m IH]; [done|]. cbn [map_set map_get]. destruct (decide (k' = k)); cbn [length]; [lia|].
  rewrite IH. lia.
Qed.

Lemma map_delete_cons k k' v m : map_delete k ((k', v) :: m) = if decide (k' = k) then map_delete k m else (k', v) :: map_delete k m.
Proof. unfold map_delete. rewrite filter_cons. cbn [fst]. repeat case_decide; tauto. Qed.

Lemma map_delete_absent k m : map_get k m = None -> map_delete k m = m.
Proof.
  induction m as [|[k' v'] m IH]; [done|]. cbn [map_get]. rewrite map_delete_cons. case_decide; [done|]. intros Hk. by rewrite IH.
Qed.

Section total.
Context (w : jsval -> jsval -> Z).

(** The sum of a weight over the rows. *)
Fixpoint total (m : jsmap) : Z :=
  match m with [] => 0 | (k, v) :: m => w k v + total m end.

Lemma total_set k v m : total (map_set k v m) = total m + w k v - match map_get k m with Some b => w k b | None => 0 end.
Proof.
  induction m as [|[k' v'] m IH]; cbn [map_set map_get total]; [lia|].
  destruct (decide (k' = k)) as [->|]; cbn [total]; lia.
Qed.

Lemma total_delete k m : NoDup (map_keys m) ->
  total (map_delete k m) = total m - match map_get k m with Some b => w k b | None => 0 end.
Proof.
  induction m as [|[k' v'] m IH]; intros Hnd; [done|]. cbn [map_get]. rewrite map_delete_cons.
  change (map_keys ((k', v') :: m)) with (k' :: map_keys m) in Hnd. apply NoDup_cons in Hnd as [Hk Hnd].
  case_decide as Hd; cbn [total].
  - subst k'. rewrite map_delete_absent by by apply map_get_None. lia.
  - rewrite IH by done. lia.
Qed.
End total.

Lemma map_length_total m : Z.of_nat (length m) = total (fun _ _ => 1) m.
Proof. induction m as [|[k v] m IH]; [done|]. cbn [length total]. lia. Qed.

Lemma map_get_In k v m : map_get k m = Some v -> (k, v) ∈ m.
Proof.
  induction m as [|[k' v'] m IH]; [done|]. cbn [map_get]. destruct (decide (k' = k)) as [->|].
  - intros [= ->]. by left.
  - intros H. right. by apply IH.
Qed.

(** ** The projection and the fold *)

Section spec.
Context (byteLength : bytes -> Z) (byteLength_pos : forall b, 0 <= byteLength b) (base : jsmap).

Definition size (d b : jsval) : Z := match rowBytes byteLength d b with Some n => n | None => 0 end.

Definition sized (m : jsmap) : Prop := forall d b, map_get d m = Some b -> is_Some (rowBytes byteLength d b).

(** The projection stands for the map [docs], [k] rows and [c] bytes off. *)
Record represents (k c : Z) (p : SnapshotProjection) (docs : jsmap) : Prop := {
  rep_size : forall d, sizeOf byteLength base p d =
    match map_get d docs with Some b => Some <$> rowBytes byteLength d b | None => Some None end;
  rep_rows : proj_rows p = k + Z.of_nat (length docs);
  rep_bytes : proj_bytes p = c + total size docs;
  rep_peak : proj_rows p <= peakRows p /\ proj_bytes p <= peakBytes p;
  rep_nodup : NoDup (map_keys docs);
  rep_sized : sized docs
}.

Definition peaks_le (p p' : SnapshotProjection) : Prop := peakRows p <= peakRows p' /\ peakBytes p <= peakBytes p'.

(** What a step does to the map. *)
Definition stepped (isD : bool) (d after : jsval) (docs : jsmap) : jsmap :=
  if negb isD && is_undefined after then docs else if isD then map_delete d docs else map_set d after docs.

Lemma size_pos d b : 0 <= size d b.
Proof. unfold size, rowBytes. destruct (encodeJsonBytes _) as [x|]; cbn; [|lia]. specialize (byteLength_pos x). lia. Qed.

Lemma apply_represents k c p docs isD d after : represents k c p docs ->
  (isD = false -> is_undefined after = false -> is_Some (rowBytes byteLength d after)) ->
  exists p', apply byteLength base p isD d after = Some p' /\ peaks_le p p' /\ represents k c p' (stepped isD d after docs).
Proof.
  intros [Hs Hr Hb Hp Hnd Hz] Hafter. unfold apply, stepped.
  destruct (negb isD && is_undefined after) eqn:Eu; [by exists p|]. rewrite Hs.
  assert (Hold : match map_get d docs with Some b => Some <$> rowBytes byteLength d b | None => Some None end =
    Some (size d <$> map_get d docs)).
  { destruct (map_get d docs) as [b|] eqn:Eb; [|done]. destruct (Hz d b Eb) as [z Ez]. cbn [fmap option_fmap option_map]. unfold size. by rewrite Ez. }
  rewrite Hold. cbn [mbind option_bind]. pose proof (map_length_total docs) as Hl.
  pose proof (map_length_total (map_delete d docs)) as Hld. rewrite total_delete in Hld by done.
  pose proof (total_delete size d docs Hnd) as Htd.
  destruct isD.
  - destruct (map_get d docs) as [b|] eqn:Eb; cbn [fmap option_fmap option_map];
      (eexists; split; [done|]; split; [split; cbn; lia|]); pose proof (fun b => size_pos d b) as Hsz;
      (split; cbn [proj_rows proj_bytes peakRows peakBytes]; [|try specialize (Hsz b); lia..|by apply map_delete_NoDup|]);
      intros d'; unfold sizeOf; cbn [overlay overlay_get]; rewrite map_get_delete; destruct (decide (d = d')); try done;
      try exact (Hs d'); intros b' Hb'; by apply Hz.
  - cbn in Eu. destruct (Hafter eq_refl Eu) as [next En]. rewrite En. cbn [mbind option_bind].
    pose proof (map_set_length d after docs) as Hls. pose proof (total_set size d after docs) as Hts.
    assert (Hn : size d after = next) by (unfold size; by rewrite En).
    destruct (map_get d docs) as [b|] eqn:Eb; cbn [fmap option_fmap option_map default from_option id];
      (eexists; split; [done|]; split; [split; cbn; lia|]);
      (split; cbn [proj_rows proj_bytes peakRows peakBytes]; [|lia..|by apply map_set_NoDup|]);
      intros d'; unfold sizeOf; cbn [overlay overlay_get]; rewrite map_get_set; destruct (decide (d = d')) as [<-|];
      try (by rewrite En); try exact (Hs d'); intros b' Hb'; [injection Hb' as <-; by rewrite En|by apply Hz|injection Hb' as <-; by rewrite En|by apply Hz].
Qed.

Lemma peaks_le_trans p q r : peaks_le p q -> peaks_le q r -> peaks_le p r.
Proof. unfold peaks_le. lia. Qed.

(** A map within the peaks, [k] rows and [c] bytes off. *)
Definition within_peaks (k c : Z) (p : SnapshotProjection) (docs : jsmap) : Prop :=
  k + Z.of_nat (length docs) <= peakRows p /\ c + total size docs <= peakBytes p.

Lemma represents_within k c p docs : represents k c p docs -> within_peaks k c p docs.
Proof. intros [_ Hr Hb Hp _ _]. unfold within_peaks. lia. Qed.

Lemma within_mono k c p p' docs : peaks_le p p' -> within_peaks k c p docs -> within_peaks k c p' docs.
Proof. unfold peaks_le, within_peaks. lia. Qed.

(** An entry as the log holds it: one of the three operations on a named document. *)
Definition foldable (e : LogEntry) : Prop :=
  is_object e = true /\ field (js "op") e ∈ [JStr (js "I"); JStr (js "U"); JStr (js "D")] /\
  field (js "doc_id") e <> JUndef /\
  (is_undefined (field (js "after") e) = false ->
   is_Some (rowBytes byteLength (field (js "doc_id") e) (field (js "after") e))).

Lemma foldable_step coll docs e : foldable e ->
  fold_entry coll None docs e = Some
    (if strict_eq (field (js "collection") e) (JStr coll)
     then stepped (is_op "D" (field (js "op") e)) (field (js "doc_id") e) (field (js "after") e) docs else docs).
Proof.
  intros (Ho & Hop & Hd & _). destruct e as [| | | | | |o|]; try done. rewrite !field_object in *.
  unfold fold_entry. cbn [prop mbind option_bind]. destruct (strict_eq (js_get o (js "collection")) _); cbn [negb]; [|done].
  destruct (strict_eq (js_get o (js "doc_id")) JUndef) eqn:Eu; [by apply strict_eq_JUndef in Eu|].
  unfold stepped, is_op. rewrite !elem_of_cons in Hop.
  assert (Hund : strict_eq (js_get o (js "after")) JUndef = is_undefined (js_get o (js "after")))
    by by destruct (js_get o (js "after")).
  destruct Hop as [-> |[-> |[-> |Hn%elem_of_nil]]]; [| | |done].
  - assert (strict_eq (JStr (js "I")) (JStr (js "I")) = true) as -> by reflexivity.
    assert (strict_eq (JStr (js "I")) (JStr (js "D")) = false) as -> by reflexivity. cbn [orb negb andb].
    rewrite Hund. by destruct (is_undefined _).
  - assert (strict_eq (JStr (js "U")) (JStr (js "I")) = false) as -> by reflexivity.
    assert (strict_eq (JStr (js "U")) (JStr (js "U")) = true) as -> by reflexivity.
    assert (strict_eq (JStr (js "U")) (JStr (js "D")) = false) as -> by reflexivity. cbn [orb negb andb].
    rewrite Hund. by destruct (is_undefined _).
  - assert (strict_eq (JStr (js "D")) (JStr (js "I")) = false) as -> by reflexivity.
    assert (strict_eq (JStr (js "D")) (JStr (js "U")) = false) as -> by reflexivity.
    by assert (strict_eq (JStr (js "D")) (JStr (js "D")) = true) as -> by reflexivity.
Qed.

(** A projected tail folds, and the peaks bound every prefix of it. *)
Lemma project_tail_represents k c maxRows coll tail : Forall foldable tail -> forall p docs p',
  represents k c p docs -> project_tail byteLength base maxRows coll p tail = Some (Some p') ->
  peaks_le p p' /\ (exists docs', foldLogEntriesOnto coll None tail docs = Some docs' /\ represents k c p' docs') /\
  forall n docs', foldLogEntriesOnto coll None (take n tail) docs = Some docs' -> within_peaks k c p' docs'.
Proof.
  induction 1 as [|e tail He _ IH]; intros p docs p' Hrep; cbn [project_tail foldLogEntriesOnto].
  { intros [= <-]. split; [unfold peaks_le; lia|]. split; [by exists docs|].
    intros n docs' Hf. rewrite take_nil in Hf. injection Hf as <-. by apply represents_within. }
  pose proof (foldable_step coll docs e He) as Hstep. rewrite Hstep. cbn [mbind option_bind].
  destruct He as (Ho & _ & _ & Hsz). destruct e as [| | | | | |o|]; try done. rewrite !field_object in *. cbn [prop mbind option_bind].
  assert (Hnext : forall q docs1, fold_entry coll None docs (JObj o) = Some docs1 ->
    peaks_le p q -> represents k c q docs1 -> project_tail byteLength base maxRows coll q tail = Some (Some p') ->
    peaks_le p p' /\ (exists docs', foldLogEntriesOnto coll None tail docs1 = Some docs' /\ represents k c p' docs') /\
    forall n docs', foldLogEntriesOnto coll None (take n (JObj o :: tail)) docs = Some docs' -> within_peaks k c p' docs').
  { intros q docs1 Hf1 Hpq Hq Hp. destruct (IH _ _ _ Hq Hp) as (Hle & Hex & Hall).
    pose proof (peaks_le_trans _ _ _ Hpq Hle) as Hpp. split; [done|]. split; [done|].
    intros [|n] docs'; cbn [take foldLogEntriesOnto].
    - intros [= <-]. eapply within_mono; [exact Hpp|]. by apply represents_within.
    - rewrite Hf1. cbn [mbind option_bind]. apply Hall. }
  destruct (strict_eq (js_get o (js "collection")) (JStr coll)) eqn:Ec; cbn [negb].
  - destruct (addsRow _ _ _ _ _ _) as [adds|]; cbn [mbind option_bind]; [|done].
    destruct (adds && negb (proj_rows p <? maxRows)); [done|].
    destruct (apply_represents k c p docs (is_op "D" (js_get o (js "op"))) (js_get o (js "doc_id")) (js_get o (js "after")) Hrep)
      as (q & Eq & Hpq & Hq); [by intros _|]. rewrite Eq. cbn [mbind option_bind]. intros Hp.
    eapply Hnext; [exact Hstep|exact Hpq|exact Hq|exact Hp].
  - intros Hp. apply (Hnext p docs); [exact Hstep|unfold peaks_le; lia|exact Hrep|exact Hp].
Qed.

(** What the planned writes do to the rows. *)
Definition write_row (docs : jsmap) (w : PlannedWrite) : jsmap :=
  stepped match planned_op w with OpD => true | _ => false end (JStr (planned_docId w)) (planned_after w) docs.

Definition write_rows (writes : list PlannedWrite) (docs : jsmap) : jsmap := foldl write_row docs writes.

Definition encodable (w : PlannedWrite) : Prop :=
  is_undefined (planned_after w) = false -> is_Some (rowBytes byteLength (JStr (planned_docId w)) (planned_after w)).

(** Every growing write admitted keeps the rows, at each step so far, below the limits. *)
Lemma refuse_writes_false k c maxRows byteLimit writes : Forall encodable writes -> forall p docs,
  represents k c p docs -> refuse_writes byteLength base maxRows byteLimit p writes = Some false ->
  forall ws1 w ws2, writes = ws1 ++ w :: ws2 -> isGrowth byteLength w = Some true ->
  exists q, peaks_le p q /\ peakRows q < maxRows /\ peakBytes q <= byteLimit /\
    forall n, within_peaks k c q (write_rows (take n (ws1 ++ [w])) docs).
Proof.
  induction 1 as [|w0 writes Hw0 _ IH]; intros p docs Hrep Href ws1 w ws2 E Hg; [by destruct ws1|].
  cbn [refuse_writes] in Href. destruct (isGrowth byteLength w0) as [growth|] eqn:Eg; [|done]. cbn [mbind option_bind] in Href.
  destruct (apply_represents k c p docs match planned_op w0 with OpD => true | _ => false end (JStr (planned_docId w0))
    (planned_after w0) Hrep) as (q & Eq & Hpq & Hq); [by intros _|]. rewrite Eq in Href. cbn [mbind option_bind] in Href.
  destruct (growth && _) eqn:Erf; [done|]. destruct ws1 as [|w1 ws1]; injection E as -> ->.
  - exists q. split; [done|]. rewrite Hg in Eg. injection Eg as <-. cbn [andb] in Erf.
    rewrite orb_false_iff, !negb_false_iff, Z.ltb_lt, Z.leb_le in Erf. split; [lia|]. split; [lia|].
    intros [|[|n]]; cbn [app take write_rows foldl]; try by apply represents_within.
    eapply within_mono; [exact Hpq|]. by apply represents_within.
  - destruct (IH q _ Hq Href ws1 w ws2 eq_refl Hg) as (q' & Hle & H1 & H2 & Hall). exists q'.
    pose proof (peaks_le_trans _ _ _ Hpq Hle) as Hpp. split; [done|]. split; [done|]. split; [done|].
    intros [|n]; cbn [app take write_rows foldl]; [|apply Hall].
    eapply within_mono; [exact Hpp|]. by apply represents_within.
Qed.
End spec.

(** ** The snapshot a fold writes *)

(** The sizes of JSON texts, as [JSON.stringify] without spacing writes them; [quoted] is
    the size of a property name.  A whole number below 10^12 has at most twelve digits. *)
Record json_sizes (byteLength : bytes -> Z) (quoted : jsstr -> Z) : Prop := {
  sizes_pos : forall b, 0 <= byteLength b;
  sizes_quoted : forall k, 0 <= quoted k;
  sizes_obj : forall fs, json_ok (JObj fs) = true -> byteLength (JsonText (JObj fs)) =
    2 + Z.max 0 (Z.of_nat (length fs) - 1) + foldr (fun kv n => quoted kv.1 + 1 + byteLength (JsonText kv.2) + n) 0 fs;
  sizes_arr : forall vs, json_ok (JArr vs) = true -> byteLength (JsonText (JArr vs)) =
    2 + Z.max 0 (Z.of_nat (length vs) - 1) + foldr (fun v n => byteLength (JsonText v) + n) 0 vs;
  sizes_seq : forall n, 0 <= n <= MAX_SEQ -> 1 <= byteLength (JsonText (num n)) <= 12
}.

Section body.
Context (byteLength : bytes -> Z) (quoted : jsstr -> Z) (sizes : json_sizes byteLength quoted) (coll : jsstr).

(** The size of the body of a snapshot of [rows] up to [hi]. *)
Definition body_bytes (hi : Z) (rows : jsmap) : Z := byteLength (JsonText (snapshot_json (Snapshot 0 hi coll rows))).

(** What all bodies of the collection share: all but the last slot and the rows. *)
Definition snapshot_header : Z :=
  11 + (quoted (js "schema_version") + quoted (js "min_seq") + quoted (js "max_seq") + quoted (js "collection") + quoted (js "docs")) +
  (byteLength (JsonText (num SNAPSHOT_SCHEMA_VERSION)) + byteLength (JsonText (num 0)) + byteLength (JsonText (JStr coll))).

Lemma row_json_ok d b : json_ok d = true -> json_ok b = true -> json_ok (row_json (d, b)) = true.
Proof. intros Hd Hb. apply json_ok_obj. split; [js_decide|]. by repeat constructor. Qed.

Lemma rows_json_ok rows : rows_ok rows -> json_ok (JArr (row_json <$> rows)) = true.
Proof.
  intros [_ Hr]. apply json_ok_arr, Forall_fmap. eapply Forall_impl; [exact Hr|]. intros [d b] [Hd Hb]. by apply row_json_ok.
Qed.

Lemma rowBytes_json d b : json_ok d = true -> json_ok b = true ->
  rowBytes byteLength d b = Some (byteLength (JsonText (row_json (d, b))) + 1).
Proof. intros Hd Hb. unfold rowBytes. by rewrite encode_ok by by apply row_json_ok. Qed.

Lemma rows_total rows : rows_ok rows ->
  foldr (fun v n => byteLength (JsonText v) + n) 0 (row_json <$> rows) = total (size byteLength) rows - Z.of_nat (length rows).
Proof.
  intros [_ Hr]. induction Hr as [|[d b] rows [Hd Hb] _ IH]; [done|]. rewrite fmap_cons. cbn [foldr total length].
  assert (size byteLength d b = byteLength (JsonText (row_json (d, b))) + 1) by (unfold size; by rewrite rowBytes_json). lia.
Qed.

Lemma body_bytes_total hi rows : rows_ok rows ->
  body_bytes hi rows = snapshot_header + byteLength (JsonText (num hi)) + 2 + total (size byteLength) rows - (if decide (rows = []) then 0 else 1).
Proof.
  intros Hr. unfold snapshot_header, body_bytes.
  pose proof (sizes_obj _ _ sizes _ (snapshot_json_ok (Snapshot 0 hi coll rows) Hr)) as Hb. cbn [foldr length fst snd min_seq max_seq snap_collection docs] in Hb.
  rewrite (sizes_arr _ _ sizes _ (rows_json_ok rows Hr)), (rows_total rows Hr), length_fmap in Hb.
  etransitivity; [exact Hb|]. clear Hb. destruct (decide (rows = [])) as [->|Hne]; [cbn [length total]; lia|].
  assert (1 <= Z.of_nat (length rows)) by (destruct rows; [done|cbn [length]; lia]). lia.
Qed.

Lemma body_bytes_pos hi rows : rows_ok rows -> 2 <= body_bytes hi rows.
Proof.
  intros Hr. unfold body_bytes. pose proof (sizes_obj _ _ sizes _ (snapshot_json_ok (Snapshot 0 hi coll rows) Hr)) as Hb.
  assert (Hsum : forall fs, 0 <= foldr (fun kv n => quoted kv.1 + 1 + byteLength (JsonText kv.2) + n) 0 fs).
  { induction fs as [|[k v] fs IH]; cbn [foldr]; [lia|]. pose proof (sizes_quoted _ _ sizes k).
    pose proof (sizes_pos _ _ sizes (JsonText v)). cbn [fst snd]. lia. }
  match type of Hb with _ = _ + foldr _ _ ?l => specialize (Hsum l) end. etransitivity; [|apply Z.eq_le_incl; symmetry; exact Hb]. lia.
Qed.

Lemma total_perm w (l k : jsmap) : l ≡ₚ k -> total w l = total w k.
Proof. induction 1 as [|[d b] l k _ IH|[d b] [d' b'] l|l k j _ IH1 _ IH2]; cbn [total]; lia. Qed.

Lemma rows_ok_perm (l k : jsmap) : l ≡ₚ k -> rows_ok l -> rows_ok k.
Proof. intros Hp [Hn Hf]. split; [|by rewrite <- Hp]. unfold map_keys in *. by rewrite <- Hp. Qed.

(** ** What the check is called with *)

(** The head sizes the snapshot of [base], or there is none yet. *)
Definition head_sizes (head : CurrentJson) (base : jsmap) : Prop :=
  snapshot_rows head = Z.of_nat (length base) /\
  (snapshot_bytes head = 0 /\ base = [] \/
   exists hi rows, 0 <= hi <= MAX_SEQ /\ rows ≡ₚ base /\ snapshot_bytes head = body_bytes hi rows).

(** A pending entry as writers mint them, and a planned write of a JSON body. *)
Definition pending_ok (e : LogEntry) : Prop :=
  is_object e = true /\ field (js "op") e ∈ [JStr (js "I"); JStr (js "U"); JStr (js "D")] /\
  json_ok (field (js "doc_id") e) = true /\ (field (js "after") e = JUndef \/ json_ok (field (js "after") e) = true).

Definition planned_ok (w : PlannedWrite) : Prop := planned_after w = JUndef \/ json_ok (planned_after w) = true.

(** The rows of [docs] grow to those of [docs']: there are more of them, or a snapshot of
    them is larger. *)
Definition grows_rows (docs docs' : jsmap) : Prop :=
  (length docs < length docs')%nat \/ body_bytes 0 docs < body_bytes 0 docs'.

(** A snapshot of the rows fits the host, in whatever order and up to whatever slot. *)
Definition fits_host (ceilings : FoldCeilings) (docs : jsmap) : Prop :=
  Z.of_nat (length docs) < maxFoldRows ceilings /\
  forall hi rows, 0 <= hi <= MAX_SEQ -> rows ≡ₚ docs -> exists b,
    encodeSnapshotBody (Snapshot 0 hi coll rows) = Some b /\ byteLength b <= maxFoldBytes ceilings.

Lemma entry_foldable e : pending_ok e -> foldable byteLength e.
Proof.
  intros (Ho & Hop & Hd & Ha). split; [done|]. split; [done|]. split; [intros E; by rewrite E in Hd|]. intros Hu.
  destruct Ha as [E|Ha]; [by rewrite E in Hu|]. rewrite rowBytes_json by done. by eexists.
Qed.

Lemma write_encodable w : planned_ok w -> encodable byteLength w.
Proof. intros [E|Ha] Hu; [by rewrite E in Hu|]. rewrite rowBytes_json by done. by eexists. Qed.

Lemma sized_rows rows : rows_ok rows -> sized byteLength rows.
Proof.
  intros [_ Hr] d b Hd%map_get_In. rewrite Forall_forall in Hr. destruct (Hr _ Hd) as [H1 H2]. rewrite rowBytes_json by done. by eexists.
Qed.

Lemma stepped_ok isD d after docs : rows_ok docs -> json_ok d = true -> (after = JUndef \/ json_ok after = true) ->
  rows_ok (stepped isD d after docs).
Proof.
  intros [Hnd Hr] Hd Ha. unfold stepped. destruct (negb isD && is_undefined after) eqn:E; [by split|]. destruct isD.
  - split; [by apply map_delete_NoDup|]. unfold map_delete. apply Forall_forall. intros row [_ Hin]%list_elem_of_filter.
    rewrite Forall_forall in Hr. by apply Hr.
  - assert (Haj : json_ok after = true) by (destruct Ha as [->|]; done). split; [by apply map_set_NoDup|]. clear -Hr Hd Haj.
    induction Hr as [|[k v] m Hk Hm IH]; cbn [map_set]; [by repeat constructor|]. case_decide; constructor; try done.
    split; [apply Hk|done].
Qed.

Lemma fold_ok tail : Forall pending_ok tail -> forall docs docs', rows_ok docs -> foldLogEntriesOnto coll None tail docs = Some docs' ->
  rows_ok docs'.
Proof.
  induction 1 as [|e tail He _ IH]; intros docs docs' Hd; cbn [foldLogEntriesOnto]; [by intros [= <-]|].
  rewrite (foldable_step byteLength coll docs e (entry_foldable e He)). cbn [mbind option_bind]. apply IH.
  destruct (strict_eq _ _); [|done]. destruct He as (_ & _ & H1 & H2). by apply stepped_ok.
Qed.

Lemma write_rows_ok writes docs : Forall planned_ok writes -> rows_ok docs -> rows_ok (write_rows writes docs).
Proof.
  intros Hw. revert docs. induction Hw as [|w writes Hw _ IH]; intros docs Hd; [done|]. apply IH. by apply stepped_ok.
Qed.

(** A write that grows_rows the rows is growth to the code, when its image before is the row. *)
Lemma grows_isGrowth docs w : rows_ok docs -> planned_ok w ->
  (planned_op w = OpU -> planned_before w = JUndef \/ map_get (JStr (planned_docId w)) docs = Some (planned_before w)) ->
  grows_rows docs (write_row docs w) -> isGrowth byteLength w = Some true.
Proof.
  intros Hr Hw Hbefore Hg. assert (Hr' : rows_ok (write_row docs w)) by by apply stepped_ok.
  unfold grows_rows in Hg. rewrite !body_bytes_total in Hg by done. unfold write_row, stepped in Hg. unfold isGrowth.
  pose proof (size_pos byteLength (sizes_pos _ _ sizes)) as Hpos. destruct Hr as [Hnd Hrows].
  destruct (planned_op w); [done| |].
  - specialize (Hbefore eq_refl). cbn [negb andb] in Hg. destruct (is_undefined (planned_after w)) eqn:Eu; [lia|].
    destruct (is_undefined (planned_before w)) eqn:Eb; [done|]. destruct Hbefore as [E|Hget]; [by rewrite E in Eb|].
    destruct Hw as [E|Ha]; [by rewrite E in Eu|]. pose proof (map_get_In _ _ _ Hget) as Hin. rewrite Forall_forall in Hrows.
    destruct (Hrows _ Hin) as [_ Hb]. rewrite !rowBytes_json by done. cbn [mbind option_bind].
    rewrite map_set_length, total_set, Hget in Hg. unfold size in Hg. rewrite !rowBytes_json in Hg by done.
    destruct (decide (docs = [])) as [->|]; [by apply elem_of_nil in Hin|].
    destruct (decide (map_set _ _ docs = [])) as [E|]; [by destruct docs as [|[k v] docs]; [|cbn [map_set] in E; case_decide]|].
    f_equal. apply Z.ltb_lt. lia.
  - exfalso. cbn [negb andb] in Hg. pose proof (map_length_total docs) as Hl.
    pose proof (map_length_total (map_delete (JStr (planned_docId w)) docs)) as Hl'. rewrite total_delete in Hl', Hg by done.
    destruct (map_get (JStr (planned_docId w)) docs) as [b|] eqn:Eb.
    + apply map_get_In in Eb. rewrite Forall_forall in Hrows. destruct (Hrows _ Eb) as [H1 H2].
      assert (1 <= size byteLength (JStr (planned_docId w)) b).
      { unfold size. rewrite rowBytes_json by done. pose proof (sizes_pos _ _ sizes (JsonText (row_json (JStr (planned_docId w), b)))). lia. }
      repeat case_decide; lia.
    + rewrite map_delete_absent in * by done. lia.
Qed.

(** Rows within the limits of the projection fit the host. *)
Lemma within_fits head base ceilings p docs : rows_ok base -> rows_ok docs -> head_sizes head base ->
  projectSnapshot byteLength head coll = Some p ->
  Z.of_nat (length docs) < maxFoldRows ceilings ->
  proj_bytes p - total (size byteLength) base + total (size byteLength) docs <= maxFoldBytes ceilings - CAPACITY_BYTES_MARGIN ->
  fits_host ceilings docs.
Proof.
  intros Hbase Hdocs [_ Hhead] Hp Hrows Hbytes. split; [done|]. intros hi rows Hhi Hperm.
  assert (Hrok : rows_ok rows) by by apply (rows_ok_perm docs). eexists. split; [by apply encode_ok, snapshot_json_ok|].
  change (byteLength _) with (body_bytes hi rows). rewrite body_bytes_total, (total_perm _ rows docs Hperm) by done.
  unfold projectSnapshot, emptySnapshotBytes in Hp. pose proof (sizes_seq _ _ sizes hi Hhi) as Hs.
  pose proof (sizes_seq _ _ sizes 0 ltac:(unfold MAX_SEQ; lia)) as Hs0. unfold CAPACITY_BYTES_MARGIN in Hbytes.
  assert (Hr0 : rows_ok []) by (split; constructor).
  destruct Hhead as [[E0 ->]|(hi0 & rows0 & Hhi0 & Hperm0 & E0)].
  - rewrite E0 in Hp. cbn [Z.eqb mbind option_bind] in Hp. unfold encodeSnapshotBody in Hp.
    rewrite encode_ok in Hp by by apply snapshot_json_ok. cbn [fmap option_fmap option_map mbind option_bind] in Hp. injection Hp as <-.
    cbn [proj_bytes total] in Hbytes. change (byteLength _) with (body_bytes 0 []) in Hbytes. rewrite body_bytes_total in Hbytes by done.
    cbn [total] in Hbytes. rewrite decide_True in Hbytes by done. case_decide; lia.
  - assert (Hr0' : rows_ok rows0) by by apply (rows_ok_perm base). pose proof (sizes_seq _ _ sizes hi0 Hhi0) as Hs1.
    destruct (Z.eqb_spec (snapshot_bytes head) 0) as [Ez|_].
    { exfalso. pose proof (body_bytes_pos hi0 rows0 Hr0'). lia. }
    cbn [mbind option_bind] in Hp. injection Hp as <-. cbn [proj_bytes] in Hbytes. rewrite E0, body_bytes_total in Hbytes by done.
    rewrite (total_perm _ rows0 base Hperm0) in Hbytes. repeat case_decide; lia.
Qed.
End body.

(** ** Theorems *)

(** C19: Growth admitted by the capacity check can be folded.  When the head counts the rows
    and the bytes of its snapshot, and the entries and writes are of JSON values: if the
    check admits a batch and one of its writes makes the rows more or their snapshot larger
    (an update's image before being the row at that point of the batch, or unknown), then
    at every prefix of the pending tail, and at every prefix of the batch up to that write,
    the rows are fewer than the host's ceiling and the body of the snapshot a fold would
    write of them, in any order and up to any slot, is within the host's bytes. *)
Theorem admitted_growth_fits byteLength quoted coll head base tail writes ceilings docs ws1 w ws2 :
  json_sizes byteLength quoted -> rows_ok base -> head_sizes byteLength coll head base ->
  Forall pending_ok tail -> Forall planned_ok writes ->
  capacityRefusal byteLength coll head base tail writes ceilings = inr None ->
  foldLogEntriesOnto coll None tail base = Some docs ->
  writes = ws1 ++ w :: ws2 ->
  (planned_op w = OpU -> planned_before w = JUndef \/
     map_get (JStr (planned_docId w)) (write_rows ws1 docs) = Some (planned_before w)) ->
  grows_rows byteLength coll (write_rows ws1 docs) (write_rows (ws1 ++ [w]) docs) ->
  (forall n docs', foldLogEntriesOnto coll None (take n tail) base = Some docs' -> fits_host byteLength coll ceilings docs') /\
  forall n, fits_host byteLength coll ceilings (write_rows (take n (ws1 ++ [w])) docs).
Proof.
  intros Hsizes Hbase Hhead Ht Hw Href Hfold E Hbefore Hgrows. pose proof (sizes_pos _ _ Hsizes) as Hpos.
  assert (Hdocs : rows_ok docs) by (eapply (fold_ok byteLength); [exact Ht|exact Hbase|exact Hfold]).
  pose proof Hw as Hw'. rewrite E in Hw'. apply Forall_app in Hw' as [Hw1 [Hww _]%Forall_cons].
  assert (Hg : isGrowth byteLength w = Some true).
  { apply (grows_isGrowth byteLength quoted Hsizes coll (write_rows ws1 docs)); try done; [by apply write_rows_ok|].
    unfold write_rows in *. by rewrite foldl_app in Hgrows. }
  assert (Htail : Forall (foldable byteLength) tail) by (eapply Forall_impl; [exact Ht|intros; by eapply entry_foldable]).
  assert (Hwrites : Forall (encodable byteLength) writes) by (eapply Forall_impl; [exact Hw|intros; by eapply write_encodable]).
  unfold capacityRefusal in Href. destruct writes as [|w0 writes']; [by destruct ws1|]. set (writes := w0 :: writes') in *.
  destruct (negb (isFoldViable _ _ _)); [done|].
  destruct (projectSnapshot byteLength head coll) as [p|] eqn:Ep; [|done]. cbn [mbind option_bind] in Href.
  assert (Hrep : represents byteLength base 0 (proj_bytes p - total (size byteLength) base) p base).
  { unfold projectSnapshot in Ep. destruct (if snapshot_bytes head =? 0 then _ else _) as [start|]; [|done]. destruct Hhead as [Hrows _].
    injection Ep as <-. split; cbn [proj_rows proj_bytes peakRows peakBytes]; try lia; [done|apply Hbase|by eapply sized_rows]. }
  destruct (project_tail _ _ _ _ _ _) as [[p'|]|] eqn:Ept; cbn [mbind option_bind] in Href; [|done..].
  destruct (project_tail_represents byteLength Hpos base _ _ _ _ _ Htail _ _ _ Hrep Ept) as (Hle & (docs1 & Ef & Hrep') & Hpre).
  rewrite Hfold in Ef. injection Ef as <-.
  destruct (refuse_writes _ _ _ _ _ _) as [[|]|] eqn:Erw; [done| |done].
  destruct (refuse_writes_false byteLength Hpos base _ _ _ _ _ Hwrites _ _ Hrep' Erw ws1 w ws2 E Hg) as (q & Hpq & Hq1 & Hq2 & Hall).
  assert (Hfits : forall docs', rows_ok docs' -> within_peaks byteLength 0 (proj_bytes p - total (size byteLength) base) q docs' ->
    fits_host byteLength coll ceilings docs').
  { intros docs' Hd [H1 H2]. apply (within_fits byteLength quoted Hsizes coll head base ceilings p); try done; lia. }
  split.
  - intros n docs' Hf. apply Hfits; [eapply (fold_ok byteLength); [by apply Forall_take|exact Hbase|exact Hf]|].
    by apply (within_mono _ _ _ _ _ _ Hpq), (Hpre n).
  - intros n. apply Hfits; [|apply Hall]. apply write_rows_ok; [|done]. apply Forall_take, Forall_app. split; [done|].
    by apply Forall_singleton.
Qed.

(** The sizes of texts whose strings need no escapes; numbers of at most twelve digits. *)
Fixpoint text_size (v : jsval) : Z :=
  match v with
  | JNum n => Z.max 1 (Z.min 12 (match num_integer n with Some z => Z.of_nat (length (show_Z z)) | None => 12 end))
  | JStr s => 2 + Z.of_nat (length s)
  | JArr vs => 2 + Z.max 0 (Z.of_nat (length vs) - 1) + foldr (fun v n => text_size v + n) 0 vs
  | JObj fs => 2 + Z.max 0 (Z.of_nat (length fs) - 1) + foldr (fun kv n => (2 + Z.of_nat (length kv.1)) + 1 + text_size kv.2 + n) 0 fs
  | _ => 4
  end.

Definition sample_size (b : bytes) : Z := match b with JsonText v => Z.max 0 (text_size v) | OtherBytes raw _ => Z.of_nat (length raw) end.

Lemma sample_sizes : json_sizes sample_size (fun k => 2 + Z.of_nat (length k)).
Proof.
  assert (Hpos : forall v, 0 <= text_size v).
  { intros v. induction v as [| | | | |l IH|o IH|] using jsval_nested_ind; cbn [text_size]; try lia.
    - enough (0 <= foldr (fun v n => text_size v + n) 0 l) by lia. clear -IH. induction IH; cbn [foldr]; lia.
    - enough (0 <= foldr (fun kv n => (2 + Z.of_nat (length kv.1)) + 1 + text_size kv.2 + n) 0 o) by lia.
      clear -IH. induction IH as [|[k v] o Hv _ IH]; cbn [foldr fst snd] in *; lia. }
  split.
  - intros [v|raw p]; cbn [sample_size]; lia.
  - intros k. lia.
  - intros fs _. cbn [sample_size]. rewrite Z.max_r by apply Hpos. cbn [text_size]. f_equal.
    induction fs as [|[k v] fs IH]; cbn [foldr fst snd]; [done|]. rewrite IH. cbn [sample_size]. rewrite (Z.max_r 0 (text_size v)) by apply Hpos. done.
  - intros vs _. cbn [sample_size]. rewrite Z.max_r by apply Hpos. cbn [text_size]. f_equal.
    induction vs as [|v vs IH]; cbn [foldr]; [done|]. rewrite IH. cbn [sample_size]. by rewrite (Z.max_r 0 (text_size v)) by apply Hpos.
  - intros n Hn. cbn [sample_size num text_size]. lia.
Qed.

Definition sample_head : CurrentJson :=
  Current None 0 0 (Fence 0 (js "w") (js "now") None []) 0 0 None None None None [].

(** An update that makes a pending row longer. *)
Definition sample_grown : PlannedWrite :=
  Planned OpU (js "d1") (JObj [(js "_id", JStr (js "d1")); (js "x", JStr (js "longer"))]) (JObj [(js "_id", JStr (js "d1"))]).

Lemma admitted_growth_fits_witness :
  capacityRefusal sample_size (js "t") sample_head [] [sample_log_entry "I" "d1"] [sample_grown] (Ceilings 1000 5) = inr None /\
  fits_host sample_size (js "t") (Ceilings 1000 5)
    (write_rows [sample_grown] [(JStr (js "d1"), JObj [(js "_id", JStr (js "d1"))])]).
Proof.
  assert (Hadmitted : capacityRefusal sample_size (js "t") sample_head [] [sample_log_entry "I" "d1"] [sample_grown] (Ceilings 1000 5) = inr None)
    by (vm_compute; reflexivity).
  split; [exact Hadmitted|].
  apply (admitted_growth_fits sample_size (fun k => 2 + Z.of_nat (length k)) (js "t") sample_head [] [sample_log_entry "I" "d1"] [sample_grown] (Ceilings 1000 5)
    [(JStr (js "d1"), JObj [(js "_id", JStr (js "d1"))])] [] sample_grown []) with (n := 1%nat).
  - exact sample_sizes.
  - split; constructor.
  - split; [reflexivity|]. left. split; reflexivity.
  - constructor; [|constructor]. split; [reflexivity|]. split; [left|]. split; [reflexivity|]. right. vm_compute. reflexivity.
  - constructor; [|constructor]. right. vm_compute. reflexivity.
  - exact Hadmitted.
  - vm_compute. reflexivity.
  - reflexivity.
  - intros _. right. vm_compute. reflexivity.
  - right. vm_compute. reflexivity.
Defined.
