(* ===== verification/Query.v ===== *)
(** * Queries: the read path (server/src/query.ts)

    [runReadRows] folds the snapshot and the log tail into the rows of a collection, or
    walks an index for the candidate ids and folds only those, then applies the predicate,
    the order and the limit. *)
From S2P Require Import Prelude JsText JsValue Errors Json Storage Effects Predicate Satisfiable Validate Implies IndexCodec.
From S2P Require Import Lsn CurrentJson LogWalk LogTail Snapshot DocId Adoption Writer WriterSafety Indexes QueryPlanner IndexWalk Capacity.
Local Open Scope Z_scope.
Local Open Scope result_scope.

(** ** The manifest pointer *)

(** [hash ^= unit; hash = (hash * prime) & (2^64 - 1)], from the offset basis. *)
Definition fnv_step (hash : Z) (unit : N) : Z :=
  Z.land (Z.lxor hash (Z.of_N unit) * 1099511628211) 18446744073709551615.

Definition manifestPointerDigest (seed : jsstr) : jsstr :=
  pad_start 13 48 (to_radix 36 (Z.to_N (foldl fnv_step 14695981039346656037 seed))).

Definition MANIFEST_POINTER_EMPTY_SNAPSHOT : jsstr := js "none".

Definition serializeManifestPointer (json : CurrentJson) (tail : Z) : jsstr :=
  js "m1:" ++ manifestPointerDigest
    (join_with (js "|") [default MANIFEST_POINTER_EMPTY_SNAPSHOT (snapshot json); show_Z (log_seq_start json);
       show_Z (tail_hint json); show_Z (snapshot_bytes json); show_Z (snapshot_rows json); show_Z tail]).

(** ** State *)

Inductive direction := Asc | Desc.

(** [order] lists the spec's entries in insertion order. *)
Record QueryState := State {
  wire : option PredicateWire;
  order : option (list (jsstr * direction));
  limit : option Z
}.

(** A row paired with the id it is stored under. *)
Abbreviation StoredRow := (jsval * jsval)%type.

Definition singleIdFromPredicate (wire : option PredicateWire) : option jsstr :=
  match wire with
  | Some [clause] =>
    if bool_decide (clause_op clause = op_eq) && bool_decide (clause_field clause = js "_id")
    then match clause_value clause with JStr id => Some id | _ => None end
    else None
  | _ => None
  end.

(** [matchesWire(w, doc)] on a row: rows are documents (objects); [None] throws. *)
Definition row_matches (w : PredicateWire) (doc : jsval) : option bool :=
  match doc with JObj o => matchesWire w o | _ => None end.

Fixpoint filter_rows (w : PredicateWire) (rows : list StoredRow) : option (list StoredRow) :=
  match rows with
  | [] => Some []
  | row :: rows => b ← row_matches w row.2;
                   rest ← filter_rows w rows;
                   Some (if b : bool then row :: rest else rest)
  end.

(** ** Order *)

Section order.
Context (mixed_lt : jsval -> jsval -> bool).

Definition is_object_type (v : jsval) : bool := bool_decide (typeof v = TObject).

(** The comparator of [sortByOrderSpec]; its sign. *)
Fixpoint compare_rows (spec : list (jsstr * direction)) (a b : list (jsstr * jsval)) : Z :=
  match spec with
  | [] => 0
  | (field, dir) :: spec =>
    let av := js_get a field in
    let bv := js_get b field in
    let flip z := match dir with Desc => - z | Asc => z end in
    if strict_eq av bv then compare_rows spec a b
    else if is_undefined av then flip (-1)
    else if is_undefined bv then flip 1
    else if is_object_type av || is_object_type bv then compare_rows spec a b
    else flip (if js_lt mixed_lt av bv then -1 else 1)
  end.

Definition row_object (v : jsval) : list (jsstr * jsval) := match v with JObj o => o | _ => [] end.

(** A stable sort: every row goes after the rows it does not compare below. *)
Fixpoint insert_row (spec : list (jsstr * direction)) (row : StoredRow) (sorted : list StoredRow) : list StoredRow :=
  match sorted with
  | [] => [row]
  | r :: rest => if compare_rows spec (row_object row.2) (row_object r.2) <? 0 then row :: sorted
                 else r :: insert_row spec row rest
  end.

Definition sortByOrderSpec (rows : list StoredRow) (spec : list (jsstr * direction)) : list StoredRow :=
  foldl (fun sorted row => insert_row spec row sorted) [] rows.

Definition order_rows (o : option (list (jsstr * direction))) (rows : list StoredRow) : list StoredRow :=
  match o with Some spec => sortByOrderSpec rows spec | None => rows end.
End order.

(** [rows.slice(0, limit)] when the limit is below the length. *)
Definition limit_rows (l : option Z) (rows : list StoredRow) : list StoredRow :=
  match l with
  | Some n => if n <? Z.of_nat (length rows)
              then take (Z.to_nat (if n <? 0 then Z.of_nat (length rows) + n else n)) rows else rows
  | None => rows
  end.

(** ** The read path *)

Record CollectionReadContext := ReadContext {
  collectionPrefix : jsstr;
  collectionName : jsstr;
  ctx_indexes : list IndexDefinition
}.

(** The folded state the capacity check reads. *)
Record FoldedState := Folded {
  folded_head : CurrentJson;
  folded_base : jsmap;
  folded_tail : list LogEntry
}.

Record ReadRows := Read {
  rows : list StoredRow;
  manifestPointer : jsstr;
  fresh : bool;
  read_tail : Z;
  folded : option FoldedState
}.

(** An exception of a pure step. *)
Definition or_throw {A} (o : option A) : prog A :=
  of_result match o with Some a => inr a | None => inl OtherError end.

Section read.
Context (byteLength : bytes -> Z) (sha256 : bytes -> list N) (json_octets : bytes -> list N)
        (mixed_lt : jsval -> jsval -> bool) (ctx : CollectionReadContext).

Definition base_docs (head : CurrentJson) : prog jsmap :=
  match snapshot head with
  | None => Ret []
  | Some key => loadSnapshotAsMap sha256 key (collectionName ctx)
  end.

Definition fold_docs (filt : option (list jsval)) (entries : list LogEntry) (docs : jsmap) : prog jsmap :=
  or_throw (foldLogEntriesOnto (collectionName ctx) filt entries docs).

Definition match_rows (w : option PredicateWire) (docs : jsmap) : prog (list StoredRow) :=
  or_throw match w with None => Some docs | Some w => filter_rows w docs end.

(** The base rows of the matched ids, in the order the ids were found. *)
Definition seeded (base : jsmap) (docIds : list jsstr) : jsmap :=
  foldl (fun docs id => match map_get (JStr id) base with
                        | Some row => map_set (JStr id) row docs
                        | None => docs
                        end) [] docIds.

Definition runIndexWalkPlan (head : CurrentJson) (state : QueryState) (plan : IndexWalkPlan) :
    prog (list StoredRow * Z * option (jsmap * list LogEntry)) :=
  bind (walk_ids json_octets (collectionPrefix ctx) plan) (fun docIds =>
  bind (probeTailFrom (collectionPrefix ctx) (Z.max (log_seq_start head) (tail_hint head))) (fun probe =>
  let tail := probe.1 in
  if bool_decide (docIds = []) then Ret ([], tail, None)
  else
    bind (base_docs head) (fun baseDocs =>
    let filt := Some (JStr <$> docIds) in
    bind (walkLogRange byteLength (collectionPrefix ctx) (log_seq_start head) (tail_hint head)) (fun entries =>
    bind (fold_docs filt entries (seeded baseDocs docIds)) (fun docs =>
    bind (fold_docs filt probe.2 docs) (fun docs =>
    bind (match_rows (wire state) docs) (fun found =>
    Ret (found, tail, Some (baseDocs, entries ++ probe.2))))))))).

Definition finish_rows (state : QueryState) (found : list StoredRow) : list StoredRow :=
  limit_rows (limit state) (order_rows mixed_lt (order state) found).

(** Steps 4 of the scan: the primary-key lookup, or the filter. *)
Definition select_rows (w : option PredicateWire) (docs : jsmap) : prog (list StoredRow) :=
  match singleIdFromPredicate w with
  | Some fastId => Ret match map_get (JStr fastId) docs with Some hit => [(JStr fastId, hit)] | None => [] end
  | None => match_rows w docs
  end.

Definition full_scan (head : CurrentJson) (state : QueryState) : prog ReadRows :=
  let logSeqStart := log_seq_start head in
  let hint := tail_hint head in
  bind (base_docs head) (fun baseDocs =>
  bind (walkLogRange byteLength (collectionPrefix ctx) logSeqStart hint) (fun entries =>
  bind (probeTailFrom (collectionPrefix ctx) (Z.max logSeqStart hint)) (fun probe =>
  bind (fold_docs None entries baseDocs) (fun docs =>
  bind (fold_docs None probe.2 docs) (fun docs =>
  bind (select_rows (wire state) docs) (fun found =>
  Ret (Read (finish_rows state found) (serializeManifestPointer head probe.1) true probe.1
         (Some (Folded head baseDocs (entries ++ probe.2)))))))))).

Definition runReadRows (state : QueryState) : prog ReadRows :=
  bind (readCurrentJson (collectionPrefix ctx ++ js "/current.json")) (fun head =>
  match head with
  | None => Ret (Read [] (js "m1:0000000000000") true 0 None)
  | Some head =>
    bind (of_result (planQuery mixed_lt (wire state) (ctx_indexes ctx))) (fun plan =>
    match plan with
    | IndexWalk plan =>
      bind (runIndexWalkPlan (json head) state plan) (fun '(found, tail, folded) =>
      Ret (Read (finish_rows state found) (serializeManifestPointer (json head) tail) true tail
             ((fun f => Folded (json head) f.1 f.2) <$> folded)))
    | FullScan _ => full_scan (json head) state
    end)
  end).

(** [runRead]: the documents alone. *)
Definition runRead (state : QueryState) : prog (list jsval * jsstr * bool) :=
  bind (runReadRows state) (fun r => Ret ((rows r).*2, manifestPointer r, fresh r)).

Definition runAllWithMeta (state : QueryState) : prog (list jsval * jsstr * bool) := runRead state.

Definition runByIdWithMeta (id : jsstr) : prog (list jsval * jsstr * bool) :=
  runRead (State (Some [Clause op_eq (js "_id") (JStr id)]) None (Some 1)).

(** The terminals of a [Query]: [first], [all], [count]. *)
Definition first (state : QueryState) : prog (option jsval) :=
  bind (runRead (State (wire state) (order state) (Some 1))) (fun res => Ret (head res.1.1)).

Definition all (state : QueryState) : prog (list jsval) := bind (runRead state) (fun res => Ret res.1.1).

Definition count (state : QueryState) : prog Z :=
  bind (runRead state) (fun res => Ret (Z.of_nat (length res.1.1))).
End read.

(** The modifiers: a fresh state each. *)
Definition with_order (s : option (list (jsstr * direction))) (state : QueryState) : QueryState :=
  State (wire state) s (limit state).

Definition with_limit (n : option Z) (state : QueryState) : QueryState := State (wire state) (order state) n.

(** [.where(arg)]: the fragment is normalised and validated, then merged. *)
Definition with_where (arg : list (jsstr * jsval) + list builder_call) (state : QueryState) : result QueryState :=
  let? incoming := normalizePredicateArg arg in
  let? _ := validateWire (wire_json incoming) in
  let? merged := match wire state with
                 | None => inr incoming
                 | Some w => mergePredicateWires w incoming
                 end in
  inr (State (Some merged) (order state) (limit state)).

(** ** The mutation verbs *)

(** [{ ...doc, _id }] *)
Definition with_id (doc : list (jsstr * jsval)) (id : jsstr) : jsval := JObj (own_set (js "_id") (JStr id) doc).

Definition storedRowId (row : StoredRow) : result jsstr :=
  match prop (js "_id") row.2 with
  | None => inl OtherError
  | Some id => if negb (strict_eq id row.1) then throw InvalidResponse
               else match row.1 with JStr docId => inr docId | _ => inl OtherError end
  end.

Definition assertPatchKeepsId (patch : jsval) (docId : jsstr) : option js_error :=
  match patch with
  | JObj p => match own_get (js "_id") p with
              | Some patchId => if negb (is_undefined patchId) && negb (strict_eq patchId (JStr docId))
                                then Some (new_error InvalidConfig) else None
              | None => None
              end
  | _ => None
  end.

Section mutate.
Context (byteLength : bytes -> Z) (sha256 : bytes -> list N) (json_octets : bytes -> list N)
        (mixed_lt : jsval -> jsval -> bool) (nfc : jsstr -> jsstr) (ctx : CollectionReadContext).
(** [currentFoldCeilings()] *)
Context (ceilings : FoldCeilings).
(** The bound validator: whether it reports no issues; [inl] when it throws. *)
Context (schema : option (jsval -> result bool)).
(** [writerFor(ctx).commit(input)], of the n-th writer the call builds. *)
Context (write : nat -> CommitInput -> prog CommitResult).

Definition read_rows (state : QueryState) : prog ReadRows :=
  runReadRows byteLength sha256 json_octets mixed_lt ctx state.

Definition refuseOverCapacity (f : option FoldedState) (writes : list PlannedWrite) : prog unit :=
  match f with
  | None => Ret tt
  | Some f =>
    bind (of_result (capacityRefusal byteLength (collectionName ctx) (folded_head f) (folded_base f) (folded_tail f)
                       writes ceilings)) (fun refusal => check refusal)
  end.

Definition validateOrThrow (candidate : jsval) : prog unit :=
  match schema with
  | None => Ret tt
  | Some validate => bind (of_result (validate candidate)) (fun ok =>
                     if ok : bool then Ret tt else Throw (new_error SchemaError))
  end.

Definition byId (id : jsstr) (n : option Z) : QueryState :=
  State (Some [Clause op_eq (js "_id") (JStr id)]) None n.

(** [uuid] is the id minted when the document has none. *)
Definition runInsert (doc : list (jsstr * jsval)) (mintedId : option jsstr) (uuid : jsstr) : prog jsstr :=
  let id := match js_get doc (js "_id") with
            | JStr supplied => if bool_decide (supplied = []) then uuid else supplied
            | _ => uuid
            end in
  bind (check (assertDocId nfc id)) (fun _ =>
  bind (check match mintedId with
              | Some minted => if bool_decide (minted = id) then None else Some (new_error InvalidConfig)
              | None => None
              end) (fun _ =>
  let body := with_id doc id in
  bind (validateOrThrow body) (fun _ =>
  bind (runReadRows byteLength sha256 json_octets mixed_lt
          (ReadContext (collectionPrefix ctx) (collectionName ctx) []) (byId id (Some 1))) (fun existing =>
  match head (rows existing) with
  | Some live =>
    match mintedId with
    | Some _ => match insertReplaysRow body live.2 with
                | None => Throw OtherError
                | Some true => Ret id
                | Some false => Throw (insertAlreadyExists id)
                end
    | None => Throw (insertAlreadyExists id)
    end
  | None =>
    bind (refuseOverCapacity (folded existing) [Planned OpI id body JUndef]) (fun _ =>
    bind (write 0 (Input OpI (collectionName ctx) id body None
            (Some (Guard (num (read_tail existing)) (JBool match mintedId with Some _ => true | None => false end)))))
      (fun _ => Ret id))
  end)))).

(** One row of an update: its id, its body and the merged post-image. *)
Definition plan_update (patch : jsval) (row : StoredRow) : prog (jsstr * jsval * jsval) :=
  bind (of_result (storedRowId row)) (fun docId =>
  bind (check (assertPatchKeepsId patch docId)) (fun _ =>
  bind (check (assertDocId nfc docId)) (fun _ =>
  let merged := merge row.2 patch in
  if is_undefined merged then Throw (new_error SchemaError)
  else bind (validateOrThrow merged) (fun _ => Ret (docId, row.2, merged))))).

(** The commits of a batch, one after another; [n] counts the writers. *)
Fixpoint commit_all (n : nat) (inputs : list CommitInput) : prog Z :=
  match inputs with
  | [] => Ret 0
  | input :: inputs => bind (write n input) (fun _ =>
                       bind (commit_all (S n) inputs) (fun done => Ret (1 + done)))
  end.

Definition runUpdate (state : QueryState) (patch : jsval) : prog Z :=
  bind (read_rows state) (fun found =>
  bind (for_each (rows found) (plan_update patch)) (fun planned =>
  bind (refuseOverCapacity (folded found) ((fun p => Planned OpU p.1.1 p.2 p.1.2) <$> planned)) (fun _ =>
  commit_all 0 ((fun p => Input OpU (collectionName ctx) p.1.1 p.2 None None) <$> planned)))).

Definition runReplaceById (id : jsstr) (doc : list (jsstr * jsval)) : prog unit :=
  bind (check (assertDocId nfc id)) (fun _ =>
  bind (read_rows (byId id None)) (fun found =>
  match head (rows found) with
  | None => Throw (new_error NotFound)
  | Some current =>
    let body := with_id doc id in
    bind (validateOrThrow body) (fun _ =>
    bind (refuseOverCapacity (folded found) [Planned OpU id body current.2]) (fun _ =>
    bind (write 0 (Input OpU (collectionName ctx) id body None None)) (fun _ => Ret tt)))
  end)).

Definition runDelete (state : QueryState) : prog Z :=
  bind (read_rows state) (fun found =>
  bind (for_each (rows found) (fun row => of_result (storedRowId row))) (fun docIds =>
  bind (refuseOverCapacity (folded found) ((fun id => Planned OpD id JUndef JUndef) <$> docIds)) (fun _ =>
  commit_all 0 ((fun id => Input OpD (collectionName ctx) id JUndef None None) <$> docIds)))).
End mutate.

(** ** The fold a read serves *)

Lemma seeded_from base docIds docs : NoDup (map_keys docs) ->
  let docs' := foldl (fun docs id => match map_get (JStr id) base with
                                     | Some row => map_set (JStr id) row docs
                                     | None => docs
                                     end) docs docIds in
  NoDup (map_keys docs') /\
  forall d, map_get d docs' = if decide (d ∈ JStr <$> docIds)
                              then match map_get d base with Some row => Some row | None => map_get d docs end
                              else map_get d docs.
Proof.
  revert docs. induction docIds as [|id docIds IH]; intros docs Hnd; cbn [foldl].
  { split; [done|]. intros d. by destruct (decide _) as [?%elem_of_nil|]. }
  set (docs1 := match map_get (JStr id) base with Some row => map_set (JStr id) row docs | None => docs end).
  assert (Hnd1 : NoDup (map_keys docs1)) by (subst docs1; destruct (map_get (JStr id) base); [by apply map_set_NoDup|done]).
  destruct (IH docs1 Hnd1) as [Hnd' Hget]. split; [done|]. intros d. rewrite Hget. rewrite fmap_cons.
  assert (Hd1 : map_get d docs1 = if decide (d = JStr id)
    then match map_get d base with Some row => Some row | None => map_get d docs end else map_get d docs).
  { subst docs1. destruct (decide (d = JStr id)) as [->|Hne].
    - destruct (map_get (JStr id) base); [|done]. rewrite map_get_set. by rewrite decide_True.
    - destruct (map_get (JStr id) base); [|done]. rewrite map_get_set. by rewrite decide_False by congruence. }
  rewrite Hd1. destruct (decide (d = JStr id)) as [->|Hne].
  - rewrite (decide_True (P := JStr id ∈ JStr id :: _)) by left. destruct (map_get (JStr id) base); by case_decide.
  - destruct (decide (d ∈ JStr <$> docIds)) as [Hin|Hin].
    + by rewrite decide_True by by right.
    + rewrite decide_False; [done|]. rewrite elem_of_cons. tauto.
Qed.

Lemma row_after_filter coll f d es row : (d ∈ f -> row_after coll (Some f) d es row = row_after coll None d es row) /\
  (d ∉ f -> row_after coll (Some f) d es row = row).
Proof.
  revert row. induction es as [|e es IH]; intros row; [done|]. cbn [row_after].
  assert (He : entry_effect coll (Some f) e = match entry_effect coll None e with
    | Some (d', eff) => if bool_decide (d' ∈ f) then Some (d', eff) else None | None => None end).
  { unfold entry_effect. destruct e as [| | | | | |o|]; try done.
    destruct (strict_eq (js_get o (js "collection")) _); [|done]. cbn zeta. rewrite orb_false_r.
    destruct (strict_eq (js_get o (js "doc_id")) JUndef); [done|]. cbn [orb].
    repeat case_match; simplify_eq/=; by (rewrite ?negb_true_iff, ?negb_false_iff in *; congruence). }
  rewrite He. split; intros Hd.
  - rewrite (proj1 (IH _)) by done. f_equal. destruct (entry_effect coll None e) as [[d' eff]|]; [|done].
    case_bool_decide as Hd'; [done|]. by rewrite decide_False by congruence.
  - rewrite (proj2 (IH _)) by done. destruct (entry_effect coll None e) as [[d' eff]|]; [|done].
    case_bool_decide as Hd'; [|done]. by rewrite decide_False by congruence.
Qed.

Lemma decoded_collect m p seqs es : collect (slot_entry m p <$> seqs) = inr es ->
  all_decoded m p seqs = true /\ decoded m p seqs = es.
Proof.
  revert es. induction seqs as [|s seqs IH]; intros es; [by intros [= <-]|]. rewrite fmap_cons. cbn [collect].
  unfold all_decoded, decoded. cbn [forallb omap list_omap].
  destruct (slot_entry m p s) as [e|x]; [done|]. destruct (collect (slot_entry m p <$> seqs)) as [e|es']; [done|].
  intros [= <-]. destruct (IH es' eq_refl) as [H1 H2]. split; [exact H1|]. by f_equal.
Qed.

Lemma map_get_elem d row (docs : jsmap) : NoDup (map_keys docs) -> (d, row) ∈ docs <-> map_get d docs = Some row.
Proof.
  intros Hnd. split; [|apply map_get_In]. induction docs as [|[k v] docs IH]; [by intros ?%elem_of_nil|].
  change (map_keys ((k, v) :: docs)) with (k :: map_keys docs) in Hnd. apply NoDup_cons in Hnd as [Hk Hnd]. cbn [map_get].
  intros [[= -> ->]|Hin]%elem_of_cons; [by rewrite decide_True|]. rewrite decide_False; [by apply IH|].
  intros ->. apply Hk, list_elem_of_fmap. by exists (d, row).
Qed.

Lemma filter_rows_spec w (l out : list StoredRow) : filter_rows w l = Some out ->
  sublist out l /\ Forall (fun r => is_Some (row_matches w r.2)) l /\
  forall r, r ∈ out <-> r ∈ l /\ row_matches w r.2 = Some true.
Proof.
  revert out. induction l as [|r l IH]; intros out; cbn [filter_rows].
  { intros [= <-]. split; [constructor|]. split; [constructor|]. intros r. rewrite elem_of_nil. tauto. }
  destruct (row_matches w r.2) as [b|] eqn:Eb; [|done]. cbn [mbind option_bind].
  destruct (filter_rows w l) as [rest|]; [|done]. cbn [mbind option_bind]. destruct (IH rest eq_refl) as (Hs & Ht & Hin).
  intros [= <-]. split; [by destruct b; constructor|]. split; [constructor; [by exists b|done]|].
  intros r'. rewrite elem_of_cons. destruct b; [rewrite elem_of_cons|]; rewrite Hin;
    (split; [naive_solver congruence|intros [[->|?] ?]; [congruence || tauto|tauto]]).
Qed.

Lemma filter_rows_total w (l : list StoredRow) : Forall (fun r => is_Some (row_matches w r.2)) l ->
  exists out, filter_rows w l = Some out.
Proof.
  induction 1 as [|r l [b Hb] _ [out IH]]; cbn [filter_rows]; [by eexists|]. rewrite Hb, IH. by eexists.
Qed.

(** Two maps that agree on the matching rows have the same matching rows. *)
Lemma filter_rows_agree w (docs docs' : jsmap) found : NoDup (map_keys docs) -> NoDup (map_keys docs') ->
  (forall d row, map_get d docs' = Some row -> map_get d docs = Some row) ->
  (forall d row, map_get d docs = Some row -> row_matches w row = Some true -> map_get d docs' = Some row) ->
  filter_rows w docs = Some found -> exists found', filter_rows w docs' = Some found' /\ found' ≡ₚ found.
Proof.
  intros Hn Hn' Hsub Hmat Hf. destruct (filter_rows_spec w docs found Hf) as (Hs & Ht & Hin).
  destruct (filter_rows_total w docs') as [found' Hf'].
  { apply Forall_forall. intros [d row] Hr. apply map_get_elem in Hr; [|done]. rewrite Forall_forall in Ht.
    apply (Ht (d, row)). apply map_get_elem; [done|]. by apply Hsub. }
  exists found'. split; [done|]. destruct (filter_rows_spec w docs' found' Hf') as (Hs' & _ & Hin').
  apply NoDup_Permutation.
  - apply (sublist_NoDup found' docs'); [|exact Hs']. by eapply NoDup_fmap_1.
  - apply (sublist_NoDup found docs); [|exact Hs]. by eapply NoDup_fmap_1.
  - intros [d row]. rewrite Hin, Hin', !map_get_elem by done. cbn [snd]. naive_solver.
Qed.

Lemma only_objects es : Forall (fun e => is_object e = true /\ json_ok e = true) es -> Forall (fun e => is_object e = true) es.
Proof. intros H. eapply Forall_impl; [exact H|]. by intros e []. Qed.

Section fold.
Context (byteLength : bytes -> Z) (sha256 : bytes -> list N) (json_octets : bytes -> list N)
        (mixed_lt : jsval -> jsval -> bool) (now : Z) (m : MemoryStorage) (ctx : CollectionReadContext).

(** The snapshot rows a head names. *)
Definition base_of (head : CurrentJson) (base : jsmap) : Prop :=
  match snapshot head with
  | None => base = []
  | Some key => assertValidStorageKey key = None /\
    ((forall s, key <> logObjectKey (collectionPrefix ctx) s) /\ key <> collectionPrefix ctx ++ js "/current.json") /\
    exists o, objects m !! key = Some o /\ open_snapshot sha256 key (collectionName ctx) (stored_body o) = inr base
  end.

(** The store holds a sound collection: a head, its snapshot, and a dense log ending at
    [tail] whose fold is [docs]. *)
Record serves (head : CurrentJson) (base docs : jsmap) (entries : list LogEntry) (tail : Z) : Prop := {
  serves_prefix : valid_prefix (collectionPrefix ctx);
  serves_key : assertValidStorageKey (collectionPrefix ctx ++ js "/current.json") = None;
  serves_head : exists etag, read_manifest (collectionPrefix ctx ++ js "/current.json") m = inr (Some (CurrentRead head etag));
  serves_base : base_of head base;
  serves_rows : rows_ok base;
  serves_dense : collect (slot_entry m (collectionPrefix ctx) <$> seqZ (log_seq_start head) (tail - log_seq_start head)) = inr entries;
  serves_ends : log_ends m (collectionPrefix ctx) (Z.max (log_seq_start head) (tail_hint head)) tail;
  serves_cap : tail < Z.max (log_seq_start head) (tail_hint head) + LOG_FORWARD_PROBE_CAP;
  serves_objects : Forall (fun e => is_object e = true /\ json_ok e = true) entries;
  serves_fold : foldLogEntriesOnto (collectionName ctx) None entries base = Some docs
}.

Lemma run_base head base : base_of head base -> run now (base_docs sha256 ctx head) m = (inr base, m).
Proof.
  unfold base_of, base_docs. destruct (snapshot head) as [key|]; [|by intros ->]. intros (Hk & _ & o & Ho & Hb).
  by rewrite run_loadSnapshotAsMap, Ho, Hb.
Qed.

(** The two halves of the log a read folds. *)
Lemma run_log head base docs entries tail : serves head base docs entries tail ->
  exists e1 e2, entries = e1 ++ e2 /\
    run now (walkLogRange byteLength (collectionPrefix ctx) (log_seq_start head) (tail_hint head)) m = (inr e1, m) /\
    run now (probeTailFrom (collectionPrefix ctx) (Z.max (log_seq_start head) (tail_hint head))) m = (inr (tail, e2), m).
Proof.
  intros [Hp _ _ _ _ Hd He Hc _ _]. set (start := log_seq_start head) in *. set (hint := tail_hint head) in *.
  pose proof (proj1 He) as Hle.
  assert (Hsplit : seqZ start (tail - start) = seqZ start (hint - start) ++ seqZ (Z.max start hint) (tail - Z.max start hint)).
  { destruct (Z.leb_spec start hint).
    - rewrite Z.max_r by done. replace (tail - start) with ((hint - start) + (tail - hint)) by lia.
      rewrite seqZ_app by lia. f_equal. f_equal; lia.
    - rewrite Z.max_l by lia. by rewrite (seqZ_nil start (hint - start)) by lia. }
  rewrite Hsplit, fmap_app, collect_app in Hd.
  destruct (collect (slot_entry m (collectionPrefix ctx) <$> seqZ start (hint - start))) as [e|e1] eqn:E1; [done|].
  destruct (collect (slot_entry m (collectionPrefix ctx) <$> seqZ (Z.max start hint) _)) as [e|e2] eqn:E2; [done|].
  injection Hd as <-. exists e1, e2. split; [done|]. rewrite run_walkLogRange, E1 by done. split; [done|].
  destruct (decoded_collect _ _ _ _ E2) as [Hall Hdec]. unfold probeTailFrom.
  rewrite (run_probeTailFrom now _ m _ tail) by (done || (unfold LOG_FORWARD_PROBE_CAP; lia)).
  by rewrite (proj2 (Z.ltb_lt _ _)), Hdec.
Qed.

Lemma run_fold_docs filt es docs docs' : foldLogEntriesOnto (collectionName ctx) filt es docs = Some docs' ->
  run now (fold_docs ctx filt es docs) m = (inr docs', m).
Proof. intros H. unfold fold_docs, or_throw. by rewrite run_of_result, H. Qed.

(** The full scan is the fold, filtered. *)
Lemma run_full_scan head base docs entries tail state found : serves head base docs entries tail ->
  run now (select_rows (wire state) docs) m = (inr found, m) ->
  run now (full_scan byteLength sha256 mixed_lt ctx head state) m =
    (inr (Read (finish_rows mixed_lt state found) (serializeManifestPointer head tail) true tail
            (Some (Folded head base entries))), m).
Proof.
  intros Hs Hsel. destruct (run_log head base docs entries tail Hs) as (e1 & e2 & -> & Hw & Hp).
  destruct Hs as [_ _ _ Hb _ _ _ _ _ Hf]. unfold full_scan. cbv zeta.
  rewrite run_bind, (run_base head base Hb), run_bind, Hw, run_bind, Hp, run_bind.
  rewrite foldLogEntriesOnto_app in Hf. destruct (foldLogEntriesOnto _ None e1 base) as [docs1|] eqn:E1; [|done].
  cbn [mbind option_bind] in Hf. cbn [snd fst].
  rewrite (run_fold_docs None e1 base docs1) by done. rewrite run_bind, (run_fold_docs None e2 docs1 docs) by done.
  by rewrite run_bind, Hsel.
Qed.

Lemma run_runReadRows head base docs entries tail state : serves head base docs entries tail ->
  run now (runReadRows byteLength sha256 json_octets mixed_lt ctx state) m =
  run now (bind (of_result (planQuery mixed_lt (wire state) (ctx_indexes ctx))) (fun plan =>
    match plan with
    | IndexWalk plan =>
      bind (runIndexWalkPlan byteLength sha256 json_octets ctx head state plan) (fun '(found, tail, folded) =>
      Ret (Read (finish_rows mixed_lt state found) (serializeManifestPointer head tail) true tail
             ((fun f => Folded head f.1 f.2) <$> folded)))
    | FullScan _ => full_scan byteLength sha256 mixed_lt ctx head state
    end)) m.
Proof.
  intros [_ Hk (etag & Hh) _ _ _ _ _ _ _]. unfold runReadRows. rewrite run_bind, run_readCurrentJson, Hh by done. done.
Qed.

(** The walk's rows, when its candidates cover the matching rows. *)
Lemma run_index_walk head base docs entries tail state plan ids w found : serves head base docs entries tail ->
  wire state = Some w -> filter_rows w docs = Some found ->
  run now (walk_ids json_octets (collectionPrefix ctx) plan) m = (inr ids, m) ->
  (forall d row, map_get d docs = Some row -> row_matches w row = Some true -> d ∈ JStr <$> ids) ->
  exists found' f, run now (runIndexWalkPlan byteLength sha256 json_octets ctx head state plan) m = (inr (found', tail, f), m) /\
    found' ≡ₚ found.
Proof.
  intros Hs Hwire Hf Hids Hcov. destruct (run_log head base docs entries tail Hs) as (e1 & e2 & -> & Hw & Hp).
  destruct Hs as [_ _ _ Hb [Hnd _] _ _ _ Hobj%only_objects Hfold]. unfold runIndexWalkPlan.
  destruct (fold_row_after (collectionName ctx) None (e1 ++ e2) base Hobj) as (docs0 & E0 & Hnd0 & Hget0).
  rewrite Hfold in E0. injection E0 as <-. specialize (Hnd0 Hnd).
  rewrite run_bind, Hids, run_bind, Hp. cbn [fst snd]. cbv zeta. case_bool_decide as Hnil.
  { exists [], None. split; [done|]. destruct (filter_rows_spec w docs found Hf) as (_ & _ & Hin).
    destruct found as [|[d row] found]; [done|]. exfalso.
    assert (Hr : (d, row) ∈ docs /\ row_matches w row = Some true) by (apply Hin; by left).
    destruct Hr as [Hr Hm]. apply map_get_elem in Hr; [|done]. specialize (Hcov _ _ Hr Hm). subst ids.
    by apply elem_of_nil in Hcov. }
  set (filt := JStr <$> ids) in *.
  destruct (seeded_from base ids [] (NoDup_nil_2)) as [Hnds Hgets]. fold (seeded base ids) in Hnds, Hgets.
  destruct (fold_row_after (collectionName ctx) (Some filt) (e1 ++ e2) (seeded base ids) Hobj) as (docs' & E' & Hnd' & Hget').
  specialize (Hnd' Hnds). rewrite foldLogEntriesOnto_app in E'.
  destruct (foldLogEntriesOnto _ (Some filt) e1 _) as [docs1|] eqn:E1; [|done]. cbn [mbind option_bind] in E'.
  assert (Hdocs' : forall d, map_get d docs' = if decide (d ∈ filt) then map_get d docs else None).
  { intros d. rewrite Hget', Hgets, Hget0. fold filt. destruct (row_after_filter (collectionName ctx) filt d (e1 ++ e2)
      (if decide (d ∈ filt) then map_get d base else None)) as [R1 R2]. cbn [map_get].
    destruct (decide (d ∈ filt)) as [Hd|Hd]; [|by apply R2]. destruct (map_get d base) eqn:Eb; by rewrite R1. }
  destruct (filter_rows_agree w docs docs' found Hnd0 Hnd') as (found' & Hf' & Hperm); [| |done|].
  { intros d row. rewrite Hdocs'. by destruct (decide _). }
  { intros d row Hg Hm. rewrite Hdocs'. by rewrite decide_True by by eapply Hcov. }
  exists found', (Some (base, e1 ++ e2)). split; [|done].
  rewrite run_bind, (run_base head base Hb), run_bind, Hw, run_bind.
  rewrite (run_fold_docs (Some filt) e1 _ docs1) by done. rewrite run_bind, (run_fold_docs (Some filt) e2 docs1 docs') by done.
  rewrite run_bind, Hwire. unfold match_rows, or_throw. by rewrite run_of_result, Hf'.
Qed.
End fold.

(** ** Theorems *)

(** A store whose manifest still names the snapshot and the log start serves the same rows
    while the live slots and the snapshot are the same. *)
Lemma serves_moved sha256 m m' ctx head head' etag base docs entries tail : serves sha256 m ctx head base docs entries tail ->
  read_manifest (collectionPrefix ctx ++ js "/current.json") m' = inr (Some (CurrentRead head' etag)) ->
  snapshot head' = snapshot head -> log_seq_start head' = log_seq_start head ->
  Z.max (log_seq_start head) (tail_hint head) <= Z.max (log_seq_start head) (tail_hint head') <= tail ->
  (forall s, log_seq_start head <= s -> log_slot m' (collectionPrefix ctx) s = log_slot m (collectionPrefix ctx) s) ->
  (forall key, snapshot head = Some key -> objects m' !! key = objects m !! key) ->
  serves sha256 m' ctx head' base docs entries tail.
Proof.
  intros [Hp Hk _ Hb Hr Hd He Hc Ho Hf] Hread Hsnap Hstart Hmax Hlog Hobj. split; try done.
  - by exists etag.
  - unfold base_of in *. rewrite Hsnap. destruct (snapshot head) as [key|]; [|done]. by rewrite Hobj by done.
  - rewrite Hstart, <- Hd. f_equal. apply list_fmap_ext. intros i s Hs%lookup_seqZ. unfold slot_entry. by rewrite Hlog by lia.
  - destruct He as (H1 & H2 & H3). rewrite Hstart. split; [lia|]. unfold occupied in *.
    split; intros s Hs; rewrite Hlog by lia; [apply H2|apply H3]; lia.
  - rewrite Hstart. lia.
Qed.

Lemma serves_same sha256 m m' ctx head base docs entries tail : serves sha256 m ctx head base docs entries tail ->
  objects m' !! (collectionPrefix ctx ++ js "/current.json") = objects m !! (collectionPrefix ctx ++ js "/current.json") ->
  (forall s, log_seq_start head <= s -> log_slot m' (collectionPrefix ctx) s = log_slot m (collectionPrefix ctx) s) ->
  (forall key, snapshot head = Some key -> objects m' !! key = objects m !! key) ->
  serves sha256 m' ctx head base docs entries tail.
Proof.
  intros Hs Hm Hlog Hobj. destruct (serves_head _ _ _ _ _ _ _ _ Hs) as [etag Hh]. pose proof (proj1 (serves_ends _ _ _ _ _ _ _ _ Hs)).
  apply (serves_moved sha256 m m' ctx head head etag base docs entries tail); try done. unfold read_manifest in *. by rewrite Hm.
Qed.

(** The rows of the fold, told entry by entry. *)
Lemma served_rows sha256 m ctx head base docs entries tail : serves sha256 m ctx head base docs entries tail ->
  NoDup (map_keys docs) /\
  forall d, map_get d docs = row_after (collectionName ctx) None d entries (map_get d base).
Proof.
  intros [_ _ _ _ [Hnd _] _ _ _ Hobj%only_objects Hf]. destruct (fold_row_after (collectionName ctx) None entries base Hobj) as (docs' & E & Hn & Hg).
  rewrite Hf in E. injection E as <-. split; [by apply Hn|done].
Qed.

(** A scan serves the fold: on a sound collection a read that plans a full scan
    answers with exactly the rows the last log entry about each document left (over the
    snapshot) that the predicate accepts, ordered and limited, at the tail it observed. *)
Theorem scan_serves_the_fold byteLength sha256 json_octets mixed_lt now m ctx head base docs entries tail state w reason found :
  serves sha256 m ctx head base docs entries tail -> wire state = Some w -> singleIdFromPredicate (Some w) = None ->
  planQuery mixed_lt (Some w) (ctx_indexes ctx) = inr (FullScan reason) -> filter_rows w docs = Some found ->
  run now (runReadRows byteLength sha256 json_octets mixed_lt ctx state) m =
    (inr (Read (finish_rows mixed_lt state found) (serializeManifestPointer head tail) true tail
            (Some (Folded head base entries))), m) /\
  forall d row, (d, row) ∈ found <->
    row_after (collectionName ctx) None d entries (map_get d base) = Some row /\ row_matches w row = Some true.
Proof.
  intros Hs Hw Hid Hplan Hf. split.
  - erewrite run_runReadRows by done. rewrite run_bind, Hw, Hplan. apply (run_full_scan _ _ _ _ _ _ _ _ docs); [done|].
    rewrite Hw. unfold select_rows. rewrite Hid. unfold match_rows, or_throw. by rewrite run_of_result, Hf.
  - intros d row. destruct (served_rows _ _ _ _ _ _ _ _ Hs) as [Hnd Hg]. destruct (filter_rows_spec w docs found Hf) as (_ & _ & Hin).
    rewrite Hin, map_get_elem, Hg by done. done.
Qed.

(** A read by id answers with the row the last log entry about that id left, if any. *)
Lemma byId_serves_the_row byteLength sha256 json_octets mixed_lt now m ctx head base docs entries tail id reason :
  serves sha256 m ctx head base docs entries tail ->
  planQuery mixed_lt (Some [Clause op_eq (js "_id") (JStr id)]) (ctx_indexes ctx) = inr (FullScan reason) ->
  exists pointer, run now (runByIdWithMeta byteLength sha256 json_octets mixed_lt ctx id) m =
    (inr (match row_after (collectionName ctx) None (JStr id) entries (map_get (JStr id) base) with
          | Some row => [row] | None => [] end, pointer, true), m).
Proof.
  intros Hs Hplan. exists (serializeManifestPointer head tail). unfold runByIdWithMeta, runRead. rewrite run_bind.
  erewrite run_runReadRows by done. rewrite run_bind. cbn [wire]. rewrite Hplan. cbn [of_result run].
  destruct (served_rows _ _ _ _ _ _ _ _ Hs) as [_ Hg]. rewrite <- Hg.
  rewrite (run_full_scan _ _ _ _ _ _ _ _ docs _ _ _
    match map_get (JStr id) docs with Some hit => [(JStr id, hit)] | None => [] end Hs) by done.
  cbn [run rows]. unfold finish_rows, limit_rows, order_rows. cbn [limit order]. by destruct (map_get (JStr id) docs).
Qed.

(** C16: An index read agrees with the scan, for a query of scalar operands ([in] sets of
    one type), well-formed index filters and a fitting index that holds every document the
    query can match: when every matching row has the indexed fields of the chosen plan,
    which a range orders alike as values and as keys, and its markers are stored, a query
    routed through an index returns the very rows the full scan filters out of the fold, in
    some order. *)
Theorem index_read_agrees byteLength sha256 json_octets mixed_lt now m ctx head base docs entries tail w plan found :
  serves sha256 m ctx head base docs entries tail ->
  Forall routable_clause w -> query_shape w -> (forall d, d ∈ ctx_indexes ctx -> filter_ok d) ->
  planQuery mixed_lt (Some w) (ctx_indexes ctx) = inr (IndexWalk plan) ->
  (exists d, d ∈ ctx_indexes ctx /\ fits mixed_lt w d /\ complete_for mixed_lt w d) ->
  filter_rows w docs = Some found ->
  (forall d row, map_get d docs = Some row -> row_matches w row = Some true ->
     exists docId doc, d = JStr docId /\ row = JObj doc /\ plain_range plan doc /\
     forall def, def ∈ ctx_indexes ctx -> index_name def = indexName plan ->
       markers_only json_octets m (collectionPrefix ctx) def /\ indexed json_octets m (collectionPrefix ctx) def docId doc) ->
  exists r, run now (runReadRows byteLength sha256 json_octets mixed_lt ctx (State (Some w) None None)) m = (inr r, m) /\
    rows r ≡ₚ found /\ read_tail r = tail.
Proof.
  intros Hs Hr Hq Hfil Hplan Hex Hf Hidx.
  destruct (walk_runs json_octets now m (collectionPrefix ctx) plan) as [ids Hids]; [by eapply planQuery_operands|].
  destruct (run_index_walk byteLength sha256 json_octets now m ctx head base docs entries tail (State (Some w) None None) plan ids w found)
    as (found' & f & Hrun & Hperm); try done.
  { intros d row Hd Hm. destruct (Hidx d row Hd Hm) as (docId & doc & -> & -> & Hpl & Hst).
    destruct (walk_covers json_octets mixed_lt now m (collectionPrefix ctx) w (ctx_indexes ctx) plan docId doc) as (ids' & Hids' & Hin);
      try done.
    rewrite Hids in Hids'. injection Hids' as <-. by apply list_elem_of_fmap_2. }
  eexists. split; [|split].
  - erewrite run_runReadRows by done. rewrite run_bind. cbn [wire]. rewrite Hplan. cbn [of_result run].
    rewrite run_bind, Hrun. reflexivity.
  - exact Hperm.
  - reflexivity.
Qed.

(** ** A sample collection: one row, its log entry and its marker *)

Definition sample_octets (b : bytes) : list N := [].

Definition sample_row : list (jsstr * jsval) := [(js "_id", JStr (js "d1")); (js "n", JNum (num_of_Z 9))].

Definition sample_insert_entry : LogEntry :=
  JObj [(js "op", JStr (js "I")); (js "collection", JStr (js "t")); (js "doc_id", JStr (js "d1")); (js "after", JObj sample_row)].

Definition sample_by_n : IndexDefinition := IndexDef (js "by_n") (on_field (js "n")) None.

Definition sample_marker : jsstr :=
  match index_keys_of sample_octets (js "a/t") sample_by_n (JObj sample_row) (js "d1") with inr [k] => k | _ => [] end.

Definition sample_served : MemoryStorage :=
  (memory_store (logObjectKey (js "a/t") 0) (JsonText sample_insert_entry)
    (memory_store sample_marker EMPTY_BODY sample_collection).2).2.

Definition sample_read_head : CurrentJson := Current None 0 0 (Fence 0 [] [] None []) 0 0 None None None None [].

Definition sample_ctx (indexes : list IndexDefinition) : CollectionReadContext := ReadContext (js "a/t") (js "t") indexes.

Definition sample_docs : jsmap := [(JStr (js "d1"), JObj sample_row)].

Lemma sample_serves sha256 indexes : serves sha256 sample_served (sample_ctx indexes) sample_read_head [] sample_docs [sample_insert_entry] 1.
Proof.
  split.
  - apply sample_prefix_valid.
  - vm_compute. reflexivity.
  - exists (stored_etag (default (Stored EMPTY_BODY []) (objects sample_served !! js "a/t/current.json"))). vm_compute. reflexivity.
  - reflexivity.
  - split; constructor.
  - vm_compute. reflexivity.
  - apply (log_ends_append _ _ 0 0), log_ends_other, sample_collection_empty. intros s. apply not_a_log_key. vm_compute. reflexivity.
  - reflexivity.
  - repeat constructor.
  - vm_compute. reflexivity.
Qed.

Definition sample_where : PredicateWire := [Clause op_gt (js "n") (JNum (num_of_Z 3))].

Lemma scan_serves_the_fold_witness :
  exists r, run 0 (runReadRows (fun _ => 0) sample_octets sample_octets (fun _ _ => false) (sample_ctx []) (State (Some sample_where) None None))
    sample_served = (inr r, sample_served) /\ rows r = sample_docs.
Proof.
  destruct (scan_serves_the_fold (fun _ => 0) sample_octets sample_octets (fun _ _ => false) 0 sample_served (sample_ctx []) sample_read_head
    [] sample_docs [sample_insert_entry] 1 (State (Some sample_where) None None) sample_where no_indexes_declared sample_docs) as [Hrun _].
  - apply sample_serves.
  - reflexivity.
  - reflexivity.
  - reflexivity.
  - vm_compute. reflexivity.
  - eexists. split; [exact Hrun|reflexivity].
Defined.

Lemma sample_markers_only : markers_only sample_octets sample_served (js "a/t") sample_by_n.
Proof.
  intros k [o Ho] Hst. unfold sample_served in Ho. rewrite !memory_store_lookup in Ho.
  destruct (decide (logObjectKey (js "a/t") 0 = k)) as [<-|_]; [vm_compute in Hst; discriminate|].
  destruct (decide (sample_marker = k)) as [<-|_].
  - exists [JNum (num_of_Z 9)], (match encode_segments sample_octets [JNum (num_of_Z 9)] with inr s => s | inl _ => [] end), (js "d1").
    split; [vm_compute; reflexivity|]. split; [reflexivity|]. vm_compute. reflexivity.
  - unfold sample_collection in Ho. rewrite memory_store_lookup in Ho. destruct (decide (js "a/t/current.json" = k)) as [<-|_].
    + vm_compute in Hst. discriminate.
    + unfold empty_memory in Ho. cbn [objects] in Ho. by rewrite lookup_empty in Ho.
Qed.

Lemma sample_indexed : indexed sample_octets sample_served (js "a/t") sample_by_n (js "d1") sample_row.
Proof.
  split.
  - split; [unfold slash_free; js_decide|discriminate].
  - repeat constructor; vm_compute; discriminate.
  - exists [sample_marker]. split; [vm_compute; reflexivity|]. repeat constructor. vm_compute. by eexists.
Qed.

Lemma index_read_agrees_witness :
  exists r, run 0 (runReadRows (fun _ => 0) sample_octets sample_octets (fun _ _ => false) (sample_ctx [sample_by_n])
    (State (Some sample_where) None None)) sample_served = (inr r, sample_served) /\ rows r ≡ₚ sample_docs /\ read_tail r = 1.
Proof.
  apply (index_read_agrees (fun _ => 0) sample_octets sample_octets (fun _ _ => false) 0 sample_served (sample_ctx [sample_by_n])
    sample_read_head [] sample_docs [sample_insert_entry] 1 sample_where
    (WalkPlan (js "by_n") [] (Some (js "n", RangeOp (JNum (num_of_Z 3)) JUndef false false)) None)).
  - apply sample_serves.
  - repeat constructor; vm_compute; repeat constructor.
  - split; [repeat constructor|]. constructor.
  - intros d Hd w Hw. apply elem_of_cons in Hd as [->|Hd]; [discriminate Hw|by apply elem_of_nil in Hd].
  - vm_compute. reflexivity.
  - exists sample_by_n. split; [by left|]. split; [vm_compute; discriminate|exact I].
  - vm_compute. reflexivity.
  - intros d row Hd _. unfold sample_docs in Hd. cbn [map_get] in Hd. destruct (decide _) as [<-|_]; [|discriminate].
    injection Hd as <-. exists (js "d1"), sample_row. split; [reflexivity|]. split; [reflexivity|]. split.
    + split; [split; [vm_compute|]; done|]. split; intros _; [split; [vm_compute|]; done|]. done.
    + intros def [->|Hn%elem_of_nil]%elem_of_cons _; [|done]. split; [apply sample_markers_only|apply sample_indexed].
Defined.
