(* ===== verification/View.v ===== *)
(** * The collection as an abstract map

    What a collection promises its readers: a finite map from document ids to rows.  The
    stored objects (manifest, snapshot, log) represent such a map when they serve it; a
    commit refines an update of the map, and readers see the map the last commit left. *)
From S2P Require Import Prelude JsText JsValue Errors Json Storage Effects Predicate Satisfiable Validate Implies IndexCodec.
From S2P Require Import Lsn CurrentJson LogWalk LogTail Snapshot DocId Adoption Writer WriterSafety Indexes QuietCommit QueryPlanner IndexWalk Capacity Query.
Local Open Scope Z_scope.

(** ** The specification *)

(** The rows of a collection. *)
Abbreviation rows_map := (gmap jsstr jsval).

Inductive row_update :=
| put_row (id : jsstr) (body : jsval)
| delete_row (id : jsstr).

Definition update_rows (u : row_update) (s : rows_map) : rows_map :=
  match u with put_row id body => <[id := body]> s | delete_row id => delete id s end.

(** The update an accepted input asks for. *)
Definition update_of (input : CommitInput) : row_update :=
  match op input with OpD => delete_row (docId input) | _ => put_row (docId input) (input_body input) end.

(** ** The representation *)

Definition denotes (docs : jsmap) (s : rows_map) : Prop := forall id, map_get (JStr id) docs = s !! id.

Lemma denotes_set docs s id body : denotes docs s -> denotes (map_set (JStr id) body docs) (<[id := body]> s).
Proof.
  intros H id'. rewrite map_get_set, H. destruct (decide (id = id')) as [->|].
  - by rewrite lookup_insert_eq, decide_True.
  - by rewrite lookup_insert_ne, decide_False by congruence.
Qed.

Lemma denotes_delete docs s id : denotes docs s -> denotes (map_delete (JStr id) docs) (delete id s).
Proof.
  intros H id'. rewrite map_get_delete, H. destruct (decide (id = id')) as [->|].
  - by rewrite lookup_delete_eq, decide_True.
  - by rewrite lookup_delete_ne, decide_False by congruence.
Qed.

Section view.
Context (sha256 : bytes -> list N) (ctx : CollectionReadContext).

Record represents (m : MemoryStorage) (head : CurrentJson) (tail : Z) (s : rows_map) : Prop := {
  rep_served : exists base docs entries, serves sha256 m ctx head base docs entries tail /\ denotes docs s
}.

(** A minted entry of the collection does the update its input asks for. *)
Definition storable (input : CommitInput) : Prop := op input = OpD \/ json_ok (input_body input) = true.

Lemma storable_body input : storable input -> op input <> OpD -> strict_eq (input_body input) JUndef = false.
Proof.
  intros [?|Hok] Hop; [done|]. destruct (strict_eq (input_body input) JUndef) eqn:E; [|done].
  apply strict_eq_JUndef in E. by rewrite E in Hok.
Qed.

Lemma mint_effect session now ts input seq : storable input ->
  entry_effect (collection input) None (mintEntry session now ts input seq) =
    Some (JStr (docId input), match op input with OpD => None | _ => Some (input_body input) end).
Proof.
  intros Hst. pose proof (storable_body input Hst) as Hu.
  destruct input as [op coll id body origin guard]. unfold mintEntry, entry_effect, opt_field.
  cbn [Writer.op collection docId input_body Writer.origin insertGuard] in *.
  assert (Hbody : strict_eq body JUndef = false \/ op = OpD) by (destruct op; auto).
  destruct op.
  1,2: destruct Hbody as [Hb|?]; [|done]; rewrite Hb.
  all: set (o := _ ++ _).
  all: assert (js_get o (js "collection") = JStr coll) as -> by reflexivity.
  all: assert (js_get o (js "doc_id") = JStr id) as -> by reflexivity.
  all: rewrite !strict_eq_str_refl; cbn [negb orb].
  1,2: assert (js_get o (js "after") = body) as -> by reflexivity; rewrite Hb.
  all: done.
Qed.

Lemma mint_json_ok session now ts input seq : storable input -> json_ok (mintEntry session now ts input seq) = true.
Proof.
  intros Hst. apply json_ok_obj. split.
  - unfold mintEntry. destruct (_ && _), (origin input); js_decide.
  - unfold mintEntry. apply Forall_app. split; [by repeat constructor|]. apply Forall_app. split.
    + destruct Hst as [-> |Hok]; [constructor|]. destruct (_ && _); constructor; [exact Hok|constructor].
    + destruct (origin input); repeat constructor.
Qed.

Lemma mint_step session now ts input seq docs s : collection input = collectionName ctx -> storable input -> denotes docs s ->
  exists docs', fold_entry (collectionName ctx) None docs (mintEntry session now ts input seq) = Some docs' /\
    denotes docs' (update_rows (update_of input) s).
Proof.
  intros <- Hst Hd. rewrite fold_entry_effect, mint_effect by done. eexists. split; [done|].
  unfold update_of, update_rows. destruct (op input); [by apply denotes_set..|by apply denotes_delete].
Qed.

(** ** Commits *)

Lemma current_key_prefix p : log_prefix_of (p ++ js "/current.json") = p.
Proof.
  unfold log_prefix_of. assert (E : last_slash (p ++ js "/current.json") = Some (length p)).
  { induction p as [|u p IH]; [reflexivity|]. cbn [app last_slash]. by rewrite IH. }
  by rewrite E, take_app_length.
Qed.

(** The head, and every slot from the log start to the tail, of a served store. *)
Lemma served_manifest m head base docs entries tail : serves sha256 m ctx head base docs entries tail ->
  exists o, objects m !! (collectionPrefix ctx ++ js "/current.json") = Some o /\ decode_current (stored_body o) = inr head.
Proof.
  intros Hs. destruct (serves_head _ _ _ _ _ _ _ _ Hs) as [etag Hh]. unfold read_manifest in Hh.
  destruct (objects m !! _) as [o|]; [|done]. exists o. split; [done|]. destruct (decode_current (stored_body o)); [done|]. congruence.
Qed.

Lemma served_window m head base docs entries tail n : serves sha256 m ctx head base docs entries tail ->
  log_seq_start head <= n <= tail ->
  log_ends m (collectionPrefix ctx) n tail /\ exists e1 e2, entries = e1 ++ e2 /\
    all_decoded m (collectionPrefix ctx) (seqZ n (tail - n)) = true /\ decoded m (collectionPrefix ctx) (seqZ n (tail - n)) = e2.
Proof.
  intros Hs Hn. pose proof (serves_dense _ _ _ _ _ _ _ _ Hs) as Hd. destruct (serves_ends _ _ _ _ _ _ _ _ Hs) as (_ & _ & Hend).
  replace (tail - log_seq_start head) with ((n - log_seq_start head) + (tail - n)) in Hd by lia.
  rewrite seqZ_app in Hd by lia. replace (log_seq_start head + (n - log_seq_start head)) with n in Hd by lia.
  rewrite fmap_app, collect_app in Hd. destruct (collect (_ <$> seqZ (log_seq_start head) _)) as [|e1]; [done|].
  destruct (collect (slot_entry m (collectionPrefix ctx) <$> seqZ n (tail - n))) as [|e2] eqn:E2; [done|]. injection Hd as <-.
  destruct (decoded_collect _ _ _ _ E2) as [Hall Hdec]. split; [|by exists e1, e2].
  split; [lia|]. split; [|done]. intros s Hin. apply occupied_slot. unfold all_decoded in Hall. rewrite forallb_forall in Hall.
  specialize (Hall s). destruct (log_slot m (collectionPrefix ctx) s) as [b|] eqn:Eb; [by exists b|].
  unfold slot_entry in Hall. rewrite Eb in Hall. assert (Hs' : s ∈ seqZ n (tail - n)) by (apply elem_of_seqZ; lia).
  apply list_elem_of_In in Hs'. by specialize (Hall Hs').
Qed.

(** A commit's store serves the log with its entry. *)
Lemma serves_committed `{!IndexProjection} `{!IndexUnderPrefix (collectionPrefix ctx)} input m m' head base docs docs' entries tail b e :
  serves sha256 m ctx head base docs entries tail ->
  committed_store (collectionPrefix ctx) input tail b m m' ->
  (forall k, snapshot head = Some k -> index_key (collectionPrefix ctx) k = false) ->
  decodeJsonBytes b = Some e -> is_object e = true -> fold_entry (collectionName ctx) None docs e = Some docs' ->
  tail + 1 < Z.max (log_seq_start head) (tail_hint head) + LOG_FORWARD_PROBE_CAP ->
  serves sha256 m' ctx head base docs' (entries ++ [e]) (tail + 1).
Proof.
  intros Hs Hc Hsnap Hdec Hobj Hstep Hcap. pose proof Hs as [Hp Hk (etag & Hh) Hb Hnd Hd He _ Ho Hf]. pose proof (proj1 He) as Hle.
  split; try done.
  - exists etag. unfold read_manifest. rewrite (committed_frame _ _ _ _ _ _ _ Hc); [exact Hh| |].
    + intros E. apply (slot_not_manifest (collectionPrefix ctx ++ js "/current.json") tail). by rewrite current_key_prefix.
    + apply not_true_iff_false. intros [t E]%starts_with_spec. rewrite <- app_assoc in E. by apply app_inv_head in E.
  - unfold base_of in *. destruct (snapshot head) as [key|]; [|done]. destruct Hb as (H1 & H2 & o & H3 & H4).
    split; [done|]. split; [done|]. exists o. split; [|done].
    rewrite (committed_frame _ _ _ _ _ _ _ Hc); [done|apply H2|by apply Hsnap].
  - replace (tail + 1 - log_seq_start head) with ((tail - log_seq_start head) + 1) by lia.
    rewrite seqZ_app, fmap_app, collect_app by lia.
    assert (E1 : slot_entry m' (collectionPrefix ctx) <$> seqZ (log_seq_start head) (tail - log_seq_start head) =
      slot_entry m (collectionPrefix ctx) <$> seqZ (log_seq_start head) (tail - log_seq_start head)).
    { apply list_fmap_ext. intros i s Hs'%lookup_seqZ. unfold slot_entry.
      rewrite (committed_slots _ _ _ _ _ _ s Hc), decide_False by lia. done. }
    rewrite E1, Hd. replace (log_seq_start head + (tail - log_seq_start head)) with tail by lia.
    change (seqZ tail 1) with [0 + tail]. cbn [fmap list_fmap]. rewrite Z.add_0_l. cbn [collect].
    unfold slot_entry. by rewrite (committed_slots _ _ _ _ _ _ tail Hc), decide_True, Hdec by done.
  - by apply (committed_ends _ _ _ _ _ _ _ Hc).
  - apply Forall_app. split; [done|]. constructor; [|constructor]. split; [done|]. unfold decodeJsonBytes in Hdec.
    destruct (match b with JsonText v => Some v | OtherBytes _ parsed => parsed end) as [v|]; [|done]. cbn [mbind option_bind] in Hdec.
    destruct (json_ok v) eqn:Ev; [|done]. by injection Hdec as <-.
  - rewrite foldLogEntriesOnto_app, Hf. cbn [mbind option_bind foldLogEntriesOnto]. by rewrite Hstep.
Qed.

(** ** What a commit is called with *)

(** The guard of an insert on the rows [s]: the row is absent, and the window that the
    guard has not seen ends at the tail and holds entries as writers mint them. *)
Definition guard_admits (m : MemoryStorage) (head : CurrentJson) (tail : Z) (s : rows_map) (input : CommitInput) : Prop :=
  match insertGuard input with
  | None => True
  | Some g => exists n, safe_seq (absentBelowSeq g) = Some n /\ log_seq_start head <= n <= tail /\
      tail < n + LOG_FORWARD_PROBE_CAP /\ Forall wf_entry (decoded m (collectionPrefix ctx) (seqZ n (tail - n))) /\
      s !! docId input = None
  end.

Lemma row_after_absent coll id es row : row_after coll None id es row = None -> row_after coll None id es None = None.
Proof.
  revert row. induction es as [|e es IH]; intros row; [done|]. cbn [row_after].
  destruct (entry_effect coll None e) as [[d eff]|]; [|apply IH]. destruct (decide (d = id)); [done|apply IH].
Qed.

Lemma served_target m head base docs entries tail s input : serves sha256 m ctx head base docs entries tail -> denotes docs s ->
  collection input = collectionName ctx -> guard_admits m head tail s input ->
  tail + 1 < Z.max (log_seq_start head) (tail_hint head) + LOG_FORWARD_PROBE_CAP ->
  target_at (collectionPrefix ctx) m input head tail.
Proof.
  intros Hs Hden Hc Hg Hcap. unfold guard_admits in Hg. unfold target_at. destruct (insertGuard input) as [g|].
  - destruct Hg as (n & Hn & Hle & Hcap' & Hwf & Habs). exists n. split; [done|]. split; [lia|].
    destruct (served_window _ _ _ _ _ _ n Hs Hle) as (Hends & e1 & e2 & -> & Hall & Hdec). split; [done|]. split; [done|].
    split; [done|]. rewrite Hdec in Hwf |- *. pose proof (decide_row_after input g e2 Hwf) as Hd. rewrite Hc in Hd.
    destruct (served_rows _ _ _ _ _ _ _ _ Hs) as [_ Hrow]. specialize (Hrow (JStr (docId input))).
    rewrite Hden, Habs, row_after_app in Hrow. by rewrite (row_after_absent _ _ _ _ (eq_sym Hrow)) in Hd.
  - split; [apply Hs|]. unfold LOG_FORWARD_PROBE_CAP in Hcap. lia.
Qed.
End view.

(** What the storage, the clock and the input of an accepted commit satisfy. *)
Record commit_ready `{!IndexProjection} (nfc : jsstr -> jsstr) (ctx : CollectionReadContext) (now : Z) (input : CommitInput)
    (m : MemoryStorage) (head : CurrentJson) (tail : Z) (s : rows_map) : Prop := {
  ready_valid : validate_input nfc input = None;
  ready_collection : collection input = collectionName ctx;
  ready_body : storable input;
  ready_guard : guard_admits ctx m head tail s input;
  ready_markers : markers_storable (collectionPrefix ctx) input;
  ready_clock : exists ts, timestamp now = inr ts;
  ready_key : assertKeyWithinLimit (logObjectKey (collectionPrefix ctx) tail) = None;
  ready_tail : tail + 1 < Z.max (log_seq_start head) (tail_hint head) + LOG_FORWARD_PROBE_CAP
}.

(** The commit step of the refinement, before the maintenance it dispatches. *)
Lemma commit_dispatches `{!IndexProjection} nfc sha256 ctx verify gen session now clock maintenance input m head tail s :
  let key := collectionPrefix ctx ++ js "/current.json" in
  IndexUnderPrefix (collectionPrefix ctx) ->
  represents sha256 ctx m head tail s -> (forall k, snapshot head = Some k -> index_key (collectionPrefix ctx) k = false) ->
  certifiedDeleteFloor head <= tail -> commit_ready nfc ctx now input m head tail s ->
  exists r ts m', run clock (commit nfc key verify gen session now maintenance input) m =
      (inr r, (run clock (maintenance head tail (tail + 1)) m').2) /\
    replayed r = false /\ result_entry r = mintEntry session now ts input tail /\ (memory_ok m -> memory_ok m') /\
    represents sha256 ctx m' head (tail + 1) (update_rows (update_of input) s).
Proof.
  intros key Hunder [(base & docs & entries & Hs & Hden)] Hsnap Hfloor [Hval Hc Hst Hg Hmk [ts Hts] Hlim Hcap].
  pose proof (mint_json_ok session now ts input tail Hst) as Hok.
  destruct (mint_step ctx session now ts input tail docs s Hc Hst Hden) as (docs' & Hstep & Hden').
  assert (Hdec : decodeJsonBytes (JsonText (mintEntry session now ts input tail)) = Some (mintEntry session now ts input tail)).
  { unfold decodeJsonBytes. cbn [mbind option_bind]. by rewrite Hok. }
  destruct (served_manifest _ _ _ _ _ _ _ _ Hs) as (o & Ho & Hd). pose proof Hs as [Hp Hk _ _ _ _ _ _ _ _].
  destruct (run_commit (collectionPrefix ctx) clock nfc key verify gen session now maintenance input m o head ts tail
    (JsonText (mintEntry session now ts input tail))) as (stale & m' & Hc' & Hmok & _ & _ & Hrun); try done.
  - apply current_key_prefix.
  - apply not_true_iff_false. unfold key. intros [t E]%starts_with_spec. rewrite <- app_assoc in E. by apply app_inv_head in E.
  - intros _. destruct (run_log (fun _ => 0) sha256 clock m ctx head base docs entries tail Hs) as (e1 & _ & _ & Hw & _). by exists e1.
  - by eapply served_target.
  - by apply encode_ok.
  - eexists _, ts, m'. split; [exact Hrun|]. split; [done|]. split; [done|]. split; [done|]. split.
    exists base, docs', (entries ++ [mintEntry session now ts input tail]). split; [|done].
    by apply (serves_committed sha256 ctx input m m' head base docs docs' entries tail
      (JsonText (mintEntry session now ts input tail))).
Qed.

(** Readers see the represented rows. *)
Lemma byId_reads byteLength sha256 json_octets mixed_lt now m ctx head tail s id reason : represents sha256 ctx m head tail s ->
  planQuery mixed_lt (Some [Clause op_eq (js "_id") (JStr id)]) (ctx_indexes ctx) = inr (FullScan reason) ->
  exists pointer, run now (runByIdWithMeta byteLength sha256 json_octets mixed_lt ctx id) m =
    (inr (option_list (s !! id), pointer, true), m).
Proof.
  intros [(base & docs & entries & Hs & Hd)] Hplan.
  destruct (byId_serves_the_row byteLength sha256 json_octets mixed_lt now m ctx head base docs entries tail id reason Hs Hplan) as [pt Hrun].
  exists pt. rewrite Hrun. destruct (served_rows _ _ _ _ _ _ _ _ Hs) as [_ Hg]. rewrite <- Hg, Hd. by destruct (s !! id).
Qed.

(** A read by id scans when no declared index starts with [_id]. *)
Lemma byId_scans mixed_lt id indexes : Forall (fun def => head (tuple_of def) <> Some (js "_id")) indexes ->
  exists reason, planQuery mixed_lt (Some [Clause op_eq (js "_id") (JStr id)]) indexes = inr (FullScan reason).
Proof.
  intros Hno. unfold planQuery. destruct indexes as [|def0 defs]; [by eexists|]. set (defs' := def0 :: defs) in *. cbv zeta.
  destruct (_ && _); [by eexists|]. set (p := part_wire _ _).
  assert (Hp : p = Partition {[js "_id" := JStr id]} empty empty empty) by reflexivity.
  assert (Hc : candidates_of p defs' = []).
  { destruct (candidates_of p defs') as [|c cs] eqn:E; [done|]. assert (Hin : c ∈ candidates_of p defs') by (rewrite E; left).
    apply candidates_of_elem in Hin as (Hd & Hc & Hne). rewrite Forall_forall in Hno. specialize (Hno _ Hd). exfalso.
    destruct (tuple_of (cand_def c)) as [|f fs]; cbn [consume] in Hc; [injection Hc as E1 E2; rewrite E1, E2 in Hne; by destruct Hne|].
    assert (Hf : js "_id" <> f) by (intros <-; by apply Hno). rewrite Hp in Hc. cbn [equality rangeAcc inOps] in Hc.
    rewrite (lookup_singleton_ne (js "_id") f _ Hf), !lookup_empty in Hc. cbn in Hc. injection Hc as E1 E2. rewrite E1, E2 in Hne. by destruct Hne. }
  rewrite Hc. by eexists.
Qed.

(** ** Samples *)

Definition sample_update : CommitInput :=
  Input OpU (js "t") (js "d1") (JObj [(js "_id", JStr (js "d1")); (js "n", JNum (num_of_Z 2))]) None None.

Lemma sample_represents sha256 indexes : represents sha256 (sample_ctx indexes) sample_served sample_read_head 1 {[js "d1" := JObj sample_row]}.
Proof.
  split. exists [], sample_docs, [sample_insert_entry]. split; [apply sample_serves|]. intros id.
  unfold sample_docs. cbn [map_get]. destruct (decide (JStr (js "d1") = JStr id)) as [E|Hne].
  - injection E as <-. by rewrite lookup_singleton_eq.
  - by rewrite lookup_singleton_ne by congruence.
Qed.
