(* ===== verification/Compactor.v ===== *)
(** * The compactor (server/src/compactor.ts)

    [compact] folds a prefix of the live log into a content-addressed snapshot and swaps the
    manifest to it with a compare-and-swap.  The theorem: whatever it decides, the rows the
    collection serves stay the same. *)
From S2P Require Import Prelude JsText JsValue Errors Json Storage Effects Predicate Satisfiable Validate Implies IndexCodec.
From S2P Require Import Lsn CurrentJson LogWalk LogTail Snapshot DocId Adoption Writer WriterSafety Indexes QueryPlanner IndexWalk Capacity Query View.
Local Open Scope Z_scope.

(** The public and the internal options; [None] is an absent one. *)
Record CompactOptions := CompactOpts {
  minEntriesToCompact : option Z;
  maxEntriesPerRun : option Z;
  maxTailProbeGets : option Z;
  ceilingBytes : option Z;
  ceilingEntries : option Z;
  knownTail : option Z
}.

Inductive skipped := below_min_threshold | current_json_missing | cas_lost | deferred | probe_budget_checkpointed.

Inductive dimension := dim_bytes | dim_rows.

Record CompactResult := Compacted {
  written : bool;
  skippedReason : option skipped;
  deferral : option (dimension * Z * Z);
  previousSnapshotKey : option jsstr;
  newSnapshotKey : option jsstr;
  logSeqStartBefore : Z;
  logSeqStartAfter : Z;
  entriesFolded : Z
}.

Definition DEFAULT_MAX_PER_RUN : Z := MAX_SAFE_INTEGER.
Definition DEFAULT_MIN_TO_COMPACT : Z := 100.

(** A skip that leaves the log start where it was. *)
Definition skip_at (reason : skipped) (current : CurrentJson) : CompactResult :=
  Compacted false (Some reason) None (snapshot current) None (logSeqStartOf current) (logSeqStartOf current) 0.

(** [requireIntegerOption] on an integer (server/src/option-guards.ts). *)
Definition requireIntegerOption (value min : Z) : option js_error :=
  if value <? min then Some (new_error InvalidConfig) else None.

Definition check_options (opts : CompactOptions) : prog unit :=
  bind (check (requireIntegerOption (default DEFAULT_MAX_PER_RUN (maxEntriesPerRun opts)) 0)) (fun _ =>
  bind (check (requireIntegerOption (default 0 (knownTail opts)) 0)) (fun _ =>
  check match maxTailProbeGets opts with Some n => requireIntegerOption n 1 | None => None end)).

Definition within_ceiling (n : Z) (ceiling : option Z) : bool :=
  match ceiling with Some c => n <=? c | None => true end.

Definition below_ceiling (n : Z) (ceiling : option Z) : bool :=
  match ceiling with Some c => n <? c | None => true end.

(** The name of the collection a manifest key ends in. *)
Definition collection_of (currentJsonKey : jsstr) : jsstr := after_last slash (log_prefix_of currentJsonKey).

(** The exact tail of an unbudgeted probe, or a certified lower bound. *)
Definition probe_tail (logPrefix : jsstr) (floor : Z) (budget : option Z) : prog (Z * bool) :=
  match budget with
  | None => bind (probeTailFrom logPrefix floor) (fun exact => Ret (exact.1, true))
  | Some cap => bind (probeTailChunk logPrefix floor cap false) (fun probe =>
                Ret match probe with
                    | Exact tail _ _ => (tail, true)
                    | AtLeast lowerBound _ _ => (lowerBound, false)
                    end)
  end.

Section compact.
Context (byteLength : bytes -> Z) (sha256 : bytes -> list N) (mixed_lt : jsval -> jsval -> bool).
Context (currentJsonKey : jsstr) (opts : CompactOptions).

(** The entry adds a row to a full snapshot; [None] is a thrown [TypeError]. *)
Definition stops_at (base : jsmap) (entry : LogEntry) : option bool :=
  c ← prop (js "collection") entry;
  if negb (strict_eq c (JStr (collection_of currentJsonKey))) then Some false else
  d ← prop (js "doc_id") entry;
  op ← prop (js "op") entry;
  after ← prop (js "after") entry;
  Some (negb (strict_eq d JUndef) && negb (strict_eq op (JStr (js "D"))) && negb (strict_eq after JUndef) &&
        match map_get d base with Some _ => false | None => true end &&
        negb (below_ceiling (Z.of_nat (length base)) (ceilingEntries opts))).

(** Step 4: how many entries were applied, and the folded rows. *)
Fixpoint apply_prefix (base : jsmap) (fetched : list (LogEntry * Z)) : option (nat * jsmap) :=
  match fetched with
  | [] => Some (O, base)
  | (entry, _) :: fetched =>
    stop ← stops_at base entry;
    if stop : bool then Some (O, base)
    else base' ← fold_entry (collection_of currentJsonKey) None base entry;
         rest ← apply_prefix base' fetched;
         Some (S rest.1, rest.2)
  end.

(** The sort of step 5, by [<] on the ids; stable. *)
Fixpoint insert_doc (row : jsval * jsval) (sorted : jsmap) : jsmap :=
  match sorted with
  | [] => [row]
  | r :: rest => if js_lt mixed_lt row.1 r.1 then row :: sorted else r :: insert_doc row rest
  end.

Definition sort_docs (docs : jsmap) : jsmap := foldl (fun sorted row => insert_doc row sorted) [] docs.

Definition snapshot_body (foldEnd : Z) (docs : jsmap) : SnapshotBody :=
  Snapshot 0 foldEnd (collection_of currentJsonKey) (sort_docs docs).

(** [Math.round(sum / n)] *)
Definition rounded_mean (sum n : Z) : Z := (2 * sum + n) / (2 * n).

(** The literal of step 7. *)
Definition compacted (current : CurrentJson) (newKey : jsstr) (foldEnd discoveredTail bytes rows slice folded : Z) : CurrentJson :=
  Current (Some newKey) (Z.max (tail_hint current) discoveredTail) foldEnd (writer_fence current) bytes rows
    (Some (if 0 <? folded then rounded_mean slice folded else default 0 (mean_entry_bytes current)))
    (last_warned_seq current) (log_delete_floor current) (generation current) (extra current).

(** The checkpoint literal. *)
Definition checkpointed (current : CurrentJson) (discoveredTail : Z) : CurrentJson :=
  Current (snapshot current) (Z.max (tail_hint current) discoveredTail) (log_seq_start current) (writer_fence current)
    (snapshot_bytes current) (snapshot_rows current) (mean_entry_bytes current) (last_warned_seq current)
    (log_delete_floor current) (generation current) (extra current).

(** The conditional put that ends a run: [lost] on a lost race. *)
Definition swap (current next : CurrentJson) (etag : jsstr) (won lost : CompactResult) : prog CompactResult :=
  bind (check (assertCurrentJsonTransition current next)) (fun _ =>
  bind (encodeJson next) (fun b =>
  attempt (storage_put currentJsonKey b (if_match etag)) (fun r =>
  match r with
  | inr _ => Ret won
  | inl error => if isWriteConflict error then Ret lost else Throw error
  end))).

(** Steps 5 to 8. *)
Definition publish (current : CurrentJson) (etag : jsstr) (discoveredTail : Z) (applied : nat) (docs : jsmap)
    (fetched : list (LogEntry * Z)) : prog CompactResult :=
  let start := logSeqStartOf current in
  let foldEnd := start + Z.of_nat applied in
  let rows := Z.of_nat (length docs) in
  let foldedSliceBytes := foldr Z.add 0 (take applied fetched).*2 in
  bind (or_throw (encodeSnapshotBody (snapshot_body foldEnd docs))) (fun bodyBytes =>
  let bytesFit := within_ceiling (byteLength bodyBytes) (ceilingBytes opts) in
  if negb (bytesFit && within_ceiling rows (ceilingEntries opts))
  then Ret (Compacted false (Some deferred)
              (Some (if bytesFit then dim_rows else dim_bytes, byteLength bodyBytes, rows))
              (snapshot current) None start start 0)
  else
    bind (of_result (snapshotKey (log_prefix_of currentJsonKey) 0 foldEnd (snapshotHash sha256 bodyBytes))) (fun newKey =>
    bind (storage_put newKey bodyBytes unconditional) (fun _ =>
    let folded := foldEnd - start in
    swap current (compacted current newKey foldEnd discoveredTail (byteLength bodyBytes) rows foldedSliceBytes folded) etag
      (Compacted true None None (snapshot current) (Some newKey) start foldEnd folded)
      (Compacted false (Some cas_lost) None (snapshot current) (Some newKey) start start folded)))).

(** Steps 2 to 8, past the threshold. *)
Definition fold_log (current : CurrentJson) (etag : jsstr) (discoveredTail : Z) : prog CompactResult :=
  let start := logSeqStartOf current in
  let foldEnd := Z.min discoveredTail (start + default DEFAULT_MAX_PER_RUN (maxEntriesPerRun opts)) in
  bind match snapshot current with
       | None => Ret []
       | Some key => loadSnapshotAsMap sha256 key (collection_of currentJsonKey)
       end (fun base =>
  bind (walkLogRangeWithBytes byteLength (log_prefix_of currentJsonKey) start foldEnd) (fun fetched =>
  bind (or_throw (apply_prefix base fetched)) (fun '(applied, docs) =>
  if (applied =? 0)%nat && negb (length fetched =? 0)%nat
  then Ret (Compacted false (Some deferred) (Some (dim_rows, snapshot_bytes current, Z.of_nat (length docs)))
              (snapshot current) None start start 0)
  else publish current etag discoveredTail applied docs fetched))).

Definition compact : prog CompactResult :=
  bind (check_options opts) (fun _ =>
  bind (readCurrentJson currentJsonKey) (fun read =>
  match read with
  | None => Ret (Compacted false (Some current_json_missing) None None None 0 0 0)
  | Some read =>
    let current := json read in
    let start := logSeqStartOf current in
    let probeFloor := Z.max (Z.max start (tail_hint current)) (default 0 (knownTail opts)) in
    bind (probe_tail (log_prefix_of currentJsonKey) probeFloor (maxTailProbeGets opts)) (fun '(discoveredTail, tailIsExact) =>
    if discoveredTail - start <? default DEFAULT_MIN_TO_COMPACT (minEntriesToCompact opts) then
      if tailIsExact then Ret (skip_at below_min_threshold current)
      else swap current (checkpointed current discoveredTail) (read_etag read)
             (skip_at probe_budget_checkpointed current) (skip_at cas_lost current)
    else fold_log current (read_etag read) discoveredTail)
  end)).
End compact.

(** ** The sort *)

Lemma insert_doc_perm mixed_lt row l : insert_doc mixed_lt row l ≡ₚ row :: l.
Proof.
  induction l as [|r l IH]; cbn [insert_doc]; [done|]. destruct (js_lt mixed_lt row.1 r.1); [done|].
  rewrite IH. apply Permutation_swap.
Qed.

Lemma sort_docs_perm mixed_lt docs : sort_docs mixed_lt docs ≡ₚ docs.
Proof.
  unfold sort_docs. assert (H : forall acc, foldl (fun sorted row => insert_doc mixed_lt row sorted) acc docs ≡ₚ acc ++ docs).
  { induction docs as [|row docs IH]; intros acc; cbn [foldl]; [by rewrite app_nil_r|].
    rewrite IH, insert_doc_perm. apply Permutation_middle. }
  apply (H []).
Qed.

Lemma map_keys_perm (l k : jsmap) : l ≡ₚ k -> map_keys l ≡ₚ map_keys k.
Proof. intros H. unfold map_keys. by rewrite H. Qed.

Lemma map_get_perm (l k : jsmap) d : l ≡ₚ k -> NoDup (map_keys l) -> map_get d l = map_get d k.
Proof.
  intros Hp Hl. assert (Hk : NoDup (map_keys k)) by (rewrite <- (map_keys_perm l k); done).
  destruct (map_get d l) as [v|] eqn:El.
  - apply map_get_elem in El; [|done]. rewrite Hp in El. symmetry. by apply map_get_elem.
  - destruct (map_get d k) as [v|] eqn:Ek; [|done]. apply map_get_elem in Ek; [|done]. rewrite <- Hp in Ek.
    apply map_get_elem in Ek; [|done]. congruence.
Qed.

(** ** The folded rows *)

Lemma js_get_value o k : json_ok (JObj o) = true -> k <> js "__proto__" -> (k ∉ object_prototype_functions) ->
  js_get o k = JUndef \/ json_ok (js_get o k) = true.
Proof.
  intros [_ Ho]%json_ok_obj H1 H2. unfold js_get. destruct (own_get k o) as [v|] eqn:E.
  - right. apply own_get_In in E. rewrite Forall_forall in Ho. by apply (Ho (k, v)).
  - left. by rewrite decide_False, decide_False.
Qed.

Lemma effect_json coll e d after : json_ok e = true -> entry_effect coll None e = Some (d, after) ->
  json_ok d = true /\ forall v, after = Some v -> json_ok v = true.
Proof.
  intros He. unfold entry_effect. destruct e as [| | | | | |o|]; try done.
  destruct (strict_eq (js_get o (js "collection")) _); [|done]. cbv zeta. rewrite orb_false_r.
  destruct (js_get_value o (js "doc_id") He) as [Ed|Ed]; [js_decide|js_decide|by rewrite Ed|].
  destruct (strict_eq (js_get o (js "doc_id")) JUndef); [done|].
  destruct (js_get_value o (js "after") He) as [Ea|Ea]; [js_decide|js_decide| |];
    repeat (case_match; try done); intros [= <- <-]; (split; [done|]); intros v [= <-]; try done.
  rewrite Ea in *. done.
Qed.

Lemma fold_rows_ok coll es : Forall (fun e => is_object e = true /\ json_ok e = true) es -> forall base docs,
  rows_ok base -> foldLogEntriesOnto coll None es base = Some docs -> rows_ok docs.
Proof.
  induction 1 as [|e es [Ho He] _ IH]; intros base docs Hb; cbn [foldLogEntriesOnto]; [by intros [= <-]|].
  rewrite fold_entry_effect by done. cbn [mbind option_bind]. apply IH. destruct Hb as [Hnd Hb].
  destruct (entry_effect coll None e) as [[d [after|]]|] eqn:E; [| |done].
  - destruct (effect_json _ _ _ _ He E) as [Hd Ha]. split; [by apply map_set_NoDup|].
    clear -Hb Hd Ha. induction Hb as [|[k v] m Hr Hm IH]; cbn [map_set]; [by repeat constructor; auto|].
    case_decide; constructor; try done. split; [apply Hr|by apply Ha].
  - split; [by apply map_delete_NoDup|]. unfold map_delete. apply Forall_forall. intros row [_ Hin]%list_elem_of_filter.
    rewrite Forall_forall in Hb. by apply Hb.
Qed.

Lemma apply_prefix_folds key opts fetched : forall base n docs, apply_prefix key opts base fetched = Some (n, docs) ->
  (n <= length fetched)%nat /\ foldLogEntriesOnto (collection_of key) None (take n fetched.*1) base = Some docs.
Proof.
  induction fetched as [|[e sz] fetched IH]; intros base n docs; cbn [apply_prefix].
  { intros [= <- <-]. done. }
  destruct (stops_at key opts base e) as [[|]|]; cbn [mbind option_bind]; [|  |done].
  { intros [= <- <-]. cbn [take]. split; [lia|done]. }
  destruct (fold_entry _ None base e) as [base'|] eqn:Ef; cbn [mbind option_bind]; [|done].
  destruct (apply_prefix key opts base' fetched) as [[n' docs']|] eqn:Ea; cbn [mbind option_bind]; [|done].
  intros [= <- <-]. destruct (IH _ _ _ Ea) as [Hl Hf]. cbn [length]. split; [lia|].
  rewrite fmap_cons. cbn [take foldLogEntriesOnto fst snd]. rewrite Ef. exact Hf.
Qed.

(** ** Quiet runs *)

Section quiet.
Context (byteLength : bytes -> Z) (byteLength_pos : forall b, 0 <= byteLength b) (sha256 : bytes -> list N) (mixed_lt : jsval -> jsval -> bool) (now : Z).

Lemma collect_sized m p seqs es : collect (slot_entry m p <$> seqs) = inr es ->
  exists l, collect (slot_sized byteLength m p <$> seqs) = inr l /\ l.*1 = es /\ Forall (fun z => 0 <= z) l.*2.
Proof.
  revert es. induction seqs as [|s seqs IH]; intros es; [intros [= <-]; by exists []|]. rewrite !fmap_cons. cbn [collect].
  unfold slot_sized at 1. destruct (slot_entry m p s) as [|e]; [done|].
  destruct (collect (slot_entry m p <$> seqs)) as [|es']; [done|]. intros [= <-].
  destruct (IH es' eq_refl) as (l & -> & <- & Hz). eexists. split; [done|]. split; [done|]. constructor; [|done].
  cbn [snd]. destruct (log_slot m p s) as [b|]; cbn; [apply byteLength_pos|lia].
Qed.

Lemma collect_take {A} (rs : list (result A)) l n : collect rs = inr l -> collect (take n rs) = inr (take n l).
Proof.
  revert l n. induction rs as [|r rs IH]; intros l n; [intros [= <-]; by destruct n|]. cbn [collect].
  destruct r as [e|a]; [done|]. destruct (collect rs) as [e|l'] eqn:E; [done|]. intros [= <-].
  destruct n as [|n]; [done|]. cbn [take collect]. by rewrite (IH l' n eq_refl).
Qed.

Lemma collect_drop {A} (rs : list (result A)) l n : collect rs = inr l -> collect (drop n rs) = inr (drop n l).
Proof.
  revert l n. induction rs as [|r rs IH]; intros l n; [intros [= <-]; by destruct n|]. cbn [collect].
  destruct r as [e|a]; [done|]. destruct (collect rs) as [e|l'] eqn:E; [done|]. intros [= <-].
  destruct n as [|n]; cbn [drop collect]; [by rewrite E|]. by apply IH.
Qed.

Lemma seqZ_take s k n : 0 <= k <= n -> take (Z.to_nat k) (seqZ s n) = seqZ s k.
Proof.
  intros H. replace n with (k + (n - k)) by lia. rewrite seqZ_app by lia. rewrite take_app_length'; [done|].
  rewrite length_seqZ. lia.
Qed.

Lemma seqZ_drop s k n : 0 <= k <= n -> drop (Z.to_nat k) (seqZ s n) = seqZ (s + k) (n - k).
Proof.
  intros H. replace n with (k + (n - k)) at 1 by lia. rewrite seqZ_app by lia. rewrite drop_app_length'; [done|].
  rewrite length_seqZ. lia.
Qed.

Lemma log_ends_raise m p hint hint' tail : log_ends m p hint tail -> hint <= hint' <= tail -> log_ends m p hint' tail.
Proof. intros (H1 & H2 & H3) Hh. split; [lia|]. split; [|done]. intros s Hs. apply H2. lia. Qed.

(** The probe finds a certified bound at or below the tail. *)
Lemma run_probe_tail m p floor budget start tail entries : valid_prefix p -> start <= floor <= tail ->
  log_ends m p floor tail -> collect (slot_entry m p <$> seqZ start (tail - start)) = inr entries ->
  (forall n, budget = Some n -> 0 <= n) ->
  exists r, run now (probe_tail p floor budget) m = (r, m) /\
    forall d exact, r = inr (d, exact) -> floor <= d <= tail /\ (budget = None -> d = tail).
Proof.
  intros Hp Hr He Hd Hb. assert (Hall : all_decoded m p (seqZ floor (tail - floor)) = true).
  { apply (collect_drop _ _ (Z.to_nat (floor - start))) in Hd. rewrite <- fmap_drop, seqZ_drop in Hd by lia.
    replace (start + (floor - start)) with floor in Hd by lia.
    replace (tail - start - (floor - start)) with (tail - floor) in Hd by lia. by apply decoded_collect in Hd as [? _]. }
  unfold probe_tail. destruct budget as [n|].
  - specialize (Hb n eq_refl). eexists. split.
    + rewrite run_bind. unfold probeTailChunk. rewrite (run_probe_strict now p m Hp _ _ tail) by done.
      by rewrite (run_probe_tolerant now p m Hp _ _ tail).
    + rewrite Z2Nat.id by lia. intros d exact. destruct (Z.ltb_spec tail (floor + n)); intros [= <- _]; (split; [lia|done]).
  - exists (if tail <? floor + LOG_FORWARD_PROBE_CAP then inr (tail, true) else inl (new_error Internal)). split.
    + rewrite run_bind. unfold probeTailFrom. rewrite (run_probeTailFrom now p m _ tail) by (done || (unfold LOG_FORWARD_PROBE_CAP; lia)).
      by destruct (tail <? floor + LOG_FORWARD_PROBE_CAP).
    + intros d exact. destruct (tail <? floor + LOG_FORWARD_PROBE_CAP); [|done]. intros [= <- _]. split; [lia|done].
Qed.

(** The walk of a dense prefix fetches its entries. *)
Lemma run_fetch m p start foldEnd tail entries : valid_prefix p -> foldEnd <= tail ->
  collect (slot_entry m p <$> seqZ start (tail - start)) = inr entries ->
  exists l, run now (walkLogRangeWithBytes byteLength p start foldEnd) m = (inr l, m) /\
    l.*1 = take (Z.to_nat (foldEnd - start)) entries /\ Forall (fun z => 0 <= z) l.*2.
Proof.
  intros Hp Hle Hd. rewrite run_walkLogRangeWithBytes by done.
  assert (Hd' : collect (slot_entry m p <$> seqZ start (foldEnd - start)) = inr (take (Z.to_nat (foldEnd - start)) entries)).
  { destruct (Z.leb_spec 0 (foldEnd - start)).
    - apply (collect_take _ _ (Z.to_nat (foldEnd - start))) in Hd. by rewrite <- fmap_take, seqZ_take in Hd by lia.
    - rewrite seqZ_nil by lia. by rewrite Z2Nat.nonpos by lia. }
  destruct (collect_sized _ _ _ _ Hd') as (l & Hl & El & Hz). exists l. by rewrite Hl.
Qed.

Lemma collect_length {A} (rs : list (result A)) l : collect rs = inr l -> length l = length rs.
Proof.
  revert l. induction rs as [|[e|a] rs IH]; intros l; cbn [collect]; [by intros [= <-]|done|].
  destruct (collect rs) as [e|l']; [done|]. intros [= <-]. cbn [length]. by rewrite (IH l').
Qed.

(** The conditional put of a quiet run. *)
Lemma run_swap key m o current next won lost : assertValidStorageKey key = None -> objects m !! key = Some o -> extras_ok next ->
  run now (swap key current next (stored_etag o) won lost) m =
    match assertCurrentJsonTransition current next with
    | Some e => (inl e, m)
    | None => (inr won, (memory_store key (JsonText (current_json next)) m).2)
    end.
Proof.
  intros Hk Ho Hex. unfold swap. rewrite run_bind, run_check. destruct (assertCurrentJsonTransition current next) as [e|]; [done|].
  rewrite run_bind. unfold encodeJson. rewrite encode_current by done. cbn [run]. rewrite run_attempt, run_put.
  unfold memory_put. rewrite Hk, Ho. unfold put_precondition. cbn [if_match ifNoneMatch ifMatch andb].
  rewrite bool_decide_eq_true_2 by done. by destruct (memory_store key _ m).
Qed.

Context (ctx : CollectionReadContext).

(** A manifest moved past a folded prefix serves the same rows. *)
Lemma serves_next m m' head head' etag' base base' mid docs entries tail n : serves sha256 m ctx head base docs entries tail ->
  (forall s, objects m' !! logObjectKey (collectionPrefix ctx) s = objects m !! logObjectKey (collectionPrefix ctx) s) ->
  read_manifest (collectionPrefix ctx ++ js "/current.json") m' = inr (Some (CurrentRead head' etag')) ->
  base_of sha256 m' ctx head' base' -> rows_ok base' ->
  log_seq_start head' = log_seq_start head + Z.of_nat n -> (n <= length entries)%nat ->
  Z.max (log_seq_start head) (tail_hint head) <= Z.max (log_seq_start head') (tail_hint head') <= tail ->
  foldLogEntriesOnto (collectionName ctx) None (take n entries) base = Some mid -> (forall d, map_get d base' = map_get d mid) ->
  exists docs', serves sha256 m' ctx head' base' docs' (drop n entries) tail /\ forall d, map_get d docs' = map_get d docs.
Proof.
  intros [Hp Hk _ _ _ Hd He Hc Hobj Hf] Hlog Hh Hb Hr Hstart Hn Hmax Hmid Hget.
  assert (Hslot : forall s, log_slot m' (collectionPrefix ctx) s = log_slot m (collectionPrefix ctx) s).
  { intros s. unfold log_slot. by rewrite Hlog. }
  pose proof (collect_length _ _ Hd) as Hlen. rewrite length_fmap, length_seqZ in Hlen. pose proof (proj1 He) as Hle.
  destruct (fold_row_after (collectionName ctx) None (drop n entries) base') as (docs' & Hf' & _ & Hg').
  { apply Forall_drop. by apply only_objects. }
  assert (Hdocs : forall d, map_get d docs' = map_get d docs).
  { intros d. rewrite Hg', Hget.
    destruct (fold_row_after (collectionName ctx) None (take n entries) base) as (mid' & Em & _ & Hgm); [by apply Forall_take, only_objects|].
    rewrite Hmid in Em. injection Em as <-. rewrite Hgm, <- row_after_app, take_drop.
    destruct (fold_row_after (collectionName ctx) None entries base) as (docs0 & E0 & _ & Hg0); [by apply only_objects|].
    rewrite Hf in E0. injection E0 as <-. by rewrite Hg0. }
  exists docs'. split; [|done]. split; try done.
  - by exists etag'.
  - apply (collect_drop _ _ n) in Hd. rewrite <- fmap_drop in Hd. rewrite Hstart.
    replace n with (Z.to_nat (Z.of_nat n)) in Hd at 1 by lia. rewrite seqZ_drop in Hd by lia.
    replace (tail - (log_seq_start head + Z.of_nat n)) with (tail - log_seq_start head - Z.of_nat n) by lia. rewrite <- Hd. f_equal.
    apply list_fmap_ext. intros i s _. unfold slot_entry. by rewrite Hslot.
  - apply (log_ends_raise _ _ _ _ _ He) in Hmax as (H1 & H2 & H3).
    assert (Hocc : forall s, occupied m' (collectionPrefix ctx) s = occupied m (collectionPrefix ctx) s).
    { intros s. unfold occupied. by rewrite Hslot. }
    split; [done|]. split; intros s Hs; rewrite Hocc; auto.
  - lia.
  - by apply Forall_drop.
Qed.

Lemma snapshotKey_shape p lo hi h key : snapshotKey p lo hi h = inr key ->
  (exists t, key = p ++ js "/snapshot/L" ++ t) /\ 0 <= lo <= hi /\ hi <= MAX_SEQ.
Proof.
  unfold snapshotKey. destruct ((lo <? 0) || _ || _ || _) eqn:E; [done|]. destruct (negb (is_digest h)); [done|]. intros Hk.
  rewrite !orb_false_iff, !Z.ltb_ge in E. split; [|lia]. eexists. assert (key = p ++ js "/snapshot/L" ++ show_Z SNAPSHOT_LEVEL ++ js "/" ++
    pad lo ++ js "-" ++ pad hi ++ js "-" ++ h ++ js ".json") as -> by congruence. reflexivity.
Qed.

Lemma starts_with_app_l p a b : starts_with (p ++ a) (p ++ b) = starts_with a b.
Proof. apply Bool.eq_true_iff_eq. rewrite !starts_with_spec. setoid_rewrite <- app_assoc. split; intros [t E]; exists t; [by eapply app_inv_head|by rewrite E]. Qed.

Lemma sum_pos l : Forall (fun z => 0 <= z) l -> 0 <= foldr Z.add 0 l.
Proof. induction 1; cbn [foldr]; lia. Qed.

Lemma shape_compacted c newKey foldEnd d bytes rows slice n : shape_ok c -> log_seq_start c <= foldEnd <= d -> 0 <= bytes -> 0 <= rows ->
  0 <= slice -> shape_ok (compacted c newKey foldEnd d bytes rows slice n).
Proof.
  intros (H1 & H2 & H3 & H4 & H5 & H6 & H7 & H8) Hf Hb Hr Hs. unfold shape_ok, compacted.
  cbn [log_seq_start tail_hint writer_fence snapshot_bytes snapshot_rows last_warned_seq log_delete_floor mean_entry_bytes generation].
  split_and!; try done; try lia. cbn [opt_nonneg]. destruct (Z.ltb_spec 0 n).
  - unfold rounded_mean. apply Z.div_pos; lia.
  - by destruct (mean_entry_bytes c).
Qed.

Lemma shape_checkpointed c d : shape_ok c -> shape_ok (checkpointed c d).
Proof.
  intros (H1 & H2 & H3 & H4 & H5 & H6 & H7 & H8). unfold shape_ok, checkpointed.
  cbn [log_seq_start tail_hint writer_fence snapshot_bytes snapshot_rows last_warned_seq log_delete_floor mean_entry_bytes generation].
  split_and!; try done; lia.
Qed.

Context (opts : CompactOptions) (digest : digest_ok sha256).
Abbreviation key := (collectionPrefix ctx ++ js "/current.json").

(** What a compaction may change in the manifest beside the log start: the hint moves up,
    the snapshot to a key that names the new log start. *)
Definition follows (head head' : CurrentJson) : Prop :=
  logDeleteFloorOf head' = logDeleteFloorOf head /\ tail_hint head <= tail_hint head' /\
  ((snapshot head' = snapshot head /\ log_seq_start head' = log_seq_start head) \/
   exists h k, snapshotKey (collectionPrefix ctx) 0 (log_seq_start head') h = inr k /\ snapshot head' = Some k).

Lemma follows_refl head : follows head head.
Proof. split; [done|]. split; [lia|by left]. Qed.

(** A run with no ceiling and no probe budget. *)
Definition unbounded : Prop := ceilingEntries opts = None /\ ceilingBytes opts = None /\ maxTailProbeGets opts = None.

(** The most entries a run folds: the backlog, up to the limit per run. *)
Definition most (head : CurrentJson) (tail : Z) : Z :=
  Z.min (tail - log_seq_start head) (default DEFAULT_MAX_PER_RUN (maxEntriesPerRun opts)).

Definition due (head : CurrentJson) (tail : Z) : bool :=
  default DEFAULT_MIN_TO_COMPACT (minEntriesToCompact opts) <=? tail - log_seq_start head.

(** What a result reports is what happened to the manifest: a written run moved the log
    start past the entries it folded and named its snapshot, any other moved neither; and
    an unbounded run is written exactly when it is due, and folds the most it may. *)
Definition moved (head head' : CurrentJson) (tail : Z) (res : CompactResult) : Prop :=
  logSeqStartBefore res = log_seq_start head /\ logSeqStartAfter res = log_seq_start head' /\
  (if written res
   then log_seq_start head' = log_seq_start head + entriesFolded res /\ 0 <= entriesFolded res <= most head tail /\
        snapshot head' = newSnapshotKey res
   else log_seq_start head' = log_seq_start head /\ snapshot head' = snapshot head) /\
  (unbounded -> written res = due head tail /\ (written res = true -> entriesFolded res = most head tail)).

(** A result that leaves the manifest's log start and snapshot. *)
Definition skips (head : CurrentJson) (tail : Z) (res : CompactResult) : Prop :=
  logSeqStartBefore res = log_seq_start head /\ logSeqStartAfter res = log_seq_start head /\ written res = false /\
  (unbounded -> due head tail = false).

Lemma skips_moved head head' tail res : skips head tail res -> log_seq_start head' = log_seq_start head -> snapshot head' = snapshot head ->
  moved head head' tail res.
Proof.
  intros (H1 & H2 & H3 & H4) E1 E2. split; [done|]. split; [by rewrite E1|]. rewrite H3. split; [done|].
  intros Hu. split; [by rewrite H4|done].
Qed.

(** The rows are kept, and the result tells where the log now starts. *)
Definition kept (head : CurrentJson) (tail : Z) (docs : jsmap) (out : result CompactResult * MemoryStorage) : Prop :=
  exists head' base' docs' entries', serves sha256 out.2 ctx head' base' docs' entries' tail /\
    (forall d, map_get d docs' = map_get d docs) /\ log_seq_start head <= log_seq_start head' /\
    (forall res, out.1 = inr res -> log_seq_start head' = logSeqStartAfter res) /\ follows head head' /\
    (forall res, out.1 = inr res -> written res = true -> maxTailProbeGets opts = None -> tail_hint head' = tail) /\
    (forall res, out.1 = inr res -> moved head head' tail res) /\ (forall e, out.1 = inl e -> head' = head).

Lemma kept_same m head base docs entries tail r : serves sha256 m ctx head base docs entries tail ->
  (forall res, r = inr res -> skips head tail res) -> kept head tail docs (r, m).
Proof.
  intros Hs Hr. exists head, base, docs, entries. split; [done|]. split; [done|]. split; [lia|].
  split; [by intros res (_ & -> & _)%Hr|]. split; [apply follows_refl|]. split; [intros res (_ & _ & Hw & _)%Hr; by rewrite Hw|].
  split; [|done]. intros res Hres. apply skips_moved; [by apply Hr|done|done].
Qed.

Lemma read_swapped m c : extras_ok c -> shape_ok c ->
  read_manifest key (memory_store key (JsonText (current_json c)) m).2 =
    inr (Some (CurrentRead c (memory_store key (JsonText (current_json c)) m).1)).
Proof.
  intros He Hsh. unfold read_manifest. rewrite memory_store_lookup, decide_True by done. cbn [stored_body stored_etag].
  by rewrite decode_encode_current.
Qed.

Lemma key_not_log s : key <> logObjectKey (collectionPrefix ctx) s.
Proof. apply not_a_log_key. by rewrite starts_with_app_l. Qed.

Lemma run_publish m head base docs entries tail o d n mid l : serves sha256 m ctx head base docs entries tail ->
  collectionName ctx = collection_of key -> objects m !! key = Some o -> extras_ok head -> shape_ok head ->
  logDeleteFloorOf head <= log_seq_start head -> Z.max (log_seq_start head) (tail_hint head) <= d <= tail ->
  (n <= length entries)%nat -> log_seq_start head + Z.of_nat n <= d -> Forall (fun z => 0 <= z) l.*2 ->
  foldLogEntriesOnto (collectionName ctx) None (take n entries) base = Some mid ->
  (maxTailProbeGets opts = None -> d = tail) -> Z.of_nat n <= most head tail ->
  (unbounded -> due head tail = true /\ Z.of_nat n = most head tail) ->
  kept head tail docs (run now (publish byteLength sha256 mixed_lt key opts head (stored_etag o) d n mid l) m).
Proof.
  intros Hs Hc Ho Hex Hsh Hfl Hd Hn Hend Hl Hmid Hexact Hmost Hall. pose proof Hs as [Hp Hk _ Hb Hrows _ _ _ Hobj _]. unfold publish. cbv zeta.
  unfold logSeqStartOf. set (foldEnd := log_seq_start head + Z.of_nat n) in *.
  assert (Hmidok : rows_ok mid) by (eapply fold_rows_ok; [by apply Forall_take|exact Hrows|exact Hmid]).
  rewrite run_bind. unfold or_throw. rewrite run_of_result.
  destruct (encodeSnapshotBody (snapshot_body mixed_lt key foldEnd mid)) as [b|] eqn:Eb; [|by eapply kept_same].
  destruct (negb (within_ceiling (byteLength b) (ceilingBytes opts) && within_ceiling (Z.of_nat (length mid)) (ceilingEntries opts))) eqn:Efit.
  { eapply kept_same; [exact Hs|]. intros res [= <-]. split; [done|]. split; [done|]. split; [done|]. intros (E1 & E2 & _).
    by rewrite E1, E2 in Efit. }
  rewrite run_bind, run_of_result. rewrite current_key_prefix.
  destruct (snapshotKey (collectionPrefix ctx) 0 foldEnd (snapshotHash sha256 b)) as [e|newKey] eqn:Enk; [by eapply kept_same|].
  destruct (snapshotKey_shape _ _ _ _ _ Enk) as ((t & Et) & Hlo & Hhi).
  assert (Hnl : forall s, newKey <> logObjectKey (collectionPrefix ctx) s).
  { intros s. apply not_a_log_key. by rewrite Et, starts_with_app_l. }
  assert (Hnk : newKey <> key) by (rewrite Et; intros E%app_inv_head; discriminate).
  rewrite run_bind, run_put. unfold memory_put. destruct (assertValidStorageKey newKey) as [e|] eqn:Ev; [by eapply kept_same|].
  cbn [put_precondition unconditional ifNoneMatch ifMatch andb].
  pose proof (memory_store_lookup newKey b m) as Hlook. destruct (memory_store newKey b m) as [e1 m1]. cbn [fst snd] in Hlook.
  assert (Ho1 : objects m1 !! key = Some o) by (by rewrite Hlook, decide_False).
  set (next := compacted head newKey foldEnd d (byteLength b) (Z.of_nat (length mid)) (foldr Z.add 0 (take n l).*2) (foldEnd - log_seq_start head)).
  rewrite (run_swap key m1 o head next) by done.
  assert (Hnext : shape_ok next).
  { apply shape_compacted; try done; try lia. apply sum_pos. rewrite fmap_take. by apply Forall_take. }
  rewrite (proj2 (transition_spec head next)).
  2: { unfold floors_le. change (log_seq_start next) with foldEnd. change (logDeleteFloorOf next) with (logDeleteFloorOf head). lia. }
  pose proof (sort_docs_perm mixed_lt mid) as Hperm.
  destruct (serves_next m (memory_store key (JsonText (current_json next)) m1).2 head next (memory_store key (JsonText (current_json next)) m1).1
    base (sort_docs mixed_lt mid) mid docs entries tail n) as (docs' & Hs' & Hg'); try done.
  - intros s. rewrite memory_store_lookup, decide_False by apply key_not_log. rewrite Hlook. by rewrite decide_False.
  - by apply read_swapped.
  - unfold base_of. cbn [snapshot compacted next]. split; [done|]. split; [by split|]. eexists. split.
    + rewrite memory_store_lookup, decide_False by congruence. by rewrite Hlook, decide_True.
    + cbn [stored_body]. rewrite Hc. apply (open_own_snapshot sha256 (collectionPrefix ctx) (snapshot_body mixed_lt key foldEnd mid) b 0 foldEnd); try done.
      cbn [Snapshot.docs snapshot_body]. destruct Hmidok as [Hnd Hj]. split; [by rewrite (map_keys_perm _ _ Hperm)|by rewrite Hperm].
  - destruct Hmidok as [Hnd Hj]. split; [by rewrite (map_keys_perm _ _ Hperm)|by rewrite Hperm].
  - cbn [log_seq_start tail_hint compacted next]. destruct Hsh as [Hsh _]. lia.
  - intros dd. apply map_get_perm; [done|]. rewrite (map_keys_perm _ _ Hperm). apply Hmidok.
  - exists next, (sort_docs mixed_lt mid), docs', (drop n entries). split; [exact Hs'|]. split; [done|].
    split; [cbn [log_seq_start compacted next]; lia|]. split; [by intros res [= <-]|]. split.
    + split; [done|]. cbn [tail_hint snapshot compacted next]. split; [lia|]. right. by eexists _, newKey.
    + split; [intros res [= <-] _ Hm; cbn [tail_hint compacted next]; specialize (Hexact Hm); destruct Hsh as [Hsh _]; lia|].
      split; [|done]. intros res [= <-]. split; [done|]. split; [done|]. cbn [written entriesFolded newSnapshotKey]. split.
      * cbn [log_seq_start snapshot compacted next]. split; [lia|]. split; [lia|done].
      * intros [Hdue Hn']%Hall. split; [done|]. intros _. lia.
Qed.

(** Without a row ceiling the whole fetched prefix is applied. *)
Lemma apply_prefix_all coll_key fetched : ceilingEntries opts = None -> forall base n docs,
  apply_prefix coll_key opts base fetched = Some (n, docs) -> n = length fetched.
Proof.
  intros Hc. induction fetched as [|[e sz] fetched IH]; intros base n docs; cbn [apply_prefix]; [by intros [= <- <-]|].
  destruct (stops_at coll_key opts base e) as [[|]|] eqn:Es; cbn [mbind option_bind]; [| |done].
  - exfalso. unfold stops_at in Es. rewrite Hc in Es. cbn [below_ceiling negb] in Es.
    destruct (prop (js "collection") e) as [c|]; cbn [mbind option_bind] in Es; [|done]. destruct (negb (strict_eq c _)); [done|].
    destruct (prop (js "doc_id") e); cbn [mbind option_bind] in Es; [|done]. destruct (prop (js "op") e); cbn [mbind option_bind] in Es; [|done].
    destruct (prop (js "after") e); cbn [mbind option_bind] in Es; [|done]. injection Es as Es. by rewrite andb_false_r in Es.
  - destruct (fold_entry _ None base e) as [base'|]; cbn [mbind option_bind]; [|done].
    destruct (apply_prefix coll_key opts base' fetched) as [[n' docs']|] eqn:Ea; cbn [mbind option_bind]; [|done].
    intros [= <- <-]. cbn [length fst]. by rewrite (IH _ _ _ Ea).
Qed.

Lemma run_fold_log m head base docs entries tail o d : serves sha256 m ctx head base docs entries tail ->
  collectionName ctx = collection_of key -> objects m !! key = Some o -> extras_ok head -> shape_ok head ->
  logDeleteFloorOf head <= log_seq_start head -> Z.max (log_seq_start head) (tail_hint head) <= d <= tail ->
  (maxTailProbeGets opts = None -> d = tail) -> (maxTailProbeGets opts = None -> due head tail = true) ->
  0 <= default DEFAULT_MAX_PER_RUN (maxEntriesPerRun opts) ->
  kept head tail docs (run now (fold_log byteLength sha256 mixed_lt key opts head (stored_etag o) d) m).
Proof.
  intros Hs Hc Ho Hex Hsh Hfl Hd Hexact Hdue Hper. pose proof Hs as [Hp Hk _ Hb Hrows Hdense Hends _ Hobj _].
  pose proof (proj1 Hends) as Hle. pose proof (collect_length _ _ Hdense) as Hlen. rewrite length_fmap, length_seqZ in Hlen. unfold fold_log. cbv zeta.
  unfold logSeqStartOf. set (foldEnd := Z.min d (log_seq_start head + _)).
  assert (Hbase : run now match snapshot head with
      | Some k => loadSnapshotAsMap sha256 k (collection_of key) | None => Ret [] end m = (inr base, m)).
  { rewrite <- Hc. apply (run_base sha256 now m ctx head base Hb). }
  rewrite run_bind, Hbase, run_bind, current_key_prefix.
  destruct (run_fetch m (collectionPrefix ctx) (log_seq_start head) foldEnd tail entries Hp ltac:(lia) Hdense) as (l & -> & El & Hz).
  rewrite run_bind. unfold or_throw. rewrite run_of_result.
  destruct (apply_prefix key opts base l) as [[n mid]|] eqn:Ea; [|by eapply kept_same].
  assert (Hall : ceilingEntries opts = None -> n = length l) by (intros Hce; by eapply apply_prefix_all).
  apply apply_prefix_folds in Ea as [Hn Hmid]. rewrite <- Hc, El, take_take in Hmid.
  assert (Hll : length l = Nat.min (Z.to_nat (foldEnd - log_seq_start head)) (length entries)).
  { by rewrite <- (length_fmap fst l), El, length_take. }
  rewrite Nat.min_l in Hmid by lia.
  destruct ((n =? 0)%nat && negb (length l =? 0)%nat) eqn:E0.
  { eapply kept_same; [exact Hs|]. intros res [= <-]. split; [done|]. split; [done|]. split; [done|]. intros (Hce & _ & Hb').
    apply andb_true_iff in E0 as [E1%Nat.eqb_eq E2%negb_true_iff%Nat.eqb_neq]. specialize (Hall Hce). lia. }
  apply (run_publish m head base docs entries tail o d n mid l); try done; [lia|lia|..]; unfold most.
  - lia.
  - intros (Hce & _ & Hb'). split; [by apply Hdue|]. rewrite (Hall Hce). specialize (Hexact Hb'). lia.
Qed.

Lemma run_compact m head base docs entries tail : serves sha256 m ctx head base docs entries tail ->
  collectionName ctx = collection_of key -> logDeleteFloorOf head <= log_seq_start head ->
  (forall n, knownTail opts = Some n -> n <= tail) ->
  kept head tail docs (run now (compact byteLength sha256 mixed_lt key opts) m).
Proof.
  intros Hs Hc Hfl Hkt. pose proof Hs as [Hp Hk (etag & Hh) _ Hrows Hdense Hends _ _ _]. unfold compact.
  assert (Hopts : exists r, run now (check_options opts) m = (r, m) /\
    forall u, r = inr u -> 0 <= default DEFAULT_MAX_PER_RUN (maxEntriesPerRun opts) /\
      forall n, maxTailProbeGets opts = Some n -> 0 <= n).
  { unfold check_options. rewrite run_bind, run_check. unfold requireIntegerOption at 1.
    destruct (Z.ltb_spec (default DEFAULT_MAX_PER_RUN (maxEntriesPerRun opts)) 0) as [|Hper]; [by eexists|].
    rewrite run_bind, run_check. destruct (requireIntegerOption _ 0); [by eexists|]. rewrite run_check.
    destruct (maxTailProbeGets opts) as [n|]; [|by eexists]. eexists. split; [done|]. intros u Hu. split; [done|]. intros n' [= <-].
    unfold requireIntegerOption in Hu. destruct (Z.ltb_spec n 1); [done|lia]. }
  destruct Hopts as (r & Hr & Hcap). rewrite run_bind, Hr. destruct r as [e|u]; [by eapply kept_same|].
  destruct (Hcap u eq_refl) as [Hper Hcap']. clear Hcap. rename Hcap' into Hcap. rewrite run_bind, run_readCurrentJson, Hh by done. cbn [json read_etag]. cbv zeta. unfold logSeqStartOf.
  unfold read_manifest in Hh. destruct (objects m !! key) as [o|] eqn:Eo; [|done].
  destruct (decode_current (stored_body o)) as [|c] eqn:Ec; [done|]. injection Hh as -> <-.
  destruct (decode_current_wf _ _ Ec) as [Hex Hsh].
  set (floor := Z.max (Z.max (log_seq_start head) (tail_hint head)) (default 0 (knownTail opts))).
  pose proof (proj1 Hends) as Hle. destruct (proj1 Hsh) as [Hs0 Hs1].
  assert (Hfloor : Z.max (log_seq_start head) (tail_hint head) <= floor <= tail).
  { subst floor. destruct (knownTail opts) as [k|]; cbn [default from_option id]; [specialize (Hkt k eq_refl)|]; lia. }
  rewrite current_key_prefix, run_bind.
  destruct (run_probe_tail m (collectionPrefix ctx) floor (maxTailProbeGets opts) (log_seq_start head) tail entries Hp ltac:(lia)
    (log_ends_raise _ _ _ _ _ Hends Hfloor) Hdense Hcap) as (rp & -> & Hd).
  destruct rp as [e|[d exact]]; [by eapply kept_same|]. destruct (Hd d exact eq_refl) as [Hdr Hexact]. clear Hd.
  unfold kept. destruct (Z.ltb_spec (d - log_seq_start head) (default DEFAULT_MIN_TO_COMPACT (minEntriesToCompact opts))) as [Hlt|Hge].
  2: { apply (run_fold_log m head base docs entries tail o d); try (done || lia). intros Hb. unfold due. rewrite <- (Hexact Hb). by apply Z.leb_le. }
  assert (Hskip : unbounded -> due head tail = false).
  { intros (_ & _ & Hb). unfold due. rewrite <- (Hexact Hb). by apply Z.leb_gt. }
  destruct exact; [eapply kept_same; [exact Hs|]; by intros res [= <-]|].
  rewrite (run_swap key m o head (checkpointed head d)) by done.
  rewrite (proj2 (transition_spec head (checkpointed head d))).
  2: { unfold floors_le. change (logDeleteFloorOf (checkpointed head d)) with (logDeleteFloorOf head). cbn [log_seq_start checkpointed]. lia. }
  destruct (serves_next m (memory_store key (JsonText (current_json (checkpointed head d))) m).2 head (checkpointed head d)
    (memory_store key (JsonText (current_json (checkpointed head d))) m).1 base base base docs entries tail 0) as (docs' & Hs' & Hg');
    try done.
  - intros s. rewrite memory_store_lookup, decide_False by apply key_not_log. done.
  - apply read_swapped; [done|by apply shape_checkpointed].
  - destruct Hs as [_ _ _ Hb _ _ _ _ _ _]. unfold base_of in *. cbn [snapshot checkpointed].
    destruct (snapshot head) as [k|]; [|done]. destruct Hb as (H1 & H2 & o' & H3 & H4). split; [done|]. split; [done|]. exists o'.
    rewrite memory_store_lookup, decide_False; [done|]. intros E. by destruct H2 as [_ []].
  - cbn [log_seq_start checkpointed]. lia.
  - lia.
  - cbn [log_seq_start tail_hint checkpointed]. lia.
  - exists (checkpointed head d), base, docs', entries. split; [exact Hs'|]. split; [done|].
    split; [cbn [log_seq_start checkpointed]; lia|]. split; [by intros res [= <-]|]. split.
    + split; [done|]. cbn [tail_hint snapshot checkpointed]. split; [lia|by left].
    + split; [by intros res [= <-]|]. split; [|done]. intros res [= <-]. by apply skips_moved.
Qed.
End quiet.

(** Compaction and the represented map. *)
Lemma compact_represents byteLength sha256 mixed_lt now ctx opts m head tail s :
  let key := collectionPrefix ctx ++ js "/current.json" in
  let out := run now (compact byteLength sha256 mixed_lt key opts) m in
  (forall b, 0 <= byteLength b) -> digest_ok sha256 -> collectionName ctx = collection_of key ->
  represents sha256 ctx m head tail s -> logDeleteFloorOf head <= log_seq_start head ->
  (forall n, knownTail opts = Some n -> n <= tail) ->
  exists head', represents sha256 ctx out.2 head' tail s /\ log_seq_start head <= log_seq_start head' /\
    (forall res, out.1 = inr res -> log_seq_start head' = logSeqStartAfter res) /\ follows ctx head head' /\
    (forall res, out.1 = inr res -> written res = true -> maxTailProbeGets opts = None -> tail_hint head' = tail) /\
    (forall res, out.1 = inr res -> moved opts head head' tail res) /\ (forall e, out.1 = inl e -> head' = head).
Proof.
  intros key out Hpos Hdig Hc [(base & docs & entries & Hs & Hden)] Hfl Hkt.
  destruct (run_compact byteLength Hpos sha256 mixed_lt now ctx opts Hdig m head base docs entries tail Hs Hc Hfl Hkt)
    as (head' & base' & docs' & entries' & Hs' & Hg & Hle & Hres & Hfol & Hhint).
  exists head'. split; [|by split]. split. exists base', docs', entries'. split; [exact Hs'|]. intros id. by rewrite Hg.
Qed.

(** ** Theorems *)

(** C7: Compaction refines doing nothing: run on objects that represent the rows [s], in
    every outcome (below the threshold, checkpointed, deferred, written, or an error) it
    leaves objects that represent the same [s] under the same tail.  A written run moved
    the manifest's log start up by exactly the entries it reports as folded, at most the
    backlog and the limit per run, and the manifest names the snapshot it reports; any
    other run moved neither, and one that threw left the manifest as it was.  Without
    ceilings and probe budget a run that answers is written exactly when the backlog
    reaches the threshold, and then folds all of it, up to the limit per run. *)
Theorem compact_keeps_the_map byteLength sha256 mixed_lt now ctx opts m head tail s :
  let key := collectionPrefix ctx ++ js "/current.json" in
  let out := run now (compact byteLength sha256 mixed_lt key opts) m in
  let backlog := tail - log_seq_start head in
  let limit := default DEFAULT_MAX_PER_RUN (maxEntriesPerRun opts) in
  (forall b, 0 <= byteLength b) -> digest_ok sha256 -> collectionName ctx = collection_of key ->
  represents sha256 ctx m head tail s -> logDeleteFloorOf head <= log_seq_start head ->
  (forall n, knownTail opts = Some n -> n <= tail) ->
  exists head', represents sha256 ctx out.2 head' tail s /\
    match out.1 with
    | inl _ => head' = head
    | inr res =>
      logSeqStartBefore res = log_seq_start head /\ logSeqStartAfter res = log_seq_start head' /\
      (if written res
       then log_seq_start head' = log_seq_start head + entriesFolded res /\ 0 <= entriesFolded res <= Z.min backlog limit /\
            snapshot head' = newSnapshotKey res
       else log_seq_start head' = log_seq_start head /\ snapshot head' = snapshot head) /\
      (ceilingEntries opts = None -> ceilingBytes opts = None -> maxTailProbeGets opts = None ->
         (written res = true <-> default DEFAULT_MIN_TO_COMPACT (minEntriesToCompact opts) <= backlog) /\
         (written res = true -> entriesFolded res = Z.min backlog limit))
    end.
Proof.
  intros key out backlog limit Hpos Hdig Hc Hrep Hfl Hkt.
  destruct (compact_represents byteLength sha256 mixed_lt now ctx opts m head tail s)
    as (head' & Hrep' & _ & _ & _ & _ & Hres & Herr); try done.
  exists head'. split; [exact Hrep'|]. fold key out in Hres, Herr. destruct out.1 as [e|res]; [by apply (Herr e)|].
  destruct (Hres res eq_refl) as (H1 & H2 & H3 & H4). split; [done|]. split; [done|]. split; [exact H3|].
  intros E1 E2 E3. destruct H4 as [Hw Hf]; [done|]. split; [|exact Hf]. rewrite Hw. unfold due. apply Z.leb_le.
Qed.

Definition sample_opts : CompactOptions := CompactOpts (Some 1) None None None None None.

Lemma compact_keeps_the_map_witness :
  exists head', represents sample_sha256 (sample_ctx [])
      (run 0 (compact (fun _ => 40) sample_sha256 (fun _ _ => false) (js "a/t/current.json") sample_opts) sample_served).2
      head' 1 {[js "d1" := JObj sample_row]} /\
    log_seq_start head' = 1.
Proof.
  destruct (compact_keeps_the_map (fun _ => 40) sample_sha256 (fun _ _ => false) 0 (sample_ctx []) sample_opts sample_served
    sample_read_head 1 {[js "d1" := JObj sample_row]}) as (head' & Hrep & Hres).
  - intros _. lia.
  - apply sample_digest_ok.
  - vm_compute. reflexivity.
  - apply sample_represents.
  - vm_compute. discriminate.
  - discriminate.
  - exists head'. split; [exact Hrep|].
    change (collectionPrefix (sample_ctx []) ++ js "/current.json") with (js "a/t/current.json") in Hres.
    destruct (run 0 (compact (fun _ => 40) sample_sha256 (fun _ _ => false) (js "a/t/current.json") sample_opts) sample_served).1
      as [e|res] eqn:E; [vm_compute in E; discriminate|]. destruct Hres as (_ & _ & Hw & Hall).
    destruct (Hall eq_refl eq_refl eq_refl) as [Hdue Hmost]. assert (Hwr : written res = true) by (by apply Hdue).
    rewrite Hwr in Hw. destruct Hw as [-> _]. rewrite (Hmost Hwr). reflexivity.
Defined.
