(* ===== verification/GcPending.v ===== *)
(** * The candidate ledger (protocol/src/coordination/gc-pending.ts)

    [gc/pending.json]: its runtime guard, create, the compare-and-swap update with its
    bounded retries, and the merge of one pass into the latest ledger. *)
From S2P Require Import Prelude JsText JsValue Errors Json Storage Effects Lsn CurrentJson.
Local Open Scope Z_scope.

Definition GC_PENDING_SCHEMA_VERSION : Z := 1.
Definition GC_PENDING_CAS_MAX_ATTEMPTS : nat := 3.
Definition GC_MAX_PENDING_CANDIDATES : nat := 1000.

Inductive gc_reason := stale_log | orphan_snapshot | orphan_content.

Global Instance gc_reason_eq_dec : EqDecision gc_reason.
Proof. solve_decision. Defined.

(** Candidates and ledger; the last field holds the unknown keys a reader carries. *)
Record GcCandidate := Candidate {
  cand_key : jsstr;
  due_at : jsstr;
  reason : gc_reason;
  cand_generation : option jsstr;
  cand_extra : list (jsstr * jsval)
}.

Record GcPending := Pending {
  candidates : list GcCandidate;
  last_swept_at : jsstr;
  pending_extra : list (jsstr * jsval)
}.

Record GcPendingRead := PendingRead { ledger : GcPending; ledger_etag : jsstr }.

Definition gcPendingKey (collectionPrefix : jsstr) : jsstr := collectionPrefix ++ js "/gc/pending.json".

(** ** Encoding and the guard *)

Definition reason_name (r : gc_reason) : jsstr :=
  match r with
  | stale_log => js "stale-log"
  | orphan_snapshot => js "orphan-snapshot"
  | orphan_content => js "orphan-content"
  end.

(** [VALID_REASONS] *)
Definition parse_reason (v : jsval) : option gc_reason :=
  match v with
  | JStr s => list_find (fun r => reason_name r = s) [stale_log; orphan_snapshot; orphan_content] ≫= fun p => Some p.2
  | _ => None
  end.

Definition candidate_keys : list jsstr := js <$> ["key"; "due_at"; "reason"; "generation"]%string.

Definition pending_keys : list jsstr := js <$> ["schema_version"; "candidates"; "last_swept_at"]%string.

Definition candidate_json (c : GcCandidate) : jsval :=
  JObj ([(js "key", JStr (cand_key c)); (js "due_at", JStr (due_at c));
         (js "reason", JStr (reason_name (reason c)))] ++
        opt_field (js "generation") JStr (cand_generation c) ++ cand_extra c).

Definition pending_json (p : GcPending) : jsval :=
  JObj ([(js "schema_version", num GC_PENDING_SCHEMA_VERSION);
         (js "candidates", JArr (candidate_json <$> candidates p));
         (js "last_swept_at", JStr (last_swept_at p))] ++ pending_extra p).

Definition nonempty_string (v : jsval) : option jsstr :=
  match v with JStr [] => None | JStr s => Some s | _ => None end.

Definition candidate_guard (v : jsval) : option GcCandidate :=
  match v with
  | JObj c =>
    k ← nonempty_string (js_get c (js "key"));
    d ← as_string (js_get c (js "due_at"));
    r ← parse_reason (js_get c (js "reason"));
    g ← if_present as_string (js_get c (js "generation"));
    Some (Candidate k d r g (unknown_keys candidate_keys c))
  | _ => None
  end.

(** Every rejection is [InvalidResponse]: [None] here. *)
Definition pending_guard (parsed : jsval) : option GcPending :=
  match parsed with
  | JObj r =>
    if negb (strict_eq (js_get r (js "schema_version")) (num GC_PENDING_SCHEMA_VERSION)) then None
    else
      cs ← match js_get r (js "candidates") with JArr l => mapM candidate_guard l | _ => None end;
      sw ← as_string (js_get r (js "last_swept_at"));
      _ ← if_present as_string (js_get r (js "log_scan_cursor"));
      Some (Pending cs sw (unknown_keys pending_keys r))
  | _ => None
  end.

Definition assertGcPending (parsed : jsval) : result GcPending :=
  match pending_guard parsed with
  | Some p => inr p
  | None => inl (new_error InvalidResponse)
  end.

Definition decode_pending (b : bytes) : result GcPending :=
  match decodeJsonBytes b with
  | None => inl (new_error_cause InvalidResponse OtherError)
  | Some parsed => assertGcPending parsed
  end.

(** ** Storage operations *)

Definition readGcPending (key : jsstr) : prog (option GcPendingRead) :=
  bind (storage_get key) (fun got =>
  match got with
  | None => Ret None
  | Some got => bind (of_result (decode_pending (body got))) (fun p => Ret (Some (PendingRead p (etag got))))
  end).

Definition encodePending (p : GcPending) : prog bytes :=
  match encodeJsonBytes (pending_json p) with
  | Some b => Ret b
  | None => Throw OtherError
  end.

Definition check_pending (p : GcPending) : prog unit :=
  bind (of_result (assertGcPending (pending_json p))) (fun _ => Ret tt).

Definition createGcPending (key : jsstr) (initial : GcPending) : prog GcPendingRead :=
  bind (check_pending initial) (fun _ =>
  bind (encodePending initial) (fun b =>
  bind (catch (storage_put key b create_only) (fun e => Throw (translateCasError e))) (fun result =>
  Ret (PendingRead initial (put_etag result))))).

(** The retry loop; with no attempt left it throws the last conflict. *)
Fixpoint cas_attempts (key : jsstr) (mutator : GcPending -> GcPending) (attempts : nat) (lastConflict : js_error) :
    prog GcPendingRead :=
  match attempts with
  | O => Throw lastConflict
  | S attempts =>
    bind (readGcPending key) (fun existing =>
    match existing with
    | None => Throw (new_error WriteConflict)
    | Some existing =>
      let next := mutator (ledger existing) in
      bind (check_pending next) (fun _ =>
      bind (encodePending next) (fun b =>
      attempt (storage_put key b (if_match (ledger_etag existing))) (fun r =>
      match r with
      | inr result => Ret (PendingRead next (put_etag result))
      | inl error =>
        let translated := translateCasError error in
        if negb (isWriteConflict translated) then Throw translated
        else cas_attempts key mutator attempts translated
      end)))
    end)
  end.

Definition casUpdateGcPending (key : jsstr) (mutator : GcPending -> GcPending) : prog GcPendingRead :=
  cas_attempts key mutator GC_PENDING_CAS_MAX_ATTEMPTS OtherError.

(** ** The merge *)

Record gc_pass := Pass {
  sweptKeys : list jsstr;
  newCandidates : list GcCandidate;
  lastSweptAt : jsstr;
  maxCandidates : nat
}.

(** The fresh marks whose key is neither resolved nor present. *)
Fixpoint append_new (swept present : list jsstr) (new : list GcCandidate) : list GcCandidate :=
  match new with
  | [] => []
  | c :: new =>
    if bool_decide (cand_key c ∉ swept) && bool_decide (cand_key c ∉ present)
    then c :: append_new swept (cand_key c :: present) new
    else append_new swept present new
  end.

Definition mergeGcPending (latest : GcPending) (pass : gc_pass) : GcPending :=
  let surviving := base.filter (fun c => cand_key c ∉ sweptKeys pass) (candidates latest) in
  let appended := append_new (sweptKeys pass) (cand_key <$> surviving) (newCandidates pass) in
  let lastSwept := if str_ltb (last_swept_at latest) (lastSweptAt pass) then lastSweptAt pass else last_swept_at latest in
  Pending (take (maxCandidates pass) (surviving ++ appended)) lastSwept [].

(** ** What is stored decodes to itself *)

Definition candidate_ok (c : GcCandidate) : Prop := cand_key c <> [] /\ extras_wf candidate_keys (cand_extra c).

(** A ledger as the merge writes it: its own keys only. *)
Definition merged_ok (p : GcPending) : Prop := Forall candidate_ok (candidates p) /\ pending_extra p = [].

Lemma parse_reason_name r : parse_reason (JStr (reason_name r)) = Some r.
Proof. destruct r; vm_compute; reflexivity. Qed.

Lemma candidate_guard_json c : candidate_ok c -> candidate_guard (candidate_json c) = Some c.
Proof.
  intros [Hk Hex]. unfold candidate_guard, candidate_json. cbn [app]. js_fields.
  rewrite (js_get_extra candidate_keys) by (done || js_decide). js_unknown.
  rewrite parse_reason_name, if_present_string, unknown_keys_extra by done.
  destruct c as [[|u k] d r g ex]; [done|]. by cbn [nonempty_string cand_key as_string mbind option_bind].
Qed.

Lemma candidate_json_ok c : candidate_ok c -> json_ok (candidate_json c) = true.
Proof.
  intros [_ Hex]. unfold candidate_json. rewrite !app_assoc. apply (extras_json candidate_keys); [done|..].
  - destruct (cand_generation c); js_decide.
  - apply keys_in_known. destruct (cand_generation c); by vm_compute.
  - destruct (cand_generation c); repeat first [constructor|done].
Qed.

Lemma candidates_guard_json cs : Forall candidate_ok cs -> mapM candidate_guard (candidate_json <$> cs) = Some cs.
Proof.
  induction 1 as [|c cs Hc _ IH]; [done|]. rewrite fmap_cons. cbn [mapM]. rewrite candidate_guard_json by done.
  cbn [mbind option_bind]. by rewrite IH.
Qed.

Lemma pending_guard_json p : merged_ok p -> pending_guard (pending_json p) = Some p.
Proof.
  intros [Hcs Hex]. destruct p as [cs sw ex]. cbn [candidates pending_extra last_swept_at] in *. subst ex.
  unfold pending_guard, pending_json. cbn [app candidates pending_extra last_swept_at]. js_fields.
  rewrite strict_eq_num. cbn [negb]. rewrite candidates_guard_json by done. cbn [mbind option_bind as_string].
  js_unknown. reflexivity.
Qed.

Lemma pending_json_ok p : merged_ok p -> json_ok (pending_json p) = true.
Proof.
  intros [Hcs Hex]. unfold pending_json. rewrite Hex, app_nil_r. apply json_ok_obj. split; [js_decide|].
  repeat constructor; cbn [snd]. apply json_ok_arr, Forall_fmap. eapply Forall_impl; [exact Hcs|].
  intros c. apply candidate_json_ok.
Qed.

Lemma candidate_guard_wf v c : json_ok v = true -> candidate_guard v = Some c -> candidate_ok c.
Proof.
  intros Hv. unfold candidate_guard. destruct v as [| | | | | |o|]; try done. intros H.
  apply bind_Some in H as (k & Hk & H). apply bind_Some in H as (d & _ & H). apply bind_Some in H as (r & _ & H).
  apply bind_Some in H as (g & _ & H). injection H as <-. split; [|by apply unknown_keys_wf].
  cbn [cand_key]. unfold nonempty_string in Hk. by repeat case_match; simplify_eq.
Qed.

Lemma candidates_guard_wf vs cs : Forall (fun v => json_ok v = true) vs -> mapM candidate_guard vs = Some cs ->
  Forall candidate_ok cs.
Proof.
  intros Hv. revert cs. induction Hv as [|v vs Hv _ IH]; intros cs; cbn [mapM]; [by intros [= <-]|].
  intros (c & Hc & H)%bind_Some. apply bind_Some in H as (cs' & Hcs & [= <-]).
  constructor; [by eapply candidate_guard_wf|by apply IH].
Qed.

Lemma decode_pending_wf b p : decode_pending b = inr p -> Forall candidate_ok (candidates p).
Proof.
  unfold decode_pending. destruct (decodeJsonBytes b) as [v|] eqn:E; [|done]. apply decode_json_ok in E.
  unfold assertGcPending, pending_guard. destruct v as [| | | | | |r|]; try done. destruct (negb _); [done|].
  destruct (js_get r (js "candidates")) as [| | | | |l| |] eqn:El; try done.
  destruct (mapM candidate_guard l) as [cs|] eqn:Ec; [|done]. cbn [mbind option_bind].
  repeat (case_match; try done). intros [= <-]. simplify_option_eq.
  eapply candidates_guard_wf; [|exact Ec]. apply json_ok_arr.
  apply json_ok_obj in E as [_ E]. unfold js_get in El. destruct (own_get _ r) as [v|] eqn:Eo.
  - subst v. apply own_get_In in Eo. rewrite Forall_forall in E. by apply (E (_, _) Eo).
  - repeat case_decide; done.
Qed.

Lemma decode_encode_pending p : merged_ok p -> decode_pending (JsonText (pending_json p)) = inr p.
Proof.
  intros Hp. unfold decode_pending, decodeJsonBytes. cbn [mbind option_bind]. rewrite pending_json_ok by done.
  unfold assertGcPending. by rewrite pending_guard_json.
Qed.

(** An update nobody interferes with takes one attempt. *)
Lemma run_casUpdateGcPending now key f m o p : assertValidStorageKey key = None -> objects m !! key = Some o ->
  decode_pending (stored_body o) = inr p -> merged_ok (f p) ->
  run now (casUpdateGcPending key f) m =
  (inr (PendingRead (f p) (memory_store key (JsonText (pending_json (f p))) m).1),
   (memory_store key (JsonText (pending_json (f p))) m).2).
Proof.
  intros Hv Ho Hp Hf. unfold casUpdateGcPending. cbn [cas_attempts GC_PENDING_CAS_MAX_ATTEMPTS].
  unfold readGcPending at 1. rewrite !run_bind, run_get, Ho by done.
  cbn [fmap option_fmap option_map body etag]. rewrite run_bind, Hp. cbn [of_result run ledger ledger_etag].
  unfold check_pending. rewrite !run_bind. unfold assertGcPending. rewrite pending_guard_json by done. cbn [of_result run].
  rewrite run_bind. unfold encodePending. rewrite encode_ok by by apply pending_json_ok. cbn [run].
  rewrite run_attempt, run_put. unfold memory_put, put_precondition. rewrite Hv, Ho. cbn [ifNoneMatch ifMatch if_match andb].
  rewrite bool_decide_eq_true_2 by done. by destruct (memory_store key _ m).
Qed.

(** ** The merge *)

Lemma append_new_elem swept present new c : c ∈ append_new swept present new ->
  c ∈ new /\ (cand_key c ∉ swept) /\ (cand_key c ∉ present).
Proof.
  revert present. induction new as [|d new IH]; intros present; cbn [append_new]; [by intros ?%not_elem_of_nil|].
  repeat case_bool_decide; cbn [andb]; try (intros (? & ? & ?)%IH; split; [by right|done]).
  intros [->|(? & ? & Hn)%IH]%elem_of_cons; [by split; [left|]|].
  apply not_elem_of_cons in Hn as [_ ?]. split; [by right|done].
Qed.

Lemma append_new_NoDup swept present new : NoDup present -> NoDup (present ++ (cand_key <$> append_new swept present new)).
Proof.
  revert present. induction new as [|d new IH]; intros present Hp; cbn [append_new]; [by rewrite app_nil_r|].
  repeat case_bool_decide; cbn [andb]; try by apply IH.
  rewrite fmap_cons, <- Permutation_middle. apply (IH (cand_key d :: present)). by constructor.
Qed.

Lemma append_new_covers swept present new c : c ∈ new -> cand_key c ∉ swept ->
  cand_key c ∈ present ++ (cand_key <$> append_new swept present new).
Proof.
  intros Hc Hs. revert present Hc. induction new as [|d new IH]; intros present; [by intros ?%not_elem_of_nil|].
  cbn [append_new]. intros [->|Hc]%elem_of_cons.
  - rewrite (bool_decide_eq_true_2 (cand_key d ∉ swept)) by done. case_bool_decide as Hp; cbn [andb].
    + rewrite fmap_cons. apply elem_of_app. right. by left.
    + apply elem_of_app. left. by destruct (decide (cand_key d ∈ present)).
  - destruct (_ && _); [|by apply IH]. rewrite fmap_cons, <- Permutation_middle. by apply (IH (cand_key d :: present)).
Qed.

(** What a merge owes the latest ledger and the pass. *)
Record merged (latest : GcPending) (pass : gc_pass) (out : GcPending) : Prop := {
  merged_bound : (length (candidates out) <= maxCandidates pass)%nat;
  merged_from c : c ∈ candidates out -> (c ∈ candidates latest \/ c ∈ newCandidates pass) /\ (cand_key c ∉ sweptKeys pass);
  merged_once : NoDup (cand_key <$> candidates latest) -> NoDup (cand_key <$> candidates out);
  merged_first c : c ∈ take (maxCandidates pass) (candidates latest) -> cand_key c ∉ sweptKeys pass -> c ∈ candidates out;
  merged_all c : (length (candidates latest) + length (newCandidates pass) <= maxCandidates pass)%nat ->
    c ∈ candidates latest ++ newCandidates pass -> cand_key c ∉ sweptKeys pass -> cand_key c ∈ cand_key <$> candidates out;
  merged_time : str_ltb (last_swept_at out) (last_swept_at latest) = false /\ str_ltb (last_swept_at out) (lastSweptAt pass) = false
}.

Lemma elem_take {A} n (l : list A) x : x ∈ take n l -> x ∈ l.
Proof. intros H. rewrite <- (take_drop n l). apply elem_of_app. by left. Qed.

Lemma take_filter_sub {A} (P : A -> Prop) `{!forall x, Decision (P x)} n (l : list A) x :
  x ∈ take n l -> P x -> x ∈ take n (base.filter P l).
Proof.
  revert n. induction l as [|y l IH]; intros [|n] Hx HP; try by apply not_elem_of_nil in Hx.
  cbn [take] in Hx. apply elem_of_cons in Hx as [->|Hx].
  - rewrite filter_cons_True by done. cbn [take]. by left.
  - destruct (decide (P y)).
    + rewrite filter_cons_True by done. cbn [take]. right. by apply IH.
    + rewrite filter_cons_False by done. apply (IH (S n)); [|done].
      apply (elem_take n). rewrite take_take. by replace (n `min` S n)%nat with n by lia.
Qed.

Lemma append_new_length swept present new : (length (append_new swept present new) <= length new)%nat.
Proof.
  revert present. induction new as [|d new IH]; intros present; cbn [append_new]; [done|].
  destruct (_ && _); cbn [length]; [specialize (IH (cand_key d :: present))|specialize (IH present)]; lia.
Qed.

Lemma mergeGcPending_merged latest pass : merged latest pass (mergeGcPending latest pass).
Proof.
  unfold mergeGcPending. set (surv := base.filter _ _). set (app := append_new _ _ _). cbv zeta.
  split; cbn [candidates last_swept_at].
  - rewrite length_take. lia.
  - intros c Hc%elem_take. apply elem_of_app in Hc as [[Hn Hc]%list_elem_of_filter|(Hc & Hn & _)%append_new_elem]; auto.
  - intros Hnd. rewrite fmap_take. eapply sublist_NoDup; [|apply sublist_take]. rewrite fmap_app.
    apply append_new_NoDup. eapply sublist_NoDup; [exact Hnd|]. apply fmap_sublist, sublist_filter.
  - intros c Hc Hn. rewrite take_app. apply elem_of_app. left.
    exact (take_filter_sub (fun c => cand_key c ∉ sweptKeys pass) _ _ c Hc Hn).
  - intros c Hlen Hc Hn. rewrite take_ge.
    + rewrite fmap_app. apply elem_of_app in Hc as [Hc|Hc].
      * apply elem_of_app. left. apply list_elem_of_fmap. exists c. split; [done|]. by apply list_elem_of_filter.
      * by apply append_new_covers.
    + rewrite length_app. assert (length app <= length (newCandidates pass))%nat by apply append_new_length.
      assert (length surv <= length (candidates latest))%nat by apply sublist_length, sublist_filter. lia.
  - destruct (str_ltb (last_swept_at latest) (lastSweptAt pass)) eqn:E.
    + split; [by apply str_ltb_asym|apply str_ltb_irrefl].
    + split; [apply str_ltb_irrefl|done].
Qed.

Lemma mergeGcPending_ok latest pass : Forall candidate_ok (candidates latest) ->
  Forall candidate_ok (newCandidates pass) -> merged_ok (mergeGcPending latest pass).
Proof.
  intros H1 H2. split; [|done]. apply Forall_forall. intros c Hc.
  destruct (merged_from _ _ _ (mergeGcPending_merged latest pass) c Hc) as [[Hin|Hin] _].
  - rewrite Forall_forall in H1. by apply H1.
  - rewrite Forall_forall in H2. by apply H2.
Qed.

(** ** Theorem *)

(** On a quiet storage the ledger update replaces the stored ledger, and nothing else,
    by its merge with the pass, which reads back.  The merge stays within the bound, holds
    only what the ledger and the pass held and nothing the pass resolved, keeps the oldest
    survivors, names no key twice, drops nothing while everything fits, and never moves the
    last sweep back. *)
Theorem ledger_update_merges now key pass m o latest :
  assertValidStorageKey key = None -> objects m !! key = Some o -> decode_pending (stored_body o) = inr latest ->
  Forall candidate_ok (newCandidates pass) ->
  exists r m', run now (casUpdateGcPending key (fun l => mergeGcPending l pass)) m = (inr r, m') /\
    (exists o', objects m' !! key = Some o' /\ stored_etag o' = ledger_etag r /\
       decode_pending (stored_body o') = inr (ledger r)) /\
    (forall k, k <> key -> objects m' !! k = objects m !! k) /\
    merged latest pass (ledger r).
Proof.
  intros Hv Ho Hl Hnew. pose proof (mergeGcPending_ok latest pass (decode_pending_wf _ _ Hl) Hnew) as Hok.
  eexists _, _. split; [by eapply run_casUpdateGcPending|]. split; [|split].
  - eexists. rewrite memory_store_lookup, decide_True by done. split_and!; [done..|]. by apply decode_encode_pending.
  - intros k Hk. by rewrite memory_store_lookup, decide_False.
  - apply mergeGcPending_merged.
Qed.

Definition sample_candidate (k : jsstr) : GcCandidate := Candidate k (js "2024-01-01T00:00:00.000Z") orphan_snapshot None [].

Definition sample_ledger : GcPending := Pending [sample_candidate (js "a"); sample_candidate (js "b")] [] [].

Definition sample_ledger_store : MemoryStorage := (memory_store (js "p/gc/pending.json") (JsonText (pending_json sample_ledger)) empty_memory).2.

Definition sample_pass : gc_pass := Pass [js "a"] [sample_candidate (js "b"); sample_candidate (js "c")] [] 1000.

Lemma ledger_update_merges_witness :
  exists r m', run 0 (casUpdateGcPending (js "p/gc/pending.json") (fun l => mergeGcPending l sample_pass)) sample_ledger_store = (inr r, m') /\
    js "c" ∈ cand_key <$> candidates (ledger r).
Proof.
  destruct (ledger_update_merges 0 (js "p/gc/pending.json") sample_pass sample_ledger_store
    (Stored (JsonText (pending_json sample_ledger)) (etag_of 1)) sample_ledger) as (r & m' & Hr & _ & _ & Hm).
  - vm_compute. reflexivity.
  - vm_compute. reflexivity.
  - vm_compute. reflexivity.
  - repeat constructor; discriminate.
  - exists r, m'. split; [exact Hr|].
    apply (merged_all _ _ _ Hm (sample_candidate (js "c"))); [cbn; lia| |].
    + apply elem_of_app. right. right. left.
    + apply (bool_decide_unpack _). vm_compute. exact I.
Defined.
