(* ===== verification/Gc.v ===== *)
(** * The garbage collector (server/src/gc.ts)

    [runGc] marks snapshots the manifest no longer names, waits out a grace period in
    the candidate ledger, and deletes what is provably below the manifest's log start. *)
From S2P Require Import Prelude JsText JsValue Errors Json Storage Effects Lsn CurrentJson ManifestSafety LogWalk Snapshot GcPending.
Local Open Scope Z_scope.

Definition GC_GRACE_PERIOD_MILLIS : Z := 7 * 24 * 60 * 60 * 1000.

(** [None] is an absent option: unbounded for the two caps. *)
Record RunGcOptions := GcOpts {
  graceMillis : option Z;
  maxMarksPerRun : option nat;
  maxSweepsPerRun : option nat
}.

Record RunGcResult := GcResult {
  marked_orphan_snapshot : nat;
  swept : nat;
  dropped_stale_generation : nat;
  dropped_still_live : nat;
  pendingDepth : nat
}.

Definition zeroGcResult : RunGcResult := GcResult 0 0 0 0 0.

(** ** Keys with deletion authority *)

Definition is_digit (u : N) : bool := ((48 <=? u) && (u <=? 57))%N.

(** [/^(\d+)\.json$/], a safe integer, and exactly the key of that slot. *)
Definition parseSeqFromCanonicalLogKey (key collectionPrefix : jsstr) : option Z :=
  let logPrefix := collectionPrefix ++ js "/log/" in
  if negb (starts_with logPrefix key) then None
  else
    let name := drop (length logPrefix) key in
    let digits := strip_suffix (js ".json") name in
    if negb (ends_with (js ".json") name && negb (bool_decide (digits = [])) && forallb is_digit digits) then None
    else
      let seq := Z.of_N (parse_digits 10 0 digits) in
      if (seq <=? MAX_SAFE_INTEGER) && bool_decide (logObjectKey collectionPrefix seq = key) then Some seq else None.

(** [/^(\d{12})-(\d{12})-[0-9a-f]{64}\.json$/] with an ordered range. *)
Definition parseMaxSeqFromCanonicalSnapshotKey (key collectionPrefix : jsstr) : option Z :=
  let snapshotPrefix := collectionPrefix ++ js "/snapshot/L9/" in
  if negb (starts_with snapshotPrefix key) then None
  else
    let name := drop (length snapshotPrefix) key in
    let min := take 12 name in
    let max := take 12 (drop 13 name) in
    if (length name =? 95)%nat && forallb is_digit min && bool_decide (name !! 12%nat = Some dash) &&
       forallb is_digit max && bool_decide (name !! 25%nat = Some dash) &&
       forallb is_lower_hex (take 64 (drop 26 name)) && bool_decide (drop 90 name = js ".json")
    then
      let minSeq := Z.of_N (parse_digits 10 0 min) in
      let maxSeq := Z.of_N (parse_digits 10 0 max) in
      if minSeq <=? maxSeq then Some maxSeq else None
    else None.

Section gc.
(** [Date.parse], [None] for [NaN], and the readings of the clock, in call order. *)
Context (date_parse : jsstr -> option Z) (clock : nat -> Z).

Definition computeDueAt (now graceMs : Z) : jsstr := toISOString (now + graceMs).

Definition due (nowMs : Z) (c : GcCandidate) : bool :=
  match date_parse (due_at c) with Some t => t <=? nowMs | None => false end.

(** ** Step 3: mark *)

(** One clock reading per candidate. *)
Fixpoint mark_snapshots (collectionPrefix : jsstr) (current : CurrentJson) (known : list jsstr) (grace : Z)
    (entries : list StorageListEntry) (reading : nat) : list GcCandidate :=
  match entries with
  | [] => []
  | entry :: entries =>
    let key := entry_key entry in
    if bool_decide (snapshot current = Some key) then mark_snapshots collectionPrefix current known grace entries reading
    else match parseMaxSeqFromCanonicalSnapshotKey key collectionPrefix with
    | None => mark_snapshots collectionPrefix current known grace entries reading
    | Some _ =>
      if bool_decide (key ∈ known) then mark_snapshots collectionPrefix current known grace entries reading
      else Candidate key (computeDueAt (clock reading) grace) orphan_snapshot (generation current) [] ::
           mark_snapshots collectionPrefix current known grace entries (S reading)
    end
  end.

(** ** Step 4: rescue and sweep *)

Inductive verdict := evicted | stale_generation | rescued | undecided.

Global Instance verdict_eq_dec : EqDecision verdict.
Proof. solve_decision. Defined.

Definition generation_of (g : option jsstr) : jsstr := default NO_GENERATION g.

(** Arms 0 to 4. *)
Definition classify (collectionPrefix : jsstr) (fence : CurrentJson) (fresh : option CurrentJsonRead)
    (c : GcCandidate) : verdict :=
  if bool_decide (reason c = orphan_content) then evicted
  else if bool_decide (reason c = stale_log) &&
          bool_decide (parseSeqFromCanonicalLogKey (cand_key c) collectionPrefix = None) then evicted
  else if bool_decide (reason c = orphan_snapshot) &&
          bool_decide (parseMaxSeqFromCanonicalSnapshotKey (cand_key c) collectionPrefix = None) then evicted
  else if negb (bool_decide (generation_of (cand_generation c) = generation_of (generation fence))) then stale_generation
  else if bool_decide (reason c = orphan_snapshot) &&
          match fresh with Some f => bool_decide (snapshot (json f) = Some (cand_key c)) | None => false end then rescued
  else if bool_decide (reason c = stale_log) then
    match parseSeqFromCanonicalLogKey (cand_key c) collectionPrefix with
    | Some seq => if logSeqStartOf fence <=? seq then rescued else undecided
    | None => undecided
    end
  else undecided.

(** The distinct keys of the candidates with a verdict. *)
Definition keys_with (v : verdict) (judge : GcCandidate -> verdict) (cs : list GcCandidate) : list jsstr :=
  remove_dups (cand_key <$> base.filter (fun c => judge c = v) cs).

Definition below_cap (taken : nat) (cap : option nat) : bool :=
  match cap with Some n => (taken <? n)%nat | None => true end.

(** A snapshot at or above the observed log start stays pending. *)
Definition unproved (collectionPrefix : jsstr) (freshFloor : Z) (c : GcCandidate) : bool :=
  bool_decide (reason c = orphan_snapshot) &&
  match parseMaxSeqFromCanonicalSnapshotKey (cand_key c) collectionPrefix with
  | Some maxSeq => freshFloor <=? maxSeq
  | None => true
  end.

(** The candidates to sweep and the remaining ones. *)
Fixpoint split_sweep (collectionPrefix : jsstr) (dropped : list jsstr) (freshFloor nowMs : Z) (maxSweeps : option nat)
    (cs : list GcCandidate) (taken : nat) : list GcCandidate * list GcCandidate :=
  match cs with
  | [] => ([], [])
  | c :: cs =>
    if bool_decide (cand_key c ∈ dropped) then split_sweep collectionPrefix dropped freshFloor nowMs maxSweeps cs taken
    else if below_cap taken maxSweeps && due nowMs c && negb (unproved collectionPrefix freshFloor c)
    then let (toSweep, remaining) := split_sweep collectionPrefix dropped freshFloor nowMs maxSweeps cs (S taken) in
         (c :: toSweep, remaining)
    else let (toSweep, remaining) := split_sweep collectionPrefix dropped freshFloor nowMs maxSweeps cs taken in
         (toSweep, c :: remaining)
  end.

(** ** The pass *)

(** Step 2: read the ledger, or create it and tolerate a race. *)
Definition read_or_create (pendingKey : jsstr) : prog GcPendingRead :=
  bind (readGcPending pendingKey) (fun pending =>
  match pending with
  | Some p => Ret p
  | None =>
    catch (createGcPending pendingKey (Pending [] [] [])) (fun error =>
    if isWriteConflict error then
      bind (readGcPending pendingKey) (fun pending =>
      match pending with Some p => Ret p | None => Throw error end)
    else Throw error)
  end).

(** Step 5: merge the pass into the latest ledger; a lost race is not an error. *)
Definition persist (pendingKey : jsstr) (pass : gc_pass) (remaining : nat) : prog nat :=
  attempt (casUpdateGcPending pendingKey (fun latest => mergeGcPending latest pass)) (fun r =>
  match r with
  | inr updated => Ret (length (candidates (ledger updated)))
  | inl error => if isWriteConflict error then Ret remaining else Throw error
  end).

(** Step 4 from the fresh read on, and step 5, on the candidates [cs] with the new marks. *)
Definition sweep_due (currentJsonKey : jsstr) (opts : RunGcOptions) (current : CurrentJson) (cs new : list GcCandidate)
    (fresh : option CurrentJsonRead) : prog RunGcResult :=
  let collectionPrefix := log_prefix_of currentJsonKey in
  let fence := match fresh with Some f => json f | None => current end in
  let judge := classify collectionPrefix fence fresh in
  let stale := keys_with stale_generation judge cs in
  let live := keys_with rescued judge cs in
  let dropped := stale ++ live ++ keys_with evicted judge cs in
  let freshFloor := match fresh with Some f => log_seq_start (json f) | None => 0 end in
  let '(toSweep, remaining) :=
    split_sweep collectionPrefix dropped freshFloor (clock (length new)) (maxSweepsPerRun opts) cs 0 in
  bind (promise_all toSweep (fun c => storage_delete (cand_key c))) (fun _ =>
  let lastSwept := match toSweep with [] => [] | _ => toISOString (clock (S (length new))) end in
  let pass := Pass ((cand_key <$> toSweep) ++ dropped) new lastSwept GC_MAX_PENDING_CANDIDATES in
  bind (persist (gcPendingKey collectionPrefix) pass (length remaining)) (fun depth =>
  Ret (GcResult (length new) (length toSweep) (length stale) (length live) depth))).

(** Steps 4 and 5: the manifest is read again when a due snapshot could be deleted. *)
Definition sweep (currentJsonKey : jsstr) (opts : RunGcOptions) (current : CurrentJson) (old new : list GcCandidate) :
    prog RunGcResult :=
  let cs := old ++ new in
  let hasDueSnapshot := existsb (fun c => bool_decide (reason c = orphan_snapshot) && due (clock (length new)) c) cs in
  bind (if hasDueSnapshot then readCurrentJson currentJsonKey else Ret None)
    (sweep_due currentJsonKey opts current cs new).

Definition runGc (currentJsonKey : jsstr) (opts : RunGcOptions) : prog RunGcResult :=
  let collectionPrefix := log_prefix_of currentJsonKey in
  bind (readCurrentJson currentJsonKey) (fun cur =>
  match cur with
  | None => Ret zeroGcResult
  | Some cur =>
    let current := json cur in
    bind (read_or_create (gcPendingKey collectionPrefix)) (fun pending =>
    let old := candidates (ledger pending) in
    bind (storage_list (collectionPrefix ++ js "/snapshot/L9/") None (maxMarksPerRun opts)) (fun entries =>
    let new := mark_snapshots collectionPrefix current (cand_key <$> old)
                 (default GC_GRACE_PERIOD_MILLIS (graceMillis opts)) entries 0 in
    sweep currentJsonKey opts current old new))
  end).
End gc.

(** ** What may be deleted *)

(** The keys of the collection's log and snapshots. *)
Definition in_custody (key k : jsstr) : Prop :=
  under_log (log_prefix_of key) k = true \/ starts_with (log_prefix_of key ++ js "/snapshot/") k = true.

(** Below the log start of the manifest [c]: a folded slot, or the snapshot of a range
    that ends before it. *)
Definition dead (key : jsstr) (c : CurrentJson) (k : jsstr) : Prop :=
  (exists seq, k = logObjectKey (log_prefix_of key) seq /\ seq < log_seq_start c) \/
  (exists maxSeq, parseMaxSeqFromCanonicalSnapshotKey k (log_prefix_of key) = Some maxSeq /\ maxSeq < log_seq_start c).

(** The guarantee of every client of the log and the snapshots: objects vanish only
    once they are below the log start of the manifest then stored. *)
Definition gc_rely (key : jsstr) (m m' : MemoryStorage) : Prop :=
  man_rely key m m' /\
  forall k, in_custody key k -> is_Some (objects m !! k) ->
    is_Some (objects m' !! k) \/ exists c, manifest_at key m' c /\ dead key c k.

(** The stored manifest condemns [k], for ever after. *)
Definition doomed (key : jsstr) (m : MemoryStorage) (k : jsstr) : Prop :=
  exists c, manifest_at key m c /\ dead key c k.

Lemma dead_mono key c c' k : floors_le c c' -> dead key c k -> dead key c' k.
Proof.
  intros [Hle _] [(s & Hs & Hlt)|(s & Hs & Hlt)]; [left|right]; exists s; (split; [done|lia]).
Qed.

Lemma doomed_stable key m m' k : man_rely key m m' -> doomed key m k -> doomed key m' k.
Proof.
  intros [_ H] (c & Hc & Hd). destruct (H c Hc) as (c' & Hc' & Hle). exists c'. split; [done|].
  by eapply dead_mono.
Qed.

Lemma manifest_outside_dir key rest : slash ∈ rest -> log_prefix_of key ++ [slash] ++ rest <> key.
Proof.
  intros Hin E. unfold log_prefix_of in E. pose proof (last_slash_spec key) as Hs.
  destruct (last_slash key) as [i|].
  - destruct Hs as (t & Ht & Hn). rewrite Ht in E at 2. apply app_inv_head in E.
    apply Hn. assert (rest = t) as <- by exact (f_equal tail E). done.
  - apply (f_equal length) in E. rewrite !length_app, length_take in E. simpl in E.
    destruct rest; [by apply not_elem_of_nil in Hin|]. simpl in E. lia.
Qed.

Lemma canonical_log_key k p seq : parseSeqFromCanonicalLogKey k p = Some seq -> k = logObjectKey p seq /\ 0 <= seq.
Proof.
  unfold parseSeqFromCanonicalLogKey. destruct (negb _); [done|]. destruct (negb _); [done|].
  case_bool_decide as E; [|by rewrite andb_false_r]. destruct (_ <=? _); [|done]. cbn [andb].
  intros [= <-]. split; [done|lia].
Qed.

Lemma canonical_snapshot_key k p maxSeq : parseMaxSeqFromCanonicalSnapshotKey k p = Some maxSeq ->
  starts_with (p ++ js "/snapshot/L9/") k = true /\ 0 <= maxSeq.
Proof.
  unfold parseMaxSeqFromCanonicalSnapshotKey. destruct (starts_with (p ++ js "/snapshot/L9/") k); [|done]. cbn [negb].
  destruct (_ && _); [|done]. destruct (_ <=? _); [|done]. intros [= <-]. split; [done|lia].
Qed.

Lemma dead_not_manifest key c k : dead key c k -> k <> key.
Proof.
  intros [(s & -> & _)|(s & [Hp _]%canonical_snapshot_key & _)].
  - apply slot_not_manifest.
  - apply starts_with_spec in Hp as [t ->]. rewrite <- app_assoc.
    change (js "/snapshot/L9/" ++ t) with ([slash] ++ js "snapshot/L9/" ++ t).
    apply manifest_outside_dir, elem_of_app. left. js_decide.
Qed.

Global Instance gc_rely_preorder key : PreOrder (gc_rely key).
Proof.
  split.
  - intros m. split; [reflexivity|]. by left.
  - intros m1 m2 m3 [M1 H1] [M2 H2]. split; [by transitivity m2|]. intros k Hk Hs.
    destruct (H1 k Hk Hs) as [Hs2|Hd]; [by apply H2|]. right. by apply (doomed_stable key m2 m3 k M2).
Qed.

Global Instance gc_rely_guarantee key : Guarantee key (gc_rely key).
Proof.
  split; [apply _|by intros ?? [? _]|]. intros k b m H. split; [done|].
  intros k' _ Hs. left. rewrite memory_store_lookup. by case_decide.
Qed.

(** Deleting a condemned object. *)
Lemma gc_rely_delete key k m : doomed key m k -> gc_rely key m (memory_delete k m).2.
Proof.
  intros (c & Hc & Hd). pose proof (dead_not_manifest _ _ _ Hd) as Hne.
  assert (Hr : man_rely key m (memory_delete k m).2) by by apply man_rely_delete_other.
  split; [exact Hr|]. intros k' _ [o Ho]. destruct (decide (k' = k)) as [->|Hk].
  - right. apply (doomed_stable key m); [exact Hr|]. by exists c.
  - left. exists o. unfold memory_delete. destruct (assertValidStorageKey _); [done|]. cbn [snd objects].
    by rewrite lookup_delete_ne.
Qed.

(** ** Programs that leave the manifest alone *)

Fixpoint leaves (key : jsstr) {A} (p : prog A) : Prop :=
  match p with
  | Ret _ | Throw _ => True
  | Get _ k => forall x, leaves key (k x)
  | Put key' _ _ k => key' <> key /\ forall x, leaves key (k x)
  | Delete _ _ => False
  | List _ _ _ k => forall x, leaves key (k x)
  end.

Lemma leaves_attempt key {A B} (q : prog A) (f : result A -> prog B) :
  leaves key q -> (forall r, leaves key (f r)) -> leaves key (attempt q f).
Proof. induction q; simpl; intuition. Qed.

Lemma leaves_bind key {A B} (q : prog A) (f : A -> prog B) :
  leaves key q -> (forall a, leaves key (f a)) -> leaves key (bind q f).
Proof. intros Hq Hf. apply leaves_attempt; [done|]. by intros [e|a]. Qed.

Lemma leaves_of_result key {A} (r : result A) : leaves key (of_result r).
Proof. by destruct r. Qed.

Lemma leaves_get key k : leaves key (storage_get k).
Proof. intros x. apply leaves_of_result. Qed.

Lemma leaves_put key k b o : k <> key -> leaves key (storage_put k b o).
Proof. intros H. split; [done|]. intros x. apply leaves_of_result. Qed.

Lemma leaves_list key p a n : leaves key (storage_list p a n).
Proof. intros x. apply leaves_of_result. Qed.

Lemma leaves_catch key {A} (q : prog A) h : leaves key q -> (forall e, leaves key (h e)) -> leaves key (catch q h).
Proof. intros Hq Hf. apply leaves_attempt; [done|]. by intros [e|a]. Qed.

Create HintDb leaves.
#[export] Hint Resolve leaves_bind leaves_of_result leaves_get leaves_put leaves_list leaves_catch leaves_attempt : leaves.
#[export] Hint Extern 1 (leaves _ (Ret _)) => exact I : leaves.
#[export] Hint Extern 1 (leaves _ (Throw _)) => exact I : leaves.

Section quiet_ledger.
Context (key pendingKey : jsstr) (Hne : pendingKey <> key).

Lemma readGcPending_leaves k : leaves key (readGcPending k).
Proof. apply leaves_bind; [apply leaves_get|]. intros [g|]; auto with leaves. Qed.

Lemma encodePending_leaves p : leaves key (encodePending p).
Proof. unfold encodePending. by destruct (encodeJsonBytes _). Qed.

Lemma check_pending_leaves p : leaves key (check_pending p).
Proof. unfold check_pending. auto with leaves. Qed.

Hint Resolve readGcPending_leaves encodePending_leaves check_pending_leaves : leaves.

Lemma cas_attempts_leaves f n e : leaves key (cas_attempts pendingKey f n e).
Proof.
  revert e. induction n as [|n IH]; intros e; [exact I|]. cbn [cas_attempts].
  apply leaves_bind; [auto with leaves|]. intros [r|]; [|exact I].
  apply leaves_bind; [auto with leaves|]. intros _. apply leaves_bind; [auto with leaves|]. intros b.
  apply leaves_attempt; [auto with leaves|]. intros [err|x]; [|exact I]. cbv zeta. by destruct (negb _).
Qed.

Lemma read_or_create_leaves : leaves key (read_or_create pendingKey).
Proof.
  unfold read_or_create, createGcPending. apply leaves_bind; [auto with leaves|]. intros [r|]; [exact I|].
  apply leaves_catch; [|intros e; destruct (isWriteConflict e); [|exact I]].
  - apply leaves_bind; [auto with leaves|]. intros _. apply leaves_bind; [auto with leaves|]. intros b.
    auto 6 with leaves.
  - apply leaves_bind; [auto with leaves|]. by intros [r|].
Qed.

Lemma persist_leaves pass n : leaves key (persist pendingKey pass n).
Proof.
  apply leaves_attempt; [apply cas_attempts_leaves|]. intros [e|r]; [by destruct (isWriteConflict e)|exact I].
Qed.
End quiet_ledger.

(** ** The sweep *)

Lemma keys_with_elem v judge cs c : c ∈ cs -> judge c = v -> cand_key c ∈ keys_with v judge cs.
Proof.
  intros Hc Hj. apply elem_of_remove_dups, list_elem_of_fmap. exists c. split; [done|].
  by apply list_elem_of_filter.
Qed.

Lemma split_sweep_elem date_parse p dropped floor nowMs cap cs n c :
  c ∈ (split_sweep date_parse p dropped floor nowMs cap cs n).1 ->
  c ∈ cs /\ (cand_key c ∉ dropped) /\ unproved p floor c = false.
Proof.
  revert n. induction cs as [|d cs IH]; intros n; cbn [split_sweep]; [by intros ?%not_elem_of_nil|].
  case_bool_decide as Hd.
  { intros (? & ? & ?)%IH. split; [by right|done]. }
  destruct (_ && negb (unproved p floor d)) eqn:E.
  - destruct (split_sweep _ _ _ _ _ _ cs (S n)) as [ts rs] eqn:Es. cbn [fst].
    apply andb_true_iff in E as [_ E%negb_true_iff]. intros [->|Hin]%elem_of_cons; [by split; [left|]|].
    specialize (IH (S n)). rewrite Es in IH. destruct (IH Hin) as (? & ? & ?). split; [by right|done].
  - destruct (split_sweep _ _ _ _ _ _ cs n) as [ts rs] eqn:Es. cbn [fst]. intros Hin.
    specialize (IH n). rewrite Es in IH. destruct (IH Hin) as (? & ? & ?). split; [by right|done].
Qed.

(** What the arms and the floor proof leave is below the log start of a manifest the
    pass has read. *)
Lemma undecided_dead key fence fresh c : classify (log_prefix_of key) fence fresh c = undecided ->
  unproved (log_prefix_of key) (match fresh with Some f => log_seq_start (json f) | None => 0 end) c = false ->
  dead key fence (cand_key c) \/ exists f, fresh = Some f /\ dead key (json f) (cand_key c).
Proof.
  unfold classify, unproved. destruct (reason c); cbn [bool_decide decide_rel decide andb].
  - rewrite (bool_decide_eq_false_2 (stale_log = orphan_content)), (bool_decide_eq_true_2 (stale_log = stale_log)),
      (bool_decide_eq_false_2 (stale_log = orphan_snapshot)) by done. cbn [andb].
    case_bool_decide as Hp; [done|]. destruct (negb _); [done|].
    destruct (parseSeqFromCanonicalLogKey (cand_key c) (log_prefix_of key)) as [seq|] eqn:Es; [|done].
    destruct (Z.leb_spec (logSeqStartOf fence) seq); [done|]. intros _ _. left. left. apply canonical_log_key in Es as [Es _]. by exists seq.
  - rewrite (bool_decide_eq_false_2 (orphan_snapshot = orphan_content)), (bool_decide_eq_false_2 (orphan_snapshot = stale_log)),
      (bool_decide_eq_true_2 (orphan_snapshot = orphan_snapshot)) by done. cbn [andb]. intros _.
    destruct (parseMaxSeqFromCanonicalSnapshotKey (cand_key c) (log_prefix_of key)) as [mx|] eqn:Em; [|done].
    destruct fresh as [f|]; intros Hle%Z.leb_gt.
    + right. exists f. split; [done|]. right. by exists mx.
    + apply canonical_snapshot_key in Em as [_ ?]. lia.
  - by rewrite (bool_decide_eq_true_2 (orphan_content = orphan_content)).
Qed.

(** ** Calls elsewhere, under any guarantee *)

Section moving.
Context (key : jsstr) (G : MemoryStorage -> MemoryStorage -> Prop) `{HG : !Guarantee key G}.
Context (R : MemoryStorage -> MemoryStorage -> Prop) (HR : forall m m', R m m' -> G m m').

(** Moving along with the environment and with calls elsewhere. *)
Definition moved (m0 : MemoryStorage) (w0 w : world) : Prop := man_inv key G m0 w /\ man_rely key (store w0) (store w).

Lemma moved_env m0 w0 w w' : rtc (env_step R) w w' -> moved m0 w0 w -> moved m0 w0 w'.
Proof.
  intros Hs [Hi Hr]. split; [by eapply (man_inv_envs key G R)|].
  etransitivity; [exact Hr|]. by eapply (man_rely_envs key G R).
Qed.

Lemma moved_put m0 w0 k b o w x w' : k <> key -> put_step k b o w x w' -> moved m0 w0 w -> moved m0 w0 w'.
Proof.
  intros Hk Hs [Hi Hr]. split; [by eapply (man_inv_put key G)|]. etransitivity; [exact Hr|].
  destruct Hs; unfold land; cbn [store]; (reflexivity || by apply man_rely_store_other).
Qed.

Lemma wp_leaves {A} m0 w0 (p : prog A) : leaves key p -> forall w, moved m0 w0 w ->
  wp R p (fun _ w' => moved m0 w0 w') w.
Proof.
  induction p as [a|e|k f IH|k b o f IH|k f IH|pr af n f IH]; cbn [leaves wp]; intros Hl w Hw.
  - intros w' Hs. by eapply moved_env.
  - intros w' Hs. by eapply moved_env.
  - intros w' Hs x _. apply IH; [apply Hl|by eapply moved_env].
  - destruct Hl as [Hk Hl]. intros w' Hs x w'' Hp. apply IH; [apply Hl|].
    eapply moved_put; [exact Hk|exact Hp|by eapply moved_env].
  - done.
  - intros w' Hs x _. apply IH; [apply Hl|by eapply moved_env].
Qed.


(** After that only the ledger, or nothing, is written. *)
Lemma wp_finish {A} m0 w (p : prog A) : leaves key p -> man_inv key G m0 w -> wp R p (fun _ w' => man_inv key G m0 w') w.
Proof.
  intros Hl Hi. eapply wp_mono; [|apply (wp_leaves m0 w); [exact Hl|split; [exact Hi|reflexivity]]]. by intros _ w' [? _].
Qed.
End moving.

Section concurrent.
Context (date_parse : jsstr -> option Z) (clock : nat -> Z) (key : jsstr) (opts : RunGcOptions).
Context (R : MemoryStorage -> MemoryStorage -> Prop) (HR : forall m m', R m m' -> gc_rely key m m').
Abbreviation inv := (man_inv key (gc_rely key)).

Lemma wp_condemned_delete m0 (ks : list jsstr) k w : k ∈ ks ->
  inv m0 w /\ Forall (doomed key (store w)) ks ->
  wp R (storage_delete k) (fun _ w' => inv m0 w' /\ Forall (doomed key (store w')) ks) w.
Proof.
  intros Hin [Hi Hf]. assert (Hall : forall m m', man_rely key m m' -> Forall (doomed key m) ks -> Forall (doomed key m') ks)
    by (intros m m' Hr H; eapply Forall_impl; [exact H|]; intros ?; by apply doomed_stable).
  assert (Hstep : forall w1 w2, rtc (env_step R) w1 w2 -> inv m0 w1 -> Forall (doomed key (store w1)) ks ->
    inv m0 w2 /\ Forall (doomed key (store w2)) ks).
  { intros w1 w2 Hs H1 H2. split; [by eapply (man_inv_envs key (gc_rely key) R)|].
    eapply Hall; [|done]. by eapply (man_rely_envs key (gc_rely key) R). }
  cbn [storage_delete wp]. intros w1 Hs1 x w2 Hd. destruct (Hstep _ _ Hs1 Hi Hf) as [Hi1 Hf1].
  assert (Hg : gc_rely key (store w1) (memory_delete k (store w1)).2).
  { apply gc_rely_delete. rewrite Forall_forall in Hf1. by apply Hf1. }
  assert (Hi2 : inv m0 w2) by by eapply (man_inv_delete key (gc_rely key)).
  assert (Hf2 : Forall (doomed key (store w2)) ks).
  { destruct Hd; cbn [store]; [..|done]; (eapply Hall; [apply Hg|done]). }
  destruct x as [e|u]; cbn [of_result wp]; intros w3 Hs3; by eapply Hstep.
Qed.

Lemma pending_not_manifest : gcPendingKey (log_prefix_of key) <> key.
Proof. unfold gcPendingKey. apply (manifest_outside_dir key (js "gc/pending.json")). js_decide. Qed.

Lemma knows_doomed cr m k : knows key cr m -> dead key (json cr) k -> doomed key m k.
Proof. intros (_ & _ & _ & c & Hc & Hle) Hd. exists c. split; [done|]. by eapply dead_mono. Qed.

Lemma sweep_condemned cur f cs cs' new w fresh : knows key cur (store w) ->
  match fresh with Some f => knows key f (store w) | None => True end ->
  let fence := match fresh with Some f => json f | None => json cur end in
  let judge := classify (log_prefix_of key) fence fresh in
  let dropped := keys_with stale_generation judge cs ++ keys_with rescued judge cs ++ keys_with evicted judge cs in
  cs' = (split_sweep date_parse (log_prefix_of key) dropped
           (match fresh with Some f => log_seq_start (json f) | None => 0 end) new f cs 0).1 ->
  Forall (doomed key (store w)) (cand_key <$> cs').
Proof.
  intros Hc Hf fence judge dropped ->. apply Forall_forall. intros k (c & -> & Hin)%list_elem_of_fmap.
  apply split_sweep_elem in Hin as (Hcs & Hnd & Hu). unfold dropped in Hnd. rewrite !not_elem_of_app in Hnd.
  destruct Hnd as (Hn1 & Hn2 & Hn3). assert (Hj : judge c = undecided).
  { destruct (judge c) eqn:Ej; [| | |done]; exfalso.
    - by apply Hn3, keys_with_elem.
    - by apply Hn1, keys_with_elem.
    - by apply Hn2, keys_with_elem. }
  destruct (undecided_dead _ _ _ _ Hj Hu) as [Hd|(f' & -> & Hd)].
  - destruct fresh as [f'|]; by eapply knows_doomed.
  - by eapply knows_doomed.
Qed.

Lemma wp_sweep_due m0 w cur cs new fresh : inv m0 w -> knows key cur (store w) ->
  match fresh with Some f => knows key f (store w) | None => True end ->
  wp R (sweep_due date_parse clock key opts (json cur) cs new fresh) (fun _ w' => inv m0 w') w.
Proof.
  intros Hi Hc Hf. unfold sweep_due. destruct (split_sweep _ _ _ _ _ _ _ _) as [toSweep remaining] eqn:Es.
  pose proof (sweep_condemned _ _ cs toSweep _ w fresh Hc Hf ltac:(by rewrite Es)) as Hd.
  apply wp_bind.
  eapply (wp_promise_all R (fun w => inv m0 w /\ Forall (doomed key (store w)) (cand_key <$> toSweep))).
  - intros w2 w3 Hs [H1 H2]. split; [by eapply (man_inv_envs key (gc_rely key) R)|].
    eapply Forall_impl; [exact H2|]. intros k. apply doomed_stable. by eapply (man_rely_envs key (gc_rely key) R).
  - intros c w2 Hin H2. apply wp_condemned_delete; [|done]. apply list_elem_of_fmap. by exists c.
  - by split.
  - intros [e|l] w2 [Hi2 _]; [apply (wp_finish key (gc_rely key) R HR m0); [exact I|done]|].
    apply (wp_finish key (gc_rely key) R HR m0); [|done]. apply leaves_bind; [apply persist_leaves, pending_not_manifest|by intros].
Qed.

Lemma wp_sweep m0 w cur old new : inv m0 w -> knows key cur (store w) ->
  wp R (sweep date_parse clock key opts (json cur) old new) (fun _ w' => inv m0 w') w.
Proof.
  intros Hi Hk. unfold sweep. cbv zeta. apply wp_bind.
  assert (Hlater : forall w1, rtc (env_step R) w w1 -> knows key cur (store w1)).
  { intros w1 Hs. eapply knows_stable; [by eapply (man_rely_envs key (gc_rely key) R)|done]. }
  destruct (existsb _ _).
  - apply (wp_readCurrentJson key (gc_rely key) R HR m0); [done|]. intros [e|fresh] w1 Hs Hi1 Hp.
    + by apply (wp_finish key (gc_rely key) R HR m0).
    + apply wp_sweep_due; [done|by apply Hlater|exact Hp].
  - intros w1 Hs. apply wp_sweep_due; [by eapply (man_inv_envs key (gc_rely key) R)|by apply Hlater|done].
Qed.

Lemma wp_runGc m0 w : inv m0 w -> wp R (runGc date_parse clock key opts) (fun _ w' => inv m0 w') w.
Proof.
  intros Hi. unfold runGc. cbv zeta. apply wp_bind.
  apply (wp_readCurrentJson key (gc_rely key) R HR m0); [done|]. intros [e|[cur|]] w1 Hs Hi1 Hp;
    [by apply (wp_finish key (gc_rely key) R HR m0)| |by apply (wp_finish key (gc_rely key) R HR m0)].
  simpl in Hp. apply wp_bind.
  eapply wp_mono; [|apply (wp_leaves key (gc_rely key) R HR m0 w1); [apply read_or_create_leaves, pending_not_manifest|split; [exact Hi1|reflexivity]]].
  intros [e|pending] w2 [Hi2 Hr2]; [by apply (wp_finish key (gc_rely key) R HR m0)|].
  pose proof (knows_stable key _ _ _ Hr2 Hp) as Hk2. apply wp_bind.
  eapply wp_mono; [|apply (wp_leaves key (gc_rely key) R HR m0 w2); [apply leaves_list|split; [exact Hi2|reflexivity]]].
  intros [e|entries] w3 [Hi3 Hr3]; [by apply (wp_finish key (gc_rely key) R HR m0)|].
  apply wp_sweep; [done|]. by eapply knows_stable.
Qed.
End concurrent.

(** ** Theorems *)

Lemma manifest_at_inj key m c c' : manifest_at key m c -> manifest_at key m c' -> c = c'.
Proof. intros (o & Ho & Hc) (o' & Ho' & Hc'). simplify_eq. congruence. Qed.

Lemma live_kept key m m' c k : gc_rely key m m' -> manifest_at key m' c -> in_custody key k ->
  ~ dead key c k -> is_Some (objects m !! k) -> is_Some (objects m' !! k).
Proof.
  intros [_ H] Hc Hk Hd Hs. destruct (H k Hk Hs) as [?|(c' & Hc' & Hdd)]; [done|].
  by rewrite (manifest_at_inj _ _ _ _ Hc' Hc) in Hdd.
Qed.

(** What the guarantee leaves under the manifest stored at the end. *)
Lemma live_objects_kept key m m' c : gc_rely key m m' -> manifest_at key m' c ->
  (forall s, snapshot c = Some s -> starts_with (log_prefix_of key ++ js "/snapshot/") s = true ->
     (forall maxSeq, parseMaxSeqFromCanonicalSnapshotKey s (log_prefix_of key) = Some maxSeq -> log_seq_start c <= maxSeq) ->
     is_Some (objects m !! s) -> is_Some (objects m' !! s)) /\
  (forall seq, log_seq_start c <= seq -> is_Some (objects m !! logObjectKey (log_prefix_of key) seq) ->
     is_Some (objects m' !! logObjectKey (log_prefix_of key) seq)).
Proof.
  intros Hg Hc. split.
  - intros s _ Hpre Hmax Hs. eapply live_kept; [done|done|by right| |done].
    intros [(seq & -> & _)|(mx & Hmx & Hlt)]; [|specialize (Hmax _ Hmx); lia].
    apply starts_with_spec in Hpre as [t Ht]. unfold logObjectKey in Ht. rewrite <- app_assoc in Ht.
    by apply app_inv_head in Ht.
  - intros seq Hle Hs. eapply live_kept; [done|done|left; apply under_log_slot| |done].
    intros [(s & E%logObjectKey_inj & Hlt)|(mx & [Hpre _]%canonical_snapshot_key & _)]; [lia|].
    apply starts_with_spec in Hpre as [t Ht]. unfold logObjectKey in Ht. rewrite <- app_assoc in Ht.
    by apply app_inv_head in Ht.
Qed.

(** C9: Among any clients that never lower a manifest floor and delete log slots and
    snapshots only below the stored log start, with any faults and late landings, and for
    any clock and any reading of dates, a garbage collection keeps that guarantee.  So under
    the manifest stored at the end, the snapshot it names, unless its own name says it ends
    before the log start, and every live log slot are still there if they were. *)
Theorem gc_deletes_only_dead date_parse clock key opts R w r w' :
  (forall m m', R m m' -> gc_rely key m m') -> memory_ok (store w) -> pending_admitted key w ->
  exec R (runGc date_parse clock key opts) w r w' ->
  gc_rely key (store w) (store w') /\ pending_admitted key w' /\
  forall c, manifest_at key (store w') c ->
    (forall s, snapshot c = Some s -> starts_with (log_prefix_of key ++ js "/snapshot/") s = true ->
       (forall maxSeq, parseMaxSeqFromCanonicalSnapshotKey s (log_prefix_of key) = Some maxSeq -> log_seq_start c <= maxSeq) ->
       is_Some (objects (store w) !! s) -> is_Some (objects (store w') !! s)) /\
    (forall seq, log_seq_start c <= seq -> is_Some (objects (store w) !! logObjectKey (log_prefix_of key) seq) ->
       is_Some (objects (store w') !! logObjectKey (log_prefix_of key) seq)).
Proof.
  intros HR Hok Hp Hex. assert (Hi : man_inv key (gc_rely key) (store w) w) by by split.
  pose proof (wp_sound _ _ _ _ _ (wp_runGc date_parse clock key opts R HR (store w) w Hi) Hex) as (_ & Hg & Hp').
  split; [done|]. split; [done|]. intros c Hc. by apply live_objects_kept.
Qed.

(** Two snapshots of a folded log: the manifest names the later one. *)
Definition sample_digest : jsstr := mjoin (replicate 8 (js "0123abcd")).

Definition old_snapshot : jsstr := js "a/t/snapshot/L9/000000000000-000000000003-" ++ sample_digest ++ js ".json".
Definition live_snapshot : jsstr := js "a/t/snapshot/L9/000000000000-000000000005-" ++ sample_digest ++ js ".json".

Definition gc_sample_manifest : CurrentJson :=
  Current (Some live_snapshot) 6 5 sample_fence 0 0 None None None (Some (js "ab")) [].

Definition gc_sample : MemoryStorage :=
  foldr (fun k m => (memory_store k EMPTY_BODY m).2)
    (memory_store sample_manifest_key (JsonText (current_json gc_sample_manifest)) empty_memory).2
    [old_snapshot; live_snapshot; logObjectKey (js "a/t") 4; logObjectKey (js "a/t") 5].

Definition sample_date_parse (s : jsstr) : option Z := if bool_decide (s = toISOString 0) then Some 0 else None.

Definition gc_sample_run : result RunGcResult * MemoryStorage :=
  run 0 (runGc sample_date_parse (fun _ => 0) sample_manifest_key (GcOpts (Some 0) None None)) gc_sample.

Example gc_sample_sweeps : gc_sample_run.1 = inr (GcResult 1 1 0 0 0) /\
  objects gc_sample_run.2 !! old_snapshot = None /\ is_Some (objects gc_sample_run.2 !! live_snapshot).
Proof. split_and!; [vm_compute; reflexivity..|]. vm_compute. by eexists. Qed.

Lemma gc_deletes_only_dead_witness :
  exists w', exec (gc_rely sample_manifest_key)
      (runGc sample_date_parse (fun _ => 0) sample_manifest_key (GcOpts (Some 0) None None))
      (World gc_sample [] []) (inr (GcResult 1 1 0 0 0)) w' /\
    objects (store w') !! old_snapshot = None /\ gc_rely sample_manifest_key gc_sample (store w').
Proof.
  assert (Hrun : exists m', gc_sample_run = (inr (GcResult 1 1 0 0 0), m') /\ objects m' !! old_snapshot = None).
  { eexists. split; vm_compute; reflexivity. }
  destruct Hrun as (m' & Hrun & Hgone).
  destruct (run_exec (gc_rely sample_manifest_key) _ _ _ _ _ [] [] Hrun) as (l' & Hex).
  exists (World m' [] l'). split; [exact Hex|]. split; [exact Hgone|].
  apply (gc_deletes_only_dead sample_date_parse (fun _ => 0) sample_manifest_key (GcOpts (Some 0) None None)
    (gc_rely sample_manifest_key) (World gc_sample [] []) (inr (GcResult 1 1 0 0 0)) (World m' [] l')).
  - intros m1 m2 H. exact H.
  - repeat apply memory_store_ok. apply empty_memory_ok.
  - intros b opts Hin. inversion Hin.
  - exact Hex.
Defined.
