(* ===== verification/Sort.v ===== *)
(** * Sorting

    Stable insertion sort by a strict order, which is what [toSorted] computes on elements
    the comparator tells apart, and the uniqueness of sorted lists. *)
From Stdlib Require Export Sorted.
From stdpp Require Import sorting.
From S2P Require Import Prelude.

Section sort_by.
Context {A : Type} (lt : A -> A -> bool).
Implicit Types (x y : A) (l : list A).

Fixpoint insert_by x l : list A :=
  match l with
  | [] => [x]
  | y :: l' => if lt x y then x :: l else y :: insert_by x l'
  end.

Definition sort_by l : list A := foldl (fun acc x => insert_by x acc) [] l.

Definition sorted_by l : Prop := StronglySorted (fun x y => lt x y = true) l.

Lemma insert_by_perm x l : insert_by x l ≡ₚ x :: l.
Proof.
  induction l as [|y l IH]; cbn [insert_by]; [done|]. destruct (lt x y); [done|]. rewrite IH. apply Permutation_swap.
Qed.

Lemma foldl_insert_perm l acc : foldl (fun acc x => insert_by x acc) acc l ≡ₚ acc ++ l.
Proof.
  revert acc. induction l as [|x l IH]; intros acc; cbn [foldl]; [by rewrite app_nil_r|].
  rewrite IH, insert_by_perm. apply Permutation_middle.
Qed.

Lemma sort_by_perm l : sort_by l ≡ₚ l.
Proof. apply (foldl_insert_perm l []). Qed.

(** The order is strict and total on the elements of [l]. *)
Definition strict_on l : Prop :=
  (forall x y z, x ∈ l -> y ∈ l -> z ∈ l -> lt x y = true -> lt y z = true -> lt x z = true) /\
  (forall x y, x ∈ l -> y ∈ l -> lt x y = true \/ x = y \/ lt y x = true).

Lemma insert_by_sorted x l : strict_on (x :: l) -> (x ∉ l) -> sorted_by l -> sorted_by (insert_by x l).
Proof.
  intros [Ht Hc] Hx Hl. induction Hl as [|y l Hl IH Hy]; cbn [insert_by]; [by repeat constructor|].
  destruct (lt x y) eqn:E.
  - constructor; [by constructor|]. constructor; [done|]. apply Forall_forall. intros z Hz.
    rewrite Forall_forall in Hy. eapply (Ht x y z); [set_solver..|done|by apply Hy].
  - assert (Hyx : lt y x = true).
    { destruct (Hc x y) as [?|[->|?]]; [set_solver..|congruence|exfalso; apply Hx; by left|done]. }
    constructor.
    + apply IH; [intros a b c ???; apply (Ht a b c)|intros a b ??; apply (Hc a b)|]; set_solver.
    + apply Forall_forall. intros z Hz. rewrite insert_by_perm in Hz.
      apply elem_of_cons in Hz as [->|Hz]; [done|]. rewrite Forall_forall in Hy. by apply Hy.
Qed.

Lemma strict_on_sub l l' : (forall x, x ∈ l' -> x ∈ l) -> strict_on l -> strict_on l'.
Proof. intros Hs [Ht Hc]. split; [intros x y z ???|intros x y ??]; [eapply Ht|eapply Hc]; auto. Qed.

Lemma sort_by_sorted l : strict_on l -> NoDup l -> sorted_by (sort_by l).
Proof.
  intros Hs Hn. unfold sort_by. assert (H : forall acc, strict_on (acc ++ l) -> NoDup (acc ++ l) -> sorted_by acc ->
    sorted_by (foldl (fun acc x => insert_by x acc) acc l)).
  { clear Hs Hn. induction l as [|x l IH]; intros acc Hs Hn Ha; cbn [foldl]; [done|].
    assert (Hp : insert_by x acc ++ l ≡ₚ acc ++ x :: l) by (rewrite insert_by_perm; apply Permutation_middle).
    apply IH; [|by rewrite Hp|].
    - eapply strict_on_sub; [|exact Hs]. intros y. by rewrite Hp.
    - apply insert_by_sorted; [|apply NoDup_app in Hn as (_ & Hn & _); intros Hin; by apply (Hn x Hin); left|done].
      eapply strict_on_sub; [|exact Hs]. intros y. rewrite elem_of_app, !elem_of_cons. tauto. }
  apply (H []); [done..|constructor].
Qed.

Lemma insert_by_last x l : Forall (fun y => lt x y = false) l -> insert_by x l = l ++ [x].
Proof. induction 1 as [|y l Hy _ IH]; cbn [insert_by app]; [done|]. by rewrite Hy, IH. Qed.

(** Sorting a sorted list changes nothing. *)
Lemma sort_by_id l : (forall x y, x ∈ l -> y ∈ l -> lt x y = true -> lt y x = false) -> sorted_by l -> sort_by l = l.
Proof.
  intros Ha Hl. unfold sort_by. assert (H : forall acc, sorted_by (acc ++ l) ->
    (forall x y, x ∈ acc ++ l -> y ∈ acc ++ l -> lt x y = true -> lt y x = false) ->
    foldl (fun acc x => insert_by x acc) acc l = acc ++ l).
  { clear Ha Hl. induction l as [|x l IH]; intros acc Hs Ha; cbn [foldl]; [by rewrite app_nil_r|].
    rewrite insert_by_last.
    - rewrite IH; rewrite <- app_assoc; done.
    - apply Forall_forall. intros y Hy. apply Ha; [set_solver..|].
      clear -Hs Hy. induction acc as [|z acc IH]; [by apply not_elem_of_nil in Hy|]. cbn [app] in Hs.
      inversion_clear Hs as [|?? Hs' Hz]. apply elem_of_cons in Hy as [->|Hy]; [|by apply IH].
      rewrite Forall_forall in Hz. apply Hz. set_solver. }
  apply (H []); done.
Qed.
End sort_by.

Lemma sorted_by_fmap {A B} (f : A -> B) ltA ltB l :
  (forall x y, ltA x y = true -> ltB (f x) (f y) = true) -> sorted_by ltA l -> sorted_by ltB (f <$> l).
Proof.
  intros Hf. induction 1 as [|x l Hl IH Hx]; [constructor|]. rewrite fmap_cons. constructor; [done|].
  apply Forall_fmap. eapply Forall_impl; [exact Hx|]. intros y. apply Hf.
Qed.

Lemma sorted_by_of_fmap {A B} (f : A -> B) lt l : sorted_by lt (f <$> l) <-> sorted_by (fun x y => lt (f x) (f y)) l.
Proof.
  induction l as [|x l IH]; [split; constructor|]. rewrite fmap_cons. unfold sorted_by in *.
  by rewrite !StronglySorted_cons, IH, Forall_fmap.
Qed.

(** Two sorted lists with the same elements are equal. *)
Lemma sorted_by_unique {A} (lt : A -> A -> bool) l k :
  (forall x y, x ∈ l -> y ∈ l -> lt x y = true -> lt y x = true -> False) ->
  sorted_by lt l -> sorted_by lt k -> l ≡ₚ k -> l = k.
Proof.
  intros Ha Hl. revert k. induction Hl as [|x l Hl IH Hx]; intros k Hk Hp; [by apply Permutation_nil_l in Hp|].
  destruct Hk as [|y k Hk Hy]; [by apply Permutation_nil_r in Hp|].
  assert (x = y) as <-.
  { assert (Hxk : x ∈ y :: k) by (rewrite <- Hp; by left). assert (Hyl : y ∈ x :: l) by (rewrite Hp; by left).
    apply elem_of_cons in Hxk as [?|Hxk]; [done|]. apply elem_of_cons in Hyl as [?|Hyl]; [done|].
    rewrite Forall_forall in Hx, Hy. destruct (Ha x y); [by left|by right|by apply Hx|by apply Hy]. }
  f_equal. apply Permutation_cons_inv in Hp. apply IH; [|done|done]. intros a b ??. apply Ha; by right.
Qed.

Section sorted_by.
Context {A : Type} (lt : A -> A -> bool).
Implicit Types (x y : A) (l : list A).

Lemma sorted_by_lookup l i j x y : sorted_by lt l -> (i < j)%nat -> l !! i = Some x -> l !! j = Some y -> lt x y = true.
Proof.
  intros Hs. revert i j. induction Hs as [|z l Hl IH Hz]; intros i j Hij Hi Hj; [done|].
  destruct j as [|j]; [lia|]. destruct i as [|i]; cbn in Hi, Hj.
  - injection Hi as ->. rewrite Forall_forall in Hz. apply Hz. by eapply list_elem_of_lookup_2.
  - by eapply (IH i j); [lia|..].
Qed.

Lemma sorted_by_app l1 l2 : sorted_by lt (l1 ++ l2) <->
  (forall x y, x ∈ l1 -> y ∈ l2 -> lt x y = true) /\ sorted_by lt l1 /\ sorted_by lt l2.
Proof. apply StronglySorted_app. Qed.

Lemma sorted_by_cons x l : sorted_by lt (x :: l) <-> Forall (fun y => lt x y = true) l /\ sorted_by lt l.
Proof. apply StronglySorted_cons. Qed.
End sorted_by.
