(* ===== verification/SnapshotCodec.v ===== *)
(** * Chunked snapshot artifacts

    server/src/snapshot-codec.ts, snapshot-chunk.ts and snapshot-manifest.ts: the
    canonical form of documents, chunks and chunk manifests, their content-addressed keys,
    and the strict decoders.  Every check of a codec fails with one code, so a failed check
    is [None] until the codec names it; the one failure callers tell apart, a chunk body
    over the hard ceiling, is the constructor [Oversized]. *)
From S2P Require Import Prelude JsText JsValue Errors Json Storage Effects Lsn CurrentJson LogWalk Snapshot DocId Sort.
Local Open Scope Z_scope.

Definition MAX_CHUNK_BYTES : Z := 1024 * 1024.
Definition MAX_CHUNK_ROWS : Z := 4096.
Definition MAX_MANIFEST_BYTES : Z := 64 * 1024.
Definition MAX_MANIFEST_CHUNKS : Z := 32.
Definition ARTIFACT_SCHEMA_VERSION : Z := 2.
Definition COLLATION : jsstr := js "utf8-scalar-v1".

Global Instance bytes_eq_decision : EqDecision bytes.
Proof. solve_decision. Defined.

(** A check that failed, with the codec's code. *)
Definition or_code {A} (code : BaerlyErrorCode) (o : option A) : result A :=
  match o with Some a => inr a | None => inl (new_error code) end.

Definition guard_ok (b : bool) : option unit := if b then Some tt else None.

(** ** Shared checks *)

(** [INCARNATION_PATTERN] *)
Definition is_incarnation (s : jsstr) : bool := (length s =? 32)%nat && forallb is_lower_hex s.

(** Exactly the expected fields. *)
Definition assertExactFields (v : jsval) (expected : list jsstr) : option (list (jsstr * jsval)) :=
  match v with
  | JObj o => if (length o =? length expected)%nat && forallb (fun k => bool_decide (is_Some (own_get k o))) expected
              then Some o else None
  | _ => None
  end.

Definition as_doc_id (v : jsval) : option jsstr :=
  match v with
  | JStr s => match assertSnapshotDocId s with None => Some s | Some _ => None end
  | _ => None
  end.

Inductive artifact := manifest_artifact | chunk_artifact.

Definition artifact_dir (kind : artifact) : jsstr :=
  match kind with
  | manifest_artifact => js "/_v2/snapshot/manifests/"
  | chunk_artifact => js "/_v2/snapshot/chunks/"
  end.

Definition artifact_tail (kind : artifact) (incarnation digest : jsstr) : jsstr :=
  artifact_dir kind ++ incarnation ++ js "/sha256/" ++ digest ++ js ".json".

Record ParsedArtifactKey := ArtifactKey { key_prefix : jsstr; key_incarnation : jsstr; key_sha256 : jsstr }.

(** A unit [.] does not match. *)
Definition is_line_end (u : N) : bool := bool_decide (u ∈ [10; 13; 8232; 8233])%N.

Definition ends_with_slash (s : jsstr) : bool := ends_with [slash] s.

(** The key grammars, anchored at both ends; the tail has a fixed length. *)
Definition parseArtifactKey (kind : artifact) (key : jsstr) : option ParsedArtifactKey :=
  if MAX_KEY_BYTES <? utf8_length key then None
  else
    let dir := length (artifact_dir kind) in
    let n := (length key - (dir + 32 + 8 + 64 + 5))%nat in
    let prefix := take n key in
    let rest := drop n key in
    let incarnation := take 32 (drop dir rest) in
    let digest := take 64 (drop (dir + 32 + 8) rest) in
    if negb (bool_decide (prefix = [])) && negb (existsb is_line_end prefix) &&
       is_incarnation incarnation && is_digest digest &&
       bool_decide (rest = artifact_tail kind incarnation digest) && negb (ends_with_slash prefix)
    then Some (ArtifactKey prefix incarnation digest) else None.

(** [snapshotChunkKey] and [snapshotManifestKey] *)
Definition artifact_key (kind : artifact) (collectionPrefix incarnation digest : jsstr) : result jsstr :=
  if bool_decide (collectionPrefix = []) || ends_with_slash collectionPrefix then inl (new_error InvalidConfig)
  else if negb (is_incarnation incarnation) then inl (new_error InvalidConfig)
  else if negb (is_digest digest) then inl (new_error InvalidConfig)
  else let key := collectionPrefix ++ artifact_tail kind incarnation digest in
       match assertKeyWithinLimit key with Some e => inl e | None => inr key end.

Definition snapshotChunkKey : jsstr -> jsstr -> jsstr -> result jsstr := artifact_key chunk_artifact.
Definition snapshotManifestKey : jsstr -> jsstr -> jsstr -> result jsstr := artifact_key manifest_artifact.

(** ** Canonical documents *)

(** Negative, zero or positive. *)
Definition canonicalKeyOrder (left right : jsstr) : Z :=
  match array_index left, array_index right with
  | Some i, Some j => Z.of_N i - Z.of_N j
  | Some _, None => -1
  | None, Some _ => 1
  | None, None => if str_ltb left right then -1 else if str_ltb right left then 1 else 0
  end.

Definition key_before (l r : jsstr * jsval) : bool := canonicalKeyOrder l.1 r.1 <? 0.

(** The members in canonical order, which is also the order of the object's keys. *)
Fixpoint canonicalizeDocumentValue (v : jsval) : option jsval :=
  match v with
  | JStr _ | JBool _ => Some v
  | JNum n => if is_finite n then Some v else None
  | JArr l => JArr <$> mapM canonicalizeDocumentValue l
  | JObj o => (fun o => JObj (sort_by key_before o)) <$>
                mapM (fun kv => pair kv.1 <$> canonicalizeDocumentValue kv.2) o
  | _ => None
  end.

(** The document's own [_id]. *)
Definition own_id (v : jsval) : option jsstr :=
  match v with
  | JObj o => own_get (js "_id") o ≫= as_doc_id
  | _ => None
  end.

Definition canonicalizeDocument (v : jsval) : option jsval :=
  match v with
  | JObj _ => w ← canonicalizeDocumentValue v; _ ← own_id w; Some w
  | _ => None
  end.

(** ** Chunks *)

Record SnapshotChunk := Chunk {
  chunk_collection : jsstr;
  chunk_incarnation : jsstr;
  chunk_first_id : jsstr;
  chunk_last_id : jsstr;
  chunk_docs : list jsval
}.

Definition chunk_fields : list jsstr :=
  js <$> ["schema_version"; "collection"; "incarnation"; "first_id"; "last_id"; "docs"]%string.

Definition chunk_json (c : SnapshotChunk) : jsval :=
  JObj [(js "schema_version", num ARTIFACT_SCHEMA_VERSION); (js "collection", JStr (chunk_collection c));
        (js "incarnation", JStr (chunk_incarnation c)); (js "first_id", JStr (chunk_first_id c));
        (js "last_id", JStr (chunk_last_id c)); (js "docs", JArr (chunk_docs c))].

(** Each adjacent pair in order. *)
Fixpoint increasing (ids : list jsstr) : bool :=
  match ids with
  | a :: (b :: _) as rest => (compareDocIds a b <? 0) && increasing rest
  | _ => true
  end.

(** A caller's collection name is a path segment; a stored one is only a string. *)
Definition collection_field (code : BaerlyErrorCode) (v : jsval) : option jsstr :=
  s ← as_string v;
  match code with
  | InvalidConfig => match assertPathSegment s with None => Some s | Some _ => None end
  | _ => Some s
  end.

Definition incarnation_field (v : jsval) : option jsstr :=
  s ← as_string v; _ ← guard_ok (is_incarnation s); Some s.

Definition canonical_chunk (code : BaerlyErrorCode) (v : jsval) : option SnapshotChunk :=
  o ← assertExactFields v chunk_fields;
  _ ← guard_ok (strict_eq (js_get o (js "schema_version")) (num ARTIFACT_SCHEMA_VERSION));
  coll ← collection_field code (js_get o (js "collection"));
  inc ← incarnation_field (js_get o (js "incarnation"));
  l ← match js_get o (js "docs") with JArr l => Some l | _ => None end;
  _ ← guard_ok (negb (Z.of_nat (length l) =? 0) && (Z.of_nat (length l) <=? MAX_CHUNK_ROWS));
  docs ← mapM canonicalizeDocument l;
  ids ← mapM own_id docs;
  _ ← guard_ok (increasing ids);
  first ← head ids;
  last ← last ids;
  _ ← guard_ok (strict_eq (js_get o (js "first_id")) (JStr first) && strict_eq (js_get o (js "last_id")) (JStr last));
  Some (Chunk coll inc first last docs).

Definition canonicalizeChunk (v : jsval) (code : BaerlyErrorCode) : result SnapshotChunk :=
  or_code code (canonical_chunk code v).

Inductive chunk_encoding := Encoded (b : bytes) | Oversized | Refused (e : js_error).

(** ** Chunk manifests *)

Record SnapshotChunkDescriptor := Descriptor {
  first_id : jsstr;
  last_id : jsstr;
  descriptor_key : jsstr;
  byte_length : Z;
  row_count : Z
}.

Record SnapshotManifest := Manifest {
  manifest_collection : jsstr;
  manifest_log_seq_start : Z;
  manifest_incarnation : jsstr;
  chunks : list SnapshotChunkDescriptor
}.

Definition descriptor_fields : list jsstr :=
  js <$> ["first_id"; "last_id"; "key"; "byte_length"; "row_count"]%string.

Definition descriptor_json (d : SnapshotChunkDescriptor) : jsval :=
  JObj [(js "first_id", JStr (first_id d)); (js "last_id", JStr (last_id d)); (js "key", JStr (descriptor_key d));
        (js "byte_length", num (byte_length d)); (js "row_count", num (row_count d))].

Definition manifest_fields : list jsstr :=
  js <$> ["schema_version"; "collection"; "log_seq_start"; "incarnation"; "collation"; "chunks"]%string.

Definition manifest_json (m : SnapshotManifest) : jsval :=
  JObj [(js "schema_version", num ARTIFACT_SCHEMA_VERSION); (js "collection", JStr (manifest_collection m));
        (js "log_seq_start", num (manifest_log_seq_start m)); (js "incarnation", JStr (manifest_incarnation m));
        (js "collation", JStr COLLATION); (js "chunks", JArr (descriptor_json <$> chunks m))].

(** A non-negative safe integer. *)
Definition safe_integer (v : jsval) : option Z :=
  z ← nonneg_integer v; _ ← guard_ok (z <=? MAX_SAFE_INTEGER); Some z.

Definition positiveSafeInteger (maximum : Z) (v : jsval) : option Z :=
  z ← safe_integer v; _ ← guard_ok ((0 <? z) && (z <=? maximum)); Some z.

(** One descriptor: [chunkPrefix] is the prefix the ones before it share, [seenKeys] their
    keys. *)
Definition canonical_descriptor (expectedPrefix chunkPrefix : option jsstr) (seenKeys : list jsstr) (v : jsval) :
    option (SnapshotChunkDescriptor * jsstr) :=
  o ← assertExactFields v descriptor_fields;
  first ← as_doc_id (js_get o (js "first_id"));
  last ← as_doc_id (js_get o (js "last_id"));
  _ ← guard_ok (compareDocIds first last <=? 0);
  key ← as_string (js_get o (js "key"));
  parsed ← parseArtifactKey chunk_artifact key;
  _ ← guard_ok (match chunkPrefix with Some p => bool_decide (key_prefix parsed = p) | None => true end);
  _ ← guard_ok (match expectedPrefix with Some p => bool_decide (key_prefix parsed = p) | None => true end);
  size ← positiveSafeInteger MAX_CHUNK_BYTES (js_get o (js "byte_length"));
  rows ← positiveSafeInteger MAX_CHUNK_ROWS (js_get o (js "row_count"));
  _ ← guard_ok (bool_decide (key ∉ seenKeys));
  Some (Descriptor first last key size rows, key_prefix parsed).

Fixpoint canonical_descriptors (expectedPrefix chunkPrefix : option jsstr) (seenKeys : list jsstr) (l : list jsval) :
    option (list SnapshotChunkDescriptor) :=
  match l with
  | [] => Some []
  | v :: l =>
    d ← canonical_descriptor expectedPrefix chunkPrefix seenKeys v;
    ds ← canonical_descriptors expectedPrefix (Some (default d.2 chunkPrefix)) (descriptor_key d.1 :: seenKeys) l;
    Some (d.1 :: ds)
  end.

(** Strictly increasing, non-overlapping ranges. *)
Fixpoint ranges_increase (ds : list SnapshotChunkDescriptor) : bool :=
  match ds with
  | previous :: (current :: _) as rest =>
    negb ((0 <=? compareDocIds (first_id previous) (first_id current)) ||
          (0 <=? compareDocIds (last_id previous) (first_id current))) && ranges_increase rest
  | _ => true
  end.

Definition canonical_manifest (code : BaerlyErrorCode) (expectedPrefix : option jsstr) (v : jsval) : option SnapshotManifest :=
  o ← assertExactFields v manifest_fields;
  _ ← guard_ok (strict_eq (js_get o (js "schema_version")) (num ARTIFACT_SCHEMA_VERSION));
  coll ← collection_field code (js_get o (js "collection"));
  start ← safe_integer (js_get o (js "log_seq_start"));
  inc ← incarnation_field (js_get o (js "incarnation"));
  _ ← guard_ok (strict_eq (js_get o (js "collation")) (JStr COLLATION));
  l ← match js_get o (js "chunks") with JArr l => Some l | _ => None end;
  _ ← guard_ok (Z.of_nat (length l) <=? MAX_MANIFEST_CHUNKS);
  ds ← canonical_descriptors expectedPrefix None [] l;
  _ ← guard_ok (ranges_increase ds);
  Some (Manifest coll start inc ds).

(** The lower bound of the binary search on the descriptors' last ids. *)
Fixpoint search (below : nat -> bool) (fuel low high : nat) : nat :=
  match fuel with
  | O => low
  | S fuel =>
    if (low <? high)%nat then
      let middle := (low + (high - low) / 2)%nat in
      if below middle then search below fuel (S middle) high else search below fuel low middle
    else low
  end.

Definition firstDescriptorEndingAtOrAfter (descriptors : list SnapshotChunkDescriptor) (id : jsstr) : nat :=
  search (fun i => match descriptors !! i with Some d => compareDocIds (last_id d) id <? 0 | None => false end)
    (length descriptors) 0 (length descriptors).

(** ** Encoding and decoding *)
Section codec.
(** The octets of a body, counted. *)
Context (byteLength : bytes -> Z) (sha256 : bytes -> list N).

Definition encodeSnapshotChunk (chunk : SnapshotChunk) : chunk_encoding :=
  match canonicalizeChunk (chunk_json chunk) InvalidConfig with
  | inl e => Refused e
  | inr c => match encodeJsonBytes (chunk_json c) with
             | None => Refused (new_error InvalidConfig)
             | Some b => if MAX_CHUNK_BYTES <? byteLength b then Oversized else Encoded b
             end
  end.

Definition decode_chunk (b : bytes) (key expectedCollection : jsstr) (d : SnapshotChunkDescriptor) : option SnapshotChunk :=
  _ ← guard_ok (negb ((byteLength b =? 0) || (MAX_CHUNK_BYTES <? byteLength b)));
  parsed ← parseArtifactKey chunk_artifact key;
  _ ← guard_ok (bool_decide (descriptor_key d = key) && (byte_length d =? byteLength b));
  _ ← guard_ok (bool_decide (snapshotHash sha256 b = key_sha256 parsed));
  v ← decodeJsonBytes b;
  c ← canonical_chunk InvalidResponse v;
  canonicalBytes ← encodeJsonBytes (chunk_json c);
  _ ← guard_ok (bool_decide (b = canonicalBytes));
  _ ← guard_ok (bool_decide (chunk_collection c = expectedCollection));
  _ ← guard_ok (bool_decide (chunk_incarnation c = key_incarnation parsed));
  _ ← guard_ok (bool_decide (chunk_first_id c = first_id d) && bool_decide (chunk_last_id c = last_id d) &&
                (Z.of_nat (length (chunk_docs c)) =? row_count d));
  Some c.

Definition decodeSnapshotChunk (b : bytes) (key expectedCollection : jsstr) (d : SnapshotChunkDescriptor) : result SnapshotChunk :=
  or_code InvalidResponse (decode_chunk b key expectedCollection d).

Definition encodeSnapshotManifest (m : SnapshotManifest) : result bytes :=
  or_code InvalidConfig
    (c ← canonical_manifest InvalidConfig None (manifest_json m);
     b ← encodeJsonBytes (manifest_json c);
     _ ← guard_ok (byteLength b <=? MAX_MANIFEST_BYTES);
     Some b).

Definition decode_manifest (b : bytes) (key expectedCollection : jsstr) (expectedLogSeqStart : Z) : option SnapshotManifest :=
  _ ← guard_ok (negb ((byteLength b =? 0) || (MAX_MANIFEST_BYTES <? byteLength b)));
  parsed ← parseArtifactKey manifest_artifact key;
  _ ← guard_ok (bool_decide (snapshotHash sha256 b = key_sha256 parsed));
  v ← decodeJsonBytes b;
  m ← canonical_manifest InvalidResponse (Some (key_prefix parsed)) v;
  canonicalBytes ← encodeJsonBytes (manifest_json m);
  _ ← guard_ok (bool_decide (b = canonicalBytes));
  _ ← guard_ok (bool_decide (manifest_collection m = expectedCollection));
  _ ← guard_ok (manifest_log_seq_start m =? expectedLogSeqStart);
  _ ← guard_ok (bool_decide (manifest_incarnation m = key_incarnation parsed));
  Some m.

Definition decodeSnapshotManifest (b : bytes) (key expectedCollection : jsstr) (expectedLogSeqStart : Z) : result SnapshotManifest :=
  or_code InvalidResponse (decode_manifest b key expectedCollection expectedLogSeqStart).
End codec.

(** ** The order of ids *)

(** An id a chunk may hold, as 16-bit units. *)
Definition id_ok (id : jsstr) : Prop := units_ok id /\ assertSnapshotDocId id = None.

Definition id_before (a b : jsstr) : bool := compareDocIds a b <? 0.

Lemma compare_cases a b : id_ok a -> id_ok b ->
  (compareDocIds a b = -1 /\ str_ltb (utf8_encode a) (utf8_encode b) = true) \/
  (compareDocIds a b = 0 /\ a = b) \/
  (compareDocIds a b = 1 /\ str_ltb (utf8_encode b) (utf8_encode a) = true).
Proof.
  intros [Ua Ha] [Ub Hb]. destruct (compareDocIds_utf8 a b Ua Ub Ha Hb) as (H1 & H2 & H3).
  destruct (str_ltb_total (utf8_encode a) (utf8_encode b)) as [H|[H|H]].
  - left. split; [by apply H1|done].
  - destruct (decide (compareDocIds a b = 0)) as [E|E]; [right; left; split; [done|by apply (proj1 H3)]|].
    exfalso. unfold compareDocIds in *. rewrite (compareDocIds_loop_spec) in E by (done || lia).
    unfold compare_points in E. unfold assertSnapshotDocId in Ha, Hb.
    destruct (assertPathSegment a); [done|]. destruct (assertPathSegment b); [done|].
    destruct (surrogates_paired a) eqn:Ea; [|done]. destruct (surrogates_paired b) eqn:Eb; [|done].
    apply (surrogates_paired_scalar _ Ua) in Ea. apply (surrogates_paired_scalar _ Ub) in Eb.
    rewrite <- (utf8_points_order (code_points a)), <- (utf8_points_order (code_points b)) in E by done.
    unfold utf8_encode in H. rewrite H, str_ltb_irrefl in E. by apply E.
  - right. right. split; [by apply H2|done].
Qed.

Lemma id_before_utf8 a b : id_ok a -> id_ok b -> id_before a b = str_ltb (utf8_encode a) (utf8_encode b).
Proof.
  intros Ha Hb. unfold id_before. destruct (compare_cases a b Ha Hb) as [[-> ->]|[[-> ->]|[-> H]]]; [done| |].
  - by rewrite str_ltb_irrefl.
  - by rewrite (str_ltb_asym _ _ H).
Qed.

Lemma id_before_trans a b c : id_ok a -> id_ok b -> id_ok c ->
  id_before a b = true -> id_before b c = true -> id_before a c = true.
Proof. intros Ha Hb Hc. rewrite !id_before_utf8 by done. apply str_ltb_trans. Qed.

Lemma id_before_total a b : id_ok a -> id_ok b -> id_before a b = true \/ a = b \/ id_before b a = true.
Proof.
  intros Ha Hb. rewrite !id_before_utf8 by done.
  destruct (compare_cases a b Ha Hb) as [[_ ?]|[[_ ?]|[_ ?]]]; auto.
Qed.

Lemma id_before_asym a b : id_ok a -> id_ok b -> id_before a b = true -> id_before b a = false.
Proof. intros Ha Hb. rewrite !id_before_utf8 by done. apply str_ltb_asym. Qed.

Lemma id_before_irrefl a : id_ok a -> id_before a a = false.
Proof. intros Ha. rewrite id_before_utf8 by done. apply str_ltb_irrefl. Qed.

Lemma increasing_sorted ids : Forall id_ok ids -> increasing ids = true <-> sorted_by id_before ids.
Proof.
  intros Hok. induction Hok as [|a ids Ha Hids IH]; [split; [constructor|done]|].
  destruct ids as [|b ids]; [split; [repeat constructor|done]|].
  change (increasing (a :: b :: ids)) with (id_before a b && increasing (b :: ids)).
  rewrite andb_true_iff, IH. split.
  - intros [Hab Hs]. constructor; [done|]. inversion Hs as [|?? Hs' Hb]; subst. constructor; [done|].
    apply Forall_cons in Hids as [Hb' Hids]. apply Forall_forall. intros c Hc.
    rewrite Forall_forall in Hb, Hids. apply (id_before_trans a b c); auto.
  - intros Hs. inversion Hs as [|?? Hs' Hb]; subst. apply Forall_cons in Hb as [? _]. done.
Qed.

(** ** Canonical values *)

Lemma array_index_key k n : array_index k = Some n -> to_radix 10 n = k.
Proof.
  unfold array_index. destruct (parse_int 10 k) as [z|]; [|done]. case_bool_decide; [|done].
  cbn [andb]. destruct (_ <? _)%N; [|done]. by intros [= <-].
Qed.

Lemma canonicalKeyOrder_before a b : (canonicalKeyOrder a b <? 0) = true <->
  match array_index a, array_index b with
  | Some i, Some j => (i < j)%N
  | Some _, None => True
  | None, Some _ => False
  | None, None => str_ltb a b = true
  end.
Proof.
  rewrite Z.ltb_lt. unfold canonicalKeyOrder. destruct (array_index a), (array_index b); try lia.
  destruct (str_ltb a b) eqn:E; [lia|]. destruct (str_ltb b a); split; (lia || done).
Qed.

Definition key_lt (a b : jsstr) : bool := canonicalKeyOrder a b <? 0.

Lemma key_lt_trans a b c : key_lt a b = true -> key_lt b c = true -> key_lt a c = true.
Proof.
  unfold key_lt. rewrite !canonicalKeyOrder_before.
  destruct (array_index a), (array_index b), (array_index c); try lia; try done. apply str_ltb_trans.
Qed.

Lemma key_lt_total a b : key_lt a b = true \/ a = b \/ key_lt b a = true.
Proof.
  unfold key_lt. rewrite !canonicalKeyOrder_before.
  destruct (array_index a) as [i|] eqn:Ea, (array_index b) as [j|] eqn:Eb; auto.
  - destruct (N.lt_total i j) as [?|[->|?]]; auto. right. left.
    apply array_index_key in Ea, Eb. congruence.
  - apply str_ltb_total.
Qed.

Lemma key_lt_asym a b : key_lt a b = true -> key_lt b a = false.
Proof.
  intros H. destruct (key_lt b a) eqn:E; [|done]. pose proof (key_lt_trans _ _ _ H E) as Hi.
  unfold key_lt in Hi. rewrite canonicalKeyOrder_before in Hi.
  destruct (array_index a); [lia|]. by rewrite str_ltb_irrefl in Hi.
Qed.

Lemma key_before_strict (o : list (jsstr * jsval)) : NoDup (own_keys o) -> strict_on key_before o.
Proof.
  intros Hn. split.
  - intros x y z _ _ _. apply key_lt_trans.
  - intros x y Hx Hy. destruct (key_lt_total x.1 y.1) as [?|[E|?]]; auto. right. left.
    apply list_elem_of_lookup in Hx as (i & Hi). apply list_elem_of_lookup in Hy as (j & Hj).
    assert (i = j) as ->.
    { eapply (NoDup_lookup (own_keys o)); [done|unfold own_keys; rewrite list_lookup_fmap, Hi; done|].
      unfold own_keys. rewrite list_lookup_fmap, Hj. cbn [fmap option_fmap option_map]. by rewrite E. }
    congruence.
Qed.

Definition canonical (v : jsval) : Prop := canonicalizeDocumentValue v = Some v.

Lemma mapM_self {A} (f : A -> option A) l : Forall (fun x => f x = Some x) l -> mapM f l = Some l.
Proof. intros H. apply mapM_Some. by apply Forall_Forall2_diag. Qed.

Lemma canonical_members (o : list (jsstr * jsval)) : Forall (fun kv => canonical kv.2) o ->
  mapM (fun kv => pair kv.1 <$> canonicalizeDocumentValue kv.2) o = Some o.
Proof. intros H. apply mapM_self. eapply Forall_impl; [exact H|]. intros [k v]. cbn. unfold canonical. by intros ->. Qed.

Lemma mapM_members (o o' : list (jsstr * jsval)) : mapM (fun kv => pair kv.1 <$> canonicalizeDocumentValue kv.2) o = Some o' ->
  Forall2 (fun kv kv' => kv'.1 = kv.1 /\ canonicalizeDocumentValue kv.2 = Some kv'.2) o o'.
Proof.
  rewrite mapM_Some. intros H. eapply Forall2_impl; [exact H|]. intros [k v] [k' v'] (w & Hw & E)%fmap_Some.
  injection E as -> ->. by split.
Qed.

(** Canonical forms are fixed points and JSON. *)
Lemma canonicalize_spec v : json_ok v = true -> forall w, canonicalizeDocumentValue v = Some w ->
  canonical w /\ json_ok w = true.
Proof.
  induction v as [| |b|n|s|l IH|o IH|x] using jsval_nested_ind; intros Hv w; cbn [canonicalizeDocumentValue]; try done.
  - by intros [= <-].
  - destruct (is_finite n) eqn:En; [|done]. intros [= <-]. unfold canonical. cbn [canonicalizeDocumentValue]. by rewrite En.
  - by intros [= <-].
  - intros (l' & Hl & ->)%fmap_Some. apply json_ok_arr in Hv. apply mapM_Some in Hl.
    assert (Hall : Forall (fun w => canonical w /\ json_ok w = true) l').
    { clear -IH Hv Hl. induction Hl as [|a b l l' Hab Hl IHl]; [constructor|].
      apply Forall_cons in IH as [IHa IH]. apply Forall_cons in Hv as [Ha Hv]. constructor; [by apply IHa|by apply IHl]. }
    split.
    + unfold canonical. cbn [canonicalizeDocumentValue]. rewrite mapM_self; [done|].
      eapply Forall_impl; [exact Hall|]. by intros ? [? _].
    + apply json_ok_arr. eapply Forall_impl; [exact Hall|]. by intros ? [_ ?].
  - intros (o' & Ho & ->)%fmap_Some. apply json_ok_obj in Hv as [Hn Hv]. apply mapM_members in Ho.
    assert (Hall : Forall (fun kv => canonical kv.2 /\ json_ok kv.2 = true) o').
    { clear -IH Hv Ho. induction Ho as [|a b o o' [_ Hab] Ho IHo]; [constructor|].
      apply Forall_cons in IH as [IHa IH]. apply Forall_cons in Hv as [Ha Hv]. constructor; [by apply IHa|by apply IHo]. }
    assert (Hk : own_keys o' = own_keys o).
    { clear -Ho. unfold own_keys. induction Ho as [|a b o o' [E _] Ho IHo]; [done|]. rewrite !fmap_cons. by rewrite E, IHo. }
    rewrite <- Hk in Hn. pose proof (sort_by_perm key_before o') as Hp.
    assert (Hs : Forall (fun kv => canonical kv.2 /\ json_ok kv.2 = true) (sort_by key_before o')) by by rewrite Hp.
    split.
    + unfold canonical. cbn [canonicalizeDocumentValue]. rewrite canonical_members.
      * cbn [fmap option_fmap option_map]. f_equal. f_equal. apply sort_by_id; [intros x y _ _; apply key_lt_asym|].
        apply sort_by_sorted; [by apply key_before_strict|]. by eapply NoDup_fmap_1.
      * eapply Forall_impl; [exact Hs|]. by intros ? [? _].
    + apply json_ok_obj. split; [unfold own_keys; by rewrite Hp|]. eapply Forall_impl; [exact Hs|]. by intros ? [_ ?].
Qed.

Lemma own_get_perm (o o' : list (jsstr * jsval)) k : o ≡ₚ o' -> NoDup (own_keys o) -> own_get k o = own_get k o'.
Proof.
  intros Hp Hn. assert (Hn' : NoDup (own_keys o')) by (unfold own_keys; by rewrite <- Hp).
  apply option_eq. intros v. split; intros H%own_get_In; apply own_get_elem; try done; [by rewrite <- Hp|by rewrite Hp].
Qed.

(** ** Canonical documents and chunks *)

Lemma members_own_get (o o' : list (jsstr * jsval)) k :
  Forall2 (fun kv kv' => kv'.1 = kv.1 /\ canonicalizeDocumentValue kv.2 = Some kv'.2) o o' ->
  own_get k o' = own_get k o ≫= canonicalizeDocumentValue.
Proof.
  induction 1 as [|[a v] [b w] o o' [E Hv] _ IH]; [done|]. cbn [fst snd] in *. subst b. cbn [own_get].
  destruct (decide (a = k)); [|done]. cbn [mbind option_bind]. by rewrite Hv.
Qed.

Lemma canonicalize_own_id o w : canonicalizeDocumentValue (JObj o) = Some w -> NoDup (own_keys o) -> own_id w = own_id (JObj o).
Proof.
  intros Hw Hn. cbn [canonicalizeDocumentValue] in Hw. apply fmap_Some in Hw as (o' & Ho & ->). apply mapM_members in Ho.
  assert (Hk : own_keys o' = own_keys o).
  { clear -Ho. unfold own_keys. induction Ho as [|a b o o' [E _] Ho IHo]; [done|]. rewrite !fmap_cons. by rewrite E, IHo. }
  unfold own_id. rewrite (own_get_perm (sort_by key_before o') o');
    [|apply sort_by_perm|unfold own_keys in *; by rewrite (sort_by_perm key_before o'), Hk].
  rewrite (members_own_get _ _ (js "_id") Ho).
  destruct (own_get (js "_id") o) as [[| |b|n|s|l|p|x]|]; try done; cbn [mbind option_bind canonicalizeDocumentValue].
  - by destruct (is_finite n).
  - by destruct (mapM _ l).
  - by destruct (mapM _ p).
Qed.

Lemma canonicalizeDocument_spec v w : json_ok v = true -> canonicalizeDocument v = Some w ->
  canonicalizeDocument w = Some w /\ json_ok w = true /\ own_id w = own_id v /\ is_Some (own_id v).
Proof.
  intros Hv. unfold canonicalizeDocument. destruct v as [| | | | | |o|]; try done.
  intros (w' & Hw & H)%bind_Some. apply bind_Some in H as (id & Hid & [= ->]).
  destruct (canonicalize_spec _ Hv _ Hw) as [Hcan Hok].
  apply json_ok_obj in Hv as [Hn _]. pose proof (canonicalize_own_id _ _ Hw Hn) as Hsame.
  split_and!; try done; [|by rewrite <- Hsame, Hid].
  unfold canonical in Hcan. destruct w as [| | | | | |p|]; try done. rewrite Hcan. cbn [mbind option_bind]. by rewrite Hid.
Qed.

Lemma canonicalizeDocuments_spec l docs : Forall (fun v => json_ok v = true) l -> mapM canonicalizeDocument l = Some docs ->
  Forall (fun d => canonicalizeDocument d = Some d /\ json_ok d = true) docs /\ mapM own_id docs = mapM own_id l.
Proof.
  intros Hl H. apply mapM_Some in H. induction H as [|v d l docs Hvd _ IH]; [done|].
  apply Forall_cons in Hl as [Hv Hl]. destruct (canonicalizeDocument_spec _ _ Hv Hvd) as (H1 & H2 & H3 & _).
  destruct (IH Hl) as [IH1 IH2]. split; [by constructor|]. cbn [mapM]. by rewrite H3, IH2.
Qed.

(** A chunk in its canonical form. *)
Record chunk_wf (c : SnapshotChunk) : Prop := {
  wf_incarnation : is_incarnation (chunk_incarnation c) = true;
  wf_docs : Forall (fun d => canonicalizeDocument d = Some d /\ json_ok d = true) (chunk_docs c);
  wf_rows : 1 <= Z.of_nat (length (chunk_docs c)) <= MAX_CHUNK_ROWS;
  wf_ids : exists ids, mapM own_id (chunk_docs c) = Some ids /\ increasing ids = true /\
    head ids = Some (chunk_first_id c) /\ last ids = Some (chunk_last_id c)
}.

Lemma guard_ok_Some b u : guard_ok b = Some u -> b = true.
Proof. by destruct b. Qed.

Ltac unbind H :=
  repeat match type of H with
  | (_ ≫= _) = Some _ => let x := fresh "x" in let E := fresh "E" in apply bind_Some in H as (x & E & H)
  end;
  repeat match goal with E : guard_ok _ = Some _ |- _ => apply guard_ok_Some in E end.

Lemma incarnation_field_Some v inc : incarnation_field v = Some inc -> v = JStr inc /\ is_incarnation inc = true.
Proof.
  unfold incarnation_field. intros H. unbind H. injection H as <-. destruct v; try done. cbn in *. by simplify_eq.
Qed.

Lemma collection_field_Some code v coll : collection_field code v = Some coll -> v = JStr coll.
Proof.
  unfold collection_field. intros (s & Hs & H)%bind_Some. destruct v; try done. cbn in Hs. injection Hs as ->.
  destruct code; try (by injection H as ->); destruct (assertPathSegment s); by simplify_eq.
Qed.

Lemma exact_fields_obj v ks o : assertExactFields v ks = Some o -> v = JObj o.
Proof. unfold assertExactFields. destruct v; try done. case_match; [|done]. by intros [= ->]. Qed.

Lemma canonical_chunk_wf code v c : json_ok v = true -> canonical_chunk code v = Some c -> chunk_wf c.
Proof.
  intros Hv H. unfold canonical_chunk in H. apply bind_Some in H as (o & Ho & H). apply exact_fields_obj in Ho as ->.
  apply bind_Some in H as (? & _ & H). apply bind_Some in H as (coll & _ & H). apply bind_Some in H as (inc & Hinc & H).
  apply bind_Some in H as (l & Hl & H). apply bind_Some in H as (? & Hlen%guard_ok_Some & H).
  apply bind_Some in H as (docs & Hdocs & H). apply bind_Some in H as (ids & Hids & H).
  apply bind_Some in H as (? & Hinc'%guard_ok_Some & H). apply bind_Some in H as (first & Hfirst & H).
  apply bind_Some in H as (lst & Hlast & H). apply bind_Some in H as (? & _ & H). injection H as <-.
  apply incarnation_field_Some in Hinc as [_ Hinc].
  assert (Hlj : Forall (fun v => json_ok v = true) l).
  { destruct (js_get o (js "docs")) as [| | | | |l'| |] eqn:E; try done. injection Hl as <-.
    apply json_ok_arr. apply json_ok_obj in Hv as [_ Hv]. unfold js_get in E. destruct (own_get _ o) as [w|] eqn:Eo.
    - subst w. apply own_get_In in Eo. rewrite Forall_forall in Hv. by apply (Hv _ Eo).
    - repeat case_decide; done. }
  destruct (canonicalizeDocuments_spec _ _ Hlj Hdocs) as [Hd _].
  assert (Hll : length docs = length l) by (apply mapM_Some in Hdocs; symmetry; by eapply Forall2_length).
  split; cbn [chunk_incarnation chunk_docs chunk_first_id chunk_last_id]; [done|done| |by exists ids].
  apply andb_true_iff in Hlen as [H1 H2]. apply negb_true_iff, Z.eqb_neq in H1. apply Z.leb_le in H2. rewrite Hll. lia.
Qed.

Lemma strict_eq_str s : strict_eq (JStr s) (JStr s) = true.
Proof. cbn. by apply bool_decide_eq_true. Qed.

Lemma canonical_chunk_json c : chunk_wf c -> canonical_chunk InvalidResponse (chunk_json c) = Some c.
Proof.
  intros [Hinc Hdocs Hrows (ids & Hids & Hord & Hf & Hl)]. unfold canonical_chunk.
  assert (assertExactFields (chunk_json c) chunk_fields =
    Some match chunk_json c with JObj o => o | _ => [] end) as -> by reflexivity.
  cbn [mbind option_bind chunk_json]. js_fields. rewrite strict_eq_num. cbn [guard_ok mbind option_bind collection_field as_string].
  unfold incarnation_field. cbn [as_string mbind option_bind]. rewrite Hinc. cbn [guard_ok mbind option_bind].
  rewrite (proj2 (Z.eqb_neq _ 0)) by lia. rewrite (proj2 (Z.leb_le _ _)) by lia. cbn [negb andb guard_ok mbind option_bind].
  rewrite mapM_self by (eapply Forall_impl; [exact Hdocs|]; by intros ? [? _]). cbn [mbind option_bind].
  rewrite Hids. cbn [mbind option_bind]. rewrite Hord. cbn [guard_ok mbind option_bind]. rewrite Hf, Hl. cbn [mbind option_bind].
  rewrite !strict_eq_str. cbn [andb guard_ok mbind option_bind]. by destruct c.
Qed.

Lemma chunk_json_ok c : chunk_wf c -> json_ok (chunk_json c) = true.
Proof.
  intros [_ Hdocs _ _]. apply json_ok_obj. split; [js_decide|]. repeat constructor. cbn [snd]. apply json_ok_arr.
  eapply Forall_impl; [exact Hdocs|]. by intros ? [_ ?].
Qed.

(** What encoding a chunk of documents gives. *)
Lemma encodeSnapshotChunk_spec byteLength c b : Forall (fun v => json_ok v = true) (chunk_docs c) ->
  encodeSnapshotChunk byteLength c = Encoded b ->
  exists docs, mapM canonicalizeDocument (chunk_docs c) = Some docs /\
    let c' := Chunk (chunk_collection c) (chunk_incarnation c) (chunk_first_id c) (chunk_last_id c) docs in
    chunk_wf c' /\ b = JsonText (chunk_json c') /\ byteLength b <= MAX_CHUNK_BYTES.
Proof.
  intros Hj. unfold encodeSnapshotChunk, canonicalizeChunk. destruct (canonical_chunk _ _) as [c'|] eqn:E; [|done].
  cbn [or_code]. assert (Hwf : chunk_wf c').
  { eapply canonical_chunk_wf; [|exact E]. apply json_ok_obj. split; [js_decide|]. repeat constructor. by apply json_ok_arr. }
  rewrite encode_ok by by apply chunk_json_ok. destruct (Z.ltb_spec MAX_CHUNK_BYTES (byteLength (JsonText (chunk_json c')))); [done|].
  intros [= <-]. unfold canonical_chunk in E.
  assert (assertExactFields (chunk_json c) chunk_fields =
    Some match chunk_json c with JObj o => o | _ => [] end) as Ef by reflexivity. rewrite Ef in E.
  cbn [mbind option_bind chunk_json] in E. revert E. js_fields. rewrite strict_eq_num. cbn [guard_ok mbind option_bind].
  intros E. apply bind_Some in E as (coll & Hc%collection_field_Some & E). injection Hc as <-.
  apply bind_Some in E as (inc & [Hi _]%incarnation_field_Some & E). injection Hi as <-.
  apply bind_Some in E as (? & _ & E). apply bind_Some in E as (docs & Hdocs & E). exists docs. split; [done|].
  apply bind_Some in E as (ids & _ & E). apply bind_Some in E as (? & _ & E). apply bind_Some in E as (first & _ & E).
  apply bind_Some in E as (lst & _ & E). apply bind_Some in E as (? & Hfl%guard_ok_Some & E). injection E as <-.
  apply andb_true_iff in Hfl as [H1 H2]. cbn in H1, H2. apply bool_decide_eq_true in H1, H2. subst. done.
Qed.

(** ** Keys *)

Definition one_line (p : jsstr) : Prop := existsb is_line_end p = false.

Lemma parse_artifact_key kind p inc dig key : artifact_key kind p inc dig = inr key -> one_line p ->
  parseArtifactKey kind key = Some (ArtifactKey p inc dig).
Proof.
  unfold artifact_key. destruct (bool_decide_reflect (p = [])) as [|Hp]; [done|]. cbn [orb].
  destruct (ends_with_slash p) eqn:Es; [done|]. destruct (is_incarnation inc) eqn:Ei; [|done]. destruct (is_digest dig) eqn:Ed; [|done].
  cbn [negb]. unfold assertKeyWithinLimit. destruct (MAX_KEY_BYTES <? utf8_length _) eqn:El; [done|]. intros [= <-] Hone.
  unfold parseArtifactKey. rewrite El.
  assert (Hi : length inc = 32%nat) by (unfold is_incarnation in Ei; by apply andb_true_iff in Ei as [?%Nat.eqb_eq _]).
  assert (Hd : length dig = 64%nat) by (unfold is_digest in Ed; by apply andb_true_iff in Ed as [?%Nat.eqb_eq _]).
  assert (Ht : length (artifact_tail kind inc dig) = (length (artifact_dir kind) + 32 + 8 + 64 + 5)%nat).
  { unfold artifact_tail. rewrite !length_app, Hi, Hd. change (length (js "/sha256/")) with 8%nat. change (length (js ".json")) with 5%nat. lia. }
  rewrite length_app, Ht. replace (_ + _ - _)%nat with (length p) by lia.
  rewrite take_app_length, drop_app_length.
  assert (Hinc : take 32 (drop (length (artifact_dir kind)) (artifact_tail kind inc dig)) = inc).
  { unfold artifact_tail. rewrite drop_app_length. by apply take_app_length'. }
  rewrite Hinc.
  assert (Hdig : take 64 (drop (length (artifact_dir kind) + 32 + 8) (artifact_tail kind inc dig)) = dig).
  { unfold artifact_tail. rewrite (app_assoc inc), (app_assoc (artifact_dir kind)), drop_app_length'.
    - by apply take_app_length'.
    - rewrite !length_app, Hi. change (length (js "/sha256/")) with 8%nat. lia. }
  rewrite Hdig, (bool_decide_eq_false_2 (p = [])) by done. unfold one_line in Hone. rewrite Hone, Ei, Ed, Es.
  rewrite bool_decide_eq_true_2 by done. reflexivity.
Qed.

(** ** The chunk codec *)

Lemma decode_own_chunk byteLength sha256 c p b key : chunk_wf c -> one_line p ->
  b = JsonText (chunk_json c) -> 0 < byteLength b <= MAX_CHUNK_BYTES ->
  snapshotChunkKey p (chunk_incarnation c) (snapshotHash sha256 b) = inr key ->
  decodeSnapshotChunk byteLength sha256 b key (chunk_collection c)
    (Descriptor (chunk_first_id c) (chunk_last_id c) key (byteLength b) (Z.of_nat (length (chunk_docs c)))) = inr c.
Proof.
  intros Hwf Hp -> Hb Hkey. unfold decodeSnapshotChunk, decode_chunk.
  rewrite (proj2 (Z.eqb_neq (byteLength _) 0)), (proj2 (Z.ltb_ge MAX_CHUNK_BYTES _)) by lia. cbn [orb negb guard_ok mbind option_bind].
  rewrite (parse_artifact_key _ _ _ _ _ Hkey Hp). cbn [mbind option_bind descriptor_key byte_length key_sha256 key_incarnation].
  rewrite (bool_decide_eq_true_2 (key = key)), Z.eqb_refl by done. cbn [andb guard_ok mbind option_bind].
  rewrite bool_decide_eq_true_2 by done. cbn [guard_ok mbind option_bind decodeJsonBytes].
  rewrite chunk_json_ok by done. cbn [mbind option_bind]. rewrite canonical_chunk_json by done. cbn [mbind option_bind].
  rewrite encode_ok by by apply chunk_json_ok. cbn [mbind option_bind first_id last_id row_count].
  by rewrite !bool_decide_eq_true_2, Z.eqb_refl by done.
Qed.

(** Whatever decodes is canonical, within the bounds, and sealed by its key. *)
Lemma decode_chunk_inv byteLength sha256 b key coll d c : decodeSnapshotChunk byteLength sha256 b key coll d = inr c ->
  chunk_wf c /\ b = JsonText (chunk_json c) /\ descriptor_key d = key /\ byte_length d = byteLength b /\
  byteLength b <> 0 /\ byteLength b <= MAX_CHUNK_BYTES /\ chunk_collection c = coll /\
  chunk_first_id c = first_id d /\ chunk_last_id c = last_id d /\ Z.of_nat (length (chunk_docs c)) = row_count d /\
  exists p, parseArtifactKey chunk_artifact key = Some (ArtifactKey p (chunk_incarnation c) (snapshotHash sha256 b)).
Proof.
  unfold decodeSnapshotChunk. destruct (decode_chunk _ _ _ _ _ _) as [c'|] eqn:H; [|done]. intros [= ->].
  unfold decode_chunk in H. apply bind_Some in H as (? & Hl%guard_ok_Some & H). apply bind_Some in H as (k & Hk & H).
  apply bind_Some in H as (? & Hd%guard_ok_Some & H). apply bind_Some in H as (? & Hh%guard_ok_Some & H).
  apply bind_Some in H as (v & Hv & H). apply bind_Some in H as (c' & Hc & H). apply bind_Some in H as (cb & Hcb & H).
  apply bind_Some in H as (? & Hb%guard_ok_Some & H). apply bind_Some in H as (? & Hcoll%guard_ok_Some & H).
  apply bind_Some in H as (? & Hinc%guard_ok_Some & H). apply bind_Some in H as (? & Hr%guard_ok_Some & H). injection H as ->.
  apply bool_decide_eq_true in Hh, Hb, Hcoll, Hinc. apply andb_true_iff in Hd as [Hd1 Hd2]. apply bool_decide_eq_true in Hd1.
  apply Z.eqb_eq in Hd2. rewrite !andb_true_iff in Hr. destruct Hr as [[Hr1 Hr2] Hr3].
  apply bool_decide_eq_true in Hr1, Hr2. apply Z.eqb_eq in Hr3.
  assert (Hwf : chunk_wf c) by (eapply canonical_chunk_wf; [by eapply decode_json_ok|exact Hc]).
  rewrite encode_ok in Hcb by by apply chunk_json_ok. injection Hcb as <-.
  apply negb_true_iff, orb_false_iff in Hl as [Hl1 Hl2]. apply Z.eqb_neq in Hl1. apply Z.ltb_ge in Hl2.
  split_and!; try done. destruct k as [p i g]. cbn [key_sha256 key_incarnation] in *. subst i g. by exists p.
Qed.

(** ** Manifests *)

Record descriptor_ok (p : jsstr) (d : SnapshotChunkDescriptor) : Prop := {
  ok_first : as_doc_id (JStr (first_id d)) = Some (first_id d);
  ok_last : as_doc_id (JStr (last_id d)) = Some (last_id d);
  ok_range : compareDocIds (first_id d) (last_id d) <= 0;
  ok_key : exists k, parseArtifactKey chunk_artifact (descriptor_key d) = Some k /\ key_prefix k = p;
  ok_bytes : 0 < byte_length d <= MAX_CHUNK_BYTES;
  ok_rows : 0 < row_count d <= MAX_CHUNK_ROWS
}.

Lemma positive_num z maximum : 0 < z <= maximum -> maximum <= MAX_SAFE_INTEGER -> positiveSafeInteger maximum (num z) = Some z.
Proof.
  intros Hz Hm. unfold positiveSafeInteger, safe_integer. rewrite nonneg_integer_num by lia. cbn [mbind option_bind].
  rewrite (proj2 (Z.leb_le _ _)) by lia. cbn [guard_ok mbind option_bind].
  by rewrite (proj2 (Z.ltb_lt _ _)), (proj2 (Z.leb_le _ _)) by lia.
Qed.

Lemma positive_Some maximum v z : positiveSafeInteger maximum v = Some z -> v = num z /\ 0 < z <= maximum.
Proof.
  unfold positiveSafeInteger, safe_integer. intros H. apply bind_Some in H as (z' & H' & H). apply bind_Some in H as (? & Hg%guard_ok_Some & H).
  injection H as ->. apply bind_Some in H' as (z' & Hn & H). apply bind_Some in H as (? & _ & H). injection H as ->.
  apply andb_true_iff in Hg as [H1%Z.ltb_lt H2%Z.leb_le]. split; [|lia].
  destruct v as [| | |n| | | |]; try done. cbn [nonneg_integer] in Hn. destruct (num_integer n) as [i|] eqn:E; [|done].
  apply num_of_integer in E as ->. destruct (i <? 0); by simplify_eq.
Qed.

Lemma as_doc_id_Some v id : as_doc_id v = Some id -> v = JStr id /\ assertSnapshotDocId id = None.
Proof. destruct v; try done. cbn. destruct (assertSnapshotDocId s) eqn:E; [done|]. by intros [= <-]. Qed.

Lemma exact_js_get v ks o k : assertExactFields v ks = Some o -> k ∈ ks -> exists w, own_get k o = Some w /\ js_get o k = w.
Proof.
  unfold assertExactFields. destruct v as [| | | | | |o'|]; try done. destruct (_ && forallb _ ks) eqn:E; [|done]. intros [= ->] Hk.
  apply andb_true_iff in E as [_ E]. rewrite forallb_forall in E. apply list_elem_of_In, E, bool_decide_eq_true in Hk as [w Hw].
  exists w. split; [done|]. unfold js_get. by rewrite Hw.
Qed.

Lemma canonical_descriptor_inv e c seen v d p : canonical_descriptor e c seen v = Some (d, p) ->
  descriptor_ok p d /\ (descriptor_key d ∉ seen) /\ (forall q, c = Some q -> q = p) /\ (forall q, e = Some q -> q = p).
Proof.
  intros H. unfold canonical_descriptor in H. apply bind_Some in H as (o & Ho & H).
  apply bind_Some in H as (f & [Hf Hf']%as_doc_id_Some & H). apply bind_Some in H as (l & [Hl Hl']%as_doc_id_Some & H).
  apply bind_Some in H as (? & Hr%guard_ok_Some & H). apply bind_Some in H as (k & Hk & H). apply bind_Some in H as (pk & Hpk & H).
  apply bind_Some in H as (? & Hc%guard_ok_Some & H). apply bind_Some in H as (? & He%guard_ok_Some & H).
  apply bind_Some in H as (z & [_ Hz]%positive_Some & H). apply bind_Some in H as (n & [_ Hn]%positive_Some & H).
  apply bind_Some in H as (? & Hs%guard_ok_Some & H). injection H as <- <-. apply bool_decide_eq_true in Hs. apply Z.leb_le in Hr.
  split_and!; [|done| |].
  - split; cbn [first_id last_id descriptor_key byte_length row_count]; try done; [by cbn; rewrite Hf'|by cbn; rewrite Hl'|by exists pk].
  - intros q ->. by apply bool_decide_eq_true in Hc.
  - intros q ->. by apply bool_decide_eq_true in He.
Qed.

Lemma canonical_descriptors_inv e l : forall c seen ds, canonical_descriptors e c seen l = Some ds ->
  exists p, Forall (descriptor_ok p) ds /\ NoDup (descriptor_key <$> ds) /\ Forall (fun d => descriptor_key d ∉ seen) ds /\
    (ds <> [] -> forall q, c = Some q \/ e = Some q -> q = p).
Proof.
  induction l as [|v l IH]; intros c seen ds; cbn [canonical_descriptors].
  { intros [= <-]. exists []. split_and!; [constructor..|done]. }
  intros H. apply bind_Some in H as ([d p] & Hd & H). apply bind_Some in H as (ds' & Hds & H). injection H as <-. cbn [fst snd] in *.
  apply canonical_descriptor_inv in Hd as (Hok & Hns & Hc & He). apply IH in Hds as (p' & H1 & H2 & H3 & H4). exists p.
  assert (Hp : Forall (descriptor_ok p) ds').
  { destruct ds' as [|d' ds']; [constructor|].
    assert (default p c = p') as E by (apply H4; [done|by left]).
    assert (default p c = p) as E' by (destruct c as [q|]; [by apply Hc|done]). by rewrite <- E', E. }
  split_and!.
  - by constructor.
  - rewrite fmap_cons. constructor; [|done]. intros (d' & E & Hin)%list_elem_of_fmap. rewrite Forall_forall in H3.
    apply (H3 d' Hin). rewrite <- E. by left.
  - constructor; [done|]. eapply Forall_impl; [exact H3|]. intros d' Hn Hin. apply Hn. by right.
  - intros _ q [?|?]; [by apply Hc|by apply He].
Qed.

(** A manifest whose chunks lie under the prefix [p]. *)
Record manifest_wf (p : jsstr) (m : SnapshotManifest) : Prop := {
  mwf_incarnation : is_incarnation (manifest_incarnation m) = true;
  mwf_start : 0 <= manifest_log_seq_start m <= MAX_SAFE_INTEGER;
  mwf_count : Z.of_nat (length (chunks m)) <= MAX_MANIFEST_CHUNKS;
  mwf_chunks : Forall (descriptor_ok p) (chunks m);
  mwf_keys : NoDup (descriptor_key <$> chunks m);
  mwf_ranges : ranges_increase (chunks m) = true
}.

Lemma exact_descriptor d : assertExactFields (descriptor_json d) descriptor_fields =
  Some match descriptor_json d with JObj o => o | _ => [] end.
Proof. reflexivity. Qed.

Lemma canonical_descriptor_json e c seen p d : descriptor_ok p d -> (descriptor_key d ∉ seen) ->
  (c = None \/ c = Some p) -> (e = None \/ e = Some p) -> canonical_descriptor e c seen (descriptor_json d) = Some (d, p).
Proof.
  intros [Hf Hl Hr (k & Hk & Hkp) Hb Hn] Hs Hc He. unfold canonical_descriptor. rewrite exact_descriptor.
  cbn [mbind option_bind descriptor_json]. js_fields. rewrite Hf. cbn [mbind option_bind]. rewrite Hl. cbn [mbind option_bind].
  rewrite (proj2 (Z.leb_le _ _)) by done. cbn [guard_ok mbind option_bind as_string]. rewrite Hk. cbn [mbind option_bind].
  rewrite Hkp. assert (forall o : option jsstr, o = None \/ o = Some p -> match o with Some q => bool_decide (p = q) | None => true end = true) as Hq.
  { intros o [-> | ->]; [done|by apply bool_decide_eq_true]. }
  rewrite !Hq by done. cbn [guard_ok mbind option_bind].
  rewrite positive_num by (done || by vm_compute). cbn [mbind option_bind].
  rewrite positive_num by (done || by vm_compute). cbn [mbind option_bind].
  rewrite bool_decide_eq_true_2 by done. cbn [guard_ok mbind option_bind]. by destruct d.
Qed.

Lemma canonical_descriptors_json e p ds : forall c seen, Forall (descriptor_ok p) ds -> NoDup (descriptor_key <$> ds) ->
  Forall (fun d => descriptor_key d ∉ seen) ds -> (c = None \/ c = Some p) -> (e = None \/ e = Some p) ->
  canonical_descriptors e c seen (descriptor_json <$> ds) = Some ds.
Proof.
  induction ds as [|d ds IH]; intros c seen Hok Hn Hs Hc He; [done|]. rewrite !fmap_cons in *. cbn [canonical_descriptors].
  apply Forall_cons in Hok as [Hd Hok]. apply NoDup_cons in Hn as [Hnd Hn]. apply Forall_cons in Hs as [Hsd Hs].
  rewrite (canonical_descriptor_json _ _ _ p) by done. cbn [mbind option_bind fst snd]. rewrite IH; try done.
  - apply Forall_forall. intros d' Hin [E|?]%elem_of_cons; [|rewrite Forall_forall in Hs; by apply (Hs d')].
    apply Hnd. rewrite <- E. apply list_elem_of_fmap. by exists d'.
  - right. f_equal. by destruct Hc as [-> | ->].
Qed.

Lemma exact_manifest m : assertExactFields (manifest_json m) manifest_fields =
  Some match manifest_json m with JObj o => o | _ => [] end.
Proof. reflexivity. Qed.

Lemma canonical_manifest_json e p m : manifest_wf p m -> (e = None \/ e = Some p) ->
  canonical_manifest InvalidResponse e (manifest_json m) = Some m.
Proof.
  intros [Hi Hst Hcnt Hok Hn Hr] He. unfold canonical_manifest. rewrite exact_manifest. cbn [mbind option_bind manifest_json].
  js_fields. rewrite strict_eq_num. cbn [guard_ok mbind option_bind collection_field as_string]. unfold safe_integer.
  rewrite nonneg_integer_num by lia. cbn [mbind option_bind].
  rewrite (proj2 (Z.leb_le (manifest_log_seq_start m) MAX_SAFE_INTEGER)) by lia. cbn [guard_ok mbind option_bind].
  unfold incarnation_field. cbn [as_string mbind option_bind]. rewrite Hi. cbn [guard_ok mbind option_bind].
  rewrite strict_eq_str. cbn [guard_ok mbind option_bind]. rewrite length_fmap, (proj2 (Z.leb_le (Z.of_nat (length (chunks m))) MAX_MANIFEST_CHUNKS)) by lia.
  cbn [guard_ok mbind option_bind]. rewrite (canonical_descriptors_json _ p); try done; [|by apply Forall_true; intros ? ?%not_elem_of_nil|by left].
  cbn [mbind option_bind]. rewrite Hr. cbn [guard_ok mbind option_bind]. by destruct m.
Qed.

Lemma canonical_manifest_inv code e v m : canonical_manifest code e v = Some m ->
  exists p, manifest_wf p m /\ (chunks m <> [] -> forall q, e = Some q -> q = p).
Proof.
  intros H. unfold canonical_manifest in H. apply bind_Some in H as (o & Ho & H). apply bind_Some in H as (? & _ & H).
  apply bind_Some in H as (coll & _ & H). apply bind_Some in H as (st & Hst & H).
  apply bind_Some in H as (inc & [_ Hinc]%incarnation_field_Some & H). apply bind_Some in H as (? & _ & H).
  apply bind_Some in H as (l & _ & H). apply bind_Some in H as (? & Hlen%guard_ok_Some & H).
  apply bind_Some in H as (ds & Hds & H). apply bind_Some in H as (? & Hr%guard_ok_Some & H). injection H as <-.
  assert (Hl : length ds = length l).
  { clear -Hds. revert ds Hds. generalize (@None jsstr) (@nil jsstr). induction l as [|x l IH]; intros c s ds; cbn [canonical_descriptors].
    - by intros [= <-].
    - intros (d & _ & H)%bind_Some. apply bind_Some in H as (ds' & H & [= <-]). cbn [length]. by rewrite (IH _ _ _ H). }
  apply canonical_descriptors_inv in Hds as (p & H1 & H2 & _ & H4). exists p. split; [|intros Hne q ->; by apply H4; auto].
  apply Z.leb_le in Hlen. split; cbn [manifest_incarnation manifest_log_seq_start chunks]; try done; [|lia].
  unfold safe_integer in Hst. apply bind_Some in Hst as (z & Hz & Hst). apply bind_Some in Hst as (? & Hg%guard_ok_Some & [= ->]).
  apply nonneg_integer_Some in Hz. apply Z.leb_le in Hg. lia.
Qed.

Lemma manifest_json_ok m : json_ok (manifest_json m) = true.
Proof.
  apply json_ok_obj. split; [js_decide|]. repeat constructor. cbn [snd]. apply json_ok_arr, Forall_fmap, Forall_true. intros d. done.
Qed.

Lemma decode_own_manifest byteLength sha256 p m b key : manifest_wf p m -> one_line p -> b = JsonText (manifest_json m) ->
  0 < byteLength b <= MAX_MANIFEST_BYTES -> snapshotManifestKey p (manifest_incarnation m) (snapshotHash sha256 b) = inr key ->
  decodeSnapshotManifest byteLength sha256 b key (manifest_collection m) (manifest_log_seq_start m) = inr m.
Proof.
  intros Hwf Hp -> Hb Hkey. unfold decodeSnapshotManifest, decode_manifest.
  rewrite (proj2 (Z.eqb_neq (byteLength _) 0)), (proj2 (Z.ltb_ge MAX_MANIFEST_BYTES _)) by lia. cbn [orb negb guard_ok mbind option_bind].
  rewrite (parse_artifact_key _ _ _ _ _ Hkey Hp). cbn [mbind option_bind key_sha256 key_incarnation key_prefix].
  rewrite (bool_decide_eq_true_2 (snapshotHash _ _ = _)) by done. cbn [guard_ok mbind option_bind decodeJsonBytes].
  rewrite manifest_json_ok. cbn [mbind option_bind]. rewrite (canonical_manifest_json _ p) by auto. cbn [mbind option_bind].
  rewrite encode_ok by by apply manifest_json_ok. cbn [mbind option_bind]. by rewrite !bool_decide_eq_true_2, Z.eqb_refl by done.
Qed.

Lemma decode_manifest_inv byteLength sha256 b key coll start m :
  decodeSnapshotManifest byteLength sha256 b key coll start = inr m ->
  manifest_collection m = coll /\ manifest_log_seq_start m = start /\ exists p, manifest_wf p m.
Proof.
  unfold decodeSnapshotManifest. destruct (decode_manifest _ _ _ _ _ _) as [m'|] eqn:H; [|done]. intros [= ->].
  unfold decode_manifest in H. apply bind_Some in H as (? & _ & H). apply bind_Some in H as (k & _ & H).
  apply bind_Some in H as (? & _ & H). apply bind_Some in H as (v & _ & H). apply bind_Some in H as (m' & Hm & H).
  apply bind_Some in H as (cb & _ & H). apply bind_Some in H as (? & _ & H). apply bind_Some in H as (? & Hc%guard_ok_Some & H).
  apply bind_Some in H as (? & Hs%guard_ok_Some & H). apply bind_Some in H as (? & _ & H). injection H as ->.
  apply bool_decide_eq_true in Hc. apply Z.eqb_eq in Hs. split_and!; [done..|]. by apply canonical_manifest_inv in Hm as (p & ? & _); exists p.
Qed.

(** ** Binary search *)

Lemma search_spec below n : (forall i j, (i <= j < n)%nat -> below j = true -> below i = true) ->
  forall fuel low high, (low <= high <= n)%nat -> (high - low <= fuel)%nat ->
  (forall i, (i < low)%nat -> below i = true) -> (forall i, (high <= i < n)%nat -> below i = false) ->
  let r := search below fuel low high in
  (r <= n)%nat /\ (forall i, (i < r)%nat -> below i = true) /\ (forall i, (r <= i < n)%nat -> below i = false).
Proof.
  intros Hmono. induction fuel as [|fuel IH]; intros low high Hr Hf Hlo Hhi; cbn [search].
  { replace high with low in * by lia. split_and!; [lia|done|done]. }
  destruct (Nat.ltb_spec low high).
  - assert (Hd : ((high - low) / 2 < high - low)%nat) by (apply Nat.div_lt; lia).
    destruct (below (low + (high - low) / 2)%nat) eqn:E.
    + apply IH; [lia|lia| |done]. intros i Hi. apply (Hmono i (low + (high - low) / 2)%nat); [lia|done].
    + apply IH; [lia|lia|done|]. intros i Hi. destruct (below i) eqn:Ei; [|done].
      rewrite (Hmono (low + (high - low) / 2)%nat i) in E; [done|lia|done].
  - replace high with low in * by lia. split_and!; [lia|done|done].
Qed.

(** ** Theorems *)

(** C25: The chunk codec: what encoding a chunk gives decodes, under the content-addressed key
    of the bytes and the descriptor that counts them, to the chunk with its documents in
    canonical form (members in the canonical key order at every depth, a fixed point of
    canonicalisation) and its ids strictly increasing from [first_id] to [last_id]; and
    whatever decodes under that key is the canonical text of such a chunk with that digest,
    its length and ids those of its descriptor. *)
Theorem snapshot_chunk_codec byteLength sha256 p c b key :
  Forall (fun v => json_ok v = true) (chunk_docs c) -> one_line p -> 0 < byteLength b ->
  encodeSnapshotChunk byteLength c = Encoded b ->
  snapshotChunkKey p (chunk_incarnation c) (snapshotHash sha256 b) = inr key ->
  (exists docs, mapM canonicalizeDocument (chunk_docs c) = Some docs /\
     let c' := Chunk (chunk_collection c) (chunk_incarnation c) (chunk_first_id c) (chunk_last_id c) docs in
     chunk_wf c' /\
     decodeSnapshotChunk byteLength sha256 b key (chunk_collection c)
       (Descriptor (chunk_first_id c) (chunk_last_id c) key (byteLength b) (Z.of_nat (length docs))) = inr c') /\
  forall b' coll d c', decodeSnapshotChunk byteLength sha256 b' key coll d = inr c' ->
    snapshotHash sha256 b' = snapshotHash sha256 b /\ b' = JsonText (chunk_json c') /\ chunk_wf c' /\
    byte_length d = byteLength b' /\ chunk_first_id c' = first_id d /\ chunk_last_id c' = last_id d.
Proof.
  intros Hj Hp Hb He Hk. split.
  - destruct (encodeSnapshotChunk_spec _ _ _ Hj He) as (docs & Hdocs & Hwf & Eb & Hlen). exists docs. split; [done|].
    split; [done|]. by eapply (decode_own_chunk byteLength sha256 (Chunk _ _ _ _ docs)).
  - intros b' coll d c' Hd. apply decode_chunk_inv in Hd as (Hwf & Eb & _ & Hl & _ & _ & _ & Hf & Hlast & _ & q & Hq).
    rewrite (parse_artifact_key _ _ _ _ _ Hk Hp) in Hq. injection Hq as _ _ Hh. done.
Qed.

Definition chunk_row (id : string) : jsval := JObj [(js "_id", JStr (js id))].

Definition sample_length (b : bytes) : Z := 64.

Definition sample_chunk (digit : string) (lo hi : string) : SnapshotChunk :=
  Chunk (js "t") (mjoin (replicate 32 (js digit))) (js lo) (js hi) [chunk_row lo; chunk_row hi].

(** A document whose members are out of order. *)
Definition unordered_chunk : SnapshotChunk :=
  Chunk (js "t") (mjoin (replicate 32 (js "1"))) (js "a") (js "a")
    [JObj [(js "b", num 1); (js "_id", JStr (js "a")); (js "10", num 2); (js "9", num 3)]].

Lemma snapshot_chunk_codec_witness :
  exists key docs, decodeSnapshotChunk sample_length sample_sha256
    (JsonText (chunk_json (Chunk (js "t") (mjoin (replicate 32 (js "1"))) (js "a") (js "a") docs))) key (js "t")
    (Descriptor (js "a") (js "a") key 64 1) =
      inr (Chunk (js "t") (mjoin (replicate 32 (js "1"))) (js "a") (js "a") docs) /\
    docs = [JObj [(js "9", num 3); (js "10", num 2); (js "_id", JStr (js "a")); (js "b", num 1)]].
Proof.
  set (docs := [JObj [(js "9", num 3); (js "10", num 2); (js "_id", JStr (js "a")); (js "b", num 1)]]).
  set (c := Chunk (js "t") (mjoin (replicate 32 (js "1"))) (js "a") (js "a") docs).
  assert (Hk : exists key, snapshotChunkKey (js "a/t") (chunk_incarnation unordered_chunk)
    (snapshotHash sample_sha256 (JsonText (chunk_json c))) = inr key) by (eexists; vm_compute; reflexivity).
  destruct Hk as [key Hk]. exists key, docs.
  destruct (snapshot_chunk_codec sample_length sample_sha256 (js "a/t") unordered_chunk (JsonText (chunk_json c)) key)
    as [(docs' & Hdocs & _ & Hd) _].
  - repeat constructor.
  - vm_compute. reflexivity.
  - reflexivity.
  - vm_compute. reflexivity.
  - exact Hk.
  - assert (docs' = docs) as ->.
    { assert (E : mapM canonicalizeDocument (chunk_docs unordered_chunk) = Some docs) by (vm_compute; reflexivity).
      rewrite E in Hdocs. congruence. }
    split; [exact Hd|reflexivity].
Defined.
