(* ===== verification/SnapshotView.v ===== *)
(** * Reading a chunked snapshot

    server/src/snapshot-view.ts: opening a view on a chunk manifest, the point read, the
    range scan and the materialised map.  A scan is modelled for a consumer that drains it.
    The theorem shows that reading through the chunks is reading the concatenated rows. *)
From S2P Require Import Prelude JsText JsValue Errors Json Storage Effects Lsn CurrentJson LogWalk Snapshot DocId Sort SnapshotCodec.
Local Open Scope Z_scope.

(** [candidate["_id"] as string] *)
Definition doc_id (d : jsval) : jsstr :=
  match d with
  | JObj o => match own_get (js "_id") o with Some (JStr s) => s | _ => [] end
  | _ => []
  end.

Definition findDocument (docs : list jsval) (id : jsstr) : option jsval :=
  let low := search (fun i => match docs !! i with Some d => compareDocIds (doc_id d) id <? 0 | None => false end)
               (length docs) 0 (length docs) in
  match docs !! low with
  | Some candidate => if compareDocIds (doc_id candidate) id =? 0 then Some candidate else None
  | None => None
  end.

(** The rows one chunk yields. *)
Fixpoint scan_rows (gte lt : option jsstr) (docs : list jsval) : list (jsstr * jsval) :=
  match docs with
  | [] => []
  | body :: docs =>
    let id := doc_id body in
    if match gte with Some g => compareDocIds id g <? 0 | None => false end then scan_rows gte lt docs
    else if match lt with Some l => 0 <=? compareDocIds id l | None => false end then []
    else (id, body) :: scan_rows gte lt docs
  end.

Section view.
Context (byteLength : bytes -> Z) (sha256 : bytes -> list N).

Definition openSnapshotView (manifestKey : option jsstr) (collection : jsstr) (expectedLogSeqStart : Z) :
    prog (list SnapshotChunkDescriptor) :=
  match manifestKey with
  | None => Ret []
  | Some key =>
    bind (storage_get key) (fun stored =>
    match stored with
    | None => Throw (new_error InvalidResponse)
    | Some stored =>
      bind (of_result (decodeSnapshotManifest byteLength sha256 (body stored) key collection expectedLogSeqStart)) (fun m =>
      Ret (chunks m))
    end)
  end.

(** A view: its collection and descriptors. *)
Context (collection : jsstr) (descriptors : list SnapshotChunkDescriptor).

Definition loadChunk (d : SnapshotChunkDescriptor) : prog (list jsval) :=
  bind (storage_get (descriptor_key d)) (fun stored =>
  match stored with
  | None => Throw (new_error InvalidResponse)
  | Some stored =>
    bind (of_result (decodeSnapshotChunk byteLength sha256 (body stored) (descriptor_key d) collection d)) (fun c =>
    Ret (chunk_docs c))
  end).

Definition view_get (docId : jsstr) : prog (option jsval) :=
  bind (check (assertSnapshotDocId docId)) (fun _ =>
  match descriptors !! firstDescriptorEndingAtOrAfter descriptors docId with
  | None => Ret None
  | Some d =>
    if 0 <? compareDocIds (first_id d) docId then Ret None
    else bind (loadChunk d) (fun docs => Ret (findDocument docs docId))
  end).

(** The scan from a descriptor on. *)
Fixpoint scan_from (gte lt : option jsstr) (ds : list SnapshotChunkDescriptor) : prog (list (jsstr * jsval)) :=
  match ds with
  | [] => Ret []
  | d :: ds =>
    if match lt with Some l => 0 <=? compareDocIds (first_id d) l | None => false end then Ret []
    else bind (loadChunk d) (fun docs =>
         bind (scan_from gte lt ds) (fun rest =>
         Ret (scan_rows gte lt docs ++ rest)))
  end.

Definition check_bound (o : option jsstr) : prog unit :=
  match o with Some id => check (assertSnapshotDocId id) | None => Ret tt end.

Definition view_scan (gte lt : option jsstr) : prog (list (jsstr * jsval)) :=
  bind (check_bound gte) (fun _ =>
  bind (check_bound lt) (fun _ =>
  if match gte, lt with Some g, Some l => 0 <=? compareDocIds g l | _, _ => false end then Ret []
  else
    let index := match gte with None => 0%nat | Some g => firstDescriptorEndingAtOrAfter descriptors g end in
    scan_from gte lt (drop index descriptors))).

Definition materialize : prog jsmap :=
  bind (view_scan None None) (fun rows =>
  Ret (foldl (fun documents row => map_set (JStr row.1) row.2 documents) [] rows)).
End view.

(** ** Binary search on a list *)

Lemma search_partition {A} (lt : A -> A -> bool) (p : A -> bool) l : sorted_by lt l ->
  (forall x y, x ∈ l -> y ∈ l -> lt x y = true -> p y = true -> p x = true) ->
  let r := search (fun i => match l !! i with Some x => p x | None => false end) (length l) 0 (length l) in
  Forall (fun x => p x = true) (take r l) /\ Forall (fun x => p x = false) (drop r l).
Proof.
  intros Hs Hp. set (below := fun i => match l !! i with Some x => p x | None => false end).
  destruct (search_spec below (length l)) with (fuel := length l) (low := 0%nat) (high := length l) as (Hr & Ht & Hf); try lia.
  { intros i j Hij. unfold below. destruct (l !! j) as [y|] eqn:Ej; [|done].
    destruct (lookup_lt_is_Some_2 l i) as [x Ex]; [lia|]. rewrite Ex. destruct (decide (i = j)) as [->|Hne]; [congruence|].
    intros Hy. revert Hy. apply Hp; [by eapply list_elem_of_lookup_2..|].
    eapply (sorted_by_lookup lt l i j); [done|lia|done|done]. }
  split.
  - apply Forall_lookup_2. intros i x Hi. apply lookup_take_Some in Hi as [Hi Hlt]. specialize (Ht i Hlt). unfold below in Ht. by rewrite Hi in Ht.
  - apply Forall_lookup_2. intros i x Hi. rewrite lookup_drop in Hi. pose proof (lookup_lt_Some _ _ _ Hi).
    specialize (Hf (search below (length l) 0 (length l) + i)%nat ltac:(lia)).
    change (match l !! (search below (length l) 0 (length l) + i)%nat with Some x => p x | None => false end = false) in Hf. by rewrite Hi in Hf.
Qed.

(** ** The order, as booleans *)

Definition id_le (a b : jsstr) : Prop := id_before b a = false.

Lemma compare_zero a b : id_ok a -> id_ok b -> (compareDocIds a b =? 0) = bool_decide (a = b).
Proof.
  intros Ha Hb. destruct (compare_cases a b Ha Hb) as [[-> H]|[[-> ->]|[-> H]]]; cbn.
  - rewrite bool_decide_eq_false_2; [done|]. intros ->. by rewrite str_ltb_irrefl in H.
  - by rewrite bool_decide_eq_true_2.
  - rewrite bool_decide_eq_false_2; [done|]. intros ->. by rewrite str_ltb_irrefl in H.
Qed.

Lemma compare_nonneg a b : (0 <=? compareDocIds a b) = negb (id_before a b).
Proof. unfold id_before. rewrite Z.leb_antisym. done. Qed.

Lemma compare_pos a b : id_ok a -> id_ok b -> (0 <? compareDocIds a b) = id_before b a.
Proof.
  intros Ha Hb. rewrite id_before_utf8 by done. destruct (compare_cases a b Ha Hb) as [[-> H]|[[-> ->]|[-> ->]]]; cbn; [|by rewrite str_ltb_irrefl|done].
  by rewrite (str_ltb_asym _ _ H).
Qed.

Lemma id_before_ne a b : id_ok a -> id_before a b = true -> a <> b.
Proof. intros Ha H ->. by rewrite id_before_irrefl in H. Qed.

Lemma id_le_lt a b c : id_ok a -> id_ok b -> id_ok c -> id_le a b -> id_before b c = true -> id_before a c = true.
Proof.
  unfold id_le. intros Ha Hb Hc Hab Hbc. destruct (id_before_total a b Ha Hb) as [H|[->|H]]; [|done|congruence].
  by eapply (id_before_trans a b c).
Qed.

Lemma id_lt_le a b c : id_ok a -> id_ok b -> id_ok c -> id_before a b = true -> id_le b c -> id_before a c = true.
Proof.
  unfold id_le. intros Ha Hb Hc Hab Hbc. destruct (id_before_total b c Hb Hc) as [H|[<-|H]]; [|done|congruence].
  by eapply (id_before_trans a b c).
Qed.

Lemma id_le_refl a : id_ok a -> id_le a a.
Proof. apply id_before_irrefl. Qed.

Lemma id_le_trans a b c : id_ok a -> id_ok b -> id_ok c -> id_le a b -> id_le b c -> id_le a c.
Proof.
  intros Ha Hb Hc Hab Hbc. unfold id_le in *. destruct (id_before c a) eqn:E; [|done].
  rewrite (id_lt_le c a b) in Hbc by done. done.
Qed.

Lemma id_lt_to_le a b : id_ok a -> id_ok b -> id_before a b = true -> id_le a b.
Proof. intros Ha Hb H. by apply id_before_asym. Qed.

(** ** Sorted rows *)

Definition row_before (x y : jsval) : bool := id_before (doc_id x) (doc_id y).

(** Rows with admissible ids, strictly increasing. *)
Definition rows_sorted (rows : list jsval) : Prop :=
  Forall (fun d => id_ok (doc_id d)) rows /\ sorted_by row_before rows.

(** The row with an id. *)
Definition find_row (id : jsstr) (rows : list jsval) : option jsval :=
  List.find (fun d => bool_decide (doc_id d = id)) rows.

Lemma find_row_app id l1 l2 : find_row id (l1 ++ l2) =
  match find_row id l1 with Some d => Some d | None => find_row id l2 end.
Proof. induction l1 as [|d l1 IH]; cbn; [done|]. by case_bool_decide. Qed.

Lemma find_row_none id rows : Forall (fun d => doc_id d <> id) rows -> find_row id rows = None.
Proof. induction 1 as [|d rows Hd _ IH]; cbn; [done|]. by rewrite bool_decide_eq_false_2. Qed.

Lemma find_row_below id rows : Forall (fun d => id_ok (doc_id d)) rows ->
  Forall (fun d => id_before (doc_id d) id = true) rows -> find_row id rows = None.
Proof.
  intros Ho H. apply find_row_none. apply Forall_forall. intros d Hd. rewrite Forall_forall in Ho, H.
  apply id_before_ne; auto.
Qed.

Lemma find_row_above id rows : id_ok id -> Forall (fun d => id_before id (doc_id d) = true) rows -> find_row id rows = None.
Proof.
  intros Ho H. apply find_row_none. eapply Forall_impl; [exact H|]. intros d Hd E. by apply (id_before_ne id (doc_id d)).
Qed.

Lemma rows_sorted_cons d rows : rows_sorted (d :: rows) <->
  id_ok (doc_id d) /\ Forall (fun y => id_before (doc_id d) (doc_id y) = true) rows /\ rows_sorted rows.
Proof. unfold rows_sorted. rewrite sorted_by_cons, Forall_cons. unfold row_before. tauto. Qed.

Lemma rows_sorted_app l1 l2 : rows_sorted (l1 ++ l2) <->
  rows_sorted l1 /\ rows_sorted l2 /\ forall x y, x ∈ l1 -> y ∈ l2 -> id_before (doc_id x) (doc_id y) = true.
Proof. unfold rows_sorted. rewrite sorted_by_app, Forall_app. unfold row_before. tauto. Qed.

(** Rows after one that is not below [id] are above it. *)
Lemma rows_above id a rows : id_ok id -> id_ok a -> Forall (fun d => id_ok (doc_id d)) rows -> id_le id a ->
  Forall (fun y => id_before a (doc_id y) = true) rows -> Forall (fun y => id_before id (doc_id y) = true) rows.
Proof.
  intros Hid Ha Ho Hle H. apply Forall_forall. intros y Hy. rewrite Forall_forall in Ho, H.
  apply (id_le_lt id a); auto.
Qed.

Lemma findDocument_spec docs id : rows_sorted docs -> id_ok id -> findDocument docs id = find_row id docs.
Proof.
  intros [Ho Hs] Hid. unfold findDocument.
  destruct (search_partition row_before (fun d => id_before (doc_id d) id) docs Hs) as [Hb Ha].
  { intros x y Hx Hy Hxy Hy'. rewrite Forall_forall in Ho. apply (id_before_trans _ (doc_id y)); auto. }
  unfold id_before in Hb at 1, Ha at 1. set (low := search _ _ _ _) in *.
  rewrite <- (take_drop low docs) in Ho, Hs at 1. rewrite <- (take_drop low docs) at 2.
  apply Forall_app in Ho as [Ho1 Ho2]. apply sorted_by_app in Hs as (_ & _ & Hs2).
  rewrite find_row_app, find_row_below by done. rewrite <- (Nat.add_0_r low) at 1. rewrite <- lookup_drop.
  destruct (drop low docs) as [|d rest]; [done|]. cbn [lookup list_lookup find_row List.find].
  apply Forall_cons in Ho2 as [Hod Ho2]. apply Forall_cons in Ha as [Had _]. apply sorted_by_cons in Hs2 as [Hs2 _].
  rewrite compare_zero by done. case_bool_decide as E; [done|]. symmetry. apply find_row_above; [done|].
  by apply (rows_above id (doc_id d)).
Qed.

(** *** Ranges *)

Definition in_range (gte lt : option jsstr) (d : jsval) : bool :=
  match gte with Some g => negb (id_before (doc_id d) g) | None => true end &&
  match lt with Some l => id_before (doc_id d) l | None => true end.

(** The rows of a range, as a scan yields them. *)
Definition range_rows (gte lt : option jsstr) (rows : list jsval) : list (jsstr * jsval) :=
  (fun d => (doc_id d, d)) <$> List.filter (in_range gte lt) rows.

Lemma range_rows_app gte lt l1 l2 : range_rows gte lt (l1 ++ l2) = range_rows gte lt l1 ++ range_rows gte lt l2.
Proof. unfold range_rows. by rewrite List.filter_app, fmap_app. Qed.

Lemma range_rows_none gte lt rows : Forall (fun d => in_range gte lt d = false) rows -> range_rows gte lt rows = [].
Proof. induction 1 as [|d rows Hd _ IH]; [done|]. unfold range_rows in *. cbn [List.filter]. by rewrite Hd. Qed.

Lemma range_rows_all rows : range_rows None None rows = (fun d => (doc_id d, d)) <$> rows.
Proof. induction rows as [|d rows IH]; [done|]. unfold range_rows in *. cbn [List.filter in_range andb]. by rewrite !fmap_cons, IH. Qed.

Lemma range_above_lt gte l a rows : id_ok l -> id_ok a -> Forall (fun d => id_ok (doc_id d)) rows -> id_le l a ->
  Forall (fun y => id_le a (doc_id y)) rows -> range_rows gte (Some l) rows = [].
Proof.
  intros Hl Ha Ho Hle H. apply range_rows_none, Forall_forall. intros y Hy. rewrite Forall_forall in Ho, H. unfold in_range.
  assert (id_le l (doc_id y)) as E by (apply (id_le_trans l a); auto). unfold id_le in E. by rewrite E, andb_false_r.
Qed.

Lemma scan_rows_spec gte lt docs : rows_sorted docs -> (forall l, lt = Some l -> id_ok l) ->
  scan_rows gte lt docs = range_rows gte lt docs.
Proof.
  intros Hs Hl. induction docs as [|d docs IH]; [done|]. apply rows_sorted_cons in Hs as (Hd & Hlt & Hs). cbn [scan_rows].
  unfold range_rows. cbn [List.filter]. unfold in_range at 1.
  assert (Hg : (match gte with Some g => compareDocIds (doc_id d) g <? 0 | None => false end) =
               negb (match gte with Some g => negb (id_before (doc_id d) g) | None => true end)).
  { destruct gte; [by rewrite negb_involutive|done]. }
  rewrite Hg. destruct (match gte with Some g => negb (id_before (doc_id d) g) | None => true end); cbn [negb andb]; [|by apply IH].
  destruct lt as [l|]; [|by rewrite fmap_cons, IH]. rewrite compare_nonneg.
  destruct (id_before (doc_id d) l) eqn:E; cbn [negb]; [by rewrite fmap_cons, IH|].
  symmetry. apply (range_above_lt gte l (doc_id d) docs); auto; [by apply Hs|].
  apply Forall_forall. intros y Hy. destruct Hs as [Ho _]. rewrite Forall_forall in Ho, Hlt. apply id_lt_to_le; auto.
Qed.

(** ** Descriptors and their chunks *)

(** The chunk a descriptor stands for: canonical, with the descriptor's bounds, its ids JS
    strings. *)
Definition described (d : SnapshotChunkDescriptor) (c : SnapshotChunk) : Prop :=
  chunk_wf c /\ chunk_first_id c = first_id d /\ chunk_last_id c = last_id d /\
  Forall (fun row => units_ok (doc_id row)) (chunk_docs c).

Lemma own_ids docs ids : mapM own_id docs = Some ids ->
  ids = doc_id <$> docs /\ Forall (fun d => assertSnapshotDocId (doc_id d) = None) docs.
Proof.
  rewrite mapM_Some. induction 1 as [|d id docs ids Hd _ [-> IH]]; [done|]. rewrite fmap_cons.
  unfold own_id in Hd. destruct d as [| | | | | |o|]; try done. destruct (own_get (js "_id") o) as [v|] eqn:E; [|done].
  cbn [mbind option_bind] in Hd. apply as_doc_id_Some in Hd as [-> Hid]. cbn [doc_id]. rewrite E. split; [done|].
  constructor; [by cbn [doc_id]; rewrite E|done].
Qed.

Lemma described_rows d c : described d c ->
  rows_sorted (chunk_docs c) /\ id_ok (first_id d) /\ id_ok (last_id d) /\ id_le (first_id d) (last_id d) /\
  Forall (fun row => id_le (first_id d) (doc_id row) /\ id_le (doc_id row) (last_id d)) (chunk_docs c).
Proof.
  intros (Hwf & Hf & Hl & Hu). destruct Hwf as [_ _ _ (ids & Hids & Hinc & Hhd & Hlst)]. apply own_ids in Hids as [-> Hids]. rewrite <- Hf, <- Hl.
  set (a := chunk_first_id c) in *. set (b := chunk_last_id c) in *. clearbody a b. clear Hf Hl.
  assert (Hok : Forall (fun row => id_ok (doc_id row)) (chunk_docs c)) by (apply Forall_and; by split).
  apply increasing_sorted in Hinc; [|by apply Forall_fmap]. apply (sorted_by_of_fmap doc_id) in Hinc.
  assert (Hs : rows_sorted (chunk_docs c)) by exact (conj Hok Hinc).
  destruct (chunk_docs c) as [|r rows] eqn:Er; [discriminate Hhd|]. rewrite fmap_cons in Hhd. injection Hhd as <-.
  apply rows_sorted_cons in Hs as (Hr & Hlt & Hs). rewrite Forall_forall in Hlt.
  assert (Hfst : Forall (fun row => id_le (doc_id r) (doc_id row)) (r :: rows)).
  { apply Forall_forall. intros y [->|Hy]%elem_of_cons; [by apply id_le_refl|]. rewrite Forall_forall in Hok.
    apply id_lt_to_le; [done| |by apply Hlt]. apply Hok. by right. }
  rewrite fmap_last in Hlst. apply fmap_Some in Hlst as (z & Hz & ->). apply last_Some in Hz as (l & Hz).
  rewrite Hz in Hok, Hinc, Hfst |- *. pose proof Hok as Hall. apply Forall_app in Hok as [Ho1 Ho2]. apply Forall_cons in Ho2 as [Hoz _].
  split_and!; [exact (conj Hall Hinc)|done|done| |].
  - apply Forall_app in Hfst as [_ Hf]. by apply Forall_cons in Hf as [? _].
  - apply Forall_and. split; [done|]. apply sorted_by_app in Hinc as (Hb & _ & _). apply Forall_app. split.
    + apply Forall_forall. intros y Hy. rewrite Forall_forall in Ho1. apply id_lt_to_le; [by apply Ho1|done|].
      apply (Hb y z); [done|by left].
    + repeat constructor. by apply id_le_refl.
Qed.

Definition chunk_rows (cs : list SnapshotChunk) : list jsval := mjoin (chunk_docs <$> cs).

(** Ranges in order. *)
Definition desc_before (d d' : SnapshotChunkDescriptor) : bool := id_before (last_id d) (first_id d').

(** A snapshot: descriptors with their chunks, the ranges in order. *)
Definition snapshot_of (ds : list SnapshotChunkDescriptor) (cs : list SnapshotChunk) : Prop :=
  Forall2 described ds cs /\ sorted_by desc_before ds.

Lemma ranges_sorted ds cs : Forall2 described ds cs -> ranges_increase ds = true -> snapshot_of ds cs.
Proof.
  intros Hs Hr. split; [done|]. induction Hs as [|d c ds cs Hd Hs IH]; [constructor|].
  destruct Hs as [|d' c' ds cs Hd' Hs]; [repeat constructor|].
  change (negb ((0 <=? compareDocIds (first_id d) (first_id d')) || (0 <=? compareDocIds (last_id d) (first_id d'))) &&
    ranges_increase (d' :: ds) = true) in Hr. apply andb_true_iff in Hr as [Hlt Hr]. rewrite !compare_nonneg in Hlt.
  apply negb_true_iff, orb_false_iff in Hlt as [_ Hlt%negb_false_iff]. specialize (IH Hr).
  apply sorted_by_cons in IH as [Hall IH]. apply sorted_by_cons. split; [|by apply sorted_by_cons].
  constructor; [done|]. apply Forall_forall. intros x Hx. rewrite Forall_forall in Hall. specialize (Hall x Hx).
  destruct (described_rows _ _ Hd) as (_ & _ & Hok & _). destruct (described_rows _ _ Hd') as (_ & Hok1 & Hok2 & Hle & _).
  apply list_elem_of_lookup in Hx as (i & Hi). destruct (Forall2_lookup_l _ _ _ _ _ Hs Hi) as (cx & _ & Hcx).
  destruct (described_rows _ _ Hcx) as (_ & Hok3 & _ & _). unfold desc_before in *.
  apply (id_before_trans _ (first_id d')); [done..|]. by apply (id_le_lt _ (last_id d')).
Qed.

Lemma snapshot_cons d ds c cs : snapshot_of (d :: ds) (c :: cs) <->
  described d c /\ snapshot_of ds cs /\ Forall (fun d' => desc_before d d' = true) ds.
Proof. unfold snapshot_of. rewrite Forall2_cons, sorted_by_cons. tauto. Qed.

Lemma snapshot_app ds1 ds2 cs : snapshot_of (ds1 ++ ds2) cs -> exists cs1 cs2, cs = cs1 ++ cs2 /\
  snapshot_of ds1 cs1 /\ snapshot_of ds2 cs2.
Proof.
  intros [Hs (_ & H1 & H2)%sorted_by_app]. apply Forall2_app_inv_l in Hs as (cs1 & cs2 & Hs1 & Hs2 & ->).
  by exists cs1, cs2.
Qed.

(** The rows of the chunks that follow a descriptor. *)
Lemma snapshot_after ds cs : forall a, id_ok a -> snapshot_of ds cs -> Forall (fun d => id_before a (first_id d) = true) ds ->
  Forall (fun row => id_before a (doc_id row) = true) (chunk_rows cs).
Proof.
  intros a Ha [Hs _] Hf. induction Hs as [|d c ds cs Hd Hs IH]; [constructor|].
  apply Forall_cons in Hf as [Hd' Hf]. unfold chunk_rows. rewrite fmap_cons, mjoin_cons. apply Forall_app. split; [|by apply IH].
  destruct (described_rows _ _ Hd) as ([Ho _] & Hof & _ & _ & Hr). apply Forall_forall. intros x Hx. rewrite Forall_forall in Ho, Hr.
  destruct (Hr x Hx) as [? _]. apply (id_lt_le a (first_id d)); auto.
Qed.

Lemma snapshot_rows_sorted ds cs : snapshot_of ds cs -> rows_sorted (chunk_rows cs).
Proof.
  revert cs. induction ds as [|d ds IH]; intros [|c cs] Hs; [by repeat constructor|by destruct Hs as [Hs _]; inversion Hs..|].
  apply snapshot_cons in Hs as (Hd & Hs & Hb). unfold chunk_rows. rewrite fmap_cons, mjoin_cons.
  destruct (described_rows _ _ Hd) as (Hrs & Hof & Hol & _ & Hr). pose proof (IH _ Hs) as Hrest. apply rows_sorted_app.
  split_and!; [done|done|]. intros x y Hx Hy.
  pose proof (snapshot_after ds cs (last_id d) Hol Hs Hb) as Ha. destruct Hrs as [Ho _]. destruct Hrest as [Ho' _].
  rewrite Forall_forall in Hr, Ha, Ho, Ho'. destruct (Hr x Hx) as [_ Hle]. apply (id_le_lt _ (last_id d)); auto.
Qed.

Lemma described_ids d c : described d c -> chunk_docs c <> [] /\
  (exists x, x ∈ chunk_docs c /\ doc_id x = first_id d) /\ (exists x, x ∈ chunk_docs c /\ doc_id x = last_id d).
Proof.
  intros ([_ _ _ (ids & Hids & _ & Hhd & Hlst)] & Hf & Hl & _). apply own_ids in Hids as [-> _].
  rewrite head_lookup, list_lookup_fmap in Hhd. apply fmap_Some in Hhd as (x & Hx & Ex).
  rewrite fmap_last in Hlst. apply fmap_Some in Hlst as (y & Hy & Ey). split_and!.
  - by intros E; rewrite E in Hx.
  - exists x. split; [by eapply list_elem_of_lookup_2|congruence].
  - exists y. split; [by apply last_Some_elem_of|congruence].
Qed.

(** Sorted rows make sorted ranges. *)
Lemma snapshot_of_rows ds cs : Forall2 described ds cs -> rows_sorted (chunk_rows cs) -> snapshot_of ds cs.
Proof.
  intros Hd Hs. split; [done|]. induction Hd as [|d c ds cs Hdc Hd IH]; [constructor|].
  unfold chunk_rows in *. rewrite fmap_cons, mjoin_cons in Hs. apply rows_sorted_app in Hs as (_ & Hs & Hb).
  apply sorted_by_cons. split; [|by apply IH]. apply Forall_forall. intros d' Hin. apply list_elem_of_lookup in Hin as (i & Hi).
  destruct (Forall2_lookup_l _ _ _ _ _ Hd Hi) as (c' & Hc' & Hdc'). unfold desc_before.
  destruct (described_ids _ _ Hdc) as (_ & _ & x & Hx & <-). destruct (described_ids _ _ Hdc') as (_ & (y & Hy & <-) & _).
  apply Hb; [done|]. apply list_elem_of_join. exists (chunk_docs c'). split; [done|]. apply list_elem_of_fmap. exists c'.
  split; [done|]. by eapply list_elem_of_lookup_2.
Qed.

(** The descriptors a search splits: those that end below [id], and the rest. *)
Lemma search_descriptors ds cs id : snapshot_of ds cs -> id_ok id ->
  exists ds1 ds2 cs1 cs2, ds = ds1 ++ ds2 /\ cs = cs1 ++ cs2 /\ length ds1 = Nat.min (firstDescriptorEndingAtOrAfter ds id) (length ds) /\
    snapshot_of ds1 cs1 /\ snapshot_of ds2 cs2 /\
    Forall (fun row => id_before (doc_id row) id = true) (chunk_rows cs1) /\
    Forall (fun d => id_before (last_id d) id = true) ds1 /\
    Forall (fun d => id_le id (last_id d)) ds2 /\
    drop (firstDescriptorEndingAtOrAfter ds id) ds = ds2.
Proof.
  intros Hs Hid.
  assert (Hok : Forall (fun d => id_ok (first_id d) /\ id_ok (last_id d) /\ id_le (first_id d) (last_id d)) ds).
  { destruct Hs as [Hs _]. eapply Forall2_Forall_l; [exact Hs|]. apply Forall_true. intros c d Hd.
    destruct (described_rows _ _ Hd) as (_ & ? & ? & ? & _). done. }
  destruct (search_partition desc_before (fun d => compareDocIds (last_id d) id <? 0) ds (proj2 Hs)) as [Hb Ha].
  { intros x y Hx Hy Hxy Hy'. rewrite Forall_forall in Hok. destruct (Hok x Hx) as (? & ? & ?). destruct (Hok y Hy) as (? & ? & ?).
    unfold desc_before in Hxy. apply (id_before_trans _ (first_id y)); [done..|]. by apply (id_le_lt _ (last_id y)). }
  change (search _ _ _ _) with (firstDescriptorEndingAtOrAfter ds id) in Hb, Ha. set (r := firstDescriptorEndingAtOrAfter ds id) in *.
  rewrite <- (take_drop r ds) in Hs. apply snapshot_app in Hs as (cs1 & cs2 & -> & H1 & H2).
  exists (take r ds), (drop r ds), cs1, cs2. split_and!; try done.
  - by rewrite take_drop.
  - by rewrite length_take.
  - rewrite <- (take_drop r ds) in Hok. apply Forall_app in Hok as [Hok _]. clear -H1 Hb Hok Hid. destruct H1 as [H1 _].
    induction H1 as [|d c l cs Hd _ IH]; [constructor|]. apply Forall_cons in Hb as [Hb1 Hb]. apply Forall_cons in Hok as [Hok1 Hok].
    unfold chunk_rows. rewrite fmap_cons, mjoin_cons. apply Forall_app. split; [|by apply IH].
    destruct (described_rows _ _ Hd) as ([Ho _] & _ & Hol & _ & Hr). apply Forall_forall. intros x Hx. rewrite Forall_forall in Ho, Hr.
    destruct (Hr x Hx) as [_ Hle]. apply (id_le_lt _ (last_id d)); auto.
Qed.

(** ** The operations *)

Section stored.
Context (byteLength : bytes -> Z) (sha256 : bytes -> list N) (collection : jsstr) (m : MemoryStorage).

(** The object a descriptor names decodes, and its ids are JS strings. *)
Definition stored_chunk (d : SnapshotChunkDescriptor) (c : SnapshotChunk) : Prop :=
  (exists o, memory_get (descriptor_key d) None m = inr (Some o) /\
     decodeSnapshotChunk byteLength sha256 (body o) (descriptor_key d) collection d = inr c) /\
  Forall (fun row => units_ok (doc_id row)) (chunk_docs c).

Lemma stored_described d c : stored_chunk d c -> described d c.
Proof.
  intros [(o & _ & Hd) Hu]. apply decode_chunk_inv in Hd as (Hwf & _ & _ & _ & _ & _ & _ & Hf & Hl & _). done.
Qed.

Lemma run_loadChunk now d c : stored_chunk d c ->
  run now (loadChunk byteLength sha256 collection d) m = (inr (chunk_docs c), m).
Proof.
  intros [(o & Hg & Hd) _]. unfold loadChunk. rewrite run_bind. unfold storage_get. cbn [run]. rewrite Hg. cbn [of_result run].
  by rewrite run_bind, run_of_result, Hd.
Qed.

Lemma run_view_get now ds cs id : snapshot_of ds cs -> Forall2 stored_chunk ds cs -> id_ok id ->
  run now (view_get byteLength sha256 collection ds id) m = (inr (find_row id (chunk_rows cs)), m).
Proof.
  intros Hs Hst Hid. unfold view_get. rewrite run_bind, run_check. destruct Hid as [Hu Hn]. rewrite Hn.
  assert (Hid : id_ok id) by done.
  destruct (search_descriptors ds cs id Hs Hid) as (ds1 & ds2 & cs1 & cs2 & Eds & -> & _ & H1 & H2 & Hb & _ & Ha & Hd).
  rewrite Eds in Hst. apply Forall2_app_inv in Hst as [_ Hst]; [|by eapply Forall2_length, (proj1 H1)].
  set (r := firstDescriptorEndingAtOrAfter ds id) in *. rewrite <- (Nat.add_0_r r), <- lookup_drop, Hd.
  unfold chunk_rows in *. rewrite fmap_app, join_app, find_row_app.
  rewrite (find_row_below id (mjoin (chunk_docs <$> cs1))) by (done || apply (snapshot_rows_sorted ds1 cs1 H1)).
  destruct ds2 as [|d ds2]; [by destruct H2 as [H2 _]; inversion H2|].
  destruct cs2 as [|c cs2]; [by destruct H2 as [H2 _]; inversion H2|]. cbn [lookup list_lookup].
  apply snapshot_cons in H2 as (Hc & H2 & Hbef). apply Forall2_cons in Hst as [Hst _]. apply Forall_cons in Ha as [Hle _]. rewrite fmap_cons, mjoin_cons, find_row_app.
  destruct (described_rows _ _ Hc) as (Hrs & Hof & Hol & _ & Hr). rewrite compare_pos by done.
  assert (Hrest : find_row id (mjoin (chunk_docs <$> cs2)) = None).
  { apply find_row_above; [done|]. apply (rows_above id (last_id d)); [done..|apply (snapshot_rows_sorted ds2 cs2 H2)|done|].
    by apply (snapshot_after ds2 cs2). }
  rewrite Hrest. destruct (id_before id (first_id d)) eqn:E.
  - rewrite find_row_above; [done|done|]. destruct Hrs as [Ho _]. apply Forall_forall. intros x Hx. rewrite Forall_forall in Ho, Hr.
    destruct (Hr x Hx) as [? _]. apply (id_lt_le id (first_id d)); auto.
  - rewrite run_bind, (run_loadChunk now d c) by done. cbn [run]. rewrite findDocument_spec by done. by destruct (find_row id (chunk_docs c)).
Qed.

Lemma run_scan_from now gte lt ds cs : snapshot_of ds cs -> Forall2 stored_chunk ds cs -> (forall l, lt = Some l -> id_ok l) ->
  run now (scan_from byteLength sha256 collection gte lt ds) m = (inr (range_rows gte lt (chunk_rows cs)), m).
Proof.
  intros Hs Hst Hl. revert cs Hs Hst. induction ds as [|d ds IH]; intros [|c cs] Hs Hst; [done|by inversion Hst..|].
  apply Forall2_cons in Hst as [Hst1 Hst].
  pose proof (snapshot_rows_sorted _ _ Hs) as Hrows. apply snapshot_cons in Hs as (Hc & Hs & Hb). cbn [scan_from].
  destruct (described_rows _ _ Hc) as (Hrs & Hof & Hol & Hle & Hr).
  assert (Hrest : run now (bind (loadChunk byteLength sha256 collection d) (fun docs =>
    bind (scan_from byteLength sha256 collection gte lt ds) (fun rest => Ret (scan_rows gte lt docs ++ rest)))) m =
    (inr (range_rows gte lt (chunk_rows (c :: cs))), m)).
  { rewrite run_bind, (run_loadChunk now d c), run_bind, (IH cs) by done. cbn [run]. unfold chunk_rows.
    rewrite fmap_cons, mjoin_cons, range_rows_app. by rewrite scan_rows_spec. }
  destruct lt as [l|]; [|done]. rewrite compare_nonneg. destruct (id_before (first_id d) l) eqn:E; [done|]. cbn [negb run].
  specialize (Hl l eq_refl). f_equal. f_equal. symmetry. apply (range_above_lt gte l (first_id d)); [done|done|apply Hrows|done|].
  unfold chunk_rows in *. rewrite fmap_cons, mjoin_cons in *. apply Forall_app. split.
  - eapply Forall_impl; [exact Hr|]. by intros ? [? _].
  - pose proof (snapshot_after ds cs (last_id d) Hol Hs Hb) as Ha. destruct Hrows as [Ho _]. apply Forall_app in Ho as [_ Ho].
    unfold chunk_rows in Ha. apply Forall_forall. intros x Hx. rewrite Forall_forall in Ha, Ho.
    apply id_lt_to_le; auto. apply (id_le_lt _ (last_id d)); auto.
Qed.

Lemma run_view_scan now gte lt ds cs : snapshot_of ds cs -> Forall2 stored_chunk ds cs ->
  (forall g, gte = Some g -> id_ok g) -> (forall l, lt = Some l -> id_ok l) ->
  run now (view_scan byteLength sha256 collection ds gte lt) m = (inr (range_rows gte lt (chunk_rows cs)), m).
Proof.
  intros Hs Hst Hg Hl. unfold view_scan, check_bound.
  assert (Hcheck : forall o, (forall x, o = Some x -> id_ok x) ->
    run now (match o with Some id => check (assertSnapshotDocId id) | None => Ret tt end) m = (inr tt, m)).
  { intros [x|] Hx; [|done]. rewrite run_check. by destruct (Hx x eq_refl) as [_ ->]. }
  rewrite run_bind, Hcheck by done. rewrite run_bind, Hcheck by done.
  destruct gte as [g|]; [|rewrite drop_0; by apply run_scan_from]. specialize (Hg g eq_refl).
  assert (Hfrom : run now (scan_from byteLength sha256 collection (Some g) lt (drop (firstDescriptorEndingAtOrAfter ds g) ds)) m =
    (inr (range_rows (Some g) lt (chunk_rows cs)), m)).
  { destruct (search_descriptors ds cs g Hs Hg) as (ds1 & ds2 & cs1 & cs2 & Eds & -> & _ & H1 & H2 & Hb & _ & _ & ->).
    rewrite Eds in Hst. apply Forall2_app_inv in Hst as [_ Hst]; [|by eapply Forall2_length, (proj1 H1)].
    rewrite (run_scan_from _ _ _ _ cs2) by done. unfold chunk_rows in *. rewrite fmap_app, join_app, range_rows_app.
    rewrite (range_rows_none _ _ (mjoin (chunk_docs <$> cs1))); [done|]. eapply Forall_impl; [exact Hb|].
    intros x Hx. unfold in_range. by rewrite Hx. }
  destruct lt as [l|]; [|done]. specialize (Hl l eq_refl). rewrite compare_nonneg. destruct (id_before g l) eqn:E; [done|].
  cbn [negb run]. f_equal. f_equal. symmetry. apply range_rows_none. pose proof (snapshot_rows_sorted _ _ Hs) as [Ho _].
  eapply Forall_impl; [exact Ho|]. intros x Hx. unfold in_range. destruct (id_before (doc_id x) g) eqn:Eg; [done|]. cbn [negb andb].
  destruct (id_before (doc_id x) l) eqn:El; [|done]. rewrite (id_le_lt g (doc_id x) l) in E; done.
Qed.
End stored.

Lemma materialize_rows rows : forall out : jsmap, NoDup (map_keys out ++ (JStr <$> (doc_id <$> rows))) ->
  foldl (fun documents row => map_set (JStr row.1) row.2 documents) out ((fun d => (doc_id d, d)) <$> rows) =
  out ++ ((fun d => (JStr (doc_id d), d)) <$> rows).
Proof.
  induction rows as [|d rows IH]; intros out Hn; [by rewrite app_nil_r|]. rewrite !fmap_cons in *. cbn [foldl fst snd].
  rewrite map_set_new.
  - rewrite IH; [by rewrite <- app_assoc|]. unfold map_keys in *. rewrite fmap_app. cbn [fmap list_fmap fst].
    by rewrite <- app_assoc.
  - apply NoDup_app in Hn as (_ & Hd & _). intros Hin. apply (Hd _ Hin). by left.
Qed.

Lemma rows_sorted_nodup rows : rows_sorted rows -> NoDup (doc_id <$> rows).
Proof.
  induction rows as [|d rows IH]; intros Hs; [constructor|]. apply rows_sorted_cons in Hs as (Hd & Hb & Hs).
  rewrite fmap_cons. constructor; [|by apply IH]. intros (y & E & Hy)%list_elem_of_fmap. rewrite Forall_forall in Hb.
  specialize (Hb y Hy). by apply (id_before_ne (doc_id d) (doc_id y)) in Hb.
Qed.

Lemma open_descriptors byteLength sha256 now mk coll start ds m :
  run now (openSnapshotView byteLength sha256 mk coll start) m = (inr ds, m) -> ranges_increase ds = true.
Proof.
  unfold openSnapshotView. destruct mk as [key|]; [|by intros [= <-]]. rewrite run_bind. unfold storage_get. cbn [run].
  destruct (memory_get key None m) as [e|[o|]]; cbn [of_result run]; [done| |done]. rewrite run_bind, run_of_result.
  destruct (decodeSnapshotManifest _ _ _ _ _ _) as [e|mf] eqn:E; [done|]. cbn [run]. intros [= <-].
  by apply decode_manifest_inv in E as (_ & _ & p & [_ _ _ _ _ ?]).
Qed.

(** ** Theorems *)

(** Reading through the chunks is reading the rows: on a view that opened, with its
    chunks stored, the rows of the chunks, concatenated, have strictly increasing ids; the
    point read answers the row with the id or nothing (loading one chunk at most by binary
    search), the scan answers exactly the rows of its half-open range in order, whichever
    bounds are given, and the materialised map holds every row in order. *)
Theorem view_reads_rows byteLength sha256 coll mk start now m ds cs :
  run now (openSnapshotView byteLength sha256 mk coll start) m = (inr ds, m) ->
  Forall2 (stored_chunk byteLength sha256 coll m) ds cs ->
  rows_sorted (chunk_rows cs) /\
  (forall id, id_ok id ->
     run now (view_get byteLength sha256 coll ds id) m = (inr (find_row id (chunk_rows cs)), m)) /\
  (forall gte lt, (forall g, gte = Some g -> id_ok g) -> (forall l, lt = Some l -> id_ok l) ->
     run now (view_scan byteLength sha256 coll ds gte lt) m = (inr (range_rows gte lt (chunk_rows cs)), m)) /\
  run now (materialize byteLength sha256 coll ds) m =
    (inr ((fun d => (JStr (doc_id d), d)) <$> chunk_rows cs), m).
Proof.
  intros Hopen Hs. assert (Hd : Forall2 described ds cs) by (eapply Forall2_impl; [exact Hs|]; apply stored_described).
  pose proof (ranges_sorted _ _ Hd (open_descriptors _ _ _ _ _ _ _ _ Hopen)) as Hst.
  pose proof (snapshot_rows_sorted _ _ Hst) as Hrows. split_and!; [done|..].
  - intros id Hid. by apply run_view_get.
  - intros gte lt Hg Hl. by apply run_view_scan.
  - unfold materialize. rewrite run_bind, (run_view_scan _ _ _ _ _ _ _ _ cs) by done. cbn [run]. rewrite range_rows_all.
    rewrite materialize_rows; [done|]. cbn [map_keys app]. apply NoDup_fmap; [by intros ?? [=]|]. by apply rows_sorted_nodup.
Qed.

(** Two chunks of two rows each. *)
Definition sample_descriptor (c : SnapshotChunk) : SnapshotChunkDescriptor :=
  Descriptor (chunk_first_id c) (chunk_last_id c)
    match snapshotChunkKey (js "a/t") (chunk_incarnation c) (snapshotHash sample_sha256 (JsonText (chunk_json c))) with
    | inr key => key | inl _ => []
    end 64 2.

Definition sample_chunks : list SnapshotChunk := [sample_chunk "1" "b" "d"; sample_chunk "2" "f" "h"].

Definition chunked_manifest : SnapshotManifest :=
  Manifest (js "t") 7 (mjoin (replicate 32 (js "3"))) (sample_descriptor <$> sample_chunks).

Definition chunked_manifest_key : jsstr :=
  match snapshotManifestKey (js "a/t") (manifest_incarnation chunked_manifest)
          (snapshotHash sample_sha256 (JsonText (manifest_json chunked_manifest))) with
  | inr key => key | inl _ => []
  end.

Definition chunked_store : MemoryStorage :=
  foldl (fun m c => (memory_store (descriptor_key (sample_descriptor c)) (JsonText (chunk_json c)) m).2)
    (memory_store chunked_manifest_key (JsonText (manifest_json chunked_manifest)) empty_memory).2 sample_chunks.

Lemma sample_stored : Forall2 (stored_chunk sample_length sample_sha256 (js "t") chunked_store)
  (chunks chunked_manifest) sample_chunks.
Proof.
  constructor; [|constructor; [|constructor]]; (split; [eexists; split; [vm_compute; reflexivity|vm_compute; reflexivity]|]).
  all: repeat constructor.
Qed.

Lemma sample_opens now : run now (openSnapshotView sample_length sample_sha256 (Some chunked_manifest_key) (js "t") 7) chunked_store =
  (inr (chunks chunked_manifest), chunked_store).
Proof.
  assert (Hg : memory_get chunked_manifest_key None chunked_store =
    inr (Some (GetResult (JsonText (manifest_json chunked_manifest)) (etag_of 1)))) by (vm_compute; reflexivity).
  assert (Hd : decodeSnapshotManifest sample_length sample_sha256 (JsonText (manifest_json chunked_manifest))
    chunked_manifest_key (js "t") 7 = inr chunked_manifest) by (vm_compute; reflexivity).
  unfold openSnapshotView. rewrite run_bind. unfold storage_get. cbn [run]. rewrite Hg. cbn [of_result run body].
  by rewrite run_bind, run_of_result, Hd.
Qed.

Lemma view_reads_rows_witness :
  run 0 (view_get sample_length sample_sha256 (js "t") (chunks chunked_manifest) (js "f")) chunked_store =
    (inr (Some (chunk_row "f")), chunked_store) /\
  run 0 (view_scan sample_length sample_sha256 (js "t") (chunks chunked_manifest) (Some (js "c")) (Some (js "h"))) chunked_store =
    (inr [(js "d", chunk_row "d"); (js "f", chunk_row "f")], chunked_store).
Proof.
  destruct (view_reads_rows sample_length sample_sha256 (js "t") (Some chunked_manifest_key) 7 0 chunked_store
    (chunks chunked_manifest) sample_chunks) as (_ & Hget & Hscan & _).
  - apply sample_opens.
  - exact sample_stored.
  - assert (Ef : find_row (js "f") (chunk_rows sample_chunks) = Some (chunk_row "f")) by (vm_compute; reflexivity).
    assert (Er : range_rows (Some (js "c")) (Some (js "h")) (chunk_rows sample_chunks) =
      [(js "d", chunk_row "d"); (js "f", chunk_row "f")]) by (vm_compute; reflexivity).
    split.
    + rewrite (Hget (js "f")) by (split; [repeat constructor|vm_compute; reflexivity]). by rewrite Ef.
    + rewrite (Hscan (Some (js "c")) (Some (js "h"))); [by rewrite Er|..].
      * intros g [= <-]. split; [repeat constructor|vm_compute; reflexivity].
      * intros g [= <-]. split; [repeat constructor|vm_compute; reflexivity].
Defined.
