(* ===== verification/ChunkReference.v ===== *)
(** * The reference fold of a chunked snapshot

    server/src/chunked-snapshot-reference.ts: the fold the chunk builder must agree with,
    a map of documents every mutation is applied to, sorted by id at the end.  The lemmas
    describe a fold by the lookups of its rows. *)
From S2P Require Import Prelude JsText JsValue Errors Json Storage Effects Lsn CurrentJson LogWalk Snapshot DocId Sort SnapshotCodec SnapshotView.
Local Open Scope Z_scope.

Inductive write_op := op_I | op_U.

Inductive ReferenceMutation :=
| MWrite (op : write_op) (doc_id : jsstr) (after : jsval)
| MDelete (doc_id : jsstr).

Definition mutation_id (mu : ReferenceMutation) : jsstr :=
  match mu with MWrite _ id _ => id | MDelete id => id end.

(** [Map.prototype.set] on a map with string keys: in place, or at the end. *)
Definition str_set {A} (k : jsstr) (v : A) (m : list (jsstr * A)) : list (jsstr * A) :=
  match own_get k m with Some _ => replace_own k v m | None => m ++ [(k, v)] end.

(** One mutation on the documents. *)
Definition apply_mutation (documents : list (jsstr * jsval)) (mu : ReferenceMutation) : list (jsstr * jsval) :=
  match mu with
  | MDelete id => own_delete id documents
  | MWrite _ id after => str_set id after documents
  end.

(** The stored values: strings, booleans, finite numbers, arrays and plain objects. *)
Fixpoint assertDocumentValue (v : jsval) : bool :=
  match v with
  | JStr _ | JBool _ => true
  | JNum n => is_finite n
  | JArr l => forallb assertDocumentValue l
  | JObj o => forallb (fun kv => assertDocumentValue kv.2) o
  | _ => false
  end.

Definition assertDocument (v : jsval) (id : jsstr) : bool :=
  match v with
  | JObj o => assertDocumentValue v && bool_decide (own_get (js "_id") o ≫= as_doc_id = Some id)
  | _ => false
  end.

Fixpoint reference_rows (rows documents : list (jsstr * jsval)) : option (list (jsstr * jsval)) :=
  match rows with
  | [] => Some documents
  | (id, body) :: rows =>
    _ ← as_doc_id (JStr id);
    _ ← guard_ok (assertDocument body id);
    _ ← guard_ok (bool_decide (own_get id documents = None));
    reference_rows rows (str_set id body documents)
  end.

Fixpoint reference_mutations (mutations : list ReferenceMutation) (documents : list (jsstr * jsval)) :
    option (list (jsstr * jsval)) :=
  match mutations with
  | [] => Some documents
  | mu :: mutations =>
    _ ← as_doc_id (JStr (mutation_id mu));
    _ ← guard_ok (match mu with MWrite _ id after => assertDocument after id | MDelete _ => true end);
    reference_mutations mutations (apply_mutation documents mu)
  end.

(** Rows and the result are pairs of an id and a body. *)
Definition foldChunkedSnapshotReference (rows : list (jsstr * jsval)) (mutations : list ReferenceMutation) :
    result (list (jsstr * jsval)) :=
  or_code InvalidResponse
    (documents ← reference_rows rows [];
     documents ← reference_mutations mutations documents;
     Some (sort_by (fun l r => compareDocIds l.1 r.1 <? 0) documents)).

(** ** Maps of documents *)

Section str_set.
Context {A : Type}.
Implicit Types (m : list (jsstr * A)).

Lemma own_get_str_set k k' v m : own_get k' (str_set k v m) = if decide (k = k') then Some v else own_get k' m.
Proof.
  unfold str_set. destruct (own_get k m) eqn:E; [apply own_get_replace; eauto|].
  induction m as [|[j w] m IH]; cbn [app own_get] in *; [by case_decide|].
  destruct (decide (j = k)); [done|]. rewrite IH by done. repeat case_decide; congruence.
Qed.

Lemma str_set_NoDup k v m : NoDup (own_keys m) -> NoDup (own_keys (str_set k v m)).
Proof.
  unfold str_set. destruct (own_get k m) eqn:E; [by rewrite replace_own_keys|].
  apply own_get_None in E. intros H. unfold own_keys. rewrite fmap_app. apply NoDup_app. split_and!; [done| |].
  - by intros x Hx ->%list_elem_of_singleton.
  - apply NoDup_singleton.
Qed.

Lemma str_set_new k v m : own_get k m = None -> str_set k v m = m ++ [(k, v)].
Proof. unfold str_set. by intros ->. Qed.

Lemma str_set_Forall (P : jsstr * A -> Prop) k v m : P (k, v) -> Forall P m -> Forall P (str_set k v m).
Proof.
  intros Hk Hm. unfold str_set. destruct (own_get k m); [|apply Forall_app; by repeat constructor].
  induction Hm as [|[j w] m Hj Hm IH]; cbn [replace_own]; [done|]. case_decide; [subst|]; by constructor.
Qed.

Lemma own_delete_Forall (P : jsstr * A -> Prop) k m : Forall P m -> Forall P (own_delete k m).
Proof.
  intros H. apply Forall_forall. intros x [_ Hx]%list_elem_of_filter. rewrite Forall_forall in H. by apply H.
Qed.
End str_set.

(** Documents filed under their own admissible ids. *)
Record docs_wf (m : list (jsstr * jsval)) : Prop := {
  docs_nodup : NoDup (own_keys m);
  docs_keyed : Forall (fun kv => doc_id kv.2 = kv.1 /\ id_ok kv.1) m
}.

Definition mutation_wf (mu : ReferenceMutation) : Prop :=
  id_ok (mutation_id mu) /\ match mu with MWrite _ id after => doc_id after = id | MDelete _ => True end.

Lemma apply_mutation_wf m mu : docs_wf m -> mutation_wf mu -> docs_wf (apply_mutation m mu).
Proof.
  intros [Hn Hk] [Hid Hmu]. destruct mu as [op id after|id]; cbn [apply_mutation mutation_id] in *.
  - split; [by apply str_set_NoDup|by apply str_set_Forall].
  - split; [by apply own_delete_NoDup|by apply own_delete_Forall].
Qed.

Lemma apply_mutations_wf muts : forall m, docs_wf m -> Forall mutation_wf muts -> docs_wf (foldl apply_mutation m muts).
Proof.
  induction muts as [|mu muts IH]; intros m Hm Hmu; [done|]. apply Forall_cons in Hmu as [Hmu Hmus]. cbn [foldl].
  apply IH; [by apply apply_mutation_wf|done].
Qed.

(** What the last mutation of an id makes of its row. *)
Definition effect (mu : ReferenceMutation) : option jsval :=
  match mu with MWrite _ _ after => Some after | MDelete _ => None end.

Fixpoint effect_of (id : jsstr) (muts : list ReferenceMutation) : option (option jsval) :=
  match muts with
  | [] => None
  | mu :: muts =>
    match effect_of id muts with
    | Some e => Some e
    | None => if decide (mutation_id mu = id) then Some (effect mu) else None
    end
  end.

Definition overlay (e : option (option jsval)) (row : option jsval) : option jsval :=
  match e with Some e => e | None => row end.

Lemma own_get_apply id m mu : own_get id (apply_mutation m mu) =
  if decide (mutation_id mu = id) then effect mu else own_get id m.
Proof. destruct mu; cbn; [apply own_get_str_set|apply own_get_delete]. Qed.

Lemma own_get_apply_all id muts : forall m, own_get id (foldl apply_mutation m muts) = overlay (effect_of id muts) (own_get id m).
Proof.
  induction muts as [|mu muts IH]; intros m; [done|]. cbn [foldl effect_of]. rewrite IH, own_get_apply.
  destruct (effect_of id muts); [done|]. by case_decide.
Qed.

Lemma effect_of_filter id (P : ReferenceMutation -> bool) muts :
  (forall mu, mu ∈ muts -> mutation_id mu = id -> P mu = true) -> effect_of id (List.filter P muts) = effect_of id muts.
Proof.
  induction muts as [|mu muts IH]; intros H; [done|]. cbn [List.filter].
  assert (IH' : effect_of id (List.filter P muts) = effect_of id muts) by (apply IH; intros; apply H; [by right|done]).
  destruct (P mu) eqn:E; cbn [effect_of]; rewrite IH'; [done|]. destruct (effect_of id muts); [done|].
  rewrite decide_False; [done|]. intros Hid. rewrite H in E; [done|by left|done].
Qed.

Lemma effect_of_none id muts : Forall (fun mu => mutation_id mu <> id) muts -> effect_of id muts = None.
Proof. induction 1 as [|mu muts Hmu _ IH]; [done|]. cbn [effect_of]. by rewrite IH, decide_False. Qed.

Lemma effect_of_elem id muts : NoDup (mutation_id <$> muts) -> forall mu, mu ∈ muts -> mutation_id mu = id ->
  effect_of id muts = Some (effect mu).
Proof.
  induction muts as [|mu' muts IH]; intros Hn mu Hin Hid; [by apply not_elem_of_nil in Hin|].
  rewrite fmap_cons in Hn. apply NoDup_cons in Hn as [Hni Hn]. cbn [effect_of]. apply elem_of_cons in Hin as [->|Hin].
  - rewrite effect_of_none; [by rewrite decide_True|]. apply Forall_forall. intros x Hx E. apply Hni.
    apply list_elem_of_fmap. exists x. by rewrite Hid, E.
  - by rewrite (IH Hn mu).
Qed.

(** ** Sorted rows and lookups *)

(** The documents in order. *)
Definition sorted_docs (m : list (jsstr * jsval)) : list jsval := sort_by row_before m.*2.

Lemma find_row_elem id rows d : NoDup (doc_id <$> rows) -> d ∈ rows -> doc_id d = id -> find_row id rows = Some d.
Proof.
  intros Hn Hd Hid. induction rows as [|r rows IH]; [by apply not_elem_of_nil in Hd|]. cbn [find_row List.find].
  rewrite fmap_cons in Hn. apply NoDup_cons in Hn as [Hni Hn]. apply elem_of_cons in Hd as [->|Hd].
  - by rewrite bool_decide_eq_true_2.
  - rewrite bool_decide_eq_false_2; [by apply IH|]. intros E. apply Hni. apply list_elem_of_fmap. exists d. by rewrite E, Hid.
Qed.

Lemma find_row_Some id rows d : find_row id rows = Some d -> d ∈ rows /\ doc_id d = id.
Proof.
  unfold find_row. intros H. apply List.find_some in H as [Hin Hid]. by rewrite bool_decide_eq_true, <- list_elem_of_In in *.
Qed.

Lemma docs_ids m : docs_wf m -> doc_id <$> m.*2 = own_keys m.
Proof.
  intros [_ Hk]. unfold own_keys. induction Hk as [|[k v] m [Hv _] _ IH]; [done|]. rewrite !fmap_cons. cbn [fst snd] in *. by rewrite Hv, IH.
Qed.

Lemma sorted_docs_sorted m : docs_wf m -> rows_sorted (sorted_docs m).
Proof.
  intros Hwf. pose proof (docs_ids m Hwf) as Hids. destruct Hwf as [Hn Hk].
  assert (Hok : Forall (fun d => id_ok (doc_id d)) m.*2).
  { apply Forall_fmap. eapply Forall_impl; [exact Hk|]. intros [k v] [E Ho]. cbn [compose fst snd] in *. by rewrite E. }
  assert (Hnd : NoDup (doc_id <$> m.*2)) by by rewrite Hids.
  split; [unfold sorted_docs; by rewrite (sort_by_perm row_before m.*2)|]. apply sort_by_sorted.
  - rewrite Forall_forall in Hok. split.
    + intros x y z Hx Hy Hz. apply id_before_trans; auto.
    + intros x y Hx Hy. destruct (id_before_total (doc_id x) (doc_id y)) as [?|[E|?]]; auto.
      right. left. apply (find_row_elem (doc_id x)) in Hx; [|done|done]. apply (find_row_elem (doc_id x)) in Hy; [|done|done]. congruence.
  - by eapply NoDup_fmap_1.
Qed.

Lemma find_sorted_docs m id : docs_wf m -> find_row id (sorted_docs m) = own_get id m.
Proof.
  intros Hwf. pose proof (docs_ids m Hwf) as Hids. pose proof (sort_by_perm row_before m.*2) as Hp.
  assert (Hnd : NoDup (doc_id <$> sorted_docs m)) by (unfold sorted_docs; rewrite Hp, Hids; apply Hwf).
  destruct Hwf as [Hn Hk]. rewrite Forall_forall in Hk. destruct (own_get id m) as [d|] eqn:E.
  - apply own_get_In in E. apply find_row_elem; [done| |].
    + unfold sorted_docs. rewrite Hp. apply list_elem_of_fmap. by exists (id, d).
    + by destruct (Hk _ E).
  - destruct (find_row id (sorted_docs m)) as [d|] eqn:Ef; [|done]. exfalso. apply find_row_Some in Ef as [Hd Hid].
    unfold sorted_docs in Hd. rewrite Hp in Hd. apply list_elem_of_fmap in Hd as ([k v] & -> & Hin). cbn [snd] in *.
    destruct (Hk _ Hin) as [Hkv _]. cbn [fst snd] in *. apply own_get_None in E. apply E. unfold own_keys.
    apply list_elem_of_fmap. exists (k, v). cbn. split; [congruence|done].
Qed.

(** Sorted rows are determined by their lookups. *)
Lemma rows_unique l k : rows_sorted l -> rows_sorted k -> (forall id, id_ok id -> find_row id l = find_row id k) -> l = k.
Proof.
  intros Hl Hk H. pose proof (rows_sorted_nodup l Hl) as Hnl. pose proof (rows_sorted_nodup k Hk) as Hnk.
  assert (Hin : forall a b, rows_sorted a -> (forall id, id_ok id -> find_row id a = find_row id b) -> forall x, x ∈ a -> x ∈ b).
  { intros a b Ha Hab x Hx. apply (find_row_Some (doc_id x)). pose proof (rows_sorted_nodup a Ha). destruct Ha as [Ho _].
    rewrite Forall_forall in Ho. rewrite <- Hab by by apply Ho. by apply find_row_elem. }
  apply (sorted_by_unique row_before).
  - intros x y Hx Hy Hxy. destruct Hl as [Ho _]. rewrite Forall_forall in Ho. unfold row_before in *.
    rewrite (id_before_asym (doc_id x) (doc_id y)) by auto. done.
  - apply Hl.
  - apply Hk.
  - apply NoDup_Permutation; [by eapply NoDup_fmap_1|by eapply NoDup_fmap_1|]. intros x. split; [by apply Hin|].
    apply Hin; [done|]. intros id Hid. by rewrite H.
Qed.

(** Documents loaded from sorted rows. *)
Definition docs_of (rows : list jsval) : list (jsstr * jsval) := (fun d => (doc_id d, d)) <$> rows.

Lemma docs_of_wf rows : rows_sorted rows -> docs_wf (docs_of rows).
Proof.
  intros Hs. split.
  - unfold own_keys, docs_of. rewrite <- list_fmap_compose. by apply rows_sorted_nodup.
  - destruct Hs as [Ho _]. apply Forall_fmap. eapply Forall_impl; [exact Ho|]. done.
Qed.

Lemma own_get_docs_of id rows : own_get id (docs_of rows) = find_row id rows.
Proof. 
  induction rows as [|d rows IH]; [done|]. unfold docs_of in *. rewrite fmap_cons. cbn [own_get find_row List.find]. fold (find_row id rows).
  rewrite IH. by case_decide; case_bool_decide.
Qed.

Lemma sorted_docs_of rows : rows_sorted rows -> sorted_docs (docs_of rows) = rows.
Proof.
  intros Hs. apply rows_unique; [apply sorted_docs_sorted; by apply docs_of_wf|done|]. intros id _.
  rewrite find_sorted_docs by by apply docs_of_wf. apply own_get_docs_of.
Qed.

(** ** The reference fold *)

Lemma document_value_canonical v : assertDocumentValue v = true -> is_Some (canonicalizeDocumentValue v).
Proof.
  induction v as [| |b|n|s|l IH|o IH|x] using jsval_nested_ind; cbn [assertDocumentValue canonicalizeDocumentValue]; try done; eauto.
  - intros ->. eauto.
  - intros H. apply fmap_is_Some, mapM_is_Some. rewrite forallb_forall in H. apply Forall_forall. intros x Hx.
    rewrite Forall_forall in IH. apply IH; [done|]. apply H. by apply list_elem_of_In.
  - intros H. apply fmap_is_Some, mapM_is_Some. rewrite forallb_forall in H. apply Forall_forall. intros [k x] Hx.
    rewrite Forall_forall in IH. apply fmap_is_Some, (IH _ Hx), (H (k, x)). by apply list_elem_of_In.
Qed.

Lemma own_id_doc_id v id : own_id v = Some id -> doc_id v = id /\ assertSnapshotDocId id = None.
Proof.
  unfold own_id, doc_id. destruct v as [| | | | | |o|]; try done. destruct (own_get (js "_id") o) as [w|]; [|done].
  cbn [mbind option_bind]. intros [-> Hid]%as_doc_id_Some. done.
Qed.

(** A document the reference admits is one a chunk can hold. *)
Lemma assertDocument_spec v id : assertDocument v id = true -> json_ok v = true ->
  own_id v = Some id /\ exists w, canonicalizeDocument v = Some w /\ own_id w = Some id.
Proof.
  unfold assertDocument. destruct v as [| | | | | |o|]; try done. intros [Hv Hid%bool_decide_eq_true]%andb_true_iff Hj.
  destruct (document_value_canonical _ Hv) as [w Hw]. split; [done|]. exists w. unfold canonicalizeDocument. rewrite Hw.
  apply json_ok_obj in Hj as [Hn _]. pose proof (canonicalize_own_id _ _ Hw Hn) as E. cbn [mbind option_bind].
  assert (own_id w = Some id) as Ew by by rewrite E. by rewrite Ew.
Qed.

(** Mutations the fold admits. *)
Definition mutation_ok (mu : ReferenceMutation) : Prop :=
  assertSnapshotDocId (mutation_id mu) = None /\
  match mu with MWrite _ id after => assertDocument after id = true | MDelete _ => True end.

Lemma reference_mutations_spec muts : forall m out, reference_mutations muts m = Some out <->
  Forall mutation_ok muts /\ out = foldl apply_mutation m muts.
Proof.
  induction muts as [|mu muts IH]; intros m out; cbn [reference_mutations foldl].
  { split; [intros [= <-]; by split|by intros [_ ->]]. }
  rewrite Forall_cons. unfold mutation_ok at 1. unfold as_doc_id. destruct (assertSnapshotDocId (mutation_id mu)); cbn [mbind option_bind].
  { split; [done|]. by intros [[[? _] _] _]. }
  destruct mu as [op id after|id]; cbn [mutation_id].
  - destruct (assertDocument after id); cbn [guard_ok mbind option_bind]; rewrite ?IH; [tauto|]. split; [done|]. by intros [[[_ ?] _] _].
  - cbn [guard_ok mbind option_bind]. rewrite IH. tauto.
Qed.

Lemma reference_rows_spec rows : forall docs out, NoDup (own_keys (docs ++ rows)) -> reference_rows rows docs = Some out ->
  out = docs ++ rows.
Proof.
  induction rows as [|[id body] rows IH]; intros docs out Hn; cbn [reference_rows].
  { intros [= <-]. by rewrite app_nil_r. }
  intros H. apply bind_Some in H as (? & _ & H). apply bind_Some in H as (? & _ & H). apply bind_Some in H as (? & Hg%guard_ok_Some & H).
  apply bool_decide_eq_true in Hg. rewrite str_set_new in H by done. apply IH in H; [|by rewrite <- app_assoc]. by rewrite <- app_assoc in H.
Qed.

(** The fold of sorted rows: what it answers, and that the mutations were admitted. *)
Lemma reference_fold_spec rows muts out : rows_sorted rows -> Forall (fun mu => units_ok (mutation_id mu)) muts ->
  foldChunkedSnapshotReference (docs_of rows) muts = inr out -> Forall (fun mu => match mu with MWrite _ _ after => json_ok after = true | _ => True end) muts ->
  Forall mutation_ok muts /\ Forall mutation_wf muts /\
  out.*2 = sorted_docs (foldl apply_mutation (docs_of rows) muts).
Proof.
  intros Hs Hu H Hj. unfold foldChunkedSnapshotReference in H. destruct (reference_rows (docs_of rows) []) as [docs|] eqn:E; [|done].
  cbn [mbind option_bind] in H. pose proof (docs_of_wf rows Hs) as Hwf.
  apply reference_rows_spec in E; [|apply Hwf]. cbn [app] in E. subst docs.
  destruct (reference_mutations muts (docs_of rows)) as [m|] eqn:E; [|done]. cbn [mbind option_bind or_code] in H. injection H as <-.
  apply reference_mutations_spec in E as [Hok ->]. split; [done|].
  assert (Hmwf : Forall mutation_wf muts).
  { apply Forall_forall. intros mu Hmu. rewrite Forall_forall in Hok, Hu, Hj. destruct (Hok mu Hmu) as [Hid Hd]. specialize (Hj mu Hmu).
    split; [split; [by apply Hu|done]|]. destruct mu as [op id after|id]; [|done].
    destruct (assertDocument_spec _ _ Hd Hj) as [Hown _]. by apply own_id_doc_id in Hown as [? _]. }
  split; [done|]. pose proof (apply_mutations_wf muts _ Hwf Hmwf) as Hmw. set (m := foldl apply_mutation (docs_of rows) muts) in *.
  pose proof (sort_by_perm (fun l r : jsstr * jsval => compareDocIds l.1 r.1 <? 0) m) as Hp.
  set (sorted := sort_by _ m) in *.
  assert (Hsorted : sorted_by (fun l r : jsstr * jsval => compareDocIds l.1 r.1 <? 0) sorted).
  { destruct Hmw as [Hn Hk]. apply sort_by_sorted; [|by eapply NoDup_fmap_1]. rewrite Forall_forall in Hk. split.
    - intros x y z Hx Hy Hz. apply (id_before_trans x.1 y.1 z.1); by apply Hk.
    - intros x y Hx Hy. destruct (id_before_total x.1 y.1) as [?|[E|?]]; [by apply Hk..|by left| |by right; right].
      right. left. destruct x as [i v], y as [j w]. cbn [fst] in E. subst j. f_equal.
      apply (own_get_elem i) in Hx; [|done]. apply (own_get_elem i) in Hy; [|done]. congruence. }
  apply rows_unique; [|by apply sorted_docs_sorted|].
  - assert (Hall : Forall (fun kv => doc_id kv.2 = kv.1 /\ id_ok kv.1) sorted) by (rewrite Hp; apply Hmw). split.
    + apply Forall_fmap. eapply Forall_impl; [exact Hall|]. intros [k v] [E Ho]. cbn [compose fst snd] in *. by rewrite E.
    + apply (sorted_by_of_fmap snd row_before). clear -Hsorted Hall. induction Hsorted as [|x l Hl IH Hx]; [constructor|].
      apply Forall_cons in Hall as [[E _] Hall]. constructor; [by apply IH|]. apply Forall_forall. intros y Hy.
      rewrite Forall_forall in Hx, Hall. unfold row_before. destruct (Hall y Hy) as [-> _]. rewrite E. by apply Hx.
  - intros id _. rewrite find_sorted_docs by done.
    assert (Hnd : NoDup (own_keys sorted)) by (unfold own_keys; rewrite Hp; apply Hmw).
    destruct (own_get id m) as [d|] eqn:E.
    + apply own_get_In in E. assert (Hd : doc_id d = id) by (destruct Hmw as [_ Hk]; rewrite Forall_forall in Hk; by destruct (Hk _ E)).
      rewrite <- Hp in E. apply find_row_elem; [|apply list_elem_of_fmap; by exists (id, d)|done].
      rewrite docs_ids; [done|]. split; [done|]. rewrite Hp. apply Hmw.
    + destruct (find_row id sorted.*2) as [d|] eqn:Ef; [|done]. exfalso. apply find_row_Some in Ef as [Hin Hid].
      apply list_elem_of_fmap in Hin as ([k v] & -> & Hin). cbn [snd] in *. rewrite Hp in Hin. apply own_get_None in E. apply E.
      destruct Hmw as [_ Hk]. rewrite Forall_forall in Hk. destruct (Hk _ Hin) as [Hkv _]. cbn in Hkv.
      apply list_elem_of_fmap. exists (k, v). split; [cbn; congruence|done].
Qed.
