(* ===== verification/ChunkBuilder.v ===== *)
(** * Building the chunks of a fold

    server/src/snapshot-chunk-builder.ts: the boundary policies, routing a mutation to the
    chunk that owns its id, rebuilding the touched groups, the greedy split, the merge of an
    underfull output with its neighbour, and minting descriptors.  A row target is positive:
    with a target of zero the split of the source never ends. *)
From stdpp Require Import list.
From S2P Require Import Prelude JsText JsValue Errors Json Storage Effects Lsn CurrentJson LogWalk Snapshot DocId Sort SnapshotCodec SnapshotView ChunkReference.
Local Open Scope Z_scope.

Record SnapshotChunkBoundaryPolicy := Policy { target_chunk_bytes : Z; target_rows : positive }.

(** [CHUNK_BOUNDARY_POLICIES] *)
Definition c128_r512 : SnapshotChunkBoundaryPolicy := Policy (MAX_CHUNK_BYTES / 8 + 4 * 1024) 512.
Definition c512_r2048 : SnapshotChunkBoundaryPolicy := Policy (512 * 1024) 2048.
Definition c1024_r4096 : SnapshotChunkBoundaryPolicy := Policy (1024 * 1024) 4096.

(** A mutation's target among the descriptors; [None]: a delete of no row, or no descriptor. *)
Definition routeMutationToDescriptor (docId : jsstr) (isDelete : bool) (descriptors : list SnapshotChunkDescriptor) : option nat :=
  match descriptors with
  | [] => None
  | _ =>
    let low := firstDescriptorEndingAtOrAfter descriptors docId in
    match descriptors !! low with
    | Some d =>
      if compareDocIds (first_id d) docId <=? 0 then Some low
      else if isDelete then None
      else if (low =? 0)%nat then Some 0%nat else Some (low - 1)%nat
    | None => if isDelete then None else Some (length descriptors - 1)%nat
    end
  end.

(** The leftmost direct owner and its selected neighbour. *)
Definition deriveOwnerAndNeighbor (directIndexes : list nat) (descriptorCount : nat) : option nat * option nat :=
  match directIndexes with
  | [] => (None, None)
  | i :: rest =>
    if (descriptorCount =? 0)%nat then (None, None)
    else
      let owner := foldl Nat.min i rest in
      (Some owner, if (owner + 1 <? descriptorCount)%nat then Some (owner + 1)%nat
                   else if (1 <=? owner)%nat then Some (owner - 1)%nat else None)
  end.

(** Strictly below half of both targets. *)
Definition isUnderfull (size : Z) (rowCount : nat) (policy : SnapshotChunkBoundaryPolicy) : bool :=
  (2 * size <? target_chunk_bytes policy) && (2 * Z.of_nat rowCount <? Zpos (target_rows policy)).

Definition getLoadedDocs (loadedChunks : list (jsstr * list jsval)) (d : SnapshotChunkDescriptor) : result (list jsval) :=
  match own_get (descriptor_key d) loadedChunks with
  | Some docs => inr docs
  | None => inl (new_error InvalidResponse)
  end.

Fixpoint same_bytes (before after : list jsval) : result bool :=
  match before, after with
  | l :: before, r :: after =>
    match encodeJsonBytes l, encodeJsonBytes r with
    | Some lb, Some rb => if bool_decide (lb = rb) then same_bytes before after else inr false
    | _, _ => inl OtherError
    end
  | _, _ => inr true
  end.

Definition areDocListsEqual (before after : list jsval) : result bool :=
  if negb (length before =? length after)%nat then inr false else same_bytes before after.

Record SplitChunkItem := Item { item_docs : list jsval; item_bytes : bytes }.

(** A chunk's slot in the new manifest: a descriptor kept, or an output to mint. *)
Inductive slot := Kept (d : SnapshotChunkDescriptor) | Fresh (item : SplitChunkItem).

Record SnapshotChunkEvaluation := Evaluation {
  split_increments : nat;
  used_neighbor_chunk_index : option nat;
  layout : list slot
}.

Record SnapshotChunkBuildResult := BuildResult {
  build_chunks : list SnapshotChunkDescriptor;
  changed_chunks : list (SnapshotChunkDescriptor * bytes);
  build_split_increments : nat;
  build_used_neighbor : option nat
}.

Record BuildSnapshotChunksInput := BuildInput {
  in_collection : jsstr;
  in_collectionPrefix : jsstr;
  in_descriptors : list SnapshotChunkDescriptor;
  in_loadedChunks : list (jsstr * list jsval);
  in_mutations : list (jsstr * ReferenceMutation);
  in_incarnation : jsstr;
  in_policy : SnapshotChunkBoundaryPolicy;
  in_lockedDirectOwnerIndex : option nat;
  in_selectedNeighborIndex : option nat
}.

(** The first mutation that fails the ingress checks. *)
Fixpoint check_mutations (mutations : list (jsstr * ReferenceMutation)) : option js_error :=
  match mutations with
  | [] => None
  | (docId, mu) :: mutations =>
    match assertSnapshotDocId docId with
    | Some e => Some e
    | None =>
      if negb (bool_decide (docId = mutation_id mu)) then Some (new_error InvalidConfig)
      else match mu with
           | MWrite _ _ after => match assertPostImageIdentity docId after InvalidConfig with
                                 | Some e => Some e
                                 | None => check_mutations mutations
                                 end
           | MDelete _ => check_mutations mutations
           end
    end
  end.

Definition check_input (i : BuildSnapshotChunksInput) : option js_error :=
  if bool_decide (in_collection i = []) then Some (new_error InvalidConfig)
  else if bool_decide (in_collectionPrefix i = []) || ends_with_slash (in_collectionPrefix i) then Some (new_error InvalidConfig)
  else if negb (is_incarnation (in_incarnation i)) then Some (new_error InvalidConfig)
  else check_mutations (in_mutations i).

(** An association list keyed by descriptor index. *)
Definition nget {A} (i : nat) (l : list (nat * A)) : option A :=
  snd <$> List.find (fun p => (p.1 =? i)%nat) l.

(** [groupMutations.get(i)], created when absent, then [push]. *)
Fixpoint push_group (i : nat) (mu : ReferenceMutation) (groups : list (nat * list ReferenceMutation)) :
    list (nat * list ReferenceMutation) :=
  match groups with
  | [] => [(i, [mu])]
  | (j, l) :: groups => if (j =? i)%nat then (j, l ++ [mu]) :: groups else (j, l) :: push_group i mu groups
  end.

Definition is_delete (mu : ReferenceMutation) : bool := match mu with MDelete _ => true | MWrite _ _ _ => false end.

Definition group_mutations (descriptors : list SnapshotChunkDescriptor) (mutations : list (jsstr * ReferenceMutation)) :
    list (nat * list ReferenceMutation) :=
  foldl (fun groups p =>
           match routeMutationToDescriptor p.1 (is_delete p.2) descriptors with
           | Some i => push_group i p.2 groups
           | None => groups
           end) [] mutations.

Inductive group_outcome := Unchanged | Rewritten (items : list SplitChunkItem).

(** The documents of a map, each set in turn. *)
Definition load_docs (docs : list jsval) : list (jsstr * jsval) :=
  foldl (fun docMap d => str_set (doc_id d) d docMap) [] docs.

Section builder.
Context (byteLength : bytes -> Z) (sha256 : bytes -> list N).

(** [encodeBuilderChunk]: an oversized body stays recognisable, as its error's message is kept. *)
Definition encodeBuilderChunk (chunk : SnapshotChunk) : chunk_encoding := encodeSnapshotChunk byteLength chunk.

Definition encoding_result (e : chunk_encoding) : result bytes :=
  match e with
  | Encoded b => inr b
  | Oversized => inl (new_error InvalidResponse)
  | Refused e => inl e
  end.

Section group.
Context (collection incarnation : jsstr) (policy : SnapshotChunkBoundaryPolicy).

Definition candidate_chunk (docs : list jsval) : SnapshotChunk :=
  Chunk collection incarnation (default [] (doc_id <$> head docs)) (default [] (doc_id <$> last docs)) docs.

(** The longest prefix of at most [S n] documents that fits; one document always stands. *)
Fixpoint fit (docs : list jsval) (n : nat) : result SplitChunkItem :=
  let candidateDocs := take (S n) docs in
  match encodeBuilderChunk (candidate_chunk candidateDocs) with
  | Refused e => inl e
  | Oversized => match n with O => inl (new_error InvalidResponse) | S n => fit docs n end
  | Encoded b =>
    if byteLength b <=? target_chunk_bytes policy then inr (Item candidateDocs b)
    else match n with O => inr (Item candidateDocs b) | S n => fit docs n end
  end.

Fixpoint split_loop (fuel : nat) (docs : list jsval) : result (list SplitChunkItem) :=
  match fuel, docs with
  | S fuel, _ :: _ =>
    rbind (fit docs (Nat.min (Pos.to_nat (target_rows policy)) (length docs) - 1)) (fun item =>
    rbind (split_loop fuel (drop (length (item_docs item)) docs)) (fun items =>
    inr (item :: items)))
  | _, _ => inr []
  end.

(** Every turn consumes a document. *)
Definition splitGroupDocsGreedily (docs : list jsval) : result (list SplitChunkItem) := split_loop (length docs) docs.

Definition rebuild_group (loadedChunks : list (jsstr * list jsval)) (descriptor : SnapshotChunkDescriptor)
    (mutations : list ReferenceMutation) : result group_outcome :=
  rbind (getLoadedDocs loadedChunks descriptor) (fun initialDocs =>
  let updatedDocs := sorted_docs (foldl apply_mutation (load_docs initialDocs) mutations) in
  rbind (areDocListsEqual initialDocs updatedDocs) (fun same =>
  if (same : bool) then inr Unchanged
  else if (length updatedDocs =? 0)%nat then inr (Rewritten [])
  else rbind (splitGroupDocsGreedily updatedDocs) (fun items => inr (Rewritten items)))).

(** The owner's outputs with the neighbour folded in; [None]: not eligible. *)
Definition applyFacingMerge (descriptors : list SnapshotChunkDescriptor) (loadedChunks : list (jsstr * list jsval))
    (outcomes : list (nat * group_outcome)) (owner neighbor : nat) : result (option (list SplitChunkItem)) :=
  match nget owner outcomes, descriptors !! owner, descriptors !! neighbor, nget neighbor outcomes with
  | Some (Rewritten items), Some _, Some neighborDesc, None =>
    let facing :=
      if (neighbor =? owner + 1)%nat then Some ((length items - 1)%nat, true)
      else if (neighbor + 1 =? owner)%nat && (owner =? length descriptors - 1)%nat then Some (0%nat, false)
      else None in
    match facing with
    | None => inr None
    | Some (index, isFacingRight) =>
      match items !! index with
      | None => inr None
      | Some facingChunk =>
        if negb (isUnderfull (byteLength (item_bytes facingChunk)) (length (item_docs facingChunk)) policy) then inr None
        else
          rbind (getLoadedDocs loadedChunks neighborDesc) (fun neighborDocs =>
          let combinedDocs := if (isFacingRight : bool) then item_docs facingChunk ++ neighborDocs
                              else neighborDocs ++ item_docs facingChunk in
          rbind (encoding_result (encodeBuilderChunk (candidate_chunk combinedDocs))) (fun combinedBytes =>
          if (target_chunk_bytes policy <? byteLength combinedBytes) ||
             (Zpos (target_rows policy) <? Z.of_nat (length combinedDocs)) then inr None
          else inr (Some (<[index := Item combinedDocs combinedBytes]> items))))
      end
    end
  | _, _, _, _ => inr None
  end.

Definition evaluateInitialEmptyChunks (mutations : list (jsstr * ReferenceMutation)) : result SnapshotChunkEvaluation :=
  let updatedDocs := sorted_docs (foldl apply_mutation [] mutations.*2) in
  if (length updatedDocs =? 0)%nat then inr (Evaluation 0 None [])
  else rbind (splitGroupDocsGreedily updatedDocs) (fun items =>
       inr (Evaluation (length items - 1) None (Fresh <$> items))).
End group.

Definition group_increments (o : group_outcome) : nat :=
  match o with Unchanged => 0 | Rewritten items => length items - 1 end.

(** The slots of one descriptor. *)
Definition slots_of (outcomes : list (nat * group_outcome)) (used : option nat) (i : nat) (d : SnapshotChunkDescriptor) : list slot :=
  if bool_decide (used = Some i) then []
  else match nget i outcomes with
       | None | Some Unchanged => [Kept d]
       | Some (Rewritten items) => Fresh <$> items
       end.

(** One touched descriptor, with its mutations. *)
Definition evaluate_group (i : BuildSnapshotChunksInput) (g : nat * list ReferenceMutation) : result (nat * group_outcome) :=
  match in_descriptors i !! g.1 with
  | Some d => rbind (rebuild_group (in_collection i) (in_incarnation i) (in_policy i) (in_loadedChunks i) d g.2) (fun o =>
              inr (g.1, o))
  | None => inl OtherError
  end.

Definition evaluateSnapshotChunks (i : BuildSnapshotChunksInput) : result SnapshotChunkEvaluation :=
  match check_input i with
  | Some e => inl e
  | None =>
    if (length (in_descriptors i) =? 0)%nat then
      evaluateInitialEmptyChunks (in_collection i) (in_incarnation i) (in_policy i) (in_mutations i)
    else
      rbind (collect (evaluate_group i <$> group_mutations (in_descriptors i) (in_mutations i))) (fun outcomes =>
      let increments := sum_list (group_increments <$> outcomes.*2) in
      rbind
        match in_lockedDirectOwnerIndex i, in_selectedNeighborIndex i with
        | Some owner, Some neighbor =>
          rbind (applyFacingMerge (in_collection i) (in_incarnation i) (in_policy i) (in_descriptors i)
                   (in_loadedChunks i) outcomes owner neighbor) (fun merged =>
          match merged with
          | None => inr (outcomes, None)
          | Some items => inr ((owner, Rewritten items) :: outcomes, Some neighbor)
          end)
        | _, _ => inr (outcomes, None)
        end (fun merged =>
      inr (Evaluation increments merged.2 (mjoin (imap (slots_of merged.1 merged.2) (in_descriptors i))))))
  end.

Definition appendChunkOutput (collectionPrefix incarnation : jsstr) (item : SplitChunkItem) :
    result (SnapshotChunkDescriptor * bytes) :=
  let b := item_bytes item in
  rbind (snapshotChunkKey collectionPrefix incarnation (snapshotHash sha256 b)) (fun key =>
  inr (Descriptor (default [] (doc_id <$> head (item_docs item))) (default [] (doc_id <$> last (item_docs item)))
         key (byteLength b) (Z.of_nat (length (item_docs item))), b)).

Definition mint_slot (collectionPrefix incarnation : jsstr) (s : slot) : result (SnapshotChunkDescriptor * option bytes) :=
  match s with
  | Kept d => inr (d, None)
  | Fresh item => rbind (appendChunkOutput collectionPrefix incarnation item) (fun p => inr (p.1, Some p.2))
  end.

Definition mint (collectionPrefix incarnation : jsstr) (e : SnapshotChunkEvaluation) : result SnapshotChunkBuildResult :=
  rbind (collect (mint_slot collectionPrefix incarnation <$> layout e)) (fun minted =>
  inr (BuildResult minted.*1 (omap (fun p => pair p.1 <$> p.2) minted) (split_increments e) (used_neighbor_chunk_index e))).

Definition buildSnapshotChunks (i : BuildSnapshotChunksInput) : result SnapshotChunkBuildResult :=
  rbind (evaluateSnapshotChunks i) (mint (in_collectionPrefix i) (in_incarnation i)).
End builder.

(** ** Candidates and the greedy split *)

(** A document a chunk can hold. *)
Definition doc_valid (d : jsval) : Prop :=
  json_ok d = true /\ own_id d = Some (doc_id d) /\ exists w, canonicalizeDocument d = Some w.

Lemma doc_valid_canonical d : doc_valid d -> exists w, canonicalizeDocument d = Some w /\ json_ok w = true /\
  canonicalizeDocument w = Some w /\ own_id w = Some (doc_id d) /\ doc_id w = doc_id d.
Proof.
  intros (Hj & Hid & w & Hw). destruct (canonicalizeDocument_spec _ _ Hj Hw) as (H1 & H2 & H3 & _). exists w. rewrite H3.
  split_and!; try done. rewrite Hid in H3. by apply own_id_doc_id in H3 as [? _].
Qed.

Lemma docs_valid_canonical docs : Forall doc_valid docs -> exists ws, mapM canonicalizeDocument docs = Some ws /\
  mapM own_id ws = Some (doc_id <$> docs) /\ doc_id <$> ws = doc_id <$> docs /\ length ws = length docs.
Proof.
  induction 1 as [|d docs Hd _ (ws & H1 & H2 & H3 & H4)]; [by exists []|].
  destruct (doc_valid_canonical d Hd) as (w & Hw & _ & _ & Hid & Hdw). exists (w :: ws). cbn [mapM]. rewrite Hw, H1, Hid, H2.
  cbn [mbind option_bind mret option_ret length]. rewrite !fmap_cons, H3, H4, Hdw. done.
Qed.

Section built.
Context (byteLength : bytes -> Z) (sha256 : bytes -> list N).
Context (collection incarnation : jsstr) (policy : SnapshotChunkBoundaryPolicy).

Abbreviation candidate := (candidate_chunk collection incarnation).

(** An output whose bytes are its documents' chunk. *)
Definition item_ok (item : SplitChunkItem) : Prop :=
  encodeBuilderChunk byteLength (candidate (item_docs item)) = Encoded (item_bytes item) /\ item_docs item <> [].

(** What the policy asks of a split output. *)
Definition item_fits (item : SplitChunkItem) : Prop :=
  (length (item_docs item) <= Pos.to_nat (target_rows policy))%nat /\
  (byteLength (item_bytes item) <= target_chunk_bytes policy \/ length (item_docs item) = 1%nat).

Lemma fit_spec docs n item : docs <> [] -> fit byteLength collection incarnation policy docs n = inr item ->
  item_ok item /\ (exists k, (1 <= k <= S n)%nat /\ item_docs item = take k docs) /\
  (byteLength (item_bytes item) <= target_chunk_bytes policy \/ length (item_docs item) = 1%nat).
Proof.
  intros Hne. assert (Hok : forall k b, (1 <= k)%nat -> encodeBuilderChunk byteLength (candidate (take k docs)) = Encoded b ->
    item_ok (Item (take k docs) b)).
  { intros k b Hk He. split; [done|]. cbn [item_docs]. destruct docs, k; try done. lia. }
  assert (Hone : length (take 1 docs) = 1%nat) by (destruct docs; [done|by rewrite length_take]).
  induction n as [|n IH]; unfold fit; fold (fit byteLength collection incarnation policy).
  - destruct (encodeBuilderChunk _ _) as [b| |e] eqn:He; [|done..].
    destruct (_ <=? _) eqn:El; intros [= <-]; (split_and!; [apply Hok; [lia|done]| |]); cbn [item_docs item_bytes].
    all: try (exists 1%nat; split; [lia|done]). all: by right.
  - destruct (encodeBuilderChunk _ _) as [b| |e] eqn:He; [| |done].
    + destruct (_ <=? _) eqn:El.
      * intros [= <-]. split_and!; [apply Hok; [lia|done]|exists (S (S n)); split; [lia|done]|left; by apply Z.leb_le].
      * intros H. destruct (IH H) as (H1 & (k & Hk & E) & H3). split_and!; [done|exists k; split; [lia|done]|done].
    + intros H. destruct (IH H) as (H1 & (k & Hk & E) & H3). split_and!; [done|exists k; split; [lia|done]|done].
Qed.

Lemma split_loop_spec fuel : forall docs items, (length docs <= fuel)%nat ->
  split_loop byteLength collection incarnation policy fuel docs = inr items ->
  mjoin (item_docs <$> items) = docs /\ Forall item_ok items /\ Forall item_fits items.
Proof.
  induction fuel as [|fuel IH]; intros docs items Hl; cbn [split_loop].
  { destruct docs; [|cbn in Hl; lia]. by intros [= <-]. }
  destruct docs as [|d docs]; [by intros [= <-]|]. set (n := (Nat.min _ _ - 1)%nat).
  destruct (fit _ _ _ _ _ n) as [e|item] eqn:Ef; [done|]. cbn [rbind].
  assert (Hne : d :: docs <> []) by congruence. destruct (fit_spec _ _ _ Hne Ef) as (Hok & (k & Hk & Ek) & Hb).
  destruct (split_loop _ _ _ _ _ _) as [e|rest] eqn:Er; [done|]. cbn [rbind]. intros [= <-].
  assert (Hlen : length (item_docs item) = k).
  { rewrite Ek, length_take. cbn [length]. subst n. cbn [length] in Hk. lia. }
  assert (Hd : (length (drop (length (item_docs item)) (d :: docs)) <= fuel)%nat).
  { rewrite length_drop. cbn [length] in *. lia. }
  destruct (IH _ _ Hd Er) as (H1 & H2 & H3). split_and!.
  - rewrite fmap_cons, mjoin_cons, H1, Hlen, Ek. apply take_drop.
  - by constructor.
  - constructor; [|done]. split; [|done]. subst n. cbn [length] in Hk. lia.
Qed.

Lemma split_spec docs items : splitGroupDocsGreedily byteLength collection incarnation policy docs = inr items ->
  mjoin (item_docs <$> items) = docs /\ Forall item_ok items /\ Forall item_fits items.
Proof. by apply split_loop_spec. Qed.

(** *** The split succeeds *)

Lemma candidate_encodes docs : assertPathSegment collection = None -> is_incarnation incarnation = true ->
  rows_sorted docs -> Forall doc_valid docs -> docs <> [] -> Z.of_nat (length docs) <= MAX_CHUNK_ROWS ->
  forall e, encodeBuilderChunk byteLength (candidate docs) <> Refused e.
Proof.
  intros Hc Hi Hs Hv Hne Hlen e. unfold encodeBuilderChunk, encodeSnapshotChunk, canonicalizeChunk.
  destruct (docs_valid_canonical docs Hv) as (ws & Hws & Hids & Hdw & Hlw).
  set (c := Chunk collection incarnation (default [] (doc_id <$> head docs)) (default [] (doc_id <$> last docs)) ws).
  assert (Hcan : canonical_chunk InvalidConfig (chunk_json (candidate docs)) = Some c).
  { unfold canonical_chunk. assert (assertExactFields (chunk_json (candidate docs)) chunk_fields =
      Some match chunk_json (candidate docs) with JObj o => o | _ => [] end) as -> by reflexivity.
    cbn [mbind option_bind chunk_json candidate_chunk chunk_collection chunk_incarnation chunk_first_id chunk_last_id chunk_docs]. js_fields.
    rewrite strict_eq_num. cbn [guard_ok mbind option_bind collection_field as_string]. rewrite Hc. cbn [mbind option_bind].
    unfold incarnation_field. cbn [as_string mbind option_bind]. rewrite Hi. cbn [guard_ok mbind option_bind].
    rewrite (proj2 (Z.eqb_neq (Z.of_nat (length docs)) 0)) by (destruct docs; [done|cbn [length]; lia]).
    rewrite (proj2 (Z.leb_le (Z.of_nat (length docs)) MAX_CHUNK_ROWS)) by done. cbn [negb andb guard_ok mbind option_bind].
    rewrite Hws. cbn [mbind option_bind]. rewrite Hids. cbn [mbind option_bind]. destruct Hs as [Ho Hs].
    rewrite (proj2 (increasing_sorted (doc_id <$> docs) ltac:(by apply Forall_fmap))) by by apply sorted_by_of_fmap.
    cbn [guard_ok mbind option_bind]. rewrite fmap_last.
    destruct docs as [|d docs]; [done|]. destruct (last (d :: docs)) as [l|] eqn:El; [|by apply last_None in El].
    cbn [fmap option_fmap option_map mbind option_bind head default list_fmap from_option id].
    rewrite !strict_eq_str. reflexivity. }
  rewrite Hcan. cbn [or_code]. assert (Hj : json_ok (chunk_json c) = true).
  { apply chunk_json_ok. eapply canonical_chunk_wf; [|exact Hcan]. apply json_ok_obj. split; [js_decide|]. repeat constructor.
    apply json_ok_arr. eapply Forall_impl; [exact Hv|]. by intros ? (? & _). }
  rewrite encode_ok by done. by destruct (_ <? _).
Qed.

(** One document fits in a chunk. *)
Definition single_fits (d : jsval) : Prop := exists b, encodeBuilderChunk byteLength (candidate [d]) = Encoded b.

Lemma rows_sorted_take n rows : rows_sorted rows -> rows_sorted (take n rows).
Proof. rewrite <- (take_drop n rows) at 1. by intros (? & _)%rows_sorted_app. Qed.

Lemma rows_sorted_drop n rows : rows_sorted rows -> rows_sorted (drop n rows).
Proof. rewrite <- (take_drop n rows) at 1. by intros (_ & ? & _)%rows_sorted_app. Qed.

Context (collection_ok : assertPathSegment collection = None) (incarnation_ok : is_incarnation incarnation = true).
Context (rows_ok : Zpos (target_rows policy) <= MAX_CHUNK_ROWS).

Lemma fit_total docs : rows_sorted docs -> Forall doc_valid docs -> Forall single_fits docs -> docs <> [] ->
  forall n, Z.of_nat (S n) <= MAX_CHUNK_ROWS -> exists item, fit byteLength collection incarnation policy docs n = inr item.
Proof.
  intros Hs Hv Hf Hne. destruct docs as [|d docs]; [done|]. induction n as [|n IH]; intros Hn.
  - unfold fit. change (take 1 (d :: docs)) with [d]. apply Forall_cons in Hf as [[b Hb] _]. rewrite Hb. destruct (_ <=? _); eauto.
  - unfold fit; fold (fit byteLength collection incarnation policy).
    destruct (encodeBuilderChunk byteLength (candidate (take (S (S n)) (d :: docs)))) as [b| |e] eqn:He.
    + destruct (_ <=? _); [eauto|]. apply IH. lia.
    + apply IH. lia.
    + exfalso. revert He. apply candidate_encodes; try done.
      * by apply rows_sorted_take.
      * by apply Forall_take.
      * rewrite length_take. cbn [length]. lia.
Qed.

Lemma split_total docs : rows_sorted docs -> Forall doc_valid docs -> Forall single_fits docs ->
  exists items, splitGroupDocsGreedily byteLength collection incarnation policy docs = inr items.
Proof.
  unfold splitGroupDocsGreedily. generalize (length docs) at 1. intros fuel. revert docs.
  induction fuel as [|fuel IH]; intros docs Hs Hv Hf; cbn [split_loop]; [eauto|]. destruct docs as [|d docs]; [eauto|].
  destruct (fit_total (d :: docs) Hs Hv Hf ltac:(congruence) (Nat.min (Pos.to_nat (target_rows policy)) (length (d :: docs)) - 1)) as [item Hi].
  { cbn [length]. lia. }
  rewrite Hi. cbn [rbind].
  destruct (IH (drop (length (item_docs item)) (d :: docs))) as [items Hitems].
  - by apply rows_sorted_drop.
  - by apply Forall_drop.
  - by apply Forall_drop.
  - rewrite Hitems. cbn [rbind]. eauto.
Qed.
End built.
