(* ===== verification/ChunkRefinement.v ===== *)
(** * The chunk builder refines the reference fold

    The builder of ChunkBuilder.v routes each mutation to one descriptor, rebuilds the
    touched groups and keeps the rest; the reference of ChunkReference.v folds every
    mutation into one map.  Here: every descriptor has a territory of ids, the groups'
    updated rows are the reference's rows cut along the territories, the slots of a build
    hold those rows, and minting gives descriptors of chunks that decode to them. *)
From stdpp Require Import list.
From S2P Require Import Prelude JsText JsValue Errors Json Storage Effects Lsn CurrentJson LogWalk Snapshot DocId Sort SnapshotCodec SnapshotView ChunkReference ChunkBuilder.
Local Open Scope Z_scope.

(** ** Territories *)

(** The ids a descriptor index owns: its own range, the gap after it, and, at the left end,
    everything before it. *)
Definition territory (ds : list SnapshotChunkDescriptor) (i : nat) (id : jsstr) : Prop :=
  (i < length ds)%nat /\
  (i = 0%nat \/ exists d, ds !! i = Some d /\ id_le (first_id d) id) /\
  (forall d', ds !! S i = Some d' -> id_before id (first_id d') = true).

Section routing.
Context (ds : list SnapshotChunkDescriptor) (cs : list SnapshotChunk) (snapshot : snapshot_of ds cs).

Lemma lookup_described i d : ds !! i = Some d -> exists c, cs !! i = Some c /\ described d c.
Proof. intros Hi. destruct snapshot as [Hs _]. by apply (Forall2_lookup_l _ _ _ _ _ Hs). Qed.

Lemma lookup_chunk i c : cs !! i = Some c -> exists d, ds !! i = Some d /\ described d c.
Proof. intros Hi. destruct snapshot as [Hs _]. by apply (Forall2_lookup_r _ _ _ _ _ Hs). Qed.

Lemma first_ok i d : ds !! i = Some d -> id_ok (first_id d) /\ id_ok (last_id d) /\ id_le (first_id d) (last_id d).
Proof. intros (c & _ & Hc)%lookup_described. destruct (described_rows _ _ Hc) as (_ & ? & ? & ? & _). done. Qed.

Lemma first_increases i j d d' : (i < j)%nat -> ds !! i = Some d -> ds !! j = Some d' -> id_before (last_id d) (first_id d') = true.
Proof. intros Hij Hi Hj. destruct snapshot as [_ Hs]. by apply (sorted_by_lookup _ _ i j d d' Hs Hij). Qed.

(** The first id of a later descriptor is not before that of the next one. *)
Lemma first_le i j d d' : (i <= j)%nat -> ds !! i = Some d -> ds !! j = Some d' -> id_le (first_id d) (first_id d').
Proof.
  intros Hij Hi Hj. destruct (first_ok i d Hi) as (H1 & H2 & H3). destruct (first_ok j d' Hj) as (H4 & _ & _).
  destruct (decide (i = j)) as [->|Hne]; [replace d' with d by congruence; by apply id_le_refl|].
  apply id_lt_to_le; [done..|]. apply (id_le_lt _ (last_id d)); [done..|]. apply (first_increases i j); (done || lia).
Qed.

(** Territories do not overlap, and ids of different territories are ordered. *)
Lemma territory_order i j x y : id_ok x -> id_ok y -> (i < j)%nat -> territory ds i x -> territory ds j y -> id_before x y = true.
Proof.
  intros Hx Hy Hij (_ & _ & Hi) (Hlen & [->|(d & Hd & Hle)] & _); [lia|].
  destruct (lookup_lt_is_Some_2 ds (S i)) as [d' Hd']; [lia|]. specialize (Hi d' Hd').
  destruct (first_ok _ _ Hd') as (Ho' & _). destruct (first_ok _ _ Hd) as (Ho & _).
  apply (id_lt_le x (first_id d')); [done..|]. apply (id_le_trans _ (first_id d)); [done..| |done].
  apply (first_le (S i) j); (done || lia).
Qed.

Lemma territory_unique i j id : id_ok id -> territory ds i id -> territory ds j id -> i = j.
Proof.
  intros Hid Hi Hj. destruct (Nat.lt_trichotomy i j) as [H|[H|H]]; [|done|].
  - pose proof (territory_order i j id id Hid Hid H Hi Hj) as E. by rewrite id_before_irrefl in E.
  - pose proof (territory_order j i id id Hid Hid H Hj Hi) as E. by rewrite id_before_irrefl in E.
Qed.

(** A chunk's rows lie in its territory. *)
Lemma chunk_territory i c row : cs !! i = Some c -> row ∈ chunk_docs c -> territory ds i (doc_id row).
Proof.
  intros Hi Hrow. destruct (lookup_chunk i c Hi) as (d & Hd & Hdc).
  destruct (described_rows _ _ Hdc) as ([Ho _] & Hf & Hl & _ & Hr). rewrite Forall_forall in Ho, Hr.
  destruct (Hr row Hrow) as [H1 H2]. specialize (Ho row Hrow). split_and!; [by eapply lookup_lt_Some|right; by exists d|].
  intros d' Hd'. destruct (first_ok _ _ Hd') as (Hf' & _). apply (id_le_lt _ (last_id d)); [done..|].
  by apply (first_increases i (S i)); [lia|..].
Qed.

(** Routing finds the territory; a delete it drops deletes nothing. *)
Lemma route_spec id del : id_ok id ->
  match routeMutationToDescriptor id del ds with
  | Some i => territory ds i id
  | None => find_row id (chunk_rows cs) = None /\ (del = true \/ ds = [])
  end.
Proof.
  intros Hid. unfold routeMutationToDescriptor. destruct (decide (ds = [])) as [E|Hne].
  { destruct snapshot as [Hs _]. rewrite E in *. apply Forall2_nil_inv_l in Hs as ->. split; [done|by right]. }
  replace (match ds with [] => None | _ :: _ => _ end) with
    (let low := firstDescriptorEndingAtOrAfter ds id in
     match ds !! low with
     | Some d => if compareDocIds (first_id d) id <=? 0 then Some low
                 else if del then None else if (low =? 0)%nat then Some 0%nat else Some (low - 1)%nat
     | None => if del then None else Some (length ds - 1)%nat
     end) by (by destruct ds).
  destruct (search_descriptors ds cs id snapshot Hid) as (ds1 & ds2 & cs1 & cs2 & Eds & Ecs & Hlen & H1 & H2 & Hrows & Hb & Ha & Hd).
  set (r := firstDescriptorEndingAtOrAfter ds id) in *. cbn zeta.
  assert (Hprev : forall k d, (k < length ds1)%nat -> ds !! k = Some d -> id_le (first_id d) id).
  { intros k d Hk Hkd. destruct (first_ok k d Hkd) as (Ho1 & Ho2 & Hle). rewrite Eds, lookup_app_l in Hkd by done.
    rewrite Forall_forall in Hb. apply id_lt_to_le; [done..|]. apply (id_le_lt _ (last_id d)); [done..|].
    apply Hb. by eapply list_elem_of_lookup_2. }
  assert (Hrows1 : find_row id (chunk_rows cs1) = None).
  { apply find_row_below; [|done]. by apply (snapshot_rows_sorted ds1 cs1). }
  assert (Hall : find_row id (chunk_rows cs) = find_row id (chunk_rows cs2)).
  { rewrite Ecs. unfold chunk_rows in *. rewrite fmap_app, join_app, find_row_app. by rewrite Hrows1. }
  assert (Hr : ds !! r = head ds2) by (rewrite <- (Nat.add_0_r r), <- lookup_drop, Hd; by destruct ds2).
  rewrite Hr. destruct ds2 as [|d ds2]; cbn [head].
  - rewrite app_nil_r in Eds. destruct del.
    + destruct H2 as [H2 _]. apply Forall2_nil_inv_l in H2 as ->. split; [by rewrite Hall|by left].
    + assert (0 < length ds)%nat by (destruct ds; [done|cbn; lia]). split_and!; [lia| |].
      * right. destruct (lookup_lt_is_Some_2 ds (length ds - 1)) as [d Hk]; [lia|]. exists d. split; [done|].
        apply (Hprev (length ds - 1)%nat); [rewrite <- Eds; lia|done].
      * intros d' Hd'. apply lookup_lt_Some in Hd'. lia.
  - cbn [head] in Hr. assert (Hrlt : (r < length ds)%nat) by by eapply lookup_lt_Some.
    assert (Hr1 : length ds1 = r) by lia. destruct (first_ok r d Hr) as (Ho1 & Ho2 & Hle).
    apply Forall_cons in Ha as [Hlast _].
    assert (Hnext : forall d', ds !! S r = Some d' -> id_before id (first_id d') = true).
    { intros d' Hd'. destruct (first_ok _ _ Hd') as (Hf' & _). apply (id_le_lt _ (last_id d)); [done..|].
      apply (first_increases r (S r)); [lia|done|done]. }
    destruct (compareDocIds (first_id d) id <=? 0) eqn:Ec.
    + split_and!; [done| |done]. right. exists d. split; [done|]. unfold id_le. destruct (id_before id (first_id d)) eqn:E; [|done].
      exfalso. rewrite <- compare_pos in E by done. lia.
    + assert (Hlt : id_before id (first_id d) = true) by (rewrite <- compare_pos by done; lia).
      destruct del; [|destruct (Nat.eqb_spec r 0)].
      * split; [|by left]. rewrite Hall. apply find_row_above; [done|]. apply (snapshot_after (d :: ds2)); [done|done|].
        destruct H2 as [_ Hs2]. apply sorted_by_cons in Hs2 as [Hs2 _]. constructor; [done|].
        apply Forall_forall. intros d' Hin. rewrite Forall_forall in Hs2. specialize (Hs2 d' Hin). unfold desc_before in Hs2.
        assert (exists k, ds !! k = Some d') as [k Hk].
        { apply list_elem_of_lookup. rewrite Eds. apply elem_of_app. right. by right. }
        destruct (first_ok k d' Hk) as (Hf' & _). apply (id_before_trans _ (first_id d)); [done..|].
        by apply (id_le_lt _ (last_id d)).
      * split_and!; [lia|by left|]. intros d' Hd'. apply Hnext. by rewrite e.
      * split_and!; [lia| |].
        -- right. destruct (lookup_lt_is_Some_2 ds (r - 1)) as [d0 Hk]; [lia|]. exists d0. split; [done|].
           apply (Hprev (r - 1)%nat); [lia|done].
        -- intros d' Hd'. replace (S (r - 1)) with r in Hd' by lia. congruence.
Qed.
End routing.

(** ** Updating the groups *)

Lemma rows_sorted_join (L : list (list jsval)) : (forall i l, L !! i = Some l -> rows_sorted l) ->
  (forall i j l k x y, (i < j)%nat -> L !! i = Some l -> L !! j = Some k -> x ∈ l -> y ∈ k ->
     id_before (doc_id x) (doc_id y) = true) -> rows_sorted (mjoin L).
Proof.
  induction L as [|l L IH]; intros Hs Ho; [by repeat constructor|]. rewrite mjoin_cons. apply rows_sorted_app. split_and!.
  - by apply (Hs 0%nat).
  - apply IH; [intros i; apply (Hs (S i))|]. intros i j a b x y Hij Hi Hj. apply (Ho (S i) (S j) a b x y); [lia|done|done].
  - intros x y Hx (k & Hy & Hk)%list_elem_of_join. apply list_elem_of_lookup in Hk as (j & Hj).
    apply (Ho 0%nat (S j) l k x y); (done || lia).
Qed.

(** Only one of the lists can hold the id. *)
Lemma find_row_join id j (L : list (list jsval)) l : L !! j = Some l ->
  (forall i k, i <> j -> L !! i = Some k -> find_row id k = None) -> find_row id (mjoin L) = find_row id l.
Proof.
  revert j. induction L as [|k L IH]; intros j Hj Hn; [done|]. rewrite mjoin_cons, find_row_app. destruct j as [|j].
  - injection Hj as ->. destruct (find_row id l); [done|]. clear IH.
    assert (forall i k, L !! i = Some k -> find_row id k = None) as Hall by (intros i k; apply (Hn (S i)); done).
    clear Hn. induction L as [|k L IH]; [done|]. rewrite mjoin_cons, find_row_app, (Hall 0%nat k) by done.
    apply IH. intros i; apply (Hall (S i)).
  - rewrite (Hn 0%nat k) by done. apply (IH j); [done|]. intros i k' Hi. apply (Hn (S i)). congruence.
Qed.

Lemma mutated_or_not id (l : list ReferenceMutation) :
  Forall (fun mu => mutation_id mu <> id) l \/ exists mu, mu ∈ l /\ mutation_id mu = id.
Proof.
  induction l as [|mu l IH]; [by left|]. destruct (decide (mutation_id mu = id)) as [E|E]; [right; exists mu; split; [by left|done]|].
  destruct IH as [IH|(mu' & Hin & Hid)]; [left; by constructor|right; exists mu'; split; [by right|done]].
Qed.

Section groups.
Context (ds : list SnapshotChunkDescriptor) (cs : list SnapshotChunk) (snapshot : snapshot_of ds cs).
Context (muts : list ReferenceMutation).
Context (muts_wf : Forall mutation_wf muts) (muts_nodup : NoDup (mutation_id <$> muts)).

Definition routes_to (i : nat) (mu : ReferenceMutation) : bool :=
  bool_decide (routeMutationToDescriptor (mutation_id mu) (is_delete mu) ds = Some i).

(** The mutations of a group, and its rows after them. *)
Definition muts_at (i : nat) : list ReferenceMutation := List.filter (routes_to i) muts.

Definition new_rows (i : nat) (c : SnapshotChunk) : list jsval :=
  sorted_docs (foldl apply_mutation (docs_of (chunk_docs c)) (muts_at i)).

Lemma muts_at_elem i mu : mu ∈ muts_at i <-> mu ∈ muts /\ routeMutationToDescriptor (mutation_id mu) (is_delete mu) ds = Some i.
Proof. unfold muts_at. rewrite list_elem_of_In, List.filter_In, <- list_elem_of_In. unfold routes_to. by rewrite bool_decide_eq_true. Qed.

Lemma chunk_sorted i c : cs !! i = Some c -> rows_sorted (chunk_docs c).
Proof. intros (d & _ & Hd)%(lookup_chunk ds cs snapshot). by destruct (described_rows _ _ Hd). Qed.

Lemma group_docs_wf i c : cs !! i = Some c -> docs_wf (foldl apply_mutation (docs_of (chunk_docs c)) (muts_at i)).
Proof.
  intros Hi. apply apply_mutations_wf; [by eapply docs_of_wf, chunk_sorted|]. apply Forall_forall. intros mu Hmu.
  apply muts_at_elem in Hmu as [Hmu _]. rewrite Forall_forall in muts_wf. by apply muts_wf.
Qed.

Lemma new_rows_sorted i c : cs !! i = Some c -> rows_sorted (new_rows i c).
Proof. intros Hi. by apply sorted_docs_sorted, group_docs_wf. Qed.

Lemma find_new_rows i c id : cs !! i = Some c -> find_row id (new_rows i c) =
  overlay (effect_of id (muts_at i)) (find_row id (chunk_docs c)).
Proof.
  intros Hi. unfold new_rows. rewrite find_sorted_docs by by apply group_docs_wf.
  by rewrite own_get_apply_all, own_get_docs_of.
Qed.

Lemma mutation_id_ok mu : mu ∈ muts -> id_ok (mutation_id mu).
Proof. intros Hmu. rewrite Forall_forall in muts_wf. by destruct (muts_wf mu Hmu). Qed.

Lemma muts_at_territory i mu : mu ∈ muts_at i -> territory ds i (mutation_id mu).
Proof.
  intros [Hmu Hr]%muts_at_elem. pose proof (route_spec ds cs snapshot (mutation_id mu) (is_delete mu) (mutation_id_ok mu Hmu)) as H.
  by rewrite Hr in H.
Qed.

Lemma new_rows_territory i c row : cs !! i = Some c -> row ∈ new_rows i c -> territory ds i (doc_id row).
Proof.
  intros Hi Hrow. pose proof (new_rows_sorted i c Hi) as Hs.
  assert (Hf : find_row (doc_id row) (new_rows i c) = Some row) by (apply find_row_elem; [by apply rows_sorted_nodup|done|done]).
  rewrite (find_new_rows i c) in Hf by done. destruct (mutated_or_not (doc_id row) (muts_at i)) as [Hn|(mu & Hin & <-)].
  - rewrite effect_of_none in Hf by done. cbn [overlay] in Hf. apply find_row_Some in Hf as [Hin _].
    by apply (chunk_territory ds cs snapshot i c row).
  - by apply muts_at_territory.
Qed.

Definition all_new_rows : list jsval := mjoin (imap new_rows cs).

Lemma imap_lookup_Some {A B} (f : nat -> A -> B) l i y : imap f l !! i = Some y -> exists x, l !! i = Some x /\ y = f i x.
Proof. rewrite list_lookup_imap. intros (x & Hx & ->)%fmap_Some. by exists x. Qed.

Lemma all_new_rows_sorted : rows_sorted all_new_rows.
Proof.
  apply rows_sorted_join.
  - intros i l (c & Hc & ->)%imap_lookup_Some. by apply new_rows_sorted.
  - intros i j l k x y Hij (c & Hc & ->)%imap_lookup_Some (c' & Hc' & ->)%imap_lookup_Some Hx Hy.
    apply (territory_order ds cs snapshot i j); try done; [| |by eapply new_rows_territory..].
    + destruct (new_rows_sorted i c Hc) as [Ho _]. rewrite Forall_forall in Ho. by apply Ho.
    + destruct (new_rows_sorted j c' Hc') as [Ho _]. rewrite Forall_forall in Ho. by apply Ho.
Qed.

(** Every id has a territory. *)
Lemma owner_exists id : ds <> [] -> id_ok id -> exists j c, territory ds j id /\ cs !! j = Some c.
Proof.
  intros Hne Hid. pose proof (route_spec ds cs snapshot id false Hid) as H.
  destruct (routeMutationToDescriptor id false ds) as [j|]; [|by destruct H as [_ [?|?]]]. exists j.
  destruct H as (Hlt & ?). destruct (lookup_lt_is_Some_2 ds j Hlt) as [d Hd].
  destruct (lookup_described ds cs snapshot j d Hd) as (c & Hc & _). by exists c.
Qed.

Lemma find_all_rows j c id : id_ok id -> territory ds j id -> cs !! j = Some c ->
  find_row id (chunk_rows cs) = find_row id (chunk_docs c).
Proof.
  intros Hid Ht Hc. unfold chunk_rows. apply (find_row_join id j); [by rewrite list_lookup_fmap, Hc|].
  intros i k Hij Hk. rewrite list_lookup_fmap in Hk. apply fmap_Some in Hk as (c' & Hc' & ->).
  destruct (find_row id (chunk_docs c')) as [row|] eqn:E; [|done]. exfalso. apply Hij. apply find_row_Some in E as [Hin E].
  apply (territory_unique ds cs snapshot i j id); [done| |done]. rewrite <- E. by apply (chunk_territory ds cs snapshot i c').
Qed.

Lemma find_all_new_rows j c id : id_ok id -> territory ds j id -> cs !! j = Some c ->
  find_row id all_new_rows = find_row id (new_rows j c).
Proof.
  intros Hid Ht Hc. apply (find_row_join id j); [by rewrite list_lookup_imap, Hc|].
  intros i k Hij (c' & Hc' & ->)%imap_lookup_Some.
  destruct (find_row id (new_rows i c')) as [row|] eqn:E; [|done]. exfalso. apply Hij. apply find_row_Some in E as [Hin E].
  apply (territory_unique ds cs snapshot i j id); [done| |done]. rewrite <- E. by apply (new_rows_territory i c').
Qed.

(** The groups' rows, in order, are the reference's. *)
Lemma new_rows_reference : ds <> [] -> all_new_rows = sorted_docs (foldl apply_mutation (docs_of (chunk_rows cs)) muts).
Proof.
  intros Hne. pose proof (snapshot_rows_sorted ds cs snapshot) as Hall.
  assert (Hwf : docs_wf (foldl apply_mutation (docs_of (chunk_rows cs)) muts)).
  { apply apply_mutations_wf; [by apply docs_of_wf|done]. }
  apply rows_unique; [apply all_new_rows_sorted|by apply sorted_docs_sorted|]. intros id Hid.
  rewrite find_sorted_docs, own_get_apply_all, own_get_docs_of by done.
  destruct (owner_exists id Hne Hid) as (j & c & Ht & Hc).
  rewrite (find_all_rows j c), (find_all_new_rows j c), (find_new_rows j c) by done.
  destruct (mutated_or_not id (muts_at j)) as [Hn|(mu & Hin & <-)].
  - rewrite (effect_of_none id (muts_at j)) by done. cbn [overlay].
    destruct (mutated_or_not id muts) as [H|(mu & Hmu & E)]; [by rewrite effect_of_none|].
    rewrite (effect_of_elem id muts muts_nodup mu) by done.
    pose proof (route_spec ds cs snapshot id (is_delete mu) Hid) as Hr.
    destruct (routeMutationToDescriptor id (is_delete mu) ds) as [i|] eqn:Er.
    + exfalso. assert (i = j) as -> by by apply (territory_unique ds cs snapshot i j id).
      rewrite Forall_forall in Hn. apply (Hn mu); [|done]. apply muts_at_elem. by rewrite E.
    + destruct Hr as [Hr [Hd| ?]]; [|done]. destruct mu; [done|]. cbn [effect overlay].
      by rewrite <- (find_all_rows j c id).
  - apply muts_at_elem in Hin as [Hin Hr]. rewrite (effect_of_elem _ muts muts_nodup mu) by done.
    unfold muts_at. rewrite effect_of_filter; [by rewrite (effect_of_elem _ muts muts_nodup mu)|].
    intros mu' Hmu' Hid'. unfold routes_to. apply bool_decide_eq_true.
    assert (mu' = mu) as ->; [|done].
    { apply list_elem_of_lookup in Hin as (a & Ha). apply list_elem_of_lookup in Hmu' as (b & Hb).
      assert (a = b) as ->; [|congruence]. eapply (NoDup_lookup (mutation_id <$> muts)); [done|by rewrite list_lookup_fmap, Ha|].
      rewrite list_lookup_fmap, Hb. cbn. by rewrite Hid'. }
Qed.
End groups.

(** ** The outcomes of the groups *)

Lemma nget_cons {A} i j (x : A) l : nget i ((j, x) :: l) = if decide (j = i) then Some x else nget i l.
Proof. unfold nget. cbn [List.find fst]. destruct (Nat.eqb_spec j i); by case_decide. Qed.

Lemma nget_push i j mu groups : nget i (push_group j mu groups) =
  if decide (j = i) then Some (default [] (nget i groups) ++ [mu]) else nget i groups.
Proof.
  induction groups as [|[k l] groups IH]; cbn [push_group].
  { rewrite nget_cons. by case_decide. }
  destruct (Nat.eqb_spec k j) as [->|Hkj]; rewrite !nget_cons; [by case_decide|]. rewrite IH. repeat case_decide; subst; done.
Qed.

Lemma group_mutations_get ds i muts : forall groups,
  nget i (foldl (fun groups p => match routeMutationToDescriptor p.1 (is_delete p.2) ds with
                                 | Some i => push_group i p.2 groups | None => groups end) groups muts) =
  match (fun p : jsstr * ReferenceMutation => p.2) <$> List.filter (fun p => bool_decide (routeMutationToDescriptor p.1 (is_delete p.2) ds = Some i)) muts with
  | [] => nget i groups
  | l => Some (default [] (nget i groups) ++ l)
  end.
Proof.
  induction muts as [|p muts IH]; intros groups; [done|]. cbn [foldl List.filter]. rewrite IH.
  destruct (routeMutationToDescriptor p.1 (is_delete p.2) ds) as [j|]; [|by rewrite bool_decide_eq_false_2].
  rewrite nget_push. destruct (decide (j = i)) as [->|Hne].
  - rewrite bool_decide_eq_true_2 by done. cbn [default from_option id]. rewrite fmap_cons.
    destruct (_ <$> List.filter _ muts); [done|]. by rewrite <- app_assoc.
  - rewrite bool_decide_eq_false_2 by congruence. done.
Qed.

(** Mutations filed under their own ids. *)
Definition filed (mutations : list (jsstr * ReferenceMutation)) : Prop :=
  Forall (fun p => p.1 = mutation_id p.2) mutations.

Lemma filed_filter ds i mutations : filed mutations ->
  (fun p : jsstr * ReferenceMutation => p.2) <$> List.filter (fun p => bool_decide (routeMutationToDescriptor p.1 (is_delete p.2) ds = Some i)) mutations =
  muts_at ds mutations.*2 i.
Proof.
  induction 1 as [|[k mu] l E _ IH]; [done|]. cbn [fst snd] in E. subst k. unfold muts_at in *. rewrite fmap_cons. cbn [List.filter fst snd].
  unfold routes_to at 1. destruct (bool_decide _); [|done]. by rewrite fmap_cons, IH.
Qed.

Lemma nget_group_mutations ds i mutations : filed mutations ->
  nget i (group_mutations ds mutations) = match muts_at ds mutations.*2 i with [] => None | l => Some l end.
Proof.
  intros Hf. unfold group_mutations. rewrite group_mutations_get, filed_filter by done. by destruct (muts_at _ _ _).
Qed.

Lemma nget_Forall2 {A B} (R : nat * A -> nat * B -> Prop) l k : Forall2 R l k -> (forall x y, R x y -> y.1 = x.1) ->
  forall i, match nget i l, nget i k with
            | Some a, Some b => R (i, a) (i, b)
            | None, None => True
            | _, _ => False
            end.
Proof.
  intros H HR i. induction H as [|[j a] [j' b] l k Hab _ IH]; [done|]. pose proof (HR _ _ Hab) as E. cbn in E. subst j'.
  rewrite !nget_cons. by case_decide; subst.
Qed.

(** Documents whose encodings are the same are the same. *)
Lemma same_bytes_true l : forall k, Forall (fun d => json_ok d = true) l -> Forall (fun d => json_ok d = true) k ->
  length l = length k -> same_bytes l k = inr true -> l = k.
Proof.
  induction l as [|x l IH]; intros [|y k] Hl Hk Hlen; cbn [same_bytes length] in *; try done.
  apply Forall_cons in Hl as [Hx Hl]. apply Forall_cons in Hk as [Hy Hk]. rewrite !encode_ok by done.
  destruct (bool_decide_reflect (JsonText x = JsonText y)) as [E|]; [|done]. injection E as ->. intros H. f_equal. by apply IH; [..|lia|].
Qed.

Lemma load_docs_of docs : NoDup (doc_id <$> docs) -> load_docs docs = docs_of docs.
Proof.
  intros Hn. unfold load_docs. assert (H : forall acc, NoDup (own_keys acc ++ (doc_id <$> docs)) ->
    foldl (fun docMap d => str_set (doc_id d) d docMap) acc docs = acc ++ docs_of docs).
  { clear Hn. induction docs as [|d docs IH]; intros acc Hn; [by rewrite app_nil_r|]. rewrite fmap_cons in Hn. cbn [foldl].
    rewrite str_set_new.
    - rewrite IH; [unfold docs_of; by rewrite fmap_cons, <- app_assoc|]. unfold own_keys in *. rewrite fmap_app. by rewrite <- app_assoc.
    - apply own_get_None. intros Hin. apply NoDup_app in Hn as (_ & Hd & _). apply (Hd _ Hin). by left. }
  by apply (H []).
Qed.

(** A property of every row and post-image is one of every row after the mutations. *)
Lemma apply_Forall (P : jsval -> Prop) (m : list (jsstr * jsval)) l : Forall (fun kv => P kv.2) m ->
  Forall (fun mu => match mu with MWrite _ _ after => P after | MDelete _ => True end) l ->
  Forall (fun kv => P kv.2) (foldl apply_mutation m l).
Proof.
  revert m. induction l as [|mu l IH]; intros m Hm Hl; [done|]. apply Forall_cons in Hl as [Hmu Hl]. cbn [foldl].
  apply IH; [|done]. destruct mu; cbn [apply_mutation]; [by apply str_set_Forall|by apply own_delete_Forall].
Qed.

Lemma sorted_docs_Forall (P : jsval -> Prop) rows l : Forall P rows ->
  Forall (fun mu => match mu with MWrite _ _ after => P after | MDelete _ => True end) l ->
  Forall P (sorted_docs (foldl apply_mutation (docs_of rows) l)).
Proof.
  intros Hr Hl. unfold sorted_docs. rewrite (sort_by_perm row_before _). apply Forall_fmap.
  apply (apply_Forall P (docs_of rows)); [|done]. apply Forall_fmap. eapply Forall_impl; [exact Hr|]. done.
Qed.

Section outcomes.
Context (byteLength : bytes -> Z).
Context (i : BuildSnapshotChunksInput) (cs : list SnapshotChunk).
Let ds := in_descriptors i.
Let muts := (in_mutations i).*2.
Context (snapshot : snapshot_of ds cs).
Context (muts_filed : filed (in_mutations i)).
Context (muts_json : Forall (fun mu => match mu with MWrite _ _ after => json_ok after = true | MDelete _ => True end) muts).
(** Loaded chunks hold their descriptors' documents. *)
Context (loaded : forall j d c, ds !! j = Some d -> cs !! j = Some c ->
  forall docs, own_get (descriptor_key d) (in_loadedChunks i) = Some docs -> docs = chunk_docs c).

Abbreviation ok_item := (item_ok byteLength (in_collection i) (in_incarnation i)).

(** The rows a group's outcome stands for. *)
Definition outcome_rows (o : option group_outcome) (c : SnapshotChunk) : list jsval :=
  match o with
  | None | Some Unchanged => chunk_docs c
  | Some (Rewritten items) => mjoin (item_docs <$> items)
  end.

Definition items_of (o : option group_outcome) : list SplitChunkItem :=
  match o with Some (Rewritten items) => items | _ => [] end.

Lemma chunk_json_docs j c : cs !! j = Some c -> Forall (fun d => json_ok d = true) (chunk_docs c).
Proof.
  intros (d & _ & Hd)%(lookup_chunk ds cs snapshot). destruct Hd as ([_ Hd _ _] & _).
  eapply Forall_impl; [exact Hd|]. by intros ? [_ ?].
Qed.

Lemma new_rows_json j c : cs !! j = Some c -> Forall (fun d => json_ok d = true) (new_rows ds muts j c).
Proof.
  intros Hj. apply sorted_docs_Forall; [by eapply chunk_json_docs|].
  apply Forall_forall. intros mu [Hmu _]%muts_at_elem. rewrite Forall_forall in muts_json. by apply muts_json.
Qed.

Lemma new_rows_untouched j c : cs !! j = Some c -> muts_at ds muts j = [] -> new_rows ds muts j c = chunk_docs c.
Proof. intros Hj E. unfold new_rows. rewrite E. cbn [foldl]. by eapply sorted_docs_of, chunk_sorted. Qed.

(** Rebuilding a group gives its new rows. *)
Lemma rebuild_group_rows j d c o : ds !! j = Some d -> cs !! j = Some c ->
  rebuild_group byteLength (in_collection i) (in_incarnation i) (in_policy i) (in_loadedChunks i) d (muts_at ds muts j) = inr o ->
  outcome_rows (Some o) c = new_rows ds muts j c /\ Forall ok_item (items_of (Some o)).
Proof.
  intros Hd Hc. unfold rebuild_group, getLoadedDocs. destruct (own_get (descriptor_key d) (in_loadedChunks i)) as [docs|] eqn:El; [|done].
  apply (loaded j d c Hd Hc) in El as ->. cbn [rbind]. pose proof (chunk_sorted ds cs snapshot j c Hc) as Hs.
  rewrite load_docs_of by by apply rows_sorted_nodup. fold (new_rows ds muts j c).
  unfold areDocListsEqual. destruct (Nat.eqb_spec (length (chunk_docs c)) (length (new_rows ds muts j c))) as [Hlen|Hlen]; cbn [negb].
  - destruct (same_bytes _ _) as [e|[]] eqn:Es; cbn [rbind]; [done| |].
    + intros [= <-]. split; [|constructor]. cbn [outcome_rows]. apply same_bytes_true; [by eapply chunk_json_docs|by apply new_rows_json|done|done].
    + destruct (Nat.eqb_spec (length (new_rows ds muts j c)) 0) as [E|E].
      * intros [= <-]. cbn [outcome_rows items_of]. by apply nil_length_inv in E as ->.
      * destruct (splitGroupDocsGreedily _ _ _ _ _) as [e|items] eqn:Esp; cbn [rbind]; [done|]. intros [= <-].
        apply split_spec in Esp as (H1 & H2 & _). done.
  - cbn [rbind]. destruct (Nat.eqb_spec (length (new_rows ds muts j c)) 0) as [E|E].
    + intros [= <-]. cbn [outcome_rows items_of]. by apply nil_length_inv in E as ->.
    + destruct (splitGroupDocsGreedily _ _ _ _ _) as [e|items] eqn:Esp; cbn [rbind]; [done|]. intros [= <-].
      apply split_spec in Esp as (H1 & H2 & _). done.
Qed.

(** Every descriptor's rows after the groups were rebuilt. *)
Lemma outcomes_rows outcomes : collect (evaluate_group byteLength i <$> group_mutations ds (in_mutations i)) = inr outcomes ->
  forall j c, cs !! j = Some c ->
    outcome_rows (nget j outcomes) c = new_rows ds muts j c /\ Forall ok_item (items_of (nget j outcomes)).
Proof.
  intros Ho%collect_Forall2 j c Hc. destruct (lookup_chunk ds cs snapshot j c Hc) as (d & Hd & _).
  pose proof (nget_Forall2 _ _ _ Ho) as Hget.
  assert (Hkeys : forall x y, evaluate_group byteLength i x = inr y -> y.1 = x.1).
  { intros x y. unfold evaluate_group. destruct (in_descriptors i !! x.1) as [d'|]; [|done].
    destruct (rebuild_group _ _ _ _ _ d' _); [done|]. by intros [= <-]. }
  specialize (Hget Hkeys j). rewrite nget_group_mutations in Hget by done. fold muts in Hget.
  destruct (muts_at ds muts j) as [|mu l] eqn:Em.
  - destruct (nget j outcomes); [done|]. cbn [outcome_rows items_of]. by rewrite (new_rows_untouched j c).
  - destruct (nget j outcomes) as [o|]; [|done]. unfold evaluate_group in Hget. cbn [fst snd] in Hget. fold ds in Hget.
    rewrite Hd in Hget. rewrite <- Em in Hget. destruct (rebuild_group _ _ _ _ _ _ _) as [e|o'] eqn:Er; [done|].
    cbn [rbind] in Hget. injection Hget as ->. by apply (rebuild_group_rows j d c o).
Qed.
End outcomes.

(** ** Slots *)

Lemma mjoin_imap_move {A B} (f g : nat -> A -> list B) (cs : list A) : forall o c1 c2,
  (forall i c, i <> o -> i <> S o -> f i c = g i c) -> cs !! o = Some c1 -> cs !! S o = Some c2 ->
  f o c1 ++ f (S o) c2 = g o c1 ++ g (S o) c2 -> mjoin (imap f cs) = mjoin (imap g cs).
Proof.
  revert f g. induction cs as [|c cs IH]; intros f g o c1 c2 Hfg H1 H2 H; [done|]. rewrite !imap_cons, !mjoin_cons. destruct o as [|o].
  - injection H1 as ->. destruct cs as [|c cs]; [done|]. injection H2 as ->. rewrite !imap_cons, !mjoin_cons, !app_assoc. cbn [compose].
    rewrite H. f_equal. f_equal. apply imap_ext. intros i x _. cbn [compose]. apply Hfg; lia.
  - rewrite Hfg by lia. f_equal. apply (IH (f ∘ S) (g ∘ S) o c1 c2); try done. intros i x ??. cbn [compose]. apply Hfg; lia.
Qed.

Lemma layout_holds {A B C D} (P : C -> list D -> Prop) (f : nat -> A -> list C) (g : nat -> B -> list D) l k :
  length l = length k ->
  (forall i a b, l !! i = Some a -> k !! i = Some b -> exists rss, Forall2 P (f i a) rss /\ mjoin rss = g i b) ->
  exists rss, Forall2 P (mjoin (imap f l)) rss /\ mjoin rss = mjoin (imap g k).
Proof.
  revert f g k. induction l as [|a l IH]; intros f g [|b k] Hlen H; try done; [by exists []|]. rewrite !imap_cons, !mjoin_cons.
  destruct (H 0%nat a b) as (rss & H1 & H2); [done..|].
  destruct (IH (f ∘ S) (g ∘ S) k) as (rss' & H3 & H4); [by injection Hlen|intros i; apply (H (S i))|].
  exists (rss ++ rss'). split; [by apply Forall2_app|]. by rewrite join_app, H2, H4.
Qed.

Lemma mjoin_insert_last {A B} (f : A -> list B) l x y tail : last l = Some x -> f y = f x ++ tail ->
  mjoin (f <$> <[(length l - 1)%nat := y]> l) = mjoin (f <$> l) ++ tail.
Proof.
  intros (l' & ->)%last_Some Hy. rewrite length_app. replace (length l' + _ - 1)%nat with (length l') by (cbn [length]; lia).
  rewrite insert_app_r_alt, Nat.sub_diag by lia. rewrite !fmap_app, !join_app, <- app_assoc. f_equal. cbn. rewrite Hy, !app_nil_r. done.
Qed.

Lemma mjoin_insert_head {A B} (f : A -> list B) l x y front : head l = Some x -> f y = front ++ f x ->
  mjoin (f <$> <[0%nat := y]> l) = front ++ mjoin (f <$> l).
Proof. intros Hx Hy. destruct l as [|x' l]; [done|]. injection Hx as ->. cbn. by rewrite Hy, app_assoc. Qed.

Section merge.
Context (byteLength : bytes -> Z) (collection incarnation : jsstr) (policy : SnapshotChunkBoundaryPolicy).
Context (ds : list SnapshotChunkDescriptor) (cs : list SnapshotChunk) (loadedChunks : list (jsstr * list jsval)).
Context (loaded : forall j d c, ds !! j = Some d -> cs !! j = Some c ->
  forall docs, own_get (descriptor_key d) loadedChunks = Some docs -> docs = chunk_docs c).

(** The rows of one descriptor's slots. *)
Definition slot_rows (outcomes : list (nat * group_outcome)) (used : option nat) (j : nat) (c : SnapshotChunk) : list jsval :=
  if bool_decide (used = Some j) then [] else outcome_rows (nget j outcomes) c.

(** Moving the neighbour's rows into the owner's outputs keeps the concatenation. *)
Lemma merged_slots outcomes owner neighbor olds items oc nc :
  nget owner outcomes = Some (Rewritten olds) -> nget neighbor outcomes = None ->
  cs !! owner = Some oc -> cs !! neighbor = Some nc ->
  (neighbor = S owner /\ mjoin (item_docs <$> items) = mjoin (item_docs <$> olds) ++ chunk_docs nc) \/
  (owner = S neighbor /\ mjoin (item_docs <$> items) = chunk_docs nc ++ mjoin (item_docs <$> olds)) ->
  mjoin (imap (slot_rows ((owner, Rewritten items) :: outcomes) (Some neighbor)) cs) = mjoin (imap (slot_rows outcomes None) cs).
Proof.
  intros Eo En Hoc Hnc Hcase.
  assert (Hother : forall j c, j <> owner -> j <> neighbor ->
    slot_rows ((owner, Rewritten items) :: outcomes) (Some neighbor) j c = slot_rows outcomes None j c).
  { intros j c H1 H2. unfold slot_rows. rewrite !bool_decide_eq_false_2 by congruence. by rewrite nget_cons, decide_False. }
  assert (Hne : owner <> neighbor) by (destruct Hcase as [[-> _]|[-> _]]; lia).
  assert (Hn : slot_rows ((owner, Rewritten items) :: outcomes) (Some neighbor) neighbor nc = []).
  { unfold slot_rows. by rewrite bool_decide_eq_true_2. }
  assert (Ho : slot_rows ((owner, Rewritten items) :: outcomes) (Some neighbor) owner oc = mjoin (item_docs <$> items)).
  { unfold slot_rows. rewrite bool_decide_eq_false_2 by congruence. by rewrite nget_cons, decide_True. }
  assert (Hold : slot_rows outcomes None owner oc = mjoin (item_docs <$> olds) /\ slot_rows outcomes None neighbor nc = chunk_docs nc).
  { unfold slot_rows. rewrite !bool_decide_eq_false_2 by done. by rewrite Eo, En. }
  destruct Hold as [Hold1 Hold2]. destruct Hcase as [[-> Hitems]|[-> Hitems]].
  - apply (mjoin_imap_move _ _ cs owner oc nc); [intros; by apply Hother|done|done|]. by rewrite Hn, Ho, Hold1, Hold2, app_nil_r.
  - apply (mjoin_imap_move _ _ cs neighbor nc oc); [intros; by apply Hother|done|done|]. by rewrite Hn, Ho, Hold1, Hold2.
Qed.

Lemma loaded_docs j d c docs : ds !! j = Some d -> cs !! j = Some c -> getLoadedDocs loadedChunks d = inr docs -> docs = chunk_docs c.
Proof.
  intros Hd Hc. unfold getLoadedDocs. destruct (own_get (descriptor_key d) loadedChunks) as [docs'|] eqn:El; [|done].
  intros [= <-]. by apply (loaded j d c).
Qed.

Lemma insert_item_ok index item combined b items : Forall (item_ok byteLength collection incarnation) items ->
  items !! index = Some item -> (item_docs item <> [] -> combined <> []) ->
  encoding_result (encodeBuilderChunk byteLength (candidate_chunk collection incarnation combined)) = inr b ->
  Forall (item_ok byteLength collection incarnation) (<[index := Item combined b]> items).
Proof.
  intros Hok Hi Hne He. assert (Hitem : item_docs item <> []).
  { rewrite Forall_forall in Hok. apply (Hok item). by eapply list_elem_of_lookup_2. }
  apply Forall_insert; [done|]. split; [|by apply Hne]. cbn [item_docs item_bytes].
  destruct (encodeBuilderChunk _ _); cbn in He; congruence.
Qed.

Lemma merge_rows outcomes owner neighbor items : length ds = length cs ->
  Forall (item_ok byteLength collection incarnation) (items_of (nget owner outcomes)) ->
  applyFacingMerge byteLength collection incarnation policy ds loadedChunks outcomes owner neighbor = inr (Some items) ->
  Forall (item_ok byteLength collection incarnation) items /\
  mjoin (imap (slot_rows ((owner, Rewritten items) :: outcomes) (Some neighbor)) cs) = mjoin (imap (slot_rows outcomes None) cs).
Proof.
  intros Hlen Hok. unfold applyFacingMerge. destruct (nget owner outcomes) as [[|olds]|] eqn:Eo; [done| |done]. cbn [items_of] in Hok.
  destruct (ds !! owner) as [od|] eqn:Ed; [|done]. destruct (ds !! neighbor) as [nd|] eqn:En; [|done].
  destruct (nget neighbor outcomes) eqn:Ennone; [done|].
  destruct (lookup_lt_is_Some_2 cs owner) as [oc Hoc]; [apply lookup_lt_Some in Ed; lia|].
  destruct (lookup_lt_is_Some_2 cs neighbor) as [nc Hnc]; [apply lookup_lt_Some in En; lia|].
  destruct (Nat.eqb_spec neighbor (owner + 1)) as [Hn|Hn]; [|destruct (Nat.eqb_spec (neighbor + 1) owner) as [Hn'|]; cbn [andb]; [|done];
    destruct (owner =? length ds - 1)%nat; [|done]].
  - destruct (olds !! (length olds - 1)%nat) as [facing|] eqn:Ef; [|done]. destruct (negb _); [done|].
    destruct (getLoadedDocs loadedChunks nd) as [|docs] eqn:El; [done|]. apply (loaded_docs neighbor nd nc) in El as ->; [|done..]. cbn [rbind].
    destruct (encoding_result _) as [e|b] eqn:Eb; cbn [rbind]; [done|]. destruct (_ || _); [done|]. intros [= <-].
    split; [apply (insert_item_ok _ facing); [done|done|by destruct (item_docs facing)|done]|].
    apply (merged_slots _ _ _ olds _ oc nc); [done..|left]. split; [lia|]. apply (mjoin_insert_last _ _ facing); [|done].
    rewrite last_lookup. by replace (pred (length olds)) with (length olds - 1)%nat by lia.
  - destruct (olds !! 0%nat) as [facing|] eqn:Ef; [|done]. destruct (negb _); [done|].
    destruct (getLoadedDocs loadedChunks nd) as [|docs] eqn:El; [done|]. apply (loaded_docs neighbor nd nc) in El as ->; [|done..]. cbn [rbind].
    destruct (encoding_result _) as [e|b] eqn:Eb; cbn [rbind]; [done|]. destruct (_ || _); [done|]. intros [= <-].
    split; [apply (insert_item_ok _ facing); [done|done|by destruct (chunk_docs nc), (item_docs facing)|done]|].
    apply (merged_slots _ _ _ olds _ oc nc); [done..|right]. split; [lia|]. by apply (mjoin_insert_head _ _ facing); [rewrite head_lookup|].
Qed.
End merge.

(** ** Evaluation and minting *)

Lemma check_mutations_spec mutations : check_mutations mutations = None ->
  filed mutations /\ Forall (fun mu => assertSnapshotDocId (mutation_id mu) = None /\
    match mu with MWrite _ id after => doc_id after = id | MDelete _ => True end) mutations.*2.
Proof.
  induction mutations as [|[k mu] l IH]; cbn [check_mutations]; [by repeat constructor|].
  destruct (assertSnapshotDocId k) eqn:Ek; [done|]. destruct (bool_decide_reflect (k = mutation_id mu)) as [E|]; [|done]. cbn [negb].
  subst k. destruct mu as [op id after|id]; cbn [mutation_id] in *.
  - unfold assertPostImageIdentity. destruct after as [| | | | | |o|]; try done.
    destruct (own_get (js "_id") o) as [[| | | |i| | |]|] eqn:E; try done.
    destruct (bool_decide_reflect (i = id)) as [->|]; [|done]. intros H. destruct (IH H) as [H1 H2].
    split; [by constructor|]. rewrite fmap_cons. constructor; [|done]. cbn [snd mutation_id]. split; [done|]. cbn [doc_id]. by rewrite E.
  - intros H. destruct (IH H) as [H1 H2]. split; [by constructor|]. rewrite fmap_cons. by constructor.
Qed.

Section evaluation.
Context (byteLength : bytes -> Z) (sha256 : bytes -> list N).
Context (i : BuildSnapshotChunksInput) (cs : list SnapshotChunk).
Let ds := in_descriptors i.
Let muts := (in_mutations i).*2.

(** What the callers guarantee: descriptors with their chunks, loaded documents that are
    those of the chunks, a map of mutations whose post-images are JSON. *)
Record input_ok : Prop := {
  input_snapshot : snapshot_of ds cs;
  input_loaded : forall j d c, ds !! j = Some d -> cs !! j = Some c ->
    forall docs, own_get (descriptor_key d) (in_loadedChunks i) = Some docs -> docs = chunk_docs c;
  input_keys : NoDup (own_keys (in_mutations i));
  input_units : Forall (fun mu => units_ok (mutation_id mu)) muts;
  input_json : Forall (fun mu => match mu with MWrite _ _ after => json_ok after = true | MDelete _ => True end) muts
}.

Context (input : input_ok).

Abbreviation ok_item := (item_ok byteLength (in_collection i) (in_incarnation i)).

(** A slot and the rows it holds. *)
Definition slot_holds (s : slot) (rows : list jsval) : Prop :=
  match s with
  | Kept d => exists j c, ds !! j = Some d /\ cs !! j = Some c /\ rows = chunk_docs c
  | Fresh item => ok_item item /\ rows = item_docs item
  end.

Lemma fresh_holds items : Forall ok_item items -> Forall2 slot_holds (Fresh <$> items) (item_docs <$> items).
Proof. induction 1 as [|item items Hi _ IH]; [constructor|]. rewrite !fmap_cons. by constructor. Qed.

Lemma slots_hold outcomes used j d c : ds !! j = Some d -> cs !! j = Some c -> Forall ok_item (items_of (nget j outcomes)) ->
  exists rss, Forall2 slot_holds (slots_of outcomes used j d) rss /\ mjoin rss = slot_rows outcomes used j c.
Proof.
  intros Hd Hc Hok. unfold slots_of, slot_rows. destruct (bool_decide (used = Some j)); [by exists []|].
  destruct (nget j outcomes) as [[|items]|]; cbn [outcome_rows items_of] in *.
  2: exists (item_docs <$> items); split; [by apply fresh_holds|done].
  all: exists [chunk_docs c]; split; [|apply app_nil_r]; repeat constructor; by exists j, c.
Qed.

Lemma muts_checked : check_input i = None -> Forall mutation_wf muts /\ filed (in_mutations i) /\ NoDup (mutation_id <$> muts).
Proof.
  unfold check_input. destruct (bool_decide _); [done|]. destruct (_ || _); [done|]. destruct (negb _); [done|].
  intros [Hf Hm]%check_mutations_spec. fold muts in Hm. split_and!; [|done|].
  - pose proof (input_units input) as Hu. apply Forall_forall. intros mu Hmu. rewrite Forall_forall in Hm, Hu. destruct (Hm mu Hmu) as [? ?].
    split; [split; [by apply Hu|done]|done].
  - pose proof (input_keys input) as Hk. unfold own_keys, muts in *. clear -Hk Hf.
    assert (mutation_id <$> (in_mutations i).*2 = (in_mutations i).*1) as ->; [|done].
    induction Hf as [|[k mu] l E _ IH]; [done|]. rewrite !fmap_cons in *. cbn in E |- *. subst k. f_equal. apply IH.
    by apply NoDup_cons in Hk as [_ Hk].
Qed.

(** The evaluated layout holds the reference's rows. *)
Lemma evaluate_rows e : evaluateSnapshotChunks byteLength i = inr e ->
  exists rss, Forall2 slot_holds (layout e) rss /\
    mjoin rss = sorted_docs (foldl apply_mutation (docs_of (chunk_rows cs)) muts).
Proof.
  unfold evaluateSnapshotChunks. destruct (check_input i) eqn:Eck; [done|].
  destruct (muts_checked Eck) as (Hmwf & Hfiled & Hnd). pose proof (input_snapshot input) as Hsnap. fold ds.
  destruct (Nat.eqb_spec (length ds) 0) as [El|El].
  - apply nil_length_inv in El. destruct Hsnap as [Hs _]. rewrite El in Hs. apply Forall2_nil_inv_l in Hs as Ec. rewrite Ec.
    unfold evaluateInitialEmptyChunks. fold muts. change (docs_of (chunk_rows [])) with ([] : list (jsstr * jsval)).
    set (rows := sorted_docs (foldl apply_mutation [] muts)). destruct (Nat.eqb_spec (length rows) 0) as [E|E].
    + intros [= <-]. exists []. split; [constructor|]. by apply nil_length_inv in E as ->.
    + destruct (splitGroupDocsGreedily _ _ _ _ _) as [er|items] eqn:Es; [done|]. intros [= <-]. cbn [layout].
      apply split_spec in Es as (H1 & H2 & _). exists (item_docs <$> items). split; [by apply fresh_holds|done].
  - assert (Hne : ds <> []) by by destruct ds.
    destruct (collect _) as [er|outcomes] eqn:Ec; [done|]. cbn [rbind].
    pose proof (outcomes_rows byteLength i cs Hsnap Hfiled (input_json input) (input_loaded input) outcomes Ec) as Ho.
    assert (Hlen : length ds = length cs) by by eapply Forall2_length, (proj1 Hsnap).
    assert (Hbase : mjoin (imap (slot_rows outcomes None) cs) = sorted_docs (foldl apply_mutation (docs_of (chunk_rows cs)) muts)).
    { rewrite <- (new_rows_reference ds cs Hsnap muts Hmwf Hnd Hne). unfold all_new_rows. f_equal. apply imap_ext.
      intros j c Hj. unfold slot_rows. rewrite bool_decide_eq_false_2 by done. by apply Ho. }
    assert (Hlay : forall outcomes' used, (forall j, Forall ok_item (items_of (nget j outcomes'))) ->
      exists rss, Forall2 slot_holds (mjoin (imap (slots_of outcomes' used) ds)) rss /\ mjoin rss = mjoin (imap (slot_rows outcomes' used) cs)).
    { intros outcomes' used Hok'. apply layout_holds; [done|]. intros j d c Hd Hc. by apply slots_hold. }
    assert (Hok : forall j, Forall ok_item (items_of (nget j outcomes))).
    { intros j. destruct (cs !! j) as [c|] eqn:Ecj; [by apply (Ho j c)|].
      apply collect_Forall2 in Ec. assert (nget j outcomes = None) as ->; [|constructor].
      pose proof (nget_Forall2 _ _ _ Ec) as Hget.
      assert (Hkeys : forall x y, evaluate_group byteLength i x = inr y -> y.1 = x.1 /\ (x.1 < length ds)%nat).
      { intros x y. unfold evaluate_group. fold ds. destruct (ds !! x.1) as [d'|] eqn:Ed; [|done].
        destruct (rebuild_group _ _ _ _ _ d' _); [done|]. intros [= <-]. split; [done|]. by eapply lookup_lt_Some. }
      specialize (Hget (fun x y H => proj1 (Hkeys x y H)) j).
      destruct (nget j outcomes) as [o|]; [|done]. destruct (nget j (group_mutations _ _)) as [l|]; [|done].
      apply Hkeys in Hget as [_ Hget]. cbn [fst] in Hget. apply lookup_ge_None in Ecj. lia. }
    destruct (in_lockedDirectOwnerIndex i) as [owner|]; [destruct (in_selectedNeighborIndex i) as [neighbor|]|].
    2,3: cbn [rbind fst snd]; intros [= <-]; cbn [layout]; rewrite <- Hbase; by apply Hlay.
    destruct (applyFacingMerge _ _ _ _ _ _ _ _ _) as [er|[items|]] eqn:Em; cbn [rbind fst snd]; [done| |].
    2: intros [= <-]; cbn [layout]; rewrite <- Hbase; by apply Hlay.
    intros [= <-]. cbn [layout]. destruct (merge_rows _ _ _ _ ds cs _ (input_loaded input) _ _ _ _ Hlen (Hok owner) Em) as [Hitems Hrows].
    rewrite <- Hbase, <- Hrows. apply Hlay. intros j. rewrite nget_cons. case_decide; [done|apply Hok].
Qed.

(** A minted output decodes to its documents in canonical form. *)
Lemma mint_item item d b : (forall b, 0 < byteLength b) -> one_line (in_collectionPrefix i) ->
  ok_item item -> Forall (fun v => json_ok v = true /\ units_ok (doc_id v)) (item_docs item) ->
  appendChunkOutput byteLength sha256 (in_collectionPrefix i) (in_incarnation i) item = inr (d, b) ->
  exists c, described d c /\ decodeSnapshotChunk byteLength sha256 b (descriptor_key d) (in_collection i) d = inr c /\
    mapM canonicalizeDocument (item_docs item) = Some (chunk_docs c).
Proof.
  intros Hpos Hp [He Hne] Hv. apply Forall_and in Hv as [Hj Hu]. unfold appendChunkOutput.
  destruct (snapshotChunkKey _ _ _) as [er|key] eqn:Ek; [done|]. cbn [rbind]. intros [= <- <-].
  destruct (encodeSnapshotChunk_spec byteLength (candidate_chunk (in_collection i) (in_incarnation i) (item_docs item)) _ Hj He) as (docs & Hdocs & Hwf & Eb & Hlen). cbn [candidate_chunk chunk_docs chunk_collection
    chunk_incarnation chunk_first_id chunk_last_id] in *.
  set (c := Chunk _ _ _ _ docs) in *. exists c.
  assert (Hll : length docs = length (item_docs item)) by (apply mapM_Some in Hdocs; symmetry; by eapply Forall2_length).
  split_and!; [|rewrite <- Hll; by apply (decode_own_chunk byteLength sha256 c (in_collectionPrefix i))|done]. split_and!; [done|done|done|].
  destruct Hwf as [_ _ _ (ids & Hids & _)]. destruct (canonicalizeDocuments_spec _ _ Hj Hdocs) as [_ E].
  cbn [chunk_docs c] in Hids. pose proof Hids as Hids'. rewrite E in Hids'. apply own_ids in Hids as [-> _]. apply own_ids in Hids' as [E' _].
  apply (Forall_fmap doc_id units_ok). cbn [chunk_docs c]. rewrite E'. by apply Forall_fmap.
Qed.

(** Where the chunk of a new descriptor comes from. *)
Definition chunk_source (changed : list (SnapshotChunkDescriptor * bytes)) (d : SnapshotChunkDescriptor) (c : SnapshotChunk) : Prop :=
  (exists j, ds !! j = Some d /\ cs !! j = Some c) \/
  (exists b, (d, b) ∈ changed /\ decodeSnapshotChunk byteLength sha256 b (descriptor_key d) (in_collection i) d = inr c).

Lemma mint_slots slots rss minted : (forall b, 0 < byteLength b) -> one_line (in_collectionPrefix i) ->
  Forall2 slot_holds slots rss -> Forall (fun v => json_ok v = true /\ units_ok (doc_id v)) (mjoin rss) ->
  Forall2 (fun s p => mint_slot byteLength sha256 (in_collectionPrefix i) (in_incarnation i) s = inr p) slots minted ->
  exists cs', Forall2 described minted.*1 cs' /\ mapM canonicalizeDocument (mjoin rss) = Some (chunk_rows cs') /\
    Forall2 (chunk_source (omap (fun p => pair p.1 <$> p.2) minted)) minted.*1 cs'.
Proof.
  intros Hpos Hp Hs Hv Hm. revert minted Hm. induction Hs as [|s rs slots rss Hsr Hs IH]; intros minted Hm.
  { inversion Hm; subst. exists []. split_and!; constructor. }
  inversion Hm as [|? p ? minted' Hsp Hm']; subst. rewrite mjoin_cons in Hv. apply Forall_app in Hv as [Hv1 Hv2].
  destruct (IH Hv2 _ Hm') as (cs' & H1 & H2 & H3).
  assert (Hone : exists c, described p.1 c /\ mapM canonicalizeDocument rs = Some (chunk_docs c) /\
    chunk_source (omap (fun p => pair p.1 <$> p.2) (p :: minted')) p.1 c).
  { destruct s as [d|item]; cbn [slot_holds mint_slot] in *.
    - injection Hsp as <-. destruct Hsr as (j & c & Hd & Hc & ->). exists c.
      destruct (lookup_chunk _ _ (input_snapshot input) j c Hc) as (d' & Hd' & Hdc). fold ds in Hd'. rewrite Hd in Hd'. injection Hd' as <-.
      split_and!; [done| |left; by exists j]. destruct Hdc as ([_ Hdocs _ _] & _). apply mapM_self.
      eapply Forall_impl; [exact Hdocs|]. by intros ? [? _].
    - destruct Hsr as [Hok ->]. destruct (appendChunkOutput _ _ _ _ _) as [er|[d b]] eqn:Ea; [done|]. cbn [rbind] in Hsp. injection Hsp as <-.
      destruct (mint_item item d b Hpos Hp Hok Hv1 Ea) as (c & Hd & Hdec & Hcan). exists c. split_and!; [done|done|].
      right. exists b. split; [|done]. cbn. by left. }
  destruct Hone as (c & Hd & Hc & Hsrc). exists (c :: cs'). rewrite fmap_cons. split_and!.
  - by constructor.
  - unfold chunk_rows in *. rewrite fmap_cons, !mjoin_cons. apply mapM_Some. apply mapM_Some in Hc, H2. by apply Forall2_app.
  - constructor; [done|]. eapply Forall2_impl; [exact H3|]. intros d' c' [?|(b & Hin & ?)]; [by left|right]. exists b. split; [|done].
    cbn. destruct p as [d0 [b0|]]; cbn; [by right|done].
Qed.
End evaluation.

(** ** The build succeeds *)

Lemma same_bytes_total l : forall k, Forall (fun d => json_ok d = true) l -> Forall (fun d => json_ok d = true) k ->
  exists b, same_bytes l k = inr b.
Proof.
  induction l as [|x l IH]; intros [|y k] Hl Hk; cbn [same_bytes]; eauto.
  apply Forall_cons in Hl as [Hx Hl]. apply Forall_cons in Hk as [Hy Hk]. rewrite !encode_ok by done.
  destruct (bool_decide _); [by apply IH|by eexists].
Qed.

Lemma collect_total {A B} (f : A -> result B) l : (forall x, x ∈ l -> exists y, f x = inr y) -> exists ys, collect (f <$> l) = inr ys.
Proof.
  induction l as [|x l IH]; intros H; [by exists []|]. destruct (H x ltac:(left)) as [y Hy].
  destruct IH as [ys Hys]; [intros z Hz; apply H; by right|]. exists (y :: ys). rewrite fmap_cons. cbn [collect]. by rewrite Hy, Hys.
Qed.

Lemma chunk_docs_valid d c : described d c -> Forall doc_valid (chunk_docs c).
Proof.
  intros ([_ Hdocs _ (ids & Hids & _)] & _). apply mapM_Some in Hids. apply Forall_forall. intros x Hx.
  apply list_elem_of_lookup in Hx as (j & Hj). destruct (Forall2_lookup_l _ _ _ _ _ Hids Hj) as (id & _ & Hid).
  destruct (own_id_doc_id x id Hid) as [<- _]. rewrite Forall_forall in Hdocs.
  destruct (Hdocs x) as [? ?]; [by eapply list_elem_of_lookup_2|]. split_and!; [done|done|by exists x].
Qed.

Lemma push_group_keys j mu groups k : k ∈ (push_group j mu groups).*1 -> k = j \/ k ∈ groups.*1.
Proof.
  induction groups as [|[k' l] groups IH]; cbn [push_group].
  - intros [->|H]%elem_of_cons; [by left|by apply elem_of_nil in H].
  - destruct (Nat.eqb_spec k' j); rewrite !fmap_cons, !elem_of_cons; cbn [fst]; [tauto|]. intros [?|H]; [tauto|]. destruct (IH H); tauto.
Qed.

Lemma push_group_nodup j mu groups : NoDup groups.*1 -> NoDup (push_group j mu groups).*1.
Proof.
  induction groups as [|[k l] groups IH]; cbn [push_group]; intros Hn; [apply NoDup_singleton|].
  rewrite fmap_cons in Hn. apply NoDup_cons in Hn as [Hni Hn]. cbn [fst] in *.
  destruct (Nat.eqb_spec k j) as [->|Hne]; rewrite fmap_cons; constructor; [done|done| |by apply IH].
  cbn [fst]. by intros [?|?]%push_group_keys.
Qed.

Lemma group_mutations_nodup ds mutations : NoDup (group_mutations ds mutations).*1.
Proof.
  unfold group_mutations. assert (H : forall groups, NoDup groups.*1 -> NoDup (foldl (fun groups p =>
    match routeMutationToDescriptor p.1 (is_delete p.2) ds with Some i => push_group i p.2 groups | None => groups end) groups mutations).*1).
  { induction mutations as [|p l IH]; intros groups Hg; [done|]. cbn [foldl]. apply IH. destruct (routeMutationToDescriptor _ _ _); [|done].
    by apply push_group_nodup. }
  apply H. constructor.
Qed.

Lemma nget_elem {A} j (x : A) l : NoDup l.*1 -> (j, x) ∈ l -> nget j l = Some x.
Proof.
  induction l as [|[k y] l IH]; intros Hn Hin; [by apply elem_of_nil in Hin|]. rewrite fmap_cons in Hn. apply NoDup_cons in Hn as [Hni Hn].
  rewrite nget_cons. apply elem_of_cons in Hin as [E|Hin]; [injection E as -> ->; by rewrite decide_True|].
  rewrite decide_False; [by apply IH|]. intros ->. apply Hni. apply list_elem_of_fmap. by exists (j, x).
Qed.

Section total.
Context (byteLength : bytes -> Z) (sha256 : bytes -> list N).
Context (i : BuildSnapshotChunksInput) (cs : list SnapshotChunk) (out : list (jsstr * jsval)).
Let ds := in_descriptors i.
Let muts := (in_mutations i).*2.

(** What a build needs to succeed when no neighbour is selected: checked input, a row
    target a chunk can hold, the touched chunks loaded, keys within the limit, and every
    row of the result small enough for a chunk of its own. *)
Record input_fits : Prop := {
  fits_checked : check_input i = None;
  fits_collection : assertPathSegment (in_collection i) = None;
  fits_target : Zpos (target_rows (in_policy i)) <= MAX_CHUNK_ROWS;
  fits_loaded : forall j d, ds !! j = Some d -> muts_at ds muts j <> [] -> is_Some (own_get (descriptor_key d) (in_loadedChunks i));
  fits_keys : forall b, exists key, snapshotChunkKey (in_collectionPrefix i) (in_incarnation i) (snapshotHash sha256 b) = inr key;
  fits_docs : Forall (single_fits byteLength (in_collection i) (in_incarnation i)) out.*2;
  fits_neighbor : in_selectedNeighborIndex i = None
}.

Context (input : input_ok i cs) (fits : input_fits).
Context (fold : foldChunkedSnapshotReference (docs_of (chunk_rows cs)) muts = inr out).

Lemma fold_rows : Forall mutation_ok muts /\ Forall mutation_wf muts /\
  out.*2 = sorted_docs (foldl apply_mutation (docs_of (chunk_rows cs)) muts) /\ rows_sorted out.*2 /\ Forall doc_valid out.*2.
Proof.
  pose proof (snapshot_rows_sorted _ _ (input_snapshot _ _ input)) as Hs.
  destruct (reference_fold_spec _ _ _ Hs (input_units _ _ input) fold (input_json _ _ input)) as (H1 & H2 & H3).
  split_and!; [done|done|done| |].
  - rewrite H3. apply sorted_docs_sorted, apply_mutations_wf; [by apply docs_of_wf|done].
  - rewrite H3. apply sorted_docs_Forall.
    + destruct (input_snapshot _ _ input) as [Hd _]. clear -Hd. unfold chunk_rows. induction Hd as [|d c l k Hdc _ IH]; [constructor|].
      rewrite fmap_cons, mjoin_cons. apply Forall_app. split; [by eapply chunk_docs_valid|done].
    + pose proof (input_json _ _ input) as Hj. fold muts in Hj. apply Forall_forall. intros mu Hmu. rewrite Forall_forall in H1, Hj.
      destruct (H1 mu Hmu) as [_ Hd]. specialize (Hj mu Hmu). destruct mu as [op id after|]; [|done].
      destruct (assertDocument_spec after id Hd Hj) as (Hid & w & Hw & _). destruct (own_id_doc_id _ _ Hid) as [<- _]. split_and!; [done|done|by exists w].
Qed.

Lemma split_rows_total rows : (forall d, d ∈ rows -> d ∈ out.*2) -> rows_sorted rows ->
  exists items, splitGroupDocsGreedily byteLength (in_collection i) (in_incarnation i) (in_policy i) rows = inr items.
Proof.
  intros Hsub Hs. destruct fold_rows as (_ & _ & _ & _ & Hv). destruct fits. unfold check_input in *.
  apply split_total; try done.
  - revert fits_checked0. destruct (bool_decide _); [done|]. destruct (_ || _); [done|]. by destruct (is_incarnation _).
  - apply Forall_forall. intros d Hd. rewrite Forall_forall in Hv. by apply Hv, Hsub.
  - apply Forall_forall. intros d Hd. rewrite Forall_forall in fits_docs0. by apply fits_docs0, Hsub.
Qed.

Lemma evaluate_group_total g : g ∈ group_mutations ds (in_mutations i) -> exists o, evaluate_group byteLength i g = inr o.
Proof.
  destruct g as [j l]. intros Hg. pose proof (input_snapshot _ _ input) as Hsnap.
  destruct (muts_checked i cs input (fits_checked fits)) as (Hmwf & Hfiled & Hnd).
  pose proof (nget_elem _ _ _ (group_mutations_nodup _ _) Hg) as Hget. rewrite nget_group_mutations in Hget by done. fold muts in Hget.
  assert (Hl : muts_at ds muts j = l /\ muts_at ds muts j <> []) by (destruct (muts_at ds muts j); [done|]; split; congruence).
  destruct Hl as [<- Hne]. destruct (muts_at ds muts j) as [|mu rest] eqn:Em; [done|].
  assert (Hmu : mu ∈ muts_at ds muts j) by (rewrite Em; by left).
  destruct (muts_at_territory ds cs Hsnap muts Hmwf j mu Hmu) as (Hlt & _). rewrite <- Em in *.
  destruct (lookup_lt_is_Some_2 ds j Hlt) as [d Hd]. destruct (lookup_described ds cs Hsnap j d Hd) as (c & Hc & Hdc).
  unfold evaluate_group. cbn [fst snd]. fold ds. rewrite Hd. unfold rebuild_group, getLoadedDocs.
  destruct (fits_loaded fits j d Hd Hne) as [docs El]. rewrite El. apply (input_loaded _ _ input j d c Hd Hc) in El as ->. cbn [rbind].
  rewrite load_docs_of by by eapply rows_sorted_nodup, chunk_sorted. fold (new_rows ds muts j c).
  assert (Hneds : ds <> []) by by intros ->.
  destruct (split_rows_total (new_rows ds muts j c)) as [items Hitems].
  { intros x Hx. destruct fold_rows as (_ & _ & -> & _). rewrite <- (new_rows_reference ds cs Hsnap muts Hmwf Hnd Hneds).
    unfold all_new_rows. apply list_elem_of_join. exists (new_rows ds muts j c). split; [done|].
    apply list_elem_of_lookup. exists j. by rewrite list_lookup_imap, Hc. }
  { by apply (new_rows_sorted ds cs Hsnap muts Hmwf). }
  unfold areDocListsEqual. destruct (negb _); cbn [rbind].
  - destruct (length _ =? 0)%nat; cbn [rbind]; [eauto|]. rewrite Hitems. cbn [rbind]. eauto.
  - destruct (same_bytes_total (chunk_docs c) (new_rows ds muts j c)) as [[|] Hb].
    + by apply (chunk_json_docs i cs Hsnap j).
    + by apply (new_rows_json i cs Hsnap (input_json _ _ input)).
    + rewrite Hb. cbn [rbind]. eauto.
    + rewrite Hb. cbn [rbind]. destruct (length _ =? 0)%nat; cbn [rbind]; [eauto|]. rewrite Hitems. cbn [rbind]. eauto.
Qed.

Lemma evaluate_total : exists e, evaluateSnapshotChunks byteLength i = inr e.
Proof.
  unfold evaluateSnapshotChunks. rewrite (fits_checked fits). fold ds. destruct (Nat.eqb_spec (length ds) 0) as [E|E].
  - unfold evaluateInitialEmptyChunks. fold muts. pose proof (input_snapshot _ _ input) as Hsnap.
    apply nil_length_inv in E. destruct fold_rows as (_ & _ & Hout & Hs & _). destruct Hsnap as [Hsnap _].
    fold ds in Hsnap. rewrite E in Hsnap. apply Forall2_nil_inv_l in Hsnap. rewrite Hsnap in Hout. change (docs_of (chunk_rows [])) with ([] : list (jsstr * jsval)) in Hout.
    rewrite <- Hout. destruct (_ =? 0)%nat; [eauto|]. destruct (split_rows_total out.*2) as [items ->]; [done|done|]. cbn [rbind]. eauto.
  - destruct (collect_total (evaluate_group byteLength i) (group_mutations ds (in_mutations i))) as [outcomes ->].
    { intros g Hg. by apply evaluate_group_total. }
    cbn [rbind]. rewrite (fits_neighbor fits). destruct (in_lockedDirectOwnerIndex i); cbn [rbind]; eauto.
Qed.

Lemma build_total : exists res, buildSnapshotChunks byteLength sha256 i = inr res.
Proof.
  unfold buildSnapshotChunks. destruct evaluate_total as [e ->]. cbn [rbind]. unfold mint.
  destruct (collect_total (mint_slot byteLength sha256 (in_collectionPrefix i) (in_incarnation i)) (layout e)) as [minted ->]; [|cbn [rbind]; eauto].
  intros [d|item] _; cbn [mint_slot]; [eauto|]. unfold appendChunkOutput.
  destruct (fits_keys fits (item_bytes item)) as [key ->]. cbn [rbind]. eauto.
Qed.
End total.

(** ** Theorems *)

Lemma rows_sorted_ids l k : doc_id <$> l = doc_id <$> k -> rows_sorted l -> rows_sorted k.
Proof.
  intros E [Ho Hs]. split.
  - apply (Forall_fmap doc_id id_ok). rewrite <- E. by apply Forall_fmap.
  - apply (sorted_by_of_fmap doc_id id_before). rewrite <- E. by apply sorted_by_of_fmap.
Qed.

Lemma build_refines byteLength sha256 i cs out res :
  (forall b, 0 < byteLength b) -> one_line (in_collectionPrefix i) -> input_ok i cs ->
  foldChunkedSnapshotReference (docs_of (chunk_rows cs)) (in_mutations i).*2 = inr out ->
  buildSnapshotChunks byteLength sha256 i = inr res ->
  exists cs', snapshot_of (build_chunks res) cs' /\ mapM canonicalizeDocument out.*2 = Some (chunk_rows cs') /\
    Forall2 (chunk_source byteLength sha256 i cs (changed_chunks res)) (build_chunks res) cs'.
Proof.
  intros Hpos Hp Hin Hfold. unfold buildSnapshotChunks. destruct (evaluateSnapshotChunks byteLength i) as [er|e] eqn:Ee; [done|].
  cbn [rbind]. unfold mint. destruct (collect _) as [er|minted] eqn:Em; [done|]. cbn [rbind]. intros [= <-]. cbn [build_chunks changed_chunks].
  destruct (evaluate_rows byteLength i cs Hin e Ee) as (rss & Hrss & Hrows).
  destruct (fold_rows i cs out Hin Hfold) as (_ & _ & Hout & Hs & Hv). rewrite <- Hout in Hrows. apply collect_Forall2 in Em.
  destruct (mint_slots byteLength sha256 i cs Hin (layout e) rss minted Hpos Hp Hrss) as (cs' & H1 & H2 & H3); [|done|].
  { rewrite Hrows. apply Forall_and. split; [eapply Forall_impl; [exact Hv|]; by intros ? (? & _)|].
    destruct Hs as [Ho _]. eapply Forall_impl; [exact Ho|]. by intros ? [? _]. }
  rewrite Hrows in H2. exists cs'. split_and!; [|done|done]. apply snapshot_of_rows; [done|].
  destruct (docs_valid_canonical _ Hv) as (ws & Hws & _ & Hids & _). assert (ws = chunk_rows cs') as <- by congruence.
  by apply (rows_sorted_ids out.*2).
Qed.

(** C23: The chunk builder refines the reference fold: whatever a build answers, its
    descriptors have strictly increasing, disjoint ranges, each is an old descriptor kept
    or one whose minted bytes decode under its key, and the rows of the chunks, in order,
    are the rows of the reference fold in canonical form; grouping, the greedy split, the
    unchanged groups and the neighbour merge lose, duplicate and reorder nothing.  And
    with no neighbour selected, checked input, the touched chunks loaded and every row of
    the result small enough for a chunk of its own, the build does answer. *)
Theorem build_refines_reference byteLength sha256 i cs out :
  (forall b, 0 < byteLength b) -> one_line (in_collectionPrefix i) -> input_ok i cs ->
  foldChunkedSnapshotReference (docs_of (chunk_rows cs)) (in_mutations i).*2 = inr out ->
  (forall res, buildSnapshotChunks byteLength sha256 i = inr res ->
     exists cs', snapshot_of (build_chunks res) cs' /\ mapM canonicalizeDocument out.*2 = Some (chunk_rows cs') /\
       Forall2 (chunk_source byteLength sha256 i cs (changed_chunks res)) (build_chunks res) cs') /\
  (input_fits byteLength sha256 i out -> exists res, buildSnapshotChunks byteLength sha256 i = inr res).
Proof.
  intros Hpos Hp Hin Hfold. split; [intros res; by apply build_refines|]. intros Hfits. by apply (build_total byteLength sha256 i cs out).
Qed.

(** An insert into a gap and a delete, on the sample chunks. *)
Definition sample_build : BuildSnapshotChunksInput :=
  BuildInput (js "t") (js "a/t") (chunks chunked_manifest)
    ((fun c => (descriptor_key (sample_descriptor c), chunk_docs c)) <$> sample_chunks)
    [(js "e", MWrite op_I (js "e") (chunk_row "e")); (js "h", MDelete (js "h"))]
    (mjoin (replicate 32 (js "4"))) c128_r512 None None.

Definition sample_result : list (jsstr * jsval) :=
  (fun id => (js id, chunk_row id)) <$> ["b"; "d"; "e"; "f"]%string.

Lemma sample_snapshot_of : snapshot_of (chunks chunked_manifest) sample_chunks.
Proof.
  apply ranges_sorted; [|vm_compute; reflexivity]. eapply Forall2_impl; [exact sample_stored|]. apply stored_described.
Qed.

Lemma sample_input_ok : input_ok sample_build sample_chunks.
Proof.
  split.
  - exact sample_snapshot_of.
  - intros [|[|j]] d c Hd Hc docs Hl; [injection Hd as <-; injection Hc as <-..|done].
    + assert (own_get (descriptor_key (sample_descriptor (sample_chunk "1" "b" "d"))) (in_loadedChunks sample_build) =
        Some (chunk_docs (sample_chunk "1" "b" "d"))) as E by (vm_compute; reflexivity). rewrite E in Hl. congruence.
    + assert (own_get (descriptor_key (sample_descriptor (sample_chunk "2" "f" "h"))) (in_loadedChunks sample_build) =
        Some (chunk_docs (sample_chunk "2" "f" "h"))) as E by (vm_compute; reflexivity). rewrite E in Hl. congruence.
  - js_decide.
  - repeat constructor.
  - repeat constructor; vm_compute; reflexivity.
Qed.

Lemma single_fits_encoded byteLength collection incarnation d :
  match encodeBuilderChunk byteLength (candidate_chunk collection incarnation [d]) with Encoded _ => True | _ => False end ->
  single_fits byteLength collection incarnation d.
Proof. unfold single_fits. destruct (encodeBuilderChunk _ _) as [b| |]; [eauto|done..]. Qed.

Lemma sample_fits : input_fits sample_length sample_sha256 sample_build sample_result.
Proof.
  split.
  - vm_compute. reflexivity.
  - vm_compute. reflexivity.
  - vm_compute. discriminate.
  - intros [|[|j]] d Hd _; [injection Hd as <-..|done].
    + exists (chunk_docs (sample_chunk "1" "b" "d")). vm_compute. reflexivity.
    + exists (chunk_docs (sample_chunk "2" "f" "h")). vm_compute. reflexivity.
  - intros [v|raw p]; eexists; vm_compute; reflexivity.
  - repeat constructor; apply single_fits_encoded; vm_compute; exact I.
  - reflexivity.
Qed.

Lemma build_refines_reference_witness : exists res cs',
  buildSnapshotChunks sample_length sample_sha256 sample_build = inr res /\
  snapshot_of (build_chunks res) cs' /\ doc_id <$> chunk_rows cs' = [js "b"; js "d"; js "e"; js "f"].
Proof.
  destruct (build_refines_reference sample_length sample_sha256 sample_build sample_chunks sample_result) as [Hres Htotal].
  - intros b. reflexivity.
  - vm_compute. reflexivity.
  - exact sample_input_ok.
  - vm_compute. reflexivity.
  - destruct (Htotal sample_fits) as [res Hbuild]. exists res. destruct (Hres res Hbuild) as (cs' & Hs & Hrows & _). exists cs'.
    split; [exact Hbuild|]. split; [exact Hs|].
    assert (E : mapM canonicalizeDocument sample_result.*2 = Some sample_result.*2) by (vm_compute; reflexivity).
    rewrite E in Hrows. injection Hrows as <-. vm_compute. reflexivity.
Defined.

(** ** A neighbour that does not fit *)

(** The octets of a body as the sizes its documents name. *)
Definition named_size (b : bytes) : Z :=
  match b with
  | JsonText v =>
    match prop (js "docs") v with
    | Some (JArr l) => 10 + foldr (fun d n => match prop (js "n") d ≫= nonneg_integer with Some z => z + n | None => n end) 0 l
    | _ => 10
    end
  | OtherBytes _ _ => 10
  end.

Definition big_row (id : string) (size : Z) : jsval := JObj [(js "_id", JStr (js id)); (js "n", num size)].

Definition big_chunk (digit : string) (id : string) (size : Z) : SnapshotChunk :=
  Chunk (js "t") (mjoin (replicate 32 (js digit))) (js id) (js id) [big_row id size].

Definition big_descriptor (c : SnapshotChunk) : SnapshotChunkDescriptor :=
  Descriptor (chunk_first_id c) (chunk_last_id c)
    match snapshotChunkKey (js "a/t") (chunk_incarnation c) (snapshotHash sample_sha256 (JsonText (chunk_json c))) with
    | inr key => key | inl _ => []
    end (named_size (JsonText (chunk_json c))) 1.

(** A chunk of 100,000 octets rewritten beside one of 1,000,000. *)
Definition neighbor_build (neighbor : option nat) : BuildSnapshotChunksInput :=
  let cs := [big_chunk "1" "b" 90000; big_chunk "2" "f" 1000000] in
  BuildInput (js "t") (js "a/t") (big_descriptor <$> cs) ((fun c => (descriptor_key (big_descriptor c), chunk_docs c)) <$> cs)
    [(js "b", MWrite op_U (js "b") (big_row "b" 100000))] (mjoin (replicate 32 (js "4"))) c1024_r4096 (Some 0%nat) neighbor.

(** Without a selected neighbour the build answers two chunks; with the right neighbour
    selected it fails, as the combined chunk exceeds the hard maximum, where an output that
    merely exceeds the targets leaves the neighbour unused. *)
Lemma oversized_neighbor_fails :
  (exists res, buildSnapshotChunks named_size sample_sha256 (neighbor_build None) = inr res /\ length (build_chunks res) = 2%nat) /\
  buildSnapshotChunks named_size sample_sha256 (neighbor_build (Some 1%nat)) = inl (new_error InvalidResponse).
Proof.
  assert (E : match buildSnapshotChunks named_size sample_sha256 (neighbor_build None) with
              | inr res => length (build_chunks res) = 2%nat | inl _ => False end) by (vm_compute; reflexivity).
  split; [|vm_compute; reflexivity].
  destruct (buildSnapshotChunks named_size sample_sha256 (neighbor_build None)) as [e|res]; [done|by exists res].
Qed.
