(* ===== verification/FoldPlanner.v ===== *)
(** * Planning a chunked fold

    server/src/chunked-fold-planner.ts: the metadata walk that bounds the candidate prefixes
    of a log and the chunks to fetch, and the sequential selection of the longest admitted
    prefix, built through ChunkBuilder.v.  Octet and entry budgets are integers; a log entry
    is a JSON value. *)
From stdpp Require Import list.
From S2P Require Import Prelude JsText JsValue Errors Json Storage Effects Lsn CurrentJson LogWalk Snapshot DocId Sort SnapshotCodec SnapshotView ChunkReference ChunkBuilder ChunkRefinement.
Local Open Scope Z_scope.

Record ChunkedFoldBudget := Budget {
  max_log_entries : Z;
  max_mutation_bytes : Z;
  max_touched_chunks : Z;
  max_touched_bytes : Z;
  max_split_increments : Z;
  max_neighbor_chunks : Z
}.

Record ChunkedFoldPrefetch := Prefetch {
  candidate_log_seq_ends : list jsval;
  directly_touched_chunk_indexes : list nat;
  chunk_indexes : list nat;
  touched_bytes : Z;
  leftmost_direct_owner_index : option nat;
  selected_neighbor_index : option nat
}.

(** A property of an entry. *)
Definition entry_prop (k : string) (entry : LogEntry) : result jsval :=
  match prop (js k) entry with Some v => inr v | None => inl OtherError end.

Definition entryToMutation (entry : LogEntry) : result ReferenceMutation :=
  rbind (entry_prop "doc_id" entry) (fun d =>
  rbind (or_code InvalidResponse (as_doc_id d)) (fun id =>
  rbind (entry_prop "op" entry) (fun op =>
  if strict_eq op (JStr (js "D")) then inr (MDelete id)
  else
    rbind (entry_prop "after" entry) (fun after =>
    if strict_eq after JUndef then inl (new_error InvalidResponse)
    else match assertPostImageIdentity id after InvalidResponse with
         | Some e => inl e
         | None => inr (MWrite (if strict_eq op (JStr (js "I")) then op_I else op_U) id after)
         end)))).

(** [Set.prototype.add] *)
Definition add_index (l : list nat) (i : nat) : list nat := if bool_decide (i ∈ l) then l else l ++ [i].

Definition union_indexes (l k : list nat) : list nat := foldl add_index l k.

(** The descriptors that a map of mutations touches directly. *)
Definition direct_indexes (ds : list SnapshotChunkDescriptor) (mutations : list (jsstr * ReferenceMutation)) : list nat :=
  foldl (fun l p => match routeMutationToDescriptor p.1 (is_delete p.2) ds with Some i => add_index l i | None => l end) [] mutations.

Definition sum_bytes (ds : list SnapshotChunkDescriptor) (indexes : list nat) : Z :=
  foldl (fun n i => n + match ds !! i with Some d => byte_length d | None => 0 end) 0 indexes.

Definition with_neighbor (locked : option (nat * option nat)) (indexes : list nat) : list nat :=
  match locked with Some (_, Some neighbor) => add_index indexes neighbor | _ => indexes end.

Definition sorted_indexes (l : list nat) : list nat := sort_by Nat.ltb l.

(** The walk's state: the accepted endpoints, the union of direct touches, the locked pair,
    and the retained mutations with their size. *)
Record PrefetchState := Walk {
  walk_ends : list jsval;
  walk_direct : list nat;
  walk_locked : option (nat * option nat);
  walk_mutations : list (jsstr * ReferenceMutation);
  walk_bytes : Z
}.

Section planner.
Context (byteLength : bytes -> Z) (sha256 : bytes -> list N).

Definition computeMutationContribution (ds : list SnapshotChunkDescriptor) (mu : ReferenceMutation) : result Z :=
  match mu with
  | MDelete id => inr (match routeMutationToDescriptor id true ds with Some _ => utf8_length id | None => 0 end)
  | MWrite _ _ after => match encodeJsonBytes after with Some b => inr (byteLength b) | None => inl OtherError end
  end.

Definition contribution_of (ds : list SnapshotChunkDescriptor) (o : option ReferenceMutation) : result Z :=
  match o with Some mu => computeMutationContribution ds mu | None => inr 0 end.

(** One turn of the walk: whether it goes on, and the state it leaves. *)
Definition prefetch_step (ds : list SnapshotChunkDescriptor) (budget : ChunkedFoldBudget) (m : nat) (entry : LogEntry) (st : PrefetchState) :
    result (bool * PrefetchState) :=
  if max_log_entries budget <? Z.of_nat m + 1 then inr (false, st)
  else
    rbind (entryToMutation entry) (fun mu =>
    let id := mutation_id mu in
    rbind (contribution_of ds (own_get id (walk_mutations st))) (fun previous =>
    rbind (computeMutationContribution ds mu) (fun added =>
    let bytes := walk_bytes st - previous + added in
    let mutations := str_set id mu (walk_mutations st) in
    if max_mutation_bytes budget <? bytes then inr (false, st)
    else
      let current := direct_indexes ds mutations in
      let (owner, neighbor) := deriveOwnerAndNeighbor current (length ds) in
      let moved := match walk_locked st with
                   | Some (o, n) => negb (bool_decide (owner = Some o) && bool_decide (neighbor = n))
                   | None => false
                   end in
      let locked := match walk_locked st with
                    | Some p => Some p
                    | None => match owner with Some o => Some (o, neighbor) | None => None end
                    end in
      let stopped := Walk (walk_ends st) (walk_direct st) locked (walk_mutations st) (walk_bytes st) in
      let direct := union_indexes (walk_direct st) current in
      if moved then inr (false, st)
      else if max_touched_chunks budget <? Z.of_nat (length direct) then inr (false, stopped)
      else if max_touched_bytes budget <? sum_bytes ds (with_neighbor locked direct) then inr (false, stopped)
      else
        rbind (entry_prop "seq" entry) (fun seq =>
        inr (true, Walk (walk_ends st ++ [seq]) direct locked mutations bytes))))).

Fixpoint prefetch_loop (ds : list SnapshotChunkDescriptor) (budget : ChunkedFoldBudget) (m : nat) (entries : list LogEntry)
    (st : PrefetchState) : result PrefetchState :=
  match entries with
  | [] => inr st
  | entry :: entries =>
    rbind (prefetch_step ds budget m entry st) (fun r =>
    if (r.1 : bool) then prefetch_loop ds budget (S m) entries r.2 else inr r.2)
  end.

Definition prefetchChunkedFold (entries : list LogEntry) (ds : list SnapshotChunkDescriptor) (budget : ChunkedFoldBudget) :
    result ChunkedFoldPrefetch :=
  rbind (prefetch_loop ds budget 0 entries (Walk [] [] None [] 0)) (fun st =>
  let fetched := sorted_indexes (with_neighbor (walk_locked st) (walk_direct st)) in
  inr (Prefetch (walk_ends st) (sorted_indexes (walk_direct st)) fetched (sum_bytes ds fetched)
         (fst <$> walk_locked st) (walk_locked st ≫= snd))).

Record PlanChunkedFoldInput := PlanInput {
  plan_collection : jsstr;
  plan_collectionPrefix : jsstr;
  plan_entries : list LogEntry;
  plan_descriptors : list SnapshotChunkDescriptor;
  plan_loadedChunks : list (jsstr * list jsval);
  plan_budget : ChunkedFoldBudget;
  plan_incarnation : jsstr;
  plan_policy : SnapshotChunkBoundaryPolicy;
  plan_baseLogSeq : option jsval
}.

Record ChunkedFoldPlan := Plan {
  log_seq_end : jsval;
  plan_prefetch : ChunkedFoldPrefetch;
  touched_chunk_indexes : list nat;
  touched_ranges : list (jsstr * jsstr);
  mutation_bytes : Z;
  plan_mutations : list (jsstr * ReferenceMutation);
  plan_build : SnapshotChunkBuildResult
}.

(** The mutation map of a prefix: last write wins. *)
Definition mutation_map (entries : list LogEntry) : result (list (jsstr * ReferenceMutation)) :=
  rbind (collect (entryToMutation <$> entries)) (fun mus =>
  inr (foldl (fun m mu => str_set (mutation_id mu) mu m) [] mus)).

(** A candidate evaluated within the budgets. *)
Record Admitted_prefix := Candidate {
  cand_end : jsval;
  cand_touched : list nat;
  cand_bytes : Z;
  cand_mutations : list (jsstr * ReferenceMutation);
  cand_evaluation : SnapshotChunkEvaluation
}.

Definition build_input (i : PlanChunkedFoldInput) (p : ChunkedFoldPrefetch) (mutations : list (jsstr * ReferenceMutation)) :
    BuildSnapshotChunksInput :=
  BuildInput (plan_collection i) (plan_collectionPrefix i) (plan_descriptors i) (plan_loadedChunks i) mutations
    (plan_incarnation i) (plan_policy i) (leftmost_direct_owner_index p) (selected_neighbor_index p).

Definition evaluate_candidate (i : PlanChunkedFoldInput) (p : ChunkedFoldPrefetch) (endpoint : jsval) (count : nat) : result Admitted_prefix :=
  rbind (mutation_map (take count (plan_entries i))) (fun mutations =>
  rbind (collect (computeMutationContribution (plan_descriptors i) <$> mutations.*2)) (fun sizes =>
  rbind (evaluateSnapshotChunks byteLength (build_input i p mutations)) (fun evaluation =>
  inr (Candidate endpoint (sorted_indexes (direct_indexes (plan_descriptors i) mutations)) (foldl Z.add 0 sizes) mutations evaluation)))).

Definition over_budget (budget : ChunkedFoldBudget) (c : Admitted_prefix) : bool :=
  (max_split_increments budget <? Z.of_nat (split_increments (cand_evaluation c))) ||
  (max_neighbor_chunks budget <? match used_neighbor_chunk_index (cand_evaluation c) with None => 0 | Some _ => 1 end).

(** The candidates in turn, up to the first over budget. *)
Fixpoint select_prefix (i : PlanChunkedFoldInput) (p : ChunkedFoldPrefetch) (ends : list jsval) (count : nat) (lastAdmitted : option Admitted_prefix) :
    result (option Admitted_prefix) :=
  match ends with
  | [] => inr lastAdmitted
  | endpoint :: ends =>
    rbind (evaluate_candidate i p endpoint (S count)) (fun c =>
    if over_budget (plan_budget i) c then inr lastAdmitted else select_prefix i p ends (S count) (Some c))
  end.

Definition ranges_of (ds : list SnapshotChunkDescriptor) (indexes : list nat) : list (jsstr * jsstr) :=
  omap (fun i => (fun d => (first_id d, last_id d)) <$> ds !! i) indexes.

Definition planChunkedFold (i : PlanChunkedFoldInput) : result (option ChunkedFoldPlan) :=
  rbind (prefetchChunkedFold (plan_entries i) (plan_descriptors i) (plan_budget i)) (fun p =>
  if (length (candidate_log_seq_ends p) =? 0)%nat then
    if (length (plan_entries i) =? 0)%nat then
      inr (Some (Plan (default (num 0) (plan_baseLogSeq i)) p [] [] 0 [] (BuildResult (plan_descriptors i) [] 0 None)))
    else inr None
  else
    rbind (select_prefix i p (candidate_log_seq_ends p) 0 None) (fun selected =>
    match selected with
    | None => inr None
    | Some c =>
      rbind (mint byteLength sha256 (plan_collectionPrefix i) (plan_incarnation i) (cand_evaluation c)) (fun build =>
      inr (Some (Plan (cand_end c) p (cand_touched c) (ranges_of (plan_descriptors i) (cand_touched c)) (cand_bytes c)
                   (cand_mutations c) build)))
    end)).
End planner.

(** ** Last write wins *)

(** The map of a list of mutations, each under its own id. *)
Definition collapse (raw : list ReferenceMutation) : list (jsstr * ReferenceMutation) :=
  foldl (fun m mu => str_set (mutation_id mu) mu m) [] raw.

Lemma collapse_snoc raw mu : collapse (raw ++ [mu]) = str_set (mutation_id mu) mu (collapse raw).
Proof. unfold collapse. by rewrite foldl_app. Qed.

Lemma collapse_wf raw : filed (collapse raw) /\ NoDup (own_keys (collapse raw)) /\ (forall p, p ∈ collapse raw -> p.2 ∈ raw).
Proof.
  induction raw as [|mu raw (IH1 & IH2 & IH3)] using rev_ind; [split_and!; [constructor|constructor|by intros p ?%elem_of_nil]|].
  rewrite collapse_snoc. split_and!.
  - by apply str_set_Forall.
  - by apply str_set_NoDup.
  - assert (H : Forall (fun p => p.2 ∈ raw ++ [mu]) (str_set (mutation_id mu) mu (collapse raw))).
    { apply str_set_Forall; [apply elem_of_app; right; by left|]. apply Forall_forall. intros p Hp. apply elem_of_app. left. by apply IH3. }
    intros p Hp. rewrite Forall_forall in H. by apply H.
Qed.

Lemma effect_of_map id m : filed m -> NoDup (own_keys m) -> effect_of id m.*2 = effect <$> own_get id m.
Proof.
  intros Hf Hn. induction Hf as [|[k mu] m E _ IH]; [done|]. cbn [fst snd] in E. subst k. rewrite fmap_cons. cbn [effect_of own_get snd].
  unfold own_keys in *. rewrite fmap_cons in Hn. apply NoDup_cons in Hn as [Hni Hn]. rewrite IH by done. cbn [fst] in Hni.
  case_decide as Hd; [|by destruct (own_get id m)]. subst id. assert (own_get (mutation_id mu) m = None) as -> by by apply own_get_None. done.
Qed.

Lemma effect_of_collapse id raw : effect_of id (collapse raw).*2 = effect_of id raw.
Proof.
  destruct (collapse_wf raw) as (Hf & Hn & _). rewrite effect_of_map by done.
  assert (H : forall acc, effect <$> own_get id (foldl (fun m mu => str_set (mutation_id mu) mu m) acc raw) =
    match effect_of id raw with Some e => Some e | None => effect <$> own_get id acc end).
  { clear. induction raw as [|mu raw IH]; intros acc; [done|]. cbn [foldl effect_of]. rewrite IH, own_get_str_set.
    destruct (effect_of id raw); [done|]. by case_decide. }
  unfold collapse. rewrite H. by destruct (effect_of id raw).
Qed.

(** Folding the collapsed map is folding the mutations one by one. *)
Lemma fold_collapse rows raw out : rows_sorted rows -> Forall (fun mu => units_ok (mutation_id mu)) raw ->
  Forall (fun mu => match mu with MWrite _ _ after => json_ok after = true | MDelete _ => True end) raw ->
  foldChunkedSnapshotReference (docs_of rows) raw = inr out ->
  exists out', foldChunkedSnapshotReference (docs_of rows) (collapse raw).*2 = inr out' /\ out'.*2 = out.*2.
Proof.
  intros Hs Hu Hj Hfold. destruct (reference_fold_spec rows raw out Hs Hu Hfold Hj) as (Hok & Hwf & Hout).
  assert (Hsub : forall mu, mu ∈ (collapse raw).*2 -> mu ∈ raw).
  { intros mu (p & -> & Hp)%list_elem_of_fmap. by apply collapse_wf. }
  assert (Hall : forall P, Forall P raw -> Forall P (collapse raw).*2).
  { intros P HP. apply Forall_forall. intros mu Hmu. rewrite Forall_forall in HP. by apply HP, Hsub. }
  assert (Hex : exists out', foldChunkedSnapshotReference (docs_of rows) (collapse raw).*2 = inr out').
  { unfold foldChunkedSnapshotReference in *. destruct (reference_rows (docs_of rows) []) as [docs|]; [|done]. cbn [mbind option_bind] in *.
    rewrite (proj2 (reference_mutations_spec _ docs _) (conj (Hall _ Hok) eq_refl)). cbn [mbind option_bind or_code]. by eexists. }
  destruct Hex as [out' Hfold']. exists out'. split; [done|].
  destruct (reference_fold_spec rows _ out' Hs (Hall _ Hu) Hfold' (Hall _ Hj)) as (_ & Hwf' & Hout'). rewrite Hout, Hout'.
  pose proof (docs_of_wf rows Hs) as Hdocs.
  apply rows_unique; [by apply sorted_docs_sorted, apply_mutations_wf..|]. intros id _.
  rewrite !find_sorted_docs, !own_get_apply_all by by apply apply_mutations_wf. by rewrite effect_of_collapse.
Qed.

(** ** Indexes and sums *)

Lemma add_index_elem l i j : j ∈ add_index l i <-> j ∈ l \/ j = i.
Proof.
  unfold add_index. destruct (bool_decide_reflect (i ∈ l)); [split; [by left|by intros [?| ->]]|].
  by rewrite elem_of_app, list_elem_of_singleton.
Qed.

Lemma add_index_nodup l i : NoDup l -> NoDup (add_index l i).
Proof.
  intros Hn. unfold add_index. destruct (bool_decide_reflect (i ∈ l)) as [|Hi]; [done|]. apply NoDup_app.
  split_and!; [done|by intros x Hx ->%list_elem_of_singleton|apply NoDup_singleton].
Qed.

Lemma union_indexes_spec k : forall l, NoDup l -> NoDup (union_indexes l k) /\ forall j, j ∈ union_indexes l k <-> j ∈ l \/ j ∈ k.
Proof.
  unfold union_indexes. induction k as [|i k IH]; intros l Hn; cbn [foldl].
  - split; [done|]. intros j. rewrite elem_of_nil. tauto.
  - destruct (IH (add_index l i)) as [H1 H2]; [by apply add_index_nodup|]. split; [done|]. intros j. rewrite H2, add_index_elem, elem_of_cons. tauto.
Qed.

Lemma direct_indexes_nodup ds m : NoDup (direct_indexes ds m).
Proof.
  unfold direct_indexes. assert (H : forall l, NoDup l -> NoDup (foldl (fun l p =>
    match routeMutationToDescriptor p.1 (is_delete p.2) ds with Some i => add_index l i | None => l end) l m)).
  { induction m as [|p m IH]; intros l Hn; [done|]. cbn [foldl]. apply IH. destruct (routeMutationToDescriptor _ _ _); [|done]. by apply add_index_nodup. }
  apply H. constructor.
Qed.

Lemma sum_bytes_foldr ds l : sum_bytes ds l = foldr Z.add 0 ((fun i => match ds !! i with Some d => byte_length d | None => 0 end) <$> l).
Proof.
  unfold sum_bytes. assert (H : forall a, foldl (fun n i => n + match ds !! i with Some d => byte_length d | None => 0 end) a l =
    a + foldr Z.add 0 ((fun i => match ds !! i with Some d => byte_length d | None => 0 end) <$> l)).
  { induction l as [|i l IH]; intros a; [cbn; lia|]. cbn [foldl]. rewrite IH, fmap_cons. cbn [foldr]. lia. }
  by rewrite H.
Qed.

Lemma sum_perm (l k : list Z) : l ≡ₚ k -> foldr Z.add 0 l = foldr Z.add 0 k.
Proof. induction 1; cbn [foldr]; lia. Qed.

Lemma sum_bytes_sorted ds l : sum_bytes ds (sorted_indexes l) = sum_bytes ds l.
Proof. rewrite !sum_bytes_foldr. apply sum_perm. unfold sorted_indexes. by rewrite (sort_by_perm Nat.ltb l). Qed.

Lemma sum_foldl (l : list Z) a : foldl Z.add a l = a + foldr Z.add 0 l.
Proof. revert a. induction l as [|x l IH]; intros a; cbn [foldl foldr]; [lia|]. rewrite IH. lia. Qed.

(** ** The walk *)

(** Octets of a map: replacing one mutation changes the total by its contribution. *)
Lemma contributions_set {A} (f : A -> result Z) id mu (m : list (jsstr * A)) sizes previous added :
  collect (f <$> m.*2) = inr sizes -> match own_get id m with Some a => f a | None => inr 0 end = inr previous -> f mu = inr added ->
  exists sizes', collect (f <$> (str_set id mu m).*2) = inr sizes' /\
    foldl Z.add 0 sizes' = foldl Z.add 0 sizes - previous + added.
Proof.
  intros Hs Hp Ha. unfold str_set. destruct (own_get id m) as [a|] eqn:E.
  - revert sizes Hs E. induction m as [|[k b] m IH]; intros sizes Hs E; [done|]. rewrite fmap_cons in Hs. apply collect_Forall2 in Hs.
    inversion Hs as [|? x ? xs Hx Hxs]; subst. apply collect_Forall2 in Hxs. cbn [own_get replace_own snd] in *. destruct (decide (k = id)) as [->|].
    + injection E as ->. exists (added :: xs). rewrite !fmap_cons. cbn [collect snd]. rewrite Ha, Hxs. split; [done|]. rewrite !sum_foldl. cbn [foldr].
      assert (x = previous) by congruence. lia.
    + destruct (IH xs Hxs E) as (xs' & H1 & H2). exists (x :: xs'). rewrite !fmap_cons. cbn [collect snd]. rewrite Hx, H1. split; [done|].
      rewrite !sum_foldl in *. cbn [foldr]. lia.
  - exists (sizes ++ [added]). rewrite fmap_app, fmap_app, collect_app, Hs. cbn. rewrite Ha. split; [done|].
    injection Hp as <-. rewrite foldl_app. cbn [foldl]. lia.
Qed.

Section walk.
Context (byteLength : bytes -> Z) (ds : list SnapshotChunkDescriptor) (budget : ChunkedFoldBudget) (all : list LogEntry).

(** A prefix within the budgets the walk checks, its touches within [direct]. *)
Definition prefix_bounded (direct : list nat) (k : nat) : Prop :=
  exists raw sizes, collect (entryToMutation <$> take k all) = inr raw /\
    collect (computeMutationContribution byteLength ds <$> (collapse raw).*2) = inr sizes /\
    foldl Z.add 0 sizes <= max_mutation_bytes budget /\
    (forall j, j ∈ direct_indexes ds (collapse raw) -> j ∈ direct).

(** After [m] accepted entries. *)
Record walk_inv (m : nat) (st : PrefetchState) : Prop := {
  walk_len : (m <= length all)%nat;
  walk_map : exists raw sizes, collect (entryToMutation <$> take m all) = inr raw /\ walk_mutations st = collapse raw /\
    collect (computeMutationContribution byteLength ds <$> (collapse raw).*2) = inr sizes /\ walk_bytes st = foldl Z.add 0 sizes;
  walk_seqs : Forall2 (fun e s => entry_prop "seq" e = inr s) (take m all) (walk_ends st);
  walk_entries : m = 0%nat \/ Z.of_nat m <= max_log_entries budget;
  walk_prefixes : forall k, (1 <= k <= m)%nat -> prefix_bounded (walk_direct st) k;
  walk_nodup : NoDup (walk_direct st);
  walk_count : walk_direct st = [] \/ Z.of_nat (length (walk_direct st)) <= max_touched_chunks budget;
  walk_size : walk_direct st <> [] -> is_Some (walk_locked st) /\
    sum_bytes ds (with_neighbor (walk_locked st) (walk_direct st)) <= max_touched_bytes budget
}.

Lemma derive_owner current n : current <> [] -> n <> 0%nat -> is_Some (deriveOwnerAndNeighbor current n).1.
Proof. intros Hc Hn. destruct current; [done|]. unfold deriveOwnerAndNeighbor. destruct (Nat.eqb_spec n 0); [done|]. by eexists. Qed.

Lemma direct_needs_descriptors m : ds = [] -> direct_indexes ds m = [].
Proof.
  intros ->. unfold direct_indexes. induction m as [|p m IH]; [done|]. cbn [foldl]. exact IH.
Qed.

Lemma prefix_bounded_mono d1 d2 k : (forall j, j ∈ d1 -> j ∈ d2) -> prefix_bounded d1 k -> prefix_bounded d2 k.
Proof. intros Hd (raw & sizes & H1 & H2 & H3 & H4). exists raw, sizes. split_and!; auto. Qed.

(** Leaving the state as it is, but for a pair locked while nothing was touched. *)
Lemma walk_stop m st locked : walk_inv m st -> (walk_locked st = None \/ locked = walk_locked st) ->
  walk_inv m (Walk (walk_ends st) (walk_direct st) locked (walk_mutations st) (walk_bytes st)).
Proof.
  intros [H1 H2 H3 H4 H5 H6 H7 H8] Hl. split; cbn [walk_mutations walk_bytes walk_ends walk_direct walk_locked]; try done.
  intros Hne. destruct (H8 Hne) as [[p Hp] Hsum]. destruct Hl as [Hl| ->]; [congruence|]. split; [by eexists|exact Hsum].
Qed.

(** Accepting an entry within the ceilings. *)
Lemma walk_accept m entry st mu previous added seq locked direct : walk_inv m st -> all !! m = Some entry ->
  entryToMutation entry = inr mu -> contribution_of byteLength ds (own_get (mutation_id mu) (walk_mutations st)) = inr previous ->
  computeMutationContribution byteLength ds mu = inr added -> entry_prop "seq" entry = inr seq ->
  Z.of_nat m + 1 <= max_log_entries budget -> walk_bytes st - previous + added <= max_mutation_bytes budget ->
  direct = union_indexes (walk_direct st) (direct_indexes ds (str_set (mutation_id mu) mu (walk_mutations st))) ->
  Z.of_nat (length direct) <= max_touched_chunks budget ->
  sum_bytes ds (with_neighbor locked direct) <= max_touched_bytes budget -> (direct <> [] -> is_Some locked) ->
  walk_inv (S m) (Walk (walk_ends st ++ [seq]) direct locked (str_set (mutation_id mu) mu (walk_mutations st))
    (walk_bytes st - previous + added)).
Proof.
  intros [H1 (raw & sizes & Hraw & Hmap & Hsizes & Hbytes) H3 H4 H5 H6 H7 H8] Hentry Emu Ep Ea Eseq Hen Hmax Hdir Hcount Hsum Hlock.
  rewrite Hmap in *. destruct (union_indexes_spec (direct_indexes ds (str_set (mutation_id mu) mu (collapse raw))) (walk_direct st) H6) as [Hun Hue].
  rewrite <- Hdir in Hun, Hue. rewrite <- collapse_snoc in *.
  assert (Htake : take (S m) all = take m all ++ [entry]) by by apply take_S_r.
  assert (Hraw' : collect (entryToMutation <$> take (S m) all) = inr (raw ++ [mu])).
  { rewrite Htake, fmap_app, collect_app, Hraw. cbn. by rewrite Emu. }
  destruct (contributions_set (computeMutationContribution byteLength ds) (mutation_id mu) mu (collapse raw) sizes previous added Hsizes) as
    (sizes' & Hs' & Ht'); [unfold contribution_of in Ep; by destruct (own_get _ _)|done|].
  rewrite <- collapse_snoc in Hs'.
  split; cbn [walk_mutations walk_bytes walk_ends walk_direct walk_locked]; try done; [| | |right; lia| |by right|].
  - apply lookup_lt_Some in Hentry. lia.
  - exists (raw ++ [mu]), sizes'. split_and!; [done|done|done|]. rewrite Ht', <- Hbytes. done.
  - rewrite Htake. apply Forall2_app; [done|by repeat constructor].
  - intros k Hk. destruct (decide (k = S m)) as [->|].
    + exists (raw ++ [mu]), sizes'. split_and!; [done|done|lia|]. intros j Hj. apply Hue. by right.
    + apply (prefix_bounded_mono (walk_direct st)); [intros j Hj; apply Hue; by left|]. apply H5. lia.
  - intros Hne. split; [by apply Hlock|done].
Qed.

Lemma prefetch_step_inv m entry st go st' : all !! m = Some entry -> walk_inv m st ->
  prefetch_step byteLength ds budget m entry st = inr (go, st') ->
  if (go : bool) then walk_inv (S m) st' else walk_inv m st'.
Proof.
  intros Hentry Hinv. unfold prefetch_step. destruct (_ <? Z.of_nat m + 1) eqn:En; [by intros [= <- <-]|].
  destruct (entryToMutation entry) as [er|mu] eqn:Emu; [done|]. cbn [rbind].
  destruct (contribution_of _ _ _) as [er|previous] eqn:Ep; [done|]. cbn [rbind].
  destruct (computeMutationContribution byteLength ds mu) as [er|added] eqn:Ea; [done|]. cbn [rbind].
  destruct (_ <? walk_bytes st - previous + added) eqn:Eb; [by intros [= <- <-]|].
  set (current := direct_indexes ds (str_set _ mu _)).
  pose proof (derive_owner current (length ds)) as Howner.
  destruct (deriveOwnerAndNeighbor current (length ds)) as [owner neighbor] eqn:Ed. cbn [fst] in Howner.
  set (locked := match walk_locked st with Some p => Some p | None => match owner with Some o => Some (o, neighbor) | None => None end end).
  set (moved := match walk_locked st with Some (o, n) => negb (bool_decide (owner = Some o) && bool_decide (neighbor = n)) | None => false end).
  destruct moved; [by intros [= <- <-]|].
  assert (Hstop : walk_inv m (Walk (walk_ends st) (walk_direct st) locked (walk_mutations st) (walk_bytes st))).
  { apply walk_stop; [done|]. subst locked. destruct (walk_locked st); [by right|by left]. }
  destruct (max_touched_chunks budget <? _) eqn:Ec; [by intros [= <- <-]|].
  destruct (max_touched_bytes budget <? _) eqn:Es; [by intros [= <- <-]|].
  destruct (entry_prop "seq" entry) as [er|seq] eqn:Eseq; [done|]. cbn [rbind]. intros [= <- <-].
  apply Z.ltb_ge in En, Eb, Ec, Es. apply (walk_accept m entry st mu previous added seq locked); try done.
  intros Hne. subst locked. destruct (walk_locked st) as [p|] eqn:El; [by eexists|].
  assert (Hdn : walk_direct st = []).
  { destruct (decide (walk_direct st = [])) as [|Hd]; [done|]. destruct (walk_size m st Hinv Hd) as [Hsome _].
    rewrite El in Hsome. by apply is_Some_None in Hsome. }
  destruct (decide (current = [])) as [Hc|Hc]; [by rewrite Hdn, Hc in Hne|].
  destruct Howner as [o ->]; [done| |by eexists]. intros Hl. apply Hc. apply nil_length_inv in Hl. by apply direct_needs_descriptors.
Qed.

Lemma prefetch_loop_inv entries : forall m st st', entries = drop m all -> walk_inv m st ->
  prefetch_loop byteLength ds budget m entries st = inr st' -> exists n, walk_inv n st'.
Proof.
  induction entries as [|entry entries IH]; intros m st st' He Hst; cbn [prefetch_loop].
  { intros [= <-]. by exists m. }
  assert (Hentry : all !! m = Some entry) by (rewrite <- (Nat.add_0_r m), <- lookup_drop, <- He; done).
  destruct (prefetch_step _ _ _ _ _ _) as [er|[go st1]] eqn:Es; [done|]. cbn [rbind fst snd].
  pose proof (prefetch_step_inv m entry st go st1 Hentry Hst Es) as H1. destruct go; [|intros [= <-]; by exists m].
  apply IH; [|done]. assert (E : entries = drop 1 (drop m all)) by by rewrite <- He. rewrite E, drop_drop. f_equal. lia.
Qed.

Lemma walk_start : walk_inv 0 (Walk [] [] None [] 0).
Proof.
  split; cbn [walk_mutations walk_bytes walk_ends walk_direct walk_locked]; [lia|by exists [], []|constructor|by left|lia|constructor|by left|done].
Qed.
End walk.

(** ** Entries *)

(** A JSON log entry, its id a JS string. *)
Definition entry_ok (e : LogEntry) : Prop :=
  json_ok e = true /\ match prop (js "doc_id") e with Some (JStr s) => units_ok s | _ => True end.

Lemma entryToMutation_json e mu : entry_ok e -> entryToMutation e = inr mu ->
  units_ok (mutation_id mu) /\ match mu with MWrite _ _ after => json_ok after = true | MDelete _ => True end.
Proof.
  intros [Hj Hu]. unfold entryToMutation, entry_prop. destruct (prop (js "doc_id") e) as [d|]; [|done]. cbn [rbind].
  destruct (as_doc_id d) as [id|] eqn:Ed; [|done]. cbn [or_code rbind]. apply as_doc_id_Some in Ed as [-> _].
  destruct (prop (js "op") e) as [op|]; [|done]. cbn [rbind]. destruct (strict_eq op (JStr (js "D"))); [by intros [= <-]|].
  destruct (prop (js "after") e) as [after|] eqn:Ea; [|done]. cbn [rbind]. destruct (strict_eq after JUndef) eqn:Eu; [done|].
  destruct (assertPostImageIdentity id after InvalidResponse); [done|]. intros [= <-]. split; [done|].
  destruct e as [| | | | | |o|]; try done; cbn [prop] in Ea; try (by injection Ea as <-).
  injection Ea as <-. unfold js_get in *. destruct (own_get (js "after") o) as [v|] eqn:Eo.
  - apply json_ok_obj in Hj as [_ Hj]. apply own_get_In in Eo. rewrite Forall_forall in Hj. by apply (Hj _ Eo).
  - rewrite decide_False in Eu |- * by js_decide. rewrite decide_False in Eu |- * by js_decide. done.
Qed.

Lemma collect_mutations entries raw : Forall entry_ok entries -> collect (entryToMutation <$> entries) = inr raw ->
  Forall (fun mu => units_ok (mutation_id mu)) raw /\
  Forall (fun mu => match mu with MWrite _ _ after => json_ok after = true | MDelete _ => True end) raw.
Proof.
  intros Hok H%collect_Forall2. apply Forall_and. induction H as [|e mu l k Hmu _ IH]; [constructor|].
  apply Forall_cons in Hok as [He Hok]. constructor; [by apply (entryToMutation_json e)|by apply IH].
Qed.

(** ** Selection *)

Lemma sub_nil (l : list nat) : (forall j, j ∈ l -> j ∈ []) -> l = [].
Proof. intros H. destruct l as [|j l]; [done|]. assert (j ∈ []) as Hj by (apply H; left). by apply elem_of_nil in Hj. Qed.

Lemma select_prefix_spec byteLength i p ends : forall count lastAdmitted c,
  select_prefix byteLength i p ends count lastAdmitted = inr (Some c) ->
  lastAdmitted = Some c \/
  exists k, (k < length ends)%nat /\ ends !! k = Some (cand_end c) /\
    evaluate_candidate byteLength i p (cand_end c) (S (count + k)) = inr c /\ over_budget (plan_budget i) c = false.
Proof.
  induction ends as [|e ends IH]; intros count lastAdmitted c; cbn [select_prefix]; [intros [= ->]; by left|].
  destruct (evaluate_candidate byteLength i p e (S count)) as [er|c'] eqn:Ec; [done|]. cbn [rbind].
  destruct (over_budget _ c') eqn:Eo; [intros [= ->]; by left|]. intros [[= ->]|(k & Hk & He & Hc & Ho)]%IH; right.
  - exists 0%nat. assert (cand_end c = e) as Eend.
    { unfold evaluate_candidate in Ec. destruct (mutation_map _) as [?|?]; [done|]. cbn [rbind] in Ec. destruct (collect _) as [?|?]; [done|].
      cbn [rbind] in Ec. destruct (evaluateSnapshotChunks _ _) as [?|?]; [done|]. cbn [rbind] in Ec. by injection Ec as <-. }
    cbn [length lookup list_lookup]. rewrite Nat.add_0_r, Eend. split_and!; [lia|done|done|done].
  - exists (S k). cbn [length lookup list_lookup]. replace (S (count + S k)) with (S (S count + k)) by lia. split_and!; [lia|done|done|done].
Qed.

Lemma mutation_map_spec entries m : mutation_map entries = inr m -> exists raw,
  collect (entryToMutation <$> entries) = inr raw /\ m = collapse raw.
Proof. unfold mutation_map. destruct (collect _) as [e|raw]; [done|]. intros [= <-]. by exists raw. Qed.

Lemma evaluate_candidate_spec byteLength i p endpoint n c : evaluate_candidate byteLength i p endpoint n = inr c ->
  exists raw sizes, collect (entryToMutation <$> take n (plan_entries i)) = inr raw /\ cand_mutations c = collapse raw /\
    collect (computeMutationContribution byteLength (plan_descriptors i) <$> (collapse raw).*2) = inr sizes /\
    cand_bytes c = foldl Z.add 0 sizes /\ cand_touched c = sorted_indexes (direct_indexes (plan_descriptors i) (collapse raw)) /\
    evaluateSnapshotChunks byteLength (build_input i p (collapse raw)) = inr (cand_evaluation c).
Proof.
  unfold evaluate_candidate. destruct (mutation_map _) as [er|m] eqn:Em; [done|]. cbn [rbind].
  apply mutation_map_spec in Em as (raw & Hraw & ->). destruct (collect (computeMutationContribution _ _ <$> _)) as [er|sizes] eqn:Es; [done|].
  cbn [rbind]. destruct (evaluateSnapshotChunks _ _) as [er|ev] eqn:Ee; [done|]. cbn [rbind]. intros [= <-]. by exists raw, sizes.
Qed.

Lemma mint_fields byteLength sha256 prefix incarnation e build : mint byteLength sha256 prefix incarnation e = inr build ->
  build_split_increments build = split_increments e /\ build_used_neighbor build = used_neighbor_chunk_index e.
Proof. unfold mint. destruct (collect (_ <$> layout e)); [done|]. by intros [= <-]. Qed.

Lemma prefetch_spec byteLength entries ds budget p : prefetchChunkedFold byteLength entries ds budget = inr p ->
  exists n st, walk_inv byteLength ds budget entries n st /\ candidate_log_seq_ends p = walk_ends st /\
    directly_touched_chunk_indexes p = sorted_indexes (walk_direct st) /\
    touched_bytes p = sum_bytes ds (with_neighbor (walk_locked st) (walk_direct st)).
Proof.
  unfold prefetchChunkedFold. destruct (prefetch_loop _ _ _ _ _ _) as [er|st] eqn:El; [done|]. cbn [rbind]. intros [= <-].
  destruct (prefetch_loop_inv byteLength ds budget entries entries 0 (Walk [] [] None [] 0) st) as [n Hn]; [done|apply walk_start|done|].
  exists n, st. split_and!; [done|done|done|]. apply sum_bytes_sorted.
Qed.

(** What an admitted candidate builds is the fold of its entries. *)
Lemma candidate_refines byteLength sha256 i cs p n raw ev build :
  (forall b, 0 < byteLength b) -> one_line (plan_collectionPrefix i) -> snapshot_of (plan_descriptors i) cs ->
  (forall j d c, plan_descriptors i !! j = Some d -> cs !! j = Some c ->
     forall docs, own_get (descriptor_key d) (plan_loadedChunks i) = Some docs -> docs = chunk_docs c) ->
  Forall entry_ok (plan_entries i) -> collect (entryToMutation <$> take n (plan_entries i)) = inr raw ->
  evaluateSnapshotChunks byteLength (build_input i p (collapse raw)) = inr ev ->
  mint byteLength sha256 (plan_collectionPrefix i) (plan_incarnation i) ev = inr build ->
  forall out, foldChunkedSnapshotReference (docs_of (chunk_rows cs)) raw = inr out ->
    exists cs', snapshot_of (build_chunks build) cs' /\ mapM canonicalizeDocument out.*2 = Some (chunk_rows cs').
Proof.
  intros Hpos Hp Hsnap Hloaded Hentries Hraw Heval Em out Hfold. pose proof (snapshot_rows_sorted _ _ Hsnap) as Hsorted.
  destruct (collect_mutations _ raw (Forall_take _ n _ Hentries) Hraw) as [Hu Hj].
  destruct (fold_collapse _ raw out Hsorted Hu Hj Hfold) as (out' & Hfold' & <-).
  destruct (collapse_wf raw) as (_ & Hkeys & Hsubm).
  assert (Hall : forall P, Forall P raw -> Forall P (collapse raw).*2).
  { intros P HP. apply Forall_fmap, Forall_forall. intros q Hq. rewrite Forall_forall in HP. by apply HP, Hsubm. }
  destruct (build_refines byteLength sha256 (build_input i p (collapse raw)) cs out' build) as (cs' & H & H' & _);
    [done|done|by split; auto|done| |by exists cs'].
  unfold buildSnapshotChunks. rewrite Heval. exact Em.
Qed.

(** ** Theorems *)

(** C24: A planned fold folds a prefix of the log within its budget: the plan ends at the
    sequence of some entry [n >= 1], its map is the prefix's mutations with the last write
    of each id; the entries, the octets of the final mutations, the split increments and
    the neighbours used are within the budget; so are, for a fold that touches a chunk, the
    touched chunks (all of them among the prefetched) and the declared octets of the fetched
    ones (a fold that touches none may still have fetched a neighbour past it); and the
    chunks it built hold exactly the rows of the reference fold of those [n] entries in
    log order, in canonical form, in strictly increasing disjoint ranges. *)
Theorem fold_plan_sound byteLength sha256 i cs plan :
  (forall b, 0 < byteLength b) -> one_line (plan_collectionPrefix i) -> snapshot_of (plan_descriptors i) cs ->
  (forall j d c, plan_descriptors i !! j = Some d -> cs !! j = Some c ->
     forall docs, own_get (descriptor_key d) (plan_loadedChunks i) = Some docs -> docs = chunk_docs c) ->
  Forall entry_ok (plan_entries i) -> plan_entries i <> [] ->
  planChunkedFold byteLength sha256 i = inr (Some plan) ->
  exists n e raw, (1 <= n)%nat /\ plan_entries i !! (n - 1)%nat = Some e /\ entry_prop "seq" e = inr (log_seq_end plan) /\
    collect (entryToMutation <$> take n (plan_entries i)) = inr raw /\ plan_mutations plan = collapse raw /\
    (Z.of_nat n <= max_log_entries (plan_budget i) /\ mutation_bytes plan <= max_mutation_bytes (plan_budget i) /\
     (forall j, j ∈ touched_chunk_indexes plan -> j ∈ directly_touched_chunk_indexes (plan_prefetch plan)) /\
     (touched_chunk_indexes plan <> [] ->
        Z.of_nat (length (touched_chunk_indexes plan)) <= max_touched_chunks (plan_budget i) /\
        touched_bytes (plan_prefetch plan) <= max_touched_bytes (plan_budget i)) /\
     Z.of_nat (build_split_increments (plan_build plan)) <= max_split_increments (plan_budget i) /\
     match build_used_neighbor (plan_build plan) with None => 0 | Some _ => 1 end <= max_neighbor_chunks (plan_budget i)) /\
    forall out, foldChunkedSnapshotReference (docs_of (chunk_rows cs)) raw = inr out ->
      exists cs', snapshot_of (build_chunks (plan_build plan)) cs' /\ mapM canonicalizeDocument out.*2 = Some (chunk_rows cs').
Proof.
  intros Hpos Hp Hsnap Hloaded Hentries Hne. unfold planChunkedFold.
  destruct (prefetchChunkedFold _ _ _ _) as [er|p] eqn:Ep; [done|]. cbn [rbind].
  apply prefetch_spec in Ep as (m & st & [H1 _ H3 H4 H5 H6 H7 H8] & Eends & Edirect & Ebytes).
  destruct (Nat.eqb_spec (length (candidate_log_seq_ends p)) 0).
  { destruct (Nat.eqb_spec (length (plan_entries i)) 0) as [E|]; [by apply nil_length_inv in E|done]. }
  destruct (select_prefix _ _ _ _ _ _) as [er|[c|]] eqn:Es; cbn [rbind]; [done| |done].
  destruct (mint _ _ _ _ _) as [er|build] eqn:Em; [done|]. cbn [rbind]. intros [= <-].
  cbn [log_seq_end plan_mutations mutation_bytes touched_chunk_indexes plan_prefetch plan_build].
  apply select_prefix_spec in Es as [?|(k & Hk & Hend & Hc & Hbudget)]; [done|]. cbn [plus] in Hc. rewrite Eends in Hk, Hend.
  apply evaluate_candidate_spec in Hc as (raw & sizes & Hraw & Hmuts & Hsizes & Hcb & Htouched & Heval).
  pose proof (Forall2_length _ _ _ H3) as Hlen. rewrite length_take in Hlen.
  destruct (Forall2_lookup_r _ _ _ _ _ H3 Hend) as (e & He & Hseq). apply lookup_take_Some in He as [He Hkm].
  destruct (H5 (S k)) as (raw' & sizes' & Hraw' & Hsizes' & Hmax & Hdir); [lia|].
  assert (raw' = raw) as -> by congruence. assert (sizes' = sizes) as -> by congruence.
  assert (Hsub : forall j, j ∈ cand_touched c -> j ∈ walk_direct st).
  { intros j. rewrite Htouched. unfold sorted_indexes. rewrite (sort_by_perm Nat.ltb _). apply Hdir. }
  unfold over_budget in Hbudget. apply orb_false_iff in Hbudget as [Hsplit%Z.ltb_ge Hneigh%Z.ltb_ge].
  destruct (mint_fields _ _ _ _ _ _ Em) as [Hb1 Hb2]. exists (S k), e, raw. replace (S k - 1)%nat with k by lia. split_and!; try done; try lia.
  - intros j Hj. rewrite Edirect. unfold sorted_indexes. rewrite (sort_by_perm Nat.ltb _). by apply Hsub.
  - intros Htne. assert (Hd : walk_direct st <> []) by (intros Hd; apply Htne; rewrite Hd in Hsub; by apply sub_nil).
    destruct H7 as [?|H7]; [done|]. split; [|rewrite Ebytes; by apply H8].
    assert (Hle : (length (cand_touched c) <= length (walk_direct st))%nat).
    { apply submseteq_length, NoDup_submseteq; [|done]. rewrite Htouched. unfold sorted_indexes.
      rewrite (sort_by_perm Nat.ltb _). apply direct_indexes_nodup. }
    lia.
  - by rewrite Hb2.
  - by apply (candidate_refines byteLength sha256 i cs p (S k) raw (cand_evaluation c) build).
Qed.

(** An insert and a delete of the log, on the sample chunks. *)
Definition sample_entry (seq : Z) (op id : string) : LogEntry :=
  JObj [(js "seq", num seq); (js "op", JStr (js op)); (js "doc_id", JStr (js id)); (js "after", chunk_row id)].

Definition sample_plan_input : PlanChunkedFoldInput :=
  PlanInput (js "t") (js "a/t") [sample_entry 7 "I" "e"; sample_entry 8 "D" "h"] (chunks chunked_manifest)
    (in_loadedChunks sample_build) (Budget 512 1048576 8 2097152 4 1) (mjoin (replicate 32 (js "4"))) c128_r512 None.

Lemma planned_sample : exists plan, planChunkedFold sample_length sample_sha256 sample_plan_input = inr (Some plan) /\
  log_seq_end plan = num 8.
Proof.
  assert (E : match planChunkedFold sample_length sample_sha256 sample_plan_input with
              | inr (Some plan) => log_seq_end plan = num 8 | _ => False end) by (vm_compute; reflexivity).
  destruct (planChunkedFold sample_length sample_sha256 sample_plan_input) as [e|[plan|]]; [done| |done]. by exists plan.
Qed.

Lemma fold_plan_sound_witness : exists plan n, planChunkedFold sample_length sample_sha256 sample_plan_input = inr (Some plan) /\
  (1 <= n)%nat /\ mutation_bytes plan <= 1048576.
Proof.
  destruct planned_sample as (plan & Hplan & _). exists plan.
  destruct (fold_plan_sound sample_length sample_sha256 sample_plan_input sample_chunks plan) as (n & e & raw & Hn & _ & _ & _ & _ & (_ & Hb & _) & _).
  - intros b. reflexivity.
  - vm_compute. reflexivity.
  - exact sample_snapshot_of.
  - exact (input_loaded _ _ sample_input_ok).
  - repeat constructor; vm_compute; reflexivity.
  - discriminate.
  - exact Hplan.
  - exists n. split; [exact Hplan|]. split; [exact Hn|exact Hb].
Defined.

(** ** The neighbour of a refused owner *)

(** The walk locks its pair before it checks the ceilings, so when the entry that would
    first touch a chunk is refused, the owner's neighbour is fetched all the same: no
    candidate can use it, and its size alone may exceed the ceiling. *)
Lemma refused_owner_neighbor :
  (fun p => (candidate_log_seq_ends p, directly_touched_chunk_indexes p, chunk_indexes p, touched_bytes p)) <$>
    match prefetchChunkedFold sample_length [sample_entry 7 "D" "e"; sample_entry 8 "I" "c"] (chunks chunked_manifest)
            (Budget 512 1048576 8 50 4 1) with inr p => Some p | inl _ => None end =
  Some ([num 7], [], [1%nat], 64).
Proof. vm_compute. reflexivity. Qed.
