(* ===== verification/Budget.v ===== *)
(** * Storage calls of a program, whatever they answer

    [costs n p P]: however the calls of [p] answer, it makes at most [n] of them and its
    outcome satisfies [P].  [resp] restricts what a read may answer, so that a bound can be
    stated for the runs in which, say, a slot is known to be empty. *)
From S2P Require Import Prelude JsText JsValue Errors Json Storage Effects Lsn CurrentJson LogWalk LogTail.
Local Open Scope Z_scope.

(** What a read of a key may answer. *)
Abbreviation responses := (jsstr -> result (option StorageGetResult) -> Prop).

Definition any_response : responses := fun _ _ => True.

Fixpoint costs (resp : responses) {A} (n : nat) (p : prog A) (P : result A -> Prop) {struct p} : Prop :=
  match p with
  | Ret a => P (inr a)
  | Throw e => P (inl e)
  | Get key k => match n with O => False | S n => forall x, resp key x -> costs resp n (k x) P end
  | Put _ _ _ k => match n with O => False | S n => forall x, costs resp n (k x) P end
  | Delete _ k => match n with O => False | S n => forall x, costs resp n (k x) P end
  | List _ _ _ k => match n with O => False | S n => forall x, costs resp n (k x) P end
  end.

Section costs.
Context (resp : responses).
Abbreviation cost := (costs resp).

Lemma costs_mono {A} (p : prog A) n m (P Q : result A -> Prop) : (n <= m)%nat -> (forall r, P r -> Q r) ->
  cost n p P -> cost m p Q.
Proof.
  intros Hle HPQ. revert n m Hle. induction p as [a|e|k f IH|k b o f IH|k f IH|pr af c f IH]; intros n m Hle; cbn [costs];
    [apply HPQ|apply HPQ|..]; destruct n as [|n], m as [|m]; try done; try lia; cbn [costs]; intros H x.
  - intros Hx. apply (IH x n m); [lia|by apply H].
  - apply (IH x n m); [lia|done].
  - apply (IH x n m); [lia|done].
  - apply (IH x n m); [lia|done].
Qed.

Lemma costs_attempt {A B} (p : prog A) (f : result A -> prog B) n m k (P : result A -> Prop) (Q : result B -> Prop) :
  cost n p P -> (forall r, P r -> cost m (f r) Q) -> (n + m <= k)%nat -> cost k (attempt p f) Q.
Proof.
  intros Hp Hf Hk. apply (costs_mono _ (n + m) k Q); [done..|]. clear Hk. revert n Hp.
  induction p as [a|e|key g IH|key b o g IH|key g IH|pr af c g IH]; intros n; cbn [costs attempt].
  1, 2: intros HP; eapply costs_mono; [|done|by apply Hf]; lia.
  all: destruct n as [|n]; cbn [costs Nat.add]; [by intros []|]; intros H *; try intros Hx; apply IH; by apply H.
Qed.

Lemma costs_bind {A B} (p : prog A) (f : A -> prog B) n m k (P : result A -> Prop) (Q : result B -> Prop) :
  cost n p P -> (forall e, P (inl e) -> Q (inl e)) -> (forall a, P (inr a) -> cost m (f a) Q) -> (n + m <= k)%nat ->
  cost k (bind p f) Q.
Proof. intros Hp He Hf Hk. eapply costs_attempt; [done| |done]. intros [e|a] Hr; [by apply He|by apply Hf]. Qed.

Lemma costs_of_result {A} (r : result A) (P : result A -> Prop) : P r -> cost 0 (of_result r) P.
Proof. by destruct r. Qed.

Lemma costs_check o (P : result unit -> Prop) : (forall e, P (inl e)) -> (o = None -> P (inr tt)) -> cost 0 (check o) P.
Proof. intros He Ho. destruct o; cbn [check costs]; [by apply He|by apply Ho]. Qed.

Lemma costs_get key (P : result (option StorageGetResult) -> Prop) : (forall x, resp key x -> P x) ->
  cost 1 (storage_get key) P.
Proof. intros H x Hx. apply costs_of_result. by apply H. Qed.

Lemma costs_put key b o : cost 1 (storage_put key b o) (fun _ => True).
Proof. intros x. by apply costs_of_result. Qed.

Lemma costs_delete key : cost 1 (storage_delete key) (fun _ => True).
Proof. intros x. by apply costs_of_result. Qed.

Lemma costs_list pr af c : cost 1 (storage_list pr af c) (fun _ => True).
Proof. intros x. by apply costs_of_result. Qed.

(** Every call of a batch is issued. *)
Lemma costs_promise_all {A B} (l : list A) (f : A -> prog B) c : (forall x, x ∈ l -> cost c (f x) (fun _ => True)) ->
  cost (c * length l) (promise_all l f) (fun _ => True).
Proof.
  intros Hf. unfold promise_all. eapply (costs_bind _ _ (c * length l) 0 _ (fun _ => True)); [|done| |lia].
  - induction l as [|x l IH]; cbn [settle_all length]; [done|].
    eapply (costs_attempt _ _ c (c * length l)); [apply Hf; by left| |lia]. intros r _.
    eapply (costs_bind _ _ (c * length l) 0); [apply IH; intros; apply Hf; by right|done|done|lia].
  - intros rs _. by apply costs_of_result.
Qed.

(** ** Reads and updates of the manifest *)

(** The manifests a read of [key] may find. *)
Definition readable (key : jsstr) (c : CurrentJson) : Prop :=
  exists g, resp key (inr (Some g)) /\ decode_current (body g) = inr c.

Lemma costs_readCurrentJson key : cost 1 (readCurrentJson key)
  (fun r => forall cr, r = inr (Some cr) -> readable key (json cr)).
Proof.
  unfold readCurrentJson. eapply (costs_bind _ _ 1 0 _ (fun x => resp key x)); [by apply costs_get|done| |lia].
  intros [g|] Hg; [|done]. eapply (costs_bind _ _ 0 0 _ (fun r => r = decode_current (body g))); [by apply costs_of_result|done| |lia].
  cbn [costs]. intros c Hc cr [= <-]. cbn [json]. by exists g.
Qed.

Lemma costs_casUpdate {X} key (f : CurrentJson -> result (CurrentJson * X)) :
  cost 2 (casUpdateCurrentJson key f) (fun r => forall cr x, r = inr (cr, x) -> exists c, f c = inr (json cr, x)).
Proof.
  unfold casUpdateCurrentJson. eapply (costs_bind _ _ 1 1); [apply costs_readCurrentJson|done| |lia].
  intros [existing|] _; [|done]. eapply (costs_bind _ _ 0 1 _ (fun r => r = f (json existing))); [by apply costs_of_result|done| |lia].
  intros [next x] Hf. eapply (costs_bind _ _ 0 1 _ (fun _ => True)); [|done| |lia].
  { unfold check_current. eapply (costs_bind _ _ 0 0 _ (fun _ => True)); [by apply costs_of_result|done..]. }
  intros _ _. eapply (costs_bind _ _ 0 1 _ (fun _ => True)); [by apply costs_check|done| |lia].
  intros _ _. eapply (costs_bind _ _ 0 1 _ (fun _ => True)); [by unfold encodeJson; destruct (encodeJsonBytes _)|done| |lia].
  intros b _. eapply (costs_bind _ _ 1 0 _ (fun _ => True)); [|done| |lia].
  { unfold catch. eapply (costs_attempt _ _ 1 0); [apply costs_put| |lia]. by intros [e|r] _. }
  cbn [costs]. intros put _ cr x' [= <- <-]. by exists (json existing).
Qed.

(** ** Reads of the log *)

Lemma costs_probe_loop n p : forall s es ok, cost n (probe_loop n p s false es ok)
  (fun r => match r with
            | inr (Exact tail _ _) => s <= tail < s + Z.of_nat n
            | inr (AtLeast bound _ _) => bound = s + Z.of_nat n
            | inl _ => True
            end).
Proof.
  induction n as [|n IH]; intros s es ok; cbn [probe_loop]; [cbn [costs]; lia|].
  eapply (costs_bind _ _ 1 n _ (fun _ => True)); [by apply costs_get|done| |lia].
  intros [g|] _; [|cbn [costs]; lia]. destruct (decodeJsonBytes (body g)) as [entry|]; [|done].
  eapply costs_mono; [done| |apply IH]. intros [e|[t ? ?|b ? ?]]; [done|lia..].
Qed.

(** One read when nothing is there. *)
Lemma costs_probe_empty p s : (forall g, ~ resp (logObjectKey p s) (inr (Some g))) ->
  cost 1 (probeTailFrom p s) (fun r => forall t, r = inr t -> t.1 = s).
Proof.
  intros Hno. unfold probeTailFrom, probeTailFrom_cap, probeTailChunk.
  change (Z.to_nat LOG_FORWARD_PROBE_CAP) with (S (Z.to_nat 99999)). cbn [probe_loop].
  eapply (costs_bind _ _ 1 0 _ (fun r => forall t, r = inr t -> t = Exact s [] true)); [|done| |lia].
  - eapply (costs_bind _ _ 1 0 _ (fun x => resp (logObjectKey p s) x)); [by apply costs_get|done| |lia].
    intros [g|] Hg; [by destruct (Hno g)|]. cbn [costs]. by intros t [= <-].
  - intros t Ht. rewrite (Ht t eq_refl). cbn [costs]. by intros ? [= <-].
Qed.

Lemma costs_probeTailFrom p s : cost (Z.to_nat LOG_FORWARD_PROBE_CAP) (probeTailFrom p s)
  (fun r => forall t, r = inr t -> s <= t.1).
Proof.
  unfold probeTailFrom, probeTailFrom_cap, probeTailChunk.
  eapply (costs_bind _ _ _ 0); [apply costs_probe_loop|done| |apply Nat.eq_le_incl, Nat.add_0_r].
  intros [t es ?|b es ?] Hr; [|done]. cbn [costs]. intros ? [= <-]. cbn [fst]. lia.
Qed.

Section sized.
Context (byteLength : bytes -> Z) (byteLength_pos : forall b, 0 <= byteLength b).

Lemma costs_entries (l : list Z) p from :
  cost (length l) (for_each l (fun i => readLogEntryWithBytes byteLength (logObjectKey p (from + i))))
    (fun r => forall es, r = inr es -> length es = length l /\ Forall (fun z => 0 <= z) es.*2).
Proof.
  induction l as [|i l IH]; cbn [for_each length]; [by cbn [costs]; intros es [= <-]|].
  eapply (costs_bind _ _ 1 (length l) _ (fun r => forall e, r = inr e -> 0 <= e.2)); [|done| |lia].
  - unfold readLogEntryWithBytes. eapply (costs_bind _ _ 1 0 _ (fun _ => True)); [by apply costs_get|done| |lia].
    intros [g|] _; [|done]. destruct (decodeJsonBytes (body g)); [|done]. cbn [costs]. intros ? [= <-]. apply byteLength_pos.
  - intros e He. eapply (costs_bind _ _ (length l) 0); [exact IH|done| |lia]. intros es Hes. cbn [costs].
    intros ? [= <-]. destruct (Hes es eq_refl) as [Hl Hz]. rewrite fmap_cons. split; [cbn [length]; lia|]. constructor; [by apply He|done].
Qed.

Lemma costs_walk_chunks fuel p from total : forall start, (0 < fuel)%nat -> 0 <= start ->
  cost (Z.to_nat (total - start)) (walk_chunks byteLength fuel p from total start)
    (fun r => forall es, r = inr es -> (length es <= Z.to_nat (total - start))%nat /\ Forall (fun z => 0 <= z) es.*2).
Proof.
  induction fuel as [|fuel IH]; intros start Hf Hs; [lia|]. cbn [walk_chunks].
  destruct (Z.ltb_spec start total) as [Hlt|Hge]; [|cbn [costs]; intros es [= <-]; split; [cbn; lia|constructor]].
  assert (Hpar : 0 < MAX_PARALLEL_LOG_READS) by (unfold MAX_PARALLEL_LOG_READS; lia).
  set (stop := Z.min (start + MAX_PARALLEL_LOG_READS) total). cbv zeta.
  eapply (costs_bind _ _ (Z.to_nat (stop - start)) (Z.to_nat (total - stop))); [| | |lia].
  - eapply costs_mono; [|exact (fun r H => H)|apply costs_entries]. by rewrite length_seqZ.
  - done.
  - intros es Hes. destruct (Hes es eq_refl) as [Hl Hz]. rewrite length_seqZ in Hl.
    eapply (costs_bind _ _ (Z.to_nat (total - stop)) 0 _
      (fun r => forall rest, r = inr rest -> (length rest <= Z.to_nat (total - stop))%nat /\ Forall (fun z => 0 <= z) rest.*2)); [|done| |lia].
    + destruct fuel as [|fuel].
      { cbn [walk_chunks costs]. intros ? [= <-]. split; [cbn; lia|constructor]. }
      eapply costs_mono; [| |apply IH; lia]; [lia|]. intros r Hr rest E. destruct (Hr rest E) as [H1 H2]. split; [lia|done].
    + intros rest Hrest. destruct (Hrest rest eq_refl) as [Hr Hzr]. cbn [costs]. intros ? [= <-].
      rewrite length_app, fmap_app. split; [lia|]. by apply Forall_app.
Qed.

Lemma costs_walkLogRange p from stop : cost (Z.to_nat (stop - from)) (walkLogRangeWithBytes byteLength p from stop)
  (fun r => forall es, r = inr es -> (length es <= Z.to_nat (stop - from))%nat /\ Forall (fun z => 0 <= z) es.*2).
Proof.
  unfold walkLogRangeWithBytes. destruct (Z.leb_spec stop from); [cbn [costs]; intros es [= <-]; split; [cbn; lia|constructor]|].
  pose proof (costs_walk_chunks (Z.to_nat (stop - from)) p from (stop - from) 0) as H'. rewrite Z.sub_0_r in H'. apply H'; lia.
Qed.
End sized.
End costs.

(** ** Executions *)

(** Two conclusions about the same executions. *)
Lemma wp_and {A} R (p : prog A) (Q1 Q2 : result A -> world -> Prop) : forall w, wp R p Q1 w -> wp R p Q2 w ->
  wp R p (fun r w' => Q1 r w' /\ Q2 r w') w.
Proof. induction p; cbn [wp]; intros w H1 H2; intros; try (by split; [apply H1|apply H2]); by eauto. Qed.

(** What holds of every answer holds in every execution. *)
Lemma costs_wp {A} R n (p : prog A) (P : result A -> Prop) : costs any_response n p P -> forall w, wp R p (fun r _ => P r) w.
Proof.
  revert n. induction p as [a|e|k f IH|k b o f IH|k f IH|pr af c f IH]; intros n; cbn [costs wp]; [done|done|..];
    (destruct n as [|n]; [by intros []|]); intros H w w' _ x; intros; eapply IH; by apply H.
Qed.
