(* ===== verification/Maintenance.v ===== *)
(** * Maintenance (server/src/maintenance.ts, maintenance-options.ts)

    When a collection is folded, collected and retired: the profiles, the gate a writer
    checks after a commit, the write-tick runner with its fold and collection phases, and
    the scheduled pass.  Metrics and warnings are left out. *)
From Stdlib Require Import QArith Qcanon.
From S2P Require Import Prelude JsText JsValue Errors Json Storage Effects Predicate Satisfiable Validate Implies IndexCodec.
From S2P Require Import Lsn CurrentJson ManifestSafety LogWalk LogTail Retention Snapshot DocId Adoption Writer WriterSafety Indexes QueryPlanner.
From S2P Require Import IndexWalk Capacity Query View Compactor GcPending Gc Budget.
Local Open Scope Z_scope.

(** ** Constants and profiles (protocol/src/constants.ts) *)

Definition MAINTENANCE_TARGET_RATIO : Z := 1.
Definition MAINTENANCE_MIN_LIVE_BYTES : Z := 64 * 1024.
Definition MAINTENANCE_COLD_START_ENTRY_BYTES : Z := 128.
Definition WRITE_TICK_GC_INTERVAL : Z := 4.
Definition GC_STARVATION_GUARD : Z := 4.
Definition WRITE_TICK_GC_MAX_MARKS : nat := 20.
Definition WRITE_TICK_GC_MAX_SWEEPS : nat := 10.
Definition WRITE_TICK_FOLD_ENTRIES_PER_PASS : Z := 20.
Definition CF_FREE_COMPACT_TAIL_PROBE_GETS : Z := 25.
Definition WRITE_TICK_MIN_ENTRIES_TO_COMPACT : Z := 50.
Definition SCHEDULED_MIN_ENTRIES_TO_COMPACT : Z := 1.
Definition NODE_MAINTENANCE_FOLD_ENTRIES_PER_PASS : Z := 200.
Definition NODE_MAINTENANCE_GC_MAX_MARKS : nat := 200.
Definition NODE_MAINTENANCE_GC_MAX_SWEEPS : nat := 100.
Definition NODE_MAINTENANCE_GC_INTERVAL : Z := 2.
Definition MAINTENANCE_MAX_FOLD_BYTES_DEFAULT : Z := 512 * 1024.
Definition MAINTENANCE_MAX_FOLD_ROWS : Z := 2048.
Definition CF_PAID_MAINTENANCE_MAX_FOLD_BYTES : Z := 8 * 1024 * 1024.
Definition CF_PAID_MAINTENANCE_MAX_FOLD_ROWS : Z := 32768.
Definition NODE_MAINTENANCE_MAX_FOLD_BYTES : Z := 32 * 1024 * 1024.
Definition NODE_MAINTENANCE_MAX_FOLD_ROWS : Z := 65536.
Definition MAINTENANCE_WARN_INTERVAL_WRITES : Z := 1000.
Definition MAINTENANCE_TAIL_HINT_REFRESH_WRITES : Z := 128.

(** The two ceilings of a profile are the record [FoldCeilings] picks from it. *)
Record MaintenanceProfile := Profile {
  gcInterval : Z;
  gcMaxMarks : nat;
  gcMaxSweeps : nat;
  maxFoldEntriesPerPass : Z;
  fold_ceilings : FoldCeilings
}.

Definition MAINTENANCE_PROFILE_CF_FREE : MaintenanceProfile :=
  Profile WRITE_TICK_GC_INTERVAL WRITE_TICK_GC_MAX_MARKS WRITE_TICK_GC_MAX_SWEEPS WRITE_TICK_FOLD_ENTRIES_PER_PASS
    (Ceilings MAINTENANCE_MAX_FOLD_BYTES_DEFAULT MAINTENANCE_MAX_FOLD_ROWS).

Definition MAINTENANCE_PROFILE_NODE : MaintenanceProfile :=
  Profile NODE_MAINTENANCE_GC_INTERVAL NODE_MAINTENANCE_GC_MAX_MARKS NODE_MAINTENANCE_GC_MAX_SWEEPS
    NODE_MAINTENANCE_FOLD_ENTRIES_PER_PASS (Ceilings NODE_MAINTENANCE_MAX_FOLD_BYTES NODE_MAINTENANCE_MAX_FOLD_ROWS).

Definition MAINTENANCE_PROFILE_CF_PAID : MaintenanceProfile :=
  Profile NODE_MAINTENANCE_GC_INTERVAL NODE_MAINTENANCE_GC_MAX_MARKS NODE_MAINTENANCE_GC_MAX_SWEEPS
    NODE_MAINTENANCE_FOLD_ENTRIES_PER_PASS (Ceilings CF_PAID_MAINTENANCE_MAX_FOLD_BYTES CF_PAID_MAINTENANCE_MAX_FOLD_ROWS).

(** ** Options *)

(** The public and internal options of a scheduled pass; [None] is an absent one. *)
Record MaintenanceOptions := MaintenanceOpts {
  compact_options : option CompactOptions;
  gc_options : option RunGcOptions;
  logRetention : option RetentionOptions
}.

Definition profileToScheduledOptions (profile : MaintenanceProfile) (compactMaxTailProbeGets : option Z)
    (minEntriesToCompact : Z) : MaintenanceOptions :=
  MaintenanceOpts
    (Some (CompactOpts (Some minEntriesToCompact) (Some (maxFoldEntriesPerPass profile)) compactMaxTailProbeGets None None None))
    (Some (GcOpts None (Some (gcMaxMarks profile)) (Some (gcMaxSweeps profile)))) None.

Definition CLOUDFLARE_FREE_TIER : MaintenanceOptions :=
  profileToScheduledOptions MAINTENANCE_PROFILE_CF_FREE (Some CF_FREE_COMPACT_TAIL_PROBE_GETS)
    (maxFoldEntriesPerPass MAINTENANCE_PROFILE_CF_FREE).

Definition CLOUDFLARE_PAID_TIER : MaintenanceOptions :=
  profileToScheduledOptions MAINTENANCE_PROFILE_CF_PAID None SCHEDULED_MIN_ENTRIES_TO_COMPACT.

Inductive phases := single | both.

(** [BoundedMaintenanceOptions]; the clock is a parameter of the runner. *)
Record BoundedMaintenanceOptions := BoundedOpts {
  profile : option MaintenanceProfile;
  tick_minEntriesToCompact : option Z;
  phasesPerTick : option phases;
  gcGraceMillis : option Z;
  tick_logRetention : option RetentionOptions
}.

(** The arguments of one write tick, [storage] and key apart. *)
Record TickArgs := Tick {
  prevSeq : Z;
  observedTail : option Z;
  tick_maxFoldBytes : option Z;
  disabled : option bool
}.

(** ** Gates *)

(** [interval] is positive in every profile. *)
Definition crossesGcBoundary (prevSeq nextSeq interval : Z) : bool :=
  negb (prevSeq / interval =? nextSeq / interval).

Definition estimateTailBytes (current : CurrentJson) (observedTail : Z) : Z :=
  Z.max 0 (observedTail - log_seq_start current) *
  default MAINTENANCE_COLD_START_ENTRY_BYTES (mean_entry_bytes current).

(** [tailBytes / max(snapshotBytes, floor) >= ratio]: the divisor is positive, and a rounded
    quotient of integers reaches 1 exactly when the exact one does. *)
Definition ratio_trips (tailBytes snapshotBytes : Z) : bool :=
  MAINTENANCE_TARGET_RATIO * Z.max snapshotBytes MAINTENANCE_MIN_LIVE_BYTES <=? tailBytes.

Definition shouldFireMaintenance (current : CurrentJson) (prevSeq gcInterval observedTail : Z) : bool :=
  crossesGcBoundary prevSeq observedTail gcInterval ||
  ratio_trips (estimateTailBytes current observedTail) (snapshot_bytes current).

(** ** The phases *)

(** A lost race is swallowed; the next pass retries. *)
Definition retireLogs (currentJsonKey : jsstr) (opts : option RetentionOptions) : prog unit :=
  attempt (retireLogRange currentJsonKey (default (RetentionOpts None None) opts)) (fun r =>
  match r with
  | inr _ => Ret tt
  | inl error => if isWriteConflict error then Ret tt else Throw error
  end).

Record MaintenanceResult := MaintenanceRes { compact_result : CompactResult; gc_result : RunGcResult }.

Section maintenance.
Context (byteLength : bytes -> Z) (sha256 : bytes -> list N) (mixed_lt : jsval -> jsval -> bool).
Context (date_parse : jsstr -> option Z) (clock : nat -> Z).
Context (currentJsonKey : jsstr).

Definition scheduled_compact (opts : option CompactOptions) : CompactOptions :=
  let o := default (CompactOpts None None None None None None) opts in
  CompactOpts (Some (default SCHEDULED_MIN_ENTRIES_TO_COMPACT (minEntriesToCompact o))) (maxEntriesPerRun o)
    (maxTailProbeGets o) (ceilingBytes o) (ceilingEntries o) (knownTail o).

Definition runScheduledMaintenance (options : MaintenanceOptions) : prog MaintenanceResult :=
  bind (compact byteLength sha256 mixed_lt currentJsonKey (scheduled_compact (compact_options options))) (fun compactRes =>
  bind (runGc date_parse clock currentJsonKey (default (GcOpts None None None) (gc_options options))) (fun gcRes =>
  bind (retireLogs currentJsonKey (logRetention options)) (fun _ =>
  Ret (MaintenanceRes compactRes gcRes)))).

(** ** The write tick *)

(** Code under [try] that shares the variable [tailHintPublished]: the outcome comes with
    the value the variable is left at. *)
Definition step (A : Type) : Type := bool -> prog (result A * bool).

Definition done_with {A} (a : A) : step A := fun st => Ret (inr a, st).

Definition await {A} (p : prog A) : step A := fun st => attempt p (fun r => Ret (r, st)).

Definition then_do {A B} (m : step A) (f : A -> step B) : step B := fun st =>
  bind (m st) (fun '(r, st) => match r with inl e => Ret (inl e, st) | inr a => f a st end).

Definition set_published : step unit := fun _ => Ret (inr tt, true).

(** [try { body } finally { last }] *)
Definition finally {A} (body : step A) (last : step unit) : step A := fun st =>
  bind (body st) (fun '(r, st) => bind (last st) (fun '(r', st) =>
  Ret (match r' with inl e => inl e | inr _ => r end, st))).

(** The refresh's literal; [stamp] rides the warning's sequence number on the same swap. *)
Definition with_hint (nextSeq : Z) (stamp : bool) (c : CurrentJson) : CurrentJson :=
  Current (snapshot c) (Z.max (tail_hint c) nextSeq) (log_seq_start c) (writer_fence c) (snapshot_bytes c)
    (snapshot_rows c) (mean_entry_bytes c) (if stamp then Some nextSeq else last_warned_seq c)
    (log_delete_floor c) (generation c) (extra c).

Definition publish_hint (nextSeq : Z) (stamp : bool) (c : CurrentJson) : result (CurrentJson * unit) :=
  inr (with_hint nextSeq stamp c, tt).

Section tick.
Context (args : TickArgs) (opts : BoundedMaintenanceOptions) (current : CurrentJson) (nextSeq : Z).

Definition tick_profile : MaintenanceProfile := default MAINTENANCE_PROFILE_CF_FREE (profile opts).

Definition tick_phases : phases := default single (phasesPerTick opts).

Definition tick_ceilings : FoldCeilings :=
  resolveFoldCeilings (fold_ceilings <$> profile opts) (fold_ceilings MAINTENANCE_PROFILE_CF_FREE) (tick_maxFoldBytes args).

Definition tick_min : Z := default WRITE_TICK_MIN_ENTRIES_TO_COMPACT (tick_minEntriesToCompact opts).

Definition gcOpts : RunGcOptions :=
  GcOpts (gcGraceMillis opts) (Some (gcMaxMarks tick_profile)) (Some (gcMaxSweeps tick_profile)).

(** The options of the tick's fold. *)
Definition tick_compact : CompactOptions :=
  CompactOpts (Some tick_min) (Some (maxFoldEntriesPerPass tick_profile)) None
    (Some (maxFoldBytes tick_ceilings)) (Some (maxFoldRows tick_ceilings)) (Some nextSeq).

Definition gate1 : bool :=
  ratio_trips (estimateTailBytes current nextSeq) (snapshot_bytes current) &&
  (tick_min <=? nextSeq - log_seq_start current).

Definition gcDue : bool := crossesGcBoundary (prevSeq args) nextSeq (gcInterval tick_profile).

(** Every error of the swap is swallowed, and the attempt counts. *)
Definition refreshTailHintIfNeeded (stampWarnedSeq : bool) : step unit := fun published =>
  if negb stampWarnedSeq && (published || (nextSeq - tail_hint current <? MAINTENANCE_TAIL_HINT_REFRESH_WRITES))
  then Ret (inr tt, published)
  else attempt (casUpdateCurrentJson currentJsonKey (publish_hint nextSeq stampWarnedSeq)) (fun _ => Ret (inr tt, true)).

Definition warnDue : bool :=
  match last_warned_seq current with
  | None => true
  | Some warned => MAINTENANCE_WARN_INTERVAL_WRITES <=? nextSeq - warned
  end.

Definition signalFoldDeferred : step unit := refreshTailHintIfNeeded warnDue.

Definition runGcAndRefreshTailHint : step unit :=
  then_do (await (runGc date_parse clock currentJsonKey gcOpts)) (fun _ => refreshTailHintIfNeeded false).

Definition retire_step : step unit := await (retireLogs currentJsonKey (tick_logRetention opts)).

(** Step 3; whether the tick ends here. *)
Definition fold_phase : step bool :=
  if gate1 then
    if isFoldViable (snapshot_bytes current) (snapshot_rows current) tick_ceilings then
      then_do (await (compact byteLength sha256 mixed_lt currentJsonKey tick_compact)) (fun foldRes =>
      then_do (if written foldRes then set_published else done_with tt) (fun _ =>
      then_do (match deferral foldRes with Some _ => signalFoldDeferred | None => done_with tt end) (fun _ =>
      done_with match tick_phases with single => true | both => false end)))
    else then_do signalFoldDeferred (fun _ => done_with false)
  else done_with false.

(** Steps 0 and 2 to 5. *)
Definition tick_body : step unit :=
  if default false (disabled args) then refreshTailHintIfNeeded false
  else
    let hardGc := crossesGcBoundary (prevSeq args) nextSeq (gcInterval tick_profile * GC_STARVATION_GUARD) in
    if match tick_phases with single => hardGc | both => false end then
      then_do runGcAndRefreshTailHint (fun _ => retire_step)
    else
      then_do fold_phase (fun ended =>
      if ended : bool then done_with tt
      else then_do (if gcDue then runGcAndRefreshTailHint else done_with tt) (fun _ => retire_step)).
End tick.

(** The tail of this tick: the writer's, or probed. *)
Definition tick_tail (args : TickArgs) (current : CurrentJson) : prog Z :=
  let probeFloor := Z.max (log_seq_start current) (tail_hint current) in
  match observedTail args with
  | Some observed => Ret (Z.max observed probeFloor)
  | None => bind (probeTailFrom (log_prefix_of currentJsonKey) probeFloor) (fun probed => Ret probed.1)
  end.

(** The body of the outer [try]. *)
Definition bounded_tick (args : TickArgs) (opts : BoundedMaintenanceOptions) : prog unit :=
  bind (readCurrentJson currentJsonKey) (fun read =>
  match read with
  | None => Ret tt
  | Some read =>
    let current := json read in
    bind (tick_tail args current) (fun nextSeq =>
    bind (finally (tick_body args opts current nextSeq) (refreshTailHintIfNeeded current nextSeq false) false)
      (fun out => of_result out.1))
  end).

(** A lost race and an unexpected error differ in what is logged only. *)
Definition runBoundedMaintenance (args : TickArgs) (opts : BoundedMaintenanceOptions) : prog unit :=
  attempt (bounded_tick args opts) (fun _ => Ret tt).

(** ** The dispatch after a commit (server/src/writer.ts) *)

(** [MaintenanceDispatch] with the inline dispatcher, [dispatchInlineAwaited]. *)
Record MaintenanceDispatch := Dispatch {
  dispatch_disabled : option bool;
  dispatch_maxFoldBytes : option Z;
  dispatch_options : option BoundedMaintenanceOptions
}.

(** The last step of a commit that read the manifest [current], found the tail
    [preCommitTail] and won the slot below [observedTail]. *)
Definition dispatch_maintenance (maint : option MaintenanceDispatch) (current : CurrentJson) (preCommitTail observedTail : Z) :
    prog unit :=
  let opts := default (BoundedOpts None None None None None) (maint ≫= dispatch_options) in
  let is_disabled := default false (maint ≫= dispatch_disabled) in
  let maintenanceDue :=
    if is_disabled then MAINTENANCE_TAIL_HINT_REFRESH_WRITES <=? observedTail - tail_hint current
    else shouldFireMaintenance current preCommitTail (gcInterval (tick_profile opts)) observedTail in
  if maintenanceDue then
    attempt (runBoundedMaintenance (Tick preCommitTail (Some observedTail) (maint ≫= dispatch_maxFoldBytes)
               (if is_disabled then Some true else None)) opts) (fun _ => Ret tt)
  else Ret tt.
End maintenance.

(** ** The environment *)

Record MaintenanceEnv := MaintEnv { env_maxFoldBytes : option Qc; env_disabled : bool }.

(** [toLowerCase] as far as the four accepted words can tell. *)
Definition ascii_lower (s : jsstr) : jsstr :=
  (fun u => if ((65 <=? u) && (u <=? 90))%N then (u + 32)%N else u) <$> s.

(** [to_number] is [Number(s)] of a string. *)
Definition parseMaintenanceEnv (to_number : jsstr -> jsnum) (readEnv : jsstr -> option jsstr) : result MaintenanceEnv :=
  rbind match readEnv (js "BAERLY_MAINTENANCE_MAX_FOLD_BYTES") with
        | None | Some [] => inr None
        | Some raw => match to_number raw with
                      | NFin q => if num_leb (NFin q) (num_of_Z 0) then inl (new_error InvalidConfig) else inr (Some q)
                      | _ => inr None
                      end
        end (fun maxFoldBytes =>
  match readEnv (js "BAERLY_MAINTENANCE_DISABLE") with
  | None => inr (MaintEnv maxFoldBytes false)
  | Some raw =>
    let normalized := ascii_lower raw in
    if bool_decide (normalized ∈ [[]; js "0"; js "false"]) then inr (MaintEnv maxFoldBytes false)
    else if bool_decide (normalized ∈ [js "1"; js "true"]) then inr (MaintEnv maxFoldBytes true)
    else inl (new_error InvalidConfig)
  end).
