(* ===== verification/MaintenanceBudget.v ===== *)
(** * The subrequest budget of maintenance (server/src/maintenance.ts)

    A free-tier invocation may make 50 storage calls.  Whatever the storage answers, each
    phase with the free-tier options, and a write tick with the default ones, stays within
    it. *)
From S2P Require Import Prelude JsText JsValue Errors Json Storage Effects Lsn CurrentJson LogWalk LogTail Retention Snapshot.
From S2P Require Import Capacity Query View Compactor GcPending Gc Budget Maintenance.
Local Open Scope Z_scope.

Section costs.
Context (resp : responses).
Abbreviation cost := (costs resp).
Abbreviation any := (fun _ => True).

Lemma costs_any {A} (p : prog A) n m (P : result A -> Prop) : cost n p P -> (n <= m)%nat -> cost m p any.
Proof. intros Hp Hm. by eapply costs_mono; [exact Hm| |exact Hp]. Qed.

(** ** Compaction *)

Section compact.
Context (byteLength : bytes -> Z) (byteLength_pos : forall b, 0 <= byteLength b) (sha256 : bytes -> list N)
  (mixed_lt : jsval -> jsval -> bool) (key : jsstr) (opts : CompactOptions).

Lemma costs_check_options : cost 0 (check_options opts) any.
Proof.
  unfold check_options. eapply (costs_bind _ _ _ 0 0); [by apply (costs_check _ _ any)|done| |lia]. intros _ _.
  eapply (costs_bind _ _ _ 0 0); [by apply (costs_check _ _ any)|done| |lia]. intros _ _. by apply costs_check.
Qed.

Lemma costs_swap current next etag won lost : cost 1 (swap key current next etag won lost) any.
Proof.
  unfold swap. eapply (costs_bind _ _ _ 0 1); [by apply (costs_check _ _ any)|done| |lia]. intros _ _.
  eapply (costs_bind _ _ _ 0 1 _ any); [by unfold encodeJson; destruct (encodeJsonBytes _)|done| |lia]. intros b _.
  eapply (costs_attempt _ _ _ 1 0); [apply costs_put| |lia]. intros [e|r] _; [by destruct (isWriteConflict e)|done].
Qed.

Lemma costs_publish current etag d applied docs fetched :
  cost 2 (publish byteLength sha256 mixed_lt key opts current etag d applied docs fetched) any.
Proof.
  unfold publish. cbv zeta. eapply (costs_bind _ _ _ 0 2 _ any); [by apply costs_of_result|done| |lia]. intros b _.
  destruct (negb _); [done|]. eapply (costs_bind _ _ _ 0 2 _ any); [by apply costs_of_result|done| |lia]. intros newKey _.
  eapply (costs_bind _ _ _ 1 1); [apply costs_put|done| |lia]. intros _ _. apply costs_swap.
Qed.

Lemma costs_loadSnapshot k coll : cost 1 (loadSnapshotAsMap sha256 k coll) any.
Proof.
  unfold loadSnapshotAsMap. eapply (costs_bind _ _ _ 1 0 _ any); [by apply costs_get|done| |lia].
  intros [g|] _; [by apply costs_of_result|done].
Qed.

Context (N : nat) (entries_cap : maxEntriesPerRun opts = Some (Z.of_nat N)).

Lemma costs_fold_log current etag d : cost (3 + N) (fold_log byteLength sha256 mixed_lt key opts current etag d) any.
Proof.
  unfold fold_log. cbv zeta. rewrite entries_cap. cbn [default from_option id].
  eapply (costs_bind _ _ _ 1 (2 + N) _ any); [|done| |lia].
  { destruct (snapshot current); [apply costs_loadSnapshot|done]. }
  intros base _. eapply (costs_bind _ _ _ N 2); [|done| |lia].
  { eapply costs_mono; [|exact (fun r H => H)|by apply costs_walkLogRange]. lia. }
  intros fetched _. eapply (costs_bind _ _ _ 0 2 _ any); [by apply costs_of_result|done| |lia].
  intros [applied docs] _. destruct (_ && _); [done|]. apply costs_publish.
Qed.

(** One read of the manifest, the probe, the snapshot, the entries and two puts. *)
Lemma costs_compact np :
  (forall c, readable resp key c -> cost np (probe_tail (log_prefix_of key)
     (Z.max (Z.max (logSeqStartOf c) (tail_hint c)) (default 0 (knownTail opts))) (maxTailProbeGets opts)) any) ->
  cost (4 + N + np) (compact byteLength sha256 mixed_lt key opts) any.
Proof.
  intros Hprobe. unfold compact. eapply (costs_bind _ _ _ 0 (4 + N + np)); [apply costs_check_options|done| |lia]. intros _ _.
  eapply (costs_bind _ _ _ 1 (3 + N + np)); [apply costs_readCurrentJson|done| |lia]. intros [read|] Hr; [|done].
  specialize (Hr read eq_refl). cbv zeta. eapply (costs_bind _ _ _ np (3 + N)); [by apply Hprobe|done| |lia].
  intros [d exact] _. destruct (_ <? _); [|apply costs_fold_log]. destruct exact; [done|].
  eapply costs_any; [apply costs_swap|lia].
Qed.

Lemma costs_probe_capped p floor cap : cost cap (probe_tail p floor (Some (Z.of_nat cap))) any.
Proof.
  unfold probe_tail. eapply (costs_bind _ _ _ cap 0); [|done| |lia].
  - unfold probeTailChunk. rewrite Nat2Z.id. apply costs_probe_loop.
  - by intros [].
Qed.
End compact.

(** ** Garbage collection *)

Lemma costs_readGcPending k : cost 1 (readGcPending k) any.
Proof.
  unfold readGcPending. eapply (costs_bind _ _ _ 1 0 _ any); [by apply costs_get|done| |lia]. intros [g|] _; [|done].
  eapply (costs_bind _ _ _ 0 0 _ any); [by apply costs_of_result|done..].
Qed.

Lemma costs_check_pending q : cost 0 (check_pending q) any.
Proof. unfold check_pending. eapply (costs_bind _ _ _ 0 0 _ any); [by apply costs_of_result|done..]. Qed.

Lemma costs_encodePending q : cost 0 (encodePending q) any.
Proof. unfold encodePending. by destruct (encodeJsonBytes _). Qed.

Lemma costs_read_or_create k : cost 3 (read_or_create k) any.
Proof.
  unfold read_or_create. eapply (costs_bind _ _ _ 1 2); [apply costs_readGcPending|done| |lia]. intros [q|] _; [done|].
  unfold catch. eapply (costs_attempt _ _ _ 1 1 _ any).
  - unfold createGcPending. eapply (costs_bind _ _ _ 0 1); [apply costs_check_pending|done| |lia]. intros _ _.
    eapply (costs_bind _ _ _ 0 1); [apply costs_encodePending|done| |lia]. intros b _.
    eapply (costs_bind _ _ _ 1 0 _ any); [|done..]. unfold catch.
    eapply (costs_attempt _ _ _ 1 0); [apply costs_put| |lia]. by intros [e|r] _.
  - intros [e|r] _; [|done]. destruct (isWriteConflict e); [|done].
    eapply (costs_bind _ _ _ 1 0); [apply costs_readGcPending|done| |lia]. by intros [q|] _.
  - lia.
Qed.

Lemma costs_cas_attempts k f n : forall e, cost (2 * n) (cas_attempts k f n e) any.
Proof.
  induction n as [|n IH]; intros e; cbn [cas_attempts]; [done|].
  eapply (costs_bind _ _ _ 1 (1 + 2 * n)); [apply costs_readGcPending|done| |lia]. intros [existing|] _; [|done]. cbv zeta.
  eapply (costs_bind _ _ _ 0 (1 + 2 * n)); [apply costs_check_pending|done| |lia]. intros _ _.
  eapply (costs_bind _ _ _ 0 (1 + 2 * n)); [apply costs_encodePending|done| |lia]. intros b _.
  eapply (costs_attempt _ _ _ 1 (2 * n)); [apply costs_put| |lia]. intros [err|r] _; [|done].
  destruct (negb _); [done|]. apply IH.
Qed.

Lemma costs_persist k pass n : cost 6 (persist k pass n) any.
Proof.
  unfold persist. eapply (costs_attempt _ _ _ 6 0); [apply (costs_cas_attempts k _ GC_PENDING_CAS_MAX_ATTEMPTS)| |lia].
  intros [e|r] _; [by destruct (isWriteConflict e)|done].
Qed.

Lemma split_sweep_capped date_parse p dropped floor nowMs cap cs : forall taken, (taken <= cap)%nat ->
  (length (split_sweep date_parse p dropped floor nowMs (Some cap) cs taken).1 <= cap - taken)%nat.
Proof.
  induction cs as [|c cs IH]; intros taken Hle; cbn [split_sweep]; [cbn; lia|].
  destruct (bool_decide _); [by apply IH|]. destruct (_ && _) eqn:E.
  - unfold below_cap in E. destruct (Nat.ltb_spec taken cap) as [Hlt|]; [|by rewrite !andb_false_l in E].
    specialize (IH (S taken)). destruct (split_sweep _ _ _ _ _ _ cs (S taken)) as [toSweep remaining].
    cbn [fst length] in *. lia.
  - specialize (IH taken Hle). by destruct (split_sweep _ _ _ _ _ _ cs taken).
Qed.

Lemma costs_runGc date_parse clock key opts S : maxSweepsPerRun opts = Some S ->
  cost (12 + S) (runGc date_parse clock key opts) any.
Proof.
  intros Hs. unfold runGc. cbv zeta. eapply (costs_bind _ _ _ 1 (11 + S)); [apply costs_readCurrentJson|done| |lia].
  intros [cur|] _; [|done]. eapply (costs_bind _ _ _ 3 (8 + S)); [apply costs_read_or_create|done| |lia]. intros pending _.
  eapply (costs_bind _ _ _ 1 (7 + S)); [apply costs_list|done| |lia]. intros entries _.
  unfold sweep. cbv zeta. eapply (costs_bind _ _ _ 1 (6 + S) _ any); [|done| |lia].
  { destruct (existsb _ _); [eapply costs_any; [apply costs_readCurrentJson|lia]|done]. }
  intros fresh _. unfold sweep_due. cbv zeta. rewrite Hs.
  match goal with |- context [split_sweep ?d ?p ?dr ?fl ?now ?cap ?cs ?t] =>
    pose proof (split_sweep_capped d p dr fl now S cs t) as Hlen; destruct (split_sweep d p dr fl now cap cs t) as [toSweep remaining] end.
  cbn [fst] in Hlen. eapply (costs_bind _ _ _ S 6 _ any); [|done| |lia].
  { eapply costs_any; [apply (costs_promise_all _ _ _ 1); intros; apply costs_delete|]. lia. }
  intros _ _. eapply (costs_bind _ _ _ 6 0); [apply costs_persist|done..|lia].
Qed.

(** ** Retirement *)

Lemma costs_retireLogs key opts D : 0 <= D -> default LOG_RETENTION_MAX_DELETES_PER_TICK (opts ≫= maxDeletes) = D ->
  cost (3 + Z.to_nat D) (retireLogs key opts) any.
Proof.
  intros HD Hd. unfold retireLogs. eapply (costs_attempt _ _ _ (3 + Z.to_nat D) 0 _ any); [| |lia];
    [|intros [e|n] _; [by destruct (isWriteConflict e)|done]].
  set (o := default (RetentionOpts None None) opts). unfold retireLogRange.
  eapply (costs_bind _ _ _ 1 (2 + Z.to_nat D)); [apply costs_readCurrentJson|done| |lia]. intros [read|] _; [|done]. cbv zeta.
  destruct (_ <=? _); [done|]. eapply (costs_bind _ _ _ 2 (Z.to_nat D)); [apply costs_casUpdate|done| |lia].
  intros [cas authorized] Hcas. destruct (Hcas _ _ eq_refl) as (c & Hc). apply retire_mutator_inv in Hc as (-> & _ & _).
  destruct (negb _); [done|]. eapply (costs_bind _ _ _ (Z.to_nat D) 0 _ any); [|done..|lia].
  eapply costs_any; [apply (costs_promise_all _ _ _ 1); intros; apply costs_delete|].
  rewrite length_seqZ. assert (Hm : default LOG_RETENTION_MAX_DELETES_PER_TICK (maxDeletes o) = D) by by destruct opts.
  unfold computeRetirableRange. cbn [start range_end]. rewrite Hm. lia.
Qed.
End costs.

(** ** The write tick *)

Section tick.
Context (byteLength : bytes -> Z) (byteLength_pos : forall b, 0 <= byteLength b) (sha256 : bytes -> list N)
  (mixed_lt : jsval -> jsval -> bool) (date_parse : jsstr -> option Z) (clock : nat -> Z) (key : jsstr).
Context (args : TickArgs) (opts : BoundedMaintenanceOptions) (resp : responses).
Abbreviation cost := (costs resp).
Abbreviation any := (fun _ => True).

(** The writer's tail is the tail during the tick: its slot is empty and no manifest a read
    finds is past it. *)
Definition tail_is (observed : Z) : Prop :=
  observedTail args = Some observed /\
  (forall g, ~ resp (logObjectKey (log_prefix_of key) observed) (inr (Some g))) /\
  forall c, readable resp key c -> Z.max (log_seq_start c) (tail_hint c) <= observed.

Lemma costs_await {A} (p : prog A) st n P : cost n p P -> cost n (await p st) (fun r => forall x, r = inr x -> P x.1).
Proof.
  intros Hp. unfold await. eapply (costs_attempt _ _ _ n 0); [exact Hp| |lia]. intros r Hr. cbn [costs]. by intros x [= <-].
Qed.

(** The outcome of a step, when its program returns one. *)
Abbreviation outcome V := (fun r => forall x, r = inr x -> V x.1).

(** Two steps, each bounded at every state. *)
Lemma costs_then {A B} (m : step A) (f : A -> step B) n k (V : result A -> Prop) (W : result B -> Prop) :
  (forall st, cost n (m st) (outcome V)) -> (forall e, V (inl e) -> W (inl e)) ->
  (forall a st, V (inr a) -> cost k (f a st) (outcome W)) -> forall st, cost (n + k) (then_do m f st) (outcome W).
Proof.
  intros Hm He Hf st. unfold then_do. eapply (costs_bind _ _ _ n k); [apply Hm|done| |lia]. intros [[e|a] st'] Hv.
  - cbn [costs]. intros x [= <-]. by apply He, (Hv _ eq_refl).
  - by apply Hf, (Hv _ eq_refl).
Qed.

Lemma costs_step {A} n k (m : step A) st P : cost n (m st) P -> (n <= k)%nat -> cost k (m st) (outcome any).
Proof. intros Hm Hk. by eapply costs_mono; [exact Hk| |exact Hm]. Qed.

Context (current : CurrentJson) (nextSeq : Z).

(** Due and not published yet: the calls a later refresh may make. *)
Definition unpublished (st : bool) : nat :=
  if st || (nextSeq - tail_hint current <? MAINTENANCE_TAIL_HINT_REFRESH_WRITES) then 0 else 2.

Abbreviation settled := (fun r => forall x, r = inr x -> x.1 = inr tt /\ unpublished x.2 = O).

Lemma costs_refresh st : cost (unpublished st) (refreshTailHintIfNeeded key current nextSeq false st) settled.
Proof.
  unfold refreshTailHintIfNeeded, unpublished. cbn [negb andb]. destruct (st || _) eqn:E.
  - cbn [costs]. intros x [= <-]. split; [done|]. unfold unpublished. cbn [snd]. by rewrite E.
  - eapply (costs_attempt _ _ _ 2 0 _ any); [eapply costs_any; [apply costs_casUpdate|lia]| |lia].
    intros r _. cbn [costs]. intros x [= <-]. done.
Qed.

Lemma costs_signal st : cost 2 (signalFoldDeferred key current nextSeq st) settled.
Proof.
  unfold signalFoldDeferred. destruct (warnDue current nextSeq).
  - unfold refreshTailHintIfNeeded. cbn [negb andb].
    eapply (costs_attempt _ _ _ 2 0 _ any); [eapply costs_any; [apply costs_casUpdate|lia]| |lia].
    intros r _. cbn [costs]. intros x [= <-]. done.
  - eapply costs_mono; [|exact (fun r H => H)|apply costs_refresh]. unfold unpublished. destruct (_ || _); lia.
Qed.

Context (free : profile opts = None) (retention : (tick_logRetention opts ≫= maxDeletes) = None).

Lemma costs_gc_refresh st : cost (22 + unpublished st) (runGcAndRefreshTailHint date_parse clock key opts current nextSeq st) any.
Proof.
  unfold runGcAndRefreshTailHint, then_do. unfold await.
  eapply (costs_bind _ _ _ 22 (unpublished st) _ (fun r => forall x, r = inr x -> x.2 = st)); [|done| |lia].
  - eapply (costs_attempt _ _ _ 22 0 _ any); [|by intros r _; cbn [costs]; intros x [= <-]|lia].
    apply (costs_runGc resp date_parse clock key (gcOpts opts) 10). unfold gcOpts, tick_profile. by rewrite free.
  - intros [[e|res] st'] Hst; [done|]. rewrite <- (Hst _ eq_refl). cbn [snd]. eapply costs_any; [apply costs_refresh|lia].
Qed.

Lemma costs_retire_step st : cost 23 (retire_step key opts st) any.
Proof.
  unfold retire_step. eapply costs_any; [apply costs_await, (costs_retireLogs _ key _ 20); [lia|by rewrite retention]|cbn; lia].
Qed.

Lemma unpublished_le st : (unpublished st <= 2)%nat.
Proof. unfold unpublished. destruct (_ || _); lia. Qed.

(** The fold attempt of a single-phase tick is its last phase. *)
Lemma costs_compact_tick observed : tail_is observed -> nextSeq = observed ->
  cost 25 (compact byteLength sha256 mixed_lt key (tick_compact args opts nextSeq)) any.
Proof.
  intros (_ & Hempty & Hread) Hn. assert (Hcap : maxEntriesPerRun (tick_compact args opts nextSeq) = Some (Z.of_nat 20)).
  { unfold tick_compact, tick_profile. by rewrite free. }
  apply (costs_compact resp byteLength byteLength_pos sha256 mixed_lt key _ 20 Hcap 1).
  intros c Hc. cbn [tick_compact knownTail maxTailProbeGets default from_option id probe_tail]. specialize (Hread c Hc).
  unfold logSeqStartOf. rewrite Hn, Z.max_r by done.
  eapply (costs_bind _ _ _ 1 0); [by apply costs_probe_empty|done| |lia]. by intros.
Qed.

Context (one_phase : tick_phases opts = single).

(** Steps 4 and 5. *)
Lemma costs_collect_retire n st : (22 + unpublished st <= n)%nat ->
  cost (n + 23) (then_do (if gcDue args opts nextSeq then runGcAndRefreshTailHint date_parse clock key opts current nextSeq else done_with tt)
    (fun _ => retire_step key opts) st) any.
Proof.
  intros Hle. unfold then_do. eapply (costs_bind _ _ _ n 23 _ any); [|done| |lia].
  - destruct (gcDue _ _ _); [eapply costs_any; [apply costs_gc_refresh|done]|done].
  - intros [[e|[]] st'] _; [done|apply costs_retire_step].
Qed.

(** Step 3 when the fold runs: the tick ends with it. *)
Lemma costs_fold observed st : tail_is observed -> nextSeq = observed -> isFoldViable (snapshot_bytes current) (snapshot_rows current)
    (tick_ceilings args opts) = true -> gate1 opts current nextSeq = true ->
  cost 27 (fold_phase byteLength sha256 mixed_lt key args opts current nextSeq st) (outcome (fun r => r <> inr false)).
Proof.
  intros Ht Hn Hv Hg. unfold fold_phase. rewrite one_phase, Hg, Hv.
  apply (costs_then _ _ 25 2 any (fun r => r <> inr false)); [intros s; eapply costs_step; [by eapply costs_await, costs_compact_tick|done]|done|].
  intros res s _. apply (costs_then _ _ 0 2 any (fun r => r <> inr false)); [by intros s'; destruct (written res)|done|]. intros _ s' _.
  apply (costs_then _ _ 2 0 any (fun r => r <> inr false)); [|done|].
  - intros s''. destruct (deferral res); [eapply costs_step; [apply costs_signal|lia]|done].
  - intros _ s'' _. cbn [done_with costs]. by intros x [= <-].
Qed.

Lemma costs_tick_body observed st : tail_is observed -> nextSeq = observed ->
  cost 47 (tick_body byteLength sha256 mixed_lt date_parse clock key args opts current nextSeq st) any.
Proof.
  intros Ht Hn. unfold tick_body. rewrite one_phase.
  destruct (default false (disabled args)); [eapply costs_any; [apply costs_refresh|pose proof (unpublished_le st); lia]|].
  cbv zeta. destruct (crossesGcBoundary _ _ _).
  { eapply costs_any; [apply (costs_then _ _ 24 23 any any)|lia]; [|done|].
    - intros st'. eapply costs_step; [apply costs_gc_refresh|pose proof (unpublished_le st'); lia].
    - intros _ st' _. eapply costs_step; [apply costs_retire_step|lia]. }
  destruct (gate1 opts current nextSeq) eqn:Eg.
  - destruct (isFoldViable (snapshot_bytes current) (snapshot_rows current) (tick_ceilings args opts)) eqn:Ev.
    + eapply costs_any; [eapply (costs_then _ _ 27 0 (fun r => r <> inr false) any); [|done|]|lia].
      * intros st'. by eapply costs_fold.
      * by intros [|] st' Hne.
    + unfold fold_phase. rewrite Eg, Ev. unfold then_do at 1.
      eapply (costs_bind _ _ _ 2 45 _ (fun r => forall x, r = inr x -> x.1 = inr false /\ unpublished x.2 = O)); [|done| |lia].
      * unfold then_do. eapply (costs_bind _ _ _ 2 0); [apply costs_signal|done| |lia]. intros [r st'] Hr.
        destruct (Hr _ eq_refl) as [E Hst]. cbn [fst snd] in E, Hst. rewrite E. cbn [done_with costs]. by intros x [= <-].
      * intros [r st'] Hr. destruct (Hr _ eq_refl) as [E Hst]. cbn [fst snd] in E, Hst. rewrite E.
        apply (costs_collect_retire 22). lia.
  - unfold fold_phase. rewrite Eg. unfold then_do at 1. cbn [done_with bind attempt].
    apply (costs_collect_retire 24). pose proof (unpublished_le st). lia.
Qed.

Lemma costs_finally {A} (m : step A) last n k st : cost n (m st) any -> (forall st', cost k (last st') any) ->
  cost (n + k) (finally m last st) any.
Proof.
  intros Hm Hl. unfold finally. eapply (costs_bind _ _ _ n k); [exact Hm|done| |lia]. intros [r st'] _.
  eapply (costs_bind _ _ _ k 0); [apply Hl|done| |lia]. by intros [r' st''].
Qed.
End tick.

(** ** Theorems *)

(** C32: With the free-tier options each phase fits an invocation of 50 storage calls, whatever
    the storage answers: a compaction makes at most 49 and a collection at most 22.  And a
    write tick with the default profile, phases and retention makes at most 50 while the
    writer's tail is the tail, that is, its slot reads as empty and no manifest a read finds
    is past it; all its other reads, writes, deletes and listings may answer anything. *)
Theorem free_tier_budget byteLength sha256 mixed_lt date_parse clock key :
  (forall b, 0 <= byteLength b) ->
  (forall opts, compact_options CLOUDFLARE_FREE_TIER = Some opts ->
     costs any_response 49 (compact byteLength sha256 mixed_lt key opts) (fun _ => True)) /\
  (forall opts, gc_options CLOUDFLARE_FREE_TIER = Some opts ->
     costs any_response 22 (runGc date_parse clock key opts) (fun _ => True)) /\
  (forall args opts resp observed, tail_is key args resp observed -> profile opts = None -> tick_phases opts = single ->
     (tick_logRetention opts ≫= maxDeletes) = None ->
     costs resp 50 (runBoundedMaintenance byteLength sha256 mixed_lt date_parse clock key args opts) (fun r => r = inr tt)).
Proof.
  intros Hpos. split; [|split].
  - intros opts [= <-]. eapply (costs_compact _ byteLength Hpos sha256 mixed_lt key _ 20); [done|]. intros c _.
    apply (costs_probe_capped any_response _ _ 25).
  - intros opts [= <-]. by apply (costs_runGc _ _ _ _ _ 10).
  - intros args opts resp observed Ht Hfree Hone Hret. unfold runBoundedMaintenance.
    eapply (costs_attempt _ _ _ 50 0 _ (fun _ => True)); [|done|lia]. unfold bounded_tick.
    eapply (costs_bind _ _ _ 1 49); [apply costs_readCurrentJson|done| |lia]. intros [read|] Hr; [|done].
    specialize (Hr read eq_refl). pose proof Ht as (Hobs & _ & Hread). specialize (Hread _ Hr). cbv zeta.
    unfold tick_tail. rewrite Hobs, Z.max_l by lia. cbn [bind attempt].
    eapply (costs_bind _ _ _ 49 0 _ (fun _ => True)); [|done| |lia].
    + apply (costs_finally resp _ _ 47 2); [by eapply costs_tick_body|]. intros st'.
      eapply costs_any; [apply costs_refresh|apply unpublished_le].
    + intros out _. by apply costs_of_result.
Qed.

(** The reads of a storage that holds one entry, none of it folded. *)
Definition sample_answers : responses := fun k x => x = memory_get k None sample_served.

Lemma free_tier_budget_witness :
  costs any_response 22 (runGc (fun _ => None) (fun _ => 0) (js "a/t/current.json") (GcOpts None (Some 20%nat) (Some 10%nat))) (fun _ => True) /\
  costs sample_answers 50 (runBoundedMaintenance (fun _ => 40) (fun _ => []) (fun _ _ => false) (fun _ => None) (fun _ => 0)
    (js "a/t/current.json") (Tick 0 (Some 1) None None) (BoundedOpts None None None None None)) (fun r => r = inr tt).
Proof.
  destruct (free_tier_budget (fun _ => 40) (fun _ => []) (fun _ _ => false) (fun _ => None) (fun _ => 0) (js "a/t/current.json"))
    as (_ & Hgc & Htick); [lia|]. split.
  - apply Hgc. reflexivity.
  - apply (Htick _ _ _ 1); [|reflexivity..]. split; [reflexivity|]. split.
    + intros g. unfold sample_answers. vm_compute. discriminate.
    + intros c (g & Hg & Hd). unfold sample_answers in Hg.
      assert (E : memory_get (js "a/t/current.json") None sample_served = inr (Some g)) by (symmetry; exact Hg).
      clear Hg. revert E Hd. vm_compute. intros [= <-] Hd. revert Hd. vm_compute. intros [= <-]. vm_compute. discriminate.
Defined.
