(* ===== verification/MaintenanceSafety.v ===== *)
(** * Maintenance among other clients

    A scheduled pass and a write tick, among clients that delete log slots and snapshots
    only below the log start of the stored manifest: they keep that guarantee themselves,
    and a write tick never throws. *)
From S2P Require Import Prelude JsText JsValue Errors Json Storage Effects Lsn CurrentJson ManifestSafety LogWalk LogTail Retention.
From S2P Require Import Snapshot Capacity Compactor GcPending Gc Budget Maintenance.
Local Open Scope Z_scope.

(** ** Compaction, under any guarantee *)

Section compact.
Context (byteLength : bytes -> Z) (byteLength_pos : forall b, 0 <= byteLength b) (sha256 : bytes -> list N)
  (mixed_lt : jsval -> jsval -> bool) (key : jsstr) (opts : CompactOptions).
Context (G : MemoryStorage -> MemoryStorage -> Prop) `{HG : !Guarantee key G}.
Context (R : MemoryStorage -> MemoryStorage -> Prop) (HR : forall m m', R m m' -> G m m').
Context (m0 : MemoryStorage).
Abbreviation inv := (man_inv key G m0).
Abbreviation keeps p := (forall w, inv w -> wp R p (fun _ w' => inv w') w).
Abbreviation moved := (moved key G m0).
Abbreviation wp_finish := (wp_finish key G R HR m0).

(** A program without puts of the manifest and without deletes, whose answers satisfy [P]. *)
Lemma wp_reads {A} (p : prog A) n (P : result A -> Prop) (Q : result A -> world -> Prop) w : leaves key p ->
  costs any_response n p P -> inv w ->
  (forall r w', moved w w' -> P r -> Q r w') -> wp R p Q w.
Proof.
  intros Hl Hc Hi HQ. eapply wp_mono; [|apply wp_and; [by eapply costs_wp|]].
  2: { apply (wp_leaves key G R HR m0 w); [exact Hl|]. by split. }
  intros r w' [Hp Hm]. by apply HQ.
Qed.

(** The conditional put of a successor of what was read. *)
Lemma wp_swap cr next won lost w : inv w -> knows key cr (store w) -> extras_ok next -> shape_ok next ->
  wp R (swap key (json cr) next (read_etag cr) won lost) (fun _ w' => inv w') w.
Proof.
  intros Hi Hk He Hs. unfold swap. apply wp_check.
  { intros e _ w' Hs'. by eapply (man_inv_envs key G R HR). }
  intros Htr. apply transition_spec in Htr as [Hle _]. unfold encodeJson. rewrite encode_current by done.
  apply wp_bind. intros w1 Hs1. apply wp_attempt. cbn [storage_put wp]. intros w2 Hs2 x w3 Hput.
  assert (Hs12 : rtc (env_step R) w w2) by by etransitivity.
  assert (Hi3 : inv w3).
  { eapply (man_inv_put key G); [exact Hput| |by eapply (man_inv_envs key G R HR)]. intros _. eapply knows_admitted; [|exact Hle|by apply decode_encode_current].
    eapply knows_stable; [|exact Hk]. by eapply (man_rely_envs key G R HR). }
  assert (Hi4 : forall w4, rtc (env_step R) w3 w4 -> inv w4) by (intros; by eapply (man_inv_envs key G R HR)).
  destruct x as [e|y]; cbn [of_result]; intros w4 Hs4.
  - apply wp_finish; [by destruct (isWriteConflict e)|by apply Hi4].
  - intros w5 Hs5. apply Hi4. by etransitivity.
Qed.

Lemma leaves_check o : leaves key (check o).
Proof. by destruct o. Qed.

Lemma leaves_options : leaves key (check_options opts).
Proof. unfold check_options. repeat (apply leaves_bind; [apply leaves_check|intros _]). apply leaves_check. Qed.

Lemma leaves_probe_loop n p : forall s tol es ok, leaves key (probe_loop n p s tol es ok).
Proof.
  induction n as [|n IH]; intros; cbn [probe_loop]; [done|]. apply leaves_bind; [apply leaves_get|]. intros [g|]; [|done].
  destruct (decodeJsonBytes (body g)); [apply IH|]. destruct tol; [apply IH|done].
Qed.

Lemma leaves_probe_tail p floor cap : leaves key (probe_tail p floor cap).
Proof.
  unfold probe_tail, probeTailFrom, probeTailFrom_cap, probeTailChunk. destruct cap; repeat (apply leaves_bind; [|by intros []]); apply leaves_probe_loop.
Qed.

(** The probe certifies a tail at or above its floor. *)
Lemma costs_probe_tail p floor cap : (forall c, cap = Some c -> 0 <= c) ->
  exists n, costs any_response n (probe_tail p floor cap) (fun r => forall x, r = inr x -> floor <= x.1).
Proof.
  intros Hcap. unfold probe_tail. destruct cap as [c|].
  - exists (Z.to_nat c). eapply (costs_bind _ _ _ (Z.to_nat c) 0); [apply costs_probe_loop|done| |lia].
    intros [t ? ?|b ? ?] Hr; cbn [costs]; intros x [= <-]; cbn [fst]; lia.
  - eexists. eapply (costs_bind _ _ _ _ 0); [apply costs_probeTailFrom|done| |reflexivity].
    intros t Ht. cbn [costs]. intros x [= <-]. by apply Ht.
Qed.

Lemma leaves_walk p from stop : leaves key (walkLogRangeWithBytes byteLength p from stop).
Proof.
  unfold walkLogRangeWithBytes. destruct (_ <=? _); [done|]. generalize (Z.to_nat (stop - from)). intros fuel.
  generalize 0. induction fuel as [|fuel IH]; intros start; cbn [walk_chunks]; [done|]. destruct (_ <? _); [|done]. cbv zeta.
  apply leaves_bind; [|intros es; apply leaves_bind; [apply IH|done]].
  induction (seqZ start _) as [|i l IHl]; cbn [for_each]; [done|]. apply leaves_bind; [|intros e; apply leaves_bind; [exact IHl|done]].
  unfold readLogEntryWithBytes. apply leaves_bind; [apply leaves_get|]. intros [g|]; [|done]. by destruct (decodeJsonBytes (body g)).
Qed.

Lemma wp_publish cr d applied docs fetched w : inv w -> knows key cr (store w) ->
  logSeqStartOf (json cr) + Z.of_nat applied <= d -> Forall (fun z => 0 <= z) fetched.*2 ->
  wp R (publish byteLength sha256 mixed_lt key opts (json cr) (read_etag cr) d applied docs fetched) (fun _ w' => inv w') w.
Proof.
  intros Hi Hk Hd Hz. unfold publish. cbv zeta. apply wp_of_result; [intros; by apply wp_finish|]. intros b Hb.
  destruct (negb _); [by apply wp_finish|]. apply wp_of_result; [intros; by apply wp_finish|].
  intros newKey ((t & Et) & _ & _)%snapshotKey_shape. assert (Hne : newKey <> key).
  { rewrite Et. apply (manifest_outside_dir key (js "snapshot/L" ++ t)). apply elem_of_app. left. js_decide. }
  apply wp_bind. cbn [storage_put wp]. intros w1 Hs1 x w2 Hput.
  assert (Hi1 : inv w1) by by eapply (man_inv_envs key G R HR).
  assert (Hm : man_rely key (store w) (store w2) /\ inv w2).
  { split; [|by eapply (man_inv_put key G)]. etransitivity; [by eapply (man_rely_envs key G R HR)|].
    destruct Hput; unfold land; cbn [store]; (reflexivity || by apply man_rely_store_other). }
  destruct Hm as [Hm Hi2]. destruct x as [e|y]; cbn [of_result].
  { intros w3 Hs3 w4 Hs4. eapply (man_inv_envs key G R HR); [|exact Hi2]. by etransitivity. }
  intros w3 Hs3. pose proof Hk as (He & Hsh & _). apply wp_swap; [by eapply (man_inv_envs key G R HR)| |exact He|].
  - eapply knows_stable; [|exact Hk]. etransitivity; [exact Hm|]. by eapply (man_rely_envs key G R HR).
  - unfold logSeqStartOf in *. apply shape_compacted; [exact Hsh|lia|apply byteLength_pos|lia|].
    rewrite fmap_take. apply sum_pos. by apply Forall_take.
Qed.

Lemma wp_fold_log cr d w : inv w -> knows key cr (store w) -> logSeqStartOf (json cr) <= d ->
  wp R (fold_log byteLength sha256 mixed_lt key opts (json cr) (read_etag cr) d) (fun _ w' => inv w') w.
Proof.
  intros Hi Hk Hd. unfold fold_log. cbv zeta. apply wp_bind.
  eapply (wp_reads _ 1 (fun _ => True)); [| |exact Hi|].
  { destruct (snapshot (json cr)); [|done]. unfold loadSnapshotAsMap. apply leaves_bind; [apply leaves_get|]. intros [g|]; [apply leaves_of_result|done]. }
  { destruct (snapshot (json cr)); [|done]. unfold loadSnapshotAsMap. eapply (costs_bind _ _ _ 1 0 _ (fun _ => True)); [by apply costs_get|done| |lia].
    intros [g|] _; [by apply costs_of_result|done]. }
  intros [e|base] w1 [Hi1 Hm1] _; [by apply wp_finish|]. apply wp_bind.
  eapply wp_reads; [apply leaves_walk|by apply costs_walkLogRange|exact Hi1|].
  intros [e|fetched] w2 [Hi2 Hm2] Hf; [by apply wp_finish|]. destruct (Hf _ eq_refl) as [Hl Hz].
  apply wp_of_result; [intros; by apply wp_finish|]. intros [applied docs] Ha.
  destruct (apply_prefix key opts base fetched) as [[n mid]|] eqn:Ea; [|done]. injection Ha as -> ->.
  apply apply_prefix_folds in Ea as [Hn _]. destruct (_ && _); [by apply wp_finish|].
  apply wp_publish; [exact Hi2| | |exact Hz].
  - eapply knows_stable; [|exact Hk]. by etransitivity.
  - unfold logSeqStartOf in *. lia.
Qed.

Lemma wp_compact w : inv w -> wp R (compact byteLength sha256 mixed_lt key opts) (fun _ w' => inv w') w.
Proof.
  intros Hi. unfold compact. apply wp_bind.
  eapply (wp_reads _ 0 (fun r => r = inr tt -> forall c, maxTailProbeGets opts = Some c -> 0 <= c)); [apply leaves_options| |exact Hi|].
  { unfold check_options. eapply (costs_bind _ _ _ 0 0); [by apply (costs_check _ _ (fun _ => True))|done| |lia]. intros _ _.
    eapply (costs_bind _ _ _ 0 0); [by apply (costs_check _ _ (fun _ => True))|done| |lia]. intros _ _.
    apply costs_check; [done|]. intros Hn _ c Hc. rewrite Hc in Hn. unfold requireIntegerOption in Hn.
    destruct (Z.ltb_spec c 1); [done|lia]. }
  intros [e|[]] w1 [Hi1 _] Hcap; [by apply wp_finish|]. specialize (Hcap eq_refl). apply wp_bind.
  apply (wp_readCurrentJson key G R HR m0); [exact Hi1|]. intros [e|[cr|]] w2 _ Hi2 Hk; [by apply wp_finish| |by apply wp_finish].
  cbv zeta. cbn in Hk. apply wp_bind.
  set (floor := Z.max (Z.max (logSeqStartOf (json cr)) (tail_hint (json cr))) (default 0 (knownTail opts))).
  destruct (costs_probe_tail (log_prefix_of key) floor (maxTailProbeGets opts) Hcap) as [n Hn].
  eapply wp_reads; [apply leaves_probe_tail|exact Hn|exact Hi2|].
  intros [e|[d exact]] w3 [Hi3 Hm3] Hd; [by apply wp_finish|]. specialize (Hd _ eq_refl). cbn [fst] in Hd.
  assert (Hk3 : knows key cr (store w3)) by by eapply knows_stable. pose proof Hk3 as (He & Hsh & _).
  destruct (_ <? _); [|apply wp_fold_log; [done|done|lia]]. destruct exact; [by apply wp_finish|].
  apply wp_swap; [done|done|done|by apply shape_checkpointed].
Qed.
End compact.

(** ** The passes *)

Section passes.
Context (byteLength : bytes -> Z) (byteLength_pos : forall b, 0 <= byteLength b) (sha256 : bytes -> list N)
  (mixed_lt : jsval -> jsval -> bool) (date_parse : jsstr -> option Z) (clock : nat -> Z) (key : jsstr).
Context (R : MemoryStorage -> MemoryStorage -> Prop) (HR : forall m m', R m m' -> gc_rely key m m') (m0 : MemoryStorage).
Abbreviation inv := (man_inv key (gc_rely key) m0).

(** The program keeps the invariant. *)
Definition keeps {A} (p : prog A) : Prop := forall w, inv w -> wp R p (fun _ w' => inv w') w.

Lemma keeps_envs w w' : rtc (env_step R) w w' -> inv w -> inv w'.
Proof. by apply (man_inv_envs key (gc_rely key) R HR). Qed.

Lemma keeps_attempt {A B} (p : prog A) (f : result A -> prog B) : keeps p -> (forall r, keeps (f r)) -> keeps (attempt p f).
Proof. intros Hp Hf w Hi. apply wp_attempt. eapply wp_mono; [|by apply Hp]. intros r w' Hi'. by apply Hf. Qed.

Lemma keeps_ret {A} (a : A) : keeps (Ret a).
Proof. intros w Hi w' Hs. by eapply keeps_envs. Qed.

Lemma keeps_throw {A} e : keeps (@Throw A e).
Proof. intros w Hi w' Hs. by eapply keeps_envs. Qed.

Lemma keeps_bind {A B} (p : prog A) (f : A -> prog B) : keeps p -> (forall a, keeps (f a)) -> keeps (bind p f).
Proof. intros Hp Hf. apply keeps_attempt; [done|]. intros [e|a]; [apply keeps_throw|apply Hf]. Qed.

Lemma keeps_leaves {A} (p : prog A) : leaves key p -> keeps p.
Proof. intros Hl w Hi. by apply (wp_finish key (gc_rely key) R HR m0). Qed.

Lemma keeps_compact opts : keeps (compact byteLength sha256 mixed_lt key opts).
Proof. intros w Hi. by apply (wp_compact byteLength byteLength_pos sha256 mixed_lt key opts (gc_rely key) R HR m0). Qed.

Lemma keeps_runGc opts : keeps (runGc date_parse clock key opts).
Proof. intros w Hi. by apply (wp_runGc date_parse clock key opts R HR m0). Qed.

(** Retirement deletes slots below the log start of the manifest it swapped in. *)
Lemma keeps_retireLogRange opts : keeps (retireLogRange key opts).
Proof.
  intros w Hi. unfold retireLogRange. apply wp_bind.
  apply (wp_readCurrentJson key (gc_rely key) R HR m0); [done|]. intros [e|[cr|]] w1 _ Hi1 _; [by apply keeps_throw| |by apply keeps_ret].
  cbv zeta. destruct (_ <=? _); [by apply keeps_ret|]. apply wp_bind.
  apply (wp_casUpdate key (gc_rely key) R HR m0); [done| |].
  { intros c next x (_ & -> & _)%retire_mutator_inv Hex. exact Hex. }
  intros [e|[cas authorized]] w2 Hi2 Hpost; [by apply keeps_throw|]. destruct (negb _); [by apply keeps_throw|].
  destruct Hpost as [Hk (c0 & Hc0 & _)]. apply retire_mutator_inv in Hc0 as (-> & Hnext & _). apply wp_bind.
  set (range := computeRetirableRange c0 opts) in *. set (seqs := seqZ _ _).
  eapply (wp_promise_all R (fun w => inv w /\ Forall (doomed key (store w)) (logObjectKey (log_prefix_of key) <$> seqs))).
  - intros w3 w4 Hs [H1 H2]. split; [by eapply keeps_envs|]. eapply Forall_impl; [exact H2|]. intros k. apply doomed_stable.
    by eapply (man_rely_envs key (gc_rely key) R HR).
  - intros seq w3 Hin H3. apply (wp_condemned_delete key R HR); [|done]. apply list_elem_of_fmap. by exists seq.
  - split; [done|]. apply Forall_forall. intros k (seq & -> & Hin%elem_of_seqZ)%list_elem_of_fmap.
    eapply knows_doomed; [exact Hk|]. left. exists seq. split; [done|]. rewrite Hnext. cbn [log_seq_start with_delete_floor].
    pose proof (retirable_range_spec c0 opts) as [H1 H2]. fold range in H1, H2.
    unfold certifiedDeleteFloor, logSeqStartOf in H1. lia.
  - intros [e|l] w3 [Hi3 _]; [by apply keeps_throw|by apply keeps_ret].
Qed.

Lemma keeps_retireLogs opts : keeps (retireLogs key opts).
Proof.
  unfold retireLogs. apply keeps_attempt; [apply keeps_retireLogRange|]. intros [e|n]; [|apply keeps_ret].
  destruct (isWriteConflict e); [apply keeps_ret|apply keeps_throw].
Qed.

Lemma keeps_casUpdate {X} (f : CurrentJson -> result (CurrentJson * X)) :
  (forall c next x, f c = inr (next, x) -> extras_ok c -> extras_ok next) -> keeps (casUpdateCurrentJson key f).
Proof. intros Hf w Hi. by apply (wp_casUpdate key (gc_rely key) R HR m0). Qed.

Lemma keeps_scheduled options : keeps (runScheduledMaintenance byteLength sha256 mixed_lt date_parse clock key options).
Proof.
  unfold runScheduledMaintenance. apply keeps_bind; [apply keeps_compact|]. intros compactRes.
  apply keeps_bind; [apply keeps_runGc|]. intros gcRes. apply keeps_bind; [apply keeps_retireLogs|]. intros _. apply keeps_ret.
Qed.

(** ** The write tick *)

Definition keeps_step {A} (m : step A) : Prop := forall st, keeps (m st).

Lemma keeps_then {A B} (m : step A) (f : A -> step B) : keeps_step m -> (forall a, keeps_step (f a)) -> keeps_step (then_do m f).
Proof.
  intros Hm Hf st. unfold then_do. apply keeps_bind; [apply Hm|]. intros [[e|a] st']; [apply keeps_ret|apply Hf].
Qed.

Lemma keeps_done {A} (a : A) : keeps_step (done_with a).
Proof. intros st. apply keeps_ret. Qed.

Lemma keeps_await {A} (p : prog A) : keeps p -> keeps_step (await p).
Proof. intros Hp st. apply keeps_attempt; [exact Hp|]. intros r. apply keeps_ret. Qed.

Lemma keeps_finally {A} (m : step A) last : keeps_step m -> keeps_step last -> keeps_step (finally m last).
Proof.
  intros Hm Hl st. unfold finally. apply keeps_bind; [apply Hm|]. intros [r st']. apply keeps_bind; [apply Hl|].
  intros [r' st'']. apply keeps_ret.
Qed.

Section tick.
Context (args : TickArgs) (opts : BoundedMaintenanceOptions) (current : CurrentJson) (nextSeq : Z).

Lemma keeps_refresh stamp : keeps_step (refreshTailHintIfNeeded key current nextSeq stamp).
Proof.
  intros st. unfold refreshTailHintIfNeeded. destruct (_ && _); [apply keeps_ret|]. apply keeps_attempt; [|intros r; apply keeps_ret].
  apply keeps_casUpdate. intros c next x [= <- <-] Hex. exact Hex.
Qed.

Lemma keeps_gc_refresh : keeps_step (runGcAndRefreshTailHint date_parse clock key opts current nextSeq).
Proof. apply keeps_then; [apply keeps_await, keeps_runGc|]. intros _. apply keeps_refresh. Qed.

Lemma keeps_fold_phase : keeps_step (fold_phase byteLength sha256 mixed_lt key args opts current nextSeq).
Proof.
  unfold fold_phase. destruct (gate1 _ _ _); [|apply keeps_done]. destruct (isFoldViable _ _ _).
  - apply keeps_then; [apply keeps_await, keeps_compact|]. intros res. apply keeps_then.
    { destruct (written res); [intros st; apply keeps_ret|apply keeps_done]. }
    intros _. apply keeps_then; [|intros _; apply keeps_done]. destruct (deferral res); [apply keeps_refresh|apply keeps_done].
  - apply keeps_then; [apply keeps_refresh|]. intros _. apply keeps_done.
Qed.

Lemma keeps_tick_body : keeps_step (tick_body byteLength sha256 mixed_lt date_parse clock key args opts current nextSeq).
Proof.
  unfold tick_body. destruct (default false (disabled args)); [apply keeps_refresh|]. cbv zeta.
  destruct (match tick_phases opts with single => _ | both => _ end).
  { apply keeps_then; [apply keeps_gc_refresh|]. intros _. apply keeps_await, keeps_retireLogs. }
  apply keeps_then; [apply keeps_fold_phase|]. intros [|]; [apply keeps_done|]. apply keeps_then.
  - destruct (gcDue _ _ _); [apply keeps_gc_refresh|apply keeps_done].
  - intros _. apply keeps_await, keeps_retireLogs.
Qed.
End tick.

Lemma keeps_bounded args opts : keeps (runBoundedMaintenance byteLength sha256 mixed_lt date_parse clock key args opts).
Proof.
  unfold runBoundedMaintenance. apply keeps_attempt; [|intros r; apply keeps_ret]. unfold bounded_tick.
  apply keeps_bind.
  { intros w Hi. apply (wp_readCurrentJson key (gc_rely key) R HR m0); [done|]. by intros r w' _ Hi' _. }
  intros [read|]; [|apply keeps_ret]. cbv zeta. apply keeps_bind.
  { unfold tick_tail. destruct (observedTail args); [apply keeps_ret|]. apply keeps_leaves, leaves_bind; [|by intros].
    unfold probeTailFrom, probeTailFrom_cap, probeTailChunk. apply leaves_bind; [apply leaves_probe_loop|by intros []]. }
  intros nextSeq. apply keeps_bind; [|intros out; apply keeps_leaves, leaves_of_result].
  apply keeps_finally; [apply keeps_tick_body|apply keeps_refresh].
Qed.
End passes.

(** ** Theorems *)

(** No execution of the tick ends in an error. *)
Lemma bounded_answers byteLength sha256 mixed_lt date_parse clock key args opts R w :
  wp R (runBoundedMaintenance byteLength sha256 mixed_lt date_parse clock key args opts) (fun r _ => r = inr tt) w.
Proof.
  unfold runBoundedMaintenance. apply wp_attempt. apply wp_complete. intros r w' _ w'' _. done.
Qed.

(** C10: Among any clients that never lower a manifest floor and delete log slots and
    snapshots only below the stored log start, with any faults and late landings, maintenance
    keeps that guarantee: a scheduled pass and a write tick alike, whatever their options,
    the writer's tail, the clock and the reading of dates.  So under the manifest stored at
    the end the snapshot it names, unless its own name says it ends before the log start, and
    every live log slot are still there if they were; and a write tick never throws. *)
Theorem maintenance_deletes_only_dead byteLength sha256 mixed_lt date_parse clock key R :
  (forall b, 0 <= byteLength b) -> (forall m m', R m m' -> gc_rely key m m') ->
  let safe w w' := gc_rely key (store w) (store w') /\ pending_admitted key w' /\
    forall c, manifest_at key (store w') c ->
      (forall s, snapshot c = Some s -> starts_with (log_prefix_of key ++ js "/snapshot/") s = true ->
         (forall maxSeq, parseMaxSeqFromCanonicalSnapshotKey s (log_prefix_of key) = Some maxSeq -> log_seq_start c <= maxSeq) ->
         is_Some (objects (store w) !! s) -> is_Some (objects (store w') !! s)) /\
      (forall seq, log_seq_start c <= seq -> is_Some (objects (store w) !! logObjectKey (log_prefix_of key) seq) ->
         is_Some (objects (store w') !! logObjectKey (log_prefix_of key) seq)) in
  forall w, memory_ok (store w) -> pending_admitted key w ->
  (forall args opts r w', exec R (runBoundedMaintenance byteLength sha256 mixed_lt date_parse clock key args opts) w r w' ->
     r = inr tt /\ safe w w') /\
  (forall options r w', exec R (runScheduledMaintenance byteLength sha256 mixed_lt date_parse clock key options) w r w' -> safe w w').
Proof.
  intros Hpos HR safe w Hok Hp. assert (Hi : man_inv key (gc_rely key) (store w) w) by by split.
  assert (Hsafe : forall w', man_inv key (gc_rely key) (store w) w' -> safe w w').
  { intros w' (_ & Hg & Hp'). split; [done|]. split; [done|]. intros c Hc. by eapply live_objects_kept. }
  split; intros.
  - split; [by eapply (wp_sound _ (fun r _ => r = inr tt)); [apply bounded_answers|]|]. apply Hsafe.
    eapply (wp_sound _ (fun _ w' => man_inv key (gc_rely key) (store w) w')); [eapply keeps_bounded; [exact Hpos|exact HR|exact Hi]|done].
  - apply Hsafe. eapply (wp_sound _ (fun _ w' => man_inv key (gc_rely key) (store w) w')); [eapply keeps_scheduled; [exact Hpos|exact HR|exact Hi]|done].
Qed.

(** A write tick that crosses a collection boundary. *)
Definition sample_tick : prog unit :=
  runBoundedMaintenance (fun _ => 40) (fun _ => []) (fun _ _ => false) sample_date_parse (fun _ => 0) sample_manifest_key
    (Tick 3 (Some 6) None None) (BoundedOpts None None None (Some 0) None).

Lemma sample_tick_runs : exists m', run 0 sample_tick gc_sample = (inr tt, m') /\ objects m' !! old_snapshot = None.
Proof. eexists. split; vm_compute; reflexivity. Qed.

Lemma gc_sample_ok : memory_ok gc_sample.
Proof. repeat apply memory_store_ok. apply empty_memory_ok. Qed.

Lemma maintenance_deletes_only_dead_witness :
  exists w', exec (gc_rely sample_manifest_key) sample_tick (World gc_sample [] []) (inr tt) w' /\
    objects (store w') !! old_snapshot = None /\ gc_rely sample_manifest_key gc_sample (store w').
Proof.
  destruct sample_tick_runs as (m' & Hrun & Hgone).
  destruct (run_exec (gc_rely sample_manifest_key) _ _ _ _ _ [] [] Hrun) as (l' & Hex).
  exists (World m' [] l'). split; [exact Hex|]. split; [exact Hgone|].
  destruct (maintenance_deletes_only_dead (fun _ => 40) (fun _ => []) (fun _ _ => false) sample_date_parse (fun _ => 0)
    sample_manifest_key (gc_rely sample_manifest_key)) with (w := World gc_sample [] []) as [Htick _].
  - intros _. lia.
  - intros m1 m2 H. exact H.
  - exact gc_sample_ok.
  - intros b opts Hin. inversion Hin.
  - destruct (Htick _ _ _ _ Hex) as (_ & Hg & _). exact Hg.
Defined.
