(* ===== verification/MaintenanceView.v ===== *)
(** * Maintenance and the represented map

    On a quiet storage a scheduled pass, a write tick, and a commit with the tick it
    dispatches keep the rows the stored objects represent; and a tick that knows the tail
    leaves [tail_hint] within a bounded distance of it. *)
From S2P Require Import Prelude JsText JsValue Errors Json Storage Effects Predicate Satisfiable Validate Implies IndexCodec.
From S2P Require Import Lsn CurrentJson ManifestSafety LogWalk LogTail Retention Snapshot DocId Adoption Writer WriterSafety Indexes QuietCommit.
From S2P Require Import QueryPlanner IndexWalk Capacity Query View Compactor GcPending Gc Budget Maintenance MaintenanceSafety.
Local Open Scope Z_scope.

(** ** Snapshot keys and their sequence numbers *)

Lemma pad_digits z : 0 <= z -> exists ds, pad z = digit_unit <$> ds /\ Forall (fun d => (d < 10)%N) ds /\
  digits_value 10 0 ds = Z.to_N z /\ (12 <= length (pad z))%nat.
Proof.
  intros Hz. unfold pad, show_padded, SEQ_DIGITS. unfold show_Z. rewrite (proj2 (Z.ltb_ge z 0)) by lia.
  unfold to_radix. rewrite pad_start_digits. eexists. split; [done|].
  destruct (radix_digits_spec 10 (Z.to_N z)) as (Hv & Hds & _); [lia|]. split; [|split].
  - apply Forall_app. split; [|done]. apply Forall_replicate. lia.
  - by rewrite digits_value_zeros.
  - rewrite length_fmap, length_app, length_replicate. lia.
Qed.

Lemma parse_pad z : 0 <= z -> Z.of_N (parse_digits 10 0 (pad z)) = z.
Proof. intros Hz. destruct (pad_digits z Hz) as (ds & -> & Hds & Hv & _). rewrite parse_digits_units by (done || lia). rewrite Hv. lia. Qed.

(** The number the collector reads in a snapshot's key is the one it was written with. *)
Lemma snapshot_key_seq p lo hi h key mx : snapshotKey p lo hi h = inr key ->
  parseMaxSeqFromCanonicalSnapshotKey key p = Some mx -> mx = hi.
Proof.
  unfold snapshotKey. destruct ((lo <? 0) || _ || _ || _) eqn:E; [done|]. destruct (negb (is_digest h)) eqn:Eh; [done|].
  rewrite !orb_false_iff, !Z.ltb_ge in E. apply negb_false_iff in Eh. unfold is_digest in Eh. apply andb_true_iff in Eh as [Eh _].
  apply Nat.eqb_eq in Eh.
  assert (Hl : js "/snapshot/L" ++ show_Z SNAPSHOT_LEVEL ++ js "/" = js "/snapshot/L9/") by reflexivity.
  intros Hk. assert (Ek : key = (p ++ js "/snapshot/L9/") ++ pad lo ++ js "-" ++ pad hi ++ js "-" ++ h ++ js ".json").
  { rewrite <- Hl, <- !app_assoc. congruence. }
  unfold parseMaxSeqFromCanonicalSnapshotKey. rewrite Ek. destruct (negb (starts_with _ _)); [done|]. rewrite drop_app_length.
  destruct (pad_digits lo) as (_ & _ & _ & _ & Hlo); [lia|]. destruct (pad_digits hi) as (_ & _ & _ & _ & Hhi); [lia|].
  match goal with |- (if ?c then _ else _) = _ -> _ => destruct c eqn:Ec; [|done] end.
  rewrite !andb_true_iff in Ec. destruct Ec as [[[[[[Hlen%Nat.eqb_eq _] _] _] _] _] _].
  rewrite !length_app, Eh in Hlen. change (length (js "-")) with 1%nat in Hlen. change (length (js ".json")) with 5%nat in Hlen.
  assert (Hlo' : length (pad lo) = 12%nat) by lia. assert (Hhi' : length (pad hi) = 12%nat) by lia.
  assert (Hd : drop 13 (pad lo ++ js "-" ++ pad hi ++ js "-" ++ h ++ js ".json") = pad hi ++ js "-" ++ h ++ js ".json").
  { rewrite (app_assoc (pad lo) (js "-")). apply drop_app_length'. rewrite length_app, Hlo'. reflexivity. }
  rewrite Hd, (take_app_length' (pad hi)) by done. destruct (_ <=? _); [|done]. intros [= <-]. apply parse_pad. lia.
Qed.

(** ** Programs that put few keys *)

(** Every put of the program is at a key in [W]. *)
Fixpoint puts_in (W : jsstr -> Prop) {A} (p : prog A) : Prop :=
  match p with
  | Ret _ | Throw _ => True
  | Get _ k => forall x, puts_in W (k x)
  | Put key _ _ k => W key /\ forall x, puts_in W (k x)
  | Delete _ k => forall x, puts_in W (k x)
  | List _ _ _ k => forall x, puts_in W (k x)
  end.

Lemma puts_attempt W {A B} (p : prog A) (f : result A -> prog B) : puts_in W p -> (forall r, puts_in W (f r)) -> puts_in W (attempt p f).
Proof. intros Hp Hf. induction p; cbn [attempt puts_in] in *; auto. destruct Hp. split; auto. Qed.

Lemma puts_bind W {A B} (p : prog A) (f : A -> prog B) : puts_in W p -> (forall a, puts_in W (f a)) -> puts_in W (bind p f).
Proof. intros Hp Hf. apply puts_attempt; [done|]. by intros [e|a]. Qed.

Lemma puts_of_result W {A} (r : result A) : puts_in W (of_result r).
Proof. by destruct r. Qed.

(** An object whose key is not put is left or deleted. *)
Lemma run_puts_in W {A} now (p : prog A) k : ~ W k -> puts_in W p -> forall m,
  objects (run now p m).2 !! k = objects m !! k \/ objects (run now p m).2 !! k = None.
Proof.
  intros Hk. induction p as [a|e|key f IH|key b o f IH|key f IH|pr af c f IH]; cbn [puts_in run]; intros Hp m; [by left|by left|by apply IH| | |by apply IH].
  - destruct Hp as [Hw Hp]. unfold memory_put. destruct (assertValidStorageKey key); [by apply IH|].
    destruct (put_precondition _ _); [|by apply IH]. pose proof (memory_store_lookup key b m k) as Hl.
    destruct (memory_store key b m) as [e' m']. cbn [snd] in Hl. rewrite decide_False in Hl by congruence. rewrite <- Hl. by apply IH.
  - unfold memory_delete. destruct (assertValidStorageKey key); [by apply IH|].
    destruct (IH (inr tt) (Hp _) (Memory (delete key (objects m)) (etagCounter m))) as [H|H]; [|by right].
    rewrite H. cbn [objects]. destruct (decide (key = k)) as [->|Hne]; [right; apply lookup_delete_eq|left; by apply lookup_delete_ne].
Qed.

(** ** The collector puts its ledger only *)

Section ledger.
Context (date_parse : jsstr -> option Z) (clock : nat -> Z) (key : jsstr).
Abbreviation ledger_key := (gcPendingKey (log_prefix_of key)).
Abbreviation only_ledger := (puts_in (fun k => k = ledger_key)).

Lemma readCurrent_puts W k : puts_in W (readCurrentJson k).
Proof.
  unfold readCurrentJson. apply puts_bind; [intros x; apply puts_of_result|]. intros [g|]; [|done].
  apply puts_bind; [apply puts_of_result|done].
Qed.

Lemma readGcPending_puts : only_ledger (readGcPending ledger_key).
Proof.
  unfold readGcPending. apply puts_bind; [intros x; apply puts_of_result|]. intros [g|]; [|done].
  apply puts_bind; [apply puts_of_result|done].
Qed.

Lemma check_pending_puts q : only_ledger (check_pending q).
Proof. unfold check_pending. apply puts_bind; [apply puts_of_result|done]. Qed.

Lemma encodePending_puts q : only_ledger (encodePending q).
Proof. unfold encodePending. by destruct (encodeJsonBytes _). Qed.

Lemma put_ledger_puts b o : only_ledger (storage_put ledger_key b o).
Proof. split; [done|]. intros x. apply puts_of_result. Qed.

Lemma cas_attempts_puts f n : forall e, only_ledger (cas_attempts ledger_key f n e).
Proof.
  induction n as [|n IH]; intros e; cbn [cas_attempts]; [done|]. apply puts_bind; [apply readGcPending_puts|].
  intros [existing|]; [|done]. cbv zeta. apply puts_bind; [apply check_pending_puts|]. intros _.
  apply puts_bind; [apply encodePending_puts|]. intros b. apply puts_attempt; [apply put_ledger_puts|]. intros [err|r]; [|done].
  destruct (negb _); [done|apply IH].
Qed.

Lemma read_or_create_puts : only_ledger (read_or_create ledger_key).
Proof.
  unfold read_or_create. apply puts_bind; [apply readGcPending_puts|]. intros [q|]; [done|]. apply puts_attempt.
  - unfold createGcPending. apply puts_bind; [apply check_pending_puts|]. intros _. apply puts_bind; [apply encodePending_puts|].
    intros b. apply puts_bind; [|done]. apply puts_attempt; [apply put_ledger_puts|]. by intros [e|r].
  - intros [e|r]; [|done]. destruct (isWriteConflict e); [|done]. apply puts_bind; [apply readGcPending_puts|]. by intros [q|].
Qed.

Lemma runGc_puts opts : only_ledger (runGc date_parse clock key opts).
Proof.
  unfold runGc. cbv zeta. apply puts_bind; [apply readCurrent_puts|]. intros [cur|]; [|done].
  apply puts_bind; [apply read_or_create_puts|]. intros pending. apply puts_bind; [intros x; apply puts_of_result|]. intros entries.
  unfold sweep. cbv zeta. apply puts_bind; [destruct (existsb _ _); [apply readCurrent_puts|done]|]. intros fresh.
  unfold sweep_due. cbv zeta. destruct (split_sweep _ _ _ _ _ _ _ _) as [toSweep remaining]. apply puts_bind.
  - unfold promise_all. apply puts_bind; [|intros rs; apply puts_of_result].
    induction toSweep as [|c l IH]; cbn [settle_all]; [done|]. apply puts_attempt; [intros x; apply puts_of_result|].
    intros r. apply puts_bind; [exact IH|done].
  - intros _. apply puts_bind; [|done]. apply puts_attempt; [apply cas_attempts_puts|]. intros [e|r]; [|done].
    by destruct (isWriteConflict e).
Qed.
End ledger.

(** ** What a quiet pass keeps *)

Section quiet.
Context (byteLength : bytes -> Z) (byteLength_pos : forall b, 0 <= byteLength b) (sha256 : bytes -> list N) (digest : digest_ok sha256)
  (mixed_lt : jsval -> jsval -> bool) (date_parse : jsstr -> option Z) (clock : nat -> Z) (now : Z) (ctx : CollectionReadContext).
Context (named : collectionName ctx = collection_of (collectionPrefix ctx ++ js "/current.json")).
Abbreviation p := (collectionPrefix ctx).
Abbreviation key := (collectionPrefix ctx ++ js "/current.json").

(** The objects represent the rows; the delete floor is at or below the log start; and the
    snapshot is named as compactions name it, for a range that ends at the log start or later. *)
Record sound (m : MemoryStorage) (head : CurrentJson) (tail : Z) (s : rows_map) : Prop := {
  sound_rows : represents sha256 ctx m head tail s;
  sound_floor : logDeleteFloorOf head <= log_seq_start head;
  sound_store : memory_ok m;
  sound_snapshot : forall k, snapshot head = Some k -> starts_with (p ++ js "/snapshot/") k = true /\
    forall mx, parseMaxSeqFromCanonicalSnapshotKey k p = Some mx -> log_seq_start head <= mx
}.

(** Nothing of the manifest moves back. *)
Definition advances (head head' : CurrentJson) : Prop := floors_le head head' /\ tail_hint head <= tail_hint head'.

Global Instance advances_preorder : PreOrder advances.
Proof.
  split; [by split|]. intros a b c [H1 H2] [H3 H4]. split; [by transitivity b|lia].
Qed.

Lemma sound_manifest m head tail s : sound m head tail s -> exists o, objects m !! key = Some o /\
  decode_current (stored_body o) = inr head /\ assertValidStorageKey key = None /\ valid_prefix p.
Proof.
  intros [[(base & docs & entries & Hs & _)] _ _ _]. destruct (serves_head _ _ _ _ _ _ _ _ Hs) as [etag Hh].
  unfold read_manifest in Hh. destruct (objects m !! key) as [o|]; [|done]. exists o. split; [done|].
  destruct (decode_current (stored_body o)) as [|c]; [done|]. injection Hh as -> _.
  split; [done|]. split; [apply Hs|apply Hs].
Qed.

Lemma sound_shape m head tail s : sound m head tail s -> extras_ok head /\ shape_ok head.
Proof. intros (o & _ & Hd & _)%sound_manifest. by apply decode_current_wf in Hd. Qed.

Lemma sound_tail m head tail s : sound m head tail s -> Z.max (log_seq_start head) (tail_hint head) <= tail.
Proof. intros [[(base & docs & entries & Hs & _)] _ _ _]. apply (serves_ends _ _ _ _ _ _ _ _ Hs). Qed.

(** A store with another manifest, the same live slots and the same snapshot. *)
Lemma sound_moved m m' head head' tail s : sound m head tail s -> memory_ok m' -> manifest_at key m' head' ->
  snapshot head' = snapshot head -> log_seq_start head' = log_seq_start head -> tail_hint head <= tail_hint head' <= tail ->
  logDeleteFloorOf head' <= log_seq_start head' ->
  (forall k, k <> key -> (forall seq, seq < log_seq_start head -> k <> logObjectKey p seq) -> objects m' !! k = objects m !! k) ->
  sound m' head' tail s.
Proof.
  intros Hs Hok (o & Ho & Hd) Hsnap Hstart Hhint Hfl Hobj. pose proof (sound_tail _ _ _ _ Hs) as Ht.
  destruct Hs as [[(base & docs & entries & Hs & Hden)] Hf _ Hn]. split; [|done|done|by rewrite Hsnap, Hstart].
  split. exists base, docs, entries. split; [|done].
  apply (serves_moved sha256 m m' ctx head head' (stored_etag o) base docs entries tail Hs); try done; try lia.
  - unfold read_manifest. by rewrite Ho, Hd.
  - intros seq Hseq. unfold log_slot. rewrite Hobj; [done| |].
    + intros E. by apply (key_not_log ctx seq).
    + intros seq' Hlt E. apply logObjectKey_inj in E. lia.
  - intros k Hk. pose proof (serves_base _ _ _ _ _ _ _ _ Hs) as Hb. unfold base_of in Hb. rewrite Hk in Hb.
    destruct Hb as (_ & (Hnl & Hnk) & _). apply Hobj; [done|]. intros seq _. apply Hnl.
Qed.

(** Collecting garbage leaves the manifest, the live slots and the snapshot as they are. *)
Lemma run_gc_sound opts m head tail s : sound m head tail s -> sound (run now (runGc date_parse clock key opts) m).2 head tail s.
Proof.
  intros Hs. destruct (sound_manifest _ _ _ _ Hs) as (o & Ho & Hd & Hkey & Hp).
  pose proof Hs as [[(base & docs & entries & Hserves & Hden)] Hfl Hok Hn].
  destruct (run now (runGc date_parse clock key opts) m) as [r m'] eqn:Er. cbn [snd].
  assert (Hm : forall k, k <> gcPendingKey p -> objects m' !! k = objects m !! k \/ objects m' !! k = None).
  { intros k Hk. pose proof (runGc_puts date_parse clock key opts) as Hput. rewrite current_key_prefix in Hput.
    pose proof (run_puts_in _ now _ k Hk Hput m) as H. by rewrite Er in H. }
  destruct (run_exec (gc_rely key) _ _ _ _ _ [] [] Er) as (l' & Hex).
  assert (Hi : man_inv key (gc_rely key) m (World m [] [])) by (split; [done|]; split; [reflexivity|by intros ? ? ?%elem_of_nil]).
  assert (HR : forall a b, gc_rely key a b -> gc_rely key a b) by auto.
  destruct (wp_sound _ _ _ _ _ (wp_runGc date_parse clock key opts (gc_rely key) HR m (World m [] []) Hi) Hex) as (Hok' & Hg & _).
  cbn [store] in Hok', Hg. assert (Hm0 : manifest_at key m head) by by exists o.
  assert (Hman : objects m' !! key = objects m !! key).
  { destruct Hg as [[_ Hg] _]. destruct (Hg _ Hm0) as (c' & (o' & Ho' & _) & _). destruct (Hm key) as [E|E]; [|done|congruence].
    unfold gcPendingKey. intros E. apply app_inv_head in E. discriminate. }
  assert (Hm1 : manifest_at key m' head) by (exists o; by rewrite Hman).
  destruct (live_objects_kept key m m' head Hg Hm1) as [Hlsnap Hlslot]. rewrite current_key_prefix in Hlsnap, Hlslot.
  assert (Heq : forall k, k <> gcPendingKey p -> (is_Some (objects m !! k) -> is_Some (objects m' !! k)) -> objects m' !! k = objects m !! k).
  { intros k Hk Hl. destruct (Hm k Hk) as [E|E]; [done|]. destruct (objects m !! k) as [x|] eqn:Ek; [|done].
    destruct Hl as [y Hy]; [by eexists|]. congruence. }
  split; [|done|done|done]. split. exists base, docs, entries. split; [|done].
  apply (serves_same sha256 m m' ctx head base docs entries tail Hserves Hman).
  - intros seq Hseq. unfold log_slot. rewrite Heq; [done| |by apply Hlslot].
    unfold logObjectKey, gcPendingKey. intros E. apply app_inv_head in E. discriminate.
  - intros k Hk. destruct (Hn k Hk) as [Hpre Hmx]. apply Heq; [|by apply Hlsnap].
    intros ->. apply starts_with_spec in Hpre as [t Ht]. unfold gcPendingKey in Ht. rewrite <- app_assoc in Ht. apply app_inv_head in Ht. discriminate.
Qed.

(** A retirement moves the delete floor and removes folded slots. *)
Lemma run_retire_sound opts m head tail s : sound m head tail s ->
  exists head', sound (run now (retireLogs key opts) m).2 head' tail s /\ advances head head'.
Proof.
  intros Hs. destruct (sound_manifest _ _ _ _ Hs) as (o & Ho & Hd & Hkey & Hp). destruct (sound_shape _ _ _ _ Hs) as [_ Hsh].
  unfold retireLogs. rewrite run_attempt. set (ropts := default (RetentionOpts None None) opts).
  pose proof (run_memory_ok now (retireLogRange key ropts) m (sound_store _ _ _ _ Hs)) as Hok'.
  pose proof (retire_exact_range now key ropts m o head Hkey) as Hret. rewrite current_key_prefix in Hret.
  specialize (Hret Hp Ho Hd). cbv zeta in Hret. set (range := computeRetirableRange head ropts) in *.
  pose proof (retirable_range_spec head ropts) as [Hst Hend]. fold range in Hst, Hend. unfold certifiedDeleteFloor, logSeqStartOf in Hst.
  destruct (Z.leb_spec (range_end range) (Retention.start range)) as [Hle|Hlt].
  { rewrite Hret. cbn [run]. exists head. by split. }
  destruct Hret as (m' & Hrun & Hman & _ & Hobj). rewrite Hrun in Hok' |- *. cbn [run snd] in Hok' |- *.
  exists (with_delete_floor (range_end range) head). pose proof (sound_floor _ _ _ _ Hs) as Hfl.
  assert (Hdf : logDeleteFloorOf (with_delete_floor (range_end range) head) = range_end range) by reflexivity.
  split.
  - apply (sound_moved m m' head _ tail s Hs Hok' Hman); try done.
    + cbn [tail_hint with_delete_floor]. pose proof (sound_tail _ _ _ _ Hs). lia.
    + rewrite Hdf. cbn [log_seq_start with_delete_floor]. lia.
    + intros k Hk Hns. apply Hobj; [done|]. intros seq Hseq. apply Hns. lia.
  - split; [|done]. split; [done|]. rewrite Hdf. unfold logDeleteFloorOf in *. lia.
Qed.

(** The hint swap publishes a tail at or below the true one. *)
Lemma run_publish_sound nextSeq stamp m head tail s : sound m head tail s -> 0 <= nextSeq <= tail ->
  exists head', sound (run now (casUpdateCurrentJson key (publish_hint nextSeq stamp)) m).2 head' tail s /\
    advances head head' /\ nextSeq <= tail_hint head'.
Proof.
  intros Hs Hn. destruct (sound_manifest _ _ _ _ Hs) as (o & Ho & Hd & Hkey & Hp). destruct (sound_shape _ _ _ _ Hs) as [He Hsh].
  pose proof (run_memory_ok now (casUpdateCurrentJson key (publish_hint nextSeq stamp)) m (sound_store _ _ _ _ Hs)) as Hok'.
  pose proof (sound_floor _ _ _ _ Hs) as Hfl. pose proof (sound_tail _ _ _ _ Hs) as Ht.
  assert (Hnext : shape_ok (with_hint nextSeq stamp head)).
  { destruct Hsh as (H1 & H2 & H3 & H4 & H5 & H6 & H7 & H8). unfold shape_ok, with_hint.
    cbn [log_seq_start tail_hint writer_fence snapshot_bytes snapshot_rows last_warned_seq log_delete_floor mean_entry_bytes generation].
    split_and!; try done; try lia. destruct stamp; [cbn [opt_nonneg]; lia|done]. }
  assert (Hdf : logDeleteFloorOf (with_hint nextSeq stamp head) = logDeleteFloorOf head) by done.
  assert (Htr : assertCurrentJsonTransition head (with_hint nextSeq stamp head) = None).
  { apply transition_spec. unfold floors_le. rewrite Hdf. cbn [log_seq_start with_hint]. lia. }
  rewrite (run_casUpdate now key (publish_hint nextSeq stamp) m o head (with_hint nextSeq stamp head) tt) in * by done.
  cbn [snd] in Hok' |- *. exists (with_hint nextSeq stamp head). split; [|split; [split|]].
  - apply (sound_moved m _ head _ tail s Hs Hok').
    + eexists. rewrite memory_store_lookup, decide_True by done. split; [done|]. by apply decode_encode_current.
    + done.
    + done.
    + cbn [tail_hint with_hint]. lia.
    + rewrite Hdf. cbn [log_seq_start with_hint]. lia.
    + intros k Hk _. by rewrite memory_store_lookup, decide_False.
  - unfold floors_le. rewrite Hdf. cbn [log_seq_start with_hint]. lia.
  - cbn [tail_hint with_hint]. lia.
  - cbn [tail_hint with_hint]. lia.
Qed.

(** A compaction. *)
Lemma run_compact_sound opts m head tail s : sound m head tail s -> (forall n, knownTail opts = Some n -> n <= tail) ->
  exists head', sound (run now (compact byteLength sha256 mixed_lt key opts) m).2 head' tail s /\ advances head head' /\
    forall res, (run now (compact byteLength sha256 mixed_lt key opts) m).1 = inr res -> written res = true ->
      maxTailProbeGets opts = None -> tail_hint head' = tail.
Proof.
  intros Hs Hk. pose proof Hs as [Hrep Hfl Hok Hn].
  destruct (compact_represents byteLength sha256 mixed_lt now ctx opts m head tail s byteLength_pos digest named Hrep Hfl Hk)
    as (head' & Hrep' & Hle & _ & (Hdf & Hhint & Hsnap) & Hw & _).
  exists head'. split; [|split; [|exact Hw]].
  - split; [exact Hrep'|lia|by apply run_memory_ok|]. intros k Ek. destruct Hsnap as [[E1 E2]|(h & k' & Hkey & E)].
    + rewrite E2. apply Hn. by rewrite <- E1.
    + assert (k' = k) as -> by congruence. destruct (snapshotKey_shape _ _ _ _ _ Hkey) as ((t & Et) & _). split.
      * apply starts_with_spec. exists (js "L" ++ t). rewrite Et, <- !app_assoc. reflexivity.
      * intros mx Hmx. rewrite (snapshot_key_seq _ _ _ _ _ _ Hkey Hmx). lia.
  - split; [|done]. unfold floors_le. lia.
Qed.

(** ** Steps of the write tick *)

Section steps.
Context (tail : Z) (s : rows_map) (current : CurrentJson) (nextSeq : Z) (known : 0 <= nextSeq <= tail).

(** A published hint is in the manifest. *)
Definition published (st : bool) (head : CurrentJson) : Prop := st = true -> nextSeq <= tail_hint head.

(** From a sound state with the variable at [st]: the step returns, in a sound state no
    further back, and its outcome and the manifest then stored satisfy [Q]. *)
Definition goes {A} (m : step A) (st : bool) (M : MemoryStorage) (head : CurrentJson) (Q : result A -> bool -> CurrentJson -> Prop) : Prop :=
  exists r st' M' head', run now (m st) M = (inr (r, st'), M') /\ sound M' head' tail s /\ advances head head' /\
    published st' head' /\ Q r st' head'.

Abbreviation anything := (fun _ _ _ => True).

Lemma goes_done {A} (a : A) st M head (Q : result A -> bool -> CurrentJson -> Prop) : sound M head tail s -> published st head ->
  Q (inr a) st head -> goes (done_with a) st M head Q.
Proof. intros Hs Hp HQ. by exists (inr a), st, M, head. Qed.

Lemma goes_then {A B} (m : step A) (f : A -> step B) st M head Q (Q' : result B -> bool -> CurrentJson -> Prop) :
  goes m st M head Q -> (forall e st' head', Q (inl e) st' head' -> Q' (inl e) st' head') ->
  (forall a st' M' head', sound M' head' tail s -> advances head head' -> published st' head' -> Q (inr a) st' head' ->
     goes (f a) st' M' head' Q') ->
  goes (then_do m f) st M head Q'.
Proof.
  intros (r & st' & M' & head' & Hrun & Hs & Ha & Hp & HQ) He Hf. unfold goes, then_do. rewrite run_bind, Hrun.
  destruct r as [e|a]; [exists (inl e), st', M', head'; auto 6|].
  destruct (Hf a st' M' head' Hs Ha Hp HQ) as (r & st2 & M2 & head2 & Hrun2 & Hs2 & Ha2 & Hp2 & HQ2).
  exists r, st2, M2, head2. split; [done|]. split; [done|]. split; [by transitivity head'|done].
Qed.

(** A program as a step. *)
Lemma goes_await {A} (q : prog A) st M head (Q : result A -> bool -> CurrentJson -> Prop) : published st head ->
  (exists head', sound (run now q M).2 head' tail s /\ advances head head' /\ Q (run now q M).1 st head') ->
  goes (await q) st M head Q.
Proof.
  intros Hp (head' & Hs & Ha & HQ). unfold goes, await. rewrite run_attempt. destruct (run now q M) as [r M'] eqn:Er. cbn [fst snd] in *.
  exists r, st, M', head'. split; [done|]. split; [done|]. split; [done|]. split; [|done]. intros Hst. specialize (Hp Hst). destruct Ha. lia.
Qed.

Lemma goes_refresh stamp st M head : sound M head tail s -> published st head ->
  goes (refreshTailHintIfNeeded key current nextSeq stamp) st M head
    (fun _ st' _ => st' = true \/ nextSeq - tail_hint current < MAINTENANCE_TAIL_HINT_REFRESH_WRITES).
Proof.
  intros Hs Hp. unfold goes, refreshTailHintIfNeeded. destruct (negb stamp && _) eqn:E.
  - exists (inr tt), st, M, head. split; [done|]. split; [done|]. split; [done|]. split; [done|].
    apply andb_true_iff in E as [_ [->|Hlt%Z.ltb_lt]%orb_true_iff]; [by left|by right].
  - rewrite run_attempt. destruct (run_publish_sound nextSeq stamp M head tail s Hs known) as (head' & Hs' & Ha & Hn).
    destruct (run now (casUpdateCurrentJson key (publish_hint nextSeq stamp)) M) as [r M'].
    exists (inr tt), true, M', head'. split; [done|]. split; [done|]. split; [done|]. split; [by intros _|by left].
Qed.

Lemma goes_weaken {A} (m : step A) st M head Q (Q' : result A -> bool -> CurrentJson -> Prop) : goes m st M head Q ->
  (forall r st' head', Q r st' head' -> Q' r st' head') -> goes m st M head Q'.
Proof. intros (r & st' & M' & head' & H1 & H2 & H3 & H4 & H5) HQ. exists r, st', M', head'. auto 6. Qed.

Context (args : TickArgs) (opts : BoundedMaintenanceOptions).

Lemma goes_gc_refresh st M head : sound M head tail s -> published st head ->
  goes (runGcAndRefreshTailHint date_parse clock key opts current nextSeq) st M head anything.
Proof.
  intros Hs Hp. unfold runGcAndRefreshTailHint. eapply (goes_then _ _ _ _ _ anything); [|done|].
  - apply goes_await; [done|]. exists head. split; [by apply run_gc_sound|by split].
  - intros res st' M' head' Hs' _ Hp' _. by eapply goes_weaken; [apply goes_refresh|].
Qed.

Lemma goes_retire st M head : sound M head tail s -> published st head -> goes (retire_step key opts) st M head anything.
Proof.
  intros Hs Hp. apply goes_await; [done|]. destruct (run_retire_sound (tick_logRetention opts) M head tail s Hs) as (head' & Hs' & Ha).
  by exists head'.
Qed.

Lemma goes_fold_phase st M head : sound M head tail s -> published st head ->
  goes (fold_phase byteLength sha256 mixed_lt key args opts current nextSeq) st M head anything.
Proof.
  intros Hs Hp. unfold fold_phase. destruct (gate1 _ _ _); [|by apply goes_done]. destruct (isFoldViable _ _ _).
  - eapply (goes_then _ _ _ _ _ (fun r _ head' => forall res, r = inr res -> written res = true -> nextSeq <= tail_hint head')); [|done|].
    + apply goes_await; [done|]. destruct (run_compact_sound (tick_compact args opts nextSeq) M head tail s Hs) as (head' & Hs' & Ha & Hw).
      { intros n [= <-]. lia. }
      exists head'. split; [done|]. split; [done|]. intros res Hres Hwr. rewrite (Hw res Hres Hwr eq_refl). lia.
    + intros res st1 M1 head1 Hs1 _ Hp1 Hw. eapply (goes_then _ _ _ _ _ anything); [|done|].
      { destruct (written res) eqn:Ew; [|by apply goes_done]. exists (inr tt), true, M1, head1. split; [done|]. split; [done|].
        split; [reflexivity|]. split; [|done]. intros _. by eapply Hw. }
      intros _ st2 M2 head2 Hs2 _ Hp2 _. eapply (goes_then _ _ _ _ _ anything); [|done|by intros; apply goes_done].
      destruct (deferral res); [by eapply goes_weaken; [apply goes_refresh|]|by apply goes_done].
  - eapply (goes_then _ _ _ _ _ anything); [by eapply goes_weaken; [apply goes_refresh|]|done|by intros; apply goes_done].
Qed.

Lemma goes_tick_body st M head : sound M head tail s -> published st head ->
  goes (tick_body byteLength sha256 mixed_lt date_parse clock key args opts current nextSeq) st M head anything.
Proof.
  intros Hs Hp. unfold tick_body. destruct (default false (disabled args)); [by eapply goes_weaken; [apply goes_refresh|]|]. cbv zeta.
  destruct (match tick_phases opts with single => _ | both => _ end).
  { eapply (goes_then _ _ _ _ _ anything); [by apply goes_gc_refresh|done|]. intros. by apply goes_retire. }
  eapply (goes_then _ _ _ _ _ anything); [by apply goes_fold_phase|done|]. intros [|] st1 M1 head1 Hs1 _ Hp1 _; [by apply goes_done|].
  eapply (goes_then _ _ _ _ _ anything); [|done|intros; by apply goes_retire].
  destruct (gcDue _ _ _); [by apply goes_gc_refresh|by apply goes_done].
Qed.

(** The closing refresh leaves the hint near the tail of the tick. *)
Lemma run_tick M head : sound M head tail s -> advances current head ->
  exists out M' head', run now (finally (tick_body byteLength sha256 mixed_lt date_parse clock key args opts current nextSeq)
      (refreshTailHintIfNeeded key current nextSeq false) false) M = (inr out, M') /\
    sound M' head' tail s /\ advances head head' /\ nextSeq - tail_hint head' < MAINTENANCE_TAIL_HINT_REFRESH_WRITES.
Proof.
  intros Hs Hcur. unfold finally. rewrite run_bind.
  destruct (goes_tick_body false M head Hs) as (r & st & M1 & head1 & -> & Hs1 & Ha1 & Hp1 & _); [done|].
  rewrite run_bind. destruct (goes_refresh false st M1 head1 Hs1 Hp1) as (r' & st' & M2 & head2 & -> & Hs2 & Ha2 & Hp2 & Hst).
  eexists _, M2, head2. split; [done|]. split; [done|]. split; [by transitivity head1|].
  destruct Hst as [->|Hst]; [specialize (Hp2 eq_refl); unfold MAINTENANCE_TAIL_HINT_REFRESH_WRITES; lia|].
  assert (advances current head2) as [_ H] by (transitivity head; [done|]; by transitivity head1). lia.
Qed.
End steps.

(** ** The runners *)

(** A write tick: [observed] is the writer's tail when it is given. *)
Lemma run_bounded_sound args opts m head tail s : sound m head tail s -> (forall observed, observedTail args = Some observed -> observed <= tail) ->
  exists m' head', run now (runBoundedMaintenance byteLength sha256 mixed_lt date_parse clock key args opts) m = (inr tt, m') /\
    sound m' head' tail s /\ advances head head' /\
    ((forall observed, observedTail args = Some observed -> observed = tail) ->
     tail - tail_hint head' < MAINTENANCE_TAIL_HINT_REFRESH_WRITES).
Proof.
  intros Hs Hobs. destruct (sound_manifest _ _ _ _ Hs) as (o & Ho & Hd & Hkey & Hp). pose proof (sound_tail _ _ _ _ Hs) as Ht.
  destruct (sound_shape _ _ _ _ Hs) as [_ [Hsh _]].
  unfold runBoundedMaintenance. rewrite run_attempt. unfold bounded_tick. rewrite run_bind, run_readCurrentJson by done.
  unfold read_manifest. rewrite Ho, Hd. cbn [json]. cbv zeta. rewrite run_bind.
  assert (Htail : exists next, run now (tick_tail key args head) m = (inr next, m) /\ 0 <= next <= tail /\
    ((forall observed, observedTail args = Some observed -> observed = tail) -> next = tail)).
  { unfold tick_tail. destruct (observedTail args) as [observed|].
    - specialize (Hobs observed eq_refl). eexists. split; [done|]. split; [lia|]. intros H. specialize (H observed eq_refl). lia.
    - rewrite current_key_prefix, run_bind. destruct Hs as [[(base & docs & entries & Hserves & _)] _ _ _].
      destruct (run_log (fun _ => 0) sha256 now m ctx head base docs entries tail Hserves) as (e1 & e2 & _ & _ & Hprobe).
      rewrite Hprobe. exists tail. split; [done|]. split; [lia|done]. }
  destruct Htail as (next & -> & Hnext & Hexact). rewrite run_bind.
  destruct (run_tick tail s head next Hnext args opts m head Hs) as (out & m' & head' & -> & Hs' & Ha & Hlag); [reflexivity|].
  exists m', head'. rewrite run_of_result. cbn [run]. split; [done|]. split; [done|]. split; [done|].
  intros H. by rewrite <- (Hexact H).
Qed.

Lemma run_scheduled_sound options m head tail s : sound m head tail s ->
  (forall o n, compact_options options = Some o -> knownTail o = Some n -> n <= tail) ->
  exists head', sound (run now (runScheduledMaintenance byteLength sha256 mixed_lt date_parse clock key options) m).2 head' tail s /\
    advances head head'.
Proof.
  intros Hs Hk. unfold runScheduledMaintenance. rewrite run_bind. set (co := scheduled_compact (compact_options options)).
  destruct (run_compact_sound co m head tail s Hs) as (h1 & Hs1 & Ha1 & _).
  { intros n Hn. unfold co, scheduled_compact in Hn. destruct (compact_options options) as [o|]; [by apply (Hk o)|done]. }
  destruct (run now (compact byteLength sha256 mixed_lt key co) m) as [[e|res] m1]; [by exists h1|]. cbn [snd] in Hs1.
  rewrite run_bind. set (go := default (GcOpts None None None) (gc_options options)).
  pose proof (run_gc_sound go m1 h1 tail s Hs1) as Hs2.
  destruct (run now (runGc date_parse clock key go) m1) as [[e|gres] m2]; [by exists h1|]. cbn [snd] in Hs2.
  rewrite run_bind. destruct (run_retire_sound (logRetention options) m2 h1 tail s Hs2) as (h3 & Hs3 & Ha3).
  destruct (run now (retireLogs key (logRetention options)) m2) as [[e|u] m3]; cbn [run snd] in Hs3 |- *; exists h3;
    (split; [done|by transitivity h1]).
Qed.

(** A commit's dispatch: nothing, or a tick at the tail it observed. *)
Lemma run_dispatch_sound maint current prev m head tail s : sound m head tail s ->
  exists m' head', run now (dispatch_maintenance byteLength sha256 mixed_lt date_parse clock key maint current prev tail) m = (inr tt, m') /\
    sound m' head' tail s /\ advances head head'.
Proof.
  intros Hs. unfold dispatch_maintenance. cbv zeta. destruct (if default false _ then _ else _); [|exists m, head; by split].
  rewrite run_attempt.
  destruct (run_bounded_sound (Tick prev (Some tail) (maint ≫= dispatch_maxFoldBytes)
      (if default false (maint ≫= dispatch_disabled) then Some true else None))
      (default (BoundedOpts None None None None None) (maint ≫= dispatch_options)) m head tail s Hs) as (m' & head' & -> & Hs' & Ha & _).
  { intros observed [= <-]. done. }
  by exists m', head'.
Qed.
End quiet.

(** ** Theorems *)

(** Maintenance refines doing nothing.  On a quiet storage whose objects represent the
    rows [s] up to [tail], under every profile, ceilings, gates and clock, and whatever its
    phases answer: a write tick told a tail at or below the true one answers, a scheduled pass
    runs, and both leave objects that represent the same [s] under a manifest no field of
    which moved back; and a tick told the true tail, or none, leaves [tail_hint] less than 128
    slots below it. *)
Theorem maintenance_keeps_the_map byteLength sha256 mixed_lt date_parse clock now ctx m head tail s :
  let key := collectionPrefix ctx ++ js "/current.json" in
  (forall b, 0 <= byteLength b) -> digest_ok sha256 -> collectionName ctx = collection_of key ->
  sound sha256 ctx m head tail s ->
  (forall args opts, (forall observed, observedTail args = Some observed -> observed <= tail) ->
     exists m' head', run now (runBoundedMaintenance byteLength sha256 mixed_lt date_parse clock key args opts) m = (inr tt, m') /\
       sound sha256 ctx m' head' tail s /\ advances head head' /\
       ((forall observed, observedTail args = Some observed -> observed = tail) -> tail - tail_hint head' < 128)) /\
  (forall options, (forall o n, compact_options options = Some o -> knownTail o = Some n -> n <= tail) ->
     exists head', sound sha256 ctx (run now (runScheduledMaintenance byteLength sha256 mixed_lt date_parse clock key options) m).2 head' tail s /\
       advances head head').
Proof.
  intros key Hpos Hdig Hname Hs. split.
  - intros args opts Hobs. by apply run_bounded_sound.
  - intros options Hk. by apply run_scheduled_sound.
Qed.

(** A commit and the tick it dispatches, with the indexes the collection declares. *)
Lemma commit_and_tick nfc byteLength sha256 json_octets mixed_lt date_parse readings maint ctx verify gen session now clock input m head tail s :
  let key := collectionPrefix ctx ++ js "/current.json" in
  let maintenance := dispatch_maintenance byteLength sha256 mixed_lt date_parse readings key maint in
  (forall b, 0 <= byteLength b) -> digest_ok sha256 -> collectionName ctx = collection_of key ->
  sound sha256 ctx m head tail s -> @commit_ready (declared_indexes json_octets (ctx_indexes ctx)) nfc ctx now input m head tail s ->
  exists r ts m' head',
    run clock (@commit (declared_indexes json_octets (ctx_indexes ctx)) nfc key verify gen session now maintenance input) m = (inr r, m') /\
    replayed r = false /\ result_entry r = mintEntry session now ts input tail /\
    sound sha256 ctx m' head' (tail + 1) (update_rows (update_of input) s) /\ advances head head'.
Proof.
  intros key maintenance Hpos Hdig Hname Hs Hready. pose proof (sound_tail _ _ _ _ _ _ Hs) as Ht.
  pose proof Hs as [Hrep Hfl Hok Hn].
  assert (Hsnap : forall k, snapshot head = Some k -> index_key (collectionPrefix ctx) k = false).
  { intros k Hk. destruct (Hn k Hk) as [[t ->]%starts_with_spec _]. unfold index_key. rewrite <- app_assoc.
    apply not_true_iff_false. intros [t' E]%starts_with_spec. rewrite <- app_assoc in E. by apply app_inv_head in E. }
  destruct (@commit_dispatches (declared_indexes json_octets (ctx_indexes ctx)) nfc sha256 ctx verify gen session now clock maintenance
    input m head tail s (declared_indexes_under _ _ _) Hrep Hsnap) as (r & ts & m1 & Hrun & Hr1 & Hr2 & Hmok & Hrep'); [|done|].
  { unfold certifiedDeleteFloor, logSeqStartOf. lia. }
  assert (Hs' : sound sha256 ctx m1 head (tail + 1) (update_rows (update_of input) s)) by (split; [done|done|by apply Hmok|done]).
  destruct (run_dispatch_sound byteLength Hpos sha256 Hdig mixed_lt date_parse readings clock ctx Hname maint head tail _ head (tail + 1) _ Hs')
    as (m' & head' & Hd & Hs2 & Ha).
  exists r, ts, m', head'. split; [|done]. etransitivity; [exact Hrun|]. cbv zeta. unfold maintenance, key. by rewrite Hd.
Qed.

(** C5: The write path as it is deployed refines an update of the map.  On a quiet storage
    that represents the rows [s], a commit of a valid input with the declared indexes (the
    storage takes the markers of the new body; a guarded insert is of an absent row, from a
    tail the caller has seen at or above the log start), and then the write tick it
    dispatches under any dispatch configuration, acknowledges with its minted entry, and
    leaves objects that represent [s] with the row put or deleted, one sequence number
    further, under a manifest that did not move back. *)
Theorem commit_and_tick_refine_update nfc byteLength sha256 json_octets mixed_lt date_parse readings maint ctx verify gen session now clock
    input m head tail s :
  let key := collectionPrefix ctx ++ js "/current.json" in
  let maintenance := dispatch_maintenance byteLength sha256 mixed_lt date_parse readings key maint in
  (forall b, 0 <= byteLength b) -> digest_ok sha256 -> collectionName ctx = collection_of key ->
  sound sha256 ctx m head tail s -> @commit_ready (declared_indexes json_octets (ctx_indexes ctx)) nfc ctx now input m head tail s ->
  exists r ts m' head',
    run clock (@commit (declared_indexes json_octets (ctx_indexes ctx)) nfc key verify gen session now maintenance input) m = (inr r, m') /\
    replayed r = false /\ result_entry r = mintEntry session now ts input tail /\
    sound sha256 ctx m' head' (tail + 1) (update_rows (update_of input) s) /\ advances head head'.
Proof. apply commit_and_tick. Qed.

(** C6: Reads see acknowledged writes.  On a quiet storage that represents the rows [s],
    once such a commit has answered, the tick it dispatched included, the next read by id,
    when no declared index starts with [_id], answers with the committed body (nothing
    after a delete), and for every other id as before the commit. *)
Theorem reads_see_the_commit nfc byteLength sha256 json_octets mixed_lt date_parse readings maint ctx verify gen session now clock
    input m head tail s :
  let key := collectionPrefix ctx ++ js "/current.json" in
  let maintenance := dispatch_maintenance byteLength sha256 mixed_lt date_parse readings key maint in
  (forall b, 0 <= byteLength b) -> digest_ok sha256 -> collectionName ctx = collection_of key ->
  sound sha256 ctx m head tail s -> @commit_ready (declared_indexes json_octets (ctx_indexes ctx)) nfc ctx now input m head tail s ->
  Forall (fun def => List.head (tuple_of def) <> Some (js "_id")) (ctx_indexes ctx) ->
  exists r m',
    run clock (@commit (declared_indexes json_octets (ctx_indexes ctx)) nfc key verify gen session now maintenance input) m = (inr r, m') /\
    forall id, exists before after,
      run clock (runByIdWithMeta byteLength sha256 json_octets mixed_lt ctx id) m =
        (inr (option_list (s !! id), before, true), m) /\
      run clock (runByIdWithMeta byteLength sha256 json_octets mixed_lt ctx id) m' =
        (inr (if decide (id = docId input) then match op input with OpD => [] | _ => [input_body input] end
              else option_list (s !! id), after, true), m').
Proof.
  intros key maintenance Hpos Hdig Hname Hs Hready Hno.
  destruct (commit_and_tick nfc byteLength sha256 json_octets mixed_lt date_parse readings maint ctx verify gen session now clock
    input m head tail s Hpos Hdig Hname Hs Hready) as (r & ts & m' & head' & Hrun & _ & _ & Hs' & _).
  exists r, m'. split; [exact Hrun|]. intros id. destruct (byId_scans mixed_lt id _ Hno) as [reason Hplan].
  destruct (byId_reads byteLength sha256 json_octets mixed_lt clock m ctx head _ _ id reason (sound_rows _ _ _ _ _ _ Hs) Hplan) as [p1 Hr1].
  destruct (byId_reads byteLength sha256 json_octets mixed_lt clock m' ctx head' _ _ id reason (sound_rows _ _ _ _ _ _ Hs') Hplan)
    as [p2 Hr2].
  exists p1, p2. split; [exact Hr1|]. rewrite Hr2. unfold update_of, update_rows. destruct (decide (id = docId input)) as [->|Hne].
  - destruct (op input); [by rewrite lookup_insert_eq..|by rewrite lookup_delete_eq].
  - destruct (op input); [by rewrite lookup_insert_ne by done..|by rewrite lookup_delete_ne by done].
Qed.

(** One entry, no snapshot. *)
Lemma sample_sound sha256 indexes : sound sha256 (sample_ctx indexes) sample_served sample_read_head 1 {[js "d1" := JObj sample_row]}.
Proof.
  split; [apply sample_represents|vm_compute; discriminate| |done]. repeat apply memory_store_ok. apply empty_memory_ok.
Qed.

Lemma maintenance_keeps_the_map_witness :
  exists m' head', run 0 (runBoundedMaintenance (fun _ => 40) sample_sha256 (fun _ _ => false) (fun _ => None) (fun _ => 0)
      (js "a/t/current.json") (Tick 0 (Some 1) None None) (BoundedOpts None (Some 1) None None None)) sample_served = (inr tt, m') /\
    sound sample_sha256 (sample_ctx []) m' head' 1 {[js "d1" := JObj sample_row]}.
Proof.
  destruct (maintenance_keeps_the_map (fun _ => 40) sample_sha256 (fun _ _ => false) (fun _ => None) (fun _ => 0) 0 (sample_ctx [])
    sample_served sample_read_head 1 {[js "d1" := JObj sample_row]}) as [Htick _].
  - intros _. lia.
  - apply sample_digest_ok.
  - vm_compute. reflexivity.
  - apply sample_sound.
  - destruct (Htick (Tick 0 (Some 1) None None) (BoundedOpts None (Some 1) None None None)) as (m' & head' & Hrun & Hs & _).
    { intros observed [= <-]. lia. }
    exists m', head'. split; [exact Hrun|exact Hs].
Defined.

(** An update of an indexed row, and a guarded insert beside it. *)
Definition guarded_insert : CommitInput :=
  Input OpI (js "t") (js "d2") (JObj [(js "_id", JStr (js "d2")); (js "n", JNum (num_of_Z 3))]) None (Some (Guard (num 1) (JBool true))).

Lemma sample_ready_update : @commit_ready (declared_indexes sample_octets [sample_by_n]) id (sample_ctx [sample_by_n]) 1000 sample_update
  sample_served sample_read_head 1 {[js "d1" := JObj sample_row]}.
Proof.
  split; try reflexivity.
  - right. vm_compute. reflexivity.
  - intros _ _. eexists. split; [vm_compute; reflexivity|]. repeat constructor; vm_compute; reflexivity.
  - by eexists.
Qed.

Lemma sample_ready_insert : @commit_ready (declared_indexes sample_octets [sample_by_n]) id (sample_ctx [sample_by_n]) 1000 guarded_insert
  sample_served sample_read_head 1 {[js "d1" := JObj sample_row]}.
Proof.
  split; try reflexivity.
  - right. vm_compute. reflexivity.
  - exists 1. split; [vm_compute; reflexivity|]. split; [cbn; lia|]. split; [reflexivity|]. split; [constructor|].
    vm_compute. reflexivity.
  - intros _ _. eexists. split; [vm_compute; reflexivity|]. repeat constructor; vm_compute; reflexivity.
  - by eexists.
Qed.

Lemma commit_and_tick_refine_update_witness :
  exists r m' head', run 0 (@commit (declared_indexes sample_octets [sample_by_n]) id (js "a/t/current.json") true (js "ab") (js "s1") 1000
      (dispatch_maintenance (fun _ => 40) sample_sha256 (fun _ _ => false) (fun _ => None) (fun _ => 0) (js "a/t/current.json") None)
      guarded_insert) sample_served = (inr r, m') /\
    sound sample_sha256 (sample_ctx [sample_by_n]) m' head' 2
      (update_rows (update_of guarded_insert) {[js "d1" := JObj sample_row]}).
Proof.
  destruct (commit_and_tick_refine_update id (fun _ => 40) sample_sha256 sample_octets (fun _ _ => false) (fun _ => None) (fun _ => 0)
    None (sample_ctx [sample_by_n]) true (js "ab") (js "s1") 1000 0 guarded_insert sample_served sample_read_head 1
    {[js "d1" := JObj sample_row]}) as (r & ts & m' & head' & Hrun & _ & _ & Hs & _).
  - intros _. lia.
  - apply sample_digest_ok.
  - reflexivity.
  - apply sample_sound.
  - apply sample_ready_insert.
  - exists r, m', head'. split; [exact Hrun|exact Hs].
Defined.

Lemma reads_see_the_commit_witness :
  exists r m', run 0 (@commit (declared_indexes sample_octets [sample_by_n]) id (js "a/t/current.json") true (js "ab") (js "s1") 1000
      (dispatch_maintenance (fun _ => 40) sample_sha256 (fun _ _ => false) (fun _ => None) (fun _ => 0) (js "a/t/current.json") None)
      sample_update) sample_served = (inr r, m') /\
    exists pointer, run 0 (runByIdWithMeta (fun _ => 40) sample_sha256 sample_octets (fun _ _ => false) (sample_ctx [sample_by_n]) (js "d1")) m' =
      (inr ([input_body sample_update], pointer, true), m').
Proof.
  destruct (reads_see_the_commit id (fun _ => 40) sample_sha256 sample_octets (fun _ _ => false) (fun _ => None) (fun _ => 0)
    None (sample_ctx [sample_by_n]) true (js "ab") (js "s1") 1000 0 sample_update sample_served sample_read_head 1
    {[js "d1" := JObj sample_row]}) as (r & m' & Hrun & Hread).
  - intros _. lia.
  - apply sample_digest_ok.
  - reflexivity.
  - apply sample_sound.
  - apply sample_ready_update.
  - repeat constructor. vm_compute. discriminate.
  - exists r, m'. split; [exact Hrun|]. destruct (Hread (js "d1")) as (before & after & _ & Hp). exists after. exact Hp.
Defined.
