(* ===== verification/Db.v ===== *)
(** * The database facade (server/src/db.ts, config.ts)

    [Db] scopes every operation to one application and tenant: it validates the names
    that become key segments, builds the prefix of a collection, and offers the
    floor-checked reads of the manifest and the log that the change feed uses. *)
From S2P Require Import Prelude JsText JsValue Errors Json Storage Effects Lsn CurrentJson LogWalk LogTail DocId.
From S2P Require Import Predicate Satisfiable Validate IndexCodec Adoption Writer Indexes QueryPlanner IndexWalk Query.
Local Open Scope Z_scope.

(** ** Configuration (config.ts) *)

(** A schema validator: whether it reports no issue, [inl] when it throws. *)
Abbreviation SchemaValidator := (jsval -> result bool).

Record CollectionDefinition := CollectionDef {
  def_schema : option SchemaValidator;
  def_indexes : option (list IndexDefinition)
}.

Abbreviation schema_map := (list (jsstr * SchemaValidator)).
Abbreviation index_map := (list (jsstr * list IndexDefinition)).

(** The entries of [collections], in order; absent collections give two empty maps. *)
Definition collectionsToMaps (collections : option (list (jsstr * CollectionDefinition))) : schema_map * index_map :=
  match collections with
  | None => ([], [])
  | Some entries =>
    (omap (fun e => match def_schema e.2 with Some s => Some (e.1, s) | None => None end) entries,
     omap (fun e => match def_indexes e.2 with
                    | Some ((_ :: _) as defs) => Some (e.1, defs)
                    | _ => None
                    end) entries)
  end.

Example every_index_is_kept a b :
  collectionsToMaps (Some [(js "t", CollectionDef None (Some [a; b])); (js "u", CollectionDef None (Some []))]) = ([], [(js "t", [a; b])]).
Proof. reflexivity. Qed.

(** ** The handle *)

Definition physicalPrefixFor (app tenant : jsstr) : jsstr :=
  js "app/" ++ app ++ js "/tenant/" ++ tenant ++ js "/".

Record Db := MakeDb {
  db_app : jsstr;
  db_tenant : jsstr;
  db_schemas : schema_map;
  db_indexes : index_map
}.

Definition assertKeySegment (value : jsstr) : option js_error := assertPathSegment value.

Definition Db_create (app tenant : jsstr) (config : option (option (list (jsstr * CollectionDefinition)))) : result Db :=
  match assertKeySegment app with
  | Some e => inl e
  | None => match assertKeySegment tenant with
            | Some e => inl e
            | None => let derived := match config with Some cs => collectionsToMaps cs | None => ([], []) end in
                      inr (MakeDb app tenant derived.1 derived.2)
            end
  end.

(** [<physicalPrefix>manifests/<name>] *)
Definition manifest_prefix (db : Db) (name : jsstr) : jsstr :=
  physicalPrefixFor (db_app db) (db_tenant db) ++ js "manifests/" ++ name.

Definition manifest_key (db : Db) (name : jsstr) : jsstr := manifest_prefix db name ++ js "/current.json".

(** The context and the bound validator. *)
Definition collectionReadContext (db : Db) (name : jsstr) : result (CollectionReadContext * option SchemaValidator) :=
  match assertKeySegment name with
  | Some e => inl e
  | None => inr (ReadContext (manifest_prefix db name) name (default [] (own_get name (db_indexes db))),
                 own_get name (db_schemas db))
  end.

Definition getCurrentJson (db : Db) (collection : jsstr) : prog (option CurrentJsonRead) :=
  bind (check (assertPathSegment collection)) (fun _ => readCurrentJson (manifest_key db collection)).

(** Both arms throw [Internal]; only the message tells the floors apart. *)
Definition assertAtOrAboveLogFloor (seq : Z) (current : CurrentJson) : option js_error :=
  let floor := logSeqStartOf current in
  let deleteFloor := certifiedDeleteFloor current in
  if (0 <? deleteFloor) && (seq <? deleteFloor) then Some (new_error Internal)
  else if seq <? floor then Some (new_error Internal)
  else None.

(** [None] is a missing entry; a body holding [null] comes back as [null] too. *)
Definition getLogEntry (db : Db) (collection : jsstr) (seq : Z) (current : CurrentJson) : prog (option LogEntry) :=
  bind (check (assertPathSegment collection)) (fun _ =>
  bind (check (assertAtOrAboveLogFloor seq current)) (fun _ =>
  bind (storage_get (logObjectKey (manifest_prefix db collection) seq)) (fun got =>
  match got with
  | None => Ret None
  | Some got => match decodeJsonBytes (body got) with
                | Some JNull => Ret None
                | Some parsed => Ret (Some parsed)
                | None => Throw (new_error_cause InvalidResponse OtherError)
                end
  end))).

Definition probeLogTail (db : Db) (collection : jsstr) (hint : Z) (current : CurrentJson) : prog Z :=
  bind (check (assertPathSegment collection)) (fun _ =>
  bind (check (assertAtOrAboveLogFloor hint current)) (fun _ =>
  bind (probeTailFrom (manifest_prefix db collection) hint) (fun r => Ret r.1))).

(** ** Lemmas *)

Lemma floor_check seq c : assertAtOrAboveLogFloor seq c = if seq <? log_seq_start c then Some (new_error Internal) else None.
Proof.
  unfold assertAtOrAboveLogFloor, certifiedDeleteFloor, logSeqStartOf.
  destruct (Z.ltb_spec 0 (logDeleteFloorOf c `min` log_seq_start c)), (Z.ltb_spec seq (logDeleteFloorOf c `min` log_seq_start c)),
    (Z.ltb_spec seq (log_seq_start c)); try done; lia.
Qed.

Lemma last_slash_app s t : slash ∉ t -> last_slash (s ++ slash :: t) = Some (length s).
Proof.
  intros Ht. assert (Hn : last_slash t = None).
  { pose proof (last_slash_spec t) as H. destruct (last_slash t) as [i|]; [|done]. destruct H as (r & E & _).
    destruct Ht. rewrite E. apply elem_of_app. right. by left. }
  induction s as [|u s IH]; cbn [app last_slash length]; [|by rewrite IH]. by rewrite Hn, N.eqb_refl.
Qed.

Lemma log_prefix_manifest p : log_prefix_of (p ++ js "/current.json") = p.
Proof.
  unfold log_prefix_of. change (js "/current.json") with (slash :: js "current.json"). rewrite last_slash_app.
  - apply take_app_length.
  - js_decide.
Qed.

(** The names of a handle survive in its keys. *)
Record db_ok (db : Db) : Prop := {
  app_ok : assertPathSegment (db_app db) = None;
  tenant_ok : assertPathSegment (db_tenant db) = None
}.

Lemma Db_create_ok app tenant config db : Db_create app tenant config = inr db ->
  db_ok db /\ db_app db = app /\ db_tenant db = tenant.
Proof.
  unfold Db_create, assertKeySegment. destruct (assertPathSegment app) eqn:Ea; [done|].
  destruct (assertPathSegment tenant) eqn:Et; [done|]. intros [= <-]. repeat split; done.
Qed.

Lemma manifest_prefix_segments db name : db_ok db -> (slash ∉ name) ->
  split_on slash (manifest_prefix db name) = [js "app"; db_app db; js "tenant"; db_tenant db; js "manifests"; name].
Proof.
  intros [Ha Ht] Hn. apply assertPathSegment_safe in Ha as (_ & Ha & _), Ht as (_ & Ht & _).
  unfold manifest_prefix, physicalPrefixFor.
  change (js "app/") with (js "app" ++ [slash]). change (js "/tenant/") with (slash :: js "tenant" ++ [slash]).
  change (js "/") with [slash]. change (js "manifests/") with (js "manifests" ++ [slash]).
  rewrite <- !app_assoc. cbn [app]. rewrite <- !app_assoc. cbn [app].
  rewrite (split_on_app_sep slash (js "app")) by js_decide. rewrite split_on_app_sep by done.
  rewrite (split_on_app_sep slash (js "tenant")) by js_decide. rewrite split_on_app_sep by done.
  rewrite (split_on_app_sep slash (js "manifests")) by js_decide. by rewrite split_on_no_sep.
Qed.

Lemma split_on_app_slash p t : split_on slash (p ++ slash :: t) = split_on slash p ++ split_on slash t.
Proof.
  induction p as [|x p IH]; cbn [app split_on]; [by rewrite N.eqb_refl|]. rewrite IH.
  destruct (x =? slash)%N; [done|]. pose proof (split_on_not_nil slash p). by destruct (split_on slash p).
Qed.

Lemma physical_prefix_segments db rest : db_ok db ->
  split_on slash (physicalPrefixFor (db_app db) (db_tenant db) ++ rest) =
  [js "app"; db_app db; js "tenant"; db_tenant db] ++ split_on slash rest.
Proof.
  intros Hdb. pose proof (manifest_prefix_segments db [] Hdb (not_elem_of_nil _)) as H.
  assert (E : physicalPrefixFor (db_app db) (db_tenant db) =
    (js "app/" ++ db_app db ++ js "/tenant/" ++ db_tenant db) ++ [slash]).
  { unfold physicalPrefixFor. rewrite <- !app_assoc. reflexivity. }
  unfold manifest_prefix in H. rewrite E, <- app_assoc in *. cbn [app] in *.
  rewrite split_on_app_slash in *. apply (app_inj_2 _ [_; _; _; _] _ [_; _] eq_refl) in H as [-> _]. done.
Qed.

Lemma path_segment_plain v : assertPathSegment v = None -> split_on slash v = [v] /\ is_dot_segment v = false.
Proof. intros (_ & Hs & Hd & _)%assertPathSegment_safe. by rewrite split_on_no_sep. Qed.

Lemma manifest_prefix_valid db name : db_ok db -> assertPathSegment name = None -> valid_prefix (manifest_prefix db name).
Proof.
  intros Hdb Hn. pose proof (assertPathSegment_safe _ Hn) as (_ & Hs & Hd & _). apply valid_prefix_intro.
  - unfold manifest_prefix, physicalPrefixFor. by vm_compute.
  - rewrite manifest_prefix_segments by done. destruct Hdb as [Ha Ht].
    apply path_segment_plain in Ha as [_ Ha], Ht as [_ Ht]. cbn [existsb]. rewrite Ha, Ht, Hd. by vm_compute.
Qed.

Lemma manifest_key_valid db name : db_ok db -> assertPathSegment name = None -> assertValidStorageKey (manifest_key db name) = None.
Proof.
  intros Hdb Hn. pose proof (assertPathSegment_safe _ Hn) as (_ & Hs & Hd & _). unfold assertValidStorageKey.
  rewrite bool_decide_eq_false_2 by (unfold manifest_key, manifest_prefix, physicalPrefixFor; by vm_compute).
  unfold manifest_key. change (js "/current.json") with (slash :: js "current.json").
  rewrite split_on_app_slash, manifest_prefix_segments by done. destruct Hdb as [Ha Ht].
  apply path_segment_plain in Ha as [_ Ha], Ht as [_ Ht]. cbn [existsb app]. rewrite Ha, Ht, Hd. by vm_compute.
Qed.

Lemma collection_context db name ctx schema : collectionReadContext db name = inr (ctx, schema) ->
  assertPathSegment name = None /\ collectionPrefix ctx = manifest_prefix db name.
Proof.
  unfold collectionReadContext, assertKeySegment. destruct (assertPathSegment name); [done|]. by intros [= <- <-].
Qed.

(** ** Theorems *)

(** Names that pass validation keep tenants and collections apart: every key a
    collection's operations build is a valid storage key, a listing of a tenant's prefix
    meets the keys of another handle's collection only when application and tenant are the
    same, and two collections share a key under their prefixes only when application,
    tenant and name are all the same. *)
Theorem tenants_are_isolated app tenant config db app' tenant' config' db' name name' ctx ctx' s s' :
  Db_create app tenant config = inr db -> Db_create app' tenant' config' = inr db' ->
  collectionReadContext db name = inr (ctx, s) -> collectionReadContext db' name' = inr (ctx', s') ->
  valid_prefix (collectionPrefix ctx) /\ assertValidStorageKey (manifest_key db name) = None /\
  (forall k, starts_with (physicalPrefixFor app tenant) (collectionPrefix ctx' ++ js "/" ++ k) = true <->
     app' = app /\ tenant' = tenant) /\
  (forall k k', collectionPrefix ctx ++ js "/" ++ k = collectionPrefix ctx' ++ js "/" ++ k' ->
     app = app' /\ tenant = tenant' /\ name = name').
Proof.
  intros (Hdb & <- & <-)%Db_create_ok (Hdb' & <- & <-)%Db_create_ok [Hn ->]%collection_context [Hn' ->]%collection_context.
  assert (Hsegs : forall db name k, db_ok db -> assertPathSegment name = None ->
    split_on slash (manifest_prefix db name ++ js "/" ++ k) =
    [js "app"; db_app db; js "tenant"; db_tenant db; js "manifests"; name] ++ split_on slash k).
  { intros d n k Hd (_ & Hs & _)%assertPathSegment_safe. rewrite <- (manifest_prefix_segments d n) by done.
    apply split_on_app_slash. }
  split; [by apply manifest_prefix_valid|]. split; [by apply manifest_key_valid|]. split.
  - intros k. rewrite starts_with_spec. split.
    + intros [t E]. apply (f_equal (split_on slash)) in E. rewrite Hsegs, physical_prefix_segments in E by done.
      cbn [app] in E. pose proof (f_equal (fun l => l !! 1%nat) E) as E1. pose proof (f_equal (fun l => l !! 3%nat) E) as E3.
      cbn in E1, E3. by simplify_eq.
    + intros [Ea Et]. exists (js "manifests/" ++ name' ++ js "/" ++ k). unfold manifest_prefix. rewrite Ea, Et.
      by rewrite <- !app_assoc.
  - intros k k' E. apply (f_equal (split_on slash)) in E. rewrite !Hsegs in E by done. cbn [app] in E.
    pose proof (f_equal (fun l => l !! 1%nat) E) as E1. pose proof (f_equal (fun l => l !! 3%nat) E) as E3.
    pose proof (f_equal (fun l => l !! 5%nat) E) as E5. cbn in E1, E3, E5. by simplify_eq.
Qed.

Definition sample_db : Db := MakeDb (js "shop") (js "acme") [] [].

Lemma tenants_are_isolated_witness :
  starts_with (physicalPrefixFor (js "shop") (js "acme"))
    (manifest_prefix (MakeDb (js "shop") (js "acme2") [] []) (js "orders") ++ js "/" ++ js "current.json") <> true.
Proof.
  destruct (tenants_are_isolated (js "shop") (js "acme") None sample_db (js "shop") (js "acme2") None
    (MakeDb (js "shop") (js "acme2") [] []) (js "orders") (js "orders")
    (ReadContext (manifest_prefix sample_db (js "orders")) (js "orders") [])
    (ReadContext (manifest_prefix (MakeDb (js "shop") (js "acme2") [] []) (js "orders")) (js "orders") []) None None)
    as (_ & _ & H & _); [reflexivity..|].
  intros E. apply (H (js "current.json")) in E as [_ E]. discriminate E.
Defined.
