(* ===== verification/Since.v ===== *)
(** * The change feed (server/src/http/since.ts)

    [pollOnce] reads the log entries after a cursor, [longPollSince] polls until there are
    some, the deadline passes or the client goes away.  The theorems: on a quiet storage
    paging with the returned cursors delivers every entry of the log once and in order;
    among other clients a poll skips nothing unless retirement has passed the cursor; the
    long poll ends. *)
From S2P Require Import Prelude JsText JsValue Errors Json Storage Effects Lsn CurrentJson ManifestSafety LogWalk LogTail DocId.
From S2P Require Import Predicate Satisfiable Validate IndexCodec Adoption Writer Indexes QueryPlanner IndexWalk Query Db.
Local Open Scope Z_scope.

(** [Math.ceil(COUNT_BIT_WIDTH / 5)] *)
Definition SEQ_CHARS : nat := base32_width COUNT_BIT_WIDTH.

(** [[0-9a-v]] *)
Definition is_base32 (u : N) : bool := ((48 <=? u) && (u <=? 57) || (97 <=? u) && (u <=? 118))%N.

(** [/^[0-9a-v]+_[0-9a-v]+_[0-9a-v]{11}$/]: the separator is not in the class. *)
Definition LSN_RE (lsn : jsstr) : bool :=
  match split_on underscore lsn with
  | [time; session; seq] =>
    negb (bool_decide (time = [])) && forallb is_base32 time &&
    (negb (bool_decide (session = [])) && forallb is_base32 session) &&
    ((length seq =? SEQ_CHARS)%nat && forallb is_base32 seq)
  | _ => false
  end.

(** [/^(?:[0-9a-f]+|-)$/] *)
Definition GENERATION_RE (generation : jsstr) : bool :=
  negb (bool_decide (generation = [])) && forallb is_lower_hex generation || bool_decide (generation = js "-").

Definition decodeCursor (cursor : jsstr) : result (jsstr * jsstr) :=
  rbind (parseCursor cursor) (fun parts =>
  if negb (GENERATION_RE parts.1) || negb (LSN_RE parts.2) then inl (new_error SchemaError) else inr parts).

Definition DEFAULT_MAX_EVENTS : Z := 1024.
Definition DEFAULT_TIMEOUT_MS : Z := 25000.
Definition DEFAULT_POLL_INTERVAL_MS : Z := 1000.

Record Polled := MakePolled { events : list LogEntry; polled_generation : option jsstr }.

(** The first sequence number to read.  [None] is [NaN], for which every comparison is
    false and the loop reads nothing; the cursor check excludes it. *)
Definition start_seq (current : CurrentJson) (decoded : option (jsstr * jsstr)) : result (option Z) :=
  let logSeqStart := logSeqStartOf current in
  match decoded with
  | None => inr (Some logSeqStart)
  | Some (g, lsn) =>
    let currentGeneration := default NO_GENERATION (generation current) in
    if negb (bool_decide (g = currentGeneration)) then inl (new_error SchemaError)
    else rbind (lsnParts lsn) (fun parts =>
      match lsn_seq parts with
      | None => inr None
      | Some cursorSeq => if cursorSeq <? logSeqStart then inl (new_error SchemaError)
                          else inr (Some (cursorSeq + 1))
      end)
  end.

Section feed.
Context (db : Db) (collection : jsstr).

(** The [for] loop; a missing entry is skipped. *)
Fixpoint read_entries (current : CurrentJson) (seqs : list Z) (entries : list LogEntry) : prog (list LogEntry) :=
  match seqs with
  | [] => Ret entries
  | s :: seqs =>
    bind (getLogEntry db collection s current) (fun entry =>
    match entry with
    | None => read_entries current seqs entries
    | Some entry => read_entries current seqs (entries ++ [entry])
    end)
  end.

Definition pollOnce (cursor : jsstr) : prog Polled :=
  bind (of_result (if bool_decide (cursor = []) then inr None
                   else rbind (decodeCursor cursor) (fun parts => inr (Some parts)))) (fun decoded =>
  bind (getCurrentJson db collection) (fun read =>
  match read with
  | None => Ret (MakePolled [] None)
  | Some read =>
    bind (probeLogTail db collection (Z.max (logSeqStartOf (json read)) (tail_hint (json read))) (json read)) (fun tail =>
    bind (of_result (start_seq (json read) decoded)) (fun startSeq =>
    match startSeq with
    | None => Ret (MakePolled [] (generation (json read)))
    | Some startSeq =>
      let endSeq := Z.min tail (startSeq + DEFAULT_MAX_EVENTS) in
      bind (read_entries (json read) (seqZ startSeq (endSeq - startSeq)) []) (fun entries =>
      Ret (MakePolled entries (generation (json read))))
    end))
  end)).

Definition listEventsSince (cursor : jsstr) : prog (list LogEntry) :=
  bind (pollOnce cursor) (fun polled => Ret (events polled)).

(** [String(v)] of a value that is not a string. *)
Context (to_string : jsval -> jsstr).

(** [formatCursor] with an [lsn] property that is whatever the stored entry holds. *)
Definition format_entry_cursor (generation : option jsstr) (lsn : jsval) : jsval :=
  match generation with
  | None => lsn
  | Some g => JStr (formatCursor (Some g) (interpolate to_string lsn))
  end.

(** Only called on polls with events. *)
Definition nextCursor (polled : Polled) : prog jsval :=
  bind (read_prop (js "lsn") (default JUndef (last (events polled)))) (fun lsn =>
  Ret (format_entry_cursor (polled_generation polled) lsn)).

Record SinceResponse := Response { response_events : list LogEntry; next_cursor : jsval }.

(** ** The long poll *)

(** [elapse n now delay] is the clock after the poll of tick [n], whose timer was armed at
    [now] for [delay] milliseconds; [aborted n] says that the client has gone before that
    poll answered ([0] for the first poll). *)
Context (cursor : jsstr) (pollIntervalMs : Z) (elapse : nat -> Z -> Z -> Z) (aborted : nat -> bool).

Definition unchanged : SinceResponse := Response [] (JStr cursor).

Definition answer (polled : Polled) : prog (option SinceResponse) :=
  bind (nextCursor polled) (fun next => Ret (Some (Response (events polled) next))).

(** The timer loop; [None] is an exhausted [fuel]. *)
Fixpoint tick (fuel n : nat) (deadline now delay : Z) : prog (option SinceResponse) :=
  match fuel with
  | O => Ret None
  | S fuel =>
    if aborted n then Ret (Some unchanged)
    else bind (pollOnce cursor) (fun polled =>
      match events polled with
      | _ :: _ => answer polled
      | [] =>
        let now := elapse n now delay in
        let remaining := deadline - now in
        if remaining <=? 0 then Ret (Some unchanged)
        else tick fuel (S n) deadline now (Z.min pollIntervalMs remaining)
      end)
  end.

Definition longPollSince (fuel : nat) (start timeoutMs : Z) : prog (option SinceResponse) :=
  bind (of_result (if bool_decide (cursor = []) then inr tt
                   else rbind (decodeCursor cursor) (fun _ => inr tt))) (fun _ =>
  bind (pollOnce cursor) (fun initial =>
  match events initial with
  | _ :: _ => answer initial
  | [] => if aborted 0 then Ret (Some unchanged)
          else tick fuel 1 (start + timeoutMs) start (Z.min pollIntervalMs timeoutMs)
  end)).
End feed.

(** ** Cursors *)

Lemma is_base32_no_underscore s : forallb is_base32 s = true -> underscore ∉ s.
Proof.
  intros H Hin. rewrite forallb_forall in H. apply list_elem_of_In, H in Hin. by vm_compute in Hin.
Qed.

Lemma is_base32_no_dot s : forallb is_base32 s = true -> dot ∉ s.
Proof. intros H Hin. rewrite forallb_forall in H. apply list_elem_of_In, H in Hin. by vm_compute in Hin. Qed.

Lemma generation_no_dot s : forallb is_lower_hex s = true -> dot ∉ s.
Proof. intros H Hin. rewrite forallb_forall in H. apply list_elem_of_In, H in Hin. by vm_compute in Hin. Qed.

Lemma countKey_base32 seq : 0 <= seq < 2 ^ COUNT_BIT_WIDTH -> forallb is_base32 (countKey seq) = true.
Proof.
  intros Hq. apply forallb_forall. intros u Hu%list_elem_of_In%uint2strDesc_units; [|done]. unfold is_base32.
  destruct Hu as [[H1 H2]|[H1 H2]].
  - by rewrite (proj2 (N.leb_le _ _) H1), (proj2 (N.leb_le _ _) H2).
  - by rewrite (proj2 (N.leb_le _ _) H1), (proj2 (N.leb_le _ _) H2), orb_true_r.
Qed.

(** A stored entry whose LSN was minted for its slot. *)
Definition minted_at (seq : Z) (e : LogEntry) : Prop :=
  exists o ts session, e = JObj o /\ js_get o (js "lsn") = JStr (mint_lsn ts session seq) /\
    (ts <> [] /\ forallb is_base32 ts = true) /\ (session <> [] /\ forallb is_base32 session = true).

(** Where a reader under manifest [c] goes on: without a cursor, at the log start; with a
    cursor of the manifest's generation that names a live entry, one past that entry. *)
Definition resumes (c : CurrentJson) (cursor : jsstr) (s : Z) : Prop :=
  cursor = [] /\ s = log_seq_start c \/
  cursor <> [] /\ exists lsn parts q, decodeCursor cursor = inr (default NO_GENERATION (generation c), lsn) /\
    lsnParts lsn = inr parts /\ lsn_seq parts = Some q /\ log_seq_start c <= q /\ s = q + 1.

(** The decoding of a cursor by a poll. *)
Abbreviation decoded_cursor cursor := (if bool_decide (cursor = []) then inr None
  else rbind (decodeCursor cursor) (fun parts => inr (Some parts))).

(** That is where the code starts to read. *)
Lemma resumes_start_seq c cursor s : resumes c cursor s <->
  exists decoded, decoded_cursor cursor = inr decoded /\ start_seq c decoded = inr (Some s).
Proof.
  unfold resumes. case_bool_decide as Hc.
  - split; [intros [[_ ->]|[? _]]; [|done]; by exists None|]. intros (decoded & [= <-] & [= <-]). by left.
  - split.
    + intros [[? _]|(_ & lsn & parts & q & -> & Hl & Hq & Hle & ->)]; [done|]. eexists. split; [done|]. cbn [start_seq].
      rewrite bool_decide_eq_true_2 by done. cbn [negb]. rewrite Hl. cbn [rbind]. rewrite Hq. unfold logSeqStartOf.
      by rewrite (proj2 (Z.ltb_ge _ _) Hle).
    + intros (decoded & Hd & Hst). right. split; [done|]. destruct (decodeCursor cursor) as [|[g lsn]]; [done|]. injection Hd as <-.
      cbn [start_seq] in Hst. case_bool_decide as Hg; [|done]. cbn [negb] in Hst. destruct (lsnParts lsn) as [|parts] eqn:El; [done|].
      cbn [rbind] in Hst. destruct (lsn_seq parts) as [q|] eqn:Eq; [|done]. unfold logSeqStartOf in Hst.
      destruct (Z.ltb_spec q (log_seq_start c)); [done|]. injection Hst as <-. exists lsn, parts, q. by rewrite <- Hg.
Qed.

Lemma minted_lsn_re ts session seq : 0 <= seq < 2 ^ COUNT_BIT_WIDTH ->
  ts <> [] -> forallb is_base32 ts = true -> session <> [] -> forallb is_base32 session = true ->
  LSN_RE (mint_lsn ts session seq) = true.
Proof.
  intros Hq Ht Ht' Hs Hs'. unfold LSN_RE, mint_lsn. cbn [app].
  rewrite !split_on_app_sep by (by apply is_base32_no_underscore).
  pose proof (countKey_base32 _ Hq) as Hk. rewrite split_on_no_sep by (by apply is_base32_no_underscore).
  rewrite !bool_decide_eq_false_2, Ht', Hs', Hk by done. unfold countKey.
  rewrite uint2strDesc_length by (done || unfold width_ok, COUNT_BIT_WIDTH; lia). by vm_compute.
Qed.

Lemma minted_lsn_no_dot ts session seq : 0 <= seq < 2 ^ COUNT_BIT_WIDTH ->
  forallb is_base32 ts = true -> forallb is_base32 session = true -> dot ∉ mint_lsn ts session seq.
Proof.
  intros Hq Ht Hs. unfold mint_lsn. pose proof (countKey_base32 _ Hq).
  rewrite !not_elem_of_app. repeat split; try (by apply is_base32_no_dot); js_decide.
Qed.

(** The cursor of an entry resumes one past it. *)
Lemma entry_cursor_resumes to_string c s o ts session : generation_ok (generation c) ->
  log_seq_start c <= s -> 0 <= s < 2 ^ COUNT_BIT_WIDTH -> js_get o (js "lsn") = JStr (mint_lsn ts session s) ->
  ts <> [] -> forallb is_base32 ts = true -> session <> [] -> forallb is_base32 session = true ->
  exists cur, format_entry_cursor to_string (generation c) (js_get o (js "lsn")) = JStr cur /\ resumes c cur (s + 1).
Proof.
  intros Hg Hs Hq -> Ht Ht' Hse Hse'. exists (formatCursor (generation c) (mint_lsn ts session s)). split.
  { unfold format_entry_cursor, formatCursor. by destruct (generation c). }
  right. split.
  { unfold formatCursor, mint_lsn. by destruct (generation c) as [[|]|], ts. }
  exists (mint_lsn ts session s), (LsnParts session (Some s)), s. split.
  - unfold decodeCursor. rewrite parse_format_cursor; cbn [rbind fst snd].
    + rewrite minted_lsn_re by done. cbn [negb orb]. rewrite orb_false_r.
      replace (GENERATION_RE _) with true; [done|]. symmetry. unfold GENERATION_RE. destruct (generation c) as [g|]; [|by vm_compute].
      cbn. destruct Hg as [Hne ->]. by rewrite bool_decide_eq_false_2.
    + by apply minted_lsn_no_dot.
    + intros x Hx. rewrite Hx in Hg. apply generation_no_dot, Hg.
  - split; [apply lsnParts_mint; first [done|by apply is_base32_no_underscore]|]. split; [done|]. split; [lia|done].
Qed.

(** The cursor a client was handed with the entry of slot [q]. *)
Definition names_entry (cursor : jsstr) (q : Z) : Prop := exists g ts session,
  cursor = formatCursor g (mint_lsn ts session q) /\ generation_ok g /\ 0 <= q < 2 ^ COUNT_BIT_WIDTH /\
  ts <> [] /\ forallb is_base32 ts = true /\ session <> [] /\ forallb is_base32 session = true.

Lemma names_entry_resumes c cursor q s : names_entry cursor q -> resumes c cursor s -> s = q + 1.
Proof.
  intros (g & ts & session & -> & Hg & Hq & Ht & Ht' & Hs & Hs') Hr.
  assert (decodeCursor (formatCursor g (mint_lsn ts session q)) = inr (default NO_GENERATION g, mint_lsn ts session q) /\
    formatCursor g (mint_lsn ts session q) <> []) as [Hd Hne].
  { split; [|unfold formatCursor, mint_lsn; by destruct g as [[|]|], ts].
    unfold decodeCursor. rewrite parse_format_cursor; cbn [rbind fst snd].
    - rewrite minted_lsn_re by done. cbn [negb orb]. rewrite orb_false_r.
      replace (GENERATION_RE _) with true; [done|]. symmetry. unfold GENERATION_RE. destruct g as [g|]; [|by vm_compute].
      cbn. destruct Hg as [Hn ->]. by rewrite bool_decide_eq_false_2.
    - by apply minted_lsn_no_dot.
    - intros x Hx. rewrite Hx in Hg. apply generation_no_dot, Hg. }
  destruct Hr as [[? _]|(_ & lsn & parts & q' & Hd' & Hl & Hq' & _ & ->)]; [done|]. rewrite Hd in Hd'. injection Hd' as _ <-.
  rewrite lsnParts_mint in Hl by first [done | by apply is_base32_no_underscore]. injection Hl as <-. by injection Hq' as ->.
Qed.

(** ** Polls of a quiet storage *)

Section quiet.
Context (db : Db) (collection : jsstr) (to_string : jsval -> jsstr) (now : Z) (m : MemoryStorage).
Abbreviation p := (manifest_prefix db collection).

(** A dense log of entries [es] that [c] starts and that ends at [tail]. *)
Record feed (c : CurrentJson) (tail : Z) (es : list LogEntry) : Prop := {
  feed_db : db_ok db;
  feed_name : assertPathSegment collection = None;
  feed_head : exists etag, read_manifest (manifest_key db collection) m = inr (Some (CurrentRead c etag));
  feed_dense : collect (slot_entry m p <$> seqZ (log_seq_start c) (tail - log_seq_start c)) = inr es;
  feed_ends : log_ends m p (Z.max (log_seq_start c) (tail_hint c)) tail;
  feed_cap : tail < Z.max (log_seq_start c) (tail_hint c) + LOG_FORWARD_PROBE_CAP;
  feed_range : 0 <= log_seq_start c /\ tail <= 2 ^ COUNT_BIT_WIDTH;
  feed_generation : generation_ok (generation c);
  feed_minted : forall i e, es !! i = Some e -> minted_at (log_seq_start c + Z.of_nat i) e
}.

Lemma feed_prefix c tail es : feed c tail es -> valid_prefix p.
Proof. intros [Hd Hn _ _ _ _ _ _ _]. by apply manifest_prefix_valid. Qed.

Lemma feed_length c tail es : feed c tail es -> log_seq_start c <= tail /\ Z.of_nat (length es) = tail - log_seq_start c.
Proof.
  intros [_ _ _ Hc [Hle _] _ _ _ _]. apply collect_Forall2, Forall2_length in Hc. rewrite length_seqZ in Hc. lia.
Qed.

(** Entry [i] is what slot [log_seq_start + i] holds. *)
Lemma feed_slot c tail es i e : feed c tail es -> es !! i = Some e -> slot_entry m p (log_seq_start c + Z.of_nat i) = inr e.
Proof.
  intros Hf Hi. pose proof (feed_dense _ _ _ Hf) as Hc. apply collect_Forall2 in Hc.
  destruct (Forall2_lookup_r _ _ _ _ _ Hc Hi) as (s & Hs & Hslot). apply lookup_seqZ in Hs as [-> _]. done.
Qed.

Lemma run_getLogEntry c tail es i e : feed c tail es -> es !! i = Some e ->
  run now (getLogEntry db collection (log_seq_start c + Z.of_nat i) c) m = (inr (Some e), m).
Proof.
  intros Hf Hi. unfold getLogEntry. rewrite run_bind, run_check, (feed_name _ _ _ Hf), run_bind, run_check, floor_check.
  rewrite (proj2 (Z.ltb_ge _ _)) by lia. rewrite run_bind, run_get by (by eapply feed_prefix).
  pose proof (feed_slot _ _ _ _ _ Hf Hi) as Hs. unfold slot_entry, log_slot in Hs.
  destruct (objects m !! logObjectKey p (log_seq_start c + Z.of_nat i)) as [o|]; [|done]. cbn [fmap option_fmap option_map body] in *.
  destruct (decodeJsonBytes (stored_body o)); [|done]. injection Hs as ->.
  by destruct (feed_minted _ _ _ Hf _ _ Hi) as (? & ? & ? & -> & _).
Qed.

Lemma run_read_entries c tail es : feed c tail es -> forall n i acc, (i + n <= length es)%nat ->
  run now (read_entries db collection c (seqZ (log_seq_start c + Z.of_nat i) (Z.of_nat n)) acc) m =
  (inr (acc ++ take n (drop i es)), m).
Proof.
  intros Hf n. induction n as [|n IH]; intros i acc Hn; cbn [seqZ].
  { cbn. by rewrite app_nil_r. }
  rewrite seqZ_cons by lia. cbn [read_entries].
  destruct (es !! i) as [e|] eqn:Hi; [|apply lookup_ge_None in Hi; lia].
  rewrite run_bind, (run_getLogEntry _ _ _ _ _ Hf Hi).
  replace (Z.succ (log_seq_start c + Z.of_nat i)) with (log_seq_start c + Z.of_nat (S i)) by lia.
  replace (Z.pred (Z.of_nat (S n))) with (Z.of_nat n) by lia. rewrite IH by lia.
  by rewrite (drop_S _ _ _ Hi), <- app_assoc.
Qed.

Lemma run_probeLogTail c tail es : feed c tail es ->
  run now (probeLogTail db collection (Z.max (log_seq_start c) (tail_hint c)) c) m = (inr tail, m).
Proof.
  intros Hf. unfold probeLogTail. rewrite run_bind, run_check, (feed_name _ _ _ Hf), run_bind, run_check, floor_check.
  rewrite (proj2 (Z.ltb_ge _ _)) by lia. rewrite run_bind. unfold probeTailFrom.
  pose proof (feed_cap _ _ _ Hf). pose proof (feed_ends _ _ _ Hf) as He. pose proof (proj1 He).
  rewrite (run_probeTailFrom now p m _ tail); [by rewrite (proj2 (Z.ltb_lt _ _))|by eapply feed_prefix|done|done|].
  pose proof (feed_dense _ _ _ Hf) as Hd.
  replace (tail - log_seq_start c) with
    ((Z.max (log_seq_start c) (tail_hint c) - log_seq_start c) + (tail - Z.max (log_seq_start c) (tail_hint c))) in Hd by lia.
  rewrite seqZ_app, fmap_app, collect_app in Hd by lia.
  replace (log_seq_start c + _) with (Z.max (log_seq_start c) (tail_hint c)) in Hd by lia.
  destruct (collect (slot_entry m p <$> seqZ (log_seq_start c) _)); [done|].
  destruct (collect (slot_entry m p <$> seqZ (Z.max _ _) _)) eqn:E; [done|]. by apply decoded_collect in E as [? _].
Qed.

(** One poll: at most [DEFAULT_MAX_EVENTS] entries from where the cursor resumes. *)
Lemma run_pollOnce c tail es cursor s : feed c tail es -> resumes c cursor s -> log_seq_start c <= s <= tail ->
  run now (pollOnce db collection cursor) m =
  (inr (MakePolled (take (Z.to_nat DEFAULT_MAX_EVENTS) (drop (Z.to_nat (s - log_seq_start c)) es)) (generation c)), m).
Proof.
  intros Hf Hres Hs. pose proof (feed_head _ _ _ Hf) as [etag Hh]. destruct (feed_length _ _ _ Hf) as [_ Hlen].
  unfold pollOnce. rewrite run_bind, run_of_result.
  assert (Hdec : exists decoded, (if bool_decide (cursor = []) then inr None
      else rbind (decodeCursor cursor) (fun parts => inr (Some parts))) = inr decoded /\ start_seq c decoded = inr (Some s)).
  { by apply resumes_start_seq. }
  destruct Hdec as (decoded & -> & Hst). unfold getCurrentJson.
  rewrite !run_bind, run_check, (feed_name _ _ _ Hf), run_readCurrentJson, Hh
    by (apply manifest_key_valid; apply Hf). cbn [json]. unfold logSeqStartOf.
  rewrite run_bind, (run_probeLogTail _ _ _ Hf), run_bind, run_of_result, Hst. cbn zeta. rewrite run_bind.
  set (n := (Z.to_nat (Z.min tail (s + DEFAULT_MAX_EVENTS) - s))).
  replace (Z.min tail (s + DEFAULT_MAX_EVENTS) - s) with (Z.of_nat n) by (unfold n, DEFAULT_MAX_EVENTS; lia).
  replace s with (log_seq_start c + Z.of_nat (Z.to_nat (s - log_seq_start c))) at 1 by lia.
  rewrite (run_read_entries _ _ _ Hf) by (unfold n; lia). cbn [run app]. do 3 f_equal.
  destruct (Z.leb_spec tail (s + DEFAULT_MAX_EVENTS)).
  - rewrite !take_ge; [done|..]; rewrite length_drop; unfold n, DEFAULT_MAX_EVENTS in *; lia.
  - unfold n. f_equal. lia.
Qed.

(** The cursor of a poll with events resumes after them. *)
Lemma run_nextCursor c tail es i n : feed c tail es -> take n (drop i es) <> [] ->
  exists cur, run now (nextCursor to_string (MakePolled (take n (drop i es)) (generation c))) m = (inr (JStr cur), m) /\
    resumes c cur (log_seq_start c + Z.of_nat (Nat.min (length es) (i + n))).
Proof.
  intros Hf Hne. destruct (feed_range _ _ _ Hf) as [H0 Htail]. destruct (feed_length _ _ _ Hf) as [_ Hlen].
  assert (Hpos : (i < Nat.min (length es) (i + n))%nat).
  { destruct (Nat.lt_ge_cases i (Nat.min (length es) (i + n))); [done|]. destruct Hne.
    destruct (Nat.le_gt_cases (length es) i); [rewrite drop_ge by done; apply take_nil|]. replace n with O by lia. done. }
  assert (Hlast : last (take n (drop i es)) = es !! pred (Nat.min (length es) (i + n))).
  { rewrite last_lookup, length_take, length_drop, lookup_take_lt, lookup_drop by lia. f_equal. lia. }
  destruct (lookup_lt_is_Some_2 es (pred (Nat.min (length es) (i + n)))) as [e He]; [lia|].
  destruct (feed_minted _ _ _ Hf _ _ He) as (o & ts & se & -> & Hl & (Ht & Ht') & Hse & Hse').
  destruct (entry_cursor_resumes to_string c (log_seq_start c + Z.of_nat (pred (Nat.min (length es) (i + n)))) o ts se)
    as (cur & Hcur & Hres); [by eapply feed_generation|lia..|done|done|done|done|done|].
  exists cur. split.
  - unfold nextCursor. rewrite run_bind. cbn [events polled_generation]. rewrite Hlast, He.
    cbn [default from_option id prop read_prop run]. unfold read_prop. cbn [prop run]. by rewrite Hcur.
  - by replace (log_seq_start c + Z.of_nat (Nat.min (length es) (i + n))) with
      (log_seq_start c + Z.of_nat (pred (Nat.min (length es) (i + n))) + 1) by lia.
Qed.

(** A client that acknowledges: at most [k] polls, each from the last answer's cursor. *)
Fixpoint pages (k : nat) (cursor : jsstr) : prog (list LogEntry) :=
  match k with
  | O => Ret []
  | S k =>
    bind (pollOnce db collection cursor) (fun polled =>
    match events polled with
    | [] => Ret []
    | _ :: _ =>
      bind (nextCursor to_string polled) (fun next =>
      match next with
      | JStr cursor => bind (pages k cursor) (fun rest => Ret (events polled ++ rest))
      | _ => Throw OtherError
      end)
    end)
  end.

Lemma run_pages c tail es : feed c tail es -> forall k cursor i,
  resumes c cursor (log_seq_start c + Z.of_nat i) -> (i <= length es)%nat ->
  run now (pages k cursor) m = (inr (take (k * 1024) (drop i es)), m).
Proof.
  intros Hf k. destruct (feed_length _ _ _ Hf) as [_ Hlen].
  induction k as [|k IH]; intros cursor i Hres Hi; [done|]. cbn [pages].
  rewrite run_bind, (run_pollOnce _ _ _ _ _ Hf Hres) by lia.
  replace (Z.to_nat (log_seq_start c + Z.of_nat i - log_seq_start c)) with i by lia.
  change (Z.to_nat DEFAULT_MAX_EVENTS) with 1024%nat. cbn [events].
  destruct (take 1024 (drop i es)) as [|e l] eqn:E.
  { assert (drop i es = []) as -> by (destruct (drop i es); [done|discriminate E]). by rewrite take_nil. }
  rewrite run_bind, <- E. destruct (run_nextCursor c tail es i 1024 Hf) as (cur & -> & Hcur); [by rewrite E|].
  rewrite run_bind, (IH cur _ Hcur) by lia. cbn [run]. rewrite E, <- E. do 2 f_equal.
  replace (S k * 1024)%nat with (1024 + k * 1024)%nat by lia. rewrite <- take_take_drop, drop_drop.
  destruct (Nat.le_gt_cases (length es) (i + 1024)).
  - rewrite (drop_ge es (i + 1024)), (drop_ge es (length es `min` (i + 1024))) by lia. by rewrite !take_nil.
  - by rewrite Nat.min_r by lia.
Qed.
End quiet.

(** ** Refused cursors *)

Lemma pollOnce_refuses db collection now m c tail es cursor g lsn parts : feed db collection m c tail es -> cursor <> [] ->
  decodeCursor cursor = inr (g, lsn) -> lsnParts lsn = inr parts ->
  g <> default NO_GENERATION (generation c) \/ (exists q, lsn_seq parts = Some q /\ q < log_seq_start c) ->
  run now (pollOnce db collection cursor) m = (inl (new_error SchemaError), m).
Proof.
  intros Hf Hne Hd Hl Hbad. pose proof (feed_head _ _ _ _ _ _ Hf) as [etag Hh]. unfold pollOnce.
  rewrite bool_decide_eq_false_2, Hd by done. cbn [rbind]. rewrite run_bind, run_of_result.
  unfold getCurrentJson. rewrite !run_bind, run_check, (feed_name _ _ _ _ _ _ Hf), run_readCurrentJson, Hh
    by (apply manifest_key_valid; apply Hf). cbn [json]. unfold logSeqStartOf.
  rewrite run_bind, (run_probeLogTail _ _ _ _ _ _ _ Hf), run_bind, run_of_result. cbn [start_seq].
  case_bool_decide as Hg; cbn [negb]; [|done]. rewrite Hl. cbn [rbind].
  destruct Hbad as [?|(q & -> & Hq)]; [done|]. unfold logSeqStartOf. by rewrite (proj2 (Z.ltb_lt _ _) Hq).
Qed.

(** ** Theorems *)

(** C33: On a quiet storage the feed is the log: a client that starts without a cursor and
    acknowledges each answer receives, after [k] polls, exactly the first [k * 1024] entries
    of the log in order, once each, so enough polls deliver the whole log.  A well-formed
    cursor of another generation, or of an entry folded below the log start, is refused
    with [SchemaError]. *)
Theorem feed_pages_the_log db collection to_string now m c tail es k : feed db collection m c tail es ->
  run now (pages db collection to_string k []) m = (inr (take (k * 1024) es), m) /\
  forall cursor g lsn parts, cursor <> [] -> decodeCursor cursor = inr (g, lsn) -> lsnParts lsn = inr parts ->
    g <> default NO_GENERATION (generation c) \/ (exists q, lsn_seq parts = Some q /\ q < log_seq_start c) ->
    run now (pollOnce db collection cursor) m = (inl (new_error SchemaError), m).
Proof.
  intros Hf. split.
  - rewrite (run_pages _ _ _ _ _ _ _ _ Hf k [] 0); [by rewrite drop_0| |lia]. left. split; [done|lia].
  - intros. by eapply pollOnce_refuses.
Qed.

Definition sample_feed_entry (seq : Z) (doc : string) : LogEntry :=
  JObj [(js "lsn", JStr (mint_lsn (js "0h") (js "s1") seq)); (js "op", JStr (js "D"));
        (js "collection", JStr (js "orders")); (js "doc_id", JStr (js doc))].

Definition sample_feed_head : CurrentJson := Current None 0 0 (Fence 0 [] [] None []) 0 0 None None None (Some (js "ab")) [].

Definition sample_feed_store : MemoryStorage :=
  (memory_store (logObjectKey (manifest_prefix sample_db (js "orders")) 1) (JsonText (sample_feed_entry 1 "d2"))
    (memory_store (logObjectKey (manifest_prefix sample_db (js "orders")) 0) (JsonText (sample_feed_entry 0 "d1"))
      (memory_store (manifest_key sample_db (js "orders")) (JsonText (current_json sample_feed_head)) empty_memory).2).2).2.

Lemma sample_feed : feed sample_db (js "orders") sample_feed_store sample_feed_head 2
  [sample_feed_entry 0 "d1"; sample_feed_entry 1 "d2"].
Proof.
  split.
  - split; reflexivity.
  - reflexivity.
  - eexists. vm_compute. reflexivity.
  - vm_compute. reflexivity.
  - split; [done|]. change (log_seq_start sample_feed_head `max` tail_hint sample_feed_head) with 0.
    change 2 with (0 + 1 + 1).
    assert (Hn : forall t, log_ends (memory_store (manifest_key sample_db (js "orders"))
        (JsonText (current_json sample_feed_head)) empty_memory).2 (manifest_prefix sample_db (js "orders")) t t).
    { intros t. split; [lia|]. split; [lia|]. intros s _. apply occupied_false. unfold log_slot.
      rewrite memory_store_lookup, decide_False; [done|]. intros E. symmetry in E. revert E. unfold manifest_key.
      rewrite <- (log_prefix_manifest (manifest_prefix sample_db (js "orders"))) at 1. apply slot_not_manifest. }
    pose proof (log_ends_append _ _ _ _ (JsonText (sample_feed_entry 1 "d2"))
      (log_ends_append _ _ _ _ (JsonText (sample_feed_entry 0 "d1")) (Hn 0))) as (_ & H1 & H2).
    split; [exact H1|exact H2].
  - done.
  - done.
  - split; [done|]. by vm_compute.
  - intros [|[|i]] e; cbn; try done; intros [= <-]; eexists _, _, _; (split; [reflexivity|]); (split; [reflexivity|]); split; split; done.
Qed.

Lemma feed_pages_the_log_witness :
  run 0 (pages sample_db (js "orders") (fun _ => []) 1 []) sample_feed_store =
  (inr [sample_feed_entry 0 "d1"; sample_feed_entry 1 "d2"], sample_feed_store).
Proof. exact (proj1 (feed_pages_the_log sample_db (js "orders") (fun _ => []) 0 _ _ 2 _ 1 sample_feed)). Defined.

(** ** Polls among other clients *)

(** The manifest's delete floor has passed [s]. *)
Definition floor_past (db : Db) (collection : jsstr) (m : MemoryStorage) (s : Z) : Prop :=
  exists c, manifest_at (manifest_key db collection) m c /\ s < logDeleteFloorOf c.

(** Below the hint the log is dense. *)
Definition hint_dense (db : Db) (collection : jsstr) (m : MemoryStorage) : Prop :=
  forall c s, manifest_at (manifest_key db collection) m c -> log_seq_start c <= s < tail_hint c ->
    is_Some (log_slot m (manifest_prefix db collection) s).

(** What a poll relies on the other clients for: manifest floors never go down, a slot
    keeps its body until the delete floor has passed it, and the manifest's hint never
    claims an empty slot. *)
Definition feed_rely (db : Db) (collection : jsstr) (m m' : MemoryStorage) : Prop :=
  man_rely (manifest_key db collection) m m' /\
  (forall s b, log_slot m (manifest_prefix db collection) s = Some b ->
     log_slot m' (manifest_prefix db collection) s = Some b \/ floor_past db collection m' s) /\
  (hint_dense db collection m -> hint_dense db collection m').

Section among.
Context (db : Db) (collection : jsstr).
Abbreviation key := (manifest_key db collection).
Abbreviation p := (manifest_prefix db collection).
Abbreviation past := (floor_past db collection).

Lemma floor_past_stable m m' s : man_rely key m m' -> past m s -> past m' s.
Proof.
  intros [_ Hm] (c & Hc & Hs). destruct (Hm c Hc) as (c' & Hc' & _ & Hle). exists c'. split; [done|]. lia.
Qed.

Lemma floor_past_le m s s' : s' <= s -> past m s -> past m s'.
Proof. intros Hle (c & Hc & Hs). exists c. split; [done|lia]. Qed.

Global Instance feed_rely_preorder : PreOrder (feed_rely db collection).
Proof.
  split.
  - intros m. split; [reflexivity|]. split; [by left|done].
  - intros m1 m2 m3 (M1 & S1 & D1) (M2 & S2 & D2). split; [by transitivity m2|]. split; [|auto].
    intros s b Hb. destruct (S1 s b Hb) as [Hb2|Hp]; [by apply S2|]. right. by eapply floor_past_stable.
Qed.

Context (R : MemoryStorage -> MemoryStorage -> Prop).
Context (HR : forall m m', R m m' -> feed_rely db collection m m').
Context (Hdb : db_ok db) (Hname : assertPathSegment collection = None).

(** A reading client has no put of its own in flight. *)
Definition reading (w : world) : Prop := pending w = [] /\ hint_dense db collection (store w).

Lemma reading_envs w w' : rtc (env_step R) w w' -> reading w ->
  reading w' /\ feed_rely db collection (store w) (store w').
Proof.
  induction 1 as [w|w w1 w2 Hs _ IH]; intros Hw; [by split|]. destruct Hw as [Hp Hd]. destruct Hs as [w m' Hm|w k b opts Hin _].
  - pose proof (HR _ _ Hm) as Hr. destruct IH as [Hr2 Hf2].
    { split; [done|]. by apply Hr. }
    split; [done|]. by transitivity m'.
  - rewrite Hp in Hin. by apply not_elem_of_nil in Hin.
Qed.

(** One read: the storage may have moved before it, and it may fail. *)
Lemma wp_read {A} k (f : option StorageGetResult -> prog A) (Q : result A -> world -> Prop) w :
  assertValidStorageKey k = None -> reading w ->
  (forall w' e, reading w' -> Q (inl e) w') ->
  (forall w' got, reading w' -> feed_rely db collection (store w) (store w') ->
     body <$> got = stored_body <$> objects (store w') !! k -> wp R (f got) Q w') ->
  wp R (bind (storage_get k) f) Q w.
Proof.
  intros Hk Hw Herr Hf. unfold bind, storage_get. cbn [attempt wp]. intros w1 Hs1 x Hx.
  destruct (reading_envs _ _ Hs1 Hw) as [Hw1 Hr1]. destruct Hx as [|e].
  - unfold memory_get. rewrite Hk. destruct (objects (store w1) !! k) as [o|] eqn:E.
    + cbn. rewrite ?bool_decide_eq_false_2 by done. cbn. apply Hf; [done|done|]. by rewrite E.
    + cbn. apply Hf; [done|done|]. by rewrite E.
  - cbn. intros w2 Hs2. apply Herr. by eapply reading_envs.
Qed.

Lemma wp_ret {A} (a : A) (Q : result A -> world -> Prop) w : reading w ->
  (forall w', reading w' -> feed_rely db collection (store w) (store w') -> Q (inr a) w') -> wp R (Ret a) Q w.
Proof. intros Hw HQ w' Hs. by apply HQ; eapply reading_envs. Qed.

Lemma wp_throw {A} e (Q : result A -> world -> Prop) w : reading w ->
  (forall w', reading w' -> Q (inl e) w') -> wp R (Throw e) Q w.
Proof. intros Hw HQ w' Hs. apply HQ. by eapply reading_envs. Qed.

(** A slot that was occupied once. *)
Definition present (m : MemoryStorage) (s : Z) : Prop := is_Some (log_slot m p s) \/ past m s.

Lemma present_stable m m' s : feed_rely db collection m m' -> present m s -> present m' s.
Proof.
  intros (Hm & Hs & _) [[b Hb]|Hp]; [|right; by eapply floor_past_stable].
  destruct (Hs s b Hb) as [Hb'|Hp]; [left; by exists b|by right].
Qed.

Lemma slot_valid s : assertValidStorageKey (logObjectKey p s) = None.
Proof. by apply manifest_prefix_valid. Qed.

(** Every slot the probe passes was occupied. *)
Lemma wp_probe_loop n from : forall s es c (Q : result TailProbeChunk -> world -> Prop) w,
  reading w -> from <= s -> (forall s', from <= s' < s -> present (store w) s') ->
  (forall w' e, reading w' -> Q (inl e) w') ->
  (forall w' r, reading w' -> feed_rely db collection (store w) (store w') ->
     (forall tail es c, r = Exact tail es c -> from <= tail /\ forall s', from <= s' < tail -> present (store w') s') ->
     Q (inr r) w') ->
  wp R (probe_loop n p s false es c) Q w.
Proof.
  induction n as [|n IH]; intros s es c Q w Hw Hs Hpre Herr HQ; cbn [probe_loop].
  { apply wp_ret; [done|]. intros w' Hw' Hr. by apply HQ. }
  apply wp_read; [apply slot_valid|done|done|]. intros w1 got Hw1 Hr1 Hgot.
  assert (Hpre1 : forall s', from <= s' < s -> present (store w1) s') by (intros; eapply present_stable; eauto).
  destruct got as [g|].
  - destruct (decodeJsonBytes (body g)) as [e|]; [|apply wp_throw; by auto].
    apply IH; [done|lia| |done|].
    + intros s' Hs'. destruct (decide (s' = s)) as [->|Hne]; [|apply Hpre1; lia].
      left. unfold log_slot. rewrite <- Hgot. by eexists.
    + intros w2 r Hw2 Hr2. apply HQ; [done|by etransitivity].
  - apply wp_ret; [done|]. intros w2 Hw2 Hr2. apply HQ; [done|by etransitivity|].
    intros tail es' c' [= <- _ _]. split; [done|]. intros s' Hs'. eapply present_stable; [done|]. by apply Hpre1.
Qed.

Lemma wp_probeLogTail hint c (Q : result Z -> world -> Prop) w : reading w ->
  (forall w' e, reading w' -> Q (inl e) w') ->
  (forall w' tail, reading w' -> feed_rely db collection (store w) (store w') -> hint <= tail ->
     (forall s, hint <= s < tail -> present (store w') s) -> Q (inr tail) w') ->
  wp R (probeLogTail db collection hint c) Q w.
Proof.
  intros Hw Herr HQ. unfold probeLogTail. rewrite Hname. unfold check at 1. cbn [bind attempt].
  destruct (assertAtOrAboveLogFloor hint c) as [e|]; cbn [check bind attempt]; [apply wp_throw; by auto|].
  apply wp_bind. unfold probeTailFrom, probeTailFrom_cap, probeTailChunk. apply wp_bind.
  apply (wp_probe_loop _ hint); [done|lia|lia| |].
  - intros w1 e Hw1. apply wp_throw; [done|]. intros w2 Hw2. apply wp_throw; by auto.
  - intros w1 r Hw1 Hr1 Hr. destruct r as [tail es c'|lb es c'].
    + destruct (Hr tail es c' eq_refl) as [Hle Hpres]. apply wp_ret; [done|]. intros w2 Hw2 Hr2. apply wp_ret; [done|].
      intros w3 Hw3 Hr3. apply HQ; [done|by do 2 etransitivity|done|]. intros s Hs.
      eapply present_stable; [exact Hr3|]. eapply present_stable; [exact Hr2|]. by apply Hpres.
    + apply wp_throw; [done|]. intros w2 Hw2. apply wp_throw; by auto.
Qed.

(** The entries are those of the slots [[start, stop)], null bodies left out, unless
    retirement has passed [start]. *)
Definition read_back (m : MemoryStorage) (start stop : Z) (es : list LogEntry) : Prop :=
  past m start \/ exists raw,
    Forall2 (fun s e => slot_entry m p s = inr e) (seqZ start (stop - start)) raw /\
    es = base.filter (fun e => e <> JNull) raw.

Definition delivered (m : MemoryStorage) (start : Z) (es : list LogEntry) : Prop :=
  exists stop, start <= stop <= start + DEFAULT_MAX_EVENTS /\ read_back m start stop es.

Lemma slots_stable m m' start seqs raw : feed_rely db collection m m' -> Forall (fun s => start <= s) seqs ->
  Forall2 (fun s e => slot_entry m p s = inr e) seqs raw ->
  past m' start \/ Forall2 (fun s e => slot_entry m' p s = inr e) seqs raw.
Proof.
  intros (_ & Hs & _) Hge H. induction H as [|s e seqs raw Hse _ IH]; [right; constructor|].
  inversion Hge as [|?? Hle Hge']; subst. destruct IH as [?|IH]; [done|by left|].
  unfold slot_entry in Hse. destruct (log_slot m p s) as [b|] eqn:Eb; [|done].
  destruct (Hs s b Eb) as [Hb|Hp]; [|left; by eapply floor_past_le].
  right. constructor; [|done]. unfold slot_entry. by rewrite Hb.
Qed.

Lemma read_back_stable m m' start stop es : feed_rely db collection m m' -> read_back m start stop es -> read_back m' start stop es.
Proof.
  intros Hr [Hp|(raw & Hf & ->)]; [left; eapply floor_past_stable; [apply Hr|done]|].
  assert (Hge : Forall (fun s => start <= s) (seqZ start (stop - start))).
  { apply Forall_forall. intros s Hs%elem_of_seqZ. lia. }
  destruct (slots_stable _ _ start _ _ Hr Hge Hf) as [?|?]; [by left|right; by exists raw].
Qed.

(** One more slot. *)
Lemma read_back_snoc m start s e es : start <= s -> read_back m start s es -> slot_entry m p s = inr e ->
  read_back m start (Z.succ s) (es ++ if decide (e = JNull) then [] else [e]).
Proof.
  intros Hs [Hp|(raw & Hf & ->)] He; [by left|]. right. exists (raw ++ [e]). split.
  - replace (Z.succ s - start) with ((s - start) + 1) by lia. rewrite seqZ_app by lia. apply Forall2_app; [done|].
    replace (start + (s - start)) with s by lia. by repeat constructor.
  - rewrite filter_app, filter_cons. case_decide as Hn; [by rewrite decide_False by (intros H; by apply H)|by rewrite decide_True].
Qed.

Lemma present_read m start s es es' : start <= s -> read_back m start s es -> log_slot m p s = None -> present m s ->
  read_back m start (Z.succ s) es'.
Proof. intros Hs _ Hn [[b Hb]|Hp]; [by rewrite Hn in Hb|]. left. by eapply floor_past_le. Qed.

(** What one [getLogEntry] adds to the entries read so far. *)
Lemma wp_getLogEntry c start s acc (Q : result (option LogEntry) -> world -> Prop) w : reading w -> start <= s ->
  present (store w) s -> read_back (store w) start s acc ->
  (forall w' e, reading w' -> Q (inl e) w') ->
  (forall w' o, reading w' -> feed_rely db collection (store w) (store w') ->
     read_back (store w') start (Z.succ s) (acc ++ option_list o) -> Q (inr o) w') ->
  wp R (getLogEntry db collection s c) Q w.
Proof.
  intros Hw Hs Hpre Hacc Herr HQ. unfold getLogEntry. rewrite Hname. cbn [check bind attempt].
  destruct (assertAtOrAboveLogFloor s c) as [e|]; cbn [check bind attempt]; [apply wp_throw; by auto|].
  apply wp_read; [apply slot_valid|done|done|]. intros w1 got Hw1 Hr1 Hgot.
  pose proof (read_back_stable _ _ _ _ _ Hr1 Hacc) as Hacc1.
  assert (Hret : forall o, read_back (store w1) start (Z.succ s) (acc ++ option_list o) -> wp R (Ret o) Q w1).
  { intros o Ho. apply wp_ret; [done|]. intros w2 Hw2 Hr2. apply HQ; [done|by etransitivity|]. by eapply read_back_stable. }
  destruct got as [g|].
  - assert (Hslot : log_slot (store w1) p s = Some (body g)) by (unfold log_slot; by rewrite <- Hgot).
    destruct (decodeJsonBytes (body g)) as [e|] eqn:Ed; [|apply wp_throw; by auto].
    assert (Hse : slot_entry (store w1) p s = inr e) by (unfold slot_entry; by rewrite Hslot, Ed).
    pose proof (read_back_snoc _ _ _ _ _ Hs Hacc1 Hse) as Hsn. destruct e; by apply Hret.
  - apply Hret. eapply present_read; [done..| |eapply present_stable; [exact Hr1|done]].
    unfold log_slot. by rewrite <- Hgot.
Qed.

(** The read loop, over slots that were occupied. *)
Lemma wp_read_entries c start n : forall s acc (Q : result (list LogEntry) -> world -> Prop) w,
  reading w -> start <= s -> s + Z.of_nat n <= start + DEFAULT_MAX_EVENTS ->
  (forall s', s <= s' < s + Z.of_nat n -> present (store w) s') ->
  read_back (store w) start s acc ->
  (forall w' e, reading w' -> Q (inl e) w') ->
  (forall w' es, reading w' -> feed_rely db collection (store w) (store w') -> delivered (store w') start es -> Q (inr es) w') ->
  wp R (read_entries db collection c (seqZ s (Z.of_nat n)) acc) Q w.
Proof.
  induction n as [|n IH]; intros s acc Q w Hw Hs Hcap Hpre Hacc Herr HQ.
  { cbn. apply wp_ret; [done|]. intros w' Hw' Hr. apply HQ; [done..|]. exists s. split; [lia|]. by eapply read_back_stable. }
  rewrite seqZ_cons by lia. cbn [read_entries]. replace (Z.pred (Z.of_nat (S n))) with (Z.of_nat n) by lia.
  apply wp_bind, (wp_getLogEntry c start s acc); [done|done|apply Hpre; lia|done| |].
  { intros w1 e Hw1. apply wp_throw; by auto. }
  intros w1 o Hw1 Hr1 Hb.
  assert (Hgo : forall acc', read_back (store w1) start (Z.succ s) acc' ->
    wp R (read_entries db collection c (seqZ (Z.succ s) (Z.of_nat n)) acc') Q w1).
  { intros acc' Hb'. apply IH; [done|lia|lia| |done|done|].
    - intros s' Hs'. eapply present_stable; [exact Hr1|]. apply Hpre. lia.
    - intros w2 es Hw2 Hr2. apply HQ; [done|by etransitivity]. }
  destruct o as [e|]; apply Hgo; [done|]. cbn [option_list] in Hb. by rewrite app_nil_r in Hb.
Qed.

Lemma start_seq_ge c decoded s : start_seq c decoded = inr (Some s) -> log_seq_start c <= s.
Proof.
  unfold start_seq, logSeqStartOf. destruct decoded as [[g lsn]|]; [|by intros [= <-]].
  destruct (negb _); [done|]. destruct (lsnParts lsn) as [e|parts]; [done|]. cbn [rbind].
  destruct (lsn_seq parts) as [q|]; [|done]. destruct (Z.ltb_spec q (log_seq_start c)); [done|]. intros [= <-]. lia.
Qed.

(** What a poll answers. *)
Definition poll_post (cursor : jsstr) (m : MemoryStorage) (polled : Polled) : Prop :=
  events polled = [] \/
  exists c start, resumes c cursor start /\ polled_generation polled = generation c /\ delivered m start (events polled).

Lemma delivered_stable m m' start es : feed_rely db collection m m' -> delivered m start es -> delivered m' start es.
Proof. intros Hr (stop & Hst & Hb). exists stop. split; [done|]. by eapply read_back_stable. Qed.

Lemma poll_post_stable cursor m m' polled : feed_rely db collection m m' -> poll_post cursor m polled -> poll_post cursor m' polled.
Proof.
  intros Hr [?|(c & start & Hres & Hg & Hd)]; [by left|]. right. exists c, start. split; [done|]. split; [done|].
  by eapply delivered_stable.
Qed.

(** The part of a poll after the manifest was read. *)
Lemma wp_poll_tail cursor c decoded (Q : result Polled -> world -> Prop) w : reading w ->
  (forall s, log_seq_start c <= s < tail_hint c -> present (store w) s) ->
  (forall s, start_seq c decoded = inr (Some s) -> resumes c cursor s) ->
  (forall w' e, reading w' -> Q (inl e) w') ->
  (forall w' polled, reading w' -> feed_rely db collection (store w) (store w') -> poll_post cursor (store w') polled -> Q (inr polled) w') ->
  wp R (bind (probeLogTail db collection (Z.max (logSeqStartOf c) (tail_hint c)) c) (fun tail =>
    bind (of_result (start_seq c decoded)) (fun startSeq =>
    match startSeq with
    | None => Ret (MakePolled [] (generation c))
    | Some startSeq =>
      bind (read_entries db collection c (seqZ startSeq (Z.min tail (startSeq + DEFAULT_MAX_EVENTS) - startSeq)) []) (fun entries =>
      Ret (MakePolled entries (generation c)))
    end))) Q w.
Proof.
  intros Hw Hdense Hres Herr HQ. apply wp_bind, wp_probeLogTail; [done| |].
  { intros w1 e Hw1. apply wp_throw; by auto. }
  unfold logSeqStartOf. intros w1 tail Hw1 Hr1 Hle Hpres. destruct (start_seq c decoded) as [e|[start|]] eqn:Est; cbn [of_result bind attempt].
  - apply wp_throw; by auto.
  - pose proof (start_seq_ge _ _ _ Est) as Hge.
    set (n := Z.to_nat (Z.min tail (start + DEFAULT_MAX_EVENTS) - start)).
    replace (seqZ start (Z.min tail (start + DEFAULT_MAX_EVENTS) - start)) with (seqZ start (Z.of_nat n)).
    2:{ unfold n. destruct (Z.le_ge_cases 0 (Z.min tail (start + DEFAULT_MAX_EVENTS) - start)); [by rewrite Z2Nat.id|].
        rewrite !seqZ_nil by lia. done. }
    apply wp_bind, (wp_read_entries c start).
    + done.
    + lia.
    + unfold n, DEFAULT_MAX_EVENTS. lia.
    + intros s Hs. destruct (Z.lt_ge_cases s (tail_hint c)); [|apply Hpres; unfold n in Hs; lia].
      eapply present_stable; [exact Hr1|]. apply Hdense. lia.
    + right. exists []. rewrite seqZ_nil by lia. split; [constructor|done].
    + intros w2 e Hw2. apply wp_throw; by auto.
    + intros w2 es Hw2 Hr2 Hd. apply wp_ret; [done|]. intros w3 Hw3 Hr3. apply HQ; [done|by do 2 etransitivity|].
      eapply poll_post_stable; [exact Hr3|]. right. exists c, start. split; [by apply Hres|]. by split.
  - apply wp_ret; [done|]. intros w2 Hw2 Hr2. apply HQ; [done|by etransitivity|by left].
Qed.

Lemma wp_pollOnce cursor (Q : result Polled -> world -> Prop) w : reading w ->
  (forall w' e, reading w' -> Q (inl e) w') ->
  (forall w' polled, reading w' -> feed_rely db collection (store w) (store w') -> poll_post cursor (store w') polled -> Q (inr polled) w') ->
  wp R (pollOnce db collection cursor) Q w.
Proof.
  intros Hw Herr HQ. unfold pollOnce.
  destruct (if bool_decide (cursor = []) then _ else _) as [e|decoded] eqn:Ed; cbn [of_result bind attempt]; [apply wp_throw; by auto|].
  unfold getCurrentJson, readCurrentJson. rewrite Hname. cbn [check bind attempt].
  apply wp_bind, wp_read; [by apply manifest_key_valid|done| |].
  { intros w1 e Hw1. apply wp_throw; by auto. }
  intros w1 got Hw1 Hr1 Hgot. destruct got as [g|].
  - destruct (decode_current (body g)) as [e|c] eqn:Ec; cbn [of_result bind attempt].
    + apply wp_throw; [done|]. intros w2 Hw2. apply wp_throw; by auto.
    + apply wp_ret; [done|]. intros w2 Hw2 Hr2. cbn [json]. apply (wp_poll_tail cursor); [done| | |done|].
      * intros s Hs. eapply present_stable; [exact Hr2|]. left. apply (proj2 Hw1 c); [|done].
        destruct (objects (store w1) !! key) as [o|] eqn:Eo; [|done]. exists o. split; [done|]. injection Hgot as <-. done.
      * intros s Hs. case_bool_decide as Hc.
        -- apply resumes_start_seq. exists decoded. by rewrite bool_decide_eq_true_2.
        -- apply resumes_start_seq. exists decoded. by rewrite bool_decide_eq_false_2.
      * intros w3 polled Hw3 Hr3. apply HQ; [done|]. transitivity (store w1); [done|]. by transitivity (store w2).
  - apply wp_ret; [done|]. intros w2 Hw2 Hr2. apply wp_ret; [done|]. intros w3 Hw3 Hr3.
    apply HQ; [done|by do 2 etransitivity|by left].
Qed.
End among.

(** ** The long poll *)

(** What a long poll that ends answers: nothing and the same cursor, or a run of the log
    from where the cursor resumes, with the cursor of its last entry. *)
Definition response_post (db : Db) (collection : jsstr) (to_string : jsval -> jsstr) (cursor : jsstr) (m : MemoryStorage)
    (r : result (option SinceResponse)) : Prop :=
  match r with
  | inr (Some resp) =>
    resp = unchanged cursor \/
    exists c start e lsn, resumes c cursor start /\ delivered db collection m start (response_events resp) /\
      last (response_events resp) = Some e /\ prop (js "lsn") e = Some lsn /\
      next_cursor resp = format_entry_cursor to_string (generation c) lsn
  | _ => True
  end.

Section long_poll.
Context (db : Db) (collection : jsstr) (to_string : jsval -> jsstr) (cursor : jsstr) (pollIntervalMs : Z).
Context (elapse : nat -> Z -> Z -> Z) (aborted : nat -> bool).
Context (R : MemoryStorage -> MemoryStorage -> Prop).

Lemma wp_any {A} (p : prog A) w : wp R p (fun _ _ => True) w.
Proof. revert w. induction p; intros w0; cbn [wp]; auto. Qed.

(** *** It ends *)

Lemma wp_answers {A B} (p : prog A) (f : A -> prog (option B)) w :
  (forall a w', wp R (f a) (fun r _ => r <> inr None) w') -> wp R (bind p f) (fun r _ => r <> inr None) w.
Proof.
  intros Hf. apply wp_bind. eapply wp_mono; [|apply wp_any]. intros [e|a] w' _; [by intros w2 _|apply Hf].
Qed.

Lemma wp_answer_some polled w : wp R (answer to_string polled) (fun r _ => r <> inr None) w.
Proof. apply wp_answers. by intros a w' w2 _. Qed.

Lemma wp_tick_ends deadline : 1 <= pollIntervalMs -> (forall n now delay, now + delay <= elapse n now delay) ->
  forall fuel n now w, (1 <= fuel)%nat -> deadline - now <= pollIntervalMs * Z.of_nat fuel ->
  wp R (tick db collection to_string cursor pollIntervalMs elapse aborted fuel n deadline now (Z.min pollIntervalMs (deadline - now)))
    (fun r _ => r <> inr None) w.
Proof.
  intros Hpoll Htimer fuel. induction fuel as [|fuel IH]; intros n now w Hf Hrem; [lia|]. cbn [tick].
  destruct (aborted n); [by intros w2 _|]. apply wp_answers. intros polled w1.
  destruct (events polled); [|apply wp_answer_some]. cbn zeta.
  pose proof (Htimer n now (Z.min pollIntervalMs (deadline - now))) as Ht.
  set (now' := elapse n now (Z.min pollIntervalMs (deadline - now))) in *.
  destruct (Z.leb_spec (deadline - now') 0); [by intros w2 _|].
  assert (Hnext : deadline - now' <= pollIntervalMs * Z.of_nat fuel) by lia.
  apply IH; [|done]. destruct fuel; lia.
Qed.

Lemma wp_longPoll_ends fuel start timeoutMs w : 1 <= pollIntervalMs -> (forall n now delay, now + delay <= elapse n now delay) ->
  (1 <= fuel)%nat -> timeoutMs <= pollIntervalMs * Z.of_nat fuel ->
  wp R (longPollSince db collection to_string cursor pollIntervalMs elapse aborted fuel start timeoutMs) (fun r _ => r <> inr None) w.
Proof.
  intros Hpoll Htimer Hf Hfuel. unfold longPollSince. apply wp_answers. intros _ w1. apply wp_answers. intros polled w2.
  destruct (events polled); [|apply wp_answer_some]. destruct (aborted 0); [by intros w3 _|].
  replace (Z.min pollIntervalMs timeoutMs) with (Z.min pollIntervalMs (start + timeoutMs - start)) by (f_equal; lia).
  apply wp_tick_ends; [done..|lia].
Qed.

(** *** On a quiet storage *)

Lemma run_tick_quiet now m fuel : forall n deadline t delay,
  (exists g, run now (pollOnce db collection cursor) m = (inr (MakePolled [] g), m)) ->
  exists o, run now (tick db collection to_string cursor pollIntervalMs elapse aborted fuel n deadline t delay) m = (inr o, m) /\
    (o = None \/ o = Some (unchanged cursor)).
Proof.
  induction fuel as [|fuel IH]; intros n deadline t delay [g Hp]; cbn [tick]; [eexists; split; [done|by left]|].
  destruct (aborted n); [eexists; split; [done|by right]|]. rewrite run_bind, Hp.
  cbn [events]. cbn zeta. destruct (_ <=? 0); [eexists; split; [done|by right]|]. apply IH. by eexists.
Qed.

(** *** It skips nothing *)
Context (HR : forall m m', R m m' -> feed_rely db collection m m').
Context (Hdb : db_ok db) (Hname : assertPathSegment collection = None).
Abbreviation post := (fun r w' => response_post db collection to_string cursor (store w') r).

Lemma wp_answer polled e es w : reading db collection w -> events polled = e :: es -> poll_post db collection cursor (store w) polled ->
  wp R (answer to_string polled) post w.
Proof.
  intros Hw He Hp. unfold answer, nextCursor, read_prop. rewrite He.
  destruct Hp as [E|(c & start & Hres & Hg & Hd)]; [by rewrite He in E|]. rewrite He in Hd.
  destruct (last (e :: es)) as [e'|] eqn:El; [|by apply last_None in El].
  change (default JUndef (Some e')) with e'.
  destruct (prop (js "lsn") e') as [lsn|] eqn:Ep; cbn [bind attempt]; [|by intros w1 _].
  intros w1 Hs1. destruct (reading_envs db collection R HR _ _ Hs1 Hw) as [Hw1 Hr1]. right. exists c, start, e', lsn.
  split; [done|]. split; [by eapply delivered_stable|]. split; [done|]. split; [done|]. by rewrite <- Hg.
Qed.

Lemma wp_unchanged w : wp R (Ret (Some (unchanged cursor))) post w.
Proof. intros w1 _. by left. Qed.

Lemma wp_poll_then (f : list LogEntry -> prog (option SinceResponse)) w : reading db collection w ->
  (forall w', reading db collection w' -> wp R (f []) post w') ->
  wp R (bind (pollOnce db collection cursor) (fun polled =>
    match events polled with [] => f [] | _ :: _ => answer to_string polled end)) post w.
Proof.
  intros Hw Hf. apply wp_bind, (wp_pollOnce db collection R HR Hdb Hname cursor); [done| |].
  - by intros w1 e Hw1 w2 _.
  - intros w1 polled Hw1 _ Hp. destruct (events polled) as [|e es] eqn:E; [by apply Hf|]. by eapply wp_answer.
Qed.

Lemma wp_tick_gapless deadline fuel : forall n now delay w, reading db collection w ->
  wp R (tick db collection to_string cursor pollIntervalMs elapse aborted fuel n deadline now delay) post w.
Proof.
  induction fuel as [|fuel IH]; intros n now delay w Hw; cbn [tick]; [by intros w1 _|].
  destruct (aborted n); [apply wp_unchanged|].
  apply (wp_poll_then (fun _ => if deadline - elapse n now delay <=? 0 then Ret (Some (unchanged cursor)) else _)); [done|].
  intros w1 Hw1. destruct (_ <=? 0); [apply wp_unchanged|by apply IH].
Qed.

Lemma wp_longPoll_gapless fuel start timeoutMs w : reading db collection w ->
  wp R (longPollSince db collection to_string cursor pollIntervalMs elapse aborted fuel start timeoutMs) post w.
Proof.
  intros Hw. unfold longPollSince.
  destruct (if bool_decide (cursor = []) then inr tt else _) as [e|[]]; cbn [of_result bind attempt]; [by intros w1 _|].
  apply (wp_poll_then (fun _ => if aborted 0 then _ else _)); [done|]. intros w1 Hw1.
  destruct (aborted 0); [apply wp_unchanged|by apply wp_tick_gapless].
Qed.
End long_poll.

(** C13: Among clients that never lower a manifest floor, keep each slot's body until the
    delete floor has passed it and never let the hint claim an empty slot, with failing
    reads, whatever a long poll answers is either nothing with the same cursor, or the
    entries of consecutive slots, at most 1024 and null bodies left out, with the cursor of
    the last of them: from the log start of the manifest it read without a cursor, from the
    slot after the entry the cursor names otherwise, which that manifest has not folded and
    whose generation is its own.  The entries are those in the slots unless the delete
    floor of the stored manifest has passed the first slot. *)
Theorem long_poll_gapless db collection to_string cursor pollIntervalMs elapse aborted R fuel start timeoutMs w r w' :
  (forall m m', R m m' -> feed_rely db collection m m') -> db_ok db -> assertPathSegment collection = None ->
  pending w = [] -> hint_dense db collection (store w) ->
  exec R (longPollSince db collection to_string cursor pollIntervalMs elapse aborted fuel start timeoutMs) w r w' ->
  match r with
  | inr (Some resp) =>
    resp = unchanged cursor \/
    exists c first stop last_entry lsn, resumes c cursor first /\ (forall q, names_entry cursor q -> first = q + 1) /\
      first <= stop <= first + 1024 /\
      (floor_past db collection (store w') first \/
       exists raw, Forall2 (fun s e => slot_entry (store w') (manifest_prefix db collection) s = inr e) (seqZ first (stop - first)) raw /\
         response_events resp = base.filter (fun e => e <> JNull) raw) /\
      last (response_events resp) = Some last_entry /\ prop (js "lsn") last_entry = Some lsn /\
      next_cursor resp = format_entry_cursor to_string (generation c) lsn
  | _ => True
  end.
Proof.
  intros HR Hdb Hname Hp Hd Hex.
  assert (Hpost : response_post db collection to_string cursor (store w') r).
  { eapply (wp_sound _ (fun r w' => response_post db collection to_string cursor (store w') r)); [|done]. by apply wp_longPoll_gapless. }
  destruct r as [e|[resp|]]; [done| |done]. destruct Hpost as [?|(c & first & e & lsn & Hres & (stop & Hst & Hb) & Hl & Hp' & Hn)]; [by left|].
  right. exists c, first, stop, e, lsn. split; [done|]. split; [intros q Hq; by eapply names_entry_resumes|].
  split; [exact Hst|]. by split.
Qed.

(** C34: A long poll ends: when timers fire no earlier than asked and the interval is at
    least a millisecond, [timeout / interval] ticks, rounded up and at least one, are
    enough, whatever other clients, failing reads and an abort do.  On a quiet storage it
    answers at once with the entries after the cursor, and with nothing and the same
    cursor when there is none. *)
Theorem long_poll_answers db collection to_string cursor pollIntervalMs elapse aborted fuel start timeoutMs :
  1 <= pollIntervalMs -> (forall n now delay, now + delay <= elapse n now delay) ->
  (1 <= fuel)%nat -> timeoutMs <= pollIntervalMs * Z.of_nat fuel ->
  (forall R w r w', exec R (longPollSince db collection to_string cursor pollIntervalMs elapse aborted fuel start timeoutMs) w r w' ->
     r <> inr None) /\
  (forall now m c tail es s, feed db collection m c tail es -> resumes c cursor s -> log_seq_start c <= s <= tail ->
     exists resp, run now (longPollSince db collection to_string cursor pollIntervalMs elapse aborted fuel start timeoutMs) m =
       (inr (Some resp), m) /\
       response_events resp = take 1024 (drop (Z.to_nat (s - log_seq_start c)) es) /\
       (s = tail -> next_cursor resp = JStr cursor) /\
       (s < tail -> exists cur, next_cursor resp = JStr cur /\ resumes c cur (Z.min tail (s + 1024)))).
Proof.
  intros Hpoll Htimer Hf Hfuel. split.
  { intros R w r w' Hex. eapply (wp_sound _ (fun r _ => r <> inr None)); [|done]. by apply wp_longPoll_ends. }
  intros now m c tail es s Hfeed Hres Hs. destruct (feed_length _ _ _ _ _ _ Hfeed) as [_ Hlen].
  pose proof (run_pollOnce _ _ now _ _ _ _ _ _ Hfeed Hres Hs) as Hpo. change (Z.to_nat DEFAULT_MAX_EVENTS) with 1024%nat in Hpo.
  set (i := Z.to_nat (s - log_seq_start c)) in *.
  unfold longPollSince. rewrite run_bind, run_of_result.
  replace (if bool_decide (cursor = []) then inr tt else rbind (decodeCursor cursor) (fun _ => inr tt)) with (inr tt : result unit).
  2:{ destruct Hres as [[-> _]|(Hne & lsn & parts & q & Hd & _)]; [by rewrite bool_decide_eq_true_2|].
      by rewrite bool_decide_eq_false_2, Hd. }
  rewrite run_bind, Hpo. cbn [events]. destruct (take 1024 (drop i es)) as [|e l] eqn:El.
  - assert (Hst : s = tail).
    { apply (f_equal length) in El. rewrite length_take, length_drop in El. cbn [length] in El. unfold i in El. lia. }
    assert (Hun : exists o, run now (if aborted 0%nat then Ret (Some (unchanged cursor))
        else tick db collection to_string cursor pollIntervalMs elapse aborted fuel 1 (start + timeoutMs) start (Z.min pollIntervalMs timeoutMs)) m
        = (inr o, m) /\ (o = None \/ o = Some (unchanged cursor))).
    { destruct (aborted 0%nat); [eexists; split; [done|by right]|]. apply run_tick_quiet. by eexists. }
    destruct Hun as (o & Hrun & Ho). exists (unchanged cursor). rewrite Hrun.
    assert (Hne : o <> None).
    { intros ->. replace (Z.min pollIntervalMs timeoutMs) with (Z.min pollIntervalMs (start + timeoutMs - start)) in Hrun by (f_equal; lia).
      destruct (aborted 0%nat); [done|]. destruct (run_exec (fun _ _ => False) _ _ _ _ _ [] [] Hrun) as [l' Hex].
      assert (Hrem : start + timeoutMs - start <= pollIntervalMs * Z.of_nat fuel) by lia.
      by apply (wp_sound _ _ _ _ _ (wp_tick_ends db collection to_string cursor pollIntervalMs elapse aborted
        (fun _ _ => False) (start + timeoutMs) Hpoll Htimer fuel 1 start (World m [] []) Hf Hrem)) in Hex. }
    destruct Ho as [->| ->]; [done|]. split; [done|]. split; [done|]. split; [done|lia].
  - destruct (run_nextCursor db collection to_string now m c tail es i 1024 Hfeed) as (cur & Hcur & Hres'); [by rewrite El|].
    rewrite El in Hcur. unfold answer. rewrite run_bind, Hcur. eexists. split; [done|]. split; [done|].
    assert (Hlt : s < tail).
    { apply (f_equal length) in El. rewrite length_take, length_drop in El. cbn [length] in El. unfold i in El. lia. }
    split; [lia|]. intros _. exists cur. split; [done|].
    assert (Eq : Z.min tail (s + 1024) = log_seq_start c + Z.of_nat (Nat.min (length es) (i + 1024))).
    { rewrite Nat2Z.inj_min, Nat2Z.inj_add, Hlen. unfold i. rewrite Z2Nat.id by lia. change (Z.of_nat 1024) with 1024. lia. }
    by rewrite Eq.
Qed.

Definition sample_elapse (n : nat) (now delay : Z) : Z := now + delay.

Lemma sample_hint_dense : hint_dense sample_db (js "orders") sample_feed_store.
Proof.
  intros c s (o & Ho & Hc) Hs.
  assert (E : (fun o => decode_current (stored_body o)) <$> objects sample_feed_store !! manifest_key sample_db (js "orders") =
    Some (inr sample_feed_head)) by (vm_compute; reflexivity).
  rewrite Ho in E. cbn in E. rewrite Hc in E. injection E as ->. cbn in Hs. lia.
Qed.

(** The cursor of the first entry: the poll answers with the second. *)
Definition sample_cursor : jsstr := formatCursor (Some (js "ab")) (mint_lsn (js "0h") (js "s1") 0).

Lemma sample_long_poll : run 0 (longPollSince sample_db (js "orders") (fun _ => []) sample_cursor DEFAULT_POLL_INTERVAL_MS
    sample_elapse (fun _ => false) 25 0 DEFAULT_TIMEOUT_MS) sample_feed_store =
  (inr (Some (Response [sample_feed_entry 1 "d2"] (JStr (formatCursor (Some (js "ab")) (mint_lsn (js "0h") (js "s1") 1))))), sample_feed_store).
Proof. vm_compute. reflexivity. Qed.

Lemma sample_names : names_entry sample_cursor 0.
Proof. exists (Some (js "ab")), (js "0h"), (js "s1"). split; [done|]. repeat split; try done. Qed.

Lemma long_poll_gapless_witness : exists l' c stop,
  exec (feed_rely sample_db (js "orders")) (longPollSince sample_db (js "orders") (fun _ => []) sample_cursor DEFAULT_POLL_INTERVAL_MS
    sample_elapse (fun _ => false) 25 0 DEFAULT_TIMEOUT_MS) (World sample_feed_store [] [])
    (inr (Some (Response [sample_feed_entry 1 "d2"] (JStr (formatCursor (Some (js "ab")) (mint_lsn (js "0h") (js "s1") 1))))))
    (World sample_feed_store [] l') /\
  resumes c sample_cursor 1 /\ 1 <= stop <= 1025.
Proof.
  destruct (run_exec (feed_rely sample_db (js "orders")) _ _ _ _ _ [] [] sample_long_poll) as [l' Hex].
  pose proof (long_poll_gapless sample_db (js "orders") (fun _ => []) sample_cursor DEFAULT_POLL_INTERVAL_MS sample_elapse (fun _ => false)
    (feed_rely sample_db (js "orders")) 25 0 DEFAULT_TIMEOUT_MS (World sample_feed_store [] []) _ _
    (fun m m' H => H) ltac:(split; reflexivity) eq_refl eq_refl sample_hint_dense Hex) as Hpost.
  destruct Hpost as [E|(c & first & stop & e & lsn & Hres & Hfirst & Hst & _)]; [discriminate E|].
  rewrite (Hfirst 0 sample_names) in *. exists l', c, stop. split; [exact Hex|]. split; [exact Hres|exact Hst].
Defined.

Lemma long_poll_answers_witness : exists resp,
  run 0 (longPollSince sample_db (js "orders") (fun _ => []) [] DEFAULT_POLL_INTERVAL_MS sample_elapse (fun _ => false) 25 0
    DEFAULT_TIMEOUT_MS) sample_feed_store = (inr (Some resp), sample_feed_store) /\
  response_events resp = [sample_feed_entry 0 "d1"; sample_feed_entry 1 "d2"].
Proof.
  destruct (long_poll_answers sample_db (js "orders") (fun _ => []) [] DEFAULT_POLL_INTERVAL_MS sample_elapse (fun _ => false)
    25 0 DEFAULT_TIMEOUT_MS) as [_ H].
  - unfold DEFAULT_POLL_INTERVAL_MS. lia.
  - intros n now delay. unfold sample_elapse. lia.
  - lia.
  - unfold DEFAULT_POLL_INTERVAL_MS, DEFAULT_TIMEOUT_MS. lia.
  - destruct (H 0 _ _ _ _ 0 sample_feed) as (resp & Hrun & He & _).
    + left. split; reflexivity.
    + split; [discriminate|]. discriminate.
    + exists resp. split; [exact Hrun|]. exact He.
Defined.
