(* ===== verification/Rebuild.v ===== *)
(** * Index rebuild (server/src/rebuild-index.ts)

    [rebuildIndex] folds the live rows, computes the marker keys the writer would keep for
    one index, lists the stored ones, creates what is missing and deletes what is left
    over.  Afterwards the index satisfies the hypotheses [IndexWalk] and [Query] make of a
    maintained index. *)
From Stdlib Require Import QArith Qcanon.
From S2P Require Import Prelude JsText JsValue Errors Json Storage Effects Lsn CurrentJson LogWalk Snapshot LogTail DocId.
From S2P Require Import Predicate Satisfiable Validate Implies IndexCodec Adoption Writer Indexes QueryPlanner IndexWalk Query Db.
Local Open Scope Z_scope.

Record RebuildIndexResult := RebuildResult { added : nat; removed : nat; kept : nat }.

Section rebuild.
(** [to_string] is [String(v)] of a document id that is not a string. *)
Context (byteLength : bytes -> Z) (sha256 : bytes -> list N) (json_octets : bytes -> list N) (to_string : jsval -> jsstr).

(** [new Set(ids)], in order of first insertion. *)
Definition set_of (keys : list jsstr) : list jsstr := foldl (fun ids id => set_add id ids) [] keys.

(** Step 2: the keys of every live row, in order. *)
Fixpoint row_keys (collectionPrefix : jsstr) (def : IndexDefinition) (live : jsmap) : result (list jsstr) :=
  match live with
  | [] => inr []
  | (docId, row) :: live =>
    rbind (allIndexKeysFor json_octets collectionPrefix [def] row (interpolate to_string docId)) (fun keys =>
    rbind (row_keys collectionPrefix def live) (fun rest => inr (keys ++ rest)))
  end.

Definition expected_keys (collectionPrefix : jsstr) (def : IndexDefinition) (live : jsmap) : result (list jsstr) :=
  rbind (row_keys collectionPrefix def live) (fun keys => inr (set_of keys)).

(** Step 1: the live rows. *)
Definition live_rows (ctx : CollectionReadContext) (head : CurrentJson) : prog jsmap :=
  let logSeqStart := logSeqStartOf head in
  bind (base_docs sha256 ctx head) (fun live =>
  bind (walkLogRange byteLength (collectionPrefix ctx) logSeqStart (tail_hint head)) (fun entries =>
  bind (fold_docs ctx None entries live) (fun live =>
  bind (probeTailFrom (collectionPrefix ctx) (Z.max logSeqStart (tail_hint head))) (fun probe =>
  fold_docs ctx None probe.2 live)))).

(** Step 4: create what is missing; a lost race counts as kept. *)
Fixpoint put_missing (dryRun : bool) (actual expected : list jsstr) (added kept : nat) : prog (nat * nat) :=
  match expected with
  | [] => Ret (added, kept)
  | k :: expected =>
    if bool_decide (k ∈ actual) then put_missing dryRun actual expected added (S kept)
    else if dryRun then put_missing dryRun actual expected (S added) kept
    else attempt (storage_put k EMPTY_BODY create_only) (fun r =>
      match r with
      | inr _ => put_missing dryRun actual expected (S added) kept
      | inl error => if isWriteConflict error then put_missing dryRun actual expected added (S kept) else Throw error
      end)
  end.

Fixpoint delete_orphans (dryRun : bool) (expected actual : list jsstr) (removed : nat) : prog nat :=
  match actual with
  | [] => Ret removed
  | k :: actual =>
    if bool_decide (k ∈ expected) then delete_orphans dryRun expected actual removed
    else if dryRun then delete_orphans dryRun expected actual (S removed)
    else bind (storage_delete k) (fun _ => delete_orphans dryRun expected actual (S removed))
  end.

Definition rebuildIndex (currentJsonKey : jsstr) (def : IndexDefinition) (dryRun : bool) : prog RebuildIndexResult :=
  bind (readCurrentJson currentJsonKey) (fun read =>
  match read with
  | None => Throw (new_error InvalidResponse)
  | Some read =>
    match last_slash currentJsonKey with
    | None => Throw (new_error InvalidResponse)
    | Some lastSlash =>
      let collectionPrefix := take lastSlash currentJsonKey in
      let collection := after_last slash collectionPrefix in
      bind (live_rows (ReadContext collectionPrefix collection [def]) (json read)) (fun live =>
      bind (of_result (expected_keys collectionPrefix def live)) (fun expected =>
      bind (storage_list (indexKeyPrefix collectionPrefix (index_name def)) None None) (fun listed =>
      let actual := set_of (entry_key <$> listed) in
      bind (put_missing dryRun actual expected 0 0) (fun '(added, kept) =>
      bind (delete_orphans dryRun expected actual 0) (fun removed =>
      Ret (RebuildResult added removed kept))))))
    end
  end).
End rebuild.

(** ** Lemmas *)

Lemma elem_set_of k keys : k ∈ set_of keys <-> k ∈ keys.
Proof. unfold set_of. rewrite elem_fold_add. split; [by intros [H%elem_of_nil|]|by right]. Qed.

Lemma set_of_NoDup keys : NoDup (set_of keys).
Proof.
  unfold set_of. enough (H : forall ids, NoDup ids -> NoDup (foldl (fun ids id => set_add id ids) ids keys)) by (apply H; constructor).
  induction keys as [|k keys IH]; intros ids Hids; cbn [foldl]; [done|]. apply IH. unfold set_add.
  case_bool_decide; [done|]. apply NoDup_app. split; [done|]. split; [|by apply NoDup_singleton].
  intros x Hx ->%list_elem_of_singleton. done.
Qed.

(** The keys of [l] in, and not in, [s]. *)
Definition inside (s l : list jsstr) : nat := length (base.filter (fun k => k ∈ s) l).
Definition outside (s l : list jsstr) : nat := length (base.filter (fun k => k ∉ s) l).

Lemma inside_outside s l : (inside s l + outside s l)%nat = length l.
Proof.
  unfold inside, outside. induction l as [|k l IH]; [done|]. rewrite !filter_cons.
  destruct (decide (k ∈ s)); [rewrite decide_False by tauto|rewrite decide_True by done]; cbn [length]; lia.
Qed.

(** A dry run counts. *)
Lemma run_put_dry now m actual expected a k :
  run now (put_missing true actual expected a k) m = (inr ((a + outside actual expected)%nat, (k + inside actual expected)%nat), m).
Proof.
  revert a k. unfold outside, inside. induction expected as [|x l IH]; intros a k; cbn [put_missing]; [cbn; by rewrite !Nat.add_0_r|].
  rewrite !filter_cons. case_bool_decide as Hx.
  - rewrite decide_False by tauto. rewrite decide_True by done. rewrite IH. cbn [length]. do 3 f_equal; lia.
  - rewrite decide_True by done. rewrite decide_False by done. rewrite IH. cbn [length]. do 3 f_equal; lia.
Qed.

Lemma run_delete_dry now m expected actual r :
  run now (delete_orphans true expected actual r) m = (inr (r + outside expected actual)%nat, m).
Proof.
  revert r. unfold outside. induction actual as [|x l IH]; intros r; cbn [delete_orphans]; [cbn; by rewrite Nat.add_0_r|].
  rewrite filter_cons. case_bool_decide as Hx.
  - rewrite decide_False by tauto. apply IH.
  - rewrite decide_True by done. rewrite IH. cbn [length]. do 2 f_equal. lia.
Qed.

(** The stores a real run leaves. *)
Definition puts_done (m m' : MemoryStorage) (new : jsstr -> Prop) : Prop := forall k,
  (new k -> exists e, objects m' !! k = Some (Stored EMPTY_BODY e)) /\ (~ new k -> objects m' !! k = objects m !! k).

Lemma run_put_missing now actual expected : NoDup expected -> Forall (fun k => assertValidStorageKey k = None) expected ->
  forall m a kp, (forall k, k ∈ expected -> (k ∉ actual) -> objects m !! k = None) ->
  exists m', run now (put_missing false actual expected a kp) m =
      (inr ((a + outside actual expected)%nat, (kp + inside actual expected)%nat), m') /\
    puts_done m m' (fun k => k ∈ expected /\ (k ∉ actual)).
Proof.
  unfold outside, inside. induction expected as [|x l IH]; intros Hnd Hv m a kp Hfree; cbn [put_missing].
  { exists m. split; [cbn; by rewrite !Nat.add_0_r|]. intros k. split; [by intros [H%elem_of_nil _]|done]. }
  apply NoDup_cons in Hnd as [Hx Hnd]. apply Forall_cons in Hv as [Hvx Hv]. rewrite !filter_cons. case_bool_decide as Hin.
  - rewrite decide_False by tauto. rewrite decide_True by done.
    destruct (IH Hnd Hv m a (S kp)) as (m' & Hrun & Hdone); [intros; apply Hfree; by (try right)|].
    exists m'. rewrite Hrun. cbn [length]. split; [do 3 f_equal; lia|]. intros k. destruct (Hdone k) as [H1 H2]. split.
    + intros [[-> |Hk]%elem_of_cons Hn]; [done|by apply H1].
    + intros Hk. apply H2. intros [? ?]. apply Hk. split; [by right|done].
  - rewrite decide_True by done. rewrite decide_False by done. rewrite run_attempt, run_put. unfold memory_put. rewrite Hvx.
    assert (Hpre : put_precondition create_only (objects m !! x) = true) by (rewrite Hfree; [done|by left|done]).
    rewrite Hpre. destruct (memory_store x EMPTY_BODY m) as [e m1] eqn:Es.
    assert (Hm1 : forall k, objects m1 !! k = if decide (x = k) then Some (Stored EMPTY_BODY e) else objects m !! k).
    { intros k. pose proof (memory_store_lookup x EMPTY_BODY m k) as H. by rewrite Es in H. }
    destruct (IH Hnd Hv m1 (S a) kp) as (m' & Hrun & Hdone).
    { intros k Hk Hn. rewrite Hm1, decide_False by (by intros ->). apply Hfree; [by right|done]. }
    exists m'. rewrite Hrun. cbn [length]. split; [do 3 f_equal; lia|]. intros k. destruct (Hdone k) as [H1 H2]. split.
    + intros [[-> |Hk]%elem_of_cons Hn]; [|by apply H1]. exists e. rewrite H2 by tauto. by rewrite Hm1, decide_True.
    + intros Hk. rewrite H2 by (intros [? ?]; apply Hk; split; [by right|done]).
      rewrite Hm1, decide_False; [done|]. intros ->. apply Hk. split; [by left|done].
Qed.

Lemma run_delete_orphans now expected actual : Forall (fun k => assertValidStorageKey k = None) actual ->
  forall m r, exists m', run now (delete_orphans false expected actual r) m = (inr (r + outside expected actual)%nat, m') /\
    forall k, (k ∈ actual -> (k ∉ expected) -> objects m' !! k = None) /\
              (~ (k ∈ actual /\ (k ∉ expected)) -> objects m' !! k = objects m !! k).
Proof.
  unfold outside. induction actual as [|x l IH]; intros Hv m r; cbn [delete_orphans].
  { exists m. split; [cbn; by rewrite Nat.add_0_r|]. intros k. split; [by intros H%elem_of_nil|done]. }
  apply Forall_cons in Hv as [Hvx Hv]. rewrite filter_cons. case_bool_decide as Hin.
  - rewrite decide_False by tauto. destruct (IH Hv m r) as (m' & Hrun & Hdone). exists m'. split; [done|].
    intros k. destruct (Hdone k) as [H1 H2]. split.
    + intros [-> |Hk]%elem_of_cons Hn; [done|by apply H1].
    + intros Hk. apply H2. intros [? ?]. apply Hk. split; [by right|done].
  - rewrite decide_True by done. unfold storage_delete. cbn [bind attempt run]. unfold memory_delete. rewrite Hvx.
    cbn [of_result bind attempt].
    destruct (IH Hv (Memory (delete x (objects m)) (etagCounter m)) (S r)) as (m' & Hrun & Hdone).
    exists m'. rewrite Hrun. cbn [length]. split; [do 2 f_equal; lia|]. intros k. destruct (Hdone k) as [H1 H2]. cbn [objects] in H2. split.
    + intros [-> |Hk]%elem_of_cons Hn; [|by apply H1]. destruct (decide (x ∈ l)); [by apply H1|].
      rewrite H2 by tauto. apply lookup_delete_eq.
    + intros Hk. rewrite H2 by (intros [? ?]; apply Hk; split; [by right|done]).
      rewrite lookup_delete_ne; [done|]. intros ->. apply Hk. split; [by left|done].
Qed.

(** Nothing to do. *)
Lemma run_put_present now m actual expected : (forall k, k ∈ expected -> k ∈ actual) -> forall a kp,
  run now (put_missing false actual expected a kp) m = (inr (a, (kp + length expected)%nat), m).
Proof.
  induction expected as [|x l IH]; intros Hin a kp; cbn [put_missing length]; [by rewrite Nat.add_0_r|].
  rewrite bool_decide_eq_true_2 by (apply Hin; by left). rewrite IH by (intros; apply Hin; by right). do 3 f_equal. lia.
Qed.

Lemma run_delete_none now m expected actual : (forall k, k ∈ actual -> k ∈ expected) -> forall r,
  run now (delete_orphans false expected actual r) m = (inr r, m).
Proof.
  induction actual as [|x l IH]; intros Hin r; cbn [delete_orphans]; [done|].
  rewrite bool_decide_eq_true_2 by (apply Hin; by left). apply IH. intros; apply Hin; by right.
Qed.

(** ** The index prefix *)

Section prefix.
Context (p name : jsstr).
Abbreviation in_index k := (starts_with (indexKeyPrefix p name) k).

Lemma in_index_nonempty t : indexKeyPrefix p name ++ t <> [].
Proof. unfold indexKeyPrefix. intros E%(f_equal length). rewrite !length_app in E. cbn in E. lia. Qed.

Lemma log_outside_index s : in_index (logObjectKey p s) = false.
Proof.
  apply not_true_iff_false. intros [t E]%starts_with_spec. pose proof (under_log_slot p s) as H.
  by rewrite E, index_key_outside_log in H.
Qed.

Lemma manifest_outside_index : in_index (p ++ js "/current.json") = false.
Proof.
  apply not_true_iff_false. intros [t E]%starts_with_spec. unfold indexKeyPrefix in E. rewrite <- !app_assoc in E.
  by apply app_inv_head in E.
Qed.

(** The stored keys under the prefix, as the listing gives them. *)
Lemma listed_index_keys m k : k ∈ set_of (entry_key <$> memory_list (indexKeyPrefix p name) None None m) <->
  is_Some (objects m !! k) /\ in_index k = true.
Proof.
  rewrite elem_set_of, list_elem_of_fmap. split.
  - intros (e & -> & He). apply in_memory_list in He as (o & Ho & _ & Hp & _). split; [by exists o|done].
  - intros [[o Ho] [t ->]%starts_with_spec]. destruct (marker_listed m (indexKeyPrefix p name) None t o Ho) as (e & He & Hk).
    + apply in_index_nonempty.
    + done.
    + by exists e.
Qed.
End prefix.

(** ** The expected keys *)

Lemma row_keys_elem json_octets to_string p def live keys : row_keys json_octets to_string p def live = inr keys ->
  (forall d row, (d, row) ∈ live -> exists ks, index_keys_of json_octets p def row (interpolate to_string d) = inr ks /\
     forall k, k ∈ ks -> k ∈ keys) /\
  (forall k, k ∈ keys -> exists d row ks, (d, row) ∈ live /\
     index_keys_of json_octets p def row (interpolate to_string d) = inr ks /\ k ∈ ks).
Proof.
  revert keys. induction live as [|[d row] live IH]; intros keys; cbn [row_keys allIndexKeysFor].
  { intros [= <-]. split; [by intros d row H%elem_of_nil|by intros k H%elem_of_nil]. }
  destruct (index_keys_of json_octets p def row (interpolate to_string d)) as [e|ks] eqn:Ek; cbn [rbind]; [done|].
  destruct (row_keys json_octets to_string p def live) as [e|rest] eqn:Er; cbn [rbind]; [done|]. intros [= <-].
  rewrite app_nil_r. destruct (IH rest eq_refl) as [H1 H2]. split.
  - intros d' row' [[= -> ->]|Hin]%elem_of_cons.
    + exists ks. split; [done|]. intros k Hk. apply elem_of_app. by left.
    + destruct (H1 d' row' Hin) as (ks' & Hks & Hall). exists ks'. split; [done|]. intros k Hk. apply elem_of_app. right. by apply Hall.
  - intros k [Hk|Hk]%elem_of_app.
    + exists d, row, ks. split; [by left|done].
    + destruct (H2 k Hk) as (d' & row' & ks' & Hin & Hrest). exists d', row', ks'. split; [by right|done].
Qed.

Lemma expected_in_index json_octets to_string p def live expected k : expected_keys json_octets to_string p def live = inr expected ->
  k ∈ expected -> starts_with (indexKeyPrefix p (index_name def)) k = true.
Proof.
  unfold expected_keys. destruct (row_keys json_octets to_string p def live) as [e|keys] eqn:E; [done|]. intros [= <-]. rewrite elem_set_of. intros Hk.
  destruct (proj2 (row_keys_elem _ _ _ _ _ _ E) k Hk) as (d & row & ks & _ & Hks & Hin).
  apply index_keys_of_spec in Hks as [->|(v & segs & _ & _ & -> & _)]; [by apply elem_of_nil in Hin|].
  apply list_elem_of_singleton in Hin as ->. apply starts_with_spec. by eexists.
Qed.

(** ** The live rows *)

Section live.
Context (byteLength : bytes -> Z) (sha256 : bytes -> list N) (now : Z) (m : MemoryStorage) (ctx : CollectionReadContext).

Lemma run_live_rows head base docs entries tail : serves sha256 m ctx head base docs entries tail ->
  run now (live_rows byteLength sha256 ctx head) m = (inr docs, m).
Proof.
  intros Hs. destruct (run_log byteLength sha256 now m ctx head base docs entries tail Hs) as (e1 & e2 & -> & Hw & Hp).
  unfold live_rows, logSeqStartOf. rewrite run_bind, (run_base sha256 now m ctx head base) by apply Hs.
  rewrite run_bind, Hw, run_bind. pose proof (serves_fold _ _ _ _ _ _ _ _ Hs) as Hf. rewrite foldLogEntriesOnto_app in Hf.
  destruct (foldLogEntriesOnto (collectionName ctx) None e1 base) as [docs1|] eqn:E1; [|done].
  rewrite (run_fold_docs now m ctx None e1 base docs1 E1), run_bind, Hp. by apply run_fold_docs.
Qed.

(** A collection is served the same while only markers of the index change. *)
Lemma serves_agree m' name head base docs entries tail :
  (forall k, starts_with (indexKeyPrefix (collectionPrefix ctx) name) k = false -> objects m' !! k = objects m !! k) ->
  (forall key, snapshot head = Some key -> starts_with (indexKeyPrefix (collectionPrefix ctx) name) key = false) ->
  serves sha256 m ctx head base docs entries tail -> serves sha256 m' ctx head base docs entries tail.
Proof.
  intros Hag Hsnap Hs. apply (serves_same sha256 m m' ctx head base docs entries tail Hs).
  - apply Hag, manifest_outside_index.
  - intros s _. unfold log_slot. by rewrite Hag by apply log_outside_index.
  - intros key Hkey. apply Hag. by apply Hsnap.
Qed.
End live.

(** ** The reconciliation *)

Lemma project_fields_length fields o values : project_fields fields o = inr (Some values) -> length values = length fields.
Proof.
  revert values. induction fields as [|f fields IH]; intros values; cbn [project_fields]; [by intros [= <-]|].
  destruct (includes_unit Predicate.dot f); [done|].
  destruct (js_get o f); try done; destruct (project_fields fields o) as [e|[vs|]]; cbn [rbind fmap option_fmap option_map]; try done;
    intros [= <-]; cbn [length]; by rewrite (IH vs).
Qed.

Section reconcile.
Context (json_octets : bytes -> list N) (to_string : jsval -> jsstr) (p : jsstr) (def : IndexDefinition).
Abbreviation in_index k := (starts_with (indexKeyPrefix p (index_name def)) k).

(** The store after a rebuild: exactly the expected keys under the prefix. *)
Definition rebuilt (expected : list jsstr) (m m' : MemoryStorage) : Prop :=
  (forall k, in_index k = true -> is_Some (objects m' !! k) <-> k ∈ expected) /\
  (forall k, in_index k = false -> objects m' !! k = objects m !! k).

(** Such a store is a maintained index of the rows. *)
Lemma rebuilt_maintained live expected m m' : expected_keys json_octets to_string p def live = inr expected ->
  rebuilt expected m m' -> tuple_of def <> [] ->
  markers_only json_octets m' p def /\
  forall docId doc, (JStr docId, JObj doc) ∈ live -> slash_free docId -> docId <> [] ->
    Forall (fun f => js_get doc f <> JNull /\ js_get doc f <> JUndef) (tuple_of def) ->
    indexed json_octets m' p def docId doc.
Proof.
  unfold expected_keys. destruct (row_keys json_octets to_string p def live) as [e|keys] eqn:E; [done|]. intros [= <-] [Hin _] Hne.
  pose proof (row_keys_elem _ _ _ _ _ _ E) as [Hrow Hkey]. split.
  - intros k Hk Hp. apply (Hin k Hp) in Hk. rewrite elem_set_of in Hk. destruct (Hkey k Hk) as (d & row & ks & _ & Hks & Hmem).
    apply index_keys_of_spec in Hks as [->|(v & segs & Hv & Hs & -> & _)]; [by apply elem_of_nil in Hmem|].
    apply list_elem_of_singleton in Hmem as ->.
    assert (Hlen : length v = length (tuple_of def)).
    { unfold projectIndexValues in Hv. destruct row; try done. by eapply project_fields_length. }
    exists v, segs, (interpolate to_string d). split; [done|]. split; [done|]. apply index_key_marker.
    apply encode_segments_spec, Forall2_length in Hs. rewrite Hlen in Hs. intros ->. by destruct (tuple_of def).
  - intros docId doc Hd Hs Hn Hf. destruct (Hrow _ _ Hd) as (ks & Hks & Hall). split; [done|done|].
    exists ks. split; [done|]. apply Forall_forall. intros k Hk. apply Hin; [|rewrite elem_set_of; by apply Hall].
    apply index_keys_of_spec in Hks as [->|(v & segs & _ & _ & -> & _)]; [by apply elem_of_nil in Hk|].
    apply list_elem_of_singleton in Hk as ->. apply starts_with_spec. by eexists.
Qed.

(** Steps 3 and 4. *)
Lemma run_reconcile now m expected : NoDup expected -> (forall k, k ∈ expected -> in_index k = true) ->
  Forall (fun k => assertValidStorageKey k = None) expected ->
  (forall k, is_Some (objects m !! k) -> assertValidStorageKey k = None) ->
  let actual := set_of (entry_key <$> memory_list (indexKeyPrefix p (index_name def)) None None m) in
  exists m1 m2,
    run now (put_missing false actual expected 0 0) m = (inr (outside actual expected, inside actual expected), m1) /\
    run now (delete_orphans false expected actual 0) m1 = (inr (outside expected actual), m2) /\
    rebuilt expected m m2.
Proof.
  intros Hnd Hpre Hv Hstored actual. pose proof (listed_index_keys p (index_name def) m) as Hact. fold actual in Hact.
  destruct (run_put_missing now actual expected Hnd Hv m 0 0) as (m1 & Hr1 & Hput).
  { intros k Hk Hn. destruct (objects m !! k) as [o|] eqn:Eo; [|done]. destruct Hn. apply Hact. split; [by exists o|by apply Hpre]. }
  destruct (run_delete_orphans now expected actual) with (m := m1) (r := 0%nat) as (m2 & Hr2 & Hdel).
  { apply Forall_forall. intros k Hk. apply Hstored. by apply Hact. }
  exists m1, m2. split; [exact Hr1|]. split; [exact Hr2|]. split.
  - intros k Hk. destruct (Hput k) as [Hp1 Hp2], (Hdel k) as [Hd1 Hd2].
    destruct (decide (k ∈ expected)) as [He|He], (decide (k ∈ actual)) as [Ha|Ha].
    + rewrite Hd2, Hp2 by tauto. split; [done|]. intros _. by apply Hact.
    + rewrite Hd2 by tauto. destruct Hp1 as [e ->]; [done|]. split; [done|]. intros _. by eexists.
    + rewrite Hd1 by done. split; [by intros []|done].
    + rewrite Hd2, Hp2 by tauto. split; [|done]. intros Hsome. destruct Ha. by apply Hact.
  - intros k Hk. rewrite (proj2 (Hdel k)), (proj2 (Hput k)); [done| |].
    + intros [He _]. by rewrite Hpre in Hk.
    + intros [Ha _]. apply Hact in Ha as [_ Ha]. by rewrite Ha in Hk.
Qed.
End reconcile.

(** The keys of a rebuild, and its two runs. *)
Lemma run_rebuild_read byteLength sha256 json_octets to_string now m p def head base docs entries tail expected dry :
  let ctx := ReadContext p (after_last slash p) [def] in
  serves sha256 m ctx head base docs entries tail -> expected_keys json_octets to_string p def docs = inr expected ->
  let actual := set_of (entry_key <$> memory_list (indexKeyPrefix p (index_name def)) None None m) in
  run now (rebuildIndex byteLength sha256 json_octets to_string (p ++ js "/current.json") def dry) m =
  run now (bind (put_missing dry actual expected 0 0) (fun '(added, kept) =>
           bind (delete_orphans dry expected actual 0) (fun removed => Ret (RebuildResult added removed kept)))) m.
Proof.
  intros ctx Hs He actual. unfold ctx in *. clear ctx. pose proof (serves_head _ _ _ _ _ _ _ _ Hs) as [etag Hh]. pose proof (serves_key _ _ _ _ _ _ _ _ Hs) as Hk.
  unfold rebuildIndex. cbn [collectionPrefix] in Hh, Hk. rewrite run_bind, run_readCurrentJson, Hh by done.
  change (js "/current.json") with (slash :: js "current.json"). rewrite last_slash_app by js_decide.
  cbn zeta. rewrite take_app_length, run_bind. cbn [json].
  rewrite (run_live_rows byteLength sha256 now m _ head base docs entries tail Hs), run_bind, He. cbn [of_result run].
  rewrite run_bind, run_list. done.
Qed.

(** ** Theorems *)

(** C35: A rebuild of an index on a quiet storage leaves under the index's prefix exactly the
    marker keys of the live rows and touches nothing else; it reports the keys it created,
    deleted and found, which are the numbers a dry run reports without changing anything;
    running it again changes nothing and reports every key as kept; and afterwards the
    index is maintained in the sense the query planner's walks rely on. *)
Theorem rebuild_restores_index byteLength sha256 json_octets to_string now m p def head base docs entries tail expected :
  let ctx := ReadContext p (after_last slash p) [def] in
  serves sha256 m ctx head base docs entries tail ->
  (forall key, snapshot head = Some key -> starts_with (indexKeyPrefix p (index_name def)) key = false) ->
  expected_keys json_octets to_string p def docs = inr expected ->
  Forall (fun k => assertValidStorageKey k = None) expected ->
  (forall k, is_Some (objects m !! k) -> assertValidStorageKey k = None) ->
  exists r m',
    run now (rebuildIndex byteLength sha256 json_octets to_string (p ++ js "/current.json") def false) m = (inr r, m') /\
    run now (rebuildIndex byteLength sha256 json_octets to_string (p ++ js "/current.json") def true) m = (inr r, m) /\
    (added r + kept r)%nat = length expected /\
    rebuilt p def expected m m' /\
    run now (rebuildIndex byteLength sha256 json_octets to_string (p ++ js "/current.json") def false) m' =
      (inr (RebuildResult 0 0 (length expected)), m') /\
    (tuple_of def <> [] -> markers_only json_octets m' p def /\
      forall docId doc, map_get (JStr docId) docs = Some (JObj doc) -> slash_free docId -> docId <> [] ->
        Forall (fun f => js_get doc f <> JNull /\ js_get doc f <> JUndef) (tuple_of def) ->
        indexed json_octets m' p def docId doc).
Proof.
  intros ctx Hs Hsnap He Hv Hstored.
  assert (Hnd : NoDup expected).
  { unfold expected_keys in He. destruct (row_keys json_octets to_string p def docs); [done|]. injection He as <-. apply set_of_NoDup. }
  assert (Hpre : forall k, k ∈ expected -> starts_with (indexKeyPrefix p (index_name def)) k = true) by (intros; by eapply expected_in_index).
  destruct (run_reconcile p def now m expected Hnd Hpre Hv Hstored) as (m1 & m2 & Hr1 & Hr2 & Hreb).
  set (actual := set_of (entry_key <$> memory_list (indexKeyPrefix p (index_name def)) None None m)) in *.
  exists (RebuildResult (outside actual expected) (outside expected actual) (inside actual expected)), m2.
  split; [|split; [|split; [|split; [done|split]]]].
  - rewrite (run_rebuild_read _ _ _ _ _ _ _ _ head base docs entries tail expected) by done. fold actual.
    by rewrite run_bind, Hr1, run_bind, Hr2.
  - rewrite (run_rebuild_read _ _ _ _ _ _ _ _ head base docs entries tail expected) by done. fold actual.
    by rewrite run_bind, run_put_dry, run_bind, run_delete_dry.
  - cbn [added kept]. pose proof (inside_outside actual expected). lia.
  - assert (Hs2 : serves sha256 m2 ctx head base docs entries tail) by (eapply serves_agree; [apply Hreb|exact Hsnap|done]).
    rewrite (run_rebuild_read _ _ _ _ _ _ _ _ head base docs entries tail expected) by done.
    assert (Hact : forall k, k ∈ set_of (entry_key <$> memory_list (indexKeyPrefix p (index_name def)) None None m2) <-> k ∈ expected).
    { intros k. rewrite listed_index_keys. split; [intros [Hk Hp]; by apply Hreb|]. intros Hk. split; [|by apply Hpre].
      apply Hreb; [by apply Hpre|done]. }
    rewrite run_bind, run_put_present by (intros; by apply Hact). by rewrite run_bind, run_delete_none by (intros; by apply Hact).
  - intros Hne. destruct (rebuilt_maintained json_octets to_string p def docs expected m m2 He Hreb Hne) as [Hm Hi].
    split; [done|]. intros docId doc Hd. apply Hi. apply map_get_elem; [|done].
    by destruct (served_rows _ _ _ _ _ _ _ _ Hs) as [? _].
Qed.

(** ** A witness: a missing marker and an orphan *)

Definition sample_orphan : jsstr := indexKeyPrefix (js "a/t") (js "by_n") ++ js "8/gone.json".

Definition sample_damaged : MemoryStorage :=
  (memory_store sample_orphan EMPTY_BODY (Memory (delete sample_marker (objects sample_served)) (etagCounter sample_served))).2.

Lemma sample_damaged_agrees k : starts_with (indexKeyPrefix (js "a/t") (js "by_n")) k = false ->
  objects sample_damaged !! k = objects sample_served !! k.
Proof.
  intros Hk. unfold sample_damaged. rewrite memory_store_lookup, decide_False; cbn [objects].
  - apply lookup_delete_ne. intros <-. vm_compute in Hk. discriminate Hk.
  - intros <-. vm_compute in Hk. discriminate Hk.
Qed.

Lemma sample_damaged_serves sha256 :
  serves sha256 sample_damaged (ReadContext (js "a/t") (after_last slash (js "a/t")) [sample_by_n]) sample_read_head [] sample_docs
    [sample_insert_entry] 1.
Proof.
  assert (Hname : after_last slash (js "a/t") = js "t") by (vm_compute; reflexivity). rewrite Hname.
  apply (serves_agree sha256 sample_served (sample_ctx [sample_by_n]) sample_damaged (js "by_n")); [|done|apply sample_serves].
  apply sample_damaged_agrees.
Qed.

Lemma stored_keys_valid m :
  forallb (fun kv => match assertValidStorageKey kv.1 with None => true | Some _ => false end) (map_to_list (objects m)) = true ->
  forall k, is_Some (objects m !! k) -> assertValidStorageKey k = None.
Proof.
  intros H k [o Ho]. rewrite forallb_forall in H.
  assert (Hin : (k, o) ∈ map_to_list (objects m)) by by apply elem_of_map_to_list.
  apply list_elem_of_In, H in Hin. cbn [fst] in Hin. by destruct (assertValidStorageKey k).
Qed.

Lemma sample_damaged_valid k : is_Some (objects sample_damaged !! k) -> assertValidStorageKey k = None.
Proof. apply stored_keys_valid. vm_compute. reflexivity. Qed.

Lemma sample_expected : expected_keys sample_octets (fun _ => []) (js "a/t") sample_by_n sample_docs = inr [sample_marker].
Proof. vm_compute. reflexivity. Qed.

Lemma rebuild_restores_index_witness : exists r m',
  run 0 (rebuildIndex (fun _ => 0) sample_sha256 sample_octets (fun _ => []) (js "a/t" ++ js "/current.json") sample_by_n false) sample_damaged =
    (inr r, m') /\ markers_only sample_octets m' (js "a/t") sample_by_n.
Proof.
  destruct (rebuild_restores_index (fun _ => 0) sample_sha256 sample_octets (fun _ => []) 0 sample_damaged (js "a/t") sample_by_n
    sample_read_head [] sample_docs [sample_insert_entry] 1 [sample_marker]) as (r & m' & Hrun & _ & _ & _ & _ & Hm).
  - apply sample_damaged_serves.
  - discriminate.
  - apply sample_expected.
  - repeat constructor.
  - exact sample_damaged_valid.
  - exists r, m'. split; [exact Hrun|]. apply Hm. discriminate.
Defined.
