(* ===== verification/KeyCodec.v ===== *)
(** * The on-disk key codec (dev/src/local-fs-key-codec.ts)

    The local file-system adapter stores the object of a key under a path whose
    components are spelled in an alphabet no file system folds.  This file holds the
    codec, and shows that decoding is exactly the inverse of encoding (so distinct keys
    have distinct paths and no foreign file is taken for a key), that every name fits
    the file-name limit, is fold-invariant and never starts with a dot, and that a
    path runs through another key's path only when the key does. *)
From S2P Require Import Prelude JsText Utf8 JsValue Errors Json Storage.

Definition NAME_MAX_BYTES : nat := 255.
Definition CONTINUATION : jsstr := js "~".
Definition MAX_PART_BYTES : nat := NAME_MAX_BYTES - length CONTINUATION.

Definition isLiteralByte (b : N) : bool :=
  ((97 <=? b) && (b <=? 122) || (48 <=? b) && (b <=? 57) || (b =? 45) || (b =? 95) || (b =? 46))%N.

Definition DOT : N := 46.

Definition escapeByte (b : N) : jsstr := js "%" ++ pad_start 2 48 (to_radix 16 b).

(** One token of an encoded segment. *)
Definition token (b : N) : jsstr := if isLiteralByte b then [b] else escapeByte b.

Definition tokenize (segment : jsstr) : list jsstr := token <$> utf8_encode segment.

(** [length > limit], the limit [Number.POSITIVE_INFINITY] being [None]. *)
Definition over (limit : option nat) (n : nat) : bool :=
  match limit with None => false | Some m => m <? n end.

(** The loop of [pack], from the tokens left and [current]; it answers the parts it pushes. *)
Fixpoint pack_loop (limit : option nat) (tokens : list jsstr) (current : jsstr) : list jsstr :=
  match tokens with
  | [] => [current]
  | t :: rest =>
    if over limit (length current + length t)
    then current :: pack_loop limit rest (if bool_decide (t = [DOT]) then escapeByte DOT else t)
    else pack_loop limit rest
           (current ++ (if bool_decide (current = []) && bool_decide (t = [DOT]) then escapeByte DOT else t))
  end.

Definition pack (tokens : list jsstr) (limit : option nat) : list jsstr := pack_loop limit tokens [].

(** [parts.map((p, i) => i < parts.length - 1 ? p + CONTINUATION : p)] *)
Definition mark_parts (parts : list jsstr) : list jsstr :=
  imap (fun i p => if i <? length parts - 1 then p ++ CONTINUATION else p) parts.

Definition encodeSegment (segment : jsstr) : list jsstr :=
  let tokens := tokenize segment in
  let single := pack tokens None in
  if length (default [] (single !! 0)) <=? NAME_MAX_BYTES then single
  else mark_parts (pack tokens (Some MAX_PART_BYTES)).

Definition encodeKey (key : jsstr) : result (list jsstr) :=
  if isWellFormed key then inr (mjoin (encodeSegment <$> split_on slash key))
  else inl (new_error InvalidConfig).

(** [/^[0-9a-f]{2}$/] on its two characters. *)
Definition is_hex (c : N) : bool := ((48 <=? c) && (c <=? 57) || (97 <=? c) && (c <=? 102))%N.

(** The bytes [decodeBytes] pushes, [None] where it returns [false]. *)
Fixpoint decodeBytes (component : jsstr) : option (list N) :=
  match component with
  | [] => Some []
  | c :: rest =>
    if (c =? 37)%N then
      match rest with
      | h :: l :: rest' =>
        if is_hex h && is_hex l
        then cons (Z.to_N (default 0%Z (parse_int 16 [h; l]))) <$> decodeBytes rest'
        else None
      | _ => None
      end
    else if isLiteralByte c then cons c <$> decodeBytes rest
    else None
  end.

(** The loop of [decodeComponents], from the segments and the pending bytes. *)
Fixpoint decode_loop (components : list jsstr) (segments : list jsstr) (pending : list N) :
    option (list jsstr * list N) :=
  match components with
  | [] => Some (segments, pending)
  | component :: rest =>
    let continued := ends_with CONTINUATION component in
    let body := if continued then strip_suffix CONTINUATION component else component in
    if bool_decide (body = []) then None
    else match decodeBytes body with
         | None => None
         | Some out =>
           if continued then decode_loop rest segments (pending ++ out)
           else match utf8_decode (pending ++ out) with
                | None => None
                | Some segment =>
                  if is_dot_segment segment then None else decode_loop rest (segments ++ [segment]) []
                end
         end
  end.

Definition decodeComponents (components : list jsstr) : option jsstr :=
  match decode_loop components [] [] with
  | None => None
  | Some (segments, pending) =>
    if negb (bool_decide (pending = [])) || bool_decide (segments = []) then None
    else let key := join_with [slash] segments in
         match encodeKey key with
         | inl _ => None
         | inr canonical => if bool_decide (canonical = components) then Some key else None
         end
  end.

Example encode_upper : encodeKey (js "c/A.b") = inr [js "c"; js "%41.b"].
Proof. vm_compute. reflexivity. Qed.
Example encode_dotted : encodeKey (js ".foo") = inr [js "%2efoo"].
Proof. vm_compute. reflexivity. Qed.
Example decode_alias : decodeComponents [js "c"; js "%61"] = None.
Proof. vm_compute. reflexivity. Qed.
Example decode_upper : decodeComponents [js "c"; js "%41.b"] = Some (js "c/A.b").
Proof. vm_compute. reflexivity. Qed.

(** ** Names *)

(** A unit of an encoded name, the continuation mark apart. *)
Definition name_unit (u : N) : Prop := isLiteralByte u = true \/ u = 37%N.

(** A part of a packed segment: not empty, no continuation mark, no leading dot. *)
Definition part_ok (p : jsstr) : Prop := p <> [] /\ head p <> Some DOT /\ Forall name_unit p.

Lemma escape_bytes_check :
  forallb (fun b : N => bool_decide (decodeBytes (escapeByte b) = Some [b]) &&
      forallb (fun u => isLiteralByte u || (u =? 37)%N) (escapeByte b) &&
      bool_decide (length (escapeByte b) = 3%nat) && bool_decide (head (escapeByte b) = Some 37%N))
    (N.of_nat <$> seq 0 256) = true.
Proof. vm_compute. reflexivity. Qed.

Lemma escapeByte_spec b : (b < 256)%N ->
  decodeBytes (escapeByte b) = Some [b] /\ Forall name_unit (escapeByte b) /\ length (escapeByte b) = 3%nat /\
  head (escapeByte b) = Some 37%N.
Proof.
  intros Hb. pose proof escape_bytes_check as H. rewrite forallb_forall in H.
  assert (Hin : In b (N.of_nat <$> seq 0 256)).
  { apply list_elem_of_In, list_elem_of_fmap. exists (N.to_nat b). rewrite N2Nat.id. split; [done|].
    apply elem_of_seq. lia. }
  apply H in Hin. rewrite !andb_true_iff, !bool_decide_eq_true in Hin. destruct Hin as [[[Hd Hu] Hl] Hh].
  split; [done|]. split; [|done]. rewrite forallb_forall in Hu. apply Forall_forall. intros u Hi%list_elem_of_In.
  apply Hu in Hi. apply orb_true_iff in Hi as [?|?%N.eqb_eq]; [by left|by right].
Qed.

Lemma decodeBytes_literal b r : isLiteralByte b = true -> decodeBytes (b :: r) = cons b <$> decodeBytes r.
Proof.
  intros Hb. cbn [decodeBytes]. destruct (N.eqb_spec b 37) as [->|]; [by vm_compute in Hb|]. by rewrite Hb.
Qed.

Lemma token_spec b : (b < 256)%N ->
  decodeBytes (token b) = Some [b] /\ Forall name_unit (token b) /\ (0 < length (token b) <= 3)%nat /\
  (head (token b) = Some DOT -> token b = [DOT]).
Proof.
  intros Hb. destruct (escapeByte_spec b Hb) as (Hd & Hu & Hl & Hh). unfold token.
  destruct (isLiteralByte b) eqn:E.
  - rewrite decodeBytes_literal by done. split; [done|]. split; [by repeat constructor|].
    cbn [length head]. split; [lia|]. intros H. by simplify_eq.
  - split; [done|]. split; [done|]. split; [lia|]. rewrite Hh. done.
Qed.

Lemma decodeBytes_app a x b : decodeBytes a = Some x -> decodeBytes (a ++ b) = app x <$> decodeBytes b.
Proof.
  revert x. induction a as [a IH] using (well_founded_induction (Wf_nat.well_founded_ltof _ (@length N))).
  intros x. destruct a as [|c a]; cbn [decodeBytes app].
  { intros [= <-]. by destruct (decodeBytes b). }
  destruct (c =? 37)%N.
  - destruct a as [|h [|l a]]; [done..|]. cbn [app]. destruct (is_hex h && is_hex l); [|done].
    intros (y & Hy & ->)%fmap_Some. rewrite (IH a) with (x := y) by (done || (unfold Wf_nat.ltof; cbn [length]; lia)).
    by destruct (decodeBytes b).
  - destruct (isLiteralByte c); [|done]. intros (y & Hy & ->)%fmap_Some.
    rewrite (IH a) with (x := y) by (done || (unfold Wf_nat.ltof; cbn [length]; lia)). by destruct (decodeBytes b).
Qed.

(** The token written at the start of a name. *)
Lemma first_token b : (b < 256)%N ->
  let t := if bool_decide (token b = [DOT]) then escapeByte DOT else token b in
  decodeBytes t = Some [b] /\ part_ok t /\ (length t <= 3)%nat.
Proof.
  intros Hb t. destruct (token_spec b Hb) as (Hd & Hu & Hl & Hh). unfold t. case_bool_decide as E.
  - assert (b = DOT) as ->. { rewrite E in Hd. vm_compute in Hd. by simplify_eq. }
    destruct (escapeByte_spec DOT) as (Hd' & Hu' & Hl' & Hh'); [done|]. unfold part_ok. rewrite Hh'.
    split; [done|]. split; [|lia]. split; [|done]. by destruct (escapeByte DOT).
  - split; [done|]. split; [|lia]. unfold part_ok. split; [|split; [|done]].
    + intros E'. rewrite E' in Hl. cbn [length] in Hl. lia.
    + intros H. by apply E, Hh.
Qed.

Lemma part_ok_app p t : part_ok p -> Forall name_unit t -> part_ok (p ++ t).
Proof.
  intros (Hn & Hh & Hu) Ht. destruct p as [|c p]; [done|]. split; [done|]. split; [done|]. by apply Forall_app.
Qed.

(** What packing the tokens of [bs] produces: good names, within the limit, that decode
    to the bytes. *)
Lemma pack_loop_spec limit bs : (match limit with Some m => 3 <= m | None => True end)%nat -> is_bytes bs ->
  forall cur cb, (cur = [] \/ part_ok cur) -> decodeBytes cur = Some cb -> over limit (length cur) = false ->
  exists bss, Forall2 (fun p b => decodeBytes p = Some b) (pack_loop limit (token <$> bs) cur) bss /\
    mjoin bss = cb ++ bs /\ (cur <> [] \/ bs <> [] -> Forall part_ok (pack_loop limit (token <$> bs) cur)) /\
    Forall (fun p => over limit (length p) = false) (pack_loop limit (token <$> bs) cur) /\
    (limit = None -> exists p, pack_loop limit (token <$> bs) cur = [p]).
Proof.
  intros Hlim. induction 1 as [|b bs Hb _ IH]; intros cur cb Hcur Hd Hl.
  { cbn [fmap list_fmap pack_loop]. exists [cb]. split; [by repeat constructor|].
    split; [by cbn; rewrite !app_nil_r|]. split; [|split; [by repeat constructor|by eexists]].
    intros [H|H]; [|done]. constructor; [naive_solver|done]. }
  rewrite fmap_cons. cbn [pack_loop]. destruct (token_spec b Hb) as (Htd & Htu & Htl & _).
  destruct (first_token b Hb) as (Hfd & Hfp & Hfl).
  set (t := if bool_decide (token b = [DOT]) then escapeByte DOT else token b) in *.
  destruct (over limit (length cur + length (token b))) eqn:Eo.
  - destruct (IH t [b]) as (bss & H1 & H2 & H3 & H4 & H5); [by right|done|..].
    { destruct limit as [m|]; [|done]. cbn [over] in *. apply Nat.ltb_ge. lia. }
    exists (cb :: bss). split; [by constructor|]. split; [by rewrite mjoin_cons, H2|].
    split; [|split; [by constructor|intros ->; done]]. intros _. constructor.
    + destruct Hcur as [->|]; [|done]. destruct limit as [m|]; [|done]. cbn [over length] in Eo. apply Nat.ltb_lt in Eo. lia.
    + apply H3. left. by destruct Hfp.
  - destruct (decide (cur = [])) as [->|Hne].
    + rewrite bool_decide_eq_true_2 by done. cbn [andb app]. fold t. vm_compute in Hd. simplify_eq.
      destruct (IH t [b]) as (bss & H1 & H2 & H3 & H4 & H5); [by right|done|..].
      { destruct limit as [m|]; [|done]. cbn [over] in *. apply Nat.ltb_ge. lia. }
      exists bss. split; [done|]. split; [done|]. split; [|done]. intros _. apply H3. left. by destruct Hfp.
    + rewrite bool_decide_eq_false_2 by done. cbn [andb]. destruct Hcur as [?|Hcur]; [done|].
      destruct (IH (cur ++ token b) (cb ++ [b])) as (bss & H1 & H2 & H3 & H4 & H5).
      * right. by apply part_ok_app.
      * rewrite (decodeBytes_app cur cb) by done. by rewrite Htd.
      * by rewrite length_app.
      * exists bss. split; [done|]. split; [by rewrite H2, <- app_assoc|]. split; [|done]. intros _. apply H3. left.
        by destruct cur.
Qed.

Lemma pack_spec limit bs : (match limit with Some m => 3 <= m | None => True end)%nat -> is_bytes bs -> bs <> [] ->
  exists bss, Forall2 (fun p b => decodeBytes p = Some b) (pack (token <$> bs) limit) bss /\ mjoin bss = bs /\
    Forall part_ok (pack (token <$> bs) limit) /\ Forall (fun p => over limit (length p) = false) (pack (token <$> bs) limit) /\
    (limit = None -> exists p, pack (token <$> bs) limit = [p]).
Proof.
  intros Hlim Hbs Hne. destruct (pack_loop_spec limit bs Hlim Hbs [] []) as (bss & H1 & H2 & H3 & H4 & H5);
    [by left|done|by destruct limit|]. exists bss. split; [done|]. split; [done|]. split; [apply H3; by right|done].
Qed.

(** ** Continuations *)

Lemma mark_parts_one p : mark_parts [p] = [p].
Proof. done. Qed.

Lemma mark_parts_cons p q ps : mark_parts (p :: q :: ps) = (p ++ CONTINUATION) :: mark_parts (q :: ps).
Proof.
  unfold mark_parts. rewrite imap_cons. cbn [length].
  replace (0 <? S (S (length ps)) - 1) with true by (symmetry; apply Nat.ltb_lt; lia). f_equal.
  apply imap_ext. intros i x _. cbn [compose].
  replace (S i <? S (S (length ps)) - 1) with (i <? S (length ps) - 1); [done|].
  destruct (Nat.ltb_spec (S i) (S (S (length ps)) - 1)), (Nat.ltb_spec i (S (length ps) - 1)); (done || lia).
Qed.

Lemma name_not_tilde u : name_unit u -> u <> 126%N.
Proof. intros [H| ->] E; [subst; by vm_compute in H|done]. Qed.

Lemma part_not_continued p : Forall name_unit p -> ends_with CONTINUATION p = false.
Proof.
  intros Hp. destruct (ends_with CONTINUATION p) eqn:E; [|done]. unfold ends_with in E.
  apply starts_with_spec in E as [t Ht]. assert (Hin : 126%N ∈ p).
  { rewrite <- (reverse_involutive p), Ht, reverse_app. apply elem_of_app. right. by apply list_elem_of_singleton. }
  rewrite Forall_forall in Hp. by apply Hp, name_not_tilde in Hin.
Qed.

(** One component of the loop: the last of its segment, or a continued one. *)
Lemma loop_last p b rest acc pend : part_ok p -> decodeBytes p = Some b ->
  decode_loop (p :: rest) acc pend =
  match utf8_decode (pend ++ b) with
  | None => None
  | Some segment => if is_dot_segment segment then None else decode_loop rest (acc ++ [segment]) []
  end.
Proof.
  intros (Hn & _ & Hu) Hd. cbn [decode_loop]. rewrite part_not_continued by done.
  by rewrite bool_decide_eq_false_2, Hd by done.
Qed.

Lemma loop_continued p b rest acc pend : part_ok p -> decodeBytes p = Some b ->
  decode_loop ((p ++ CONTINUATION) :: rest) acc pend = decode_loop rest acc (pend ++ b).
Proof.
  intros (Hn & _ & Hu) Hd. cbn [decode_loop]. rewrite ends_with_app, strip_suffix_app.
  by rewrite bool_decide_eq_false_2, Hd by done.
Qed.

Lemma loop_parts ps bss rest acc pend : Forall2 (fun p b => decodeBytes p = Some b) ps bss -> Forall part_ok ps -> ps <> [] ->
  decode_loop (mark_parts ps ++ rest) acc pend =
  match utf8_decode (pend ++ mjoin bss) with
  | None => None
  | Some segment => if is_dot_segment segment then None else decode_loop rest (acc ++ [segment]) []
  end.
Proof.
  intros H. revert pend. induction H as [|p b ps bss Hd H IH]; intros pend Hok Hne; [done|].
  apply Forall_cons in Hok as [Hp Hok]. destruct ps as [|q ps].
  - inversion H; subst. rewrite mark_parts_one. cbn [app]. rewrite loop_last with (b := b) by done.
    by rewrite mjoin_cons, app_nil_r.
  - rewrite mark_parts_cons. cbn [app]. rewrite loop_continued with (b := b) by done.
    rewrite IH by done. by rewrite mjoin_cons, app_assoc.
Qed.

(** *** One segment *)

Lemma encodeSegment_cases seg : code_units seg -> seg <> [] ->
  exists ps bss, encodeSegment seg = mark_parts ps /\ Forall2 (fun p b => decodeBytes p = Some b) ps bss /\
    mjoin bss = utf8_encode seg /\ Forall part_ok ps /\ ps <> [] /\
    Forall (fun c => (length c <= NAME_MAX_BYTES)%nat) (encodeSegment seg).
Proof.
  intros Hu Hne. pose proof (utf8_bytes seg Hu) as Hb.
  assert (Hbs : utf8_encode seg <> []) by (by intros ?%utf8_encode_nil).
  unfold encodeSegment, tokenize.
  destruct (pack_spec None (utf8_encode seg)) as (bss & H1 & H2 & H3 & H4 & H5); [done..|].
  destruct (H5 eq_refl) as [p Hp]. rewrite Hp in *. change (default [] ([p] !! 0)) with p.
  destruct (Nat.leb_spec (length p) NAME_MAX_BYTES) as [Hle|Hgt].
  - exists [p], bss. rewrite mark_parts_one. split_and!; try done. by apply Forall_singleton.
  - clear - Hb Hbs. destruct (pack_spec (Some MAX_PART_BYTES) (utf8_encode seg)) as (bss & H1 & H2 & H3 & H4 & _);
      [vm_compute; lia|done..|]. set (ps := pack _ _) in *.
    assert (Hps : ps <> []) by (intros E; rewrite E in *; inversion H1; subst; by apply Hbs).
    exists ps, bss. split_and!; try done. clear - H4. unfold over in H4.
    induction ps as [|p ps IH]; [constructor|]. apply Forall_cons in H4 as [Hp H4].
    apply Nat.ltb_ge in Hp. change MAX_PART_BYTES with 254%nat in Hp. destruct ps as [|q ps].
    + rewrite mark_parts_one. apply Forall_singleton. unfold NAME_MAX_BYTES. lia.
    + rewrite mark_parts_cons. constructor; [|by apply IH]. rewrite length_app. unfold NAME_MAX_BYTES. cbn [length CONTINUATION].
      change (length CONTINUATION) with 1%nat. lia.
Qed.

(** A segment the adapter accepts. *)
Definition segment_ok (s : jsstr) : bool := negb (bool_decide (s = [])) && negb (is_dot_segment s).

Lemma encodeSegment_nil : encodeSegment [] = [[]].
Proof. reflexivity. Qed.

Lemma loop_segment seg rest acc : code_units seg -> isWellFormed seg = true ->
  decode_loop (encodeSegment seg ++ rest) acc [] =
  if segment_ok seg then decode_loop rest (acc ++ [seg]) [] else None.
Proof.
  intros Hu Hw. destruct (decide (seg = [])) as [->|Hne].
  { rewrite encodeSegment_nil. reflexivity. }
  destruct (encodeSegment_cases seg Hu Hne) as (ps & bss & -> & H1 & H2 & H3 & H4 & _).
  rewrite loop_parts with (bss := bss) by done. cbn [app]. rewrite H2.
  rewrite (proj2 (utf8_decode_spec _ seg Hu)) by done. unfold segment_ok.
  rewrite bool_decide_eq_false_2 by done. cbn [negb andb]. by destruct (is_dot_segment seg).
Qed.

Lemma loop_segments segs acc rest : Forall (fun s => code_units s /\ isWellFormed s = true) segs ->
  decode_loop (mjoin (encodeSegment <$> segs) ++ rest) acc [] =
  if forallb segment_ok segs then decode_loop rest (acc ++ segs) [] else None.
Proof.
  intros H. revert acc. induction H as [|seg segs [Hu Hw] _ IH]; intros acc; cbn [forallb].
  - by rewrite app_nil_r.
  - rewrite fmap_cons, mjoin_cons, <- app_assoc, loop_segment by done. destruct (segment_ok seg); [|done].
    cbn [andb]. by rewrite IH, <- app_assoc.
Qed.

(** ** Segments of a key *)

Lemma well_formed_app a b : isWellFormed (a ++ slash :: b) = isWellFormed a && isWellFormed b.
Proof.
  unfold isWellFormed. rewrite code_points_app by done. by rewrite forallb_app.
Qed.

Lemma split_well_formed key : isWellFormed key = forallb isWellFormed (split_on slash key).
Proof.
  rewrite <- (join_split slash key) at 1. pose proof (split_on_not_nil slash key) as Hne.
  induction (split_on slash key) as [|s [|t segs] IH]; [done| |].
  - cbn [join_with forallb]. by rewrite andb_true_r.
  - change (join_with [slash] (s :: t :: segs)) with (s ++ slash :: join_with [slash] (t :: segs)).
    rewrite well_formed_app, IH by done. done.
Qed.

Lemma split_units key : code_units key -> Forall (fun s => code_units s) (split_on slash key).
Proof.
  induction 1 as [|u key Hu _ IH]; [by repeat constructor|]. cbn [split_on]. destruct (u =? slash)%N; [by constructor|].
  destruct (split_on slash key); inversion IH; subst; repeat constructor; done.
Qed.

(** A key the adapter can address: well-formed, with no empty and no dot segment. *)
Definition key_ok (key : jsstr) : bool := isWellFormed key && forallb segment_ok (split_on slash key).

Lemma loop_key key rest : code_units key -> isWellFormed key = true ->
  decode_loop (mjoin (encodeSegment <$> split_on slash key) ++ rest) [] [] =
  if forallb segment_ok (split_on slash key) then decode_loop rest (split_on slash key) [] else None.
Proof.
  intros Hu Hw. rewrite loop_segments; [done|]. rewrite split_well_formed in Hw.
  pose proof (split_units key Hu) as Hs. rewrite forallb_forall in Hw. rewrite Forall_forall in *.
  intros s Hin. split; [by apply Hs|]. by apply Hw, list_elem_of_In.
Qed.

Lemma decode_loop_units cs acc pend segs pend' : Forall (fun s => code_units s) acc ->
  decode_loop cs acc pend = Some (segs, pend') -> Forall (fun s => code_units s) segs.
Proof.
  revert acc pend. induction cs as [|c cs IH]; intros acc pend Hacc; cbn [decode_loop]; [naive_solver|].
  destruct (bool_decide _); [done|]. destruct (decodeBytes _) as [out|]; [|done].
  destruct (ends_with CONTINUATION c); [by apply IH|].
  destruct (utf8_decode (pend ++ out)) as [s|] eqn:E; [|done]. destruct (is_dot_segment s); [done|].
  apply IH, Forall_app. split; [done|]. apply Forall_singleton. by apply utf8_decode_units in E.
Qed.

Lemma join_units segs : Forall (fun s => code_units s) segs -> code_units (join_with [slash] segs).
Proof.
  induction 1 as [|s segs Hs H IH]; [done|]. destruct segs as [|t segs]; [done|].
  change (join_with [slash] (s :: t :: segs)) with (s ++ slash :: join_with [slash] (t :: segs)).
  apply Forall_app. split; [done|]. by constructor.
Qed.

Lemma decode_units cs k : decodeComponents cs = Some k -> code_units k.
Proof.
  unfold decodeComponents. destruct (decode_loop cs [] []) as [[segs pend]|] eqn:E; [|done].
  destruct (negb _ || _); [done|]. destruct (encodeKey _); [done|]. destruct (bool_decide _); [|done]. intros [= <-].
  apply join_units. by eapply decode_loop_units, E.
Qed.

(** Decoding is the exact inverse of encoding. *)
Lemma decodeComponents_encode k cs : code_units k ->
  decodeComponents cs = Some k <-> key_ok k = true /\ encodeKey k = inr cs.
Proof.
  intros Hu. unfold key_ok. rewrite andb_true_iff. split.
  - unfold decodeComponents. destruct (decode_loop cs [] []) as [[segs pend]|] eqn:E; [|done].
    destruct (negb _ || _); [done|]. destruct (encodeKey (join_with [slash] segs)) as [|canonical] eqn:Ek; [done|].
    case_bool_decide as Ec; [|done]. subst canonical. intros [= <-]. rewrite Ek. unfold encodeKey in Ek.
    destruct (isWellFormed (join_with [slash] segs)) eqn:Ew; [|done]. simplify_eq. split; [|done]. split; [done|].
    rewrite <- (app_nil_r (mjoin _)), loop_key in E by done. by destruct (forallb segment_ok _).
  - intros [[Hw Hs] He]. unfold encodeKey in He. rewrite Hw in He. simplify_eq. unfold decodeComponents.
    rewrite <- (app_nil_r (mjoin _)) at 1. rewrite loop_key, Hs by done. cbn [decode_loop].
    rewrite bool_decide_eq_true_2, bool_decide_eq_false_2 by (done || apply split_on_not_nil). cbn [negb orb].
    rewrite join_split. unfold encodeKey. rewrite Hw. by rewrite bool_decide_eq_true_2.
Qed.

(** Distinct keys never share a path. *)
Lemma encodeKey_inj k1 k2 cs : code_units k1 -> code_units k2 -> key_ok k1 = true -> key_ok k2 = true ->
  encodeKey k1 = inr cs -> encodeKey k2 = inr cs -> k1 = k2.
Proof.
  intros Hu1 Hu2 H1 H2 E1 E2. assert (D1 : decodeComponents cs = Some k1) by by apply decodeComponents_encode.
  assert (D2 : decodeComponents cs = Some k2) by by apply decodeComponents_encode. congruence.
Qed.

Lemma loop_extends cs acc pend segs pend' : decode_loop cs acc pend = Some (segs, pend') -> exists t, segs = acc ++ t.
Proof.
  revert acc pend. induction cs as [|c cs IH]; intros acc pend; cbn [decode_loop].
  { intros [= -> ->]. exists []. by rewrite app_nil_r. }
  destruct (bool_decide _); [done|]. destruct (decodeBytes _) as [out|]; [|done].
  destruct (ends_with CONTINUATION c); [by apply IH|].
  destruct (utf8_decode (pend ++ out)) as [s|] eqn:E; [|done]. destruct (is_dot_segment s); [done|].
  intros [t ->]%IH. exists (s :: t). by rewrite <- app_assoc.
Qed.

Lemma join_app segs t : segs <> [] -> t <> [] ->
  join_with [slash] (segs ++ t) = join_with [slash] segs ++ slash :: join_with [slash] t.
Proof.
  intros Hs Ht. induction segs as [|s [|s' segs] IH]; [done| |].
  - by destruct t.
  - change (join_with [slash] ((s :: s' :: segs) ++ t)) with (s ++ [slash] ++ join_with [slash] ((s' :: segs) ++ t)).
    rewrite IH by done. change (join_with [slash] (s :: s' :: segs)) with (s ++ [slash] ++ join_with [slash] (s' :: segs)).
    by rewrite <- !app_assoc.
Qed.

(** A path continues another key's path only where the key extends that key by a ["/"]. *)
Lemma encodeKey_nested k1 k2 cs q : code_units k1 -> code_units k2 -> key_ok k1 = true -> key_ok k2 = true ->
  encodeKey k1 = inr cs -> encodeKey k2 = inr (cs ++ q) -> k1 = k2 \/ exists r, k2 = k1 ++ slash :: r.
Proof.
  unfold key_ok. rewrite !andb_true_iff. intros Hu1 Hu2 [W1 S1] [W2 S2]. unfold encodeKey. rewrite W1, W2.
  intros [= E1] [= E2]. pose proof (loop_key k2 [] Hu2 W2) as L. rewrite app_nil_r, E2, <- E1, loop_key, S1, S2 in L by done.
  apply loop_extends in L as [t Ht]. rewrite <- (join_split slash k1), <- (join_split slash k2), Ht.
  destruct t as [|s t]; [left; by rewrite app_nil_r|]. right. eexists. apply join_app; [apply split_on_not_nil|done].
Qed.

(** *** The alphabet of the names *)

(** Every name of a path: within the file-name limit, not hidden, and spelled without
    upper case or anything beyond ASCII. *)
Definition portable_name (c : jsstr) : Prop :=
  c <> [] /\ (length c <= NAME_MAX_BYTES)%nat /\ head c <> Some DOT /\
  Forall (fun u => u ∈ js "abcdefghijklmnopqrstuvwxyz0123456789-_.%~") c.

Lemma name_alphabet u : name_unit u \/ u = 126%N -> u ∈ js "abcdefghijklmnopqrstuvwxyz0123456789-_.%~".
Proof.
  intros H. assert (Hu : (u < 128)%N).
  { destruct H as [[H| ->]| ->]; [|done..]. unfold isLiteralByte in H.
    rewrite !orb_true_iff, !andb_true_iff, !N.leb_le, !N.eqb_eq in H. lia. }
  assert (Hc : forallb (fun u => negb (isLiteralByte u || (u =? 37)%N || (u =? 126)%N) ||
    bool_decide (u ∈ js "abcdefghijklmnopqrstuvwxyz0123456789-_.%~")) (N.of_nat <$> seq 0 128) = true)
    by (vm_compute; reflexivity).
  rewrite forallb_forall in Hc. specialize (Hc u). rewrite orb_true_iff, bool_decide_eq_true in Hc.
  destruct Hc as [Hc|?]; [|exfalso|done].
  - apply list_elem_of_In, list_elem_of_fmap. exists (N.to_nat u). rewrite N2Nat.id. split; [done|]. apply elem_of_seq. lia.
  - apply negb_true_iff in Hc. destruct H as [[H| ->]| ->]; [by rewrite H in Hc|done..].
Qed.

Lemma marked_names ps : Forall part_ok ps ->
  Forall (fun c => c <> [] /\ head c <> Some DOT /\ Forall (fun u => name_unit u \/ u = 126%N) c) (mark_parts ps).
Proof.
  assert (Hm : forall u, name_unit u -> name_unit u \/ u = 126%N) by (intros; by left).
  induction 1 as [|p ps (Hn & Hh & Hu) H IH]; [constructor|]. destruct ps as [|q ps].
  - rewrite mark_parts_one. constructor; [|constructor]. split; [done|]. split; [done|]. by eapply Forall_impl; [exact Hu|].
  - rewrite mark_parts_cons. constructor; [|exact IH]. destruct p as [|c p]; [done|]. split; [done|]. split; [done|].
    apply Forall_app. split; [by eapply Forall_impl; [exact Hu|]|]. apply Forall_singleton. by right.
Qed.

Lemma encoded_names k cs : code_units k -> key_ok k = true -> encodeKey k = inr cs -> Forall portable_name cs.
Proof.
  unfold key_ok. rewrite andb_true_iff. intros Hu [Hw Hs]. unfold encodeKey. rewrite Hw. intros [= <-].
  pose proof (split_units k Hu) as Hsu. rewrite forallb_forall in Hs.
  assert (H : Forall (fun s => Forall portable_name (encodeSegment s)) (split_on slash k)).
  { rewrite Forall_forall in *. intros s Hin. assert (Hok : segment_ok s = true) by by apply Hs, list_elem_of_In.
    unfold segment_ok in Hok. rewrite andb_true_iff, !negb_true_iff, bool_decide_eq_false in Hok.
    destruct (encodeSegment_cases s) as (ps & bss & E & _ & _ & Hps & _ & Hl); [by apply Hsu|naive_solver|].
    pose proof (marked_names ps Hps) as Hm. rewrite <- E in Hm. rewrite Forall_forall in Hm, Hl |- *. intros c Hc.
    destruct (Hm c Hc) as (Hn & Hh & Ha). split; [done|]. split; [by apply Hl|]. split; [done|].
    eapply Forall_impl; [exact Ha|]. intros u. apply name_alphabet. }
  clear - H. induction H as [|s l Hs _ IH]; [constructor|]. rewrite fmap_cons, mjoin_cons. by apply Forall_app.
Qed.

(** ** Theorems *)

(** C37: The codec is a bijection between the keys the adapter accepts and the paths it
    recognises: [decodeComponents] answers a key exactly when the key is well-formed with
    no empty or dot segment and [encodeKey] of it is that very path (so a name escaped
    otherwise, split elsewhere, ending in a dangling [~] or holding ill-formed UTF-8 is no
    key's).  Every name of such a path is non-empty, at most 255 bytes long, does not start
    with a dot and is spelled with lower-case letters, digits and [-_.%~] only, which no
    case folding or normalization changes; no two keys share a path; and one path runs
    through another key's only where the keys do. *)
Theorem key_codec_roundtrip k cs : code_units k ->
  (decodeComponents cs = Some k <-> key_ok k = true /\ encodeKey k = inr cs) /\
  (key_ok k = true -> encodeKey k = inr cs ->
   Forall portable_name cs /\
   forall k' q, code_units k' -> key_ok k' = true -> encodeKey k' = inr (cs ++ q) ->
     (q = [] -> k' = k) /\ (k' = k \/ exists r, k' = k ++ slash :: r)).
Proof.
  intros Hu. split; [by apply decodeComponents_encode|]. intros Hk He. split; [by apply (encoded_names k)|].
  intros k' q Hu' Hk' He'. split.
  - intros ->. rewrite app_nil_r in He'. by apply (encodeKey_inj k' k cs).
  - destruct (encodeKey_nested k k' cs q) as [->|?]; [done..|by left|by right].
Qed.

Lemma key_codec_roundtrip_witness : decodeComponents [js "c"; js "%41.b"] = Some (js "c/A.b") /\
  Forall portable_name [js "c"; js "%41.b"].
Proof.
  split.
  - apply (key_codec_roundtrip (js "c/A.b") [js "c"; js "%41.b"]).
    + repeat constructor.
    + split; vm_compute; reflexivity.
  - apply (key_codec_roundtrip (js "c/A.b") [js "c"; js "%41.b"]).
    + repeat constructor.
    + vm_compute; reflexivity.
    + vm_compute; reflexivity.
Defined.
