(* ===== verification/KeyLock.v ===== *)
(** * The keyed mutex (dev/src/key-lock.ts)

    [withKeyLock] registers its caller synchronously (it takes the previous holder's
    release as what it waits for and publishes its own), waits, runs the section and
    releases in a [finally].  The module's state is the map of live locks, the lock
    objects and the promises resolved so far; the callers are kept beside it.  The
    theorem is what the local file-system adapter needs: at most one section per lock
    key, in the order of arrival, no deadlock, and no entry left once a key has no
    callers. *)
From stdpp Require Import sorting.
From S2P Require Import Prelude JsText.

(** ** The module's state *)

(** A [KeyLock] object: [tail] is the promise the next arrival waits for. *)
Record KeyLock := Lock { tail : nat; waiters : nat }.

(** [locks], the lock objects by identity, the resolved promises, and the identity the
    next object or promise gets. *)
Record lock_state := LockState {
  locks : gmap jsstr nat;
  heap : gmap nat KeyLock;
  resolved : gset nat;
  next_id : nat
}.

Definition no_locks : lock_state := LockState empty empty empty 0.

(** What one call holds between registering and releasing. *)
Record ticket := Ticket { lock_of : nat; predecessor : nat; own_release : nat }.

(** The synchronous part of [withKeyLock], up to its [await]. *)
Definition register (key : jsstr) (s : lock_state) : ticket * lock_state :=
  let fresh :=
    match locks s !! key with
    | Some l => (l, s)
    | None =>
      let l := next_id s in
      let settled := S (next_id s) in
      (l, LockState (<[key := l]> (locks s)) (<[l := Lock settled 0]> (heap s))
            ({[settled]} ∪ resolved s) (S settled))
    end in
  let l := fresh.1 in
  let s1 := fresh.2 in
  let o := default (Lock 0 0) (heap s1 !! l) in
  let release := next_id s1 in
  (Ticket l (tail o) release,
   LockState (locks s1) (<[l := Lock release (S (waiters o))]> (heap s1)) (resolved s1) (S release)).

(** Whether [await predecessor] can resume. *)
Definition may_enter (t : ticket) (s : lock_state) : Prop := predecessor t ∈ resolved s.

Global Instance may_enter_dec t s : Decision (may_enter t s).
Proof. unfold may_enter. apply _. Defined.

(** The [finally] block. *)
Definition release (key : jsstr) (t : ticket) (s : lock_state) : lock_state :=
  let o := default (Lock 0 0) (heap s !! lock_of t) in
  let o' := Lock (tail o) (waiters o - 1) in
  LockState
    (if bool_decide (waiters o' = 0) && bool_decide (locks s !! key = Some (lock_of t))
     then delete key (locks s) else locks s)
    (<[lock_of t := o']> (heap s)) ({[own_release t]} ∪ resolved s) (next_id s).

(** Test-only in the source: the number of live entries. *)
Definition keyLockCount (s : lock_state) : nat := size (locks s).

(** ** The callers *)

(** A caller between its registration and its release: the key, the ticket, and
    whether its section runs. *)
Record caller := Caller { c_key : jsstr; c_ticket : ticket; c_in : bool }.

Abbreviation callers := (gmap nat caller).

Inductive lock_step : lock_state * callers -> lock_state * callers -> Prop :=
| call_arrives s T i key : T !! i = None ->
    lock_step (s, T) ((register key s).2, (<[i := Caller key ((register key s).1) false]> T))
| call_enters s T i key t : T !! i = Some (Caller key t false) -> may_enter t s ->
    lock_step (s, T) (s, (<[i := Caller key t true]> T))
| call_leaves s T i key t : T !! i = Some (Caller key t true) ->
    lock_step (s, T) (release key t s, delete i T).

(** ** The invariant *)

(** The queue of a key, from the caller that may run: each waits for the one before. *)
Fixpoint chain (p : nat) (q : list (nat * ticket)) (last : nat) : Prop :=
  match q with
  | [] => last = p
  | (_, t) :: q' => predecessor t = p /\ chain (own_release t) q' last
  end.

(** The queues, a function of the key, agree with the module's state and the callers. *)
Record queues_ok (s : lock_state) (T : callers) (Q : jsstr -> list (nat * ticket)) : Prop := {
  q_some : forall key, Q key <> [] -> exists l, locks s !! key = Some l;
  q_lock : forall key l, locks s !! key = Some l ->
    (l < next_id s)%nat /\ Forall (fun it => lock_of it.2 = l) (Q key) /\
    exists p o, heap s !! l = Some o /\ p ∈ resolved s /\ chain p (Q key) (tail o) /\ waiters o = length (Q key);
  q_callers : forall i c, T !! i = Some c ->
    (i, c_ticket c) ∈ Q (c_key c) /\ (c_in c = true -> may_enter (c_ticket c) s);
  q_members : forall key i t, (i, t) ∈ Q key -> exists b, T !! i = Some (Caller key t b);
  q_nodup : forall key, NoDup ((Q key).*1);
  q_sorted : forall key, StronglySorted lt ((fun it => own_release it.2) <$> Q key);
  q_pending : forall key i t, (i, t) ∈ Q key -> (own_release t ∉ resolved s) /\ (own_release t < next_id s)%nat;
  q_releases : forall i j c d, T !! i = Some c -> T !! j = Some d ->
    own_release (c_ticket c) = own_release (c_ticket d) -> i = j;
  q_locks_inj : forall key key' l, locks s !! key = Some l -> locks s !! key' = Some l -> key = key';
  q_resolved : forall p, p ∈ resolved s -> (p < next_id s)%nat
}.

(** Entries are live exactly for the keys that have callers. *)
Definition locks_ok (s : lock_state) (T : callers) : Prop :=
  exists Q, queues_ok s T Q /\ forall key, locks s !! key = None <-> Q key = [].

Lemma locks_ok_init : locks_ok no_locks empty.
Proof.
  exists (fun _ => []). split; [|done]. split; cbn.
  - done.
  - intros key l. by rewrite lookup_empty.
  - intros i c. by rewrite lookup_empty.
  - by intros key i t ?%elem_of_nil.
  - intros key. apply NoDup_nil_2.
  - intros key. constructor.
  - by intros key i t ?%elem_of_nil.
  - intros i j c d. by rewrite lookup_empty.
  - intros key key' l. by rewrite lookup_empty.
  - by intros p ?%elem_of_empty.
Qed.

Lemma chain_snoc p q last i t : chain p q last -> predecessor t = last -> chain p (q ++ [(i, t)]) (own_release t).
Proof.
  revert p. induction q as [|[j u] q IH]; intros p; cbn [chain app]; [naive_solver|]. intros [? ?]. eauto.
Qed.

(** The state a first caller of a key finds after creating the entry. *)
Lemma fresh_ok s T Q key : queues_ok s T Q -> locks s !! key = None ->
  queues_ok (LockState (<[key := next_id s]> (locks s)) (<[next_id s := Lock (S (next_id s)) 0]> (heap s))
    ({[S (next_id s)]} ∪ resolved s) (S (S (next_id s)))) T Q.
Proof.
  intros H Hk. assert (Hq : Q key = []).
  { destruct (decide (Q key = [])) as [|Hne]; [done|]. destruct (q_some _ _ _ H key Hne) as [l Hl]. congruence. }
  split; cbn [locks heap resolved next_id].
  - intros key' [l Hl]%(q_some _ _ _ H). rewrite lookup_insert_ne by congruence. by exists l.
  - intros key' l. rewrite lookup_insert_Some. intros [[<- <-]|[Hne Hl]].
    + split; [lia|]. rewrite Hq. split; [done|]. exists (S (next_id s)), (Lock (S (next_id s)) 0).
      rewrite lookup_insert_eq. split; [done|]. split; [set_solver|done].
    + destruct (q_lock _ _ _ H key' l Hl) as (Hlt & Hf & p & o & Ho & Hp & Hc). split; [lia|]. split; [done|].
      exists p, o. rewrite lookup_insert_ne by lia. split; [done|]. split; [set_solver|done].
  - intros i c Hc. destruct (q_callers _ _ _ H i c Hc) as [Hi Hin]. split; [done|]. intros Hb.
    specialize (Hin Hb). unfold may_enter in *. cbn [resolved]. set_solver.
  - apply (q_members _ _ _ H).
  - apply (q_nodup _ _ _ H).
  - apply (q_sorted _ _ _ H).
  - intros key' i t Hi. destruct (q_pending _ _ _ H key' i t Hi). split; [|lia].
    rewrite elem_of_union, elem_of_singleton. intros [|]; [lia|done].
  - apply (q_releases _ _ _ H).
  - intros k1 k2 l. rewrite !lookup_insert_Some. intros [[<- <-]|[? H1]] [[<- E]|[? H2]]; try done.
    + by apply (q_lock _ _ _ H) in H2 as [? _]; lia.
    + subst. by apply (q_lock _ _ _ H) in H1 as [? _]; lia.
    + by apply (q_locks_inj _ _ _ H k1 k2 l).
  - intros p. rewrite elem_of_union, elem_of_singleton. intros [->|Hp%(q_resolved _ _ _ H)]; lia.
Qed.

Lemma sorted_snoc (l : list nat) x : StronglySorted lt l -> Forall (fun y => (y < x)%nat) l -> StronglySorted lt (l ++ [x]).
Proof.
  induction 1 as [|y l Hl IH Hy]; intros Hx; cbn [app]; [by repeat constructor|].
  apply Forall_cons in Hx as [Hyx Hx]. constructor; [by apply IH|]. apply Forall_app. split; [done|by apply Forall_singleton].
Qed.

Definition set_queue (Q : jsstr -> list (nat * ticket)) (key : jsstr) (q : list (nat * ticket)) : jsstr -> list (nat * ticket) :=
  fun key' => if decide (key' = key) then q else Q key'.

Lemma set_queue_same Q key q : set_queue Q key q key = q.
Proof. unfold set_queue. by rewrite decide_True. Qed.

Lemma set_queue_other Q key q key' : key' <> key -> set_queue Q key q key' = Q key'.
Proof. intros. unfold set_queue. by rewrite decide_False. Qed.

(** Joining the queue of a live entry. *)
Lemma join_ok s T Q i key l o : queues_ok s T Q -> T !! i = None -> locks s !! key = Some l -> heap s !! l = Some o ->
  let t := Ticket l (tail o) (next_id s) in
  queues_ok (LockState (locks s) (<[l := Lock (next_id s) (S (waiters o))]> (heap s)) (resolved s) (S (next_id s)))
    (<[i := Caller key t false]> T) (set_queue Q key (Q key ++ [(i, t)])).
Proof.
  intros H Hi Hl Ho t. destruct (q_lock _ _ _ H key l Hl) as (Hlt & Hf & p & o' & Ho' & Hp & Hc & Hw).
  assert (o' = o) as -> by congruence. split; cbn [locks heap resolved next_id].
  - intros key' Hne. destruct (decide (key' = key)) as [->|Hk]; [by exists l|].
    rewrite set_queue_other in Hne by done. by apply (q_some _ _ _ H).
  - intros key' l' Hl'. destruct (decide (key' = key)) as [->|Hk].
    + assert (l' = l) as -> by congruence. rewrite set_queue_same. split; [lia|].
      split; [apply Forall_app; split; [done|by apply Forall_singleton]|].
      exists p, (Lock (next_id s) (S (waiters o))). rewrite lookup_insert_eq. split; [done|]. split; [done|].
      cbn [tail waiters]. split; [by eapply chain_snoc|]. rewrite length_app. cbn [length]. lia.
    + rewrite set_queue_other by done. destruct (q_lock _ _ _ H key' l' Hl') as (Hlt' & Hf' & p' & o1 & Ho1 & Hr).
      split; [lia|]. split; [done|]. exists p', o1. rewrite lookup_insert_ne; [done|]. intros <-.
      by apply Hk, (q_locks_inj _ _ _ H key' key l).
  - intros j c. rewrite lookup_insert_Some. intros [[<- <-]|[Hne Hj]].
    + cbn [c_key c_ticket c_in]. rewrite set_queue_same. split; [|done]. apply elem_of_app. right. by apply list_elem_of_singleton.
    + destruct (q_callers _ _ _ H j c Hj) as [Hin He]. split; [|done].
      destruct (decide (c_key c = key)) as [E|Hk]; [|by rewrite set_queue_other].
      rewrite E, set_queue_same, <- E. apply elem_of_app. by left.
  - intros key' j u Hin. assert (Hold : (j, u) ∈ Q key' \/ (key' = key /\ j = i /\ u = t)).
    { destruct (decide (key' = key)) as [->|Hk]; [|rewrite set_queue_other in Hin by done; by left].
      rewrite set_queue_same, elem_of_app, list_elem_of_singleton in Hin. destruct Hin; [by left|right; by simplify_eq]. }
    destruct Hold as [Hold|(-> & -> & ->)]; [|exists false; by rewrite lookup_insert_eq].
    destruct (q_members _ _ _ H key' j u Hold) as [b Hb]. exists b. rewrite lookup_insert_ne; [done|congruence].
  - intros key'. destruct (decide (key' = key)) as [->|Hk]; [|rewrite set_queue_other by done; by apply (q_nodup _ _ _ H)].
    rewrite set_queue_same, fmap_app. apply NoDup_app. split; [by apply (q_nodup _ _ _ H)|]. split; [|apply NoDup_singleton].
    intros j Hj. cbn. rewrite list_elem_of_singleton. intros ->. apply list_elem_of_fmap in Hj as ([i' u] & -> & Hu).
    destruct (q_members _ _ _ H key i' u Hu) as [b Hb]. cbn in Hi. congruence.
  - intros key'. destruct (decide (key' = key)) as [->|Hk]; [|rewrite set_queue_other by done; by apply (q_sorted _ _ _ H)].
    rewrite set_queue_same, fmap_app. apply sorted_snoc; [by apply (q_sorted _ _ _ H)|]. apply Forall_fmap, Forall_forall.
    intros [j u] Hu. apply (q_pending _ _ _ H) in Hu as [_ Hu]. exact Hu.
  - intros key' j u Hin. assert (Hold : (j, u) ∈ Q key' \/ u = t).
    { destruct (decide (key' = key)) as [->|Hk]; [|rewrite set_queue_other in Hin by done; by left].
      rewrite set_queue_same, elem_of_app, list_elem_of_singleton in Hin. destruct Hin; [by left|right; by simplify_eq]. }
    destruct Hold as [Hold| ->].
    + destruct (q_pending _ _ _ H key' j u Hold). split; [done|lia].
    + cbn [t own_release]. split; [|lia]. intros Hr%(q_resolved _ _ _ H). lia.
  - assert (Hnew : forall j d, T !! j = Some d -> own_release (c_ticket d) <> next_id s).
    { intros j d Hd. destruct (q_callers _ _ _ H j d Hd) as [Hin _]. apply (q_pending _ _ _ H) in Hin as [_ ?]. lia. }
    intros j1 j2 c d. rewrite !lookup_insert_Some. intros [[<- <-]|[? H1]] [[<- <-]|[? H2]] E; try done.
    + exfalso. symmetry in E. by eapply Hnew.
    + exfalso. by eapply Hnew.
    + by eapply (q_releases _ _ _ H).
  - apply (q_locks_inj _ _ _ H).
  - intros q Hq%(q_resolved _ _ _ H). lia.
Qed.

Lemma register_ok s T i key : locks_ok s T -> T !! i = None ->
  locks_ok (register key s).2 (<[i := Caller key (register key s).1 false]> T).
Proof.
  intros (Q & H & Hlive) Hi. unfold register. destruct (locks s !! key) as [l|] eqn:El; cbn [fst snd].
  - destruct (q_lock _ _ _ H key l El) as (_ & _ & p & o & Ho & _). rewrite Ho. cbn [default from_option id].
    eexists. split; [by apply join_ok|]. cbn [locks]. intros key'.
    destruct (decide (key' = key)) as [->|Hk]; [|by rewrite set_queue_other].
    rewrite set_queue_same, El. split; [done|]. by intros [_ ?]%app_nil.
  - cbn [heap locks next_id resolved]. rewrite lookup_insert_eq. cbn [default from_option id].
    pose proof (fresh_ok s T Q key H El) as Hf.
    pose proof (join_ok _ T Q i key (next_id s) (Lock (S (next_id s)) 0) Hf Hi) as Hj.
    cbn [locks heap next_id resolved] in Hj. rewrite !lookup_insert_eq in Hj. eexists. split; [by apply Hj|].
    cbn [locks]. intros key'. destruct (decide (key' = key)) as [->|Hk].
    + rewrite set_queue_same, lookup_insert_eq. split; [done|]. by intros [_ ?]%app_nil.
    + rewrite set_queue_other, lookup_insert_ne by done. apply Hlive.
Qed.

Lemma enter_ok s T i key t : locks_ok s T -> T !! i = Some (Caller key t false) -> may_enter t s ->
  locks_ok s (<[i := Caller key t true]> T).
Proof.
  intros (Q & H & Hlive) Hi Ht. exists Q. split; [|done]. split; try by apply H.
  - intros j c. rewrite lookup_insert_Some. intros [[<- <-]|[_ Hj]]; [|by apply (q_callers _ _ _ H)].
    destruct (q_callers _ _ _ H i _ Hi) as [Hin _]. by split.
  - intros key' j u Hu. destruct (q_members _ _ _ H key' j u Hu) as [b Hb].
    destruct (decide (j = i)) as [->|Hne]; [|exists b; by rewrite lookup_insert_ne].
    rewrite Hi in Hb. simplify_eq. exists true. by rewrite lookup_insert_eq.
  - assert (Hold : forall j c, (<[i:=Caller key t true]> T) !! j = Some c ->
      exists c', T !! j = Some c' /\ c_ticket c' = c_ticket c).
    { intros j c. rewrite lookup_insert_Some. intros [[<- <-]|[_ Hj]]; [by exists (Caller key t false)|by exists c]. }
    intros j1 j2 c d (c' & Hc & Ec)%Hold (d' & Hd & Ed)%Hold E. rewrite <- Ec, <- Ed in E. by eapply (q_releases _ _ _ H).
Qed.

(** The caller whose turn it is heads its queue. *)
Lemma entered_heads s T Q key l i t : queues_ok s T Q -> locks s !! key = Some l -> (i, t) ∈ Q key -> may_enter t s ->
  exists q, Q key = (i, t) :: q.
Proof.
  intros H Hl Hin Ht. destruct (q_lock _ _ _ H key l Hl) as (_ & _ & p & o & _ & _ & Hc & _).
  pose proof (fun j u => q_pending _ _ _ H key j u) as Hpend. destruct (Q key) as [|[j u] q]; [by apply elem_of_nil in Hin|].
  apply elem_of_cons in Hin as [E|Hin]; [simplify_eq; by exists q|]. exfalso. destruct Hc as [_ Hc].
  assert (Hu : own_release u ∉ resolved s) by (apply (Hpend j u); left).
  assert (Hq : forall j u, (j, u) ∈ q -> own_release u ∉ resolved s) by (intros; eapply Hpend; by right).
  clear Hpend. revert u Hc Hu. induction q as [|[j' u'] q IH]; intros u Hc Hu; [by apply elem_of_nil in Hin|].
  cbn [chain] in Hc. destruct Hc as [Hp Hc]. apply elem_of_cons in Hin as [E|Hin].
  - simplify_eq. unfold may_enter in Ht. by rewrite Hp in Ht.
  - apply (IH Hin (fun j u Hj => Hq j u (list_elem_of_further _ _ _ Hj)) u' Hc). apply (Hq j' u'). left.
Qed.

Lemma callers_queue s T Q i key t b : queues_ok s T Q -> T !! i = Some (Caller key t b) -> b = true ->
  exists l q, locks s !! key = Some l /\ Q key = (i, t) :: q.
Proof.
  intros H Hi ->. destruct (q_callers _ _ _ H i _ Hi) as [Hin Ht]. cbn [c_key c_ticket c_in] in *.
  destruct (q_some _ _ _ H key) as [l Hl]; [intros E; rewrite E in Hin; by apply elem_of_nil in Hin|].
  destruct (entered_heads s T Q key l i t H Hl Hin (Ht eq_refl)) as [q Hq]. by exists l, q.
Qed.

(** Two running sections of one key are one section. *)
Lemma locks_exclusive s T i j key t u : locks_ok s T ->
  T !! i = Some (Caller key t true) -> T !! j = Some (Caller key u true) -> i = j.
Proof.
  intros (Q & H & _) Hi Hj. destruct (callers_queue _ _ _ _ _ _ _ H Hi eq_refl) as (l & q & _ & E1).
  destruct (callers_queue _ _ _ _ _ _ _ H Hj eq_refl) as (l' & q' & _ & E2). congruence.
Qed.

Lemma nodup_releases s T Q key i t q : queues_ok s T Q -> Q key = (i, t) :: q ->
  forall j u, (j, u) ∈ q -> own_release u <> own_release t.
Proof.
  intros H E j u Hj Er. pose proof (q_nodup _ _ _ H key) as Hn. rewrite E in Hn. apply NoDup_cons in Hn as [Hn _].
  destruct (q_members _ _ _ H key i t) as [b Hb]; [rewrite E; left|].
  destruct (q_members _ _ _ H key j u) as [b' Hb']; [rewrite E; by right|].
  assert (j = i) as -> by by eapply (q_releases _ _ _ H). apply Hn. apply list_elem_of_fmap. by exists (i, u).
Qed.

Lemma release_ok s T i key t : locks_ok s T -> T !! i = Some (Caller key t true) ->
  locks_ok (release key t s) (delete i T).
Proof.
  intros (Q & H & Hlive) Hi. destruct (callers_queue _ _ _ _ _ _ _ H Hi eq_refl) as (l & q & Hl & Eq).
  destruct (q_lock _ _ _ H key l Hl) as (Hlt & Hf & p & o & Ho & Hp & Hc & Hw). rewrite Eq in Hf, Hc, Hw.
  apply Forall_cons in Hf as [Hlock Hf]. cbn [snd] in Hlock. destruct Hc as [Hpred Hc].
  pose proof (nodup_releases s T Q key i t q H Eq) as Hfresh.
  assert (Hother : forall key' j u, (j, u) ∈ Q key' -> j <> i -> own_release u <> own_release t).
  { intros key' j u Hu Hne Er. destruct (q_members _ _ _ H key' j u Hu) as [b Hb]. by eapply Hne, (q_releases _ _ _ H). }
  assert (Hheads : forall key' j u, (j, u) ∈ set_queue Q key q key' -> (j, u) ∈ Q key' /\ j <> i).
  { intros key' j u Hu. destruct (decide (key' = key)) as [->|Hk].
    - rewrite set_queue_same in Hu. rewrite Eq. split; [by right|]. intros ->.
      pose proof (q_nodup _ _ _ H key) as Hn. rewrite Eq in Hn. apply NoDup_cons in Hn as [Hn _].
      apply Hn, list_elem_of_fmap. by exists (i, u).
    - rewrite set_queue_other in Hu by done. split; [done|]. intros ->.
      destruct (q_members _ _ _ H key' i u Hu) as [b Hb]. congruence. }
  assert (Hlocks : forall key' l', locks (release key t s) !! key' = Some l' -> locks s !! key' = Some l' /\
      (key' = key -> q <> [])).
  { intros key' l'. unfold release. cbn [locks]. rewrite Hlock, Ho. cbn [default from_option id waiters].
    rewrite (bool_decide_eq_true_2 (locks s !! key = Some l)) by done. rewrite andb_true_r, Hw.
    cbn [length]. replace (S (length q) - 1)%nat with (length q) by lia. case_bool_decide as Eb.
    - rewrite lookup_delete_Some. intros [Hne Hl']. by split.
    - intros Hl'. split; [done|]. intros _ ->. by apply Eb. }
  exists (set_queue Q key q). split; [split|].
  - intros key' Hne. destruct (decide (key' = key)) as [->|Hk].
    + rewrite set_queue_same in Hne. exists l. unfold release. cbn [locks]. rewrite Hlock, Ho.
      cbn [default from_option id waiters]. rewrite Hw. cbn [length]. rewrite (bool_decide_eq_false_2 (_ = 0%nat)); [done|].
      destruct q; [done|]. cbn [length]. lia.
    + rewrite set_queue_other in Hne by done. destruct (q_some _ _ _ H key' Hne) as [l' Hl']. exists l'.
      unfold release. cbn [locks]. case_match; [|done]. by rewrite lookup_delete_ne.
  - intros key' l' Hl'. apply Hlocks in Hl' as [Hl' Hq].
    unfold release. cbn [heap resolved next_id]. rewrite Hlock, Ho. cbn [default from_option id tail waiters].
    destruct (decide (key' = key)) as [->|Hk].
    + assert (l' = l) as -> by congruence. rewrite set_queue_same. split; [done|]. split; [done|].
      exists (own_release t), (Lock (tail o) (waiters o - 1)). rewrite lookup_insert_eq. split; [done|].
      split; [set_solver|]. split; [done|]. cbn [waiters]. rewrite Hw. cbn [length]. lia.
    + rewrite set_queue_other by done. destruct (q_lock _ _ _ H key' l' Hl') as (Hlt' & Hf' & p' & o1 & Ho1 & Hp1 & Hr).
      split; [done|]. split; [done|]. exists p', o1. rewrite lookup_insert_ne.
      * split; [done|]. split; [set_solver|done].
      * intros <-. by apply Hk, (q_locks_inj _ _ _ H key' key l).
  - intros j c. rewrite lookup_delete_Some. intros [Hne Hj]. destruct (q_callers _ _ _ H j c Hj) as [Hin He]. split.
    + destruct (decide (c_key c = key)) as [E|Hk]; [|by rewrite set_queue_other].
      rewrite E, set_queue_same. rewrite E, Eq in Hin. apply elem_of_cons in Hin as [?|?]; [by simplify_eq|done].
    + intros Hb. specialize (He Hb). unfold may_enter, release in *. cbn [resolved]. set_solver.
  - intros key' j u [Hu Hne]%Hheads. destruct (q_members _ _ _ H key' j u Hu) as [b Hb]. exists b.
    by rewrite lookup_delete_ne by congruence.
  - intros key'. destruct (decide (key' = key)) as [->|Hk]; [|rewrite set_queue_other by done; by apply (q_nodup _ _ _ H)].
    rewrite set_queue_same. pose proof (q_nodup _ _ _ H key) as Hn. rewrite Eq in Hn. by apply NoDup_cons in Hn as [_ Hn].
  - intros key'. destruct (decide (key' = key)) as [->|Hk]; [|rewrite set_queue_other by done; by apply (q_sorted _ _ _ H)].
    rewrite set_queue_same. pose proof (q_sorted _ _ _ H key) as Hn. rewrite Eq in Hn. by inversion Hn.
  - intros key' j u [Hu Hne]%Hheads. destruct (q_pending _ _ _ H key' j u Hu) as [Hr Hn]. split; [|done].
    unfold release. cbn [resolved]. rewrite elem_of_union, elem_of_singleton. intros [?|?]; [|done]. by eapply Hother.
  - intros j1 j2 c d. rewrite !lookup_delete_Some. intros [_ H1] [_ H2]. by eapply (q_releases _ _ _ H).
  - intros k1 k2 l' [H1 _]%Hlocks [H2 _]%Hlocks. by eapply (q_locks_inj _ _ _ H).
  - intros p'. unfold release. cbn [resolved next_id]. rewrite elem_of_union, elem_of_singleton. intros [->|Hr].
    + apply (q_pending _ _ _ H key i t). rewrite Eq. left.
    + by apply (q_resolved _ _ _ H).
  - intros key'. destruct (decide (key' = key)) as [->|Hk].
    + rewrite set_queue_same. unfold release. cbn [locks]. rewrite Hlock, Ho. cbn [default from_option id waiters].
      rewrite (bool_decide_eq_true_2 (locks s !! key = Some l)) by done. rewrite andb_true_r, Hw. cbn [length].
      replace (S (length q) - 1)%nat with (length q) by lia. case_bool_decide as Eb.
      * rewrite lookup_delete_eq. split; [|done]. intros _. by apply nil_length_inv.
      * split; [congruence|]. intros ->. by destruct Eb.
    + rewrite set_queue_other by done. rewrite <- Hlive. unfold release. cbn [locks]. case_match; [|done].
      by rewrite lookup_delete_ne.
Qed.

Lemma lock_step_ok s T s' T' : lock_step (s, T) (s', T') -> locks_ok s T -> locks_ok s' T'.
Proof.
  intros Hs Hok. inversion Hs; subst.
  - by apply register_ok.
  - by eapply enter_ok.
  - by apply release_ok.
Qed.

Lemma lock_steps_ok st st' : rtc lock_step st st' -> locks_ok st.1 st.2 -> locks_ok st'.1 st'.2.
Proof. induction 1 as [|[s T] [s' T'] [s2 T2] Hs _ IH]; [done|]. intros Hok. apply IH. by eapply lock_step_ok. Qed.

(** The running section is the oldest call of its key. *)
Lemma running_is_oldest s T i j key t u b : locks_ok s T ->
  T !! i = Some (Caller key t true) -> T !! j = Some (Caller key u b) -> (own_release t <= own_release u)%nat.
Proof.
  intros (Q & H & _) Hi Hj. destruct (callers_queue _ _ _ _ _ _ _ H Hi eq_refl) as (l & q & _ & E).
  destruct (q_callers _ _ _ H j _ Hj) as [Hin _]. cbn [c_key c_ticket] in Hin.
  pose proof (q_sorted _ _ _ H key) as Hs. rewrite E in Hs, Hin. rewrite fmap_cons in Hs. inversion Hs as [|?? _ Hf]; subst.
  apply elem_of_cons in Hin as [?|Hin]; [by simplify_eq|]. rewrite Forall_fmap, Forall_forall in Hf.
  apply Hf in Hin. cbn in Hin. lia.
Qed.

(** While a key has callers, one of them runs or can start. *)
Lemma some_caller_runs s T i c : locks_ok s T -> T !! i = Some c ->
  exists j t b, T !! j = Some (Caller (c_key c) t b) /\ may_enter t s.
Proof.
  intros (Q & H & _) Hi. destruct (q_callers _ _ _ H i c Hi) as [Hin _].
  destruct (Q (c_key c)) as [|[j t] q] eqn:E; [by apply elem_of_nil in Hin|].
  destruct (q_some _ _ _ H (c_key c)) as [l Hl]; [by rewrite E|].
  destruct (q_lock _ _ _ H _ l Hl) as (_ & _ & p & o & _ & Hp & Hc & _). rewrite E in Hc. destruct Hc as [Hc _].
  destruct (q_members _ _ _ H (c_key c) j t) as [b Hb]; [rewrite E; left|]. exists j, t, b. split; [done|].
  unfold may_enter. by rewrite Hc.
Qed.

Lemma live_entries s T key : locks_ok s T ->
  is_Some (locks s !! key) <-> exists i c, T !! i = Some c /\ c_key c = key.
Proof.
  intros (Q & H & Hlive). rewrite <- not_eq_None_Some, Hlive. split.
  - intros Hne. destruct (Q key) as [|[i t] q] eqn:E; [done|].
    destruct (q_members _ _ _ H key i t) as [b Hb]; [rewrite E; left|]. by exists i, (Caller key t b).
  - intros (i & c & Hi & <-) E. destruct (q_callers _ _ _ H i c Hi) as [Hin _]. rewrite E in Hin. by apply elem_of_nil in Hin.
Qed.

(** C38: In every interleaving of calls, [withKeyLock] runs at most one section per lock key,
    the oldest call of the key; as long as a key has callers one of them runs or can
    start (no deadlock, also after a section that threw); and the module holds an entry for
    exactly the keys that have callers, so none is left once they have drained. *)
Theorem key_lock_is_fifo_mutex s T : rtc lock_step (no_locks, empty) (s, T) ->
  (forall i j key t u, T !! i = Some (Caller key t true) -> T !! j = Some (Caller key u true) -> i = j) /\
  (forall i j key t u b, T !! i = Some (Caller key t true) -> T !! j = Some (Caller key u b) ->
     (own_release t <= own_release u)%nat) /\
  (forall i c, T !! i = Some c -> exists j t b, T !! j = Some (Caller (c_key c) t b) /\ may_enter t s) /\
  (forall key, is_Some (locks s !! key) <-> exists i c, T !! i = Some c /\ c_key c = key) /\
  (T = empty -> keyLockCount s = 0%nat).
Proof.
  intros Hr. assert (Hok : locks_ok s T) by (apply lock_steps_ok in Hr; [done|apply locks_ok_init]).
  split; [intros *; by apply (locks_exclusive s)|]. split; [intros *; by apply (running_is_oldest s T)|].
  split; [intros i c; by apply (some_caller_runs s T i c)|]. split; [intros key; by apply live_entries|].
  intros ->. unfold keyLockCount. apply map_size_empty_iff, map_empty. intros key.
  apply eq_None_not_Some. rewrite (live_entries s empty key Hok). intros (i & c & Hi & _). by rewrite lookup_empty in Hi.
Qed.

(** Two calls of one key: the second waits while the first runs. *)
Definition two_calls : lock_state * callers :=
  let s1 := (register (js "k") no_locks).2 in
  let t1 := (register (js "k") no_locks).1 in
  ((register (js "k") s1).2,
   (<[1%nat := Caller (js "k") ((register (js "k") s1).1) false]> (<[0%nat := Caller (js "k") t1 true]> empty))).

Lemma key_lock_is_fifo_mutex_witness :
  (exists j t b, two_calls.2 !! j = Some (Caller (js "k") t b) /\ may_enter t two_calls.1).
Proof.
  assert (Hr : rtc lock_step (no_locks, empty) two_calls).
  { eapply rtc_l; [apply (call_arrives no_locks empty 0%nat (js "k")); reflexivity|].
    eapply rtc_l; [eapply (call_enters _ _ 0%nat); [apply lookup_insert_eq|vm_compute; reflexivity]|].
    eapply rtc_l; [eapply (call_arrives _ _ 1%nat (js "k")); vm_compute; reflexivity|].
    rewrite insert_insert_eq. apply rtc_refl. }
  pose proof (key_lock_is_fifo_mutex two_calls.1 two_calls.2 Hr) as (_ & _ & Hp & _).
  apply (Hp 1%nat (Caller (js "k") ((register (js "k") (register (js "k") no_locks).2).1) false)).
  apply lookup_insert_eq.
Defined.
