(* ===== verification/FileSystem.v ===== *)
(** * The file system the local adapter writes to

    What the source uses of [node:fs/promises]: a tree of named directories and files
    below one root, with the calls the adapter makes of it.  A name is looked up by its
    image under the file system's folding ([fold_name], the identity where names are
    compared byte by byte), and [readdir] reports it as it was first spelled.  Each call
    is one atomic step: that holds of [link], [rename], [rm], [stat] and [readdir] of one
    directory, of [readFile] because a file is replaced and never rewritten, and of
    [writeFile] because the adapter only writes files nobody else names yet. *)
From S2P Require Import Prelude JsText JsValue Errors Json Storage.

Inductive errno := ENOENT | ENOTDIR | EISDIR | EEXIST | ENAMETOOLONG | EOTHER.

Global Instance errno_eq_decision : EqDecision errno.
Proof. solve_decision. Defined.

Inductive node := Dir | File (content : bytes).

(** A path below the root, by its names; the root itself is [[]]. *)
Abbreviation path := (list jsstr).

Record entry := Entry { spelled : jsstr; what : node }.

(** Entries by their folded path. *)
Abbreviation disk := (gmap path entry).

Section calls.
Context (fold_name : jsstr -> jsstr).

Definition fold_path (p : path) : path := fold_name <$> p.

Definition NAME_LIMIT : nat := 255.

Definition is_directory (d : disk) (q : path) : bool :=
  match d !! q with Some (Entry _ Dir) => true | _ => false end.

(** The first obstacle on the way to [q], if any, reading its ancestors from the root. *)
Fixpoint blocked (d : disk) (before after : path) : option errno :=
  match after with
  | [] => None
  | name :: rest =>
    match d !! before with
    | None => Some ENOENT
    | Some (Entry _ (File _)) => Some ENOTDIR
    | Some (Entry _ Dir) => blocked d (before ++ [name]) rest
    end
  end.

(** The folded path, or the error of looking it up. *)
Definition resolve (d : disk) (p : path) : errno + path :=
  if existsb (fun n => NAME_LIMIT <? length (utf8_encode n)) p then inl ENAMETOOLONG
  else match blocked d [] (fold_path p) with
       | Some e => inl e
       | None => inr (fold_path p)
       end.

(** A new entry keeps the spelling of the one it replaces. *)
Definition set_file (d : disk) (q : path) (name : jsstr) (b : bytes) : disk :=
  <[q := Entry (match d !! q with Some o => spelled o | None => name end) (File b)]> d.

Definition name_of (p : path) : jsstr := default [] (last p).

Definition fs_readFile (p : path) (d : disk) : errno + bytes :=
  match resolve d p with
  | inl e => inl e
  | inr q => match d !! q with
             | None => inl ENOENT
             | Some (Entry _ Dir) => inl EISDIR
             | Some (Entry _ (File b)) => inr b
             end
  end.

(** The file written, where it can be opened. *)
Definition fs_writeFile (p : path) (b : bytes) (d : disk) : errno + disk :=
  match resolve d p with
  | inl e => inl e
  | inr q => if is_directory d q then inl EISDIR else inr (set_file d q (name_of p) b)
  end.

(** [link(existing, new)]: exclusive. *)
Definition fs_link (p p' : path) (d : disk) : errno + disk :=
  match fs_readFile p d, resolve d p' with
  | inl e, _ | _, inl e => inl e
  | inr b, inr q => match d !! q with
                    | Some _ => inl EEXIST
                    | None => inr (set_file d q (name_of p') b)
                    end
  end.

(** [rename(old, new)] of a file: replaces a file, refuses a directory. *)
Definition fs_rename (p p' : path) (d : disk) : errno + disk :=
  match fs_readFile p d, resolve d p' with
  | inl e, _ | _, inl e => inl e
  | inr b, inr q =>
    if is_directory d q then inl EISDIR
    else inr (if bool_decide (q = fold_path p) then d else delete (fold_path p) (set_file d q (name_of p') b))
  end.

(** [rm(path)] without [recursive]. *)
Definition fs_rm (p : path) (d : disk) : errno + disk :=
  match resolve d p with
  | inl e => inl e
  | inr q => match d !! q with
             | None => inl ENOENT
             | Some (Entry _ Dir) => inl EISDIR
             | Some (Entry _ (File _)) => inr (delete q d)
             end
  end.

(** [mkdir(path, { recursive: true })]: the directories created from the root down, and
    the error of the first ancestor that is a file. *)
Fixpoint mkdir_loop (before : path) (name : jsstr) (after : path) (d : disk) : option errno * disk :=
  match d !! before with
  | Some (Entry _ (File _)) => (Some (if bool_decide (after = []) then EEXIST else ENOTDIR), d)
  | found =>
    let d' := match found with None => <[before := Entry name Dir]> d | Some _ => d end in
    match after with
    | [] => (None, d')
    | n :: rest => mkdir_loop (before ++ [fold_name n]) n rest d'
    end
  end.

Definition fs_mkdir (p : path) (d : disk) : (errno + unit) * disk :=
  let (e, d') := mkdir_loop [] [] p d in (match e with Some e => inl e | None => inr tt end, d').

(** [readdir(path, { withFileTypes: true })]: names, and whether each is a directory. *)
Definition fs_readdir (p : path) (d : disk) : errno + list (jsstr * bool) :=
  match resolve d p with
  | inl e => inl e
  | inr q => match d !! q with
             | None => inl ENOENT
             | Some (Entry _ (File _)) => inl ENOTDIR
             | Some (Entry _ Dir) =>
               inr ((fun qe : path * entry => (spelled qe.2, match what qe.2 with Dir => true | File _ => false end)) <$>
                    filter (fun qe : path * entry => qe.1 <> [] /\ removelast qe.1 = q) (map_to_list d))
             end
  end.

(** [stat(path)]: the identity of the file or directory, which two paths share exactly
    when the file system resolves them to one entry. *)
Definition fs_stat (p : path) (d : disk) : errno + path :=
  match resolve d p with
  | inl e => inl e
  | inr q => match d !! q with None => inl ENOENT | Some _ => inr q end
  end.

End calls.

(** ** What the calls do to the tree *)

Definition body_at (d : disk) (q : path) : option bytes :=
  match d !! q with Some (Entry _ (File b)) => Some b | _ => None end.

(** Every entry but the root has a directory above it. *)
Definition tree_ok (d : disk) : Prop :=
  forall q n, d !! (q ++ [n]) <> None -> is_directory d q = true.

Lemma tree_prefix d q r : tree_ok d -> d !! (q ++ r) <> None -> r <> [] -> is_directory d q = true.
Proof.
  intros Ht. revert q. induction r as [|n r IH] using rev_ind; intros q Hq Hr; [done|].
  rewrite app_assoc in Hq. apply Ht in Hq. destruct (decide (r = [])) as [->|Hne]; [by rewrite app_nil_r in Hq|].
  apply IH; [|done]. unfold is_directory in Hq. by destruct (d !! (q ++ r)).
Qed.

(** *** One entry written or removed, no directory touched *)

(** [d'] differs from [d] at [q] only, where neither has a directory. *)
Definition writes (d : disk) (q : path) (d' : disk) : Prop :=
  (forall r, r <> q -> d' !! r = d !! r) /\ is_directory d q = false /\ is_directory d' q = false.

Lemma writes_directory d q d' r : writes d q d' -> is_directory d' r = is_directory d r.
Proof.
  intros (Ho & H1 & H2). destruct (decide (r = q)) as [->|Hne]; [congruence|]. unfold is_directory. by rewrite Ho.
Qed.

Lemma writes_body d q d' r : writes d q d' -> r <> q -> body_at d' r = body_at d r.
Proof. intros (Ho & _) Hne. unfold body_at. by rewrite Ho. Qed.

Lemma writes_insert d q nm b : is_directory d q = false -> writes d q (<[q := Entry nm (File b)]> d).
Proof.
  intros Hd. split; [|split; [done|]].
  - intros r Hne. by apply lookup_insert_ne.
  - unfold is_directory. by rewrite lookup_insert_eq.
Qed.

Lemma writes_delete d q : is_directory d q = false -> writes d q (delete q d).
Proof.
  intros Hd. split; [|split; [done|]].
  - intros r Hne. by apply lookup_delete_ne.
  - unfold is_directory. by rewrite lookup_delete_eq.
Qed.

(** Writing below a directory keeps the tree. *)
Lemma writes_tree d q d' : tree_ok d -> writes d q d' ->
  (d' !! q = None \/ forall q0 n, q = q0 ++ [n] -> is_directory d q0 = true) -> tree_ok d'.
Proof.
  intros Ht Hw Hq r n Hr. rewrite (writes_directory _ _ _ _ Hw). destruct (decide (r ++ [n] = q)) as [E|Hne].
  - destruct Hq as [Hq|Hq]; [congruence|]. by apply (Hq r n).
  - apply (Ht r n). by rewrite <- (proj1 Hw).
Qed.

Section lemmas.
Context (fold_name : jsstr -> jsstr).

Lemma blocked_none d before after q n : blocked d before (after ++ [n]) = None -> q = before ++ after -> is_directory d q = true.
Proof.
  revert before. induction after as [|m after IH]; intros before; cbn [app blocked].
  - intros H ->. rewrite app_nil_r. unfold is_directory. destruct (d !! before) as [[? [|]]|]; done.
  - destruct (d !! before) as [[? [|]]|]; try done. intros H ->. apply (IH (before ++ [m])); [done|]. by rewrite <- app_assoc.
Qed.

(** The parent of a path that resolves is a directory. *)
Lemma resolve_parent d p q q0 n : resolve fold_name d p = inr q -> q = q0 ++ [n] -> is_directory d q0 = true.
Proof.
  unfold resolve. destruct (existsb _ p); [done|]. destruct (blocked _ _ _) eqn:E; [done|]. intros [= Hf] Eq.
  rewrite Hf, Eq in E. by eapply blocked_none.
Qed.

Lemma resolve_path d p q : resolve fold_name d p = inr q -> q = fold_path fold_name p.
Proof. unfold resolve. destruct (existsb _ p); [done|]. destruct (blocked _ _ _); [done|]. congruence. Qed.

Lemma resolve_errors d p e : resolve fold_name d p = inl e -> e = ENAMETOOLONG \/ e = ENOENT \/ e = ENOTDIR.
Proof.
  unfold resolve. destruct (existsb _ p); [naive_solver|].
  assert (H : forall after before e, blocked d before after = Some e -> e = ENOENT \/ e = ENOTDIR).
  { induction after as [|n after IH]; intros before e'; cbn [blocked]; [done|].
    destruct (d !! before) as [[? [|]]|]; [apply IH|naive_solver..]. }
  destruct (blocked _ _ _) eqn:E; [|done]. apply H in E. intros. simplify_eq. tauto.
Qed.

Lemma readFile_body d p b : fs_readFile fold_name p d = inr b -> body_at d (fold_path fold_name p) = Some b.
Proof.
  unfold fs_readFile, body_at. destruct (resolve fold_name d p) as [e|q] eqn:E; [done|]. apply resolve_path in E as ->.
  destruct (d !! _) as [[? [|]]|]; congruence.
Qed.

(** An ancestor that is missing or a directory, on a path without long names. *)
Lemma blocked_missing d before after : tree_ok d ->
  (forall r, r `prefix_of` after -> r <> after -> body_at d (before ++ r) = None) ->
  blocked d before after = None \/ (blocked d before after = Some ENOENT /\ d !! (before ++ after) = None).
Proof.
  intros Ht. revert before. induction after as [|n after IH]; intros before Hf; cbn [blocked]; [by left|].
  pose proof (Hf [] ltac:(apply prefix_nil) ltac:(done)) as H0. rewrite app_nil_r in H0. unfold body_at in H0.
  destruct (d !! before) as [[? [|]]|] eqn:E; [|done|].
  - destruct (IH (before ++ [n])) as [?|[? ?]]; [|by left|right; split; [done|by rewrite <- app_assoc in *]].
    intros r Hr Hne. rewrite <- app_assoc. apply (Hf (n :: r)); [by apply prefix_cons|congruence].
  - right. split; [done|]. destruct (d !! (before ++ n :: after)) eqn:E'; [|done]. exfalso.
    assert (Hd : is_directory d before = true) by (apply (tree_prefix d before (n :: after)); [done|by rewrite E'|done]).
    unfold is_directory in Hd. by rewrite E in Hd.
Qed.

Lemma mkdir_one d q nm : tree_ok d -> d !! q = None -> (forall q0 n, q = q0 ++ [n] -> is_directory d q0 = true) ->
  tree_ok (<[q := Entry nm Dir]> d).
Proof.
  intros Ht Hq Hp r m Hr. assert (Hd : is_directory d r = true).
  { destruct (decide (r ++ [m] = q)) as [E|Hne]; [by apply (Hp r m)|]. rewrite lookup_insert_ne in Hr by done. by apply (Ht r m). }
  unfold is_directory in *. destruct (decide (r = q)) as [->|Hne]; [by rewrite Hq in Hd|]. by rewrite lookup_insert_ne.
Qed.

(** What [mkdir] adds: directories on the path. *)
Definition grows (d d' : disk) (new : path -> Prop) : Prop :=
  tree_ok d' /\ (forall q, d !! q <> None -> d' !! q = d !! q) /\
  forall q, d !! q = None -> d' !! q <> None -> is_directory d' q = true /\ new q.

Lemma grows_refl d new : tree_ok d -> grows d d new.
Proof. intros Ht. split; [done|]. split; [done|]. congruence. Qed.

Lemma mkdir_loop_grows p : forall before name d, tree_ok d ->
  (forall q0 n, before = q0 ++ [n] -> is_directory d q0 = true) ->
  grows d (mkdir_loop fold_name before name p d).2
    (fun q => exists r, r `prefix_of` fold_path fold_name p /\ q = before ++ r).
Proof.
  assert (Hone : forall before name d p, d !! before = None -> tree_ok d ->
    (forall q0 n, before = q0 ++ [n] -> is_directory d q0 = true) ->
    grows d (<[before := Entry name Dir]> d) (fun q => exists r, r `prefix_of` fold_path fold_name p /\ q = before ++ r)).
  { clear p. intros before name d p E Ht Hb. split; [by apply mkdir_one|]. split.
    - intros q Hq. rewrite lookup_insert_ne; [done|congruence].
    - intros q Hq Hq'. destruct (decide (q = before)) as [->|Hne]; [|by rewrite lookup_insert_ne in Hq'].
      unfold is_directory. rewrite lookup_insert_eq. split; [done|]. exists []. rewrite app_nil_r. split; [apply prefix_nil|done]. }
  induction p as [|n p IH]; intros before name d Ht Hb; cbn [mkdir_loop].
  { destruct (d !! before) as [[? [|]]|] eqn:E; cbn [snd]; [by apply grows_refl..|by apply Hone]. }
  assert (Hstep : forall d1, grows d d1 (fun q => exists r, r `prefix_of` fold_path fold_name (n :: p) /\ q = before ++ r) ->
    is_directory d1 before = true ->
    grows d (mkdir_loop fold_name (before ++ [fold_name n]) n p d1).2
      (fun q => exists r, r `prefix_of` fold_path fold_name (n :: p) /\ q = before ++ r)).
  { intros d1 (Ht1 & Hk1 & Hn1) Hd1. destruct (IH (before ++ [fold_name n]) n d1 Ht1) as (Ht2 & Hk2 & Hn2).
    { intros q0 m E. apply app_inj_tail in E as [<- _]. done. }
    split; [done|]. split.
    - intros q Hq. rewrite Hk2; [by apply Hk1|]. by rewrite Hk1.
    - intros q Hq Hq'. destruct (d1 !! q) as [o|] eqn:E1.
      + destruct (Hn1 q Hq) as [Hd Hr]; [by rewrite E1|]. split; [|done]. unfold is_directory. rewrite Hk2 by (by rewrite E1).
        exact Hd.
      + destruct (Hn2 q E1 Hq') as [Hd (r & Hr & ->)]. split; [done|]. exists (fold_name n :: r). rewrite <- app_assoc.
        split; [|done]. by apply prefix_cons. }
  destruct (d !! before) as [[nm [|b]]|] eqn:E.
  - apply Hstep; [by apply grows_refl|]. unfold is_directory. by rewrite E.
  - by apply grows_refl.
  - apply Hstep; [by apply Hone|]. unfold is_directory. by rewrite lookup_insert_eq.
Qed.

Lemma mkdir_grows p d : tree_ok d -> grows d (fs_mkdir fold_name p d).2 (fun q => q `prefix_of` fold_path fold_name p).
Proof.
  intros Ht. unfold fs_mkdir. destruct (mkdir_loop_grows p [] [] d Ht) as (H1 & H2 & H3).
  { intros q0 n E. by destruct q0. }
  destruct (mkdir_loop fold_name [] [] p d) as [e d']. cbn [snd] in *. split; [done|]. split; [done|].
  intros q Hq Hq'. destruct (H3 q Hq Hq') as [Hd (r & Hr & ->)]. by split.
Qed.

(** *** The calls that write *)

Lemma writeFile_writes p b d d' : tree_ok d -> fs_writeFile fold_name p b d = inr d' ->
  writes d (fold_path fold_name p) d' /\ tree_ok d' /\ body_at d' (fold_path fold_name p) = Some b.
Proof.
  intros Ht. unfold fs_writeFile. destruct (resolve fold_name d p) as [e|q] eqn:E; [done|].
  destruct (is_directory d q) eqn:Ed; [done|]. intros [= <-]. pose proof (resolve_path _ _ _ E) as ->.
  assert (Hw : writes d (fold_path fold_name p) (set_file d (fold_path fold_name p) (name_of p) b)) by (by apply writes_insert).
  split; [done|]. split.
  - eapply writes_tree; [done..|]. right. intros q0 n Eq. by eapply resolve_parent.
  - unfold body_at, set_file. by rewrite lookup_insert_eq.
Qed.

Lemma link_writes p p' d d' : tree_ok d -> fs_link fold_name p p' d = inr d' ->
  exists b, body_at d (fold_path fold_name p) = Some b /\ d !! fold_path fold_name p' = None /\
    writes d (fold_path fold_name p') d' /\ tree_ok d' /\ body_at d' (fold_path fold_name p') = Some b.
Proof.
  intros Ht. unfold fs_link. destruct (fs_readFile fold_name p d) as [|b] eqn:Er; [done|].
  destruct (resolve fold_name d p') as [|q] eqn:E; [done|]. destruct (d !! q) eqn:Eq; [done|]. intros [= <-].
  pose proof (resolve_path _ _ _ E) as ->. exists b. split; [by apply readFile_body|]. split; [done|].
  assert (Hd : is_directory d (fold_path fold_name p') = false) by (unfold is_directory; by rewrite Eq).
  assert (Hw : writes d (fold_path fold_name p') (set_file d (fold_path fold_name p') (name_of p') b)) by by apply writes_insert.
  split; [done|]. split.
  - eapply writes_tree; [done..|]. right. intros q0 n E'. by eapply resolve_parent.
  - unfold body_at, set_file. by rewrite lookup_insert_eq.
Qed.

Lemma link_exists p p' d : fs_link fold_name p p' d = inl EEXIST -> d !! fold_path fold_name p' <> None.
Proof.
  unfold fs_link. destruct (fs_readFile fold_name p d) as [e|b] eqn:Er.
  - intros [= ->]. unfold fs_readFile in Er. destruct (resolve fold_name d p) as [e|q] eqn:E.
    + apply resolve_errors in E. naive_solver.
    + destruct (d !! q) as [[? [|]]|]; done.
  - destruct (resolve fold_name d p') as [e|q] eqn:E.
    + intros [= ->]. apply resolve_errors in E. naive_solver.
    + apply resolve_path in E as ->. by destruct (d !! _).
Qed.

Lemma rm_writes p d d' : tree_ok d -> fs_rm fold_name p d = inr d' ->
  writes d (fold_path fold_name p) d' /\ tree_ok d' /\ body_at d' (fold_path fold_name p) = None.
Proof.
  intros Ht. unfold fs_rm. destruct (resolve fold_name d p) as [e|q] eqn:E; [done|]. apply resolve_path in E as ->.
  destruct (d !! fold_path fold_name p) as [[nm [|b]]|] eqn:Eq; [done| |done]. intros [= <-].
  assert (Hw : writes d (fold_path fold_name p) (delete (fold_path fold_name p) d)).
  { apply writes_delete. unfold is_directory. by rewrite Eq. }
  split; [done|]. split.
  - eapply writes_tree; [done..|]. left. apply lookup_delete_eq.
  - unfold body_at. by rewrite lookup_delete_eq.
Qed.

Lemma rename_writes p p' d d' : tree_ok d -> fs_rename fold_name p p' d = inr d' -> fold_path fold_name p <> fold_path fold_name p' ->
  exists b d1, body_at d (fold_path fold_name p) = Some b /\ tree_ok d' /\
    writes d (fold_path fold_name p') d1 /\ writes d1 (fold_path fold_name p) d' /\
    body_at d' (fold_path fold_name p') = Some b.
Proof.
  intros Ht. unfold fs_rename. destruct (fs_readFile fold_name p d) as [|b] eqn:Er; [done|].
  destruct (resolve fold_name d p') as [|q] eqn:E; [done|]. pose proof (resolve_path _ _ _ E) as ->.
  destruct (is_directory d (fold_path fold_name p')) eqn:Ed; [done|]. intros H Hne.
  rewrite bool_decide_eq_false_2 in H by congruence. injection H as <-.
  set (d1 := set_file d (fold_path fold_name p') (name_of p') b).
  apply readFile_body in Er. assert (Hw1 : writes d (fold_path fold_name p') d1) by by apply writes_insert.
  assert (Ht1 : tree_ok d1) by (eapply writes_tree; [done..|]; right; intros q0 n E'; by eapply resolve_parent).
  assert (Hw2 : writes d1 (fold_path fold_name p) (delete (fold_path fold_name p) d1)).
  { apply writes_delete. rewrite (writes_directory _ _ _ _ Hw1). unfold body_at, is_directory in *.
    by destruct (d !! fold_path fold_name p) as [[? [|]]|]. }
  exists b, d1. split; [done|]. split; [eapply writes_tree; [done..|]; left; apply lookup_delete_eq|].
  split; [done|]. split; [done|]. rewrite (writes_body _ _ _ _ Hw2) by congruence.
  unfold body_at, d1, set_file. by rewrite lookup_insert_eq.
Qed.

End lemmas.
