(* ===== verification/LocalFs.v ===== *)
(** * The local file-system adapter (dev/src/local-fs.ts)

    [LocalFsStorage]: [get], [put], [delete] and [list] with the format check they start
    with, as programs over the calls of FileSystem.v and the mutex of KeyLock.v.  Every
    call is one step that other operations may interleave with; the state they share is
    the disk, the module's locks, each instance's memo fields and the staging names
    handed out.  The bucket root is one directory, which instances may spell differently. *)
From stdpp Require Import sorting.
From S2P Require Import Prelude JsText JsValue Errors Json Storage KeyCodec KeyLock FileSystem.

Definition TEMP_PREFIX : jsstr := js ".baerly-tmp-".
Definition FORMAT_MARKER : jsstr := js ".baerly-localfs.json".
Definition KEY_ENCODING : Z := 1.

(** ** The shared state and its calls *)

(** An instance: its identity and the root it was given. *)
Record instance := Instance { inst_id : nat; root : jsstr }.

(** [#realRoot] and [#formatChecked]. *)
Record memo := Memo { realRoot : option jsstr; formatChecked : bool }.

Record sys := Sys {
  files : disk;
  mutexes : lock_state;
  memos : gmap nat memo;
  temps : gset jsstr
}.

Definition memo_of (i : instance) (s : sys) : memo := default (Memo None false) (memos s !! inst_id i).

Definition with_files (d : disk) (s : sys) : sys := Sys d (mutexes s) (memos s) (temps s).
Definition with_mutexes (l : lock_state) (s : sys) : sys := Sys (files s) l (memos s) (temps s).

(** One call, by the type of its answer. *)
Inductive call : Type -> Type :=
| ReadFile (p : path) : call (errno + bytes)
| WriteFile (p : path) (b : bytes) : call (errno + unit)
| Link (p p' : path) : call (errno + unit)
| Rename (p p' : path) : call (errno + unit)
| Rm (p : path) : call (errno + unit)
| Mkdir (p : path) : call (errno + unit)
| Readdir (p : path) : call (errno + list (jsstr * bool))
| Stat (p : path) : call (errno + path)
| Realpath : call (errno + jsstr)
| TempName : call jsstr
| Aborted : call bool
| Now : call Z
| ReadMemo (i : instance) : call memo
| SetMemo (i : instance) (f : memo -> memo) : call unit
| Register (key : jsstr) : call ticket
| Await (t : ticket) : call unit
| Release (key : jsstr) (t : ticket) : call unit
| Stuck : call Empty_set.

Inductive fprog (A : Type) :=
| FRet (a : A)
| FThrow (e : js_error)
| FCall {X : Type} (c : call X) (k : X -> fprog A).
Arguments FRet {A} a.
Arguments FThrow {A} e.
Arguments FCall {A X} c k.

Fixpoint fattempt {A B} (p : fprog A) (f : result A -> fprog B) {struct p} : fprog B :=
  match p with
  | FRet a => f (inr a)
  | FThrow e => f (inl e)
  | FCall c k => FCall c (fun x => fattempt (k x) f)
  end.

Definition fbind {A B} (p : fprog A) (f : A -> fprog B) : fprog B :=
  fattempt p (fun r => match r with inl e => FThrow e | inr a => f a end).

(** [try { p } finally { q }] *)
Definition ffinally {A} (p : fprog A) (q : fprog unit) : fprog A :=
  fattempt p (fun r => fbind q (fun _ => match r with inl e => FThrow e | inr a => FRet a end)).

Definition perform {X} (c : call X) : fprog X := FCall c FRet.

Definition of_sum {A} (r : result A) : fprog A := match r with inl e => FThrow e | inr a => FRet a end.

Declare Scope fs_scope.
Delimit Scope fs_scope with fs.
Notation "'let!' x := p 'in' q" := (fbind p (fun x => q))
  (at level 10, x pattern, p at level 200, q at level 200) : fs_scope.
Local Open Scope fs_scope.

(** An [errno] error that leaves the adapter as it is, and one it wraps. *)
Definition raw_error : js_error := OtherError.
Definition wrapped : js_error := new_error_cause InvalidResponse OtherError.

(** [throwIfAborted()]; an absent signal never aborts. *)
Definition throwIfAborted : fprog unit :=
  let! aborted := perform Aborted in if aborted : bool then FThrow AbortError else FRet tt.

Section adapter.
Context (fold_name lower_case normalize_nfc : jsstr -> jsstr).
Context (sha256_hex : bytes -> jsstr) (real_root : jsstr).

(** What a call may answer and do.  Any file-system call may fail for reasons of its own
    ([EOTHER]), having done nothing, except that a failed [writeFile] may leave a partial
    file and a failed recursive [mkdir] some of its directories. *)
Definition call_step {X} (c : call X) : sys -> X -> sys -> Prop :=
  match c with
  | ReadFile p => fun s x s' => s' = s /\ (x = fs_readFile fold_name p (files s) \/ x = inl EOTHER)
  | WriteFile p b => fun s x s' =>
      (exists d, fs_writeFile fold_name p b (files s) = inr d /\ x = inr tt /\ s' = with_files d s) \/
      (exists e, fs_writeFile fold_name p b (files s) = inl e /\ x = inl e /\ s' = s) \/
      (x = inl EOTHER /\ (s' = s \/ exists b' d, fs_writeFile fold_name p b' (files s) = inr d /\ s' = with_files d s))
  | Link p p' => fun s x s' =>
      (exists d, fs_link fold_name p p' (files s) = inr d /\ x = inr tt /\ s' = with_files d s) \/
      (s' = s /\ (x = inl EOTHER \/ exists e, fs_link fold_name p p' (files s) = inl e /\ x = inl e))
  | Rename p p' => fun s x s' =>
      (exists d, fs_rename fold_name p p' (files s) = inr d /\ x = inr tt /\ s' = with_files d s) \/
      (s' = s /\ (x = inl EOTHER \/ exists e, fs_rename fold_name p p' (files s) = inl e /\ x = inl e))
  | Rm p => fun s x s' =>
      (exists d, fs_rm fold_name p (files s) = inr d /\ x = inr tt /\ s' = with_files d s) \/
      (s' = s /\ (x = inl EOTHER \/ exists e, fs_rm fold_name p (files s) = inl e /\ x = inl e))
  | Mkdir p => fun s x s' =>
      (x = (fs_mkdir fold_name p (files s)).1 /\ s' = with_files ((fs_mkdir fold_name p (files s)).2) s) \/
      (x = inl EOTHER /\ exists p0, p0 `prefix_of` p /\ s' = with_files ((fs_mkdir fold_name p0 (files s)).2) s) \/
      (x = inl EOTHER /\ s' = s)
  | Readdir p => fun s x s' => s' = s /\ (x = fs_readdir fold_name p (files s) \/ x = inl EOTHER)
  | Stat p => fun s x s' => s' = s /\ (x = fs_stat fold_name p (files s) \/ x = inl EOTHER)
  | Realpath => fun s x s' => s' = s /\
      (x = (if is_directory (files s) [] then inr real_root else inl ENOENT) \/ x = inl EOTHER)
  | TempName => fun s x s' => (x ∉ temps s) /\ Forall (fun u => u ∈ js "abcdefghijklmnopqrstuvwxyz0123456789-") x /\
      s' = Sys (files s) (mutexes s) (memos s) ({[x]} ∪ temps s)
  | Aborted => fun s x s' => s' = s
  | Now => fun s x s' => s' = s
  | ReadMemo i => fun s x s' => s' = s /\ x = memo_of i s
  | SetMemo i f => fun s x s' => s' = Sys (files s) (mutexes s) (<[inst_id i := f (memo_of i s)]> (memos s)) (temps s)
  | Register key => fun s x s' => x = (register key (mutexes s)).1 /\ s' = with_mutexes ((register key (mutexes s)).2) s
  | Await t => fun s x s' => may_enter t (mutexes s) /\ s' = s
  | Release key t => fun s x s' => s' = with_mutexes (release key t (mutexes s)) s
  | Stuck => fun s x s' => False
  end.

(** [withKeyLock(lockKey, fn)] *)
Definition withKeyLock {A} (key : jsstr) (fn : fprog A) : fprog A :=
  let! t := perform (Register key) in
  let! _ := perform (Await t) in
  ffinally fn (perform (Release key t)).

(** ** Paths *)

(** [join(root, ...components)] of a resolved root, and [dirname]. *)
Definition path_text (base : jsstr) (p : path) : jsstr :=
  (if bool_decide (base = [slash]) then [] else base) ++ mjoin ((fun n => slash :: n) <$> p).
Definition dirname (p : path) : path := removelast p.

(** [tempPathFor(finalPath)] for the suffix the clock and [Math.random] give. *)
Definition tempPathFor (p : path) (suffix : jsstr) : path := dirname p ++ [TEMP_PREFIX ++ suffix].

(** [#pathFor(key)], below the root. *)
Definition pathFor (i : instance) (key : jsstr) : result path :=
  match assertValidStorageKey key with
  | Some e => inl e
  | None =>
    if starts_with [slash] key then inl (new_error InvalidConfig)
    else if includes_unit 92 key then inl (new_error InvalidConfig)
    else if existsb (fun s => bool_decide (s = []) || is_dot_segment s) (split_on slash key) then inl (new_error InvalidConfig)
    else match encodeKey key with
         | inl e => inl e
         | inr p =>
           let text := path_text (root i) p in
           if negb (bool_decide (text = root i)) && negb (starts_with (root i ++ [slash]) text)
           then inl (new_error InvalidConfig) else inr p
         end
  end.

Definition etagOf (b : bytes) : jsstr := [quote] ++ sha256_hex b ++ [quote].

(** [readExisting(path)] *)
Definition readExisting (p : path) : fprog (option bytes) :=
  let! r := perform (ReadFile p) in
  match r with
  | inr b => FRet (Some b)
  | inl ENOENT => FRet None
  | inl _ => FThrow raw_error
  end.

(** [#canonicalRoot()] *)
Definition canonicalRoot (i : instance) : fprog jsstr :=
  let! m := perform (ReadMemo i) in
  match realRoot m with
  | Some r => FRet r
  | None =>
    let! r := perform Realpath in
    match r with
    | inr real =>
      let! _ := perform (SetMemo i (fun m => Memo (Some real) (formatChecked m))) in FRet real
    | inl ENOENT => FRet (root i)
    | inl _ => FThrow wrapped
    end
  end.

(** [#lockKey(path)] *)
Definition lockKey (i : instance) (p : path) : fprog jsstr :=
  let! real := canonicalRoot i in
  FRet (lower_case (normalize_nfc (real ++ drop (length (root i)) (path_text (root i) p)))).

(** ** The format marker *)

Definition marker_path : path := [FORMAT_MARKER].

(** What [JSON.parse(...).key_encoding] reads: [None] where it throws. *)
Definition marker_encoding (b : bytes) : option jsval :=
  match decodeJsonBytes b with
  | None | Some JNull => None
  | Some (JObj o) => Some (js_get o (js "key_encoding"))
  | Some _ => Some JUndef
  end.

Definition readFormatMarker : fprog bool :=
  let! body := fattempt (readExisting marker_path)
                 (fun r => match r with inl e => FThrow (new_error_cause InvalidResponse e) | inr b => FRet b end) in
  match body with
  | None => FRet false
  | Some b =>
    match marker_encoding b with
    | None => FThrow wrapped
    | Some encoding =>
      if strict_eq encoding (JNum (num_of_Z KEY_ENCODING)) then FRet true
      else FThrow (new_error InvalidConfig)
    end
  end.

(** The text of [JSON.stringify({ key_encoding: KEY_ENCODING })] and a newline. *)
Definition marker_body : bytes :=
  OtherBytes ([123; 34] ++ js "key_encoding" ++ [34; 58; 49; 125; 10])%N
    (Some (JObj [(js "key_encoding", JNum (num_of_Z KEY_ENCODING))])).

(** [writeFile(tmp, body)], then the call that publishes it. *)
Definition stage (tmp : path) (b : bytes) (publish : call (errno + unit)) : fprog (errno + unit) :=
  let! w := perform (WriteFile tmp b) in
  match w with inl e => FRet (inl e) | inr _ => perform publish end.

(** [rm(tmp, { force: true }).catch(() => {})] *)
Definition discard (tmp : path) : fprog unit := let! _ := perform (Rm tmp) in FRet tt.

Definition stampFormatMarker : fprog unit :=
  let! suffix := perform TempName in
  let tmp := tempPathFor marker_path suffix in
  ffinally
    (let! r := stage tmp marker_body (Link tmp marker_path) in
     match r with
     | inr _ => FRet tt
     | inl e =>
       let! stamped := (if bool_decide (e = EEXIST) then readFormatMarker else FRet false) in
       if stamped : bool then FRet tt else FThrow wrapped
     end)
    (discard tmp).

(** ** Walking the tree *)

Definition isLegacyScanNoise (name : jsstr) (isDirectory : bool) : bool :=
  starts_with TEMP_PREFIX name ||
  (negb isDirectory && (bool_decide (name = js ".DS_Store") || bool_decide (name = js ".gitkeep"))).

Definition isDotName (name : jsstr) (isDirectory : bool) : bool := starts_with (js ".") name.

(** The entries of one directory: the directories pushed on the stack, then the files. *)
Definition sort_entries (skip : jsstr -> bool -> bool) (components : path) (entries : list (jsstr * bool)) :
    list path * list path :=
  let kept := base.filter (fun nd : jsstr * bool => skip nd.1 nd.2 = false) entries in
  ((fun nd : jsstr * bool => components ++ [nd.1]) <$> base.filter (fun nd : jsstr * bool => nd.2 = true) kept,
   (fun nd : jsstr * bool => components ++ [nd.1]) <$> base.filter (fun nd : jsstr * bool => nd.2 = false) kept).

(** The loop of [walk]; the head of [stack] is its top.  Out of fuel it does not return. *)
Fixpoint walk_loop (fuel : nat) (skip : jsstr -> bool -> bool) (stack out : list path) : fprog (option (list path)) :=
  match stack with
  | [] => FRet (Some out)
  | dir :: stack =>
    match fuel with
    | O => FCall Stuck (fun x => match x with end)
    | S fuel =>
      let! r := perform (Readdir dir) in
      match r with
      | inl ENOENT => if bool_decide (dir = []) then FRet None else walk_loop fuel skip stack out
      | inl _ => FThrow raw_error
      | inr entries =>
        let (dirs, found) := sort_entries skip dir entries in
        walk_loop fuel skip (reverse dirs ++ stack) (out ++ found)
      end
    end
  end.

Definition walk (fuel : nat) (skip : jsstr -> bool -> bool) : fprog (option (list path)) :=
  walk_loop fuel skip [[]] [].

(** The paths [findLegacyPaths] answers; their order is only that of the message. *)
Definition findLegacyPaths (fuel : nat) : fprog (option (list jsstr)) :=
  let! found := walk fuel isLegacyScanNoise in
  FRet ((fun l : list path => join_with [slash] <$>
     base.filter (fun p : path => decodeComponents p <> Some (join_with [slash] p)) l) <$> found).

(** [#ensureFormat(create)] *)
Definition ensureFormat (fuel : nat) (i : instance) (create : bool) : fprog unit :=
  let! m := perform (ReadMemo i) in
  if formatChecked m then FRet tt else
  let! _ := canonicalRoot i in
  let checked := SetMemo i (fun m => Memo (realRoot m) true) in
  let! current := readFormatMarker in
  if current : bool then perform checked else
  let! _ := (if create
             then let! r := perform (Mkdir []) in match r with inl _ => FThrow raw_error | inr _ => FRet tt end
             else FRet tt) in
  let! legacy := findLegacyPaths fuel in
  match legacy with
  | None => FRet tt
  | Some paths =>
    let! refused := (if bool_decide (paths = []) then FRet false
                     else let! stamped := readFormatMarker in FRet (negb stamped)) in
    if refused : bool then FThrow (new_error InvalidConfig)
    else let! _ := stampFormatMarker in perform checked
  end.

(** ** The operations *)

Definition fs_get (fuel : nat) (i : instance) (key : jsstr) (ifNoneMatch : option jsstr) :
    fprog (option StorageGetResult) :=
  let! _ := throwIfAborted in
  let! p := of_sum (pathFor i key) in
  let! _ := ensureFormat fuel i false in
  let! r := perform (ReadFile p) in
  match r with
  | inl ENOENT => FRet None
  | inl _ => FThrow wrapped
  | inr b =>
    if bool_decide (ifNoneMatch = Some (etagOf b)) then FRet None
    else FRet (Some (GetResult b (etagOf b)))
  end.

(** The result of a put that has published [b]. *)
Definition put_result (b : bytes) : fprog StoragePutResult :=
  let! now := perform Now in FRet (PutResult (etagOf b) (Some now)).

(** [#putSerialized(key, path, body, opts)] *)
Definition putSerialized (p : path) (b : bytes) (opts : StoragePutOptions) : fprog StoragePutResult :=
  let! _ := throwIfAborted in
  if ifNoneMatch opts then
    let! suffix := perform TempName in
    let tmp := tempPathFor p suffix in
    let! _ := ffinally
      (let! r := stage tmp b (Link tmp p) in
       match r with
       | inr _ => FRet tt
       | inl EEXIST => FThrow (new_error WriteConflict)
       | inl _ => FThrow wrapped
       end)
      (discard tmp) in
    put_result b
  else
    let! _ := match ifMatch opts with
              | None => FRet tt
              | Some expected =>
                let! existing := readExisting p in
                match existing with
                | None => FThrow (new_error WriteConflict)
                | Some current =>
                  if bool_decide (etagOf current = expected) then FRet tt
                  else FThrow (new_error WriteConflict)
                end
              end in
    let! suffix := perform TempName in
    let tmp := tempPathFor p suffix in
    let! _ := ffinally
      (let! r := stage tmp b (Rename tmp p) in
       match r with inr _ => FRet tt | inl _ => FThrow wrapped end)
      (discard tmp) in
    put_result b.

Definition fs_put (fuel : nat) (i : instance) (key : jsstr) (b : bytes) (opts : StoragePutOptions) :
    fprog StoragePutResult :=
  let! _ := throwIfAborted in
  let! p := of_sum (pathFor i key) in
  let! _ := ensureFormat fuel i true in
  let! made := perform (Mkdir (dirname p)) in
  match made with
  | inl _ => FThrow raw_error
  | inr _ =>
    let! lock := lockKey i p in
    withKeyLock lock (putSerialized p b opts)
  end.

Definition fs_delete (fuel : nat) (i : instance) (key : jsstr) : fprog unit :=
  let! _ := throwIfAborted in
  let! p := of_sum (pathFor i key) in
  let! _ := ensureFormat fuel i false in
  let! lock := lockKey i p in
  withKeyLock lock
    (let! _ := throwIfAborted in
     let! r := perform (Rm p) in
     match r with
     | inr _ | inl ENOENT => FRet tt
     | inl _ => FThrow wrapped
     end).

(** ** Listing *)

(** [APFS_ASCII_FOLDS]: what full case folding maps to ASCII but [toLowerCase] keeps. *)
Definition APFS_ASCII_FOLDS : list (N * jsstr) :=
  [(223%N, js "ss"); (7838%N, js "ss"); (383%N, js "s"); (64256%N, js "ff"); (64257%N, js "fi"); (64258%N, js "fl");
   (64259%N, js "ffi"); (64260%N, js "ffl"); (64261%N, js "st"); (64262%N, js "st")].

Definition apfs_fold (u : N) : jsstr :=
  match list_find (fun kv : N * jsstr => kv.1 = u) APFS_ASCII_FOLDS with Some (_, (_, t)) => t | None => [u] end.

Definition foldToEncodedAlphabet (name : jsstr) : jsstr := lower_case (mjoin (apfs_fold <$> name)).

(** [#aliasedKey(components)] *)
Definition aliasedKey (components : path) : fprog (option jsstr) :=
  let folded := foldToEncodedAlphabet <$> components in
  match decodeComponents folded with
  | None => FRet None
  | Some key =>
    let! a := perform (Stat components) in
    let! b := perform (Stat folded) in
    match a, b with
    | inr x, inr y => FRet (if bool_decide (x = y) then Some key else None)
    | inl e, _ | _, inl e =>
      if bool_decide (e ∈ [ENOENT; ENOTDIR; ENAMETOOLONG]) then FRet None else FThrow wrapped
    end
  end.

(** The keys of the files found; an aliased stray fails the listing. *)
Fixpoint listed (found : list path) : fprog (list jsstr) :=
  match found with
  | [] => FRet []
  | components :: rest =>
    match decodeComponents components with
    | Some key => let! keys := listed rest in FRet (key :: keys)
    | None =>
      let! alias := aliasedKey components in
      match alias with
      | Some _ => FThrow (new_error InvalidConfig)
      | None => listed rest
      end
    end
  end.

(** The entries yielded, [budget] being what [maxKeys] leaves. *)
Fixpoint yield_keys (i : instance) (prefix startAfter : jsstr) (budget : option nat) (keys : list jsstr) :
    fprog (list StorageListEntry) :=
  match keys with
  | [] => FRet []
  | key :: rest =>
    if negb (starts_with prefix key) then yield_keys i prefix startAfter budget rest
    else if (compareKeysUtf8 key startAfter <=? 0)%Z then yield_keys i prefix startAfter budget rest
    else if bool_decide (budget = Some 0%nat) then FRet []
    else
      let! _ := throwIfAborted in
      match pathFor i key with
      | inl _ => FThrow wrapped
      | inr p =>
        let! r := perform (ReadFile p) in
        match r with
        | inl ENOENT => yield_keys i prefix startAfter budget rest
        | inl _ => FThrow wrapped
        | inr b =>
          let! more := yield_keys i prefix startAfter (pred <$> budget) rest in
          FRet (ListEntry key (etagOf b) :: more)
        end
      end
  end.

(** [list(prefix, opts)], read to the end of the iteration. *)
Definition fs_list (fuel : nat) (i : instance) (prefix : jsstr) (startAfter : option jsstr) (maxKeys : option nat) :
    fprog (list StorageListEntry) :=
  let! _ := throwIfAborted in
  let! _ := ensureFormat fuel i false in
  let! found := walk fuel isDotName in
  let! keys := listed (default [] found) in
  yield_keys i prefix (default [] startAfter) maxKeys (merge_sort key_le keys).

End adapter.
