(* ===== verification/LocalFsSpec.v ===== *)
(** * What the local adapter promises under concurrency (dev/src/local-fs.ts)

    The two machines the linearizability theorem of LocalFsSafety.v relates: the adapter,
    any number of [get], [put] and [delete] calls by any number of instances interleaving at
    every file-system call, and one atomic compare-and-swap store.  Then what stays true
    of the disk: no key's path is a directory or runs through a file, and the store holds
    the objects of the keys in use. *)
From S2P Require Import Prelude JsText JsValue Errors Json Storage Utf8 KeyCodec KeyLock FileSystem LocalFs.

(** ** The calls and the atomic store *)

Inductive storage_op :=
| OpGet (key : jsstr) (ifNoneMatch : option jsstr)
| OpPut (key : jsstr) (b : bytes) (opts : StoragePutOptions)
| OpDelete (key : jsstr).

Definition op_key (op : storage_op) : jsstr :=
  match op with OpGet k _ | OpPut k _ _ | OpDelete k => k end.

(** What a call answers; [serverDate] is the clock at its return. *)
Inductive answer :=
| AnsGet (r : option StorageGetResult)
| AnsPut (tag : jsstr)
| AnsDelete.

Section store.
Context (sha256_hex : bytes -> jsstr).

(** One call on the atomic store: its answer and the store after it.  A failed call has
    no effect, and only a failed precondition is a [WriteConflict]. *)
Inductive spec_op (st : gmap jsstr bytes) : storage_op -> result answer -> gmap jsstr bytes -> Prop :=
| spec_get key ifNoneMatch :
    spec_op st (OpGet key ifNoneMatch)
      (inr (AnsGet (match st !! key with
                    | None => None
                    | Some b => if bool_decide (ifNoneMatch = Some (etagOf sha256_hex b)) then None
                                else Some (GetResult b (etagOf sha256_hex b))
                    end))) st
| spec_put key b opts :
    put_precondition opts ((fun o => Stored o (etagOf sha256_hex o)) <$> st !! key) = true ->
    spec_op st (OpPut key b opts) (inr (AnsPut (etagOf sha256_hex b))) (<[key := b]> st)
| spec_conflict key b opts :
    put_precondition opts ((fun o => Stored o (etagOf sha256_hex o)) <$> st !! key) = false ->
    spec_op st (OpPut key b opts) (inl (new_error WriteConflict)) st
| spec_delete key : spec_op st (OpDelete key) (inr AnsDelete) (delete key st)
| spec_failed op e : has_code WriteConflict e = false -> spec_op st op (inl e) st.

(** *** Machines and their traces *)

Inductive event :=
| Invoke (t : nat) (i : instance) (op : storage_op)
| Return (t : nat) (r : result answer).

(** Runs of a machine, with the events they show. *)
Inductive runs {S} (step : S -> option event -> S -> Prop) : S -> list event -> S -> Prop :=
| runs_nil s : runs step s [] s
| runs_silent s s1 tr s2 : step s None s1 -> runs step s1 tr s2 -> runs step s tr s2
| runs_event s e s1 tr s2 : step s (Some e) s1 -> runs step s1 tr s2 -> runs step s (e :: tr) s2.

(** The atomic store with its calls in flight, each with its answer once it has one. *)
Record atomic := Atomic { a_store : gmap jsstr bytes; a_calls : gmap nat (storage_op * option (result answer)) }.

Inductive atomic_step : atomic -> option event -> atomic -> Prop :=
| atomic_invoke a t i op : a_calls a !! t = None ->
    atomic_step a (Some (Invoke t i op)) (Atomic (a_store a) (<[t := (op, None)]> (a_calls a)))
| atomic_effect a t op r st' : a_calls a !! t = Some (op, None) -> spec_op (a_store a) op r st' ->
    atomic_step a None (Atomic st' (<[t := (op, Some r)]> (a_calls a)))
| atomic_return a t op r : a_calls a !! t = Some (op, Some r) ->
    atomic_step a (Some (Return t r)) (Atomic (a_store a) (delete t (a_calls a))).

End store.

(** ** The adapter as a machine *)

(** The shared state and the calls in flight. *)
Record pool := Pool { p_sys : sys; p_calls : gmap nat (fprog answer) }.

Section machine.
Context (fold_name lower_case normalize_nfc : jsstr -> jsstr).
Context (sha256_hex : bytes -> jsstr) (real_root : jsstr).
Context (allowed : storage_op -> Prop).

Definition op_prog (fuel : nat) (i : instance) (op : storage_op) : fprog answer :=
  match op with
  | OpGet key m => fbind (fs_get sha256_hex fuel i key m) (fun r => FRet (AnsGet r))
  | OpPut key b opts =>
    fbind (fs_put lower_case normalize_nfc sha256_hex fuel i key b opts) (fun r => FRet (AnsPut (put_etag r)))
  | OpDelete key => fbind (fs_delete lower_case normalize_nfc fuel i key) (fun _ => FRet AnsDelete)
  end.

Inductive pool_step : pool -> option event -> pool -> Prop :=
| pool_invoke w t i op fuel : p_calls w !! t = None -> allowed op ->
    pool_step w (Some (Invoke t i op)) (Pool (p_sys w) (<[t := op_prog fuel i op]> (p_calls w)))
| pool_call w t X (c : call X) k x s' : p_calls w !! t = Some (FCall c k) ->
    call_step fold_name real_root c (p_sys w) x s' ->
    pool_step w None (Pool s' (<[t := k x]> (p_calls w)))
| pool_return w t p r : p_calls w !! t = Some p ->
    match p with FRet a => r = inr a | FThrow e => r = inl e | FCall _ _ => False end ->
    pool_step w (Some (Return t r)) (Pool (p_sys w) (delete t (p_calls w))).

End machine.

(** ** Paths of keys *)

Definition codec_alphabet : jsstr := js "abcdefghijklmnopqrstuvwxyz0123456789-_.%~".

(** What makes the adapter safe: the file system leaves names over the codec's alphabet
    apart, and the keys in use are code units of which none extends another by a ["/"]. *)
Record setting (fold_name : jsstr -> jsstr) (K : jsstr -> Prop) : Prop := {
  folds_apart : forall n, Forall (fun u => u ∈ codec_alphabet) n -> fold_name n = n;
  keys_units : forall k, K k -> code_units k;
  keys_apart : forall k k' r, K k -> K k' -> k' <> k ++ slash :: r
}.

(** [p] is where the object of the key [k] lives. *)
Definition key_at (K : jsstr -> Prop) (k : jsstr) (p : path) : Prop :=
  K k /\ key_ok k = true /\ encodeKey k = inr p.

(** A name the listing hides: staging files and the format marker. *)
Definition hidden (q : path) : Prop := exists q0 n, q = q0 ++ [n] /\ head n = Some DOT.

Lemma pathFor_ok i key p : pathFor i key = inr p -> key_ok key = true /\ encodeKey key = inr p.
Proof.
  unfold pathFor. destruct (assertValidStorageKey key); [done|]. destruct (starts_with _ key); [done|].
  destruct (includes_unit 92 key); [done|]. destruct (existsb _ (split_on slash key)) eqn:Es; [done|].
  destruct (encodeKey key) as [|p'] eqn:Ee; [done|]. destruct (_ && _); [done|]. intros [= ->]. split; [|done].
  unfold key_ok. unfold encodeKey in Ee. destruct (isWellFormed key); [|done]. cbn [andb].
  apply forallb_forall. intros s Hs. unfold segment_ok. rewrite <- negb_orb. apply negb_true_iff.
  destruct (bool_decide (s = []) || is_dot_segment s) eqn:E; [|done].
  assert (Ht : existsb (fun s => bool_decide (s = []) || is_dot_segment s) (split_on slash key) = true)
    by (apply existsb_exists; by exists s). congruence.
Qed.

(** A root that names the whole file system is refused with every key. *)
Lemma pathFor_root i key p : pathFor i key = inr p -> code_units key -> root i <> [slash].
Proof.
  intros Hp Hu Hr. pose proof (pathFor_ok i key p Hp) as [Hok He]. pose proof (encoded_names key p Hu Hok He) as Hn.
  unfold pathFor in Hp. destruct (assertValidStorageKey key); [done|]. destruct (starts_with _ key); [done|].
  destruct (includes_unit 92 key); [done|]. destruct (existsb _ (split_on slash key)); [done|].
  rewrite He in Hp. unfold path_text in Hp. rewrite Hr, (bool_decide_eq_true_2 ([slash] = [slash])) in Hp by done. cbn [app] in Hp.
  destruct p as [|n p].
  { assert (Hd : decodeComponents [] = Some key) by (by apply decodeComponents_encode). done. }
  apply Forall_cons in Hn as [(Hne & _ & _ & Ha) _]. destruct n as [|c n]; [done|].
  apply Forall_cons in Ha as [Hc _]. rewrite fmap_cons, mjoin_cons in Hp. cbn [app] in Hp.
  rewrite bool_decide_eq_false_2 in Hp by done. cbn [negb andb] in Hp.
  assert (Hs : (slash =? c)%N = false).
  { apply N.eqb_neq. intros <-. revert Hc. apply (bool_decide_unpack (~ (slash ∈ _))). vm_compute. exact I. }
  cbn [starts_with] in Hp. rewrite N.eqb_refl, Hs in Hp. done.
Qed.

Example root_slash_refuses : pathFor (Instance 0 (js "/")) (js "a") = inl (new_error InvalidConfig).
Proof. vm_compute. reflexivity. Qed.

Lemma pathFor_error i key e : pathFor i key = inl e -> has_code WriteConflict e = false.
Proof.
  unfold pathFor, assertValidStorageKey, encodeKey. repeat case_match; intros; simplify_eq; done.
Qed.

Section paths.
Context (fold_name : jsstr -> jsstr) (K : jsstr -> Prop) (Hset : setting fold_name K).

Lemma key_names k p : key_at K k p -> Forall portable_name p.
Proof. intros (Hk & Hok & He). apply (encoded_names k); [by apply (keys_units _ _ Hset)|done|done]. Qed.

Lemma fold_names p : Forall (fun n => Forall (fun u => u ∈ codec_alphabet) n) p -> fold_path fold_name p = p.
Proof.
  induction 1 as [|n p Hn _ IH]; [done|]. unfold fold_path in *. rewrite fmap_cons, IH. f_equal.
  by apply (folds_apart _ _ Hset).
Qed.

Lemma portable_alphabet p : Forall portable_name p -> Forall (fun n => Forall (fun u => u ∈ codec_alphabet) n) p.
Proof. intros H. eapply Forall_impl; [exact H|]. by intros n (_ & _ & _ & ?). Qed.

Lemma fold_key k p : key_at K k p -> fold_path fold_name p = p.
Proof. intros H. by apply fold_names, portable_alphabet, (key_names k). Qed.

Lemma key_path_nonempty k p : key_at K k p -> p <> [].
Proof.
  intros (Hk & Hok & He) ->. assert (Hd : decodeComponents [] = Some k)
    by (apply decodeComponents_encode; [by apply (keys_units _ _ Hset)|done]). done.
Qed.

Lemma key_at_fun k p p' : key_at K k p -> key_at K k p' -> p = p'.
Proof. intros (_ & _ & H) (_ & _ & H'). congruence. Qed.

Lemma key_at_inj k k' p : key_at K k p -> key_at K k' p -> k = k'.
Proof. intros (Hk & Hok & He) (Hk' & Hok' & He'). apply (encodeKey_inj k k' p); try done; by apply (keys_units _ _ Hset). Qed.

(** No key's path runs through another's. *)
Lemma key_at_nested k k' p p' : key_at K k p -> key_at K k' p' -> p `prefix_of` p' -> p' = p.
Proof.
  intros (Hk & Hok & He) (Hk' & Hok' & He') [q ->].
  destruct (encodeKey_nested k k' p q) as [<-|[r Hr]]; try done; try (by apply (keys_units _ _ Hset)).
  - congruence.
  - exfalso. by apply (keys_apart _ _ Hset k k' r).
Qed.

Lemma prefix_not_hidden k p q : key_at K k p -> q `prefix_of` p -> ~ hidden q.
Proof.
  intros Hk [r ->] (q0 & n & -> & Hn). apply key_names in Hk. rewrite !Forall_app in Hk. destruct Hk as [[_ Hk] _].
  apply Forall_singleton in Hk as (_ & _ & Hh & _). done.
Qed.

(** ** What stays true of the disk *)

(** No key's path is a directory or runs through a file. *)
Definition keys_free (d : disk) : Prop :=
  forall k p, key_at K k p -> is_directory d p = false /\ forall r, r `prefix_of` p -> r <> p -> body_at d r = None.

Record disk_ok (d : disk) : Prop := {
  disk_root : is_directory d [] = true;
  disk_tree : tree_ok d;
  disk_keys : keys_free d
}.

(** The atomic store holds the objects of the keys in use. *)
Definition holds (st : gmap jsstr bytes) (d : disk) : Prop :=
  forall k p, key_at K k p -> st !! k = body_at d p.

Lemma writes_disk_ok d q d' : disk_ok d -> tree_ok d' -> writes d q d' ->
  hidden q \/ (exists k, key_at K k q) -> disk_ok d'.
Proof.
  intros Hd Ht Hw Hq. split; [by rewrite (writes_directory _ _ _ _ Hw); apply disk_root|done|].
  intros k p Hk. destruct (disk_keys d Hd k p Hk) as [H1 H2]. split; [by rewrite (writes_directory _ _ _ _ Hw)|].
  intros r Hr Hne. rewrite (writes_body _ _ _ _ Hw); [by apply H2|]. intros ->. destruct Hq as [Hq|[k' Hk']].
  - by apply (prefix_not_hidden k p q).
  - by apply Hne, eq_sym, (key_at_nested k' k q p).
Qed.

Lemma writes_hidden_holds st d q d' : holds st d -> writes d q d' -> hidden q -> holds st d'.
Proof.
  intros Hh Hw Hq k p Hk. rewrite (writes_body _ _ _ _ Hw); [by apply Hh|]. intros ->.
  by apply (prefix_not_hidden k q q).
Qed.

(** Changing the object of one key. *)
Lemma writes_key_holds st d k p d' : holds st d -> writes d p d' -> key_at K k p ->
  holds (partial_alter (fun _ => body_at d' p) k st) d'.
Proof.
  intros Hh Hw Hk k' p' Hk'. destruct (decide (k' = k)) as [->|Hne].
  - rewrite lookup_partial_alter_eq. by rewrite (key_at_fun k p p').
  - rewrite lookup_partial_alter_ne by done. rewrite (writes_body _ _ _ _ Hw); [by apply Hh|].
    intros ->. by apply Hne, (key_at_inj k' k p).
Qed.

Lemma grows_body d d' new q : grows d d' new -> body_at d' q = body_at d q.
Proof.
  intros (_ & Hk & Hn). unfold body_at. destruct (d !! q) as [o|] eqn:E.
  - by rewrite Hk, E by (by rewrite E).
  - destruct (d' !! q) as [o'|] eqn:E'; [|done]. destruct (Hn q E) as [Hd _]; [by rewrite E'|].
    unfold is_directory in Hd. rewrite E' in Hd. by destruct o' as [? [|]].
Qed.

(** No directory above a key's path is itself a key's path. *)
Lemma dirname_not_key k k' p q : key_at K k p -> q `prefix_of` dirname p -> key_at K k' q -> False.
Proof.
  intros Hk Hq Hk'. pose proof (key_path_nonempty k p Hk) as Hne. destruct (exists_last Hne) as (p0 & n & ->).
  unfold dirname in Hq. rewrite removelast_last in Hq.
  assert (Hpp : q `prefix_of` p0 ++ [n]) by by apply prefix_app_r.
  pose proof (key_at_nested k' k q _ Hk' Hk Hpp) as E. rewrite <- E in Hq.
  apply prefix_length in Hq. rewrite length_app in Hq. cbn [length] in Hq. lia.
Qed.

(** New directories, none where a key's object lives. *)
Lemma grows_disk_ok d d' new : disk_ok d -> grows d d' new ->
  (forall q k, d !! q = None -> new q -> key_at K k q -> False) -> disk_ok d'.
Proof.
  intros Hd Hg Hnew. pose proof Hg as (Ht & Hkeep & Hn). split; [|done|].
  - pose proof (disk_root d Hd) as Hr. unfold is_directory in *. rewrite Hkeep; [done|]. by destruct (d !! []).
  - intros k' p' Hk'. destruct (disk_keys d Hd k' p' Hk') as [H1 H2]. split.
    + destruct (d !! p') as [o|] eqn:E; [unfold is_directory in *; rewrite Hkeep by (by rewrite E); by rewrite E in *|].
      destruct (d' !! p') as [o'|] eqn:E'; [|unfold is_directory; by rewrite E'].
      destruct (Hn p' E) as [_ Hq]; [by rewrite E'|]. exfalso. by eapply Hnew.
    + intros r Hr Hne. rewrite (grows_body _ _ _ r Hg). by apply H2.
Qed.

Lemma grows_holds st d d' new : holds st d -> grows d d' new -> holds st d'.
Proof. intros Hh Hg k p Hk. rewrite (grows_body _ _ _ p Hg). by apply Hh. Qed.

(** Reading a key's path answers its object, or that there is none. *)
Lemma names_short p : Forall portable_name p -> existsb (fun n => NAME_LIMIT <? length (utf8_encode n)) p = false.
Proof.
  induction 1 as [|n p (_ & Hl & _ & Ha) _ IH]; [done|]. cbn [existsb]. rewrite IH, orb_false_r.
  assert (E : utf8_encode n = n).
  { rewrite <- (app_nil_r n) at 1. rewrite utf8_encode_ascii; [by rewrite app_nil_r|].
    eapply Forall_impl; [exact Ha|]. intros u Hu. revert u Hu. apply Forall_forall. apply (bool_decide_unpack _).
    vm_compute. exact I. }
  rewrite E. apply Nat.ltb_ge. exact Hl.
Qed.

Lemma resolve_key d k p : disk_ok d -> key_at K k p ->
  resolve fold_name d p = inr p \/ (resolve fold_name d p = inl ENOENT /\ d !! p = None).
Proof.
  intros Hd Hk. unfold resolve. rewrite names_short by by apply (key_names k). rewrite (fold_key k p Hk).
  destruct (blocked_missing d [] p (disk_tree d Hd)) as [->|[-> Hn]]; [|by left|by right].
  intros r Hr Hne. apply (proj2 (disk_keys d Hd k p Hk)); done.
Qed.

Lemma readFile_key st d k p : disk_ok d -> holds st d -> key_at K k p ->
  fs_readFile fold_name p d = match st !! k with Some b => inr b | None => inl ENOENT end.
Proof.
  intros Hd Hh Hk. rewrite (Hh k p Hk). unfold fs_readFile, body_at.
  pose proof (proj1 (disk_keys d Hd k p Hk)) as Hnd. unfold is_directory in Hnd.
  destruct (resolve_key d k p Hd Hk) as [->|[-> E]].
  - by destruct (d !! p) as [[? [|]]|].
  - by rewrite E.
Qed.

End paths.
