(* ===== verification/LocalFsRun.v ===== *)
(** * The local adapter, one call at a time (dev/src/local-fs.ts)

    [frun] executes a program of the adapter with no fault, no signal and no other call in
    flight.  Such an execution is one of the interleavings of LocalFsSpec.v. *)
From S2P Require Import Prelude JsText JsValue Errors Json Storage KeyCodec KeyLock FileSystem LocalFs LocalFsSpec.

Section run.
Context (fold_name lower_case normalize_nfc : jsstr -> jsstr).
Context (sha256_hex : bytes -> jsstr) (real_root : jsstr).

Definition lift {A : Type} (s : sys) (r : errno + disk) (ok : A) : (errno + A) * sys :=
  match r with inl e => (inl e, s) | inr d => (inr ok, with_files d s) end.

(** A staging suffix not handed out yet. *)
Definition fresh_suffix (s : sys) : jsstr := js "t" ++ to_radix 36 (N.of_nat (size (temps s))).

(** The answer of a call and the state after it; [None] where it cannot go on. *)
Definition answer_of {X} (c : call X) (s : sys) : option (X * sys) :=
  match c in call X return option (X * sys) with
  | ReadFile p => Some (fs_readFile fold_name p (files s), s)
  | WriteFile p b => Some (lift s (fs_writeFile fold_name p b (files s)) tt)
  | Link p p' => Some (lift s (fs_link fold_name p p' (files s)) tt)
  | Rename p p' => Some (lift s (fs_rename fold_name p p' (files s)) tt)
  | Rm p => Some (lift s (fs_rm fold_name p (files s)) tt)
  | Mkdir p => Some ((fs_mkdir fold_name p (files s)).1, with_files ((fs_mkdir fold_name p (files s)).2) s)
  | Readdir p => Some (fs_readdir fold_name p (files s), s)
  | Stat p => Some (fs_stat fold_name p (files s), s)
  | Realpath => Some ((if is_directory (files s) [] then inr real_root else inl ENOENT), s)
  | TempName =>
    let x := fresh_suffix s in
    if bool_decide (x ∉ temps s) && forallb (fun u => bool_decide (u ∈ js "abcdefghijklmnopqrstuvwxyz0123456789-")) x
    then Some (x, Sys (files s) (mutexes s) (memos s) ({[x]} ∪ temps s)) else None
  | Aborted => Some (false, s)
  | Now => Some (0%Z, s)
  | ReadMemo i => Some (memo_of i s, s)
  | SetMemo i f => Some (tt, Sys (files s) (mutexes s) (<[inst_id i := f (memo_of i s)]> (memos s)) (temps s))
  | Register key => Some ((register key (mutexes s)).1, with_mutexes ((register key (mutexes s)).2) s)
  | Await t => if bool_decide (may_enter t (mutexes s)) then Some (tt, s) else None
  | Release key t => Some (tt, with_mutexes (release key t (mutexes s)) s)
  | Stuck => None
  end.

Fixpoint frun {A} (p : fprog A) (s : sys) {struct p} : option (result A * sys) :=
  match p with
  | FRet a => Some (inr a, s)
  | FThrow e => Some (inl e, s)
  | FCall c k => match answer_of c s with Some (x, s') => frun (k x) s' | None => None end
  end.

Lemma frun_attempt {A B} (p : fprog A) (f : result A -> fprog B) s :
  frun (fattempt p f) s = match frun p s with Some (r, s') => frun (f r) s' | None => None end.
Proof.
  revert s. induction p as [a|e|X c k IH]; intros s; cbn [frun fattempt]; [done..|].
  destruct (answer_of c s) as [[x s']|]; [apply IH|done].
Qed.

Lemma frun_bind {A B} (p : fprog A) (f : A -> fprog B) s :
  frun (fbind p f) s = match frun p s with
                       | Some (inr a, s') => frun (f a) s'
                       | Some (inl e, s') => Some (inl e, s')
                       | None => None
                       end.
Proof. unfold fbind. rewrite frun_attempt. by destruct (frun p s) as [[[e|a] s']|]. Qed.

Lemma answer_step {X} (c : call X) s x s' : answer_of c s = Some (x, s') -> call_step fold_name real_root c s x s'.
Proof.
  assert (Hl : forall A (r : errno + disk) (ok : A) x s', lift s r ok = (x, s') ->
    (exists d, r = inr d /\ x = inr ok /\ s' = with_files d s) \/ (exists e, r = inl e /\ x = inl e /\ s' = s)).
  { intros A [e|d] ok y s2; cbn [lift]; intros [= <- <-]; [right; by exists e|left; by exists d]. }
  destruct c; cbn [answer_of call_step]; intros H; try (injection H as H); simplify_eq; auto; try (by split; [|left]).
  - apply Hl in H as [?|?]; [by left|right; by left].
  - apply Hl in H as [?|(e & ? & ? & ?)]; [by left|right]. split; [done|]. right. by exists e.
  - apply Hl in H as [?|(e & ? & ? & ?)]; [by left|right]. split; [done|]. right. by exists e.
  - apply Hl in H as [?|(e & ? & ? & ?)]; [by left|right]. split; [done|]. right. by exists e.
  - destruct (_ && _) eqn:E; [|done]. simplify_eq. apply andb_true_iff in E as [E1 E2]. apply bool_decide_eq_true in E1.
    split; [done|]. split; [|done]. rewrite forallb_forall in E2. apply Forall_forall. intros u Hu.
    by eapply bool_decide_eq_true, E2, list_elem_of_In.
  - case_bool_decide; [|done]. by simplify_eq.
Qed.

(** The program left when one has run to its end. *)
Definition ended {A} (r : result A) : fprog A := match r with inr a => FRet a | inl e => FThrow e end.

Lemma frun_runs allowed p s r s' : frun p s = Some (r, s') -> forall t calls, calls !! t = Some p ->
  runs (pool_step fold_name lower_case normalize_nfc sha256_hex real_root allowed) (Pool s calls) []
    (Pool s' (<[t := ended r]> calls)).
Proof.
  revert s. induction p as [a|e|X c k IH]; intros s H t calls Ht; cbn [frun] in H.
  1-2: simplify_eq; cbn [ended]; rewrite insert_id by done; apply runs_nil.
  destruct (answer_of c s) as [[x s1]|] eqn:Ea; [|done]. eapply runs_silent.
  - eapply (pool_call _ _ _ _ _ _ (Pool s calls) t X c k); [done|by apply answer_step].
  - rewrite <- (insert_insert_eq calls t (ended r) (k x)). apply (IH x s1 H). apply lookup_insert_eq.
Qed.

(** Running one call from its invocation to its return, whatever other calls wait. *)
Lemma call_runs allowed s calls t i op fuel r s' tr w : calls !! t = None -> allowed op ->
  frun (op_prog lower_case normalize_nfc sha256_hex fuel i op) s = Some (r, s') ->
  runs (pool_step fold_name lower_case normalize_nfc sha256_hex real_root allowed) (Pool s' calls) tr w ->
  runs (pool_step fold_name lower_case normalize_nfc sha256_hex real_root allowed) (Pool s calls)
    (Invoke t i op :: Return t r :: tr) w.
Proof.
  intros Ht Hal Hr Hw. set (step := pool_step fold_name lower_case normalize_nfc sha256_hex real_root allowed) in *.
  set (p := op_prog lower_case normalize_nfc sha256_hex fuel i op) in *.
  eapply runs_event; [by apply (pool_invoke fold_name lower_case normalize_nfc sha256_hex real_root allowed (Pool s calls) t i op fuel)|].
  cbn [p_sys p_calls]. fold p. assert (Hsilent : forall w1 w2 w3 tr, runs step w1 [] w2 -> runs step w2 tr w3 -> runs step w1 tr w3).
  { clear. intros w1 w2 w3 tr H. remember [] as e eqn:E. induction H; intros H2; [done| |done]. eapply runs_silent; [done|by auto]. }
  eapply Hsilent; [apply (frun_runs allowed p s r s' Hr t); apply lookup_insert_eq|]. rewrite insert_insert_eq.
  eapply runs_event; [apply (pool_return fold_name lower_case normalize_nfc sha256_hex real_root allowed _ t (ended r) r)|].
  - cbn [p_calls]. apply lookup_insert_eq.
  - by destruct r.
  - cbn [p_sys p_calls]. by rewrite delete_insert_eq, delete_id.
Qed.

End run.
