(* ===== verification/LocalFsSafety.v ===== *)
(** * The local adapter is linearizable (dev/src/local-fs.ts)

    Whatever concurrent calls do and answer, the same calls with the same answers are a
    run of one atomic store, each call taking effect once, between its invocation and its
    return.  The proof is a forward simulation.  [wpf] carries what one call knows (its
    place in the lock's queue, the object it read while it holds the lock, its staging
    file, whether it has taken effect) through its program; what its steps may change of
    the others' knowledge is confined by [confined]. *)
From S2P Require Import Prelude JsText JsValue Errors Json Storage KeyCodec KeyLock FileSystem LocalFs LocalFsSpec LocalFsRun.

(** What one call knows. *)
Record view := View {
  v_out : option (result answer);
  v_caller : option caller;
  v_known : option (option bytes);
  v_temp : option (jsstr * option (path * bytes))
}.

Section safety.
Context (fold_name lower_case normalize_nfc : jsstr -> jsstr).
Context (sha256_hex : bytes -> jsstr) (real_root : jsstr).
Context (K : jsstr -> Prop) (Hset : setting fold_name K).

(** The lock key of a path, its root resolved. *)
Definition lock_text (p : path) : jsstr := lower_case (normalize_nfc (real_root ++ path_text [] p)).

(** The state every call finds. *)
Record global_ok (s : sys) (st : gmap jsstr bytes) (T : callers) : Prop := {
  g_disk : disk_ok K (files s);
  g_store : holds K st (files s);
  g_locks : locks_ok (mutexes s) T;
  g_memos : forall i r, realRoot (memo_of i s) = Some r -> r = real_root
}.

(** The call holds the lock of its key. *)
Definition holds_lock (op : storage_op) (v : view) : Prop :=
  exists p tk, encodeKey (op_key op) = inr p /\ v_caller v = Some (Caller (lock_text p) tk true).

Record local_ok (t : nat) (op : storage_op) (v : view) (s : sys) (st : gmap jsstr bytes) (T : callers) : Prop := {
  l_caller : T !! t = v_caller v;
  l_known : forall o, v_known v = Some o -> holds_lock op v /\ st !! op_key op = o;
  l_temp : forall x c, v_temp v = Some (x, c) -> x ∈ temps s;
  l_staged : forall x q b, v_temp v = Some (x, Some (q, b)) ->
    (exists q0, q = q0 ++ [TEMP_PREFIX ++ x]) /\ body_at (files s) q = Some b
}.

(** What a step of call [t] leaves to the others: their places in the queues, every
    object but that of a key it holds the lock of, and their staging files. *)
Record confined (t : nat) (op : storage_op) (v : view)
    (s : sys) (st : gmap jsstr bytes) (T : callers) (s' : sys) (st' : gmap jsstr bytes) (T' : callers) : Prop := {
  f_callers : forall j, j <> t -> T' !! j = T !! j;
  f_store : forall k, st' !! k = st !! k \/ (k = op_key op /\ holds_lock op v);
  f_temps : temps s ⊆ temps s';
  f_staged : forall x q, x ∈ temps s -> (forall c, v_temp v <> Some (x, c)) ->
    body_at (files s') (q ++ [TEMP_PREFIX ++ x]) = body_at (files s) (q ++ [TEMP_PREFIX ++ x])
}.

(** The call takes effect in this step, or does not. *)
Definition effect (op : storage_op) (v : view) (st : gmap jsstr bytes) (v' : view) (st' : gmap jsstr bytes) : Prop :=
  (v_out v' = v_out v /\ st' = st) \/
  (exists r, v_out v = None /\ v_out v' = Some r /\ spec_op sha256_hex st op r st').

(** Staging names are kept, dropped or new. *)
Definition temp_kept (v v' : view) (s : sys) : Prop :=
  forall x c, v_temp v' = Some (x, c) -> (exists c', v_temp v = Some (x, c')) \/ x ∉ temps s.

(** One step of call [t] leads from what it knows to [v'], all promises kept. *)
Definition moves (t : nat) (op : storage_op) (v : view) (s : sys) (st : gmap jsstr bytes) (T : callers)
    (s' : sys) (v' : view) : Prop :=
  exists st' T', effect op v st v' st' /\ global_ok s' st' T' /\ local_ok t op v' s' st' T' /\
    confined t op v s st T s' st' T' /\ temp_kept v v' s.

Section one_call.
Context (t : nat) (op : storage_op) (Hop : K (op_key op)).

Fixpoint wpf {A} (p : fprog A) (Q : result A -> view -> Prop) (v : view) {struct p} : Prop :=
  match p with
  | FRet a => Q (inr a) v
  | FThrow e => Q (inl e) v
  | FCall c k => forall s st T, global_ok s st T -> local_ok t op v s st T ->
      forall x s', call_step fold_name real_root c s x s' ->
      exists v', moves t op v s st T s' v' /\ wpf (k x) Q v'
  end.

Lemma wpf_mono {A} (p : fprog A) (Q Q' : result A -> view -> Prop) v :
  (forall r v, Q r v -> Q' r v) -> wpf p Q v -> wpf p Q' v.
Proof.
  intros HQ. revert v. induction p as [a|e|X c k IH]; intros v; cbn [wpf]; [apply HQ..|].
  intros H s st T Hg Hl x s' Hs. destruct (H s st T Hg Hl x s' Hs) as (v' & Hm & Hk). exists v'. split; [done|by apply IH].
Qed.

Lemma wpf_attempt {A B} (p : fprog A) (f : result A -> fprog B) Q v :
  wpf p (fun r v' => wpf (f r) Q v') v -> wpf (fattempt p f) Q v.
Proof.
  revert v. induction p as [a|e|X c k IH]; intros v; cbn [wpf fattempt]; [done..|].
  intros H s st T Hg Hl x s' Hs. destruct (H s st T Hg Hl x s' Hs) as (v' & Hm & Hk). exists v'. split; [done|by apply IH].
Qed.

Lemma wpf_bind {A B} (p : fprog A) (f : A -> fprog B) Q v :
  wpf p (fun r v' => match r with inl e => Q (inl e) v' | inr a => wpf (f a) Q v' end) v -> wpf (fbind p f) Q v.
Proof. intros H. apply wpf_attempt. eapply wpf_mono; [|exact H]. by intros [e|a] v'. Qed.

Lemma wpf_finally {A} (p : fprog A) (q : fprog unit) Q v :
  wpf p (fun r v' => wpf q (fun r' v2 => match r' with inl e => Q (inl e) v2 | inr _ => Q r v2 end) v') v ->
  wpf (ffinally p q) Q v.
Proof.
  intros H. apply wpf_attempt. eapply wpf_mono; [|exact H]. intros r v' Hq. apply wpf_bind.
  eapply wpf_mono; [|exact Hq]. intros [e|[]] v2; [done|]. by destruct r.
Qed.

Lemma wpf_perform {X} (c : call X) (Q : result X -> view -> Prop) v :
  wpf (FCall c FRet) Q v -> wpf (perform c) Q v.
Proof. done. Qed.

(** *** Steps that leave everything as it was *)

Lemma moves_stay v s st T : global_ok s st T -> local_ok t op v s st T -> moves t op v s st T s v.
Proof.
  intros Hg Hl. exists st, T. split; [by left|]. split; [done|]. split; [done|]. split; [|intros x c ?; left; by eexists].
  split; [done|by left|done|done].
Qed.

Lemma wpf_quiet {A X} (c : call X) (k : X -> fprog A) Q v :
  (forall s x s', call_step fold_name real_root c s x s' -> s' = s) ->
  (forall s st T x, global_ok s st T -> local_ok t op v s st T -> call_step fold_name real_root c s x s -> wpf (k x) Q v) ->
  wpf (FCall c k) Q v.
Proof.
  intros Hs Hk s st T Hg Hl x s' Hc. exists v. pose proof (Hs s x s' Hc) as ->. split; [by apply moves_stay|].
  by apply (Hk s st T).
Qed.

(** *** Programs that tell nothing and take no effect *)

(** An outcome that is no [WriteConflict]. *)
Definition benign {A} (r : result A) : Prop :=
  match r with inl e => has_code WriteConflict e = false | inr _ => True end.

Definition quietly {A} (p : fprog A) (v : view) : Prop := forall Q, (forall r, benign r -> Q r v) -> wpf p Q v.

Lemma quietly_bind {A B} (p : fprog A) (f : A -> fprog B) v :
  quietly p v -> (forall a, quietly (f a) v) -> quietly (fbind p f) v.
Proof. intros Hp Hf Q HQ. apply wpf_bind, Hp. intros [e|a] Hr; [by apply HQ|]. by apply Hf. Qed.

Lemma quietly_attempt {A B} (p : fprog A) (f : result A -> fprog B) v :
  quietly p v -> (forall r, benign r -> quietly (f r) v) -> quietly (fattempt p f) v.
Proof. intros Hp Hf Q HQ. apply wpf_attempt, Hp. intros r Hr. by apply Hf. Qed.

Lemma quietly_ret {A} (a : A) v : quietly (FRet a) v.
Proof. intros Q HQ. by apply (HQ (inr a)). Qed.

Lemma quietly_throw {A} e v : has_code WriteConflict e = false -> quietly (FThrow (A := A) e) v.
Proof. intros He Q HQ. by apply (HQ (inl e)). Qed.

Lemma quietly_call {X} (c : call X) v : (forall s x s', call_step fold_name real_root c s x s' -> s' = s) ->
  quietly (perform c) v.
Proof. intros Hs Q HQ. apply wpf_perform, wpf_quiet; [done|]. intros. by apply (HQ (inr x)). Qed.

(** *** Changing what is known *)

Definition set_temp (v : view) (x : option (jsstr * option (path * bytes))) : view := View (v_out v) (v_caller v) (v_known v) x.
Definition set_out (v : view) (r : result answer) : view := View (Some r) (v_caller v) (v_known v) (v_temp v).
Definition set_known (v : view) (o : option bytes) : view := View (v_out v) (v_caller v) (Some o) (v_temp v).
Definition set_caller (v : view) (c : option caller) : view := View (v_out v) c (v_known v) (v_temp v).

(** *** Staging files and the marker *)

(** A path whose last name is the staging name with suffix [x]. *)
Definition staged_as (x : jsstr) (q : path) : Prop := (exists q0, q = q0 ++ [TEMP_PREFIX ++ x]) /\ fold_path fold_name q = q.

Lemma staged_hidden x q : staged_as x q -> hidden q.
Proof. intros [[q0 ->] _]. exists q0, (TEMP_PREFIX ++ x). done. Qed.

Lemma staged_suffix x x' q q0 : staged_as x q -> q = q0 ++ [TEMP_PREFIX ++ x'] -> x' = x.
Proof. intros [[q1 ->] _] [_ E]%app_inj_tail. by apply app_inv_head in E. Qed.

Lemma tempPathFor_staged p x : Forall (fun n => Forall (fun u => u ∈ codec_alphabet) n) p ->
  Forall (fun u => u ∈ js "abcdefghijklmnopqrstuvwxyz0123456789-") x -> staged_as x (tempPathFor p x).
Proof.
  intros Hp Hx. split; [by eexists|]. apply (fold_names fold_name K Hset). unfold tempPathFor. apply Forall_app. split.
  - unfold dirname. destruct (decide (p = [])) as [->|Hne]; [done|]. destruct (exists_last Hne) as (p0 & n & ->).
    rewrite removelast_last. by apply Forall_app in Hp as [Hp _].
  - apply Forall_singleton, Forall_app. split; [apply (bool_decide_unpack _); vm_compute; exact I|].
    eapply Forall_impl; [exact Hx|]. intros u Hu. revert u Hu. apply Forall_forall. apply (bool_decide_unpack _).
    vm_compute. exact I.
Qed.

Lemma key_staged k p x : key_at K k p -> Forall (fun u => u ∈ js "abcdefghijklmnopqrstuvwxyz0123456789-") x ->
  staged_as x (tempPathFor p x).
Proof. intros Hk. apply tempPathFor_staged. by apply portable_alphabet, (key_names fold_name K Hset k). Qed.

Lemma marker_names : Forall (fun n => Forall (fun u => u ∈ codec_alphabet) n) marker_path.
Proof. apply (bool_decide_unpack _). vm_compute. exact I. Qed.

Lemma marker_hidden : hidden marker_path.
Proof. by exists [], FORMAT_MARKER. Qed.

Lemma marker_not_staged x q0 : marker_path <> q0 ++ [TEMP_PREFIX ++ x].
Proof. unfold marker_path. change [FORMAT_MARKER] with ([] ++ [FORMAT_MARKER]). by intros [_ E]%app_inj_tail. Qed.

(** Writing one hidden entry that is nobody else's staging file. *)
Lemma moves_hidden v s st T q d' temp' : global_ok s st T -> local_ok t op v s st T ->
  writes (files s) q d' -> tree_ok d' -> hidden q ->
  (forall x q0, q = q0 ++ [TEMP_PREFIX ++ x] -> exists c, v_temp v = Some (x, c)) ->
  (forall x c, temp' = Some (x, c) -> exists c', v_temp v = Some (x, c')) ->
  (forall x q b, temp' = Some (x, Some (q, b)) -> (exists q0, q = q0 ++ [TEMP_PREFIX ++ x]) /\ body_at d' q = Some b) ->
  moves t op v s st T (with_files d' s) (set_temp v temp').
Proof.
  intros Hg Hl Hw Ht Hh Hown Hkeep Hst. exists st, T. split; [by left|]. split; [|split; [|split]].
  - split; cbn [with_files files mutexes].
    + eapply writes_disk_ok; [exact Hset|apply Hg|done|done|by left].
    + eapply writes_hidden_holds; [exact Hset|apply Hg|done|done].
    + apply Hg.
    + apply Hg.
  - split; cbn [set_temp v_caller v_known v_temp with_files files temps]; [apply Hl|apply Hl| |done].
    intros x c Hx. apply Hkeep in Hx as [c' Hx]. by apply (l_temp _ _ _ _ _ _ Hl) in Hx.
  - split; cbn [with_files files temps]; [done|by left|done|].
    intros x q0 Hx Hno. apply (writes_body _ _ _ _ Hw). intros E. symmetry in E. destruct (Hown x q0 E) as [c Hc].
    by apply (Hno c).
  - intros x c Hx. left. by apply (Hkeep x c).
Qed.

Lemma wpf_tempname {A} (k : jsstr -> fprog A) Q v :
  (forall x, Forall (fun u => u ∈ js "abcdefghijklmnopqrstuvwxyz0123456789-") x -> wpf (k x) Q (set_temp v (Some (x, None)))) ->
  wpf (FCall TempName k) Q v.
Proof.
  intros Hk s st T Hg Hl x s' (Hx & Ha & ->). exists (set_temp v (Some (x, None))). split; [|by apply Hk].
  exists st, T. split; [by left|]. split; [split; apply Hg|]. split; [|split].
  - split; cbn [set_temp v_caller v_known v_temp temps]; [apply Hl|apply Hl| |congruence].
    intros y c [= <- <-]. set_solver.
  - split; cbn [temps files]; [done|by left|set_solver|done].
  - intros y c [= <- <-]. by right.
Qed.

(** Giving up what is known of the staging file. *)
Lemma moves_drop v s st T c' x : global_ok s st T -> local_ok t op v s st T ->
  v_temp v = Some (x, c') -> forall temp', temp' = Some (x, None) \/ temp' = None -> moves t op v s st T s (set_temp v temp').
Proof.
  intros Hg Hl Hx temp' Ht. exists st, T. split; [by left|]. split; [done|]. split; [|split].
  - split; cbn [set_temp v_caller v_known v_temp]; [apply Hl|apply Hl| |naive_solver].
    intros y c E. destruct Ht as [->| ->]; simplify_eq. by eapply (l_temp _ _ _ _ _ _ Hl).
  - split; [done|by left|done|done].
  - intros y c E. left. destruct Ht as [->| ->]; cbn in E; simplify_eq. by exists c'.
Qed.

Lemma wpf_write_temp {A} x c q b (k : errno + unit -> fprog A) Q v :
  v_temp v = Some (x, c) -> staged_as x q ->
  wpf (k (inr tt)) Q (set_temp v (Some (x, Some (q, b)))) ->
  (forall e, e <> EEXIST -> wpf (k (inl e)) Q (set_temp v (Some (x, None)))) ->
  wpf (FCall (WriteFile q b) k) Q v.
Proof.
  intros Hx Hq Hok Herr s st T Hg Hl r s' Hs. pose proof (disk_tree _ _ (g_disk _ _ _ Hg)) as Ht.
  assert (Hw : forall b' d, fs_writeFile fold_name q b' (files s) = inr d ->
      writes (files s) q d /\ tree_ok d /\ body_at d q = Some b').
  { intros b' d Hd. apply writeFile_writes in Hd; [|done]. by rewrite (proj2 Hq) in Hd. }
  assert (Hown : forall x' q0, q = q0 ++ [TEMP_PREFIX ++ x'] -> exists c, v_temp v = Some (x', c)).
  { intros x' q0 E. rewrite (staged_suffix x x' q q0) by done. by exists c. }
  cbn [call_step] in Hs. destruct Hs as [(d & Hd & -> & ->)|[(e & He & -> & ->)|(-> & Hs)]].
  - destruct (Hw b d Hd) as (Hwr & Htd & Hb). exists (set_temp v (Some (x, Some (q, b)))). split; [|done].
    apply moves_hidden with (q := q); try done; [by eapply staged_hidden|by intros y c' [= <- <-]; exists c|].
    intros y q' b' [= <- <- <-]. split; [by apply Hq|done].
  - exists (set_temp v (Some (x, None))). split; [eapply moves_drop; [done..|by left]|]. apply Herr. intros ->.
    unfold fs_writeFile in He. destruct (resolve _ _ _) as [e|] eqn:Er; [|by destruct (is_directory _ _)].
    apply resolve_errors in Er. naive_solver.
  - exists (set_temp v (Some (x, None))). split; [|by apply Herr]. destruct Hs as [->|(b' & d & Hd & ->)].
    + eapply moves_drop; [done..|by left].
    + destruct (Hw b' d Hd) as (Hwr & Htd & Hb). apply moves_hidden with (q := q); try done.
      * by eapply staged_hidden.
      * by intros y c' [= <- <-]; exists c.
Qed.

Lemma wpf_discard x c q Q v : v_temp v = Some (x, c) -> staged_as x q ->
  Q (inr tt) (set_temp v None) -> wpf (discard q) Q v.
Proof.
  intros Hx Hq HQ. unfold discard. apply wpf_bind, wpf_perform.
  intros s st T Hg Hl r s' Hs. exists (set_temp v None). split; [|done]. cbn [call_step] in Hs.
  destruct Hs as [(d & Hd & -> & ->)|(-> & _)].
  - apply rm_writes in Hd as (Hw & Ht & _); [|by apply disk_tree with (K := K), Hg]. rewrite (proj2 Hq) in Hw.
    apply moves_hidden with (q := q); try done; [by eapply staged_hidden|].
    intros x' q0 E. rewrite (staged_suffix x x' q q0) by done. by exists c.
  - eapply moves_drop; eauto.
Qed.

Lemma wpf_link_marker {A} x q b (k : errno + unit -> fprog A) Q v :
  v_temp v = Some (x, Some (q, b)) -> (forall r, wpf (k r) Q v) -> wpf (FCall (Link q marker_path) k) Q v.
Proof.
  intros Hx Hk s st T Hg Hl r s' Hs. exists v. split; [|done]. cbn [call_step] in Hs.
  assert (Hm : fold_path fold_name marker_path = marker_path) by apply (fold_names fold_name K Hset), marker_names.
  destruct Hs as [(d & Hd & -> & ->)|(-> & _)]; [|by apply moves_stay].
  apply link_writes in Hd as (b' & _ & _ & Hw & Ht & _); [|by apply disk_tree with (K := K), Hg]. rewrite Hm in Hw.
  assert (E : v = set_temp v (v_temp v)) by by destruct v. rewrite E at 2.
  apply moves_hidden with (q := marker_path); try done; [apply marker_hidden| |by eauto|].
  - intros x' q0 E'. by apply marker_not_staged in E'.
  - intros x' q' b'' E'. destruct (l_staged _ _ _ _ _ _ Hl x' q' b'' E') as [[q0 ->] Hb]. split; [by eexists|].
    rewrite (writes_body _ _ _ _ Hw); [done|]. intros E2. by symmetry in E2; apply marker_not_staged in E2.
Qed.

(** *** Directories, memo fields and the lock *)

Lemma moves_grows v s st T d' new : global_ok s st T -> local_ok t op v s st T -> grows (files s) d' new ->
  (forall q k, files s !! q = None -> new q -> key_at K k q -> False) -> moves t op v s st T (with_files d' s) v.
Proof.
  intros Hg Hl Hd Hnew. exists st, T. split; [by left|]. split; [|split; [|split]].
  - split; cbn [with_files files mutexes]; [|eapply grows_holds; [apply Hg|exact Hd]|apply Hg|apply Hg].
    eapply grows_disk_ok; [apply Hg|exact Hd|exact Hnew].
  - split; cbn [with_files files temps]; [apply Hl|apply Hl|apply Hl|].
    intros x q b Hx. destruct (l_staged _ _ _ _ _ _ Hl x q b Hx) as [? Hb]. split; [done|]. by rewrite (grows_body _ _ _ q Hd).
  - split; cbn [with_files files temps]; [done|by left|done|]. intros x q _ _. apply (grows_body _ _ _ _ Hd).
  - intros x c Hx. left. by exists c.
Qed.

Lemma wpf_mkdir {A} p (k : errno + unit -> fprog A) Q v : fold_path fold_name p = p ->
  (forall d q k', is_directory d [] = true -> d !! q = None -> q `prefix_of` p -> key_at K k' q -> False) ->
  (forall r, wpf (k r) Q v) -> wpf (FCall (Mkdir p) k) Q v.
Proof.
  intros Hf Hp Hk s st T Hg Hl r s' Hs. exists v. split; [|done]. cbn [call_step] in Hs.
  pose proof (g_disk _ _ _ Hg) as Hd. assert (Hone : forall p0, p0 `prefix_of` p ->
    moves t op v s st T (with_files (fs_mkdir fold_name p0 (files s)).2 s) v).
  { intros p0 Hp0. apply moves_grows with (new := fun q => q `prefix_of` fold_path fold_name p0); [done..| |].
    - apply mkdir_grows. apply Hd.
    - intros q k' Hq Hpre Hk'. apply (Hp (files s) q k'); [apply Hd|done| |done].
      assert (Hp0' : fold_path fold_name p0 `prefix_of` fold_path fold_name p).
      { destruct Hp0 as [z ->]. unfold fold_path. rewrite fmap_app. by apply prefix_app_r. }
      rewrite Hf in Hp0'. by etrans. }
  destruct Hs as [(_ & ->)|[(_ & p0 & Hp0 & ->)|(_ & ->)]]; [by apply Hone|by apply Hone|by apply moves_stay].
Qed.

Lemma wpf_mkdir_root {A} (k : errno + unit -> fprog A) Q v : (forall r, wpf (k r) Q v) -> wpf (FCall (Mkdir []) k) Q v.
Proof.
  apply wpf_mkdir; [done|]. intros d q k' Hd Hq Hpre%prefix_nil_inv. subst. unfold is_directory in Hd. by rewrite Hq in Hd.
Qed.

Lemma wpf_mkdir_key {A} k' p (k : errno + unit -> fprog A) Q v : key_at K k' p ->
  (forall r, wpf (k r) Q v) -> wpf (FCall (Mkdir (dirname p)) k) Q v.
Proof.
  intros Hp. apply wpf_mkdir.
  - apply (fold_names fold_name K Hset). unfold dirname. pose proof (key_names fold_name K Hset k' p Hp) as Hn%portable_alphabet.
    destruct (exists_last (key_path_nonempty fold_name K Hset k' p Hp)) as (p0 & n & ->). rewrite removelast_last.
    by apply Forall_app in Hn as [Hn _].
  - intros d q k2 _ _ Hpre Hk2. by apply (dirname_not_key fold_name K Hset k' k2 p q).
Qed.

Lemma quietly_setmemo i f v : (forall m r, (forall r, realRoot m = Some r -> r = real_root) -> realRoot (f m) = Some r -> r = real_root) ->
  quietly (perform (SetMemo i f)) v.
Proof.
  intros Hf Q HQ. apply wpf_perform. intros s st T Hg Hl x s' Hs. cbn [call_step] in Hs. subst s'. exists v.
  split; [|by apply (HQ (inr x))]. exists st, T. split; [by left|]. split; [|split; [|split]].
  - split; cbn [files mutexes]; [apply Hg..|]. intros j r. unfold memo_of. cbn [memos].
    destruct (decide (inst_id j = inst_id i)) as [E|Hne].
    + rewrite E, lookup_insert_eq. cbn [default from_option id]. apply Hf. intros r'. apply (g_memos _ _ _ Hg).
    + rewrite lookup_insert_ne by congruence. apply (g_memos _ _ _ Hg j).
  - split; apply Hl.
  - split; cbn [files temps]; [done|by left|done|done].
  - intros y c Hy. left. by exists c.
Qed.

Lemma wpf_register {A} key (k : ticket -> fprog A) Q v : v_caller v = None -> v_known v = None ->
  (forall tk, wpf (k tk) Q (set_caller v (Some (Caller key tk false)))) -> wpf (FCall (Register key) k) Q v.
Proof.
  intros Hc Hn Hk s st T Hg Hl x s' [-> ->]. eexists. split; [|by apply Hk].
  assert (HT : T !! t = None) by (rewrite <- Hc; apply Hl).
  exists st, (<[t := Caller key ((register key (mutexes s)).1) false]> T). split; [by left|]. split; [|split; [|split]].
  - split; cbn [with_mutexes files mutexes]; [apply Hg..| |apply Hg]. apply register_ok; [apply Hg|done].
  - split; cbn [set_caller v_caller v_known v_temp with_mutexes files temps]; [by rewrite lookup_insert_eq|congruence|apply Hl|apply Hl].
  - split; cbn [with_mutexes files temps]; [|by left|done|done]. intros j Hj. by rewrite lookup_insert_ne.
  - intros y c Hy. left. by exists c.
Qed.

Lemma wpf_await {A} key tk (k : unit -> fprog A) Q v : v_caller v = Some (Caller key tk false) -> v_known v = None ->
  wpf (k tt) Q (set_caller v (Some (Caller key tk true))) -> wpf (FCall (Await tk) k) Q v.
Proof.
  intros Hc Hn Hk s st T Hg Hl [] s' [He ->]. exists (set_caller v (Some (Caller key tk true))). split; [|done].
  assert (HT : T !! t = Some (Caller key tk false)) by (rewrite <- Hc; apply Hl).
  exists st, (<[t := Caller key tk true]> T). split; [by left|]. split; [|split; [|split]].
  - split; [apply Hg..| |apply Hg]. by eapply enter_ok; [apply Hg| |].
  - split; cbn [set_caller v_caller v_known v_temp]; [by rewrite lookup_insert_eq|congruence|apply Hl|apply Hl].
  - split; [|by left|done|done]. intros j Hj. by rewrite lookup_insert_ne.
  - intros y c Hy. left. by exists c.
Qed.

Lemma wpf_release {A} key tk (k : unit -> fprog A) Q v : v_caller v = Some (Caller key tk true) ->
  wpf (k tt) Q (View (v_out v) None None (v_temp v)) -> wpf (FCall (Release key tk) k) Q v.
Proof.
  intros Hc Hk s st T Hg Hl [] s' ->. exists (View (v_out v) None None (v_temp v)). split; [|done].
  assert (HT : T !! t = Some (Caller key tk true)) by (rewrite <- Hc; apply Hl).
  exists st, (delete t T). split; [by left|]. split; [|split; [|split]].
  - split; cbn [with_mutexes files mutexes]; [apply Hg..| |apply Hg]. apply release_ok; [apply Hg|done].
  - split; cbn [v_caller v_known v_temp with_mutexes files temps]; [by rewrite lookup_delete_eq|congruence|apply Hl|apply Hl].
  - split; cbn [with_mutexes files temps]; [|by left|done|done]. intros j Hj. by rewrite lookup_delete_ne.
  - intros y c Hy. left. by exists c.
Qed.

(** *** Steps that read or write the call's own object *)

Definition tagged (o : option bytes) : option StoredObject := (fun b => Stored b (etagOf sha256_hex b)) <$> o.

(** Taking effect without changing the disk. *)
Lemma moves_out v s st T r : global_ok s st T -> local_ok t op v s st T -> v_out v = None ->
  spec_op sha256_hex st op r st -> moves t op v s st T s (set_out v r).
Proof.
  intros Hg Hl Hv Hr. exists st, T. split; [right; by exists r|]. split; [done|]. split; [|split].
  - split; apply Hl.
  - split; [done|by left|done|done].
  - intros x c Hx. left. by exists c.
Qed.

Lemma wpf_read_key {A} p (k : errno + bytes -> fprog A) (next : option bytes -> view) Q v : key_at K (op_key op) p ->
  (forall s st T, global_ok s st T -> local_ok t op v s st T -> moves t op v s st T s (next (st !! op_key op))) ->
  (forall b, wpf (k (inr b)) Q (next (Some b))) -> wpf (k (inl ENOENT)) Q (next None) -> wpf (k (inl EOTHER)) Q v ->
  wpf (FCall (ReadFile p) k) Q v.
Proof.
  intros Hp Hnext Hs Hn He s st T Hg Hl x s' [-> Hx].
  rewrite (readFile_key fold_name K Hset st (files s) (op_key op) p) in Hx; [|apply Hg|apply Hg|done].
  destruct Hx as [->| ->]; [|exists v; split; [by apply moves_stay|done]].
  exists (next (st !! op_key op)). split; [by apply Hnext|]. by destruct (st !! op_key op).
Qed.

(** Publishing at the key's path: the store takes what the disk then holds. *)
Lemma moves_key v s st T p d' r : key_at K (op_key op) p -> global_ok s st T -> local_ok t op v s st T ->
  holds_lock op v -> v_out v = None -> disk_ok K d' ->
  (forall k q, key_at K k q -> q <> p -> body_at d' q = body_at (files s) q) ->
  (forall x q, (exists c, v_temp v = Some (x, c)) \/ body_at d' (q ++ [TEMP_PREFIX ++ x]) = body_at (files s) (q ++ [TEMP_PREFIX ++ x])) ->
  spec_op sha256_hex st op r (partial_alter (fun _ => body_at d' p) (op_key op) st) ->
  forall temp', temp' = None \/ (exists x c, v_temp v = Some (x, c) /\ temp' = Some (x, None)) ->
  moves t op v s st T (with_files d' s) (View (Some r) (v_caller v) None temp').
Proof.
  intros Hp Hg Hl Hlock Hv Hd Hsame Hst Hr temp' Htemp.
  exists (partial_alter (fun _ => body_at d' p) (op_key op) st), T. split; [right; by exists r|]. split; [|split; [|split]].
  - split; cbn [with_files files mutexes]; [done| |apply Hg|apply Hg]. intros k q Hk.
    destruct (decide (k = op_key op)) as [->|Hne].
    + rewrite lookup_partial_alter_eq. by rewrite (key_at_fun K (op_key op) p q).
    + rewrite lookup_partial_alter_ne by done. rewrite (g_store _ _ _ Hg k q Hk). symmetry. apply (Hsame k q Hk).
      intros ->. by apply Hne, (key_at_inj fold_name K Hset k (op_key op) p).
  - split; cbn [v_caller v_known v_temp with_files files temps]; [apply Hl|done| |naive_solver].
    intros x c Hx. destruct Htemp as [->|(y & c' & Hy & ->)]; [done|]. simplify_eq. by eapply (l_temp _ _ _ _ _ _ Hl).
  - split; cbn [with_files files temps]; [done| |done|].
    + intros k. destruct (decide (k = op_key op)) as [?|Hne]; [by right|left]. by rewrite lookup_partial_alter_ne.
    + intros x q _ Hno. destruct (Hst x q) as [[c Hc]|?]; [by apply Hno in Hc|done].
  - intros x c Hx. cbn [v_temp] in Hx. destruct Htemp as [->|(y & c' & Hy & ->)]; [done|]. simplify_eq. left. by exists c'.
Qed.

Lemma key_not_hidden p : key_at K (op_key op) p -> ~ hidden p.
Proof. intros Hp. by apply (prefix_not_hidden fold_name K Hset (op_key op) p p). Qed.

Lemma key_not_staged p q0 x : key_at K (op_key op) p -> q0 ++ [TEMP_PREFIX ++ x] <> p.
Proof. intros Hp E. apply (key_not_hidden p Hp). by exists q0, (TEMP_PREFIX ++ x). Qed.

Lemma spec_insert st key b opts d' p : op = OpPut key b opts -> body_at d' p = Some b ->
  put_precondition opts (tagged (st !! key)) = true ->
  spec_op sha256_hex st op (inr (AnsPut (etagOf sha256_hex b))) (partial_alter (fun _ => body_at d' p) (op_key op) st).
Proof. intros -> -> Hpre. by apply spec_put. Qed.

Lemma wpf_link_key {A} p x q key b opts (k : errno + unit -> fprog A) Q v :
  op = OpPut key b opts -> ifNoneMatch opts = true -> ifMatch opts = None ->
  key_at K (op_key op) p -> v_temp v = Some (x, Some (q, b)) -> staged_as x q -> holds_lock op v -> v_out v = None ->
  wpf (k (inr tt)) Q (View (Some (inr (AnsPut (etagOf sha256_hex b)))) (v_caller v) None (Some (x, None))) ->
  wpf (k (inl EEXIST)) Q (set_out v (inl (new_error WriteConflict))) ->
  (forall e, e <> EEXIST -> wpf (k (inl e)) Q v) ->
  wpf (FCall (Link q p) k) Q v.
Proof.
  intros Eop Hn Hm Hp Hx Hq Hlock Hv Hok Hex Herr s st T Hg Hl r s' Hs. cbn [call_step] in Hs.
  pose proof (g_disk _ _ _ Hg) as Hd. pose proof (fold_key fold_name K Hset _ _ Hp) as Hfp.
  destruct Hs as [(d & Hr & -> & ->)|(-> & Hs)].
  - eexists. split; [|exact Hok]. apply link_writes in Hr as (b' & Hb' & Hnone & Hw & Ht & Hb); [|apply Hd].
    rewrite Hfp in *. rewrite (proj2 Hq) in Hb'.
    destruct (l_staged _ _ _ _ _ _ Hl x q b Hx) as [_ Hbq]. assert (b' = b) as -> by congruence.
    apply moves_key with (p := p); try done.
    + eapply writes_disk_ok; [exact Hset|exact Hd|done|exact Hw|right; by eexists].
    + intros k' q' _ Hne. by apply (writes_body _ _ _ _ Hw).
    + intros x' q'. right. apply (writes_body _ _ _ _ Hw). by apply key_not_staged.
    + eapply spec_insert; [done..|]. unfold put_precondition, tagged. rewrite Hn, Hm.
      assert (Hst : st !! key = None).
      { replace key with (op_key op) by (by rewrite Eop). rewrite (g_store _ _ _ Hg _ p Hp). unfold body_at. by rewrite Hnone. }
      by rewrite Hst.
    + right. by exists x, (Some (q, b)).
  - destruct Hs as [->|(e & He & ->)]; [exists v; split; [by apply moves_stay|by apply Herr]|].
    destruct (decide (e = EEXIST)) as [->|Hne]; [|exists v; split; [by apply moves_stay|by apply Herr]].
    eexists. split; [|exact Hex]. apply moves_out; [done..|]. rewrite Eop. apply spec_conflict.
    unfold put_precondition, tagged. rewrite Hn. apply link_exists in He. rewrite Hfp in He.
    assert (Hst : is_Some (st !! key)).
    { replace key with (op_key op) by (by rewrite Eop). rewrite (g_store _ _ _ Hg _ p Hp). unfold body_at.
      destruct (disk_keys _ _ Hd _ _ Hp) as [Hnd _]. unfold is_directory in Hnd.
      destruct (files s !! p) as [[? [|]]|]; done. }
    destruct Hst as [o ->]. cbn [fmap option_fmap option_map]. by rewrite bool_decide_eq_true_2.
Qed.

Lemma wpf_rename_key {A} p x q key b opts (k : errno + unit -> fprog A) Q v :
  op = OpPut key b opts ->
  (forall st : gmap jsstr bytes, (forall o, v_known v = Some o -> st !! key = o) -> put_precondition opts (tagged (st !! key)) = true) ->
  key_at K (op_key op) p -> v_temp v = Some (x, Some (q, b)) -> staged_as x q -> holds_lock op v -> v_out v = None ->
  wpf (k (inr tt)) Q (View (Some (inr (AnsPut (etagOf sha256_hex b)))) (v_caller v) None (Some (x, None))) ->
  (forall e, wpf (k (inl e)) Q v) ->
  wpf (FCall (Rename q p) k) Q v.
Proof.
  intros Eop Hpre Hp Hx Hq Hlock Hv Hok Herr s st T Hg Hl r s' Hs. cbn [call_step] in Hs.
  pose proof (g_disk _ _ _ Hg) as Hd. pose proof (fold_key fold_name K Hset _ _ Hp) as Hfp.
  destruct Hs as [(d & Hr & -> & ->)|(-> & Hs)];
    [|exists v; split; [by apply moves_stay|destruct Hs as [->|(e & _ & ->)]; by apply Herr]].
  eexists. split; [|exact Hok]. destruct Hq as [[q0 Eq] Hfq].
  apply rename_writes in Hr as (b' & d1 & Hb' & Ht & Hw1 & Hw2 & Hb);
    [|apply Hd|rewrite Hfp, Hfq, Eq; by apply key_not_staged]. rewrite Hfp, Hfq in *.
  destruct (l_staged _ _ _ _ _ _ Hl x q b Hx) as [_ Hbq]. assert (b' = b) as -> by congruence.
  assert (Hd1 : forall r, is_directory d r = is_directory (files s) r)
    by (intros r; by rewrite (writes_directory _ _ _ _ Hw2), (writes_directory _ _ _ _ Hw1)).
  assert (Hb1 : forall r, r <> q -> r <> p -> body_at d r = body_at (files s) r)
    by (intros r ? ?; by rewrite (writes_body _ _ _ _ Hw2), (writes_body _ _ _ _ Hw1)).
  assert (Hhq : hidden q) by (exists q0, (TEMP_PREFIX ++ x); by rewrite Eq).
  apply moves_key with (p := p); try done.
  - split; [rewrite Hd1; apply Hd|done|]. intros k' p' Hk'. destruct (disk_keys _ _ Hd k' p' Hk') as [H1 H2].
    split; [by rewrite Hd1|]. intros r Hr Hne. rewrite Hb1; [by apply H2| |].
    + intros ->. by apply (prefix_not_hidden fold_name K Hset k' p' q).
    + intros ->. by apply Hne, eq_sym, (key_at_nested fold_name K Hset (op_key op) k' p p').
  - intros k' q' Hk' Hne. apply Hb1; [|done]. intros ->. by apply (prefix_not_hidden fold_name K Hset k' q q).
  - intros x' q'. destruct (decide (x' = x)) as [->|Hne]; [left; by eexists|right]. apply Hb1.
    + rewrite Eq. intros [_ E]%app_inj_tail. by apply app_inv_head in E.
    + by apply key_not_staged.
  - eapply spec_insert; [done..|]. apply Hpre. intros o Ho.
    destruct (l_known _ _ _ _ _ _ Hl o Ho) as [_ <-]. by rewrite Eop.
  - right. by exists x, (Some (q, b)).
Qed.

Lemma wpf_rm_key {A} p key (k : errno + unit -> fprog A) Q v :
  op = OpDelete key -> key_at K (op_key op) p -> holds_lock op v -> v_out v = None -> v_known v = None -> v_temp v = None ->
  wpf (k (inr tt)) Q (set_out v (inr AnsDelete)) -> wpf (k (inl ENOENT)) Q (set_out v (inr AnsDelete)) ->
  (forall e, e <> ENOENT -> wpf (k (inl e)) Q v) ->
  wpf (FCall (Rm p) k) Q v.
Proof.
  intros Eop Hp Hlock Hv Hkn Htm Hok Hno Herr s st T Hg Hl r s' Hs. cbn [call_step] in Hs.
  pose proof (g_disk _ _ _ Hg) as Hd. pose proof (fold_key fold_name K Hset _ _ Hp) as Hfp.
  assert (Hspec : forall st', st' = delete key st -> spec_op sha256_hex st op (inr AnsDelete) st').
  { intros st' ->. rewrite Eop. apply spec_delete. }
  destruct Hs as [(d & Hr & -> & ->)|(-> & Hs)].
  - exists (set_out v (inr AnsDelete)). split; [|done]. apply rm_writes in Hr as (Hw & Ht & Hb); [|apply Hd]. rewrite Hfp in *.
    assert (E : set_out v (inr AnsDelete) = View (Some (inr AnsDelete)) (v_caller v) None (v_temp v))
      by (destruct v; cbn in *; by rewrite Hkn). rewrite E.
    apply moves_key with (p := p); try done.
    + eapply writes_disk_ok; [exact Hset|exact Hd|done|exact Hw|right; by eexists].
    + intros k' q' _ Hne. by apply (writes_body _ _ _ _ Hw).
    + intros x' q'. right. apply (writes_body _ _ _ _ Hw). by apply key_not_staged.
    + apply Hspec. rewrite Hb. by rewrite Eop.
    + by left.
  - destruct Hs as [->|(e & He & ->)]; [exists v; split; [by apply moves_stay|by apply Herr]|].
    destruct (decide (e = ENOENT)) as [->|Hne]; [|exists v; split; [by apply moves_stay|by apply Herr]].
    exists (set_out v (inr AnsDelete)). split; [|done]. apply moves_out; [done..|]. apply Hspec. symmetry.
    apply delete_id. replace key with (op_key op) by (by rewrite Eop). rewrite (g_store _ _ _ Hg _ p Hp). unfold body_at.
    unfold fs_rm in He. destruct (resolve_key fold_name K Hset (files s) (op_key op) p Hd Hp) as [Er|[_ ->]]; [|done].
    rewrite Er in He. destruct (disk_keys _ _ Hd _ _ Hp) as [Hnd _]. unfold is_directory in Hnd.
    by destruct (files s !! p) as [[? [|]]|].
Qed.

(** ** The adapter's programs *)

Lemma quietly_readExisting p v : quietly (readExisting p) v.
Proof.
  apply quietly_bind; [apply quietly_call; by intros s x s' [-> _]|]. intros [[]|b]; first [apply quietly_ret | by apply quietly_throw].
Qed.

Lemma quietly_marker v : quietly readFormatMarker v.
Proof.
  apply quietly_bind.
  - apply quietly_attempt; [apply quietly_readExisting|]. intros [e|b] _; [by apply quietly_throw|apply quietly_ret].
  - intros [b|]; [|apply quietly_ret]. destruct (marker_encoding b); [|by apply quietly_throw].
    destruct (strict_eq _ _); [apply quietly_ret|by apply quietly_throw].
Qed.

Lemma quietly_walk fuel skip stack out v : quietly (walk_loop fuel skip stack out) v.
Proof.
  revert stack out. induction fuel as [|fuel IH]; intros [|dir stack] out; cbn [walk_loop]; try apply quietly_ret.
  { intros Q HQ s st T Hg Hl []. }
  apply quietly_bind; [apply quietly_call; by intros s x s' [-> _]|].
  intros [[]|entries]; try by apply quietly_throw.
  - destruct (bool_decide _); [apply quietly_ret|apply IH].
  - destruct (sort_entries skip dir entries). apply IH.
Qed.

Lemma wpf_canonicalRoot i Q v : Q (inr real_root) v -> (forall e, has_code WriteConflict e = false -> Q (inl e) v) ->
  wpf (canonicalRoot i) Q v.
Proof.
  intros HQ He. unfold canonicalRoot. apply wpf_bind, wpf_perform, wpf_quiet; [by intros s x s' [-> _]|].
  intros s st T m Hg Hl [_ ->]. cbn [wpf]. destruct (realRoot (memo_of i s)) as [r|] eqn:Er.
  { pose proof (g_memos _ _ _ Hg i r Er) as ->. exact HQ. }
  apply wpf_bind, wpf_perform, wpf_quiet; [by intros s1 x s' [-> _]|].
  intros s1 st1 T1 x Hg1 Hl1 [_ Hx]. cbn [wpf]. rewrite (disk_root _ _ (g_disk _ _ _ Hg1)) in Hx. destruct Hx as [->| ->]; [|by apply He].
  apply wpf_bind. apply quietly_setmemo; [cbn; congruence|]. intros [e|[]] Hb; [by apply He|done].
Qed.

Lemma wpf_lockKey i p Q v : root i <> [slash] -> Q (inr (lock_text p)) v -> (forall e, has_code WriteConflict e = false -> Q (inl e) v) ->
  wpf (lockKey lower_case normalize_nfc i p) Q v.
Proof.
  intros Hi HQ He. unfold lockKey. apply wpf_bind, wpf_canonicalRoot; [|done]. cbn [wpf].
  unfold path_text at 1. rewrite bool_decide_eq_false_2, drop_app_length by done. done.
Qed.

Lemma quietly_canonicalRoot i v : quietly (canonicalRoot i) v.
Proof. intros Q HQ. apply wpf_canonicalRoot; [by apply (HQ (inr real_root))|]. intros e He. by apply (HQ (inl e)). Qed.

Lemma set_temp_none v : v_temp v = None -> set_temp v None = v.
Proof. intros E. destruct v. cbn in E. by subst. Qed.

(** A [finally] that discards the staging file of suffix [x]. *)
Lemma wpf_discard_finally {A} (p : fprog A) x q Q v : staged_as x q ->
  wpf p (fun r v' => (exists c, v_temp v' = Some (x, c)) /\ Q r (set_temp v' None)) v ->
  wpf (ffinally p (discard q)) Q v.
Proof.
  intros Hq Hp. apply wpf_finally. eapply wpf_mono; [|exact Hp]. intros r v' [[c Hx] HQ]. by eapply wpf_discard.
Qed.

Lemma quietly_stamp v : v_temp v = None -> quietly stampFormatMarker v.
Proof.
  intros Hv Q HQ. unfold stampFormatMarker. apply wpf_bind, wpf_perform, wpf_tempname. intros x Hx.
  pose proof (tempPathFor_staged marker_path x marker_names Hx) as Hq. eapply wpf_discard_finally; [exact Hq|].
  assert (Hend : forall r c, benign r -> (exists c', v_temp (set_temp v (Some (x, c))) = Some (x, c')) /\
    Q r (set_temp (set_temp v (Some (x, c))) None)).
  { intros r c Hr. split; [by eexists|]. change (Q r (set_temp v None)). rewrite set_temp_none by done. by apply HQ. }
  apply wpf_bind. unfold stage. apply wpf_bind, wpf_perform.
  assert (Hfail : forall c e, wpf (let! stamped := (if bool_decide (e = EEXIST) then readFormatMarker else FRet false) in
      if stamped : bool then FRet tt else FThrow wrapped)%fs
     (fun r v' => (exists c, v_temp v' = Some (x, c)) /\ Q r (set_temp v' None)) (set_temp v (Some (x, c)))).
  { intros c e. apply wpf_bind. case_bool_decide.
    - apply quietly_marker. intros [e'|[]] Hb; [by apply Hend|by apply Hend|by apply Hend].
    - by apply Hend. }
  eapply wpf_write_temp; [done|exact Hq| |].
  - apply wpf_perform. eapply wpf_link_marker; [done|]. intros [e|[]]; [apply Hfail|by apply Hend].
  - intros e _. apply Hfail.
Qed.

Lemma quietly_mkdir_root v : quietly (perform (Mkdir [])) v.
Proof. intros Q HQ. apply wpf_perform, wpf_mkdir_root. intros r. by apply (HQ (inr r)). Qed.

Lemma quietly_ensureFormat fuel i create v : v_temp v = None -> quietly (ensureFormat fuel i create) v.
Proof.
  intros Hv. assert (Hset' : quietly (perform (SetMemo i (fun m => Memo (realRoot m) true))) v).
  { apply quietly_setmemo. cbn. auto. }
  unfold ensureFormat. apply quietly_bind; [apply quietly_call; by intros s x s' [-> _]|]. intros m.
  destruct (formatChecked m); [apply quietly_ret|]. apply quietly_bind; [apply quietly_canonicalRoot|]. intros _.
  apply quietly_bind; [apply quietly_marker|]. intros [|]; [done|].
  apply quietly_bind.
  { destruct create; [|apply quietly_ret]. apply quietly_bind; [apply quietly_mkdir_root|].
    intros [e|[]]; [by apply quietly_throw|apply quietly_ret]. }
  intros _. apply quietly_bind.
  { apply quietly_bind; [apply quietly_walk|]. intros found. apply quietly_ret. }
  intros [paths|]; [|apply quietly_ret]. apply quietly_bind.
  { case_bool_decide; [apply quietly_ret|]. apply quietly_bind; [apply quietly_marker|]. intros b. apply quietly_ret. }
  intros [|]; [by apply quietly_throw|]. apply quietly_bind; [by apply quietly_stamp|]. intros _. done.
Qed.

Lemma quietly_throwIfAborted v : quietly throwIfAborted v.
Proof.
  apply quietly_bind; [apply quietly_call; by intros s x s' ->|]. intros [|]; [by apply quietly_throw|apply quietly_ret].
Qed.

(** ** The operations *)

(** How a call ends: with the answer it took effect with, or with a failure and no
    effect; it holds no ticket. *)
Definition ends (r : result answer) (v : view) : Prop :=
  v_caller v = None /\
  match v_out v with Some r' => r = r' | None => exists e, r = inl e /\ has_code WriteConflict e = false end.

Definition start : view := View None None None None.

(** A result handed on as an answer. *)
Definition ends_as {A} (f : A -> answer) (r : result A) (v : view) : Prop :=
  ends (match r with inl e => inl e | inr a => inr (f a) end) v.

Lemma wpf_as {A} (f : A -> answer) (p : fprog A) v : wpf p (ends_as f) v -> wpf (fbind p (fun a => FRet (f a))) ends v.
Proof. intros H. apply wpf_bind. eapply wpf_mono; [|exact H]. by intros [e|a] v'. Qed.

Lemma ends_failed {A} (f : A -> answer) e : has_code WriteConflict e = false -> ends_as f (inl e) start.
Proof. intros He. split; [done|]. by exists e. Qed.

(** The part the operations share: the signal, the path and the format check. *)
Lemma wpf_opening {A} (f : A -> answer) fuel i key create (rest : path -> fprog A) : op_key op = key ->
  (forall p, root i <> [slash] -> key_at K (op_key op) p -> wpf (rest p) (ends_as f) start) ->
  wpf (let! _ := throwIfAborted in let! p := of_sum (pathFor i key) in let! _ := ensureFormat fuel i create in rest p)%fs
    (ends_as f) start.
Proof.
  intros Ek Hrest. apply wpf_bind, quietly_throwIfAborted. intros [e|[]] Hb; [by apply ends_failed|].
  apply wpf_bind. destruct (pathFor i key) as [e|p] eqn:Ep; cbn [of_sum wpf].
  { apply ends_failed. by eapply pathFor_error. }
  apply wpf_bind, quietly_ensureFormat; [done|]. intros [e|[]] Hb'; [by apply ends_failed|].
  apply Hrest; [apply (pathFor_root _ _ _ Ep); rewrite <- Ek; by apply (keys_units _ _ Hset)|].
  apply pathFor_ok in Ep. by rewrite Ek; split; [rewrite <- Ek|].
Qed.

Lemma get_safe fuel i key m : op = OpGet key m -> wpf (op_prog lower_case normalize_nfc sha256_hex fuel i op) ends start.
Proof.
  intros Eop. rewrite Eop. cbn [op_prog]. apply wpf_as. apply wpf_opening; [by rewrite Eop|]. intros p Hroot Hp.
  apply wpf_bind, wpf_perform.
  set (answer_for := fun o : option bytes => match o with
    | None => None
    | Some b => if bool_decide (m = Some (etagOf sha256_hex b)) then None else Some (GetResult b (etagOf sha256_hex b)) end).
  apply wpf_read_key with (next := fun o => set_out start (inr (AnsGet (answer_for o)))); [done| | | |].
  - intros s st T Hg Hl. apply moves_out; [done..|]. rewrite Eop. cbn [op_key]. apply spec_get.
  - intros b. cbn [wpf]. unfold answer_for. destruct (bool_decide (m = _)); by split.
  - by split.
  - by apply ends_failed.
Qed.

(** Running a section under the key's lock: it starts with the lock and nothing else known,
    and must end with the lock. *)
Lemma wpf_withKeyLock {A} (f : A -> answer) i p (fn : fprog A) : root i <> [slash] -> encodeKey (op_key op) = inr p ->
  (forall tk, let held := View None (Some (Caller (lock_text p) tk true)) None None in
     wpf fn (fun r v => v_caller v = v_caller held /\ v_temp v = None /\ ends_as f r (set_caller v None)) held) ->
  wpf (let! lock := lockKey lower_case normalize_nfc i p in withKeyLock lock fn)%fs (ends_as f) start.
Proof.
  intros Hroot Hp Hfn. apply wpf_bind, wpf_lockKey; [done| |intros e He; by apply ends_failed]. unfold withKeyLock.
  apply wpf_bind, wpf_perform, wpf_register; [done..|]. intros tk. cbn [wpf].
  apply wpf_bind, wpf_perform. eapply wpf_await; [done..|]. cbn [wpf set_caller v_out v_known v_temp start].
  apply wpf_finally. eapply wpf_mono; [|exact (Hfn tk)]. intros r v (Hc & Ht & He).
  apply wpf_perform. eapply wpf_release; [exact Hc|]. cbn [wpf].
  assert (E : ends_as f r (View (v_out v) None None (v_temp v))) by (destruct He as [H1 H2]; by split).
  by destruct r.
Qed.

(** The opening of a section: the signal once more. *)
Lemma wpf_recheck {A} (rest : fprog A) Q v :
  (forall e, has_code WriteConflict e = false -> Q (inl e) v) -> wpf rest Q v ->
  wpf (let! _ := throwIfAborted in rest)%fs Q v.
Proof. intros He Hr. apply wpf_bind, quietly_throwIfAborted. intros [e|[]] Hb; [by apply He|done]. Qed.

(** What a put's program does once it has published or failed to. *)
Definition put_done (tk : ticket) (p : path) (r : result StoragePutResult) (v : view) : Prop :=
  v_caller v = Some (Caller (lock_text p) tk true) /\ v_temp v = None /\
  ends_as (fun r => AnsPut (put_etag r)) r (set_caller v None).

Lemma put_failed tk p e v : v_caller v = Some (Caller (lock_text p) tk true) -> v_temp v = None -> v_out v = None ->
  has_code WriteConflict e = false -> put_done tk p (inl e) v.
Proof. intros Hc Ht Ho He. split; [done|]. split; [done|]. split; [done|]. cbn. rewrite Ho. by exists e. Qed.

Lemma put_refused tk p v : v_caller v = Some (Caller (lock_text p) tk true) -> v_temp v = None ->
  v_out v = Some (inl (new_error WriteConflict)) -> put_done tk p (inl (new_error WriteConflict)) v.
Proof. intros Hc Ht Ho. split; [done|]. split; [done|]. split; [done|]. cbn. by rewrite Ho. Qed.

Lemma wpf_put_result tk p b v : v_caller v = Some (Caller (lock_text p) tk true) -> v_temp v = None ->
  v_out v = Some (inr (AnsPut (etagOf sha256_hex b))) -> wpf (put_result sha256_hex b) (put_done tk p) v.
Proof.
  intros Hc Ht Ho. unfold put_result. apply wpf_bind, wpf_perform, wpf_quiet; [by intros s x s' ->|].
  intros s st T now _ _ _. cbn [wpf]. split; [done|]. split; [done|]. split; [done|]. cbn. by rewrite Ho.
Qed.

(** How the publishing call of a put ends, its failures thrown as [fail] says. *)
Definition publish_outcome (b : bytes) (fail : errno -> js_error) (v : view) (x : jsstr) (r : errno + unit) (v' : view) : Prop :=
  v_caller v' = v_caller v /\ (exists c, v_temp v' = Some (x, c)) /\
  match r with
  | inr _ => v_out v' = Some (inr (AnsPut (etagOf sha256_hex b)))
  | inl e => (v_out v' = None /\ has_code WriteConflict (fail e) = false) \/
             (v_out v' = Some (inl (new_error WriteConflict)) /\ fail e = new_error WriteConflict)
  end.

Lemma wpf_staged tk p b (publish : path -> call (errno + unit)) (after : errno + unit -> fprog unit) fail v :
  v_caller v = Some (Caller (lock_text p) tk true) -> v_out v = None -> key_at K (op_key op) p ->
  after (inr tt) = FRet tt -> (forall e, after (inl e) = FThrow (fail e)) ->
  (forall e, e <> EEXIST -> has_code WriteConflict (fail e) = false) ->
  (forall x q (k : errno + unit -> fprog (errno + unit)) Q, staged_as x q ->
     (forall r v', publish_outcome b fail v x r v' -> wpf (k r) Q v') ->
     wpf (FCall (publish q) k) Q (set_temp v (Some (x, Some (q, b))))) ->
  wpf (let! suffix := perform TempName in
       let tmp := tempPathFor p suffix in
       let! _ := ffinally (let! r := stage tmp b (publish tmp) in after r) (discard tmp) in
       put_result sha256_hex b)%fs (put_done tk p) v.
Proof.
  intros Hc Ho Hp Hok Herr Hfail Hpub. apply wpf_bind, wpf_perform, wpf_tempname. intros x Hx. cbn [wpf].
  pose proof (key_staged _ p x Hp Hx) as Hq. cbv zeta. apply wpf_bind. eapply wpf_discard_finally; [exact Hq|].
  assert (Hend : forall r v', publish_outcome b fail v x r v' -> wpf (after r)
    (fun r v' => (exists c, v_temp v' = Some (x, c)) /\
       match r with
       | inl e => put_done tk p (inl e) (set_temp v' None)
       | inr _ => wpf (put_result sha256_hex b) (put_done tk p) (set_temp v' None)
       end) v').
  { intros [e|[]] v' (Hc' & Hx' & Hr).
    - rewrite Herr. cbn [wpf]. split; [done|]. destruct Hr as [[Ho' He]|[Ho' ->]].
      + apply put_failed; [by cbn; rewrite Hc'|done|done|done].
      + apply put_refused; [by cbn; rewrite Hc'|done|done].
    - rewrite Hok. cbn [wpf]. split; [done|]. apply wpf_put_result; [by cbn; rewrite Hc'|done|done]. }
  apply wpf_bind. unfold stage. apply wpf_bind, wpf_perform. eapply wpf_write_temp; [done|exact Hq| |].
  - cbn [wpf]. change (set_temp (set_temp v (Some (x, None))) (Some (x, Some (tempPathFor p x, b))))
      with (set_temp v (Some (x, Some (tempPathFor p x, b)))).
    apply wpf_perform, Hpub; [done|]. intros r v' Hr. cbn [wpf]. by apply Hend.
  - intros e He. cbn [wpf]. apply Hend. split; [done|]. split; [by eexists|]. left. split; [done|by apply Hfail].
Qed.

Lemma put_safe fuel i key b opts : op = OpPut key b opts -> (ifNoneMatch opts = true -> ifMatch opts = None) ->
  wpf (op_prog lower_case normalize_nfc sha256_hex fuel i op) ends start.
Proof.
  intros Eop Hopts. rewrite Eop. cbn [op_prog]. apply (wpf_as (fun r => AnsPut (put_etag r))).
  apply wpf_opening; [by rewrite Eop|]. intros p Hroot Hp.
  apply wpf_bind, wpf_perform. eapply wpf_mkdir_key; [exact Hp|]. intros [e|[]]; cbn [wpf]; [by apply ends_failed|].
  apply wpf_withKeyLock; [done|apply Hp|]. intros tk held.
  change (wpf (putSerialized sha256_hex p b opts) (put_done tk p) held). unfold putSerialized.
  assert (Hheld : holds_lock op held) by (exists p, tk; split; [apply Hp|done]).
  apply wpf_recheck; [intros e He; by apply put_failed|]. destruct (ifNoneMatch opts) eqn:En.
  - apply wpf_staged with (fail := fun e => if decide (e = EEXIST) then new_error WriteConflict else wrapped)
      (publish := fun q => Link q p); try done.
    + by intros [].
    + intros e He. by rewrite decide_False.
    + intros x q k Q Hq Hk. eapply wpf_link_key; [exact Eop|exact En|by apply Hopts|exact Hp|done|exact Hq|done|done|..].
      * apply Hk. split; [done|]. split; [by eexists|done].
      * apply Hk. split; [done|]. split; [by eexists|]. by right.
      * intros e He. apply Hk. split; [done|]. split; [by eexists|]. left. by rewrite decide_False.
  - assert (Hrest : forall v, v_caller v = v_caller held -> v_out v = None -> v_temp v = None ->
      (forall st : gmap jsstr bytes, (forall o, v_known v = Some o -> st !! key = o) -> put_precondition opts (tagged (st !! key)) = true) ->
      wpf (let! suffix := perform TempName in
           let tmp := tempPathFor p suffix in
           let! _ := ffinally (let! r := stage tmp b (Rename tmp p) in
                               match r with inr _ => FRet tt | inl _ => FThrow wrapped end) (discard tmp) in
           put_result sha256_hex b)%fs (put_done tk p) v).
    { intros v Hc Ho Ht Hpre. apply wpf_staged with (fail := fun _ => wrapped) (publish := fun q => Rename q p); try done.
      intros x q k Q Hq Hk. eapply wpf_rename_key; [exact Eop|exact Hpre|exact Hp|done|exact Hq| |done|..].
      - exists p, tk. split; [apply Hp|]. exact Hc.
      - apply Hk. split; [done|]. split; [by eexists|done].
      - intros e. apply Hk. split; [done|]. split; [by eexists|]. by left. }
    destruct (ifMatch opts) as [expected|] eqn:Em.
    + apply wpf_bind. unfold readExisting. apply wpf_bind, wpf_bind, wpf_perform.
      assert (Hpre : forall o, put_precondition opts (tagged o) =
        match o with Some c => bool_decide (etagOf sha256_hex c = expected) | None => false end).
      { intros [c|]; unfold put_precondition; by rewrite En, Em. }
      apply wpf_read_key with (next := fun o => if put_precondition opts (tagged o) then set_known held o
        else set_out held (inl (new_error WriteConflict))); [done| | | |].
      * intros s st T Hg Hl. destruct (put_precondition opts _) eqn:E.
        -- exists st, T. split; [by left|]. split; [done|]. split; [|split].
           ++ split; cbn [set_known v_caller v_known v_temp]; [apply Hl| |apply Hl|apply Hl]. by intros o [= <-].
           ++ split; [done|by left|done|done].
           ++ intros x c Hx. left. by exists c.
        -- apply moves_out; [done..|]. rewrite Eop. apply spec_conflict. by rewrite Eop in E.
      * intros c. cbn [wpf]. rewrite Hpre. case_bool_decide as Ec; cbn [wpf].
        -- apply Hrest; [done..|]. intros st Hst. rewrite (Hst _ eq_refl), Hpre. by rewrite bool_decide_eq_true_2.
        -- by apply put_refused.
      * cbn [wpf]. rewrite Hpre. by apply put_refused.
      * by apply put_failed.
    + apply wpf_bind. cbn [wpf]. apply Hrest; [done..|]. intros st _. unfold put_precondition. rewrite En, Em. done.
Qed.

Lemma delete_safe fuel i key : op = OpDelete key -> wpf (op_prog lower_case normalize_nfc sha256_hex fuel i op) ends start.
Proof.
  intros Eop. rewrite Eop. cbn [op_prog]. apply (wpf_as (fun _ => AnsDelete)).
  apply wpf_opening; [by rewrite Eop|]. intros p Hroot Hp. apply wpf_withKeyLock; [done|apply Hp|]. intros tk held.
  assert (Hheld : holds_lock op held) by (exists p, tk; split; [apply Hp|done]).
  assert (Hfail : forall e, has_code WriteConflict e = false ->
    v_caller held = v_caller held /\ v_temp held = None /\ ends_as (fun _ : unit => AnsDelete) (inl e) (set_caller held None)).
  { intros e He. split; [done|]. split; [done|]. split; [done|]. by exists e. }
  apply wpf_recheck; [done|]. apply wpf_bind, wpf_perform. eapply wpf_rm_key; [exact Eop|exact Hp|done..| | |].
  - cbn [wpf]. by split.
  - cbn [wpf]. by split.
  - intros e He. cbn [wpf]. destruct e; try done; by apply Hfail.
Qed.

End one_call.

(** ** The simulation *)

(** What other calls know survives a step of call [t]. *)
Lemma confined_stable j t opj opt vj vt s st T s' st' T' : j <> t -> global_ok s st T ->
  local_ok t opt vt s st T -> confined t opt vt s st T s' st' T' -> local_ok j opj vj s st T ->
  (forall x c c', v_temp vj = Some (x, c) -> v_temp vt = Some (x, c') -> j = t) -> local_ok j opj vj s' st' T'.
Proof.
  intros Hne Hg Ht Hf Hj Hdist. split.
  - rewrite (f_callers _ _ _ _ _ _ _ _ _ Hf j Hne). apply Hj.
  - intros o Ho. destruct (l_known _ _ _ _ _ _ Hj o Ho) as [Hlock <-]. split; [done|].
    destruct (f_store _ _ _ _ _ _ _ _ _ Hf (op_key opj)) as [|[Ek (p & tk & Hp & Hc)]]; [done|]. exfalso. destruct Hlock as (p' & tk' & Hp' & Hc').
    rewrite Ek, Hp in Hp'. injection Hp' as <-.
    apply Hne, (locks_exclusive (mutexes s) T j t (lock_text p) tk' tk); [apply Hg| |].
    + rewrite <- Hc'. apply Hj.
    + rewrite <- Hc. apply Ht.
  - intros x c Hx. apply (f_temps _ _ _ _ _ _ _ _ _ Hf). by eapply (l_temp _ _ _ _ _ _ Hj).
  - intros x q b Hx. destruct (l_staged _ _ _ _ _ _ Hj x q b Hx) as [[q0 ->] Hb]. split; [by eexists|].
    rewrite (f_staged _ _ _ _ _ _ _ _ _ Hf); [done|by eapply (l_temp _ _ _ _ _ _ Hj)|].
    intros c Hc. by eapply Hne, Hdist.
Qed.

(** The calls the theorem is about: keys in use, and at most one precondition on a put. *)
Definition allowed (op : storage_op) : Prop :=
  K (op_key op) /\ match op with OpPut _ _ opts => ifNoneMatch opts = true -> ifMatch opts = None | _ => True end.

Lemma op_safe t fuel i op : allowed op -> wpf t op (op_prog lower_case normalize_nfc sha256_hex fuel i op) ends start.
Proof.
  intros [HK Hopts]. destruct op as [key m|key b opts|key].
  - by eapply get_safe.
  - by eapply put_safe.
  - by eapply delete_safe.
Qed.

(** The concrete state and the atomic one agree, by what each call knows. *)
Record agree (w : pool) (a : atomic) (V : gmap nat (storage_op * view)) (T : callers) : Prop := {
  s_callers : forall t, T !! t = V !! t ≫= (fun ov => v_caller ov.2);
  s_global : global_ok (p_sys w) (a_store a) T;
  s_calls : forall t, a_calls a !! t = (fun ov => (ov.1, v_out ov.2)) <$> V !! t;
  s_none : forall t, p_calls w !! t = None <-> V !! t = None;
  s_views : forall t p op v, p_calls w !! t = Some p -> V !! t = Some (op, v) ->
    K (op_key op) /\ local_ok t op v (p_sys w) (a_store a) T /\ wpf t op p ends v;
  s_temps : forall i j opi opj vi vj x c c', V !! i = Some (opi, vi) -> V !! j = Some (opj, vj) ->
    v_temp vi = Some (x, c) -> v_temp vj = Some (x, c') -> i = j
}.

Abbreviation adapter_step := (pool_step fold_name lower_case normalize_nfc sha256_hex real_root allowed).
Abbreviation store_step := (atomic_step sha256_hex).

Lemma agree_view w a V T t p : agree w a V T -> p_calls w !! t = Some p -> exists op v, V !! t = Some (op, v).
Proof.
  intros Ha Hp. destruct (V !! t) as [[op v]|] eqn:E; [by eexists _, _|]. apply (s_none _ _ _ _ Ha) in E. congruence.
Qed.

Lemma agree_invoke w a V T t i op fuel : agree w a V T -> p_calls w !! t = None -> allowed op ->
  agree (Pool (p_sys w) (<[t := op_prog lower_case normalize_nfc sha256_hex fuel i op]> (p_calls w)))
    (Atomic (a_store a) (<[t := (op, None)]> (a_calls a))) (<[t := (op, start)]> V) T.
Proof.
  intros Ha Ht Hal. assert (Hv : V !! t = None) by by apply (s_none _ _ _ _ Ha).
  assert (HT : T !! t = None) by (rewrite (s_callers _ _ _ _ Ha), Hv; done).
  split; cbn [p_sys p_calls a_store a_calls].
  - intros j. destruct (decide (j = t)) as [->|Hne]; [by rewrite lookup_insert_eq|]. rewrite lookup_insert_ne by done.
    apply Ha.
  - apply Ha.
  - intros j. destruct (decide (j = t)) as [->|Hne]; [by rewrite !lookup_insert_eq|]. rewrite !lookup_insert_ne by done.
    apply Ha.
  - intros j. destruct (decide (j = t)) as [->|Hne]; [by rewrite !lookup_insert_eq|]. rewrite !lookup_insert_ne by done.
    apply Ha.
  - intros j p opj v. destruct (decide (j = t)) as [->|Hne].
    + rewrite !lookup_insert_eq. intros [= <-] [= <- <-]. split; [apply Hal|]. split; [|by apply op_safe]. by split.
    + rewrite !lookup_insert_ne by done. apply Ha.
  - intros i1 i2 op1 op2 v1 v2 x c c'. rewrite !lookup_insert_Some.
    intros [[<- E1]|[_ H1]] [[<- E2]|[_ H2]]; simplify_eq; try done. by apply (s_temps _ _ _ _ Ha i1 i2 op1 op2 v1 v2 x c c').
Qed.

Lemma agree_call w a V T t X (c : call X) k x s' : agree w a V T -> p_calls w !! t = Some (FCall c k) ->
  call_step fold_name real_root c (p_sys w) x s' ->
  exists a' V' T', agree (Pool s' (<[t := k x]> (p_calls w))) a' V' T' /\ runs store_step a [] a'.
Proof.
  intros Ha Hp Hs. destruct (agree_view _ _ _ _ _ _ Ha Hp) as (op & v & Hv).
  destruct (s_views _ _ _ _ Ha t _ op v Hp Hv) as (HK & Hl & Hw).
  destruct (Hw _ _ _ (s_global _ _ _ _ Ha) Hl x s' Hs) as (v' & (st' & T' & He & Hg' & Hl' & Hf & Hk) & Hw').
  exists (Atomic st' (<[t := (op, v_out v')]> (a_calls a))), (<[t := (op, v')]> V), T'. split.
  - split; cbn [p_sys p_calls a_store a_calls].
    + intros j. destruct (decide (j = t)) as [->|Hne].
      * rewrite lookup_insert_eq. apply Hl'.
      * rewrite lookup_insert_ne by done. rewrite (f_callers _ _ _ _ _ _ _ _ _ Hf j Hne). apply Ha.
    + done.
    + intros j. destruct (decide (j = t)) as [->|Hne]; [by rewrite !lookup_insert_eq|]. rewrite !lookup_insert_ne by done.
      apply Ha.
    + intros j. destruct (decide (j = t)) as [->|Hne]; [by rewrite !lookup_insert_eq|]. rewrite !lookup_insert_ne by done.
      apply Ha.
    + intros j p opj vj. destruct (decide (j = t)) as [->|Hne].
      * rewrite !lookup_insert_eq. intros [= <-] [= <- <-]. done.
      * rewrite !lookup_insert_ne by done. intros Hpj Hvj.
        destruct (s_views _ _ _ _ Ha j p opj vj Hpj Hvj) as (HKj & Hlj & Hwj). split; [done|]. split; [|done].
        eapply (confined_stable j t opj op vj v); [done|apply Ha|exact Hl|exact Hf|exact Hlj|].
        intros y c1 c2 H1 H2. by eapply (s_temps _ _ _ _ Ha).
    + assert (Hnew : forall j opj vj y c1 c2, j <> t -> V !! j = Some (opj, vj) -> v_temp vj = Some (y, c1) ->
        v_temp v' = Some (y, c2) -> False).
      { intros j opj vj y c1 c2 Hne Hvj Hy Hy'. destruct (Hk y c2 Hy') as [[c3 Hc3]|Hfresh].
        - by eapply Hne, (s_temps _ _ _ _ Ha).
        - apply Hfresh. destruct (p_calls w !! j) as [pj|] eqn:Epj.
          + destruct (s_views _ _ _ _ Ha j pj opj vj Epj Hvj) as (_ & Hlj & _). by eapply (l_temp _ _ _ _ _ _ Hlj).
          + apply (s_none _ _ _ _ Ha) in Epj. congruence. }
      intros i1 i2 op1 op2 v1 v2 y c1 c2. rewrite !lookup_insert_Some.
      intros [[<- E1]|[N1 H1]] [[<- E2]|[N2 H2]] Y1 Y2; simplify_eq; try done.
      * exfalso. by eapply (Hnew i2).
      * exfalso. by eapply (Hnew i1).
      * by apply (s_temps _ _ _ _ Ha i1 i2 op1 op2 v1 v2 y c1 c2).
  - destruct He as [[Eo ->]|(r & Ho & Ho' & Hspec)].
    + rewrite Eo, insert_id; [by destruct a; apply runs_nil|]. rewrite (s_calls _ _ _ _ Ha), Hv. done.
    + rewrite Ho'. eapply runs_silent; [|apply runs_nil]. apply atomic_effect; [|done].
      rewrite (s_calls _ _ _ _ Ha), Hv. cbn. by rewrite Ho.
Qed.

Lemma agree_return w a V T t p r : agree w a V T -> p_calls w !! t = Some p ->
  match p with FRet x => r = inr x | FThrow e => r = inl e | FCall _ _ => False end ->
  exists a', agree (Pool (p_sys w) (delete t (p_calls w))) a' (delete t V) T /\ runs store_step a [Return t r] a'.
Proof.
  intros Ha Hp Hr. destruct (agree_view _ _ _ _ _ _ Ha Hp) as (op & v & Hv).
  destruct (s_views _ _ _ _ Ha t _ op v Hp Hv) as (HK & Hl & Hw).
  assert (He : ends r v) by (destruct p; by subst). destruct He as [Hc He].
  assert (HT : T !! t = None) by (rewrite (s_callers _ _ _ _ Ha), Hv; done).
  assert (Hcall : a_calls a !! t = Some (op, v_out v)) by (rewrite (s_calls _ _ _ _ Ha), Hv; done).
  exists (Atomic (a_store a) (delete t (a_calls a))). split.
  - split; cbn [p_sys p_calls a_store a_calls].
    + intros j. destruct (decide (j = t)) as [->|Hne]; [by rewrite lookup_delete_eq|]. rewrite lookup_delete_ne by done.
      apply Ha.
    + apply Ha.
    + intros j. destruct (decide (j = t)) as [->|Hne]; [by rewrite !lookup_delete_eq|]. rewrite !lookup_delete_ne by done.
      apply Ha.
    + intros j. destruct (decide (j = t)) as [->|Hne]; [by rewrite !lookup_delete_eq|]. rewrite !lookup_delete_ne by done.
      apply Ha.
    + intros j q opj vj. rewrite !lookup_delete_Some. intros [_ Hq] [_ Hvj]. by apply Ha.
    + intros i1 i2 op1 op2 v1 v2 x c c'. rewrite !lookup_delete_Some. intros [_ H1] [_ H2].
      by apply (s_temps _ _ _ _ Ha i1 i2 op1 op2 v1 v2 x c c').
  - destruct (v_out v) as [r'|].
    + subst r'. eapply runs_event; [|apply runs_nil]. by eapply atomic_return.
    + destruct He as (e & -> & He). eapply runs_silent; [eapply (atomic_effect _ a t op (inl e)); [exact Hcall|by apply spec_failed]|].
      eapply runs_event; [|apply runs_nil].
      pose proof (atomic_return sha256_hex (Atomic (a_store a) (<[t := (op, Some (inl e))]> (a_calls a))) t op (inl e)) as Hret.
      cbn [a_store a_calls] in Hret. rewrite lookup_insert_eq, delete_insert_eq in Hret. by apply Hret.
Qed.

Lemma runs_app {S} (step : S -> option event -> S -> Prop) s1 tr1 s2 tr2 s3 :
  runs step s1 tr1 s2 -> runs step s2 tr2 s3 -> runs step s1 (tr1 ++ tr2) s3.
Proof.
  induction 1; intros H2; cbn [app]; [done|eapply runs_silent; [done|by auto]|eapply runs_event; [done|by auto]].
Qed.

Lemma simulation w tr w' : runs adapter_step w tr w' -> forall a V T, agree w a V T ->
  exists a' V' T', runs store_step a tr a' /\ agree w' a' V' T'.
Proof.
  induction 1 as [w|w w1 tr w2 Hs _ IH|w e w1 tr w2 Hs _ IH]; intros a V T Ha.
  - exists a, V, T. split; [apply runs_nil|done].
  - inversion Hs; subst.
    edestruct agree_call as (a1 & V1 & T1 & Ha1 & Hr1); [done..|].
    destruct (IH a1 V1 T1 Ha1) as (a' & V' & T' & Hr & Ha'). exists a', V', T'. split; [|done].
    by apply (runs_app _ a [] a1).
  - inversion Hs as [w0 t i op fuel Hnone Hal| |w0 t p r Hp Hend]; subst.
    + destruct (IH _ _ _ (agree_invoke _ _ _ _ _ i op fuel Ha Hnone Hal)) as (a' & V' & T' & Hr & Ha').
      exists a', V', T'. split; [|done]. eapply runs_event; [|exact Hr]. apply atomic_invoke.
      rewrite (s_calls _ _ _ _ Ha), (proj1 (s_none _ _ _ _ Ha t)); done.
    + edestruct agree_return as (a1 & Ha1 & Hr1); [done..|].
      destruct (IH a1 _ _ Ha1) as (a' & V' & T' & Hr & Ha'). exists a', V', T'. split; [|done].
      by apply (runs_app _ a [Return t r] a1).
Qed.

(** *** The start: no call in flight *)

Lemma agree_start s st : disk_ok K (files s) -> holds K st (files s) -> mutexes s = no_locks ->
  (forall i r, realRoot (memo_of i s) = Some r -> r = real_root) ->
  agree (Pool s empty) (Atomic st empty) empty empty.
Proof.
  intros Hd Hh Hm Hr. split; cbn [p_sys p_calls a_store a_calls]; intros *; rewrite ?lookup_empty; try done.
  split; [done|done|rewrite Hm; apply locks_ok_init|done].
Qed.

End safety.

(** C14: The local adapter is linearizable, on a key set [K] in which no key extends another
    by a slash (there a file and a directory would share a path, and a put fails with a
    conflict whatever its precondition) and with puts that state at most one precondition.
    Take any number of [get], [put] and [delete] calls on [K] by any number of instances
    over one directory, interleaving at every file-system call, with any call failing for
    reasons of its own: what they were and what they answered is a run of one atomic compare-and-swap store, in which every call takes
    effect at most once, between its invocation and its return; a put that succeeded found
    its precondition true at that moment, a [WriteConflict] found it false, any other
    failure changed nothing; and the store that run ends with is what the disk holds. *)
Theorem local_fs_linearizable fold_name lower_case normalize_nfc sha256_hex real_root (K : jsstr -> Prop) s st tr w :
  setting fold_name K -> disk_ok K (files s) -> holds K st (files s) -> mutexes s = no_locks ->
  (forall i r, realRoot (memo_of i s) = Some r -> r = real_root) ->
  runs (pool_step fold_name lower_case normalize_nfc sha256_hex real_root (allowed K)) (Pool s empty) tr w ->
  exists a, runs (atomic_step sha256_hex) (Atomic st empty) tr a /\ holds K (a_store a) (files (p_sys w)).
Proof.
  intros Hset Hd Hh Hm Hr Hruns.
  destruct (simulation _ _ _ _ _ _ Hset _ _ _ Hruns (Atomic st empty) empty empty) as (a & V & T & Ha & Hag).
  { by apply agree_start. }
  exists a. split; [done|]. apply (s_global _ _ _ _ _ _ _ _ _ _ Hag).
Qed.

(** *** Two instances of one bucket: a create, and the read that sees it *)
Module two_instances.
Definition K (k : jsstr) : Prop := k = js "a/b" \/ k = js "a/C".
Definition same (n : jsstr) : jsstr := n.
Definition hash (b : bytes) : jsstr := match b with JsonText _ => js "json" | OtherBytes raw _ => raw end.
Definition empty_bucket : sys := Sys {[ [] := Entry [] Dir ]} no_locks empty empty.
Abbreviation program op i := (op_prog same same hash 10 i op).
Abbreviation execute p s := (frun same (js "/data") p s).
Definition create : storage_op := OpPut (js "a/C") (OtherBytes (js "v") None) create_only.
Definition read : storage_op := OpGet (js "a/C") None.
Definition one : instance := Instance 1 (js "/data").
Definition two : instance := Instance 2 (js "/tmp/link").
Definition after (p : fprog answer) (s : sys) : sys := match execute p s with Some (_, s') => s' | None => s end.
Definition tag : jsstr := etagOf hash (OtherBytes (js "v") None).
Definition trace : list event :=
  [Invoke 0 one create; Return 0 (inr (AnsPut tag));
   Invoke 1 two read; Return 1 (inr (AnsGet (Some (GetResult (OtherBytes (js "v") None) tag))))].

Lemma created : fst <$> execute (program create one) empty_bucket = Some (inr (AnsPut tag)).
Proof. vm_compute. reflexivity. Qed.

Lemma found : fst <$> execute (program read two) (after (program create one) empty_bucket) =
  Some (inr (AnsGet (Some (GetResult (OtherBytes (js "v") None) tag)))).
Proof. vm_compute. reflexivity. Qed.

(** Once [a/C] exists the key [a] names a directory: a create is told that it exists, a
    read fails instead of finding nothing. *)
Lemma nested_key_conflicts :
  fst <$> execute (program (OpPut (js "a") (OtherBytes (js "v") None) create_only) one) (after (program create one) empty_bucket) =
    Some (inl (new_error WriteConflict)) /\
  fst <$> execute (program (OpGet (js "a") None) one) (after (program create one) empty_bucket) = Some (inl wrapped).
Proof. split; vm_compute; reflexivity. Qed.

(** Where a directory of the path is a file, the error of [mkdir] leaves unwrapped. *)
Lemma raw_error_escapes :
  fst <$> execute (program (OpPut (js "a/C/d") (OtherBytes (js "v") None) create_only) one) (after (program create one) empty_bucket) =
    Some (inl OtherError).
Proof. vm_compute. reflexivity. Qed.

Lemma execute_after p s r : fst <$> execute p s = Some r -> execute p s = Some (r, after p s).
Proof. unfold after. destruct (execute p s) as [[r' s']|]; cbn; congruence. Qed.

Lemma setting_ok : setting same K.
Proof.
  split; [done| |].
  - intros k [-> | ->]; apply (bool_decide_unpack _); vm_compute; exact I.
  - intros k k' r [-> | ->] [-> | ->] E; apply (f_equal length) in E; rewrite length_app in E; cbn in E; lia.
Qed.

Lemma bucket_entry q : files empty_bucket !! q <> None -> q = [].
Proof. cbn [files empty_bucket]. intros H. destruct (decide (q = [])) as [|Hne]; [done|]. by rewrite lookup_singleton_ne in H. Qed.

Lemma bucket_ok : disk_ok K (files empty_bucket).
Proof.
  split; [reflexivity| |].
  - intros q n Hq%bucket_entry. by destruct q.
  - intros k p Hk. pose proof (key_path_nonempty same K setting_ok k p Hk) as Hne.
    assert (Hp : files empty_bucket !! p = None) by (cbn [files empty_bucket]; by apply lookup_singleton_ne).
    split; [unfold is_directory; by rewrite Hp|]. intros r _ _. unfold body_at.
    destruct (decide (r = [])) as [->|Hr]; [reflexivity|]. cbn [files empty_bucket]. by rewrite lookup_singleton_ne.
Qed.

Lemma bucket_holds : holds K empty (files empty_bucket).
Proof.
  intros k p Hk. pose proof (key_path_nonempty same K setting_ok k p Hk) as Hne. rewrite lookup_empty. unfold body_at.
  cbn [files empty_bucket]. by rewrite lookup_singleton_ne.
Qed.

Lemma create_allowed : allowed K create.
Proof. split; [right; reflexivity|intros _; reflexivity]. Qed.

Lemma read_allowed : allowed K read.
Proof. split; [right; reflexivity|exact I]. Qed.

Lemma run_ok : exists w, runs (pool_step same same same hash (js "/data") (allowed K)) (Pool empty_bucket empty) trace w.
Proof.
  pose proof (execute_after _ _ _ created) as H1. pose proof (execute_after _ _ _ found) as H2.
  eexists. unfold trace.
  refine (call_runs same same same hash (js "/data") (allowed K) _ empty 0 one create 10 _ _ _ _ _ create_allowed H1 _);
    [apply lookup_empty|].
  refine (call_runs same same same hash (js "/data") (allowed K) _ empty 1 two read 10 _ _ _ _ _ read_allowed H2 _);
    [apply lookup_empty|]. apply runs_nil.
Qed.
End two_instances.

Lemma local_fs_linearizable_witness :
  exists a, runs (atomic_step two_instances.hash) (Atomic empty empty) two_instances.trace a.
Proof.
  destruct two_instances.run_ok as [w Hw].
  destruct (local_fs_linearizable two_instances.same two_instances.same two_instances.same two_instances.hash (js "/data")
    two_instances.K two_instances.empty_bucket empty two_instances.trace w
    two_instances.setting_ok two_instances.bucket_ok two_instances.bucket_holds eq_refl) as (a & Ha & _).
  - intros i r. unfold memo_of. cbn. discriminate.
  - exact Hw.
  - exists a. exact Ha.
Defined.
