(* ===== verification/LocalFsList.v ===== *)
(** * Listing the local bucket (dev/src/local-fs.ts)

    [list] walks the directory tree, decodes every visible file's path, sorts the keys and
    reads each object for its ETag.  On a disk nobody else is changing, whose visible files
    were all written by the adapter, the walk ends within as many turns as the disk has
    entries and the listing is the one of the storage contract: every object under the
    prefix and after the cursor, once, in UTF-8 byte order. *)
From stdpp Require Import sorting.
From S2P Require Import Prelude JsText JsValue Errors Json Storage Utf8 KeyCodec KeyLock FileSystem LocalFs LocalFsSpec LocalFsRun.

Lemma prefix_of_snoc {A} (q p : list A) x : q `prefix_of` p ++ [x] -> q `prefix_of` p \/ q = p ++ [x].
Proof.
  intros [r Hr]. destruct (decide (r = [])) as [->|Hne]; [right; by rewrite app_nil_r in Hr|left].
  destruct (exists_last Hne) as (r0 & y & ->). rewrite app_assoc in Hr. apply app_inj_tail in Hr as [-> _]. by exists r0.
Qed.

Section listing.
Context (fold_name lower_case : jsstr -> jsstr).
Context (sha256_hex : bytes -> jsstr) (real_root : jsstr).
Context (Hfold : forall n, Forall (fun u => u ∈ codec_alphabet) n -> fold_name n = n).
Context (s : sys) (i : instance).

Abbreviation d := (files s).
Abbreviation fold := (fold_path fold_name).
Abbreviation fexec p := (frun fold_name real_root p s).

Definition dotted (n : jsstr) : bool := starts_with (js ".") n.

(** The path is spelled as its entries are. *)
Definition spells (p : path) : Prop :=
  forall p0 n, p0 ++ [n] `prefix_of` p -> exists e, d !! fold (p0 ++ [n]) = Some e /\ spelled e = n.

(** A disk with a root, entries under directories and under the folded image of their
    spelling, every visible file spelled as the path of a key the adapter accepts. *)
Record tidy : Prop := {
  tidy_root : is_directory d [] = true;
  tidy_tree : tree_ok d;
  tidy_entry : forall q n e, d !! (q ++ [n]) = Some e ->
    fold_name (spelled e) = n /\ dotted (spelled e) = dotted n /\ (length (utf8_encode (spelled e)) <= NAME_LIMIT)%nat;
  tidy_files : forall q b, body_at d q = Some b -> Forall (fun n => dotted n = false) q ->
    spells q /\ exists key, code_units key /\ pathFor i key = inr q
}.

Context (Htidy : tidy).

Definition visible (p : path) : Prop := Forall (fun n => dotted n = false) p.
Definition visible_dir (p : path) : Prop := spells p /\ visible p /\ is_directory d (fold p) = true.
Definition visible_file (p : path) : Prop := spells p /\ visible p /\ is_Some (body_at d (fold p)).

Lemma fold_snoc p n : fold (p ++ [n]) = fold p ++ [fold_name n].
Proof. unfold fold_path. by rewrite fmap_app. Qed.

Lemma spells_prefix p q : spells q -> p `prefix_of` q -> spells p.
Proof. intros Hq Hp p0 n Hn. apply Hq. by etrans. Qed.

Lemma spells_snoc p n e : spells p -> d !! (fold p ++ [n]) = Some e ->
  spells (p ++ [spelled e]) /\ fold (p ++ [spelled e]) = fold p ++ [n].
Proof.
  intros Hp He. destruct (tidy_entry Htidy _ _ _ He) as [Hn _].
  assert (Hf : fold (p ++ [spelled e]) = fold p ++ [n]) by by rewrite fold_snoc, Hn.
  split; [|done]. intros p0 m Hm. apply prefix_of_snoc in Hm as [Hm|Hm]; [by apply Hp|].
  apply app_inj_tail in Hm as [-> ->]. exists e. by rewrite Hf.
Qed.

(** Two spellings of one path are one. *)
Lemma spells_inj p q : spells p -> spells q -> fold p = fold q -> p = q.
Proof.
  revert q. induction p as [|n p IH] using rev_ind; intros q Hp Hq Hf.
  - destruct q; [done|]. discriminate.
  - destruct (exists_last (l := q)) as (q0 & m & ->).
    { intros ->. rewrite fold_snoc in Hf. by destruct (fold p). }
    pose proof Hf as Hf'. rewrite !fold_snoc in Hf'. apply app_inj_tail in Hf' as [Hf' _].
    rewrite (IH q0); [|eapply spells_prefix; [exact Hp|by eexists]|eapply spells_prefix; [exact Hq|by eexists]|done].
    destruct (Hp p n) as (e & He & <-); [done|]. destruct (Hq q0 m) as (e' & He' & <-); [done|]. congruence.
Qed.

(** What the adapter wrote is where its key says. *)
Lemma file_key p : visible_file p -> fold p = p /\ exists key, code_units key /\ pathFor i key = inr p.
Proof.
  intros (Hs & Hv & b & Hb). assert (Hd : Forall (fun n => dotted n = false) (fold p)).
  { apply Forall_forall. intros n Hn. apply list_elem_of_fmap in Hn as (m & -> & Hm).
    apply list_elem_of_split in Hm as (p0 & p1 & ->).
    destruct (Hs p0 m) as (e & He & <-); [exists p1; by rewrite <- app_assoc|]. rewrite fold_snoc in He.
    destruct (tidy_entry Htidy _ _ _ He) as (_ & <- & _).
    unfold visible in Hv. rewrite Forall_app, Forall_cons in Hv. tauto. }
  destruct (tidy_files Htidy _ _ Hb Hd) as [Hs' (key & Hu & Hk)].
  assert (E : fold (fold p) = fold p).
  { apply pathFor_ok in Hk as [Hok He]. pose proof (encoded_names key _ Hu Hok He) as Hn.
    unfold fold_path at 1. rewrite <- (list_fmap_id (fold p)) at 2. apply list_fmap_ext. intros j n Hj.
    apply list_elem_of_lookup_2 in Hj. rewrite Forall_forall in Hn. apply Hfold. by apply Hn in Hj as (_ & _ & _ & ?). }
  pose proof (spells_inj _ _ Hs' Hs E) as Ep. split; [done|]. exists key. by rewrite Ep in Hk.
Qed.

(** *** Reading a directory *)

Lemma short_names p : spells p -> existsb (fun n => NAME_LIMIT <? length (utf8_encode n)) p = false.
Proof.
  intros Hs. apply not_true_is_false. rewrite existsb_exists. intros (n & Hn & Hl). apply Nat.ltb_lt in Hl.
  apply list_elem_of_In, list_elem_of_split in Hn as (p0 & p1 & ->).
  destruct (Hs p0 n) as (e & He & <-); [exists p1; by rewrite <- app_assoc|]. rewrite fold_snoc in He.
  destruct (tidy_entry Htidy _ _ _ He) as (_ & _ & ?). lia.
Qed.

Lemma resolve_spelled p : spells p -> d !! fold p <> None -> resolve fold_name d p = inr (fold p).
Proof.
  intros Hs Hp. unfold resolve. rewrite short_names by done.
  destruct (blocked_missing d [] (fold p) (tidy_tree Htidy)) as [->|[_ Hn]]; [|done|done].
  intros r [r' Hr] Hne. cbn [app]. assert (Hd : is_directory d r = true).
  { apply (tree_prefix d r r'); [apply Htidy|by rewrite <- Hr|]. intros ->. by rewrite app_nil_r in Hr. }
  unfold is_directory, body_at in *. by destruct (d !! r) as [[? [|]]|].
Qed.

(** The directories and the files of a visible directory that are visible. *)
Definition children (dirs : bool) (p : path) : path -> Prop := fun x =>
  exists n e, d !! (fold p ++ [n]) = Some e /\ x = p ++ [spelled e] /\ dotted (spelled e) = false /\
    match what e with Dir => dirs = true | File _ => dirs = false end.

Lemma readdir_children p : visible_dir p -> exists entries, fs_readdir fold_name p d = inr entries /\
  (forall x, x ∈ (sort_entries isDotName p entries).1 <-> children true p x) /\
  (forall x, x ∈ (sort_entries isDotName p entries).2 <-> children false p x) /\
  NoDup ((sort_entries isDotName p entries).1) /\ NoDup ((sort_entries isDotName p entries).2).
Proof.
  intros (Hs & Hv & Hd). unfold fs_readdir. rewrite resolve_spelled; [|done|].
  2: { unfold is_directory in Hd. by destruct (d !! fold p). }
  unfold is_directory in Hd. destruct (d !! fold p) as [[nm [|]]|] eqn:Ep; try done. clear Hd.
  eexists. split; [reflexivity|].
  set (inside := filter (fun qe : path * entry => qe.1 <> [] /\ removelast qe.1 = fold p) (map_to_list d)).
  assert (Hin : forall q e, (q, e) ∈ inside <-> exists n, q = fold p ++ [n] /\ d !! q = Some e).
  { intros q e. unfold inside. rewrite list_elem_of_filter, elem_of_map_to_list. cbn [fst]. split.
    - intros [[Hne Hr] He]. destruct (exists_last Hne) as (q0 & n & ->). rewrite removelast_last in Hr. subst. by exists n.
    - intros (n & -> & He). rewrite removelast_last. split; [|done]. split; [by destruct (fold p)|done]. }
  assert (Hnames : NoDup ((fun qe : path * entry => spelled qe.2) <$> inside)).
  { apply NoDup_fmap_2_strong; [|apply NoDup_filter, NoDup_map_to_list]. intros [q e] [q' e'] H H' E. cbn [snd] in E.
    apply Hin in H as (n & -> & He). apply Hin in H' as (n' & -> & He').
    destruct (tidy_entry Htidy _ _ _ He) as [<- _], (tidy_entry Htidy _ _ _ He') as [<- _]. rewrite E in *. congruence. }
  set (pairs := (fun qe : path * entry => (spelled qe.2, match what qe.2 with Dir => true | File _ => false end)) <$> inside).
  assert (Hpairs : NoDup (pairs.*1)).
  { unfold pairs. rewrite <- list_fmap_compose. exact Hnames. }
  assert (Hmem : forall b x, x ∈ ((fun nd : jsstr * bool => p ++ [nd.1]) <$> filter (fun nd : jsstr * bool => nd.2 = b)
      (filter (fun nd : jsstr * bool => isDotName nd.1 nd.2 = false) pairs)) <-> children b p x).
  { intros b x. rewrite list_elem_of_fmap. split.
    - intros ([n k] & -> & Hn). rewrite !list_elem_of_filter in Hn. cbn [fst snd] in Hn. destruct Hn as (-> & Hdot & Hn).
      unfold pairs in Hn. apply list_elem_of_fmap in Hn as ([q e] & E & Hq). cbn [snd] in E.
      apply Hin in Hq as (m & -> & He). simplify_eq. exists m, e. split; [done|]. split; [done|]. split; [done|]. by destruct (what e).
    - intros (n & e & He & -> & Hdot & Hw). exists (spelled e, b). split; [done|]. rewrite !list_elem_of_filter. cbn [fst snd].
      split; [done|]. split; [done|]. unfold pairs. apply list_elem_of_fmap. exists (fold p ++ [n], e). cbn [snd].
      split; [by destruct (what e); subst|]. apply Hin. by exists n. }
  assert (Hnd : forall b, NoDup ((fun nd : jsstr * bool => p ++ [nd.1]) <$> filter (fun nd : jsstr * bool => nd.2 = b)
      (filter (fun nd : jsstr * bool => isDotName nd.1 nd.2 = false) pairs))).
  { intros b. apply NoDup_fmap_2_strong; [|by apply NoDup_filter, NoDup_filter, (NoDup_fmap_1 fst)].
    intros [n k] [n' k'] H H' E. rewrite !list_elem_of_filter in H, H'. cbn [fst snd] in *. apply app_inj_tail in E as [_ ->].
    destruct H as [-> _], H' as [-> _]. done. }
  split; [apply (Hmem true)|]. split; [apply (Hmem false)|]. split; [apply (Hnd true)|apply (Hnd false)].
Qed.

(** *** The walk *)

Lemma child_dir p x : visible_dir p -> children true p x -> visible_dir x /\ exists n, x = p ++ [n] /\ fold x = fold p ++ [fold_name n].
Proof.
  intros (Hs & Hv & Hd) (n & e & He & -> & Hdot & Hw). destruct (spells_snoc p n e Hs He) as [Hs' Hf].
  split; [|exists (spelled e); by rewrite fold_snoc]. split; [done|]. split.
  - apply Forall_app. split; [done|]. by apply Forall_singleton.
  - rewrite Hf. unfold is_directory. rewrite He. destruct e as [nm [|]]; done.
Qed.

Lemma child_file p x : visible_dir p -> children false p x -> visible_file x /\ exists n, x = p ++ [n].
Proof.
  intros (Hs & Hv & Hd) (n & e & He & -> & Hdot & Hw). destruct (spells_snoc p n e Hs He) as [Hs' Hf].
  split; [|by eexists]. split; [done|]. split.
  - apply Forall_app. split; [done|]. by apply Forall_singleton.
  - rewrite Hf. unfold body_at. rewrite He. destruct e as [nm [|b]]; [done|by eexists].
Qed.

(** A visible file below a directory is one of its files or below one of its directories. *)
Lemma below_child p x : visible_dir p -> visible_file x -> p `prefix_of` x ->
  children false p x \/ exists c, children true p c /\ c `prefix_of` x.
Proof.
  intros (Hs & Hv & Hd) (Hsx & Hvx & b & Hb) [r ->]. destruct r as [|n r].
  { rewrite app_nil_r in Hb. unfold is_directory, body_at in *. by destruct (d !! fold p) as [[? [|]]|]. }
  assert (Hpre : p ++ [n] `prefix_of` p ++ n :: r) by (exists r; by rewrite <- app_assoc).
  destruct (Hsx p n Hpre) as (e & He & En). rewrite fold_snoc in He.
  assert (Hdot : dotted (spelled e) = false).
  { rewrite En. unfold visible in Hvx. rewrite Forall_app, Forall_cons in Hvx. tauto. }
  destruct r as [|m r].
  - left. exists (fold_name n), e. split; [done|]. split; [by rewrite En|]. split; [done|].
    rewrite fold_snoc in Hb. unfold body_at in Hb. rewrite He in Hb. by destruct e as [? [|]].
  - right. exists (p ++ [n]). split; [|done]. exists (fold_name n), e. split; [done|]. split; [by rewrite En|]. split; [done|].
    assert (Hdir : is_directory d (fold p ++ [fold_name n]) = true).
    { apply (tree_prefix d _ (fold (m :: r)) (tidy_tree Htidy)); [|done]. rewrite <- fold_snoc. unfold fold_path.
      rewrite <- fmap_app, <- app_assoc. cbn [app]. unfold body_at in Hb. unfold fold_path in Hb.
      by destruct (d !! (fold_name <$> p ++ n :: m :: r)). }
    unfold is_directory in Hdir. rewrite He in Hdir. by destruct e as [? [|]].
Qed.

Lemma dir_not_file p : visible_dir p -> visible_file p -> False.
Proof. intros (_ & _ & Hd) (_ & _ & b & Hb). unfold is_directory, body_at in *. by destruct (d !! fold p) as [[? [|]]|]. Qed.

(** The directories left on the stack are visible and none is below another. *)
Definition apart (stack : list path) : Prop :=
  NoDup stack /\ forall p q, p ∈ stack -> q ∈ stack -> fold p `prefix_of` fold q -> p = q.

Definition left_over (stack : list path) : gset path :=
  filter (fun q => Exists (fun p => fold p `prefix_of` q) stack) (dom d).

Lemma left_over_in q stack : q ∈ left_over stack <-> q ∈ dom d /\ exists p, p ∈ stack /\ fold p `prefix_of` q.
Proof.
  unfold left_over. rewrite elem_of_filter, Exists_exists. split; [intros [(p & ? & ?) ?]; eauto|intros [? (p & ? & ?)]; eauto].
Qed.

Lemma prefix_comparable {A} (p q x : list A) : p `prefix_of` x -> q `prefix_of` x -> p `prefix_of` q \/ q `prefix_of` p.
Proof.
  intros [a ->] [b Hb]. revert q b Hb. induction p as [|y p IH]; intros q b Hb; [left; apply prefix_nil|].
  destruct q as [|z q]; [right; apply prefix_nil|]. cbn [app] in Hb. injection Hb as -> Hb.
  destruct (IH q b Hb) as [?|?]; [left|right]; by apply prefix_cons.
Qed.

(** The stack after one directory has been read. *)
Lemma apart_children p stack dirs : apart (p :: stack) -> Forall visible_dir (p :: stack) ->
  NoDup dirs -> (forall x, x ∈ dirs <-> children true p x) ->
  apart (reverse dirs ++ stack) /\ Forall visible_dir (reverse dirs ++ stack) /\
  (size (left_over (reverse dirs ++ stack)) < size (left_over (p :: stack)))%nat.
Proof.
  intros [Hnd Ha] Hv Hdirs Hch. apply NoDup_cons in Hnd as [Hp Hnd]. apply Forall_cons in Hv as [Hvp Hvs].
  assert (Hc : forall x, x ∈ dirs -> visible_dir x /\ exists n, x = p ++ [n] /\ fold x = fold p ++ [fold_name n])
    by (intros x Hx; apply child_dir; [done|by apply Hch]).
  assert (Hrest : forall x q, x ∈ dirs -> q ∈ stack -> ~ fold x `prefix_of` fold q /\ ~ fold q `prefix_of` fold x).
  { intros x q Hx Hq. destruct (Hc x Hx) as (_ & n & _ & Ef). rewrite Ef. split.
    - intros Hpre. assert (p = q) as <-; [|done]. apply Ha; [left|by right|]. etrans; [|exact Hpre]. by eexists.
    - intros Hpre. apply prefix_of_snoc in Hpre as [Hpre|Hpre].
      + assert (q = p) as ->; [|done]. apply Ha; [by right|left|done].
      + assert (p = q) as <-; [|done]. apply Ha; [left|by right|]. rewrite Hpre. by eexists. }
  split; [split|split].
  - apply NoDup_app. split; [by rewrite reverse_Permutation|]. split; [|done]. intros x Hx Hs. rewrite elem_of_reverse in Hx.
    by destruct (Hrest x x Hx Hs) as [[] _].
  - intros a b. rewrite !elem_of_app, !elem_of_reverse. intros [Hx|Hx] [Hy|Hy] Hpre.
    + destruct (Hc a Hx) as ((Hsa & _) & n & _ & Ea), (Hc b Hy) as ((Hsb & _) & m & _ & Eb).
      apply spells_inj; [done..|]. rewrite Ea, Eb in *. apply prefix_of_snoc in Hpre as [Hpre|Hpre]; [|done].
      apply prefix_length in Hpre. rewrite length_app in Hpre. cbn [length] in Hpre. lia.
    + by destruct (Hrest a b Hx Hy).
    + by destruct (Hrest b a Hy Hx).
    + apply Ha; [by right..|done].
  - apply Forall_app. split; [|done]. apply Forall_reverse, Forall_forall. intros x Hx. by apply Hc.
  - apply subset_size. split.
    + intros q. rewrite !left_over_in. intros [Hq (x & Hx & Hpre)]. split; [done|]. rewrite elem_of_app, elem_of_reverse in Hx.
      destruct Hx as [Hx|Hx]; [|exists x; split; [by right|done]]. destruct (Hc x Hx) as (_ & n & _ & Ef). exists p.
      split; [left|]. etrans; [|exact Hpre]. rewrite Ef. by eexists.
    + intros Hsub. assert (Hin : fold p ∈ left_over (p :: stack)).
      { rewrite left_over_in. split; [|exists p; split; [left|done]]. apply elem_of_dom. destruct Hvp as (_ & _ & Hd).
        unfold is_directory in Hd. destruct (d !! fold p); [by eexists|done]. }
      apply Hsub in Hin. rewrite left_over_in in Hin. destruct Hin as [_ (x & Hx & Hpre)].
      rewrite elem_of_app, elem_of_reverse in Hx. destruct Hx as [Hx|Hx].
      * destruct (Hc x Hx) as (_ & n & _ & Ef). rewrite Ef in Hpre. apply prefix_length in Hpre. rewrite length_app in Hpre.
        cbn [length] in Hpre. lia.
      * assert (x = p) as ->; [|done]. apply Ha; [by right|left|done].
Qed.

Lemma fold_prefix p q : p `prefix_of` q -> fold p `prefix_of` fold q.
Proof. intros [r ->]. unfold fold_path. rewrite fmap_app. by eexists. Qed.

Lemma walk_run fuel : forall stack out, apart stack -> Forall visible_dir stack -> (size (left_over stack) <= fuel)%nat ->
  exists out', fexec (walk_loop fuel isDotName stack out) = Some (inr (Some out'), s) /\
    (forall x, x ∈ out' <-> x ∈ out \/ (visible_file x /\ exists p, p ∈ stack /\ p `prefix_of` x)) /\
    (NoDup out -> (forall x p, x ∈ out -> p ∈ stack -> ~ p `prefix_of` x) -> NoDup out').
Proof.
  induction fuel as [|fuel IH]; intros [|p stack] out Ha Hv Hsz; cbn [walk_loop].
  1,3: exists out; split; [done|]; split; [|done]; intros x; split; [by left|];
    intros [?|(_ & p & Hp & _)]; [done|by apply elem_of_nil in Hp].
  - exfalso. pose proof Hv as Hv'. apply Forall_cons in Hv' as [Hvp _].
    destruct (readdir_children p Hvp) as (entries & _ & H1 & _ & H3 & _).
    destruct (apart_children p stack _ Ha Hv H3 H1) as (_ & _ & Hlt). lia.
  - pose proof Hv as Hv'. apply Forall_cons in Hv' as [Hvp Hvs].
    destruct (readdir_children p Hvp) as (entries & He & H1 & H2 & H3 & H4).
    destruct (apart_children p stack _ Ha Hv H3 H1) as (Ha' & Hv2 & Hlt).
    destruct (sort_entries isDotName p entries) as [dirs found] eqn:Es. cbn [fst snd] in *.
    destruct (IH (reverse dirs ++ stack) (out ++ found) Ha' Hv2 ltac:(lia)) as (out' & Hr & Hin & Hnd).
    exists out'. split; [|split].
    + unfold perform. cbn [frun fbind fattempt answer_of]. rewrite He. cbn [frun fattempt]. rewrite Es. exact Hr.
    + intros x. rewrite Hin, elem_of_app, H2. split.
      * intros [[Hx|Hx]|(Hx & q & Hq & Hpre)]; [by left| |].
        -- right. destruct (child_file p x Hvp Hx) as [? [n ->]]. split; [done|]. exists p. split; [left|by eexists].
        -- right. split; [done|]. rewrite elem_of_app, elem_of_reverse in Hq. destruct Hq as [Hq|Hq].
           ++ apply H1 in Hq. destruct (child_dir p q Hvp Hq) as (_ & n & -> & _). exists p. split; [left|].
              etrans; [|exact Hpre]. by eexists.
           ++ exists q. split; [by right|done].
      * intros [Hx|(Hx & q & Hq & Hpre)]; [by left; left|]. apply elem_of_cons in Hq as [->|Hq].
        -- destruct (below_child p x Hvp Hx Hpre) as [Hf|(c & Hc & Hcx)]; [by left; right|]. right. split; [done|].
           exists c. split; [|done]. rewrite elem_of_app, elem_of_reverse, H1. by left.
        -- right. split; [done|]. exists q. split; [|done]. rewrite elem_of_app. by right.
    + intros Hout Hdisj. apply Hnd.
      * apply NoDup_app. split; [done|]. split; [|done]. intros x Hx Hf%H2. destruct (child_file p x Hvp Hf) as [_ [n ->]].
        apply (Hdisj _ p Hx); [left|by eexists].
      * intros x q. rewrite !elem_of_app, elem_of_reverse. intros [Hx|Hx] [Hq|Hq] Hpre.
        -- apply H1 in Hq. destruct (child_dir p q Hvp Hq) as (_ & n & -> & _). apply (Hdisj x p Hx); [left|].
           etrans; [|exact Hpre]. by eexists.
        -- apply (Hdisj x q Hx); [by right|done].
        -- apply H1 in Hq. destruct (child_dir p q Hvp Hq) as (Hvq & n & Eq & _). apply H2 in Hx.
           destruct (child_file p x Hvp Hx) as [Hvx [m ->]]. apply prefix_of_snoc in Hpre as [Hpre| ->].
           ++ subst q. apply prefix_length in Hpre. rewrite length_app in Hpre. cbn [length] in Hpre. lia.
           ++ by eapply dir_not_file.
        -- apply H2 in Hx. destruct (child_file p x Hvp Hx) as [Hvx [m ->]]. apply prefix_of_snoc in Hpre as [Hpre| ->].
           ++ destruct Ha as [Hnd0 Ha]. apply NoDup_cons in Hnd0 as [Hp _]. assert (q = p) as ->; [|done].
              apply Ha; [by right|left|by apply fold_prefix].
           ++ rewrite Forall_forall in Hvs. by eapply dir_not_file, Hvx; apply Hvs.
Qed.

Lemma walk_all fuel : (size d <= fuel)%nat ->
  exists found, fexec (walk fuel isDotName) = Some (inr (Some found), s) /\
    (forall x, x ∈ found <-> visible_file x) /\ NoDup found.
Proof.
  intros Hf. destruct (walk_run fuel [[]] []) as (out' & Hr & Hin & Hnd).
  - split; [apply NoDup_singleton|]. intros p q. rewrite !list_elem_of_singleton. congruence.
  - apply Forall_singleton. split; [|split; [constructor|apply Htidy]]. intros p0 n H. apply prefix_nil_inv in H.
    by destruct p0.
  - etrans; [|exact Hf]. rewrite <- size_dom. apply subseteq_size. intros q. rewrite left_over_in. tauto.
  - exists out'. split; [exact Hr|]. split.
    + intros x. rewrite Hin. split; [|intros Hx; right; split; [done|]; exists []; split; [left|apply prefix_nil]].
      intros [Hx|[? _]]; [by apply elem_of_nil in Hx|done].
    + apply Hnd; [apply NoDup_nil_2|]. intros x p Hx. by apply elem_of_nil in Hx.
Qed.

(** *** Keys and entries *)

Definition key_of (p : path) : jsstr := default [] (decodeComponents p).

Lemma key_of_file p : visible_file p -> decodeComponents p = Some (key_of p) /\ code_units (key_of p) /\ pathFor i (key_of p) = inr p.
Proof.
  intros Hp. destruct (file_key p Hp) as [_ (key & Hu & Hk)]. pose proof (pathFor_ok _ _ _ Hk) as Hok.
  assert (Hd : decodeComponents p = Some key) by by apply decodeComponents_encode. unfold key_of. by rewrite Hd.
Qed.

Lemma listed_run found : Forall visible_file found -> fexec (listed lower_case found) = Some (inr (key_of <$> found), s).
Proof.
  induction 1 as [|p found Hp _ IH]; [done|]. cbn [listed]. rewrite (proj1 (key_of_file p Hp)).
  rewrite frun_bind, IH. by rewrite fmap_cons.
Qed.

Definition tag_of (k : jsstr) : jsstr :=
  match pathFor i k with
  | inr p => match body_at d p with Some b => etagOf sha256_hex b | None => [] end
  | inl _ => []
  end.

Definition wanted (prefix after k : jsstr) : Prop := starts_with prefix k && (0 <? compareKeysUtf8 k after)%Z = true.

Global Instance wanted_dec prefix after k : Decision (wanted prefix after k).
Proof. unfold wanted. apply _. Defined.

Definition entries_of (prefix after : jsstr) (keys : list jsstr) : list StorageListEntry :=
  (fun k => ListEntry k (tag_of k)) <$> filter (wanted prefix after) keys.

Definition within (budget : option nat) (l : list StorageListEntry) : list StorageListEntry :=
  match budget with Some n => take n l | None => l end.

Definition stored (k : jsstr) : Prop := exists p, pathFor i k = inr p /\ visible_file p.

Lemma read_stored k p : pathFor i k = inr p -> visible_file p ->
  exists b, fs_readFile fold_name p d = inr b /\ tag_of k = etagOf sha256_hex b /\ body_at d p = Some b.
Proof.
  intros Hk Hp. pose proof Hp as (Hs & _ & b & Hb). destruct (file_key p Hp) as [Ef _]. rewrite Ef in Hb. exists b.
  unfold tag_of, fs_readFile. rewrite Hk, resolve_spelled, Ef by (done || rewrite Ef; unfold body_at in Hb; by destruct (d !! p)).
  rewrite Hb. split; [|done]. unfold body_at in Hb. destruct (d !! p) as [[? [|]]|]; by simplify_eq.
Qed.

Lemma yield_run prefix after keys : Forall stored keys -> forall budget,
  fexec (yield_keys sha256_hex i prefix after budget keys) = Some (inr (within budget (entries_of prefix after keys)), s).
Proof.
  induction 1 as [|k keys (p & Hk & Hp) _ IH]; intros budget; cbn [yield_keys].
  { by destruct budget as [[|n]|]. }
  unfold entries_of in *. rewrite filter_cons.
  destruct (starts_with prefix k) eqn:E1; cbn [negb]; [|rewrite decide_False by (unfold wanted; by rewrite E1); apply IH].
  destruct (Z.leb_spec (compareKeysUtf8 k after) 0) as [Hle|Hgt].
  { rewrite decide_False by (unfold wanted; rewrite E1, (proj2 (Z.ltb_ge _ _)) by lia; done). apply IH. }
  rewrite decide_True by (unfold wanted; rewrite E1; by apply Z.ltb_lt). case_bool_decide as Eb; [by subst budget|].
  unfold throwIfAborted, perform. cbn [frun fbind fattempt answer_of]. rewrite Hk. cbn [frun fattempt answer_of].
  destruct (read_stored k p Hk Hp) as (b & Hr & Ht & _). rewrite Hr, frun_bind, IH. cbn [frun]. rewrite fmap_cons, Ht.
  destruct budget as [[|n]|]; [done|done|done].
Qed.

(** More fuel changes nothing. *)
Lemma walk_fuel skip r f : forall stack out, fexec (walk_loop f skip stack out) = Some (r, s) ->
  forall f', (f <= f')%nat -> fexec (walk_loop f' skip stack out) = Some (r, s).
Proof.
  induction f as [|f IH]; intros [|p stack] out H [|f'] Hf; cbn [walk_loop] in *; try done; [lia|].
  unfold perform in *. cbn [frun fbind fattempt answer_of] in *.
  destruct (fs_readdir fold_name p d) as [[]|entries]; cbn [frun fattempt] in *; try done.
  - destruct (bool_decide (p = [])); [done|]. apply IH; [done|lia].
  - destruct (sort_entries skip p entries). apply IH; [done|lia].
Qed.

Lemma list_run prefix after : formatChecked (memo_of i s) = true -> exists keys,
  (forall fuel budget, (size d <= fuel)%nat ->
     fexec (fs_list lower_case sha256_hex fuel i prefix after budget) =
       Some (inr (within budget (entries_of prefix (default [] after) (merge_sort key_le keys))), s)) /\
  NoDup keys /\ forall k, k ∈ keys <-> stored k /\ code_units k.
Proof.
  intros Hfmt. destruct (walk_all (size d) ltac:(lia)) as (found0 & Hw & Hin0 & Hnd0).
  exists (key_of <$> found0). split; [|split].
  - intros fuel budget Hfuel. pose proof (walk_fuel _ _ _ _ _ Hw fuel Hfuel) as Hw'. fold (walk fuel isDotName) in Hw'.
    assert (He : fexec (ensureFormat fuel i false) = Some (inr tt, s)).
    { unfold ensureFormat. rewrite frun_bind. cbn [frun perform answer_of]. by rewrite Hfmt. }
    unfold fs_list. rewrite frun_bind. change (fexec throwIfAborted) with (Some (inr (A := js_error) tt, s)). cbv iota beta.
    rewrite frun_bind, He, frun_bind, Hw', frun_bind. cbn [default from_option id].
    assert (Hall : Forall visible_file found0) by (apply Forall_forall; intros; by apply Hin0).
    rewrite listed_run by done.
    assert (Hstored : Forall stored (merge_sort key_le (key_of <$> found0))).
    { apply Forall_forall. intros k. rewrite merge_sort_Permutation, list_elem_of_fmap. intros (p & -> & Hp%Hin0).
      exists p. split; [by apply key_of_file|done]. }
    by rewrite yield_run.
  - apply NoDup_fmap_2_strong; [|done]. intros p q Hp%Hin0 Hq%Hin0 E.
    destruct (key_of_file p Hp) as (_ & _ & H1), (key_of_file q Hq) as (_ & _ & H2). congruence.
  - intros k. rewrite list_elem_of_fmap. split.
    + intros (p & -> & Hp%Hin0). destruct (key_of_file p Hp) as (_ & Hu & Hk). split; [by exists p|done].
    + intros [(p & Hk & Hp) Hu]. exists p. split; [|by apply Hin0].
      assert (Hd : decodeComponents p = Some k) by (apply decodeComponents_encode; [done|]; by eapply pathFor_ok).
      unfold key_of. by rewrite Hd.
Qed.

Lemma entries_of_keys prefix after keys : entry_key <$> entries_of prefix after keys = filter (wanted prefix after) keys.
Proof. unfold entries_of. rewrite <- list_fmap_compose. apply list_fmap_id. Qed.

End listing.

Lemma StronglySorted_sub {A} (R : relation A) (P : A -> Prop) `{forall x, Decision (P x)} l :
  StronglySorted R l -> StronglySorted R (filter P l).
Proof.
  induction 1 as [|x l Hl IH Hx]; [constructor|]. rewrite filter_cons. case_decide; [|done]. constructor; [done|].
  apply Forall_forall. intros y Hy. rewrite Forall_forall in Hx. by apply list_elem_of_filter in Hy as [_ ?%Hx].
Qed.

(** C36: On a disk at rest whose visible files the adapter wrote, [list] of a checked instance
    ends within as many directory reads as the disk has entries, and yields exactly the
    objects whose key has the prefix and lies after the cursor, each once with the ETag of
    its body, in ascending UTF-8 byte order of the keys; [maxKeys] cuts that list short.
    (This is what [MemoryStorage.list] does.) *)
Theorem local_fs_lists_the_bucket fold_name lower_case sha256_hex real_root s i prefix after :
  (forall n, Forall (fun u => u ∈ codec_alphabet) n -> fold_name n = n) -> tidy fold_name s i ->
  formatChecked (memo_of i s) = true ->
  exists entries,
    (forall fuel, (size (files s) <= fuel)%nat ->
       frun fold_name real_root (fs_list lower_case sha256_hex fuel i prefix after None) s = Some (inr entries, s) /\
       forall n, frun fold_name real_root (fs_list lower_case sha256_hex fuel i prefix after (Some n)) s =
                 Some (inr (take n entries), s)) /\
    (forall e, e ∈ entries <-> exists p b, code_units (entry_key e) /\ pathFor i (entry_key e) = inr p /\
       body_at (files s) p = Some b /\ entry_etag e = etagOf sha256_hex b /\
       starts_with prefix (entry_key e) = true /\ (0 < compareKeysUtf8 (entry_key e) (default [] after))%Z) /\
    NoDup (entry_key <$> entries) /\ StronglySorted key_le (entry_key <$> entries).
Proof.
  intros Hfold Ht Hfmt.
  destruct (list_run fold_name lower_case sha256_hex real_root Hfold s i Ht prefix after Hfmt) as (keys & Hrun & Hnd & Hkeys).
  exists (entries_of sha256_hex s i prefix (default [] after) (merge_sort key_le keys)). split; [|split; [|split]].
  - intros fuel Hf. split; [exact (Hrun fuel None Hf)|]. intros n. exact (Hrun fuel (Some n) Hf).
  - intros e. unfold entries_of. rewrite list_elem_of_fmap. setoid_rewrite list_elem_of_filter.
    setoid_rewrite merge_sort_Permutation. setoid_rewrite Hkeys. unfold wanted. setoid_rewrite andb_true_iff.
    setoid_rewrite Z.ltb_lt. split.
    + intros (k & -> & [Hp Ha] & (p & Hk & Hv) & Hu). cbn [entry_key entry_etag].
      destruct (read_stored fold_name lower_case sha256_hex real_root Hfold s i Ht k p Hk Hv) as (b & _ & Hb & Hbody). by exists p, b.
    + intros (p & b & Hu & Hk & Hb & He & Hp & Ha). exists (entry_key e).
      assert (Hfp : fold_path fold_name p = p /\ Forall (fun n => dotted n = false) p).
      { apply pathFor_ok in Hk as [Hok Hen]. pose proof (encoded_names _ _ Hu Hok Hen) as Hn. split.
        - unfold fold_path. rewrite <- (list_fmap_id p) at 2. apply list_fmap_ext. intros j n Hj%list_elem_of_lookup_2.
          rewrite Forall_forall in Hn. apply Hfold. by apply Hn in Hj as (_ & _ & _ & ?).
        - eapply Forall_impl; [exact Hn|]. intros n (_ & _ & Hh & _). destruct n as [|c n]; [reflexivity|]. unfold dotted. change (js ".") with [46%N]. cbn [starts_with].
          destruct (N.eqb_spec 46 c) as [<-|]; [by destruct Hh|done]. }
      assert (Hv : visible_file fold_name s p).
      { destruct Hfp as [Hfp Hdot]. split; [by apply (tidy_files _ _ _ Ht p b)|]. split; [done|]. rewrite Hfp. by exists b. }
      split; [|split; [done|]; split; [by exists p|done]].
      destruct e as [k t]. cbn [entry_key entry_etag] in *. f_equal. unfold tag_of. by rewrite Hk, Hb.
  - rewrite entries_of_keys. apply NoDup_filter. by rewrite merge_sort_Permutation.
  - rewrite entries_of_keys. apply StronglySorted_sub, (StronglySorted_merge_sort key_le).
Qed.

(** *** A bucket of one object *)
Module one_object.
Definition same (n : jsstr) : jsstr := n.
Definition hash (b : bytes) : jsstr := match b with JsonText _ => js "json" | OtherBytes raw _ => raw end.
Definition entries : list (path * entry) :=
  [([], Entry [] Dir); ([js "a"], Entry (js "a") Dir);
   ([js "a"; js "%41"], Entry (js "%41") (File (OtherBytes (js "v") None)))].
Definition inst : instance := Instance 1 (js "/data").
Definition bucket : sys := Sys (list_to_map entries) no_locks (<[1%nat := Memo (Some (js "/data")) true]> empty) empty.

Lemma bucket_in q e : files bucket !! q = Some e -> (q, e) ∈ entries.
Proof. apply elem_of_list_to_map_2. Qed.

Lemma bucket_tidy : tidy same bucket inst.
Proof.
  assert (Hcases : forall q e, files bucket !! q = Some e ->
    q = [] \/ (q = [js "a"] /\ e = Entry (js "a") Dir) \/
    (q = [js "a"; js "%41"] /\ e = Entry (js "%41") (File (OtherBytes (js "v") None)))).
  { intros q e H%bucket_in. unfold entries in H. rewrite !elem_of_cons, elem_of_nil in H.
    destruct H as [[= -> ->]|[[= -> ->]|[[= -> ->]|[]]]]; auto. }
  split.
  - reflexivity.
  - intros q n H. destruct (files bucket !! (q ++ [n])) as [e|] eqn:E; [|done].
    destruct (Hcases _ _ E) as [Eq|[[Eq _]|[Eq _]]].
    + by destruct q.
    + change [js "a"] with ([] ++ [js "a"]) in Eq. apply app_inj_tail in Eq as [-> _]. reflexivity.
    + change [js "a"; js "%41"] with ([js "a"] ++ [js "%41"]) in Eq. apply app_inj_tail in Eq as [-> _]. reflexivity.
  - intros q n e E. destruct (Hcases _ _ E) as [Eq|[[Eq ->]|[Eq ->]]].
    + by destruct q.
    + change [js "a"] with ([] ++ [js "a"]) in Eq. apply app_inj_tail in Eq as [_ ->]. vm_compute. by repeat constructor.
    + change [js "a"; js "%41"] with ([js "a"] ++ [js "%41"]) in Eq. apply app_inj_tail in Eq as [_ ->]. vm_compute. by repeat constructor.
  - intros q b Hb _. unfold body_at in Hb. destruct (files bucket !! q) as [e|] eqn:E; [|done].
    destruct (Hcases _ _ E) as [->|[[-> ->]|[-> ->]]]; [by vm_compute in E; simplify_eq|done|]. split.
    + intros p0 n [r Hr]. destruct p0 as [|a [|a' p0]]; cbn [app] in Hr.
      * injection Hr as <- _. eexists. split; reflexivity.
      * injection Hr as <- <- _. eexists. split; reflexivity.
      * destruct p0; discriminate.
    + exists (js "a/A"). split; [apply (bool_decide_unpack _); vm_compute; exact I|reflexivity].
Qed.

Lemma bucket_size : size (files bucket) = 3%nat.
Proof. vm_compute. reflexivity. Qed.

Lemma bucket_checked : formatChecked (memo_of inst bucket) = true.
Proof. vm_compute. reflexivity. Qed.
End one_object.

Lemma local_fs_lists_the_bucket_witness : exists entries,
  (forall fuel, (3 <= fuel)%nat ->
    frun one_object.same (js "/data") (fs_list one_object.same one_object.hash fuel one_object.inst (js "a/") None None)
      one_object.bucket = Some (inr entries, one_object.bucket)) /\ NoDup (entry_key <$> entries).
Proof.
  destruct (local_fs_lists_the_bucket one_object.same one_object.same one_object.hash (js "/data") one_object.bucket
    one_object.inst (js "a/") None (fun n _ => eq_refl) one_object.bucket_tidy one_object.bucket_checked) as (entries & Hrun & _ & Hnd & _).
  exists entries. split; [|exact Hnd]. intros fuel Hf. refine (proj1 (Hrun fuel _)). rewrite one_object.bucket_size. exact Hf.
Defined.
