(* ===== verification/Http.v ===== *)
(** * The HTTP wire (server/src/contract.ts, http/router.ts, protocol/src/uuid.ts)

    What the client and the router exchange: requests, responses, the error envelope and
    the policy that decides what of an error reaches the client.  A query parameter and a
    body are the text of a JSON value or other text, as in Json.v; [URLSearchParams] and
    the percent-encoding of a query are left out, a query is its list of pairs. *)
From S2P Require Import Prelude JsText Utf8 JsValue Errors Json Storage.
Local Open Scope Z_scope.

(** ** Requests and responses *)

Inductive http_method := GET | POST | PATCH | PUT | DELETE.

Global Instance http_method_eq_decision : EqDecision http_method.
Proof. solve_decision. Defined.

(** A query parameter.  [JsonOf v] is the JSON text of an object, as the client writes [where]
    and [order]; any other text is [Raw].  Names, ids, cursors and numbers travel raw. *)
Inductive text := Raw (s : jsstr) | JsonOf (v : jsval).

(** [content_length] is the header of that name. *)
Record Request := Req {
  req_method : http_method;
  req_path : jsstr;
  req_query : list (jsstr * text);
  content_length : option jsstr;
  req_body : option bytes
}.

Record Response := Resp {
  res_status : Z;
  retry_after : option jsstr;
  res_body : option bytes
}.

(** ** [encodeURIComponent] *)

Definition is_unreserved (b : N) : bool :=
  ((97 <=? b) && (b <=? 122) || (65 <=? b) && (b <=? 90) || (48 <=? b) && (b <=? 57))%N
  || bool_decide (b ∈ js "-_.!~*'()").

Definition upper_digit (d : N) : N := (if d <? 10 then 48 + d else 55 + d)%N.

(** A byte of the UTF-8 encoding, as itself or as [%XX]. *)
Definition uri_byte (b : N) : jsstr :=
  if is_unreserved b then [b] else js "%" ++ [upper_digit (b / 16)%N; upper_digit (b mod 16)%N].

(** [None]: a lone surrogate, for which it throws. *)
Definition encodeURIComponent (s : jsstr) : option jsstr :=
  if isWellFormed s then Some (mjoin (uri_byte <$> utf8_encode s)) else None.

(** ** Minted ids (protocol/src/uuid.ts, types.ts) *)

Definition hex_byte (b : N) : jsstr := pad_start 2 48 (to_radix 16 b).

(** [millis] is the clock, [rand] the ten random bytes. *)
Definition uuidv7 (millis : N) (rand : list N) : jsstr :=
  let rand := <[0%nat := N.lor (N.land (default 0%N (rand !! 0%nat)) 15) 112]> rand in
  let rand := <[2%nat := N.lor (N.land (default 0%N (rand !! 2%nat)) 63) 128]> rand in
  let millisHex := pad_start 12 48 (to_radix 16 millis) in
  let b := mjoin (hex_byte <$> rand) in
  let slice i j s := take (j - i) (drop i s) in
  join_with (js "-") [slice 0 8 millisHex; slice 8 12 millisHex; slice 0 4 b; slice 4 8 b; slice 8 20 b]%nat.

Definition is_lower_hexdigit (u : N) : bool := ((48 <=? u) && (u <=? 57) || (97 <=? u) && (u <=? 102))%N.

(** [n] lowercase hexadecimal digits. *)
Definition hex_digits (n : nat) (s : jsstr) : bool := bool_decide (length s = n) && forallb is_lower_hexdigit s.

(** [UUID_V7_RE.test(s)] *)
Definition isUuidV7 (s : jsstr) : bool :=
  match split_on 45 s with
  | [a; b; c; d; e] =>
    hex_digits 8 a && hex_digits 4 b && hex_digits 4 c && bool_decide (head c = Some 55%N)
    && hex_digits 4 d && match head d with Some u => bool_decide (u ∈ js "89ab") | None => false end
    && hex_digits 12 e
  | _ => false
  end.

(** ** Error codes on the wire *)

Definition code_name (c : BaerlyErrorCode) : jsstr :=
  js match c with
     | InvalidConfig => "InvalidConfig" | NetworkError => "NetworkError" | AccessDenied => "AccessDenied"
     | InvalidResponse => "InvalidResponse" | Internal => "Internal" | SchemaError => "SchemaError"
     | WriteConflict => "WriteConflict" | AlreadyExists => "AlreadyExists" | AmbiguousCommit => "AmbiguousCommit"
     | CapacityExceeded => "CapacityExceeded" | Unauthorized => "Unauthorized" | NotFound => "NotFound"
     | PayloadTooLarge => "PayloadTooLarge" | UnsatisfiablePredicate => "UnsatisfiablePredicate"
     | UseQueryAwaitedRecorder => "UseQueryAwaitedRecorder" | UnexpectedWriteInQuery => "UnexpectedWriteInQuery"
     | MutationFailed => "MutationFailed"
     end%string.

(** [isBaerlyErrorCode(value)], with the code it recognised. *)
Definition parse_code (v : jsval) : option BaerlyErrorCode :=
  match v with
  | JStr s => head (base.filter (fun c => code_name c = s) ERROR_CODES)
  | _ => None
  end.

Definition CODE_RESOLUTIONS (code : BaerlyErrorCode) : option jsstr :=
  match code with
  | WriteConflict => Some (js "Another write changed this data first and this commit did not land. Re-read, then retry.")
  | AlreadyExists => Some (js "Do not retry. A row with this _id is already committed: insert with a different _id or omit _id to auto-generate one, or use update or replace to change the existing row; after an AmbiguousCommit retry, re-read that row instead.")
  | AmbiguousCommit => Some (js "Do not retry automatically. Re-read the row named by the error's _id; absence does not prove the write failed. A deliberate retry may repeat logical work; retry an insert with the same _id, and treat AlreadyExists on that retry as a committed row to re-read.")
  | CapacityExceeded => Some (js "Do not retry unchanged. Delete or shrink rows to make room; if every write is refused, the collection has outgrown this host: export it with baerly admin dump, or move it to a larger host.")
  | PayloadTooLarge => Some (js "Reduce the request body below the server's body-size cap (1 MiB default).")
  | Unauthorized => Some (js "Send a valid Authorization header for the server's configured auth method.")
  | AccessDenied => Some (js "These credentials are denied for this tenant prefix or bucket policy.")
  | NotFound => Some (js "No row matches this id; create it first or treat this as a miss.")
  | _ => None
  end.

(** ** The error envelope (contract.ts) *)

(** The fields an error carries besides its code, as JSON text where it has them; and
    whether it is in [CALLER_FACING_ERRORS]. *)
Record err_text := ErrText {
  message : jsstr;
  issues : option (list jsval);
  resolution : option jsstr;
  caller_facing : bool
}.

(** [...(o !== undefined ? { [name]: o } : {})] *)
Definition field_if (name : string) (o : option jsval) : list (jsstr * jsval) :=
  match o with Some v => [(js name, v)] | None => [] end.

Definition errorEnvelope (code : BaerlyErrorCode) (message : jsstr) (issues : option (list jsval))
    (resolution : option jsstr) (id : option jsstr) : jsval :=
  let resolved := match resolution with Some r => Some r | None => CODE_RESOLUTIONS code end in
  JObj [(js "error", JObj (
    [(js "code", JStr (code_name code)); (js "message", JStr message); (js "retriable", JBool (isRetriableCode code))]
    ++ field_if "issues" (match issues with Some ((_ :: _) as l) => Some (JArr l) | _ => None end)
    ++ field_if "resolution" (JStr <$> resolved)
    ++ field_if "_id" (if bool_decide (code = AmbiguousCommit) then JStr <$> id else None)))].

(** ** From a thrown value to a response (router.ts) *)

Definition ERROR_TO_STATUS (code : BaerlyErrorCode) : option Z :=
  match code with
  | Unauthorized => Some 401
  | AccessDenied => Some 403
  | NotFound => Some 404
  | WriteConflict | AlreadyExists | AmbiguousCommit | CapacityExceeded => Some 409
  | PayloadTooLarge => Some 413
  | SchemaError | InvalidConfig | UnsatisfiablePredicate => Some 400
  | NetworkError | InvalidResponse => Some 502
  | _ => None
  end.

Inductive ErrorCodePolicy := Public | Scrubbed (scrubbedMessage : jsstr) | Contextual (scrubbedMessage : jsstr).

Definition ERROR_CODE_POLICY (code : BaerlyErrorCode) : ErrorCodePolicy :=
  match code with
  | AccessDenied => Scrubbed (js "access denied")
  | AmbiguousCommit => Scrubbed (js "commit outcome is ambiguous; the mutation may or may not have been applied")
  | Internal | MutationFailed | UnexpectedWriteInQuery | UseQueryAwaitedRecorder => Scrubbed (js "internal error")
  | InvalidConfig => Contextual (js "invalid server configuration")
  | InvalidResponse => Scrubbed (js "upstream response error")
  | NetworkError => Scrubbed (js "upstream network error")
  | WriteConflict => Scrubbed (js "write conflict: another write changed this data first; this commit did not land")
  | AlreadyExists | CapacityExceeded | NotFound | PayloadTooLarge | SchemaError | Unauthorized
  | UnsatisfiablePredicate => Public
  end.

Definition shouldExposeErrorMessage (code : BaerlyErrorCode) (t : err_text) : bool :=
  match ERROR_CODE_POLICY code with
  | Public => true
  | Scrubbed _ => false
  | Contextual _ => caller_facing t
  end.

Definition scrubbedMessageFor (code : BaerlyErrorCode) : jsstr :=
  match ERROR_CODE_POLICY code with
  | Public => js "internal error"
  | Scrubbed m | Contextual m => m
  end.

(** The status and the envelope; logging is left out. *)
Definition mapError (err : js_error) (t : err_text) : Z * jsval :=
  match err with
  | BaerlyError code _ _ id =>
    let mappedStatus := ERROR_TO_STATUS code in
    let status := default 500 mappedStatus in
    let wireCode := match mappedStatus with None => Internal | Some _ => code end in
    if negb (bool_decide (wireCode = code)) || negb (shouldExposeErrorMessage code t)
    then (status, errorEnvelope wireCode (scrubbedMessageFor wireCode) None None
                    (if bool_decide (wireCode = code) then id else None))
    else (status, errorEnvelope code (message t) (issues t) (resolution t) id)
  | _ => (500, errorEnvelope Internal (js "internal error") None None None)
  end.

(** ** Lemmas *)

Lemma parse_code_name c : parse_code (JStr (code_name c)) = Some c.
Proof. by destruct c; vm_compute. Qed.

Lemma hex_byte_two : forallb (fun b => bool_decide (length (hex_byte b) = 2%nat) && forallb is_lower_hexdigit (hex_byte b))
  (N.of_nat <$> seq 0 256) = true.
Proof. by vm_compute. Qed.

Lemma hex_byte_digits b : (b < 256)%N -> exists x y, hex_byte b = [x; y] /\ is_lower_hexdigit x = true /\ is_lower_hexdigit y = true.
Proof.
  intros Hb. pose proof hex_byte_two as H. rewrite forallb_forall in H.
  assert (Hin : In b (N.of_nat <$> seq 0 256)).
  { apply list_elem_of_In, list_elem_of_fmap. exists (N.to_nat b). rewrite elem_of_seq. lia. }
  specialize (H b Hin).
  apply andb_true_iff in H as [Hl%bool_decide_eq_true Hx]. destruct (hex_byte b) as [|x [|y [|]]]; try done.
  exists x, y. cbn [forallb] in Hx. rewrite andb_true_r in Hx. by apply andb_true_iff in Hx as [-> ->].
Qed.

Lemma hex_digits_app m n s t : hex_digits m s = true -> hex_digits n t = true -> hex_digits (m + n) (s ++ t) = true.
Proof.
  unfold hex_digits. rewrite !andb_true_iff, !bool_decide_eq_true, length_app, forallb_app. intros [-> ->] [-> ->]. done.
Qed.

Lemma millis_hex n : (n < 2 ^ 48)%N -> hex_digits 12 (pad_start 12 48 (to_radix 16 n)) = true.
Proof.
  intros Hn. unfold hex_digits. rewrite andb_true_iff, bool_decide_eq_true. split.
  - apply (padded_length 16 11 n); [lia|]. by replace (16 ^ N.of_nat 12)%N with (2 ^ 48)%N by done.
  - apply forallb_forall. intros u Hu%list_elem_of_In. unfold pad_start in Hu. apply elem_of_app in Hu as [Hu|Hu].
    + by apply elem_of_replicate in Hu as [-> _].
    + apply to_radix_units in Hu as (d & Hd & ->); [|lia]. unfold is_lower_hexdigit, digit_unit.
      rewrite orb_true_iff, !andb_true_iff, !N.leb_le. destruct (N.ltb_spec d 10); lia.
Qed.

Lemma in_bytes b : (b < 256)%N -> In b (N.of_nat <$> seq 0 256).
Proof. intros Hb. apply list_elem_of_In, list_elem_of_fmap. exists (N.to_nat b). rewrite elem_of_seq. lia. Qed.

Lemma split_on_cons c (s t : jsstr) : (c ∉ s) -> split_on c (s ++ [c] ++ t) = s :: split_on c t.
Proof. intros H. by apply split_on_app_sep. Qed.

Lemma hex_no_dash n s : hex_digits n s = true -> (45%N ∉ s).
Proof.
  unfold hex_digits. rewrite andb_true_iff, forallb_forall. intros [_ H] Hin%list_elem_of_In. by apply H in Hin.
Qed.

Lemma version_bytes : forallb (fun b => match hex_byte (N.lor (N.land b 15) 112) with
    | [x; y] => bool_decide (x = 55%N) && is_lower_hexdigit y | _ => false end) (N.of_nat <$> seq 0 256)
  && forallb (fun b => match hex_byte (N.lor (N.land b 63) 128) with
    | [x; y] => bool_decide (x ∈ js "89ab") && is_lower_hexdigit x && is_lower_hexdigit y | _ => false end) (N.of_nat <$> seq 0 256) = true.
Proof. by vm_compute. Qed.

Lemma version_byte b : (b < 256)%N -> exists y, hex_byte (N.lor (N.land b 15) 112) = [55%N; y] /\ is_lower_hexdigit y = true.
Proof.
  intros Hb. pose proof version_bytes as [H _]%andb_true_iff. rewrite forallb_forall in H. specialize (H b (in_bytes b Hb)).
  cbv beta in H. destruct (hex_byte _) as [|x [|y [|]]]; try done. apply andb_true_iff in H as [->%bool_decide_eq_true Hy]. by exists y.
Qed.

Lemma variant_byte b : (b < 256)%N -> exists x y, hex_byte (N.lor (N.land b 63) 128) = [x; y] /\
  x ∈ js "89ab" /\ is_lower_hexdigit x = true /\ is_lower_hexdigit y = true.
Proof.
  intros Hb. pose proof version_bytes as [_ H]%andb_true_iff. rewrite forallb_forall in H. specialize (H b (in_bytes b Hb)).
  cbv beta in H. destruct (hex_byte _) as [|x [|y [|]]]; try done. rewrite !andb_true_iff, bool_decide_eq_true in H.
  destruct H as [[H1 H2] H3]. by exists x, y.
Qed.

(** A minted id has the shape the router asks of it. *)
Lemma uuidv7_shape millis rand : (millis < 2 ^ 48)%N -> length rand = 10%nat -> is_bytes rand ->
  isUuidV7 (uuidv7 millis rand) = true.
Proof.
  intros Hm Hl Hb. destruct rand as [|r0 [|r1 [|r2 [|r3 [|r4 [|r5 [|r6 [|r7 [|r8 [|r9 [|]]]]]]]]]]]; try done. clear Hl.
  rewrite !Forall_cons in Hb. destruct Hb as (H0 & H1 & H2 & H3 & H4 & H5 & H6 & H7 & H8 & H9 & _).
  destruct (version_byte r0 H0) as (y0 & E0 & Y0), (variant_byte r2 H2) as (x2 & y2 & E2 & V2 & X2 & Y2).
  destruct (hex_byte_digits r1 H1) as (x1 & y1 & E1 & X1 & Y1), (hex_byte_digits r3 H3) as (x3 & y3 & E3 & X3 & Y3),
    (hex_byte_digits r4 H4) as (x4 & y4 & E4 & X4 & Y4), (hex_byte_digits r5 H5) as (x5 & y5 & E5 & X5 & Y5),
    (hex_byte_digits r6 H6) as (x6 & y6 & E6 & X6 & Y6), (hex_byte_digits r7 H7) as (x7 & y7 & E7 & X7 & Y7),
    (hex_byte_digits r8 H8) as (x8 & y8 & E8 & X8 & Y8), (hex_byte_digits r9 H9) as (x9 & y9 & E9 & X9 & Y9).
  pose proof (millis_hex millis Hm) as Hx. unfold uuidv7. set (mh := pad_start 12 48 (to_radix 16 millis)) in *. clearbody mh.
  unfold hex_digits in Hx. apply andb_true_iff in Hx as [Hlen%bool_decide_eq_true Hx].
  do 12 (destruct mh as [|? mh]; [done|]). destruct mh; [|done]. clear Hlen.
  cbv [lookup list_lookup insert list_insert from_option id fmap list_fmap].
  rewrite E0, E1, E2, E3, E4, E5, E6, E7, E8, E9. cbv [mjoin list_join app drop take Nat.sub].
  cbn [forallb] in Hx. rewrite !andb_true_iff in Hx. repeat match goal with H : _ /\ _ |- _ => destruct H end.
  unfold isUuidV7. change (js "-") with [45%N]. rewrite split_join; [|done|].
  - unfold hex_digits. cbn [length head forallb]. rewrite !andb_true_iff. rewrite (bool_decide_eq_true_2 _ V2).
    split_and!; try done; try by apply bool_decide_eq_true_2.
  - assert (Hd : forall u, is_lower_hexdigit u = true -> u <> 45%N) by (by intros u Hu ->).
    repeat constructor; rewrite !not_elem_of_cons; split_and!; try (by apply not_eq_sym, Hd); apply not_elem_of_nil.
Qed.
