(* ===== verification/Router.v ===== *)
(** * The HTTP dispatcher (server/src/http/router.ts)

    The handlers of [createRouter], each a program over the storage: the parameters are
    parsed and checked, the in-process operation runs, and its value or its error becomes
    a response.  The framework's part, which pattern a path matches and how its
    parameters are decoded, is [route]. *)
From S2P Require Import Prelude JsText Utf8 JsValue Errors Json Storage Effects LogWalk DocId Predicate Satisfiable Validate.
From S2P Require Import Adoption Writer Capacity QueryPlanner IndexWalk Query Db Since Http.
Local Open Scope Z_scope.

(** The pattern a path matched, with its decoded parameters. *)
Inductive routed :=
| RowRoute (collection id : jsstr)
| CollectionRoute (collection : jsstr)
| CountRoute
| SinceRoute
| NoRoute.

Definition MAX_BODY_BYTES : Z := 1048576.

(** A JSON response. *)
Definition respond_json (v : jsval) (status : Z) : prog Response :=
  match encodeJsonBytes v with
  | Some b => Ret (Resp status None (Some b))
  | None => Throw OtherError
  end.

(** [{ data, _meta: { manifest_pointer, fresh } }] *)
Definition ok_envelope (data : jsval) (manifestPointer : jsstr) (fresh : bool) : jsval :=
  JObj [(js "data", data);
        (js "_meta", JObj [(js "manifest_pointer", JStr manifestPointer); (js "fresh", JBool fresh)])].

(** ** Parameters *)

Definition query_param (name : string) (req : Request) : option text := own_get (js name) (req_query req).

Definition assertJsonBodyField (body : jsval) (field : string) : result (list (jsstr * jsval)) :=
  match body with
  | JObj o => match js_get o (js field) with JObj doc => inr doc | _ => throw SchemaError end
  | _ => throw SchemaError
  end.

Definition readMintedId (body : jsval) (doc : list (jsstr * jsval)) : result (option jsstr) :=
  match prop (js "mintedId") body with
  | None => inl OtherError
  | Some JUndef => inr None
  | Some (JStr raw) => if negb (isUuidV7 raw) || negb (strict_eq (js_get doc (js "_id")) (JStr raw))
                       then throw SchemaError else inr (Some raw)
  | Some _ => throw SchemaError
  end.

Section params.
(** [JSON.parse] and [Number] on text that is not known to be the text of a value. *)
Context (raw_json : jsstr -> option jsval) (to_number : jsstr -> jsnum).

Definition parse_text (t : text) : option jsval :=
  match t with
  | Raw s => v ← raw_json s; if json_ok v then Some v else None
  | JsonOf v => if json_ok v then Some v else None
  end.

Definition parseWhereParam (raw : option text) : result PredicateWire :=
  match raw with
  | None | Some (Raw []) => inr []
  | Some t => match parse_text t with
              | None => throw SchemaError
              | Some parsed => validateWire parsed
              end
  end.

Definition parseLimit (raw : option text) : result (option Z) :=
  match raw with
  | None => inr None
  | Some (JsonOf _) => throw SchemaError
  | Some (Raw s) => match num_integer (to_number s) with
                    | Some n => if is_safe_integer (to_number s) && (0 <=? n) then inr (Some n) else throw SchemaError
                    | None => throw SchemaError
                    end
  end.

(** Every value but ["desc"] sorts ascending. *)
Definition order_entry (kv : jsstr * jsval) : jsstr * direction :=
  (kv.1, if strict_eq kv.2 (JStr (js "desc")) then Desc else Asc).

Definition parseOrder (raw : option text) : result (option (list (jsstr * direction))) :=
  match raw with
  | None | Some (Raw []) => inr None
  | Some t => match parse_text t with
              | Some (JObj spec) => inr (Some (order_entry <$> spec))
              | _ => throw SchemaError
              end
  end.
End params.

Section body.
Context (byteLength : bytes -> Z).

Definition readJsonBody (req : Request) (maxBytes : Z) : result jsval :=
  if match content_length req with
     | Some header => match parse_int 10 header with Some n => maxBytes <? n | None => false end
     | None => false
     end
  then throw PayloadTooLarge
  else
    let buffer := default EMPTY_BODY (req_body req) in
    if maxBytes <? byteLength buffer then throw PayloadTooLarge
    else match decodeJsonBytes buffer with Some v => inr v | None => throw SchemaError end.
End body.

(** ** The routes *)

Section router.
Context (byteLength : bytes -> Z) (sha256 : bytes -> list N) (json_octets : bytes -> list N)
        (mixed_lt : jsval -> jsval -> bool) (nfc : jsstr -> jsstr).
Context (ceilings : FoldCeilings).
(** [writerFor(ctx).commit(input)], of the n-th writer a call builds; the id minted for a
    document without one; one [longPollSince]. *)
Context (write : CollectionReadContext -> nat -> CommitInput -> prog CommitResult) (uuid : jsstr).
Context (poll : jsstr -> jsstr -> prog SinceResponse).
Context (raw_json : jsstr -> option jsval) (to_number : jsstr -> jsnum) (route : jsstr -> routed).
(** What the thrown values carry that the model drops. *)
Context (describe : js_error -> err_text).
Context (db : Db).

(** [db.collectionReadContext(name)], then the rest. *)
Definition with_collection {A} (name : jsstr)
    (f : CollectionReadContext -> option SchemaValidator -> prog A) : prog A :=
  bind (of_result (collectionReadContext db name)) (fun c => f c.1 c.2).

Definition get_row (collection id : jsstr) : prog Response :=
  with_collection collection (fun ctx _ =>
  bind (runByIdWithMeta byteLength sha256 json_octets mixed_lt ctx id) (fun '(rows, manifestPointer, fresh) =>
  match head rows with
  | None | Some JUndef => Throw (new_error NotFound)
  | Some row => respond_json (ok_envelope row manifestPointer fresh) 200
  end)).

Definition list_rows (collection : jsstr) (req : Request) : prog Response :=
  bind (of_result (parseWhereParam raw_json (query_param "where" req))) (fun wire =>
  bind (of_result (parseOrder raw_json (query_param "order" req))) (fun order =>
  bind (of_result (parseLimit to_number (query_param "limit" req))) (fun limit =>
  with_collection collection (fun ctx _ =>
  bind (runAllWithMeta byteLength sha256 json_octets mixed_lt ctx (State (Some wire) order limit))
    (fun '(rows, manifestPointer, fresh) =>
  respond_json (ok_envelope (JArr rows) manifestPointer fresh) 200))))).

Definition insert_row_route (collection : jsstr) (req : Request) : prog Response :=
  bind (of_result (readJsonBody byteLength req MAX_BODY_BYTES)) (fun body =>
  bind (of_result (assertJsonBodyField body "doc")) (fun doc =>
  bind (of_result (readMintedId body doc)) (fun mintedId =>
  with_collection collection (fun ctx schema =>
  bind (runInsert byteLength sha256 json_octets mixed_lt nfc ctx ceilings schema (write ctx) doc mintedId uuid) (fun id =>
  respond_json (JObj [(js "_id", JStr id)]) 201))))).

Definition patch_row (collection id : jsstr) (req : Request) : prog Response :=
  bind (of_result (readJsonBody byteLength req MAX_BODY_BYTES)) (fun body =>
  bind (of_result (assertJsonBodyField body "patch")) (fun patch =>
  with_collection collection (fun ctx schema =>
  bind (runUpdate byteLength sha256 json_octets mixed_lt nfc ctx ceilings schema (write ctx) (byId id None) (JObj patch))
    (fun modified =>
  if modified =? 0 then Throw (new_error NotFound)
  else respond_json (JObj [(js "modified", JNum (num_of_Z modified))]) 200)))).

Definition put_row (collection id : jsstr) (req : Request) : prog Response :=
  bind (of_result (readJsonBody byteLength req MAX_BODY_BYTES)) (fun body =>
  bind (of_result (assertJsonBodyField body "doc")) (fun doc =>
  with_collection collection (fun ctx schema =>
  bind (runReplaceById byteLength sha256 json_octets mixed_lt nfc ctx ceilings schema (write ctx) id doc) (fun _ =>
  respond_json (JObj [(js "modified", JNum (num_of_Z 1))]) 200)))).

Definition delete_row (collection id : jsstr) : prog Response :=
  with_collection collection (fun ctx _ =>
  bind (runDelete byteLength sha256 json_octets mixed_lt ctx ceilings (write ctx) (byId id None)) (fun deleted =>
  if deleted =? 0 then Throw (new_error NotFound) else Ret (Resp 204 None None))).

Definition count_rows (req : Request) : prog Response :=
  match query_param "collection" req with
  | Some (Raw ((_ :: _) as collection)) =>
    bind (of_result (parseWhereParam raw_json (query_param "where" req))) (fun wire =>
    with_collection collection (fun ctx _ =>
    bind (runAllWithMeta byteLength sha256 json_octets mixed_lt ctx (State (Some wire) None None))
      (fun '(rows, manifestPointer, fresh) =>
    respond_json (ok_envelope (JObj [(js "count", JNum (num_of_Z (Z.of_nat (length rows))))]) manifestPointer fresh) 200)))
  | _ => Throw (new_error SchemaError)
  end.

Definition since_json (r : SinceResponse) : jsval :=
  JObj [(js "events", JArr (response_events r)); (js "next_cursor", next_cursor r)].

Definition since_route (req : Request) : prog Response :=
  match query_param "collection" req with
  | Some (Raw ((_ :: _) as collection)) =>
    if includes_unit slash collection then Throw (new_error SchemaError)
    else
      let cursor := match query_param "cursor" req with Some (Raw c) => c | _ => [] end in
      bind (poll collection cursor) (fun result => respond_json (since_json result) 200)
  | _ => Throw (new_error SchemaError)
  end.

(** The framework's answer to a request no route takes: [404 Not Found], as plain text. *)
Definition not_found : Response := Resp 404 None (Some (OtherBytes (js "404 Not Found") None)).

Definition dispatch (req : Request) : prog Response :=
  match req_method req, route (req_path req) with
  | GET, RowRoute collection id => get_row collection id
  | GET, CollectionRoute collection => list_rows collection req
  | POST, CollectionRoute collection => insert_row_route collection req
  | PATCH, RowRoute collection id => patch_row collection id req
  | PUT, RowRoute collection id => put_row collection id req
  | DELETE, RowRoute collection id => delete_row collection id
  | GET, CountRoute => count_rows req
  | GET, SinceRoute => since_route req
  | _, _ => Ret not_found
  end.

(** [app.onError]: an envelope is always text. *)
Definition mapToResponse (err : js_error) : Response :=
  let (status, envelope) := mapError err (describe err) in
  Resp status None (encodeJsonBytes envelope).

Definition serve (req : Request) : prog Response := catch (dispatch req) (fun err => Ret (mapToResponse err)).
End router.
