(* ===== verification/Client.v ===== *)
(** * The HTTP client (client/src/client.ts, request.ts, request-retry.ts, poll-since-once.ts)

    An operation of the client is a tree of fetches and sleeps: each fetch hands its
    response, or the error it rejected with, to the rest of the operation.  [played] runs
    a tree against a script of outcomes and records what was sent and waited for;
    [connect] runs it against a server.  The text of an error is dropped, as in Errors.v. *)
From Stdlib Require Import QArith Qminmax.
From S2P Require Import Prelude JsText Utf8 JsValue Errors Json Storage Effects Lsn LogWalk Predicate Satisfiable Validate.
From S2P Require Import IndexCodec Adoption Writer Capacity QueryPlanner IndexWalk Query Http.
Local Open Scope result_scope.
Local Open Scope Z_scope.

(** ** Programs over the network *)

(** What a fetch hands on: its outcome, and whether the caller's signal is aborted. *)
Inductive net (A : Type) :=
| NRet (a : A)
| NThrow (e : js_error)
| Fetch (req : Request) (k : result Response * bool -> net A)
| Sleep (ms : Q) (k : result unit -> net A).
Arguments NRet {A} a.
Arguments NThrow {A} e.
Arguments Fetch {A} req k.
Arguments Sleep {A} ms k.

Fixpoint nattempt {A B} (p : net A) (f : result A -> net B) : net B :=
  match p with
  | NRet a => f (inr a)
  | NThrow e => f (inl e)
  | Fetch req k => Fetch req (fun r => nattempt (k r) f)
  | Sleep ms k => Sleep ms (fun r => nattempt (k r) f)
  end.

Definition nbind {A B} (p : net A) (f : A -> net B) : net B :=
  nattempt p (fun r => match r with inl e => NThrow e | inr a => f a end).

Definition ncatch {A} (p : net A) (h : js_error -> net A) : net A :=
  nattempt p (fun r => match r with inl e => h e | inr a => NRet a end).

Definition of_option {A} (o : option A) : net A := match o with Some a => NRet a | None => NThrow OtherError end.

(** Every fetch is answered by the server, and every sleep ends. *)
Fixpoint connect {A} (server : Request -> prog Response) (p : net A) : prog A :=
  match p with
  | NRet a => Ret a
  | NThrow e => Throw e
  | Fetch req k => attempt (server req) (fun r => connect server (k (r, false)))
  | Sleep _ k => connect server (k (inr tt))
  end.

Inductive net_event := Sent (req : Request) (got : result Response * bool) | Waited (ms : Q).

(** An execution against any outcomes: what was done, and how it ended. *)
Inductive played {A} : net A -> list net_event -> result A -> Prop :=
| played_ret a : played (NRet a) [] (inr a)
| played_throw e : played (NThrow e) [] (inl e)
| played_fetch req k r tr res : played (k r) tr res -> played (Fetch req k) (Sent req r :: tr) res
| played_sleep ms k r tr res : played (k r) tr res -> played (Sleep ms k) (Waited ms :: tr) res.

(** ** Retries (request-retry.ts) *)

Definition REQUEST_RETRY_MAX_ATTEMPTS : nat := 3.
Definition REQUEST_RETRY_BASE_MILLIS : Q := 250.
Definition REQUEST_RETRY_MAX_DELAY_MILLIS : Q := 10000.

Definition is_letter (u : N) : bool := ((65 <=? u) && (u <=? 90) || (97 <=? u) && (u <=? 122))%N.

Definition trim (s : jsstr) : jsstr := reverse (skip_space (reverse (skip_space s))).

Section request.
Context (byteLength : bytes -> Z).
(** [Date.parse], with [None] for NaN; the clock, in milliseconds; the draw of each backoff. *)
Context (date_parse : jsstr -> option Z) (now : Z) (random : nat -> Q).

(** A run of digits is read exactly, where [Number] rounds above 2^53. *)
Definition parseRetryAfterMillis (value : option jsstr) : option Q :=
  match value with
  | None => None
  | Some value =>
    let text := trim value in
    if bool_decide (text = []) then None
    else if forallb (fun u => (48 <=? u) && (u <=? 57))%N text
    then (fun n => inject_Z (n * 1000)) <$> parse_int 10 text
    else match (if existsb is_letter text then date_parse text else None) with
         | None => None
         | Some at_ => Some (inject_Z (Z.max 0 (at_ - now)))
         end
  end.

Definition backoffMillis (retryIndex : nat) : Q :=
  (random retryIndex * Qmin REQUEST_RETRY_MAX_DELAY_MILLIS
                            (REQUEST_RETRY_BASE_MILLIS * inject_Z (2 ^ Z.of_nat retryIndex)))%Q.

(** ** One request (request.ts) *)

Record RequestOptions := Options {
  opt_method : http_method;
  opt_path : jsstr;
  opt_query : list (jsstr * text);
  opt_body : option jsval;
  opt_retry : bool
}.

(** [res.json()] *)
Definition response_json (res : Response) : option jsval := b ← res_body res; decodeJsonBytes b.

Definition parseSuccessfulJson (res : Response) : net jsval :=
  match response_json res with Some v => NRet v | None => NThrow (new_error_cause InvalidResponse OtherError) end.

Definition isAbortError (e : js_error) : bool := match e with AbortError => true | _ => false end.

(** [v?.k] *)
Definition optional_prop (k : string) (v : jsval) : jsval := default JUndef (prop (js k) v).

(** The error to throw, and whether the server itself produced it. *)
Definition decodeFailure (res : Response) : js_error * bool :=
  let wire := optional_prop "error" (default JUndef (response_json res)) in
  let wireCode := optional_prop "code" wire in
  match parse_code wireCode with
  | Some code => (BaerlyError code None None (match optional_prop "_id" wire with JStr id => Some id | _ => None end), true)
  | None =>
    let transient := (500 <=? res_status res) || (res_status res =? 408) || (res_status res =? 429) in
    (new_error (if transient then NetworkError else Internal),
     match wire, wireCode with JObj _, JStr _ => true | _, _ => false end)
  end.

Definition is_ok (res : Response) : bool := (200 <=? res_status res) && (res_status res <=? 299).

(** A success other than 204 and 201. *)
Definition unwrap (opts : RequestOptions) (res : Response) : net jsval :=
  nbind (parseSuccessfulJson res) (fun parsed =>
  if negb (bool_decide (opt_method opts = GET)) then NRet parsed
  else if starts_with (js "/v1/since") (opt_path opts) then NRet parsed
  else if has_prop parsed (js "data") then of_option (prop (js "data") parsed)
  else NThrow (new_error InvalidResponse)).

(** The [for] loop from [attempt] on, [spare] attempts before [maxAttempts]. *)
Fixpoint request_loop (opts : RequestOptions) (req : Request) (spare attempt : nat) : net jsval :=
  Fetch req (fun '(res, aborted) =>
  let retry_after_wait (ms : Q) (spare : nat) :=
    Sleep ms (fun r => match r with inl e => NThrow e | inr _ => request_loop opts req spare (S attempt) end) in
  match res with
  | inl error =>
    match spare with
    | S spare => if aborted || isAbortError error then NThrow error
                else retry_after_wait (backoffMillis (attempt - 1)) spare
    | O => NThrow error
    end
  | inr res =>
    if res_status res =? 204 then NRet JUndef
    else if res_status res =? 201 then parseSuccessfulJson res
    else if negb (is_ok res) then
      let hintMillis := parseRetryAfterMillis (retry_after res) in
      let '(error, enveloped) := decodeFailure res in
      match spare with
      | S spare =>
        if enveloped || negb (has_code NetworkError error) then NThrow error
        else if match hintMillis with Some h => negb (Qle_bool h REQUEST_RETRY_MAX_DELAY_MILLIS) | None => false end
        then NThrow error
        else retry_after_wait (default (backoffMillis (attempt - 1)) hintMillis) spare
      | O => NThrow error
      end
    else unwrap opts res
  end).

Definition maxAttempts (opts : RequestOptions) : nat :=
  if bool_decide (opt_method opts = GET) && opt_retry opts then REQUEST_RETRY_MAX_ATTEMPTS else 1.

(** The request every attempt sends; the platform sets its length. [None]: [JSON.stringify] threw. *)
Definition outgoing (opts : RequestOptions) : option Request :=
  match opt_body opts with
  | None => Some (Req (opt_method opts) (opt_path opts) (opt_query opts) None None)
  | Some v => b ← encodeJsonBytes v;
              Some (Req (opt_method opts) (opt_path opts) (opt_query opts) (Some (show_Z (byteLength b))) (Some b))
  end.

Definition request (opts : RequestOptions) : net jsval :=
  nbind (of_option (outgoing opts)) (fun req => request_loop opts req (maxAttempts opts - 1) 1).

(** ** Collections (client.ts) *)

(** [/v1/c/<name>] and [/v1/c/<name>/<id>]; a lone surrogate throws. *)
Definition collection_path (name : jsstr) : option jsstr := n ← encodeURIComponent name; Some (js "/v1/c/" ++ n).

Definition idPath (name id : jsstr) : option jsstr :=
  n ← encodeURIComponent name; i ← encodeURIComponent id; Some (js "/v1/c/" ++ n ++ js "/" ++ i).

Definition on_path (path : option jsstr) (method : http_method) (query : list (jsstr * text)) (body : option jsval) : net jsval :=
  nbind (of_option path) (fun path => request (Options method path query body true)).

Definition client_get (name id : jsstr) : net jsval :=
  ncatch (on_path (idPath name id) GET [] None) (fun error =>
  if has_code NotFound error then NRet JUndef else NThrow error).

(** [millis] and [rand] are what [uuidv7] reads. *)
Definition client_insert (name : jsstr) (doc : list (jsstr * jsval)) (millis : N) (rand : list N) : net jsval :=
  let minted := uuidv7 millis rand in
  let auto := JObj [(js "doc", with_id doc minted); (js "mintedId", JStr minted)] in
  let body := match js_get doc (js "_id") with
              | JStr [] => auto
              | JStr _ => JObj [(js "doc", JObj doc)]
              | _ => auto
              end in
  on_path (collection_path name) POST [] (Some body).

Definition client_update (name id : jsstr) (patch : jsval) : net jsval :=
  on_path (idPath name id) PATCH [] (Some (JObj [(js "patch", patch)])).

Definition client_replace (name id : jsstr) (doc : list (jsstr * jsval)) : net jsval :=
  nbind (on_path (idPath name id) PUT [] (Some (JObj [(js "doc", JObj doc)]))) (fun _ => NRet JUndef).

Definition deleted_json (n : Z) : jsval := JObj [(js "deleted", JNum (num_of_Z n))].

Definition client_delete (name id : jsstr) : net jsval :=
  ncatch (nbind (on_path (idPath name id) DELETE [] None) (fun _ => NRet (deleted_json 1))) (fun error =>
  if has_code NotFound error then NRet (deleted_json 0) else NThrow error).

(** ** Queries *)

Record ClientState := CState {
  c_wire : PredicateWire;
  c_order : option (list (jsstr * direction));
  c_limit : option Z
}.

Definition emptyState : ClientState := CState [] None None.

Definition client_where (arg : list (jsstr * jsval) + list builder_call) (s : ClientState) : result ClientState :=
  let? incoming := normalizePredicateArg arg in
  inr (CState (match c_wire s with [] => incoming | w => w ++ incoming end) (c_order s) (c_limit s)).

Definition client_order (spec : list (jsstr * direction)) (s : ClientState) : ClientState :=
  CState (c_wire s) (Some spec) (c_limit s).

Definition client_limit (n : Z) (s : ClientState) : ClientState := CState (c_wire s) (c_order s) (Some n).

(** [JSON.stringify(v)] of an object, as a parameter. *)
Definition json_text (v : jsval) : option text :=
  match encodeJsonBytes v with Some (JsonText w) => Some (JsonOf w) | _ => None end.

Definition order_json (spec : list (jsstr * direction)) : jsval :=
  JObj ((fun e => (e.1, JStr (js match e.2 with Asc => "asc" | Desc => "desc" end%string))) <$> spec).

(** [params.set(name, value)] *)
Definition set_param (name : string) (o : option text) (params : list (jsstr * text)) : option (list (jsstr * text)) :=
  t ← o; Some (own_set (js name) t params).

Definition where_param (w : PredicateWire) (params : list (jsstr * text)) : option (list (jsstr * text)) :=
  match w with [] => Some params | _ => set_param "where" (json_text (wire_json w)) params end.

Definition listParams (s : ClientState) : option (list (jsstr * text)) :=
  params ← where_param (c_wire s) [];
  params ← match c_order s with
           | None | Some [] => Some params
           | Some spec => set_param "order" (json_text (order_json spec)) params
           end;
  match c_limit s with
  | None => Some params
  | Some n => set_param "limit" (Some (Raw (show_Z n))) params
  end.

Definition list_request (name : jsstr) (s : ClientState) (override : option Z) : net jsval :=
  nbind (of_option (listParams s)) (fun params =>
  nbind (of_option match override with
                   | Some n => set_param "limit" (Some (Raw (show_Z n))) params
                   | None => Some params
                   end) (fun params =>
  on_path (collection_path name) GET params None)).

(** [data[0]] *)
Definition client_first (name : jsstr) (s : ClientState) : net jsval :=
  nbind (list_request name s (Some 1)) (fun data =>
  match data with
  | JUndef | JNull => NThrow OtherError
  | JArr l => NRet (default JUndef (head l))
  | data => NRet (prop_get data (js "0"))
  end).

(** [[...data]] *)
Definition client_all (name : jsstr) (s : ClientState) : net jsval :=
  nbind (list_request name s None) (fun data =>
  match data with
  | JArr l => NRet (JArr l)
  | JStr s => NRet (JArr ((fun p => JStr (point_units p)) <$> code_points s))
  | _ => NThrow OtherError
  end).

(** The order and the limit of the query are not sent. *)
Definition client_count (name : jsstr) (s : ClientState) : net jsval :=
  nbind (of_option (where_param (c_wire s) [(js "collection", Raw name)])) (fun params =>
  nbind (request (Options GET (js "/v1/count") params None true)) (fun data => of_option (prop (js "count") data))).

(** ** The change feed (poll-since-once.ts) *)

Definition pollSinceOnce (name cursor : jsstr) : net (list jsval * jsstr) :=
  nbind (request (Options GET (js "/v1/since") [(js "collection", Raw name); (js "cursor", Raw cursor)] None false))
    (fun response =>
  match response with
  | JObj o => match js_get o (js "events"), js_get o (js "next_cursor") with
              | JArr events, JStr next => NRet (events, next)
              | _, _ => NThrow (new_error InvalidResponse)
              end
  | _ => NThrow (new_error InvalidResponse)
  end).
End request.

(** ** What a request sends *)

Definition sent_of (ev : net_event) : option (Request * (result Response * bool)) :=
  match ev with Sent req got => Some (req, got) | Waited _ => None end.
Definition wait_of (ev : net_event) : option Q := match ev with Sent _ _ => None | Waited ms => Some ms end.

Lemma played_bind_inv {A B} (p : net A) (f : A -> net B) tr res : played (nbind p f) tr res ->
  (exists e, played p tr (inl e) /\ res = inl e) \/
  (exists a tr1 tr2, played p tr1 (inr a) /\ played (f a) tr2 res /\ tr = tr1 ++ tr2).
Proof.
  unfold nbind. revert tr. induction p as [a|e|req k IH|ms k IH]; intros tr H; cbn [nattempt] in H.
  - right. exists a, [], tr. split_and!; [constructor|done..].
  - left. exists e. inversion H; subst. split; [constructor|done].
  - inversion H as [| |? ? r ? ? Hk|]; subst. destruct (IH r _ Hk) as [(e & Hp & ->)|(a & tr1 & tr2 & Hp & Hf & ->)].
    + left. exists e. split; [by econstructor|done].
    + right. exists a, (Sent req r :: tr1), tr2. split_and!; [by econstructor|done..].
  - inversion H as [| | |? ? r ? ? Hk]; subst. destruct (IH r _ Hk) as [(e & Hp & ->)|(a & tr1 & tr2 & Hp & Hf & ->)].
    + left. exists e. split; [by econstructor|done].
    + right. exists a, (Waited ms :: tr1), tr2. split_and!; [by econstructor|done..].
Qed.

(** Nobody the request reached can have acted on it for good: the fetch rejected, or
    something in front of the server answered with a transient failure. *)
Definition unanswered (got : result Response * bool) : Prop :=
  match got with
  | (inl e, aborted) => aborted = false /\ e <> AbortError
  | (inr res, _) => (decodeFailure res).2 = false /\
      (500 <= res_status res \/ res_status res = 408 \/ res_status res = 429)
  end.

Section retry.
Context (byteLength : bytes -> Z) (date_parse : jsstr -> option Z) (now : Z) (random : nat -> Q).
Context (Hrandom : forall n, (0 <= random n <= 1)%Q).

Lemma backoff_bounds n : (0 <= backoffMillis random n <= REQUEST_RETRY_MAX_DELAY_MILLIS)%Q.
Proof.
  destruct (Hrandom n) as [H0 H1]. unfold backoffMillis.
  set (c := Qmin _ _). assert (Hc : (0 <= c <= REQUEST_RETRY_MAX_DELAY_MILLIS)%Q).
  { split; [|apply Q.le_min_l]. apply Q.min_glb; [by vm_compute|]. apply Qmult_le_0_compat; [by vm_compute|].
    change 0%Q with (inject_Z 0). rewrite <- Zle_Qle. apply Z.pow_nonneg. lia. }
  destruct Hc as [Hc0 Hc1]. split; [by apply Qmult_le_0_compat|].
  apply (Qle_trans _ (1 * c)); [by apply Qmult_le_compat_r|]. by rewrite Qmult_1_l.
Qed.

(** What one call may do: send the request, and send it again, up to [spare] times, after a
    bounded wait and only when the server did not answer. *)
Inductive exchange (req : Request) : nat -> list net_event -> Prop :=
| exchange_last spare got : exchange req spare [Sent req got]
| exchange_cancelled spare got ms : unanswered got -> exchange req (S spare) [Sent req got; Waited ms]
| exchange_again spare got ms tr : unanswered got -> (0 <= ms <= REQUEST_RETRY_MAX_DELAY_MILLIS)%Q ->
    exchange req spare tr -> exchange req (S spare) (Sent req got :: Waited ms :: tr).

Lemma exchange_sends req spare tr : exchange req spare tr -> (length (omap sent_of tr) <= S spare)%nat.
Proof. induction 1; cbn; lia. Qed.

Lemma digits_number s n : s <> [] -> forallb (fun u => (48 <=? u) && (u <=? 57))%N s = true -> parse_int 10 s = Some n -> 0 <= n.
Proof.
  intros Hne Hd. rewrite forallb_forall in Hd.
  assert (Hb : Forall (fun d => (d < 10)%N) ((fun u => u - 48)%N <$> s)).
  { apply Forall_fmap, Forall_forall. intros u Hu%list_elem_of_In%Hd. cbn. rewrite andb_true_iff, !N.leb_le in Hu. lia. }
  assert (Es : s = digit_unit <$> ((fun u => u - 48)%N <$> s)).
  { rewrite <- list_fmap_compose. symmetry. rewrite <- (list_fmap_id s) at 2. apply list_fmap_ext. intros i u Hi.
    apply list_elem_of_lookup_2, list_elem_of_In, Hd in Hi. rewrite andb_true_iff, !N.leb_le in Hi.
    cbn. unfold digit_unit. destruct (N.ltb_spec (u - 48) 10); lia. }
  rewrite Es, parse_int_units; [|lia|done|by intros ?%fmap_nil_inv].
  intros [= <-]. lia.
Qed.

Lemma hint_nonneg v h : parseRetryAfterMillis date_parse now v = Some h -> (0 <= h)%Q.
Proof.
  assert (Hz : forall z, 0 <= z -> (0 <= inject_Z z)%Q) by (intros z Hz; change 0%Q with (inject_Z 0); by rewrite <- Zle_Qle).
  unfold parseRetryAfterMillis. destruct v as [v|]; [|done]. cbv zeta. case_bool_decide as Hne; [done|].
  destruct (forallb _ _) eqn:Ed.
  - intros (n & Hn & ->)%fmap_Some. apply digits_number in Hn; [|done..]. apply Hz. lia.
  - destruct (if existsb is_letter (trim v) then date_parse (trim v) else None) as [t|]; [|done]. intros [= <-]. apply Hz. lia.
Qed.

Lemma failure_transient res e : decodeFailure res = (e, false) -> has_code NetworkError e = true ->
  500 <= res_status res \/ res_status res = 408 \/ res_status res = 429.
Proof.
  unfold decodeFailure. destruct (parse_code _); [done|]. cbv zeta.
  destruct ((500 <=? res_status res) || (res_status res =? 408) || (res_status res =? 429)) eqn:Et; intros [= <- _] He; [|done].
  rewrite !orb_true_iff, Z.leb_le, !Z.eqb_eq in Et. tauto.
Qed.

Lemma success_plays opts res tr r : played (unwrap opts res) tr r -> tr = [].
Proof.
  unfold unwrap, parseSuccessfulJson. destruct (response_json res); cbn; [|by inversion 1].
  repeat case_match; unfold of_option; try case_match; by inversion 1.
Qed.

Lemma wait_exchange {A} req spare got ms (next : net A) tr res : unanswered got ->
  (0 <= ms <= REQUEST_RETRY_MAX_DELAY_MILLIS)%Q -> (forall tr, played next tr res -> exchange req spare tr) ->
  played (Sleep ms (fun r : result unit => match r with inl e => NThrow e | inr _ => next end)) tr res ->
  exchange req (S spare) (Sent req got :: tr).
Proof.
  intros Hu Hms Hnext H. inversion H as [| | |? ? r tr' ? Hk]; subst. destruct r as [e|[]].
  - inversion Hk; subst. by constructor.
  - constructor; auto.
Qed.

Lemma loop_exchange opts req spare attempt tr res :
  played (request_loop date_parse now random opts req spare attempt) tr res -> exchange req spare tr.
Proof.
  revert attempt tr. induction spare as [|spare IH]; intros attempt tr H; cbn [request_loop] in H;
    inversion H as [| |? ? [got aborted] tr' ? Hk|]; subst; clear H.
  - enough (tr' = []) as -> by constructor. destruct got as [e|got]; [by inversion Hk|].
    repeat case_match; try (by inversion Hk); try (by eapply success_plays).
    unfold parseSuccessfulJson in Hk. case_match; by inversion Hk.
  - destruct got as [e|got].
    { destruct (aborted || isAbortError e) eqn:Ea; [inversion Hk; subst; constructor|].
      apply orb_false_iff in Ea as [-> Ea]. eapply wait_exchange; [|apply backoff_bounds|apply IH|exact Hk].
      split; [done|]. by intros ->. }
    destruct (res_status got =? 204); [inversion Hk; subst; constructor|].
    destruct (res_status got =? 201).
    { unfold parseSuccessfulJson in Hk. case_match; inversion Hk; subst; constructor. }
    destruct (is_ok got); [apply success_plays in Hk as ->; constructor|]. cbn [negb] in Hk.
    destruct (decodeFailure got) as [error enveloped] eqn:Ed.
    destruct (enveloped || negb (has_code NetworkError error)) eqn:Ee; [inversion Hk; subst; constructor|].
    apply orb_false_iff in Ee as [-> Ee%negb_false_iff].
    destruct (match parseRetryAfterMillis date_parse now (retry_after got) with Some _ => _ | None => _ end) eqn:Eh;
      [inversion Hk; subst; constructor|].
    eapply wait_exchange; [| |apply IH|exact Hk].
    + split; [by rewrite Ed|]. by eapply failure_transient.
    + destruct (parseRetryAfterMillis date_parse now (retry_after got)) as [h|] eqn:Ep; [|apply backoff_bounds].
      split; [by eapply hint_nonneg|]. by apply negb_false_iff, Qle_bool_iff in Eh.
Qed.
End retry.

(** ** Theorems *)

(** C40: Whatever the network answers, one call of the client sends one request, over and over:
    a write exactly once, a read at most three times, and a second time only when the server
    did not answer (the fetch rejected without an abort, or something in front of the server
    answered 5xx, 408 or 429 without an error envelope); every wait between two sends is at
    most ten seconds, whatever Retry-After asked for; a body that is no JSON sends nothing. *)
Theorem request_resends_only_reads byteLength date_parse now random opts tr res :
  (forall n, 0 <= random n <= 1)%Q -> played (request byteLength date_parse now random opts) tr res ->
  (outgoing byteLength opts = None /\ tr = []) \/
  exists req, outgoing byteLength opts = Some req /\ exchange req (maxAttempts opts - 1) tr /\
    (length (omap sent_of tr) <= maxAttempts opts <= 3)%nat /\
    (opt_method opts <> GET -> exists got, tr = [Sent req got]).
Proof.
  intros Hr H. unfold request in H. destruct (outgoing byteLength opts) as [req|]; cbn in H.
  2: { left. by inversion H. }
  right. exists req. assert (Hx : exchange req (maxAttempts opts - 1) tr).
  { apply (loop_exchange date_parse now random Hr opts req _ 1 tr res).
    replace (request_loop _ _ _ _ _ _ _) with (nbind (NRet req) (fun req => request_loop date_parse now random opts req (maxAttempts opts - 1) 1)) by done.
    exact H. }
  assert (Hm : (1 <= maxAttempts opts <= 3)%nat) by (unfold maxAttempts, REQUEST_RETRY_MAX_ATTEMPTS; case_match; lia).
  pose proof (exchange_sends _ _ _ Hx). split_and!; [done..|lia|lia|]. intros Hg.
  unfold maxAttempts in Hx. rewrite bool_decide_eq_false_2 in Hx by done. inversion Hx; subst. by eexists.
Qed.

(** A read behind a proxy that is restarting: one retry, then the rows. *)
Definition sample_get : RequestOptions := Options GET (js "/v1/c/t") [] None true.

Definition sample_get_request : Request := Req GET (js "/v1/c/t") [] None None.

Definition bad_gateway : Response := Resp 502 None (Some (OtherBytes (js "<html>") None)).

Definition rows_response : Response := Resp 200 None (Some (JsonText (JObj [(js "data", JArr [])]))).

Definition sample_exchange : list net_event :=
  [Sent sample_get_request (inr bad_gateway, false); Waited (backoffMillis (fun _ => 0%Q) 0);
   Sent sample_get_request (inr rows_response, false)].

Lemma sample_played : played (request (fun _ => 0) (fun _ => None) 0 (fun _ => 0%Q) sample_get) sample_exchange (inr (JArr [])).
Proof. do 2 econstructor. instantiate (1 := inr tt). do 2 econstructor. Qed.

Lemma request_resends_only_reads_witness :
  outgoing (fun _ => 0) sample_get = Some sample_get_request /\
  ((outgoing (fun _ => 0) sample_get = None /\ sample_exchange = []) \/
   exists req, outgoing (fun _ => 0) sample_get = Some req /\ exchange req 2 sample_exchange /\
    (length (omap sent_of sample_exchange) <= 3 <= 3)%nat /\
    (GET <> GET -> exists got, sample_exchange = [Sent req got])).
Proof.
  split; [reflexivity|]. refine (request_resends_only_reads (fun _ => 0) (fun _ => None) 0 (fun _ => 0%Q) sample_get _ _ _ sample_played).
  intros n. split; vm_compute; discriminate.
Defined.
