(* ===== verification/Remote.v ===== *)
(** * The remote collection is the local one (client/src/client.ts against server/src/http/router.ts)

    [connect serve] runs the client's operations against the router: every request travels
    as JSON and its percent-encoded path, and every answer back.  [local] is the in-process
    operation of the same name on the same database.  The theorem says what the wire adds
    to an operation: nothing to a success, and to an error what [over_wire] keeps of it. *)
From Stdlib Require Import QArith.
From S2P Require Import Prelude JsText Utf8 JsValue Errors Json Storage Effects Lsn CurrentJson LogWalk LogTail Snapshot DocId Predicate Satisfiable Validate.
From S2P Require Import IndexCodec Adoption Writer Capacity QueryPlanner IndexWalk Query Db Since Http Router Client.
Local Open Scope result_scope.
Local Open Scope Z_scope.

(** ** The verbs *)

Inductive verb :=
| VGet (id : jsstr)
| VFirst (s : ClientState)
| VAll (s : ClientState)
| VCount (s : ClientState)
| VInsert (doc : list (jsstr * jsval)) (millis : N) (rand : list N)
| VUpdate (id : jsstr) (patch : list (jsstr * jsval))
| VReplace (id : jsstr) (doc : list (jsstr * jsval))
| VDelete (id : jsstr).

(** What the wire keeps of an error: a code the router maps, and the row of an ambiguous commit. *)
Definition over_wire (e : js_error) : js_error :=
  match e with
  | BaerlyError code _ _ id =>
    match ERROR_TO_STATUS code with
    | Some _ => BaerlyError code None None (if bool_decide (code = AmbiguousCommit) then id else None)
    | None => new_error Internal
    end
  | _ => new_error Internal
  end.

(** A path component the URL parser and the router hand over. *)
Definition routable (s : jsstr) : Prop := s <> [] /\ s <> js "." /\ s <> js ".." /\ code_units s.

(** Documented of the URL parser and the router: a pattern's parameters are the decoded
    path components. *)
Record routes_paths (route : jsstr -> routed) : Prop := {
  routes_row : forall c i c' i', routable c -> routable i -> encodeURIComponent c = Some c' -> encodeURIComponent i = Some i' ->
    route (js "/v1/c/" ++ c' ++ js "/" ++ i') = RowRoute c i;
  routes_collection : forall c c', routable c -> encodeURIComponent c = Some c' -> route (js "/v1/c/" ++ c') = CollectionRoute c;
  routes_count : route (js "/v1/count") = CountRoute
}.

Section remote.
Context (byteLength : bytes -> Z) (sha256 : bytes -> list N) (json_octets : bytes -> list N)
        (mixed_lt : jsval -> jsval -> bool) (nfc : jsstr -> jsstr).
Context (ceilings : FoldCeilings).
Context (write : CollectionReadContext -> nat -> CommitInput -> prog CommitResult) (uuid : jsstr).
Context (poll : jsstr -> jsstr -> prog SinceResponse).
Context (raw_json : jsstr -> option jsval) (to_number : jsstr -> jsnum) (route : jsstr -> routed).
Context (describe : js_error -> err_text).
Context (date_parse : jsstr -> option Z) (clock : Z) (random : nat -> Q).
Context (db : Db) (name : jsstr).

Definition server : Request -> prog Response :=
  serve byteLength sha256 json_octets mixed_lt nfc ceilings write uuid poll raw_json to_number route describe db.

Definition remote (v : verb) : prog jsval :=
  connect server
    match v with
    | VGet id => client_get byteLength date_parse clock random name id
    | VFirst s => client_first byteLength date_parse clock random name s
    | VAll s => client_all byteLength date_parse clock random name s
    | VCount s => client_count byteLength date_parse clock random name s
    | VInsert doc millis rand => client_insert byteLength date_parse clock random name doc millis rand
    | VUpdate id patch => client_update byteLength date_parse clock random name id (JObj patch)
    | VReplace id doc => client_replace byteLength date_parse clock random name id doc
    | VDelete id => client_delete byteLength date_parse clock random name id
    end.

(** The in-process query of a client's query, which always has a predicate. *)
Definition local_state (s : ClientState) : QueryState := State (Some (c_wire s)) (c_order s) (c_limit s).

(** The operations of [db.collection(name)], their values as the objects they resolve to.
    An insert without an id is the insert of the minted id, marked as minted. *)
Definition local (v : verb) : prog jsval :=
  with_collection db name (fun ctx schema =>
  match v with
  | VGet id => bind (first byteLength sha256 json_octets mixed_lt ctx (byId id None)) (fun row => Ret (default JUndef row))
  | VFirst s => bind (first byteLength sha256 json_octets mixed_lt ctx (local_state s)) (fun row => Ret (default JUndef row))
  | VAll s => bind (all byteLength sha256 json_octets mixed_lt ctx (local_state s)) (fun rows => Ret (JArr rows))
  | VCount s => bind (count byteLength sha256 json_octets mixed_lt ctx (local_state s))
                  (fun n => Ret (JNum (num_of_Z n)))
  | VInsert doc millis rand =>
    let insert doc minted := bind (runInsert byteLength sha256 json_octets mixed_lt nfc ctx ceilings schema (write ctx) doc minted uuid)
                               (fun id => Ret (JObj [(js "_id", JStr id)])) in
    let id := uuidv7 millis rand in
    let auto := insert (own_set (js "_id") (JStr id) doc) (Some id) in
    match js_get doc (js "_id") with JStr [] => auto | JStr _ => insert doc None | _ => auto end
  | VUpdate id patch =>
    bind (runUpdate byteLength sha256 json_octets mixed_lt nfc ctx ceilings schema (write ctx) (byId id None) (JObj patch))
      (fun n => Ret (JObj [(js "modified", JNum (num_of_Z n))]))
  | VReplace id doc =>
    bind (runReplaceById byteLength sha256 json_octets mixed_lt nfc ctx ceilings schema (write ctx) id doc) (fun _ => Ret JUndef)
  | VDelete id =>
    bind (runDelete byteLength sha256 json_octets mixed_lt ctx ceilings (write ctx) (byId id None)) (fun n => Ret (deleted_json n))
  end).

(** What the client hands its caller, given what the operation did in process. *)
Definition delivered (v : verb) (r : result jsval) : result jsval :=
  match v, r with
  | VUpdate _ _, inr x => if bool_decide (x = JObj [(js "modified", JNum (num_of_Z 0))]) then inl (new_error NotFound) else inr x
  | VGet _, inl e => if has_code NotFound e then inr JUndef else inl (over_wire e)
  | VDelete _, inl e => if has_code NotFound e then inr (deleted_json 0) else inl (over_wire e)
  | VDelete _, inr x => inr (if bool_decide (x = deleted_json 0) then x else deleted_json 1)
  | _, inl e => inl (over_wire e)
  | _, inr x => inr x
  end.

(** ** What the wire can carry *)

Definition state_ok (s : ClientState) : Prop :=
  validateWire (wire_json (c_wire s)) = inr (c_wire s) /\ json_ok (wire_json (c_wire s)) = true /\
  NoDup (default [] (c_order s)).*1 /\ match c_limit s with Some n => 0 <= n <= MAX_SAFE_INTEGER | None => True end.

(** A JSON body of at most a mebibyte. *)
Definition body_ok (v : jsval) : Prop := json_ok v = true /\ byteLength (JsonText v) <= MAX_BODY_BYTES.

Definition verb_ok (v : verb) : Prop :=
  match v with
  | VGet id | VDelete id => routable id /\ isWellFormed id = true
  | VFirst s | VAll s => state_ok s
  | VCount s => state_ok s /\ c_limit s = None
  | VInsert doc millis rand =>
    let minted := uuidv7 millis rand in
    (millis < 2 ^ 48)%N /\ length rand = 10%nat /\ is_bytes rand /\ json_ok (JObj doc) = true /\
    body_ok (JObj [(js "doc", JObj doc)]) /\ body_ok (JObj [(js "doc", with_id doc minted); (js "mintedId", JStr minted)])
  | VUpdate id patch => routable id /\ isWellFormed id = true /\ body_ok (JObj [(js "patch", JObj patch)])
  | VReplace id doc => routable id /\ isWellFormed id = true /\ body_ok (JObj [(js "doc", JObj doc)])
  end.

(** The rows of every snapshot are JSON values, as the compactor writes them. *)
Definition snapshots_json (m : MemoryStorage) : Prop := forall key o docs,
  objects m !! key = Some o -> open_snapshot sha256 key name (stored_body o) = inr docs ->
  Forall (fun v => json_ok v = true) docs.*2.
End remote.

(** ** Programs that only read *)

Definition answers {A} (now : Z) (m : MemoryStorage) (p : prog A) (P : A -> Prop) : Prop :=
  exists r, run now p m = (r, m) /\ match r with inr a => P a | inl _ => True end.

Section answers.
Context (now : Z) (m : MemoryStorage).

Lemma answers_ret {A} (a : A) (P : A -> Prop) : P a -> answers now m (Ret a) P.
Proof. intros H. by exists (inr a). Qed.

Lemma answers_throw {A} e (P : A -> Prop) : answers now m (Throw e) P.
Proof. by exists (inl e). Qed.

Lemma answers_bind {A B} (p : prog A) (f : A -> prog B) (P : A -> Prop) (Q : B -> Prop) :
  answers now m p P -> (forall a, P a -> answers now m (f a) Q) -> answers now m (bind p f) Q.
Proof.
  intros (r & Hr & Hp) Hf. destruct r as [e|a].
  - exists (inl e). by rewrite run_bind, Hr.
  - destruct (Hf a Hp) as (r' & Hr' & Hq). exists r'. by rewrite run_bind, Hr.
Qed.

Lemma answers_mono {A} (p : prog A) (P Q : A -> Prop) : answers now m p P -> (forall a, P a -> Q a) -> answers now m p Q.
Proof. intros (r & Hr & Hp) H. exists r. split; [done|]. destruct r; auto. Qed.

Lemma answers_of_result {A} (r : result A) (P : A -> Prop) : (forall a, r = inr a -> P a) -> answers now m (of_result r) P.
Proof. intros H. exists r. rewrite run_of_result. split; [done|]. destruct r; auto. Qed.

Lemma answers_get key : answers now m (storage_get key) (fun got => match got with
  | Some g => exists o, objects m !! key = Some o /\ body g = stored_body o | None => True end).
Proof.
  unfold answers, storage_get. cbn [run]. rewrite run_of_result. eexists. split; [done|].
  unfold memory_get. destruct (assertValidStorageKey key); [done|]. destruct (objects m !! key) as [o|]; [|done].
  rewrite bool_decide_eq_false_2 by done. by exists o.
Qed.

Lemma answers_list prefix after n : answers now m (storage_list prefix after n) (fun _ => True).
Proof. by eexists. Qed.

Lemma answers_for_each {A B} (l : list A) (f : A -> prog B) (P : B -> Prop) :
  (forall x, answers now m (f x) P) -> answers now m (for_each l f) (Forall P).
Proof.
  intros Hf. induction l as [|x l IH]; cbn [for_each]; [by apply answers_ret|].
  eapply answers_bind; [apply Hf|]. intros y Hy. eapply answers_bind; [exact IH|]. intros ys Hys. apply answers_ret. by constructor.
Qed.

Lemma answers_promise_all {A B} (l : list A) (f : A -> prog B) :
  (forall x, answers now m (f x) (fun _ => True)) -> answers now m (promise_all l f) (fun _ => True).
Proof.
  intros Hf. assert (Hs : answers now m (settle_all l f) (fun _ => True)).
  { induction l as [|x l IH]; cbn [settle_all]; [by apply answers_ret|]. destruct (Hf x) as (r & Hr & _).
    destruct (answers_bind _ (fun rs => Ret (r :: rs)) _ (fun _ => True) IH) as (r' & Hr' & _); [by intros; apply answers_ret|].
    exists r'. rewrite run_attempt, Hr. split; [done|]. by destruct r'. }
  eapply answers_bind; [exact Hs|]. intros rs _. by apply answers_of_result.
Qed.

Lemma answers_readCurrent key : answers now m (readCurrentJson key) (fun _ => True).
Proof.
  eapply answers_bind; [apply answers_get|]. intros [g|] _; [|by apply answers_ret].
  eapply (answers_bind _ _ (fun _ => True)); [by apply answers_of_result|]. intros c _. by apply answers_ret.
Qed.
End answers.

(** ** The rows of a read are JSON *)

Abbreviation is_json v := (json_ok v = true).

Definition docs_json (docs : jsmap) : Prop := Forall (fun v => is_json v) docs.*2.

Lemma js_get_json o k : is_json (JObj o) -> (k ∉ object_prototype_functions) -> k <> js "__proto__" ->
  js_get o k = JUndef \/ is_json (js_get o k).
Proof.
  intros [_ H]%json_ok_obj Hk Hp. unfold js_get. destruct (own_get k o) as [v|] eqn:E.
  - right. apply own_get_In in E. rewrite Forall_forall in H. by apply (H (k, v)).
  - left. by rewrite !decide_False.
Qed.

Lemma map_set_json k v docs : is_json v -> docs_json docs -> docs_json (map_set k v docs).
Proof.
  intros Hv. unfold docs_json. induction docs as [|[k' v'] docs IH]; cbn; [by repeat constructor|].
  intros [H1 H2]%Forall_cons. case_decide; cbn; constructor; auto.
Qed.

Lemma map_delete_json k docs : docs_json docs -> docs_json (map_delete k docs).
Proof.
  unfold docs_json, map_delete. rewrite !Forall_fmap, !Forall_forall. intros H x [_ Hx]%list_elem_of_filter. by apply H.
Qed.

Lemma fold_entry_json coll f docs e docs' : is_json e -> docs_json docs -> fold_entry coll f docs e = Some docs' -> docs_json docs'.
Proof.
  intros He Hd. unfold fold_entry. destruct (prop (js "collection") e) as [c|]; [|done]. cbn [mbind option_bind].
  destruct (negb (strict_eq c (JStr coll))); [by intros [= <-]|]. destruct (prop (js "doc_id") e) as [d|]; [|done]. cbn [mbind option_bind].
  destruct (strict_eq d JUndef); [by intros [= <-]|].
  destruct (match f with Some f => negb (bool_decide (d ∈ f)) | None => false end); [by intros [= <-]|].
  destruct (prop (js "op") e) as [op|]; [|done]. cbn [mbind option_bind].
  destruct (strict_eq op (JStr (js "I")) || strict_eq op (JStr (js "U"))).
  - destruct (prop (js "after") e) as [a|] eqn:Ea; [|done]. cbn [mbind option_bind].
    destruct (strict_eq a JUndef) eqn:Eu; intros [= <-]; [done|]. apply map_set_json; [|done].
    destruct e as [| | | | | |o|]; cbn [prop] in Ea; try done; injection Ea as <-; try done.
    destruct (js_get_json o (js "after") He) as [E|E]; [by js_decide|by js_decide| |done]. by rewrite E in Eu.
  - case_match; intros [= <-]; [by apply map_delete_json|done].
Qed.

Lemma fold_json coll f es docs docs' : Forall (fun e => is_json e) es -> docs_json docs ->
  foldLogEntriesOnto coll f es docs = Some docs' -> docs_json docs'.
Proof.
  intros Hes. revert docs. induction Hes as [|e es He _ IH]; intros docs Hd; cbn; [by intros [= <-]|].
  destruct (fold_entry coll f docs e) as [docs1|] eqn:E; [|done]. cbn. apply IH. by eapply fold_entry_json.
Qed.

(** ** What a read answers *)

Section reads.
Context (byteLength : bytes -> Z) (sha256 : bytes -> list N) (json_octets : bytes -> list N)
        (mixed_lt : jsval -> jsval -> bool) (ctx : CollectionReadContext).
Context (now : Z) (m : MemoryStorage) (Hsnap : snapshots_json sha256 (collectionName ctx) m).

Abbreviation ans := (answers now m).

Lemma ans_base head : ans (base_docs sha256 ctx head) docs_json.
Proof.
  unfold base_docs. destruct (snapshot head) as [key|]; [|by apply answers_ret; constructor].
  eapply answers_bind; [apply answers_get|]. intros [g|] Hg; [|apply answers_throw]. destruct Hg as (o & Ho & ->).
  apply answers_of_result. intros docs Hd. by eapply Hsnap.
Qed.

Lemma ans_probe_loop n p seq entries complete : Forall (fun e => is_json e) entries ->
  ans (probe_loop n p seq false entries complete) (fun c => match c with Exact _ es _ | AtLeast _ es _ => Forall (fun e => is_json e) es end).
Proof.
  revert seq entries complete. induction n as [|n IH]; intros seq entries complete He; cbn [probe_loop]; [by apply answers_ret|].
  eapply answers_bind; [apply answers_get|]. intros [g|] _; [|by apply answers_ret].
  destruct (decodeJsonBytes (body g)) as [e|] eqn:E; [|apply answers_throw]. apply IH, Forall_app. split; [done|].
  apply decode_json_ok in E. by constructor.
Qed.

Lemma ans_probe p hint : ans (probeTailFrom p hint) (fun r => Forall (fun e => is_json e) r.2).
Proof.
  eapply answers_bind; [by apply ans_probe_loop|]. intros [t es c|t es c] H; [by apply answers_ret|apply answers_throw].
Qed.

Lemma ans_walk_chunks fuel p from total start :
  ans (walk_chunks byteLength fuel p from total start) (Forall (fun e => is_json e.1)).
Proof.
  revert start. induction fuel as [|fuel IH]; intros start; cbn [walk_chunks]; [by apply answers_ret|].
  destruct (start <? total); [|by apply answers_ret]. cbv zeta. eapply answers_bind.
  - apply (answers_for_each _ _ _ _ (fun e => is_json e.1)). intros i. unfold readLogEntryWithBytes. eapply answers_bind; [apply answers_get|].
    intros [g|] _; [|apply answers_throw]. destruct (decodeJsonBytes (body g)) as [e|] eqn:E; [|apply answers_throw].
    apply answers_ret. by apply decode_json_ok in E.
  - intros rs Hrs. eapply answers_bind; [apply IH|]. intros rest Hrest. apply answers_ret. by apply Forall_app.
Qed.

Lemma ans_walk p from stop : ans (walkLogRange byteLength p from stop) (Forall (fun e => is_json e)).
Proof.
  unfold walkLogRange. apply (answers_bind _ _ _ _ (Forall (fun e => is_json e.1))).
  - unfold walkLogRangeWithBytes. case_match; [by apply answers_ret|]. cbv zeta. apply ans_walk_chunks.
  - intros es Hes. apply answers_ret. by apply Forall_fmap.
Qed.

Lemma ans_fold f es docs : Forall (fun e => is_json e) es -> docs_json docs -> ans (fold_docs ctx f es docs) docs_json.
Proof.
  intros Hes Hd. unfold fold_docs, or_throw. apply answers_of_result. intros docs'.
  destruct (foldLogEntriesOnto _ _ _ _) eqn:E; intros [= <-]. exact (fold_json _ _ _ _ _ Hes Hd E).
Qed.

Abbreviation rows_json := (Forall (fun r : jsval * jsval => is_json r.2)).

Lemma docs_rows docs : docs_json docs -> rows_json docs.
Proof. intros H. by apply Forall_fmap in H. Qed.

Lemma filter_json w rows found : rows_json rows -> filter_rows w rows = Some found -> rows_json found.
Proof.
  intros H. revert found. induction H as [|r rows Hr _ IH]; intros found; cbn; [by intros [= <-]|].
  destruct (row_matches w r.2) as [b|]; [|done]. cbn. destruct (filter_rows w rows) as [rest|]; [|done]. cbn.
  intros [= <-]. destruct b; [constructor|]; auto.
Qed.

Lemma ans_match w docs : docs_json docs -> ans (match_rows w docs) rows_json.
Proof.
  intros Hd%docs_rows. unfold match_rows, or_throw. apply answers_of_result. intros found. destruct w as [w|]; [|by intros [= <-]].
  destruct (filter_rows w docs) eqn:E; intros [= <-]. by eapply filter_json.
Qed.

Lemma map_get_json k docs v : docs_json docs -> map_get k docs = Some v -> is_json v.
Proof.
  unfold docs_json. induction docs as [|[k' v'] docs IH]; cbn; [done|]. intros [H1 H2]%Forall_cons.
  case_decide; [by intros [= <-]|auto].
Qed.

Lemma ans_select w docs : docs_json docs -> ans (select_rows w docs) rows_json.
Proof.
  intros Hd. unfold select_rows. destruct (singleIdFromPredicate w) as [id|]; [|by apply ans_match].
  apply answers_ret. destruct (map_get (JStr id) docs) as [v|] eqn:E; [|done]. constructor; [|done]. by eapply map_get_json.
Qed.

Lemma sort_json spec rows : rows_json rows -> rows_json (sortByOrderSpec mixed_lt rows spec).
Proof.
  unfold sortByOrderSpec. intros H. enough (forall acc, rows_json acc -> rows_json (foldl (fun sorted row => insert_row mixed_lt spec row sorted) acc rows)) by auto.
  induction H as [|r rows Hr _ IH]; intros acc Ha; cbn [foldl]; [done|]. apply IH.
  induction Ha as [|a acc Ha0 Ha IHa]; cbn [insert_row]; [by constructor|]. case_match; constructor; auto.
Qed.

Lemma finish_json state found : rows_json found -> rows_json (finish_rows mixed_lt state found).
Proof.
  intros H. unfold finish_rows, limit_rows, order_rows.
  assert (Hs : rows_json (match order state with Some spec => sortByOrderSpec mixed_lt found spec | None => found end))
    by (destruct (order state); [by apply sort_json|done]).
  revert Hs. generalize (match order state with Some spec => sortByOrderSpec mixed_lt found spec | None => found end).
  intros rs Hs. destruct (limit state) as [z|]; [|done]. destruct (z <? Z.of_nat (length rs)); [by apply Forall_take|done].
Qed.

Lemma ans_ids p plan : ans (walk_ids json_octets p plan) (fun _ => True).
Proof.
  assert (He : forall o, ans (encode_defined json_octets o) (fun _ => True)).
  { intros o. unfold encode_defined. repeat case_match; try by apply answers_ret.
    all: eapply (answers_bind _ _ _ _ (fun _ => True)); [by apply answers_of_result|]; intros; by apply answers_ret. }
  unfold walk_ids. apply (answers_bind _ _ _ _ (fun _ => True)); [by apply answers_of_result|]. intros segs _. cbv zeta.
  destruct (rangeOn plan) as [[f r]|].
  - unfold range_walk. apply (answers_bind _ _ _ _ (fun _ => True)); [apply He|]. intros lo _.
    apply (answers_bind _ _ _ _ (fun _ => True)); [apply He|]. intros hi _. cbv zeta.
    eapply answers_bind; [apply answers_list|]. intros es _. by apply answers_ret.
  - destruct (inOn plan) as [[f vs]|].
    + generalize (@nil jsstr) (length vs). intros ids n. revert vs ids. induction n as [|n IH]; intros vs ids; cbn [in_walk]; [by apply answers_ret|].
      destruct vs as [|v vs]; [by apply answers_ret|]. apply (answers_bind _ _ _ _ (fun _ => True)).
      * apply answers_promise_all. intros x. unfold walkOne. apply (answers_bind _ _ _ _ (fun _ => True)); [by apply answers_of_result|].
        intros s _. cbv zeta. eapply answers_bind; [apply answers_list|]. intros es _. by apply answers_ret.
      * intros rs _. apply IH.
    + eapply answers_bind; [apply answers_list|]. intros es _. by apply answers_ret.
Qed.

Lemma seeded_json base ids : docs_json base -> docs_json (seeded base ids).
Proof.
  intros Hb. unfold seeded. enough (forall acc, docs_json acc -> docs_json (foldl (fun docs id => match map_get (JStr id) base with
    | Some row => map_set (JStr id) row docs | None => docs end) acc ids)) by (apply H; constructor).
  induction ids as [|id ids IH]; intros acc Ha; cbn [foldl]; [done|]. apply IH.
  destruct (map_get (JStr id) base) as [v|] eqn:E; [|done]. apply map_set_json; [|done]. exact (map_get_json _ _ _ Hb E).
Qed.

(** A read changes nothing and answers JSON documents. *)
Lemma ans_read state : ans (runRead byteLength sha256 json_octets mixed_lt ctx state) (fun res => Forall (fun v => is_json v) res.1.1).
Proof.
  unfold runRead. apply (answers_bind _ _ _ _ (fun r => rows_json (rows r))).
  2: { intros r Hr. apply answers_ret. by apply Forall_fmap. }
  unfold runReadRows. eapply answers_bind; [apply answers_readCurrent|]. intros [head|] _; [|by apply answers_ret].
  apply (answers_bind _ _ _ _ (fun _ => True)); [by apply answers_of_result|]. intros [plan|reason] _.
  - apply (answers_bind _ _ _ _ (fun r => rows_json r.1.1)).
    2: { intros [[found tail] f] Hf. apply answers_ret. by apply finish_json. }
    unfold runIndexWalkPlan. eapply answers_bind; [apply ans_ids|]. intros ids _.
    eapply answers_bind; [apply ans_probe|]. intros probe Hp. cbv zeta. case_bool_decide; [by apply answers_ret|].
    eapply answers_bind; [apply ans_base|]. intros base Hb. eapply answers_bind; [apply ans_walk|]. intros es Hes.
    eapply answers_bind; [apply ans_fold; [done|by apply seeded_json]|]. intros docs Hd.
    eapply answers_bind; [by apply ans_fold|]. intros docs' Hd'.
    eapply answers_bind; [by apply ans_match|]. intros found Hf. by apply answers_ret.
  - unfold full_scan. cbv zeta. eapply answers_bind; [apply ans_base|]. intros base Hb.
    eapply answers_bind; [apply ans_walk|]. intros es Hes. eapply answers_bind; [apply ans_probe|]. intros probe Hp.
    eapply answers_bind; [by apply ans_fold|]. intros docs Hd. eapply answers_bind; [by apply ans_fold|]. intros docs' Hd'.
    eapply answers_bind; [by apply ans_select|]. intros found Hf. apply answers_ret. by apply finish_json.
Qed.
End reads.

(** ** One round trip *)

Lemma run_connect_attempt {A B} now srv (p : net A) (f : result A -> net B) m :
  run now (connect srv (nattempt p f)) m = let (r, m') := run now (connect srv p) m in run now (connect srv (f r)) m'.
Proof.
  revert m. induction p as [a|e|req k IH|ms k IH]; intros m; cbn [nattempt connect]; [done|done| |apply IH].
  rewrite !run_attempt. destruct (run now (srv req) m) as [r m1]. apply IH.
Qed.

Lemma run_connect_bind {A B} now srv (p : net A) (f : A -> net B) m :
  run now (connect srv (nbind p f)) m =
  match run now (connect srv p) m with (inl e, m') => (inl e, m') | (inr a, m') => run now (connect srv (f a)) m' end.
Proof. unfold nbind. rewrite run_connect_attempt. by destruct (run now (connect srv p) m) as [[e|a] m']. Qed.

Lemma run_connect_catch {A} now srv (p : net A) h m :
  run now (connect srv (ncatch p h)) m =
  match run now (connect srv p) m with (inl e, m') => run now (connect srv (h e)) m' | (inr a, m') => (inr a, m') end.
Proof. unfold ncatch. rewrite run_connect_attempt. by destruct (run now (connect srv p) m) as [[e|a] m']. Qed.

Lemma run_connect_option {A} now srv (o : option A) m :
  run now (connect srv (of_option o)) m = (match o with Some a => inr a | None => inl OtherError end, m).
Proof. by destruct o. Qed.

(** What an envelope says, whatever its optional fields. *)
Lemma envelope_fields code msg iss res id : Forall (fun v => is_json v) (default [] iss) ->
  exists o, errorEnvelope code msg iss res id = JObj [(js "error", JObj o)] /\ is_json (JObj [(js "error", JObj o)]) /\
    js_get o (js "code") = JStr (code_name code) /\
    js_get o (js "_id") = match id with Some i => if bool_decide (code = AmbiguousCommit) then JStr i else JUndef | None => JUndef end.
Proof.
  intros Hi. unfold errorEnvelope. set (r := match res with Some _ => _ | None => _ end). clearbody r.
  eexists. split; [reflexivity|].
  assert (Hl : forall l, iss = Some l -> is_json (JArr l)) by (intros l ->; by apply json_ok_arr).
  destruct iss as [[|v l]|], r as [r|], id as [i|]; (case_bool_decide; [subst code|]); cbn [field_if fmap option_fmap option_map app];
    (split_and!; [|by rewrite js_get_hd|]).
  all: try (rewrite !js_get_tl by js_decide; first [by rewrite js_get_hd|by apply js_get_absent; js_decide]).
  all: apply json_ok_obj; split; [js_decide|]; apply Forall_singleton, json_ok_obj; (split; [js_decide|]).
  all: rewrite !Forall_cons, Forall_nil; cbn [snd]; split_and!; try done; try by apply Hl.
Qed.

Lemma mapped_envelope e t : Forall (fun v => is_json v) (default [] (issues t)) ->
  exists status o, mapError e t = (status, JObj [(js "error", JObj o)]) /\ is_json (JObj [(js "error", JObj o)]) /\ 400 <= status /\
    decodeFailure (Resp status None (Some (JsonText (JObj [(js "error", JObj o)])))) = (over_wire e, true).
Proof.
  intros Hi. assert (Hdec : forall status code id iss msg res, Forall (fun v => is_json v) (default [] iss) -> 
    exists o, errorEnvelope code msg iss res id = JObj [(js "error", JObj o)] /\ is_json (JObj [(js "error", JObj o)]) /\
      decodeFailure (Resp status None (Some (JsonText (JObj [(js "error", JObj o)])))) =
      (BaerlyError code None None (if bool_decide (code = AmbiguousCommit) then id else None), true)).
  { intros status code id iss msg res Hiss. destruct (envelope_fields code msg iss res id Hiss) as (o & Ho & Hj & Hc & Hid).
    exists o. split_and!; [done..|]. unfold decodeFailure, response_json, decodeJsonBytes. cbn [res_body mbind option_bind].
    rewrite Hj. unfold optional_prop. cbn [from_option Datatypes.id prop mbind option_bind]. rewrite js_get_hd. cbn [prop from_option Datatypes.id]. rewrite Hc, parse_code_name, Hid.
    do 2 f_equal. destruct id; [|by case_bool_decide]. by case_bool_decide. }
  unfold mapError. destruct e as [code d ch id| |].
  - destruct (ERROR_TO_STATUS code) as [st|] eqn:Es; cbn [from_option Datatypes.id].
    + rewrite bool_decide_eq_true_2 by done. cbn [negb orb].
      assert (Hst : 400 <= st) by (by destruct code; try done; injection Es as <-).
      destruct (shouldExposeErrorMessage code t); cbn [negb].
      * destruct (Hdec st code id (issues t) (message t) (resolution t) Hi) as (o & Ho & Hj & Hd).
        exists st, o. rewrite Ho. split_and!; [done..|]. rewrite Hd. unfold over_wire. by rewrite Es.
      * destruct (Hdec st code id None (scrubbedMessageFor code) None ltac:(constructor)) as (o & Ho & Hj & Hd).
        exists st, o. rewrite Ho. split_and!; [done..|]. rewrite Hd. unfold over_wire. by rewrite Es.
    + assert (Hcl : shouldExposeErrorMessage code t = false) by (by destruct code).
      rewrite Hcl, orb_true_r.
      destruct (Hdec 500 Internal (if bool_decide (Internal = code) then id else None) None (scrubbedMessageFor Internal) None ltac:(constructor)) as (o & Ho & Hj & Hd).
      exists 500, o. rewrite Ho. split_and!; [done..|]. rewrite Hd. unfold over_wire. by rewrite Es.
  - destruct (Hdec 500 Internal None None (js "internal error") None ltac:(constructor)) as (o & Ho & Hj & Hd).
    exists 500, o. rewrite Ho. by split_and!.
  - destruct (Hdec 500 Internal None None (js "internal error") None ltac:(constructor)) as (o & Ho & Hj & Hd).
    exists 500, o. rewrite Ho. by split_and!.
Qed.

Section wire.
Context (byteLength : bytes -> Z) (sha256 : bytes -> list N) (json_octets : bytes -> list N)
        (mixed_lt : jsval -> jsval -> bool) (nfc : jsstr -> jsstr).
Context (ceilings : FoldCeilings).
Context (write : CollectionReadContext -> nat -> CommitInput -> prog CommitResult) (uuid : jsstr).
Context (poll : jsstr -> jsstr -> prog SinceResponse).
Context (raw_json : jsstr -> option jsval) (to_number : jsstr -> jsnum) (route : jsstr -> routed).
Context (describe : js_error -> err_text).
Context (date_parse : jsstr -> option Z) (clock : Z) (random : nat -> Q).
Context (db : Db) (name : jsstr) (now : Z).
Context (Hissues : forall e, Forall (fun v => is_json v) (default [] (issues (describe e)))).
Context (Hroute : routes_paths route) (Hname : routable name /\ isWellFormed name = true).
Context (Hnumber : forall n, 0 <= n <= MAX_SAFE_INTEGER -> to_number (show_Z n) = num_of_Z n).
Context (Hlength : forall b, 0 <= byteLength b).

Abbreviation disp := (dispatch byteLength sha256 json_octets mixed_lt nfc ceilings write uuid poll raw_json to_number route db).
Abbreviation srv := (server byteLength sha256 json_octets mixed_lt nfc ceilings write uuid poll raw_json to_number route describe db).
Abbreviation req_net := (request byteLength date_parse clock random).
Abbreviation rem v := (remote byteLength sha256 json_octets mixed_lt nfc ceilings write uuid poll raw_json to_number route describe date_parse clock random db name v).
Abbreviation loc v := (local byteLength sha256 json_octets mixed_lt nfc ceilings write uuid db name v).

Lemma run_server req m : run now (srv req) m =
  let (r, m') := run now (disp req) m in (inr match r with inl e => mapToResponse describe e | inr res => res end, m').
Proof. unfold server, serve. rewrite run_catch. by destruct (run now (disp req) m) as [[e|res] m']. Qed.

(** A response the client takes as a success. *)
Definition success (opts : RequestOptions) (res : Response) : result jsval :=
  if res_status res =? 204 then inr JUndef
  else match response_json res with
       | None => inl (new_error_cause InvalidResponse OtherError)
       | Some v => if (res_status res =? 201) || negb (bool_decide (opt_method opts = GET)) then inr v
                   else match prop (js "data") v with Some d => inr d | None => inl OtherError end
       end.

Definition fits (opts : RequestOptions) (res : Response) : Prop :=
  res_status res = 204 \/ res_status res = 201 \/
  res_status res = 200 /\ (opt_method opts = GET -> starts_with (js "/v1/since") (opt_path opts) = false /\
                           forall v, response_json res = Some v -> has_prop v (js "data") = true).

Lemma run_request opts req m : outgoing byteLength opts = Some req ->
  (forall res m', run now (disp req) m = (inr res, m') -> fits opts res) ->
  run now (connect srv (req_net opts)) m =
  let (r, m') := run now (disp req) m in (match r with inl e => inl (over_wire e) | inr res => success opts res end, m').
Proof.
  intros Ho Hfit. unfold request. rewrite run_connect_bind, run_connect_option, Ho.
  destruct (maxAttempts opts - 1)%nat as [|spare].
  all: cbn [request_loop connect]; rewrite run_attempt, run_server;
    destruct (run now (disp req) m) as [[e|res] m'] eqn:Ed; cbv iota.
  all: try (destruct (mapped_envelope e (describe e) (Hissues e)) as (st & o & Hm & Hj & Hst & Hd);
    unfold mapToResponse; rewrite Hm, (encode_ok _ Hj); cbn [res_status];
    rewrite !(proj2 (Z.eqb_neq _ _)) by lia; unfold is_ok; cbn [res_status];
    rewrite (proj2 (Z.leb_gt st 299)), andb_false_r by lia; cbn [negb]; rewrite Hd; done).
  all: specialize (Hfit res m' eq_refl); unfold success;
    destruct Hfit as [Hs|[Hs|(Hs & Hget)]]; rewrite Hs; [done| |].
  all: unfold unwrap, is_ok; cbn [Z.eqb Pos.eqb orb].
  1,3: by unfold parseSuccessfulJson; destruct (response_json res).
  all: rewrite Hs; cbn [Z.leb Z.compare Pos.compare Pos.compare_cont andb negb]; rewrite run_connect_bind; unfold parseSuccessfulJson;
    destruct (response_json res) as [v|]; [|done]; cbn [connect run];
    case_bool_decide as Hm; cbn [negb]; [|done]; destruct (Hget Hm) as [Hp Hv]; rewrite Hp, (Hv v eq_refl);
    apply run_connect_option.
Qed.

Lemma over_wire_NotFound e : has_code NotFound (over_wire e) = has_code NotFound e.
Proof. destruct e as [c d ch id| |]; [|done..]. by destruct c. Qed.

Lemma run_respond v st m : is_json v -> run now (respond_json v st) m = (inr (Resp st None (Some (JsonText v))), m).
Proof. intros Hv. unfold respond_json. by rewrite (encode_ok _ Hv). Qed.

Lemma envelope_json d p f : is_json d -> is_json (ok_envelope d p f).
Proof.
  intros Hd. apply json_ok_obj. split; [js_decide|]. by repeat constructor.
Qed.

Lemma success_envelope opts d p f : is_json d -> success opts (Resp 200 None (Some (JsonText (ok_envelope d p f)))) =
  inr (if bool_decide (opt_method opts = GET) then d else ok_envelope d p f).
Proof.
  intros Hd. unfold success, response_json, decodeJsonBytes. cbn [res_status res_body mbind option_bind Z.eqb Pos.eqb orb].
  rewrite (envelope_json d p f Hd). case_bool_decide; cbn [negb]; [|done]. unfold ok_envelope. cbn [prop]. by rewrite js_get_hd.
Qed.

Lemma run_with {A} (f : CollectionReadContext -> option SchemaValidator -> prog A) m :
  run now (with_collection db name f) m =
  match collectionReadContext db name with inl e => (inl e, m) | inr c => run now (f c.1 c.2) m end.
Proof. unfold with_collection. rewrite run_bind, run_of_result. by destruct (collectionReadContext db name). Qed.

Lemma context_name c : collectionReadContext db name = inr c -> collectionName c.1 = name.
Proof. unfold collectionReadContext. destruct (assertKeySegment name); [done|]. by intros [= <-]. Qed.

(** The paths of the two patterns, and the route each takes. *)
Lemma collection_routed : exists path, collection_path name = Some path /\ route path = CollectionRoute name /\
  starts_with (js "/v1/since") path = false.
Proof.
  destruct Hname as [Hr Hw]. unfold collection_path. destruct (encodeURIComponent name) as [n|] eqn:En.
  2: { unfold encodeURIComponent in En. by rewrite Hw in En. }
  eexists. split; [done|]. split; [by apply (routes_collection _ Hroute)|done].
Qed.

Lemma row_routed id : routable id -> isWellFormed id = true -> exists path, idPath name id = Some path /\
  route path = RowRoute name id /\ starts_with (js "/v1/since") path = false.
Proof.
  intros Hi Hwi. destruct Hname as [Hr Hw]. unfold idPath. destruct (encodeURIComponent name) as [n|] eqn:En.
  2: { unfold encodeURIComponent in En. by rewrite Hw in En. }
  destruct (encodeURIComponent id) as [i|] eqn:Ei.
  2: { unfold encodeURIComponent in Ei. by rewrite Hwi in Ei. }
  eexists. split; [done|]. split; [by apply (routes_row _ Hroute)|done].
Qed.

(** One request on a known path. *)
Lemma run_on_path path opath method query body m (handler : prog Response) req : opath = Some path ->
  outgoing byteLength (Options method path query body true) = Some req -> disp req = handler ->
  (forall res m', run now handler m = (inr res, m') -> fits (Options method path query body true) res) ->
  run now (connect srv (on_path byteLength date_parse clock random opath method query body)) m =
  let (r, m') := run now handler m in
  (match r with inl e => inl (over_wire e) | inr res => success (Options method path query body true) res end, m').
Proof.
  intros -> Ho Hd Hfit. unfold on_path. rewrite run_connect_bind, run_connect_option. cbv iota.
  rewrite (run_request _ req m Ho); by rewrite Hd.
Qed.

Lemma run_reads c state m : collectionReadContext db name = inr c -> snapshots_json sha256 name m ->
  exists r, run now (runRead byteLength sha256 json_octets mixed_lt c.1 state) m = (r, m) /\
    match r with inr res => Forall (fun v => is_json v) res.1.1 | inl _ => True end.
Proof. intros Hc%context_name Hs. apply ans_read. by rewrite Hc. Qed.

Lemma fits_status opts st v : st = 201 \/ st = 200 /\ opt_method opts <> GET -> fits opts (Resp st None (Some (JsonText v))).
Proof. unfold fits. cbn [res_status]. tauto. Qed.

Lemma fits_envelope opts d p f : is_json d -> starts_with (js "/v1/since") (opt_path opts) = false ->
  fits opts (Resp 200 None (Some (JsonText (ok_envelope d p f)))).
Proof.
  intros Hd Hp. right. right. split; [done|]. intros _. split; [done|]. intros v. unfold response_json, decodeJsonBytes.
  cbn [res_body mbind option_bind]. rewrite (envelope_json d p f Hd). by intros [= <-].
Qed.

Lemma remote_get id m : routable id -> isWellFormed id = true -> snapshots_json sha256 name m ->
  run now (rem (VGet id)) m = let (r, m') := run now (loc (VGet id)) m in (delivered (VGet id) r, m').
Proof.
  intros Hi Hw Hs. destruct (row_routed id Hi Hw) as (path & Hp & Hrt & Hsince).
  unfold remote, client_get. rewrite run_connect_catch.
  rewrite (run_on_path path _ GET [] None m (get_row byteLength sha256 json_octets mixed_lt db name id) (Req GET path [] None None)); [|done|done| |].
  2: { unfold dispatch. cbn [req_method req_path]. by rewrite Hrt. }
  - unfold get_row, local. rewrite !run_with. destruct (collectionReadContext db name) as [e|c] eqn:Ec.
    { cbn [delivered]. rewrite over_wire_NotFound. by destruct (has_code NotFound e). }
    cbv beta zeta. unfold runByIdWithMeta, first. rewrite !run_bind. cbn [wire order byId].
    destruct (run_reads c (State (Some [Clause op_eq (js "_id") (JStr id)]) None (Some 1)) m Ec Hs) as ([e|[[rows p] f]] & Hr & Hj); rewrite Hr.
    { cbn [delivered]. rewrite over_wire_NotFound. by destruct (has_code NotFound e). }
    cbn [fst snd] in *. destruct rows as [|row rows]; [done|]. apply Forall_cons in Hj as [Hrow _]. cbn [head].
    destruct row; try done; rewrite run_respond by (by apply envelope_json); rewrite success_envelope by done; done.
  - intros res m'. unfold get_row. rewrite run_with. destruct (collectionReadContext db name) as [e|c] eqn:Ec; [done|].
    unfold runByIdWithMeta. rewrite run_bind.
    destruct (run_reads c (State (Some [Clause op_eq (js "_id") (JStr id)]) None (Some 1)) m Ec Hs) as ([e|[[rows p] f]] & Hr & Hj); rewrite Hr; [done|].
    cbn [fst snd] in *. destruct rows as [|row rows]; [done|]. apply Forall_cons in Hj as [Hrow _]. cbn [head].
    destruct row; try done; rewrite run_respond by (by apply envelope_json); intros [= <- _]; by apply fits_envelope.
Qed.

Lemma json_text_ok v : is_json v -> (exists o, v = JObj o) -> json_text v = Some (JsonOf v).
Proof. intros Hv [o ->]. unfold json_text. by rewrite (encode_ok _ Hv). Qed.

Lemma order_json_ok spec : NoDup spec.*1 -> is_json (order_json spec).
Proof.
  intros Hn. apply json_ok_obj. unfold own_keys. rewrite <- list_fmap_compose. split; [done|].
  apply Forall_fmap, Forall_forall. intros e _. by destruct e as [f []].
Qed.

Lemma order_entries (spec : list (jsstr * direction)) : order_entry <$> ((fun e : jsstr * direction => (e.1, JStr (js match e.2 with Asc => "asc" | Desc => "desc" end%string))) <$> spec) = spec.
Proof.
  rewrite <- list_fmap_compose. rewrite <- (list_fmap_id spec) at 2. apply list_fmap_ext. intros i [f d] _. by destruct d.
Qed.

Lemma sort_nothing rows : sortByOrderSpec mixed_lt rows [] = rows.
Proof.
  unfold sortByOrderSpec. enough (forall acc, foldl (fun sorted row => insert_row mixed_lt [] row sorted) acc rows = acc ++ rows) by auto.
  induction rows as [|r rows IH]; intros acc; cbn [foldl]; [by rewrite app_nil_r|]. rewrite IH.
  enough (insert_row mixed_lt [] r acc = acc ++ [r]) as -> by (by rewrite <- app_assoc).
  induction acc as [|a acc IHa]; [done|]. cbn [insert_row compare_rows]. cbn. by rewrite IHa.
Qed.

(** The order the router sees: an empty one is not sent. *)
Definition sent_order (o : option (list (jsstr * direction))) : option (list (jsstr * direction)) :=
  match o with Some [] => None | o => o end.

Lemma order_rows_sent o rows : order_rows mixed_lt (sent_order o) rows = order_rows mixed_lt o rows.
Proof. destruct o as [[|]|]; [|done..]. cbn [sent_order order_rows]. by rewrite sort_nothing. Qed.

Lemma where_sent w params : validateWire (wire_json w) = inr w -> is_json (wire_json w) -> own_get (js "where") params = None ->
  exists params', where_param w params = Some params' /\ parseWhereParam raw_json (own_get (js "where") params') = inr w /\
    forall k, k <> js "where" -> own_get k params' = own_get k params.
Proof.
  intros Hv Hj Hn. destruct w as [|c w]; [by exists params; rewrite Hn|].
  unfold where_param, set_param. rewrite json_text_ok by (done || by eexists). eexists. split; [done|]. split.
  - rewrite own_get_set, decide_True by done. unfold parseWhereParam, parse_text. by rewrite Hj.
  - intros k Hk. rewrite own_get_set. by rewrite decide_False.
Qed.

Lemma order_sent o params : NoDup (default [] o).*1 -> own_get (js "order") params = None ->
  exists params', match o with None | Some [] => Some params | Some spec => set_param "order" (json_text (order_json spec)) params end = Some params' /\
    parseOrder raw_json (own_get (js "order") params') = inr (sent_order o) /\
    forall k, k <> js "order" -> own_get k params' = own_get k params.
Proof.
  intros Hn Ho. destruct o as [[|e spec]|]; [by exists params; rewrite Ho| |by exists params; rewrite Ho].
  unfold set_param. rewrite json_text_ok; [|by apply order_json_ok|by eexists]. eexists. split; [done|]. split.
  - rewrite own_get_set, decide_True by done. unfold parseOrder, parse_text.
    rewrite (order_json_ok (e :: spec) Hn). unfold order_json. cbn [sent_order].
    by rewrite order_entries.
  - intros k Hk. rewrite own_get_set. by rewrite decide_False.
Qed.

Lemma limit_parsed n : 0 <= n <= MAX_SAFE_INTEGER -> parseLimit to_number (Some (Raw (show_Z n))) = inr (Some n).
Proof.
  intros Hn. unfold parseLimit. rewrite Hnumber by done. rewrite num_integer_of_Z. unfold is_safe_integer. rewrite num_integer_of_Z.
  by rewrite !(proj2 (Z.leb_le _ _)) by (unfold MAX_SAFE_INTEGER in *; lia).
Qed.

Lemma list_sent s : state_ok s -> exists params, listParams s = Some params /\
  parseWhereParam raw_json (own_get (js "where") params) = inr (c_wire s) /\
  parseOrder raw_json (own_get (js "order") params) = inr (sent_order (c_order s)) /\
  parseLimit to_number (own_get (js "limit") params) = inr (c_limit s).
Proof.
  intros (Hv & Hj & Hn & Hl). unfold listParams.
  destruct (where_sent (c_wire s) [] Hv Hj eq_refl) as (p1 & -> & Hw & H1). cbn [mbind option_bind].
  destruct (order_sent (c_order s) p1 Hn) as (p2 & -> & Ho & H2); [by rewrite H1|]. cbn [mbind option_bind].
  assert (Hw2 : own_get (js "where") p2 = own_get (js "where") p1) by by rewrite H2.
  destruct (c_limit s) as [n|].
  - unfold set_param. eexists. split; [done|]. rewrite !own_get_set, !decide_False by done. rewrite decide_True by done.
    rewrite Hw2. split_and!; [done..|]. by apply limit_parsed.
  - exists p2. split; [done|]. rewrite Hw2. split_and!; [done..|]. rewrite H2, H1 by done. done.
Qed.

(** The read a list request runs; the empty order it leaves out changes nothing. *)
Lemma run_read_sent c w o l m :
  run now (runRead byteLength sha256 json_octets mixed_lt c (State w (sent_order o) l)) m =
  run now (runRead byteLength sha256 json_octets mixed_lt c (State w o l)) m.
Proof.
  assert (Hf : forall found, finish_rows mixed_lt (State w (sent_order o) l) found = finish_rows mixed_lt (State w o l) found).
  { intros found. unfold finish_rows. cbn [order limit]. by rewrite order_rows_sent. }
  destruct o as [[|]|]; [|done..]. unfold runRead. rewrite !run_bind. unfold runReadRows. rewrite !run_bind.
  destruct (run now (readCurrentJson _) m) as [[e|[head|]] m1]; [done| |done]. cbn [wire]. rewrite !run_bind, !run_of_result.
  destruct (planQuery mixed_lt w (ctx_indexes c)) as [e|[plan|reason]]; [done| |].
  - rewrite !run_bind. change (runIndexWalkPlan byteLength sha256 json_octets c (CurrentJson.json head) (State w (sent_order (Some [])) l) plan)
      with (runIndexWalkPlan byteLength sha256 json_octets c (CurrentJson.json head) (State w (Some []) l) plan).
    destruct (run now (runIndexWalkPlan _ _ _ _ _ _ _) m1) as [[e|[[found t] f]] m2]; [done|]. cbn [run rows]. by rewrite Hf.
  - unfold full_scan. cbv zeta. rewrite !run_bind. destruct (run now (base_docs _ _ _) m1) as [[e|base] m2]; [done|].
    rewrite !run_bind. destruct (run now (walkLogRange _ _ _ _) m2) as [[e|es] m3]; [done|].
    rewrite !run_bind. destruct (run now (probeTailFrom _ _) m3) as [[e|probe] m4]; [done|].
    rewrite !run_bind. destruct (run now (fold_docs _ _ es _) m4) as [[e|docs] m5]; [done|].
    rewrite !run_bind. destruct (run now (fold_docs _ _ probe.2 _) m5) as [[e|docs'] m6]; [done|].
    rewrite !run_bind. cbn [wire]. destruct (run now (select_rows _ _) m6) as [[e|found] m7]; [done|]. cbn [run rows]. by rewrite Hf.
Qed.

Lemma own_get_limit n params : exists params', set_param "limit" (Some (Raw (show_Z n))) params = Some params' /\
  own_get (js "limit") params' = Some (Raw (show_Z n)) /\ own_get (js "where") params' = own_get (js "where") params /\
  own_get (js "order") params' = own_get (js "order") params.
Proof.
  eexists. split; [done|]. rewrite !own_get_set. split_and!; [by rewrite decide_True|by rewrite decide_False..].
Qed.

(** What one list request answers, for the limit it ends up with. *)
Lemma run_list_request s over m : state_ok s -> snapshots_json sha256 name m ->
  match over with Some n => 0 <= n <= MAX_SAFE_INTEGER | None => True end ->
  run now (connect srv (list_request byteLength date_parse clock random name s over)) m =
  (match collectionReadContext db name with
   | inl e => inl (over_wire e)
   | inr c => match (run now (runRead byteLength sha256 json_octets mixed_lt c.1
                      (State (Some (c_wire s)) (c_order s) (match over with Some n => Some n | None => c_limit s end))) m).1 with
              | inl e => inl (over_wire e)
              | inr res => inr (JArr res.1.1)
              end
   end, m).
Proof.
  intros Hs Hsnap Hover. destruct (list_sent s Hs) as (params0 & Hp & Hpw & Hpo & Hpl). unfold list_request.
  rewrite run_connect_bind, run_connect_option, Hp. cbv iota.
  assert (exists params, match over with Some n => set_param "limit" (Some (Raw (show_Z n))) params0 | None => Some params0 end = Some params /\
    parseWhereParam raw_json (own_get (js "where") params) = inr (c_wire s) /\
    parseOrder raw_json (own_get (js "order") params) = inr (sent_order (c_order s)) /\
    parseLimit to_number (own_get (js "limit") params) = inr (match over with Some n => Some n | None => c_limit s end)) as (params & -> & Hw & Ho & Hl).
  { destruct over as [n|]; [|by exists params0]. destruct (own_get_limit n params0) as (params & H1 & H2 & H3 & H4).
    exists params. rewrite H2, H3, H4. split_and!; [done..|]. by apply limit_parsed. }
  rewrite run_connect_bind, run_connect_option. cbv iota. destruct collection_routed as (path & Hpath & Hrt & Hsince).
  set (lim := match over with Some n => Some n | None => c_limit s end) in *.
  assert (Hh : run now (list_rows byteLength sha256 json_octets mixed_lt raw_json to_number db name (Req GET path params None None)) m =
    (match collectionReadContext db name with
     | inl e => inl e
     | inr c => match (run now (runRead byteLength sha256 json_octets mixed_lt c.1 (State (Some (c_wire s)) (c_order s) lim)) m).1 with
                | inl e => inl e
                | inr res => inr (Resp 200 None (Some (JsonText (ok_envelope (JArr res.1.1) res.1.2 res.2))))
                end
     end, m)).
  { unfold list_rows, query_param. cbn [req_query]. rewrite run_bind, run_of_result, Hw, run_bind, run_of_result, Ho, run_bind, run_of_result, Hl.
    rewrite run_with. destruct (collectionReadContext db name) as [e|c] eqn:Ec; [done|]. cbv beta zeta.
    unfold runAllWithMeta. rewrite run_bind, run_read_sent. 
    destruct (run_reads c (State (Some (c_wire s)) (c_order s) lim) m Ec Hsnap) as ([e|[[rows p] f]] & Hr & Hj); rewrite Hr; [done|].
    cbn [fst snd] in *. rewrite run_respond; [done|]. apply envelope_json. by apply json_ok_arr. }
  rewrite (run_on_path path _ GET params None m (list_rows byteLength sha256 json_octets mixed_lt raw_json to_number db name (Req GET path params None None))
             (Req GET path params None None)); [|done|done| |].
  2: { unfold dispatch. cbn [req_method req_path]. by rewrite Hrt. }
  - rewrite Hh. destruct (collectionReadContext db name) as [e|c] eqn:Ec; [done|].
    destruct (run_reads c (State (Some (c_wire s)) (c_order s) lim) m Ec Hsnap) as ([e|[[rows p] f]] & Hr & Hj); rewrite Hr; [done|].
    cbn [fst snd] in *. rewrite success_envelope; [done|]. by apply json_ok_arr.
  - intros res m'. rewrite Hh. destruct (collectionReadContext db name) as [e|c] eqn:Ec; [done|].
    destruct (run_reads c (State (Some (c_wire s)) (c_order s) lim) m Ec Hsnap) as ([e|[[rows p] f]] & Hr & Hj); rewrite Hr; [done|].
    cbn [fst snd] in *. intros [= <- _]. apply fits_envelope; [by apply json_ok_arr|done].
Qed.

Lemma remote_first s m : state_ok s -> snapshots_json sha256 name m ->
  run now (rem (VFirst s)) m = let (r, m') := run now (loc (VFirst s)) m in (delivered (VFirst s) r, m').
Proof.
  intros Hs Hsnap. unfold remote, client_first. rewrite run_connect_bind, (run_list_request s (Some 1) m Hs Hsnap) by (unfold MAX_SAFE_INTEGER; lia).
  unfold local. rewrite run_with. destruct (collectionReadContext db name) as [e|c] eqn:Ec; [done|].
  unfold first. rewrite !run_bind. cbn [local_state wire order].
  destruct (run_reads c (State (Some (c_wire s)) (c_order s) (Some 1)) m Ec Hsnap) as ([e|[[rows p] f]] & Hr & Hj); by rewrite Hr.
Qed.

Lemma remote_all s m : state_ok s -> snapshots_json sha256 name m ->
  run now (rem (VAll s)) m = let (r, m') := run now (loc (VAll s)) m in (delivered (VAll s) r, m').
Proof.
  intros Hs Hsnap. unfold remote, client_all. rewrite run_connect_bind, (run_list_request s None m Hs Hsnap) by done.
  unfold local. rewrite run_with. destruct (collectionReadContext db name) as [e|c] eqn:Ec; [done|].
  unfold all, local_state. rewrite !run_bind. cbv iota.
  destruct (run_reads c (State (Some (c_wire s)) (c_order s) (c_limit s)) m Ec Hsnap) as ([e|[[rows p] f]] & Hr & Hj); by rewrite Hr.
Qed.

(** The order of a query does not change the number of its rows. *)
Lemma length_order_rows o found : length (order_rows mixed_lt o found) = length found.
Proof.
  destruct o as [spec|]; [|done]. cbn [order_rows]. unfold sortByOrderSpec.
  assert (Hi : forall row l, length (insert_row mixed_lt spec row l) = S (length l)).
  { intros row l. induction l as [|r l IH]; cbn [insert_row]; [done|]. destruct (_ <? 0); [done|]. cbn [length]. by rewrite IH. }
  assert (Hf : forall acc, length (foldl (fun sorted row => insert_row mixed_lt spec row sorted) acc found) = (length acc + length found)%nat).
  { induction found as [|r found IH]; intros acc; cbn [foldl length]; [lia|]. rewrite IH, Hi. lia. }
  apply (Hf []).
Qed.

Lemma run_count_unordered ctx w o m :
  run now (count byteLength sha256 json_octets mixed_lt ctx (State w o None)) m =
  run now (count byteLength sha256 json_octets mixed_lt ctx (State w None None)) m.
Proof.
  unfold count, runRead, runReadRows. rewrite !run_bind. destruct (run now (readCurrentJson _) m) as [[e|[head|]] m1]; [done| |done].
  rewrite !run_bind, !run_of_result. cbn [wire]. destruct (planQuery _ _ _) as [e|[plan|reason]]; [done|..].
  - rewrite !run_bind. unfold runIndexWalkPlan. cbn [wire].
    match goal with |- context [run now (bind (walk_ids _ _ _) ?f) m1] => destruct (run now (bind (walk_ids json_octets (collectionPrefix ctx) plan) f) m1) as [[e|[[found tail] folded]] m2] end;
      [done|]. cbn [run rows fst snd]. unfold finish_rows. cbn [order limit limit_rows rows]. by rewrite !length_fmap, !length_order_rows.
  - unfold full_scan. cbn [wire]. rewrite !run_bind. do 6 (rewrite ?run_bind; match goal with
      |- context [run now ?q ?mm] => match q with Ret _ => fail 1 | _ => destruct (run now q mm) as [[?|?] ?] end end; [done|]).
    cbn [run rows fst snd]. unfold finish_rows. cbn [order limit limit_rows rows]. by rewrite !length_fmap, !length_order_rows.
Qed.

Lemma remote_count s m : state_ok s -> c_limit s = None -> snapshots_json sha256 name m ->
  run now (rem (VCount s)) m = let (r, m') := run now (loc (VCount s)) m in (delivered (VCount s) r, m').
Proof.
  intros (Hv & Hj & _ & _) Hlim Hsnap. unfold remote, client_count.
  destruct (where_sent (c_wire s) [(js "collection", Raw name)] Hv Hj eq_refl) as (params & Hp & Hw & Ho).
  rewrite run_connect_bind, run_connect_option, Hp. cbv iota. rewrite run_connect_bind.
  set (req := Req GET (js "/v1/count") params None None).
  assert (Hd : disp req = count_rows byteLength sha256 json_octets mixed_lt raw_json db req).
  { unfold dispatch, req at 1 2. cbn [req_method req_path]. by rewrite (routes_count _ Hroute). }
  assert (Hcol : query_param "collection" req = Some (Raw name)) by 
    (unfold query_param; subst req; cbn [req_query]; rewrite Ho by done; cbn [own_get]; by rewrite decide_True).
  assert (Hh : run now (disp req) m =
    (match collectionReadContext db name with
     | inl e => inl e
     | inr c => match (run now (runRead byteLength sha256 json_octets mixed_lt c.1 (State (Some (c_wire s)) None None)) m).1 with
                | inl e => inl e
                | inr res => inr (Resp 200 None (Some (JsonText (ok_envelope
                    (JObj [(js "count", JNum (num_of_Z (Z.of_nat (length res.1.1))))]) res.1.2 res.2))))
                end
     end, m)).
  { rewrite Hd. unfold count_rows. rewrite Hcol. destruct Hname as [[Hne _] _]. destruct name as [|u n] eqn:En; [done|]. rewrite <- En in *.
    unfold query_param. subst req. cbn [req_query]. rewrite run_bind, run_of_result, Hw. cbv iota. rewrite run_with.
    destruct (collectionReadContext db name) as [e|c] eqn:Ec; [done|]. cbv beta zeta. unfold runAllWithMeta. rewrite run_bind.
    destruct (run_reads c (State (Some (c_wire s)) None None) m Ec Hsnap) as ([e|[[rows p] f]] & Hr & _); rewrite Hr; [done|].
    cbn [fst snd]. by rewrite run_respond. }
  rewrite (run_request (Options GET (js "/v1/count") params None true) req m eq_refl).
  - rewrite Hh. unfold local. rewrite run_with. destruct (collectionReadContext db name) as [e|c] eqn:Ec; [done|].
    unfold local_state. rewrite Hlim, run_bind, run_count_unordered.
    unfold count. rewrite !run_bind.
    destruct (run_reads c (State (Some (c_wire s)) None None) m Ec Hsnap) as ([e|[[rows p] f]] & Hr & _); rewrite Hr; [done|].
    cbn [fst snd]. by rewrite success_envelope.
  - intros res m'. rewrite Hh. destruct (collectionReadContext db name) as [e|c] eqn:Ec; [done|].
    destruct (run_reads c (State (Some (c_wire s)) None None) m Ec Hsnap) as ([e|[[rows p] f]] & Hr & _); rewrite Hr; [done|].
    cbn [fst snd]. intros [= <- _]. by apply fits_envelope.
Qed.

Lemma parse_show n : 0 <= n -> parse_int 10 (show_Z n) = Some n.
Proof.
  intros Hn. unfold show_Z. rewrite (proj2 (Z.ltb_ge n 0)) by lia. rewrite parse_int_to_radix by lia. by rewrite Z2N.id.
Qed.

(** A body the router reads back. *)
Lemma body_read method path v : body_ok byteLength v ->
  exists req, outgoing byteLength (Options method path [] (Some v) true) = Some req /\ req_method req = method /\ req_path req = path /\
    readJsonBody byteLength req MAX_BODY_BYTES = inr v.
Proof.
  intros [Hj Hb]. unfold outgoing. cbn [opt_body]. rewrite (encode_ok _ Hj). cbn [mbind option_bind]. eexists. split_and!; [done..|].
  unfold readJsonBody. cbn [content_length req_body from_option Datatypes.id]. rewrite parse_show by apply Hlength.
  rewrite (proj2 (Z.ltb_ge _ _)) by done. unfold decodeJsonBytes. cbn [mbind option_bind]. by rewrite Hj.
Qed.

Lemma field_read field o : assertJsonBodyField (JObj [(js field, JObj o)]) field = inr o.
Proof. unfold assertJsonBodyField. by rewrite js_get_hd. Qed.

Lemma success_raw opts st v : is_json v -> st = 201 \/ st = 200 /\ opt_method opts <> GET ->
  success opts (Resp st None (Some (JsonText v))) = inr v.
Proof.
  intros Hv Hst. unfold success, response_json, decodeJsonBytes. cbn [res_status res_body mbind option_bind]. rewrite Hv.
  destruct Hst as [->|[-> Hm]]; [done|]. cbn [Z.eqb Pos.eqb orb]. by rewrite bool_decide_eq_false_2.
Qed.

Lemma json_number n : is_json (JNum (num_of_Z n)).
Proof. done. Qed.

Lemma run_body_verb path opath method v handler m : opath = Some path -> body_ok byteLength v ->
  (forall req, req_method req = method -> req_path req = path -> readJsonBody byteLength req MAX_BODY_BYTES = inr v -> disp req = handler req) ->
  forall out, (forall req, readJsonBody byteLength req MAX_BODY_BYTES = inr v -> run now (handler req) m = out) ->
  (forall res m', out = (inr res, m') -> fits (Options method path [] (Some v) true) res) ->
  run now (connect srv (on_path byteLength date_parse clock random opath method [] (Some v))) m =
  (match out.1 with inl e => inl (over_wire e) | inr res => success (Options method path [] (Some v) true) res end, out.2).
Proof.
  intros Hp Hb Hd out Hrun Hfit. destruct (body_read method path v Hb) as (req & Ho & Hm & Hpath & Hread).
  rewrite (run_on_path path _ method [] (Some v) m (handler req) req Hp Ho); [|by apply Hd|by rewrite Hrun].
  rewrite Hrun by done. by destruct out.
Qed.

Lemma number_inj k n n' : JObj [(k, JNum (num_of_Z n))] = JObj [(k, JNum (num_of_Z n'))] -> n = n'.
Proof.
  intros E. apply (f_equal (fun v => match v with JObj [(_, JNum x)] => num_integer x | _ => None end)) in E. cbv beta iota in E.
  rewrite !num_integer_of_Z in E. by injection E.
Qed.

Lemma get_own_set k v o : js_get (own_set k v o) k = v.
Proof. unfold js_get. by rewrite own_get_set, decide_True. Qed.

(** The insert both sides run once the body is parsed. *)
Lemma run_insert v doc minted m path : collection_path name = Some path -> route path = CollectionRoute name -> body_ok byteLength v ->
  assertJsonBodyField v "doc" = inr doc -> readMintedId v doc = inr minted ->
  run now (connect srv (on_path byteLength date_parse clock random (collection_path name) POST [] (Some v))) m =
  let (r, m') := run now (with_collection db name (fun ctx schema =>
    bind (runInsert byteLength sha256 json_octets mixed_lt nfc ctx ceilings schema (write ctx) doc minted uuid)
      (fun id => Ret (JObj [(js "_id", JStr id)])))) m in
  (match r with inl e => inl (over_wire e) | inr x => inr x end, m').
Proof.
  intros Hp Hrt Hb Hf Hm.
  rewrite (run_body_verb path _ POST v (insert_row_route byteLength sha256 json_octets mixed_lt nfc ceilings write uuid db name) m Hp Hb)
    with (out := match run now (with_collection db name (fun ctx schema =>
      bind (runInsert byteLength sha256 json_octets mixed_lt nfc ctx ceilings schema (write ctx) doc minted uuid)
        (fun id => Ret (JObj [(js "_id", JStr id)])))) m with
      | (inl e, m') => (inl e, m') | (inr x, m') => (inr (Resp 201 None (Some (JsonText x))), m') end).
  - rewrite !run_with. destruct (collectionReadContext db name) as [e|c]; [done|]. rewrite !run_bind.
    destruct (run now (runInsert _ _ _ _ _ _ _ _ _ _ _ _) m) as [[e|id] m']; [done|]. cbn [run fst snd].
    rewrite success_raw; [done|done|by left].
  - intros req Hmeth Hpath _. unfold dispatch. by rewrite Hmeth, Hpath, Hrt.
  - intros req Hread. unfold insert_row_route. rewrite run_bind, run_of_result, Hread, run_bind, run_of_result, Hf, run_bind, run_of_result, Hm.
    rewrite !run_with. destruct (collectionReadContext db name) as [e|c]; [done|]. rewrite !run_bind.
    destruct (run now (runInsert _ _ _ _ _ _ _ _ _ _ _ _) m) as [[e|id] m']; [done|]. by rewrite run_respond.
  - intros res m'. rewrite run_with. destruct (collectionReadContext db name) as [e|c]; [done|]. rewrite run_bind.
    destruct (run now (runInsert _ _ _ _ _ _ _ _ _ _ _ _) m) as [[e|id] m1]; [done|]. intros [= <- _]. apply fits_status. by left.
Qed.

Lemma remote_insert doc millis rand m : verb_ok byteLength (VInsert doc millis rand) ->
  run now (rem (VInsert doc millis rand)) m = let (r, m') := run now (loc (VInsert doc millis rand)) m in
  (delivered (VInsert doc millis rand) r, m').
Proof.
  intros (Hm & Hl & Hb & Hj & Hb1 & Hb2). destruct collection_routed as (path & Hp & Hrt & _).
  pose proof (uuidv7_shape millis rand Hm Hl Hb) as Hshape. unfold remote, client_insert, local. cbv zeta.
  set (id := uuidv7 millis rand) in *.
  assert (Hauto : run now (connect srv (on_path byteLength date_parse clock random (collection_path name) POST []
      (Some (JObj [(js "doc", with_id doc id); (js "mintedId", JStr id)])))) m =
    let (r, m') := run now (with_collection db name (fun ctx schema =>
      bind (runInsert byteLength sha256 json_octets mixed_lt nfc ctx ceilings schema (write ctx) (own_set (js "_id") (JStr id) doc) (Some id) uuid)
        (fun id => Ret (JObj [(js "_id", JStr id)])))) m in
    (match r with inl e => inl (over_wire e) | inr x => inr x end, m')).
  { apply (run_insert _ _ _ m path Hp Hrt Hb2).
    - unfold assertJsonBodyField, with_id. by rewrite js_get_hd.
    - unfold readMintedId. cbn [prop]. rewrite js_get_tl by js_decide. rewrite js_get_hd, Hshape, get_own_set. cbn [strict_eq negb orb].
      by rewrite bool_decide_eq_true_2. }
  assert (Hown : run now (connect srv (on_path byteLength date_parse clock random (collection_path name) POST []
      (Some (JObj [(js "doc", JObj doc)])))) m =
    let (r, m') := run now (with_collection db name (fun ctx schema =>
      bind (runInsert byteLength sha256 json_octets mixed_lt nfc ctx ceilings schema (write ctx) doc None uuid)
        (fun id => Ret (JObj [(js "_id", JStr id)])))) m in
    (match r with inl e => inl (over_wire e) | inr x => inr x end, m')).
  { apply (run_insert _ _ _ m path Hp Hrt Hb1).
    - by apply field_read.
    - unfold readMintedId. cbn [prop]. rewrite js_get_tl by js_decide. by rewrite js_get_absent by js_decide. }
  destruct (js_get doc (js "_id")) as [| | | |[|u s]| | |]; first [rewrite Hauto|rewrite Hown];
    rewrite !run_with; destruct (collectionReadContext db name) as [e|c]; try done; rewrite !run_bind;
    by destruct (run now (runInsert _ _ _ _ _ _ _ _ _ _ _ _) m) as [[e|i] m'].
Qed.

Lemma remote_update id patch m : verb_ok byteLength (VUpdate id patch) ->
  run now (rem (VUpdate id patch)) m = let (r, m') := run now (loc (VUpdate id patch)) m in (delivered (VUpdate id patch) r, m').
Proof.
  intros (Hi & Hw & Hb). destruct (row_routed id Hi Hw) as (path & Hp & Hrt & _). unfold remote, client_update.
  rewrite (run_body_verb path _ PATCH _ (patch_row byteLength sha256 json_octets mixed_lt nfc ceilings write db name id) m Hp Hb)
    with (out := match run now (loc (VUpdate id patch)) m with
      | (inl e, m') => (inl e, m')
      | (inr x, m') => (if bool_decide (x = JObj [(js "modified", JNum (num_of_Z 0))]) then inl (new_error NotFound)
                        else inr (Resp 200 None (Some (JsonText x))), m') end).
  - unfold local. rewrite run_with. destruct (collectionReadContext db name) as [e|c]; [done|]. rewrite run_bind.
    destruct (run now (runUpdate _ _ _ _ _ _ _ _ _ _ _) m) as [[e|n] m']; [done|]. cbn [run fst snd delivered].
    case_bool_decide; [done|]. rewrite success_raw; [done|done|by right].
  - intros req Hmeth Hpath _. unfold dispatch. by rewrite Hmeth, Hpath, Hrt.
  - intros req Hread. unfold patch_row, local. rewrite run_bind, run_of_result, Hread, run_bind, run_of_result, field_read.
    rewrite !run_with. destruct (collectionReadContext db name) as [e|c]; [done|]. rewrite !run_bind.
    destruct (run now (runUpdate _ _ _ _ _ _ _ _ _ _ _) m) as [[e|n] m']; [done|]. cbn [run].
    destruct (Z.eqb_spec n 0) as [->|Hn]; [by rewrite bool_decide_eq_true_2|]. rewrite bool_decide_eq_false_2; [by rewrite run_respond|].
    intros E. by apply Hn, (number_inj _ _ _ E).
  - intros res m'. unfold local. rewrite run_with. destruct (collectionReadContext db name) as [e|c]; [done|]. rewrite run_bind.
    destruct (run now (runUpdate _ _ _ _ _ _ _ _ _ _ _) m) as [[e|n] m1]; [done|]. cbn [run]. case_bool_decide; [done|]. intros [= <- _].
    apply fits_status. by right.
Qed.

Lemma remote_replace id doc m : verb_ok byteLength (VReplace id doc) ->
  run now (rem (VReplace id doc)) m = let (r, m') := run now (loc (VReplace id doc)) m in (delivered (VReplace id doc) r, m').
Proof.
  intros (Hi & Hw & Hb). destruct (row_routed id Hi Hw) as (path & Hp & Hrt & _). unfold remote, client_replace. rewrite run_connect_bind.
  rewrite (run_body_verb path _ PUT _ (put_row byteLength sha256 json_octets mixed_lt nfc ceilings write db name id) m Hp Hb)
    with (out := match run now (loc (VReplace id doc)) m with
      | (inl e, m') => (inl e, m')
      | (inr _, m') => (inr (Resp 200 None (Some (JsonText (JObj [(js "modified", JNum (num_of_Z 1))])))), m') end).
  - unfold local. rewrite run_with. destruct (collectionReadContext db name) as [e|c]; [done|]. rewrite run_bind.
    destruct (run now (runReplaceById _ _ _ _ _ _ _ _ _ _ _) m) as [[e|n] m']; [done|]. cbn [run fst snd delivered].
    rewrite success_raw; [done|done|by right].
  - intros req Hmeth Hpath _. unfold dispatch. by rewrite Hmeth, Hpath, Hrt.
  - intros req Hread. unfold put_row, local. rewrite run_bind, run_of_result, Hread, run_bind, run_of_result, field_read.
    rewrite !run_with. destruct (collectionReadContext db name) as [e|c]; [done|]. rewrite !run_bind.
    destruct (run now (runReplaceById _ _ _ _ _ _ _ _ _ _ _) m) as [[e|n] m']; [done|]. by rewrite run_respond.
  - intros res m'. unfold local. rewrite run_with. destruct (collectionReadContext db name) as [e|c]; [done|]. rewrite run_bind.
    destruct (run now (runReplaceById _ _ _ _ _ _ _ _ _ _ _) m) as [[e|n] m1]; [done|]. intros [= <- _]. apply fits_status. by right.
Qed.

Lemma remote_delete id m : verb_ok byteLength (VDelete id) ->
  run now (rem (VDelete id)) m = let (r, m') := run now (loc (VDelete id)) m in (delivered (VDelete id) r, m').
Proof.
  intros (Hi & Hw). destruct (row_routed id Hi Hw) as (path & Hp & Hrt & _). unfold remote, client_delete.
  rewrite run_connect_catch, run_connect_bind.
  assert (Hh : run now (delete_row byteLength sha256 json_octets mixed_lt ceilings write db name id) m =
    match run now (loc (VDelete id)) m with
    | (inl e, m') => (inl e, m')
    | (inr x, m') => (if bool_decide (x = deleted_json 0) then inl (new_error NotFound) else inr (Resp 204 None None), m') end).
  { unfold delete_row, local. rewrite !run_with. destruct (collectionReadContext db name) as [e|c]; [done|]. rewrite !run_bind.
    destruct (run now (runDelete _ _ _ _ _ _ _ _) m) as [[e|n] m']; [done|]. cbn [run].
    destruct (Z.eqb_spec n 0) as [->|Hn]; [by rewrite bool_decide_eq_true_2|]. rewrite bool_decide_eq_false_2; [done|].
    intros E. by apply Hn, (number_inj _ _ _ E). }
  rewrite (run_on_path path _ DELETE [] None m (delete_row byteLength sha256 json_octets mixed_lt ceilings write db name id) (Req DELETE path [] None None));
    [|done|done| |].
  2: { unfold dispatch. cbn [req_method req_path]. by rewrite Hrt. }
  - rewrite Hh. destruct (run now (loc (VDelete id)) m) as [[e|x] m'].
    + cbn [delivered]. rewrite over_wire_NotFound. by destruct (has_code NotFound e).
    + cbn [delivered]. case_bool_decide as Hx; [by subst x|done].
  - intros res m'. rewrite Hh. destruct (run now (loc (VDelete id)) m) as [[e|x] m1]; [done|]. case_bool_decide; [done|]. intros [= <- _]. by left.
Qed.

Lemma remote_agrees v m : verb_ok byteLength v -> snapshots_json sha256 name m ->
  run now (rem v) m = let (r, m') := run now (loc v) m in (delivered v r, m').
Proof.
  intros Hv Hs. destruct v; [apply remote_get; [apply Hv|apply Hv|done]|by apply remote_first|by apply remote_all|apply remote_count; [apply Hv|apply Hv|done]|
    by apply remote_insert|by apply remote_update|by apply remote_replace|by apply remote_delete].
Qed.
End wire.

(** ** Theorems *)

(** C12: The HTTP client is the in-process collection: run against the router, every operation
    with arguments the wire carries, and a count only of a query without a limit, leaves the
    storage as the in-process operation on the same database does and hands its caller the
    same rows, ids and counts; an error arrives with the code the router maps it
    to (anything else as Internal) and, for an ambiguous commit, the row's id; and a missing
    row is no error of [get] and [delete] and NotFound of [update]. *)
Theorem remote_is_local byteLength sha256 json_octets mixed_lt nfc ceilings write uuid poll raw_json to_number route describe
    date_parse clock random db name now v m :
  routes_paths route ->
  (forall n, 0 <= n <= MAX_SAFE_INTEGER -> to_number (show_Z n) = num_of_Z n) ->
  (forall e, Forall (fun i => json_ok i = true) (default [] (issues (describe e)))) ->
  (forall b, 0 <= byteLength b) ->
  routable name /\ isWellFormed name = true -> verb_ok byteLength v -> snapshots_json sha256 name m ->
  run now (remote byteLength sha256 json_octets mixed_lt nfc ceilings write uuid poll raw_json to_number route describe
             date_parse clock random db name v) m =
  let (r, m') := run now (local byteLength sha256 json_octets mixed_lt nfc ceilings write uuid db name v) m in
  (delivered v r, m').
Proof. intros Hr Hn Hd Hl Hname Hv Hs. by apply remote_agrees. Qed.

(** ** A router that matches paths *)

Fixpoint percent_bytes (s : jsstr) : option (list N) :=
  match s with
  | [] => Some []
  | u :: s' =>
    if (u =? 37)%N
    then match s' with
         | a :: b :: s'' => match radix_digit 16 (if (a <? 97)%N && (57 <? a)%N then (a + 32)%N else a),
                                  radix_digit 16 (if (b <? 97)%N && (57 <? b)%N then (b + 32)%N else b) with
                            | Some x, Some y => cons (x * 16 + y)%N <$> percent_bytes s''
                            | _, _ => None
                            end
         | _ => None
         end
    else cons u <$> percent_bytes s'
  end.

Definition decodeURIComponent (s : jsstr) : option jsstr := bs ← percent_bytes s; utf8_decode bs.

Definition sample_route (path : jsstr) : routed :=
  match split_on slash path with
  | [e; v1; c; n] => match decodeURIComponent n with Some n => CollectionRoute n | None => NoRoute end
  | [e; v1; c; n; i] => match decodeURIComponent n, decodeURIComponent i with Some n, Some i => RowRoute n i | _, _ => NoRoute end
  | [e; v1; c] => if bool_decide (c = js "count") then CountRoute else if bool_decide (c = js "since") then SinceRoute else NoRoute
  | _ => NoRoute
  end.

Lemma uri_bytes_check : forallb (fun b => match uri_byte b with
    | [u] => bool_decide (u = b) && negb (u =? 37)%N && negb (u =? slash)%N
    | [p; x; y] => (p =? 37)%N && negb (x =? slash)%N && negb (y =? slash)%N &&
        match percent_bytes [p; x; y] with Some [b'] => bool_decide (b' = b) | _ => false end
    | _ => false end) (N.of_nat <$> seq 0 256) = true.
Proof. by vm_compute. Qed.

Lemma percent_uri b rest : (b < 256)%N -> percent_bytes (uri_byte b ++ rest) = cons b <$> percent_bytes rest /\ (slash ∉ uri_byte b).
Proof.
  intros Hb. pose proof uri_bytes_check as H. rewrite forallb_forall in H. specialize (H b (in_bytes b Hb)). cbv beta in H.
  destruct (uri_byte b) as [|u [|x [|y [|]]]]; try done.
  - rewrite !andb_true_iff, bool_decide_eq_true, !negb_true_iff in H. destruct H as [[-> Hp] Hs%N.eqb_neq]. cbn [app percent_bytes].
    rewrite Hp. split; [done|]. rewrite list_elem_of_singleton. by apply not_eq_sym.
  - rewrite !andb_true_iff, !negb_true_iff in H. destruct H as [[[Hp Hx%N.eqb_neq] Hy%N.eqb_neq] Hd]. cbn [app percent_bytes] in *.
    rewrite Hp in *. destruct (radix_digit 16 _) as [d|]; [|done]. destruct (radix_digit 16 _) as [d'|]; [|done]. cbn in Hd.
    apply bool_decide_eq_true in Hd as ->. split; [done|]. apply N.eqb_eq in Hp as ->. rewrite !not_elem_of_cons.
    split_and!; [done|by apply not_eq_sym..|apply not_elem_of_nil].
Qed.

Lemma percent_uris bs : is_bytes bs -> percent_bytes (mjoin (uri_byte <$> bs)) = Some bs /\ (slash ∉ mjoin (uri_byte <$> bs)).
Proof.
  induction 1 as [|b bs Hb _ [IH1 IH2]]; [split; [done|apply not_elem_of_nil]|]. rewrite fmap_cons, mjoin_cons.
  destruct (percent_uri b (mjoin (uri_byte <$> bs)) Hb) as [-> Hs]. rewrite IH1. split; [done|]. by apply not_elem_of_app.
Qed.

(** [decodeURIComponent(encodeURIComponent(s))] is [s]. *)
Lemma decode_encode_uri s e : code_units s -> encodeURIComponent s = Some e -> decodeURIComponent e = Some s /\ (slash ∉ e).
Proof.
  intros Hu. unfold encodeURIComponent. destruct (isWellFormed s) eqn:Ew; intros [= <-].
  destruct (percent_uris (utf8_encode s) (utf8_bytes s Hu)) as [Hd Hs]. split; [|done]. unfold decodeURIComponent. rewrite Hd.
  cbn [mbind option_bind]. by apply utf8_decode_spec.
Qed.

Lemma sample_routes : routes_paths sample_route.
Proof.
  split; [| |reflexivity].
  - intros c i c' i' (_ & _ & _ & Hc) (_ & _ & _ & Hi) Ec Ei. apply (decode_encode_uri _ _ Hc) in Ec as [Dc Sc].
    apply (decode_encode_uri _ _ Hi) in Ei as [Di Si]. unfold sample_route.
    change (js "/v1/c/" ++ c' ++ js "/" ++ i') with (join_with [slash] [[]; js "v1"; js "c"; c'; i']).
    rewrite split_join; [by rewrite Dc, Di|done|]. repeat constructor; try done; js_decide.
  - intros c c' (_ & _ & _ & Hc) Ec. apply (decode_encode_uri _ _ Hc) in Ec as [Dc Sc]. unfold sample_route.
    change (js "/v1/c/" ++ c') with (join_with [slash] [[]; js "v1"; js "c"; c']).
    rewrite split_join; [by rewrite Dc|done|]. repeat constructor; try done; js_decide.
Qed.

(** ** A sample *)

Definition sample_number (s : jsstr) : jsnum := match parse_int 10 s with Some z => num_of_Z z | None => NNaN end.

Definition sample_order_row (id : string) (n : Z) : jsval := JObj [(js "_id", JStr (js id)); (js "n", JNum (num_of_Z n))].

Definition sample_order_entry (id : string) (n : Z) : LogEntry :=
  JObj [(js "lsn", JStr []); (js "op", JStr (js "I")); (js "collection", JStr (js "orders")); (js "doc_id", JStr (js id));
        (js "after", sample_order_row id n)].

Definition sample_orders : MemoryStorage :=
  (memory_store (logObjectKey (manifest_prefix sample_db (js "orders")) 1) (JsonText (sample_order_entry "d2" 9))
    (memory_store (logObjectKey (manifest_prefix sample_db (js "orders")) 0) (JsonText (sample_order_entry "d1" 4))
      (memory_store (manifest_key sample_db (js "orders")) (JsonText (current_json sample_feed_head)) empty_memory).2).2).2.

(** [where(q => q.gt("n", 3)).order({ n: "desc" }).limit(1)] *)
Definition sample_query : ClientState := CState [Clause op_gt (js "n") (JNum (num_of_Z 3))] (Some [(js "n", Desc)]) (Some 1).

Definition sample_remote (v : verb) : prog jsval :=
  remote (fun _ => 10) (fun _ => replicate 32 7%N) sample_octets (fun _ _ => false) (fun s => s) (Ceilings 100 1000)
    (fun _ _ _ => Throw OtherError) [] (fun _ _ => Throw OtherError) (fun _ => None) sample_number sample_route
    (fun _ => ErrText [] None None false) (fun _ => None) 0 (fun _ => 0%Q) sample_db (js "orders") v.

Definition sample_local (v : verb) : prog jsval :=
  local (fun _ => 10) (fun _ => replicate 32 7%N) sample_octets (fun _ _ => false) (fun s => s) (Ceilings 100 1000)
    (fun _ _ _ => Throw OtherError) [] sample_db (js "orders") v.

Lemma sample_orders_json : snapshots_json (fun _ => replicate 32 7%N) (js "orders") sample_orders.
Proof.
  intros key o docs Ho. assert (Hb : exists v, stored_body o = JsonText v /\ match prop (js "docs") v with Some JUndef => True | _ => False end).
  { unfold sample_orders in Ho. rewrite !memory_store_lookup in Ho. repeat case_decide; try (injection Ho as <-; by eexists).
    unfold empty_memory in Ho. cbn [objects] in Ho. by rewrite lookup_empty in Ho. }
  destruct Hb as (v & Eb & Hv). unfold open_snapshot. rewrite Eb. destruct (negb _); [discriminate|]. unfold decodeJsonBytes. cbn [mbind option_bind].
  destruct (json_ok v); [|discriminate]. destruct v as [| | | | | |p|]; try done. cbn [prop] in Hv. unfold parse_snapshot.
  destruct (negb _); [discriminate|]. destruct (negb _); [discriminate|]. by destruct (js_get p (js "docs")).
Qed.

Lemma sample_state_ok : state_ok sample_query.
Proof. split_and!; [by vm_compute|by vm_compute|js_decide|split; vm_compute; discriminate]. Qed.

Lemma sample_local_all : run 0 (sample_local (VAll sample_query)) sample_orders = (inr (JArr [sample_order_row "d2" 9]), sample_orders).
Proof. vm_compute. reflexivity. Qed.

Lemma remote_is_local_witness :
  run 0 (sample_local (VAll sample_query)) sample_orders = (inr (JArr [sample_order_row "d2" 9]), sample_orders) /\
  run 0 (sample_remote (VAll sample_query)) sample_orders =
    let (r, m') := run 0 (sample_local (VAll sample_query)) sample_orders in (delivered (VAll sample_query) r, m').
Proof.
  split; [exact sample_local_all|].
  apply (remote_is_local (fun _ => 10) (fun _ => replicate 32 7%N) sample_octets (fun _ _ => false) (fun s => s) (Ceilings 100 1000)
    (fun _ _ _ => Throw OtherError) [] (fun _ _ => Throw OtherError) (fun _ => None) sample_number sample_route
    (fun _ => ErrText [] None None false) (fun _ => None) 0 (fun _ => 0%Q) sample_db (js "orders") 0 (VAll sample_query) sample_orders).
  - exact sample_routes.
  - intros n Hn. unfold sample_number. rewrite parse_show by lia. reflexivity.
  - intros e. constructor.
  - intros b. lia.
  - split; [|reflexivity]. unfold routable. split_and!; [discriminate..|]. repeat constructor.
  - exact sample_state_ok.
  - exact sample_orders_json.
Defined.

(** A remote count leaves out the limit the in-process count applies. *)
Lemma remote_count_ignores_limit :
  (run 0 (sample_remote (VCount (CState [] None (Some 1)))) sample_orders).1 = inr (JNum (num_of_Z 2)) /\
  (run 0 (count (fun _ => 10) (fun _ => replicate 32 7%N) sample_octets (fun _ _ => false)
            (ReadContext (manifest_prefix sample_db (js "orders")) (js "orders") []) (State (Some []) None (Some 1))) sample_orders).1 = inr 1.
Proof. split; vm_compute; reflexivity. Qed.

(** ** Errors on the wire *)

(** What the policy keeps from the client. *)
Definition hidden (e : js_error) (t : err_text) : Prop :=
  match e with
  | BaerlyError code _ _ _ => shouldExposeErrorMessage code t = false
  | _ => True
  end.

(** C39: Every error the router renders is a 4xx or 5xx envelope that the client decodes as the
    server's own, so it is never resent: with the code the router maps, Internal for the
    others, the row id of an ambiguous commit, and the same verdict on retrying.  Of an error
    whose message the policy scrubs, nothing else reaches the client: the response is the same
    for every message, issues and resolution it may carry. *)
Theorem errors_cross_the_wire describe e : Forall (fun i => json_ok i = true) (default [] (issues (describe e))) ->
  400 <= res_status (mapToResponse describe e) < 600 /\
  decodeFailure (mapToResponse describe e) = (over_wire e, true) /\
  retriable (over_wire e) = retriable e /\
  (forall t, hidden e (describe e) -> hidden e t -> mapError e t = mapError e (describe e)).
Proof.
  intros Hi. destruct (mapped_envelope e (describe e) Hi) as (st & o & Hm & Hj & Hst & Hd).
  unfold mapToResponse. rewrite Hm, (encode_ok _ Hj). cbn [res_status]. split_and!; [done| |done| |].
  - unfold mapError in Hm. destruct e as [c d ch id| |]; [|by injection Hm as <-..].
    case_match; injection Hm as <- _; destruct c; cbn; lia.
  - by destruct e as [[] ? ? ?| |].
  - intros t H1 H2. rewrite <- Hm. destruct e as [c d ch id| |]; [|done..]. cbn [hidden] in *. unfold mapError. by rewrite H1, H2, !orb_true_r.
Qed.

Definition sample_leak : js_error := BaerlyError NetworkError None None None.

Lemma errors_cross_the_wire_witness :
  decodeFailure (mapToResponse (fun _ => ErrText (js "GET https://bucket.internal/app failed") None None false) sample_leak) =
    (new_error NetworkError, true) /\
  mapError sample_leak (ErrText [] None None false) =
    mapError sample_leak (ErrText (js "GET https://bucket.internal/app failed") None None false).
Proof.
  destruct (errors_cross_the_wire (fun _ => ErrText (js "GET https://bucket.internal/app failed") None None false) sample_leak ltac:(constructor))
    as (_ & Hd & _ & Hh).
  split; [exact Hd|]. by apply Hh.
Defined.
