(* ===== verification/Pool.v ===== *)
(** * Live queries (client/src/react/subscription-pool.ts, subscription-retry.ts)

    The pool behind [useQuery]: one cached snapshot and at most one read in flight per
    signature, one long-poll loop per collection some subscriber reads, a refetch of every
    query a change may touch.  The functions below are the pool's, synchronous up to the
    next [await]; PoolSafety.v interleaves the callers, the reads and the loops at those
    points.  Controllers and error objects are compared by identity; a [Map] is iterated in
    the order of [map_to_list], which no result depends on. *)
From Stdlib Require Import QArith Qminmax Qround Lqa.
From S2P Require Import Prelude JsText JsValue Errors.
Local Open Scope Z_scope.

(** ** Retries (subscription-retry.ts) *)

Definition SUBSCRIPTION_RETRY_INITIAL_MILLIS : Q := 250.
Definition SUBSCRIPTION_RETRY_MAX_MILLIS : Q := 10000.

(** [random] is the value drawn. *)
Definition retryDelay (attempt : nat) (random : Q) : Z :=
  let upperBound := Qmin SUBSCRIPTION_RETRY_MAX_MILLIS (SUBSCRIPTION_RETRY_INITIAL_MILLIS * inject_Z (2 ^ Z.of_nat attempt)) in
  Qfloor (upperBound / 2 + random * (upperBound / 2)).

Section pool.
(** The data of a read; error objects, and what each is. *)
Context {D E : Type} `{EqDecision E} (kind : E -> js_error).

(** ** State *)

Inductive snap_status := Loading | Refreshing | Ok | Failed.

Record CachedSnapshot := Snap { snap_status_of : snap_status; snap_data : option D; snap_error : option E }.

Definition LOADING_SNAPSHOT : CachedSnapshot := Snap Loading None None.

Record CacheEntry := Entry {
  snapshot : CachedSnapshot;
  hasSuccessfulData : bool;
  chainTables : gset jsstr;
  inFlight : option nat
}.

Record TablePoll := Poll { refcount : Z; controller : nat; cursor : jsstr; terminalError : option E }.

(** A running poll loop: its table, the cursor it asked with, its two locals, and whether it
    waits for a retry. *)
Record poll_loop := Loop {
  loop_table : jsstr;
  requestCursor : jsstr;
  retryAttempt : nat;
  deadCursorRecoveryPending : bool;
  waiting : bool
}.

(** [reads] are the fetches that have not settled, by controller, with their signature;
    [fetchers] keeps the fetcher's identity; [next_id] is the next fresh controller;
    [notices] the signatures whose subscribers were notified, oldest first. *)
Record SubscriptionPool := Pool {
  cache : gmap jsstr CacheEntry;
  subscribersBySignature : gmap jsstr (gset nat);
  signatureFetchers : gmap jsstr nat;
  tablePolls : gmap jsstr TablePoll;
  aborted : gset nat;
  next_id : nat;
  reads : gmap nat jsstr;
  loops : gmap nat poll_loop;
  notices : list jsstr
}.

Definition no_pool : SubscriptionPool := Pool ∅ ∅ ∅ ∅ ∅ 0 ∅ ∅ [].

(** Field updates. *)
Definition with_cache (f : gmap jsstr CacheEntry -> gmap jsstr CacheEntry) (s : SubscriptionPool) : SubscriptionPool :=
  Pool (f (cache s)) (subscribersBySignature s) (signatureFetchers s) (tablePolls s) (aborted s) (next_id s) (reads s) (loops s) (notices s).
Definition with_polls (f : gmap jsstr TablePoll -> gmap jsstr TablePoll) (s : SubscriptionPool) : SubscriptionPool :=
  Pool (cache s) (subscribersBySignature s) (signatureFetchers s) (f (tablePolls s)) (aborted s) (next_id s) (reads s) (loops s) (notices s).
Definition with_loops (f : gmap nat poll_loop -> gmap nat poll_loop) (s : SubscriptionPool) : SubscriptionPool :=
  Pool (cache s) (subscribersBySignature s) (signatureFetchers s) (tablePolls s) (aborted s) (next_id s) (reads s) (f (loops s)) (notices s).
Definition with_reads (f : gmap nat jsstr -> gmap nat jsstr) (s : SubscriptionPool) : SubscriptionPool :=
  Pool (cache s) (subscribersBySignature s) (signatureFetchers s) (tablePolls s) (aborted s) (next_id s) (f (reads s)) (loops s) (notices s).
Definition with_subscribers (f : gmap jsstr (gset nat) -> gmap jsstr (gset nat)) (s : SubscriptionPool) : SubscriptionPool :=
  Pool (cache s) (f (subscribersBySignature s)) (signatureFetchers s) (tablePolls s) (aborted s) (next_id s) (reads s) (loops s) (notices s).
Definition with_fetchers (f : gmap jsstr nat -> gmap jsstr nat) (s : SubscriptionPool) : SubscriptionPool :=
  Pool (cache s) (subscribersBySignature s) (f (signatureFetchers s)) (tablePolls s) (aborted s) (next_id s) (reads s) (loops s) (notices s).

(** [controller.abort()] *)
Definition abort (c : option nat) (s : SubscriptionPool) : SubscriptionPool :=
  match c with
  | None => s
  | Some c => Pool (cache s) (subscribersBySignature s) (signatureFetchers s) (tablePolls s) ({[c]} ∪ aborted s) (next_id s) (reads s) (loops s) (notices s)
  end.

(** [new AbortController()] *)
Definition bump (s : SubscriptionPool) : SubscriptionPool :=
  Pool (cache s) (subscribersBySignature s) (signatureFetchers s) (tablePolls s) (aborted s) (S (next_id s)) (reads s) (loops s) (notices s).

Definition notifyAll (signature : jsstr) (s : SubscriptionPool) : SubscriptionPool :=
  match subscribersBySignature s !! signature with
  | None => s
  | Some _ => Pool (cache s) (subscribersBySignature s) (signatureFetchers s) (tablePolls s) (aborted s) (next_id s) (reads s) (loops s)
                (notices s ++ [signature])
  end.

(** ** Reads *)

Definition terminal_of (s : SubscriptionPool) (table : jsstr) : option E := p ← tablePolls s !! table; terminalError p.

Definition terminalErrorFor (entry : CacheEntry) (s : SubscriptionPool) : option E :=
  head (omap (terminal_of s) (elements (chainTables entry))).

Definition is_status (st : snap_status) (snap : CachedSnapshot) : bool :=
  match st, snap_status_of snap with
  | Loading, Loading | Refreshing, Refreshing | Ok, Ok | Failed, Failed => true
  | _, _ => false
  end.

(** The snapshot while a read is in flight; [LOADING_SNAPSHOT] is one object. *)
Definition pending_snapshot (entry : CacheEntry) : CachedSnapshot :=
  if hasSuccessfulData entry then Snap Refreshing (snap_data (snapshot entry)) None else LOADING_SNAPSHOT.

(** Up to the fetcher's first [await]. *)
Definition dispatchFetch (signature : jsstr) (s : SubscriptionPool) : SubscriptionPool :=
  match cache s !! signature with
  | None => s
  | Some entry =>
    match terminalErrorFor entry s with
    | Some err =>
      if negb (is_status Failed (snapshot entry)) || negb (bool_decide (snap_error (snapshot entry) = Some err))
      then notifyAll signature (with_cache <[signature := Entry (Snap Failed (snap_data (snapshot entry)) (Some err))
                                                            (hasSuccessfulData entry) (chainTables entry) (inFlight entry)]> s)
      else s
    | None =>
      let s := abort (inFlight entry) s in
      let c := next_id s in
      let s := with_reads <[c := signature]> (with_cache <[signature := Entry (pending_snapshot entry)
                 (hasSuccessfulData entry) (chainTables entry) (Some c)]> (bump s)) in
      if hasSuccessfulData entry || negb (is_status Loading (snapshot entry)) then notifyAll signature s else s
    end
  end.

(** The read of controller [c] settles. *)
Definition read_settles (c : nat) (r : D + E) (s : SubscriptionPool) : SubscriptionPool :=
  match reads s !! c with
  | None => s
  | Some signature =>
    let s := with_reads (delete c) s in
    if bool_decide (c ∈ aborted s) then s
    else match cache s !! signature with
         | None => s
         | Some live =>
           if negb (bool_decide (inFlight live = Some c)) then s
           else notifyAll signature (with_cache <[signature :=
                  match r with
                  | inl data => Entry (Snap Ok (Some data) None) true (chainTables live) None
                  | inr error => Entry (Snap Failed (snap_data (snapshot live)) (Some error)) (hasSuccessfulData live) (chainTables live) None
                  end]> s)
         end
  end.

(** The signatures of [cache], in iteration order. *)
Definition signatures (s : SubscriptionPool) : list jsstr := (map_to_list (cache s)).*1.

Definition has_subscribers (s : SubscriptionPool) (signature : jsstr) : bool :=
  match subscribersBySignature s !! signature with Some subs => negb (bool_decide (subs = ∅)) | None => false end.

Definition reads_table (s : SubscriptionPool) (signature table : jsstr) : bool :=
  match cache s !! signature with Some entry => bool_decide (table ∈ chainTables entry) | None => false end.

(** One turn of the loop over [cache]. *)
Definition invalidate_one (table : jsstr) (skip : option jsstr) (acc : SubscriptionPool * gset jsstr) (signature : jsstr) : SubscriptionPool * gset jsstr :=
  let (s, dispatched) := acc in
  if negb (reads_table s signature table) || bool_decide (skip = Some signature) || bool_decide (signature ∈ dispatched)
     || negb (has_subscribers s signature)
  then acc
  else match signatureFetchers s !! signature with
       | None => acc
       | Some _ => (dispatchFetch signature s, {[signature]} ∪ dispatched)
       end.

Definition invalidateForTable (table : jsstr) (skip : option jsstr) (acc : SubscriptionPool * gset jsstr) : SubscriptionPool * gset jsstr :=
  foldl (invalidate_one table skip) acc (signatures acc.1).

(** Without the last two arguments nothing is remembered between two entries, which are distinct. *)
Definition invalidate (table : jsstr) (s : SubscriptionPool) : SubscriptionPool := (invalidateForTable table None (s, ∅)).1.

Definition fail_one (table : jsstr) (error : E) (s : SubscriptionPool) (signature : jsstr) : SubscriptionPool :=
  if negb (reads_table s signature table) || negb (has_subscribers s signature) then s
  else match cache s !! signature with
       | None => s
       | Some entry =>
         notifyAll signature (with_cache <[signature := Entry (Snap Failed (snap_data (snapshot entry)) (Some error))
                                                          (hasSuccessfulData entry) (chainTables entry) None]> (abort (inFlight entry) s))
       end.

Definition failForTable (table : jsstr) (error : E) (s : SubscriptionPool) : SubscriptionPool := foldl (fail_one table error) s (signatures s).

(** ** Poll loops *)

Definition startTablePoll (table : jsstr) (initialRefcount : Z) (s : SubscriptionPool) : SubscriptionPool :=
  match tablePolls s !! table with
  | Some _ => s
  | None =>
    let c := next_id s in
    with_loops <[c := Loop table [] 0 false false]> (with_polls <[table := Poll initialRefcount c [] None]> (bump s))
  end.

Definition restartTerminalPoll (table : jsstr) (s : SubscriptionPool) : SubscriptionPool * bool :=
  match tablePolls s !! table with
  | Some (Poll refcount controller _ (Some _)) =>
    (startTablePoll table refcount (with_polls (delete table) (abort (Some controller) s)), true)
  | _ => (s, false)
  end.

Definition stopTablePoll (s : SubscriptionPool) (table : jsstr) : SubscriptionPool :=
  match tablePolls s !! table with
  | None => s
  | Some (Poll refcount controller cursor terminalError) =>
    if refcount - 1 =? 0 then with_polls (delete table) (abort (Some controller) s)
    else with_polls <[table := Poll (refcount - 1) controller cursor terminalError]> s
  end.

Definition incrementTablePoll (s : SubscriptionPool) (table : jsstr) : SubscriptionPool :=
  match tablePolls s !! table with
  | None => startTablePoll table 1 s
  | Some (Poll refcount controller cursor terminalError) =>
    with_polls <[table := Poll (refcount + 1) controller cursor terminalError]> s
  end.

(** The next turn of the [while]: ends when aborted, else asks with the poll's cursor. *)
Definition next_turn (c : nat) (l : poll_loop) (cursor : jsstr) (attempt : nat) (pending : bool) (s : SubscriptionPool) : SubscriptionPool :=
  if bool_decide (c ∈ aborted s) then with_loops (delete c) s
  else with_loops <[c := Loop (loop_table l) cursor attempt pending false]> s.

Definition is_abort_error (e : E) : bool := match kind e with AbortError => true | _ => false end.

(** [pollSinceOnce] settles: whether it brought events, and the next cursor. *)
Definition poll_settles (c : nat) (r : bool * jsstr + E) (s : SubscriptionPool) : SubscriptionPool :=
  match loops s !! c with
  | None => s
  | Some l =>
    let table := loop_table l in
    if bool_decide (c ∈ aborted s) then with_loops (delete c) s
    else match tablePolls s !! table with
         | None => with_loops (delete c) s
         | Some p =>
           match r with
           | inl (some_events, next_cursor) =>
             let moved := some_events || negb (bool_decide (next_cursor = cursor p)) in
             let p' := if moved then Poll (refcount p) (controller p) next_cursor (terminalError p) else p in
             let s := with_polls <[table := p']> s in
             let s := if moved && some_events then invalidate table s else s in
             let proven := negb (deadCursorRecoveryPending l) || negb (bool_decide (requestCursor l = []))
                           || bool_decide (next_cursor = []) in
             if proven then next_turn c l (cursor p') 0 false s
             else next_turn c l (cursor p') (retryAttempt l) (deadCursorRecoveryPending l) s
           | inr error =>
             if is_abort_error error then with_loops (delete c) s
             else
               let recovered := has_code SchemaError (kind error) && negb (bool_decide (cursor p = [])) in
               let s := if recovered
                        then invalidate table (with_polls <[table := Poll (refcount p) (controller p) [] (terminalError p)]> s)
                        else s in
               let pending := recovered || deadCursorRecoveryPending l in
               if negb recovered && match kind error with BaerlyError _ _ _ _ => negb (retriable (kind error)) | _ => false end
               then with_loops (delete c) (failForTable table error
                      (with_polls <[table := Poll (refcount p) (controller p) (cursor p) (Some error)]> s))
               else with_loops <[c := Loop table (requestCursor l) (S (retryAttempt l)) pending true]> s
           end
         end
  end.

(** [waitForRetry] ends. *)
Definition wait_ends (c : nat) (s : SubscriptionPool) : SubscriptionPool :=
  match loops s !! c with
  | None => s
  | Some l => match tablePolls s !! loop_table l with
              | Some p => next_turn c l (cursor p) (retryAttempt l) (deadCursorRecoveryPending l) s
              | None => with_loops (delete c) s
              end
  end.

(** ** The pool's interface *)

Definition getSnapshot (signature : jsstr) (s : SubscriptionPool) : CachedSnapshot :=
  match cache s !! signature with Some entry => snapshot entry | None => LOADING_SNAPSHOT end.

Definition refetch (signature : jsstr) (s : SubscriptionPool) : SubscriptionPool :=
  match cache s !! signature, signatureFetchers s !! signature with
  | Some entry, Some _ =>
    let '(s, revived) := foldl (fun '(s, revived) table =>
      let (s, again) := restartTerminalPoll table s in (s, if again : bool then revived ++ [table] else revived))
      (s, []) (elements (chainTables entry)) in
    let s := dispatchFetch signature s in
    (foldl (fun acc table => invalidateForTable table (Some signature) acc) (s, ∅) revived).1
  | _, _ => s
  end.

Definition attach (signature : jsstr) (tables : list jsstr) (chain : gset jsstr) (fetcher notify : nat) (s : SubscriptionPool) : SubscriptionPool :=
  let isFirstSubscriber := bool_decide (cache s !! signature = None) in
  let s := match cache s !! signature with
           | Some _ => s
           | None => with_cache <[signature := Entry LOADING_SNAPSHOT false chain None]> s
           end in
  let s := with_fetchers <[signature := fetcher]> s in
  let s := with_subscribers <[signature := {[notify]} ∪ default ∅ (subscribersBySignature s !! signature)]> s in
  let s := foldl incrementTablePoll s tables in
  if isFirstSubscriber then dispatchFetch signature s else s.

(** What [attach] returned. *)
Definition detach (signature : jsstr) (tables : list jsstr) (notify : nat) (s : SubscriptionPool) : SubscriptionPool :=
  let s := match subscribersBySignature s !! signature with
           | None => s
           | Some liveSubs =>
             let rest := liveSubs ∖ {[notify]} in
             if bool_decide (rest = ∅)
             then let s := with_subscribers (delete signature) s in
                  let s := match cache s !! signature with
                           | Some entry => with_cache (delete signature) (abort (inFlight entry) s)
                           | None => s
                           end in
                  with_fetchers (delete signature) s
             else with_subscribers <[signature := rest]> s
           end in
  foldl stopTablePoll s tables.
End pool.

(** The delay before a retry is at least 125 milliseconds and at most ten seconds. *)
Lemma retryDelay_bounds attempt random : (0 <= random <= 1)%Q -> 125 <= retryDelay attempt random <= 10000.
Proof.
  intros Hr. unfold retryDelay. set (u := Qmin _ _).
  assert (Hu : (250 <= u <= 10000)%Q).
  { split; [|apply Q.le_min_l]. apply Q.min_glb; [done|]. rewrite <- (Qmult_1_r 250) at 1. apply Qmult_le_l; [done|].
    change 1%Q with (inject_Z 1). rewrite <- Zle_Qle. pose proof (Z.pow_pos_nonneg 2 (Z.of_nat attempt)). lia. }
  assert (Hd : (125 <= u / 2 + random * (u / 2) <= 10000)%Q).
  { assert (Hh : (125 <= u / 2 <= 5000)%Q) by (change (u / 2)%Q with (u * (1 # 2))%Q; lra). generalize dependent (u / 2)%Q. intros h Hh. nra. }
  split.
  - change 125 with (Qfloor 125). by apply Qfloor_resp_le, Hd.
  - change 10000 with (Qfloor 10000). by apply Qfloor_resp_le, Hd.
Qed.
