(* ===== verification/PoolSafety.v ===== *)
(** * What the pool of live queries keeps (over Pool.v)

    [pool_moves] interleaves subscribers, reads and poll loops at the pool's [await]s; the
    invariant [pool_ok] holds in every reachable world. *)
From Stdlib Require Import QArith.
From S2P Require Import Prelude JsText JsValue Errors Pool.
Local Open Scope Z_scope.

Section runs.
Context {D E : Type} `{EqDecision E} (kind : E -> js_error).
(** A signature determines the collections its query reads. *)
Context (tables_of : jsstr -> list jsstr).

Abbreviation POOL := (SubscriptionPool (D:=D) (E:=E)).
Abbreviation ENTRY := (CacheEntry (D:=D) (E:=E)).

(** The live subscriptions, by their [notify]; for each table the controller the next read
    would get when its poll last reported a change; for each signature the controller and
    the data of the last read that succeeded. *)
Record world := World {
  the_pool : POOL;
  attached : gmap nat jsstr;
  changed : jsstr -> nat;
  source : jsstr -> nat * option D
}.

Definition start : world := World no_pool ∅ (fun _ => 0%nat) (fun _ => (0%nat, None)).

Definition put {A} (k : jsstr) (a : A) (f : jsstr -> A) : jsstr -> A := fun k' => if bool_decide (k' = k) then a else f k'.

(** Whether a settled poll reports a change: events, or a cursor the server has given up. *)
Definition reports (r : bool * jsstr + E) (p : TablePoll (E:=E)) : bool :=
  match r with
  | inl (some_events, _) => some_events
  | inr error => negb (is_abort_error kind error) && has_code SchemaError (kind error) && negb (bool_decide (cursor p = []))
  end.

(** The read of controller [c] settles. *)
Definition after_read (c : nat) (signature : jsstr) (r : D + E) (w : world) : world :=
  World (read_settles c r (the_pool w)) (attached w) (changed w)
    (match r with
     | inl data => if bool_decide (c ∈ aborted (the_pool w)) then source w else put signature (c, Some data) (source w)
     | inr _ => source w
     end).

(** The poll of the loop [l] of controller [c] settles. *)
Definition after_poll (c : nat) (l : poll_loop) (r : bool * jsstr + E) (w : world) : world :=
  World (poll_settles kind c r (the_pool w)) (attached w)
    (match tablePolls (the_pool w) !! loop_table l with
     | Some p => if negb (bool_decide (c ∈ aborted (the_pool w))) && reports r p
                 then put (loop_table l) (next_id (the_pool w)) (changed w) else changed w
     | None => changed w
     end) (source w).

Inductive pool_moves : world -> world -> Prop :=
| step_attach w signature fetcher notify : attached w !! notify = None ->
    pool_moves w (World (attach signature (tables_of signature) (list_to_set (tables_of signature)) fetcher notify (the_pool w))
                   (<[notify := signature]> (attached w)) (changed w) (source w))
| step_detach w signature notify : attached w !! notify = Some signature ->
    pool_moves w (World (detach signature (tables_of signature) notify (the_pool w)) (delete notify (attached w)) (changed w) (source w))
| step_refetch w signature :
    pool_moves w (World (refetch signature (the_pool w)) (attached w) (changed w) (source w))
| step_read w c signature r : reads (the_pool w) !! c = Some signature ->
    pool_moves w (after_read c signature r w)
(* [fetch] rejects with an [AbortError] only when its signal is aborted. *)
| step_poll w c l r : loops (the_pool w) !! c = Some l -> waiting l = false ->
    (forall e, r = inr e -> is_abort_error kind e = true -> c ∈ aborted (the_pool w)) ->
    pool_moves w (after_poll c l r w)
| step_wait w c l : loops (the_pool w) !! c = Some l -> waiting l = true ->
    pool_moves w (World (wait_ends c (the_pool w)) (attached w) (changed w) (source w)).

Inductive pool_run : world -> Prop :=
| run_start : pool_run start
| run_step w w' : pool_run w -> pool_moves w w' -> pool_run w'.

(** ** The invariant *)

(** How many times the live subscriptions list a table. *)
Definition occurrences (table : jsstr) (tables : list jsstr) : Z := Z.of_nat (length (base.filter (fun t => t = table) tables)).

Definition demand (A : gmap nat jsstr) (table : jsstr) : Z :=
  map_fold (fun _ signature n => occurrences table (tables_of signature) + n) 0 A.

Definition pending_status (st : snap_status) : bool := match st with Loading | Refreshing => true | _ => false end.

(** One cached entry.  [stale] and [failing] exempt an entry the current operation has still
    to visit. *)
Record entry_ok (s : POOL) (ch : jsstr -> nat) (so : jsstr -> nat * option D) (stale failing : Prop)
    (signature : jsstr) (entry : ENTRY) : Prop := {
  entry_tables : chainTables entry = list_to_set (tables_of signature);
  entry_flight : forall c, inFlight entry = Some c -> reads s !! c = Some signature /\ (c ∉ aborted s);
  entry_status : ~ failing -> is_Some (inFlight entry) <-> pending_status (snap_status_of (snapshot entry)) = true;
  entry_loading : snap_status_of (snapshot entry) = Loading -> snapshot entry = LOADING_SNAPSHOT /\ hasSuccessfulData entry = false;
  entry_data : snap_data (snapshot entry) = (if hasSuccessfulData entry then (so signature).2 else None);
  entry_success : hasSuccessfulData entry = true -> is_Some (so signature).2;
  entry_ok_success : snap_status_of (snapshot entry) = Ok -> hasSuccessfulData entry = true;
  entry_failed : snap_status_of (snapshot entry) = Failed -> is_Some (snap_error (snapshot entry));
  entry_terminal : ~ failing -> forall t, t ∈ tables_of signature -> is_Some (terminal_of s t) -> snap_status_of (snapshot entry) = Failed;
  entry_fresh : ~ stale -> snap_status_of (snapshot entry) = Ok -> forall t, t ∈ tables_of signature -> (ch t <= (so signature).1)%nat;
  entry_reading : ~ stale -> forall c t, inFlight entry = Some c -> t ∈ tables_of signature -> (ch t <= c)%nat
}.

(** The pool against the live subscriptions [A] and the demand [dm] for each table. *)
Record pool_ok (s : POOL) (A : gmap nat jsstr) (dm : jsstr -> Z) (ch : jsstr -> nat) (so : jsstr -> nat * option D)
    (stale failing : jsstr -> Prop) : Prop := {
  ok_subscribers : forall signature subs, subscribersBySignature s !! signature = Some subs ->
    subs <> ∅ /\ forall n, n ∈ subs <-> A !! n = Some signature;
  ok_attached : forall n signature, A !! n = Some signature -> is_Some (subscribersBySignature s !! signature);
  ok_cached : forall signature, is_Some (cache s !! signature) <-> is_Some (subscribersBySignature s !! signature);
  ok_fetchers : forall signature, is_Some (signatureFetchers s !! signature) <-> is_Some (subscribersBySignature s !! signature);
  ok_entries : forall signature entry, cache s !! signature = Some entry ->
    entry_ok s ch so (stale signature) (failing signature) signature entry;
  ok_polls : forall t, match tablePolls s !! t with Some p => refcount p = dm t /\ 0 < dm t | None => dm t = 0 end;
  ok_running : forall t p, tablePolls s !! t = Some p -> (controller p < next_id s)%nat /\ (controller p ∉ aborted s) /\
    reads s !! controller p = None /\ (terminalError p = None -> exists l, loops s !! controller p = Some l /\ loop_table l = t);
  ok_reads : forall c signature, reads s !! c = Some signature -> (c < next_id s)%nat /\
    ((c ∉ aborted s) -> exists entry, cache s !! signature = Some entry /\ inFlight entry = Some c);
  ok_loops : forall c l, loops s !! c = Some l -> (c < next_id s)%nat /\ reads s !! c = None /\
    ((c ∉ aborted s) -> exists p, tablePolls s !! loop_table l = Some p /\ controller p = c /\ terminalError p = None);
  ok_aborted : forall c, c ∈ aborted s -> (c < next_id s)%nat;
  ok_changed : forall t, (ch t <= next_id s)%nat;
  ok_distinct : forall t t' p p', tablePolls s !! t = Some p -> tablePolls s !! t' = Some p' -> controller p = controller p' -> t = t'
}.

Definition none : jsstr -> Prop := fun _ => False.

(** ** Framing *)

Lemma terminal_none (s : POOL) entry t : terminalErrorFor entry s = None -> t ∈ chainTables entry -> terminal_of s t = None.
Proof.
  unfold terminalErrorFor. intros H Ht. destruct (terminal_of s t) as [e|] eqn:Et; [|done].
  assert (Hin : e ∈ omap (terminal_of s) (elements (chainTables entry))).
  { apply list_elem_of_omap. exists t. split; [by apply elem_of_elements|done]. }
  destruct (omap _ _); [by apply elem_of_nil in Hin|done].
Qed.

Lemma terminal_some (s : POOL) entry e : terminalErrorFor entry s = Some e -> exists t, t ∈ chainTables entry /\ terminal_of s t = Some e.
Proof.
  unfold terminalErrorFor. intros H. destruct (omap _ _) as [|e' l] eqn:Eo; [done|]. injection H as ->.
  assert (Hin : e ∈ omap (terminal_of s) (elements (chainTables entry))) by (rewrite Eo; by left).
  apply list_elem_of_omap in Hin as (t & Ht & He). exists t. split; [by apply elem_of_elements|done].
Qed.

(** The fields of two pools that differ in their notices. *)
Definition same_pool (s s' : POOL) : Prop :=
  cache s' = cache s /\ subscribersBySignature s' = subscribersBySignature s /\ signatureFetchers s' = signatureFetchers s /\
  tablePolls s' = tablePolls s /\ aborted s' = aborted s /\ next_id s' = next_id s /\ reads s' = reads s /\ loops s' = loops s.

Lemma notify_same signature (s : POOL) : same_pool s (notifyAll signature s).
Proof. unfold notifyAll. by destruct (subscribersBySignature s !! signature). Qed.

(** An entry stays as it is when its own read and the terminal errors of its tables do. *)
Lemma entry_ok_frame (s s' : POOL) ch so (stale stale' failing failing' : Prop) signature entry :
  entry_ok s ch so stale failing signature entry ->
  (forall c, reads s !! c = Some signature -> (c ∉ aborted s) -> inFlight entry = Some c -> reads s' !! c = Some signature /\ (c ∉ aborted s')) ->
  (forall t, t ∈ tables_of signature -> is_Some (terminal_of s' t) -> is_Some (terminal_of s t)) ->
  (stale -> stale') -> (failing -> failing') -> entry_ok s' ch so stale' failing' signature entry.
Proof.
  intros [H1 H2 H3 H4 H5 H6 H7 H8 H9 H10 H11] Hc Ht Hs Hf. split; try tauto.
  - intros c Hi. destruct (H2 c Hi). by apply Hc.
  - intros Hn t Hin Hter. apply (H9 ltac:(tauto) t Hin). by apply Ht.
Qed.

Lemma pool_ok_mono (s s' : POOL) A dm ch so stale stale' failing failing' : same_pool s s' -> pool_ok s A dm ch so stale failing ->
  (forall x, is_Some (cache s !! x) -> (stale x -> stale' x) /\ (failing x -> failing' x)) -> pool_ok s' A dm ch so stale' failing'.
Proof.
  destruct s as [a b c d e f g h n], s' as [a' b' c' d' e' f' g' h' n'].
  intros (Ha & Hb & Hc & Hd & He & Hf & Hg & Hh). cbn in *. subst. intros [? ? ? ? Hen ? ? ? ? ? ? ?] Hm. split; cbn in *; try done.
  intros x entry Hx. destruct (Hm x (ltac:(by eexists))) as [Hs Hg].
  apply (entry_ok_frame (Pool a b c d e f g h n) _ _ _ (stale x) _ (failing x)); auto.
Qed.

Lemma notify_ok signature (s : POOL) A dm ch so stale failing : pool_ok s A dm ch so stale failing ->
  pool_ok (notifyAll signature s) A dm ch so stale failing.
Proof. intros H. by apply (pool_ok_mono s _ _ _ _ _ stale _ failing); [apply notify_same| |]. Qed.

(** A new entry under a cached signature, with the same read in flight. *)
Lemma set_entry_ok signature entry entry' (s : POOL) A dm ch so stale stale' failing failing' : pool_ok s A dm ch so stale failing ->
  cache s !! signature = Some entry -> inFlight entry' = inFlight entry ->
  entry_ok s ch so (stale' signature) (failing' signature) signature entry' ->
  (forall x, x <> signature -> (stale x -> stale' x) /\ (failing x -> failing' x)) ->
  pool_ok (with_cache <[signature := entry']> s) A dm ch so stale' failing'.
Proof.
  intros [Hsu Hat Hca Hfe Hen Hpo Hru Hre Hlo Hab Hch Hdi] Hs Hf He Hm. split; cbn; try done.
  - intros x. rewrite lookup_insert_is_Some'. rewrite <- Hca. split; [|tauto]. intros [<-|?]; [|done]. by eexists.
  - intros x e Hx. apply lookup_insert_Some in Hx as [[<- <-]|[Hne Hx]]; [by apply (entry_ok_frame s _ _ _ (stale' signature) _ (failing' signature))|].
    destruct (Hm x (ltac:(done))). by apply (entry_ok_frame s _ _ _ (stale x) _ (failing x)); auto.
  - intros c x Hx. destruct (Hre c x Hx) as [Hlt Hrd]. split; [done|]. intros Hna. destruct (Hrd Hna) as (e & Hce & Hie).
    destruct (decide (x = signature)) as [->|Hne].
    + exists entry'. rewrite lookup_insert_eq. split; [done|]. rewrite Hf. congruence.
    + exists e. by rewrite lookup_insert_ne by done.
Qed.

(** ** Reads *)

Lemma flight_none (s : POOL) ch so stale (failing : Prop) signature entry : entry_ok s ch so stale failing signature entry ->
  ~ failing -> snap_status_of (snapshot entry) = Failed -> inFlight entry = None.
Proof.
  intros He Hf Hs. destruct (inFlight entry) as [c|] eqn:Ei; [|done]. destruct (entry_status _ _ _ _ _ _ _ He Hf) as [Hp _].
  rewrite Ei, Hs in Hp. by discriminate Hp.
Qed.

(** What aborting the read of an entry leaves alone. *)
Record cut (s : POOL) (signature : jsstr) (entry : ENTRY) (ab : gset nat) : Prop := {
  cut_elem : forall c, c ∈ ab <-> inFlight entry = Some c \/ c ∈ aborted s;
  cut_bound : forall c, c ∈ ab -> (c < next_id s)%nat;
  cut_loops : forall c, reads s !! c = None -> (c ∉ aborted s) -> (c ∉ ab);
  cut_others : forall c x, reads s !! c = Some x -> x <> signature -> (c ∉ aborted s) -> (c ∉ ab)
}.

Lemma abort_cut signature entry (s : POOL) A dm ch so stale failing : pool_ok s A dm ch so stale failing ->
  cache s !! signature = Some entry -> cut s signature entry (aborted (abort (inFlight entry) s)).
Proof.
  intros Hok Ee. pose proof (entry_flight _ _ _ _ _ _ _ (ok_entries _ _ _ _ _ _ _ Hok signature entry Ee)) as Hf.
  assert (Hel : forall c, c ∈ aborted (abort (inFlight entry) s) <-> inFlight entry = Some c \/ c ∈ aborted s).
  { intros c. destruct (inFlight entry); cbn; [set_solver|]. split; [by right|]. by intros [|]. }
  split; [done|..].
  - intros c [Hc|Hc]%Hel; [|by apply (ok_aborted _ _ _ _ _ _ _ Hok)]. destruct (Hf c Hc) as [Hr _].
    by destruct (ok_reads _ _ _ _ _ _ _ Hok _ _ Hr).
  - intros c Hr Hc [Hi|Hi]%Hel; [|done]. destruct (Hf c Hi). congruence.
  - intros c x Hr Hx Hc [Hi|Hi]%Hel; [|done]. destruct (Hf c Hi). congruence.
Qed.

(** A read of an entry whose tables are alive. *)
Lemma new_read_ok signature entry (s : POOL) A dm ch so stale failing : pool_ok s A dm ch so stale failing ->
  (forall x, failing x -> x = signature) -> cache s !! signature = Some entry -> terminalErrorFor entry s = None ->
  pool_ok (with_reads <[next_id s := signature]> (with_cache <[signature := Entry (pending_snapshot entry) (hasSuccessfulData entry)
             (chainTables entry) (Some (next_id s))]> (bump (abort (inFlight entry) s)))) A dm ch so (fun x => stale x /\ x <> signature) none.
Proof.
  intros Hok Hf Ee Et. pose proof (ok_entries _ _ _ _ _ _ _ Hok signature entry Ee) as He.
  destruct (abort_cut _ _ _ _ _ _ _ _ _ Hok Ee) as [Hold Habt Hrd Hot]. set (old := aborted (abort (inFlight entry) s)) in *.
  destruct Hok as [Hsu Hat Hca Hfe Hen Hpo Hru Hre Hlo Hab Hch Hdi].
  replace (with_reads _ _) with (Pool (<[signature := Entry (pending_snapshot entry) (hasSuccessfulData entry) (chainTables entry) (Some (next_id s))]> (cache s))
    (subscribersBySignature s) (signatureFetchers s) (tablePolls s) old (S (next_id s)) (<[next_id s := signature]> (reads s)) (loops s) (notices s))
    by (unfold old, abort; by destruct (inFlight entry)).
  split; cbn; try done.
  - intros x. rewrite lookup_insert_is_Some'. rewrite <- Hca. split; [|tauto]. intros [<-|?]; [|done]. by eexists.
  - intros x e Hx. apply lookup_insert_Some in Hx as [[<- <-]|[Hne Hx]].
    + destruct He as [H1 H2 H3 H4 H5 H6 H7 H8 H9 H10 H11]. split; cbn; try done.
      * intros c [= <-]. rewrite lookup_insert_eq. split; [done|]. intros Hc%Habt. lia.
      * intros _. unfold pending_snapshot. destruct (hasSuccessfulData entry); cbn; split; try done; by eexists.
      * unfold pending_snapshot. by destruct (hasSuccessfulData entry).
      * unfold pending_snapshot. by destruct (hasSuccessfulData entry).
      * unfold pending_snapshot. by destruct (hasSuccessfulData entry).
      * unfold pending_snapshot. by destruct (hasSuccessfulData entry).
      * intros _ t Ht Hter. change (terminal_of _ t) with (terminal_of s t) in Hter.
        rewrite (terminal_none s entry t Et) in Hter by (rewrite H1; by apply elem_of_list_to_set). by destruct Hter.
      * unfold pending_snapshot. by destruct (hasSuccessfulData entry).
      * intros _ c t [= <-] _. apply Hch.
    + apply (entry_ok_frame s _ _ _ (stale x) _ (failing x)); [by apply Hen| |done|done|].
      * cbn. intros c Hr Hc Hi. rewrite lookup_insert_ne by (destruct (Hre _ _ Hr); lia). split; [done|].
        by apply (Hot c x); [|apply not_eq_sym|].
      * intros Hx'. by apply Hne, eq_sym, Hf.
  - intros t p Hp. destruct (Hru t p Hp) as (H1 & H2 & H3 & H4). split_and!; [lia|by apply Hrd| |done].
    rewrite lookup_insert_ne by lia. done.
  - intros c x Hx. apply lookup_insert_Some in Hx as [[<- <-]|[Hne Hx]].
    + split; [lia|]. intros _. eexists. by rewrite lookup_insert_eq.
    + destruct (Hre c x Hx) as [H1 H2]. split; [lia|]. intros Hc. destruct H2 as (e & Hce & Hie); [intros Ho; apply Hc, Hold; by right|].
      destruct (decide (x = signature)) as [->|Hxs]; [|exists e; by rewrite lookup_insert_ne by done].
      exfalso. apply Hc, Hold. left. congruence.
  - intros c l Hl. destruct (Hlo c l Hl) as (H1 & H2 & H3). split_and!; [lia| |].
    + by rewrite lookup_insert_ne by lia.
    + intros Hc. apply H3. intros Ho. apply Hc, Hold. by right.
  - intros c Hc%Habt. lia.
  - intros t. specialize (Hch t). lia.
Qed.

Lemma dispatch_ok signature (s : POOL) A dm ch so stale failing : pool_ok s A dm ch so stale failing ->
  (forall x, failing x -> x = signature) ->
  (forall entry, failing signature -> cache s !! signature = Some entry -> inFlight entry = None) ->
  pool_ok (dispatchFetch signature s) A dm ch so (fun x => stale x /\ x <> signature) none.
Proof.
  intros Hok Hf Hi. unfold dispatchFetch. destruct (cache s !! signature) as [entry|] eqn:Ee.
  2: { apply (pool_ok_mono s _ _ _ _ _ stale _ failing); [done..|]. intros x Hx. assert (x <> signature).
       { intros ->. rewrite Ee in Hx. by destruct Hx. } split; [done|]. by intros ?%Hf. }
  pose proof (ok_entries _ _ _ _ _ _ _ Hok signature entry Ee) as He.
  destruct (terminalErrorFor entry s) as [err|] eqn:Et.
  - destruct (terminal_some _ _ _ Et) as (t & Htc & Htt). rewrite (entry_tables _ _ _ _ _ _ _ He) in Htc.
    apply elem_of_list_to_set in Htc.
    assert (Hfl : inFlight entry = None).
    { destruct (inFlight entry) as [c|] eqn:Ei; [|done]. assert (Hnf : ~ failing signature) by (intros Hx; by rewrite (Hi entry Hx eq_refl) in Ei).
      rewrite <- Ei. apply (flight_none _ _ _ _ _ _ _ He Hnf). apply (entry_terminal _ _ _ _ _ _ _ He Hnf t Htc). by eexists. }
    set (entry' := Entry (Snap Failed (snap_data (snapshot entry)) (Some err)) (hasSuccessfulData entry) (chainTables entry) (inFlight entry)).
    assert (Hm : forall x, x <> signature -> (stale x -> stale x /\ x <> signature) /\ (failing x -> none x)) by (intros x Hx; split; [done|by intros ?%Hf]).
    case_match eqn:Ec.
    + apply notify_ok, (set_entry_ok signature entry entry' s A dm ch so stale _ failing _); try done.
      destruct He as [H1 H2 H3 H4 H5 H6 H7 H8 H9 H10 H11]. split; cbn; rewrite ?Hfl; try done.
    + apply orb_false_iff in Ec as [Ec _]. apply negb_false_iff in Ec. destruct (snap_status_of (snapshot entry)) eqn:Es; unfold is_status in Ec; rewrite Es in Ec; try done.
      replace s with (with_cache <[signature := entry]> s) by (unfold with_cache; rewrite insert_id by done; by destruct s).
      apply (set_entry_ok signature entry entry s A dm ch so stale _ failing _); try done.
      destruct He as [H1 H2 H3 H4 H5 H6 H7 H8 H9 H10 H11]. split; rewrite ?Es, ?Hfl; try done; intros _; by apply H8.
  - pose proof (new_read_ok signature entry s A dm ch so stale failing Hok Hf Ee Et) as Hn.
    replace (next_id (abort (inFlight entry) s)) with (next_id s) by (by destruct (inFlight entry)).
    case_match; [by apply notify_ok|done].
Qed.

(** ** Refetching the queries of a table *)

(** Neither the polls nor the loops change. *)
Definition keeps_polls (s s' : POOL) : Prop := tablePolls s' = tablePolls s /\ loops s' = loops s.

Lemma notify_keeps signature (s : POOL) : keeps_polls s (notifyAll signature s).
Proof. unfold notifyAll. by destruct (subscribersBySignature s !! signature). Qed.

Lemma dispatch_keeps signature (s : POOL) : keeps_polls s (dispatchFetch signature s).
Proof.
  unfold dispatchFetch. destruct (cache s !! signature) as [entry|]; [|done]. cbv zeta.
  assert (Hn : forall s', keeps_polls s s' -> keeps_polls s (notifyAll signature s')).
  { intros s' [H1 H2]. destruct (notify_keeps signature s') as [H3 H4]. split; congruence. }
  destruct (terminalErrorFor entry s); [case_match; [by apply Hn|done]|].
  case_match; [apply Hn|]; by destruct (inFlight entry).
Qed.

Definition untouched (table : jsstr) (skip : option jsstr) (d : gset jsstr) (x : jsstr) : Prop :=
  (table ∉ tables_of x) \/ skip = Some x \/ x ∈ d.

Lemma invalidate_one_ok table skip signature (s : POOL) d A dm ch so stale : pool_ok s A dm ch so stale none ->
  pool_ok (invalidate_one table skip (s, d) signature).1 A dm ch so (fun x => stale x /\ (x = signature -> untouched table skip d x)) none /\
  keeps_polls s (invalidate_one table skip (s, d) signature).1 /\ (invalidate_one table skip (s, d) signature).2 ⊆ {[signature]} ∪ d.
Proof.
  intros Hok. unfold invalidate_one, reads_table, has_subscribers, keeps_polls.
  assert (Hskip : (forall x, is_Some (cache s !! x) -> x = signature -> untouched table skip d x) ->
    pool_ok s A dm ch so (fun x => stale x /\ (x = signature -> untouched table skip d x)) none).
  { intros Hu. apply (pool_ok_mono s _ _ _ _ _ stale _ none); [done..|]. intros x Hx. split; [|done]. intros Hs. split; [done|]. by apply Hu. }
  destruct (cache s !! signature) as [entry|] eqn:Ee; cbn [negb orb fst snd]; [|split_and!; [apply Hskip|done..|set_solver]; intros x Hx ->; rewrite Ee in Hx; by destruct Hx].
  pose proof (entry_tables _ _ _ _ _ _ _ (ok_entries _ _ _ _ _ _ _ Hok _ _ Ee)) as Ht. rewrite Ht.
  case_match eqn:Ec; cbn [fst snd].
  - split_and!; [apply Hskip|done..|set_solver]. intros x Hx ->. apply orb_true_iff in Ec as [[[Ec|Ec]%orb_true_iff|Ec]%orb_true_iff|Ec].
    + left. apply negb_true_iff, bool_decide_eq_false in Ec. by rewrite elem_of_list_to_set in Ec.
    + right. left. by apply bool_decide_eq_true in Ec.
    + right. right. by apply bool_decide_eq_true in Ec.
    + exfalso. destruct (ok_cached _ _ _ _ _ _ _ Hok signature) as [Hs _]. destruct (Hs Hx) as [subs Hsubs]. rewrite Hsubs in Ec.
      apply negb_true_iff, negb_false_iff, bool_decide_eq_true in Ec. by destruct (ok_subscribers _ _ _ _ _ _ _ Hok _ _ Hsubs).
  - assert (Hf : is_Some (signatureFetchers s !! signature)).
    { apply (ok_fetchers _ _ _ _ _ _ _ Hok), (ok_cached _ _ _ _ _ _ _ Hok). by eexists. }
    destruct Hf as [f ->]. cbn [fst snd]. split_and!; [|apply dispatch_keeps..|done].
    apply (pool_ok_mono (dispatchFetch signature s) _ _ _ _ _ (fun x => stale x /\ x <> signature) _ none); [done|by apply (dispatch_ok _ _ _ _ _ _ _ none)|].
    intros x _. split; [|done]. intros [Hs Hne]. by split.
Qed.

Lemma invalidate_fold table skip l (s : POOL) d A dm ch so stale : NoDup l -> pool_ok s A dm ch so stale none ->
  pool_ok (foldl (invalidate_one table skip) (s, d) l).1 A dm ch so (fun x => stale x /\ (x ∈ l -> untouched table skip d x)) none /\
  keeps_polls s (foldl (invalidate_one table skip) (s, d) l).1.
Proof.
  revert s d stale. induction l as [|signature l IH]; intros s d stale Hl Hok; cbn [foldl].
  - split; [|done]. apply (pool_ok_mono s _ _ _ _ _ stale _ none); [done..|]. intros x _. split; [|done]. intros Hs. split; [done|]. by intros ?%elem_of_nil.
  - apply NoDup_cons in Hl as [Hn Hl]. destruct (invalidate_one_ok table skip signature s d A dm ch so stale Hok) as (Hok1 & [Hp1 Hl1] & Hd).
    destruct (invalidate_one table skip (s, d) signature) as [s1 d1]. cbn [fst snd] in *.
    destruct (IH s1 d1 _ Hl Hok1) as [Hok2 [Hp2 Hl2]]. split; [|split; congruence].
    eapply pool_ok_mono; [|exact Hok2|]; [done|]. intros x _. split; [|done]. cbn. intros [[Hs H1] H2]. split; [done|].
    intros [->|Hx]%elem_of_cons; [by apply H1|]. destruct (H2 Hx) as [?|[?|Hx1]]; [by left|by right; left|].
    right. right. apply Hd, elem_of_union in Hx1 as [->%elem_of_singleton|?]; done.
Qed.

Lemma signatures_all (s : POOL) x : is_Some (cache s !! x) -> x ∈ signatures s.
Proof. intros [e He]. apply list_elem_of_fmap. exists (x, e). split; [done|]. by apply elem_of_map_to_list. Qed.

Lemma invalidate_for_ok table skip (s : POOL) d A dm ch so stale : pool_ok s A dm ch so stale none ->
  pool_ok (invalidateForTable table skip (s, d)).1 A dm ch so (fun x => stale x /\ untouched table skip d x) none /\
  keeps_polls s (invalidateForTable table skip (s, d)).1.
Proof.
  intros Hok. set (stale' := fun x => stale x /\ is_Some (cache s !! x)).
  assert (Hok' : pool_ok s A dm ch so stale' none) by (by apply (pool_ok_mono s _ _ _ _ _ stale _ none)).
  destruct (invalidate_fold table skip (signatures s) s d A dm ch so stale' (NoDup_fst_map_to_list (cache s)) Hok') as [H1 H2].
  split; [|done]. eapply pool_ok_mono; [|exact H1|]; [done|]. intros x _. split; [|done]. intros [[Hs Hx] Hu]. split; [done|].
  by apply Hu, signatures_all.
Qed.

Lemma invalidate_ok table (s : POOL) A dm ch so stale : pool_ok s A dm ch so stale none -> (forall x, stale x -> table ∈ tables_of x) ->
  pool_ok (invalidate table s) A dm ch so none none /\ keeps_polls s (invalidate table s).
Proof.
  intros Hok Hs. destruct (invalidate_for_ok table None s ∅ A dm ch so stale Hok) as [H1 H2]. split; [|done].
  eapply pool_ok_mono; [|exact H1|]; [done|]. intros x _. split; [|done]. intros [Hx [Hu|[Hu|Hu]]]; [by apply Hu, Hs|done|set_solver].
Qed.

(** ** A table whose poll is dead *)

(** The entry's read is aborted and its error shown. *)
Lemma fail_entry_ok signature entry error (s : POOL) A dm ch so stale failing : pool_ok s A dm ch so stale failing ->
  cache s !! signature = Some entry ->
  pool_ok (with_cache <[signature := Entry (Snap Failed (snap_data (snapshot entry)) (Some error)) (hasSuccessfulData entry)
             (chainTables entry) None]> (abort (inFlight entry) s)) A dm ch so stale (fun x => failing x /\ x <> signature).
Proof.
  intros Hok Ee. pose proof (ok_entries _ _ _ _ _ _ _ Hok signature entry Ee) as He.
  destruct (abort_cut _ _ _ _ _ _ _ _ _ Hok Ee) as [Hold Habt Hrd Hot]. set (old := aborted (abort (inFlight entry) s)) in *.
  destruct Hok as [Hsu Hat Hca Hfe Hen Hpo Hru Hre Hlo Hab Hch Hdi].
  replace (with_cache _ _) with (Pool (<[signature := Entry (Snap Failed (snap_data (snapshot entry)) (Some error)) (hasSuccessfulData entry)
             (chainTables entry) None]> (cache s))
    (subscribersBySignature s) (signatureFetchers s) (tablePolls s) old (next_id s) (reads s) (loops s) (notices s))
    by (unfold old, abort; by destruct (inFlight entry)).
  split; cbn; try done.
  - intros x. rewrite lookup_insert_is_Some'. rewrite <- Hca. split; [|tauto]. intros [<-|?]; [|done]. by eexists.
  - intros x e Hx. apply lookup_insert_Some in Hx as [[<- <-]|[Hne Hx]].
    + destruct He as [H1 H2 H3 H4 H5 H6 H7 H8 H9 H10 H11]. split; cbn; try done; intros _; try by eexists.
    + apply (entry_ok_frame s _ _ _ (stale x) _ (failing x)); [by apply Hen| |done|done|by split; [|apply not_eq_sym]].
      cbn. intros c Hr Hc Hi. split; [done|]. by apply (Hot c x); [|apply not_eq_sym|].
  - intros t p Hp. destruct (Hru t p Hp) as (H1 & H2 & H3 & H4). split_and!; [done|by apply Hrd|done..].
  - intros c x Hx. destruct (Hre c x Hx) as [H1 H2]. split; [lia|]. intros Hc. destruct H2 as (e & Hce & Hie); [intros Ho; apply Hc, Hold; by right|].
    destruct (decide (x = signature)) as [->|Hxs]; [|exists e; by rewrite lookup_insert_ne by done].
    exfalso. apply Hc, Hold. left. congruence.
  - intros c l Hl. destruct (Hlo c l Hl) as (H1 & H2 & H3). split_and!; [done..|].
    intros Hc. apply H3. intros Ho. apply Hc, Hold. by right.
Qed.

Lemma fail_one_ok table error signature (s : POOL) A dm ch so stale failing : pool_ok s A dm ch so stale failing ->
  (forall x, failing x -> table ∈ tables_of x) ->
  pool_ok (fail_one table error s signature) A dm ch so stale (fun x => failing x /\ x <> signature).
Proof.
  intros Hok Hf. unfold fail_one, reads_table, has_subscribers.
  assert (Hskip : (forall x, is_Some (cache s !! x) -> failing x -> x <> signature) ->
    pool_ok s A dm ch so stale (fun x => failing x /\ x <> signature)).
  { intros Hu. apply (pool_ok_mono s _ _ _ _ _ stale _ failing); [done..|]. intros x Hx. split; [done|]. intros Hs. split; [done|]. by apply Hu. }
  destruct (cache s !! signature) as [entry|] eqn:Ee; cbn [negb orb].
  2: { apply Hskip. intros x Hx _ ->. rewrite Ee in Hx. by destruct Hx. }
  pose proof (entry_tables _ _ _ _ _ _ _ (ok_entries _ _ _ _ _ _ _ Hok _ _ Ee)) as Ht. case_match eqn:Ec.
  - apply Hskip. intros x Hx Hfx ->. apply orb_true_iff in Ec as [Ec|Ec].
    + apply negb_true_iff, bool_decide_eq_false in Ec. apply Ec. rewrite Ht. by apply elem_of_list_to_set, Hf.
    + destruct (ok_cached _ _ _ _ _ _ _ Hok signature) as [Hs _]. destruct (Hs Hx) as [subs Hsubs]. rewrite Hsubs in Ec.
      apply negb_true_iff, negb_false_iff, bool_decide_eq_true in Ec. by destruct (ok_subscribers _ _ _ _ _ _ _ Hok _ _ Hsubs).
  - by apply notify_ok, fail_entry_ok.
Qed.

Lemma fail_ok table error (s : POOL) A dm ch so stale failing : pool_ok s A dm ch so stale failing ->
  (forall x, failing x -> table ∈ tables_of x) -> pool_ok (failForTable table error s) A dm ch so stale none.
Proof.
  intros Hok Hf. unfold failForTable.
  assert (Hl : forall l (s : POOL) failing, pool_ok s A dm ch so stale failing -> (forall x, failing x -> table ∈ tables_of x) ->
    pool_ok (foldl (fail_one table error) s l) A dm ch so stale (fun x => failing x /\ (x ∉ l))).
  { intros l. induction l as [|signature l IH]; intros s' g Hg Hgt; cbn [foldl].
    - apply (pool_ok_mono s' _ _ _ _ _ stale _ g); [done..|]. intros x _. split; [done|]. intros Hx. split; [done|]. apply not_elem_of_nil.
    - eapply pool_ok_mono; [|apply (IH (fail_one table error s' signature) (fun x => g x /\ x <> signature)); [by apply fail_one_ok|by intros x [Hx _]; apply Hgt]|]; [done|].
      intros x _. split; [done|]. intros [[Hx Hne] Hn]. split; [done|]. by intros [?|?]%elem_of_cons. }
  eapply pool_ok_mono; [|apply (Hl (signatures s) s (fun x => failing x /\ is_Some (cache s !! x)))|]; [done|..].
  - by apply (pool_ok_mono s _ _ _ _ _ stale _ failing).
  - intros x [Hx _]. by apply Hf.
  - intros x _. split; [done|]. intros [[Hx Hs] Hn]. by apply Hn, signatures_all.
Qed.

(** Failing commutes with a change to the loops. *)
Lemma fail_loops table error f (s : POOL) : failForTable table error (with_loops f s) = with_loops f (failForTable table error s).
Proof.
  assert (Hone : forall (s : POOL) signature, fail_one table error (with_loops f s) signature = with_loops f (fail_one table error s signature)).
  { intros s' x. unfold fail_one, reads_table, has_subscribers. cbn. destruct (_ || _); [done|]. destruct (cache s' !! x) as [entry|]; [|done].
    unfold notifyAll. destruct (inFlight entry); cbn; by destruct (subscribersBySignature s' !! x). }
  unfold failForTable. replace (signatures (with_loops f s)) with (signatures s) by done. generalize (signatures s) as l.
  intros l. revert s. induction l as [|x l IH]; intros s; [done|]. cbn. by rewrite Hone, IH.
Qed.

(** ** Polls and their loops *)

Lemma pool_ok_demand (s : POOL) A dm dm' ch so stale failing : pool_ok s A dm ch so stale failing -> (forall t, dm t = dm' t) ->
  pool_ok s A dm' ch so stale failing.
Proof. intros [? ? ? ? ? Hpo ? ? ? ? ? ?] Hd. split; try done. intros t. rewrite <- Hd. apply Hpo. Qed.

Lemma put_same {B} (k : jsstr) (b : B) f : put k b f k = b.
Proof. unfold put. by rewrite bool_decide_eq_true_2. Qed.

Lemma put_other {B} (k k' : jsstr) (b : B) f : k' <> k -> put k b f k' = f k'.
Proof. intros H. unfold put. by rewrite bool_decide_eq_false_2. Qed.

(** A new poll and its loop. *)
Lemma start_poll_ok table n (s : POOL) A dm ch so stale failing : pool_ok s A dm ch so stale failing ->
  tablePolls s !! table = None -> 0 < n -> pool_ok (startTablePoll table n s) A (put table n dm) ch so stale failing.
Proof.
  intros [Hsu Hat Hca Hfe Hen Hpo Hru Hre Hlo Hab Hch Hdi] Ht Hn. unfold startTablePoll. rewrite Ht. split; cbn; try done.
  - intros x e Hx. apply (entry_ok_frame s _ _ _ (stale x) _ (failing x)); [by apply Hen|done| |done|done].
    unfold terminal_of. cbn. intros t _. destruct (decide (t = table)) as [->|Hne]; [rewrite lookup_insert_eq; cbn; by intros [? [=]]|].
    by rewrite lookup_insert_ne by done.
  - intros t. destruct (decide (t = table)) as [->|Hne]; [by rewrite lookup_insert_eq, put_same|].
    rewrite lookup_insert_ne by done. rewrite put_other by done. apply Hpo.
  - intros t p Hp. apply lookup_insert_Some in Hp as [[<- <-]|[Hne Hp]]; cbn.
    + split_and!; [lia|intros Hc%Hab; lia| |intros _; eexists; by rewrite lookup_insert_eq].
      destruct (reads s !! next_id s) as [x|] eqn:Er; [|done]. destruct (Hre _ _ Er). lia.
    + destruct (Hru t p Hp) as (H1 & H2 & H3 & H4). split_and!; [lia|done..|]. intros Hte. destruct (H4 Hte) as (l & Hl & Hlt).
      exists l. by rewrite lookup_insert_ne by lia.
  - intros c x Hx. destruct (Hre c x Hx). split; [lia|done].
  - intros c l Hl. apply lookup_insert_Some in Hl as [[<- <-]|[Hne Hl]]; cbn.
    + split_and!; [lia| |]. { destruct (reads s !! next_id s) as [x|] eqn:Er; [|done]. destruct (Hre _ _ Er). lia. }
      intros _. eexists. by rewrite lookup_insert_eq.
    + destruct (Hlo c l Hl) as (H1 & H2 & H3). split_and!; [lia|done|]. intros Hc. destruct (H3 Hc) as (p & Hp & Hpc).
      exists p. rewrite lookup_insert_ne; [done|]. intros Heq. by rewrite <- Heq, Ht in Hp.
  - intros c Hc%Hab. lia.
  - intros t. specialize (Hch t). lia.
  - intros t t' p p' Hp Hp'. apply lookup_insert_Some in Hp as [[<- <-]|[Hne Hp]], Hp' as [[<- <-]|[Hne' Hp']]; cbn; try done.
    + intros Hc. destruct (Hru _ _ Hp'). lia.
    + intros Hc. destruct (Hru _ _ Hp). lia.
    + by apply Hdi.
Qed.

(** A poll is aborted and forgotten. *)
Lemma drop_poll_ok table p (s : POOL) A dm ch so stale failing : pool_ok s A dm ch so stale failing -> tablePolls s !! table = Some p ->
  pool_ok (with_polls (delete table) (abort (Some (controller p)) s)) A (put table 0 dm) ch so stale failing.
Proof.
  intros [Hsu Hat Hca Hfe Hen Hpo Hru Hre Hlo Hab Hch Hdi] Ht. destruct (Hru table p Ht) as (Hc1 & Hc2 & Hc3 & Hc4). split; cbn; try done.
  - intros x e Hx. apply (entry_ok_frame s _ _ _ (stale x) _ (failing x)); [by apply Hen| | |done|done]; cbn.
    + intros c Hr Hc Hi. split; [done|]. intros [->%elem_of_singleton|?]%elem_of_union; [congruence|done].
    + unfold terminal_of. cbn. intros t _. destruct (decide (t = table)) as [->|Hne]; [rewrite lookup_delete_eq; cbn; by intros [? [=]]|].
      by rewrite lookup_delete_ne by done.
  - intros t. destruct (decide (t = table)) as [->|Hne]; [by rewrite lookup_delete_eq, put_same|].
    rewrite lookup_delete_ne by done. rewrite put_other by done. apply Hpo.
  - intros t q Hq. apply lookup_delete_Some in Hq as [Hne Hq]. destruct (Hru t q Hq) as (H1 & H2 & H3 & H4). split_and!; [done| |done..].
    intros [Heq%elem_of_singleton|?]%elem_of_union; [|done]. by apply Hne, (Hdi _ _ p q).
  - intros c x Hx. destruct (Hre c x Hx) as [H1 H2]. split; [done|]. intros Hc. apply H2. set_solver.
  - intros c l Hl. destruct (Hlo c l Hl) as (H1 & H2 & H3). split_and!; [done..|]. intros Hc. destruct H3 as (q & Hq & Hqc & Hqt); [set_solver|].
    exists q. rewrite lookup_delete_ne; [done|]. intros Heq. rewrite <- Heq, Ht in Hq. injection Hq as <-. set_solver.
  - intros c [->%elem_of_singleton|?]%elem_of_union; [done|by apply Hab].
  - intros t t' q q' [_ Hq]%lookup_delete_Some [_ Hq']%lookup_delete_Some. by apply Hdi.
Qed.

(** A poll with the same controller, alive or dead as before. *)
Lemma set_poll_ok table p p' (s : POOL) A dm ch so stale failing : pool_ok s A dm ch so stale failing -> tablePolls s !! table = Some p ->
  controller p' = controller p -> terminalError p' = terminalError p -> 0 < refcount p' ->
  pool_ok (with_polls <[table := p']> s) A (put table (refcount p') dm) ch so stale failing.
Proof.
  intros [Hsu Hat Hca Hfe Hen Hpo Hru Hre Hlo Hab Hch Hdi] Ht Hc Hte Hn. split; cbn; try done.
  - intros x e Hx. apply (entry_ok_frame s _ _ _ (stale x) _ (failing x)); [by apply Hen|done| |done|done].
    unfold terminal_of. cbn. intros t _. destruct (decide (t = table)) as [->|Hne]; [rewrite lookup_insert_eq, Ht; cbn; by rewrite Hte|].
    by rewrite lookup_insert_ne by done.
  - intros t. destruct (decide (t = table)) as [->|Hne]; [by rewrite lookup_insert_eq, put_same|].
    rewrite lookup_insert_ne by done. rewrite put_other by done. apply Hpo.
  - intros t q Hq. apply lookup_insert_Some in Hq as [[<- <-]|[Hne Hq]]; [rewrite Hc, Hte|]; by apply Hru.
  - intros c l Hl. destruct (Hlo c l Hl) as (H1 & H2 & H3). split_and!; [done..|]. intros Ha. destruct (H3 Ha) as (q & Hq & Hqc & Hqt).
    destruct (decide (loop_table l = table)) as [He|Hne]; [|exists q; by rewrite lookup_insert_ne by done].
    exists p'. rewrite He, lookup_insert_eq, Hc, Hte. rewrite He, Ht in Hq. by injection Hq as ->.
  - assert (Hold : forall t q, <[table := p']> (tablePolls s) !! t = Some q -> exists q0, tablePolls s !! t = Some q0 /\ controller q0 = controller q).
    { intros t q Hq. apply lookup_insert_Some in Hq as [[<- <-]|[_ Hq]]; [by exists p|by exists q]. }
    intros t t' q q' Hq Hq' Heq. destruct (Hold _ _ Hq) as (q0 & H0 & E0), (Hold _ _ Hq') as (q1 & H1 & E1). apply (Hdi t t' q0 q1); congruence.
Qed.

(** The loop of a poll ends with an error; its queries are still to be failed. *)
Lemma poll_dies_ok table p error (s : POOL) A dm ch so stale : pool_ok s A dm ch so stale none -> tablePolls s !! table = Some p ->
  pool_ok (with_loops (delete (controller p)) (with_polls <[table := Poll (refcount p) (controller p) (cursor p) (Some error)]> s))
    A dm ch so stale (fun x => table ∈ tables_of x).
Proof.
  intros [Hsu Hat Hca Hfe Hen Hpo Hru Hre Hlo Hab Hch Hdi] Ht. split; cbn; try done.
  - intros x e Hx. destruct (Hen x e Hx) as [H1 H2 H3 H4 H5 H6 H7 H8 H9 H10 H11]. split; try done; [intros _; exact (H3 (fun Hf => Hf))|].
    intros Hn t Htx. unfold terminal_of. cbn. rewrite lookup_insert_ne by (intros <-; done). intros Hte. exact (H9 (fun Hf => Hf) t Htx Hte).
  - intros t. destruct (decide (t = table)) as [->|Hne]; [rewrite lookup_insert_eq; specialize (Hpo table); by rewrite Ht in Hpo|].
    rewrite lookup_insert_ne by done. apply Hpo.
  - intros t q Hq. apply lookup_insert_Some in Hq as [[<- <-]|[Hne Hq]]; cbn; [by destruct (Hru table p Ht) as (H1 & H2 & H3 & H4)|].
    destruct (Hru t q Hq) as (H1 & H2 & H3 & H4). split_and!; [done..|]. intros Hte. destruct (H4 Hte) as (l & Hl & Hlt). exists l.
    rewrite lookup_delete_ne; [done|]. intros Heq. by apply Hne, (Hdi _ _ p q).
  - intros c l [Hc Hl]%lookup_delete_Some. destruct (Hlo c l Hl) as (H1 & H2 & H3). split_and!; [done..|]. intros Ha.
    destruct (H3 Ha) as (q & Hq & Hqc & Hqt). exists q. rewrite lookup_insert_ne; [done|]. intros Heq. rewrite <- Heq, Ht in Hq. congruence.
  - assert (Hold : forall t q, <[table := Poll (refcount p) (controller p) (cursor p) (Some error)]> (tablePolls s) !! t = Some q ->
      exists q0, tablePolls s !! t = Some q0 /\ controller q0 = controller q).
    { intros t q Hq. apply lookup_insert_Some in Hq as [[<- <-]|[_ Hq]]; [by exists p|by exists q]. }
    intros t t' q q' Hq Hq' Heq. destruct (Hold _ _ Hq) as (q0 & H0 & E0), (Hold _ _ Hq') as (q1 & H1 & E1). apply (Hdi t t' q0 q1); congruence.
Qed.

Lemma set_loop_ok c l l' (s : POOL) A dm ch so stale failing : pool_ok s A dm ch so stale failing -> loops s !! c = Some l ->
  loop_table l' = loop_table l -> pool_ok (with_loops <[c := l']> s) A dm ch so stale failing.
Proof.
  intros [Hsu Hat Hca Hfe Hen Hpo Hru Hre Hlo Hab Hch Hdi] Hl Ht. split; cbn; try done.
  - intros x e Hx. by apply (entry_ok_frame s _ _ _ (stale x) _ (failing x)); [apply Hen|..].
  - intros t p Hp. destruct (Hru t p Hp) as (H1 & H2 & H3 & H4). split_and!; [done..|]. intros Hte. destruct (H4 Hte) as (k & Hk & Hkt).
    destruct (decide (c = controller p)) as [->|Hne]; [exists l'; rewrite lookup_insert_eq; split; [done|]; congruence|exists k; by rewrite lookup_insert_ne by done].
  - intros c' k Hk. apply lookup_insert_Some in Hk as [[<- <-]|[Hne Hk]]; [rewrite Ht|]; by apply Hlo.
Qed.

Lemma end_loop_ok c (s : POOL) A dm ch so stale failing : pool_ok s A dm ch so stale failing -> c ∈ aborted s ->
  pool_ok (with_loops (delete c) s) A dm ch so stale failing.
Proof.
  intros [Hsu Hat Hca Hfe Hen Hpo Hru Hre Hlo Hab Hch Hdi] Hc. split; cbn; try done.
  - intros x e Hx. by apply (entry_ok_frame s _ _ _ (stale x) _ (failing x)); [apply Hen|..].
  - intros t p Hp. destruct (Hru t p Hp) as (H1 & H2 & H3 & H4). split_and!; [done..|]. intros Hte. destruct (H4 Hte) as (k & Hk & Hkt).
    exists k. by rewrite lookup_delete_ne by (intros ->; done).
  - intros c' k [Hne Hk]%lookup_delete_Some. by apply Hlo.
Qed.

Lemma next_turn_ok c l cur n pending (s : POOL) A dm ch so stale failing : pool_ok s A dm ch so stale failing -> loops s !! c = Some l ->
  pool_ok (next_turn c l cur n pending s) A dm ch so stale failing.
Proof. intros Hok Hl. unfold next_turn. case_bool_decide; [by apply end_loop_ok|by apply (set_loop_ok _ l)]. Qed.

(** A loop that has no poll, or is not its poll's, is aborted. *)
Lemma loop_poll c l (s : POOL) A dm ch so stale failing : pool_ok s A dm ch so stale failing -> loops s !! c = Some l ->
  c ∈ aborted s \/ exists p, tablePolls s !! loop_table l = Some p /\ controller p = c /\ terminalError p = None.
Proof. intros Hok Hl. destruct (decide (c ∈ aborted s)); [by left|right]. by apply (ok_loops _ _ _ _ _ _ _ Hok). Qed.

(** A change of a table: the queries that read it are stale. *)
Lemma change_ok table (s : POOL) A dm ch so : pool_ok s A dm ch so none none ->
  pool_ok s A dm (put table (next_id s) ch) so (fun x => table ∈ tables_of x) none.
Proof.
  intros [Hsu Hat Hca Hfe Hen Hpo Hru Hre Hlo Hab Hch Hdi]. split; try done.
  - intros x e Hx. destruct (Hen x e Hx) as [H1 H2 H3 H4 H5 H6 H7 H8 H9 H10 H11]. split; try done.
    + intros Hn Hs t Ht. rewrite put_other by (intros ->; done). exact (H10 (fun Hf => Hf) Hs t Ht).
    + intros Hn c t Hc Ht. rewrite put_other by (intros ->; done). exact (H11 (fun Hf => Hf) c t Hc Ht).
  - intros t. destruct (decide (t = table)) as [->|Hne]; [rewrite put_same; lia|by rewrite put_other].
Qed.

Lemma wait_ends_ok c (s : POOL) A dm ch so : pool_ok s A dm ch so none none -> pool_ok (wait_ends c s) A dm ch so none none.
Proof.
  intros Hok. unfold wait_ends. destruct (loops s !! c) as [l|] eqn:El; [|done].
  destruct (tablePolls s !! loop_table l) as [p|] eqn:Ep; [by apply next_turn_ok|].
  apply end_loop_ok; [done|]. destruct (loop_poll _ _ _ _ _ _ _ _ _ Hok El) as [|(p & Hp & _)]; [done|congruence].
Qed.

(** A settled poll: the cursor moves, what it reports is refetched, or the table dies. *)
Lemma poll_settles_ok c l r (s : POOL) A dm ch so : pool_ok s A dm ch so none none -> loops s !! c = Some l ->
  (forall e, r = inr e -> is_abort_error kind e = true -> c ∈ aborted s) ->
  pool_ok (poll_settles kind c r s) A dm
    (match tablePolls s !! loop_table l with
     | Some p => if negb (bool_decide (c ∈ aborted s)) && reports r p then put (loop_table l) (next_id s) ch else ch
     | None => ch
     end) so none none.
Proof.
  intros Hok El Hab. unfold poll_settles. rewrite El.
  case_bool_decide as Hc; [by destruct (tablePolls s !! loop_table l); apply end_loop_ok|].
  destruct (loop_poll _ _ _ _ _ _ _ _ _ Hok El) as [|(p & Hp & Hpc & Hpt)]; [done|]. rewrite Hp. cbn [negb andb].
  pose proof (ok_polls _ _ _ _ _ _ _ Hok (loop_table l)) as Hd. rewrite Hp in Hd. destruct Hd as [Hd1 Hd2].
  assert (Hset : forall p' ch' stale, controller p' = controller p -> terminalError p' = terminalError p -> refcount p' = refcount p ->
    pool_ok s A dm ch' so stale none -> pool_ok (with_polls <[loop_table l := p']> s) A dm ch' so stale none).
  { intros p' ch' stale H1 H2 H3 H. apply (pool_ok_demand _ _ (put (loop_table l) (refcount p') dm)).
    - apply (set_poll_ok _ p); [done..|lia].
    - intros t. destruct (decide (t = loop_table l)) as [->|Hne]; [rewrite put_same; congruence|by rewrite put_other]. }
  assert (Hreport : forall p', controller p' = controller p -> terminalError p' = terminalError p -> refcount p' = refcount p ->
    pool_ok (invalidate (loop_table l) (with_polls <[loop_table l := p']> s)) A dm (put (loop_table l) (next_id s) ch) so none none /\
    loops (invalidate (loop_table l) (with_polls <[loop_table l := p']> s)) !! c = Some l).
  { intros p' H1 H2 H3. destruct (invalidate_ok (loop_table l) (with_polls <[loop_table l := p']> s) A dm (put (loop_table l) (next_id s) ch) so
      (fun x => loop_table l ∈ tables_of x)) as [H4 [_ H5]]; [by apply Hset, change_ok|done|]. split; [done|]. by rewrite H5. }
  destruct r as [[some_events next_cursor]|error]; cbn [reports].
  - set (moved := some_events || negb (bool_decide (next_cursor = cursor p))).
    set (p' := if moved then Poll (refcount p) (controller p) next_cursor (terminalError p) else p).
    assert (Hp' : controller p' = controller p /\ terminalError p' = terminalError p /\ refcount p' = refcount p) by (unfold p'; by destruct moved).
    destruct Hp' as (H1 & H2 & H3). replace (moved && some_events) with some_events by (unfold moved; by destruct some_events, (bool_decide _)).
    destruct some_events; [destruct (Hreport p' H1 H2 H3) as [Hi Hl]|]; (case_match; [|]); apply (next_turn_ok _ l); try done; by apply Hset.
  - destruct (is_abort_error kind error) eqn:Ea; [by destruct Hc; apply (Hab error)|]. cbn [negb andb].
    destruct (has_code SchemaError (kind error) && negb (bool_decide (cursor p = []))) eqn:Er; cbn [negb andb orb].
    + destruct (Hreport (Poll (refcount p) (controller p) [] (terminalError p)) eq_refl eq_refl eq_refl) as [Hi Hl].
      by apply (set_loop_ok _ l).
    + case_match; [|by apply (set_loop_ok _ l)]. rewrite <- fail_loops, <- Hpc.
      apply (fail_ok (loop_table l) error _ A dm ch so none (fun x => loop_table l ∈ tables_of x)); [by apply poll_dies_ok|done].
Qed.

(** Another change to what the last reads were. *)
Lemma entry_ok_ghost (s : POOL) ch so so' stale failing signature entry : entry_ok s ch so stale failing signature entry ->
  so' signature = so signature -> entry_ok s ch so' stale failing signature entry.
Proof. intros [H1 H2 H3 H4 H5 H6 H7 H8 H9 H10 H11] Hs. by split; rewrite ?Hs. Qed.

(** The read in flight of an entry settles. *)
Lemma settle_ok c signature entry snap ok (s : POOL) A dm ch so so' : pool_ok s A dm ch so none none ->
  cache s !! signature = Some entry -> inFlight entry = Some c -> (forall x, x <> signature -> so' x = so x) ->
  entry_ok s ch so' False False signature (Entry snap ok (chainTables entry) None) ->
  pool_ok (with_cache <[signature := Entry snap ok (chainTables entry) None]> (with_reads (delete c) s)) A dm ch so' none none.
Proof.
  intros Hok Ee Ei Hso He'. pose proof (entry_flight _ _ _ _ _ _ _ (ok_entries _ _ _ _ _ _ _ Hok signature entry Ee) c Ei) as [Hr Hc].
  destruct Hok as [Hsu Hat Hca Hfe Hen Hpo Hru Hre Hlo Hab Hch Hdi]. split; cbn; try done.
  - intros x. rewrite lookup_insert_is_Some'. rewrite <- Hca. split; [|tauto]. intros [<-|?]; [|done]. by eexists.
  - intros x e Hx. apply lookup_insert_Some in Hx as [[<- <-]|[Hne Hx]].
    + by apply (entry_ok_frame s _ _ _ False _ False).
    + apply (entry_ok_frame s _ _ _ (none x) _ (none x)); [|cbn|done..].
      * apply (entry_ok_ghost _ _ so); [by apply Hen|]. by apply Hso, not_eq_sym.
      * intros c' Hr' Hc' Hi'. by rewrite lookup_delete_ne by (intros <-; congruence).
  - intros t p Hp. destruct (Hru t p Hp) as (H1 & H2 & H3 & H4). split_and!; [done..| |done]. rewrite lookup_delete_ne; [done|congruence].
  - intros c' x [Hne Hx]%lookup_delete_Some. destruct (Hre c' x Hx) as [H1 H2]. split; [done|]. intros Ha. destruct (H2 Ha) as (e & Hce & Hie).
    exists e. rewrite lookup_insert_ne; [done|]. intros <-. congruence.
  - intros c' l Hl. destruct (Hlo c' l Hl) as (H1 & H2 & H3). split_and!; [done| |done]. rewrite lookup_delete_ne; [done|congruence].
Qed.

Lemma read_settles_ok c signature r (s : POOL) A dm ch so : pool_ok s A dm ch so none none -> reads s !! c = Some signature ->
  pool_ok (read_settles c r s) A dm ch
    (match r with
     | inl data => if bool_decide (c ∈ aborted s) then so else put signature (c, Some data) so
     | inr _ => so
     end) none none.
Proof.
  intros Hok Hr. unfold read_settles. rewrite Hr. change (aborted (with_reads (delete c) s)) with (aborted s). case_bool_decide as Hc.
  - replace (match r with inl _ => so | inr _ => so end) with so by (by destruct r).
    destruct Hok as [Hsu Hat Hca Hfe Hen Hpo Hru Hre Hlo Hab Hch Hdi]. split; cbn; try done.
    + intros x e Hx. apply (entry_ok_frame s _ _ _ (none x) _ (none x)); [by apply Hen|cbn|done..].
      intros c' Hr' Hc' _. by rewrite lookup_delete_ne by (intros <-; done).
    + intros t p Hp. destruct (Hru t p Hp) as (H1 & H2 & H3 & H4). split_and!; [done..| |done]. rewrite lookup_delete_ne; [done|congruence].
    + intros c' x [_ Hx]%lookup_delete_Some. by apply Hre.
    + intros c' l Hl. destruct (Hlo c' l Hl) as (H1 & H2 & H3). split_and!; [done| |done]. rewrite lookup_delete_ne; [done|congruence].
  - destruct (proj2 (ok_reads _ _ _ _ _ _ _ Hok c signature Hr) Hc) as (live & Hl & Hi).
    change (cache (with_reads (delete c) s)) with (cache s). rewrite Hl, Hi, bool_decide_eq_true_2 by done. cbn [negb].
    pose proof (ok_entries _ _ _ _ _ _ _ Hok signature live Hl) as [H1 H2 H3 H4 H5 H6 H7 H8 H9 H10 H11].
    assert (Hlive : forall t, t ∈ tables_of signature -> ~ is_Some (terminal_of s t)).
    { intros t Ht Hd. pose proof (H9 (fun Hf => Hf) t Ht Hd) as Hs. destruct (H3 (fun Hf => Hf)) as [Hst _].
      rewrite Hi, Hs in Hst. by discriminate Hst. }
    destruct r as [data|error]; apply notify_ok.
    + apply (settle_ok c signature live _ _ s A dm ch so); [done..|intros x Hx; by apply put_other|]. split; cbn; rewrite ?put_same; try done.
      * intros _ t Ht Hd. by destruct (Hlive t Ht Hd).
      * intros _ _ t Ht. by apply (H11 (fun Hf => Hf)).
    + apply (settle_ok c signature live _ _ s A dm ch so); [done..|]. split; cbn; done.
Qed.

(** ** Subscribing *)

Lemma increment_ok table (s : POOL) A dm ch so stale failing : pool_ok s A dm ch so stale failing ->
  pool_ok (incrementTablePoll s table) A (put table (dm table + 1) dm) ch so stale failing.
Proof.
  intros Hok. pose proof (ok_polls _ _ _ _ _ _ _ Hok table) as Hd. unfold incrementTablePoll.
  destruct (tablePolls s !! table) as [[n c cur te]|] eqn:Et.
  - cbn in Hd. destruct Hd as [<- Hd]. by apply (set_poll_ok table (Poll n c cur te) (Poll (n + 1) c cur te)); [..|cbn; lia].
  - rewrite Hd. by apply start_poll_ok.
Qed.

Lemma stop_ok table (s : POOL) A dm ch so stale failing : pool_ok s A dm ch so stale failing -> 0 < dm table ->
  pool_ok (stopTablePoll s table) A (put table (dm table - 1) dm) ch so stale failing.
Proof.
  intros Hok Hp. pose proof (ok_polls _ _ _ _ _ _ _ Hok table) as Hd. unfold stopTablePoll.
  destruct (tablePolls s !! table) as [[n c cur te]|] eqn:Et; [|lia]. cbn in Hd. destruct Hd as [<- Hd].
  destruct (Z.eqb_spec (n - 1) 0) as [->|Hn].
  - by apply (drop_poll_ok table (Poll n c cur te)).
  - by apply (set_poll_ok table (Poll n c cur te) (Poll (n - 1) c cur te)); [..|cbn; lia].
Qed.

Lemma restart_ok table (s : POOL) A dm ch so stale failing : pool_ok s A dm ch so stale failing ->
  pool_ok (restartTerminalPoll table s).1 A dm ch so stale failing.
Proof.
  intros Hok. pose proof (ok_polls _ _ _ _ _ _ _ Hok table) as Hd. unfold restartTerminalPoll.
  destruct (tablePolls s !! table) as [[n c cur [e|]]|] eqn:Et; [|done..]. cbn in Hd. destruct Hd as [-> Hd].
  apply (pool_ok_demand _ _ (put table (dm table) (put table 0 dm))).
  - apply start_poll_ok; [|cbn; by rewrite lookup_delete_eq|done]. by apply (drop_poll_ok table (Poll (dm table) c cur (Some e))).
  - intros t. destruct (decide (t = table)) as [->|Hne]; [by rewrite put_same|by rewrite !put_other].
Qed.

Lemma occurrences_cons t table tables : occurrences t (table :: tables) = (if bool_decide (table = t) then 1 else 0) + occurrences t tables.
Proof. unfold occurrences. rewrite filter_cons. case_decide; [rewrite bool_decide_eq_true_2 by done|rewrite bool_decide_eq_false_2 by done]; cbn [length]; lia. Qed.

Lemma occurrences_nonneg t tables : 0 <= occurrences t tables.
Proof. unfold occurrences. lia. Qed.

Lemma increments_ok tables (s : POOL) A dm ch so stale failing : pool_ok s A dm ch so stale failing ->
  pool_ok (foldl incrementTablePoll s tables) A (fun t => occurrences t tables + dm t) ch so stale failing.
Proof.
  revert s dm. induction tables as [|table tables IH]; intros s dm Hok; [done|]. cbn [foldl].
  eapply pool_ok_demand; [by apply IH, increment_ok|]. intros t. cbn. rewrite occurrences_cons. case_bool_decide as Ht.
  - subst. rewrite put_same. lia.
  - rewrite put_other by congruence. lia.
Qed.

Lemma stops_ok tables (s : POOL) A dm ch so stale failing : pool_ok s A dm ch so stale failing -> (forall t, occurrences t tables <= dm t) ->
  pool_ok (foldl stopTablePoll s tables) A (fun t => dm t - occurrences t tables) ch so stale failing.
Proof.
  revert s dm. induction tables as [|table tables IH]; intros s dm Hok Hd; cbn [foldl].
  { apply (pool_ok_demand _ _ dm); [done|]. intros t. unfold occurrences. cbn. lia. }
  assert (Hcons : forall t, put table (dm table - 1) dm t = dm t - (occurrences t (table :: tables) - occurrences t tables)).
  { intros t. rewrite occurrences_cons. case_bool_decide as Ht; [subst; rewrite put_same; lia|rewrite put_other by congruence; lia]. }
  eapply pool_ok_demand; [apply IH; [apply stop_ok; [done|]|]|].
  - specialize (Hd table). rewrite occurrences_cons, bool_decide_eq_true_2 in Hd by done. pose proof (occurrences_nonneg table tables). lia.
  - intros t. rewrite Hcons. specialize (Hd t). lia.
  - intros t. cbn. rewrite Hcons. lia.
Qed.

Lemma increments_cache tables (s : POOL) : cache (foldl incrementTablePoll s tables) = cache s.
Proof.
  revert s. induction tables as [|table tables IH]; intros s; [done|]. cbn [foldl]. rewrite IH. unfold incrementTablePoll, startTablePoll.
  by destruct (tablePolls s !! table) as [[]|].
Qed.

Lemma demand_insert n signature A t : A !! n = None ->
  demand (<[n := signature]> A) t = occurrences t (tables_of signature) + demand A t.
Proof. intros Hn. unfold demand. rewrite map_fold_insert_L; [done| |done]. intros. lia. Qed.

Lemma demand_delete n signature A t : A !! n = Some signature ->
  demand (delete n A) t = demand A t - occurrences t (tables_of signature).
Proof.
  intros Hn. rewrite <- (insert_delete_id A n signature Hn) at 2. rewrite demand_insert by apply lookup_delete_eq. lia.
Qed.

Lemma demand_nonneg A t : 0 <= demand A t.
Proof. unfold demand. apply (map_fold_weak_ind (fun r _ => 0 <= r)); [lia|]. intros n x m r _ Hr. pose proof (occurrences_nonneg t (tables_of x)). lia. Qed.

(** The new subscription, before its tables are polled. *)
Lemma subscribe_ok signature fetcher notify (s : POOL) A dm ch so : pool_ok s A dm ch so none none -> A !! notify = None ->
  pool_ok (with_subscribers <[signature := {[notify]} ∪ default ∅ (subscribersBySignature s !! signature)]>
            (with_fetchers <[signature := fetcher]>
              match cache s !! signature with
              | Some _ => s
              | None => with_cache <[signature := Entry LOADING_SNAPSHOT false (list_to_set (tables_of signature)) None]> s
              end))
    (<[notify := signature]> A) dm ch so none (fun x => x = signature /\ cache s !! signature = None).
Proof.
  intros Hok Hn. destruct Hok as [Hsu Hat Hca Hfe Hen Hpo Hru Hre Hlo Hab Hch Hdi].
  set (cache' := match cache s !! signature with
                 | Some _ => cache s
                 | None => <[signature := Entry LOADING_SNAPSHOT false (list_to_set (tables_of signature)) None]> (cache s)
                 end).
  replace (with_subscribers _ _) with (Pool cache' (<[signature := {[notify]} ∪ default ∅ (subscribersBySignature s !! signature)]> (subscribersBySignature s))
    (<[signature := fetcher]> (signatureFetchers s)) (tablePolls s) (aborted s) (next_id s) (reads s) (loops s) (notices s))
    by (unfold cache'; by destruct (cache s !! signature)).
  assert (Hc1 : forall x e, cache' !! x = Some e -> cache s !! x = Some e \/
    x = signature /\ cache s !! signature = None /\ e = Entry LOADING_SNAPSHOT false (list_to_set (tables_of signature)) None).
  { intros x e. unfold cache'. destruct (cache s !! signature) eqn:Ee; [by left|]. intros [[<- <-]|[_ ?]]%lookup_insert_Some; [by right|by left]. }
  assert (Hc2 : forall x, is_Some (cache' !! x) <-> x = signature \/ is_Some (cache s !! x)).
  { intros x. unfold cache'. destruct (cache s !! signature) as [e0|] eqn:Ee.
    - split; [by right|]. intros [->|?]; [by eexists|done].
    - rewrite lookup_insert_is_Some'. split; intros [?|?]; auto. }
  split; cbn; try done.
  - intros x subs Hx. apply lookup_insert_Some in Hx as [[<- <-]|[Hne Hx]].
    + split; [set_solver|]. intros m. rewrite elem_of_union, elem_of_singleton. destruct (decide (m = notify)) as [->|Hm].
      { rewrite lookup_insert_eq. by split; [|left]. }
      rewrite lookup_insert_ne by done. destruct (subscribersBySignature s !! signature) as [subs|] eqn:Es; cbn [from_option Datatypes.id].
      * destruct (Hsu _ _ Es) as [_ He]. rewrite <- He. tauto.
      * split; [intros [?|?]; [done|set_solver]|]. intros Hm'. destruct (Hat m signature Hm'). congruence.
    + destruct (Hsu _ _ Hx) as [Hs He]. split; [done|]. intros m. rewrite He. destruct (decide (m = notify)) as [->|Hm]; [|by rewrite lookup_insert_ne].
      rewrite lookup_insert_eq, Hn. split; [done|]. by intros [= ->].
  - intros m x Hm. apply lookup_insert_is_Some'. apply lookup_insert_Some in Hm as [[<- <-]|[_ Hm]]; [by left|]. right. by apply (Hat m).
  - intros x. rewrite Hc2, lookup_insert_is_Some', Hca. split; intros [?|?]; auto.
  - intros x. rewrite !lookup_insert_is_Some', Hfe. done.
  - intros x e Hx. destruct (Hc1 x e Hx) as [Hx'|(-> & Hnone & ->)].
    + by apply (entry_ok_frame s _ _ _ (none x) _ (none x)); [apply Hen|..].
    + split; cbn; try done; intros Hf; by destruct Hf.
  - intros c x Hx. destruct (Hre c x Hx) as [H1 H2]. split; [done|]. intros Hc. destruct (H2 Hc) as (e & He & Hi). exists e.
    split; [|done]. unfold cache'. destruct (cache s !! signature) eqn:Ee; [done|]. rewrite lookup_insert_ne; [done|]. intros <-. congruence.
Qed.

Lemma attach_ok signature fetcher notify (s : POOL) A ch so : pool_ok s A (demand A) ch so none none -> A !! notify = None ->
  pool_ok (attach signature (tables_of signature) (list_to_set (tables_of signature)) fetcher notify s)
    (<[notify := signature]> A) (demand (<[notify := signature]> A)) ch so none none.
Proof.
  intros Hok Hn. apply (pool_ok_demand _ _ (fun t => occurrences t (tables_of signature) + demand A t)).
  2: { intros t. by rewrite demand_insert. }
  pose proof (subscribe_ok signature fetcher notify s A _ ch so Hok Hn) as H1. unfold attach.
  set (s1 := match cache s !! signature with
             | Some _ => s
             | None => with_cache <[signature := Entry LOADING_SNAPSHOT false (list_to_set (tables_of signature)) None]> s
             end) in *.
  replace (subscribersBySignature (with_fetchers <[signature := fetcher]> s1)) with (subscribersBySignature s)
    by (unfold s1; by destruct (cache s !! signature)).
  set (s2 := with_subscribers _ _) in *.
  assert (Hs2 : forall e, cache s !! signature = None -> cache s2 !! signature = Some e -> inFlight e = None).
  { intros e He. unfold s2, s1. rewrite He. cbn. rewrite lookup_insert_eq. by intros [= <-]. }
  pose proof (increments_ok (tables_of signature) s2 _ _ ch so _ _ H1) as H2. pose proof (increments_cache (tables_of signature) s2) as Hc.
  set (s3 := foldl incrementTablePoll s2 (tables_of signature)) in *. case_bool_decide as Hf.
  - eapply pool_ok_mono; [|apply (dispatch_ok signature s3 _ _ ch so none _ H2)|]; [done|by intros x [-> _]| |by intros x _; split; [intros [[] _]|]].
    intros e _. rewrite Hc. by apply Hs2.
  - eapply pool_ok_mono; [|exact H2|]; [done|]. intros x _. split; [done|]. by intros [_ Hx].
Qed.

(** The last subscription of a signature takes its entry with it. *)
Lemma unsubscribe_ok signature notify (s : POOL) A dm ch so : pool_ok s A dm ch so none none -> A !! notify = Some signature ->
  pool_ok match subscribersBySignature s !! signature with
          | None => s
          | Some liveSubs =>
            let rest := liveSubs ∖ {[notify]} in
            if bool_decide (rest = ∅)
            then let s := with_subscribers (delete signature) s in
                 let s := match cache s !! signature with
                          | Some entry => with_cache (delete signature) (abort (inFlight entry) s)
                          | None => s
                          end in
                 with_fetchers (delete signature) s
            else with_subscribers <[signature := rest]> s
          end (delete notify A) dm ch so none none.
Proof.
  intros Hok Hn. destruct (ok_attached _ _ _ _ _ _ _ Hok notify signature Hn) as [subs Hs]. rewrite Hs. cbv zeta.
  destruct (ok_subscribers _ _ _ _ _ _ _ Hok signature subs Hs) as [Hne Hsubs]. case_bool_decide as Hr.
  - assert (He : is_Some (cache s !! signature)) by (apply (ok_cached _ _ _ _ _ _ _ Hok); by eexists). destruct He as [entry Ee].
    change (cache (with_subscribers (delete signature) s)) with (cache s). rewrite Ee.
    destruct (abort_cut _ _ _ _ _ _ _ _ _ Hok Ee) as [Hold Habt Hrd Hot]. set (old := aborted (abort (inFlight entry) s)) in *.
    destruct Hok as [Hsu Hat Hca Hfe Hen Hpo Hru Hre Hlo Hab Hch Hdi].
    replace (with_fetchers _ _) with (Pool (delete signature (cache s)) (delete signature (subscribersBySignature s)) (delete signature (signatureFetchers s))
      (tablePolls s) old (next_id s) (reads s) (loops s) (notices s)) by (unfold old, abort; by destruct (inFlight entry)).
    split; cbn; try done.
    + intros x subs' [Hx Hxs]%lookup_delete_Some. destruct (Hsu _ _ Hxs) as [H1 H2]. split; [done|]. intros m. rewrite H2.
      rewrite lookup_delete_Some. split; [|tauto]. intros Hm. split; [|done]. intros <-. congruence.
    + intros m x [Hm Hx]%lookup_delete_Some. apply lookup_delete_is_Some. split; [|by apply (Hat m)]. intros <-.
      apply (not_elem_of_empty (C:=gset nat) m). rewrite <- Hr. apply elem_of_difference. split; [by apply Hsubs|]. set_solver.
    + intros x. rewrite !lookup_delete_is_Some, Hca. done.
    + intros x. rewrite !lookup_delete_is_Some, Hfe. done.
    + intros x e [Hx He]%lookup_delete_Some. apply (entry_ok_frame s _ _ _ (none x) _ (none x)); [by apply Hen|cbn|done..].
      intros c Hr' Hc' _. split; [done|]. by apply (Hot c x); [|apply not_eq_sym|].
    + intros t p Hp. destruct (Hru t p Hp) as (H1 & H2 & H3 & H4). split_and!; [done|by apply Hrd|done..].
    + intros c x Hx. destruct (Hre c x Hx) as [H1 H2]. split; [done|]. intros Hc. destruct H2 as (e & Hce & Hie); [intros Ho; apply Hc, Hold; by right|].
      exists e. rewrite lookup_delete_ne; [done|]. intros <-. apply Hc, Hold. left. congruence.
    + intros c l Hl. destruct (Hlo c l Hl) as (H1 & H2 & H3). split_and!; [done..|]. intros Hc. apply H3. intros Ho. apply Hc, Hold. by right.
  - destruct Hok as [Hsu Hat Hca Hfe Hen Hpo Hru Hre Hlo Hab Hch Hdi].
    assert (Hd : forall x, is_Some (<[signature := subs ∖ {[notify]}]> (subscribersBySignature s) !! x) <-> is_Some (subscribersBySignature s !! x)).
    { intros x. rewrite lookup_insert_is_Some'. split; [|by right]. intros [<-|?]; [by eexists|done]. }
    split; cbn; try done.
    + intros x subs' Hx. apply lookup_insert_Some in Hx as [[<- <-]|[Hx Hxs]].
      * split; [done|]. intros m. rewrite elem_of_difference, elem_of_singleton, Hsubs, lookup_delete_Some. split; intros [? ?]; split; auto.
      * destruct (Hsu _ _ Hxs) as [H1 H2]. split; [done|]. intros m. rewrite H2, lookup_delete_Some. split; [|tauto]. intros Hm. split; [|done]. intros <-. congruence.
    + intros m x [Hm Hx]%lookup_delete_Some. apply Hd. by apply (Hat m).
    + intros x. by rewrite Hd, Hca.
    + intros x. by rewrite Hd, Hfe.
    + intros x e He. by apply (entry_ok_frame s _ _ _ (none x) _ (none x)); [apply Hen|..].
Qed.

Lemma detach_ok signature notify (s : POOL) A ch so : pool_ok s A (demand A) ch so none none -> A !! notify = Some signature ->
  pool_ok (detach signature (tables_of signature) notify s) (delete notify A) (demand (delete notify A)) ch so none none.
Proof.
  intros Hok Hn. eapply pool_ok_demand; [unfold detach; apply stops_ok; [by apply unsubscribe_ok|]|].
  - intros t. pose proof (demand_delete _ _ _ t Hn). pose proof (demand_nonneg (delete notify A) t). lia.
  - intros t. by rewrite (demand_delete _ _ _ _ Hn).
Qed.

Lemma refetch_ok signature (s : POOL) A dm ch so : pool_ok s A dm ch so none none -> pool_ok (refetch signature s) A dm ch so none none.
Proof.
  intros Hok. unfold refetch. destruct (cache s !! signature) as [entry|]; [|done]. destruct (signatureFetchers s !! signature); [|done].
  match goal with |- context [foldl ?f (s, []) ?l] => set (step := f); generalize l as tables end. intros tables.
  assert (Hr : forall acc, pool_ok acc.1 A dm ch so none none -> pool_ok (foldl step acc tables).1 A dm ch so none none).
  { induction tables as [|table tables IH]; intros [s' revived] Hacc; [done|]. cbn [foldl]. apply IH. cbn.
    pose proof (restart_ok table s' A dm ch so none none Hacc) as H. by destruct (restartTerminalPoll table s'). }
  specialize (Hr (s, []) Hok). destruct (foldl step (s, []) tables) as [s' revived]. cbn [fst] in Hr.
  assert (Hd : pool_ok (dispatchFetch signature s') A dm ch so none none).
  { eapply pool_ok_mono; [|by apply (dispatch_ok signature s' A dm ch so none none)|]; [done|]. intros x _. split; [by intros [[] _]|done]. }
  assert (Hi : forall acc, pool_ok acc.1 A dm ch so none none ->
    pool_ok (foldl (fun acc table => invalidateForTable table (Some signature) acc) acc revived).1 A dm ch so none none).
  { induction revived as [|table revived IH]; intros [s1 d] Hacc; [done|]. cbn [foldl]. apply IH.
    destruct (invalidate_for_ok table (Some signature) s1 d A dm ch so none Hacc) as [H _].
    eapply pool_ok_mono; [|exact H|]; [done|]. intros x _. split; [by intros [[] _]|done]. }
  by apply Hi.
Qed.

Lemma pool_run_ok w : pool_run w -> pool_ok (the_pool w) (attached w) (demand (attached w)) (changed w) (source w) none none.
Proof.
  intros H. induction H as [|w w' Hrun IH Hs]; [split; cbn; try done; intros; by rewrite ?lookup_empty in *|].
  destruct Hs as [w signature fetcher notify Hn|w signature notify Hn|w signature|w c signature r Hr|w c l r Hl Hw Ha|w c l Hl Hw]; cbn.
  - by apply attach_ok.
  - by apply detach_ok.
  - by apply refetch_ok.
  - by apply read_settles_ok.
  - by apply poll_settles_ok.
  - by apply wait_ends_ok.
Qed.

(** A loop that is not aborted. *)
Definition runs (s : POOL) (table : jsstr) (c : nat) : Prop := exists l, loops s !! c = Some l /\ loop_table l = table /\ (c ∉ aborted s).

(** What a subscriber of a signature is shown. *)
Record shows (w : world) (signature : jsstr) (entry : ENTRY) : Prop := {
  (* one read at a time, while the snapshot says so *)
  one_read : forall c, inFlight entry = Some c <-> reads (the_pool w) !! c = Some signature /\ (c ∉ aborted (the_pool w));
  read_pending : is_Some (inFlight entry) <-> pending_status (snap_status_of (snapshot entry)) = true;
  (* never other data than the last successful read's *)
  last_data : snap_data (snapshot entry) = if hasSuccessfulData entry then (source w signature).2 else None;
  ok_data : snap_status_of (snapshot entry) = Ok -> is_Some (snap_data (snapshot entry));
  (* read after the last change reported of each of its collections *)
  data_fresh : snap_status_of (snapshot entry) = Ok -> forall t, t ∈ tables_of signature -> (changed w t <= (source w signature).1)%nat;
  read_fresh : forall c t, inFlight entry = Some c -> t ∈ tables_of signature -> (changed w t <= c)%nat;
  (* a dead collection is an error *)
  dead_table : forall t, t ∈ tables_of signature -> is_Some (terminal_of (the_pool w) t) ->
    snap_status_of (snapshot entry) = Failed /\ is_Some (snap_error (snapshot entry))
}.

Lemma pool_shows w signature entry : pool_run w -> cache (the_pool w) !! signature = Some entry -> shows w signature entry.
Proof.
  intros Hrun Hc. pose proof (pool_run_ok w Hrun) as Hok.
  destruct (ok_entries _ _ _ _ _ _ _ Hok signature entry Hc) as [H1 H2 H3 H4 H5 H6 H7 H8 H9 H10 H11]. unfold none in *. split; auto.
  - intros c. split; [apply H2|]. intros [Hr Ha]. destruct (proj2 (ok_reads _ _ _ _ _ _ _ Hok c signature Hr) Ha) as (e & He & Hi). congruence.
  - intros Hs. rewrite H5, (H7 Hs). by apply H6, H7.
  - intros t Ht Hd. split; [|apply H8]; by apply (H9 (fun Hf => Hf) t).
Qed.

(** C15: The pool of live queries, whatever its callers do and however its reads and polls
    end, except that a poll rejects with an [AbortError] only when the pool aborted it (one
    from elsewhere ends the loop unseen): it keeps exactly the entries of the signatures somebody subscribes to and the polls
    of the collections they read, counted, with one running loop each unless the collection
    is dead; a signature has one read in flight at most, and its snapshot shows the data of
    the last read that succeeded, never that of an older one; data shown as current was read
    after the last change its polls reported; and after the last unsubscription nothing is
    kept and everything still running is aborted. *)
Theorem pool_serves_fresh_reads w : pool_run w ->
  (forall signature, is_Some (cache (the_pool w) !! signature) <-> exists n, attached w !! n = Some signature) /\
  (forall table, match tablePolls (the_pool w) !! table with
                 | Some p => refcount p = demand (attached w) table /\ 0 < refcount p /\
                             (terminalError p = None <-> exists c, runs (the_pool w) table c)
                 | None => demand (attached w) table = 0 /\ ~ exists c, runs (the_pool w) table c
                 end) /\
  (forall table c c', runs (the_pool w) table c -> runs (the_pool w) table c' -> c = c') /\
  (forall signature entry, cache (the_pool w) !! signature = Some entry -> shows w signature entry) /\
  (attached w = ∅ -> cache (the_pool w) = ∅ /\ tablePolls (the_pool w) = ∅ /\
     forall c, is_Some (reads (the_pool w) !! c) \/ is_Some (loops (the_pool w) !! c) -> c ∈ aborted (the_pool w)).
Proof.
  intros Hrun. pose proof (pool_run_ok w Hrun) as Hok. set (s := the_pool w) in *.
  assert (Hlive : forall table c, runs s table c -> exists p, tablePolls s !! table = Some p /\ controller p = c /\ terminalError p = None).
  { intros table c (l & Hl & <- & Ha). by apply (ok_loops _ _ _ _ _ _ _ Hok). }
  assert (Hcache : forall x, is_Some (cache s !! x) <-> exists n, attached w !! n = Some x).
  { intros x. rewrite (ok_cached _ _ _ _ _ _ _ Hok). split; [|by intros [n Hn]; apply (ok_attached _ _ _ _ _ _ _ Hok n)].
    intros [subs Hs]. destruct (ok_subscribers _ _ _ _ _ _ _ Hok x subs Hs) as [Hne He]. apply set_choose_L in Hne as [n Hn]. exists n. by apply He. }
  split_and!; [done| | |by intros; apply pool_shows|].
  - intros table. pose proof (ok_polls _ _ _ _ _ _ _ Hok table) as Hd. destruct (tablePolls s !! table) as [p|] eqn:Ep.
    + destruct Hd as [Hd1 Hd2]. split_and!; [done|lia|]. destruct (ok_running _ _ _ _ _ _ _ Hok table p Ep) as (_ & Ha & _ & Hl). split.
      * intros Ht. destruct (Hl Ht) as (l & Hll & Hlt). by exists (controller p), l.
      * intros [c Hc]. destruct (Hlive table c Hc) as (q & Hq & _ & Ht). congruence.
    + split; [done|]. intros [c Hc]. destruct (Hlive table c Hc) as (q & Hq & _). congruence.
  - intros table c c' Hc Hc'. destruct (Hlive _ _ Hc) as (p & Hp & <- & _), (Hlive _ _ Hc') as (p' & Hp' & <- & _). congruence.
  - intros He. rewrite He in *. assert (Hp : tablePolls s = ∅).
    { apply map_eq. intros t. rewrite lookup_empty. pose proof (ok_polls _ _ _ _ _ _ _ Hok t) as Hd. destruct (tablePolls s !! t); [|done].
      destruct Hd as [_ Hd]. unfold demand in Hd. by rewrite map_fold_empty in Hd. }
    assert (Hc : cache s = ∅).
    { apply map_eq. intros x. rewrite lookup_empty. destruct (cache s !! x) eqn:Ex; [|done].
      destruct (proj1 (Hcache x) ltac:(by eexists)) as [n Hn]. by rewrite lookup_empty in Hn. }
    split_and!; [done..|]. intros c Hr. destruct (decide (c ∈ aborted s)) as [|Ha]; [done|]. exfalso. destruct Hr as [[x Hx]|[l Hl]].
    + destruct (proj2 (ok_reads _ _ _ _ _ _ _ Hok c x Hx) Ha) as (e & He' & _). by rewrite Hc in He'.
    + destruct (proj2 (proj2 (ok_loops _ _ _ _ _ _ _ Hok c l Hl)) Ha) as (p & Hp' & _). by rewrite Hp in Hp'.
Qed.
End runs.

(** ** A run: the poll reports a change while the first read is in flight *)

Module one_query.
Definition q : jsstr := js "todos|open".
Definition tables (_ : jsstr) : list jsstr := [js "todos"].
Definition net_error (_ : nat) : js_error := new_error NetworkError.

Definition w1 : world (D:=nat) (E:=nat) :=
  World (attach q (tables q) (list_to_set (tables q)) 9 1 no_pool) (<[1%nat := q]> ∅) (fun _ => 0%nat) (fun _ => (0%nat, None)).
Definition w2 : world (D:=nat) (E:=nat) := after_poll net_error 0 (Loop (js "todos") [] 0 false false) (inl (true, js "c1")) w1.
Definition w3 : world (D:=nat) (E:=nat) := after_read 1 q (inl 5%nat) w2.
Definition w4 : world (D:=nat) (E:=nat) := after_read 2 q (inl 7%nat) w3.

(** The data of the aborted read is dropped; the second read's is shown. *)
Example shown : getSnapshot q (the_pool w3) = Snap Loading None None /\ getSnapshot q (the_pool w4) = Snap Ok (Some 7%nat) None.
Proof. split; by vm_compute. Qed.

Lemma w4_reached : pool_run net_error tables w4.
Proof.
  unfold w4. eapply run_step; [|apply step_read; by vm_compute].
  unfold w3. eapply run_step; [|apply step_read; by vm_compute].
  unfold w2. eapply run_step; [|apply step_poll; [by vm_compute|done|by intros e [=]]].
  eapply run_step; [apply run_start|by apply (step_attach net_error tables start)].
Qed.
End one_query.

Lemma pool_serves_fresh_reads_witness :
  pool_run one_query.net_error one_query.tables one_query.w4 /\
  runs (the_pool one_query.w4) (js "todos") 0 /\ (forall c, runs (the_pool one_query.w4) (js "todos") c -> c = 0%nat).
Proof.
  assert (Hr : runs (the_pool one_query.w4) (js "todos") 0) by (eexists; split_and!; by vm_compute).
  split_and!; [exact one_query.w4_reached|exact Hr|]. intros c Hc.
  exact (proj1 (proj2 (proj2 (pool_serves_fresh_reads _ _ _ one_query.w4_reached))) (js "todos") c 0%nat Hc Hr).
Defined.

(** A fetch that rejects with an [AbortError] of its own, the pool's signal not aborted,
    ends the loop of a collection that is not dead: no loop runs for it any more, and
    [refetch], which restarts dead collections only, leaves it so. *)
Definition after_foreign_abort : SubscriptionPool (D:=nat) (E:=nat) :=
  refetch one_query.q (poll_settles (fun _ => AbortError) 0 (inr 3%nat) (the_pool one_query.w1)).

Lemma foreign_abort_freezes :
  (0%nat ∉ aborted (the_pool one_query.w1)) /\ loops after_foreign_abort = ∅ /\
  tablePolls after_foreign_abort !! js "todos" = Some (Poll 1 0 [] None).
Proof. split_and!; by vm_compute. Qed.
