(* ===== verification/UseQuery.v ===== *)
(** * What a [useQuery] callback is known by (client/src/react/use-query.ts, stable-key.ts)

    The hook runs its callback once against a recorder and names the read by the chain of
    calls it saw, the declared dependencies and the live flag; the pool of Pool.v shares one
    entry between the callbacks of one name.  A callback is given here by the calls it makes
    before its first [await]; rendering, refs and effects are React's and left out. *)
From S2P Require Import Prelude JsText JsValue Errors Sort.

(** ** [stableKey] *)

Section stable_key.
(** [JSON.stringify] of a primitive value or a string; [None] is [undefined]. *)
Context (json_text : jsval -> option jsstr).

Definition entry_lt {A} (a b : jsstr * A) : bool := str_ltb a.1 b.1.

(** [String(v)] of what a template literal interpolates; [join] leaves [undefined] out. *)
Definition interpolated (o : option jsstr) : jsstr := default (js "undefined") o.
Definition joined (o : option jsstr) : jsstr := default [] o.

Fixpoint stableKey (value : jsval) : option jsstr :=
  match value with
  | JArr l => Some (js "[" ++ join_with (js ",") (map (fun v => joined (stableKey v)) l) ++ js "]")
  | JObj o =>
    let entries := sort_by entry_lt (map (fun kv => (kv.1, stableKey kv.2)) o) in
    Some (js "{" ++ join_with (js ",") (map (fun kv => interpolated (json_text (JStr kv.1)) ++ js ":" ++ interpolated kv.2) entries) ++ js "}")
  | v => json_text v
  end.

(** ** The recorder *)

Inductive modifier := MWhere | MOrder | MLimit.
Inductive terminal := TFirst | TAll | TCount | TGet.

Definition modifier_name (m : modifier) : jsstr := match m with MWhere => js "where" | MOrder => js "order" | MLimit => js "limit" end.
Definition terminal_name (t : terminal) : jsstr :=
  match t with TFirst => js "first" | TAll => js "all" | TCount => js "count" | TGet => js "get" end.

(** One [client.collection(name)] and the calls on it, with their arguments. *)
Record query_chain := Chain {
  on_collection : jsstr;
  modifiers : list (modifier * jsval);
  last_call : option (terminal * jsval)
}.

(** What the callback does up to its first [await]: build reads, return [useQuery.skip], or
    call a write method or [healthz]. *)
Inductive callback := Reads (chains : list query_chain) | Skips | Writes (chains : list query_chain).

Record RecorderState := Recorded { collectionsRead : list jsstr; chain : list jsstr }.

(** The calls of one chain, arguments dropped. *)
Definition chain_calls (q : query_chain) : list jsstr :=
  (js "collection:" ++ on_collection q) :: (modifier_name <$> (modifiers q).*1)
  ++ match last_call q with Some (t, _) => [terminal_name t] | None => [] end.

(** A [Set] keeps the first of equal names. *)
Definition add_name (names : list jsstr) (name : jsstr) : list jsstr := if decide (name ∈ names) then names else names ++ [name].

Definition record_chain (state : RecorderState) (q : query_chain) : RecorderState :=
  Recorded (add_name (collectionsRead state) (on_collection q)) (chain state ++ chain_calls q).

Definition recorded (chains : list query_chain) : RecorderState := foldl record_chain (Recorded [] []) chains.

Inductive DiscoveryResult := DiscoveryOk (collections : list jsstr) (chainShape : jsstr) | DiscoverySkip | DiscoveryError (e : js_error).

Definition discover (c : callback) : DiscoveryResult :=
  match c with
  | Reads chains =>
    let state := recorded chains in
    DiscoveryOk (sort_by str_ltb (collectionsRead state)) (joined (stableKey (JArr (JStr <$> chain state))))
  | Skips => DiscoverySkip
  | Writes _ => DiscoveryError (new_error UnexpectedWriteInQuery)
  end.

Definition signatureBase (c : callback) (deps : list jsval) (live : bool) : jsstr :=
  let other kind := js "__non_ok__" ++ js kind ++ js "__" ++ joined (stableKey (JArr [JArr deps])) ++ js "__" ++ js (if live then "true" else "false") in
  match discover c with
  | DiscoveryOk _ chainShape => joined (stableKey (JArr [JStr chainShape; JArr deps; JBool live]))
  | DiscoverySkip => other "skip"%string
  | DiscoveryError _ => other "error"%string
  end.

(** What the hook hands to [attach]: the collections to poll. *)
Definition polled_collections (c : callback) (live : bool) : list jsstr :=
  match discover c with DiscoveryOk collections _ => if live then collections else [] | _ => [] end.

(** ** Lemmas *)

Lemma entry_order {A} (o : list (jsstr * A)) : NoDup o.*1 -> strict_on entry_lt o /\ NoDup o.
Proof.
  intros Hn. split; [|by apply NoDup_fmap_1 in Hn]. split.
  - intros x y z _ _ _. apply str_ltb_trans.
  - intros [k v] [k' v'] Hx Hy. destruct (str_ltb_total k k') as [?|[->|?]]; [by left| |by right; right]. right. left.
    apply list_elem_of_lookup in Hx as [i Hi], Hy as [j Hj]. assert (i = j) as ->; [|congruence].
    eapply NoDup_lookup; [exact Hn|by rewrite list_lookup_fmap, Hi|by rewrite list_lookup_fmap, Hj].
Qed.

(** The entries of an object are read in one order, however it was built. *)
Lemma sorted_entries {A} (o o' : list (jsstr * A)) : NoDup o.*1 -> o ≡ₚ o' -> sort_by entry_lt o = sort_by entry_lt o'.
Proof.
  intros Hn Hp. assert (Hn' : NoDup o'.*1) by (by rewrite <- Hp).
  destruct (entry_order o Hn) as [Hs Hd], (entry_order o' Hn') as [Hs' Hd'].
  apply sorted_by_unique with (lt := entry_lt); [|by apply sort_by_sorted..|by rewrite !sort_by_perm].
  intros x y _ _ Hxy Hyx. unfold entry_lt in *. apply str_ltb_asym in Hxy. congruence.
Qed.

Lemma stableKey_ignores_order o o' : NoDup o.*1 -> o ≡ₚ o' -> stableKey (JObj o) = stableKey (JObj o').
Proof.
  intros Hn Hp. cbn [stableKey]. cbv zeta. rewrite (sorted_entries _ (map (fun kv => (kv.1, stableKey kv.2)) o')); [done| |by rewrite Hp].
  replace (map (fun kv => (kv.1, stableKey kv.2)) o).*1 with o.*1; [done|]. clear. induction o as [|[k v] o IH]; [done|].
  cbn [map]. rewrite !fmap_cons. by f_equal.
Qed.

(** An absent dependency and [undefined] are one. *)
Lemma undefined_dependency_lost : json_text JUndef = None -> stableKey (JArr [JUndef]) = stableKey (JArr []).
Proof. intros H. cbn [stableKey map]. by rewrite H. Qed.

Definition same_calls (q q' : query_chain) : Prop :=
  on_collection q = on_collection q' /\ (modifiers q).*1 = (modifiers q').*1 /\ fst <$> last_call q = fst <$> last_call q'.

Lemma chain_calls_names q q' : same_calls q q' -> chain_calls q = chain_calls q'.
Proof.
  intros (Hc & Hm & Hl). unfold chain_calls. rewrite Hc, Hm. destruct (last_call q) as [[t a]|], (last_call q') as [[t' a']|]; cbn in Hl; by simplify_eq.
Qed.

(** Callbacks whose calls differ in arguments only have one signature and poll the same
    collections, whatever is declared: the arguments count only as far as they are listed. *)
Lemma arguments_are_not_recorded qs qs' deps live : Forall2 same_calls qs qs' ->
  signatureBase (Reads qs) deps live = signatureBase (Reads qs') deps live /\
  polled_collections (Reads qs) live = polled_collections (Reads qs') live.
Proof.
  intros H. enough (E : recorded qs = recorded qs') by (unfold signatureBase, polled_collections, discover; by rewrite E).
  unfold recorded. generalize (Recorded [] []). induction H as [|q q' qs qs' Hq _ IH]; intros s; [done|]. cbn [foldl].
  rewrite IH. f_equal. unfold record_chain. destruct Hq as (Hc & Hq). by rewrite Hc, (chain_calls_names q q') by done.
Qed.
End stable_key.

(** [get("a")] and [get("b")] without dependencies share an entry of the pool. *)
Example two_reads_one_entry json_text :
  let read id := Reads [Chain (js "notes") [] (Some (TGet, JStr (js id)))] in
  signatureBase json_text (read "a"%string) [] true = signatureBase json_text (read "b"%string) [] true.
Proof. reflexivity. Qed.
