(* ===== verification/Auth.v ===== *)
(** * Authentication (protocol/src/verifier.ts, server/src/auth)

    A verifier turns the headers of a request into an identity, a rejection or an error.
    The three presets, the verifier of the mode without authentication, and the rule that
    picks one.  Signature checking ([jose]) is the parameter [jwtVerify]; a verifier reads
    nothing but headers here, and its answer to one request is a value. *)
From Stdlib Require Import QArith.
From S2P Require Import Prelude JsText Utf8 JsValue Errors Json Storage Predicate DocId Satisfiable Http.
Local Open Scope result_scope.
Local Open Scope Z_scope.

(** ** Headers *)

(** The header list of a request: names in lower case, in order, with repetitions. *)
Abbreviation Headers := (list (jsstr * jsstr)).

(** [headers.get(name)]: the values of that name, joined. *)
Definition headers_get (name : jsstr) (h : Headers) : option jsstr :=
  match (base.filter (fun kv => kv.1 = name) h).*2 with
  | [] => None
  | values => Some (join_with (js ", ") values)
  end.

(** [headers.entries()]: one pair per name, values combined.  The platform sorts them by
    name, which a lookup cannot tell. *)
Definition entries (h : Headers) : Headers :=
  omap (fun name => pair name <$> headers_get name h) (remove_dups h.*1).

Fixpoint trim_front (s : jsstr) : jsstr :=
  match s with
  | u :: s' => if bool_decide (u ∈ [9; 10; 13; 32]%N) then trim_front s' else s
  | [] => []
  end.

(** White space around a value is stripped as it is stored. *)
Definition stored_value (s : jsstr) : jsstr := reverse (trim_front (reverse (trim_front s))).

(** [new Headers([...h, [name, value]])] appends. *)
Definition headers_append (h : Headers) (name value : jsstr) : Headers := h ++ [(name, stored_value value)].

(** ** The contract (protocol/src/verifier.ts) *)

(** [Claims] is the payload of a verified token. *)
Inductive identity := NoIdentity | SharedSecretIdentity | Claims (payload : list (jsstr * jsval)) | OtherIdentity.

Record VerifierResult := Verified { tenantPrefix : jsstr; who : identity }.

(** [inr None] rejects the request, [inl] is a throw. *)
Abbreviation Verifier := (Headers -> result (option VerifierResult)).

(** A tenant that is one path segment. *)
Definition is_tenant (s : jsstr) : bool := negb (bool_decide (s = [])) && negb (includes_unit slash s).

(** ** [sharedSecret] *)

Definition timingSafeEqual (a b : list N) : bool :=
  if negb (bool_decide (length a = length b)) then false
  else (foldl (fun diff xy => N.lor diff (N.lxor xy.1 xy.2)) 0 (zip a b) =? 0)%N.

Definition sharedSecret (secret tenant : jsstr) : result Verifier :=
  if bool_decide (secret = []) then throw InvalidConfig
  else if negb (is_tenant tenant) then throw InvalidConfig
  else
    let expected := utf8_encode (js "Bearer " ++ secret) in
    inr (fun h =>
      let actual := utf8_encode (default [] (headers_get (js "authorization") h)) in
      if negb (timingSafeEqual expected actual) then inr None
      else inr (Some (Verified tenant SharedSecretIdentity))).

(** ** [bearerJwt] *)

Inductive JwtAlgorithm := RS256 | ES256 | EdDSA.

(** A key-set URL, or the key set itself. *)
Inductive jwks_source := KeySetUrl (url : jsstr) | KeySet (keys : list jsval).

Record BearerJwtOptions := JwtOptions {
  jwks : jwks_source;
  issuer : jsstr;
  audience : jsstr;
  tenantClaim : option jsstr;
  fixedTenantPrefix : option jsstr;
  algorithms : option (list JwtAlgorithm);
  clockSkewMs : option Z;
  jwksCacheTtlMs : option Z
}.

Definition DEFAULT_ALGORITHMS : list JwtAlgorithm := [RS256; ES256; EdDSA].
Definition DEFAULT_CLOCK_SKEW_MS : Z := 60000.
Definition DEFAULT_JWKS_CACHE_TTL_MS : Z := 600000.
Definition DEFAULT_TENANT_CLAIM : jsstr := js "tenant".
Definition JWKS_KID_REFRESH_MIN_INTERVAL_MS : Z := 60000.

(** The key resolver and the checks handed to [jwtVerify]; the tolerance is in seconds. *)
Record JwtChecks := Checks {
  resolveKey : jwks_source;
  cacheMaxAge : Z;
  cooldownDuration : Z;
  expected_issuer : jsstr;
  expected_audience : jsstr;
  allowed_algorithms : list JwtAlgorithm;
  clockTolerance : Q
}.

(** What [jwtVerify] throws: its own errors, of which two mean that no key set was
    obtained, other errors, or something that is no error. *)
Inductive jose_thrown := JWKSInvalid | JWKSTimeout | OtherJoseError | PlainError | NoError.

Definition isJwksFetchFailure (e : jose_thrown) : bool :=
  match e with
  | NoError => false
  | JWKSInvalid | JWKSTimeout => true
  | OtherJoseError => false
  | PlainError => true
  end.

Section verifiers.
Context (valid_url : jsstr -> bool) (jwtVerify : jsstr -> JwtChecks -> jose_thrown + list (jsstr * jsval)).

(** The checks of the options, in order. *)
Definition check_jwt_options (opts : BearerJwtOptions) : result unit :=
  if bool_decide (issuer opts = []) then throw InvalidConfig
  else if bool_decide (audience opts = []) then throw InvalidConfig
  else if bool_decide (default DEFAULT_ALGORITHMS (algorithms opts) = []) then throw InvalidConfig
  else match fixedTenantPrefix opts with
       | None => inr tt
       | Some tenant => if bool_decide (is_Some (tenantClaim opts)) then throw InvalidConfig
                        else if negb (is_tenant tenant) then throw InvalidConfig
                        else inr tt
       end.

Definition jwt_checks (opts : BearerJwtOptions) : JwtChecks :=
  Checks (jwks opts) (default DEFAULT_JWKS_CACHE_TTL_MS (jwksCacheTtlMs opts)) JWKS_KID_REFRESH_MIN_INTERVAL_MS
    (issuer opts) (audience opts) (default DEFAULT_ALGORITHMS (algorithms opts))
    (inject_Z (default DEFAULT_CLOCK_SKEW_MS (clockSkewMs opts)) / 1000).

(** The tenant of a verified payload. *)
Definition tenant_of (opts : BearerJwtOptions) (payload : list (jsstr * jsval)) : option VerifierResult :=
  match fixedTenantPrefix opts with
  | Some tenant => Some (Verified tenant (Claims payload))
  | None => match js_get payload (default DEFAULT_TENANT_CLAIM (tenantClaim opts)) with
            | JStr tenant => if is_tenant tenant then Some (Verified tenant (Claims payload)) else None
            | _ => None
            end
  end.

Definition bearerJwt (opts : BearerJwtOptions) : result Verifier :=
  let? _ := check_jwt_options opts in
  if match jwks opts with KeySetUrl url => negb (valid_url url) | KeySet _ => false end then inl OtherError
  else inr (fun h =>
    let header := default [] (headers_get (js "authorization") h) in
    if negb (starts_with (js "Bearer ") header) then inr None
    else match jwtVerify (drop 7 header) (jwt_checks opts) with
         | inl e => if isJwksFetchFailure e then inl (new_error_cause NetworkError OtherError) else inr None
         | inr payload => inr (tenant_of opts payload)
         end).

(** ** [cloudflareAccess] *)

Record CloudflareAccessOptions := AccessOptions {
  teamDomain : jsstr;
  audienceTag : jsstr;
  access_tenantClaim : option jsstr;
  access_tenantPrefix : option jsstr;
  access_clockSkewMs : option Z;
  access_jwksCacheTtlMs : option Z
}.

Definition access_issuer (teamDomain : jsstr) : jsstr := js "https://" ++ teamDomain ++ js ".cloudflareaccess.com".

Definition cloudflareAccess (opts : CloudflareAccessOptions) : result Verifier :=
  if bool_decide (teamDomain opts = []) then throw InvalidConfig
  else if negb (hex_digits 64 (audienceTag opts)) then throw InvalidConfig
  else
    let issuer := access_issuer (teamDomain opts) in
    let? inner := bearerJwt (JwtOptions (KeySetUrl (issuer ++ js "/cdn-cgi/access/certs")) issuer (audienceTag opts)
               (access_tenantClaim opts) (access_tenantPrefix opts) None (access_clockSkewMs opts) (access_jwksCacheTtlMs opts)) in
    inr (fun h =>
      match headers_get (js "cf-access-jwt-assertion") h with
      | None => inr None
      | Some cfHeader => inner (headers_append (entries h) (js "authorization") (js "Bearer " ++ cfHeader))
      end).
End verifiers.

(** ** [resolveVerifier] *)

(** [auth] is a string the types restrict to two values. *)
Record AppAuth := MakeAppAuth { auth : jsstr; tenant : jsstr }.

Definition noAuthVerifier (tenantPrefix : jsstr) : Verifier := fun _ => inr (Some (Verified tenantPrefix NoIdentity)).

Definition resolveVerifier (factoryVerifier : option Verifier) (config : AppAuth) (readEnv : jsstr -> option jsstr) :
    result Verifier :=
  match factoryVerifier with
  | Some verifier => inr verifier
  | None =>
    if bool_decide (auth config = js "shared-secret") then
      match readEnv (js "SHARED_SECRET") with
      | None | Some [] => throw InvalidConfig
      | Some secret => sharedSecret secret (tenant config)
      end
    else if bool_decide (auth config = js "none") then inr (noAuthVerifier (tenant config))
    else throw InvalidConfig
  end.

(** ** Lemmas *)

Lemma lxor_zero x y : N.lxor x y = 0%N <-> x = y.
Proof. split; [apply N.lxor_eq|intros ->; apply N.lxor_nilpotent]. Qed.

Lemma diff_zero a b d : length a = length b ->
  foldl (fun diff xy => N.lor diff (N.lxor xy.1 xy.2)) d (zip a b) = 0%N <-> d = 0%N /\ a = b.
Proof.
  revert b d. induction a as [|x a IH]; intros [|y b] d Hl; try done; cbn [zip zip_with foldl]; [tauto|].
  injection Hl as Hl. rewrite IH by done. cbn [fst snd]. rewrite N.lor_eq_0_iff, lxor_zero. naive_solver.
Qed.

(** The constant-time comparison is equality. *)
Lemma timingSafeEqual_spec a b : timingSafeEqual a b = true <-> a = b.
Proof.
  unfold timingSafeEqual. case_bool_decide as Hl; cbn [negb].
  - rewrite N.eqb_eq, diff_zero by done. tauto.
  - split; [done|]. by intros ->.
Qed.

(** Header values are byte strings. *)
Definition byte_strings (h : Headers) : Prop := Forall (fun kv => Forall (fun u => (u < 256)%N) kv.2) h.

Lemma join_forall (P : N -> Prop) sep l : Forall P sep -> Forall (Forall P) l -> Forall P (join_with sep l).
Proof.
  intros Hs. induction 1 as [|s l Hx Hl IH]; [constructor|]. destruct l as [|s' l]; [done|].
  change (join_with sep (s :: s' :: l)) with (s ++ sep ++ join_with sep (s' :: l)). rewrite !Forall_app. auto.
Qed.

Lemma get_bytes name h v : byte_strings h -> headers_get name h = Some v -> Forall (fun u => (u < 256)%N) v.
Proof.
  intros Hh. unfold headers_get. intros H. assert (E : v = join_with (js ", ") (base.filter (fun kv => kv.1 = name) h).*2).
  { by destruct (base.filter _ h).*2; simplify_eq. } subst v. apply join_forall; [by repeat constructor|].
  apply Forall_fmap. unfold compose. apply Forall_forall. intros kv [_ Hin]%list_elem_of_filter. unfold byte_strings in Hh. rewrite Forall_forall in Hh. by apply Hh.
Qed.

Lemma bytes_well_formed s : Forall (fun u => (u < 256)%N) s -> code_units s /\ isWellFormed s = true.
Proof.
  intros Hs. split; [by eapply Forall_impl; [exact Hs|cbn; lia]|]. unfold isWellFormed. apply forallb_forall.
  induction Hs as [|u s Hu Hs IH]; [done|]. rewrite code_points_cons.
  2: { unfold is_surrogate, is_high, is_low. apply orb_false_iff. rewrite !andb_false_iff, !N.leb_gt. lia. }
  intros p [<-|Hp]; [|by apply IH]. unfold is_surrogate, is_high, is_low. apply negb_true_iff, orb_false_iff.
  rewrite !andb_false_iff, !N.leb_gt. lia.
Qed.

Lemma utf8_encode_inj a b : code_units a -> code_units b -> isWellFormed a = true -> isWellFormed b = true ->
  utf8_encode a = utf8_encode b -> a = b.
Proof.
  intros Ha Hb Wa Wb E. pose proof (proj2 (utf8_decode_spec (utf8_encode b) a Ha) (conj Wa E)) as Da.
  pose proof (proj2 (utf8_decode_spec (utf8_encode b) b Hb) (conj Wb eq_refl)) as Db. by simplify_eq.
Qed.

Lemma sharedSecret_ok secret tenant v : sharedSecret secret tenant = inr v -> is_tenant tenant = true.
Proof. unfold sharedSecret. repeat case_match; try done. intros _. by apply negb_false_iff. Qed.

Lemma bearer_well_formed secret : isWellFormed secret = true -> isWellFormed (js "Bearer " ++ secret) = true.
Proof.
  unfold isWellFormed. intros H. change (js "Bearer " ++ secret) with (66 :: 101 :: 97 :: 114 :: 101 :: 114 :: 32 :: secret)%N.
  by rewrite !code_points_cons by done.
Qed.

(** An identity of a token preset: the token of the header verified under the options. *)
Definition proven (jwtVerify : jsstr -> JwtChecks -> jose_thrown + list (jsstr * jsval)) (opts : BearerJwtOptions)
    (h : Headers) (r : VerifierResult) : Prop :=
  exists token payload, headers_get (js "authorization") h = Some (js "Bearer " ++ token) /\
    jwtVerify token (jwt_checks opts) = inr payload /\ who r = Claims payload /\
    is_tenant (tenantPrefix r) = true /\
    match fixedTenantPrefix opts with
    | Some tenant => tenantPrefix r = tenant
    | None => js_get payload (default DEFAULT_TENANT_CLAIM (tenantClaim opts)) = JStr (tenantPrefix r)
    end.

(** ** Theorems *)

Section theorems.
Context (valid_url : jsstr -> bool) (jwtVerify : jsstr -> JwtChecks -> jose_thrown + list (jsstr * jsval)).

Lemma tenant_of_spec opts payload r : check_jwt_options opts = inr tt -> tenant_of opts payload = Some r ->
  who r = Claims payload /\ is_tenant (tenantPrefix r) = true /\
  match fixedTenantPrefix opts with
  | Some tenant => tenantPrefix r = tenant
  | None => js_get payload (default DEFAULT_TENANT_CLAIM (tenantClaim opts)) = JStr (tenantPrefix r)
  end.
Proof.
  unfold check_jwt_options, tenant_of. intros Hc Ht. destruct (fixedTenantPrefix opts) as [t|].
  - injection Ht as <-. repeat split. repeat case_match; try done. by apply negb_false_iff.
  - destruct (js_get payload _) as [| | | |s| | |] eqn:E; try done. destruct (is_tenant s) eqn:Es; [|done]. by injection Ht as <-.
Qed.

(** What a token verifier answers, by the answer of [jwtVerify]. *)
Lemma bearerJwt_answers opts v h : bearerJwt valid_url jwtVerify opts = inr v ->
  match v h with
  | inr (Some r) => proven jwtVerify opts h r
  | inr None => True
  | inl e => has_code NetworkError e = true /\
      exists token thrown, headers_get (js "authorization") h = Some (js "Bearer " ++ token) /\
        jwtVerify token (jwt_checks opts) = inl thrown /\ isJwksFetchFailure thrown = true
  end.
Proof.
  unfold bearerJwt. destruct (check_jwt_options opts) as [|[]] eqn:Hc; [done|]. cbn [rbind].
  destruct (match jwks opts with KeySetUrl _ => _ | _ => _ end); [done|]. intros Hv. apply (inj inr) in Hv. subst v. cbv beta zeta.
  destruct (starts_with (js "Bearer ") (default [] (headers_get (js "authorization") h))) eqn:Es; cbn [negb]; [|done].
  apply starts_with_spec in Es as [token Et]. rewrite Et. change (drop 7 (js "Bearer " ++ token)) with token.
  assert (Hh : headers_get (js "authorization") h = Some (js "Bearer " ++ token)) by (by destruct (headers_get (js "authorization") h); cbn in Et; simplify_eq).
  destruct (jwtVerify token (jwt_checks opts)) as [thrown|payload] eqn:Ev.
  - destruct (isJwksFetchFailure thrown) eqn:Ef; [|done]. split; [done|]. by exists token, thrown.
  - destruct (tenant_of opts payload) as [r|] eqn:Er; [|done]. apply tenant_of_spec in Er as (? & ? & ?); [|done]. by exists token, payload.
Qed.

Lemma join_snoc sep s l x : join_with sep ((s :: l) ++ [x]) = join_with sep (s :: l) ++ sep ++ x.
Proof.
  revert s. induction l as [|s' l IH]; intros s; [done|].
  change (join_with sep ((s :: s' :: l) ++ [x])) with (s ++ sep ++ join_with sep ((s' :: l) ++ [x])).
  rewrite IH. change (join_with sep (s :: s' :: l)) with (s ++ sep ++ join_with sep (s' :: l)). by rewrite <- !app_assoc.
Qed.

Lemma get_append name value h : headers_get name (headers_append h name value) =
  Some match headers_get name h with Some v => v ++ js ", " ++ stored_value value | None => stored_value value end.
Proof.
  unfold headers_get, headers_append. rewrite filter_app, fmap_app. rewrite (filter_cons_True _ _ []) by done. cbn [fmap list_fmap snd].
  rewrite filter_nil. destruct (base.filter (fun kv : jsstr * jsstr => kv.1 = name) h).*2 as [|s l]; [done|].
  f_equal. by apply (join_snoc (js ", ") s l).
Qed.

Lemma get_entries name h : headers_get name (entries h) = headers_get name h.
Proof.
  unfold entries. assert (Hn : forall names, NoDup names ->
    headers_get name (omap (fun n => pair n <$> headers_get n h) names) = if decide (name ∈ names) then headers_get name h else None).
  { induction names as [|n names IH]; intros Hd; [done|]. apply NoDup_cons in Hd as [Hn Hd]. specialize (IH Hd). cbn [omap list_omap].
    destruct (headers_get n h) as [v|] eqn:Ev; cbn [fmap option_fmap option_map].
    - unfold headers_get at 1. destruct (decide (n = name)) as [->|Hne].
      + rewrite filter_cons_True by done. rewrite decide_True by left. unfold headers_get in IH at 1.
        rewrite decide_False in IH by done. cbn [fmap list_fmap snd]. destruct (base.filter _ _).*2; [|done]. by rewrite Ev.
      + rewrite filter_cons_False by done. unfold headers_get in IH at 1. rewrite IH.
        destruct (decide (name ∈ names)); [rewrite decide_True by by right|rewrite decide_False by set_solver]; done.
    - rewrite IH. destruct (decide (name ∈ names)) as [Hi|Hi]; [by rewrite decide_True by by right|].
      destruct (decide (name = n)) as [->|]; [rewrite decide_True by left|rewrite decide_False by set_solver]; done. }
  rewrite Hn by apply NoDup_remove_dups. destruct (decide (name ∈ remove_dups h.*1)) as [|Hi]; [done|].
  rewrite elem_of_remove_dups in Hi. unfold headers_get. destruct (base.filter _ h) as [|[k v] l] eqn:E; [done|].
  assert (Hk : (k, v) ∈ base.filter (fun kv => kv.1 = name) h) by (rewrite E; left). apply list_elem_of_filter in Hk as [Hk Hin].
  destruct Hi. apply list_elem_of_fmap. exists (k, v). cbn in *. by subst.
Qed.

Lemma stored_front u s : u ∉ [9; 10; 13; 32]%N -> exists t, stored_value (u :: s) = u :: t.
Proof.
  intros Hu. unfold stored_value. cbn [trim_front]. rewrite bool_decide_eq_false_2 by done. rewrite reverse_cons.
  assert (H : forall l, exists t, trim_front (l ++ [u]) = t ++ [u]).
  { induction l as [|x l [t IH]]; cbn [app trim_front]; [rewrite bool_decide_eq_false_2 by done; by exists []|].
    case_bool_decide; [by exists t|by exists (x :: l)]. }
  destruct (H (reverse s)) as [t ->]. rewrite reverse_app. by eexists.
Qed.

(** A request through Cloudflare Access that carries an [Authorization] header of its own is
    never admitted: the assertion is appended to that header, and no token holds a comma. *)
Lemma access_beside_authorization opts v h a :
  (forall token checks payload, jwtVerify token checks = inr payload -> includes_unit 44%N token = false) ->
  cloudflareAccess valid_url jwtVerify opts = inr v ->
  headers_get (js "authorization") h = Some a -> forall r, v h <> inr (Some r).
Proof.
  intros Hcompact. unfold cloudflareAccess. destruct (bool_decide _); [done|]. destruct (negb _); [done|]. cbv zeta.
  destruct (bearerJwt _ _ _) as [|inner] eqn:Ei; [done|]. cbn [rbind]. intros Hv Ha r. apply (inj inr) in Hv. subst v. cbv beta.
  destruct (headers_get (js "cf-access-jwt-assertion") h) as [cf|]; [|done]. intros Hr.
  pose proof (bearerJwt_answers _ _ (headers_append (entries h) (js "authorization") (js "Bearer " ++ cf)) Ei) as H.
  rewrite Hr in H. destruct H as (token & payload & Ht & Hp & _). rewrite get_append, get_entries, Ha in Ht.
  apply (inj Some) in Ht. apply Hcompact in Hp.
  assert (Hc : (44%N ∈ a ++ js ", " ++ stored_value (js "Bearer " ++ cf))) by (apply elem_of_app; right; left).
  rewrite Ht in Hc. apply elem_of_app in Hc as [Hc|Hc]; [by vm_compute in Hc; set_solver|].
  unfold includes_unit in Hp. assert (existsb (N.eqb 44) token = true) as Hx; [|by rewrite Hx in Hp].
  apply existsb_exists. exists 44%N. split; [by apply list_elem_of_In|done].
Qed.

(** C22: in the shared-secret mode the resolved verifier exists only for a configured secret and a one-segment
    tenant, and admits a request, as that tenant, exactly when its Authorization header is the bearer secret. *)
Theorem shared_secret_mode_admits_the_bearer config readEnv v h :
  auth config = js "shared-secret" -> resolveVerifier None config readEnv = inr v -> byte_strings h ->
  (forall secret, readEnv (js "SHARED_SECRET") = Some secret -> code_units secret /\ isWellFormed secret = true) ->
  exists secret, readEnv (js "SHARED_SECRET") = Some secret /\ secret <> [] /\ is_tenant (tenant config) = true /\
    v h = inr (if decide (headers_get (js "authorization") h = Some (js "Bearer " ++ secret))
               then Some (Verified (tenant config) SharedSecretIdentity) else None).
Proof.
  intros Hm Hv Hh Hs. unfold resolveVerifier in Hv. rewrite bool_decide_eq_true_2 in Hv by done.
  destruct (readEnv (js "SHARED_SECRET")) as [[|u s]|] eqn:Ee; try done. destruct (Hs _ eq_refl) as [Hu Hw].
  exists (u :: s). split; [done|]. split; [done|]. split; [by eapply sharedSecret_ok|].
  unfold sharedSecret in Hv. rewrite bool_decide_eq_false_2 in Hv by done. destruct (negb (is_tenant _)); [done|].
  apply (inj inr) in Hv. subst v. cbv beta zeta. apply bearer_well_formed in Hw.
  assert (Hb : code_units (js "Bearer " ++ u :: s)) by (apply Forall_app; split; [by repeat constructor|done]).
  assert (Hne : js "Bearer " ++ u :: s <> []) by done.
  revert Hw Hb Hne. generalize (js "Bearer " ++ u :: s). intros expected Hw Hb Hne.
  destruct (timingSafeEqual _ _) eqn:Et; cbn [negb].
  - apply timingSafeEqual_spec in Et. rewrite decide_True; [done|]. destruct (headers_get (js "authorization") h) as [a|] eqn:Ea.
    + f_equal. apply get_bytes, bytes_well_formed in Ea as [Ha Wa]; [|done]. symmetry. by apply utf8_encode_inj.
    + by apply (utf8_encode_inj _ []) in Et.
  - rewrite decide_False; [done|]. intros E. rewrite E in Et. by rewrite (proj2 (timingSafeEqual_spec _ _)) in Et.
Qed.
End theorems.

Lemma shared_secret_mode_admits_the_bearer_witness :
  exists v h, resolveVerifier None (MakeAppAuth (js "shared-secret") (js "acme")) (fun _ => Some (js "s3cret")) = inr v /\
    v h = inr (Some (Verified (js "acme") SharedSecretIdentity)) /\ v [] = inr None.
Proof.
  eexists _, [(js "accept", js "*/*"); (js "authorization", js "Bearer s3cret")]. split; [reflexivity|]. split.
  - destruct (shared_secret_mode_admits_the_bearer (MakeAppAuth (js "shared-secret") (js "acme")) (fun _ => Some (js "s3cret"))
      _ [(js "accept", js "*/*"); (js "authorization", js "Bearer s3cret")] eq_refl eq_refl) as (s & [= <-] & _ & _ & ->).
    + repeat constructor.
    + intros s [= <-]. split; [repeat constructor|by vm_compute].
    + by vm_compute.
  - by vm_compute.
Defined.
