(* ===== verification/Footprint.v ===== *)
(** * The keys a program touches

    [stays P p]: whatever the storage answers, every call of [p] is on a key, or lists a
    prefix, that satisfies [P].  One assumption on what is read: an object that decodes as a
    manifest names a snapshot under [P], as the compactor writes it.  The lemmas follow the
    programs of the library from the log reads to one bounded maintenance tick. *)
From S2P Require Import Prelude JsText JsValue Errors Json Storage Effects Lsn CurrentJson LogWalk LogTail Snapshot DocId Predicate Satisfiable.
From S2P Require Import IndexCodec Indexes Adoption Writer Capacity QueryPlanner IndexWalk Query Retention Compactor GcPending Gc Db Since Maintenance.
Local Open Scope Z_scope.

Section footprint.
Context (P : jsstr -> Prop).

(** A manifest that names a snapshot outside [P] is not one of ours. *)
Definition honest (g : StorageGetResult) : Prop := forall c s, decode_current (body g) = inr c -> snapshot c = Some s -> P s.

(** Every call is under [P], and what is returned satisfies [Q]. *)
Fixpoint keeps_to {A} (p : prog A) (Q : A -> Prop) : Prop :=
  match p with
  | Ret a => Q a
  | Throw _ => True
  | Get key k => P key /\ forall r, (forall g, r = inr (Some g) -> honest g) -> keeps_to (k r) Q
  | Put key _ _ k => P key /\ forall r, keeps_to (k r) Q
  | Delete key k => P key /\ forall r, keeps_to (k r) Q
  | List prefix _ _ k => P prefix /\ forall r, keeps_to (k r) Q
  end.

Definition stays {A} (p : prog A) : Prop := keeps_to p (fun _ => True).

Lemma keeps_mono {A} (p : prog A) (Q R : A -> Prop) : keeps_to p Q -> (forall a, Q a -> R a) -> keeps_to p R.
Proof.
  intros H HR. induction p as [a|e|key k IH|key b o k IH|key k IH|prefix a n k IH]; cbn in *; auto; destruct H as [Hk H]; split; auto.
Qed.

Lemma keeps_to_attempt {A B} (p : prog A) (f : result A -> prog B) (Q : A -> Prop) (R : B -> Prop) :
  keeps_to p Q -> (forall a, Q a -> keeps_to (f (inr a)) R) -> (forall e, keeps_to (f (inl e)) R) -> keeps_to (attempt p f) R.
Proof.
  intros H Ha He. induction p as [a|e|key k IH|key b o k IH|key k IH|prefix a n k IH]; cbn in *; auto; destruct H as [Hk H]; split; auto.
Qed.

Lemma keeps_to_bind {A B} (p : prog A) (f : A -> prog B) (Q : A -> Prop) (R : B -> Prop) :
  keeps_to p Q -> (forall a, Q a -> keeps_to (f a) R) -> keeps_to (bind p f) R.
Proof. intros H Hf. by apply (keeps_to_attempt p _ Q). Qed.

Lemma stays_attempt {A B} (p : prog A) (f : result A -> prog B) : stays p -> (forall r, stays (f r)) -> stays (attempt p f).
Proof. intros H Hf. by apply (keeps_to_attempt p _ (fun _ => True)); [|intros; apply Hf..]. Qed.

Lemma stays_bind {A B} (p : prog A) (f : A -> prog B) : stays p -> (forall a, stays (f a)) -> stays (bind p f).
Proof. intros H Hf. by apply (keeps_to_bind p _ (fun _ => True)); [|intros; apply Hf]. Qed.

Lemma stays_then {A B} (p : prog A) (f : A -> prog B) (Q : A -> Prop) : keeps_to p Q -> (forall a, Q a -> stays (f a)) -> stays (bind p f).
Proof. apply keeps_to_bind. Qed.

Lemma stays_of_result {A} (r : result A) : stays (of_result r).
Proof. by destruct r. Qed.

Lemma stays_check o : stays (check o).
Proof. by destruct o. Qed.

Lemma stays_get key : P key -> stays (storage_get key).
Proof. intros H. split; [done|]. intros r _. apply stays_of_result. Qed.

Lemma stays_put key b o : P key -> stays (storage_put key b o).
Proof. intros H. split; [done|]. intros r. apply stays_of_result. Qed.

Lemma stays_delete key : P key -> stays (storage_delete key).
Proof. intros H. split; [done|]. intros r. apply stays_of_result. Qed.

Lemma stays_list prefix a n : P prefix -> stays (storage_list prefix a n).
Proof. intros H. split; [done|]. intros r. apply stays_of_result. Qed.

Lemma stays_for_each {A B} (l : list A) (f : A -> prog B) : (forall x, x ∈ l -> stays (f x)) -> stays (for_each l f).
Proof.
  intros Hf. induction l as [|x l IH]; cbn; [done|]. apply stays_bind; [apply Hf; left|]. intros y.
  apply stays_bind; [apply IH; intros z Hz; apply Hf; by right|done].
Qed.

Lemma stays_promise_all {A B} (l : list A) (f : A -> prog B) : (forall x, x ∈ l -> stays (f x)) -> stays (promise_all l f).
Proof.
  intros Hf. unfold promise_all. apply stays_bind; [|intros; apply stays_of_result].
  induction l as [|x l IH]; cbn; [done|]. apply stays_attempt; [apply Hf; left|]. intros r.
  apply stays_bind; [apply IH; intros z Hz; apply Hf; by right|done].
Qed.

Lemma stays_or_throw {A} (o : option A) : stays (or_throw o).
Proof. apply stays_of_result. Qed.

Lemma stays_read_prop k v : stays (read_prop k v).
Proof. unfold read_prop. by destruct (prop k v). Qed.
End footprint.

Create HintDb footprint.
#[export] Hint Resolve stays_of_result stays_check stays_get stays_put stays_delete stays_list stays_or_throw stays_read_prop : footprint.

(** One step of a footprint proof: a bind, an arm, or a call the database knows. *)
Ltac stay_step :=
  match goal with
  | |- stays _ (Ret _) => exact I
  | |- stays _ (Throw _) => exact I
  | |- stays _ (bind _ _) => apply stays_bind; [|intros]
  | |- stays _ (attempt _ _) => apply stays_attempt; [|intros]
  | |- stays _ (catch _ _) => apply stays_attempt; [|intros]
  | |- stays _ (for_each _ _) => apply stays_for_each; intros
  | |- stays _ (promise_all _ _) => apply stays_promise_all; intros
  | |- stays _ (match ?x with _ => _ end) => destruct x
  end.

Ltac stay := repeat first [solve [eauto 3 with footprint] | progress (cbv zeta beta) | stay_step].

Section programs.
Context (P : jsstr -> Prop) (Hext : forall k t, P k -> P (k ++ t)) (p : jsstr) (Hp : P p).

Lemma under_app t : P (p ++ t).
Proof. by apply Hext. Qed.

Lemma under_slot seq : P (logObjectKey p seq).
Proof. by apply Hext. Qed.
Hint Resolve under_app under_slot Hext Hp : footprint.

(** ** Log and manifest reads *)

Lemma stays_readEntry sz seq : stays P (readLogEntryWithBytes sz (logObjectKey p seq)).
Proof. unfold readLogEntryWithBytes. stay. Qed.
Hint Resolve stays_readEntry : footprint.

Lemma stays_walk sz from to : stays P (walkLogRange sz p from to).
Proof.
  unfold walkLogRange. stay. unfold walkLogRangeWithBytes. stay. generalize (Z.to_nat (to - from)), 0. intros n.
  induction n as [|n IH]; intros start; cbn [walk_chunks]; stay.
Qed.

Lemma stays_walk_bytes sz from to : stays P (walkLogRangeWithBytes sz p from to).
Proof.
  unfold walkLogRangeWithBytes. stay. generalize (Z.to_nat (to - from)), 0. intros n.
  induction n as [|n IH]; intros start; cbn [walk_chunks]; stay.
Qed.
Hint Resolve stays_walk stays_walk_bytes : footprint.

Lemma stays_chunk hint cap tolerate : stays P (probeTailChunk p hint cap tolerate).
Proof.
  unfold probeTailChunk. generalize (Z.to_nat cap), (@nil LogEntry), true. intros n. revert hint.
  induction n as [|n IH]; intros hint es c; cbn [probe_loop]; stay.
Qed.
Hint Resolve stays_chunk : footprint.

Lemma stays_probe hint : stays P (probeTailFrom p hint).
Proof. unfold probeTailFrom, probeTailFrom_cap. stay. Qed.
Hint Resolve stays_probe : footprint.

Lemma stays_slot_exists seq : stays P (slot_exists p seq).
Proof. unfold slot_exists. stay. Qed.
Hint Resolve stays_slot_exists : footprint.

Lemma stays_gallop n lo step hi : stays P (gallop n p lo step hi).
Proof. revert lo step hi. induction n as [|n IH]; intros lo step hi; cbn [gallop]; stay. Qed.

Lemma stays_bisect n lo hi : stays P (bisect n p lo hi).
Proof. revert lo hi. induction n as [|n IH]; intros lo hi; cbn [bisect]; stay. Qed.
Hint Resolve stays_gallop stays_bisect : footprint.

Lemma stays_find_tail hint : stays P (findLogTail p hint).
Proof. unfold findLogTail. stay. Qed.
Hint Resolve stays_find_tail : footprint.

(** The manifest that was read is honest. *)
Definition names_under (o : option CurrentJsonRead) : Prop :=
  match o with Some read => forall s, snapshot (json read) = Some s -> P s | None => True end.

Lemma reads_manifest key : P key -> keeps_to P (readCurrentJson key) names_under.
Proof.
  intros Hk. unfold readCurrentJson. split; [done|]. intros r Hr. destruct r as [e|[g|]]; [done| |done]. cbn.
  destruct (decode_current (body g)) as [e|c] eqn:Ec; [done|]. cbn. intros s Hs. by apply (Hr g eq_refl c).
Qed.

Lemma stays_manifest key : P key -> stays P (readCurrentJson key).
Proof. intros Hk. by eapply keeps_mono; [apply reads_manifest|]. Qed.
Hint Resolve stays_manifest : footprint.

Lemma stays_snapshot sha256 key coll : P key -> stays P (loadSnapshotAsMap sha256 key coll).
Proof. intros Hk. unfold loadSnapshotAsMap. stay. Qed.
Hint Resolve stays_snapshot : footprint.

Lemma stays_encode c : stays P (encodeJson c).
Proof. unfold encodeJson. stay. Qed.

Lemma stays_check_current c : stays P (check_current c).
Proof. unfold check_current. stay. Qed.
Hint Resolve stays_encode stays_check_current : footprint.

Lemma stays_create_manifest key c : P key -> stays P (createCurrentJson key c).
Proof. intros Hk. unfold createCurrentJson. stay. Qed.

Lemma stays_cas {X} key (f : CurrentJson -> result (CurrentJson * X)) : P key -> stays P (casUpdateCurrentJson key f).
Proof. intros Hk. unfold casUpdateCurrentJson. stay. Qed.
Hint Resolve stays_create_manifest stays_cas : footprint.

(** ** Queries *)

Section queries.
Context (byteLength : bytes -> Z) (sha256 : bytes -> list N) (json_octets : bytes -> list N) (mixed_lt : jsval -> jsval -> bool)
        (name : jsstr) (indexes : list IndexDefinition).
Let ctx := ReadContext p name indexes.

Lemma under_equality index segs : P (equality_prefix p index segs).
Proof. unfold equality_prefix. destruct segs; apply Hext, Hp. Qed.
Hint Resolve under_equality : footprint.

Lemma stays_walk_one k v : P k -> stays P (walkOne json_octets k v).
Proof. intros Hk. unfold walkOne. stay. Qed.
Hint Resolve stays_walk_one : footprint.

Lemma stays_in_walk n k vs ids : P k -> stays P (in_walk json_octets n k vs ids).
Proof. intros Hk. revert vs ids. induction n as [|n IH]; intros vs ids; cbn [in_walk]; stay. Qed.

Lemma stays_range_walk k r : P k -> stays P (range_walk json_octets k r).
Proof. intros Hk. unfold range_walk, encode_defined. stay. Qed.
Hint Resolve stays_in_walk stays_range_walk : footprint.

Lemma stays_walk_ids plan : stays P (walk_ids json_octets p plan).
Proof. unfold walk_ids. stay. Qed.
Hint Resolve stays_walk_ids : footprint.

Lemma stays_base head : (forall s, snapshot head = Some s -> P s) -> stays P (base_docs sha256 ctx head).
Proof. intros Hs. unfold base_docs. destruct (snapshot head) as [k|]; [|done]. by apply stays_snapshot, Hs. Qed.

Lemma stays_fold filt es docs : stays P (fold_docs ctx filt es docs).
Proof. unfold fold_docs. stay. Qed.

Lemma stays_match w docs : stays P (match_rows w docs).
Proof. unfold match_rows. stay. Qed.
Hint Resolve stays_base stays_fold stays_match : footprint.

Lemma stays_select w docs : stays P (select_rows w docs).
Proof. unfold select_rows. stay. Qed.
Hint Resolve stays_select : footprint.

Lemma stays_rows state : stays P (runReadRows byteLength sha256 json_octets mixed_lt ctx state).
Proof.
  unfold runReadRows. eapply stays_then; [by apply reads_manifest, Hext|]. intros [head|] Hh; [|done]. cbn in Hh.
  stay; unfold runIndexWalkPlan, full_scan; stay.
Qed.
End queries.
Hint Resolve stays_rows : footprint.

(** ** Commits *)

(** Every marker key of a body is below the collection's prefix. *)
Definition markers_under `{!IndexProjection} : Prop := forall body docId keys, index_keys p body docId = inr keys -> Forall P keys.

Section commit.
Context `{!IndexProjection} (Hidx : markers_under) (nfc : jsstr -> jsstr) (verify : bool) (gen session : jsstr) (now : Z).
Context (maintenance : CurrentJson -> Z -> Z -> prog unit) (Hmaint : forall c a b, stays P (maintenance c a b)).
Let key := p ++ js "/current.json".

Lemma stays_settle {A} (q : prog A) : stays P q -> stays P (settle q).
Proof. intros Hq. unfold settle. stay. Qed.
Hint Resolve stays_settle : footprint.

Lemma stays_occupant seq : stays P (readLogOccupant (logObjectKey p seq)).
Proof. unfold readLogOccupant. stay. Qed.
Hint Resolve stays_occupant : footprint.

Lemma stays_window from start : stays P (readFoldedInsertWindow p from start).
Proof.
  unfold readFoldedInsertWindow. stay. generalize (Z.to_nat (start - from)). intros n. revert from.
  induction n as [|n IH]; intros from; cbn [read_folded_chunks]; stay.
Qed.

Lemma stays_preimage coll d seq : stays P (readPreImage p coll d seq).
Proof.
  unfold readPreImage. generalize (Z.to_nat (seq - Z.max 0 (seq - Writer.PREIMAGE_SCAN_MAX_GETS))), (seq - 1). intros n.
  induction n as [|n IH]; intros s; cbn [pre_image_loop]; stay.
Qed.
Hint Resolve stays_window stays_preimage : footprint.

Lemma stays_marker k : P k -> stays P (put_marker k).
Proof. intros Hk. unfold put_marker. stay. Qed.

Lemma sent_sublist keys sent err : within_limit keys = (sent, err) -> sublist sent keys.
Proof.
  revert sent err. induction keys as [|k keys IH]; intros sent err; cbn [within_limit]; [by intros [= <- <-]|].
  destruct (assertKeyWithinLimit k); [intros [= <- <-]; apply sublist_nil_l|]. destruct (within_limit keys) as [s' e'].
  intros [= <- <-]. by apply sublist_skip, (IH s' e').
Qed.

Lemma stays_new_keys input : stays P (put_new_keys p input).
Proof.
  unfold put_new_keys. destruct (_ && _); [|done]. apply (stays_then _ _ _ (Forall P)).
  { destruct (index_keys p _ _) as [e|keys] eqn:E; [done|]. by apply (Hidx _ _ _ E). }
  intros keys Hk. rewrite Forall_forall in Hk. destruct (within_limit keys) as [sent [e|]] eqn:Ew; cbv beta iota zeta.
  - stay. apply stays_settle, stays_marker, Hk. eapply elem_of_sublist; [done|]. by apply (sent_sublist _ _ _ Ew).
  - stay. by apply stays_marker, Hk.
Qed.

Lemma stale_under input seq : keeps_to P (stale_keys p input seq) (Forall P).
Proof.
  unfold stale_keys. destruct (op input); [by constructor| |].
  - eapply keeps_to_bind; [apply stays_preimage|]. intros pre _. eapply (keeps_to_bind _ _ _ (Forall P)).
    { destruct (index_keys p pre _) as [e|keys] eqn:E; [done|]. by apply (Hidx _ _ _ E). }
    intros old Ho. eapply keeps_to_bind; [apply stays_of_result|]. intros new _. cbn. rewrite Forall_forall in Ho. apply Forall_forall. intros k [_ Hk]%list_elem_of_filter. by apply Ho.
  - eapply keeps_to_bind; [apply stays_preimage|]. intros pre _.
    destruct (index_keys p pre _) as [e|keys] eqn:E; [done|]. by apply (Hidx _ _ _ E).
Qed.

Lemma stays_cleanup input seq : stays P (cleanupStaleIndexKeysBestEffort p input seq).
Proof.
  unfold cleanupStaleIndexKeysBestEffort. destruct (negb _); [done|].
  apply (keeps_to_attempt _ _ _ (Forall P)); [apply stale_under| |done]. intros keys Hk. rewrite Forall_forall in Hk.
  apply stays_bind; [|done]. stay. by apply stays_settle, stays_delete, Hk.
Qed.
Hint Resolve stays_new_keys stays_cleanup : footprint.

Lemma stays_create_at input entry seq : stays P (create_at p input entry seq).
Proof. unfold create_at. stay. Qed.
Hint Resolve stays_create_at : footprint.

Lemma stays_create_loop n ts input window seq : stays P (create_loop session now n ts p input window seq).
Proof. revert window seq. induction n as [|n IH]; intros window seq; cbn [create_loop]; stay. Qed.

Lemma stays_floor seq d : stays P (assertCommitAboveDeleteFloor key p seq d).
Proof. unfold assertCommitAboveDeleteFloor, key. stay. Qed.

Lemma stays_target input current : stays P (find_target p input current).
Proof. unfold find_target. stay. Qed.
Hint Resolve stays_create_loop stays_floor stays_target : footprint.

Lemma stays_commit input : stays P (commit nfc key verify gen session now maintenance input).
Proof.
  unfold commit, singleAttemptCommit, provisionCurrentJson, key. rewrite log_prefix_manifest. stay.
  all: unfold commit_on; stay.
Qed.
End commit.

Lemma declared_markers json_octets defs : @markers_under (declared_indexes json_octets defs).
Proof.
  intros body docId keys. cbn. revert keys. induction defs as [|def defs IH]; intros keys; cbn [allIndexKeysFor]; [intros [= <-]; constructor|].
  destruct (index_keys_of json_octets p def body docId) as [e|ks] eqn:E; cbn [rbind]; [done|].
  destruct (allIndexKeysFor json_octets p defs body docId) as [e|rest]; cbn [rbind]; [done|].
  intros [= <-]. apply Forall_app. split; [|by apply IH].
  apply index_keys_of_spec in E as [->|(v & segs & _ & _ & -> & _)]; [constructor|]. apply Forall_singleton. unfold indexKeyPrefix. auto.
Qed.

(** ** The mutation verbs *)

Section verbs.
Context (byteLength : bytes -> Z) (sha256 : bytes -> list N) (json_octets : bytes -> list N) (mixed_lt : jsval -> jsval -> bool)
        (nfc : jsstr -> jsstr) (name : jsstr) (indexes : list IndexDefinition) (ceilings : FoldCeilings)
        (schema : option (jsval -> result bool)) (write : nat -> CommitInput -> prog CommitResult).
Context (Hwrite : forall n input, stays P (write n input)).
Let ctx := ReadContext p name indexes.
Hint Resolve Hwrite : footprint.

Lemma stays_read state : stays P (runRead byteLength sha256 json_octets mixed_lt ctx state).
Proof. unfold runRead, ctx. stay. Qed.

Lemma stays_capacity f writes : stays P (refuseOverCapacity byteLength ctx ceilings f writes).
Proof. unfold refuseOverCapacity. stay. Qed.

Lemma stays_validate v : stays P (validateOrThrow schema v).
Proof. unfold validateOrThrow. stay. Qed.

Lemma stays_commit_all n inputs : stays P (commit_all write n inputs).
Proof. revert n. induction inputs as [|input inputs IH]; intros n; cbn [commit_all]; stay. Qed.
Hint Resolve stays_read stays_capacity stays_validate stays_commit_all : footprint.

Lemma stays_insert doc minted uuid : stays P (runInsert byteLength sha256 json_octets mixed_lt nfc ctx ceilings schema write doc minted uuid).
Proof. unfold runInsert, ctx. stay. Qed.

Lemma stays_update state patch : stays P (runUpdate byteLength sha256 json_octets mixed_lt nfc ctx ceilings schema write state patch).
Proof. unfold runUpdate, read_rows, ctx, plan_update. stay. Qed.

Lemma stays_replace id doc : stays P (runReplaceById byteLength sha256 json_octets mixed_lt nfc ctx ceilings schema write id doc).
Proof. unfold runReplaceById, read_rows, ctx. stay. Qed.

Lemma stays_remove state : stays P (runDelete byteLength sha256 json_octets mixed_lt ctx ceilings write state).
Proof. unfold runDelete, read_rows, ctx. stay. Qed.
End verbs.

(** ** Maintenance *)

Section maintenance.
Context (byteLength : bytes -> Z) (sha256 : bytes -> list N) (mixed_lt : jsval -> jsval -> bool).
Context (date_parse : jsstr -> option Z) (clock : nat -> Z).
Let key := p ++ js "/current.json".

Lemma under_prefix : log_prefix_of key = p.
Proof. apply log_prefix_manifest. Qed.

Lemma stays_swap current next etag won lost : stays P (swap key current next etag won lost).
Proof. unfold swap, key. stay. Qed.
Hint Resolve stays_swap : footprint.

Lemma stays_publish opts current etag tail n docs fetched : stays P (publish byteLength sha256 mixed_lt key opts current etag tail n docs fetched).
Proof.
  unfold publish. rewrite under_prefix. apply stays_bind; [stay|]. intros b. cbv zeta. destruct (negb _); [done|].
  apply (stays_then _ _ _ P); [|intros k Hk; stay]. unfold snapshotKey. repeat case_match; try done. cbn. auto.
Qed.
Hint Resolve stays_publish : footprint.

Lemma stays_compact opts : stays P (compact byteLength sha256 mixed_lt key opts).
Proof.
  unfold compact, check_options. apply stays_bind; [stay|]. intros _. eapply stays_then; [by apply reads_manifest, Hext|]. intros [read|] Hr; [|done]. cbn in Hr.
  unfold probe_tail, fold_log. rewrite under_prefix. stay.
Qed.

Lemma stays_retire opts : stays P (retireLogRange key opts).
Proof. unfold retireLogRange. rewrite under_prefix. unfold key. stay. Qed.

(** The collector deletes a candidate under a canonical key of the collection only, whatever
    the ledger and the listing hold. *)
Lemma sweep_under dropped floor now cap cs n fence fresh :
  (forall c, c ∈ cs -> classify p fence fresh c = evicted -> cand_key c ∈ dropped) ->
  Forall (fun c => P (cand_key c)) (split_sweep date_parse p dropped floor now cap cs n).1.
Proof.
  revert n. induction cs as [|c cs IH]; intros n Hd; cbn [split_sweep]; [constructor|].
  assert (Hcs : forall c, c ∈ cs -> classify p fence fresh c = evicted -> cand_key c ∈ dropped) by (intros c' Hc'; apply Hd; by right).
  case_bool_decide as Hc; [by apply IH|]. specialize (Hd c ltac:(left)).
  destruct (below_cap n cap && due date_parse now c && negb (unproved p floor c)).
  2: { specialize (IH n Hcs). by destruct (split_sweep date_parse p dropped floor now cap cs n). }
  specialize (IH (S n) Hcs). destruct (split_sweep date_parse p dropped floor now cap cs (S n)) as [a b]. constructor; [|done].
  unfold classify in Hd. destruct (reason c); cbn in Hd.
  - destruct (parseSeqFromCanonicalLogKey (cand_key c) p) as [m|] eqn:E; [|by destruct Hc; apply Hd].
    apply canonical_log_key in E as [-> _]. apply under_slot.
  - destruct (parseMaxSeqFromCanonicalSnapshotKey (cand_key c) p) as [m|] eqn:E; [|by destruct Hc; apply Hd].
    apply canonical_snapshot_key in E as [Hs _]. apply starts_with_spec in Hs as [t Ht]. rewrite Ht, <- app_assoc. apply under_app.
  - by destruct Hc; apply Hd.
Qed.

Lemma under_pending : P (gcPendingKey p).
Proof. apply under_app. Qed.
Hint Resolve under_pending stays_compact stays_retire : footprint.

Lemma stays_read_pending k : P k -> stays P (readGcPending k).
Proof. intros Hk. unfold readGcPending. stay. Qed.

Lemma stays_check_pending l : stays P (check_pending l).
Proof. unfold check_pending. stay. Qed.

Lemma stays_encode_pending l : stays P (encodePending l).
Proof. unfold encodePending. stay. Qed.
Hint Resolve stays_read_pending stays_check_pending stays_encode_pending : footprint.

Lemma stays_create_pending k l : P k -> stays P (createGcPending k l).
Proof. intros Hk. unfold createGcPending. stay. Qed.
Hint Resolve stays_create_pending : footprint.

Lemma stays_cas_pending k f : P k -> stays P (casUpdateGcPending k f).
Proof.
  intros Hk. unfold casUpdateGcPending. generalize GC_PENDING_CAS_MAX_ATTEMPTS, OtherError. intros n.
  induction n as [|n IH]; intros e; cbn [cas_attempts]; stay.
Qed.
Hint Resolve stays_cas_pending : footprint.

Lemma stays_sweep_due opts current cs new fresh : stays P (sweep_due date_parse clock key opts current cs new fresh).
Proof.
  unfold sweep_due. rewrite under_prefix. cbv zeta. set (fence := match fresh with Some f => json f | None => current end).
  set (dropped := _ ++ _ ++ _). set (floor := match fresh with Some f => log_seq_start (json f) | None => 0 end).
  pose proof (sweep_under dropped floor (clock (length new)) (maxSweepsPerRun opts) cs 0 fence fresh) as Hs.
  destruct (split_sweep date_parse p dropped floor (clock (length new)) (maxSweepsPerRun opts) cs 0) as [toSweep remaining].
  apply stays_bind; [|intros; unfold persist; stay]. apply stays_promise_all. intros c Hc. apply stays_delete.
  cbn [fst] in Hs. rewrite Forall_forall in Hs. apply Hs; [|done]. intros c' Hc' Hev. unfold dropped. rewrite !elem_of_app. right. right.
  unfold keys_with. apply elem_of_remove_dups, list_elem_of_fmap. exists c'. split; [done|]. by apply list_elem_of_filter.
Qed.
Hint Resolve stays_sweep_due : footprint.

Lemma stays_gc opts : stays P (runGc date_parse clock key opts).
Proof. unfold runGc. rewrite under_prefix. unfold read_or_create, sweep. stay; unfold key; stay. Qed.
Hint Resolve stays_gc : footprint.

(** The steps of a tick, whatever the flag. *)
Lemma stays_tick args opts current next st : stays P (tick_body byteLength sha256 mixed_lt date_parse clock key args opts current next st).
Proof.
  assert (Hr : forall opts, stays P (retireLogs key opts)) by (intros; unfold retireLogs; stay).
  assert (Hh : forall b st, stays P (refreshTailHintIfNeeded key current next b st)) by (intros; unfold refreshTailHintIfNeeded, key; stay).
  assert (Ht : forall A B (m : step A) (f : A -> step B) st, (forall st, stays P (m st)) -> (forall a st, stays P (f a st)) -> stays P (then_do m f st)).
  { intros A B m f st' Hm Hf. unfold then_do. apply stays_bind; [done|]. intros [[e|a] st'']; [done|]. apply Hf. }
  assert (Ha : forall A (q : prog A) st, stays P q -> stays P (await q st)) by (intros; unfold await; stay).
  unfold tick_body, runGcAndRefreshTailHint, retire_step, fold_phase, signalFoldDeferred, set_published, done_with.
  repeat first [done | apply Ht; intros | apply Ha | solve [auto with footprint] | case_match | apply Hh].
Qed.
Hint Resolve stays_tick : footprint.

Lemma stays_dispatch maint current a b : stays P (dispatch_maintenance byteLength sha256 mixed_lt date_parse clock key maint current a b).
Proof.
  unfold dispatch_maintenance, runBoundedMaintenance. cbv zeta. stay.
  all: unfold bounded_tick, finally, tick_tail, refreshTailHintIfNeeded; rewrite ?under_prefix; unfold key in *; stay.
Qed.
End maintenance.
End programs.

(** ** The handle and the feed *)

Section handle.
Context (P : jsstr -> Prop) (Hext : forall k t, P k -> P (k ++ t)) (db : Db).
Context (Hdb : P (physicalPrefixFor (db_app db) (db_tenant db))).

Lemma under_manifest name : P (manifest_prefix db name).
Proof. unfold manifest_prefix. auto. Qed.
Hint Resolve under_manifest Hext : footprint.

Lemma stays_entry coll seq current : stays P (getLogEntry db coll seq current).
Proof. unfold getLogEntry, logObjectKey. stay. Qed.
Hint Resolve stays_entry : footprint.

Lemma stays_entries coll current seqs es : stays P (read_entries db coll current seqs es).
Proof. revert es. induction seqs as [|s seqs IH]; intros es; cbn [read_entries]; stay. Qed.
Hint Resolve stays_entries : footprint.

Lemma stays_poll coll cursor : stays P (pollOnce db coll cursor).
Proof.
  unfold pollOnce, getCurrentJson, probeLogTail, manifest_key. stay.
  - apply stays_manifest. auto with footprint.
  - apply stays_probe; auto with footprint.
Qed.
Hint Resolve stays_poll : footprint.

Lemma stays_answer to_string polled : stays P (answer to_string polled).
Proof. unfold answer, nextCursor. stay. Qed.
Hint Resolve stays_answer : footprint.

Lemma stays_long_poll coll to_string cursor interval elapse aborted n start timeout :
  stays P (longPollSince db coll to_string cursor interval elapse aborted n start timeout).
Proof.
  assert (Ht : forall n k deadline now delay, stays P (tick db coll to_string cursor interval elapse aborted n k deadline now delay)).
  { intros m. induction m as [|m IH]; intros k deadline now delay; cbn [tick]; stay. }
  unfold longPollSince. stay.
Qed.
End handle.
