(* ===== verification/Service.v ===== *)
(** * The Node host (adapter-node/src/server.ts, server/src/spec/runtime-spec.ts)

    What a host adds around the router: the anonymous routes, the environment of
    maintenance, the verifier, and a database handle scoped to the tenant the verifier
    named.  The theorem confines every request to that tenant's keys.  Observability is
    left out. *)
From Stdlib Require Import QArith Qround.
From S2P Require Import Prelude JsText JsValue Errors Json Storage Effects Lsn CurrentJson LogWalk DocId Predicate Satisfiable.
From S2P Require Import IndexCodec Indexes Adoption Writer Capacity QueryPlanner IndexWalk Query Db Since Maintenance Http Router Auth Footprint.
Local Open Scope Z_scope.

(** What the host gets from its platform: the codecs, the clock and the random values of
    one request ([n] numbers the writers it builds and the ticks of a long poll), the
    client's going away, the framework's routing, and the texts of errors. *)
Record Platform := MakePlatform {
  rt_byteLength : bytes -> Z;
  rt_sha256 : bytes -> list N;
  rt_json_octets : bytes -> list N;
  rt_mixed_lt : jsval -> jsval -> bool;
  rt_nfc : jsstr -> jsstr;
  rt_raw_json : jsstr -> option jsval;
  rt_to_number : jsstr -> jsnum;
  rt_to_string : jsval -> jsstr;
  rt_date_parse : jsstr -> option Z;
  rt_clock : nat -> Z;
  rt_generation : nat -> jsstr;
  rt_session : nat -> jsstr;
  rt_uuid : jsstr;
  rt_elapse : nat -> Z -> Z -> Z;
  rt_aborted : nat -> bool;
  rt_route : jsstr -> routed;
  rt_describe : js_error -> err_text
}.

Abbreviation collections := (list (jsstr * CollectionDefinition)).

Record ServerOptions := MakeOptions {
  opt_app : jsstr;
  opt_verifier : Verifier;
  opt_config : option collections;
  opt_sinceTimeoutMs : option Z;
  opt_sincePollIntervalMs : option Z
}.

(** ** [GET /v1/spec] *)

Section spec.
(** The static contract, and the vendor of the schema of a collection. *)
Context (specIr : list (jsstr * jsval)) (vendor : jsstr -> jsstr).

Definition spec_collection (entry : jsstr * CollectionDefinition) : jsval :=
  let indexes := JArr ((fun ix => JStr (index_name ix)) <$> default [] (def_indexes entry.2)) in
  JObj ([(js "name", JStr entry.1); (js "indexes", indexes)]
        ++ field_if "schemaVendor" (match def_schema entry.2 with Some _ => Some (JStr (vendor entry.1)) | None => None end)).

Definition buildSpecResponse (config : option collections) : jsval :=
  match config with
  | None => JObj specIr
  | Some cs => JObj (own_set (js "collections") (JArr (spec_collection <$> cs)) specIr)
  end.

(** [resolve] gives the verifier and the configuration, or fails; so may the verifier. *)
Definition handleSpecRequest (resolve : result (Verifier * option collections)) (h : Headers) : prog Response :=
  let config := match resolve with
                | inr (verifier, config) => match verifier h with inr (Some _) => config | _ => None end
                | inl _ => None
                end in
  respond_json (buildSpecResponse config) 200.
End spec.

(** ** One request *)

Section host.
Context (rt : Platform).

(** [createObservabilityContext({ maintenance })]: a byte ceiling that is no integer admits
    the same byte counts as its integer part. *)
Definition dispatch_of (env : MaintenanceEnv) (phases : phases) (profile : MaintenanceProfile) : MaintenanceDispatch :=
  Dispatch (if env_disabled env then Some true else None) ((fun q => Qfloor (Qcanon.this q)) <$> env_maxFoldBytes env)
    (Some (BoundedOpts (Some profile) None (Some phases) None None)).

(** [nodeMaintenanceDispatch] *)
Definition nodeMaintenanceDispatch (readEnv : jsstr -> option jsstr) : result MaintenanceDispatch :=
  rbind (parseMaintenanceEnv (rt_to_number rt) readEnv) (fun env => inr (dispatch_of env both MAINTENANCE_PROFILE_NODE)).

(** [currentFoldCeilings()] in the context of the request. *)
Definition currentFoldCeilings (maint : MaintenanceDispatch) : FoldCeilings :=
  resolveFoldCeilings (dispatch_options maint ≫= (fun o => fold_ceilings <$> profile o))
    (fold_ceilings MAINTENANCE_PROFILE_CF_FREE) (dispatch_maxFoldBytes maint).

(** [writerFor(ctx).commit(input)]: the constructor checks the declared indexes. *)
Definition writer_commit (maint : MaintenanceDispatch) (ctx : CollectionReadContext) (n : nat) (input : CommitInput) :
    prog CommitResult :=
  let key := collectionPrefix ctx ++ js "/current.json" in
  bind (for_each (ctx_indexes ctx) (fun def => of_result (validateIndexDefinition def))) (fun _ =>
  @commit (declared_indexes (rt_json_octets rt) (ctx_indexes ctx)) (rt_nfc rt) key false
    (rt_generation rt n) (rt_session rt n) (rt_clock rt n)
    (dispatch_maintenance (rt_byteLength rt) (rt_sha256 rt) (rt_mixed_lt rt) (rt_date_parse rt) (rt_clock rt) key (Some maint)) input).

(** [longPollSince]; the ticks are those [Since.long_poll_answers] asks for. *)
Definition poll_since (opts : ServerOptions) (db : Db) (collection cursor : jsstr) : prog SinceResponse :=
  let timeoutMs := default DEFAULT_TIMEOUT_MS (opt_sinceTimeoutMs opts) in
  let pollIntervalMs := default DEFAULT_POLL_INTERVAL_MS (opt_sincePollIntervalMs opts) in
  bind (longPollSince db collection (rt_to_string rt) cursor pollIntervalMs (rt_elapse rt) (rt_aborted rt)
         (S (Z.to_nat (timeoutMs / pollIntervalMs))) (rt_clock rt 0) timeoutMs)
    (fun answered => match answered with Some r => Ret r | None => Throw OtherError end).

(** [Db.create(..)] and [createRouter({ db, .. })] for a tenant. *)
Definition tenant_router (opts : ServerOptions) (maint : MaintenanceDispatch) (tenant : jsstr) : result (Request -> prog Response) :=
  rbind (Db_create (opt_app opts) tenant (Some <$> opt_config opts)) (fun db =>
  inr (serve (rt_byteLength rt) (rt_sha256 rt) (rt_json_octets rt) (rt_mixed_lt rt) (rt_nfc rt)
         (currentFoldCeilings maint) (writer_commit maint) (rt_uuid rt) (poll_since opts db)
         (rt_raw_json rt) (rt_to_number rt) (rt_route rt) (rt_describe rt) db)).

Definition healthz : prog Response := respond_json (JObj [(js "ok", JBool true)]) 200.

Definition mappedErrorResponse (error : js_error) : Response := mapToResponse (rt_describe rt) error.

(** [flushUnauthorizedAndRespond] (observability/canonical.ts) *)
Definition unauthorized : prog Response :=
  respond_json (errorEnvelope Unauthorized (js "Missing or invalid Authorization header") None None None) 401.

(** The handler of [createFetchHandler]. *)
Definition node_fetch (specIr : list (jsstr * jsval)) (vendor : jsstr -> jsstr) (opts : ServerOptions)
    (readEnv : jsstr -> option jsstr) (req : Request) (h : Headers) : prog Response :=
  if bool_decide (req_method req = GET) && bool_decide (req_path req = js "/v1/healthz") then healthz
  else if bool_decide (req_method req = GET) && bool_decide (req_path req = js "/v1/spec")
  then handleSpecRequest specIr vendor (inr (opt_verifier opts, opt_config opts)) h
  else match nodeMaintenanceDispatch readEnv with
       | inl error => Ret (mappedErrorResponse error)
       | inr maint =>
         match opt_verifier opts h with
         | inl error => Ret (mappedErrorResponse error)
         | inr None => unauthorized
         | inr (Some result) =>
           match tenant_router opts maint (tenantPrefix result) with
           | inl error => Ret (mappedErrorResponse error)
           | inr fetch => fetch req
           end
         end
       end.
End host.

(** ** The keys of a request *)

(** The keys of one tenant of an application. *)
Definition tenant_key (app tenant : jsstr) (k : jsstr) : Prop := starts_with (physicalPrefixFor app tenant) k = true.

Lemma tenant_key_app app tenant k t : tenant_key app tenant k -> tenant_key app tenant (k ++ t).
Proof. intros [u ->]%starts_with_spec. apply starts_with_spec. exists (u ++ t). by rewrite app_assoc. Qed.

Lemma tenant_key_prefix app tenant : tenant_key app tenant (physicalPrefixFor app tenant).
Proof. apply starts_with_spec. exists []. by rewrite app_nil_r. Qed.

Section confined.
Context (P : jsstr -> Prop) (Hext : forall k t, P k -> P (k ++ t)).

Lemma stays_respond v status : stays P (respond_json v status).
Proof. unfold respond_json. by destruct (encodeJsonBytes v). Qed.
Hint Resolve stays_respond : footprint.

Lemma stays_writer rt maint ctx n input : P (collectionPrefix ctx) -> stays P (writer_commit rt maint ctx n input).
Proof.
  intros Hp. unfold writer_commit. apply stays_bind; [stay|]. intros _. apply stays_commit; [done..| |].
  - by apply declared_markers.
  - intros c a b. by apply stays_dispatch.
Qed.

Lemma stays_poll_since rt opts db collection cursor : P (physicalPrefixFor (db_app db) (db_tenant db)) ->
  stays P (poll_since rt opts db collection cursor).
Proof. intros Hdb. unfold poll_since. apply stays_bind; [by apply stays_long_poll|]. intros r. stay. Qed.

Section routes.
Context (byteLength : bytes -> Z) (sha256 : bytes -> list N) (json_octets : bytes -> list N)
        (mixed_lt : jsval -> jsval -> bool) (nfc : jsstr -> jsstr) (ceilings : FoldCeilings).
Context (write : CollectionReadContext -> nat -> CommitInput -> prog CommitResult) (uuid : jsstr).
Context (Hwrite : forall ctx n input, P (collectionPrefix ctx) -> stays P (write ctx n input)).
Context (poll : jsstr -> jsstr -> prog SinceResponse) (Hpoll : forall c t, stays P (poll c t)).
Context (db : Db) (Hdb : P (physicalPrefixFor (db_app db) (db_tenant db))).
Hint Resolve Hpoll : footprint.

Lemma stays_in_collection {A} name (f : CollectionReadContext -> option SchemaValidator -> prog A) :
  (forall indexes schema, stays P (f (ReadContext (manifest_prefix db name) name indexes) schema)) ->
  stays P (with_collection db name f).
Proof.
  intros Hf. unfold with_collection, collectionReadContext. destruct (assertKeySegment name); [done|]. apply Hf.
Qed.

Lemma stays_with_meta prefix name indexes id : P prefix ->
  stays P (runByIdWithMeta byteLength sha256 json_octets mixed_lt (ReadContext prefix name indexes) id).
Proof. intros Hp. unfold runByIdWithMeta. apply stays_read; auto. Qed.

Lemma stays_all_with_meta prefix name indexes state : P prefix ->
  stays P (runAllWithMeta byteLength sha256 json_octets mixed_lt (ReadContext prefix name indexes) state).
Proof. intros Hp. unfold runAllWithMeta. apply stays_read; auto. Qed.

Lemma stays_dispatch_request raw_json to_number route req :
  stays P (Router.dispatch byteLength sha256 json_octets mixed_lt nfc ceilings write uuid poll raw_json to_number route db req).
Proof.
  pose proof (fun name => under_manifest P Hext db Hdb name) as Hm.
  assert (Hw : forall name indexes n input, stays P (write (ReadContext (manifest_prefix db name) name indexes) n input)) by (intros; apply Hwrite, Hm).
  unfold Router.dispatch, get_row, list_rows, insert_row_route, patch_row, put_row, delete_row, count_rows, since_route.
  repeat case_match; try done;
  repeat first [done | apply stays_of_result | apply stays_respond | apply Hpoll
    | apply stays_with_meta, Hm | apply stays_all_with_meta, Hm
    | apply stays_insert; auto | apply stays_update; auto | apply stays_replace; auto | apply stays_remove; auto
    | apply stays_in_collection; intros | apply stays_bind; [|intros] | case_match].
Qed.
End routes.

Lemma stays_tenant_router rt opts maint tenant fetch req :
  P (physicalPrefixFor (opt_app opts) tenant) -> tenant_router rt opts maint tenant = inr fetch -> stays P (fetch req).
Proof.
  intros Hp. unfold tenant_router. destruct (Db_create _ _ _) as [|db] eqn:Ed; [done|]. cbn [rbind]. intros [= <-].
  apply Db_create_ok in Ed as (_ & Ea & Et). rewrite <- Ea, <- Et in Hp.
  unfold serve. apply stays_attempt; [|by intros []]. apply stays_dispatch_request; [|by intros; apply stays_poll_since|done].
  intros. by apply stays_writer.
Qed.
End confined.

(** Two tenants of an application share no key. *)
Lemma tenants_disjoint a t t' k : assertPathSegment t = None -> assertPathSegment t' = None ->
  tenant_key a t k -> tenant_key a t' k -> t = t'.
Proof.
  intros (_ & Ht & _)%assertPathSegment_safe (_ & Ht' & _)%assertPathSegment_safe [u ->]%starts_with_spec [u' E]%starts_with_spec.
  unfold physicalPrefixFor in E. change (js "/") with [slash] in E. rewrite <- !app_assoc in E.
  apply (inj (app (js "app/"))), (inj (app a)), (inj (app (js "/tenant/"))) in E. cbn [app] in E.
  apply (f_equal (split_on slash)) in E. rewrite !split_on_app_sep in E by done. congruence.
Qed.

(** The keys of the tenant the verifier named, which are no other tenant's. *)
Definition own_key (opts : ServerOptions) (h : Headers) (k : jsstr) : Prop :=
  exists r, opt_verifier opts h = inr (Some r) /\ tenant_key (opt_app opts) (tenantPrefix r) k /\
    forall other, assertPathSegment other = None -> tenant_key (opt_app opts) other k -> other = tenantPrefix r.

Lemma own_key_router rt opts maint h r fetch req :
  opt_verifier opts h = inr (Some r) -> tenant_router rt opts maint (tenantPrefix r) = inr fetch -> stays (own_key opts h) (fetch req).
Proof.
  intros Hv Hf. assert (Ht : assertPathSegment (tenantPrefix r) = None).
  { unfold tenant_router in Hf. destruct (Db_create _ _ _) as [|db] eqn:Ed; [done|].
    apply Db_create_ok in Ed as ([_ Ht] & _ & E). by rewrite E in Ht. }
  assert (Hown : forall k, tenant_key (opt_app opts) (tenantPrefix r) k -> own_key opts h k).
  { intros k Hk. exists r. split; [done|]. split; [done|]. intros other Ho Hk'. by eapply tenants_disjoint. }
  eapply stays_tenant_router; [|by apply Hown, tenant_key_prefix|done].
  intros k t (r' & Hr & Hk & _). rewrite Hv in Hr. simplify_eq. by apply Hown, tenant_key_app.
Qed.

Definition anonymous_route (req : Request) : bool :=
  bool_decide (req_method req = GET) && (bool_decide (req_path req = js "/v1/healthz") || bool_decide (req_path req = js "/v1/spec")).

(** C11: whatever the storage answers, every storage call a request causes is on a key, or lists a prefix, of the
    tenant its verifier named, and no other tenant's; a rejected request causes none and gets the 401 envelope. *)
Theorem requests_stay_in_their_tenant rt specIr vendor opts readEnv req h :
  stays (own_key opts h) (node_fetch rt specIr vendor opts readEnv req h) /\
  (opt_verifier opts h = inr None -> anonymous_route req = false ->
   forall maint, nodeMaintenanceDispatch rt readEnv = inr maint ->
   exists body, node_fetch rt specIr vendor opts readEnv req h = Ret (Resp 401 None (Some body)) /\
     decodeJsonBytes body = Some (errorEnvelope Unauthorized (js "Missing or invalid Authorization header") None None None)).
Proof.
  split.
  - unfold node_fetch, healthz, handleSpecRequest, unauthorized. repeat case_match; try done; try apply stays_respond. by eapply own_key_router.
  - intros Hv Ha maint Hm. unfold anonymous_route in Ha. unfold node_fetch. rewrite Hv, Hm.
    destruct (bool_decide (req_method req = GET)); cbn [andb] in *; [apply orb_false_iff in Ha as [-> ->]|];
      (eexists; split; [reflexivity|by vm_compute]).
Qed.

(** ** A sample host *)

Definition sample_platform : Platform :=
  MakePlatform (fun _ => 10) (fun _ => replicate 32 7%N) (fun _ => []) (fun _ _ => false) (fun s => s) (fun _ => None)
    (fun _ => NNaN) (fun _ => []) (fun _ => None) (fun n => Z.of_nat n) (fun _ => js "0123456789abcdef0123456789abcdef") (fun _ => js "s")
    (js "u") (fun _ now delay => now + delay) (fun _ => false) (fun _ => CollectionRoute (js "orders")) (fun _ => ErrText [] None None false).

Definition sample_options : ServerOptions :=
  MakeOptions (js "shop") (fun h => inr (match headers_get (js "authorization") h with Some _ => Some (Verified (js "acme") NoIdentity) | None => None end))
    None None None.

Definition sample_request : Request := Req GET (js "/v1/c/orders") [] None None.

(** A request with credentials reads its tenant's manifest first; one without is refused. *)
Lemma requests_stay_in_their_tenant_witness :
  (exists k, node_fetch sample_platform [] (fun s => s) sample_options (fun _ => None) sample_request [(js "authorization", js "x")] =
     Get (js "app/shop/tenant/acme/manifests/orders/current.json") k) /\
  exists body, node_fetch sample_platform [] (fun s => s) sample_options (fun _ => None) sample_request [] = Ret (Resp 401 None (Some body)) /\
     decodeJsonBytes body = Some (errorEnvelope Unauthorized (js "Missing or invalid Authorization header") None None None).
Proof.
  split; [by eexists|].
  apply (requests_stay_in_their_tenant sample_platform [] (fun s => s) sample_options (fun _ => None) sample_request [])
    with (maint := dispatch_of (MaintEnv None false) both MAINTENANCE_PROFILE_NODE); by vm_compute.
Defined.
