(* ===== verification/Worker.v ===== *)
(** * The Cloudflare host (adapter-cloudflare/src/worker.ts, cache.ts)

    The fetch handler of the Worker, and the read cache around the router.  The cache is an
    explicit state: the entries of [caches.default], which the platform may drop at any
    time.  A call is a task whose every await (of the cache, of the handler) lets other
    calls move, and whose invalidation is left to [waitUntil]; a step relation runs any
    number of them.  Every request of a Worker has the same origin, so a cache key is a
    path and a query.  Maintenance handed to [waitUntil] runs at the end of the commit
    here; the handler does not wait for it there, and sees nothing of it in either case. *)
From Stdlib Require Import QArith.
From S2P Require Import Prelude JsText JsValue Errors Json Storage Effects LogWalk Capacity Query Db Since Maintenance Http Router Auth Footprint Service.
Local Open Scope result_scope.
Local Open Scope Z_scope.

(** ** The cache (cache.ts) *)

Global Instance text_eq_decision : EqDecision text.
Proof. solve_decision. Defined.

Abbreviation cache_key := (jsstr * list (jsstr * text))%type.
Abbreviation ReadCache := (list (cache_key * Response)).

(** [cache.match], [cache.put], [cache.delete] *)
Definition cache_match (key : cache_key) (c : ReadCache) : option Response := snd <$> head (base.filter (fun e => e.1 = key) c).
Definition cache_delete (key : cache_key) (c : ReadCache) : ReadCache := base.filter (fun e => e.1 <> key) c.
Definition cache_put (key : cache_key) (res : Response) (c : ReadCache) : ReadCache := (key, res) :: cache_delete key c.

Definition WRITE_METHODS : list http_method := [POST; PATCH; DELETE].
Definition BYPASS_PREFIXES : list jsstr := [js "/v1/since"; js "/v1/healthz"].

(** [searchParams.set(name, value)] *)
Fixpoint replace_param (name : jsstr) (value : text) (query : list (jsstr * text)) : list (jsstr * text) :=
  match query with
  | [] => [(name, value)]
  | kv :: query' => if decide (kv.1 = name) then (name, value) :: base.filter (fun kv => kv.1 <> name) query'
                    else kv :: replace_param name value query'
  end.

Definition cacheKeyFor (req : Request) (tenantPrefix : jsstr) : cache_key :=
  (req_path req, replace_param (js "__t") (Raw tenantPrefix) (req_query req)).

Definition bypassesCache (pathname : jsstr) : bool :=
  existsb (fun p => starts_with p pathname) BYPASS_PREFIXES
  || negb (starts_with (js "/v1/c/") pathname)
  || (length (base.filter (fun part => part <> []) (split_on slash pathname)) <? 4)%nat.

Inductive CacheStatus := Hit | Miss | Bypass.

(** An async function of the Worker: each constructor but the first two is one await. *)
Inductive task (A : Type) :=
| Done (a : A)
| Fails (e : js_error)
| Handler (p : prog Response) (k : Response -> task A)
| CMatch (key : cache_key) (k : option Response -> task A)
| CPut (key : cache_key) (res : Response) (k : task A)
| WaitUntil (delete : option cache_key) (k : task A).
Arguments Done {A} a.
Arguments Fails {A} e.
Arguments Handler {A} p k.
Arguments CMatch {A} key k.
Arguments CPut {A} key res k.
Arguments WaitUntil {A} delete k.

Fixpoint tbind {A B} (p : task A) (f : A -> task B) : task B :=
  match p with
  | Done a => f a
  | Fails e => Fails e
  | Handler q k => Handler q (fun res => tbind (k res) f)
  | CMatch key k => CMatch key (fun found => tbind (k found) f)
  | CPut key res k => CPut key res (tbind k f)
  | WaitUntil d k => WaitUntil d (tbind k f)
  end.

(** A task with nothing between its awaits, and its invalidation done at once. *)
Fixpoint alone {A} (p : task A) (c : ReadCache) : prog (A * ReadCache) :=
  match p with
  | Done a => Ret (a, c)
  | Fails e => Throw e
  | Handler q k => bind q (fun res => alone (k res) c)
  | CMatch key k => alone (k (cache_match key c)) c
  | CPut key res k => alone k (cache_put key res c)
  | WaitUntil d k => alone k match d with Some key => cache_delete key c | None => c end
  end.

Section cache.
(** The [ETag] header of a stored response; the router sets none. *)
Context (etag : Response -> option jsstr).

(** [Set-Cookie] and [Cache-Control] are left out: the router sets neither, and the second is
    put on a stored response and taken off again. *)
Definition withReadCache (req : Request) (h : Headers) (tenantPrefix : jsstr) (handler : prog Response) : task (Response * CacheStatus) :=
  if negb (bool_decide (req_method req = GET)) || bypassesCache (req_path req)
  then Handler handler (fun response => Done (response, Bypass))
  else
    let key := cacheKeyFor req tenantPrefix in
    CMatch key (fun cached =>
    match cached with
    | Some cached =>
      match etag cached, headers_get (js "if-none-match") h with
      | Some tag, Some ifNoneMatch => if bool_decide (tag = ifNoneMatch) then Done (Resp 304 None None, Hit) else Done (cached, Hit)
      | _, _ => Done (cached, Hit)
      end
    | None => Handler handler (fun fresh =>
        if res_status fresh =? 200 then CPut key fresh (Done (fresh, Miss)) else Done (fresh, Miss))
    end).

(** The key it deletes, if any. *)
Definition invalidateOnWrite (req : Request) (tenantPrefix : jsstr) (responseStatus : Z) : option cache_key :=
  if negb (bool_decide (req_method req ∈ WRITE_METHODS)) then None
  else if (responseStatus <? 200) || (300 <=? responseStatus) then None
  else if bypassesCache (req_path req) then None
  else Some (cacheKeyFor req tenantPrefix).

(** The cached part of the handler: the read path, then the invalidation it does not await. *)
Definition cached_fetch (req : Request) (h : Headers) (tenantPrefix : jsstr) (handler : prog Response) : task (Response * CacheStatus) :=
  tbind (withReadCache req h tenantPrefix handler) (fun '(response, status) =>
  WaitUntil (invalidateOnWrite req tenantPrefix (res_status response)) (Done (response, status))).
End cache.

(** ** The handler (worker.ts) *)

(** What the factory returns, with the storage it resolves to; [w_dev] is the landing page. *)
Record WorkerOptions := MakeWorkerOptions {
  w_auth : AppAuth;
  w_collections : collections;
  w_verifier : option Verifier;
  w_storage : result unit;
  w_dev : option bytes;
  w_sinceTimeoutMs : option Z;
  w_sincePollIntervalMs : option Z
}.

Definition resolveCfMaintenanceProfile (readEnv : jsstr -> option jsstr) : MaintenanceProfile :=
  if bool_decide (readEnv (js "BAERLY_MAINTENANCE_PROFILE") = Some (js "cf-paid")) then MAINTENANCE_PROFILE_CF_PAID
  else MAINTENANCE_PROFILE_CF_FREE.

Section worker.
Context (rt : Platform) (etag : Response -> option jsstr) (specIr : list (jsstr * jsval)) (vendor : jsstr -> jsstr).
(** The string bindings, and [env.APP]. *)
Context (readEnv : jsstr -> option jsstr) (env_APP : jsstr) (options : WorkerOptions).

Definition cfMaintenanceDispatch : result MaintenanceDispatch :=
  let? env := parseMaintenanceEnv (rt_to_number rt) readEnv in
  inr (dispatch_of env single (resolveCfMaintenanceProfile readEnv)).

(** The first resolution is kept for the isolate, and the bindings do not change under it;
    the check of the ceiling reads one binding. *)
Definition ensureResolved : result Verifier :=
  let? verifier := resolveVerifier (w_verifier options) (w_auth options) readEnv in
  let? _ := w_storage options in
  let? _ := parseMaintenanceEnv (rt_to_number rt)
              (fun k => if bool_decide (k = js "BAERLY_MAINTENANCE_MAX_FOLD_BYTES") then readEnv k else None) in
  inr verifier.

Definition server_options (verifier : Verifier) : ServerOptions :=
  MakeOptions env_APP verifier (Some (w_collections options)) (w_sinceTimeoutMs options) (w_sincePollIntervalMs options).

(** The dev routes; [None] goes on. *)
Definition dev_landing (req : Request) : option Response :=
  match w_dev options with
  | Some page => if negb (bool_decide (req_method req = GET)) then None
                 else if bool_decide (req_path req = js "/") then Some (Resp 200 None (Some page))
                 else if bool_decide (req_path req = js "/favicon.ico") then Some (Resp 204 None None)
                 else None
  | None => None
  end.

(** After the verifier named [tenant]. *)
Definition tenant_fetch (opts : ServerOptions) (maint : MaintenanceDispatch) (tenant : jsstr) (req : Request) (h : Headers) : task Response :=
  match tenant_router rt opts maint tenant with
  | inl e => Fails e
  | inr fetch => tbind (cached_fetch etag req h tenant (fetch req)) (fun '(response, _) => Done response)
  end.

Definition worker_fetch (req : Request) (h : Headers) : task Response :=
  if bool_decide (req_method req = GET) && bool_decide (req_path req = js "/v1/spec")
  then Handler (handleSpecRequest specIr vendor (let? verifier := ensureResolved in inr (verifier, Some (w_collections options))) h) Done
  else
    match ensureResolved with
    | inl e => Fails e
    | inr verifier =>
      match dev_landing req with
      | Some response => Done response
      | None =>
        if bool_decide (req_method req = GET) && bool_decide (req_path req = js "/v1/healthz") then Handler healthz Done
        else
          match cfMaintenanceDispatch with
          | inl e => Fails e
          | inr maint =>
            match verifier h with
            | inl error => Done (mappedErrorResponse rt error)
            | inr None => Handler unauthorized Done
            | inr (Some result) => tenant_fetch (server_options verifier) maint (tenantPrefix result) req h
            end
          end
      end
    end.
End worker.

(** ** Lemmas *)

Lemma param_set name value query : (name, value) ∈ replace_param name value query /\
  forall v, (name, v) ∈ replace_param name value query -> v = value.
Proof.
  induction query as [|kv query [IH1 IH2]]; cbn [replace_param]; [by split; [left|intros v [= ->]%list_elem_of_singleton]|].
  case_decide as E.
  - split; [left|]. intros v [Hv|[Hv _]%list_elem_of_filter]%elem_of_cons; [by injection Hv|done].
  - split; [by right|]. intros v [<-|Hv]%elem_of_cons; [done|by apply IH2].
Qed.

Lemma param_rest name value query : base.filter (fun kv => kv.1 <> name) (replace_param name value query) = base.filter (fun kv => kv.1 <> name) query.
Proof.
  induction query as [|kv query IH]; cbn [replace_param]; [by rewrite filter_cons_False by tauto|].
  case_decide as E.
  - rewrite !filter_cons_False by tauto. apply list_filter_filter_l. tauto.
  - by rewrite !filter_cons_True, IH by done.
Qed.

(** The query without the cache's own parameter. *)
Definition plain_query (req : Request) : list (jsstr * text) := base.filter (fun kv => kv.1 <> js "__t") (req_query req).

(** A key belongs to one tenant and one URL. *)
Lemma cache_key_inj req req' t t' : cacheKeyFor req t = cacheKeyFor req' t' ->
  t = t' /\ req_path req = req_path req' /\ plain_query req = plain_query req'.
Proof.
  unfold cacheKeyFor, plain_query. intros E. apply pair_equal_spec in E as [Ep Eq]. split; [|split; [done|]].
  - destruct (param_set (js "__t") (Raw t) (req_query req)) as [Hin _]. rewrite Eq in Hin.
    destruct (param_set (js "__t") (Raw t') (req_query req')) as [_ Hone]. apply Hone in Hin. congruence.
  - rewrite <- (param_rest _ (Raw t)), Eq. apply param_rest.
Qed.

Lemma match_in key c res : cache_match key c = Some res -> (key, res) ∈ c.
Proof.
  unfold cache_match. destruct (base.filter _ c) as [|[k r] l] eqn:E; [done|]. intros [= <-].
  assert (H : (k, r) ∈ base.filter (fun e => e.1 = key) c) by (rewrite E; left). apply list_elem_of_filter in H as [Hk H]. cbn in Hk. by subst.
Qed.

Lemma match_deleted key c : cache_match key (cache_delete key c) = None.
Proof.
  unfold cache_match, cache_delete. destruct (base.filter (fun e => e.1 = key) _) as [|e l] eqn:E; [done|].
  assert (H : e ∈ base.filter (fun e => e.1 = key) (base.filter (fun e => e.1 <> key) c)) by (rewrite E; left).
  by apply list_elem_of_filter in H as [He [Hn _]%list_elem_of_filter].
Qed.

Lemma in_deleted key c e : e ∈ cache_delete key c -> e ∈ c.
Proof. by intros [_ H]%list_elem_of_filter. Qed.

(** ** Any number of calls *)

Record call := Call { call_tenant : jsstr; call_req : Request; call_headers : Headers }.

Definition key_of (c : call) : cache_key := cacheKeyFor (call_req c) (call_tenant c).

(** The call consults the cache. *)
Definition reads (c : call) : Prop := req_method (call_req c) = GET /\ bypassesCache (req_path (call_req c)) = false.

(** The cache, the calls under way, and the invalidations left to [waitUntil]. *)
Record machine := Machine {
  m_cache : ReadCache;
  m_calls : list (call * task (Response * CacheStatus));
  m_deletes : list cache_key
}.

Definition cold : machine := Machine [] [] [].

Inductive event :=
| Handled (c : call) (res : Response)
| Answered (c : call) (res : Response) (status : CacheStatus)
| Queued (key : cache_key)
| Invalidated (key : cache_key).

Definition at_call (m : machine) (l1 l2 : list (call * task (Response * CacheStatus))) c code : Prop := m_calls m = l1 ++ (c, code) :: l2.

Section machine.
Context (etag : Response -> option jsstr).

(** What a handler may do: end with an outcome it has under some other clients. *)
Definition outcome (p : prog Response) (r : result Response) : Prop := exists R w w', exec R p w r w'.

(** One await of one call, a pending invalidation (or its failure), an eviction, or a new call. *)
Inductive step (m : machine) : list event -> machine -> Prop :=
| step_starts c handler :
    step m [] (Machine (m_cache m) ((c, cached_fetch etag (call_req c) (call_headers c) (call_tenant c) handler) :: m_calls m) (m_deletes m))
| step_evicts cache' : sublist cache' (m_cache m) -> step m [] (Machine cache' (m_calls m) (m_deletes m))
| step_handles l1 l2 c p k res : at_call m l1 l2 c (Handler p k) -> outcome p (inr res) ->
    step m [Handled c res] (Machine (m_cache m) (l1 ++ (c, k res) :: l2) (m_deletes m))
| step_throws l1 l2 c p k e : at_call m l1 l2 c (Handler p k) -> outcome p (inl e) ->
    step m [] (Machine (m_cache m) (l1 ++ l2) (m_deletes m))
| step_matches l1 l2 c key k : at_call m l1 l2 c (CMatch key k) ->
    step m [] (Machine (m_cache m) (l1 ++ (c, k (cache_match key (m_cache m))) :: l2) (m_deletes m))
| step_puts l1 l2 c key res k : at_call m l1 l2 c (CPut key res k) ->
    step m [] (Machine (cache_put key res (m_cache m)) (l1 ++ (c, k) :: l2) (m_deletes m))
| step_rejects l1 l2 c code : at_call m l1 l2 c code -> step m [] (Machine (m_cache m) (l1 ++ l2) (m_deletes m))
| step_waits l1 l2 c d k : at_call m l1 l2 c (WaitUntil d k) ->
    step m (Queued <$> option_list d) (Machine (m_cache m) (l1 ++ (c, k) :: l2) (option_list d ++ m_deletes m))
| step_answers l1 l2 c res st : at_call m l1 l2 c (Done (res, st)) ->
    step m [Answered c res st] (Machine (m_cache m) (l1 ++ l2) (m_deletes m))
| step_invalidates l1 l2 key : m_deletes m = l1 ++ key :: l2 ->
    step m [Invalidated key] (Machine (cache_delete key (m_cache m)) (m_calls m) (l1 ++ l2))
| step_loses l1 l2 key : m_deletes m = l1 ++ key :: l2 -> step m [] (Machine (m_cache m) (m_calls m) (l1 ++ l2)).

(** The events from [m] to [m'], the newest first. *)
Inductive history (m : machine) : list event -> machine -> Prop :=
| history_nil : history m [] m
| history_step tr m1 es m2 : history m tr m1 -> step m1 es m2 -> history m (es ++ tr) m2.

(** ** What a task keeps *)

(** A stored response: the handler answered it, to a read with that key. *)
Definition from (tr : list event) (key : cache_key) (res : Response) : Prop :=
  exists c, Handled c res ∈ tr /\ reads c /\ key_of c = key /\ res_status res = 200.

Lemma from_mono tr tr' key res : tr ⊆ tr' -> from tr key res -> from tr' key res.
Proof. intros Hs (c & Hin & Hc). exists c. split; [by apply Hs|done]. Qed.

(** What an answer rests on: a cached response, or the call's own handler; and an
    acknowledged write has queued its invalidation. *)
Definition rests (F : list event -> cache_key -> Response -> Prop) (c : call) (tr : list event) (a : Response * CacheStatus) : Prop :=
  match a.2 with
  | Hit => reads c /\ exists cached, F tr (key_of c) cached /\
      (a.1 = cached \/ a.1 = Resp 304 None None /\ exists tag, etag cached = Some tag /\ headers_get (js "if-none-match") (call_headers c) = Some tag)
  | _ => Handled c a.1 ∈ tr
  end /\
  (req_method (call_req c) ∈ WRITE_METHODS -> 200 <= res_status a.1 < 300 -> bypassesCache (req_path (call_req c)) = false ->
     Queued (key_of c) ∈ tr).

(** Under cache entries that satisfy [F], whatever happens between its awaits, the task
    stores only such entries, under the call's key, and what it answers rests on them. *)
Fixpoint keeps (F : list event -> cache_key -> Response -> Prop) (c : call) (tr : list event) (p : task (Response * CacheStatus)) : Prop :=
  match p with
  | Done a => forall tr', tr ⊆ tr' -> rests F c tr' a
  | Fails _ => True
  | Handler _ k => forall tr' res, tr ⊆ tr' -> keeps F c (Handled c res :: tr') (k res)
  | CMatch key k => forall tr', tr ⊆ tr' -> keeps F c tr' (k None) /\ forall cached, F tr' key cached -> keeps F c tr' (k (Some cached))
  | CPut key res k => (reads c /\ key = key_of c /\ from tr key res) /\ keeps F c tr k
  | WaitUntil d k => forall tr', tr ⊆ tr' -> keeps F c ((Queued <$> option_list d) ++ tr') k
  end.

Lemma keeps_later F c p : forall tr tr', tr ⊆ tr' -> keeps F c tr p -> keeps F c tr' p.
Proof.
  induction p as [a|e|q k IH|key k IH|key res k IH|d k IH]; intros tr tr' Hs Hk; cbn [keeps] in *.
  - intros tr2 H2. apply Hk. set_solver.
  - done.
  - intros tr2 res H2. apply Hk. set_solver.
  - intros tr2 H2. apply Hk. set_solver.
  - destruct Hk as [(H1 & H2 & H3) Hk]. split; [|by eapply IH]. split; [done|]. split; [done|]. by eapply from_mono.
  - intros tr2 H2. apply Hk. set_solver.
Qed.

(** The cached read of a call keeps any [F] that more events do not undo. *)
Lemma keeps_cached F c handler : (forall tr tr' key r, tr ⊆ tr' -> F tr key r -> F tr' key r) ->
  keeps F c [] (cached_fetch etag (call_req c) (call_headers c) (call_tenant c) handler).
Proof.
  intros HF.
  set (finish := fun '((response, status) : Response * CacheStatus) => WaitUntil (invalidateOnWrite (call_req c) (call_tenant c) (res_status response)) (Done (response, status))).
  assert (Hfin : forall tr res st, match st with
      | Hit => reads c /\ exists cached, F tr (key_of c) cached /\ (res = cached \/ res = Resp 304 None None /\
          exists tag, etag cached = Some tag /\ headers_get (js "if-none-match") (call_headers c) = Some tag)
      | _ => Handled c res ∈ tr end -> keeps F c tr (finish (res, st))).
  { intros tr res st Hst tr1 H1 tr2 H2. split.
    - destruct st; cbn [fst snd]; [|set_solver..]. destruct Hst as [Hr (cached & HFc & Hres)]. split; [done|]. exists cached.
      split; [|done]. eapply HF; [|exact HFc]. set_solver.
    - cbn [fst]. intros Hw Hs Hb. apply H2. unfold invalidateOnWrite. rewrite bool_decide_eq_true_2 by done. cbn [negb].
      rewrite (proj2 (Z.ltb_ge _ _)), (proj2 (Z.leb_gt _ _)) by lia. cbn [orb]. rewrite Hb. cbn [option_list fmap list_fmap app]. left. }
  unfold cached_fetch, withReadCache. fold finish. case_bool_decide as Hm; cbn [negb orb].
  2: { intros tr res _. apply Hfin. left. }
  destruct (bypassesCache _) eqn:Eb; [intros tr res _; apply Hfin; left|].
  assert (Hr : reads c) by done. intros tr _. split.
  - intros tr1 res _. destruct (Z.eqb_spec (res_status res) 200) as [Es|]; [|apply Hfin; left].
    split; [split; [done|split; [done|]]|apply Hfin; left]. exists c. split; [left|done].
  - intros cached Hc. assert (Hin : keeps F c tr (finish (cached, Hit))) by (apply Hfin; split; [done|exists cached; by split; [|left]]).
    destruct (etag cached) as [tag|] eqn:Et; [|exact Hin]. destruct (headers_get _ _) as [inm|] eqn:Ei; [|exact Hin].
    case_bool_decide as E; [|exact Hin]. apply Hfin. split; [done|]. exists cached. split; [done|]. right. split; [done|]. exists tag. by subst.
Qed.

(** ** What a machine keeps *)

(** [F] holds of the cached entries of the keys in [K], and every running call for which
    [mine] holds keeps it; every answer of such a call rested on the events before it. *)
Record sound (F : list event -> cache_key -> Response -> Prop) (mine : call -> Prop) (m : machine) (tr : list event) : Prop := {
  sound_cache : forall key res, (key, res) ∈ m_cache m -> F tr key res;
  sound_calls : forall c p, (c, p) ∈ m_calls m -> mine c -> keeps F c tr p;
  sound_answers : forall tr2 tr1 c res st, tr = tr2 ++ Answered c res st :: tr1 -> mine c -> rests F c tr1 (res, st)
}.

Lemma rests_head F es tr (P : call -> Prop) :
  (forall tr2 tr1 c res st, tr = tr2 ++ Answered c res st :: tr1 -> P c -> rests F c tr1 (res, st)) ->
  (forall c res st, es = [Answered c res st] -> P c -> rests F c tr (res, st)) -> (length es <= 1)%nat ->
  forall tr2 tr1 c res st, es ++ tr = tr2 ++ Answered c res st :: tr1 -> P c -> rests F c tr1 (res, st).
Proof.
  intros H Hes Hl tr2 tr1 c' res st E Hc. destruct es as [|e [|]]; cbn in *; [by eapply H| |lia].
  destruct tr2 as [|e' tr2]; injection E as E1 E2; [|by eapply H]. subst. by apply Hes.
Qed.
Lemma others_stay {A} (l1 l2 : list A) x y z : z ∈ l1 ++ x :: l2 -> z = x \/ z ∈ l1 ++ y :: l2.
Proof. rewrite !elem_of_app, !elem_of_cons. tauto. Qed.

Lemma dropped_stay {A} (l1 l2 : list A) y z : z ∈ l1 ++ l2 -> z ∈ l1 ++ y :: l2.
Proof. rewrite !elem_of_app, !elem_of_cons. tauto. Qed.

(** A step keeps a machine sound, when a store by a call that is not [mine] is covered by [F]. *)
Lemma sound_step F mine m es m' tr :
  (forall tr tr' key r, tr ⊆ tr' -> F tr key r -> F tr' key r) -> (forall tr key r, from tr key r -> F tr key r) ->
  (forall l1 l2 c key res k, at_call m l1 l2 c (CPut key res k) -> mine c \/ F tr key res) ->
  step m es m' -> sound F mine m tr -> sound F mine m' (es ++ tr).
Proof.
  intros Hmono Hfrom Hput Hstep [Hc Hk Ha].
  assert (Hs : tr ⊆ es ++ tr) by set_solver.
  assert (Hcache : forall key res, (key, res) ∈ m_cache m -> F (es ++ tr) key res) by (intros key res Hin; eapply Hmono; [exact Hs|by apply Hc]).
  assert (Hkeep : forall c p, (c, p) ∈ m_calls m -> mine c -> keeps F c (es ++ tr) p) by (intros c p Hin Hm; eapply keeps_later; [exact Hs|by apply Hk]).
  assert (Hnow : forall l1 l2 c p, at_call m l1 l2 c p -> mine c -> keeps F c tr p).
  { intros l1 l2 c p E Hm. apply Hk; [|done]. rewrite E. apply elem_of_app. right. left. }
  assert (Hset : forall l1 l2 c p p', at_call m l1 l2 c p -> (mine c -> keeps F c (es ++ tr) p') ->
    forall c' q, (c', q) ∈ l1 ++ (c, p') :: l2 -> mine c' -> keeps F c' (es ++ tr) q).
  { intros l1 l2 c p p' E Hp c' q [[= -> ->]|Hin]%(others_stay _ _ _ (c, p)) Hm; [by apply Hp|]. apply Hkeep; [|done]. by rewrite E. }
  assert (Hdrop : forall l1 l2 c p, at_call m l1 l2 c p -> forall c' q, (c', q) ∈ l1 ++ l2 -> mine c' -> keeps F c' (es ++ tr) q).
  { intros l1 l2 c p E c' q Hin Hm. apply Hkeep; [|done]. rewrite E. by apply dropped_stay. }
  split.
  - destruct Hstep; cbn [m_cache]; try exact Hcache.
    + intros key res Hin. apply Hcache. by eapply elem_of_sublist.
    + intros key' res' [[= -> ->]|Hin%in_deleted]%elem_of_cons; [|by apply Hcache].
      destruct (Hput _ _ _ _ _ _ H) as [Hm|HF]; [|by eapply Hmono].
      apply (Hnow _ _ _ _ H) in Hm. destruct Hm as [(_ & _ & Hfr) _]. eapply Hmono; [exact Hs|]. by apply Hfrom.
    + intros key' res' Hin%in_deleted. by apply Hcache.
  - destruct Hstep; cbn [m_calls]; try exact Hkeep; try (by eapply Hdrop); try (eapply Hset; [exact H|]).
    + intros c' p [[= -> ->]|Hin]%elem_of_cons Hm; [|by apply Hkeep]. eapply keeps_later; [|by apply keeps_cached]. set_solver.
    + intros Hm. apply (Hnow _ _ _ _ H Hm). done.
    + intros Hm. destruct (Hnow _ _ _ _ H Hm tr) as [H1 H2]; [done|]. destruct (cache_match key _) as [cached|] eqn:E; [|done].
      apply H2, Hc. by apply match_in.
    + intros Hm. by destruct (Hnow _ _ _ _ H Hm) as [_ H2].
    + intros Hm. by apply (Hnow _ _ _ _ H Hm).
  - apply rests_head; [exact Ha| |destruct Hstep; cbn; try lia; destruct d; cbn; lia].
    destruct Hstep; intros c' res' st' E Hm; try done; [by destruct d|].
    injection E as -> -> ->. by apply (Hnow _ _ _ _ H Hm tr).
Qed.

Lemma sound_history F mine m m' tr tr0 :
  (forall tr tr' key r, tr ⊆ tr' -> F tr key r -> F tr' key r) -> (forall tr key r, from tr key r -> F tr key r) ->
  (forall tr' m1, history m tr' m1 -> forall l1 l2 c key res k, at_call m1 l1 l2 c (CPut key res k) -> mine c \/ F (tr' ++ tr0) key res) ->
  history m tr m' -> sound F mine m tr0 -> sound F mine m' (tr ++ tr0).
Proof.
  intros Hm Hf Hput Hist H0. induction Hist as [|tr m1 es m2 Hist IH Hs]; [done|]. rewrite <- (assoc_L (++)). eapply sound_step; try done.
  by apply Hput.
Qed.

(** From the cold start, everything keeps [from]. *)
Lemma reached_sound m tr : history cold tr m -> sound from (fun _ => True) m tr.
Proof.
  intros Hist. rewrite <- (app_nil_r tr). eapply sound_history; [apply from_mono|done|by left|exact Hist|].
  split; cbn; [intros ? ? []%not_elem_of_nil|intros ? ? []%not_elem_of_nil|by intros [] ? ? ? ?].
Qed.

Lemma history_app m1 tr1 m2 tr2 m3 : history m1 tr1 m2 -> history m2 tr2 m3 -> history m1 (tr2 ++ tr1) m3.
Proof.
  intros H1 H2. induction H2 as [|tr m4 es m5 H2 IH Hs]; [done|]. rewrite <- (assoc_L (++)). by econstructor.
Qed.

(** ** The theorem *)

(** [res] is what a read of the same tenant and URL was answered by its handler among [tr],
    or the 304 for its tag. *)
Definition answered_before (tr : list event) (c : call) (res : Response) : Prop :=
  exists c0 cached, Handled c0 cached ∈ tr /\ reads c0 /\ res_status cached = 200 /\
    call_tenant c0 = call_tenant c /\ req_path (call_req c0) = req_path (call_req c) /\ plain_query (call_req c0) = plain_query (call_req c) /\
    (res = cached \/ res = Resp 304 None None /\ exists tag, etag cached = Some tag /\ headers_get (js "if-none-match") (call_headers c) = Some tag).

Lemma rests_hit (F : list event -> cache_key -> Response -> Prop) c tr res :
  (forall r, F tr (key_of c) r -> from tr (key_of c) r) -> rests F c tr (res, Hit) -> reads c /\ answered_before tr c res.
Proof.
  intros HF [[Hr (cached & Hc & Hres)] _]. split; [done|]. apply HF in Hc as (c0 & Hin & Hr0 & (Et & Ep & Eq)%cache_key_inj & Hs).
  exists c0, cached. done.
Qed.

(** No read of the key is under way. *)
Definition unattended (m : machine) (key : cache_key) : Prop := forall c code, (c, code) ∈ m_calls m -> reads c -> key_of c <> key.

(** After the deletion of a key that no read attends, its hits answer later handlings. *)
Lemma hits_after_deletion key tr0 m0 m1 tr m : history cold tr0 m0 -> step m0 [Invalidated key] m1 -> unattended m1 key -> history m1 tr m ->
  forall tr2 tr1 c res, tr = tr2 ++ Answered c res Hit :: tr1 -> key_of c = key -> answered_before tr1 c res.
Proof.
  intros Hr Hd Hu Hist tr2 tr1 c res E Hk.
  assert (Hr1 : history cold (Invalidated key :: tr0) m1) by by eapply (history_step _ _ _ [Invalidated key]).
  assert (Hall : history cold (tr ++ Invalidated key :: tr0) m) by by eapply history_app.
  assert (Hc : reads c).
  { apply reached_sound in Hall as [_ _ Ha]. rewrite E in Ha. destruct (Ha tr2 (tr1 ++ Invalidated key :: tr0) c res Hit) as [[Hc _] _]; [|done|done].
    by rewrite <- (assoc_L (++)). }
  set (F := fun tr k r => k = key -> from tr k r).
  assert (Hs : sound F (fun c => reads c /\ key_of c = key) m (tr ++ [])).
  { eapply sound_history; [| | |exact Hist|].
    - intros t t' k r Ht HF Hkey. eapply from_mono; [exact Ht|by apply HF].
    - by intros t k r Hfr _.
    - intros tr' m2 H2 l1 l2 c' k r code E2.
      assert (H : history cold (tr' ++ Invalidated key :: tr0) m2) by by eapply history_app.
      apply reached_sound in H as [_ Hkeep _]. destruct (Hkeep c' (CPut k r code)) as [(Hr' & -> & _) _]; [|done|].
      { rewrite E2. apply elem_of_app. right. left. }
      destruct (decide (key_of c' = key)); [by left|right; by intros Hkey].
    - split; [|intros c' p Hin [Hr' Hk']; by destruct (Hu c' p)|by intros [] ? ? ? ?].
      intros k r Hin ->. exfalso. inversion Hd; subst; [by destruct d|]. cbn [m_cache] in Hin. by apply list_elem_of_filter in Hin as [? _]. }
  rewrite app_nil_r in Hs. destruct Hs as [_ _ Ha]. apply (rests_hit F); [intros r HF; by apply HF|]. by eapply Ha.
Qed.

End machine.

(** ** Theorems *)

(** Every handler of a task stays within [K]. *)
Fixpoint task_stays {A} (K : jsstr -> Prop) (p : task A) : Prop :=
  match p with
  | Done _ | Fails _ => True
  | Handler q k => stays K q /\ forall res, task_stays K (k res)
  | CMatch _ k => forall found, task_stays K (k found)
  | CPut _ _ k | WaitUntil _ k => task_stays K k
  end.

Lemma tbind_stays {A B} K (p : task A) (f : A -> task B) : task_stays K p -> (forall a, task_stays K (f a)) -> task_stays K (tbind p f).
Proof. intros Hp Hf. induction p; cbn in *; try done; try (by intros; auto). split; [apply Hp|]. intros res. apply H, Hp. all: auto. Qed.

(** The Worker's storage calls are its tenant's, whatever its cache holds. *)
Lemma worker_stays rt etag specIr vendor readEnv app options req h verifier :
  ensureResolved rt readEnv options = inr verifier ->
  task_stays (own_key (server_options app options verifier) h) (worker_fetch rt etag specIr vendor readEnv app options req h).
Proof.
  intros Hv. unfold worker_fetch. rewrite Hv. unfold handleSpecRequest. case_match; [split; [apply stays_respond|done]|].
  case_match; [done|]. case_match; [split; [apply stays_respond|done]|]. destruct (cfMaintenanceDispatch rt readEnv) as [|maint]; [done|].
  destruct (verifier h) as [e|[r|]] eqn:Er; [done| |split; [apply stays_respond|done]].
  unfold tenant_fetch. destruct (tenant_router _ _ _ _) as [|fetch] eqn:Ef; [done|].
  assert (Hs : stays (own_key (server_options app options verifier) h) (fetch req)) by by eapply own_key_router.
  apply tbind_stays; [|by intros []]. unfold cached_fetch. apply tbind_stays; [|by intros []].
  unfold withReadCache. case_match; [by split|]. intros [cached|]; [by repeat case_match|]. split; [done|]. intros res. by case_match.
Qed.

(** C20: however the calls of a Worker overlap, evictions, failed cache calls and lost invalidations included: a hit
    answers with a 200 response that a read of the same tenant and URL was given by its handler before (or the empty
    304 for its tag); any other answer is its own handler's; an acknowledged POST, PATCH or DELETE of a cached URL has
    left the deletion of that entry to [waitUntil]; and once an entry is deleted with no read of it in flight, every
    later hit on it answers with a response handled after the deletion. *)
Theorem cache_serves_own_past_reads etag tr m : history etag cold tr m ->
  (forall tr2 tr1 c res st, tr = tr2 ++ Answered c res st :: tr1 ->
     match st with Hit => reads c /\ answered_before etag tr1 c res | _ => Handled c res ∈ tr1 end /\
     (req_method (call_req c) ∈ WRITE_METHODS -> 200 <= res_status res < 300 -> bypassesCache (req_path (call_req c)) = false ->
        Queued (key_of c) ∈ tr1)) /\
  (forall key m1 tr' m2, step etag m [Invalidated key] m1 -> unattended m1 key -> history etag m1 tr' m2 ->
     forall tr2 tr1 c res, tr' = tr2 ++ Answered c res Hit :: tr1 -> key_of c = key -> answered_before etag tr1 c res).
Proof.
  intros Hist. split.
  - intros tr2 tr1 c res st E. apply reached_sound in Hist as [_ _ Ha]. specialize (Ha _ _ _ _ _ E I).
    split; [|apply Ha]. destruct st; [|apply Ha..]. by apply (rests_hit etag from).
  - intros key m1 tr' m2 Hd Hu Hm. by eapply hits_after_deletion.
Qed.

(** ** A sample *)

Definition orders_route (path : jsstr) : routed :=
  if bool_decide (path = js "/v1/c/orders/o1") then RowRoute (js "orders") (js "o1") else CollectionRoute (js "orders").

Definition cf_platform : Platform :=
  MakePlatform (fun _ => 10) (fun _ => replicate 32 7%N) (fun _ => []) (fun _ _ => false) (fun s => s) (fun _ => None)
    (fun _ => NNaN) (fun _ => []) (fun _ => None) (fun n => Z.of_nat n) (fun _ => js "0123456789abcdef0123456789abcdef") (fun _ => js "s")
    (js "u") (fun _ now delay => now + delay) (fun _ => false) orders_route (fun _ => ErrText [] None None false).

Definition cf_options : WorkerOptions :=
  MakeWorkerOptions (MakeAppAuth (js "none") (js "acme")) [] None (inr tt) None None None.

(** Requests of one client, one after the other, with the cache between them. *)
Fixpoint session (reqs : list Request) (c : ReadCache) : prog (list Response) :=
  match reqs with
  | [] => Ret []
  | req :: reqs =>
    bind (alone (worker_fetch cf_platform (fun _ => None) [] (fun s => s) (fun _ => None) (js "shop") cf_options req []) c) (fun '(res, c) =>
    bind (session reqs c) (fun rest => Ret (res :: rest)))
  end.

Definition order_doc (n : Z) : jsval := JObj [(js "_id", JStr (js "o1")); (js "n", JNum (num_of_Z n))].
Definition write_order (method : http_method) (field : string) (doc : jsval) (path : string) : Request :=
  Req method (js path) [] None (Some (JsonText (JObj [(js field, doc)]))).
Definition read_order : Request := Req GET (js "/v1/c/orders/o1") [] None None.

Definition returned_row (res : Response) : option jsval :=
  b ← res_body res; v ← decodeJsonBytes b; prop (js "data") v.

Definition rows_read (reqs : list Request) : option (list (option jsval)) :=
  match (run 0 (session reqs []) empty_memory).1 with
  | inr rs => Some (returned_row <$> base.filter (fun r => res_status r = 200) rs)
  | inl _ => None
  end.

(** [PUT], the method of [replace], is not among the methods that invalidate: the row read
    before it is served after it.  After a [PATCH] the new row is served. *)
Lemma replaced_row_reads_stale :
  rows_read [write_order POST "doc" (order_doc 1) "/v1/c/orders"; read_order;
             write_order PUT "doc" (order_doc 2) "/v1/c/orders/o1"; read_order]
    = Some [Some (order_doc 1); Some JUndef; Some (order_doc 1)] /\
  rows_read [write_order POST "doc" (order_doc 1) "/v1/c/orders"; read_order;
             write_order PATCH "patch" (order_doc 2) "/v1/c/orders/o1"; read_order]
    = Some [Some (order_doc 1); Some JUndef; Some (order_doc 2)].
Proof. split; vm_compute; reflexivity. Qed.

(** One client's calls of the row [o1], with handlers that answer [order_doc n]. *)
Definition row_answer (n : Z) : Response := Resp 200 None (Some (JsonText (order_doc n))).
Definition read_call : call := Call (js "acme") read_order [].
Definition patch_call : call := Call (js "acme") (write_order PATCH "patch" (order_doc 2) "/v1/c/orders/o1") [].
Definition row_key : cache_key := key_of read_call.

(** What may happen next, as a choice: a call with the answer of its handler, an await of
    the [i]th call, the [i]th invalidation. *)
Inductive move := Begin (c : call) (res : Response) | Advance (i : nat) | Invalidate (i : nat).

Definition no_etag : Response -> option jsstr := fun _ => None.

Definition perform (mv : move) (m : machine) : option (list event * machine) :=
  match mv with
  | Begin c res => Some ([], Machine (m_cache m) ((c, cached_fetch no_etag (call_req c) (call_headers c) (call_tenant c) (Ret res)) :: m_calls m) (m_deletes m))
  | Advance i =>
    let l1 := take i (m_calls m) in
    let l2 := drop (S i) (m_calls m) in
    match m_calls m !! i with
    | Some (c, Handler (Ret res) k) => Some ([Handled c res], Machine (m_cache m) (l1 ++ (c, k res) :: l2) (m_deletes m))
    | Some (c, CMatch key k) => Some ([], Machine (m_cache m) (l1 ++ (c, k (cache_match key (m_cache m))) :: l2) (m_deletes m))
    | Some (c, CPut key res k) => Some ([], Machine (cache_put key res (m_cache m)) (l1 ++ (c, k) :: l2) (m_deletes m))
    | Some (c, WaitUntil d k) => Some (Queued <$> option_list d, Machine (m_cache m) (l1 ++ (c, k) :: l2) (option_list d ++ m_deletes m))
    | Some (c, Done (res, st)) => Some ([Answered c res st], Machine (m_cache m) (l1 ++ l2) (m_deletes m))
    | _ => None
    end
  | Invalidate i =>
    match m_deletes m !! i with
    | Some key => Some ([Invalidated key], Machine (cache_delete key (m_cache m)) (m_calls m) (take i (m_deletes m) ++ drop (S i) (m_deletes m)))
    | None => None
    end
  end.

Fixpoint play (mvs : list move) (tr : list event) (m : machine) : option (list event * machine) :=
  match mvs with
  | [] => Some (tr, m)
  | mv :: mvs => '(es, m') ← perform mv m; play mvs (es ++ tr) m'
  end.

Lemma perform_step mv m es m' : perform mv m = Some (es, m') -> step no_etag m es m'.
Proof.
  destruct mv as [c res|i|i]; cbn [perform]; [intros [= <- <-]; constructor|..].
  - destruct (m_calls m !! i) as [[c code]|] eqn:E; [|done]. apply take_drop_middle in E. symmetry in E.
    destruct code as [[res st]|e|q k|key k|key res k|d k]; try done; [| |intros [= <- <-]; by econstructor..].
    + intros [= <- <-]. by eapply step_answers.
    + destruct q; try done. intros [= <- <-]. eapply step_handles; [done|]. exists (fun _ _ => False), (World empty_memory [] []), (World empty_memory [] []). constructor.
  - destruct (m_deletes m !! i) as [key|] eqn:E; [|done]. intros [= <- <-]. constructor. by rewrite take_drop_middle.
Qed.

Lemma play_history mvs tr0 m0 tr m m1 : history no_etag m0 tr m -> play mvs tr m = Some (tr0, m1) -> history no_etag m0 tr0 m1.
Proof.
  revert tr m. induction mvs as [|mv mvs IH]; intros tr m Hist; cbn [play]; [by intros [= <- <-]|].
  destruct (perform mv m) as [[es m']|] eqn:E; [|done]. cbn. apply IH. eapply history_step; [done|]. by eapply perform_step.
Qed.

Definition whole_call (c : call) (res : Response) (awaits : nat) : list move := Begin c res :: replicate awaits (Advance 0).

(** What a read and a patch come to: a miss takes five steps, a hit and a patch three. *)
Definition read_patch_read : list move := whole_call read_call (row_answer 1) 5 ++ whole_call patch_call (row_answer 2) 3 ++ whole_call read_call (row_answer 2) 3.
Definition then_fresh : list move := whole_call read_call (row_answer 2) 5 ++ whole_call read_call (row_answer 3) 3.

(** The read between its handler and its store is overtaken by a patch and its
    invalidation: the old row is put back, and later reads answer from it. *)
Lemma overtaken_read_restores_stale_row : exists tr m,
  history no_etag cold ([Answered read_call (row_answer 1) Hit; Answered read_call (row_answer 1) Miss; Invalidated row_key] ++ tr) m /\
  Answered patch_call (row_answer 2) Bypass ∈ tr.
Proof.
  eexists _, _. split.
  - eapply (play_history ([Begin read_call (row_answer 1); Advance 0; Advance 0] ++ whole_call patch_call (row_answer 2) 3 ++
      [Invalidate 0; Advance 0; Advance 0; Advance 0] ++ whole_call read_call (row_answer 2) 3) _ _ [] cold); [constructor|].
    vm_compute. reflexivity.
  - left.
Qed.

Definition events_of (mvs : list move) (m : machine) : list event := (default ([], m) (play mvs [] m)).1.
Definition state_of (mvs : list move) (m : machine) : machine := (default ([], m) (play mvs [] m)).2.

Lemma played mvs m : play mvs [] m = Some (events_of mvs m, state_of mvs m) -> history no_etag m (events_of mvs m) (state_of mvs m).
Proof. apply play_history. constructor. Qed.

Definition patched : machine := state_of read_patch_read cold.
Definition deleted : machine := state_of [Invalidate 0] patched.

(** Before the deletion a hit still answers the first row; after it the cache answers what was read since. *)
Lemma cache_serves_own_past_reads_witness : exists tr tr' m2,
  history no_etag cold (Answered read_call (row_answer 1) Hit :: tr) patched /\ answered_before no_etag tr read_call (row_answer 1) /\
  Queued row_key ∈ tr /\ step no_etag patched [Invalidated row_key] deleted /\ unattended deleted row_key /\
  history no_etag deleted (Answered read_call (row_answer 2) Hit :: tr') m2 /\ answered_before no_etag tr' read_call (row_answer 2).
Proof.
  set (tr := tail (events_of read_patch_read cold)). set (tr' := tail (events_of then_fresh deleted)).
  assert (H1 : history no_etag cold (Answered read_call (row_answer 1) Hit :: tr) patched).
  { apply (played read_patch_read cold). vm_compute. reflexivity. }
  assert (H2 : step no_etag patched [Invalidated row_key] deleted) by (apply (perform_step (Invalidate 0)); vm_compute; reflexivity).
  assert (H3 : history no_etag deleted (Answered read_call (row_answer 2) Hit :: tr') (state_of then_fresh deleted)).
  { apply (played then_fresh deleted). vm_compute. reflexivity. }
  assert (Hu : unattended deleted row_key) by (intros c code Hin; vm_compute in Hin; by apply not_elem_of_nil in Hin).
  destruct (cache_serves_own_past_reads no_etag _ _ H1) as [Hans Hdel].
  exists tr, tr', (state_of then_fresh deleted).
  split; [exact H1|]. split; [exact (proj2 (proj1 (Hans [] tr read_call (row_answer 1) Hit eq_refl)))|]. split.
  - assert (E : Answered read_call (row_answer 1) Hit :: tr =
      [Answered read_call (row_answer 1) Hit] ++ Answered patch_call (row_answer 2) Bypass :: tail tr) by (vm_compute; reflexivity).
    change (Queued row_key ∈ Answered patch_call (row_answer 2) Bypass :: tail tr). right.
    apply (Hans _ _ patch_call (row_answer 2) Bypass E); [right; left|cbn; lia|vm_compute; reflexivity].
  - split; [exact H2|]. split; [exact Hu|]. split; [exact H3|].
    exact (Hdel row_key deleted _ _ H2 Hu H3 [] tr' read_call (row_answer 2) eq_refl eq_refl).
Defined.
