(* ===== verification/R2Binding.v ===== *)
(** * The R2 binding (adapter-cloudflare/src/r2-binding-storage.ts)

    [Storage] over a Worker's bucket binding: quoted ETags, preconditions, a paged listing, and
    the retry policy around every call.  The binding is the platform's: a record of functions
    on a state [St], whose documented behaviour [r2_laws] states on a map of keys to bodies and
    ETags; a put stores its body under whatever ETag the bucket answers.  Abort signals and content types are left out. *)
From Stdlib Require Import QArith.
From S2P Require Import Prelude JsText JsValue Errors Json Storage Effects Retry Maintenance.
Local Open Scope Z_scope.

(** ** The binding *)

(** A precondition on the ETag of the stored object; ["*"] matches every object. *)
Inductive R2Conditional := NoCondition | EtagMatches (etag : jsstr) | EtagDoesNotMatch (etag : jsstr).

(** A bare [R2Object] has no body. *)
Record R2Object := MakeR2Object { r2_etag : jsstr; r2_body : option bytes; uploaded : Z }.

Inductive r2_from := FromStart (startAfter : option jsstr) | FromCursor (cursor : jsstr).

Record R2Objects := MakeR2Objects { page_objects : list (jsstr * jsstr); truncated : bool; page_cursor : option jsstr }.

(** What a binding call throws: a [BaerlyError], or another value with its message. *)
Inductive binding_error := BoundError (e : js_error) | OtherThrown (msg : jsstr).

Record R2Bucket (St : Type) := MakeBucket {
  bucket_get : jsstr -> R2Conditional -> St -> (binding_error + option R2Object) * St;
  bucket_put : jsstr -> bytes -> R2Conditional -> St -> (binding_error + option R2Object) * St;
  bucket_delete : jsstr -> St -> (binding_error + unit) * St;
  bucket_list : jsstr -> r2_from -> option nat -> St -> (binding_error + R2Objects) * St
}.
Arguments MakeBucket {St}. Arguments bucket_get {St}. Arguments bucket_put {St}.
Arguments bucket_delete {St}. Arguments bucket_list {St}.

(** ** ETags *)

Definition stripQuotes (etag : jsstr) : jsstr :=
  if bool_decide (head etag = Some quote) && bool_decide (last etag = Some quote) then removelast (tail etag) else etag.

Definition quoteEtag (hex : jsstr) : jsstr := [quote] ++ hex ++ [quote].

(** ** Errors *)

(** A substring. *)
Fixpoint has_part (part s : jsstr) : bool :=
  starts_with part s || match s with [] => false | _ :: s' => has_part part s' end.

(** [/a.*b/]: the parts in order, on one line. *)
Fixpoint has_parts (a b s : jsstr) : bool :=
  starts_with a s && has_part b (drop (length a) s) || match s with [] => false | _ :: s' => has_parts a b s' end.

Fixpoint lines (s : jsstr) : list jsstr :=
  match s with
  | [] => [[]]
  | u :: s' => if bool_decide (u ∈ [10; 13; 8232; 8233]%N) then [] :: lines s'
               else match lines s' with l :: ls => (u :: l) :: ls | [] => [[u]] end
  end.

(** [/auth|permission|forbidden/i] *)
Definition denied (msg : jsstr) : bool :=
  existsb (fun part => has_part part (ascii_lower msg)) [js "auth"; js "permission"; js "forbidden"].

(** [/not.*found|no.*such.*bucket/i] *)
Definition missing (msg : jsstr) : bool :=
  existsb (fun l => has_parts (js "not") (js "found") l
                    || existsb (fun i => starts_with (js "no") (drop i l) && has_parts (js "such") (js "bucket") (drop (i + 2) l)) (seq 0 (length l)))
    (lines (ascii_lower msg)).

Definition binding_code (e : binding_error) : js_error :=
  match e with
  | BoundError e => e
  | OtherThrown msg => new_error_cause (if denied msg then AccessDenied else if missing msg then InvalidConfig else NetworkError) OtherError
  end.

(** ** The adapter *)

Section adapter.
Context {St : Type} (bucket : R2Bucket St) (random : nat -> Q).

(** [#callBinding] *)
Definition callBinding {A} (fn : St -> (binding_error + A) * St) (conditionalCreate : bool) (s : St) : result A * St :=
  (retryStorageCall (fun s => match fn s with (inl e, s) => (inl (binding_code e), s) | (inr a, s) => (inr a, s) end)
     random (RetryOptions None None conditionalCreate) s).1.

Definition r2_get (key : jsstr) (ifNoneMatch : option jsstr) (s : St) : result (option StorageGetResult) * St :=
  match assertValidStorageKey key with
  | Some e => (inl e, s)
  | None =>
    let onlyIf := match ifNoneMatch with Some e => EtagDoesNotMatch (stripQuotes e) | None => NoCondition end in
    match callBinding (bucket_get bucket key onlyIf) false s with
    | (inl e, s) => (inl e, s)
    | (inr None, s) => (inr None, s)
    | (inr (Some obj), s) => (inr ((fun b => GetResult b (quoteEtag (r2_etag obj))) <$> r2_body obj), s)
    end
  end.

Definition put_condition (opts : StoragePutOptions) : R2Conditional :=
  match ifMatch opts with
  | Some e => EtagMatches (stripQuotes e)
  | None => if ifNoneMatch opts then EtagDoesNotMatch (js "*") else NoCondition
  end.

Definition r2_put (key : jsstr) (b : bytes) (opts : StoragePutOptions) (s : St) : result StoragePutResult * St :=
  match assertValidStorageKey key with
  | Some e => (inl e, s)
  | None => match callBinding (bucket_put bucket key b (put_condition opts)) (ifNoneMatch opts) s with
            | (inl e, s) => (inl e, s)
            | (inr None, s) => (inl (new_error WriteConflict), s)
            | (inr (Some obj), s) => (inr (PutResult (quoteEtag (r2_etag obj)) (Some (uploaded obj))), s)
            end
  end.

Definition r2_delete (key : jsstr) (s : St) : result unit * St :=
  match assertValidStorageKey key with
  | Some e => (inl e, s)
  | None => callBinding (bucket_delete bucket key) false s
  end.

Definition yield_entry (o : jsstr * jsstr) : StorageListEntry := ListEntry o.1 (quoteEtag o.2).

(** The [while] loop, read to its end; [cap] is what is left to yield, [None] without one.
    [None] is an exhausted fuel. *)
Fixpoint list_loop (fuel : nat) (prefix : jsstr) (from : r2_from) (cap : option nat) (s : St) :
    option (result (list StorageListEntry) * St) :=
  match fuel with
  | O => None
  | S fuel =>
    if bool_decide (cap = Some O) then Some (inr [], s)
    else
      match callBinding (bucket_list bucket prefix from ((fun c => Nat.min c 1000) <$> cap)) false s with
      | (inl e, s) => Some (inl e, s)
      | (inr page, s) =>
        let entries := yield_entry <$> page_objects page in
        let taken := match cap with Some c => take c entries | None => entries end in
        let left := (fun c => c - length taken)%nat <$> cap in
        (* the cap was met inside the page *)
        if match cap with Some c => (c <? length entries)%nat | None => false end then Some (inr taken, s)
        else if negb (truncated page) then Some (inr taken, s)
        else match page_cursor page with
             | None => Some (inr taken, s)
             | Some cursor =>
               match list_loop fuel prefix (FromCursor cursor) left s with
               | Some (inr rest, s) => Some (inr (taken ++ rest), s)
               | other => other
               end
             end
      end
  end.

Definition r2_list (fuel : nat) (prefix : jsstr) (startAfter : option jsstr) (maxKeys : option nat) (s : St) :=
  list_loop fuel prefix (FromStart (match startAfter with Some [] => None | o => o end)) maxKeys s.
End adapter.

(** ** The documented behaviour of a bucket *)

(** The condition on what is stored, by bare ETags. *)
Definition r2_condition (c : R2Conditional) (o : option StoredObject) : bool :=
  match c with
  | NoCondition => true
  | EtagMatches e => match o with Some o => bool_decide (stored_etag o = quoteEtag e) | None => false end
  | EtagDoesNotMatch e => match o with
                          | Some o => negb (bool_decide (e = js "*")) && negb (bool_decide (stored_etag o = quoteEtag e))
                          | None => true
                          end
  end.

(** A map of stored objects, to read as [MemoryStorage] reads its own (its ETag counter plays no part in a read). *)
Abbreviation object_map := (gmap jsstr StoredObject).
Definition reading (m : object_map) : MemoryStorage := Memory m 0.

(** The contract of a put on such a map, under the ETag the storage chooses. *)
Definition map_put (etag : jsstr) (now : Z) (key : jsstr) (b : bytes) (opts : StoragePutOptions) (m : object_map) :
    result StoragePutResult * object_map :=
  match assertValidStorageKey key with
  | Some e => (inl e, m)
  | None =>
    if put_precondition opts (m !! key) then (inr (PutResult etag (Some now)), <[key := Stored b etag]> m)
    else (inl (new_error WriteConflict), m)
  end.

(** [MemoryStorage]'s own put is that, with the next ETag of its counter. *)
Lemma memory_put_is_map_put now key b opts m :
  let (r, m') := memory_put now key b opts m in
  (r, objects m') = map_put (memory_store key b m).1 now key b opts (objects m).
Proof.
  unfold memory_put, map_put, memory_store. destruct (assertValidStorageKey key); [done|]. destruct (put_precondition opts _); [|done].
  by destruct (nextEtag m) as [e m1] eqn:E; unfold nextEtag in E; injection E as <- <-.
Qed.

Section laws.
Context {St : Type} (bucket : R2Bucket St) (view : St -> object_map).
(** [covers s prefix from L]: a listing of [prefix] from there on holds the entries [L]. *)
Context (covers : St -> jsstr -> r2_from -> list StorageListEntry -> Prop).

(** A bucket whose calls are answered: reads and writes of the map [view], and pages of a
    listing, each at most as long as asked and not empty unless it is the last. *)
Record r2_laws : Prop := {
  law_get : forall key c s,
    match view s !! key with
    | None => bucket_get bucket key c s = (inr None, s)
    | Some o => exists hex at_, stored_etag o = quoteEtag hex /\
        bucket_get bucket key c s = (inr (Some (MakeR2Object hex (if r2_condition c (Some o) then Some (stored_body o) else None) at_)), s)
    end;
  law_put : forall key b c s,
    if r2_condition c (view s !! key)
    then exists hex at_ s', bucket_put bucket key b c s = (inr (Some (MakeR2Object hex None at_)), s') /\
           view s' = <[key := Stored b (quoteEtag hex)]> (view s)
    else bucket_put bucket key b c s = (inr None, s);
  law_delete : forall key s, exists s', bucket_delete bucket key s = (inr tt, s') /\ view s' = delete key (view s);
  law_list_start : forall s prefix after, covers s prefix (FromStart after) (memory_list prefix after None (reading (view s)));
  law_list : forall s prefix from L limit, covers s prefix from L -> limit <> Some O ->
    exists n keys more next, bucket_list bucket prefix from limit s = (inr (MakeR2Objects keys more next), s) /\
      yield_entry <$> keys = take n L /\ (forall l, limit = Some l -> (length keys <= l)%nat) /\
      if more : bool then take n L <> [] /\ exists cursor, next = Some cursor /\ covers s prefix (FromCursor cursor) (drop n L)
      else take n L = L
}.

(** What a call that throws may have done: the attempts applied so far do not change when
    the message is one the adapter takes for a refusal, and only messages are thrown. *)
Definition r2_refusals {M} (applied : St -> M) : Prop := forall key b c s e s',
  bucket_put bucket key b c s = (inl e, s') ->
  exists msg, e = OtherThrown msg /\ (denied msg || missing msg = true -> applied s' = applied s).
End laws.

(** ** Lemmas *)

Lemma strip_quote hex : stripQuotes (quoteEtag hex) = hex.
Proof.
  unfold stripQuotes, quoteEtag. cbn [app head tail]. rewrite (bool_decide_eq_true_2 (Some quote = _)) by done.
  rewrite app_comm_cons, last_snoc, bool_decide_eq_true_2 by done. cbn [andb]. apply removelast_last.
Qed.

Lemma quote_inj hex hex' : quoteEtag hex = quoteEtag hex' -> hex = hex'.
Proof. intros H. by rewrite <- (strip_quote hex), H, strip_quote. Qed.

Section calls.
Context {St : Type} (bucket : R2Bucket St) (random : nat -> Q) (view : St -> object_map)
        (covers : St -> jsstr -> r2_from -> list StorageListEntry -> Prop).
Context (laws : r2_laws bucket view covers).

(** An answered call is made once. *)
Lemma call_answered {A} (fn : St -> (binding_error + A) * St) cc s a s' : fn s = (inr a, s') -> callBinding random fn cc s = (inr a, s').
Proof. intros H. unfold callBinding, retryStorageCall, retry_cap. vm_compute (num_integer _). cbn. by rewrite H. Qed.

Lemma get_refines key ifNoneMatch s :
  (forall e, ifNoneMatch = Some e -> exists hex, e = quoteEtag hex /\ hex <> js "*") ->
  r2_get bucket random key ifNoneMatch s = (memory_get key ifNoneMatch (reading (view s)), s).
Proof.
  intros Hq. unfold r2_get, memory_get. destruct (assertValidStorageKey key); [done|].
  set (onlyIf := match ifNoneMatch with Some e => _ | None => _ end).
  pose proof (law_get _ _ _ laws key onlyIf s) as H. cbn [reading objects]. destruct (view s !! key) as [o|] eqn:Eo.
  - destruct H as (hex & at_ & Ho & H). rewrite (call_answered _ _ _ _ _ H). do 2 f_equal. cbn [r2_etag r2_body].
    destruct ifNoneMatch as [e|]; subst onlyIf; cbn [r2_condition]; [|by rewrite bool_decide_eq_false_2, Ho by done].
    destruct (Hq e eq_refl) as (hex' & -> & Hne). rewrite strip_quote, (bool_decide_eq_false_2 (hex' = _)) by done. cbn [negb andb].
    destruct (bool_decide_reflect (stored_etag o = quoteEtag hex')) as [E|E].
    + rewrite bool_decide_eq_true_2 by (by rewrite E). done.
    + rewrite bool_decide_eq_false_2 by congruence. cbn. by rewrite Ho.
  - by rewrite (call_answered _ _ _ _ _ H).
Qed.

(** The two preconditions of a put are not combined, and an expected ETag is one the adapter gave out. *)
Definition plain_options (opts : StoragePutOptions) : Prop :=
  (ifMatch opts = None \/ ifNoneMatch opts = false) /\ forall e, ifMatch opts = Some e -> exists hex, e = quoteEtag hex.

Lemma condition_agrees opts o : plain_options opts -> r2_condition (put_condition opts) o = put_precondition opts o.
Proof.
  intros [Hone Hq]. unfold put_condition, put_precondition. destruct (ifMatch opts) as [e|].
  - destruct Hone as [Hone|Hone]; [done|rewrite Hone]. destruct (Hq e eq_refl) as [hex ->]. by rewrite strip_quote.
  - by destruct (ifNoneMatch opts), o as [o|]; cbn; rewrite ?bool_decide_eq_true_2 by done.
Qed.

Lemma put_refines key b opts s : plain_options opts ->
  exists hex now, let (r, s') := r2_put bucket random key b opts s in (r, view s') = map_put (quoteEtag hex) now key b opts (view s).
Proof.
  intros Hp. unfold r2_put, map_put. destruct (assertValidStorageKey key); [by exists [], 0|].
  pose proof (law_put _ _ _ laws key b (put_condition opts) s) as H. rewrite condition_agrees in H by done.
  destruct (put_precondition opts _).
  - destruct H as (hex & at_ & s' & H & Hv). rewrite (call_answered _ _ _ _ _ H). exists hex, at_. cbn [r2_etag uploaded]. by rewrite Hv.
  - rewrite (call_answered _ _ _ _ _ H). by exists [], 0.
Qed.

Lemma delete_refines key s : let (r, s') := r2_delete bucket random key s in
  r = (memory_delete key (reading (view s))).1 /\ view s' = objects (memory_delete key (reading (view s))).2.
Proof.
  unfold r2_delete, memory_delete. destruct (assertValidStorageKey key); [done|].
  destruct (law_delete _ _ _ laws key s) as (s' & H & Hv). by rewrite (call_answered _ _ _ _ _ H).
Qed.

(** The pages put together are the listing, cut at the cap. *)
Lemma list_loop_all prefix s : forall fuel from L cap, covers s prefix from L -> (length L < fuel)%nat ->
  list_loop bucket random fuel prefix from cap s = Some (inr (match cap with Some c => take c L | None => L end), s).
Proof.
  induction fuel as [|fuel IH]; intros from L cap Hc Hf; [lia|]. cbn [list_loop].
  case_bool_decide as Ez; [subst cap; by rewrite take_0|].
  destruct (law_list _ _ _ laws s prefix from L ((fun c => Nat.min c 1000) <$> cap) Hc) as (n & keys & more & next & H & Hk & Hl & Hm).
  { by destruct cap as [[|c]|]. }
  rewrite (call_answered _ _ _ _ _ H). cbn [page_objects truncated page_cursor]. rewrite Hk.
  assert (Hlen : length keys = length (take n L)) by (by rewrite <- Hk, length_fmap).
  assert (Hcut : match cap with Some c => (c <? length (take n L))%nat | None => false end = false).
  { destruct cap as [c|]; [|done]. apply Nat.ltb_ge. specialize (Hl _ eq_refl). rewrite <- Hlen. lia. }
  rewrite Hcut. assert (Htake : match cap with Some c => take c (take n L) | None => take n L end = take n L).
  { destruct cap as [c|]; [|done]. apply Nat.ltb_ge in Hcut. by apply take_ge. }
  rewrite Htake. destruct more; cbn [negb].
  - destruct Hm as (Hne & cursor & -> & Hrest). assert (Hn : (length L = length (take n L) + length (drop n L))%nat) by (rewrite <- length_app; by rewrite take_drop).
    assert (0 < length (take n L))%nat by (destruct (take n L); [done|cbn [length]; lia]).
    rewrite (IH _ (drop n L) _ Hrest) by lia. f_equal. f_equal. f_equal. destruct cap as [c|]; cbn [fmap option_fmap option_map].
    + apply Nat.ltb_ge in Hcut. transitivity (take c (take n L ++ drop n L)); [|by rewrite take_drop]. by rewrite take_app, Htake.
    + apply take_drop.
  - f_equal. f_equal. f_equal. rewrite Hm in Hcut |- *. destruct cap as [c|]; [|done]. apply Nat.ltb_ge in Hcut. symmetry. by apply take_ge.
Qed.

Lemma list_refines prefix after cap s fuel : (length (memory_list prefix after None (reading (view s))) < fuel)%nat ->
  r2_list bucket random fuel prefix after cap s = Some (inr (memory_list prefix after cap (reading (view s))), s).
Proof.
  intros Hf. unfold r2_list. set (start := match after with Some [] => None | o => o end).
  assert (E : memory_list prefix start None (reading (view s)) = memory_list prefix after None (reading (view s))) by (by destruct after as [[|]|]).
  rewrite (list_loop_all prefix s fuel (FromStart start) (memory_list prefix after None (reading (view s)))); [|rewrite <- E; apply (law_list_start _ _ _ laws)|done].
  destruct cap as [c|]; [|done]. destruct (memory_list_spec prefix after (reading (view s))) as (_ & _ & _ & Hn). by rewrite Hn.
Qed.
End calls.

Lemma binding_refusal e : (isThrottled (binding_code (OtherThrown e)) = true \/ refused (binding_code (OtherThrown e)) = true) ->
  denied e || missing e = true.
Proof. cbn [binding_code]. destruct (denied e); [done|]. destruct (missing e); [done|]. vm_compute. naive_solver. Qed.

(** A refused create: no attempt was applied. *)
Lemma create_fate {St M} (bucket : R2Bucket St) random (applied : St -> M) key b s e s' :
  r2_refusals bucket applied -> r2_put bucket random key b create_only s = (inl e, s') -> proves_unapplied e = true -> applied s' = applied s.
Proof.
  intros Hr. unfold r2_put. destruct (assertValidStorageKey key); [by intros [= <- <-]|]. cbn [ifNoneMatch create_only].
  destruct (callBinding random _ true s) as [[e'|[obj|]] s1] eqn:Ec; [|done|by intros [= <- <-]]. intros [= <- <-] Hp.
  unfold callBinding, retryStorageCall in Ec. change (retry_cap _) with (Some 2%nat) in Ec. cbv iota in Ec.
  match type of Ec with (retry_loop ?f ?r ?o _ _ _ _ _).1 = _ => destruct (retry_loop f r o 3 0 2 false s) as [[r0 s2] waits] eqn:Er end.
  cbn [fst] in Ec. injection Ec as -> ->. eapply (retry_loop_fate _ _ (RetryOptions None None true) applied 3 0 2 false s e' s1 waits s); [|reflexivity|reflexivity|done|exact Er|lia|exact Hp].
  intros s0 e0 s0' H0. destruct (bucket_put bucket key b _ s0) as [[e1|a] s3] eqn:Ep; [|done]. injection H0 as <- <-.
  destruct (Hr _ _ _ _ _ _ Ep) as (msg & -> & Happ). split; [intros Hd; by apply Happ, binding_refusal|]. by destruct (denied msg), (missing msg).
Qed.

(** A message with one of the sniffed words makes a failed create definitive. *)
Lemma plain_error_proves_unapplied : proves_unapplied (binding_code (OtherThrown (js "internal error: authority timed out"))) = true.
Proof. by vm_compute. Qed.

(** ** The theorem *)

(** C21: Against a bucket that answers, the adapter keeps the storage contract on the bucket's map of keys to bodies
    and ETags: reads and conditional reads, deletes and a listing (put together from as many pages as the bucket cuts
    it into) are [MemoryStorage]'s on that map, and a put applies exactly when its precondition holds and answers the
    ETag the bucket stored the body under, whatever that is.  Against a bucket that fails, a create rejected with an
    error that proves it was not applied left the bucket as it was, given that a message worded as a refusal is one. *)
Theorem r2_refines_memory {St} (bucket : R2Bucket St) random view covers : r2_laws bucket view covers ->
  (forall key e s, (forall t, e = Some t -> exists hex, t = quoteEtag hex /\ hex <> js "*") ->
     r2_get bucket random key e s = (memory_get key e (reading (view s)), s)) /\
  (forall key b opts s, plain_options opts ->
     exists hex now, let (r, s') := r2_put bucket random key b opts s in (r, view s') = map_put (quoteEtag hex) now key b opts (view s)) /\
  (forall key s, let (r, s') := r2_delete bucket random key s in
     r = (memory_delete key (reading (view s))).1 /\ view s' = objects (memory_delete key (reading (view s))).2) /\
  (forall prefix after cap s fuel, (length (memory_list prefix after None (reading (view s))) < fuel)%nat ->
     r2_list bucket random fuel prefix after cap s = Some (inr (memory_list prefix after cap (reading (view s))), s)) /\
  (forall faulty M (applied : St -> M), r2_refusals faulty applied -> forall key b s e s',
     r2_put faulty random key b create_only s = (inl e, s') -> proves_unapplied e = true -> applied s' = applied s).
Proof.
  intros Hl. split; [|split; [|split; [|split]]].
  - intros. by eapply get_refines.
  - intros. by eapply put_refines.
  - intros. by eapply delete_refines.
  - intros. by eapply list_refines.
  - intros faulty M applied Hr key b s e s'. by apply create_fate.
Qed.

(** ** A sample bucket *)

(** Its state is a map with bare ETags, each a digest of its body; a page is one entry, and a
    cursor tells how many entries were given after which key: a tally, a slash, the key. *)
Definition quoted (o : StoredObject) : StoredObject := Stored (stored_body o) (quoteEtag (stored_etag o)).
Definition sample_view (m : object_map) : object_map := quoted <$> m.

Definition sample_digest (b : bytes) : jsstr := match b with JsonText JNull => js "37a6259c" | _ => js "d41d8cd9" end.

Definition sample_cursor (given : nat) (after : jsstr) : jsstr := replicate given 49%N ++ slash :: after.

Fixpoint read_cursor (c : jsstr) : nat * jsstr :=
  match c with
  | [] => (0%nat, [])
  | u :: c => if decide (u = slash) then (0%nat, c) else let (n, after) := read_cursor c in (S n, after)
  end.

Definition sample_listing (m : object_map) (prefix after : jsstr) : list StorageListEntry :=
  memory_list prefix (Some after) None (reading (sample_view m)).

Definition paged (given : nat) (after : jsstr) (L : list StorageListEntry) : R2Objects :=
  MakeR2Objects ((fun e => (entry_key e, stripQuotes (entry_etag e))) <$> take 1 L) (1 <? length L)%nat (Some (sample_cursor (S given) after)).

Definition sample_page (prefix : jsstr) (m : object_map) (given : nat) (after : jsstr) : R2Objects :=
  paged given after (drop given (sample_listing m prefix after)).

Definition sample_bucket : R2Bucket object_map :=
  MakeBucket
    (fun key c m => (inr ((fun o => MakeR2Object (stored_etag o) (if r2_condition c (Some (quoted o)) then Some (stored_body o) else None) 0) <$> m !! key), m))
    (fun key b c m => if r2_condition c (sample_view m !! key)
                      then (inr (Some (MakeR2Object (sample_digest b) None 0)), <[key := Stored b (sample_digest b)]> m)
                      else (inr None, m))
    (fun key m => (inr tt, delete key m))
    (fun prefix from _ m => (inr match from with
       | FromStart after => sample_page prefix m 0 (default [] after)
       | FromCursor c => let (given, after) := read_cursor c in sample_page prefix m given after
       end, m)).

Lemma read_sample_cursor given after : read_cursor (sample_cursor given after) = (given, after).
Proof. induction given as [|n IH]; [done|]. cbn [sample_cursor replicate app read_cursor]. rewrite decide_False by done. unfold sample_cursor in IH. by rewrite IH. Qed.

Definition sample_covers (m : object_map) (prefix : jsstr) (from : r2_from) (L : list StorageListEntry) : Prop :=
  exists given after, L = drop given (sample_listing m prefix after) /\
    match from with FromStart o => given = 0%nat /\ after = default [] o | FromCursor c => c = sample_cursor given after end.

Lemma sample_etags m e prefix after : e ∈ sample_listing m prefix after -> exists hex, entry_etag e = quoteEtag hex.
Proof.
  intros (o & Ho & -> & _)%in_memory_list. cbn [reading objects] in Ho. apply lookup_fmap_Some in Ho as (o' & <- & _). by eexists.
Qed.

Lemma yielded_page m prefix given after : yield_entry <$> page_objects (sample_page prefix m given after) =
  take 1 (drop given (sample_listing m prefix after)).
Proof.
  cbn [sample_page paged page_objects]. rewrite <- list_fmap_compose. rewrite <- (list_fmap_id (take 1 _)) at 2. apply list_fmap_ext.
  intros i e He. assert (Hin : e ∈ sample_listing m prefix after).
  { apply list_elem_of_lookup_2 in He. revert He. generalize (sample_listing m prefix after). intros L He.
    rewrite <- (take_drop given L). apply elem_of_app. right. rewrite <- (take_drop 1 (drop given L)). apply elem_of_app. by left. }
  apply sample_etags in Hin as [hex E]. destruct e as [k t]. cbn [entry_etag] in E. subst t. unfold yield_entry, compose. cbn [fst snd entry_key entry_etag]. by rewrite strip_quote.
Qed.

Lemma sample_laws : r2_laws sample_bucket sample_view sample_covers.
Proof.
  split.
  - intros key c m. unfold sample_view. rewrite lookup_fmap. cbn [sample_bucket bucket_get]. destruct (m !! key) as [o|]; [|done].
    exists (stored_etag o), 0. done.
  - intros key b c m. cbn [sample_bucket bucket_put]. destruct (r2_condition c (sample_view m !! key)); [|done].
    exists (sample_digest b), 0. eexists. split; [reflexivity|]. unfold sample_view. by rewrite fmap_insert.
  - intros key m. eexists. split; [reflexivity|]. unfold sample_view. by rewrite fmap_delete.
  - intros m prefix after. exists 0%nat, (default [] after). done.
  - intros m prefix from L limit (given & after & -> & Hf) Hl.
    assert (E : bucket_list sample_bucket prefix from limit m = (inr (sample_page prefix m given after), m)).
    { cbn [sample_bucket bucket_list]. destruct from as [o|c]; [by destruct Hf as [-> ->]|]. by rewrite Hf, read_sample_cursor. }
    rewrite E. exists 1%nat. eexists _, _, _. split; [reflexivity|]. split; [apply yielded_page|]. split.
    + intros l ->. rewrite length_fmap, length_take. destruct l; [done|lia].
    + destruct (Nat.ltb_spec 1 (length (drop given (sample_listing m prefix after)))).
      * split; [intros E0; apply (f_equal length) in E0; rewrite length_take in E0; cbn [length] in E0; lia|]. eexists. split; [reflexivity|]. exists (S given), after. split; [|done].
        rewrite drop_drop. f_equal. lia.
      * apply take_ge. lia.
Qed.

Definition sample_objects : object_map :=
  (bucket_put sample_bucket (js "a/2") (JsonText JNull) NoCondition
    (bucket_put sample_bucket (js "b/1") (JsonText JNull) NoCondition
      (bucket_put sample_bucket (js "a/1") (JsonText JNull) NoCondition ∅).2).2).2.

(** The same bucket behind a line that applies the first create of [a/3] and loses the
    answer, and refuses any other put. *)
Definition faulty_bucket : R2Bucket object_map :=
  MakeBucket (bucket_get sample_bucket)
    (fun key b c m => if bool_decide (key = js "a/3") && bool_decide (m !! key = None)
                      then (inl (OtherThrown (js "connection reset")), <[key := Stored b (sample_digest b)]> m)
                      else (inl (OtherThrown (js "forbidden")), m))
    (bucket_delete sample_bucket) (bucket_list sample_bucket).

Lemma faulty_refusals : r2_refusals faulty_bucket (fun m => m).
Proof.
  intros key b c m e m'. cbn [faulty_bucket bucket_put]. destruct (bool_decide (key = _) && _); intros [= <- <-]; [|by eexists].
  eexists. split; [done|]. intros H. vm_compute in H. discriminate H.
Qed.

(** Two pages make a listing; a second create conflicts; a refused create was not applied,
    and one that was applied is not rejected as refused. *)
Lemma r2_refines_memory_witness :
  r2_list sample_bucket (fun _ => 0%Q) 3 (js "a/") None None sample_objects =
    Some (inr (memory_list (js "a/") None None (reading (sample_view sample_objects))), sample_objects) /\
  entry_key <$> memory_list (js "a/") None None (reading (sample_view sample_objects)) = [js "a/1"; js "a/2"] /\
  (exists hex now, let (r, s') := r2_put sample_bucket (fun _ => 0%Q) (js "a/1") (JsonText JNull) create_only sample_objects in
    (r, sample_view s') = map_put (quoteEtag hex) now (js "a/1") (JsonText JNull) create_only (sample_view sample_objects)) /\
  (exists e s', r2_put faulty_bucket (fun _ => 0%Q) (js "a/2") (JsonText JNull) create_only ∅ = (inl e, s') /\ proves_unapplied e = true /\ s' = ∅) /\
  exists e s', r2_put faulty_bucket (fun _ => 0%Q) (js "a/3") (JsonText JNull) create_only ∅ = (inl e, s') /\ proves_unapplied e = false /\ s' !! js "a/3" <> None.
Proof.
  destruct (r2_refines_memory sample_bucket (fun _ => 0%Q) sample_view sample_covers sample_laws) as (_ & Hput & _ & Hlist & Hfate).
  split; [|split; [by vm_compute|split; [|split]]].
  - apply Hlist. apply Nat.ltb_lt. by vm_compute.
  - apply Hput. split; [by left|done].
  - eexists _, _. split; [vm_compute; reflexivity|]. split; [reflexivity|].
    eapply (Hfate faulty_bucket object_map (fun m => m) faulty_refusals (js "a/2") (JsonText JNull)); [vm_compute; reflexivity|reflexivity].
  - eexists _, _. split; [vm_compute; reflexivity|]. split; [reflexivity|]. vm_compute. discriminate.
Defined.
